(* ===== verification/_CoqProject ===== *)
-Q . S2P
Prelude.v
Clib.v
LibbbStr.v
LibbbNum.v
ShMath.v
ShMathSafe.v
ShMathPrec.v
Doom.v
WasiCompat.v
Apk.v
ApkTar.v
ApkDb.v
Tr.v
TestExpr.v
Cut.v
Uniq.v
Sort.v
Tail.v
LineEdit.v
LineHist.v
LineTerm.v
LineDraw.v
Modes.v
AshBase.v
AshVar.v
AshVarSpec.v
AshInput.v
AshLex.v
AshParse.v
AshParseSpec.v
AshLexRun.v
AshParseRun.v
AshParseCmd.v
AshParseCorrect.v
AshCopy.v
AshExpand.v
AshExpandSpec.v
AshExpandIfs.v
AshExpandRun.v
AshExpandCorrect.v
AshGlob.v
LineCorrect.v
AshFrame.v
AshRedir.v
AshRedirCorrect.v
AshStack.v
AshStackSpec.v
AshStackCorrect.v
AshShell.v
AshBuiltin.v
AshEval.v
AshDemo.v
AshBuiltinCorrect.v
AshDir.v
AshQuote.v
AshEvalFrame.v
AshEvalCtl.v
