(* ===== verification/Prelude.v ===== *)
(** * OS-MOAP's guest programs: a verification library

    OS-MOAP runs a BusyBox 1.36.1 shell, ported to wasm32-wasip1, inside a web
    page.  The repository holds the ported BusyBox (guest/busybox/upstream, with
    the applets selected by guest/busybox/config-wasi-v0), a layer that stands in
    for the missing operating system (guest/busybox/wasi-compat), a package
    manager (upstream/miscutils/apk.c), and packages such as a DOOM back end
    (guest/pkgs/doom).  This library models the project's own C code and the
    BusyBox code the shell and the package manager rest on, and proves what makes
    it correct.  Paths below are relative to guest/busybox/upstream unless they
    start with guest.

    ** The parts and how they interact

    The shell evaluates arithmetic (shell/math.c) and conditions
    (coreutils/test.c) and runs applets (tr, cut, uniq, ...) in its own process;
    programs that are not applets are handed to the page through [osd_spawn].
    There is no fork: pipelines and command substitutions run in the shell's own
    process with descriptors 0 and 1 redirected.
    [apk] asks the page for an index and for archives through two bridges of the
    same layer, unpacks the archives and keeps a database and the list of wanted
    packages ("world") in the file system.  All of them call libbb's string, path
    and number functions.  DOOM's back end reads keys from, and draws frames to,
    the terminal whose mode the layer's termios functions control.

    ** Files

    - Prelude: characters, C strings, fixed-width integers, tactics and the hint
      database [cchar].  [Clib]: the C library functions the code calls.
    - LibbbStr, LibbbNum: libbb's strings and paths; numbers and escapes.
    - ShMath: shell/math.c, operation by operation ([arith_lookup_val],
      [arith_apply], one turn [eval_step] of the main loop, [evaluate_string]).
      ShMathSafe: termination, value range, stack bounds.  ShMathPrec: the
      evaluator against a reference semantics of expression trees.
    - Doom: guest/pkgs/doom/doomgeneric_osmoap.c (Modules Time, Keys, Video).
    - WasiCompat: guest/busybox/wasi-compat/wasi-compat.c (Modules Ids, Procs,
      Tty, Temp, Host).
    - Apk: miscutils/apk.c, all commands, over the interface [FileSys] with its
      laws [FileSysLaws]; ApkTar: archive extraction; ApkDb: add, del, upgrade.
    - AshBase: the result and exception type of shell code.  AshVar: shell/ash.c's
      variables, local scopes, export and start-up.  AshVarSpec: the abstract
      machine of maps and scopes and the proof that AshVar refines it.
    - AshInput: ash.c's parse trees, the stack of inputs with its characters read
      and put back, the parser's globals and its error monad.  AshLex: the
      tokenizer ([readtoken1] with its internal procedures, [xxreadtoken],
      here-documents).  AshParse: [list], [andor], [pipeline], [simplecmd],
      [parse_command], [parsecmd].  AshParseSpec: programs, their text and their
      parse trees.  AshLexRun, AshParseRun, AshParseCmd: rules for running the
      tokenizer and the parser, and what each level of the grammar does with its
      text.  AshParseCorrect: the induction over programs.
    - AshStack: ash.c's memory stack ([stalloc], [growstackblock], marks, the stack
      of a command substitution) over a heap of blocks.  AshStackSpec: a client and
      the discipline it keeps.  AshStackCorrect: the proof that it is safe.
    - AshCopy: ash.c's copies of function bodies (calcsize, copynode, copyfunc)
      over a memory of cells.
    - AshExpand: word expansion ([expandarg], [argstr], [evalvar], [expbackq],
      [ifsbreakup], [expandmeta], [casematch], ...) over the interface [Shell].
      AshExpandSpec: what the parts of a word mean, and reference field splitting.
      AshExpandIfs: splitting, quote removal and file name matching of encoded
      text.  AshExpandRun: one expansion at a time.  AshExpandCorrect: words.
      AshGlob: the buffer of [expmeta] and the sorting of its results.
      AshFrame: what expansions leave alone.
    - AshRedir: descriptors, [redirect], [popredir] and the tables of saved
      copies, over the interface [Host].  AshRedirCorrect: the reference and the
      proofs.
    - AshShell: the state of the whole shell, with the parts' computations run in
      it ([on_vars], [on_parser], [on_redir], [on_expander]).  AshBuiltin: the
      builtins that do not call the evaluator (cd, pwd, umask, let, read with
      shell/shell_common.c, the lists of export, set and trap) and libbb's signal
      names.  AshEval: the evaluator ([evaltree], [evalcommand], [evalpipe],
      [evalfun], [osd_evalbackcmd_inproc], [find_command], the builtins that
      control execution, hash, type and command).  AshEvalFrame: what parts of it
      keep.  AshEvalCtl: the evaluator with signals as values.  AshDemo: scripts
      run from their text to the terminal's contents, in a small operating system.
    - AshBuiltinCorrect: read against a reference field splitter, umask.  AshDir:
      cd and the canonical name of the directory.  AshQuote: what [single_quote]
      writes, through the tokenizer and the expander.
    - Tr, TestExpr, Cut, Uniq, Sort: coreutils/tr.c, test.c, cut.c, uniq.c, sort.c.
      Tail: tail.c and head.c.
    - Modes: libbb/parse_mode.c and libbb/mode_string.c.
    - LineEdit: libbb/lineedit.c, the shell's line editor with its history and
      completion.  LineTerm: a terminal and a reference editor.  LineDraw: what
      the drawing leaves on the screen.  LineCorrect: keys, completion, lines.
      LineHist: the history and its file.

    ** How the code is rendered

    A C string is the list of its characters; a pointer into it is the suffix it
    points to, or an index where two pointers move in one buffer.  Integers are
    [Z] with their wrap-around written out ([wrapU], [wrapS]); on wasm32 int,
    long and size_t have 32 bits, long long 64; char is unsigned in this build.
    Global variables are records passed along; functions that can fail, die,
    longjmp or read outside an object return values of a result type that tells
    these outcomes apart.  Disabled features (config-wasi-v0) are left out and
    named in the file headers.  What is outside the repository is a parameter:
    the shell's variables ([VarStore]), the
    shell's options, parameters and variables seen by expansion ([Shell]), the
    running of a command substitution, fnmatch and directory reading (arguments
    of [expandarg]), opening files and choosing descriptors ([Host]), applets,
    spawned programs, directories, reading and writing of descriptors ([Os]), the
    builtins left out below and the libc's signal names (arguments of
    [evaltree]), the file system of apk ([FileSys]), the page's
    imports (arguments of [osd_spawn] and of the apk commands), doomkeys.h
    ([DoomKeys]), the libc's [qsort] ([Qsort], and [Libc] in Sort), the names that
    completion looks at ([Names]), the process
    environment of test ([env]).  Each class with laws has an instance that satisfies them.

    ** What the theorems show

    - Arithmetic: the text of any expression evaluates to the expression's value
      ([arith_evaluates]); evaluation ends, recursion through variables included
      ([arith_terminates]); the operator stack never overflows
      ([stacks_bounded]), the number stack can ([numstack_overflow]).
    - Shell variables: the table with its saved copies refines a map with scopes
      ([vars_refine_scopes]).
    - Parsing: the parser maps the text of every well-formed program to its parse
      tree ([parse_script]); a line is read whole and nothing behind it
      ([parsecmd_line]).
    - Expansion: a word the parser made is expanded to the words its parts mean,
      split and matched against file names ([expand_words]), or to one text
      ([expand_text]), or to a pattern ([case_pattern]); file name matching ends
      inside its buffer ([expmeta_in_buffer]) and sorts ([expsort_sorts]).
      Words are those of AshParseSpec without a leading "~"; tilde prefixes,
      "$@", positional parameters and the operators of ${...} are modelled in
      AshExpand but outside these theorems.
    - Redirections: they change the script's descriptors as the reference does
      ([redirect_refines]) and are undone exactly, failed ones too
      ([redirect_undone]), whatever errno the page's dup leaves for a closed
      descriptor, unless the shell dies of it ([closed_descriptor_kills]);
      descriptors from 10 on can leak (examples there).
    - Evaluation: break, continue and return in global flags are signals caught
      by the right loop or function ([structured_control]); a substitution leaves
      the evaluator's flags as they were ([substitution_isolated]).  What an
      exception out of a substitution, pipeline or loop does leave behind is shown
      by the examples of AshDemo.
    - Builtins: read assigns what POSIX's field splitting gives for the line
      ([read_splits]); cd resolves names as the reference does
      ([updatepwd_canonical]) and always leaves a canonical one
      ([cd_keeps_canonical], [docd_logical]); quoted output reads back
      ([quoted_reads_back]), printed masks too ([umask_reads_back]).
    - Line editing: a line is read as by the reference editor, and the terminal
      shows the prompt, the text and nothing else ([line_read]), if they fit on the
      screen and the prompt does not end at its margin ([wide_prompt]); completion
      extends what was typed ([complete_extends]); the history is one bounded
      queue, in memory and in its file ([history_kept]).
    - Memory stack: used in LIFO order, with errors anywhere, no access is outside
      the memory it was given and everything held keeps its contents
      ([stack_safe]).  The other parts build texts as values; this is what lets
      them.
    - Functions: a copied body whose size is an int fills its block exactly
      ([copyfunc_fits]).
    - Packages: extraction inverts packing ([tar_extract_archive]), add installs
      exactly the package ([do_add_installs]), del undoes add
      ([add_del_restores]), a failed download loses nothing
      ([upgrade_keeps_old]); a world line that del forgets
      ([del_keeps_world_line]).
    - Conditions: test's parser computes the value of its words
      ([test_evaluates]), ends and stays inside argv ([test_total]); the
      four-word parenthesis case fails ([paren_two_words]).
    - DOOM: key events alternate ([keys_alternate]) and held keys are released
      ([expired_released]), frames fit their buffer ([frame_fits]) except for
      absurd sizes ([frame_overflows]), the cells tile the screen
      ([screen_tiled]).
    - The system layer: spawning, with its failures ([osd_spawn_spec]), argument
      passing ([flatten_roundtrip]), terminal mode ([tty_in_step]), temporary names
      ([mkstemp_fresh]).
    - Text tools: cut ([cut_fields_selects], [cut_bytes_selects] from the text of
      the list on, [cut_ends], [cut_reversed_accepted]), tr ([tr_translates], [tr_deletes],
      [tr_squeezes], [expand_in_bounds]), uniq ([uniq_groups], with what -f,
      -s, -w and -i compare), sort
      ([sort_sorts]; numbers far apart are misordered, [sort_overflow]), tail
      ([tail_shows]), head and tail together ([head_then_tail]).
    - libbb: path simplification ([simplify_path_canonical]), the language of
      symbolic modes ([parse_mode_means]), mode strings ([mode_string_reads]), checked numbers
      ([xstrtou_exact], [bb_strtoull_contract], [bb_strtoll_roundtrip],
      [xato_all_but_min]), escapes ([strcpy_escapes_in_place]), strrstr
      ([strrstr_rightmost]), string tables ([string_table_roundtrip]).

    ** Fuel

    Loops that are not structural take a [fuel] argument chosen by the calling
    definition: one more than the number of characters, words or entries the loop
    consumes (each use says which).  For the evaluator, test, cut and tr the
    theorems state that it is never exhausted; the round-trip and equality
    theorems exclude it for the others, since a loop cut short would miss its
    result.  The parser's procedures call each other in circles: [procs_at n]
    gives them [n] levels of nesting and loops of at most [n] turns, and its
    theorems hold for every [n] from some bound on.  [evaltree n] likewise gives
    trees [n] levels of nesting (a function call, a substitution or an eval is a
    level) and loops of [n] turns; a script cut short is [Wild], never a result,
    and [structured_control] holds for every [n].

    ** Not modelled

    The rest of ash (tracing with set -x, the interactive loop, ulimit, wait,
    times, help and history; job control is not compiled in), the prompt, the
    terminal's modes and the clock of read, the error flag of stdout, the
    decoding of keys (read_key), applet dispatch, the waiting of tail -f, sed, grep, ls and the other applets; memory allocation
    failure where the code dies on it; message texts on stderr; the applets that
    are not configured, and the packaging scripts. *)

From Stdlib Require Import Ascii String ZArith Lia.
From stdpp Require Import base gmap list strings.

(** ** Characters and C strings

    A [char] is an [ascii]; the BusyBox build compiles with [-funsigned-char],
    so its numeric value is in [0, 256).  A C string is the list of its
    characters without the terminating NUL; a pointer into a string is the
    suffix it points to, and [*p] is [hd0 p], which is NUL at the end. *)

Abbreviation cstr := (list ascii).

Declare Scope cchar_scope.
Delimit Scope cchar_scope with cc.
Notation "a ≟ b" := (Ascii.eqb a b) (at level 70) : cchar_scope.
Global Open Scope cchar_scope.

Definition lit (s : string) : cstr := list_ascii_of_string s.
Arguments lit s%_string.

Definition NUL : ascii := "000"%char.
Definition TAB : ascii := "009"%char.
Definition NL : ascii := "010"%char.
Definition CR : ascii := "013"%char.
Definition SP : ascii := "032"%char.

(** The value of an (unsigned) char and the truncating conversion back. *)
Definition uc (c : ascii) : Z := Z.of_N (N_of_ascii c).
Definition chr (z : Z) : ascii := ascii_of_N (Z.to_N (z mod 256)).

(** [*p] and [p[i]]. *)
Definition hd0 (p : cstr) : ascii := match p with [] => NUL | c :: _ => c end.
Definition at0 (p : cstr) (i : nat) : ascii := hd0 (drop i p).

(** ** Fixed-width integers *)

Definition wrapU (w z : Z) : Z := (z mod 2 ^ w)%Z.
Definition wrapS (w z : Z) : Z := ((z + 2 ^ (w - 1)) mod 2 ^ w - 2 ^ (w - 1))%Z.

Definition is_u (w z : Z) : Prop := (0 <= z < 2 ^ w)%Z.
Definition is_s (w z : Z) : Prop := (- 2 ^ (w - 1) <= z < 2 ^ (w - 1))%Z.

(** C truth values. *)
Definition b2z (b : bool) : Z := if b then 1%Z else 0%Z.

(** ** Tactics *)

(** Finish a goal about one character by looking at all 256 of them. *)
Ltac all_chars c := destruct c as [[] [] [] [] [] [] [] []]; vm_compute; try reflexivity.

(** Turn boolean tests in hypotheses into propositions and split conjunctions. *)
Ltac bool_prop :=
  repeat match goal with
  | H : (_ && _)%bool = true |- _ => apply andb_true_iff in H as [? ?]
  | H : (_ || _)%bool = false |- _ => apply orb_false_iff in H as [? ?]
  | H : negb _ = true |- _ => apply negb_true_iff in H
  | H : negb _ = false |- _ => apply negb_false_iff in H
  | H : Ascii.eqb _ _ = true |- _ => apply Ascii.eqb_eq in H
  | H : Ascii.eqb _ _ = false |- _ => apply Ascii.eqb_neq in H
  | H : (_ <=? _)%Z = true |- _ => apply Z.leb_le in H
  | H : (_ <=? _)%Z = false |- _ => apply Z.leb_gt in H
  | H : (_ <? _)%Z = true |- _ => apply Z.ltb_lt in H
  | H : (_ <? _)%Z = false |- _ => apply Z.ltb_ge in H
  | H : (_ =? _)%Z = true |- _ => apply Z.eqb_eq in H
  | H : (_ =? _)%Z = false |- _ => apply Z.eqb_neq in H
  | H : bool_decide _ = true |- _ => apply bool_decide_eq_true in H
  | H : bool_decide _ = false |- _ => apply bool_decide_eq_false in H
  end.

(** Case-split the first stuck [match]/[if] of the goal or of a hypothesis. *)
Ltac case_goal :=
  match goal with
  | |- context [match ?x with _ => _ end] => destruct x eqn:?
  end.

(** Decide a closed proposition by evaluation. *)
Ltac by_eval := refine (bool_decide_unpack _ _); vm_compute; exact I.

(** ** Generic lemmas *)

Create HintDb cchar discriminated.

Lemma uc_range c : (0 <= uc c < 256)%Z.
Proof.
  unfold uc. pose proof (N_ascii_bounded c). lia.
Qed.

Lemma chr_uc c : chr (uc c) = c.
Proof.
  unfold chr. rewrite Z.mod_small by apply uc_range.
  unfold uc. rewrite N2Z.id. apply ascii_N_embedding.
Qed.

Lemma uc_chr z : (0 <= z < 256)%Z -> uc (chr z) = z.
Proof.
  intros H. unfold uc, chr. rewrite Z.mod_small by lia.
  rewrite N_ascii_embedding; lia.
Qed.

Lemma uc_inj a b : uc a = uc b -> a = b.
Proof. intros H. rewrite <- (chr_uc a), <- (chr_uc b). by f_equal. Qed.

Lemma ceqb_uc a b : Ascii.eqb a b = Z.eqb (uc a) (uc b).
Proof.
  destruct (Ascii.eqb_spec a b) as [->|Hne]; [by rewrite Z.eqb_refl|].
  symmetry. apply Z.eqb_neq. intros H. by apply Hne, uc_inj.
Qed.

Lemma wrapS_id w z : (0 < w)%Z -> is_s w z -> wrapS w z = z.
Proof.
  unfold is_s, wrapS. intros Hw Hz.
  assert (2 ^ w = 2 * 2 ^ (w - 1))%Z as Hp.
  { rewrite <- Z.pow_succ_r by lia. f_equal. lia. }
  rewrite Z.mod_small by lia. lia.
Qed.

Lemma wrapS_range w z : (0 < w)%Z -> is_s w (wrapS w z).
Proof.
  unfold is_s, wrapS. intros Hw.
  assert (2 ^ w = 2 * 2 ^ (w - 1))%Z as Hp.
  { rewrite <- Z.pow_succ_r by lia. f_equal. lia. }
  assert (0 < 2 ^ (w - 1))%Z by (apply Z.pow_pos_nonneg; lia).
  pose proof (Z.mod_pos_bound (z + 2 ^ (w - 1)) (2 ^ w) ltac:(lia)). lia.
Qed.

(** [wrapS] only depends on the residue modulo [2^w]. *)
Lemma wrapS_cong w a b : (0 < w)%Z -> (a mod 2 ^ w = b mod 2 ^ w)%Z -> wrapS w a = wrapS w b.
Proof.
  intros Hw H. unfold wrapS.
  rewrite <- (Zplus_mod_idemp_l a), H, Zplus_mod_idemp_l. done.
Qed.

Lemma wrapS_mod w z : (0 < w)%Z -> (wrapS w z mod 2 ^ w = z mod 2 ^ w)%Z.
Proof.
  intros Hw. unfold wrapS.
  rewrite Zminus_mod_idemp_l. f_equal. lia.
Qed.

Lemma wrapS_wrapS_add w a b : (0 < w)%Z -> wrapS w (wrapS w a + b) = wrapS w (a + b).
Proof.
  intros Hw. apply wrapS_cong; [done|].
  rewrite <- (Zplus_mod_idemp_l (wrapS w a)), wrapS_mod, Zplus_mod_idemp_l by done. done.
Qed.

Lemma wrapU_range w z : (0 <= w)%Z -> is_u w (wrapU w z).
Proof. intros Hw. apply Z.mod_pos_bound, Z.pow_pos_nonneg; lia. Qed.

Lemma wrapU_id w z : is_u w z -> wrapU w z = z.
Proof. apply Z.mod_small. Qed.

Lemma lor_ge a b : (0 <= a)%Z -> (0 <= b)%Z -> (a <= Z.lor a b)%Z.
Proof.
  intros Ha Hb. apply (Z.ldiff_le a (Z.lor a b)); [by apply Z.lor_nonneg|]. apply Z.bits_inj'. intros k Hk.
  rewrite Z.ldiff_spec, Z.lor_spec, Z.bits_0. by destruct (Z.testbit a k), (Z.testbit b k).
Qed.

Lemma Forall2_impl_in {A B} (P Q : A -> B -> Prop) l k :
  Forall2 P l k -> (forall x y, x ∈ l -> y ∈ k -> P x y -> Q x y) -> Forall2 Q l k.
Proof.
  induction 1 as [|x y l k Hxy Hlk IH]; intros H; constructor.
  - apply H; [left|left|done].
  - apply IH. intros a b Ha Hb. apply H; by right.
Qed.

#[export] Hint Resolve uc_range wrapS_range wrapU_range : cchar.
