(* ===== verification/Clib.v ===== *)
(** * The part of the C library the modelled code calls

    String scanning ([strchr], [strstr], [strncmp], [strtok], ...), number
    scanning ([strtoull], [strtoll] and their 32-bit forms, with the [errno]
    they leave behind) and decimal printing, on the string model of Prelude.
    These are language-library functions: no line of the repository defines
    them, so none of them has a source mapping. *)

From Stdlib Require Import Ascii String ZArith Lia.
From stdpp Require Import base gmap list strings.
From S2P Require Import Prelude.

(** ** String scanning *)

(** [strchrnul (p, c)]: the suffix at the first [c], or at the terminator. *)
Fixpoint strchrnul (p : cstr) (c : ascii) : cstr :=
  match p with
  | [] => []
  | a :: p' => if (a ≟ c) then p else strchrnul p' c
  end.

(** [strchr (p, c)] for a non-NUL [c]; [None] is the NULL pointer. *)
Fixpoint strchr (p : cstr) (c : ascii) : option cstr :=
  match p with
  | [] => None
  | a :: p' => if (a ≟ c) then Some p else strchr p' c
  end.

(** [strrchr (p, c)] for a non-NUL [c]: the last occurrence. *)
Fixpoint strrchr (p : cstr) (c : ascii) : option cstr :=
  match p with
  | [] => None
  | a :: p' => match strrchr p' c with
               | Some q => Some q
               | None => if (a ≟ c) then Some p else None
               end
  end.

(** [strncmp (p, q, n) == 0]. *)
Fixpoint strncmp_eq (p q : cstr) (n : nat) : bool :=
  match n with
  | O => true
  | S n' => match p, q with
            | [], [] => true
            | a :: p', b :: q' => (a ≟ b) && strncmp_eq p' q' n'
            | _, _ => false
            end
  end.

(** [strcmp]: the difference of the first differing (unsigned) characters. *)
Fixpoint strcmp (p q : cstr) : Z :=
  match p, q with
  | [], [] => 0
  | [], b :: _ => (- uc b)%Z
  | a :: _, [] => uc a
  | a :: p', b :: q' => if (a ≟ b) then strcmp p' q' else (uc a - uc b)%Z
  end.

(** Does the string start with [n]? *)
Fixpoint starts_with (n h : cstr) : bool :=
  match n, h with
  | [], _ => true
  | a :: n', b :: h' => (a ≟ b) && starts_with n' h'
  | _ :: _, [] => false
  end.

(** [strstr (h, n)]: the suffix at the first occurrence of [n]. *)
Fixpoint strstr (h n : cstr) : option cstr :=
  if starts_with n h then Some h
  else match h with
       | [] => None
       | _ :: h' => strstr h' n
       end.

(** The text in front of a suffix pointer: [p] read up to [q]. *)
Definition upto (p q : cstr) : cstr := take (length p - length q) p.

(** One call of [strtok] with a one-character delimiter: skip delimiters, cut
    the token, return it with the saved position. *)
Fixpoint strtok_skip (d : ascii) (s : cstr) : cstr :=
  match s with
  | [] => []
  | a :: s' => if (a ≟ d) then strtok_skip d s' else s
  end.

Definition strtok (d : ascii) (s : cstr) : option (cstr * cstr) :=
  match strtok_skip d s with
  | [] => None
  | s' => let e := strchrnul s' d in Some (upto s' e, tail e)
  end.

(** Iterating [strtok] to the end: the list of tokens a [while (line)] loop
    visits.  The string length bounds the number of calls. *)
Fixpoint strtok_loop (fuel : nat) (d : ascii) (s : cstr) : list cstr :=
  match fuel with
  | O => []
  | S f => match strtok d s with
           | None => []
           | Some (t, s') => t :: strtok_loop f d s'
           end
  end.

Definition strtok_all (d : ascii) (s : cstr) : list cstr := strtok_loop (S (length s)) d s.

(** ** Number scanning *)

Inductive errno_t := E_OK | EINVAL | ERANGE.

#[export] Instance errno_eq_dec : EqDecision errno_t.
Proof. solve_decision. Defined.

Definition is_space (c : ascii) : bool :=
  let v := uc c in ((v =? 32) || ((9 <=? v) && (v <=? 13)))%Z.

(** The value of a digit character, 255 when it is none. *)
Definition digit_val (c : ascii) : Z :=
  let v := uc c in
  (if (48 <=? v) && (v <=? 57) then v - 48
   else if (97 <=? v) && (v <=? 122) then v - 87
   else if (65 <=? v) && (v <=? 90) then v - 55
   else 255)%Z.

Fixpoint skip_space (s : cstr) : cstr :=
  match s with
  | [] => []
  | c :: s' => if is_space c then skip_space s' else s
  end.

(** Accumulate digits of [base]; the value is not yet bounded. *)
Fixpoint scan_digits (base acc : Z) (s : cstr) : Z * cstr :=
  match s with
  | [] => (acc, [])
  | c :: s' => if (digit_val c <? base)%Z
               then scan_digits base (acc * base + digit_val c)%Z s'
               else (acc, s)
  end.

(** The subject sequence after the sign: resolve base 0 and the [0x] prefix,
    then scan.  [None]: no digits at all. *)
Definition scan_number (base : Z) (s : cstr) : option (Z * cstr) :=
  let hex := (at0 s 0 ≟ "0"%char) && ((at0 s 1 ≟ "x"%char) || (at0 s 1 ≟ "X"%char)) in
  if (((base =? 0) || (base =? 16))%Z && hex && (digit_val (at0 s 2) <? 16)%Z)%bool
  then Some (scan_digits 16 0 (drop 2 s))
  else
    let b := if (base =? 0)%Z then (if (at0 s 0 ≟ "0"%char) then 8%Z else 10%Z) else base in
    if (digit_val (hd0 s) <? b)%Z then Some (scan_digits b 0 s) else None.

Record strto_res := mk_strto { st_val : Z; st_end : cstr; st_err : errno_t }.

(** Sign, digits and end pointer; on no conversion the end pointer is the
    original string and (as musl, the libc of wasi-sdk, does) errno is EINVAL. *)
Definition strto_scan (base : Z) (s : cstr) : option (bool * Z * cstr) :=
  let s1 := skip_space s in
  let neg := (hd0 s1 ≟ "-"%char) in
  let s2 := if neg || (hd0 s1 ≟ "+"%char) then tail s1 else s1 in
  match scan_number base s2 with
  | None => None
  | Some (v, e) => Some (neg, v, e)
  end.

(** [strtoull] / [strtoul]: [w] is the width of the result. *)
Definition strtoul_w (w base : Z) (s : cstr) : strto_res :=
  match strto_scan base s with
  | None => mk_strto 0 s EINVAL
  | Some (neg, v, e) =>
      if (2 ^ w <=? v)%Z then mk_strto (2 ^ w - 1) e ERANGE
      else mk_strto (wrapU w (if neg then - v else v)) e E_OK
  end.

(** [strtoll] / [strtol]. *)
Definition strtol_w (w base : Z) (s : cstr) : strto_res :=
  match strto_scan base s with
  | None => mk_strto 0 s EINVAL
  | Some (neg, v, e) =>
      if neg then
        if (2 ^ (w - 1) <? v)%Z then mk_strto (- 2 ^ (w - 1)) e ERANGE else mk_strto (- v) e E_OK
      else
        if (2 ^ (w - 1) <=? v)%Z then mk_strto (2 ^ (w - 1) - 1) e ERANGE else mk_strto v e E_OK
  end.

(** wasm32: [long] is 32 bits, [long long] 64. *)
Definition strtoull : Z -> cstr -> strto_res := strtoul_w 64.
Definition strtoul : Z -> cstr -> strto_res := strtoul_w 32.
Definition strtoll : Z -> cstr -> strto_res := strtol_w 64.
Definition strtol : Z -> cstr -> strto_res := strtol_w 32.

(** [atoi], where it is defined: on numbers in range. *)
Definition atoi (s : cstr) : Z := st_val (strtol 10 s).

(** ** Decimal printing: [%llu], [%lld] *)

Fixpoint print_digits (fuel : nat) (z : Z) (acc : cstr) : cstr :=
  match fuel with
  | O => acc
  | S f => let acc' := chr (48 + z mod 10) :: acc in
           if (z <? 10)%Z then acc' else print_digits f (z / 10) acc'
  end.

(** Enough fuel for any value: a digit divides the value by ten. *)
Definition fmt_u (z : Z) : cstr := print_digits (S (Z.to_nat (Z.log2 z))) z [].
Definition fmt_d (z : Z) : cstr := if (z <? 0)%Z then "-"%char :: fmt_u (- z) else fmt_u z.

(** ** Lemmas on scanning *)

(** [q] is a suffix of [p]: a pointer into the string [p]. *)
Definition within (q p : cstr) : Prop := exists l, p = l ++ q.

Lemma within_refl p : within p p.
Proof. by exists []. Qed.

Lemma within_trans p q r : within p q -> within q r -> within p r.
Proof. intros [a ->] [b ->]. exists (b ++ a). by rewrite app_assoc. Qed.

Lemma within_cons c p q : within p q -> within p (c :: q).
Proof. intros [a ->]. by exists (c :: a). Qed.

Lemma within_tail c p q : within (c :: p) q -> within p q.
Proof. intros [a ->]. exists (a ++ [c]). by rewrite <- app_assoc. Qed.

Lemma within_drop n p : within (drop n p) p.
Proof. exists (take n p). by rewrite take_drop. Qed.

Lemma within_tl p : within (tail p) p.
Proof. destruct p; [apply within_refl|]. apply within_cons, within_refl. Qed.

Lemma within_length q p : within q p -> length q <= length p.
Proof. intros [a ->]. rewrite length_app. lia. Qed.

Lemma within_nil p : within [] p.
Proof. exists p. by rewrite app_nil_r. Qed.

(** The text in front of a pointer, followed by the pointer, is the string. *)
Lemma upto_within p q : within q p -> p = upto p q ++ q.
Proof.
  intros [a ->]. unfold upto. rewrite length_app.
  replace (length a + length q - length q) with (length a) by lia.
  by rewrite take_app_length.
Qed.

Lemma upto_app a q : upto (a ++ q) q = a.
Proof.
  unfold upto. rewrite length_app.
  replace (length a + length q - length q) with (length a) by lia.
  apply take_app_length.
Qed.

Create HintDb within discriminated.
#[export] Hint Resolve within_refl within_cons within_nil within_drop within_tl : within.

Lemma strchrnul_within p c : within (strchrnul p c) p.
Proof. induction p as [|a p IH]; simpl; [|case_match]; auto with within. Qed.

Lemma skip_space_within s : within (skip_space s) s.
Proof. induction s as [|a s IH]; simpl; [|case_match]; auto with within. Qed.

Lemma scan_digits_within base acc s : within (scan_digits base acc s).2 s.
Proof.
  revert acc. induction s as [|a s IH]; intros acc; simpl; [auto with within|].
  case_match; simpl; auto with within.
Qed.

Lemma scan_digits_lt base acc c s :
  (digit_val c < base)%Z -> length (scan_digits base acc (c :: s)).2 < length (c :: s).
Proof.
  intros H. simpl. rewrite (proj2 (Z.ltb_lt _ _) H).
  pose proof (within_length _ _ (scan_digits_within base (acc * base + digit_val c) s)). lia.
Qed.

(** A conversion consumes at least one character (all bases are at most 36). *)
Lemma scan_number_spec base s v e :
  (base <= 36)%Z -> scan_number base s = Some (v, e) -> within e s /\ length e < length s.
Proof.
  intros Hb. unfold scan_number. destruct s as [|c s].
  { simpl. intros H. exfalso. revert H.
    change (digit_val NUL) with 255%Z.
    rewrite andb_false_r. case_match eqn:Hlt; [|done]. apply Z.ltb_lt in Hlt.
    revert Hlt. case_match; lia. }
  intros H. case_match.
  - injection H as H.
    pose proof (scan_digits_within 16 0 (drop 2 (c :: s))) as Hw. simpl in Hw. rewrite H in Hw. simpl in Hw.
    split; [eapply within_trans; [done|]; apply within_cons, within_drop|].
    apply within_length in Hw. rewrite length_drop in Hw. simpl in *; lia.
  - set (b := if (base =? 0)%Z then _ else _) in *. case_match eqn:Hd; [|done].
    assert (scan_digits b 0 (c :: s) = (v, e)) as H' by congruence. apply Z.ltb_lt in Hd.
    pose proof (scan_digits_within b 0 (c :: s)) as Hs.
    pose proof (scan_digits_lt b 0 c s Hd) as Hl. by rewrite H' in Hs, Hl.
Qed.

(** ** Decimal round trip *)

Definition is_digit_char (c : ascii) : Prop := (48 <= uc c <= 57)%Z.

Lemma digit_val_chr d : (0 <= d < 10)%Z -> digit_val (chr (48 + d)) = d.
Proof.
  intros H. unfold digit_val. rewrite uc_chr by lia.
  rewrite (proj2 (Z.leb_le 48 _)), (proj2 (Z.leb_le _ 57)) by lia. simpl. lia.
Qed.

(** [scan_digits] distributes over the digits [print_digits] emits. *)
Lemma scan_print_digits fuel z acc rest a :
  (0 <= z)%Z -> (z < 2 ^ Z.of_nat fuel)%Z ->
  exists k, (0 <= k)%Z /\
    scan_digits 10 a (print_digits (S fuel) z acc ++ rest)
    = scan_digits 10 (a * 10 ^ (k + 1) + z)%Z (acc ++ rest).
Proof.
  revert z acc. induction fuel as [|f IH]; intros z acc Hz Hf.
  - assert (z = 0)%Z as -> by (simpl in Hf; lia). exists 0%Z. split; [done|].
    simpl. change (0 `mod` 10)%Z with 0%Z. rewrite digit_val_chr by lia. f_equal; lia.
  - cbn [print_digits]. destruct (Z.ltb_spec z 10) as [Hlt|Hge].
    + exists 0%Z. split; [done|].
      rewrite Z.mod_small by lia. cbn [app scan_digits].
      rewrite digit_val_chr by lia.
      rewrite (proj2 (Z.ltb_lt _ _)) by lia. f_equal; lia.
    + pose proof (Z.div_mod z 10 ltac:(lia)). pose proof (Z.mod_pos_bound z 10 ltac:(lia)).
      destruct (IH (z / 10)%Z (chr (48 + z mod 10) :: acc)) as [k [Hk E]].
      { apply Z.div_pos; lia. }
      { rewrite Nat2Z.inj_succ, Z.pow_succ_r in Hf by lia. apply Z.div_lt_upper_bound; lia. }
      exists (k + 1)%Z. split; [lia|]. cbn [print_digits] in E. rewrite E.
      cbn [app scan_digits]. rewrite digit_val_chr by lia.
      rewrite (proj2 (Z.ltb_lt _ _)) by lia. f_equal.
      rewrite (Z.pow_add_r 10 (k + 1) 1) by lia. lia.
Qed.

Lemma log2_fuel z : (0 <= z)%Z -> (z < 2 ^ Z.of_nat (S (Z.to_nat (Z.log2 z))))%Z.
Proof.
  intros Hz. destruct (Z.eq_dec z 0%Z) as [->|Hn]; [done|].
  rewrite Nat2Z.inj_succ, Z2Nat.id by apply Z.log2_nonneg. apply Z.log2_spec. lia.
Qed.

Lemma print_digits_fuel f1 f2 z acc :
  (0 <= z)%Z -> (z < 2 ^ Z.of_nat f1)%Z -> (z < 2 ^ Z.of_nat f2)%Z -> 0 < f1 -> 0 < f2 ->
  print_digits f1 z acc = print_digits f2 z acc.
Proof.
  revert f2 z acc. induction f1 as [|f1 IH]; intros f2 z acc Hz H1 H2 P1 P2; [lia|].
  destruct f2 as [|f2]; [lia|]. cbn [print_digits].
  destruct (Z.ltb_spec z 10); [done|].
  assert (0 <= z / 10)%Z by (apply Z.div_pos; lia).
  rewrite Nat2Z.inj_succ, Z.pow_succ_r in H1, H2 by lia.
  assert (z / 10 < 2 ^ Z.of_nat f1)%Z by (apply Z.div_lt_upper_bound; lia).
  assert (z / 10 < 2 ^ Z.of_nat f2)%Z by (apply Z.div_lt_upper_bound; lia).
  apply IH; try done.
  - destruct f1; [|lia]. simpl in *; lia.
  - destruct f2; [|lia]. simpl in *; lia.
Qed.

(** Printing then scanning gives the value back and stops at a non-digit. *)
Lemma scan_fmt_u z rest :
  (0 <= z)%Z -> (10 <= digit_val (hd0 rest))%Z -> scan_digits 10 0 (fmt_u z ++ rest) = (z, rest).
Proof.
  intros Hz Hr. unfold fmt_u.
  rewrite (print_digits_fuel _ (S (S (Z.to_nat (Z.log2 z))))); try lia.
  2: { apply log2_fuel; lia. }
  2: { pose proof (log2_fuel z Hz). rewrite (Nat2Z.inj_succ (S _)), Z.pow_succ_r by lia. lia. }
  destruct (scan_print_digits (S (Z.to_nat (Z.log2 z))) z [] rest 0 Hz (log2_fuel z Hz))
    as [k [Hk E]].
  rewrite E. simpl. destruct rest as [|c rest]; [done|].
  simpl in *. rewrite (proj2 (Z.ltb_ge _ _)) by lia. done.
Qed.

Lemma print_digits_all fuel z acc :
  (0 <= z)%Z -> Forall is_digit_char acc -> Forall is_digit_char (print_digits fuel z acc).
Proof.
  revert z acc. induction fuel as [|f IH]; intros z acc Hz Ha; simpl; [done|].
  pose proof (Z.mod_pos_bound z 10 ltac:(lia)).
  assert (Forall is_digit_char (chr (48 + z mod 10) :: acc)).
  { constructor; [|done]. unfold is_digit_char. rewrite uc_chr; lia. }
  case_match; [done|]. apply IH; [apply Z.div_pos; lia|done].
Qed.

Lemma fmt_u_digits z : (0 <= z)%Z -> Forall is_digit_char (fmt_u z).
Proof. intros. apply print_digits_all; [done|constructor]. Qed.

Lemma print_digits_nonnil fuel z acc : print_digits (S fuel) z acc <> [].
Proof.
  revert z acc. induction fuel as [|f IH]; intros z acc; cbn [print_digits].
  - case_match; done.
  - case_match; [done|]. apply IH.
Qed.

(** ** Scanning what was printed *)

Lemma fmt_u_cons z : (0 <= z)%Z -> exists c s, fmt_u z = c :: s /\ is_digit_char c.
Proof.
  intros Hz. pose proof (fmt_u_digits z Hz) as H. unfold fmt_u in *.
  destruct (print_digits _ z []) as [|c s] eqn:E; [by apply print_digits_nonnil in E|].
  exists c, s. split; [done|]. by apply Forall_cons in H as [? _].
Qed.

(** A digit is no blank, no sign, and has a value below ten. *)
Lemma digit_char_facts c : is_digit_char c ->
  is_space c = false /\ (c ≟ "-"%char) = false /\ (c ≟ "+"%char) = false /\ (digit_val c <? 10)%Z = true.
Proof.
  unfold is_digit_char, is_space, digit_val. rewrite !ceqb_uc.
  change (uc "-") with 45%Z. change (uc "+") with 43%Z. intros H.
  rewrite (proj2 (Z.leb_le 48 _)), (proj2 (Z.leb_le (uc c) 57)) by lia.
  cbn [andb]. lia.
Qed.

(** The decimal scan of a printed value followed by a non-digit. *)
Lemma strto_scan_fmt_u z rest :
  (0 <= z)%Z -> (10 <= digit_val (hd0 rest))%Z ->
  strto_scan 10 (fmt_u z ++ rest) = Some (false, z, rest).
Proof.
  intros Hz Hr. pose proof (scan_fmt_u z rest Hz Hr) as Hs.
  destruct (fmt_u_cons z Hz) as (c & s & E & Hc). rewrite E in *.
  destruct (digit_char_facts c Hc) as (H1 & H2 & H3 & H4).
  unfold strto_scan, scan_number. cbn [app skip_space]. rewrite H1. cbn [hd0]. rewrite H2, H3.
  cbn [orb]. cbn [Z.eqb orb andb hd0 Pos.eqb]. rewrite H4. cbn [app] in Hs. by rewrite Hs.
Qed.

Lemma strto_scan_fmt_neg z rest :
  (0 <= z)%Z -> (10 <= digit_val (hd0 rest))%Z ->
  strto_scan 10 ("-"%char :: fmt_u z ++ rest) = Some (true, z, rest).
Proof.
  intros Hz Hr. pose proof (scan_fmt_u z rest Hz Hr) as Hs.
  destruct (fmt_u_cons z Hz) as (c & s & E & Hc). rewrite E in *.
  destruct (digit_char_facts c Hc) as (_ & _ & _ & H4).
  unfold strto_scan, scan_number. cbn [app] in *. cbn [skip_space].
  change (is_space "-") with false. cbn [hd0 tail Ascii.eqb Bool.eqb andb orb].
  cbn [Z.eqb orb andb Pos.eqb]. rewrite H4. by rewrite Hs.
Qed.

Lemma strtoul_fmt w z rest :
  is_u w z -> (10 <= digit_val (hd0 rest))%Z ->
  strtoul_w w 10 (fmt_u z ++ rest) = mk_strto z rest E_OK.
Proof.
  intros Hz Hr. unfold strtoul_w. rewrite strto_scan_fmt_u by (done || destruct Hz; lia).
  rewrite (proj2 (Z.leb_gt _ _)) by (destruct Hz; lia). by rewrite wrapU_id.
Qed.

Lemma strtol_fmt w z rest :
  (0 < w)%Z -> is_s w z -> (10 <= digit_val (hd0 rest))%Z ->
  strtol_w w 10 (fmt_d z ++ rest) = mk_strto z rest E_OK.
Proof.
  intros Hw Hz Hr. unfold strtol_w, fmt_d. unfold is_s in Hz.
  destruct (Z.ltb_spec z 0).
  - cbn [app]. rewrite strto_scan_fmt_neg by (done || lia).
    rewrite (proj2 (Z.ltb_ge _ _)) by lia. by rewrite Z.opp_involutive.
  - rewrite strto_scan_fmt_u by (done || lia). by rewrite (proj2 (Z.leb_gt _ _)) by lia.
Qed.

Lemma strtoul_val_range w base s : (0 <= w)%Z -> is_u w (st_val (strtoul_w w base s)).
Proof.
  intros Hw. assert (0 < 2 ^ w)%Z by (apply Z.pow_pos_nonneg; lia).
  unfold strtoul_w, is_u. repeat case_match; simpl; try lia; by apply wrapU_range.
Qed.

(** ** Base 0 (C-like constants): a printed positive value has no leading zero *)

Lemma print_digits_head fuel z acc :
  (0 < z < 2 ^ Z.of_nat fuel)%Z -> hd0 (print_digits fuel z acc) <> "0"%char.
Proof.
  revert z acc. induction fuel as [|f IH]; intros z acc Hz; [simpl in Hz; lia|].
  cbn [print_digits]. destruct (Z.ltb_spec z 10).
  - cbn [hd0]. intros Hc. apply (f_equal uc) in Hc. change (uc "0") with 48%Z in Hc.
    rewrite Z.mod_small, uc_chr in Hc by lia. lia.
  - rewrite Nat2Z.inj_succ, Z.pow_succ_r in Hz by lia.
    assert (0 < z / 10)%Z by (apply Z.div_str_pos; lia).
    apply IH. split; [done|]. apply Z.div_lt_upper_bound; lia.
Qed.

Lemma strto_scan0_fmt_u z rest :
  (0 <= z)%Z -> (36 <= digit_val (hd0 rest))%Z ->
  strto_scan 0 (fmt_u z ++ rest) = Some (false, z, rest).
Proof.
  intros Hz Hr. destruct (Z.eq_dec z 0%Z) as [->|Hn].
  - assert (forall c, (36 <= digit_val c)%Z -> (c ≟ "x"%char) || (c ≟ "X"%char) = false) as Hx.
    { intros c Hc. destruct (Ascii.eqb_spec c "x") as [->|]; [vm_compute in Hc; congruence|].
      destruct (Ascii.eqb_spec c "X") as [->|]; [vm_compute in Hc; congruence|]. done. }
    change (fmt_u 0) with ["0"%char]. change (["0"%char] ++ rest) with ("0"%char :: rest).
    unfold strto_scan. cbn [skip_space]. change (is_space "0") with false. cbn [hd0].
    change (("0" ≟ "-"%char) || ("0" ≟ "+"%char)) with false. cbv iota. unfold scan_number.
    replace (at0 ("0"%char :: rest) 1) with (hd0 rest) by (by destruct rest). rewrite (Hx _ Hr).
    cbn. destruct rest as [|c rest]; [done|]. cbn in *.
    change (digit_val "0") with 0%Z. cbn. by rewrite (proj2 (Z.ltb_ge (digit_val c) _)) by lia.
  - pose proof (scan_fmt_u z rest Hz ltac:(lia)) as Hs.
    pose proof (print_digits_head (S (Z.to_nat (Z.log2 z))) z [] ltac:(split; [lia|by apply log2_fuel])) as Hh.
    destruct (fmt_u_cons z Hz) as (c & s & E & Hc). unfold fmt_u in E. rewrite E in Hh. fold (fmt_u z) in E.
    rewrite E in *. cbn [hd0] in Hh. destruct (digit_char_facts c Hc) as (H1 & H2 & H3 & H4).
    unfold strto_scan, scan_number. cbn [app skip_space]. rewrite H1. cbn [hd0]. rewrite H2, H3.
    cbn [orb]. change (at0 (c :: s ++ rest) 0) with c. rewrite (proj2 (Ascii.eqb_neq _ _) Hh).
    cbn [Z.eqb orb andb hd0]. rewrite H4. cbn [app] in Hs. by rewrite Hs.
Qed.

(** ** Searching *)

Lemma starts_with_spec n h : starts_with n h = true <-> exists r, h = n ++ r.
Proof.
  revert h. induction n as [|a n IH]; intros h; cbn [starts_with]; [split; [by exists h|done]|].
  destruct h as [|b h]; [split; [done|by intros [r ?]]|].
  rewrite andb_true_iff, Ascii.eqb_eq, IH. split.
  - intros [-> [r ->]]. by exists r.
  - intros [r [= -> ->]]. split; [done|by exists r].
Qed.

Lemma starts_with_app n r : starts_with n (n ++ r) = true.
Proof. apply starts_with_spec. by exists r. Qed.

Lemma strstr_here n h : starts_with n h = true -> strstr h n = Some h.
Proof. intros Hs. destruct h; cbn [strstr]; by rewrite Hs. Qed.

(** The result is a suffix that starts with the needle, at the first place. *)
Lemma strstr_some h n r :
  strstr h n = Some r ->
  exists a, h = a ++ r /\ starts_with n r = true /\
    forall a1 c a2, a = a1 ++ c :: a2 -> starts_with n (c :: a2 ++ r) = false.
Proof.
  assert (forall h : cstr, starts_with n h = true -> h = r -> exists a, h = a ++ r /\ starts_with n r = true /\
    forall a1 c a2, a = a1 ++ c :: a2 -> starts_with n (c :: a2 ++ r) = false) as Hhere.
  { intros h' Hs ->. exists []. split; [done|]. split; [done|]. intros [|? ?] ? ?; discriminate. }
  induction h as [|c h IH]; cbn [strstr].
  - destruct (starts_with n []) eqn:Es; [|done]. intros [= E]. by apply Hhere.
  - destruct (starts_with n (c :: h)) eqn:Es; [intros [= E]; by apply Hhere|]. intros Hr.
    destruct (IH Hr) as (a & -> & Hs & Hf). exists (c :: a). split; [done|]. split; [done|].
    intros [|b a1] c' a2 [= ? ?]; subst; [done|]. by eapply Hf.
Qed.

Lemma strstr_none h n a b : strstr h n = None -> h <> a ++ n ++ b.
Proof.
  revert a. induction h as [|c h IH]; intros a; cbn [strstr]; destruct (starts_with n _) eqn:Es; try done; intros Hn E.
  - destruct a; [|done]. cbn [app] in E. by rewrite E, starts_with_app in Es.
  - destruct a as [|c' a]; cbn [app] in E; [by rewrite E, starts_with_app in Es|].
    injection E as -> E. by eapply IH.
Qed.

(** A line is not found across the end of a text that ends with a newline. *)
Definition ends_nl (h : cstr) : Prop := h = [] \/ last h = Some NL.

Lemma ends_nl_tail c h : ends_nl (c :: h) -> ends_nl h.
Proof. intros [?|Hl]; [done|]. destruct h as [|d h]; [by left|]. right. done. Qed.

Lemma starts_line_app m h t :
  NL ∉ m -> h <> [] -> ends_nl h ->
  starts_with (m ++ [NL]) (h ++ t) = starts_with (m ++ [NL]) h.
Proof.
  intros Hm. revert h. induction m as [|a m IH]; intros h Hh He.
  - destruct h as [|c h]; [done|]. by cbn.
  - destruct h as [|c h]; [done|]. cbn [app starts_with].
    apply not_elem_of_cons in Hm as [Ha Hm]. destruct (Ascii.eqb_spec a c) as [->|]; [|done]. cbn [andb].
    destruct h as [|d h].
    + destruct He as [?|[= ->]]; done.
    + apply IH; [done|done|]. by apply ends_nl_tail in He.
Qed.

Lemma strstr_append_line h m t :
  NL ∉ m -> ends_nl h -> strstr h (m ++ [NL]) = None ->
  strstr (h ++ m ++ [NL] ++ t) (m ++ [NL]) = Some (m ++ [NL] ++ t).
Proof.
  intros Hm. induction h as [|c h IH]; intros He Hn.
  - apply strstr_here. rewrite app_assoc. apply starts_with_app.
  - cbn [strstr app] in *. destruct (starts_with (m ++ [NL]) (c :: h)) eqn:Es; [done|].
    change (c :: h ++ m ++ NL :: t) with ((c :: h) ++ m ++ [NL] ++ t).
    rewrite starts_line_app, Es by done. apply IH; [by apply ends_nl_tail in He|done].
Qed.

Lemma strchrnul_app a c t : c ∉ a -> strchrnul (a ++ c :: t) c = c :: t.
Proof.
  induction a as [|b a IH]; intros Hc; cbn [app strchrnul]; [by rewrite Ascii.eqb_refl|].
  apply not_elem_of_cons in Hc as [Hb Hc]. destruct (Ascii.eqb_spec b c) as [->|]; [done|]. by apply IH.
Qed.

Lemma strchrnul_none a c : c ∉ a -> strchrnul a c = [].
Proof.
  induction a as [|b a IH]; intros Hc; cbn [strchrnul]; [done|].
  apply not_elem_of_cons in Hc as [Hb Hc]. destruct (Ascii.eqb_spec b c) as [->|]; [done|]. by apply IH.
Qed.

Lemma strncmp_eq_app p t : strncmp_eq (p ++ t) p (length p) = true.
Proof. induction p as [|c p IH]; [by destruct t|]. cbn. by rewrite Ascii.eqb_refl. Qed.

Lemma strcmp_refl p : strcmp p p = 0%Z.
Proof. induction p as [|c p IH]; [done|]. cbn. by rewrite Ascii.eqb_refl. Qed.

Lemma strcmp_eq p q : NUL ∉ p -> NUL ∉ q -> (strcmp p q =? 0)%Z = bool_decide (p = q).
Proof.
  assert (forall c, c <> NUL -> uc c <> 0%Z) as Hc.
  { intros c Hc Hu. apply Hc. by apply uc_inj. }
  revert q. induction p as [|a p IH]; intros [|b q] Hp Hq; cbn [strcmp].
  - by rewrite bool_decide_eq_true_2.
  - apply not_elem_of_cons in Hq as [Hb _]. rewrite bool_decide_eq_false_2 by done.
    apply Z.eqb_neq. pose proof (Hc b ltac:(congruence)). lia.
  - apply not_elem_of_cons in Hp as [Ha _]. rewrite bool_decide_eq_false_2 by done.
    apply Z.eqb_neq. apply Hc. congruence.
  - apply not_elem_of_cons in Hp as [_ Hp], Hq as [_ Hq].
    destruct (Ascii.eqb_spec a b) as [->|Hne].
    + rewrite IH by done. apply bool_decide_ext. split; congruence.
    + rewrite bool_decide_eq_false_2 by congruence. apply Z.eqb_neq. intros Hz. apply Hne, uc_inj. lia.
Qed.

Lemma strcmp_opp p : forall q, (strcmp q p = - strcmp p q)%Z.
Proof.
  induction p as [|a p IH]; intros [|b q]; cbn [strcmp]; try lia.
  rewrite (Ascii.eqb_sym b a). destruct (a ≟ b)%cc; [apply IH|lia].
Qed.

Lemma uc_pos c : c <> NUL -> (0 < uc c)%Z.
Proof. intros Hc. pose proof (uc_range c). assert (uc c <> 0%Z); [|lia]. intros Hu. apply Hc. by apply uc_inj. Qed.

Lemma strcmp_trans p : forall q r, NUL ∉ p -> NUL ∉ q -> NUL ∉ r ->
  (strcmp p q <= 0 -> strcmp q r <= 0 -> strcmp p r <= 0)%Z.
Proof.
  induction p as [|a p IH]; intros [|b q] [|c r]; cbn [strcmp]; rewrite ?not_elem_of_cons; intros Hp Hq Hr; try lia.
  - intros _ _. destruct Hr as [Hc _]. pose proof (uc_pos c ltac:(congruence)). lia.
  - intros Ha. destruct Hp as [Hp _]. pose proof (uc_pos a ltac:(congruence)). lia.
  - intros _ Hb. destruct Hq as [Hq _]. pose proof (uc_pos b ltac:(congruence)). lia.
  - destruct (Ascii.eqb_spec a b) as [->|Hab], (Ascii.eqb_spec b c) as [->|Hbc].
    + apply IH; tauto.
    + lia.
    + destruct (Ascii.eqb_spec a c); [done|]. lia.
    + assert (uc a <> uc b) by (intros E; by apply Hab, uc_inj). assert (uc b <> uc c) by (intros E; by apply Hbc, uc_inj).
      destruct (Ascii.eqb_spec a c) as [->|]; lia.
Qed.
