(* ===== verification/LibbbStr.v ===== *)
(** * libbb: character classes, string and path helpers

    Models include/libbb.h (the ctype macros), and of libbb/: skip_whitespace.c,
    endofname.c, safe_strncpy.c, strrstr.c, last_char_is.c, concat_path_file.c,
    concat_subpath_file.c, get_last_path_component.c, simplify_path.c, trim.c,
    chomp.c, compare_string_array.c and printable_string.c.  Pointers into a
    string are suffixes; where a function works in place on a buffer through two
    pointers ([bb_simplify_abs_path_inplace]) the buffer and the two indices are
    explicit. *)

From Stdlib Require Import Ascii String ZArith Lia.
From stdpp Require Import base gmap list strings.
From S2P Require Import Prelude Clib.

(** ** include/libbb.h: the ctype macros *)

Module Ctype.
Local Open Scope Z_scope.

(** [(unsigned char)(x)] *)
Definition to_uchar (z : Z) : Z := wrapU 8 z.

Definition isdigit (a : ascii) : bool := to_uchar (uc a - 48) <=? 9.
Definition isupper (a : ascii) : bool := to_uchar (uc a - 65) <=? 90 - 65.
Definition islower (a : ascii) : bool := to_uchar (uc a - 97) <=? 122 - 97.
Definition isalpha (a : ascii) : bool := to_uchar (Z.lor (uc a) 0x20 - 97) <=? 122 - 97.
Definition isblank (a : ascii) : bool := (a ≟ SP) || (a ≟ TAB).
Definition iscntrl (a : ascii) : bool := (uc a <? 32) || (uc a =? 0x7f).
Definition isspace (a : ascii) : bool :=
  let b := to_uchar (uc a - 9) in (b =? 32 - 9) || (b <=? 13 - 9).

Definition isalnum (a : ascii) : bool :=
  let b := to_uchar (uc a - 48) in
  if b <=? 9 then true
  else let b := to_uchar (Z.lor (uc a) 0x20 - 97) in b <=? 122 - 97.

Definition isxdigit (a : ascii) : bool :=
  let b := to_uchar (uc a - 48) in
  if b <=? 9 then true
  else let b := to_uchar (Z.lor (uc a) 0x20 - 97) in b <=? 102 - 97.

Definition isprint_asciionly (a : ascii) : bool := wrapU 32 (uc a - 0x20) <=? 0x7e - 0x20.

(** The classes as intervals of character codes. *)
Definition between (lo hi : Z) (a : ascii) : bool := (lo <=? uc a) && (uc a <=? hi).

Lemma isdigit_spec a : isdigit a = between 48 57 a.
Proof. all_chars a. Qed.
Lemma isupper_spec a : isupper a = between 65 90 a.
Proof. all_chars a. Qed.
Lemma islower_spec a : islower a = between 97 122 a.
Proof. all_chars a. Qed.
Lemma isalpha_spec a : isalpha a = between 65 90 a || between 97 122 a.
Proof. all_chars a. Qed.
Lemma isalnum_spec a : isalnum a = isdigit a || isalpha a.
Proof. all_chars a. Qed.
Lemma isspace_spec a : isspace a = is_space a.
Proof. all_chars a. Qed.

(** The ctype macros of libbb.h, which fold each test into one unsigned
    8-bit subtraction and comparison, classify every one of the 256 characters
    as the C locale's classes do. *)
Theorem ctype_classes a :
  isdigit a = between 48 57 a /\ isupper a = between 65 90 a /\ islower a = between 97 122 a /\
  isalpha a = isupper a || islower a /\ isalnum a = isalpha a || isdigit a /\
  isxdigit a = isdigit a || between 65 70 a || between 97 102 a /\
  isspace a = between 9 13 a || (a ≟ SP) /\
  isprint_asciionly a = between 32 126 a /\ iscntrl a = between 0 31 a || (uc a =? 127).
Proof. repeat split; all_chars a. Qed.

End Ctype.
Export Ctype.

(** ** Whitespace, names, copying *)

(** libbb/skip_whitespace.c *)
Fixpoint skip_whitespace (s : cstr) : cstr :=
  match s with
  | [] => []
  | c :: s' => if (c ≟ SP) || (to_uchar (uc c - 9) <=? 13 - 9)%Z then skip_whitespace s' else s
  end.

Fixpoint skip_non_whitespace (s : cstr) : cstr :=
  match s with
  | [] => []
  | c :: s' => if negb (c ≟ SP) && (13 - 9 <? to_uchar (uc c - 9))%Z
               then skip_non_whitespace s' else s
  end.

(** libbb/endofname.c *)
Definition is_name (c : ascii) : bool := (c ≟ "_"%char) || isalpha c.
Definition is_in_name (c : ascii) : bool := (c ≟ "_"%char) || isalnum c.

Fixpoint skip_in_name (name : cstr) : cstr :=
  match name with
  | [] => []
  | c :: name' => if is_in_name c then skip_in_name name' else name
  end.

Definition endofname (name : cstr) : cstr :=
  match name with
  | [] => name
  | c :: name' => if is_name c then skip_in_name name' else name
  end.

(** libbb/safe_strncpy.c: the string left in [dst] (size bytes). *)
Definition safe_strncpy (dst src : cstr) (size : nat) : cstr :=
  match size with
  | O => dst
  | S n => take n src
  end.

(** libbb/last_char_is.c *)
Fixpoint last_char_is (s : cstr) (c : ascii) : option cstr :=
  match s with
  | [] => None
  | [a] => if (a ≟ c) then Some s else None
  | _ :: s' => last_char_is s' c
  end.

(** libbb/chomp.c *)
Definition chomp (s : cstr) : cstr :=
  match last_char_is s NL with
  | Some lc => upto s lc
  | None => s
  end.

(** libbb/trim.c: [len] after dropping trailing blanks, then the leading ones. *)
Fixpoint trim_len (s : cstr) (len : nat) : nat :=
  match len with
  | O => O
  | S n => if isspace (at0 s n) then trim_len s n else len
  end.

Definition trim (s : cstr) : cstr :=
  let len := trim_len s (length s) in
  match len with
  | O => take 0 s
  | S _ => let nws := skip_whitespace s in
           let d := length s - length nws in
           take (len - d) (drop d s)
  end.

(** libbb/strrstr.c.  The loop moves [haystack] forward at every hit, so its
    length bounds the number of turns. *)
Fixpoint strrstr_loop (fuel : nat) (haystack needle : cstr) (r : option cstr) : option cstr :=
  match fuel with
  | O => r
  | S f => match strstr haystack needle with
           | None => r
           | Some p => strrstr_loop f (tail p) needle (Some p)
           end
  end.

Definition strrstr (haystack needle : cstr) : option cstr :=
  match needle with
  | [] => Some []
  | _ => strrstr_loop (S (length haystack)) haystack needle None
  end.

(** ** Paths *)

(** libbb/concat_path_file.c; [None] is the NULL path. *)
Fixpoint skip_slashes (f : cstr) : cstr :=
  match f with
  | c :: f' => if (c ≟ "/"%char) then skip_slashes f' else f
  | [] => []
  end.

Definition concat_path_file (path : option cstr) (filename : cstr) : cstr :=
  let path := match path with None => [] | Some p => p end in
  let lc := last_char_is path "/"%char in
  path ++ (match lc with None => lit "/" | Some _ => [] end) ++ skip_slashes filename.

(** include/libbb.h: DOT_OR_DOTDOT; libbb/concat_subpath_file.c *)
Definition DOT_OR_DOTDOT (s : cstr) : bool :=
  (at0 s 0 ≟ "."%char) &&
  ((at0 s 1 ≟ NUL) || ((at0 s 1 ≟ "."%char) && (at0 s 2 ≟ NUL))).

Definition concat_subpath_file (path : option cstr) (f : cstr) : option cstr :=
  if DOT_OR_DOTDOT f then None else Some (concat_path_file path f).

(** libbb/get_last_path_component.c *)
Definition bb_basename (name : cstr) : cstr :=
  match strrchr name "/"%char with
  | Some cp => tail cp
  | None => name
  end.

Definition bb_get_last_path_component_nostrip (path : cstr) : cstr :=
  match strrchr path "/"%char with
  | None => path
  | Some slash => if (length slash =? length path)%nat && (at0 slash 1 ≟ NUL) then path
                  else tail slash
  end.

(** The stripping loop walks back from the last character; [n] is the index of
    [slash], the part of the string up to it is kept. *)
Fixpoint strip_back (path : cstr) (n : nat) : cstr :=
  match n with
  | O => path
  | S m => if (at0 path n ≟ "/"%char) then strip_back (take n path) m else path
  end.

Definition bb_get_last_path_component_strip (path : cstr) : cstr :=
  let path := match last_char_is path "/"%char with
              | Some slash => strip_back path (length path - length slash)
              | None => path
              end in
  bb_get_last_path_component_nostrip path.

(** libbb/simplify_path.c: the buffer, the write index [p] and the read index
    [s].  [simplify_back] is [while ( *--p != '/')]. *)
Fixpoint simplify_back (buf : cstr) (p : nat) : nat :=
  match p with
  | O => O
  | S q => if (at0 buf q ≟ "/"%char) then q else simplify_back buf q
  end.

Definition simplify_step (buf : cstr) (p s : nat) : cstr * nat * nat :=
  let write := (<[S p := at0 buf s]> buf, S p, s) in
  if (at0 buf p ≟ "/"%char) then
    if (at0 buf s ≟ "/"%char) then (buf, p, s)
    else if (at0 buf s ≟ "."%char) then
      if (at0 buf (s + 1) ≟ "/"%char) || (at0 buf (s + 1) ≟ NUL) then (buf, p, s)
      else if (at0 buf (s + 1) ≟ "."%char)
              && ((at0 buf (s + 2) ≟ "/"%char) || (at0 buf (s + 2) ≟ NUL))
      then (buf, (if (0 <? p)%nat then simplify_back buf p else p), S s)
      else write
    else write
  else write.

(** [do { ... } while ( *++s)]: [s] grows at every turn, so the buffer length
    bounds the turns. *)
Fixpoint simplify_loop (fuel : nat) (buf : cstr) (p s : nat) : cstr * nat :=
  match fuel with
  | O => (buf, p)
  | S f => let '(buf, p, s) := simplify_step buf p s in
           if (at0 buf (S s) ≟ NUL) then (buf, p) else simplify_loop f buf p (S s)
  end.

Definition bb_simplify_abs_path_inplace (start : cstr) : cstr :=
  let '(buf, p) := simplify_loop (S (length start)) start 0 0 in
  let p := if (p =? 0)%nat || negb (at0 buf p ≟ "/"%char) then S p else p in
  take p buf.

(** [bb_simplify_path]: a relative path is taken under the working directory
    ([xrealloc_getcwd_or_warn], whose result is the argument [cwd]). *)
Definition bb_simplify_path (cwd : option cstr) (path : cstr) : cstr :=
  let s := if (at0 path 0 ≟ "/"%char) then path else concat_path_file cwd path in
  bb_simplify_abs_path_inplace s.

(** ** String arrays *)

(** libbb/compare_string_array.c *)
Fixpoint is_prefixed_with (string key : cstr) : option cstr :=
  match key with
  | [] => Some string
  | k :: key' => match string with
                 | [] => None
                 | c :: string' => if (k ≟ c) then is_prefixed_with string' key' else None
                 end
  end.

Definition is_suffixed_with (string key : cstr) : option cstr :=
  if (length key <=? length string)%nat then
    let string := drop (length string - length key) string in
    if (strcmp string key =? 0)%Z then Some string else None
  else None.

(** A [char strings[]] constant: NUL-terminated strings one after the other,
    closed by an empty one (so the list of all its bytes ends in two NULs, the
    last of which is the string literal's own terminator, [[]] here). *)
Definition pack_strings (l : list cstr) : list ascii := concat (map (fun s => s ++ [NUL]) l).

(** [while ( *strings++ != '\0') continue;] *)
Fixpoint skip_past_nul (strings : list ascii) : list ascii :=
  match strings with
  | [] => []
  | c :: r => if (c ≟ NUL) then r else skip_past_nul r
  end.

(** The inner [for]: compare "key\0" at the current position; [inl] on a match,
    [inr] where the comparison stopped. *)
Fixpoint match_key (strings : list ascii) (key : cstr) : unit + list ascii :=
  match strings with
  | [] => match key with [] => inl () | _ => inr [] end
  | c :: r => if (c ≟ hd0 key)
              then (if (c ≟ NUL) then inl () else match_key r (tail key))
              else inr strings
  end.

Fixpoint index_in_strings_loop (fuel : nat) (strings : list ascii) (key : cstr) (idx : Z) : Z :=
  match fuel with
  | O => -1
  | S f => match strings with
           | [] => -1
           | c :: _ => if (c ≟ NUL) then -1
                       else match match_key strings key with
                            | inl _ => idx
                            | inr rest => index_in_strings_loop f (skip_past_nul rest) key (idx + 1)
                            end
           end
  end.

Definition index_in_strings (strings : list ascii) (key : cstr) : Z :=
  index_in_strings_loop (S (length strings)) strings key 0.

Fixpoint nth_string_loop (fuel : nat) (strings : list ascii) (n : Z) : list ascii :=
  match fuel with
  | O => strings
  | S f => if (n =? 0)%Z then strings
           else let c := hd0 strings in
                let strings := tail strings in
                if (c ≟ NUL) then
                  if (hd0 strings ≟ NUL) then strings else nth_string_loop f strings (n - 1)
                else nth_string_loop f strings n
  end.

(** The C string at the returned pointer. *)
Fixpoint cstr_at (strings : list ascii) : cstr :=
  match strings with
  | [] => []
  | c :: r => if (c ≟ NUL) then [] else c :: cstr_at r
  end.

Definition nth_string (strings : list ascii) (n : Z) : cstr :=
  cstr_at (nth_string_loop (S (length strings)) strings n).

(** ** libbb/printable_string.c (ENABLE_UNICODE_SUPPORT is off) *)

Definition needs_conv (c : ascii) : bool := (uc c <? 32)%Z || (0x7f <=? uc c)%Z.

Definition printable_string (str : cstr) : cstr :=
  if existsb needs_conv str
  then map (fun c => if needs_conv c then "?"%char else c) str
  else str.

(** ** Whitespace and names: lemmas *)

Lemma skip_whitespace_spec s : skip_whitespace s = skip_space s.
Proof.
  induction s as [|c s IH]; [done|]. simpl. rewrite <- IH.
  replace ((c ≟ SP) || (to_uchar (uc c - 9) <=? 13 - 9)%Z) with (is_space c) by all_chars c.
  done.
Qed.

Lemma skip_whitespace_within s : within (skip_whitespace s) s.
Proof. rewrite skip_whitespace_spec. apply skip_space_within. Qed.

Lemma skip_in_name_within s : within (skip_in_name s) s.
Proof. induction s as [|c s IH]; simpl; [|case_match]; auto with within. Qed.

Lemma endofname_within s : within (endofname s) s.
Proof.
  destruct s as [|c s]; simpl; [|case_match]; auto using skip_in_name_within with within.
Qed.

#[export] Hint Resolve skip_whitespace_within skip_in_name_within endofname_within : within.

Lemma skip_whitespace_idem s : skip_whitespace (skip_whitespace s) = skip_whitespace s.
Proof. induction s as [|c s IH]; simpl; [done|]. case_match eqn:E; [done|]. simpl. by rewrite E. Qed.

Lemma at0_lookup s i c : s !! i = Some c -> at0 s i = c.
Proof. intros H. unfold at0. by erewrite drop_S by done. Qed.

Lemma at0_nth s i : at0 s i = default NUL (s !! i).
Proof.
  destruct (s !! i) as [c|] eqn:E; [by apply at0_lookup|].
  unfold at0. by rewrite drop_ge by (by apply lookup_ge_None).
Qed.

Lemma at0_drop s i j : at0 (drop i s) j = at0 s (i + j).
Proof. unfold at0. by rewrite drop_drop. Qed.

(** ** Path simplification: functional refinement of the in-place loop *)

Section Simplify.

(** The loop on the reversed output (its head is [*p]) and the unread input. *)
Fixpoint drop_to_slash (l : cstr) : cstr :=
  match l with
  | [] => []
  | c :: l' => if (c ≟ "/"%char) then l else drop_to_slash l'
  end.

Definition ends_comp (r : cstr) : bool := (hd0 r ≟ "/"%char) || (hd0 r ≟ NUL).

Fixpoint norm_loop (ro rest : cstr) {struct rest} : cstr :=
  match rest with
  | [] => ro
  | c :: r =>
      if (hd0 ro ≟ "/"%char) then
        if (c ≟ "/"%char) then norm_loop ro r
        else if (c ≟ "."%char) then
          if ends_comp r then norm_loop ro r
          else match r with
               | d :: r2 => if (d ≟ "."%char) && ends_comp r2
                            then norm_loop (match tail ro with [] => ro | _ => drop_to_slash (tail ro) end) r2
                            else norm_loop (c :: ro) r
               | [] => norm_loop (c :: ro) r
               end
        else norm_loop (c :: ro) r
      else norm_loop (c :: ro) r
  end.

Lemma rev_take_S (buf : cstr) p :
  p < length buf -> rev (take (S p) buf) = at0 buf p :: rev (take p buf).
Proof.
  intros H. apply lookup_lt_is_Some_2 in H as [c Hc].
  erewrite take_S_r by done. rewrite rev_app_distr. simpl. by rewrite (at0_lookup _ _ _ Hc).
Qed.

Lemma simplify_back_le buf p : simplify_back buf p <= p.
Proof. induction p; simpl; [done|]. case_match; lia. Qed.

Lemma simplify_back_spec buf p :
  at0 buf 0 = "/"%char -> 0 < p -> p < length buf ->
  rev (take (S (simplify_back buf p)) buf) = drop_to_slash (rev (take p buf)).
Proof.
  intros H0. induction p as [|q IH]; intros Hp Hl; [lia|]. simpl simplify_back.
  rewrite (rev_take_S buf q) by lia. cbn [drop_to_slash]. case_match eqn:E.
  - by rewrite rev_take_S by lia.
  - destruct q as [|q].
    + rewrite H0 in E. done.
    + apply IH; lia.
Qed.

Lemma nonnul_hd (r : cstr) : NUL ∉ r -> (hd0 r ≟ NUL) = match r with [] => true | _ => false end.
Proof.
  destruct r as [|c r]; [done|]. intros H. simpl. apply Ascii.eqb_neq. intros ->.
  apply H. left.
Qed.

(** What one turn of the in-place loop does to the two views of the buffer. *)
Lemma write_views (buf : cstr) p s c r :
  p < s -> s < length buf -> drop s buf = c :: r ->
  rev (take (S (S p)) (<[S p := c]> buf)) = c :: rev (take (S p) buf) /\
  drop (S s) (<[S p := c]> buf) = r.
Proof.
  intros Hps Hs Hd. split.
  - rewrite rev_take_S by (rewrite length_insert; lia).
    rewrite take_insert_ge by lia. f_equal. apply at0_lookup, list_lookup_insert_eq. lia.
  - rewrite drop_insert_lt by lia.
    replace (S s) with (s + 1) by lia. rewrite <- drop_drop, Hd. done.
Qed.

(** The loop invariant: the first byte stays a slash, the write index is behind
    the read index, so no unread byte is ever overwritten. *)
Record simp_inv (buf : cstr) (p s : nat) : Prop := {
  si_slash : at0 buf 0 = "/"%char;
  si_nul : NUL ∉ buf;
  si_lag : p < s;
}.

(** What running the loop means for the functional view. *)
Definition runs_to (res : cstr * nat) (ro : cstr) : Prop :=
  res.2 < length res.1 /\ rev (take (S res.2) res.1) = ro.

Definition loop_ok (f : nat) : Prop := forall buf p s,
  simp_inv buf p s -> s < length buf -> length buf - s < f ->
  runs_to (simplify_loop f buf p s) (norm_loop (rev (take (S p) buf)) (drop s buf)).

(** The [while ( *++s)] test and the next turn. *)
Lemma loop_next f b q t :
  loop_ok f -> simp_inv b q (S t) -> t < length b -> length b - S t < f ->
  runs_to (if (at0 b (S t) ≟ NUL) then (b, q) else simplify_loop f b q (S t))
          (norm_loop (rev (take (S q) b)) (drop (S t) b)).
Proof.
  intros IH Hi Ht Hf. pose proof Hi as [H0 Hn Hl].
  destruct (at0 b (S t) ≟ NUL) eqn:E; unfold at0 in E.
  - rewrite nonnul_hd in E.
    + destruct (drop (S t) b); [|done]. split; simpl; [lia|done].
    + intros Hin. apply Hn. rewrite <- (take_drop (S t) b). set_solver.
  - apply IH; try done.
    destruct (decide (S t < length b)) as [|Hge]; [done|]. by rewrite drop_ge in E by lia.
Qed.

Lemma simp_inv_write buf p s c :
  simp_inv buf p s -> s < length buf -> buf !! s = Some c -> simp_inv (<[S p := c]> buf) (S p) (S s).
Proof.
  intros [H0 Hn Hl] Hs Hc. split; [| |lia].
  - rewrite at0_nth, list_lookup_insert_ne, <- at0_nth by lia. done.
  - intros [i Hi]%list_elem_of_lookup. apply Hn. destruct (decide (i = S p)) as [->|Hne].
    + rewrite list_lookup_insert_eq in Hi by lia. simplify_eq.
      eapply list_elem_of_lookup_2, Hc.
    + rewrite list_lookup_insert_ne in Hi by lia. eapply list_elem_of_lookup_2, Hi.
Qed.

Lemma simp_inv_keep buf p s q t :
  simp_inv buf p s -> q < S t -> simp_inv buf q (S t).
Proof. intros [H0 Hn Hl] Hq. split; [done|done|lia]. Qed.

Lemma simplify_loop_sim f : loop_ok f.
Proof.
  induction f as [|f IH]; intros buf p s Hi Hs Hf; [lia|].
  pose proof Hi as [H0 Hn Hl].
  destruct (lookup_lt_is_Some_2 buf s Hs) as [c Hc].
  pose proof (drop_S buf c s Hc) as Hd.
  assert (runs_to (if (at0 (<[S p := c]> buf) (S s) ≟ NUL) then (<[S p := c]> buf, S p)
                   else simplify_loop f (<[S p := c]> buf) (S p) (S s))
                  (norm_loop (c :: rev (take (S p) buf)) (drop (S s) buf))) as Hw.
  { destruct (write_views buf p s c (drop (S s) buf) Hl Hs Hd) as [<- <-].
    apply loop_next; rewrite ?length_insert; eauto using simp_inv_write; lia. }
  assert (runs_to (if (at0 buf (S s) ≟ NUL) then (buf, p) else simplify_loop f buf p (S s))
                  (norm_loop (rev (take (S p) buf)) (drop (S s) buf))) as Hsame.
  { apply loop_next; try done; try lia. eapply simp_inv_keep; [done|lia]. }
  assert (at0 buf s = c) as Hsc by by apply at0_lookup.
  assert (at0 buf (s + 1) = hd0 (drop (S s) buf)) as Hs1 by (unfold at0; do 2 f_equal; lia).
  assert (at0 buf (s + 2) = hd0 (drop (S (S s)) buf)) as Hs2 by (unfold at0; do 2 f_equal; lia).
  rewrite (rev_take_S buf p) in * by lia.
  cbn [simplify_loop]. unfold simplify_step. rewrite Hd. cbn [norm_loop hd0].
  rewrite Hsc, Hs1, Hs2.
  destruct (at0 buf p ≟ "/"%char); [|exact Hw].
  destruct (c ≟ "/"%char); [exact Hsame|].
  destruct (c ≟ "."%char); [|exact Hw].
  fold (ends_comp (drop (S s) buf)). destruct (ends_comp (drop (S s) buf)) eqn:Ee; [exact Hsame|].
  destruct (drop (S s) buf) as [|d r2] eqn:Edr; [done|].
  assert (S s < length buf) as Hs'.
  { apply (f_equal length) in Edr. rewrite length_drop in Edr. simpl in Edr. lia. }
  assert (drop (S (S s)) buf = r2) as Hr2.
  { replace (S (S s)) with (S s + 1) by lia. by rewrite <- drop_drop, Edr. }
  rewrite Hr2. cbn [hd0 tail]. fold (ends_comp r2).
  destruct ((d ≟ "."%char) && ends_comp r2); [|exact Hw].
  destruct p as [|q]; cbn [Nat.ltb Nat.leb].
  - rewrite <- Hr2, <- (rev_take_S buf 0) by lia.
    apply loop_next; try done; try lia. eapply simp_inv_keep; [done|lia].
  - rewrite (rev_take_S buf q) at 1 by lia. rewrite <- Hr2, <- simplify_back_spec by (done || lia).
    pose proof (simplify_back_le buf (S q)).
    apply loop_next; try done; try lia. eapply simp_inv_keep; [done|lia].
Qed.

(** The specification: the non-empty components of a path, and the stack
    (innermost component first) left after "." and ".." are resolved. *)
Definition flush (cur : cstr) : list cstr := match cur with [] => [] | _ => [cur] end.

Fixpoint comps_from (cur s : cstr) : list cstr :=
  match s with
  | [] => flush cur
  | c :: s' => if (c ≟ "/"%char) then flush cur ++ comps_from [] s' else comps_from (cur ++ [c]) s'
  end.

Definition path_comps (s : cstr) : list cstr := comps_from [] s.

Definition canon_step (st : list cstr) (c : cstr) : list cstr :=
  if decide (c = lit ".") then st
  else if decide (c = lit "..") then tail st
  else c :: st.

Definition canon (st : list cstr) (cs : list cstr) : list cstr := foldl canon_step st cs.

Definition render (st : list cstr) : cstr :=
  match st with
  | [] => lit "/"
  | _ => concat (map (fun c => "/"%char :: c) (rev st))
  end.

Definition noslash (c : cstr) : Prop := "/"%char ∉ c.

(** The reversed output when the loop is at the start of a component. *)
Fixpoint rr (st : list cstr) : cstr :=
  match st with
  | [] => lit "/"
  | c :: st' => "/"%char :: rev c ++ rr st'
  end.

(** The tail of [bb_simplify_abs_path_inplace] on the reversed output. *)
Definition fin (ro : cstr) : cstr :=
  match ro with
  | [_] => ro
  | c :: ro' => if (c ≟ "/"%char) then ro' else ro
  | [] => []
  end.

Lemma rr_hd st : exists t, rr st = "/"%char :: t.
Proof. destruct st; by eexists. Qed.

Lemma rev_rr st : rev (rr st) = match st with [] => lit "/" | _ => render st ++ lit "/" end.
Proof.
  induction st as [|c st IH]; [done|]. cbn [rr rev]. rewrite rev_app_distr, rev_involutive, IH.
  unfold render. cbn [rev]. rewrite map_app, concat_app. cbn [map concat].
  destruct st as [|d st]; [by rewrite app_nil_r|].
  unfold render. rewrite app_nil_r, <- !app_assoc. done.
Qed.

Lemma fin_rr st : rev (fin (rr st)) = render st.
Proof.
  pose proof (rev_rr st) as H. destruct st as [|c st]; [done|].
  destruct (rr_hd st) as [t Ht]. cbn [rr] in *. unfold fin.
  destruct (rev c ++ rr st) as [|x l] eqn:E.
  { apply app_eq_nil in E as [_ E]. by rewrite Ht in E. }
  simpl Ascii.eqb. cbn iota. rewrite <- E in *. cbn [rev] in H.
  by apply app_inj_tail in H as [-> _].
Qed.

Lemma noslash_cons x c : noslash (x :: c) <-> x <> "/"%char /\ noslash c.
Proof. unfold noslash. rewrite not_elem_of_cons. split; intros [? ?]; split; congruence. Qed.

Lemma drop_to_slash_app c l : noslash c -> drop_to_slash (c ++ l) = drop_to_slash l.
Proof.
  induction c as [|x c IH]; [done|]. rewrite noslash_cons. intros [Hx Hc]. simpl.
  apply Ascii.eqb_neq in Hx. rewrite Hx. by apply IH.
Qed.

Lemma noslash_rev c : noslash c -> noslash (rev c).
Proof.
  unfold noslash. intros H Hin. apply H. apply list_elem_of_In, in_rev, list_elem_of_In, Hin.
Qed.

Lemma drop_to_slash_rr st : drop_to_slash (rr st) = rr st.
Proof. by destruct st. Qed.

(** Inside a component every byte is copied. *)
Lemma norm_copy c ro rest :
  noslash c -> hd0 ro <> "/"%char -> norm_loop ro (c ++ rest) = norm_loop (rev c ++ ro) rest.
Proof.
  revert ro. induction c as [|x c IH]; intros ro Hc Hr; [done|].
  apply noslash_cons in Hc as [Hx Hc]. cbn [app norm_loop].
  apply Ascii.eqb_neq in Hr. rewrite Hr. rewrite IH by done.
  cbn [rev]. by rewrite <- app_assoc.
Qed.

Lemma comps_app cur c s : noslash c -> comps_from cur (c ++ s) = comps_from (cur ++ c) s.
Proof.
  revert cur. induction c as [|x c IH]; intros cur Hc; [by rewrite app_nil_r|].
  apply noslash_cons in Hc as [Hx Hc]. simpl. apply Ascii.eqb_neq in Hx. rewrite Hx, IH by done.
  by rewrite <- app_assoc.
Qed.

Lemma rev_comp_hd (c ro : cstr) : noslash c -> c <> [] -> hd0 (rev c ++ ro) <> "/"%char.
Proof.
  intros Hc Hne. apply noslash_rev in Hc. destruct (rev c) as [|x l] eqn:E.
  - destruct Hne. by rewrite <- (rev_involutive c), E.
  - simpl. intros ->. apply Hc. left.
Qed.

(** A finished component gives the same final text with and without the slash
    that would follow it. *)
Lemma fin_comp c st :
  noslash c -> c <> [] -> fin (rr (c :: st)) = fin (rev c ++ rr st).
Proof.
  intros Hc Hne. pose proof (rev_comp_hd c (rr st) Hc Hne) as Hh.
  destruct (rr_hd st) as [t Ht]. cbn [rr]. unfold fin.
  destruct (rev c ++ rr st) as [|x [|y l]] eqn:E.
  - apply app_eq_nil in E as [_ E]. by rewrite Ht in E.
  - apply (f_equal length) in E. rewrite length_app, length_rev, Ht in E.
    destruct c; simpl in *; (done || lia).
  - simpl in Hh. apply Ascii.eqb_neq in Hh. by rewrite Hh.
Qed.

(** Split off the first component of the unread input. *)
Lemma split_comp (s : cstr) :
  exists c rest, s = c ++ rest /\ noslash c /\ (rest = [] \/ exists r, rest = "/"%char :: r).
Proof.
  induction s as [|x s (c & rest & -> & Hc & Hr)].
  - exists [], []. split; [done|]. split; [unfold noslash; set_solver|]. by left.
  - destruct (decide (x = "/"%char)) as [->|Hx].
    + exists [], ("/"%char :: c ++ rest). split; [done|]. split; [unfold noslash; set_solver|]. eauto.
    + exists (x :: c), rest. split; [done|]. split; [by apply noslash_cons|done].
Qed.

Lemma ends_comp_app (c rest : cstr) :
  NUL ∉ c -> noslash c -> (rest = [] \/ exists r, rest = "/"%char :: r) ->
  ends_comp (c ++ rest) = match c with [] => true | _ => false end.
Proof.
  intros Hn Hs Hr. destruct c as [|x c].
  - destruct Hr as [->|[r ->]]; done.
  - apply noslash_cons in Hs as [Hx _]. unfold ends_comp. simpl.
    apply orb_false_iff. split; apply Ascii.eqb_neq; [done|]. intros ->. apply Hn. left.
Qed.

(** One component, read with the output at a component start. *)
Lemma norm_comp st c rest :
  noslash c -> NUL ∉ c -> c <> [] -> Forall noslash st -> (rest = [] \/ exists r, rest = "/"%char :: r) ->
  norm_loop (rr st) (c ++ rest) =
  if decide (c = lit ".") then norm_loop (rr st) rest
  else if decide (c = lit "..") then norm_loop (rr (tail st)) rest
  else norm_loop (rev c ++ rr st) rest.
Proof.
  intros Hc Hn Hne Hst Hr. destruct c as [|x c]; [done|].
  pose proof (proj1 (noslash_cons _ _) Hc) as [Hx Hc'].
  assert (NUL ∉ c) as Hn' by (intros H; apply Hn; by right).
  assert (norm_loop (x :: rr st) (c ++ rest) = norm_loop (rev (x :: c) ++ rr st) rest) as Hcopy.
  { rewrite norm_copy by done. cbn [rev]. by rewrite <- app_assoc. }
  destruct (rr_hd st) as [t Ht]. cbn [app norm_loop].
  replace (hd0 (rr st) ≟ "/"%char) with true by (by rewrite Ht).
  apply Ascii.eqb_neq in Hx as Hxe. rewrite Hxe.
  destruct (x ≟ "."%char) eqn:Ed.
  2: { apply Ascii.eqb_neq in Ed. rewrite !decide_False by (intros [=]; done). done. }
  apply Ascii.eqb_eq in Ed as ->. rewrite ends_comp_app by done.
  destruct c as [|y c]; [by rewrite decide_True by done|].
  rewrite (decide_False (P := "."%char :: y :: c = lit ".")) by (intros [=]). cbn [app].
  apply noslash_cons in Hc' as [Hy Hc'].
  assert (NUL ∉ c) as Hn2 by (intros H; apply Hn'; by right).
  rewrite ends_comp_app by done.
  destruct ((y ≟ "."%char) && match c with [] => true | _ => false end) eqn:Edd.
  - bool_prop. subst y. destruct c; [|done]. rewrite decide_True by done. cbn [app].
    f_equal. destruct st as [|d st]; [done|]. cbn [rr tail].
    apply Forall_cons in Hst as [Hd Hst]. destruct (rr_hd st) as [t' Ht'].
    rewrite drop_to_slash_app, drop_to_slash_rr by by apply noslash_rev.
    destruct (rev d ++ rr st) eqn:E; [|done]. apply app_eq_nil in E as [_ E]. by rewrite Ht' in E.
  - rewrite decide_False; [done|]. intros [=-> ->]. done.
Qed.

Lemma canon_noslash st c : Forall noslash st -> noslash c -> Forall noslash (canon_step st c).
Proof.
  intros Hs Hc. unfold canon_step. repeat case_decide; [done| |by constructor].
  destruct st; [done|]. by apply Forall_cons in Hs as [_ ?].
Qed.

(** From a component start, the loop computes the canonical stack. *)
Lemma norm_canon n st rest :
  length rest < n -> Forall noslash st -> NUL ∉ rest ->
  rev (fin (norm_loop (rr st) rest)) = render (canon st (path_comps rest)).
Proof.
  revert st rest. induction n as [|n IH]; intros st rest Hl Hst Hn; [lia|].
  destruct (split_comp rest) as (c & r & -> & Hc & Hr). unfold path_comps in *.
  rewrite comps_app by done. rewrite length_app in Hl. cbn [app].
  assert ((NUL ∉ c) /\ (NUL ∉ r)) as [Hnc Hnr] by (rewrite elem_of_app in Hn; tauto).
  destruct (decide (c = [])) as [->|Hne].
  { destruct Hr as [->|[r' ->]]; cbn [app norm_loop comps_from flush].
    - apply fin_rr.
    - destruct (rr_hd st) as [t Ht]. replace (hd0 (rr st) ≟ "/"%char) with true by by rewrite Ht.
      cbn. apply IH; [simpl in *; lia|done|]. intros H. apply Hnr. by right. }
  assert (comps_from c r = c :: match r with [] => [] | _ => comps_from [] (tail r) end) as ->.
  { destruct c; [done|]. by destruct Hr as [->|[r' ->]]. }
  unfold canon. cbn [foldl]. fold (canon (canon_step st c)).
  assert (length (tail r) < n) as Hl' by (destruct c, r; simpl in *; (done || lia)).
  assert (NUL ∉ tail r) as Hnt by (destruct r; [done|]; intros H; apply Hnr; by right).
  pose proof (canon_noslash st c Hst Hc) as Hst'.
  assert (forall st', Forall noslash st' -> rev (fin (norm_loop (rr st') r)) =
            render (canon st' match r with [] => [] | _ => comps_from [] (tail r) end)) as Hnext.
  { intros st' Hs'. destruct Hr as [->|[r' ->]]; [apply fin_rr|].
    destruct (rr_hd st') as [t Ht]. cbn [norm_loop].
    replace (hd0 (rr st') ≟ "/"%char) with true by by rewrite Ht. by apply IH. }
  rewrite norm_comp by done. unfold canon_step in *.
  repeat case_decide; [by apply Hnext|apply Hnext; by destruct st; [|inversion Hst]|].
  pose proof (rev_comp_hd c (rr st) Hc Hne) as Hh.
  destruct Hr as [->|[r' ->]].
  - change (rev (fin (rev c ++ rr st)) = render (c :: st)).
    rewrite <- fin_comp by done. apply fin_rr.
  - cbn [norm_loop tail]. apply Ascii.eqb_neq in Hh. rewrite Hh.
    apply (IH (c :: st) r'); [done|by constructor|done].
Qed.

End Simplify.

(** C31. On every absolute path, the in-place two-pointer loop of
    [bb_simplify_abs_path_inplace] leaves exactly the canonical path: the
    components in order with empty and "." ones dropped and each ".." removing
    the component before it (never climbing above the root), one slash between
    components and no trailing slash. *)
Theorem simplify_path_canonical (p : cstr) :
  NUL ∉ p ->
  bb_simplify_abs_path_inplace ("/"%char :: p) = render (canon [] (path_comps p)).
Proof.
  intros Hn. unfold bb_simplify_abs_path_inplace. set (buf := "/"%char :: p).
  assert (runs_to (simplify_loop (S (length buf)) buf 0 0) (norm_loop (rr []) p)) as [Hl Hr].
  { change (simplify_loop (S (length buf)) buf 0 0)
      with (if (at0 buf 1 ≟ NUL) then (buf, 0) else simplify_loop (length buf) buf 0 1).
    apply (loop_next (length buf) buf 0 0); [apply simplify_loop_sim| |simpl; lia|simpl; lia].
    split; [done| |lia]. unfold buf. rewrite not_elem_of_cons. done. }
  destruct (simplify_loop _ buf 0 0) as [b q]. cbn [fst snd] in Hl, Hr.
  rewrite <- (norm_canon (S (length p)) [] p) by (done || lia || constructor). rewrite <- Hr.
  rewrite rev_take_S by done. destruct q as [|q].
  - simpl. destruct b; [simpl in Hl; lia|]. done.
  - cbn [Nat.eqb orb]. rewrite (rev_take_S b q) by lia. cbn [fin].
    destruct (at0 b (S q) ≟ "/"%char) eqn:E; cbn [negb].
    + rewrite <- rev_take_S, rev_involutive by lia. done.
    + rewrite <- (rev_take_S b q), <- (rev_take_S b (S q)), rev_involutive by lia. done.
Qed.

Lemma simplify_path_canonical_witness :
  bb_simplify_abs_path_inplace (lit "/usr//lib/../bin/./x/") = lit "/usr/bin/x".
Proof.
  change (lit "/usr//lib/../bin/./x/") with ("/"%char :: lit "usr//lib/../bin/./x/").
  rewrite simplify_path_canonical; [reflexivity|].
  by_eval.
Defined.

(** ** Joining paths *)

Lemma comps_slash cur a b :
  comps_from cur (a ++ "/"%char :: b) = comps_from cur a ++ path_comps b.
Proof.
  revert cur. induction a as [|x a IH]; intros cur; [done|]. simpl. case_match.
  - by rewrite IH, app_assoc.
  - apply IH.
Qed.

Lemma comps_skip_slashes f : path_comps (skip_slashes f) = path_comps f.
Proof.
  induction f as [|x f IH]; [done|]. simpl. case_match eqn:E; [|done].
  unfold path_comps in *. simpl. by rewrite E, IH.
Qed.

Lemma last_char_is_spec s c :
  match last_char_is s c with
  | Some lc => lc = [c] /\ exists a, s = a ++ [c]
  | None => forall a, s <> a ++ [c]
  end.
Proof.
  induction s as [|x s IH]; [by intros []|]. destruct s as [|y s]; simpl.
  - destruct (Ascii.eqb_spec x c) as [->|Hne]; [by split; [|exists []]|].
    intros [|z [|]]; simpl; congruence.
  - change (match last_char_is (y :: s) c with
            | Some lc => lc = [c] /\ (exists a, x :: y :: s = a ++ [c])
            | None => forall a, x :: y :: s <> a ++ [c] end).
    destruct (last_char_is (y :: s) c) as [lc|].
    + destruct IH as [-> [a ->]]. split; [done|]. by exists (x :: a).
    + intros [|z a] [=]. by apply (IH a).
Qed.

(** [concat_path_file] joins paths component by component: whatever
    slashes [path] ends or [filename] starts with, the components of the result
    are those of [path] followed by those of [filename], and a NULL path means
    the root directory. *)
Theorem concat_path_file_comps path f :
  path_comps (concat_path_file path f) = path_comps (default [] path) ++ path_comps f /\
  at0 (concat_path_file None f) 0 = "/"%char.
Proof.
  split; [|done]. unfold concat_path_file.
  replace (match path with None => [] | Some p => p end) with (default [] path) by by destruct path.
  set (p := default [] path). pose proof (last_char_is_spec p "/"%char) as H.
  rewrite <- (comps_skip_slashes f).
  destruct (last_char_is p "/"%char) as [lc|].
  - destruct H as [_ [a ->]]. unfold path_comps.
    rewrite <- app_assoc. simpl. rewrite !comps_slash. simpl. by rewrite app_nil_r.
  - apply comps_slash.
Qed.

(** ** String arrays *)

Definition string_item (s : cstr) : Prop := s <> [] /\ NUL ∉ s.

Lemma match_key_spec s key rest :
  NUL ∉ s -> NUL ∉ key ->
  match match_key (s ++ NUL :: rest) key with
  | inl _ => s = key
  | inr r => s <> key /\ skip_past_nul r = rest
  end.
Proof.
  assert (forall u, NUL ∉ u -> skip_past_nul (u ++ NUL :: rest) = rest) as Hskip.
  { induction u as [|x u IH]; [done|]. rewrite not_elem_of_cons. intros [Hx Hu]. simpl.
    case_match eqn:E; [bool_prop; congruence|]. by apply IH. }
  revert key. induction s as [|x s IH]; intros key Hs Hk.
  - destruct key as [|k key]; [done|]. apply not_elem_of_cons in Hk as [Hk _].
    apply not_eq_sym, Ascii.eqb_neq in Hk. rewrite Ascii.eqb_sym in Hk. cbn [app match_key hd0].
    by rewrite Hk.
  - pose proof Hs as Hs'. apply not_elem_of_cons in Hs as [Hx Hs]. cbn [app match_key].
    destruct (x ≟ hd0 key) eqn:E.
    + apply Ascii.eqb_eq in E as ->. destruct key as [|k key]; [done|].
      apply not_elem_of_cons in Hk as [Hk Hk']. cbn [hd0 tail] in *.
      apply not_eq_sym, Ascii.eqb_neq in Hk as ->.
      specialize (IH key Hs Hk'). case_match; [by subst|]. destruct IH. split; [congruence|done].
    + split; [intros <-; by rewrite Ascii.eqb_refl in E|]. by apply (Hskip (x :: s)).
Qed.

Lemma index_in_strings_loop_spec fuel l key idx :
  Forall string_item l -> NUL ∉ key -> length l < fuel ->
  index_in_strings_loop fuel (pack_strings l) key idx =
  match list_find (eq key) l with Some (i, _) => (idx + Z.of_nat i)%Z | None => (-1)%Z end.
Proof.
  revert l idx. induction fuel as [|f IH]; intros l idx Hl Hk Hf; [lia|].
  destruct l as [|s l]; [done|]. apply Forall_cons in Hl as [[Hne Hs] Hl].
  change (pack_strings (s :: l)) with ((s ++ [NUL]) ++ pack_strings l).
  rewrite <- app_assoc. cbn [app]. pose proof (match_key_spec s key (pack_strings l) Hs Hk) as Hm.
  destruct s as [|x s]; [done|]. apply not_elem_of_cons in Hs as [Hx Hs].
  cbn [index_in_strings_loop app] in *.
  apply not_eq_sym, Ascii.eqb_neq in Hx as ->. cbn [list_find].
  destruct (match_key _ key) as [|r].
  - rewrite decide_True by congruence. lia.
  - destruct Hm as [Hne' ->]. rewrite decide_False by congruence.
    rewrite IH by (done || simpl in *; lia).
    destruct (list_find (eq key) l) as [[i ?]|]; simpl; lia.
Qed.

Lemma pack_strings_length l : length l <= length (pack_strings l).
Proof.
  induction l as [|s l IH]; [done|]. change (pack_strings (s :: l)) with ((s ++ [NUL]) ++ pack_strings l).
  rewrite !length_app. simpl. lia.
Qed.

Lemma cstr_at_pack s rest : NUL ∉ s -> cstr_at (s ++ NUL :: rest) = s.
Proof.
  induction s as [|x s IH]; [done|]. intros [Hx Hs]%not_elem_of_cons. simpl.
  apply not_eq_sym, Ascii.eqb_neq in Hx as ->. by rewrite IH.
Qed.

(** Walking over one packed string takes one turn per byte. *)
Lemma nth_string_skip fuel s rest n :
  NUL ∉ s -> (n > 0)%Z -> hd0 rest <> NUL -> length s < fuel ->
  nth_string_loop fuel (s ++ NUL :: rest) n = nth_string_loop (fuel - S (length s)) rest (n - 1).
Proof.
  intros Hs Hn Hr. revert fuel. induction s as [|x s IH]; intros [|f] Hf; simpl in *; try lia.
  - rewrite (proj2 (Z.eqb_neq n 0)) by lia. apply Ascii.eqb_neq in Hr. rewrite Hr.
    by rewrite Nat.sub_0_r.
  - apply not_elem_of_cons in Hs as [Hx Hs]. rewrite (proj2 (Z.eqb_neq n 0)) by lia.
    apply not_eq_sym, Ascii.eqb_neq in Hx as ->. apply IH; [done|lia].
Qed.

Lemma nth_string_pack l i s fuel :
  Forall string_item l -> l !! i = Some s -> length (pack_strings l) < fuel ->
  cstr_at (nth_string_loop fuel (pack_strings l) (Z.of_nat i)) = s.
Proof.
  revert i fuel. induction l as [|x l IH]; intros i fuel Hl Hi Hf; [done|].
  apply Forall_cons in Hl as [[Hne Hx] Hl].
  change (pack_strings (x :: l)) with ((x ++ [NUL]) ++ pack_strings l) in *.
  rewrite <- app_assoc, length_app in *. cbn [app length] in *.
  destruct i as [|i].
  - simplify_eq/=. destruct fuel; [lia|]. by apply cstr_at_pack.
  - simpl in Hi. rewrite nth_string_skip; [|done|lia| |lia].
    + replace (Z.of_nat (S i) - 1)%Z with (Z.of_nat i) by lia. apply IH; [done|done|lia].
    + destruct l as [|y l]; [done|]. apply Forall_cons in Hl as [[Hy Hy'] _].
      destruct y as [|z y]; [done|]. simpl. apply not_elem_of_cons in Hy' as [? _]. congruence.
Qed.

(** The NUL-separated string tables: [index_in_strings] returns the index
    of the first entry equal to the key and -1 when there is none (never a
    prefix match), and [nth_string] at an index gives that entry back. *)
Theorem string_table_roundtrip (l : list cstr) (key : cstr) :
  Forall string_item l -> NUL ∉ key ->
  (key ∉ l -> index_in_strings (pack_strings l) key = (-1)%Z) /\
  (forall i, l !! i = Some key -> (forall j, j < i -> l !! j <> Some key) ->
     index_in_strings (pack_strings l) key = Z.of_nat i /\
     nth_string (pack_strings l) (Z.of_nat i) = key).
Proof.
  intros Hl Hk. pose proof (pack_strings_length l).
  unfold index_in_strings. rewrite index_in_strings_loop_spec by (done || lia). split.
  - intros Hin. destruct (list_find (eq key) l) as [[i y]|] eqn:E; [|done].
    apply list_find_Some in E as (Hi & -> & _). destruct Hin. eapply list_elem_of_lookup_2, Hi.
  - intros i Hi Hlt. rewrite (proj2 (list_find_Some _ _ i key)).
    + split; [lia|]. apply nth_string_pack; [done|done|lia].
    + split; [done|]. split; [done|]. intros j y Hy Hji ->. by apply (Hlt j).
Qed.

Lemma string_table_roundtrip_witness :
  index_in_strings (pack_strings [lit "-eq"; lit "-e"]) (lit "-e") = 1%Z /\
  nth_string (pack_strings [lit "-eq"; lit "-e"]) 1 = lit "-e".
Proof.
  refine (proj2 (string_table_roundtrip [lit "-eq"; lit "-e"] (lit "-e") _ _) 1 _ _).
  - repeat constructor; try discriminate; by_eval.
  - by_eval.
  - reflexivity.
  - intros [|j] Hj; [discriminate|lia].
Defined.

(** ** Searching from the right *)

(** [strstr] finds the leftmost occurrence. *)
Lemma strstr_spec h n :
  match strstr h n with
  | Some p => exists a, h = a ++ p /\ starts_with n p = true /\
                forall a' p', h = a' ++ p' -> length a' < length a -> starts_with n p' = false
  | None => forall p', within p' h -> starts_with n p' = false
  end.
Proof.
  induction h as [|c h IH]; cbn [strstr].
  - destruct (starts_with n []) eqn:E.
    + exists []. split; [done|]. split; [done|]. simpl. lia.
    + intros p' [a Ha]. by destruct a, p'.
  - destruct (starts_with n (c :: h)) eqn:E.
    + exists []. split; [done|]. split; [done|]. simpl. lia.
    + destruct (strstr h n) as [p|].
      * destruct IH as (a & -> & Hp & Hm). exists (c :: a). split; [done|]. split; [done|].
        intros [|x a'] p' Hh Hl; simplify_eq/=; [done|]. eapply Hm; [done|lia].
      * intros p' [[|x a] Ha]; simplify_eq/=; [done|]. apply IH. by exists a.
Qed.

Lemma strrstr_loop_spec fuel h n r :
  n <> [] -> length h < fuel ->
  match strrstr_loop fuel h n r with
  | Some q => (Some q = r /\ forall p, within p h -> starts_with n p = false) \/
              (within q h /\ starts_with n q = true /\
               forall p, within p (tail q) -> starts_with n p = false)
  | None => r = None /\ forall p, within p h -> starts_with n p = false
  end.
Proof.
  intros Hn. revert h r. induction fuel as [|f IH]; intros h r Hf; [lia|]. cbn [strrstr_loop].
  pose proof (strstr_spec h n) as Hs. destruct (strstr h n) as [p|].
  2: { destruct r; [by left|done]. }
  destruct Hs as (a & -> & Hp & _). rewrite length_app in Hf.
  destruct p as [|c p]; [by destruct n|]. specialize (IH p (Some (c :: p)) ltac:(simpl in *; lia)).
  cbn [tail]. destruct (strrstr_loop f p n (Some (c :: p))) as [q|]; [|by destruct IH].
  right. destruct IH as [[[=->] Hno]|(Hw & Hq & Hno)].
  - split; [by exists a|]. done.
  - split; [|done]. eapply within_trans; [exact Hw|]. exists (a ++ [c]). by rewrite <- app_assoc.
Qed.

(** [strrstr] returns the rightmost occurrence of a non-empty needle, and
    NULL exactly when the needle does not occur. *)
Theorem strrstr_rightmost h n :
  n <> [] ->
  match strrstr h n with
  | Some q => within q h /\ starts_with n q = true /\
              forall p, within p (tail q) -> starts_with n p = false
  | None => forall p, within p h -> starts_with n p = false
  end.
Proof.
  intros Hn. pose proof (strrstr_loop_spec (S (length h)) h n None Hn ltac:(lia)) as H.
  unfold strrstr. destruct n as [|c n]; [done|].
  destruct (strrstr_loop _ h (c :: n) None) as [q|]; [destruct H as [[? _]|H]; done|apply H].
Qed.

Lemma strrstr_rightmost_witness :
  strrstr (lit "baaabaaaab") (lit "aaa") = Some (lit "aaab") /\ starts_with (lit "aaa") (lit "aaab") = true.
Proof.
  split; [reflexivity|].
  pose proof (strrstr_rightmost (lit "baaabaaaab") (lit "aaa") ltac:(discriminate)) as H.
  exact (proj1 (proj2 H)).
Defined.

(** ** Trimming *)

Lemma trim_len_spec s n :
  n <= length s -> trim_len s n <= n /\
  Forall (fun c => isspace c = true) (drop (trim_len s n) (take n s)) /\
  (forall m, trim_len s n = S m -> isspace (at0 s m) = false).
Proof.
  induction n as [|n IH]; intros Hn; simpl; [split; [done|split; [constructor|done]]|].
  destruct (isspace (at0 s n)) eqn:E.
  - destruct (IH ltac:(lia)) as (H1 & H2 & H3). split; [lia|]. split; [|done].
    destruct (lookup_lt_is_Some_2 s n Hn) as [c Hc].
    erewrite take_S_r by done. rewrite drop_app_le by (rewrite length_take; lia).
    apply Forall_app. split; [done|]. constructor; [|done]. by rewrite <- (at0_lookup s n c).
  - split; [lia|]. split; [|by intros m [=<-]].
    rewrite drop_ge by (rewrite length_take; lia). done.
Qed.

Lemma skip_whitespace_split s :
  exists a, s = a ++ skip_whitespace s /\ Forall (fun c => isspace c = true) a /\
            isspace (hd0 (skip_whitespace s)) = false.
Proof.
  rewrite skip_whitespace_spec. induction s as [|c s (a & Ha & Hf & Hh)]; simpl; [by exists []|].
  rewrite <- isspace_spec. destruct (isspace c) eqn:E.
  - exists (c :: a). simpl. rewrite <- Ha. split; [done|]. by split; [constructor|].
  - by exists [].
Qed.

(** [trim] removes exactly the leading and trailing whitespace: what it
    cuts off on either side is all whitespace, and what is left is empty or
    starts and ends with a non-blank character. *)
Theorem trim_spec s :
  exists a b, s = a ++ trim s ++ b /\
    Forall (fun c => isspace c = true) a /\ Forall (fun c => isspace c = true) b /\
    (trim s = [] \/ (isspace (hd0 (trim s)) = false /\
                     forall t c, trim s = t ++ [c] -> isspace c = false)).
Proof.
  destruct (trim_len_spec s (length s)) as (Hle & Hb & Hm); [done|].
  rewrite firstn_all in Hb. unfold trim. set (len := trim_len s (length s)) in *.
  destruct (skip_whitespace_split s) as (a & Ha & Hfa & Hh).
  destruct len as [|m] eqn:El.
  { exists [], s. rewrite drop_0 in Hb. split; [done|]. split; [constructor|]. split; [done|by left]. }
  assert (length s - length (skip_whitespace s) = length a) as Hd.
  { rewrite Ha at 1. rewrite length_app. lia. }
  rewrite Hd. set (d := length a) in *.
  assert (drop d s = skip_whitespace s) as Hds by (rewrite Ha at 1; apply drop_app_length).
  assert (d <= m) as Hdm.
  { destruct (decide (d <= m)) as [|Hgt]; [done|exfalso].
    assert (m < length a) as Hma by (unfold d in *; lia).
    destruct (lookup_lt_is_Some_2 a m Hma) as [c Hc].
    specialize (Hm m eq_refl). rewrite Ha, at0_nth, lookup_app_l, Hc in Hm by done.
    rewrite Forall_lookup in Hfa. simpl in Hm. by rewrite (Hfa m c Hc) in Hm. }
  exists a, (drop (S m) s). split; [|split; [done|split; [done|right; split]]].
  - rewrite <- (take_drop (S m - d) (drop d s)) in Hds. rewrite drop_drop in Hds.
    replace (d + (S m - d)) with (S m) in Hds by lia. by rewrite Hds.
  - rewrite Hds. destruct (skip_whitespace s) as [|c r]; [by destruct (S m - d)|].
    replace (S m - d) with (S (m - d)) by lia. done.
  - intros t c Ht. specialize (Hm m eq_refl).
    assert (take (S m - d) (drop d s) !! (m - d) = Some c) as Hc.
    { rewrite Ht. assert (length t = m - d) as <-; [|by rewrite list_lookup_middle].
      apply (f_equal length) in Ht. rewrite length_take, length_drop, length_app in Ht. simpl in Ht. lia. }
    rewrite lookup_take_lt, lookup_drop in Hc by lia.
    replace (d + (m - d)) with m in Hc by lia. by rewrite (at0_lookup s m c Hc) in Hm.
Qed.
