(* ===== verification/LibbbNum.v ===== *)
(** * libbb: checked number parsing and escape sequences

    Models libbb/bb_strtonum.c (the [bb_strto*] family, errno as a result),
    libbb/xatonum_template.c and libbb/xatonum.c (the dying [xstrto*]/[xato*]
    family, whose [bb_error_msg_and_die] exits are constructors of a result
    type) and libbb/process_escape_sequence.c.  The template is instantiated by
    C macros for [long long], [long] and [int]; here the integer width [w] is
    its parameter.  On wasm32 [long] and [int] are both 32 bits wide. *)

From Stdlib Require Import Ascii String ZArith Lia.
From stdpp Require Import base gmap list strings.
From S2P Require Import Prelude Clib LibbbStr.

Local Open Scope Z_scope.

(** ** libbb/bb_strtonum.c *)

Definition ULLONG_MAX : Z := 2 ^ 64 - 1.

(** Value, [*endp] and [errno] after the call. *)
Definition ret_ERANGE (endp : cstr) : strto_res := mk_strto ULLONG_MAX endp ERANGE.

Definition handle_errors (r : strto_res) : strto_res :=
  let next_ch := hd0 (st_end r) in
  if negb (next_ch ≟ NUL) then
    if isalnum next_ch || negb (bool_decide (st_err r = E_OK)) then ret_ERANGE (st_end r)
    else mk_strto (st_val r) (st_end r) EINVAL
  else r.

Definition bb_strtoull (arg : cstr) (base : Z) : strto_res :=
  if negb (isalnum (at0 arg 0)) then ret_ERANGE arg
  else handle_errors (strtoull base arg).

(** Conversion of the [unsigned long long] result to the return type. *)
Definition cast_val (f : Z -> Z) (r : strto_res) : strto_res :=
  mk_strto (f (st_val r)) (st_end r) (st_err r).

Definition bb_strtoll (arg : cstr) (base : Z) : strto_res :=
  let first := if negb (at0 arg 0 ≟ "-"%char) then at0 arg 0 else at0 arg 1 in
  cast_val (wrapS 64)
    (if negb (isalnum first) then ret_ERANGE arg else handle_errors (strtoll base arg)).

Definition bb_strtoul (arg : cstr) (base : Z) : strto_res :=
  cast_val (wrapU 32)
    (if negb (isalnum (at0 arg 0)) then ret_ERANGE arg else handle_errors (strtoul base arg)).

Definition bb_strtol (arg : cstr) (base : Z) : strto_res :=
  let first := if negb (at0 arg 0 ≟ "-"%char) then at0 arg 0 else at0 arg 1 in
  cast_val (wrapS 32)
    (if negb (isalnum first) then ret_ERANGE arg else handle_errors (strtol base arg)).

(** ** libbb/xatonum_template.c *)

(** [bb_error_msg_and_die] ends the program; the two messages are told apart. *)
Inductive xres := XOk (z : Z) | XDieRange | XDieInval.

Definition suffix_mult : Type := cstr * Z.

(** [while (suffixes->mult)]: the first entry whose suffix is the rest [e]. *)
Fixpoint find_suffix (suffixes : list suffix_mult) (e : cstr) : option Z :=
  match suffixes with
  | [] => None
  | (sfx, mult) :: rest =>
      if mult =? 0 then None
      else if strcmp sfx e =? 0 then Some mult else find_suffix rest e
  end.

Section Template.
(** The width of [type]. *)
Context (w : Z).

Definition UTYPE_MAX : Z := 2 ^ w - 1.
Definition TYPE_MAX : Z := 2 ^ (w - 1) - 1.
Definition TYPE_MIN : Z := - 2 ^ (w - 1).

Definition chk_range (r lower upper : Z) : xres :=
  if (lower <=? r) && (r <=? upper) then XOk r else XDieRange.

Definition xstrtou_range_sfx (numstr : cstr) (base lower upper : Z)
    (suffixes : option (list suffix_mult)) : xres :=
  if (hd0 numstr ≟ "-"%char) || (hd0 numstr ≟ "+"%char) || isspace (hd0 numstr) then XDieInval
  else
    let res := strtoul_w w base numstr in
    let r := st_val res in
    let e := st_end res in
    if negb (bool_decide (st_err res = E_OK)) || (length e =? length numstr)%nat then XDieInval
    else
      let no_suffix := if negb (hd0 e ≟ NUL) then XDieInval else chk_range r lower upper in
      match suffixes with
      | None => no_suffix
      | Some l => match find_suffix l e with
                  | Some mult => if UTYPE_MAX / mult <? r then XDieRange
                                 else chk_range (wrapU w (r * mult)) lower upper
                  | None => no_suffix
                  end
      end.

Definition xstrtou_range (numstr : cstr) (base lower upper : Z) : xres :=
  xstrtou_range_sfx numstr base lower upper None.
Definition xstrtou_sfx (numstr : cstr) (base : Z) (suffixes : option (list suffix_mult)) : xres :=
  xstrtou_range_sfx numstr base 0 UTYPE_MAX suffixes.
Definition xstrtou (numstr : cstr) (base : Z) : xres :=
  xstrtou_range_sfx numstr base 0 UTYPE_MAX None.
Definition xatou_range_sfx (numstr : cstr) (lower upper : Z)
    (suffixes : option (list suffix_mult)) : xres :=
  xstrtou_range_sfx numstr 10 lower upper suffixes.
Definition xatou_range (numstr : cstr) (lower upper : Z) : xres :=
  xstrtou_range_sfx numstr 10 lower upper None.
Definition xatou_sfx (numstr : cstr) (suffixes : option (list suffix_mult)) : xres :=
  xstrtou_range_sfx numstr 10 0 UTYPE_MAX suffixes.
Definition xatou (numstr : cstr) : xres := xatou_sfx numstr None.

(** The signed functions.  [++p] comes before the second test of [p[0]]. *)
Definition xstrto_range_sfx (numstr : cstr) (base lower upper : Z)
    (suffixes : option (list suffix_mult)) : xres :=
  let u := TYPE_MAX in
  let p := numstr in
  let '(p, u) :=
    if (at0 p 0 ≟ "+"%char) || (at0 p 0 ≟ "-"%char) then
      let p := tail p in
      (p, if (at0 p 0 ≟ "-"%char) then u + 1 else u)
    else (p, u) in
  match xstrtou_range_sfx p base 0 u suffixes with
  | XOk v =>
      let r := wrapS w v in
      let r := if (hd0 numstr ≟ "-"%char) then wrapS w (- r) else r in
      if (r <? lower) || (upper <? r) then XDieRange else XOk r
  | die => die
  end.

Definition xstrto_range (numstr : cstr) (base lower upper : Z) : xres :=
  xstrto_range_sfx numstr base lower upper None.
Definition xstrto (numstr : cstr) (base : Z) : xres :=
  xstrto_range_sfx numstr base TYPE_MIN TYPE_MAX None.
Definition xato_range_sfx (numstr : cstr) (lower upper : Z)
    (suffixes : option (list suffix_mult)) : xres :=
  xstrto_range_sfx numstr 10 lower upper suffixes.
Definition xato_range (numstr : cstr) (lower upper : Z) : xres :=
  xstrto_range_sfx numstr 10 lower upper None.
Definition xato_sfx (numstr : cstr) (suffixes : option (list suffix_mult)) : xres :=
  xstrto_range_sfx numstr 10 TYPE_MIN TYPE_MAX suffixes.
Definition xato (numstr : cstr) : xres :=
  xstrto_range_sfx numstr 10 TYPE_MIN TYPE_MAX None.

End Template.

(** ** libbb/xatonum.c *)

Definition xatoll : cstr -> xres := xato 64.
Definition xatoull : cstr -> xres := xatou 64.
Definition xatoul_range_sfx := xatou_range_sfx 32.
Definition xatoi : cstr -> xres := xato 32.

Definition xatoi_positive (numstr : cstr) : xres := xatou_range 32 numstr 0 (TYPE_MAX 32).
Definition xatou16 (numstr : cstr) : xres := xatou_range 32 numstr 0 0xffff.

Definition bkm_suffixes : list suffix_mult :=
  [(lit "b", 512); (lit "k", 1024); (lit "m", 1024 * 1024); (lit "", 0)].

Definition cwbkMG_suffixes : list suffix_mult :=
  [(lit "c", 1); (lit "w", 2); (lit "b", 512);
   (lit "kB", 1000); (lit "kD", 1000); (lit "k", 1024);
   (lit "KB", 1000); (lit "KD", 1000); (lit "K", 1024);
   (lit "MB", 1000000); (lit "MD", 1000000); (lit "M", 1024 * 1024);
   (lit "GB", 1000000000); (lit "GD", 1000000000); (lit "G", 1024 * 1024 * 1024);
   (lit "", 0)].

Definition kmg_i_suffixes : list suffix_mult :=
  [(lit "KiB", 1024); (lit "kiB", 1024); (lit "K", 1024); (lit "k", 1024);
   (lit "MiB", 1048576); (lit "miB", 1048576); (lit "M", 1048576); (lit "m", 1048576);
   (lit "GiB", 1073741824); (lit "giB", 1073741824); (lit "G", 1073741824); (lit "g", 1073741824);
   (lit "KB", 1000); (lit "MB", 1000000); (lit "GB", 1000000000);
   (lit "", 0)].

(** ** libbb/process_escape_sequence.c *)

(** The digit value of the loop: letters count from 10, and a character that is
    neither keeps a value no base accepts. *)
Definition esc_digit (c : ascii) : Z :=
  let d := wrapU 32 (uc c - 48) in
  if 10 <=? d then
    let d := wrapU 32 (Z.lor (uc c) 0x20 - 97) in
    if d <? 2 ^ 31 then wrapU 32 (d + 10) else d
  else d.

(** What the digit loop ends with: a return of ['\'] out of the middle, or the
    digit count, the value and the position. *)
Inductive esc_loop_res := EscReturn | EscDone (num_digits : nat) (n : Z) (q : cstr).

(** [do { ... } while (++num_digits < 3)]; [fuel] counts the at most three turns. *)
Fixpoint esc_loop (fuel num_digits : nat) (base n : Z) (q : cstr) : esc_loop_res :=
  match fuel with
  | O => EscDone num_digits n q
  | S f =>
      let d := esc_digit (hd0 q) in
      if base <=? d then
        if base =? 16 then
          let num_digits := Nat.pred num_digits in
          if (num_digits =? 0)%nat then EscReturn else EscDone num_digits n q
        else EscDone num_digits n q
      else
        let r := wrapU 32 (n * base + d) in
        if 255 <? r then EscDone num_digits n q
        else
          let num_digits := S num_digits in
          if (num_digits <? 3)%nat then esc_loop f num_digits base r (tail q)
          else EscDone num_digits r (tail q)
  end.

(** The two rows of [charmap]: escape letters (closed by NUL) and their values. *)
Definition charmap_keys : cstr := lit "abefnrtv\".
Definition charmap_vals : cstr :=
  ["007"; "008"; "027"; "012"; "010"; "013"; "009"; "011"; "\"; "\"]%char.

Fixpoint charmap_scan (keys vals : cstr) (c : ascii) : ascii * bool :=
  match keys, vals with
  | k :: keys', v :: vals' => if (k ≟ c) then (v, true) else charmap_scan keys' vals' c
  | _, v :: _ => (v, false)
  | _, [] => (NUL, false)
  end.

(** The character and the advanced pointer. *)
Definition bb_process_escape_sequence (ptr : cstr) : ascii * cstr :=
  let hex := (hd0 ptr ≟ "x"%char) in
  let q := if hex then tail ptr else ptr in
  let base := if hex then 16 else 8 in
  match esc_loop 3 (if hex then 1%nat else 0%nat) base 0 q with
  | EscReturn => ("\"%char, ptr)
  | EscDone 0 _ q =>
      let '(c, found) := charmap_scan charmap_keys charmap_vals (hd0 q) in
      (c, if found then tail q else q)
  | EscDone _ n q => (chr n, q)
  end.

(** [strcpy_and_process_escape_sequences]: the bytes written to [dst], without
    the final NUL.  Every turn consumes a character of [src]. *)
Fixpoint strcpy_esc_loop (fuel : nat) (src : cstr) : list ascii :=
  match fuel with
  | O => []
  | S f => match src with
           | [] => []
           | c :: src => if (c ≟ "\"%char)
                         then let '(c1, src) := bb_process_escape_sequence src in
                              c1 :: strcpy_esc_loop f src
                         else c :: strcpy_esc_loop f src
           end
  end.

Definition strcpy_and_process_escape_sequences (src : cstr) : list ascii :=
  strcpy_esc_loop (S (length src)) src.

(** ** The contract of the [bb_strto*] family *)

(** No digits at all: the end pointer is the argument itself. *)
Lemma strtoul_nodigits w base s :
  st_err (strtoul_w w base s) = EINVAL -> st_end (strtoul_w w base s) = s.
Proof. unfold strtoul_w. repeat case_match; done. Qed.

Lemma strtoul_erange w base s :
  st_err (strtoul_w w base s) = ERANGE -> st_val (strtoul_w w base s) = 2 ^ w - 1.
Proof. unfold strtoul_w. repeat case_match; done. Qed.

(** The documented contract of [bb_strtoull] (comment at the top of
    bb_strtonum.c): errno is 0 exactly when the argument is, up to its
    terminator, one in-range number that does not start with a sign or blank,
    EINVAL exactly for a good number whose terminator is not alphanumeric, and
    ERANGE otherwise, with the all-ones value; the end pointer is the library's,
    or the start where nothing was read. *)
Theorem bb_strtoull_contract arg base :
  let r := bb_strtoull arg base in
  let lib := strtoull base arg in
  let good := isalnum (at0 arg 0) = true /\ st_err lib = E_OK in
  (st_err r = E_OK <-> good /\ hd0 (st_end lib) = NUL) /\
  (st_err r = EINVAL <-> good /\ hd0 (st_end lib) <> NUL /\ isalnum (hd0 (st_end lib)) = false) /\
  (st_err r = E_OK \/ st_err r = EINVAL \/ st_err r = ERANGE) /\
  st_val r = (if bool_decide (st_err r = ERANGE) then ULLONG_MAX else st_val lib) /\
  st_end r = (if isalnum (at0 arg 0) then st_end lib else arg).
Proof.
  unfold bb_strtoull. destruct (isalnum (at0 arg 0)) eqn:Ha; cbn [negb].
  2: { simpl. repeat split; intros; destruct_and?; first [done | congruence | by auto]. }
  unfold handle_errors.
  pose proof (strtoul_nodigits 64 base arg) as Hnd. pose proof (strtoul_erange 64 base arg) as Her.
  fold (strtoull base arg) in *.
  destruct (hd0 (st_end (strtoull base arg)) ≟ NUL) eqn:E; bool_prop; cbn [negb].
  - assert (st_err (strtoull base arg) <> EINVAL) as Hne.
    { intros H. rewrite Hnd in E by done. change (at0 arg 0) with (hd0 arg) in Ha.
      rewrite E in Ha. done. }
    case_bool_decide; (destruct (st_err (strtoull base arg)) eqn:Ee;
      repeat split; intros; destruct_and?; first [done | congruence | by auto]).
  - destruct (st_err (strtoull base arg)) eqn:Ee; destruct (isalnum (hd0 _)) eqn:Ei; simpl;
      repeat split; intros; destruct_and?; first [done | congruence | by auto].
Qed.

Lemma alnum_hd_fmt_d v : isalnum (if negb (at0 (fmt_d v) 0 ≟ "-"%char) then at0 (fmt_d v) 0
                                  else at0 (fmt_d v) 1) = true.
Proof.
  assert (forall z, 0 <= z -> exists c s, fmt_u z = c :: s /\ isalnum c = true /\ (c ≟ "-"%char) = false) as Hd.
  { intros z Hz. destruct (fmt_u_cons z Hz) as (c & s & E & Hc). exists c, s. split; [done|].
    destruct (digit_char_facts c Hc) as (_ & Hm & _ & _). split; [|done].
    rewrite isalnum_spec, isdigit_spec. unfold between, is_digit_char in *. lia. }
  unfold fmt_d. destruct (Z.ltb_spec v 0).
  - destruct (Hd (- v) ltac:(lia)) as (c & s & -> & H1 & _). done.
  - destruct (Hd v ltac:(lia)) as (c & s & -> & H1 & H2). unfold at0. simpl drop. cbn [hd0].
    by rewrite H2.
Qed.

(** Printing a 64-bit (32-bit) signed value in decimal and reading it back
    with [bb_strtoll] ([bb_strtol]) gives the value, errno 0 and the end of the
    string, for every value of the type, the most negative one included. *)
Theorem bb_strtoll_roundtrip v :
  (is_s 64 v -> bb_strtoll (fmt_d v) 10 = mk_strto v [] E_OK) /\
  (is_s 32 v -> bb_strtol (fmt_d v) 10 = mk_strto v [] E_OK).
Proof.
  assert (10 <= digit_val (hd0 [])) as Hr by (vm_compute; discriminate).
  split; intros Hv; unfold bb_strtoll, bb_strtol; rewrite alnum_hd_fmt_d; cbn [negb].
  - rewrite <- (app_nil_r (fmt_d v)). unfold strtoll. rewrite strtol_fmt by (done || lia).
    unfold handle_errors, cast_val. simpl. by rewrite wrapS_id.
  - rewrite <- (app_nil_r (fmt_d v)). unfold strtol. rewrite strtol_fmt by (done || lia).
    unfold handle_errors, cast_val. simpl. by rewrite wrapS_id.
Qed.

Lemma bb_strtoll_roundtrip_witness :
  bb_strtoll (fmt_d (- 2 ^ 63)) 10 = mk_strto (- 2 ^ 63) [] E_OK.
Proof. refine (proj1 (bb_strtoll_roundtrip (- 2 ^ 63)) _). vm_compute. split; [discriminate|reflexivity]. Defined.

(** ** The [xato*] family: exact values, ranges and suffixes *)

Lemma find_suffix_pos l e m :
  Forall (fun x => 0 <= x.2) l -> find_suffix l e = Some m -> 0 < m.
Proof.
  induction l as [|[sfx mult] l IH]; [done|]. intros [H1 H2]%Forall_cons. simpl in *.
  repeat case_match; bool_prop; intros; simplify_eq; [lia|by apply IH].
Qed.

(** The multiplier a text is scaled by: that of the first matching suffix, or 1
    for a text that ends right after its digits. *)
Definition scale_of (suffixes : option (list suffix_mult)) (e : cstr) : option Z :=
  match suffixes with
  | Some l => match find_suffix l e with
              | Some m => Some m
              | None => if (hd0 e ≟ NUL) then Some 1 else None
              end
  | None => if (hd0 e ≟ NUL) then Some 1 else None
  end.



Lemma fmt_u_no_sign z : 0 <= z -> exists c s, fmt_u z = c :: s /\
  (c ≟ "-"%char) = false /\ (c ≟ "+"%char) = false /\ isspace c = false.
Proof.
  intros Hz. destruct (fmt_u_cons z Hz) as (c & s & E & Hc). exists c, s.
  destruct (digit_char_facts c Hc) as (Hs & Hm & Hp & _). rewrite isspace_spec. done.
Qed.

(** The unsigned reader on a printed value. *)
Lemma xstrtou_fmt w z upper :
  0 < w -> is_u w z ->
  xstrtou_range_sfx w (fmt_u z) 10 0 upper None = if z <=? upper then XOk z else XDieRange.
Proof.
  intros Hw Hz. pose proof Hz as [Hz0 _]. destruct (fmt_u_no_sign z Hz0) as (c & s & E & H1 & H2 & H3).
  assert (strtoul_w w 10 (fmt_u z) = mk_strto z [] E_OK) as Hs.
  { rewrite <- (app_nil_r (fmt_u z)). apply strtoul_fmt; [done|]. vm_compute. discriminate. }
  unfold xstrtou_range_sfx. rewrite Hs, E. cbn [hd0]. rewrite H1, H2, H3. cbn.
  unfold chk_range. rewrite (proj2 (Z.leb_le 0 z)) by lia. done.
Qed.

(** The signed readers [xatoll], [xatol], [xatoi] accept the decimal form
    of every value of their type except the most negative one, which they
    reject as out of range: the test that is meant to admit it looks at the
    character after the sign, where a '-' is never acceptable. *)
Theorem xato_all_but_min w v :
  1 < w -> is_s w v ->
  xato w (fmt_d v) = if v =? TYPE_MIN w then XDieRange else XOk v.
Proof.
  intros Hw Hv. unfold is_s in Hv. unfold xato, xstrto_range_sfx, TYPE_MIN, TYPE_MAX.
  assert (2 ^ w = 2 * 2 ^ (w - 1)) as Hp.
  { rewrite <- Z.pow_succ_r by lia. f_equal. lia. }
  assert (0 < 2 ^ (w - 1)) by (apply Z.pow_pos_nonneg; lia).
  unfold fmt_d. destruct (Z.ltb_spec v 0) as [Hneg|Hpos].
  - destruct (fmt_u_no_sign (- v) ltac:(lia)) as (c & s & E & H1 & _ & _).
    cbn [tail at0 drop hd0 Ascii.eqb Bool.eqb andb orb]. unfold at0. cbn [drop].
    replace (hd0 (drop 0 (fmt_u (- v))) ≟ "-"%char) with false by (by rewrite drop_0, E).
    rewrite xstrtou_fmt by (unfold is_u; lia).
    destruct (Z.eqb_spec v (- 2 ^ (w - 1))) as [->|Hne].
    + rewrite (proj2 (Z.leb_gt _ _)) by lia. done.
    + rewrite (proj2 (Z.leb_le _ _)) by lia.
      rewrite (wrapS_id w (- v)), Z.opp_involutive, wrapS_id by (unfold is_s; lia).
      rewrite !(proj2 (Z.ltb_ge _ _)) by lia. done.
  - destruct (fmt_u_no_sign v ltac:(lia)) as (c & s & E & H1 & H2 & _).
    unfold at0. rewrite !drop_0, E. cbn [hd0]. rewrite H1, H2. cbn [orb]. rewrite <- E.
    rewrite xstrtou_fmt by (unfold is_u; lia).
    rewrite (proj2 (Z.leb_le _ _)), wrapS_id by (unfold is_s; lia).
    rewrite !(proj2 (Z.ltb_ge _ _)), (proj2 (Z.eqb_neq _ _)) by lia. done.
Qed.

Lemma xato_all_but_min_witness :
  xatoll (lit "-9223372036854775808") = XDieRange /\ xatoll (lit "-9223372036854775807") = XOk (1 - 2 ^ 63).
Proof.
  split.
  - refine (eq_trans _ (xato_all_but_min 64 (- 2 ^ 63) _ _)); [reflexivity|lia|unfold is_s; lia].
  - refine (eq_trans _ (xato_all_but_min 64 (1 - 2 ^ 63) _ _)); [reflexivity|lia|unfold is_s; lia].
Defined.

(** ** Escape sequences *)

Lemma esc_digit_nul base : base <= 16 -> (base <=? esc_digit NUL) = true.
Proof. intros H. apply Z.leb_le. change (esc_digit NUL) with 4294967231. lia. Qed.

(** The digit loop only moves forward, by one character per digit. *)
Lemma esc_loop_spec fuel nd base n q nd' n' q' :
  base <= 16 -> (nd < 3)%nat -> esc_loop fuel nd base n q = EscDone nd' n' q' ->
  within q' q /\ (length q <= length q' + (3 - nd))%nat /\
  (base <> 16 -> nd' = (nd + (length q - length q'))%nat).
Proof.
  intros Hb. revert nd n q. induction fuel as [|f IH]; intros nd n q Hnd H.
  { simpl in H. simplify_eq. split; [apply within_refl|]. split; [lia|]. intros. lia. }
  cbn [esc_loop] in H. destruct (base <=? esc_digit (hd0 q)) eqn:Ed.
  { destruct (Z.eqb_spec base 16) as [Hb16|]; [destruct (Nat.pred nd =? 0)%nat; [done|]|];
      simplify_eq; (split; [apply within_refl|]); (split; [lia|]); intros; try done; lia. }
  destruct q as [|c q]; [by rewrite esc_digit_nul in Ed|].
  set (r := wrapU 32 _) in *. destruct (255 <? r).
  { simplify_eq. split; [apply within_refl|]. split; [simpl; lia|]. intros. lia. }
  cbn [tail] in H. destruct (Nat.ltb_spec (S nd) 3).
  - apply IH in H as (Hw & Hl & Hn); [|done]. split; [by apply within_cons|]. cbn [length]. split; [lia|].
    intros Hne. specialize (Hn Hne). apply within_length in Hw. lia.
  - simplify_eq. split; [apply within_cons, within_refl|]. cbn [length]. split; [lia|].
    intros. lia.
Qed.

(** In a hex escape the count stays positive. *)
Lemma esc_loop_hex_pos fuel nd n q nd' n' q' :
  (0 < nd)%nat -> esc_loop fuel nd 16 n q = EscDone nd' n' q' -> nd' <> 0%nat.
Proof.
  revert nd n q. induction fuel as [|f IH]; intros nd n q Hnd H; cbn [esc_loop] in H; [simplify_eq; lia|].
  destruct (16 <=? esc_digit (hd0 q)).
  { destruct (Nat.eqb_spec (Nat.pred nd) 0); [done|]. cbn in H. injection H as <- _ _. lia. }
  repeat case_match; simplify_eq; try lia. eapply (IH (S nd)); [lia|done].
Qed.

(** The letter table: a hit is a table letter, a miss yields '\'. *)
Lemma charmap_scan_spec c :
  let '(v, found) := charmap_scan charmap_keys charmap_vals c in
  if found then c <> NUL else v = "\"%char.
Proof. all_chars c; discriminate. Qed.

(** Where the returned pointer is. *)
Lemma escape_pointer ptr :
  let '(c, q) := bb_process_escape_sequence ptr in
  within q ptr /\ (length ptr <= length q + 3)%nat /\ (length q = length ptr -> c = "\"%char).
Proof.
  unfold bb_process_escape_sequence.
  destruct (hd0 ptr ≟ "x"%char) eqn:Ex.
  - destruct ptr as [|x ptr]; [done|]. cbn [tail].
    destruct (esc_loop 3 1 16 0 ptr) as [|nd n q] eqn:E.
    { split; [apply within_refl|]. split; [lia|done]. }
    assert (nd <> 0%nat) as Hnd by (eapply esc_loop_hex_pos, E; lia).
    apply esc_loop_spec in E as (Hw & Hl & _); [|lia|lia]. apply within_length in Hw as Hlen.
    destruct nd; [done|]. split; [by apply within_cons|]. cbn [length]. split; lia.
  - destruct (esc_loop 3 0 8 0 ptr) as [|nd n q] eqn:E.
    { split; [apply within_refl|]. split; [lia|done]. }
    apply esc_loop_spec in E as (Hw & Hl & Hn); [|lia|lia]. apply within_length in Hw as Hlen.
    specialize (Hn ltac:(done)). destruct nd as [|nd]; [|split; [done|split; lia]].
    pose proof (charmap_scan_spec (hd0 q)) as Hc.
    destruct (charmap_scan _ _ _) as [c found]. destruct found; [|split; [done|split; [lia|done]]].
    destruct q as [|x q]; [done|]. cbn [tail length] in *.
    split; [by eapply within_tail|]. split; lia.
Qed.

(** [bb_process_escape_sequence] never reads past the string, consumes at
    most three characters, returns '\' whenever it consumes none, and inverts
    the three-digit octal and the two-digit hex notation of every byte,
    whatever text follows. *)
Theorem escape_sequence_spec ptr :
  (let '(c, q) := bb_process_escape_sequence ptr in
   within q ptr /\ (length ptr <= length q + 3)%nat /\ (length q = length ptr -> c = "\"%char)) /\
  (forall b rest, bb_process_escape_sequence
     (chr (48 + uc b / 64) :: chr (48 + uc b / 8 mod 8) :: chr (48 + uc b mod 8) :: rest) = (b, rest)) /\
  (forall b rest, let hexd d := if d <? 10 then chr (48 + d) else chr (87 + d) in
     bb_process_escape_sequence ("x"%char :: hexd (uc b / 16) :: hexd (uc b mod 16) :: rest) = (b, rest)).
Proof.
  split; [|split; intros b rest; all_chars b].
  pose proof (escape_pointer ptr). by destruct (bb_process_escape_sequence ptr).
Qed.

(** [strcpy_and_process_escape_sequences] writes at most as many characters
    as it reads, so it can run in place ([dst] = [src]), and it copies a text
    without backslashes unchanged. *)
Theorem strcpy_escapes_in_place src :
  (length (strcpy_and_process_escape_sequences src) <= length src)%nat /\
  ("\"%char ∉ src -> strcpy_and_process_escape_sequences src = src).
Proof.
  unfold strcpy_and_process_escape_sequences. split.
  - generalize (S (length src)). intros fuel. revert src.
    induction fuel as [|f IH]; intros [|c src]; cbn [strcpy_esc_loop length]; try lia.
    destruct (c ≟ "\"%char).
    + pose proof (escape_pointer src) as Hp. destruct (bb_process_escape_sequence src) as [c1 q].
      destruct Hp as [Hw%within_length _]. specialize (IH q). simpl. lia.
    + specialize (IH src). simpl. lia.
  - intros Hn. assert (length src < S (length src))%nat as Hf by lia. revert Hf.
    generalize (S (length src)). intros fuel. revert src Hn.
    induction fuel as [|f IH]; intros [|c src] Hn Hf; cbn [strcpy_esc_loop] in *; [done|simpl in Hf; lia|done|].
    apply not_elem_of_cons in Hn as [Hc Hn]. apply not_eq_sym, Ascii.eqb_neq in Hc as ->.
    rewrite IH; [done|done|simpl in Hf; lia].
Qed.

Lemma strcpy_escapes_in_place_witness :
  strcpy_and_process_escape_sequences (lit "plain text") = lit "plain text".
Proof. refine (proj2 (strcpy_escapes_in_place (lit "plain text")) _). by_eval. Defined.
