(* ===== verification/ShMath.v ===== *)
(** * shell/math.c: the shell's arithmetic evaluator [$(( ... ))]

    An operator-precedence evaluator over two stacks.  Operators are the 8-bit
    tokens of the source (3 bits of identity over 5 bits of precedence); values
    are 64-bit signed integers (FEATURE_SH_MATH_64) that wrap around, shift
    counts are taken modulo 64 as the wasm [i64.shl]/[i64.shr_s] instructions
    do.  The shell's variables are reached through the two callbacks of
    [arith_state_t]; they are the operations of the class [VarStore], and a
    [setvar] that does not return (ash raises an error for a read-only variable)
    is [None].  A variable's value is itself evaluated as an expression, so
    [evaluate_string] is recursive: [depth] bounds the nesting of such
    evaluations and the theorems say which depth is enough. *)

From Stdlib Require Import Ascii String ZArith Lia.
From stdpp Require Import base gmap list strings.
From S2P Require Import Prelude Clib LibbbStr.

Local Open Scope Z_scope.

(** ** Tokens *)

Definition tok_decl (prec id : Z) : Z := Z.lor (Z.shiftl id 5) prec.
Definition PREC (op : Z) : Z := Z.land op 0x1F.

Definition TOK_LPAREN := tok_decl 0 0.
Definition TOK_COMMA := tok_decl 1 0.

Definition TOK_ASSIGN := tok_decl 2 0.
Definition TOK_AND_ASSIGN := tok_decl 2 1.
Definition TOK_OR_ASSIGN := tok_decl 2 2.
Definition TOK_XOR_ASSIGN := tok_decl 2 3.
Definition TOK_PLUS_ASSIGN := tok_decl 2 4.
Definition TOK_MINUS_ASSIGN := tok_decl 2 5.
Definition TOK_LSHIFT_ASSIGN := tok_decl 2 6.
Definition TOK_RSHIFT_ASSIGN := tok_decl 2 7.

Definition TOK_MUL_ASSIGN := tok_decl 3 0.
Definition TOK_DIV_ASSIGN := tok_decl 3 1.
Definition TOK_REM_ASSIGN := tok_decl 3 2.

Definition fix_assignment_prec (prec : Z) : Z := if prec =? 3 then 2 else prec.

Definition TOK_CONDITIONAL := tok_decl 4 0.
Definition TOK_CONDITIONAL_SEP := tok_decl 4 1.
Definition TOK_OR := tok_decl 5 0.
Definition TOK_AND := tok_decl 6 0.
Definition TOK_BOR := tok_decl 7 0.
Definition TOK_BXOR := tok_decl 8 0.
Definition TOK_BAND := tok_decl 9 0.
Definition TOK_EQ := tok_decl 10 0.
Definition TOK_NE := tok_decl 10 1.
Definition TOK_LT := tok_decl 11 0.
Definition TOK_GT := tok_decl 11 1.
Definition TOK_GE := tok_decl 11 2.
Definition TOK_LE := tok_decl 11 3.
Definition TOK_LSHIFT := tok_decl 12 0.
Definition TOK_RSHIFT := tok_decl 12 1.
Definition TOK_ADD := tok_decl 13 0.
Definition TOK_SUB := tok_decl 13 1.
Definition TOK_MUL := tok_decl 14 0.
Definition TOK_DIV := tok_decl 14 1.
Definition TOK_REM := tok_decl 14 2.
Definition TOK_EXPONENT := tok_decl 15 1.

Definition UNARYPREC : Z := 16.
Definition TOK_BNOT := tok_decl UNARYPREC 0.
Definition TOK_NOT := tok_decl UNARYPREC 1.
Definition TOK_UMINUS := tok_decl (UNARYPREC + 1) 0.
Definition TOK_UPLUS := tok_decl (UNARYPREC + 1) 1.
Definition PREC_PRE : Z := UNARYPREC + 2.
Definition TOK_PRE_INC := tok_decl PREC_PRE 0.
Definition TOK_PRE_DEC := tok_decl PREC_PRE 1.
Definition PREC_POST : Z := UNARYPREC + 3.
Definition TOK_POST_INC := tok_decl PREC_POST 0.
Definition TOK_POST_DEC := tok_decl PREC_POST 1.
Definition SPEC_PREC : Z := UNARYPREC + 4.
Definition TOK_NUM := tok_decl SPEC_PREC 0.
Definition TOK_RPAREN := tok_decl SPEC_PREC 1.

Definition is_assign_op (op : Z) : bool :=
  let prec := fix_assignment_prec (PREC op) in
  (prec =? PREC TOK_ASSIGN) || (prec =? PREC_PRE) || (prec =? PREC_POST).

Definition is_right_associative (prec : Z) : bool :=
  (prec =? PREC TOK_ASSIGN) || (prec =? PREC TOK_EXPONENT) || (prec =? PREC TOK_CONDITIONAL).

(** [op_tokens]: longest first. *)
Definition op_tokens : list (cstr * Z) :=
  [ (lit "<<=", TOK_LSHIFT_ASSIGN); (lit ">>=", TOK_RSHIFT_ASSIGN);
    (lit "<<", TOK_LSHIFT); (lit ">>", TOK_RSHIFT);
    (lit "||", TOK_OR); (lit "&&", TOK_AND); (lit "!=", TOK_NE);
    (lit "<=", TOK_LE); (lit ">=", TOK_GE); (lit "==", TOK_EQ);
    (lit "|=", TOK_OR_ASSIGN); (lit "&=", TOK_AND_ASSIGN); (lit "*=", TOK_MUL_ASSIGN);
    (lit "/=", TOK_DIV_ASSIGN); (lit "%=", TOK_REM_ASSIGN); (lit "+=", TOK_PLUS_ASSIGN);
    (lit "-=", TOK_MINUS_ASSIGN); (lit "--", TOK_POST_DEC); (lit "^=", TOK_XOR_ASSIGN);
    (lit "++", TOK_POST_INC); (lit "**", TOK_EXPONENT);
    (lit "!", TOK_NOT); (lit "<", TOK_LT); (lit ">", TOK_GT); (lit "=", TOK_ASSIGN);
    (lit "|", TOK_BOR); (lit "&", TOK_BAND); (lit "*", TOK_MUL); (lit "/", TOK_DIV);
    (lit "%", TOK_REM); (lit "+", TOK_ADD); (lit "-", TOK_SUB); (lit "^", TOK_BXOR);
    (lit "~", TOK_BNOT); (lit ",", TOK_COMMA); (lit "?", TOK_CONDITIONAL);
    (lit ":", TOK_CONDITIONAL_SEP); (lit ")", TOK_RPAREN); (lit "(", TOK_LPAREN) ].

(** The [while (1)] search of the table: the first entry the text starts with,
    and the text after it. *)
Fixpoint find_op (table : list (cstr * Z)) (expr : cstr) : option (Z * cstr) :=
  match table with
  | [] => None
  | (text, tok) :: table' =>
      match is_prefixed_with expr text with
      | Some e => Some (tok, e)
      | None => find_op table' expr
      end
  end.

(** ** Values *)

(** [var_or_num_t]; [var = None] is the NULL name of a plain number. *)
Record var_or_num_t := mk_von {
  val : Z;
  second_val : Z;
  second_val_present : bool;
  var : option cstr;
}.

Definition set_val (t : var_or_num_t) (z : Z) : var_or_num_t :=
  mk_von z (second_val t) (second_val_present t) (var t).
Definition clear_var (t : var_or_num_t) : var_or_num_t :=
  mk_von (val t) (second_val t) (second_val_present t) None.
Definition set_second (t : var_or_num_t) (z : Z) : var_or_num_t :=
  mk_von (val t) z true (var t).

(** What an evaluation ends with: a result, an error message (assignments made
    before it persist in the store), a raise out of [setvar] of [name], no fuel left. *)
Inductive ares (E A : Type) :=
  | AOk (e : E) (a : A)
  | AErr (e : E) (msg : string)
  | ARaise (e : E) (name : cstr)
  | AFuel.
Arguments AOk {E A} e a.
Arguments AErr {E A} e msg.
Arguments ARaise {E A} e name.
Arguments AFuel {E A}.

Notation "'do' e ',' x <- c1 ; c2" :=
  (match c1 with
   | AOk e x => c2
   | AErr e' m => AErr e' m
   | ARaise e' n => ARaise e' n
   | AFuel => AFuel
   end) (at level 10, e name, x name, c1 at level 100, c2 at level 200).

(** The callbacks of [arith_state_t]. *)
Class VarStore (E : Type) := {
  lookupvar : E -> cstr -> option cstr;
  setvar : E -> cstr -> cstr -> option E;
}.

Definition syntax_error : string := "arithmetic syntax error".
Definition malformed : string := "malformed ?: operator".
Definition recursion_loop : string := "expression recursion loop detected".

(** ** The operators on values *)

Definition arith_wrap (z : Z) : Z := wrapS 64 z.

(** [while (--right_side_val >= 0) c *= rez;] *)
Fixpoint exp_loop (n : nat) (c rez : Z) : Z :=
  match n with
  | O => c
  | S n' => exp_loop n' (arith_wrap (c * rez)) rez
  end.

(** The binary operators of [arith_apply], in the order of its tests: [rez] is
    the left value, [right] the right one, [second] the right one's second
    value.  [inl] is the error message. *)
Definition arith_binop (op rez right second : Z) : string + Z :=
  if op =? TOK_CONDITIONAL then inr (if rez =? 0 then second else right)
  else if op =? TOK_CONDITIONAL_SEP then inr rez
  else if (op =? TOK_BOR) || (op =? TOK_OR_ASSIGN) then inr (Z.lor rez right)
  else if op =? TOK_OR then inr (b2z (negb (right =? 0) || negb (rez =? 0)))
  else if (op =? TOK_BAND) || (op =? TOK_AND_ASSIGN) then inr (Z.land rez right)
  else if (op =? TOK_BXOR) || (op =? TOK_XOR_ASSIGN) then inr (Z.lxor rez right)
  else if op =? TOK_AND then inr (b2z (negb (rez =? 0) && negb (right =? 0)))
  else if op =? TOK_EQ then inr (b2z (rez =? right))
  else if op =? TOK_NE then inr (b2z (negb (rez =? right)))
  else if op =? TOK_GE then inr (b2z (right <=? rez))
  else if (op =? TOK_RSHIFT) || (op =? TOK_RSHIFT_ASSIGN) then inr (Z.shiftr rez (right mod 64))
  else if (op =? TOK_LSHIFT) || (op =? TOK_LSHIFT_ASSIGN)
       then inr (arith_wrap (Z.shiftl rez (right mod 64)))
  else if op =? TOK_GT then inr (b2z (right <? rez))
  else if op =? TOK_LT then inr (b2z (rez <? right))
  else if op =? TOK_LE then inr (b2z (rez <=? right))
  else if (op =? TOK_MUL) || (op =? TOK_MUL_ASSIGN) then inr (arith_wrap (rez * right))
  else if (op =? TOK_ADD) || (op =? TOK_PLUS_ASSIGN) then inr (arith_wrap (rez + right))
  else if (op =? TOK_SUB) || (op =? TOK_MINUS_ASSIGN) then inr (arith_wrap (rez - right))
  else if (op =? TOK_ASSIGN) || (op =? TOK_COMMA) then inr right
  else if op =? TOK_EXPONENT then
    if right <? 0 then inl "exponent less than 0"%string else inr (exp_loop (Z.to_nat right) 1 rez)
  else if right =? 0 then inl "divide by zero"%string
  else if (op =? TOK_DIV) || (op =? TOK_DIV_ASSIGN) || (op =? TOK_REM) || (op =? TOK_REM_ASSIGN) then
    let right := if (right =? -1) && (arith_wrap (Z.shiftl rez 1) =? 0) then 1 else right in
    if (op =? TOK_DIV) || (op =? TOK_DIV_ASSIGN) then inr (Z.quot rez right)
    else inr (Z.rem rez right)
  else inr rez.

(** The unary operators; [None]: [op] is a binary one. *)
Definition arith_unop (op rez : Z) : option Z :=
  if op =? TOK_UMINUS then Some (arith_wrap (- rez))
  else if op =? TOK_NOT then Some (b2z (rez =? 0))
  else if op =? TOK_BNOT then Some (Z.lnot rez)
  else if (op =? TOK_POST_INC) || (op =? TOK_PRE_INC) then Some (arith_wrap (rez + 1))
  else if (op =? TOK_POST_DEC) || (op =? TOK_PRE_DEC) then Some (arith_wrap (rez - 1))
  else if op =? TOK_UPLUS then Some rez
  else None.

(** ** The evaluator *)

Section Eval.
Context {E : Type} `{VarStore E}.

(** Evaluating a variable's value, one nesting level down. *)
Variable ev : E -> list cstr -> cstr -> ares E Z.

Definition arith_lookup_val (e : E) (names : list cstr) (t : var_or_num_t) : ares E var_or_num_t :=
  match var t with
  | None => AOk e t
  | Some v =>
      match lookupvar e v with
      | None => AOk e (set_val t 0)
      | Some p =>
          if bool_decide (v ∈ names) then AErr e recursion_loop
          else do e', z <- ev e (v :: names) p; AOk e' (set_val t z)
      end
  end.

(** The end of [arith_apply]: assignment operators store the result; the value
    replaces the top of the stack as a plain number. *)
Definition arith_store (e : E) (op rez : Z) (top : var_or_num_t) (rest : list var_or_num_t)
    : ares E (list var_or_num_t) :=
  if is_assign_op op then
    match var top with
    | None => AErr e syntax_error
    | Some v =>
        match setvar e v (fmt_d rez) with
        | None => ARaise e v
        | Some e =>
            let rez := if op =? TOK_POST_INC then arith_wrap (rez - 1) else rez in
            let rez := if op =? TOK_POST_DEC then arith_wrap (rez + 1) else rez in
            AOk e (clear_var (set_val top rez) :: rest)
        end
    end
  else AOk e (clear_var (set_val top rez) :: rest).

(** [arith_apply] on the number stack, top first. *)
Definition arith_apply (e : E) (names : list cstr) (op : Z) (nums : list var_or_num_t)
    : ares E (list var_or_num_t) :=
  match nums with
  | [] => AErr e syntax_error
  | top :: rest =>
      do e, top <- arith_lookup_val e names top;
      match arith_unop op (val top) with
      | Some rez => arith_store e op rez top rest
      | None =>
          match rest with
          | [] => AErr e syntax_error
          | lhs :: rest =>
              let bad_second_val := second_val_present top in
              let bad_second_val := if op =? TOK_CONDITIONAL then negb bad_second_val else bad_second_val in
              if bad_second_val then AErr e malformed
              else
                do e, lhs <- (if op =? TOK_ASSIGN then AOk e lhs else arith_lookup_val e names lhs);
                if (op =? TOK_CONDITIONAL_SEP) && bool_decide (rest = []) then AErr e malformed
                else
                  match arith_binop op (val lhs) (val top) (second_val top) with
                  | inl msg => AErr e msg
                  | inr rez =>
                      let lhs := if op =? TOK_CONDITIONAL_SEP then set_second lhs (val top) else lhs in
                      arith_store e op rez lhs rest
                  end
          end
      end
  end.

(** [while (stackptr != stack)]: apply pending operators; [true] is returned
    with the stacks when a right parenthesis met its left one. *)
Fixpoint apply_pending (e : E) (names : list cstr) (op prec : Z) (nums : list var_or_num_t)
    (ops : list Z) : ares E (list var_or_num_t * list Z * bool) :=
  match ops with
  | [] => if op =? TOK_RPAREN then AErr e syntax_error else AOk e (nums, [], false)
  | prev_op :: ops' =>
      let apply_and_go :=
        do e, nums <- arith_apply e names prev_op nums;
        apply_pending e names op prec nums ops' in
      if op =? TOK_RPAREN then
        if prev_op =? TOK_LPAREN then
          match nums with
          | [] => AErr e syntax_error
          | top :: rest =>
              match var top with
              | None => AOk e (nums, ops', true)
              | Some _ => do e, top <- arith_lookup_val e names top;
                          AOk e (clear_var top :: rest, ops', true)
              end
          end
        else apply_and_go
      else
        let prev_prec := fix_assignment_prec (PREC prev_op) in
        let prec := fix_assignment_prec prec in
        if (prev_prec <? prec) || ((prev_prec =? prec) && is_right_associative prec)
        then AOk e (nums, ops, false)
        else apply_and_go
  end.

(** The local variables of [evaluate_string]: the rest of the text, whether it
    is the appended ")", the two stacks (top first) and the last token. *)
Record mstate := mk_mstate {
  m_expr : cstr;
  m_appended : bool;
  m_nums : list var_or_num_t;
  m_ops : list Z;
  m_lasttok : Z;
}.

Inductive mnext :=
  | MGo (e : E) (st : mstate)
  | MEnd (r : ares E Z).

(** Pushing a number or a name (label [num]). *)
Definition push_num (st : mstate) (t : var_or_num_t) (expr : cstr) : mstate :=
  mk_mstate expr (m_appended st) (t :: m_nums st) (m_ops st) TOK_NUM.

(** The unary reading of an operator that does not follow a number. *)
Definition unary_form (op : Z) : Z :=
  if op =? TOK_ADD then TOK_UPLUS
  else if op =? TOK_SUB then TOK_UMINUS
  else if op =? TOK_POST_INC then TOK_PRE_INC
  else if op =? TOK_POST_DEC then TOK_PRE_DEC
  else op.

(** From label [tok_found1] to the end of the loop body; [expr] is the text
    after the operator. *)
Definition process_op (e : E) (names : list cstr) (st : mstate) (op : Z) (expr : cstr) : mnext :=
  let lasttok := if (m_lasttok st =? TOK_POST_INC) || (m_lasttok st =? TOK_POST_DEC)
                 then TOK_NUM else m_lasttok st in
  let op := if negb (lasttok =? TOK_NUM) then unary_form op else op in
  let prec := PREC op in
  if ((0 <? prec) && (prec <? UNARYPREC)) || (prec =? SPEC_PREC) then
    if negb (lasttok =? TOK_NUM) then MEnd (AErr e syntax_error)
    else
      match apply_pending e names op prec (m_nums st) (m_ops st) with
      | AOk e (nums, ops, true) => MGo e (mk_mstate expr (m_appended st) nums ops TOK_NUM)
      | AOk e (nums, ops, false) => MGo e (mk_mstate expr (m_appended st) nums (op :: ops) op)
      | AErr e m => MEnd (AErr e m)
      | ARaise e n => MEnd (ARaise e n)
      | AFuel => MEnd AFuel
      end
  else MGo e (mk_mstate expr (m_appended st) (m_nums st) (op :: m_ops st) op).

(** [++]/[--] that neither follows nor precedes a variable is two signs. *)
Definition two_signs (st : mstate) (expr : cstr) : bool :=
  ((at0 expr 0 ≟ "+"%char) || (at0 expr 0 ≟ "-"%char)) && (at0 expr 1 ≟ at0 expr 0) &&
  match m_nums st with
  | t :: _ => match var t with None => true | Some _ => false end
  | [] => true
  end &&
  (let next := hd0 (skip_whitespace (drop 2 expr)) in negb (isalpha next || (next ≟ "_"%char))).

(** One turn of the main loop; [null_expr] tells whether [start_expr] is empty. *)
Definition eval_step (e : E) (names : list cstr) (null_expr : bool) (st : mstate) : mnext :=
  let expr := skip_whitespace (m_expr st) in
  match expr with
  | [] =>
      if null_expr then MEnd (AOk e 0)
      else if negb (m_appended st)
      then MGo e (mk_mstate (lit ")") true (m_nums st) (m_ops st) (m_lasttok st))
      else match m_nums st with
           | [t] => MEnd (AOk e (val t))
           | _ => MEnd (AErr e syntax_error)
           end
  | _ =>
      let p := endofname expr in
      if negb (length p =? length expr)%nat then
        MGo e (push_num st (mk_von 0 0 false (Some (upto expr p))) p)
      else if isdigit (hd0 expr) then
        let r := strtoull 0 expr in
        let v := if bool_decide (st_err r = E_OK) then arith_wrap (st_val r) else 0 in
        MGo e (push_num st (mk_von v 0 false None) (st_end r))
      else if two_signs st expr then
        process_op e names st (if (at0 expr 0 ≟ "+"%char) then TOK_ADD else TOK_SUB) (tail expr)
      else match find_op op_tokens expr with
           | None => MEnd (AErr e syntax_error)
           | Some (op, expr) => process_op e names st op expr
           end
  end.

Fixpoint eval_loop (fuel : nat) (e : E) (names : list cstr) (null_expr : bool) (st : mstate) : ares E Z :=
  match fuel with
  | O => AFuel
  | S f => match eval_step e names null_expr st with
           | MGo e st => eval_loop f e names null_expr st
           | MEnd r => r
           end
  end.

Definition init_mstate (expr : cstr) : mstate := mk_mstate expr false [] [TOK_LPAREN] TOK_LPAREN.

(** The body of [evaluate_string].  Every turn consumes a character of the text,
    except the one that appends the ")"; then that one is consumed and the last
    turn ends the loop. *)
Definition evaluate_body (e : E) (names : list cstr) (expr : cstr) : ares E Z :=
  let start_expr := skip_whitespace expr in
  eval_loop (length start_expr + 3) e names (bool_decide (start_expr = [])) (init_mstate start_expr).

End Eval.

Fixpoint evaluate_string {E} `{VarStore E} (depth : nat) (e : E) (names : list cstr) (expr : cstr)
    : ares E Z :=
  match depth with
  | O => AFuel
  | S d => evaluate_body (evaluate_string d) e names expr
  end.

Definition arith {E} `{VarStore E} (depth : nat) (e : E) (expr : cstr) : ares E Z :=
  evaluate_string depth e [] expr.

(** ** A variable store, and the evaluator on it *)

#[export] Instance map_store : VarStore (gmap cstr cstr) := {|
  lookupvar := fun m n => m !! n;
  setvar := fun m n v => Some (<[n := v]> m);
|}.

Definition run (m : list (string * string)) (s : string) : ares (gmap cstr cstr) Z :=
  arith 8 (list_to_map (map (fun '(k, v) => (lit k, lit v)) m)) (lit s).
