(* ===== verification/ShMathSafe.v ===== *)
(** * shell/math.c: termination, stack bounds and value range

    The main loop of [evaluate_string] as a step relation, a measure that every
    step decreases (so the loop's fuel is always enough), a bound on the nesting
    of variable evaluations, and the two stack bounds the code relies on when it
    allocates its stacks with [alloca]. *)

From Stdlib Require Import Ascii String ZArith Lia.
From stdpp Require Import base gmap list strings.
From S2P Require Import Prelude Clib LibbbStr ShMath.

(** ** Scanning consumes text *)

Lemma digit_hd_scan s :
  isdigit (hd0 s) = true -> exists v, strto_scan 0 s = Some (false, v.1, v.2) /\
    within v.2 s /\ length v.2 < length s.
Proof.
  intros Hd. destruct s as [|c s]; [done|]. cbn [hd0] in Hd.
  rewrite isdigit_spec in Hd. unfold between in Hd. bool_prop.
  assert (is_digit_char c) as Hc by done.
  destruct (digit_char_facts c Hc) as (H1 & H2 & H3 & H4).
  destruct (scan_number 0 (c :: s)) as [[v e]|] eqn:E.
  - exists (v, e). pose proof (scan_number_spec 0 (c :: s) v e ltac:(lia) E) as [? ?].
    split; [|done]. unfold strto_scan. cbn [skip_space]. rewrite H1. cbn [hd0]. rewrite H2, H3.
    cbn [orb tail]. by rewrite E.
  - exfalso. revert E. unfold scan_number. cbn [Z.eqb orb andb]. case_goal; [done|].
    change (at0 (c :: s) 0) with c. cbn [hd0].
    destruct (Ascii.eqb_spec c "0") as [->|_]; [done|]. by rewrite H4.
Qed.

Lemma strtoull_digit s :
  isdigit (hd0 s) = true ->
  within (st_end (strtoull 0 s)) s /\ length (st_end (strtoull 0 s)) < length s.
Proof.
  intros Hd. destruct (digit_hd_scan s Hd) as ([v e] & Hs & Hw & Hl).
  unfold strtoull, strtoul_w. rewrite Hs. simpl in *. by case_match.
Qed.

Lemma is_prefixed_with_spec s key r : is_prefixed_with s key = Some r -> s = key ++ r.
Proof.
  revert key. induction s as [|c s IH]; intros [|k key] H; cbn [is_prefixed_with] in H; try done.
  1, 2: by injection H as <-.
  destruct (Ascii.eqb_spec k c) as [->|_]; [|done].
  cbn [app]. f_equal. by apply IH.
Qed.

Lemma find_op_within table expr op e :
  Forall (fun x => x.1 <> []) table -> find_op table expr = Some (op, e) ->
  within e expr /\ length e < length expr /\ op ∈ table.*2.
Proof.
  induction table as [|[text tok] table IH]; intros Ht H; [done|].
  apply Forall_cons in Ht as [Hne Ht]. simpl in *.
  destruct (is_prefixed_with expr text) as [r|] eqn:Ep.
  - simplify_eq. apply is_prefixed_with_spec in Ep as ->. rewrite length_app.
    split; [by exists text|]. split; [|left]. destruct text; simpl in *; [done|lia].
  - destruct (IH Ht H) as (? & ? & ?). split; [done|]. split; [done|]. by right.
Qed.

Lemma op_tokens_nonempty : Forall (fun x : cstr * Z => x.1 <> []) op_tokens.
Proof. repeat constructor; discriminate. Qed.

Section Steps.
Context {E : Type} `{VarStore E}.
Variable ev : E -> list cstr -> cstr -> ares E Z.
Variables (names : list cstr) (null_expr : bool).

(** ** One step of the loop, and the states it reaches *)

Inductive reachable (e0 : E) (st0 : mstate) : E -> mstate -> Prop :=
  | reach_refl : reachable e0 st0 e0 st0
  | reach_step e st e' st' :
      reachable e0 st0 e st -> eval_step ev e names null_expr st = MGo e' st' ->
      reachable e0 st0 e' st'.

Lemma process_op_go e st op expr e' st' :
  process_op ev e names st op expr = MGo e' st' ->
  m_expr st' = expr /\ m_appended st' = m_appended st.
Proof. unfold process_op. repeat case_match; intros; simplify_eq; done. Qed.

(** What a step does to the text. *)
Lemma eval_step_text e st e' st' :
  eval_step ev e names null_expr st = MGo e' st' ->
  (m_appended st' = m_appended st /\ within (m_expr st') (skip_whitespace (m_expr st)) /\
   length (m_expr st') < length (skip_whitespace (m_expr st))) \/
  (skip_whitespace (m_expr st) = [] /\ m_appended st = false /\ e' = e /\
   st' = mk_mstate (lit ")") true (m_nums st) (m_ops st) (m_lasttok st)).
Proof.
  unfold eval_step. destruct (skip_whitespace (m_expr st)) as [|c x] eqn:Ex.
  { intros Hs. right. repeat case_match; simplify_eq; [].
    by destruct (m_appended st). }
  rewrite <- Ex. set (expr := skip_whitespace (m_expr st)) in *. clearbody expr. intros Hs. left.
  pose proof (endofname_within expr) as Hw. pose proof (within_length _ _ Hw) as Hl.
  destruct (Nat.eqb_spec (length (endofname expr)) (length expr)) as [He|He]; cbn [negb] in Hs.
  2: { injection Hs as <- <-. simpl. split; [done|]. split; [done|lia]. }
  destruct (isdigit (hd0 expr)) eqn:Ed.
  { injection Hs as <- <-. simpl. destruct (strtoull_digit expr Ed). done. }
  destruct (two_signs st expr).
  { apply process_op_go in Hs as [-> ->]. split; [done|]. split; [apply within_tl|].
    rewrite Ex. simpl. lia. }
  destruct (find_op op_tokens expr) as [[op r]|] eqn:Ef; [|done].
  apply find_op_within in Ef as (? & ? & _); [|apply op_tokens_nonempty].
  apply process_op_go in Hs as [-> ->]. done.
Qed.

(** Every step decreases this measure. *)
Definition mmeasure (st : mstate) : nat :=
  length (m_expr st) + if m_appended st then 0 else 2.

Lemma eval_step_decreases e st e' st' :
  eval_step ev e names null_expr st = MGo e' st' -> mmeasure st' < mmeasure st.
Proof.
  intros Hs. unfold mmeasure. pose proof (within_length _ _ (skip_whitespace_within (m_expr st))).
  apply eval_step_text in Hs as [(-> & _ & Hl)|(_ & -> & _ & ->)]; simpl; lia.
Qed.

(** The result of the loop does not depend on the fuel once it exceeds the
    measure. *)
Lemma eval_loop_fuel f1 f2 e st :
  mmeasure st < f1 -> mmeasure st < f2 ->
  eval_loop ev f1 e names null_expr st = eval_loop ev f2 e names null_expr st.
Proof.
  revert f2 e st. induction f1 as [|f1 IH]; intros f2 e st H1 H2; [lia|].
  destruct f2 as [|f2]; [lia|]. cbn [eval_loop].
  destruct (eval_step ev e names null_expr st) as [e' st'|r] eqn:Es; [|done].
  apply eval_step_decreases in Es. apply IH; lia.
Qed.

(** The loop from a state, with enough fuel. *)
Definition eval_from (e : E) (st : mstate) : ares E Z :=
  eval_loop ev (S (mmeasure st)) e names null_expr st.

Lemma eval_from_step e st e' st' :
  eval_step ev e names null_expr st = MGo e' st' -> eval_from e st = eval_from e' st'.
Proof.
  intros Hs. unfold eval_from at 1. cbn [eval_loop]. rewrite Hs.
  apply eval_step_decreases in Hs. apply eval_loop_fuel; lia.
Qed.

Lemma eval_from_end e st r :
  eval_step ev e names null_expr st = MEnd r -> eval_from e st = r.
Proof. intros Hs. unfold eval_from. cbn [eval_loop]. by rewrite Hs. Qed.

Lemma eval_from_reachable e0 st0 e st :
  reachable e0 st0 e st -> eval_from e0 st0 = eval_from e st.
Proof.
  induction 1 as [|e st e' st' _ IH Hs]; [done|]. rewrite IH. by apply eval_from_step.
Qed.

End Steps.

Lemma evaluate_body_from {E} `{VarStore E} ev (e : E) names expr :
  evaluate_body ev e names expr =
  eval_from ev names (bool_decide (skip_whitespace expr = [])) e (init_mstate (skip_whitespace expr)).
Proof.
  unfold evaluate_body, eval_from. apply eval_loop_fuel; unfold mmeasure; simpl; lia.
Qed.

(** ** Values stay 64-bit

    Every operator maps 64-bit values to a 64-bit value; the one quotient that
    would not fit ([MIN / -1]) is caught by the code's [rez << 1 == 0] test. *)

Local Open Scope Z_scope.

Abbreviation i64 := (is_s 64).

Lemma i64_bounds z : i64 z <-> - 2 ^ 63 <= z < 2 ^ 63.
Proof. done. Qed.

Lemma i64_wrap z : i64 (arith_wrap z).
Proof. by apply wrapS_range. Qed.

Lemma i64_b2z b : i64 (b2z b).
Proof. apply i64_bounds. destruct b; simpl; lia. Qed.

(** A value fits in [w+1] bits iff all its bits from [w] on equal its sign. *)
Lemma is_s_bits w z : 0 <= w ->
  (is_s (w + 1) z <-> forall i, w <= i -> Z.testbit z i = Z.testbit z w).
Proof.
  intros Hw. unfold is_s. replace (w + 1 - 1) with w by lia.
  assert (forall i, w <= i -> Z.testbit z i = Z.testbit (Z.shiftr z w) (i - w)) as Hs.
  { intros i Hi. rewrite Z.shiftr_spec by lia. f_equal. lia. }
  assert (0 < 2 ^ w) by (apply Z.pow_pos_nonneg; lia).
  split.
  - intros Hz i Hi. rewrite !Hs by lia.
    assert (Z.shiftr z w = 0 \/ Z.shiftr z w = -1) as [->| ->]; [|by rewrite !Z.testbit_0_l|].
    + rewrite Z.shiftr_div_pow2 by lia. destruct (Z_lt_le_dec z 0).
      * right. symmetry. apply (Z.div_unique _ _ _ (z + 2 ^ w)); lia.
      * left. apply Z.div_small. lia.
    + by rewrite !Z.bits_m1 by lia.
  - intros Hb.
    assert (Z.shiftr z w = 0 \/ Z.shiftr z w = -1) as Hq.
    { destruct (Z.testbit z w) eqn:E; [right|left]; apply Z.bits_inj'; intros n Hn;
        rewrite Z.shiftr_spec, Hb by lia.
      - by rewrite Z.bits_m1 by lia.
      - by rewrite Z.testbit_0_l. }
    rewrite Z.shiftr_div_pow2 in Hq by lia.
    pose proof (Z.div_mod z (2 ^ w) ltac:(lia)). pose proof (Z.mod_pos_bound z (2 ^ w) ltac:(lia)).
    destruct Hq as [Hq|Hq]; rewrite Hq in *; lia.
Qed.

Lemma i64_bits z : i64 z <-> forall i, 63 <= i -> Z.testbit z i = Z.testbit z 63.
Proof. by apply (is_s_bits 63). Qed.

Lemma i64_lor a b : i64 a -> i64 b -> i64 (Z.lor a b).
Proof. rewrite !i64_bits. intros Ha Hb i Hi. by rewrite !Z.lor_spec, Ha, Hb. Qed.

Lemma i64_land a b : i64 a -> i64 b -> i64 (Z.land a b).
Proof. rewrite !i64_bits. intros Ha Hb i Hi. by rewrite !Z.land_spec, Ha, Hb. Qed.

Lemma i64_lxor a b : i64 a -> i64 b -> i64 (Z.lxor a b).
Proof. rewrite !i64_bits. intros Ha Hb i Hi. by rewrite !Z.lxor_spec, Ha, Hb. Qed.

Lemma i64_lnot a : i64 a -> i64 (Z.lnot a).
Proof. rewrite !i64_bounds. unfold Z.lnot. lia. Qed.

Lemma i64_shiftr a n : 0 <= n -> i64 a -> i64 (Z.shiftr a n).
Proof.
  rewrite !i64_bits. intros Hn Ha i Hi.
  rewrite !Z.shiftr_spec, (Ha (i + n)), (Ha (63 + n)) by lia. done.
Qed.

Lemma i64_quot a b : i64 a -> b <> 0 -> ~ (b = -1 /\ a = - 2 ^ 63) -> i64 (Z.quot a b).
Proof.
  rewrite !i64_bounds. intros Ha Hb Hn.
  assert (Z.abs (Z.quot a b) = Z.abs a / Z.abs b) as Hq.
  { rewrite <- Z.quot_abs by done. by rewrite Z.quot_div_nonneg by lia. }
  destruct (Z.eq_dec (Z.abs b) 1) as [E|E].
  - assert (b = 1 \/ b = -1) as [-> | ->] by lia.
    + rewrite Z.quot_1_r. done.
    + change (-1) with (- (1)). rewrite Z.quot_opp_r, Z.quot_1_r by lia. lia.
  - assert (Z.abs a / Z.abs b <= Z.abs a / 2) by (apply Z.div_le_compat_l; lia).
    assert (Z.abs a / 2 <= 2 ^ 63 / 2) by (apply Z.div_le_mono; lia).
    change (2 ^ 63 / 2) with (2 ^ 62) in *. lia.
Qed.

Lemma i64_rem a b : i64 a -> b <> 0 -> i64 (Z.rem a b).
Proof.
  rewrite !i64_bounds. intros Ha Hb.
  destruct (Z_le_gt_dec 0 a).
  - pose proof (Z.rem_bound_pos a (Z.abs b) ltac:(lia) ltac:(lia)) as Hr.
    rewrite Z.rem_abs_r in Hr by done. pose proof (Z.rem_le a (Z.abs b) ltac:(lia) ltac:(lia)) as Hl.
    rewrite Z.rem_abs_r in Hl by done. lia.
  - pose proof (Z.rem_bound_pos (- a) (Z.abs b) ltac:(lia) ltac:(lia)) as Hr.
    pose proof (Z.rem_le (- a) (Z.abs b) ltac:(lia) ltac:(lia)) as Hl.
    rewrite Z.rem_abs_r, Z.rem_opp_l in Hr, Hl by done. lia.
Qed.

Lemma exp_loop_i64 n c rez : i64 c -> i64 (exp_loop n c rez).
Proof. revert c. induction n as [|n IH]; intros c Hc; [done|]. apply IH, i64_wrap. Qed.

Create HintDb i64 discriminated.
#[export] Hint Resolve i64_wrap i64_b2z i64_lor i64_land i64_lxor i64_lnot i64_rem exp_loop_i64 : i64.

(** The [-1] test of the division: only [MIN] and [0] shift to zero. *)
Lemma shl1_zero a : i64 a -> a = - 2 ^ 63 -> arith_wrap (Z.shiftl a 1) = 0.
Proof. by intros _ ->. Qed.

Lemma i64_div a b :
  i64 a -> i64 b -> b <> 0 ->
  let b' := if (b =? -1) && (arith_wrap (Z.shiftl a 1) =? 0) then 1 else b in
  i64 (Z.quot a b') /\ i64 (Z.rem a b').
Proof.
  intros Ha Hb Hz b'.
  assert (b' <> 0 /\ ~ (b' = -1 /\ a = - 2 ^ 63)) as [? ?]; [|by auto using i64_quot, i64_rem].
  subst b'. case_goal; [lia|]. split; [done|]. intros [-> Hm].
  rewrite (shl1_zero a Ha Hm) in *. done.
Qed.

Lemma arith_binop_i64 op a b s z :
  i64 a -> i64 b -> i64 s -> arith_binop op a b s = inr z -> i64 z.
Proof.
  intros Ha Hb Hs. unfold arith_binop.
  assert (0 <= b mod 64) as Hm by (apply Z.mod_pos_bound; lia).
  assert (i64 (Z.shiftr a (b mod 64))) as Hr by (by apply i64_shiftr).
  assert (i64 1) as H1 by done.
  do 20 (case_goal; [try case_goal; intros [= <-]; auto with i64|]).
  case_goal; [done|]. bool_prop. destruct (i64_div a b) as [Hq Hrem]; [done..|].
  set (b' := if _ && (_ =? 0) then 1 else b) in *. clearbody b'.
  repeat case_goal; intros [= <-]; done.
Qed.

Lemma arith_unop_i64 op a z : i64 a -> arith_unop op a = Some z -> i64 z.
Proof.
  intros Ha. unfold arith_unop. repeat (case_goal; [intros [= <-]; auto with i64|]). done.
Qed.

(** ** The invariant of an evaluation

    [Q] is what is known of the variables; a result keeps it, whether it is a
    value or an error, and is never "no fuel". *)

Definition good {E A} (Q : E -> Prop) (P : A -> Prop) (r : ares E A) : Prop :=
  match r with
  | AOk e a => Q e /\ P a
  | AErr e _ => Q e
  | ARaise e _ => Q e
  | AFuel => False
  end.

Definition von_ok (t : var_or_num_t) : Prop := i64 (val t) /\ i64 (second_val t).

Section Good.
Context {E : Type} `{VarStore E}.
Variable Q : E -> Prop.
Variable ev : E -> list cstr -> cstr -> ares E Z.
Variable names : list cstr.

Hypothesis set_good : forall e n z e', Q e -> i64 z -> setvar e n (fmt_d z) = Some e' -> Q e'.
Hypothesis ev_good : forall e v p,
  Q e -> lookupvar e v = Some p -> v ∉ names -> good Q i64 (ev e (v :: names) p).

Lemma bind_good {A B} (P : A -> Prop) (R : B -> Prop) (r : ares E A) (k : E -> A -> ares E B) :
  good Q P r -> (forall e a, Q e -> P a -> good Q R (k e a)) ->
  good Q R (do e, a <- r; k e a).
Proof. intros Hr Hk. destruct r; simpl in *; [|done..]. destruct Hr. by apply Hk. Qed.

Lemma lookup_val_good e t :
  Q e -> von_ok t -> good Q von_ok (arith_lookup_val ev e names t).
Proof.
  intros Hq [Hv Hs]. unfold arith_lookup_val. destruct (var t) as [v|]; [|done].
  destruct (lookupvar e v) as [p|] eqn:El; [|done].
  case_bool_decide; [done|].
  apply bind_good with i64; [by apply ev_good|]. done.
Qed.

Lemma store_good e op rez top rest :
  Q e -> i64 rez -> von_ok top -> Forall von_ok rest ->
  good Q (Forall von_ok) (arith_store e op rez top rest).
Proof.
  intros Hq Hr [Hv Hs] Hf. unfold arith_store. case_goal.
  - destruct (var top) as [v|]; [|done]. destruct (setvar e v (fmt_d rez)) as [e'|] eqn:Es; [|done].
    split; [by apply (set_good e v rez e')|]. constructor; [|done]. split; [|done]. simpl.
    repeat case_goal; auto with i64.
  - split; [done|]. by constructor.
Qed.

Lemma apply_good e op nums :
  Q e -> Forall von_ok nums -> good Q (Forall von_ok) (arith_apply ev e names op nums).
Proof.
  intros Hq Hf. unfold arith_apply. destruct nums as [|top rest]; [done|].
  apply Forall_cons in Hf as [Ht Hf].
  eapply bind_good; [by apply lookup_val_good|]. intros e1 t1 Hq1 [Ht1 Ht2].
  destruct (arith_unop op (val t1)) as [rez|] eqn:Eu.
  { apply store_good; [done|exact (arith_unop_i64 _ _ _ Ht1 Eu)|done|done]. }
  destruct rest as [|lhs rest]; [done|]. apply Forall_cons in Hf as [Hl Hf]. cbv zeta.
  case_goal; [done|].
  apply bind_good with von_ok.
  { case_goal; [done|]. by apply lookup_val_good. }
  intros e2 l2 Hq2 [Hl1 Hl2]. case_goal; [done|].
  destruct (arith_binop _ _ _ _) as [m|rez] eqn:Eb; [done|].
  apply store_good; [done|exact (arith_binop_i64 _ _ _ _ _ Hl1 Ht1 Ht2 Eb)| |done].
  by case_goal.
Qed.

Lemma pending_good e op prec nums ops :
  Q e -> Forall von_ok nums ->
  good Q (fun r => Forall von_ok r.1.1) (apply_pending ev e names op prec nums ops).
Proof.
  revert e nums. induction ops as [|o ops IH]; intros e nums Hq Hf; cbn [apply_pending].
  { by case_goal. }
  assert (good Q (fun r => Forall von_ok r.1.1)
    (do e, nums <- arith_apply ev e names o nums; apply_pending ev e names op prec nums ops)) as Hgo.
  { eapply bind_good; [by apply apply_good|]. auto. }
  cbv zeta. case_goal; [|by case_goal]. case_goal; [|done].
  destruct nums as [|top rest]; [done|]. destruct (var top); [|done].
  apply Forall_cons in Hf as [Ht Hr]. eapply bind_good; [by apply lookup_val_good|].
    intros e1 t1 Hq1 [? ?]. split; [done|]. by constructor.
Qed.

Definition next_good (n : mnext) : Prop :=
  match n with
  | MGo e st => Q e /\ Forall von_ok (m_nums st)
  | MEnd r => good Q i64 r
  end.

Lemma process_op_good e st op expr :
  Q e -> Forall von_ok (m_nums st) ->
  next_good (process_op ev e names st op expr).
Proof.
  intros Hq Hf. unfold process_op. cbv zeta. case_goal; [|done]. case_goal; [done|].
  pose proof (pending_good e op (PREC op) _ (m_ops st) Hq Hf) as Hp.
  destruct (apply_pending _ _ _ _ _ _ _) as [e' [[nums ops] []]| | |]; done.
Qed.

Lemma step_good e null_expr st :
  Q e -> Forall von_ok (m_nums st) ->
  next_good (eval_step ev e names null_expr st).
Proof.
  intros Hq Hf. assert (i64 0) as H0 by done. unfold eval_step.
  destruct (skip_whitespace (m_expr st)) as [|c x].
  { repeat (case_goal; try done). rewrite Forall_singleton in Hf. by destruct Hf. }
  cbv zeta. case_goal; [split; [done|]; by constructor|].
  case_goal. { split; [done|]. constructor; [|done]. split; [|done]. simpl. case_goal; auto with i64. }
  case_goal; [by apply process_op_good|].
  destruct (find_op op_tokens (c :: x)) as [[op r]|]; [|done]. by apply process_op_good.
Qed.

Lemma eval_loop_good fuel e null_expr st :
  (mmeasure st < fuel)%nat -> Q e -> Forall von_ok (m_nums st) ->
  good Q i64 (eval_loop ev fuel e names null_expr st).
Proof.
  revert e st. induction fuel as [|f IH]; intros e st Hm Hq Hf; [lia|]. cbn [eval_loop].
  pose proof (step_good e null_expr st Hq Hf) as Hs.
  destruct (eval_step _ _ _ _ _) as [e' st'|r] eqn:Es; [|done].
  apply eval_step_decreases in Es. destruct Hs. apply IH; [lia|done..].
Qed.

Lemma evaluate_body_good e expr : Q e -> good Q i64 (evaluate_body ev e names expr).
Proof.
  intros Hq. apply eval_loop_good; [|done|by constructor]. unfold mmeasure. simpl. lia.
Qed.

End Good.

(** ** Reading tokens *)

Definition num (v : Z) : var_or_num_t := mk_von v 0 false None.

(** The character after a printed number that does not continue it. *)
Definition ends_number (rest : cstr) : Prop := 36 <= digit_val (hd0 rest).

Lemma digit_not_name c s : is_digit_char c ->
  skip_whitespace (c :: s) = c :: s /\ isdigit c = true /\ endofname (c :: s) = c :: s.
Proof.
  intros Hc.
  assert ((c ≟ SP) || (to_uchar (uc c - 9) <=? 13 - 9) = false /\ isdigit c = true /\ is_name c = false)
    as (H1 & H2 & H3).
  { revert Hc. unfold is_digit_char. destruct c as [[] [] [] [] [] [] [] []]; vm_compute; intuition congruence. }
  split; [|split; [done|]].
  - cbn [skip_whitespace]. by rewrite H1.
  - unfold endofname. by rewrite H3.
Qed.

Lemma digit_cases c : is_digit_char c -> c ∈ lit "0123456789".
Proof.
  unfold is_digit_char. intros Hc.
  apply (bool_decide_unpack _), Is_true_true. revert Hc.
  destruct c as [[] [] [] [] [] [] [] []]; vm_compute; intuition congruence.
Qed.

Section Tokens.
Context {E : Type} `{VarStore E}.
Variable ev : E -> list cstr -> cstr -> ares E Z.
Variables (names : list cstr) (e : E) (null_expr : bool).

Lemma step_num st z rest :
  0 <= z < 2 ^ 64 -> ends_number rest -> m_expr st = fmt_u z ++ rest ->
  eval_step ev e names null_expr st = MGo e (push_num st (num (arith_wrap z)) rest).
Proof.
  intros Hz Hr Hx. unfold eval_step. rewrite Hx.
  pose proof (strto_scan0_fmt_u z rest ltac:(lia) Hr) as Hs.
  destruct (fmt_u_cons z ltac:(lia)) as (c & s & Ec & Hc). rewrite Ec in *. cbn [app] in *.
  destruct (digit_not_name c (s ++ rest) Hc) as (H1 & H2 & H3).
  rewrite H1, H3, Nat.eqb_refl. cbn [negb hd0]. rewrite H2.
  unfold strtoull, strtoul_w. rewrite Hs. rewrite (proj2 (Z.leb_gt _ _)) by lia. cbn.
  by rewrite wrapU_id.
Qed.

(** An operator: the text starts with neither a blank, a name nor a digit. *)
Lemma step_op st x op r :
  m_expr st = x -> skip_whitespace x = x -> endofname x = x -> isdigit (hd0 x) = false ->
  (at0 x 1 ≟ at0 x 0) && ((at0 x 0 ≟ "+"%char) || (at0 x 0 ≟ "-"%char)) = false ->
  find_op op_tokens x = Some (op, r) ->
  eval_step ev e names null_expr st = process_op ev e names st op r.
Proof.
  intros Hx Hw Hn Hd Ht Hf. unfold eval_step. rewrite Hx, Hw. cbv zeta.
  destruct x as [|c x]; [done|]. rewrite Hn, Nat.eqb_refl, Hd, Hf. cbn [negb].
  replace (two_signs st (c :: x)) with false; [done|].
  unfold two_signs. rewrite andb_comm in Ht. by rewrite Ht.
Qed.

(** A right parenthesis always meets its left one, or the evaluation fails. *)
Lemma pending_rparen prec nums ops e0 e' n o b :
  apply_pending ev e0 names TOK_RPAREN prec nums ops = AOk e' (n, o, b) -> b = true.
Proof.
  revert e0 nums. induction ops as [|p ops IH]; intros e0 nums; cbn [apply_pending]; [done|].
  change (TOK_RPAREN =? TOK_RPAREN) with true. cbv iota.
  repeat (case_goal; try done); intros; simplify_eq; try done. by eapply IH.
Qed.

Lemma step_appended nums ops :
  eval_step ev e names false (mk_mstate (lit ")") true nums ops TOK_NUM) =
  match apply_pending ev e names TOK_RPAREN (PREC TOK_RPAREN) nums ops with
  | AOk e' (n, o, true) => MGo e' (mk_mstate [] true n o TOK_NUM)
  | AOk e' (n, o, false) => MGo e' (mk_mstate [] true n (TOK_RPAREN :: o) TOK_RPAREN)
  | AErr e' m => MEnd (AErr e' m)
  | ARaise e' m => MEnd (ARaise e' m)
  | AFuel => MEnd AFuel
  end.
Proof. reflexivity. Qed.

(** The end of the text: the appended ")" is processed, then one number must
    be left. *)
Lemma eval_end expr nums ops :
  skip_whitespace expr = [] ->
  eval_from ev names false e (mk_mstate expr false nums ops TOK_NUM) =
  (do e', r <- apply_pending ev e names TOK_RPAREN (PREC TOK_RPAREN) nums ops;
   match r.1.1 with [t] => AOk e' (val t) | _ => AErr e' syntax_error end).
Proof.
  intros Hx. erewrite eval_from_step.
  2: { unfold eval_step. cbn [m_expr]. rewrite Hx. reflexivity. }
  cbn [m_nums m_ops m_lasttok].
  destruct (apply_pending ev e names TOK_RPAREN (PREC TOK_RPAREN) nums ops)
    as [e' [[n o] b]|e' m| |] eqn:Ep.
  2-4: apply eval_from_end; by rewrite step_appended, Ep.
  rewrite (pending_rparen _ _ _ _ _ _ _ _ Ep) in Ep.
  erewrite eval_from_step.
  2: { rewrite step_appended, Ep. reflexivity. }
  apply eval_from_end. unfold eval_step. cbn. by repeat case_match.
Qed.

Lemma step_neg st c s :
  is_digit_char c -> m_expr st = "-"%char :: c :: s -> m_lasttok st = TOK_LPAREN ->
  eval_step ev e names null_expr st =
  MGo e (mk_mstate (c :: s) (m_appended st) (m_nums st) (TOK_UMINUS :: m_ops st) TOK_UMINUS).
Proof.
  intros Hc Hx Hl. rewrite (step_op st _ TOK_SUB (c :: s) Hx); [|try reflexivity..].
  { unfold process_op. by rewrite Hl. }
  all: apply digit_cases in Hc; cbn in Hc; set_unfold in Hc; destruct_or! Hc; subst c; reflexivity.
Qed.

End Tokens.

(** Evaluating the decimal text of a value gives the value: what an assignment
    stores is read back unchanged. *)
Lemma evaluate_fmt_d {E} `{VarStore E} ev (e : E) names z :
  i64 z -> evaluate_body ev e names (fmt_d z) = AOk e z.
Proof.
  rewrite i64_bounds. intros Hz. rewrite evaluate_body_from. unfold fmt_d.
  destruct (Z.ltb_spec z 0).
  - change (skip_whitespace ("-"%char :: fmt_u (- z))) with ("-"%char :: fmt_u (- z)).
    rewrite bool_decide_eq_false_2 by done.
    destruct (fmt_u_cons (- z) ltac:(lia)) as (c & s & Ec & Hc).
    erewrite eval_from_step by (apply (step_neg ev names e false _ c s); [done|by rewrite Ec|done]).
    rewrite <- Ec. erewrite eval_from_step.
    2: { apply (step_num ev names e false _ (- z) []); [lia|done|]. cbn. by rewrite app_nil_r. }
    unfold push_num. cbn [m_appended m_nums m_ops].
    rewrite eval_end by done. cbn. f_equal. unfold arith_wrap.
    transitivity (wrapS 64 z); [|by apply wrapS_id].
    apply wrapS_cong; [lia|]. rewrite <- (Z.sub_0_l (wrapS 64 (- z))).
    rewrite Zminus_mod, wrapS_mod, <- Zminus_mod by lia. f_equal. lia.
  - destruct (fmt_u_cons z ltac:(lia)) as (c & s & Ec & Hc).
    destruct (digit_not_name c s Hc) as (H1 & _). rewrite Ec, H1, <- Ec.
    rewrite bool_decide_eq_false_2 by (by rewrite Ec).
    erewrite eval_from_step.
    2: { apply (step_num ev names e false _ z []); [lia|done|]. cbn. by rewrite app_nil_r. }
    unfold push_num. cbn [m_appended m_nums m_ops init_mstate].
    rewrite eval_end by done. cbn. f_equal. by apply wrapS_id.
Qed.

(** ** Termination

    What the evaluator relies on of the shell's variables: a successful [setvar]
    changes one variable. *)
Class LawfulStore (E : Type) `{VarStore E} :=
  lookup_setvar : forall e n v e' m,
    setvar e n v = Some e' -> lookupvar e' m = if bool_decide (m = n) then Some v else lookupvar e m.

#[export] Instance map_store_lawful : LawfulStore (gmap cstr cstr).
Proof.
  intros e n v e' m [= <-]. cbn. case_bool_decide; subst; [apply lookup_insert_eq|by apply lookup_insert_ne].
Qed.

Section Termination.
Context {E : Type} `{LawfulStore E}.

(** Every set variable is one of [N], or holds the decimal text of a value. *)
Definition covered (N : gset cstr) (e : E) : Prop :=
  forall v p, lookupvar e v = Some p -> v ∈ N \/ exists z, i64 z /\ p = fmt_d z.

Lemma covered_set N e n z e' :
  covered N e -> i64 z -> setvar e n (fmt_d z) = Some e' -> covered N e'.
Proof.
  intros Hc Hz Hs v p Hl. rewrite (lookup_setvar _ _ _ _ v Hs) in Hl.
  case_bool_decide; [|by apply Hc]. right. exists z. split; [done|congruence].
Qed.

Lemma evaluate_good N depth e names expr :
  covered N e -> (size (N ∖ list_to_set names) + 2 <= depth)%nat ->
  good (covered N) i64 (evaluate_string depth e names expr).
Proof.
  revert e names expr. induction depth as [|d IH]; intros e names expr Hc Hd; [lia|].
  cbn [evaluate_string].
  apply evaluate_body_good; [apply covered_set| |done].
  intros e1 v p Hc1 Hl Hn. destruct (decide (v ∈ N)) as [Hv|Hv].
  - apply IH; [done|]. enough (size (N ∖ list_to_set (v :: names)) < size (N ∖ list_to_set names))%nat by lia.
    apply subset_size. set_solver.
  - destruct (Hc1 v p Hl) as [?|(z & Hz & ->)]; [done|].
    destruct d as [|d]; [lia|]. cbn [evaluate_string]. by rewrite evaluate_fmt_d.
Qed.

(** C2. Every arithmetic evaluation ends, with a 64-bit result or an error
    message.  If the set variables are among [N] (self-referential and mutually
    recursive values included), nesting [|N| + 2] evaluations is enough: the
    recursion guard of [arith_lookup_val] bounds the depth of the recursion
    (each level adds a new name) and the main loop consumes its text.  Afterwards
    every variable is one of [N] or holds a decimal number. *)
Theorem arith_terminates (N : gset cstr) (e : E) (depth : nat) (expr : cstr) :
  (forall v, is_Some (lookupvar e v) -> v ∈ N) -> (size N + 2 <= depth)%nat ->
  good (covered N) i64 (arith depth e expr).
Proof.
  intros HN Hd. apply evaluate_good.
  - intros v p Hl. left. apply HN. by rewrite Hl.
  - assert (size (N ∖ list_to_set (@nil cstr)) <= size N)%nat; [|lia].
    apply subseteq_size. set_solver.
Qed.

End Termination.

Definition rec_env : gmap cstr cstr := {[ lit "a" := lit "b+1"; lit "b" := lit "a" ]}.

Lemma arith_terminates_witness :
  arith 4 rec_env (lit "c=2,a") = AErr (<[lit "c" := lit "2"]> rec_env) recursion_loop /\
  good (covered (dom rec_env)) i64 (arith 4 rec_env (lit "c=2,a")).
Proof.
  split; [vm_compute; reflexivity|].
  apply (arith_terminates (dom rec_env) rec_env 4 (lit "c=2,a")).
  - intros v Hv. by apply elem_of_dom.
  - vm_compute. lia.
Defined.

(** ** The two stacks

    [evaluate_string] allocates [strlen + 2] operators and [(strlen + 2) / 2]
    numbers.  [sep_reachable] are the states reached without pushing an operand
    right after another one. *)

Section Stacks.
Context {E : Type} `{VarStore E}.
Variable ev : E -> list cstr -> cstr -> ares E Z.
Variables (names : list cstr) (null_expr : bool).
Local Open Scope nat_scope.

Lemma store_length e op rez top rest e' nums :
  arith_store e op rez top rest = AOk e' nums -> length nums = S (length rest).
Proof. unfold arith_store. repeat (case_goal; try done); intros; by simplify_eq. Qed.

Lemma apply_length e op nums e' nums' :
  arith_apply ev e names op nums = AOk e' nums' -> length nums' <= length nums.
Proof.
  unfold arith_apply. destruct nums as [|top rest]; [done|].
  destruct (arith_lookup_val ev e names top) as [e1 t1| | |]; try done.
  destruct (arith_unop op (val t1)); [intros ->%store_length; simpl; lia|].
  destruct rest as [|lhs rest]; [done|]. cbv zeta. case_goal; [done|].
  case_goal; [|done..]. case_goal; [done|]. case_goal; [done|].
  intros ->%store_length. simpl. lia.
Qed.

Lemma pending_length e op prec nums ops e' nums' ops' b :
  apply_pending ev e names op prec nums ops = AOk e' (nums', ops', b) ->
  length nums' <= length nums /\ length ops' <= length ops.
Proof.
  revert e nums. induction ops as [|o ops IH]; intros e nums; cbn [apply_pending].
  { case_goal; [done|]. intros [= <- <- <- <-]. simpl. lia. }
  assert ((do e, nums <- arith_apply ev e names o nums; apply_pending ev e names op prec nums ops)
    = AOk e' (nums', ops', b) -> length nums' <= length nums /\ length ops' <= S (length ops)) as Hgo.
  { destruct (arith_apply ev e names o nums) as [e1 n1| | |] eqn:Ea; try done.
    intros [? ?]%IH. apply apply_length in Ea. lia. }
  cbv zeta. case_goal.
  - case_goal; [|done]. destruct nums as [|top rest]; [done|].
    destruct (var top); [case_goal; try done|]; intros [= <- <- <- <-]; simpl; lia.
  - case_goal; [|done]. intros [= <- <- <- <-]. simpl. lia.
Qed.

(** An operator step pushes at most one operator and no number. *)
Lemma process_op_stacks e st op expr e' st' :
  process_op ev e names st op expr = MGo e' st' ->
  length (m_nums st') <= length (m_nums st) /\ length (m_ops st') <= S (length (m_ops st)) /\
  (op = TOK_RPAREN -> length (m_ops st') <= length (m_ops st)).
Proof.
  unfold process_op. cbv zeta.
  set (lt := if (m_lasttok st =? TOK_POST_INC)%Z || (m_lasttok st =? TOK_POST_DEC)%Z then _ else _).
  destruct (negb (lt =? TOK_NUM)%Z).
  - case_goal; [done|]. intros [= <- <-]. simpl. split; [done|]. split; [done|]. by intros ->.
  - case_goal.
    2: { intros [= <- <-]. simpl. split; [done|]. split; [done|]. by intros ->. }
    destruct (apply_pending _ _ _ _ _ _ _) as [e1 [[n o] b]| | |] eqn:Ea; [|done..].
    pose proof (pending_length _ _ _ _ _ _ _ _ _ Ea) as [? ?].
    destruct b; intros [= <- <-]; simpl; (split; [done|]; split; [lia|]); intros ->; [lia|].
    by apply pending_rparen in Ea.
Qed.

(** What a step does to the stacks: an operand, an operator, or the end of the
    text. *)
Inductive stack_move (st st' : mstate) : Prop :=
  | move_operand :
      m_appended st' = m_appended st -> length (m_expr st') < length (m_expr st) ->
      length (m_nums st') = S (length (m_nums st)) -> m_ops st' = m_ops st -> m_lasttok st' = TOK_NUM ->
      m_expr st <> lit ")" -> stack_move st st'
  | move_operator :
      m_appended st' = m_appended st -> length (m_expr st') < length (m_expr st) ->
      length (m_nums st') <= length (m_nums st) -> length (m_ops st') <= S (length (m_ops st)) ->
      (m_expr st = lit ")" -> length (m_ops st') <= length (m_ops st)) ->
      stack_move st st'
  | move_end :
      m_appended st = false -> m_appended st' = true -> m_expr st' = lit ")" ->
      m_nums st' = m_nums st -> m_ops st' = m_ops st -> stack_move st st'.

Lemma step_stacks e st e' st' :
  eval_step ev e names null_expr st = MGo e' st' -> stack_move st st'.
Proof.
  intros Hs. pose proof (within_length _ _ (skip_whitespace_within (m_expr st))) as Hw.
  pose proof (eval_step_text _ _ _ _ _ _ _ Hs) as [(Ha & _ & Hl)|(_ & Ha & _ & ->)];
    [|by apply move_end].
  unfold eval_step in Hs. destruct (skip_whitespace (m_expr st)) as [|c x] eqn:Ex; [simpl in Hl; lia|].
  assert (m_expr st = lit ")" -> c = ")"%char /\ x = []) as Hc.
  { intros E0. rewrite E0 in Ex. vm_compute in Ex. by injection Ex as <- <-. }
  cbv zeta in Hs. destruct (negb _) eqn:En in Hs.
  { injection Hs as <- <-. apply move_operand; simpl in *; try done; [lia|].
    intros [-> ->]%Hc. done. }
  destruct (isdigit _) eqn:Ed in Hs.
  { injection Hs as <- <-. apply move_operand; simpl in *; try done; [lia|].
    intros [-> ->]%Hc. done. }
  destruct (two_signs st (c :: x)) eqn:Et.
  - apply process_op_stacks in Hs as (? & ? & _). apply move_operator; try done; [simpl in *; lia|].
    intros [-> ->]%Hc. done.
  - destruct (find_op op_tokens (c :: x)) as [[op r]|] eqn:Ef; [|done].
    apply process_op_stacks in Hs as (? & ? & Hr). apply move_operator; try done; [simpl in *; lia|].
    intros E0. apply Hr. apply Hc in E0 as [-> ->]. vm_compute in Ef. by injection Ef as <- <-.
Qed.

(** States reached without pushing an operand right after another one. *)
Inductive sep_reachable (e0 : E) (st0 : mstate) : E -> mstate -> Prop :=
  | sep_refl : sep_reachable e0 st0 e0 st0
  | sep_step e st e' st' :
      sep_reachable e0 st0 e st -> eval_step ev e names null_expr st = MGo e' st' ->
      ~ (m_lasttok st = TOK_NUM /\ length (m_nums st) < length (m_nums st')) ->
      sep_reachable e0 st0 e' st'.

(** The bounds, for a text of length [n]; once the ")" is appended nothing more
    is pushed. *)
Record stacks_ok (n : nat) (st : mstate) : Prop := mk_stacks_ok {
  so_appended : m_appended st = true -> m_expr st = lit ")" \/ m_expr st = [];
  so_ops : length (m_ops st) + (if m_appended st then 0 else length (m_expr st)) <= n + 1;
  so_nums : length (m_nums st) + (if m_appended st then 0 else length (m_expr st)) <= n;
}.

Lemma nil_of_lt (a b : cstr) : length a < length b -> b = lit ")" \/ b = [] -> a = [] /\ b = lit ")".
Proof. intros Hl [-> | ->]; simpl in Hl; [|lia]. destruct a; [done|simpl in Hl; lia]. Qed.

Lemma stacks_ok_step n e st e' st' :
  stacks_ok n st -> eval_step ev e names null_expr st = MGo e' st' -> stacks_ok n st'.
Proof.
  intros [Ha Ho Hn] Hs%step_stacks. destruct Hs as [Ea El En Eo _ Ec|Ea El En Eo Ec|E1 E2 E3 E4 E5].
  - assert (m_appended st = false) as Ef.
    { destruct (m_appended st) eqn:Em; [|done]. by destruct (nil_of_lt _ _ El (Ha eq_refl)). }
    rewrite Ef in *. constructor; rewrite Ea; [done|rewrite Eo; lia|lia].
  - destruct (m_appended st) eqn:Em; [|constructor; rewrite Ea; [done|lia..]].
    destruct (nil_of_lt _ _ El (Ha eq_refl)) as [E0 E1].
    constructor; rewrite Ea; [by right| |lia]. specialize (Ec E1). lia.
  - rewrite E1 in *. constructor; rewrite E2; [by left|rewrite E5; lia|rewrite E4; lia].
Qed.

Lemma reachable_stacks_ok n e0 st0 e st :
  stacks_ok n st0 -> reachable ev names null_expr e0 st0 e st -> stacks_ok n st.
Proof. induction 2 as [|e st e' st' _ IH Hs]; [done|]. by eapply stacks_ok_step. Qed.

(** Twice the numbers plus the rest of the text, with separated operands. *)
Definition nums_sep (n : nat) (st : mstate) : Prop :=
  2 * length (m_nums st) + (if m_appended st then 0 else length (m_expr st))
  <= n + if bool_decide (m_lasttok st = TOK_NUM) || m_appended st then 1 else 0.

Lemma sep_reachable_reachable e0 st0 e st :
  sep_reachable e0 st0 e st -> reachable ev names null_expr e0 st0 e st.
Proof. induction 1; [constructor|by eapply reach_step]. Qed.

Lemma sep_nums n e0 st0 e st :
  stacks_ok n st0 -> nums_sep n st0 -> sep_reachable e0 st0 e st -> nums_sep n st.
Proof.
  intros H0 H1 Hr. induction Hr as [|e st e' st' Hr IH Hs Hsep]; [done|].
  apply sep_reachable_reachable in Hr. pose proof (reachable_stacks_ok _ _ _ _ _ H0 Hr) as [Ha _ _].
  unfold nums_sep in *. apply step_stacks in Hs as [Ea El En Eo Et Ec|Ea El En Eo Ec|E1 E2 E3 E4 E5].
  - assert (m_appended st = false) as Ef.
    { destruct (m_appended st) eqn:Em; [|done]. by destruct (nil_of_lt _ _ El (Ha eq_refl)). }
    rewrite Ea, Ef, (bool_decide_eq_true_2 _ Et) in *. cbn [orb].
    rewrite bool_decide_eq_false_2 in IH by (intros Hk; apply Hsep; split; [done|lia]). simpl in IH. lia.
  - rewrite Ea. destruct (m_appended st); rewrite ?orb_true_r, ?orb_false_r in *; [lia|].
    destruct (bool_decide (m_lasttok st = TOK_NUM)), (bool_decide (m_lasttok st' = TOK_NUM)); lia.
  - rewrite E1, E2, E4, orb_true_r, orb_false_r in *. case_bool_decide; lia.
Qed.

End Stacks.

(** C25. The operator stack never overflows its [strlen + 2] slots, in any
    reachable state of any expression; the number stack holds at most [strlen]
    entries, and fits its [(strlen + 2) / 2] slots as long as no operand is
    pushed directly after another one. *)
Theorem stacks_bounded {E} `{VarStore E} ev (e0 : E) names null_expr expr e st :
  let start := skip_whitespace expr in
  (reachable ev names null_expr e0 (init_mstate start) e st ->
     length (m_ops st) <= length start + 1 /\ length (m_nums st) <= length start)%nat /\
  (sep_reachable ev names null_expr e0 (init_mstate start) e st ->
     length (m_nums st) <= (length start + 2) / 2)%nat.
Proof.
  cbv zeta. set (start := skip_whitespace expr).
  assert (stacks_ok (length start) (init_mstate start)) as H0 by (constructor; simpl; [done|lia..]).
  split; intros Hr.
  - destruct (reachable_stacks_ok _ _ _ _ _ _ _ _ H0 Hr). lia.
  - assert (nums_sep (length start) st) as Hn.
    { eapply sep_nums; [exact H0| |exact Hr]. unfold nums_sep. cbn. lia. }
    unfold nums_sep in Hn. apply Nat.div_le_lower_bound; [lia|].
    repeat case_match; lia.
Qed.

(** ** Concrete runs *)

Fixpoint run_steps {E} `{VarStore E} ev names null_expr (n : nat) (e : E) (st : mstate) : option (E * mstate) :=
  match n with
  | O => Some (e, st)
  | S n => match eval_step ev e names null_expr st with
           | MGo e st => run_steps ev names null_expr n e st
           | MEnd _ => None
           end
  end.

Lemma reachable_trans {E} `{VarStore E} ev names null_expr (e0 e1 e2 : E) s0 s1 s2 :
  reachable ev names null_expr e0 s0 e1 s1 -> reachable ev names null_expr e1 s1 e2 s2 ->
  reachable ev names null_expr e0 s0 e2 s2.
Proof. intros H1 H2. induction H2; [done|by eapply reach_step]. Qed.

Lemma run_steps_reachable {E} `{VarStore E} ev names null_expr n (e : E) st e' st' :
  run_steps ev names null_expr n e st = Some (e', st') -> reachable ev names null_expr e st e' st'.
Proof.
  revert e st. induction n as [|n IH]; intros e st; simpl; [intros [= <- <-]; constructor|].
  destruct (eval_step ev e names null_expr st) as [e1 st1|] eqn:Es; [|done]. intros Hr%IH.
  eapply reachable_trans; [|exact Hr]. eapply reach_step; [constructor|exact Es].
Qed.

Lemma stacks_bounded_witness :
  exists st : mstate,
    length (m_nums st) = 2%nat /\ length (m_ops st) = 3%nat /\
    (length (m_ops st) <= length (lit "1+(2") + 1 /\ length (m_nums st) <= length (lit "1+(2"))%nat.
Proof.
  eexists (mk_mstate [] false [num 2; num 1] [TOK_LPAREN; TOK_ADD; TOK_LPAREN] TOK_NUM).
  split; [reflexivity|]. split; [reflexivity|].
  refine (proj1 (stacks_bounded (evaluate_string 1) (∅ : gmap cstr cstr) [] false (lit "1+(2") ∅ _) _).
  apply (run_steps_reachable _ _ _ 4). vm_compute. reflexivity.
Defined.

(** The bound the code's comment claims ("no more than strlen/2+1 integers in
    any given correct or incorrect expression") does not hold: scanning the
    8 characters [08 08 08] pushes six numbers on a stack allocated for five
    (each [08] is the octal 0 followed by the number 8, and the scanner pushes
    operands without looking at the previous token). *)
Theorem numstack_overflow :
  exists (expr : cstr) (e : gmap cstr cstr) (st : mstate),
    expr = lit "08 08 08" /\
    reachable (evaluate_string 1) [] false ∅ (init_mstate (skip_whitespace expr)) e st /\
    ((length (skip_whitespace expr) + 2) / 2 < length (m_nums st))%nat.
Proof.
  exists (lit "08 08 08"), ∅, (mk_mstate [] false [num 8; num 0; num 8; num 0; num 8; num 0] [TOK_LPAREN] TOK_NUM).
  split; [done|]. split; [|vm_compute; lia].
  apply (run_steps_reachable _ _ _ 6). vm_compute. reflexivity.
Qed.
