(* ===== verification/ShMathPrec.v ===== *)
(** * shell/math.c: the evaluator computes what the expression means

    Expressions as trees, their value (a reference semantics over 64-bit
    integers, with the first error met from left to right), and the text of a
    tree with parentheses only where the precedence and the associativity of the
    operators need them.  The theorem: evaluating the text gives the value.

    The proof follows the two stacks: after the text of a subexpression, the
    operators it left pending are "settled" in the sense that the next operator
    which does not bind tighter reduces them to the value of the subexpression. *)

From Stdlib Require Import Ascii String ZArith Lia.
From stdpp Require Import base gmap list strings.
From S2P Require Import Prelude Clib LibbbStr ShMath ShMathSafe.

Local Open Scope Z_scope.

(** ** Syntax and reference semantics *)

Inductive binop :=
  | B_COMMA | B_OR | B_AND | B_BOR | B_BXOR | B_BAND | B_EQ | B_NE | B_LT | B_GT | B_GE | B_LE
  | B_SHL | B_SHR | B_ADD | B_SUB | B_MUL | B_DIV | B_REM | B_EXP.

Inductive unop := U_NEG | U_PLUS | U_NOT | U_BNOT.

Inductive aexp :=
  | Num (z : Z)
  | Un (o : unop) (a : aexp)
  | Bin (o : binop) (a b : aexp)
  | Cond (a b c : aexp).

Definition bin_den (o : binop) (a b : Z) : string + Z :=
  match o with
  | B_COMMA => inr b
  | B_OR => inr (b2z (negb (a =? 0) || negb (b =? 0)))
  | B_AND => inr (b2z (negb (a =? 0) && negb (b =? 0)))
  | B_BOR => inr (Z.lor a b)
  | B_BXOR => inr (Z.lxor a b)
  | B_BAND => inr (Z.land a b)
  | B_EQ => inr (b2z (a =? b))
  | B_NE => inr (b2z (negb (a =? b)))
  | B_LT => inr (b2z (a <? b))
  | B_GT => inr (b2z (a >? b))
  | B_GE => inr (b2z (a >=? b))
  | B_LE => inr (b2z (a <=? b))
  | B_SHL => inr (wrapS 64 (a * 2 ^ (b mod 64)))
  | B_SHR => inr (a / 2 ^ (b mod 64))
  | B_ADD => inr (wrapS 64 (a + b))
  | B_SUB => inr (wrapS 64 (a - b))
  | B_MUL => inr (wrapS 64 (a * b))
  | B_DIV => if b =? 0 then inl "divide by zero"%string else inr (wrapS 64 (Z.quot a b))
  | B_REM => if b =? 0 then inl "divide by zero"%string else inr (Z.rem a b)
  | B_EXP => if b <? 0 then inl "exponent less than 0"%string else inr (wrapS 64 (a ^ b))
  end.

Definition un_den (o : unop) (a : Z) : Z :=
  match o with
  | U_NEG => wrapS 64 (- a)
  | U_PLUS => a
  | U_NOT => b2z (a =? 0)
  | U_BNOT => - a - 1
  end.

(** All operands are evaluated (there is no short circuit). *)
Fixpoint den (t : aexp) : string + Z :=
  match t with
  | Num z => inr z
  | Un o a => match den a with inl m => inl m | inr x => inr (un_den o x) end
  | Bin o a b =>
      match den a with
      | inl m => inl m
      | inr x => match den b with inl m => inl m | inr y => bin_den o x y end
      end
  | Cond a b c =>
      match den a, den b, den c with
      | inl m, _, _ => inl m
      | _, inl m, _ => inl m
      | _, _, inl m => inl m
      | inr x, inr y, inr z => inr (if x =? 0 then z else y)
      end
  end.

(** Literals are the non-negative 64-bit values. *)
Fixpoint literals_ok (t : aexp) : Prop :=
  match t with
  | Num z => 0 <= z < 2 ^ 63
  | Un _ a => literals_ok a
  | Bin _ a b => literals_ok a /\ literals_ok b
  | Cond a b c => literals_ok a /\ literals_ok b /\ literals_ok c
  end.

(** ** Text *)

Definition btok (o : binop) : cstr * Z :=
  match o with
  | B_COMMA => (lit ",", TOK_COMMA) | B_OR => (lit "||", TOK_OR) | B_AND => (lit "&&", TOK_AND)
  | B_BOR => (lit "|", TOK_BOR) | B_BXOR => (lit "^", TOK_BXOR) | B_BAND => (lit "&", TOK_BAND)
  | B_EQ => (lit "==", TOK_EQ) | B_NE => (lit "!=", TOK_NE) | B_LT => (lit "<", TOK_LT)
  | B_GT => (lit ">", TOK_GT) | B_GE => (lit ">=", TOK_GE) | B_LE => (lit "<=", TOK_LE)
  | B_SHL => (lit "<<", TOK_LSHIFT) | B_SHR => (lit ">>", TOK_RSHIFT)
  | B_ADD => (lit "+", TOK_ADD) | B_SUB => (lit "-", TOK_SUB) | B_MUL => (lit "*", TOK_MUL)
  | B_DIV => (lit "/", TOK_DIV) | B_REM => (lit "%", TOK_REM) | B_EXP => (lit "**", TOK_EXPONENT)
  end.

Definition utok (o : unop) : cstr * Z :=
  match o with
  | U_NEG => (lit "-", TOK_UMINUS) | U_PLUS => (lit "+", TOK_UPLUS)
  | U_NOT => (lit "!", TOK_NOT) | U_BNOT => (lit "~", TOK_BNOT)
  end.

(** A token and the blank after it. *)
Definition tk (s : cstr) : cstr := s ++ [SP].
Definition paren (b : bool) (s : cstr) : cstr := if b then tk (lit "(") ++ s ++ tk (lit ")") else s.

(** The grammar's levels, loosest first (C's, with [**] above the products;
    levels 2 and 3 are the assignments'), and its operator that groups to the
    right. *)
Definition level (o : binop) : Z :=
  match o with
  | B_COMMA => 1
  | B_OR => 5 | B_AND => 6 | B_BOR => 7 | B_BXOR => 8 | B_BAND => 9
  | B_EQ | B_NE => 10
  | B_LT | B_GT | B_GE | B_LE => 11
  | B_SHL | B_SHR => 12
  | B_ADD | B_SUB => 13
  | B_MUL | B_DIV | B_REM => 14
  | B_EXP => 15
  end.
Definition cond_level : Z := 4.
Definition unary_level : Z := 16.
Definition groups_right (o : binop) : bool := match o with B_EXP => true | _ => false end.

(** The text of a tree where operators of level at least [p] may stand without
    parentheses. *)
Fixpoint pr (p : Z) (t : aexp) : cstr :=
  match t with
  | Num z => tk (fmt_u z)
  | Un o a => tk (utok o).1 ++ pr unary_level a
  | Bin o a b =>
      let q := level o in
      let r := groups_right o in
      paren (q <? p)
        (pr (if r then q + 1 else q) a ++ tk (btok o).1 ++ pr (if r then q else q + 1) b)
  | Cond a b c =>
      paren (cond_level <? p)
        (pr (cond_level + 1) a ++ tk (lit "?") ++ pr (cond_level + 1) b ++ tk (lit ":") ++ pr cond_level c)
  end.

Definition text (t : aexp) : cstr := pr 1 t.

(** The precedences packed into the token codes are these levels. *)
Lemma level_PREC o : PREC (btok o).2 = level o.
Proof. by destruct o. Qed.

Lemma groups_right_ok o : is_right_associative (level o) = groups_right o.
Proof. by destruct o. Qed.

(** The text starts with a token. *)
Definition starts (s : cstr) : Prop := s <> [] /\ skip_whitespace s = s.

Lemma starts_app s s' : starts s -> starts (s ++ s').
Proof.
  destruct s as [|c s]; intros [Hn Hs]; [done|]. split; [done|]. cbn [app]. cbn [skip_whitespace] in *.
  case_match; [|done]. pose proof (within_length _ _ (skip_whitespace_within s)).
  rewrite Hs in *. simpl in *. lia.
Qed.

Lemma text_starts p t : literals_ok t -> starts (pr p t).
Proof.
  revert p. induction t as [z|o a _|o a IHa b _|a IHa b _ c _]; intros p Hl; cbn [pr].
  - simpl in Hl. destruct (fmt_u_cons z ltac:(lia)) as (c & s & Ec & Hc). apply starts_app. rewrite Ec.
    split; [done|]. by apply digit_not_name.
  - apply starts_app. by destruct o.
  - destruct Hl as [Hl _]. unfold paren. case_match; [by apply starts_app|]. by apply starts_app, IHa.
  - destruct Hl as [Hl _]. unfold paren. case_match; [by apply starts_app|]. by apply starts_app, IHa.
Qed.

(** ** The operators agree with the reference semantics *)

Lemma exp_loop_pow n c a : arith_wrap (exp_loop n c a) = arith_wrap (c * a ^ Z.of_nat n).
Proof.
  revert c. induction n as [|n IH]; intros c; [f_equal; simpl; lia|].
  cbn [exp_loop]. rewrite IH, Nat2Z.inj_succ, Z.pow_succ_r by lia. unfold arith_wrap.
  apply wrapS_cong; [lia|]. rewrite Z.mul_mod, wrapS_mod, <- Z.mul_mod by lia. f_equal. lia.
Qed.

Lemma shl1_zero_inv a : i64 a -> arith_wrap (Z.shiftl a 1) = 0 -> a = 0 \/ a = - 2 ^ 63.
Proof.
  rewrite i64_bounds. intros Ha Hw. pose proof (wrapS_mod 64 (Z.shiftl a 1) ltac:(lia)) as Hm.
  unfold arith_wrap in Hw. rewrite Hw in Hm. rewrite Z.shiftl_mul_pow2 in Hm by lia.
  change (0 mod 2 ^ 64) with 0 in Hm. symmetry in Hm. apply Z.mod_divide in Hm as [k Hk]; [|lia]. lia.
Qed.

Lemma div_den_ok a b :
  i64 a -> b <> 0 ->
  let b' := if (b =? -1) && (arith_wrap (Z.shiftl a 1) =? 0) then 1 else b in
  Z.quot a b' = wrapS 64 (Z.quot a b) /\ Z.rem a b' = Z.rem a b.
Proof.
  intros Ha Hb b'. subst b'.
  destruct (Z.eqb_spec b (-1)) as [->|Hn]; cbn [andb].
  2: { split; [|done]. symmetry. apply wrapS_id; [lia|]. apply i64_quot; [done..|]. lia. }
  destruct (Z.eqb_spec (arith_wrap (Z.shiftl a 1)) 0) as [Hz|Hz].
  - by destruct (shl1_zero_inv a Ha Hz) as [-> | ->].
  - split; [|done]. symmetry. apply wrapS_id; [lia|]. apply i64_quot; [done..|].
    intros [_ Hm]. by apply Hz, shl1_zero.
Qed.

Lemma bin_den_ok o a b s :
  i64 a -> i64 b -> arith_binop (btok o).2 a b s = bin_den o a b.
Proof.
  intros Ha Hb. pose proof (Z.mod_pos_bound b 64 ltac:(lia)).
  destruct o; try reflexivity; cbn [bin_den btok snd].
  - change (arith_binop TOK_OR a b s) with (@inr string Z (b2z (negb (b =? 0) || negb (a =? 0)))).
    by rewrite orb_comm.
  - by rewrite Z.gtb_ltb.
  - by rewrite Z.geb_leb.
  - by rewrite <- Z.shiftl_mul_pow2 by lia.
  - by rewrite <- Z.shiftr_div_pow2 by lia.
  - change (arith_binop TOK_DIV a b s) with (if b =? 0 then inl "divide by zero"%string
      else inr (Z.quot a (if (b =? -1) && (arith_wrap (Z.shiftl a 1) =? 0) then 1 else b))).
    case_goal; [done|]. bool_prop. f_equal. by apply div_den_ok.
  - change (arith_binop TOK_REM a b s) with (if b =? 0 then inl "divide by zero"%string
      else inr (Z.rem a (if (b =? -1) && (arith_wrap (Z.shiftl a 1) =? 0) then 1 else b))).
    case_goal; [done|]. bool_prop. f_equal. by apply div_den_ok.
  - change (arith_binop TOK_EXPONENT a b s) with (if b <? 0 then inl "exponent less than 0"%string
      else inr (exp_loop (Z.to_nat b) 1 a)).
    case_goal; [done|]. bool_prop. f_equal.
    rewrite <- (wrapS_id 64 (exp_loop _ _ _)) by (lia || by apply exp_loop_i64).
    change (wrapS 64 ?x) with (arith_wrap x). rewrite exp_loop_pow, Z2Nat.id by lia. f_equal. lia.
Qed.

Lemma un_den_ok o a : arith_unop (utok o).2 a = Some (un_den o a).
Proof. by destruct o. Qed.

Lemma den_i64 t v : literals_ok t -> den t = inr v -> i64 v.
Proof.
  revert v. induction t as [z|o a IH|o a IHa b IHb|a IHa b IHb c IHc]; intros v Hl Hd; simpl in Hl, Hd.
  - injection Hd as <-. apply i64_bounds. lia.
  - destruct (den a) as [|x]; [done|]. injection Hd as <-.
    eapply arith_unop_i64; [by apply IH|apply un_den_ok].
  - destruct Hl, (den a) as [|x], (den b) as [|y]; try done.
    assert (i64 x) by auto. assert (i64 y) by auto.
    eapply (arith_binop_i64 (btok o).2 x y 0); [done..|]. by rewrite bin_den_ok.
  - destruct Hl as (? & ? & ?), (den a) as [|x], (den b) as [|y], (den c) as [|z]; try done.
    injection Hd as <-. case_goal; auto.
Qed.

(** ** Pending operators *)

Section Run.
Context {E : Type} `{VarStore E}.
Variable ev : E -> list cstr -> cstr -> ares E Z.
Variables (names : list cstr) (e : E).

Abbreviation from := (eval_from ev names false e).
Abbreviation pend op nums ops := (apply_pending ev e names op (PREC op) nums ops).

(** Only the text after the blanks matters. *)
Lemma from_blank x nums ops lt :
  from (mk_mstate (SP :: x) false nums ops lt) = from (mk_mstate x false nums ops lt).
Proof.
  unfold eval_from. rewrite (eval_loop_fuel ev names false _ (S (S (mmeasure (mk_mstate x false nums ops lt)))) e);
    [|unfold mmeasure; simpl; lia..].
  rewrite (eval_loop_fuel ev names false (S (mmeasure (mk_mstate x false nums ops lt))) 
    (S (S (mmeasure (mk_mstate x false nums ops lt))))) by (unfold mmeasure; simpl; lia).
  reflexivity.
Qed.

(** Tokens after which an operand is expected. *)
Definition operand_next (lt : Z) : Prop := lt <> TOK_NUM /\ lt <> TOK_POST_INC /\ lt <> TOK_POST_DEC.

(** The infix operators of the trees, and the prefix ones. *)
Definition infix (entry : cstr * Z) : Prop :=
  (exists o, entry = btok o) \/ entry = (lit "?", TOK_CONDITIONAL) \/ entry = (lit ":", TOK_CONDITIONAL_SEP).
Definition prefix (entry : cstr * Z) : Prop :=
  (exists o, entry = utok o) \/ entry = (lit "(", TOK_LPAREN).

Lemma from_number z rest nums ops lt :
  0 <= z < 2 ^ 63 ->
  from (mk_mstate (tk (fmt_u z) ++ rest) false nums ops lt) =
  from (mk_mstate rest false (num z :: nums) ops TOK_NUM).
Proof.
  intros Hz. unfold tk. rewrite <- app_assoc. cbn [app]. erewrite eval_from_step.
  2: { apply (step_num ev names e false _ z (SP :: rest)); [lia|by vm_compute|done]. }
  unfold push_num. cbn [m_nums m_ops m_appended]. rewrite from_blank.
  unfold arith_wrap. by rewrite wrapS_id by (lia || apply i64_bounds; lia).
Qed.

Lemma from_prefix s op rest nums ops lt :
  prefix (s, op) -> operand_next lt ->
  from (mk_mstate (tk s ++ rest) false nums ops lt) = from (mk_mstate rest false nums (op :: ops) op).
Proof.
  intros Hp (H1 & H2 & H3). rewrite <- (from_blank rest). apply eval_from_step.
  assert (exists op', find_op op_tokens (tk s ++ rest) = Some (op', SP :: rest) /\ unary_form op' = op)
    as (op' & Hf & Hu).
  { destruct Hp as [[[] [= -> ->]]|[= -> ->]]; eexists; split; reflexivity. }
  rewrite (step_op ev names e false _ (tk s ++ rest) op' (SP :: rest)); [|done| | | | |done].
  2-5: destruct Hp as [[[] [= -> ->]]|[= -> ->]]; reflexivity.
  unfold process_op. cbn [m_lasttok m_nums m_ops m_appended].
  rewrite (proj2 (Z.eqb_neq lt _) H2), (proj2 (Z.eqb_neq lt _) H3). cbn [orb].
  rewrite (proj2 (Z.eqb_neq lt _) H1). cbn [negb]. rewrite Hu.
  by destruct Hp as [[[] [= -> ->]]|[= -> ->]].
Qed.

Lemma from_infix s op rest nums ops :
  infix (s, op) ->
  from (mk_mstate (tk s ++ rest) false nums ops TOK_NUM) =
  match pend op nums ops with
  | AOk e' (n, o, true) => eval_from ev names false e' (mk_mstate (SP :: rest) false n o TOK_NUM)
  | AOk e' (n, o, false) => eval_from ev names false e' (mk_mstate (SP :: rest) false n (op :: o) op)
  | AErr e' m => AErr e' m
  | ARaise e' m => ARaise e' m
  | AFuel => AFuel
  end.
Proof.
  intros Hi.
  assert (eval_step ev e names false (mk_mstate (tk s ++ rest) false nums ops TOK_NUM) =
    process_op ev e names (mk_mstate (tk s ++ rest) false nums ops TOK_NUM) op (SP :: rest)) as Hs.
  { apply (step_op ev names e false _ (tk s ++ rest) op (SP :: rest));
      destruct Hi as [[[] [= -> ->]]|[[= -> ->]|[= -> ->]]]; reflexivity. }
  assert (((0 <? PREC op) && (PREC op <? UNARYPREC)) || (PREC op =? SPEC_PREC) = true) as Hp.
  { by destruct Hi as [[[] [= -> ->]]|[[= -> ->]|[= -> ->]]]. }
  unfold process_op in Hs. cbn [m_lasttok m_nums m_ops m_appended] in Hs.
  change (TOK_NUM =? TOK_POST_INC) with false in Hs. change (TOK_NUM =? TOK_POST_DEC) with false in Hs.
  cbn [orb] in Hs. change (TOK_NUM =? TOK_NUM) with true in Hs. cbn [negb] in Hs. rewrite Hp in Hs.
  destruct (pend op nums ops) as [e' [[n o] []]| | |]; by (apply eval_from_step || apply eval_from_end).
Qed.
(** [)] behaves as an infix operator does. *)
Lemma from_rparen rest nums ops :
  from (mk_mstate (tk (lit ")") ++ rest) false nums ops TOK_NUM) =
  (do e', r <- pend TOK_RPAREN nums ops;
   eval_from ev names false e' (mk_mstate (SP :: rest) false r.1.1 r.1.2 TOK_NUM)).
Proof.
  assert (eval_step ev e names false (mk_mstate (tk (lit ")") ++ rest) false nums ops TOK_NUM) =
    process_op ev e names (mk_mstate (tk (lit ")") ++ rest) false nums ops TOK_NUM) TOK_RPAREN (SP :: rest)) as Hs.
  { apply (step_op ev names e false _ (tk (lit ")") ++ rest)); reflexivity. }
  change (process_op _ _ _ _ _ _) with
    (match pend TOK_RPAREN nums ops with
     | AOk e' (n, o, true) => MGo e' (mk_mstate (SP :: rest) false n o TOK_NUM)
     | AOk e' (n, o, false) => MGo e' (mk_mstate (SP :: rest) false n (TOK_RPAREN :: o) TOK_RPAREN)
     | AErr e' m => MEnd (AErr e' m) | ARaise e' m => MEnd (ARaise e' m) | AFuel => MEnd AFuel
     end) in Hs.
  destruct (pend TOK_RPAREN nums ops) as [e' [[n o] b]| | |] eqn:Ep.
  2-4: by apply eval_from_end.
  rewrite (pending_rparen _ _ _ _ _ _ _ _ _ _ Ep) in Hs. by apply eval_from_step.
Qed.

(** [op] reduces everything pending at level [p]. *)
Definition covers (p op : Z) : Prop :=
  op = TOK_RPAREN \/
  (op <> TOK_RPAREN /\ fix_assignment_prec (PREC op) = PREC op /\
   (PREC op < p \/ PREC op = p /\ is_right_associative p = false)).

(** Operators of level [p] and above stay above the stack [ops]. *)
Definition guard (p : Z) (ops : list Z) : Prop :=
  UNARYPREC <= p \/
  exists o ops', ops = o :: ops' /\
    (fix_assignment_prec (PREC o) < p \/ fix_assignment_prec (PREC o) = p /\ is_right_associative p = true).

Definition settled (p : Z) (d : string + Z) (nums : list var_or_num_t) (ops : list Z)
    (nums0 : list var_or_num_t) (ops0 : list Z) : Prop :=
  forall op, covers p op ->
    pend op nums ops = match d with inr v => pend op (num v :: nums0) ops0 | inl m => AErr e m end.

(** Running from a state either fails with the error of [d], or reaches the
    text [rest] with [d] settled. *)
Definition yields (p : Z) (st : mstate) (d : string + Z) (nums0 : list var_or_num_t) (ops0 : list Z)
    (rest : cstr) : Prop :=
  (exists m, d = inl m /\ from st = AErr e m) \/
  (exists nums ops, from st = from (mk_mstate rest false nums ops TOK_NUM) /\
     settled p d nums ops nums0 ops0).

Lemma infix_prec s op : infix (s, op) ->
  op <> TOK_RPAREN /\ op <> TOK_LPAREN /\ fix_assignment_prec (PREC op) = PREC op /\
  1 <= PREC op < UNARYPREC /\ operand_next op.
Proof.
  intros Hi. unfold operand_next.
  by destruct Hi as [[[] [= -> ->]]|[[= -> ->]|[= -> ->]]]; vm_compute; repeat split.
Qed.

Lemma pend_stops s op p nums ops :
  infix (s, op) -> p <= PREC op -> guard p ops -> pend op nums ops = AOk e (nums, ops, false).
Proof.
  intros Hi Hp Hg. destruct (infix_prec _ _ Hi) as (H1 & _ & H2 & H3 & _).
  destruct Hg as [?|(o & ops' & -> & Ho)]; [lia|]. cbn [apply_pending].
  rewrite (proj2 (Z.eqb_neq op _) H1), H2.
  destruct Ho as [Ho|[Ho Hr]].
  - by rewrite (proj2 (Z.ltb_lt _ _)) by lia.
  - destruct (Z.eq_dec p (PREC op)) as [->|?].
    + rewrite Ho, Z.eqb_refl, Hr. by rewrite orb_true_r.
    + by rewrite (proj2 (Z.ltb_lt _ _)) by lia.
Qed.

Lemma pend_pops p op tok nums ops :
  covers p op -> tok <> TOK_LPAREN -> p <= fix_assignment_prec (PREC tok) ->
  pend op nums (tok :: ops) =
  (do e', n <- arith_apply ev e names tok nums; apply_pending ev e' names op (PREC op) n ops).
Proof.
  intros Hc Hl Hp. cbn [apply_pending].
  destruct Hc as [->|(Hn & Hf & Hc)].
  - rewrite Z.eqb_refl. by rewrite (proj2 (Z.eqb_neq tok _) Hl).
  - rewrite (proj2 (Z.eqb_neq op _) Hn), Hf.
    rewrite (proj2 (Z.ltb_ge (fix_assignment_prec (PREC tok)) (PREC op))) by lia. cbn [orb].
    destruct Hc as [Hc|[Hc Hr]].
    + by rewrite (proj2 (Z.eqb_neq (fix_assignment_prec (PREC tok)) (PREC op))) by lia.
    + by rewrite Hc, Hr, andb_false_r.
Qed.

(** Reading an infix operator after a subexpression. *)
Lemma yields_infix p' p st d nums0 ops0 s op rest :
  yields p' st d nums0 ops0 (tk s ++ rest) -> infix (s, op) -> covers p' op ->
  p <= PREC op -> guard p ops0 ->
  (exists m, d = inl m /\ from st = AErr e m) \/
  (exists v, d = inr v /\ from st = from (mk_mstate rest false (num v :: nums0) (op :: ops0) op)).
Proof.
  intros [?|(nums & ops & Hf & Hs)] Hi Hc Hp Hg; [by left|].
  rewrite Hf, (from_infix s op) by done. rewrite (Hs op Hc). destruct d as [m|v].
  - left. by exists m.
  - right. exists v. split; [done|]. rewrite (pend_stops s op p) by done. apply from_blank.
Qed.

(** A parenthesised subexpression is an operand. *)
Lemma yields_paren p p' d s rest nums0 ops0 lt :
  operand_next lt ->
  (forall rest', yields p' (mk_mstate (s ++ rest') false nums0 (TOK_LPAREN :: ops0) TOK_LPAREN) d
     nums0 (TOK_LPAREN :: ops0) rest') ->
  yields p (mk_mstate (paren true s ++ rest) false nums0 ops0 lt) d nums0 ops0 rest.
Proof.
  intros Hl Hs. unfold yields, paren. rewrite <- !app_assoc.
  rewrite (from_prefix (lit "(") TOK_LPAREN) by (done || by right).
  destruct (Hs (tk (lit ")") ++ rest)) as [?|(nums & ops & Hf & Ht)]; [by left|].
  rewrite Hf, from_rparen, (Ht TOK_RPAREN) by (by left).
  destruct d as [m|v]; [left; by exists m|].
  right. exists (num v :: nums0), ops0. split; [|done]. cbn. apply from_blank.
Qed.

Lemma apply_un o v nums :
  arith_apply ev e names (utok o).2 (num v :: nums) = AOk e (num (un_den o v) :: nums).
Proof. by destruct o. Qed.

Lemma apply_bin o a b nums :
  i64 a -> i64 b ->
  arith_apply ev e names (btok o).2 (num b :: num a :: nums) =
  match bin_den o a b with inr v => AOk e (num v :: nums) | inl m => AErr e m end.
Proof.
  intros Ha Hb. rewrite <- (bin_den_ok o a b 0 Ha Hb). unfold arith_apply, arith_lookup_val. cbn [num var val].
  replace (arith_unop (btok o).2 b) with (@None Z) by (by destruct o). cbn [second_val_present num].
  replace ((btok o).2 =? TOK_CONDITIONAL) with false by (by destruct o).
  replace ((btok o).2 =? TOK_ASSIGN) with false by (by destruct o).
  replace ((btok o).2 =? TOK_CONDITIONAL_SEP) with false by (by destruct o). cbn [andb val second_val num].
  destruct (arith_binop _ _ _ _); [done|]. unfold arith_store.
  by replace (is_assign_op (btok o).2) with false by (by destruct o).
Qed.

Lemma apply_sep b c nums t :
  arith_apply ev e names TOK_CONDITIONAL_SEP (num c :: num b :: t :: nums) =
  AOk e (mk_von b c true None :: t :: nums).
Proof. reflexivity. Qed.

Lemma apply_cond a b c nums :
  arith_apply ev e names TOK_CONDITIONAL (mk_von b c true None :: num a :: nums) =
  AOk e (num (if a =? 0 then c else b) :: nums).
Proof. reflexivity. Qed.

Lemma guard_mono p p' ops : p <= p' -> guard p ops -> guard p' ops.
Proof.
  intros Hp [?|(o & ops' & -> & Ho)]; [left; lia|]. right. exists o, ops'. split; [done|].
  destruct (Z.eq_dec p p') as [->|?]; [done|]. left. lia.
Qed.

Lemma covers_mono p p' op : p <= p' -> covers p op -> covers p' op.
Proof.
  intros Hp [?|(? & ? & Ho)]; [by left|]. right. split; [done|]. split; [done|].
  destruct (Z.eq_dec p p') as [->|?]; [done|]. left. lia.
Qed.

Lemma guard_lparen ops : guard 1 (TOK_LPAREN :: ops).
Proof. right. exists TOK_LPAREN, ops. split; [done|]. left. vm_compute. done. Qed.

Lemma guard_infix s op ops p : infix (s, op) ->
  PREC op < p \/ PREC op = p /\ is_right_associative p = true -> guard p (op :: ops).
Proof.
  intros (_ & _ & Hf & _)%infix_prec Hp. right. exists op, ops. by rewrite Hf.
Qed.

Lemma covers_infix s op p : infix (s, op) ->
  PREC op < p \/ PREC op = p /\ is_right_associative p = false -> covers p op.
Proof. intros (H1 & _ & H2 & _)%infix_prec Hp. by right. Qed.

(** What the induction on trees proves of the text [pr p t]. *)
Definition runs (t : aexp) : Prop :=
  forall p nums0 ops0 lt rest,
    1 <= p <= UNARYPREC -> operand_next lt -> guard p ops0 ->
    yields p (mk_mstate (pr p t ++ rest) false nums0 ops0 lt) (den t) nums0 ops0 rest.

Lemma runs_un o a : runs a -> runs (Un o a).
Proof.
  intros IH p nums0 ops0 lt rest Hp Hl Hg. cbn [pr den]. change unary_level with UNARYPREC. rewrite <- app_assoc.
  assert (operand_next (utok o).2) as Hn by (by destruct o).
  pose proof (from_prefix (utok o).1 (utok o).2 (pr UNARYPREC a ++ rest) nums0 ops0 lt) as Hf.
  specialize (Hf ltac:(left; exists o; by destruct (utok o)) Hl).
  unfold yields. rewrite Hf.
  destruct (IH UNARYPREC nums0 ((utok o).2 :: ops0) (utok o).2 rest) as [(m & Hd & Hm)|(nums & ops & Hr & Hs)];
    [done|done|by left| |].
  { left. exists m. by rewrite Hd. }
  right. exists nums, ops. split; [done|]. intros op Hc.
  rewrite Hs by (by apply (covers_mono p); [lia|]).
  destruct (den a) as [m|v]; [done|].
  assert (UNARYPREC <= fix_assignment_prec (PREC (utok o).2)) by (destruct o; vm_compute; discriminate).
  rewrite (pend_pops p) by (done || lia || by destruct o).
  by rewrite apply_un.
Qed.

Lemma runs_bin_bare o a b p nums0 ops0 lt rest :
  literals_ok a -> literals_ok b -> runs a -> runs b ->
  let q := level o in let r := groups_right o in
  1 <= p <= q -> operand_next lt -> guard p ops0 ->
  yields p (mk_mstate ((pr (if r then q + 1 else q) a ++ tk (btok o).1 ++ pr (if r then q else q + 1) b) ++ rest)
    false nums0 ops0 lt) (den (Bin o a b)) nums0 ops0 rest.
Proof.
  intros Hla Hlb IHa IHb q r Hp Hl Hg.
  assert (infix ((btok o).1, (btok o).2)) as Hi by (left; exists o; by destruct (btok o)).
  destruct (infix_prec _ _ Hi) as (_ & Hlp & Hfix & Hq & Hn).
  pose proof (level_PREC o) as HP. pose proof (groups_right_ok o) as HR. fold q in HP, HR. fold r in HR.
  rewrite HP in Hfix, Hq.
  unfold runs in IHa, IHb. change UNARYPREC with 16 in *.
  assert (p <= (if r then q + 1 else q) <= 16 /\ p <= (if r then q else q + 1) <= 16) as [Hpa Hpb]
    by (destruct r; lia).
  rewrite <- !app_assoc. cbn [den].
  destruct (yields_infix (if r then q + 1 else q) p
    (mk_mstate (pr (if r then q + 1 else q) a ++ tk (btok o).1 ++ pr (if r then q else q + 1) b ++ rest)
      false nums0 ops0 lt) (den a) nums0 ops0 (btok o).1 (btok o).2 (pr (if r then q else q + 1) b ++ rest))
    as [(m & Hd & Hm)|(va & Hd & Hm)]; try done.
  { apply IHa; [lia|done|]. apply (guard_mono p); [lia|done]. }
  { apply (covers_infix _ _ _ Hi). rewrite HP. destruct r; [left; lia|right; by split]. }
  { lia. }
  { left. exists m. by rewrite Hd. }
  unfold yields. rewrite Hm, Hd. clear Hm.
  destruct (IHb (if r then q else q + 1) (num va :: nums0) ((btok o).2 :: ops0) (btok o).2 rest)
    as [(m & Hd' & Hm)|(nums & ops & Hr & Hs)]; [lia|done| | |].
  { apply (guard_infix _ _ _ _ Hi). rewrite HP. destruct r; [right; by split|left; lia]. }
  { left. exists m. by rewrite Hd'. }
  right. exists nums, ops. split; [done|]. intros op Hc.
  rewrite Hs by (apply (covers_mono p); [lia|done]).
  destruct (den b) as [m|vb] eqn:Hdb; [done|].
  rewrite (pend_pops p) by (done || (rewrite HP, Hfix; lia)).
  rewrite apply_bin by eauto using den_i64. by destruct (bin_den o va vb).
Qed.

Lemma runs_bin o a b : literals_ok a -> literals_ok b -> runs a -> runs b -> runs (Bin o a b).
Proof.
  intros Hla Hlb IHa IHb p nums0 ops0 lt rest Hp Hl Hg. cbn [pr].
  destruct (Z.ltb_spec (level o) p) as [Hq|Hq].
  - apply (yields_paren p 1); [done|]. intros rest'. apply runs_bin_bare; try done; [|apply guard_lparen].
    destruct o; simpl; lia.
  - apply runs_bin_bare; try done. lia.
Qed.

Lemma runs_cond_bare a b c p nums0 ops0 lt rest :
  runs a -> runs b -> runs c -> 1 <= p <= 4 -> operand_next lt -> guard p ops0 ->
  yields p (mk_mstate ((pr 5 a ++ tk (lit "?") ++ pr 5 b ++ tk (lit ":") ++ pr 4 c) ++ rest)
    false nums0 ops0 lt) (den (Cond a b c)) nums0 ops0 rest.
Proof.
  intros IHa IHb IHc Hp Hl Hg. unfold runs in IHa, IHb, IHc. change UNARYPREC with 16 in *.
  assert (infix (lit "?", TOK_CONDITIONAL)) as Hq by (by right; left).
  assert (infix (lit ":", TOK_CONDITIONAL_SEP)) as Hs by (by right; right).
  assert (operand_next TOK_CONDITIONAL /\ operand_next TOK_CONDITIONAL_SEP) as [Hn1 Hn2] by done.
  assert (covers 5 TOK_CONDITIONAL /\ covers 5 TOK_CONDITIONAL_SEP) as [Hc1 Hc2].
  { split; [apply (covers_infix _ _ _ Hq)|apply (covers_infix _ _ _ Hs)]; by left. }
  rewrite <- !app_assoc. cbn [den].
  destruct (yields_infix 5 p (mk_mstate (pr 5 a ++ tk (lit "?") ++ pr 5 b ++ tk (lit ":") ++ pr 4 c ++ rest)
      false nums0 ops0 lt) (den a) nums0 ops0 (lit "?") TOK_CONDITIONAL
      (pr 5 b ++ tk (lit ":") ++ pr 4 c ++ rest)) as [(m & Hd & Hm)|(va & Hd & Hm)]; try done.
  { apply IHa; [lia|done|]. apply (guard_mono p); [lia|done]. }
  { change (PREC TOK_CONDITIONAL) with 4. lia. }
  { left. exists m. by rewrite Hd. }
  unfold yields. rewrite Hm, Hd. clear Hm.
  destruct (yields_infix 5 4 (mk_mstate (pr 5 b ++ tk (lit ":") ++ pr 4 c ++ rest)
      false (num va :: nums0) (TOK_CONDITIONAL :: ops0) TOK_CONDITIONAL) (den b) (num va :: nums0)
      (TOK_CONDITIONAL :: ops0) (lit ":") TOK_CONDITIONAL_SEP (pr 4 c ++ rest))
    as [(m & Hd' & Hm)|(vb & Hd' & Hm)]; try done.
  { apply IHb; [lia|done|]. apply (guard_infix _ _ _ _ Hq). by left. }
  { apply (guard_infix _ _ _ _ Hq). by right. }
  { left. exists m. by rewrite Hd'. }
  rewrite Hm, Hd'. clear Hm.
  destruct (IHc 4 (num vb :: num va :: nums0) (TOK_CONDITIONAL_SEP :: TOK_CONDITIONAL :: ops0)
    TOK_CONDITIONAL_SEP rest) as [(m & Hd'' & Hm)|(nums & ops & Hr & Ht)]; [lia|done| | |].
  { apply (guard_infix _ _ _ _ Hs). by right. }
  { left. exists m. by rewrite Hd''. }
  right. exists nums, ops. split; [done|]. intros op Hc.
  rewrite Ht by (apply (covers_mono p); [lia|done]). destruct (den c) as [m|vc]; [done|].
  rewrite (pend_pops p) by (done || (change (fix_assignment_prec (PREC TOK_CONDITIONAL_SEP)) with 4; lia)).
  rewrite apply_sep.
  rewrite (pend_pops p) by (done || (change (fix_assignment_prec (PREC TOK_CONDITIONAL)) with 4; lia)).
  by rewrite apply_cond.
Qed.

Lemma runs_cond a b c : runs a -> runs b -> runs c -> runs (Cond a b c).
Proof.
  intros IHa IHb IHc p nums0 ops0 lt rest Hp Hl Hg. cbn [pr].
  change cond_level with 4. destruct (Z.ltb_spec 4 p) as [Hq|Hq].
  - apply (yields_paren p 1); [done|]. intros rest'. apply runs_cond_bare; first [done|lia|apply guard_lparen].
  - apply runs_cond_bare; first [done|lia].
Qed.

Lemma runs_all t : literals_ok t -> runs t.
Proof.
  induction t as [z|o a IH|o a IHa b IHb|a IHa b IHb c IHc]; simpl; intros Hl.
  - intros p nums0 ops0 lt rest _ _ _. right. exists (num z :: nums0), ops0. split; [|done].
    by apply from_number.
  - by apply runs_un, IH.
  - destruct Hl. apply runs_bin; auto.
  - destruct Hl as (? & ? & ?). apply runs_cond; auto.
Qed.

Lemma evaluate_text t :
  literals_ok t ->
  evaluate_body ev e names (text t) = match den t with inr v => AOk e v | inl m => AErr e m end.
Proof.
  intros Hl.
  destruct (text_starts 1 t Hl) as [Hne Hw]. fold (text t) in Hne, Hw.
  rewrite evaluate_body_from, Hw, bool_decide_eq_false_2 by done.
  destruct (runs_all t Hl 1 [] [TOK_LPAREN] TOK_LPAREN []) as [(m & Hd & Hm)|(nums & ops & Hr & Hs)];
    [done|done|apply guard_lparen| |].
  - rewrite app_nil_r in Hm. by rewrite Hd.
  - rewrite app_nil_r in Hr. change (init_mstate (text t)) with (mk_mstate (pr 1 t) false [] [TOK_LPAREN] TOK_LPAREN).
    rewrite Hr, eval_end by done.
    rewrite (Hs TOK_RPAREN) by (by left). by destruct (den t).
Qed.

End Run.

(** C1. The operator-precedence evaluator computes what the expression means:
    for every expression tree over the unary, binary and conditional operators,
    evaluating its text (with parentheses only where precedence or associativity
    need them) returns the value of the tree in 64-bit wrap-around arithmetic,
    or the error of its first failing operator, and leaves the variables alone. *)
Theorem arith_evaluates {E} `{VarStore E} (e : E) (depth : nat) (t : aexp) :
  literals_ok t ->
  arith (S depth) e (text t) = match den t with inr v => AOk e v | inl m => AErr e m end.
Proof. intros Hl. unfold arith. cbn [evaluate_string]. by apply evaluate_text. Qed.

Definition sample : aexp :=
  Bin B_SUB (Bin B_SUB (Num 10) (Un U_NEG (Num 3)))
    (Bin B_EXP (Num 2) (Bin B_EXP (Cond (Num 0) (Num 1) (Num 3)) (Num 2))).

Lemma arith_evaluates_witness :
  text sample = lit "10 - - 3 - 2 ** ( 0 ? 1 : 3 ) ** 2 " /\
  arith 1 (∅ : gmap cstr cstr) (text sample) = AOk ∅ (-499).
Proof.
  split; [reflexivity|].
  refine (eq_trans (arith_evaluates (∅ : gmap cstr cstr) 0 sample _) eq_refl).
  cbn. lia.
Defined.
