(* ===== verification/Doom.v ===== *)
(** * pkgs/doom/doomgeneric_osmoap.c: DOOM on a terminal

    [Keys]: the keyboard.  A terminal sends no key-up events, so a key counts as
    held until [g_hold_ms] after its last byte; presses go through a 64-slot ring
    and releases are synthesized.  The state is the one of the file (two arrays
    and three indices); the theorem is that the game sees, for every key, presses
    and releases in turn.
    [Video]: the frame as half-block cells, its sampling rectangles and the size
    of the emitted text.
    The key codes are those of doomkeys.h, which is not part of the repository:
    they are parameters (class [DoomKeys]). *)

From Stdlib Require Import Ascii String ZArith Lia.
From stdpp Require Import base gmap list strings.
From S2P Require Import Prelude Clib.

Local Open Scope Z_scope.

Class DoomKeys := {
  KEY_UPARROW : Z; KEY_DOWNARROW : Z; KEY_LEFTARROW : Z; KEY_RIGHTARROW : Z;
  KEY_STRAFE_L : Z; KEY_STRAFE_R : Z; KEY_FIRE : Z; KEY_USE : Z; KEY_RSHIFT : Z;
  KEY_ENTER : Z; KEY_TAB : Z; KEY_ESCAPE : Z;
}.

(** ** Time *)

Module Time.

(** [clock_gettime]'s two fields to the 32-bit millisecond counter. *)
Definition DG_GetTicksMs (tv_sec tv_nsec : Z) : Z :=
  wrapU 32 (wrapU 64 (wrapU 64 (tv_sec * 1000) + tv_nsec / 1000000)).

(** The [timespec] given to [nanosleep]. *)
Definition DG_SleepMs (ms : Z) : Z * Z := (ms / 1000, (ms mod 1000) * 1000000).

End Time.

(** ** Keyboard *)

Module Keys.
Section Keys.
Context `{DoomKeys}.

Definition HELD_MAX : nat := 16.

Record state := mk_state {
  g_held : list (Z * Z);     (* HELD_MAX entries: key, time of its last byte *)
  g_nheld : nat;
  g_evq : list Z;            (* 64 entries *)
  g_evh : Z;
  g_evt : Z;
}.

Definition init : state := mk_state (replicate HELD_MAX (0, 0)) 0 (replicate 64 0) 0 0.

Definition ev_push (st : state) (k : Z) : state :=
  let nt := Z.land (g_evt st + 1) 63 in
  if negb (nt =? g_evh st)
  then mk_state (g_held st) (g_nheld st) (<[Z.to_nat (g_evt st) := k]> (g_evq st)) (g_evh st) nt
  else st.

(** The first of the [n] entries from index [i] on that satisfies [f]. *)
Fixpoint find_held (f : Z * Z -> bool) (held : list (Z * Z)) (n : nat) (i : nat) : option nat :=
  match n, held with
  | S n', x :: held' => if f x then Some i else find_held f held' n' (S i)
  | _, _ => None
  end.

Definition key_touch (st : state) (k now : Z) : state :=
  match find_held (fun x => x.1 =? k) (g_held st) (g_nheld st) 0 with
  | Some i => mk_state (<[i := (k, now)]> (g_held st)) (g_nheld st) (g_evq st) (g_evh st) (g_evt st)
  | None =>
      if (g_nheld st <? HELD_MAX)%nat then
        ev_push (mk_state (<[g_nheld st := (k, now)]> (g_held st)) (S (g_nheld st))
                   (g_evq st) (g_evh st) (g_evt st)) k
      else st
  end.

Definition is_ch (c : Z) (a : ascii) : bool := c =? uc a.

Definition map_key (c : Z) : Z :=
  if is_ch c "w" || is_ch c "W" then KEY_UPARROW
  else if is_ch c "s" || is_ch c "S" then KEY_DOWNARROW
  else if is_ch c "a" || is_ch c "A" then KEY_STRAFE_L
  else if is_ch c "d" || is_ch c "D" then KEY_STRAFE_R
  else if is_ch c " " then KEY_FIRE
  else if is_ch c "e" || is_ch c "E" then KEY_USE
  else if is_ch c "r" || is_ch c "R" then KEY_RSHIFT
  else if is_ch c CR || is_ch c NL then KEY_ENTER
  else if is_ch c TAB then KEY_TAB
  else if ((uc "1" <=? c) && (c <=? uc "8")) || is_ch c "y" || is_ch c "n" || is_ch c "p"
  then wrapU 8 c
  else 0.

(** The results of successive [rd_byte] calls: [None] is -1 (nothing within the
    timeout, or end of input), as is the end of the list. *)
Abbreviation input := (list (option Z)).

Definition rd_byte (inp : input) : option Z * input :=
  match inp with
  | [] => (None, [])
  | r :: inp' => (r, inp')
  end.

Definition csi_key (c : option Z) : Z :=
  match c with
  | None => 0
  | Some c => if is_ch c "A" then KEY_UPARROW
              else if is_ch c "B" then KEY_DOWNARROW
              else if is_ch c "C" then KEY_RIGHTARROW
              else if is_ch c "D" then KEY_LEFTARROW
              else 0
  end.

Definition touch_nonzero (st : state) (k now : Z) : state :=
  if negb (k =? 0) then key_touch st k now else st.

(** The key a byte stands for (reading the rest of an escape sequence), and the
    input left. *)
Definition read_key (c : Z) (inp : input) : Z * input :=
  if c =? 0x1b then
    let '(c2, inp) := rd_byte inp in
    match c2 with
    | None => (KEY_ESCAPE, inp)
    | Some c2 => if is_ch c2 "[" then let '(c3, inp) := rd_byte inp in (csi_key c3, inp)
                 else (map_key c2, inp)
    end
  else (map_key c, inp).

(** [pump_input]; [None]: [exit(0)] on ^C.  Every turn consumes a result of
    [rd_byte], so their number is enough fuel. *)
Fixpoint pump_loop (fuel : nat) (st : state) (inp : input) (now : Z) : option (state * input) :=
  match fuel with
  | O => Some (st, inp)
  | S f =>
      let '(c, inp) := rd_byte inp in
      match c with
      | None => Some (st, inp)
      | Some c => if c =? 0x03 then None
                  else let '(k, inp) := read_key c inp in pump_loop f (touch_nonzero st k now) inp now
      end
  end.
Definition pump_input (st : state) (inp : input) (now : Z) : option (state * input) :=
  pump_loop (S (length inp)) st inp now.

(** What [DG_GetKey] reports. *)
Inductive event := Press (k : Z) | Release (k : Z).

Definition get_event (hold_ms : Z) (st : state) (now : Z) : state * option event :=
  if negb (g_evh st =? g_evt st) then
    (mk_state (g_held st) (g_nheld st) (g_evq st) (Z.land (g_evh st + 1) 63) (g_evt st),
     Some (Press (nth (Z.to_nat (g_evh st)) (g_evq st) 0)))
  else
    match find_held (fun x => wrapU 32 (now - x.2) >? hold_ms) (g_held st) (g_nheld st) 0 with
    | Some i =>
        let n := pred (g_nheld st) in
        (mk_state (<[i := nth n (g_held st) (0, 0)]> (g_held st)) n (g_evq st) (g_evh st) (g_evt st),
         Some (Release (nth i (g_held st) (0, 0)).1))
    | None => (st, None)
    end.

Definition DG_GetKey (hold_ms : Z) (st : state) (inp : input) (now : Z) : option (state * input * option event) :=
  match pump_input st inp now with
  | None => None
  | Some (st, inp) => let '(st, ev) := get_event hold_ms st now in Some (st, inp, ev)
  end.

(** ** The ring as a queue, the array as a set of held keys *)

Definition held_keys (st : state) : list Z := (take (g_nheld st) (g_held st)).*1.

Definition slot (st : state) (i : nat) : Z :=
  nth (Z.to_nat (Z.land (g_evh st + Z.of_nat i) 63)) (g_evq st) 0.
Definition qlen (st : state) : nat := Z.to_nat (Z.land (g_evt st - g_evh st) 63).
Definition queue (st : state) : list Z := slot st <$> seq 0 (qlen st).

(** The pending presses are distinct held keys, so the ring never fills up. *)
Record wf (st : state) : Prop := mk_wf {
  wf_held : length (g_held st) = HELD_MAX;
  wf_nheld : (g_nheld st <= HELD_MAX)%nat;
  wf_evq : length (g_evq st) = 64%nat;
  wf_evh : 0 <= g_evh st < 64;
  wf_evt : 0 <= g_evt st < 64;
  wf_keys : NoDup (held_keys st);
  wf_queue : NoDup (queue st);
  wf_sub : forall k, k ∈ queue st -> k ∈ held_keys st;
}.

(** The keys the game has seen pressed and not released. *)
Definition down (st : state) (k : Z) : Prop := k ∈ held_keys st /\ k ∉ queue st.

Lemma land63 z : Z.land z 63 = z mod 64.
Proof. change 63 with (Z.ones 6). by rewrite Z.land_ones by lia. Qed.

Lemma land63_range z : 0 <= Z.land z 63 < 64.
Proof. rewrite land63. apply Z.mod_pos_bound. lia. Qed.

Lemma init_wf : wf init.
Proof. constructor; try done; try (simpl; lia); try apply NoDup_nil_2; by intros k ?%elem_of_nil. Qed.

Lemma queue_length st : length (queue st) = qlen st.
Proof. unfold queue. by rewrite length_fmap, length_seq. Qed.

Lemma held_keys_length st : wf st -> length (held_keys st) = g_nheld st.
Proof. intros []. unfold held_keys. rewrite length_fmap, length_take. lia. Qed.

(** At most 16 presses wait. *)
Lemma queue_short st : wf st -> (qlen st <= 16)%nat.
Proof.
  intros Hw. rewrite <- queue_length. transitivity (length (held_keys st)).
  - apply submseteq_length, NoDup_submseteq; [apply Hw|]. intros k. apply Hw.
  - rewrite held_keys_length by done. apply Hw.
Qed.

Lemma ring_index h t i :
  0 <= h < 64 -> 0 <= t < 64 -> 0 <= i < Z.land (t - h) 63 -> Z.land (h + i) 63 <> t.
Proof.
  rewrite !land63. intros Hh Ht Hi Heq.
  pose proof (Z.div_mod (t - h) 64 ltac:(lia)). pose proof (Z.div_mod (h + i) 64 ltac:(lia)).
  pose proof (Z.mod_pos_bound (t - h) 64 ltac:(lia)). lia.
Qed.

(** A push that does not overflow appends; a pop removes the first. *)
Lemma ev_push_queue st k :
  0 <= g_evh st < 64 -> 0 <= g_evt st < 64 -> length (g_evq st) = 64%nat -> (qlen st < 63)%nat ->
  queue (ev_push st k) = queue st ++ [k] /\ g_held (ev_push st k) = g_held st /\
  g_nheld (ev_push st k) = g_nheld st /\ g_evh (ev_push st k) = g_evh st /\
  0 <= g_evt (ev_push st k) < 64 /\ length (g_evq (ev_push st k)) = 64%nat.
Proof.
  intros Hh Ht Hl Hq. unfold qlen in Hq. rewrite land63 in Hq.
  pose proof (Z.mod_pos_bound (g_evt st - g_evh st) 64 ltac:(lia)) as Hm.
  pose proof (Z.div_mod (g_evt st - g_evh st) 64 ltac:(lia)) as Hd.
  pose proof (Z.div_mod (g_evt st + 1) 64 ltac:(lia)) as Hd1.
  pose proof (Z.mod_pos_bound (g_evt st + 1) 64 ltac:(lia)) as Hm1.
  assert (((g_evt st + 1) mod 64 - g_evh st) mod 64 = (g_evt st - g_evh st) mod 64 + 1) as Hn.
  { rewrite Zminus_mod_idemp_l. symmetry. apply (Z.mod_unique_pos _ _ ((g_evt st - g_evh st) / 64)); lia. }
  unfold ev_push. rewrite land63.
  destruct (Z.eqb_spec ((g_evt st + 1) mod 64) (g_evh st)) as [E|E].
  { exfalso. rewrite E, Z.sub_diag in Hn. change (0 mod 64) with 0 in Hn. lia. }
  cbn [negb g_held g_nheld g_evh g_evt g_evq]. rewrite length_insert.
  split; [|repeat split; done || lia].
  unfold queue, qlen. cbn [g_evh g_evt]. rewrite !land63, Hn, Z2Nat.inj_add by lia.
  rewrite seq_app, fmap_app. simpl. f_equal.
  - apply list_fmap_ext. intros i x Hx. apply lookup_seq in Hx as [-> Hx]. unfold slot. simpl.
    rewrite !nth_lookup, list_lookup_insert_ne; [done|].
    pose proof (ring_index (g_evh st) (g_evt st) (Z.of_nat i) Hh Ht ltac:(rewrite land63; lia)).
    pose proof (land63_range (g_evh st + Z.of_nat i)). lia.
  - unfold slot. simpl. rewrite land63. replace (_ mod 64) with (g_evt st).
    + by rewrite nth_lookup, list_lookup_insert_eq by lia.
    + rewrite Z2Nat.id by lia. rewrite <- (Z.mod_small (g_evt st) 64) at 1 by lia.
      rewrite Zplus_mod_idemp_r. f_equal. lia.
Qed.

Definition pop (st : state) : state :=
  mk_state (g_held st) (g_nheld st) (g_evq st) (Z.land (g_evh st + 1) 63) (g_evt st).

Lemma pop_queue st :
  0 <= g_evh st < 64 -> 0 <= g_evt st < 64 -> g_evh st <> g_evt st ->
  queue st = nth (Z.to_nat (g_evh st)) (g_evq st) 0 :: queue (pop st).
Proof.
  intros Hh Ht Hne.
  pose proof (Z.mod_pos_bound (g_evt st - g_evh st) 64 ltac:(lia)) as Hm.
  pose proof (Z.div_mod (g_evt st - g_evh st) 64 ltac:(lia)) as Hd.
  assert ((g_evt st - (g_evh st + 1) mod 64) mod 64 = (g_evt st - g_evh st) mod 64 - 1) as Hn.
  { rewrite Zminus_mod_idemp_r. symmetry. apply (Z.mod_unique_pos _ _ ((g_evt st - g_evh st) / 64)); lia. }
  unfold queue, qlen, pop. cbn [g_evh g_evt]. rewrite !land63, Hn.
  replace (Z.to_nat ((g_evt st - g_evh st) mod 64)) with
    (S (Z.to_nat ((g_evt st - g_evh st) mod 64 - 1))) by lia.
  cbn [seq fmap list_fmap]. f_equal.
  - unfold slot. by rewrite Z.add_0_r, land63, Z.mod_small by lia.
  - rewrite <- fmap_S_seq, <- list_fmap_compose. apply list_fmap_ext. intros i x _.
    unfold slot, compose. cbn [g_evh g_evq]. rewrite !land63, Zplus_mod_idemp_l.
    do 3 f_equal. lia.
Qed.

Lemma NoDup_snoc (l : list Z) k : NoDup l -> k ∉ l -> NoDup (l ++ [k]).
Proof.
  intros Hl Hk. apply NoDup_app. split; [done|]. split; [|apply NoDup_singleton].
  intros x Hx ->%list_elem_of_singleton. done.
Qed.

Lemma find_held_some f held n i j :
  find_held f held n i = Some j ->
  exists x, (i <= j < i + n)%nat /\ held !! (j - i)%nat = Some x /\ f x = true.
Proof.
  revert held i. induction n as [|n IH]; intros [|x held] i Hf; try done. cbn [find_held] in Hf.
  destruct (f x) eqn:Ef.
  - injection Hf as <-. exists x. rewrite Nat.sub_diag. split; [lia|done].
  - apply IH in Hf as (y & Hj & Hl & Hy). exists y. split; [lia|]. split; [|done].
    replace (j - i)%nat with (S (j - S i)) by lia. done.
Qed.

Lemma find_held_none f held n i :
  find_held f held n i = None -> forall x, x ∈ take n held -> f x = false.
Proof.
  revert held i. induction n as [|n IH]; intros [|x held] i Hf y Hy; try (by apply elem_of_nil in Hy).
  cbn [find_held take] in *. destruct (f x) eqn:Ef; [done|].
  apply elem_of_cons in Hy as [->|Hy]; [done|]. by eapply IH.
Qed.

(** Refreshing a held key changes times only. *)
Lemma refresh_keys (held : list (Z * Z)) i k now n x :
  held !! i = Some x -> x.1 = k -> (take n (<[i := (k, now)]> held)).*1 = (take n held).*1.
Proof.
  intros Hx Hk. rewrite !fmap_take, list_fmap_insert. simpl. f_equal. apply list_insert_id.
  by rewrite list_lookup_fmap, Hx, <- Hk.
Qed.

Lemma key_touch_wf st k now :
  wf st -> wf (key_touch st k now) /\ forall k', down (key_touch st k now) k' <-> down st k'.
Proof.
  intros Hw. pose proof (queue_short st Hw) as Hq. destruct Hw as [H1 H2 H3 H4 H5 H6 H7 H8].
  unfold key_touch. destruct (find_held _ _ _ _) as [i|] eqn:Ef.
  - apply find_held_some in Ef as (x & Hi & Hl & Hx). rewrite Nat.sub_0_r in Hl. bool_prop.
    set (st' := mk_state _ _ _ _ _).
    assert (held_keys st' = held_keys st) as Hk by (by apply (refresh_keys _ _ _ _ _ x)).
    assert (queue st' = queue st) as Hqu by done.
    split.
    + constructor; try done; try (by rewrite ?Hk, ?Hqu). simpl. by rewrite length_insert.
    + intros k'. unfold down. by rewrite Hk, Hqu.
  - destruct (Nat.ltb_spec (g_nheld st) HELD_MAX) as [Hn|Hn]; [|done].
    set (st1 := mk_state (<[g_nheld st := (k, now)]> (g_held st)) _ _ _ _).
    assert (held_keys st1 = held_keys st ++ [k]) as Hk.
    { unfold held_keys, st1. cbn [g_held g_nheld].
      rewrite (take_S_r _ _ (k, now)) by (apply list_lookup_insert_eq; lia).
      rewrite fmap_app, take_insert_ge by lia. done. }
    assert (k ∉ held_keys st) as Hnk.
    { unfold held_keys. intros (x & -> & Hin)%list_elem_of_fmap.
      pose proof (find_held_none _ _ _ _ Ef x Hin) as Hf. simpl in Hf. by rewrite Z.eqb_refl in Hf. }
    assert (queue st1 = queue st) as Hqu by done.
    destruct (ev_push_queue st1 k) as (Q1 & Q2 & Q3 & Q4 & Q5 & Q6); [done..|change (qlen st1) with (qlen st); lia|].
    assert (held_keys (ev_push st1 k) = held_keys st ++ [k]) as Hk' by (unfold held_keys at 1; by rewrite Q2, Q3).
    rewrite Hqu in Q1. split.
    + constructor; rewrite ?Hk', ?Q1, ?Q2, ?Q3, ?Q4; try done.
      * simpl. by rewrite length_insert.
      * by apply NoDup_snoc.
      * apply NoDup_snoc; [done|]. auto.
      * intros k'. rewrite !elem_of_app. intros [?|?]; auto.
    + intros k'. unfold down. rewrite Hk', Q1, not_elem_of_app, elem_of_app, list_elem_of_singleton.
      split; [|intros [? ?]; repeat split; auto; by intros ->]. tauto.
Qed.

Lemma touch_wf st k now :
  wf st -> wf (touch_nonzero st k now) /\ forall k', down (touch_nonzero st k now) k' <-> down st k'.
Proof. intros Hw. unfold touch_nonzero. case_goal; [by apply key_touch_wf|done]. Qed.

Lemma pump_wf fuel st inp now st' inp' :
  wf st -> pump_loop fuel st inp now = Some (st', inp') ->
  wf st' /\ forall k, down st' k <-> down st k.
Proof.
  revert st inp. induction fuel as [|f IH]; intros st inp Hw; cbn [pump_loop]; [by intros [= <- <-]|].
  destruct (rd_byte inp) as [[c|] inp1]; [|by intros [= <- <-]].
  case_goal; [done|]. destruct (read_key c inp1) as [k inp2]. intros Hp.
  destruct (touch_wf st k now Hw) as [Hw1 Hd]. destruct (IH _ _ Hw1 Hp) as [Hw2 Hd2].
  split; [done|]. intros k'. by rewrite Hd2.
Qed.

(** The loop ends: it never runs out of fuel. *)
Lemma pump_fuel f1 f2 st inp now :
  (length inp < f1)%nat -> (length inp < f2)%nat ->
  pump_loop f1 st inp now = pump_loop f2 st inp now.
Proof.
  revert f2 st inp. induction f1 as [|f1 IH]; intros [|f2] st inp H1 H2; try lia. cbn [pump_loop].
  destruct inp as [|[c|] inp]; try done. cbn [rd_byte]. case_goal; [done|].
  destruct (read_key c inp) as [k inp2] eqn:Er.
  assert (length inp2 <= length inp)%nat.
  { revert Er. unfold read_key, rd_byte. repeat case_match; intros; simplify_eq; simpl; lia. }
  simpl in *. apply IH; lia.
Qed.

(** Replacing an entry by the last one removes its key. *)
Lemma swap_remove (held : list (Z * Z)) n i :
  (i < n <= length held)%nat -> NoDup (take n held).*1 ->
  let ks := (take n held).*1 in
  let ks' := (take (pred n) (<[i := nth (pred n) held (0, 0)]> held)).*1 in
  NoDup ks' /\ forall k, k ∈ ks' <-> k ∈ ks /\ k <> (nth i held (0, 0)).1.
Proof.
  intros Hi Hn. cbv zeta.
  destruct (lookup_lt_is_Some_2 held (pred n)) as [y Hy]; [lia|].
  destruct (lookup_lt_is_Some_2 held i) as [x Hx]; [lia|].
  rewrite !nth_lookup, Hx, Hy. simpl.
  assert (take n held = take (pred n) held ++ [y]) as Et.
  { destruct n; [lia|]. by apply take_S_r. }
  rewrite Et, fmap_app in Hn |- *. cbn in Hn |- *. set (n' := pred n) in *.
  destruct (decide (i = n')) as [->|Hne].
  - assert (x = y) as -> by congruence. rewrite take_insert_ge by lia.
    apply NoDup_app in Hn as (H1 & H2 & _). split; [done|]. intros k. set_solver.
  - rewrite take_insert_lt by lia.
    assert (take n' held !! i = Some x) as Hx' by (rewrite lookup_take_lt by lia; done).
    rewrite insert_take_drop by (by eapply lookup_lt_Some).
    pose proof (take_drop_middle _ _ _ Hx') as Em.
    set (A := take i (take n' held)) in *. set (B := drop (S i) (take n' held)) in *.
    rewrite <- Em in Hn |- *. rewrite !fmap_app, !fmap_cons in *. clear -Hn.
    rewrite <- app_assoc in *. cbn [app] in *.
    assert (A.*1 ++ x.1 :: B.*1 ++ [y.1] ≡ₚ x.1 :: A.*1 ++ y.1 :: B.*1) as Hp.
    { by rewrite (Permutation_app_comm B.*1 [y.1]), <- Permutation_middle. }
    rewrite Hp in Hn. apply NoDup_cons in Hn as [Hx Hn]. split; [done|]. intros k. rewrite Hp.
    set_solver.
Qed.

(** What one event does to the keys that are down. *)
Definition event_ok (st st' : state) (ev : option event) : Prop :=
  match ev with
  | Some (Press k) => ~ down st k /\ forall k', down st' k' <-> down st k' \/ k' = k
  | Some (Release k) => down st k /\ forall k', down st' k' <-> down st k' /\ k' <> k
  | None => st' = st
  end.

Lemma press_ok st :
  wf st -> g_evh st <> g_evt st ->
  wf (pop st) /\ event_ok st (pop st) (Some (Press (nth (Z.to_nat (g_evh st)) (g_evq st) 0))).
Proof.
  intros [H1 H2 H3 H4 H5 H6 H7 H8] Hne. pose proof (pop_queue st H4 H5 Hne) as Hq.
  set (k := nth _ (g_evq st) 0) in *. rewrite Hq in H7, H8. apply NoDup_cons in H7 as [Hk H7].
  assert (held_keys (pop st) = held_keys st) as Hh by done.
  split.
  - constructor; try done; [apply land63_range|]. intros k' Hk'. rewrite Hh. apply H8. by right.
  - unfold event_ok, down. rewrite Hh, Hq. split; [rewrite not_elem_of_cons; tauto|]. intros k'.
    assert (k ∈ held_keys st) as Hin by (apply H8; by left). rewrite not_elem_of_cons.
    destruct (decide (k' = k)) as [->|?]; tauto.
Qed.

Lemma release_ok st i :
  wf st -> g_evh st = g_evt st -> (i < g_nheld st)%nat ->
  let n := pred (g_nheld st) in
  let st' := mk_state (<[i := nth n (g_held st) (0, 0)]> (g_held st)) n (g_evq st) (g_evh st) (g_evt st) in
  wf st' /\ event_ok st st' (Some (Release (nth i (g_held st) (0, 0)).1)).
Proof.
  intros [H1 H2 H3 H4 H5 H6 H7 H8] Hne Hi n st'.
  assert (queue st = [] /\ queue st' = []) as [Hq Hq'].
  { unfold queue, qlen, st'. cbn [g_evh g_evt]. by rewrite Hne, Z.sub_diag. }
  destruct (swap_remove (g_held st) (g_nheld st) i) as [Hnd Hin]; [lia|done|].
  change (take (pred (g_nheld st)) _).*1 with (held_keys st') in Hnd, Hin.
  change (take (g_nheld st) (g_held st)).*1 with (held_keys st) in Hin.
  split.
  - constructor; rewrite ?Hq'; try done; [simpl; by rewrite length_insert|simpl; lia|apply NoDup_nil_2|].
    intros k ?%elem_of_nil. done.
  - unfold event_ok, down. rewrite Hq, Hq'. split; [split|].
    + unfold held_keys. apply list_elem_of_fmap. exists (nth i (g_held st) (0, 0)). split; [done|].
      apply (list_elem_of_lookup_2 _ i). rewrite lookup_take_lt by lia.
      rewrite nth_lookup. destruct (lookup_lt_is_Some_2 (g_held st) i) as [x Hx]; [lia|]. by rewrite Hx.
    + apply not_elem_of_nil.
    + intros k. rewrite Hin. pose proof (not_elem_of_nil k). tauto.
Qed.

Lemma get_event_ok hold st now st' ev :
  wf st -> get_event hold st now = (st', ev) -> wf st' /\ event_ok st st' ev.
Proof.
  intros Hw. unfold get_event. destruct (Z.eqb_spec (g_evh st) (g_evt st)) as [He|He]; cbn [negb].
  - destruct (find_held _ _ _ _) as [i|] eqn:Ef; intros [= <- <-]; [|done].
    apply find_held_some in Ef as (x & Hi & _). apply release_ok; [done..|lia].
  - intros [= <- <-]. by apply press_ok.
Qed.

(** The events of a sequence of [DG_GetKey] calls at the times [nows]. *)
Fixpoint trace (hold_ms : Z) (st : state) (inp : input) (nows : list Z) : list event :=
  match nows with
  | [] => []
  | now :: nows' =>
      match DG_GetKey hold_ms st inp now with
      | None => []
      | Some (st, inp, None) => trace hold_ms st inp nows'
      | Some (st, inp, Some ev) => ev :: trace hold_ms st inp nows'
      end
  end.

(** Presses of keys that are up, releases of keys that are down. *)
Fixpoint alternates (d : gset Z) (evs : list event) : bool :=
  match evs with
  | [] => true
  | Press k :: r => bool_decide (k ∉ d) && alternates ({[k]} ∪ d) r
  | Release k :: r => bool_decide (k ∈ d) && alternates (d ∖ {[k]}) r
  end.

Lemma trace_alternates hold st inp nows d :
  wf st -> (forall k, k ∈ d <-> down st k) -> alternates d (trace hold st inp nows) = true.
Proof.
  revert st inp d. induction nows as [|now nows IH]; intros st inp d Hw Hd; [done|]. cbn [trace].
  unfold DG_GetKey, pump_input.
  destruct (pump_loop _ st inp now) as [[st1 inp1]|] eqn:Ep; [|done].
  destruct (pump_wf _ _ _ _ _ _ Hw Ep) as [Hw1 Hd1].
  destruct (get_event hold st1 now) as [st2 ev] eqn:Eg.
  destruct (get_event_ok _ _ _ _ _ Hw1 Eg) as [Hw2 He].
  destruct ev as [[k|k]|]; cbn [alternates event_ok] in *.
  - destruct He as [Hk He]. rewrite bool_decide_eq_true_2 by (by rewrite Hd, <- Hd1). cbn [andb].
    apply IH; [done|]. intros k'. rewrite elem_of_union, elem_of_singleton, Hd, He, Hd1. tauto.
  - destruct He as [Hk He]. rewrite bool_decide_eq_true_2 by (by rewrite Hd, <- Hd1). cbn [andb].
    apply IH; [done|]. intros k'. rewrite elem_of_difference, elem_of_singleton, Hd, He, Hd1. tauto.
  - subst st2. apply IH; [done|]. intros k. by rewrite Hd, Hd1.
Qed.

(** C26. Whatever bytes arrive and whenever [DG_GetKey] is called, the game sees
    for every key presses and releases strictly in turn, starting with a press:
    no press is lost to a full ring (at most 16 of its 64 slots are ever used),
    no key is reported pressed twice and no key is released that is not down. *)
Theorem keys_alternate hold_ms inp nows : alternates ∅ (trace hold_ms init inp nows) = true.
Proof.
  apply trace_alternates; [apply init_wf|]. intros k. unfold down. split; [set_solver|].
  intros [Hk _]. by apply elem_of_nil in Hk.
Qed.

(** C27. A key is released: with no press waiting, a held key whose last byte is
    more than [hold_ms] old makes the next call report the release of an expired
    key, and the number of held keys goes down. *)
Theorem expired_released hold_ms st now key last :
  wf st -> queue st = [] -> (key, last) ∈ take (g_nheld st) (g_held st) ->
  wrapU 32 (now - last) > hold_ms ->
  exists st' k l, get_event hold_ms st now = (st', Some (Release k)) /\
    (k, l) ∈ take (g_nheld st) (g_held st) /\ wrapU 32 (now - l) > hold_ms /\ S (g_nheld st') = g_nheld st.
Proof.
  intros Hw Hq Hin Hexp.
  assert (g_evh st = g_evt st) as He.
  { destruct (decide (g_evh st = g_evt st)) as [?|Hne]; [done|].
    pose proof (pop_queue st (wf_evh _ Hw) (wf_evt _ Hw) Hne) as Hp. rewrite Hq in Hp. done. }
  unfold get_event. rewrite He, Z.eqb_refl. cbn [negb].
  destruct (find_held _ _ _ _) as [i|] eqn:Ef.
  - apply find_held_some in Ef as ([k l] & Hi & Hl & Hx). rewrite Nat.sub_0_r in Hl.
    rewrite Z.gtb_ltb in Hx. bool_prop. assert ((nth i (g_held st) (0, 0)).1 = k) as <- by (by rewrite nth_lookup, Hl).
    eexists _, _, l. split; [reflexivity|]. rewrite nth_lookup, Hl. simpl in *.
    split; [|split; lia]. apply (list_elem_of_lookup_2 _ i). by rewrite lookup_take_lt by lia.
  - pose proof (find_held_none _ _ _ _ Ef _ Hin) as Hf. simpl in Hf. rewrite Z.gtb_ltb in Hf. bool_prop. lia.
Qed.

End Keys.
End Keys.

Definition held_state : Keys.state :=
  Keys.mk_state (<[0%nat := (65, 0)]> (replicate 16 (0, 0))) 1 (replicate 64 0) 5 5.

Lemma expired_released_witness :
  exists st' k l, Keys.get_event 550 held_state 600 = (st', Some (Keys.Release k)) /\
    (k, l) ∈ take (Keys.g_nheld held_state) (Keys.g_held held_state) /\ wrapU 32 (600 - l) > 550 /\
    S (Keys.g_nheld st') = Keys.g_nheld held_state.
Proof.
  apply (Keys.expired_released 550 held_state 600 65 0).
  - constructor; try done; try (vm_compute; lia).
    + apply NoDup_singleton.
    + apply NoDup_nil_2.
    + intros k Hk. by apply elem_of_nil in Hk.
  - reflexivity.
  - vm_compute. left.
  - vm_compute. reflexivity.
Defined.

(** ** Video *)

Lemma in_seq_256 n : (n < 256)%nat -> n ∈ seq 0 256.
Proof. intros. apply elem_of_seq. lia. Qed.

Module Video.

(** build.sh compiles with these. *)
Definition DOOMGENERIC_RESX : Z := 320.
Definition DOOMGENERIC_RESY : Z := 200.

(** [if ((e = getenv(..)) && atoi(e) > min) g = atoi(e);] *)
Definition env_int (e : option cstr) (min dflt : Z) : Z :=
  match e with
  | Some s => if atoi s >? min then atoi s else dflt
  | None => dflt
  end.

(** The globals [DG_Init] sets. *)
Record video := mk_video {
  g_cols : Z;
  g_rows : Z;
  g_throttle_ms : Z;
  g_hold_ms : Z;
  g_xe : list Z;
  g_ye : list Z;
  g_out_size : Z;
}.

(** [for (i = 0; i <= n; i++) e[i] = i * RES / n;] on 32-bit integers. *)
Definition edges (res n : Z) : list Z :=
  (fun i => Z.quot (wrapS 32 (Z.of_nat i * res)) n) <$> seq 0 (S (Z.to_nat n)).

Definition DG_Init (columns lines fps_ms hold_ms : option cstr) : video :=
  let g_cols := env_int columns 19 80 in
  let g_rows := env_int lines 9 24 in
  let g_px := g_cols in
  let g_py := wrapS 32 (g_rows * 2) in
  mk_video g_cols g_rows (env_int fps_ms 0 90) (env_int hold_ms 0 550)
    (edges DOOMGENERIC_RESX g_px) (edges DOOMGENERIC_RESY g_py)
    (wrapU 32 (g_cols * g_rows * 48 + g_rows * 8 + 64)).

(** The pixels of a rectangle, row by row: their indices in [DG_ScreenBuffer]. *)
Definition zrange (a b : Z) : list Z := (fun i => a + Z.of_nat i) <$> seq 0 (Z.to_nat (b - a)).
Definition block (x0 x1 y0 y1 : Z) : list Z :=
  y ← zrange y0 y1; (fun x => y * DOOMGENERIC_RESX + x) <$> zrange x0 x1.

Section Draw.
Variable DG_ScreenBuffer : list Z.

Definition pixel (i : Z) : Z := nth (Z.to_nat i) DG_ScreenBuffer 0.

(** The sum of one channel over a block, in an [unsigned]. *)
Definition channel (shift : Z) (bl : list Z) : Z :=
  foldl (fun acc i => wrapU 32 (acc + Z.land (Z.shiftr (pixel i) shift) 255)) 0 bl.

Definition avg_block (x0 x1 y0 y1 : Z) : Z :=
  let bl := block x0 x1 y0 y1 in
  let n := Z.of_nat (length bl) in
  if n =? 0 then 0
  else Z.lor (Z.lor (Z.shiftl (channel 16 bl / n) 16) (Z.shiftl (channel 8 bl / n) 8)) (channel 0 bl / n).

Definition ESC : ascii := "027"%char.
Definition glyph : cstr := ["226"%char; "150"%char; "128"%char].

Definition ch (v shift : Z) : cstr := fmt_d (Z.land (Z.shiftr v shift) 255).

(** The [sprintf] of a colour change. *)
Definition sgr (fg bg : Z) : cstr :=
  [ESC] ++ lit "[38;2;" ++ ch fg 16 ++ lit ";" ++ ch fg 8 ++ lit ";" ++ ch fg 0 ++
  lit ";48;2;" ++ ch bg 16 ++ lit ";" ++ ch bg 8 ++ lit ";" ++ ch bg 0 ++ lit "m".

Variable v : video.

Definition xe (i : nat) : Z := nth i (g_xe v) 0.
Definition ye (i : nat) : Z := nth i (g_ye v) 0.

(** One row of cells from column [c] on; [prev] is the last colour pair. *)
Fixpoint draw_row (r c n : nat) (prev : Z * Z) : cstr * (Z * Z) :=
  match n with
  | O => ([], prev)
  | S n' =>
      let fg := avg_block (xe c) (xe (c + 1)) (ye (2 * r)) (ye (2 * r + 1)) in
      let bg := avg_block (xe c) (xe (c + 1)) (ye (2 * r + 1)) (ye (2 * r + 2)) in
      let change := negb (fg =? prev.1) || negb (bg =? prev.2) in
      let prev := if change then (fg, bg) else prev in
      let '(rest, prev) := draw_row r (c + 1) n' prev in
      ((if change then sgr fg bg else []) ++ glyph ++ rest, prev)
  end.

Fixpoint draw_rows (r n : nat) (prev : Z * Z) : cstr :=
  match n with
  | O => []
  | S n' =>
      let '(row, prev) := draw_row r 0 (Z.to_nat (g_cols v)) prev in
      row ++ (if negb (Z.of_nat r =? g_rows v - 1) then [CR; NL] else []) ++ draw_rows (r + 1) n' prev
  end.

Definition frame : cstr := [ESC] ++ lit "[H" ++ draw_rows 0 (Z.to_nat (g_rows v)) (-1, -1).

(** [DG_DrawFrame]: what is written and the new [g_last_ms]. *)
Definition DG_DrawFrame (g_last_ms now : Z) : option cstr * Z :=
  if wrapU 32 (now - g_last_ms) <? wrapU 32 (g_throttle_ms v) then (None, g_last_ms)
  else (Some frame, now).

End Draw.

(** [DG_SetWindowTitle]: the 128-byte buffer after [snprintf] (the text cut to
    127 characters and its NUL) and the number of bytes given to [write]. *)
Definition DG_SetWindowTitle (title : cstr) : cstr * Z :=
  let text := [ESC] ++ lit "]0;" ++ title ++ ["007"%char] in
  (take 127 text ++ [NUL], Z.of_nat (length text)).

(** ** Size of a frame *)

Lemma byte_decimal_short z : 0 <= z < 256 -> (length (fmt_d z) <= 3)%nat.
Proof.
  intros Hz. rewrite <- (Z2Nat.id z) by lia. assert (Z.to_nat z < 256)%nat as Hn by lia. clear Hz.
  revert Hn. generalize (Z.to_nat z) as n. clear z. intros n Hn. apply in_seq_256 in Hn.
  revert n Hn. apply Forall_forall. by_eval.
Qed.

Lemma ch_short v shift : (length (ch v shift) <= 3)%nat.
Proof.
  apply byte_decimal_short. change 255 with (Z.ones 8). rewrite Z.land_ones by lia.
  apply Z.mod_pos_bound. lia.
Qed.

Lemma sgr_short fg bg : (length (sgr fg bg) <= 36)%nat.
Proof.
  unfold sgr. rewrite !length_app. simpl.
  pose proof (ch_short fg 16). pose proof (ch_short fg 8). pose proof (ch_short fg 0).
  pose proof (ch_short bg 16). pose proof (ch_short bg 8). pose proof (ch_short bg 0). lia.
Qed.

Lemma draw_row_short sb v r c n prev : (length (draw_row sb v r c n prev).1 <= 39 * n)%nat.
Proof.
  revert c prev. induction n as [|n IH]; intros c prev; cbn [draw_row]; [done|].
  set (fg := avg_block _ _ _ _ _). set (bg := avg_block _ _ _ (ye v (2 * r + 1)) _).
  set (change := _ || _). clearbody fg bg change.
  set (prev' := if change then _ else _). clearbody prev'.
  pose proof (IH (c + 1)%nat prev') as Hr. destruct (draw_row sb v r (c + 1) n prev') as [rest p]. simpl in Hr |- *.
  rewrite !length_app. simpl. pose proof (sgr_short fg bg). destruct change; cbn [length]; lia.
Qed.

Lemma draw_rows_short sb v r n prev :
  (length (draw_rows sb v r n prev) <= n * (39 * Z.to_nat (g_cols v) + 2))%nat.
Proof.
  revert r prev. induction n as [|n IH]; intros r prev; cbn [draw_rows]; [done|].
  pose proof (draw_row_short sb v r 0 (Z.to_nat (g_cols v)) prev) as Hr.
  destruct (draw_row sb v r 0 _ prev) as [row p]. simpl in Hr.
  rewrite !length_app. pose proof (IH (r + 1)%nat p). case_match; simpl; lia.
Qed.

Lemma env_int_gt e min dflt : min < dflt -> min < env_int e min dflt.
Proof. intros Hd. unfold env_int. destruct e; [|done]. case_match; [lia|done]. Qed.

Lemma DG_Init_size columns lines fps_ms hold_ms :
  let v := DG_Init columns lines fps_ms hold_ms in
  19 < g_cols v /\ 9 < g_rows v /\ g_out_size v = wrapU 32 (g_cols v * g_rows v * 48 + g_rows v * 8 + 64).
Proof.
  unfold DG_Init. cbn [g_cols g_rows g_out_size].
  split; [by apply env_int_gt|]. split; [by apply env_int_gt|]. done.
Qed.

(** C28. A frame always fits the buffer [DG_Init] allocated for it, with the NUL
    that [sprintf] adds, for any terminal whose buffer size does not exceed the
    32-bit [size_t] (some 89 million cells). *)
Theorem frame_fits sb columns lines fps_ms hold_ms :
  let v := DG_Init columns lines fps_ms hold_ms in
  g_cols v * g_rows v * 48 + g_rows v * 8 + 64 < 2 ^ 32 ->
  Z.of_nat (length (frame sb v)) + 1 <= g_out_size v.
Proof.
  intros v Hmax. destruct (DG_Init_size columns lines fps_ms hold_ms) as (Hc & Hl & Hs).
  fold v in Hc, Hl, Hs. clearbody v. unfold frame. rewrite !length_app. simpl length.
  rewrite Hs, wrapU_id by (unfold is_u; nia).
  pose proof (draw_rows_short sb v 0 (Z.to_nat (g_rows v)) (-1, -1)) as Hr. nia.
Qed.

Lemma draw_row_long sb v r c n prev : (3 * n <= length (draw_row sb v r c n prev).1)%nat.
Proof.
  revert c prev. induction n as [|n IH]; intros c prev; cbn [draw_row]; [done|].
  set (fg := avg_block _ _ _ _ _). set (bg := avg_block _ _ _ (ye v (2 * r + 1)) _).
  set (change := _ || _). clearbody fg bg change.
  set (prev' := if change then _ else _). clearbody prev'.
  pose proof (IH (c + 1)%nat prev') as Hr. destruct (draw_row sb v r (c + 1) n prev') as [rest p]. simpl in Hr |- *.
  rewrite !length_app. simpl. lia.
Qed.

Lemma draw_rows_long sb v r n prev : (n * (3 * Z.to_nat (g_cols v)) <= length (draw_rows sb v r n prev))%nat.
Proof.
  revert r prev. induction n as [|n IH]; intros r prev; cbn [draw_rows]; [done|].
  pose proof (draw_row_long sb v r 0 (Z.to_nat (g_cols v)) prev) as Hr.
  destruct (draw_row sb v r 0 _ prev) as [row p]. simpl in Hr.
  rewrite !length_app. pose proof (IH (r + 1)%nat p). simpl. lia.
Qed.

(** The sizes the environment gives are not checked against overflow: with
    COLUMNS=9500 and LINES=9420 the computed size wraps around, and every frame
    is longer than the buffer allocated for it. *)
Theorem frame_overflows sb fps_ms hold_ms :
  let v := DG_Init (Some (lit "9500")) (Some (lit "9420")) fps_ms hold_ms in
  g_out_size v < Z.of_nat (length (frame sb v)).
Proof.
  intros v. assert (g_cols v = 9500 /\ g_rows v = 9420 /\ g_out_size v = 628128) as (Hc & Hr & Hs) by done.
  clearbody v. unfold frame. rewrite !length_app.
  pose proof (draw_rows_long sb v 0 (Z.to_nat (g_rows v)) (-1, -1)) as Hl. rewrite Hc, Hr in Hl.
  apply Nat2Z.inj_le in Hl. rewrite !Nat2Z.inj_mul, !Z2Nat.id in Hl by lia. rewrite Hs, Hr, !Nat2Z.inj_add. lia.
Qed.

(** ** The sampling rectangles *)

Lemma edges_nth res n i :
  0 <= res -> n * res < 2 ^ 31 -> (i <= Z.to_nat n)%nat -> 0 < n -> nth i (edges res n) 0 = Z.of_nat i * res / n.
Proof.
  intros Hr Hn Hi Hp. unfold edges. rewrite nth_lookup, list_lookup_fmap, lookup_seq_lt by lia. simpl.
  rewrite wrapS_id by (done || (unfold is_s; nia)). apply Z.quot_div_nonneg; lia.
Qed.

Lemma edges_bound res n i :
  0 <= res -> n * res < 2 ^ 31 -> 0 < n -> (i <= Z.to_nat n)%nat -> 0 <= nth i (edges res n) 0 <= res.
Proof.
  intros Hr Hb Hn Hi. rewrite edges_nth by done. split; [apply Z.div_pos; lia|].
  apply Z.div_le_upper_bound; nia.
Qed.

(** Every position lies in exactly one of the half-open intervals. *)
Lemma edges_cover res n x :
  0 <= res -> n * res < 2 ^ 31 -> 0 < n -> 0 <= x < res ->
  exists! i, (i < Z.to_nat n)%nat /\ nth i (edges res n) 0 <= x < nth (S i) (edges res n) 0.
Proof.
  intros Hr Hb Hn Hx.
  (* the largest i with i * res / n <= x, i.e. i * res < (x + 1) * n *)
  set (i := Z.to_nat (((x + 1) * n - 1) / res)).
  pose proof (Z.div_mod ((x + 1) * n - 1) res ltac:(lia)) as Hd.
  pose proof (Z.mod_pos_bound ((x + 1) * n - 1) res ltac:(lia)) as Hm.
  assert (0 <= ((x + 1) * n - 1) / res < n) as Hi.
  { split; [apply Z.div_pos; nia|]. apply Z.div_lt_upper_bound; nia. }
  assert (forall j, (j <= Z.to_nat n)%nat -> nth j (edges res n) 0 <= x <-> Z.of_nat j <= ((x + 1) * n - 1) / res) as Hiff.
  { intros j Hj. rewrite edges_nth by done. split; intros Hle.
    - apply Z.div_le_lower_bound; [lia|].
      pose proof (Z.div_mod (Z.of_nat j * res) n ltac:(lia)).
      pose proof (Z.mod_pos_bound (Z.of_nat j * res) n ltac:(lia)). nia.
    - apply Z.lt_succ_r, Z.div_lt_upper_bound; nia. }
  exists i. split.
  - split; [lia|]. split; [apply Hiff; lia|]. apply Z.nle_gt. rewrite Hiff by lia. lia.
  - intros j [Hj [H1 H2]]. apply Hiff in H1; [|lia].
    assert (~ nth (S j) (edges res n) 0 <= x) as H3 by lia. rewrite Hiff in H3 by lia. lia.
Qed.

Lemma elem_of_zrange a b x : x ∈ zrange a b <-> a <= x < b.
Proof.
  unfold zrange. rewrite list_elem_of_fmap. split.
  - intros (i & -> & Hi%elem_of_seq). lia.
  - intros Hx. exists (Z.to_nat (x - a)). split; [lia|]. apply elem_of_seq. lia.
Qed.

Lemma elem_of_block x0 x1 y0 y1 i :
  i ∈ block x0 x1 y0 y1 <-> exists x y, x0 <= x < x1 /\ y0 <= y < y1 /\ i = y * DOOMGENERIC_RESX + x.
Proof.
  unfold block. rewrite list_elem_of_bind. split.
  - intros (y & (x & -> & Hx)%list_elem_of_fmap & Hy). apply elem_of_zrange in Hx, Hy. by exists x, y.
  - intros (x & y & Hx & Hy & ->). exists y. rewrite elem_of_zrange, list_elem_of_fmap. split; [|done].
    exists x. by rewrite elem_of_zrange.
Qed.

(** The cells tile the screen: for every terminal size up to 5 million
    columns and lines, each pixel of the 320x200 screen is sampled by exactly one
    terminal column and one half-block row, and no rectangle reaches outside
    [DG_ScreenBuffer]. *)
Theorem screen_tiled columns lines fps_ms hold_ms :
  let v := DG_Init columns lines fps_ms hold_ms in
  g_cols v <= 5000000 -> g_rows v <= 5000000 ->
  (forall x, 0 <= x < DOOMGENERIC_RESX ->
     exists! c, (c < Z.to_nat (g_cols v))%nat /\ xe v c <= x < xe v (S c)) /\
  (forall y, 0 <= y < DOOMGENERIC_RESY ->
     exists! p, (p < Z.to_nat (g_rows v * 2))%nat /\ ye v p <= y < ye v (S p)) /\
  (forall c p i, (c < Z.to_nat (g_cols v))%nat -> (p < Z.to_nat (g_rows v * 2))%nat ->
     i ∈ block (xe v c) (xe v (S c)) (ye v p) (ye v (S p)) ->
     0 <= i < DOOMGENERIC_RESX * DOOMGENERIC_RESY).
Proof.
  intros v Hcm Hlm. destruct (DG_Init_size columns lines fps_ms hold_ms) as (Hc & Hl & _). fold v in Hc, Hl.
  assert (g_xe v = edges DOOMGENERIC_RESX (g_cols v)) as Hx by done.
  assert (g_ye v = edges DOOMGENERIC_RESY (wrapS 32 (g_rows v * 2))) as Hy by done.
  rewrite wrapS_id in Hy by (done || (unfold is_s; lia)).
  clearbody v. unfold xe, ye. rewrite Hx, Hy.
  split; [|split].
  - intros x Hx'. apply edges_cover; unfold DOOMGENERIC_RESX in *; lia.
  - intros y Hy'. apply edges_cover; unfold DOOMGENERIC_RESY in *; lia.
  - intros c p i Hci Hpi (x & y & Hxi & Hyi & ->)%elem_of_block.
    assert (forall k, (k <= Z.to_nat (g_cols v))%nat -> 0 <= nth k (edges DOOMGENERIC_RESX (g_cols v)) 0 <= DOOMGENERIC_RESX)
      as Bx by (intros; apply edges_bound; unfold DOOMGENERIC_RESX; lia).
    assert (forall k, (k <= Z.to_nat (g_rows v * 2))%nat ->
      0 <= nth k (edges DOOMGENERIC_RESY (g_rows v * 2)) 0 <= DOOMGENERIC_RESY)
      as By by (intros; apply edges_bound; unfold DOOMGENERIC_RESY; lia).
    pose proof (Bx c ltac:(lia)). pose proof (Bx (S c) ltac:(lia)).
    pose proof (By p ltac:(lia)). pose proof (By (S p) ltac:(lia)).
    unfold DOOMGENERIC_RESX, DOOMGENERIC_RESY in *. lia.
Qed.

(** ** Averages *)

(** The exact sum of one channel. *)
Definition chan_sum (sb : list Z) (shift : Z) (bl : list Z) : Z :=
  foldr (fun i acc => Z.land (Z.shiftr (pixel sb i) shift) 255 + acc) 0 bl.

Lemma land255 z : Z.land z 255 = z mod 256.
Proof. change 255 with (Z.ones 8). by rewrite Z.land_ones by lia. Qed.

Lemma chan_sum_bound sb shift bl : 0 <= chan_sum sb shift bl <= 255 * Z.of_nat (length bl).
Proof.
  induction bl as [|i bl IH]; [done|]. cbn [chan_sum foldr length] in *. rewrite land255.
  pose proof (Z.mod_pos_bound (Z.shiftr (pixel sb i) shift) 256 ltac:(lia)). unfold chan_sum in IH. lia.
Qed.

Lemma channel_exact sb shift bl :
  255 * Z.of_nat (length bl) < 2 ^ 32 -> channel sb shift bl = chan_sum sb shift bl.
Proof.
  unfold channel. enough (forall acc, 0 <= acc -> acc + 255 * Z.of_nat (length bl) < 2 ^ 32 ->
    foldl (fun acc i => wrapU 32 (acc + Z.land (Z.shiftr (pixel sb i) shift) 255)) acc bl
    = acc + chan_sum sb shift bl) as He.
  { intros Hb. rewrite He; lia. }
  induction bl as [|i bl IH]; intros acc Ha Hb; cbn [foldl chan_sum foldr length] in *; [lia|].
  pose proof (Z.mod_pos_bound (Z.shiftr (pixel sb i) shift) 256 ltac:(lia)) as Hm. rewrite land255.
  rewrite wrapU_id by (unfold is_u; lia). rewrite IH by lia. unfold chan_sum. lia.
Qed.

Lemma lor_shift8 h c : 0 <= c < 256 -> Z.lor (Z.shiftl h 8) c = h * 256 + c.
Proof.
  intros Hc. change 256 with (2 ^ 8). rewrite <- Z.shiftl_mul_pow2 by lia.
  rewrite Z.add_nocarry_lxor; [rewrite Z.lxor_lor; [done|]|].
  all: apply Z.bits_inj'; intros i Hi; rewrite Z.land_spec, Z.testbit_0_l, Z.shiftl_spec by done;
    destruct (Z.ltb_spec i 8); [by rewrite Z.testbit_neg_r by lia|];
    rewrite (Z.bits_above_log2 c), andb_false_r; [done|lia|];
    (destruct (Z.eq_dec c 0) as [->|]; [simpl; lia|]); apply Z.log2_lt_pow2; [lia|];
    apply Z.lt_le_trans with (2 ^ 8); [lia|]; apply Z.pow_le_mono_r; lia.
Qed.

Lemma pack_rgb a b c :
  0 <= b < 256 -> 0 <= c < 256 ->
  Z.lor (Z.lor (Z.shiftl a 16) (Z.shiftl b 8)) c = (a * 256 + b) * 256 + c.
Proof.
  intros Hb Hc. rewrite <- (lor_shift8 a b Hb), <- (lor_shift8 _ c Hc), Z.shiftl_lor.
  by rewrite Z.shiftl_shiftl by lia.
Qed.

(** The colour of a cell is the exact average of its rectangle: the
    accumulators never wrap (for blocks up to the whole screen), each channel of
    the result is the channel sum divided by the number of pixels, and an empty
    rectangle is black. *)
Theorem avg_block_exact sb x0 x1 y0 y1 :
  let bl := block x0 x1 y0 y1 in
  let n := Z.of_nat (length bl) in
  let px := avg_block sb x0 x1 y0 y1 in
  n <= DOOMGENERIC_RESX * DOOMGENERIC_RESY ->
  (n = 0 -> px = 0) /\
  (0 < n -> 0 <= px < 2 ^ 24 /\
     Z.land (Z.shiftr px 16) 255 = chan_sum sb 16 bl / n /\
     Z.land (Z.shiftr px 8) 255 = chan_sum sb 8 bl / n /\
     Z.land px 255 = chan_sum sb 0 bl / n).
Proof.
  intros bl n px Hn. subst px. unfold avg_block. fold bl. fold n.
  change (DOOMGENERIC_RESX * DOOMGENERIC_RESY) with 64000 in Hn.
  rewrite !channel_exact by (fold n; lia).
  destruct (Z.eqb_spec n 0) as [->|Hz]; [by split|]. split; [done|]. intros Hp.
  assert (forall s, 0 <= chan_sum sb s bl / n < 256) as Hs.
  { intros s. pose proof (chan_sum_bound sb s bl) as Hb. fold n in Hb.
    split; [apply Z.div_pos; lia|]. apply Z.div_lt_upper_bound; lia. }
  pose proof (Hs 16) as H16. pose proof (Hs 8) as H8. pose proof (Hs 0) as H0.
  rewrite pack_rgb by done. rewrite !land255, !Z.shiftr_div_pow2 by lia.
  set (a := chan_sum sb 16 bl / n) in *. set (b := chan_sum sb 8 bl / n) in *.
  set (c := chan_sum sb 0 bl / n) in *. clearbody a b c.
  change (2 ^ 16) with 65536. change (2 ^ 8) with 256. change (2 ^ 24) with 16777216.
  rewrite <- (Z.div_unique_pos _ 65536 a (b * 256 + c)), <- (Z.div_unique_pos _ 256 (a * 256 + b) c) by lia.
  rewrite Z.mod_small by lia. split; [lia|]. split; [done|].
  split; symmetry; [apply (Z.mod_unique_pos _ _ a)|apply (Z.mod_unique_pos _ _ (a * 256 + b))]; lia.
Qed.

(** The window title is emitted whole for titles up to 122 characters; from
    124 characters on, the [write] is asked for more bytes than the 128-byte
    buffer has. *)
Theorem title_write title :
  let '(buf, n) := DG_SetWindowTitle title in
  n = Z.of_nat (length title) + 5 /\ (length buf <= 128)%nat /\
  ((length title <= 122)%nat -> take (Z.to_nat n) buf = [ESC] ++ lit "]0;" ++ title ++ ["007"%char]) /\
  ((124 <= length title)%nat -> 128 < n).
Proof.
  unfold DG_SetWindowTitle. set (text := [ESC] ++ _).
  assert (length text = length title + 5)%nat as Hl.
  { unfold text. rewrite !length_app. simpl. lia. }
  rewrite Hl, length_app, length_take, Hl. split; [lia|]. cbn [length]. split; [lia|]. split; [|lia].
  intros Ht. rewrite (take_ge text) by lia. rewrite Nat2Z.id, take_app_le by lia. by apply take_ge; lia.
Qed.

End Video.

Lemma frame_fits_witness :
  let v := Video.DG_Init (Some (lit "100")) None None None in
  Z.of_nat (length (Video.frame [] v)) + 1 <= Video.g_out_size v.
Proof. apply (Video.frame_fits [] (Some (lit "100")) None None None). by_eval. Defined.

Lemma screen_tiled_witness :
  let v := Video.DG_Init (Some (lit "100")) None None None in
  exists! c, (c < Z.to_nat (Video.g_cols v))%nat /\ Video.xe v c <= 319 < Video.xe v (S c).
Proof.
  refine (proj1 (Video.screen_tiled (Some (lit "100")) None None None _ _) 319 _); by_eval.
Defined.

Lemma avg_block_exact_witness :
  Video.avg_block (replicate 64000 0x102030) 0 4 0 4 = 0x102030 /\
  Z.land (Video.avg_block (replicate 64000 0x102030) 0 4 0 4) 255 =
    Video.chan_sum (replicate 64000 0x102030) 0 (Video.block 0 4 0 4) / 16.
Proof.
  split; [vm_compute; reflexivity|].
  refine (proj2 (proj2 (proj2 (proj2 (Video.avg_block_exact (replicate 64000 0x102030) 0 4 0 4 _) _))));
    vm_compute; congruence.
Defined.

Lemma title_write_witness :
  take 10 (Video.DG_SetWindowTitle (lit "title")).1 = [Video.ESC] ++ lit "]0;title" ++ ["007"%char] /\
  128 < (Video.DG_SetWindowTitle (replicate 124 "a"%char)).2.
Proof.
  split.
  - refine (proj1 (proj2 (proj2 (Video.title_write (lit "title")))) _). vm_compute. lia.
  - refine (proj2 (proj2 (proj2 (Video.title_write (replicate 124 "a"%char)))) _). vm_compute. lia.
Defined.
