(* ===== verification/WasiCompat.v ===== *)
(** * wasi-compat/wasi-compat.c: the POSIX functions WASI lacks

    One Module per group of shims: the fixed user and the errors of process
    functions ([Ids], [Procs]), the terminal mode shared with the page ([Tty]),
    names of temporary files ([Temp]), the host bridges for running a program and
    for packages ([Host]).  Functions of the host page (the [__osd_*] imports),
    [malloc], [getcwd] and the file system are arguments. *)

From Stdlib Require Import Ascii String ZArith Lia.
From stdpp Require Import base gmap list strings.
From S2P Require Import Prelude Clib.

Local Open Scope Z_scope.

(** [errno] after a failing call; the host's own codes are numbers. *)
Inductive errno := ENOSYS | EINTR | ECHILD | EPERM | ENOMEM | EHost (n : Z).

#[export] Instance errno_eq_dec : EqDecision errno.
Proof. solve_decision. Defined.

(** The value of a call and the [errno] it sets, if it sets one. *)
Abbreviation cret := (Z * option errno)%type.
Definition fails (err : errno) : cret := (-1, Some err).
Definition returns (v : Z) : cret := (v, None).

(** ** The one user *)

Module Ids.

Definition UID : Z := 1000.
Definition getuid : Z := 1000.
Definition geteuid : Z := 1000.
Definition getgid : Z := 1000.
Definition getegid : Z := 1000.
Definition getppid : Z := 1.
Definition getpgrp : Z := 1000.
Definition setsid : Z := 1000.
Definition getpgid (p : Z) : Z := 1000.
Definition umask (m : Z) : Z := 18. (* 022 *)

Definition setuid (u : Z) : cret := if u =? 1000 then returns 0 else fails EPERM.
Definition seteuid (u : Z) : cret := if u =? 1000 then returns 0 else fails EPERM.
Definition setgid (g : Z) : cret := if g =? 1000 then returns 0 else fails EPERM.
Definition setegid (g : Z) : cret := if g =? 1000 then returns 0 else fails EPERM.

(** [(uid_t)-1] is the 32-bit all-ones value: "leave unchanged". *)
Definition minus1 : Z := wrapU 32 (-1).

Definition setreuid (r e : Z) : cret :=
  if ((r =? minus1) || (r =? 1000)) && ((e =? minus1) || (e =? 1000)) then returns 0 else fails EPERM.
Definition setregid (r e : Z) : cret :=
  if ((r =? minus1) || (r =? 1000)) && ((e =? minus1) || (e =? 1000)) then returns 0 else fails EPERM.

Record passwd := mk_passwd {
  pw_name : cstr; pw_passwd : cstr; pw_uid : Z; pw_gid : Z; pw_gecos : cstr; pw_dir : cstr; pw_shell : cstr;
}.
Record group := mk_group { gr_name : cstr; gr_passwd : cstr; gr_gid : Z }.

Definition g_pw : passwd :=
  mk_passwd (lit "user") (lit "x") 1000 1000 (lit "OS-MOAP user") (lit "/home/user") (lit "/bin/sh").
Definition g_gr : group := mk_group (lit "user") (lit "x") 1000.

Definition getpwnam (n : option cstr) : option passwd :=
  match n with Some n => if strcmp n (lit "user") =? 0 then Some g_pw else None | None => None end.
Definition getpwuid (u : Z) : option passwd := if u =? 1000 then Some g_pw else None.
Definition getgrnam (n : option cstr) : option group :=
  match n with Some n => if strcmp n (lit "user") =? 0 then Some g_gr else None | None => None end.
Definition getgrgid (g : Z) : option group := if g =? 1000 then Some g_gr else None.
Definition getlogin : cstr := lit "user".

End Ids.

(** ** Processes and signals: nothing to run *)

Module Procs.

Definition sigsuspend : cret := fails EINTR.
Definition pause : cret := fails EINTR.
(** The status is cleared. *)
Definition waitpid (p : Z) (s : option Z) (o : Z) : cret * option Z := (fails ECHILD, (fun _ => 0) <$> s).
Definition wait (s : option Z) : cret * option Z := (fails ECHILD, (fun _ => 0) <$> s).
Definition pipe : cret := fails ENOSYS.
Definition fork : cret := fails ENOSYS.
Definition execve (f : cstr) (a e : list cstr) : cret := fails ENOSYS.
Definition execvp (f : cstr) (a : list cstr) : cret := fails ENOSYS.
Definition execv (f : cstr) (a : list cstr) : cret := fails ENOSYS.
Definition execl (p a : cstr) : cret := fails ENOSYS.
Definition kill (pid sig : Z) : cret := fails ENOSYS.
Definition mknod (p : cstr) : cret := fails ENOSYS.
Definition mkfifo (p : cstr) : cret := fails ENOSYS.
Definition system (cmd : option cstr) : cret := match cmd with None => returns 0 | Some _ => fails ENOSYS end.
Definition pclose : cret := fails ENOSYS.
Definition getgroups (n : Z) : Z := 0.
Definition getdtablesize : Z := 256.
Definition tcsetpgrp (fd pgrp : Z) : Z := 0.
Definition tcgetpgrp (fd : Z) : Z := Ids.getpgrp.
Definition setpgrp : Z := 0.
Definition setpgid (p g : Z) : Z := 0.
Definition alarm (s : Z) : Z := 0.

Section Wrap.
(** The page's [dup] and the libc's [fcntl]. *)
Variable osd_dup : Z -> Z -> Z.
Variable osd_dup2 : Z -> Z -> Z.
Variable real_fcntl : Z -> Z -> Z -> Z.

Definition F_DUPFD : Z := 0.
Definition F_DUPFD_CLOEXEC : Z := 1030.

Definition dup2 (o n : Z) : Z := osd_dup2 o n.
Definition dup (fd : Z) : Z := osd_dup fd 0.
Definition wrap_fcntl (fd cmd arg : Z) : Z :=
  if (cmd =? F_DUPFD) || (cmd =? F_DUPFD_CLOEXEC) then osd_dup fd arg else real_fcntl fd cmd arg.
End Wrap.

End Procs.

(** ** The terminal mode *)

Module Tty.

(** Flag values of the libc's <termios.h>. *)
Definition ICANON : Z := 0x2.
Definition ECHO : Z := 0x8.
Definition ECHONL : Z := 0x40.
Definition ISIG : Z := 0x1.
Definition IEXTEN : Z := 0x8000.
Definition IGNBRK : Z := 0x1.
Definition BRKINT : Z := 0x2.
Definition PARMRK : Z := 0x8.
Definition ISTRIP : Z := 0x20.
Definition INLCR : Z := 0x40.
Definition IGNCR : Z := 0x80.
Definition ICRNL : Z := 0x100.
Definition IXON : Z := 0x400.
Definition OPOST : Z := 0x1.
Definition CSIZE : Z := 0x30.
Definition PARENB : Z := 0x100.
Definition CS8 : Z := 0x30.

Record termios := mk_termios {
  c_iflag : Z; c_oflag : Z; c_cflag : Z; c_lflag : Z; c_vmin : Z; c_vtime : Z;
}.

(** [osd_tty_lflag], and the modes the page was told (latest first, true: raw). *)
Record tty := mk_tty { osd_tty_lflag : Z; page : list bool }.

Definition init : tty := mk_tty (Z.lor ICANON ECHO) [].

Definition tcgetattr (t : tty) : termios := mk_termios 0 0 0 (osd_tty_lflag t) 1 0.

Definition tcsetattr (t : tty) (fd : Z) (a : option termios) : tty :=
  match a with
  | Some a => if (0 <=? fd) && (fd <=? 2)
              then mk_tty (c_lflag a) ((Z.land (c_lflag a) ICANON =? 0) :: page t)
              else t
  | None => t
  end.

Definition cfmakeraw (t : termios) : termios :=
  mk_termios
    (Z.land (c_iflag t) (Z.lnot (Z.lor IGNBRK (Z.lor BRKINT (Z.lor PARMRK (Z.lor ISTRIP
       (Z.lor INLCR (Z.lor IGNCR (Z.lor ICRNL IXON)))))))))
    (Z.land (c_oflag t) (Z.lnot OPOST))
    (Z.lor (Z.land (c_cflag t) (Z.lnot (Z.lor CSIZE PARENB))) CS8)
    (Z.land (c_lflag t) (Z.lnot (Z.lor ECHO (Z.lor ECHONL (Z.lor ICANON (Z.lor ISIG IEXTEN))))))
    1 0.

(** The line discipline the page is in: cooked until told otherwise. *)
Definition page_raw (t : tty) : bool := match page t with [] => false | m :: _ => m end.

Inductive op := Get | Set_ (fd : Z) (a : option termios).
Definition run_op (t : tty) (o : op) : tty :=
  match o with Get => t | Set_ fd a => tcsetattr t fd a end.

Lemma icanon_bit l : (Z.land l ICANON =? 0) = negb (Z.testbit l 1).
Proof.
  destruct (Z.testbit l 1) eqn:E; cbn [negb].
  - apply Z.eqb_neq. intros Hz. apply (f_equal (fun z => Z.testbit z 1)) in Hz.
    rewrite Z.land_spec, E in Hz. done.
  - apply Z.eqb_eq, Z.bits_inj'. intros n Hn. rewrite Z.land_spec, Z.testbit_0_l.
    destruct (Z.eq_dec n 1) as [->|Hne]; [by rewrite E|].
    change ICANON with (2 ^ 1). by rewrite Z.pow2_bits_false, andb_false_r by lia.
Qed.

(** The page is in the mode the flags say. *)
Definition coherent (t : tty) : Prop := page_raw t = negb (Z.testbit (osd_tty_lflag t) 1).

Lemma run_op_coherent t o : coherent t -> coherent (run_op t o).
Proof.
  intros Hc. destruct o as [|fd [a|]]; try done. unfold coherent, page_raw. cbn [run_op tcsetattr].
  destruct ((0 <=? fd) && (fd <=? 2)); [|done]. cbn [page osd_tty_lflag]. apply icanon_bit.
Qed.

Lemma coherent_ops ops : coherent (foldl run_op init ops).
Proof.
  assert (forall t, coherent t -> coherent (foldl run_op t ops)) as Hg; [|by apply Hg].
  induction ops as [|o ops IH]; intros t Hc; [done|]. apply IH. by apply run_op_coherent.
Qed.

(** C30. The terminal shim keeps the page and the program in step.  After any
    sequence of attribute calls the page is in raw mode exactly when ICANON is
    clear in the flags [tcgetattr] reports; setting attributes that leave the
    local flags as they were read keeps the mode; [cfmakeraw] on what was read
    switches the page to raw; a descriptor that is not standard changes nothing. *)
Theorem tty_in_step ops fd a :
  let t := foldl run_op init ops in
  page_raw t = negb (Z.testbit (c_lflag (tcgetattr t)) 1) /\
  page_raw (tcsetattr t fd (Some (mk_termios (c_iflag a) (c_oflag a) (c_cflag a) (c_lflag (tcgetattr t))
    (c_vmin a) (c_vtime a)))) = page_raw t /\
  page_raw (tcsetattr t fd (Some (cfmakeraw (tcgetattr t)))) =
    (if (0 <=? fd) && (fd <=? 2) then true else page_raw t).
Proof.
  intros t. pose proof (coherent_ops ops) as Hc. fold t in Hc. unfold coherent in Hc. clearbody t.
  split; [done|]. unfold tcsetattr, page_raw at 1 3. destruct ((0 <=? fd) && (fd <=? 2)); [|done].
  cbn [page c_lflag tcgetattr cfmakeraw]. rewrite !icanon_bit. split; [done|].
  rewrite Z.land_spec. change (Z.testbit (Z.lnot _) 1) with false. by rewrite andb_false_r.
Qed.

End Tty.

(** ** Temporary names *)

Module Temp.

(** [for (i = 0; i < 6; i++) { tmpl[n-1-i] = base + v % r; v /= r; }] *)
Fixpoint put_suffix (k : nat) (base r v : Z) (i : nat) (tmpl : cstr) : cstr :=
  match k with
  | O => tmpl
  | S k' => put_suffix k' base r (v / r) (S i) (<[(length tmpl - 1 - i)%nat := chr (base + v mod r)]> tmpl)
  end.

(** [mkstemp]: the counter and the name it opens. *)
Definition mkstemp_name (seq : Z) (tmpl : cstr) : Z * cstr :=
  if (6 <=? length tmpl)%nat then
    let seq := wrapU 32 (seq + 1) in (seq, put_suffix 6 (uc "0") 10 seq 0 tmpl)
  else (seq, tmpl).

(** [open(.., O_EXCL)] is the environment's. *)
Definition mkstemp {F} (open_excl : F -> cstr -> F * Z) (fs : F) (seq : Z) (tmpl : cstr) : F * Z * cstr * Z :=
  let '(seq, name) := mkstemp_name seq tmpl in
  let '(fs, fd) := open_excl fs name in (fs, seq, name, fd).

(** [tmpfile]: [None] when the name cannot be opened; the name is unlinked. *)
Definition tmpfile {F} (open_excl : F -> cstr -> F * Z) (unlink : F -> cstr -> F) (fs : F) (seq : Z)
    : F * Z * option Z :=
  let '(fs, seq, path, fd) := mkstemp open_excl fs seq (lit "/tmp/tmpfXXXXXX") in
  if fd <? 0 then (fs, seq, None) else (unlink fs path, seq, Some fd).

(** [mktemp]: [nsec] is the wall clock's. *)
Definition mktemp (nsec seq : Z) (tmpl : cstr) : Z * cstr :=
  let seq := wrapU 32 (seq + 1) in
  let v := Z.lxor (wrapU 32 nsec) (wrapU 32 (seq * 2654435761)) in
  (seq, if (6 <=? length tmpl)%nat then put_suffix 6 (uc "a") 26 v 0 tmpl else tmpl).

(** [k] digits of [v], most significant first. *)
Fixpoint digits (k : nat) (base r v : Z) : cstr :=
  match k with
  | O => []
  | S k' => digits k' base r (v / r) ++ [chr (base + v mod r)]
  end.

Lemma length_put_suffix k base r v i tmpl : length (put_suffix k base r v i tmpl) = length tmpl.
Proof.
  revert v i tmpl. induction k as [|k IH]; intros v i tmpl; [done|]. cbn [put_suffix].
  by rewrite IH, length_insert.
Qed.

Lemma put_suffix_spec k base r v i tmpl :
  (i + k <= length tmpl)%nat ->
  put_suffix k base r v i tmpl =
  take (length tmpl - i - k) tmpl ++ digits k base r v ++ drop (length tmpl - i) tmpl.
Proof.
  revert v i tmpl. induction k as [|k IH]; intros v i tmpl Hk; cbn [put_suffix digits].
  { rewrite Nat.sub_0_r. cbn [app]. by rewrite take_drop. }
  rewrite IH by (rewrite length_insert; lia). rewrite length_insert.
  rewrite take_insert_ge by lia. rewrite <- app_assoc. f_equal; [f_equal; lia|]. f_equal.
  rewrite (drop_insert_ge _ (length tmpl - S i)) by lia.
  replace (length tmpl - 1 - i - (length tmpl - S i))%nat with 0%nat by lia.
  destruct (drop (length tmpl - S i) tmpl) as [|c rest] eqn:Ed.
  { apply (f_equal length) in Ed. rewrite length_drop in Ed. simpl in Ed. lia. }
  cbn [app]. change (<[0%nat := chr (base + v mod r)]> (c :: rest)) with (chr (base + v mod r) :: rest).
  f_equal. replace (length tmpl - i)%nat with (length tmpl - S i + 1)%nat by lia.
  by rewrite <- drop_drop, Ed.
Qed.

Lemma digits_inj k base r v w :
  0 < r -> 0 <= base -> base + r <= 256 ->
  digits k base r v = digits k base r w -> v mod r ^ Z.of_nat k = w mod r ^ Z.of_nat k.
Proof.
  intros Hr Hb Hs. revert v w. induction k as [|k IH]; intros v w Hd; [by rewrite !Z.mod_1_r|].
  cbn [digits] in Hd. apply app_inj_2 in Hd as [Hd Hc]; [|done]. apply IH in Hd.
  injection Hc as Hc. apply (f_equal uc) in Hc.
  pose proof (Z.mod_pos_bound v r Hr). pose proof (Z.mod_pos_bound w r Hr).
  rewrite !uc_chr in Hc by lia.
  rewrite Nat2Z.inj_succ, Z.pow_succ_r by lia.
  assert (0 < r ^ Z.of_nat k) by (apply Z.pow_pos_nonneg; lia).
  rewrite !Z.rem_mul_r by lia. rewrite Hd. lia.
Qed.

(** Temporary names: [mkstemp] keeps the template up to its last six
    characters and its length, and within a window of a million calls two calls
    on templates of the same length never make the same name. *)
Theorem mkstemp_fresh seq1 seq2 tmpl1 tmpl2 :
  (6 <= length tmpl1)%nat -> length tmpl1 = length tmpl2 ->
  let '(next1, name1) := mkstemp_name seq1 tmpl1 in
  let '(next2, name2) := mkstemp_name seq2 tmpl2 in
  next1 = wrapU 32 (seq1 + 1) /\ length name1 = length tmpl1 /\
  take (length tmpl1 - 6) name1 = take (length tmpl1 - 6) tmpl1 /\
  (next1 mod 1000000 <> next2 mod 1000000 -> name1 <> name2).
Proof.
  intros H6 Hl. unfold mkstemp_name. rewrite <- Hl, (proj2 (Nat.leb_le _ _) H6).
  split; [done|]. rewrite length_put_suffix. split; [done|].
  rewrite !put_suffix_spec by lia. rewrite <- Hl, !Nat.sub_0_r. split.
  - rewrite take_app_le by (rewrite length_take; lia). by rewrite take_take, Nat.min_id.
  - intros Hne Heq. apply Hne. apply app_inj_1 in Heq as [_ Heq]; [|by rewrite !length_take, Hl].
    rewrite !drop_ge, !app_nil_r in Heq by lia.
    by apply (digits_inj 6 (uc "0") 10); [..|done].
Qed.

End Temp.

Lemma mkstemp_fresh_witness :
  Temp.mkstemp_name 41 (lit "/tmp/tmpfXXXXXX") = (42, lit "/tmp/tmpf000042") /\
  (Temp.mkstemp_name 41 (lit "/tmp/tmpfXXXXXX")).2 <> (Temp.mkstemp_name 7 (lit "/tmp/tmpfXXXXXX")).2.
Proof.
  split; [reflexivity|].
  refine (proj2 (proj2 (proj2 (Temp.mkstemp_fresh 41 7 (lit "/tmp/tmpfXXXXXX") (lit "/tmp/tmpfXXXXXX") _ _))) _).
  - vm_compute. lia.
  - reflexivity.
  - vm_compute. discriminate.
Defined.

(** ** Host bridges *)

Module Host.

(** The flat buffer of a NULL-terminated list: every string with its NUL.
    [malloc_ok] tells whether the allocation of so many bytes succeeds; [n] is an
    int.  [None]: the strings do not fit into what was allocated. *)
Definition flat (l : list cstr) : cstr := concat (map (fun s => s ++ [NUL]) l).
Definition osd_flatten (malloc_ok : Z -> bool) (l : option (list cstr)) : option (Z * option cstr) :=
  let l := default [] l in
  let n := foldl (fun n s => wrapS 32 (n + Z.of_nat (length s) + 1)) 0 l in
  if n =? 0 then Some (0, None)
  else if negb (malloc_ok (wrapU 32 n)) then Some (-1, None)
  else if wrapU 32 n <? Z.of_nat (length (flat l)) then None
  else Some (n, Some (flat l)).

Definition ABS_SIZE : Z := 1024.
Definition CWD_SIZE : Z := 900.

(** The libc's [getcwd], in the directory [cwd] ([None]: it cannot be found). *)
Definition getcwd (cwd : option cstr) (size : Z) : option cstr :=
  match cwd with Some d => if Z.of_nat (length d) <? size then Some d else None | None => None end.

(** The absolute path [osd_spawn] passes on. *)
Definition resolve (cwd : option cstr) (path : cstr) : cstr :=
  if negb (hd0 path ≟ "/"%char) then
    match getcwd cwd CWD_SIZE with
    | Some cwd => if Z.of_nat (length cwd) + Z.of_nat (length path) + 2 <? ABS_SIZE
                  then cwd ++ lit "/" ++ path else path
    | None => path
    end
  else path.

Section Spawn.
(** [__osd_spawn]: path, flat arguments and flat environment, each with its
    length, to a status or a negated error. *)
Variable osd_spawn_host : cstr -> Z -> option cstr -> Z -> option cstr -> Z -> Z.
Variable malloc_ok : Z -> bool.

Definition osd_spawn (cwd : option cstr) (path : cstr) (argv envp : option (list cstr)) : option cret :=
  let path := resolve cwd path in
  '(al, af) ← osd_flatten malloc_ok argv;
  '(el, ef) ← osd_flatten malloc_ok envp;
  Some (if (al <? 0) || (el <? 0) then fails ENOMEM
        else
          let st := osd_spawn_host path (Z.of_nat (length path)) af al ef el in
          if st <? 0 then fails (EHost (- st)) else returns st).
End Spawn.

(** The package bridges: the host's answer with its error turned into [errno]. *)
Definition osd_pkg_index (n : Z) : cret := if n <? 0 then fails (EHost (- n)) else returns n.
Definition osd_pkg_fetch (r : Z) : cret := if r <? 0 then fails (EHost (- r)) else returns 0.

(** [osd_cwd_init]: the directory to change to at start. *)
Definition osd_cwd_init (pwd : option cstr) : option cstr :=
  match pwd with
  | Some p => if (hd0 p ≟ "/"%char) then Some p else None
  | None => None
  end.

(** Splitting a flat buffer at its NULs, as the host does. *)
Fixpoint unflat (buf cur : cstr) : list cstr :=
  match buf with
  | [] => []
  | c :: buf' => if (c ≟ NUL) then cur :: unflat buf' [] else unflat buf' (cur ++ [c])
  end.

Lemma flat_cons s l : Z.of_nat (length (flat (s :: l))) = Z.of_nat (length s) + 1 + Z.of_nat (length (flat l)).
Proof. unfold flat. cbn [map concat]. rewrite !length_app. cbn [length]. lia. Qed.

(** A list whose buffer has a size that is an int. *)
Definition flat_ok (l : list cstr) : Prop := Z.of_nat (length (flat l)) < 2 ^ 31.

Lemma flat_length l : forall n, 0 <= n -> n + Z.of_nat (length (flat l)) < 2 ^ 31 ->
  foldl (fun n s => wrapS 32 (n + Z.of_nat (length s) + 1)) n l = n + Z.of_nat (length (flat l)).
Proof.
  induction l as [|s l IH]; intros n Hn Hl; cbn [foldl]; [simpl; lia|].
  rewrite flat_cons in *. rewrite wrapS_id by (unfold is_s; lia). rewrite IH; lia.
Qed.

Lemma unflat_step s buf cur : NUL ∉ s -> unflat (s ++ NUL :: buf) cur = (cur ++ s) :: unflat buf [].
Proof.
  revert cur. induction s as [|c s IH]; intros cur Hs.
  - by rewrite app_nil_r.
  - apply not_elem_of_cons in Hs as [Hc Hs]. cbn [app unflat].
    destruct (Ascii.eqb_spec c NUL) as [->|_]; [done|]. rewrite IH by done. by rewrite <- app_assoc.
Qed.

Lemma unflat_flat l : Forall (fun s => NUL ∉ s) l -> unflat (flat l) [] = l.
Proof.
  induction 1 as [|s l Hs Hl IH]; [done|]. unfold flat in *. cbn [map concat]. rewrite <- app_assoc.
  cbn [app]. rewrite unflat_step by done. by rewrite IH.
Qed.

Lemma flat_nil l : Z.of_nat (length (flat l)) = 0 -> l = [].
Proof.
  destruct l as [|s l]; [done|]. unfold flat. cbn [map concat]. rewrite !length_app. simpl. lia.
Qed.

(** What the host reads from a list argument. *)
Definition decode (buf : option cstr) : list cstr := unflat (default [] buf) [].

(** Can the list's buffer be allocated? *)
Definition allocates (malloc_ok : Z -> bool) (l : list cstr) : bool :=
  bool_decide (l = []) || malloc_ok (Z.of_nat (length (flat l))).

(** The argument and environment lists reach the host unchanged: splitting
    the flat buffer at its NULs gives the list back, the length passed along is
    the buffer's, and an empty list is passed as no buffer. *)
Lemma flatten_roundtrip malloc_ok l :
  Forall (fun s => NUL ∉ s) (default [] l) -> flat_ok (default [] l) ->
  if allocates malloc_ok (default [] l) then
    exists buf, osd_flatten malloc_ok l = Some (Z.of_nat (length (default [] buf)), buf) /\ decode buf = default [] l
  else osd_flatten malloc_ok l = Some (-1, None).
Proof.
  intros Hl Hok. unfold flat_ok in Hok. unfold osd_flatten, allocates. set (k := default [] l) in *. rewrite flat_length, Z.add_0_l by lia.
  destruct (Z.eqb_spec (Z.of_nat (length (flat k))) 0) as [Hz|Hz].
  - apply flat_nil in Hz. rewrite bool_decide_true by done. exists None. by rewrite Hz.
  - rewrite bool_decide_false by (intros E; by rewrite E in Hz). cbn [orb]. rewrite wrapU_id by (unfold is_u; lia).
    destruct (malloc_ok _); cbn [negb]; [|done]. rewrite Z.ltb_irrefl. exists (Some (flat k)). split; [done|]. by apply unflat_flat.
Qed.

(** C29. Running a program, in a working directory that is known.  With NUL-free
    arguments and an environment whose sizes are ints, the call fails with ENOMEM before it reaches the host exactly
    if a list that is not empty cannot be copied; otherwise the host runs the
    program on the given argument and environment lists, each passed with the
    length of its buffer, and the result is its status, or -1 and its error.  The
    path it gets is the given one when that is absolute, otherwise the one under
    the working directory, which is absolute and fits the 1024-byte buffer; only
    where the directory or the path is too long for the buffers does it stay
    relative. *)
Theorem osd_spawn_spec host malloc_ok cwd path argv envp :
  hd0 cwd = "/"%char ->
  Forall (fun s => NUL ∉ s) (default [] argv) -> Forall (fun s => NUL ∉ s) (default [] envp) ->
  flat_ok (default [] argv) -> flat_ok (default [] envp) ->
  exists p,
    (if allocates malloc_ok (default [] argv) && allocates malloc_ok (default [] envp) then
       exists af ef, decode af = default [] argv /\ decode ef = default [] envp /\
         let st := host p (Z.of_nat (length p)) af (Z.of_nat (length (default [] af))) ef (Z.of_nat (length (default [] ef))) in
         osd_spawn host malloc_ok (Some cwd) path argv envp = Some (if st <? 0 then (-1, Some (EHost (- st))) else (st, None))
     else osd_spawn host malloc_ok (Some cwd) path argv envp = Some (-1, Some ENOMEM)) /\
    (hd0 path = "/"%char /\ p = path \/
     hd0 path <> "/"%char /\ p = cwd ++ lit "/" ++ path /\ hd0 p = "/"%char /\ Z.of_nat (length p) + 1 <= ABS_SIZE \/
     hd0 path <> "/"%char /\ p = path /\
       (CWD_SIZE <= Z.of_nat (length cwd) \/ ABS_SIZE <= Z.of_nat (length cwd) + Z.of_nat (length path) + 2)).
Proof.
  intros Hc Ha He Hla Hle. exists (resolve (Some cwd) path). split.
  - unfold osd_spawn. pose proof (flatten_roundtrip malloc_ok argv Ha Hla) as Fa. pose proof (flatten_roundtrip malloc_ok envp He Hle) as Fe.
    destruct (allocates malloc_ok (default [] argv)), (allocates malloc_ok (default [] envp)); cbn [andb].
    + destruct Fa as (af & -> & Da), Fe as (ef & -> & De). exists af, ef. split_and!; [done|done|]. cbn.
      rewrite !(proj2 (Z.ltb_ge _ 0)) by lia. done.
    + destruct Fa as (af & -> & _). rewrite Fe. cbn. by rewrite orb_true_r.
    + destruct Fe as (ef & -> & _). by rewrite Fa.
    + by rewrite Fa, Fe.
  - unfold resolve, getcwd. destruct (Ascii.eqb_spec (hd0 path) "/") as [Hp|Hp]; cbn [negb]; [by left|right].
    destruct (Z.ltb_spec (Z.of_nat (length cwd)) CWD_SIZE) as [Hd|Hd]; [|right; split_and!; [done|done|by left]].
    destruct (Z.ltb_spec (Z.of_nat (length cwd) + Z.of_nat (length path) + 2) ABS_SIZE) as [Hs|Hs]; [left|right; split_and!; [done|done|by right]].
    split; [done|]. split; [done|]. split; [by destruct cwd|]. rewrite !length_app. simpl length. lia.
Qed.

End Host.

Example flatten_example : Host.osd_flatten (fun _ => true) (Some [lit "apk"; lit "add"; lit "nano"]) =
  Some (13, Some (lit "apk" ++ [NUL] ++ lit "add" ++ [NUL] ++ lit "nano" ++ [NUL])).
Proof. reflexivity. Qed.

Lemma osd_spawn_spec_witness :
  exists p af ef, Host.decode af = [lit "prog"] /\ Host.decode ef = [] /\ p = lit "/home/prog" /\
    Host.osd_spawn (fun _ _ _ _ _ _ => 3) (fun _ => true) (Some (lit "/home")) (lit "prog") (Some [lit "prog"]) None = Some (3, None).
Proof.
  destruct (Host.osd_spawn_spec (fun _ _ _ _ _ _ => 3) (fun _ => true) (lit "/home") (lit "prog") (Some [lit "prog"]) None)
    as (p & (af & ef & Ha & He & Hs) & Hp); [reflexivity|by_eval|by_eval|reflexivity|reflexivity|].
  destruct Hp as [(Hc & _)|[(_ & Hp & _)|(_ & _ & [Hl|Hl])]]; [discriminate| |vm_compute in Hl; congruence..].
  exists p, af, ef. exact (conj Ha (conj He (conj Hp Hs))).
Defined.
