(* ===== verification/Apk.v ===== *)
(** * miscutils/apk.c: the OS-MOAP package manager

    The file system is an interface ([FileSys]: reading, truncating and appending
    writes, unlinking, with their laws); the host's two bridges (the package
    index and the download) are arguments.  A command is a computation over the
    file system and the text printed so far that may die with a message, show the
    usage, or read outside a buffer.  Files are byte lists; what the code reads
    as a C string is cut at the first NUL. *)

From Stdlib Require Import Ascii String ZArith Lia.
From stdpp Require Import base gmap list strings.
From S2P Require Import Prelude Clib LibbbStr.

Local Open Scope nat_scope.

(** ** The file system *)

(** [fs_write] is [bb_make_directory] of the parent, [xopen3] with O_TRUNC, write
    and close; [fs_append] is the same with O_APPEND; [None] is a failing open. *)
Class FileSys (F : Type) := {
  fs_read : F -> cstr -> option cstr;
  fs_write : F -> cstr -> cstr -> option F;
  fs_append : F -> cstr -> cstr -> option F;
  fs_unlink : F -> cstr -> F;
}.

Class FileSysLaws (F : Type) `{FileSys F} := {
  read_write f p d f' q :
    fs_write f p d = Some f' -> fs_read f' q = if decide (q = p) then Some d else fs_read f q;
  read_append f p d f' q :
    fs_append f p d = Some f' ->
    fs_read f' q = if decide (q = p) then Some (default [] (fs_read f p) ++ d) else fs_read f q;
  read_unlink f p q :
    fs_read (fs_unlink f p) q = if decide (q = p) then None else fs_read f q;
}.

(** Files in memory, as the page keeps them. *)
#[export] Instance map_fs : FileSys (gmap cstr cstr) := {|
  fs_read := fun f p => f !! p;
  fs_write := fun f p d => Some (<[p := d]> f);
  fs_append := fun f p d => Some (<[p := default [] (f !! p) ++ d]> f);
  fs_unlink := fun f p => delete p f;
|}.

#[export] Instance map_fs_laws : FileSysLaws (gmap cstr cstr).
Proof.
  split; cbn.
  - intros f p d f' q [= <-]. case_decide; subst; [apply lookup_insert_eq|by apply lookup_insert_ne].
  - intros f p d f' q [= <-]. case_decide; subst; [apply lookup_insert_eq|by apply lookup_insert_ne].
  - intros f p q. case_decide; subst; [apply lookup_delete_eq|by apply lookup_delete_ne].
Qed.

(** ** Outcomes *)

Inductive res (F A : Type) :=
  | Ok (f : F) (out : list cstr) (a : A)
  | Die (f : F) (out : list cstr) (msg : string)     (* bb_*_msg_and_die, a failing xopen *)
  | Usage (out : list cstr)                          (* bb_show_usage *)
  | Oob (f : F).                                     (* a read outside a buffer *)
Arguments Ok {F A} f out a.
Arguments Die {F A} f out msg.
Arguments Usage {F A} out.
Arguments Oob {F A} f.

Definition M (F A : Type) : Type := F -> list cstr -> res F A.
Definition ret {F A} (a : A) : M F A := fun f o => Ok f o a.
Definition bind {F A B} (m : M F A) (k : A -> M F B) : M F B :=
  fun f o => match m f o with
             | Ok f o a => k a f o
             | Die f o msg => Die f o msg
             | Usage o => Usage o
             | Oob f => Oob f
             end.

Declare Scope apk_scope.
Delimit Scope apk_scope with apk.
Notation "'let!' x := m 'in' k" := (bind m (fun x => k))
  (at level 10, x name, m at level 100, k at level 200) : apk_scope.
Notation "m ;; k" := (bind m (fun _ => k)) (at level 100, k at level 200, right associativity) : apk_scope.
Local Open Scope apk_scope.

Definition say {F} (s : cstr) : M F unit := fun f o => Ok f (o ++ [s]) tt.
Definition die {F A} (msg : string) : M F A := fun f o => Die f o msg.
Definition usage {F A} : M F A := fun f o => Usage o.

(** ** Text *)

Definition c_str (b : cstr) : cstr := upto b (strchrnul b NUL).

Definition next_line (p : cstr) : cstr :=
  match strchr p NL with Some q => tail q | None => [] end.

(** The [while (p && *p)] loops over lines; the length bounds the turns. *)
Fixpoint in_lines_loop (fuel : nat) (p name : cstr) : bool :=
  match fuel with
  | O => false
  | S f =>
      match p with
      | [] => false
      | _ =>
          let c := at0 p (length name) in
          if strncmp_eq p name (length name) && ((c ≟ NL) || (c ≟ NUL) || (c ≟ SP)) then true
          else in_lines_loop f (next_line p) name
      end
  end.
Definition in_lines (haystack name : cstr) : bool := in_lines_loop (S (length haystack)) haystack name.

(** The token up to a blank, a newline or the end. *)
Fixpoint ver_end (e : cstr) : cstr :=
  match e with
  | [] => []
  | c :: e' => if negb (c ≟ SP) && negb (c ≟ NL) then ver_end e' else e
  end.

Fixpoint index_ver_loop (fuel : nat) (p name : cstr) : option cstr :=
  match fuel with
  | O => None
  | S f =>
      match p with
      | [] => None
      | _ =>
          if strncmp_eq p name (length name) && (at0 p (length name) ≟ SP) then
            let v := drop (length name + 1) p in Some (upto v (ver_end v))
          else index_ver_loop f (next_line p) name
      end
  end.
Definition index_ver (ix name : cstr) : option cstr := index_ver_loop (S (length ix)) ix name.

Definition db_ver (db name : cstr) : option cstr :=
  let probe := lit "P:" ++ name ++ [NL] ++ lit "V:" in
  match strstr db probe with
  | Some st => let v := drop (length probe) st in Some (upto v (strchrnul v NL))
  | None => None
  end.

(** [pi_get]; [None] is the read past the terminator when the text ends right
    after the [=]. *)
Fixpoint pi_get_loop (fuel : nat) (p key : cstr) : option cstr :=
  match fuel with
  | O => Some (lit "?")
  | S f =>
      match p with
      | [] => Some (lit "?")
      | _ =>
          let n := length key in
          if strncmp_eq p key n && (at0 p n ≟ SP) && (at0 p (n + 1) ≟ "="%char) then
            if length p <? n + 3 then None
            else let v := drop (n + 3) p in Some (upto v (strchrnul v NL))
          else pi_get_loop f (next_line p) key
      end
  end.
Definition pi_get (pi key : cstr) : option cstr := pi_get_loop (S (length pi)) pi key.

(** ** Tar extraction *)

(** [oct]: at most [len] characters, up to a NUL, skipping what is no octal
    digit, in an [unsigned]. *)
Fixpoint oct_loop (p : cstr) (len : nat) (v : Z) : Z :=
  match len, p with
  | S len', c :: p' =>
      if (c ≟ NUL) then v
      else let d := (uc c - 48)%Z in
           oct_loop p' len' (if ((48 <=? uc c) && (uc c <=? 55))%Z then wrapU 32 (v * 8 + d) else v)
  | _, _ => v
  end.
Definition oct (p : cstr) (len : nat) : Z := oct_loop p len 0.

Definition BLOCK : nat := 512.
Definition pad_of (size : nat) : nat := (BLOCK - size mod BLOCK) mod BLOCK.
Definition PKGINFO : cstr := lit ".PKGINFO".

Section Commands.
Context {F : Type} `{FileSys F}.

(** The host bridges: the index (for a forced refresh or not), and the download
    of a package to a path. *)
Variable osd_pkg_index : bool -> option cstr.
Variable osd_pkg_fetch : F -> cstr -> cstr -> F * bool.

Definition WORLD : cstr := lit "/etc/apk/world".
Definition DB : cstr := lit "/lib/apk/db/installed".
Definition TARTMP : cstr := lit "/tmp/.apk.tar".

Definition read_file_or_empty (path : cstr) : M F cstr :=
  fun f o => Ok f o (match fs_read f path with Some b => c_str b | None => [] end).

Definition get_index (force : bool) : M F cstr :=
  match osd_pkg_index force with
  | None => die "index unavailable"
  | Some buf => ret (c_str buf)
  end.

Definition unlink (path : cstr) : M F unit := fun f o => Ok (fs_unlink f path) o tt.
Definition append_file (path text : cstr) : M F unit :=
  fun f o => match fs_append f path text with Some f => Ok f o tt | None => Die f o "can't open" end.
Definition write_file (path text : cstr) : M F unit :=
  fun f o => match fs_write f path text with Some f => Ok f o tt | None => Die f o "can't open" end.

(** The [for (;;)] of [tar_extract]; [fd] is the text still to read.  Every turn
    reads a 512-byte header. *)
Fixpoint tar_loop (fuel : nat) (fd files : cstr) (pkginfo : option cstr) : M F (cstr * option cstr) :=
  match fuel with
  | O => ret (files, pkginfo)
  | S fuel' =>
      let hdr := take BLOCK fd in
      if negb (length hdr =? BLOCK) then ret (files, pkginfo)
      else if (hd0 hdr ≟ NUL) then ret (files, pkginfo)
      else
        let fd := drop BLOCK fd in
        let size := Z.to_nat (oct (drop 124 hdr) 12) in
        let name := safe_strncpy [] (c_str hdr) 101 in
        let data := take size fd in
        if negb (length data =? size) then die "truncated tar"
        else
          let fd := drop (pad_of size) (drop size fd) in
          let typeflag := at0 hdr 156 in
          if negb (typeflag ≟ "0"%char) && negb (typeflag ≟ NUL) then tar_loop fuel' fd files pkginfo
          else if (strcmp name PKGINFO =? 0)%Z then tar_loop fuel' fd files (Some data)
          else
            let abs := lit "/" ++ name in
            write_file abs data ;;
            tar_loop fuel' fd (files ++ lit "F:" ++ abs ++ [NL]) pkginfo
  end.

Definition tar_extract (tarpath : cstr) : M F (cstr * option cstr) :=
  fun f o => match fs_read f tarpath with
             | None => Die f o "can't open"
             | Some tar => tar_loop (S (length tar)) tar [] None f o
             end.

Definition stanza_text (name ver desc files : cstr) : cstr :=
  lit "P:" ++ name ++ [NL] ++ lit "V:" ++ ver ++ [NL] ++ lit "T:" ++ desc ++ [NL] ++ files ++ [NL].

Definition oob {A} : M F A := fun f o => Oob f.

(** Record a package in the world, unless a line of it has its name. *)
Definition add_to_world (name : cstr) : M F unit :=
  let! w := read_file_or_empty WORLD in
  if negb (in_lines w name) then append_file WORLD (name ++ [NL]) else ret tt.

Definition install_tar_file (name : cstr) (record_world : bool) : M F bool :=
  let! r := tar_extract TARTMP in
  unlink TARTMP ;;
  let pkginfo := match r.2 with Some d => c_str d | None => [] end in
  match pi_get pkginfo (lit "pkgver"), pi_get pkginfo (lit "pkgdesc") with
  | Some ver, Some desc =>
      append_file DB (stanza_text name ver desc r.1) ;;
      (if record_world then add_to_world name else ret tt) ;;
      say (lit "OK: " ++ name ++ lit " installed") ;;
      ret false
  | _, _ => oob
  end.

(** [rc] is a bool: true is a failure. *)
Definition do_add (name : cstr) (record_world : bool) : M F bool :=
  let! db := read_file_or_empty DB in
  match strstr db (lit "P:" ++ name ++ [NL]) with
  | Some _ => say (name ++ lit ": already installed") ;; ret false
  | None =>
      say (lit "(1/1) Installing " ++ name ++ lit "...") ;;
      fun f o =>
        match osd_pkg_fetch f name TARTMP with
        | (f, false) => (say (name ++ lit ": fetch failed") ;; ret true) f o
        | (f, true) => install_tar_file name record_world f o
        end
  end.

(** The [while (p < end)] loop of [do_del] on the stanza's text: the paths of its
    F: lines. *)
Fixpoint stanza_files (fuel : nat) (p : cstr) : list cstr :=
  match fuel with
  | O => []
  | S f =>
      match p with
      | [] => []
      | _ =>
          let nl := strchrnul p NL in
          let more := stanza_files f (tail nl) in
          if (at0 p 0 ≟ "F"%char) && (at0 p 1 ≟ ":"%char)
          then upto (drop 2 p) nl :: more
          else more
      end
  end.

Definition unlink_all (paths : list cstr) : M F unit :=
  fun f o => Ok (foldl fs_unlink f paths) o tt.

(** The start of the removed stanza in the database and what follows it. *)
Definition cut_stanza (st : cstr) : cstr * cstr :=
  let rest := match strstr st [NL; NL] with Some e => drop 2 e | None => [] end in
  (upto st rest, rest).

(** The end of [do_del]: drop the line from the world, if the first match of it
    starts a line. *)
Definition drop_from_world (name : cstr) : M F unit :=
  let! w := read_file_or_empty WORLD in
  let line := name ++ [NL] in
  match strstr w line with
  | Some hit =>
      let before := upto w hit in
      if bool_decide (before = []) || (default NUL (last before) ≟ NL)
      then write_file WORLD (before ++ drop (length line) hit)
      else ret tt
  | None => ret tt
  end.

Definition do_del (name : cstr) : M F bool :=
  let! db := read_file_or_empty DB in
  match strstr db (lit "P:" ++ name ++ [NL]) with
  | None => say (name ++ lit ": not installed") ;; ret true
  | Some st =>
      let '(stanza, rest) := cut_stanza st in
      unlink_all (stanza_files (S (length stanza)) stanza) ;;
      write_file DB (upto db st ++ rest) ;;
      drop_from_world name ;;
      say (lit "OK: " ++ name ++ lit " removed") ;;
      ret false
  end.

(** ** The command line *)

Definition for_each (g : cstr -> M F bool) : list cstr -> bool -> M F bool :=
  fix go l rc := match l with
                 | [] => ret rc
                 | x :: l' => let! r := g x in go l' (rc || r)
                 end.

Definition count_nl (ix : cstr) : nat := length (filter (fun c => c = NL) ix).

Definition cmd_update : M F bool :=
  let! ix := get_index true in
  say (lit "OK: " ++ fmt_d (Z.of_nat (count_nl ix)) ++ lit " packages available") ;;
  ret false.

(** [char nm[64]]: the line's first word, cut to 63 characters. *)
Definition line_name (line : cstr) : cstr :=
  let nm := safe_strncpy [] line 64 in
  match strchr nm SP with Some sp => upto nm sp | None => nm end.

Definition list_line (db : cstr) (filter : option cstr) (line : cstr) : M F unit :=
  if match filter with None => true | Some s => bool_decide (is_Some (strstr line s)) end then
    say (line ++ match strstr db (lit "P:" ++ line_name line ++ [NL]) with
                 | Some _ => lit " [installed]"
                 | None => []
                 end)
  else ret tt.

Fixpoint list_loop (db : cstr) (filter : option cstr) (lines : list cstr) : M F unit :=
  match lines with
  | [] => ret tt
  | l :: lines' => list_line db filter l ;; list_loop db filter lines'
  end.

Definition cmd_list (filter : option cstr) : M F bool :=
  let! ix := get_index false in
  let! db := read_file_or_empty DB in
  list_loop db filter (strtok_all NL ix) ;;
  ret false.

Definition cmd_info (name : cstr) : M F bool :=
  let! ix := get_index false in
  match List.find (fun line => strncmp_eq line name (length name) && (at0 line (length name) ≟ SP))
          (strtok_all NL ix) with
  | Some line => say line ;; ret false
  | None => say (name ++ lit ": no such package") ;; ret true
  end.

(** One world line of [upgrade]: whether it failed, and whether it upgraded. *)
Definition upgrade_one (ix db line : cstr) : M F (bool * bool) :=
  match index_ver ix line, db_ver db line with
  | Some iv, Some dv =>
      if negb (hd0 iv ≟ "?"%char) && negb (strcmp iv dv =? 0)%Z then
        say (lit "(1/1) Upgrading " ++ line ++ lit " " ++ dv ++ lit " -> " ++ iv ++ lit "...") ;;
        fun f o =>
          match osd_pkg_fetch f line TARTMP with
          | (f, false) => (say (line ++ lit ": fetch failed (old version kept)") ;; ret (true, false)) f o
          | (f, true) => (let! _ := do_del line in
                          let! r := install_tar_file line true in
                          ret (r, true)) f o
          end
      else ret (false, false)
  | _, _ => ret (false, false)
  end.

Fixpoint upgrade_loop (ix db : cstr) (lines : list cstr) (rc : bool) (nup : nat) : M F (bool * nat) :=
  match lines with
  | [] => ret (rc, nup)
  | l :: lines' =>
      let! r := upgrade_one ix db l in
      upgrade_loop ix db lines' (rc || r.1) (if r.2 then S nup else nup)
  end.

Definition cmd_upgrade : M F bool :=
  let! ix := get_index true in
  let! db := read_file_or_empty DB in
  let! w := read_file_or_empty WORLD in
  let! r := upgrade_loop ix db (strtok_all NL w) false 0 in
  say (lit "OK: " ++ fmt_d (Z.of_nat r.2) ++ lit " package(s) upgraded") ;;
  ret r.1.

Definition cmd_sync_world : M F bool :=
  unlink DB ;;
  let! w := read_file_or_empty WORLD in
  for_each (fun line => do_add line false) (strtok_all NL w) false.

(** [apk_main] on the arguments after the applet's name. *)
Definition apk_main (args : list cstr) : M F bool :=
  match args with
  | [] => usage
  | cmd :: args =>
      if bool_decide (cmd = lit "update") then cmd_update
      else if bool_decide (cmd = lit "list" \/ cmd = lit "search") then cmd_list (head args)
      else if bool_decide (cmd = lit "info") then
        match args with [] => usage | name :: _ => cmd_info name end
      else if bool_decide (cmd = lit "add") then
        let '(world, names) := match args with
                               | a :: rest => if bool_decide (a = lit "--no-world") then (false, rest) else (true, args)
                               | [] => (true, [])
                               end in
        match names with [] => usage | _ => for_each (fun n => do_add n world) names false end
      else if bool_decide (cmd = lit "del") then
        match args with [] => usage | _ => for_each do_del args false end
      else if bool_decide (cmd = lit "upgrade") then cmd_upgrade
      else if bool_decide (cmd = lit "sync-world") then cmd_sync_world
      else usage
  end.

End Commands.
