(* ===== verification/ApkTar.v ===== *)
(** * miscutils/apk.c: extraction of an archive

    The archives tools/pack_pkg.py makes: one 512-byte ustar header per regular
    file (name, size in octal, type flag; the other fields are arbitrary here),
    its data padded to 512 bytes, and a final zero block.  The theorem: extracting
    such an archive writes exactly its files, in order, and lists them. *)

From Stdlib Require Import Ascii String ZArith Lia.
From stdpp Require Import base gmap list strings.
From S2P Require Import Prelude Clib LibbbStr Apk.

Local Open Scope nat_scope.

(** ** Packing *)

(** [k] octal digits. *)
Fixpoint octal (k : nat) (v : Z) : cstr :=
  match k with
  | O => []
  | S k' => octal k' (v / 8) ++ [chr (48 + v mod 8)]
  end.

Record entry := mk_entry {
  en_name : cstr;
  en_data : cstr;
  en_m1 : cstr;      (* mode, uid, gid *)
  en_m2 : cstr;      (* mtime, checksum *)
  en_m3 : cstr;      (* from the link name on *)
}.

Definition en_size (e : entry) : nat := length (en_data e).

Definition header (e : entry) : cstr :=
  (en_name e ++ replicate (100 - length (en_name e)) NUL) ++ en_m1 e ++
  (octal 11 (Z.of_nat (en_size e)) ++ [NUL]) ++ en_m2 e ++ lit "0" ++ en_m3 e.

(** A partial last block is filled up; a full one is not followed by more. *)
Definition padding (size : nat) : nat :=
  let rest := size mod 512 in if rest =? 0 then 0 else 512 - rest.

Lemma pad_of_padding size : pad_of size = padding size.
Proof.
  unfold pad_of, padding, BLOCK. pose proof (Nat.mod_upper_bound size 512 ltac:(lia)).
  destruct (Nat.eqb_spec (size mod 512) 0) as [->|]; [done|]. apply Nat.mod_small. lia.
Qed.

Definition packed (e : entry) : cstr :=
  header e ++ en_data e ++ replicate (padding (en_size e)) NUL.

Definition archive (es : list entry) : cstr := concat (map packed es) ++ replicate 1024 NUL.

Record entry_ok (e : entry) : Prop := mk_entry_ok {
  ok_name : en_name e <> [];
  ok_nul : NUL ∉ en_name e;
  ok_len : length (en_name e) <= 100;
  ok_m1 : length (en_m1 e) = 24;
  ok_m2 : length (en_m2 e) = 20;
  ok_m3 : length (en_m3 e) = 355;
  ok_size : (Z.of_nat (en_size e) < 2 ^ 32)%Z;
}.

(** ** Reading a header back *)

Lemma length_octal k v : length (octal k v) = k.
Proof. revert v. induction k as [|k IH]; intros v; cbn [octal]; [done|]. rewrite length_app, IH. simpl. lia. Qed.

Lemma oct_digit d : (0 <= d < 8)%Z ->
  (chr (48 + d) ≟ NUL) = false /\ ((48 <=? uc (chr (48 + d))) && (uc (chr (48 + d)) <=? 55))%Z = true /\
  (uc (chr (48 + d)) - 48 = d)%Z.
Proof.
  intros Hd. rewrite ceqb_uc, uc_chr by lia. change (uc NUL) with 0%Z. split; [lia|]. split; [|lia].
  apply andb_true_iff. lia.
Qed.

Lemma oct_octal k v rest len acc :
  (0 <= v < 8 ^ Z.of_nat k)%Z -> (0 <= acc)%Z -> (acc * 8 ^ Z.of_nat k + v < 2 ^ 32)%Z ->
  oct_loop (octal k v ++ rest) (k + len) acc = oct_loop rest len (acc * 8 ^ Z.of_nat k + v)%Z.
Proof.
  revert v rest len. induction k as [|k IH]; intros v rest len Hv Ha Hs.
  { simpl in *. f_equal; lia. }
  rewrite Nat2Z.inj_succ, Z.pow_succ_r in * by lia. set (P := (8 ^ Z.of_nat k)%Z) in *.
  pose proof (Z.div_mod v 8 ltac:(lia)) as Hd. pose proof (Z.mod_pos_bound v 8 ltac:(lia)) as Hm.
  assert (0 <= v / 8 < P)%Z by (split; [apply Z.div_pos; lia|apply Z.div_lt_upper_bound; lia]).
  cbn [octal]. rewrite <- app_assoc. replace (S k + len) with (k + S len) by lia.
  rewrite IH by lia. cbn [app oct_loop].
  destruct (oct_digit (v mod 8)) as (-> & -> & ->); [lia|].
  rewrite wrapU_id by (unfold is_u; lia). f_equal. lia.
Qed.

Lemma c_str_app a b : NUL ∉ a -> c_str (a ++ b) = a ++ c_str b.
Proof.
  intros Ha. unfold c_str.
  assert (strchrnul (a ++ b) NUL = strchrnul b NUL) as ->.
  { induction a as [|c a IH]; [done|]. apply not_elem_of_cons in Ha as [Hc Ha]. cbn [app strchrnul].
    destruct (Ascii.eqb_spec c NUL) as [->|]; [done|]. by apply IH. }
  unfold upto. rewrite length_app.
  pose proof (within_length _ _ (strchrnul_within b NUL)).
  rewrite take_app, (take_ge a) by lia. f_equal. f_equal. lia.
Qed.

Lemma c_str_nul x : c_str (NUL :: x) = [].
Proof. unfold c_str, upto. cbn [strchrnul]. rewrite Ascii.eqb_refl, Nat.sub_diag. done. Qed.

Lemma c_str_clean a : NUL ∉ a -> c_str a = a.
Proof. intros Ha. rewrite <- (app_nil_r a) at 1. rewrite c_str_app by done. apply app_nil_r. Qed.

Section Header.
Variable e : entry.
Hypothesis He : entry_ok e.

Lemma length_header : length (header e) = 512.
Proof.
  destruct He. unfold header. rewrite !length_app, length_replicate, length_octal. simpl. lia.
Qed.

Lemma header_first : (hd0 (header e) ≟ NUL) = false.
Proof.
  destruct He. unfold header. destruct (en_name e) as [|c n]; [done|]. cbn.
  apply not_elem_of_cons in ok_nul0 as [Hc _]. apply Ascii.eqb_neq. congruence.
Qed.

Lemma header_name : safe_strncpy [] (c_str (header e)) 101 = en_name e.
Proof.
  destruct He. unfold header. rewrite <- app_assoc, c_str_app by done. cbn [safe_strncpy].
  destruct (100 - length (en_name e)) eqn:Ek.
  - rewrite take_app_le by lia. by apply take_ge; lia.
  - cbn [replicate app]. rewrite c_str_nul, app_nil_r. by apply take_ge; lia.
Qed.

Lemma header_drop n a b : header e = a ++ b -> length a = n -> drop n (header e) = b.
Proof. intros -> <-. apply drop_app_length. Qed.

Lemma header_size : oct (drop 124 (header e)) 12 = Z.of_nat (en_size e).
Proof.
  destruct He. unfold oct.
  rewrite (header_drop 124 ((en_name e ++ replicate (100 - length (en_name e)) NUL) ++ en_m1 e)
    (octal 11 (Z.of_nat (en_size e)) ++ NUL :: en_m2 e ++ lit "0" ++ en_m3 e)).
  - change 12 with (11 + 1). rewrite oct_octal by (simpl; lia). done.
  - unfold header. by rewrite <- !app_assoc.
  - rewrite !length_app, length_replicate. lia.
Qed.

Lemma header_type : at0 (header e) 156 = "0"%char.
Proof.
  destruct He. unfold at0.
  by rewrite (header_drop 156 ((en_name e ++ replicate (100 - length (en_name e)) NUL) ++ en_m1 e ++
    (octal 11 (Z.of_nat (en_size e)) ++ [NUL]) ++ en_m2 e) ("0"%char :: en_m3 e));
    [|unfold header; rewrite <- !app_assoc|rewrite !length_app, length_replicate, length_octal; simpl; lia].
Qed.
End Header.

(** ** Extraction *)

Section Extract.
Context {F : Type} `{FileSys F}.
Local Open Scope apk_scope.

(** One entry is consumed per turn. *)
Lemma tar_loop_entry e fuel rest files pkginfo f o :
  entry_ok e ->
  tar_loop (S fuel) (packed e ++ rest) files pkginfo f o =
  if bool_decide (en_name e = PKGINFO) then tar_loop fuel rest files (Some (en_data e)) f o
  else (write_file (lit "/" ++ en_name e) (en_data e) ;;
        tar_loop fuel rest (files ++ lit "F:" ++ (lit "/" ++ en_name e) ++ [NL]) pkginfo) f o.
Proof.
  intros He. cbn [tar_loop]. unfold packed. rewrite <- !app_assoc.
  pose proof (length_header e He) as Hl. unfold BLOCK.
  rewrite (take_app_length' _ _ 512), (drop_app_length' _ _ 512) by done.
  rewrite Hl, Nat.eqb_refl, (header_first e He), (header_size e He), Nat2Z.id, (header_name e He), (header_type e He).
  rewrite !(take_app_length' (en_data e) _ (en_size e)), !(drop_app_length' (en_data e) _ (en_size e)) by done.
  fold (en_size e). rewrite Nat.eqb_refl.
  rewrite pad_of_padding, (drop_app_length' _ _ (padding (en_size e))) by (by rewrite length_replicate).
  cbn [negb]. change (("0" ≟ "0"%char)) with true. cbn [negb andb].
  rewrite strcmp_eq; [by case_bool_decide|apply He|by_eval].
Qed.

(** The zero block ends the archive. *)
Lemma tar_loop_end fuel n files pkginfo f o :
  512 <= n -> tar_loop fuel (replicate n NUL) files pkginfo f o = Ok f o (files, pkginfo).
Proof.
  intros Hn. destruct fuel; [done|]. cbn [tar_loop]. unfold BLOCK.
  rewrite length_take, length_replicate, Nat.min_l, Nat.eqb_refl by done.
  rewrite take_replicate, Nat.min_l by done. done.
Qed.

(** What an archive does: the files written, their listing, the package info. *)
Definition is_info (e : entry) : bool := bool_decide (en_name e = PKGINFO).
Definition path_of (e : entry) : cstr := lit "/" ++ en_name e.

Fixpoint write_all (f : F) (es : list entry) : option F :=
  match es with
  | [] => Some f
  | e :: es' => if is_info e then write_all f es'
                else match fs_write f (path_of e) (en_data e) with
                     | Some f => write_all f es'
                     | None => None
                     end
  end.

Fixpoint listing (es : list entry) : cstr :=
  match es with
  | [] => []
  | e :: es' => if is_info e then listing es' else lit "F:" ++ path_of e ++ [NL] ++ listing es'
  end.

Fixpoint info_of (es : list entry) (pi : option cstr) : option cstr :=
  match es with
  | [] => pi
  | e :: es' => info_of es' (if is_info e then Some (en_data e) else pi)
  end.

Lemma tar_loop_archive es fuel files pkginfo f o f' :
  Forall entry_ok es -> length es <= fuel -> write_all f es = Some f' ->
  tar_loop fuel (archive es) files pkginfo f o = Ok f' o (files ++ listing es, info_of es pkginfo).
Proof.
  intros Hes. revert fuel files pkginfo f. induction Hes as [|e es He _ IH]; intros fuel files pkginfo f Hf Hw.
  - injection Hw as <-. cbn [listing info_of]. rewrite app_nil_r. apply tar_loop_end. lia.
  - destruct fuel as [|fuel]; simpl in Hf; [lia|]. unfold archive. cbn [map concat]. rewrite <- app_assoc.
    fold (archive es). rewrite tar_loop_entry by done. cbn [write_all listing info_of] in *.
    fold (is_info e). destruct (is_info e).
    + by apply IH; [lia|].
    + unfold bind, write_file. fold (path_of e).
      destruct (fs_write f (path_of e) (en_data e)) as [f1|]; [|done].
      rewrite IH by (lia || done). f_equal. f_equal. by rewrite <- !app_assoc.
Qed.

Lemma archive_fuel es : Forall entry_ok es -> length es <= S (length (archive es)).
Proof.
  intros Hes. unfold archive. rewrite length_app. enough (length es <= length (concat (map packed es))) by lia.
  induction Hes as [|e es He _ IH]; [done|]. cbn [map concat length]. rewrite length_app. unfold packed at 1.
  rewrite !length_app, (length_header e He). lia.
Qed.

(** C19. Extracting an archive of regular files (names up to 100 characters)
    writes exactly its files, in order and with their exact contents, lists them
    as [F:] lines, and hands back the last [.PKGINFO] instead of writing it. *)
Theorem tar_extract_archive es tarpath f o f' :
  Forall entry_ok es -> fs_read f tarpath = Some (archive es) -> write_all f es = Some f' ->
  tar_extract tarpath f o = Ok f' o (listing es, info_of es None).
Proof.
  intros Hes Hr Hw. unfold tar_extract. rewrite Hr.
  by rewrite (tar_loop_archive es _ [] None f o f') by (done || by apply archive_fuel).
Qed.

End Extract.

Definition file_entry (name data : string) : entry :=
  mk_entry (lit name) (lit data) (replicate 24 "0"%char) (replicate 20 "0"%char) (replicate 355 NUL).

Definition sample_pkg : list entry :=
  [file_entry ".PKGINFO" "pkgname = hello
pkgver = 1.2
pkgdesc = says hello
"; file_entry "usr/bin/hello" "#!/bin/sh"].

Lemma tar_extract_archive_witness :
  tar_extract TARTMP ({[ TARTMP := archive sample_pkg ]} : gmap cstr cstr) [] =
  Ok (<[ lit "/usr/bin/hello" := lit "#!/bin/sh" ]> {[ TARTMP := archive sample_pkg ]}) []
    (lit "F:/usr/bin/hello" ++ [NL], Some (en_data (file_entry ".PKGINFO" "pkgname = hello
pkgver = 1.2
pkgdesc = says hello
"))).
Proof.
  apply (tar_extract_archive sample_pkg TARTMP).
  - repeat constructor; try (vm_compute; lia); try (by_eval); discriminate.
  - apply lookup_singleton_eq.
  - reflexivity.
Defined.
