(* ===== verification/ApkDb.v ===== *)
(** * miscutils/apk.c: installing and removing packages

    The database and the world as texts, what [do_add] and [do_del] do to every
    file, and that removing what was added restores the state.  [fetched] is
    what the code relies on of the host's download: it writes the archive at the
    given path and nothing else. *)

From Stdlib Require Import Ascii String ZArith Lia.
From stdpp Require Import base gmap list strings.
From S2P Require Import Prelude Clib LibbbStr Apk ApkTar.

Local Open Scope nat_scope.

(** ** Lines *)

Definition lines_text (ls : list cstr) : cstr := concat (map (fun l => l ++ [NL]) ls).

Definition line_ok (l : cstr) : Prop := l <> [] /\ NL ∉ l.

Lemma starts_blank c t : starts_with [NL; NL] (c :: t) = (NL ≟ c) && (hd0 t ≟ NL).
Proof.
  cbn [starts_with]. destruct (NL ≟ c); [|done]. cbn [andb]. destruct t as [|d t]; [done|]. cbn [hd0].
  rewrite (Ascii.eqb_sym d NL). by destruct (NL ≟ d), t.
Qed.

(** Inside a line there is no blank line. *)
Lemma strstr_line l t :
  NL ∉ l -> strstr (l ++ NL :: t) [NL; NL] = if (hd0 t ≟ NL) then Some (NL :: t) else strstr t [NL; NL].
Proof.
  induction l as [|c l IH]; intros Hl.
  - cbn [app strstr]. rewrite starts_blank, Ascii.eqb_refl. done.
  - apply not_elem_of_cons in Hl as [Hc Hl]. cbn [app strstr]. rewrite starts_blank.
    rewrite (proj2 (Ascii.eqb_neq NL c) Hc). cbn [andb]. by apply IH.
Qed.

Lemma lines_text_hd ls t : Forall line_ok ls -> ls <> [] -> (hd0 (lines_text ls ++ t) ≟ NL) = false.
Proof.
  intros Hls Hn. destruct Hls as [|l ls [Hl1 Hl2] _]; [done|]. destruct l as [|c l]; [done|]. cbn.
  apply not_elem_of_cons in Hl2 as [Hc _]. apply Ascii.eqb_neq. congruence.
Qed.

(** The first blank line after some lines. *)
Lemma strstr_blank ls t :
  Forall line_ok ls -> ls <> [] ->
  strstr (lines_text ls ++ [NL] ++ t) [NL; NL] = Some (NL :: NL :: t).
Proof.
  intros Hls Hn. induction Hls as [|l ls [Hl1 Hl2] Hls IH]; [done|].
  unfold lines_text. cbn [map concat]. rewrite <- !app_assoc. cbn [app]. fold (lines_text ls).
  rewrite strstr_line by done. destruct ls as [|l' ls].
  - by cbn.
  - rewrite (lines_text_hd (l' :: ls)) by done. by apply IH.
Qed.

(** The paths of the F: lines. *)
Definition file_line (l : cstr) : option cstr :=
  if (at0 l 0 ≟ "F"%char) && (at0 l 1 ≟ ":"%char) then Some (drop 2 l) else None.

Lemma at0_app_l l t i : i < length l -> at0 (l ++ t) i = at0 l i.
Proof. intros Hi. unfold at0. rewrite drop_app_le by lia. destruct (drop i l) eqn:E; [|done].
  apply (f_equal length) in E. rewrite length_drop in E. simpl in E. lia.
Qed.

Lemma file_line_app l t : NL ∉ l ->
  (at0 (l ++ NL :: t) 0 ≟ "F"%char) && (at0 (l ++ NL :: t) 1 ≟ ":"%char) =
  (at0 l 0 ≟ "F"%char) && (at0 l 1 ≟ ":"%char).
Proof.
  intros Hl. destruct l as [|a [|b l]].
  - done.
  - change (at0 ([a] ++ NL :: t) 0) with a. change (at0 ([a] ++ NL :: t) 1) with NL.
    change (at0 [a] 0) with a. change (at0 [a] 1) with NUL. by destruct (a ≟ "F"%char).
  - by rewrite !at0_app_l by (simpl; lia).
Qed.

Lemma stanza_files_lines ls fuel :
  Forall line_ok ls -> length (lines_text ls) < fuel ->
  stanza_files fuel (lines_text ls ++ [NL]) = omap file_line ls.
Proof.
  intros Hls. revert fuel. induction Hls as [|l ls [Hl1 Hl2] Hls IH]; intros [|fuel] Hf; try lia.
  - cbn. by destruct fuel.
  - unfold lines_text in *. cbn [map concat] in *. rewrite <- !app_assoc in *. cbn [app] in *.
    fold (lines_text ls) in *. rewrite length_app in Hf. simpl in Hf.
    cbn [stanza_files]. destruct (l ++ NL :: lines_text ls ++ [NL]) as [|c x] eqn:E; [by destruct l|].
    rewrite <- E. rewrite file_line_app by done. rewrite strchrnul_app by done. cbn [tail].
    rewrite IH by lia. cbn [omap list_omap].
    replace (file_line l) with (if (at0 l 0 ≟ "F"%char) && (at0 l 1 ≟ ":"%char) then Some (drop 2 l) else None)
      by done.
    destruct ((at0 l 0 ≟ "F"%char) && (at0 l 1 ≟ ":"%char)) eqn:Ef; [|done]. f_equal.
    destruct l as [|a [|b l]]; [done|bool_prop; discriminate|]. cbn [app drop]. rewrite ?drop_0. apply upto_app.
Qed.

(** ** A stanza as lines *)

Definition stanza_lines (name ver desc : cstr) (paths : list cstr) : list cstr :=
  (lit "P:" ++ name) :: (lit "V:" ++ ver) :: (lit "T:" ++ desc) :: map (fun p => lit "F:" ++ p) paths.

Definition files_text (paths : list cstr) : cstr := concat (map (fun p => lit "F:" ++ p ++ [NL]) paths).

Lemma stanza_text_lines name ver desc paths :
  stanza_text name ver desc (files_text paths) = lines_text (stanza_lines name ver desc paths) ++ [NL].
Proof.
  unfold stanza_text, lines_text, stanza_lines. cbn [map concat]. rewrite <- !app_assoc. do 9 f_equal.
  f_equal. unfold files_text. induction paths as [|p paths IH]; [done|]. cbn [map concat].
  rewrite IH. by rewrite <- !app_assoc.
Qed.

Record names_ok (name ver desc : cstr) (paths : list cstr) : Prop := mk_names_ok {
  no_name : NL ∉ name; no_ver : NL ∉ ver; no_desc : NL ∉ desc; no_paths : Forall (fun p => NL ∉ p) paths;
}.

Lemma NL_tag (tag : string) (s : cstr) : NL ∉ lit tag -> NL ∉ s -> NL ∉ lit tag ++ s.
Proof. intros H1 H2. by apply not_elem_of_app. Qed.

Lemma stanza_lines_ok name ver desc paths :
  names_ok name ver desc paths -> Forall line_ok (stanza_lines name ver desc paths).
Proof.
  intros [H1 H2 H3 H4]. unfold stanza_lines.
  repeat (constructor; [split; [done|]; apply NL_tag; [by_eval|done]|]).
  induction H4 as [|p paths Hp _ IH]; cbn [map]; [constructor|]. constructor; [|done].
  split; [done|]. apply NL_tag; [by_eval|done].
Qed.

Lemma stanza_lines_files name ver desc paths : omap file_line (stanza_lines name ver desc paths) = paths.
Proof.
  unfold stanza_lines. cbn. induction paths as [|p paths IH]; [done|]. cbn. by rewrite IH, drop_0.
Qed.

Lemma cut_stanza_ok name ver desc paths post :
  names_ok name ver desc paths ->
  cut_stanza (stanza_text name ver desc (files_text paths) ++ post) =
  (stanza_text name ver desc (files_text paths), post).
Proof.
  intros Hn. unfold cut_stanza. rewrite stanza_text_lines, <- app_assoc.
  rewrite strstr_blank by (by apply stanza_lines_ok || done). cbn [drop]. rewrite drop_0.
  f_equal. rewrite app_assoc. apply upto_app.
Qed.

Lemma stanza_paths name ver desc paths :
  names_ok name ver desc paths ->
  let st := stanza_text name ver desc (files_text paths) in
  stanza_files (S (length st)) st = paths.
Proof.
  intros Hn st. subst st. rewrite stanza_text_lines, stanza_files_lines.
  - apply stanza_lines_files.
  - by apply stanza_lines_ok.
  - rewrite length_app. lia.
Qed.

Lemma stanza_starts name ver desc files post pre :
  NL ∉ name -> ends_nl pre -> strstr pre (lit "P:" ++ name ++ [NL]) = None ->
  strstr (pre ++ stanza_text name ver desc files ++ post) (lit "P:" ++ name ++ [NL]) =
  Some (stanza_text name ver desc files ++ post).
Proof.
  intros Hn He Hs. rewrite (app_assoc (lit "P:") name [NL]) in *.
  assert (stanza_text name ver desc files ++ post = (lit "P:" ++ name) ++ [NL] ++
    (lit "V:" ++ ver ++ [NL] ++ lit "T:" ++ desc ++ [NL] ++ files ++ [NL] ++ post)) as ->.
  { unfold stanza_text. by rewrite <- !app_assoc. }
  apply strstr_append_line; [|done|done]. apply NL_tag; [by_eval|done].
Qed.

(** ** Commands on a writable file system *)

Section Db.
Context {F : Type} `{FileSysLaws F}.

Hypothesis writable : forall f p d, is_Some (fs_write f p d).
Hypothesis appendable : forall f p d, is_Some (fs_append f p d).

Definition content (f : F) (p : cstr) : cstr := default [] (fs_read f p).

Lemma read_clean f o p : NUL ∉ content f p -> read_file_or_empty p f o = Ok f o (content f p).
Proof.
  unfold read_file_or_empty, content. destruct (fs_read f p) as [b|]; [|done]. simpl. intros Hb.
  by rewrite c_str_clean.
Qed.

Lemma write_ok f o p d : exists f', write_file p d f o = Ok f' o tt /\
  forall q, fs_read f' q = if decide (q = p) then Some d else fs_read f q.
Proof.
  destruct (writable f p d) as [f' Hf]. exists f'. unfold write_file. rewrite Hf. split; [done|].
  intros q. by apply read_write.
Qed.

Lemma append_ok f o p d : exists f', append_file p d f o = Ok f' o tt /\
  forall q, fs_read f' q = if decide (q = p) then Some (content f p ++ d) else fs_read f q.
Proof.
  destruct (appendable f p d) as [f' Hf]. exists f'. unfold append_file. rewrite Hf. split; [done|].
  intros q. by apply read_append.
Qed.

Lemma unlink_all_read ps f q :
  fs_read (foldl fs_unlink f ps) q = if decide (q ∈ ps) then None else fs_read f q.
Proof.
  revert f. induction ps as [|p ps IH]; intros f; cbn [foldl]; [done|].
  rewrite IH, read_unlink. repeat case_decide; try done; exfalso; set_solver.
Qed.

(** ** Removing *)

Lemma drop_from_world_ok name wpre wpost f o :
  NL ∉ name -> content f WORLD = wpre ++ name ++ [NL] ++ wpost -> NUL ∉ content f WORLD ->
  ends_nl wpre -> strstr wpre (name ++ [NL]) = None ->
  exists f', drop_from_world name f o = Ok f' o tt /\
    forall q, fs_read f' q = if decide (q = WORLD) then Some (wpre ++ wpost) else fs_read f q.
Proof.
  intros Hn Ew Cw He Hno. unfold drop_from_world, bind. rewrite read_clean by done. rewrite Ew.
  rewrite strstr_append_line by done. rewrite upto_app.
  replace (bool_decide (wpre = []) || (default NUL (last wpre) ≟ NL)) with true.
  2: { destruct He as [->|Hl]; [done|]. by rewrite Hl, orb_true_r. }
  rewrite app_assoc, drop_app_length. apply write_ok.
Qed.

(** Removing an installed package deletes exactly its recorded files, cuts its
    stanza out of the database and its line out of the world, and changes no
    other file. *)
Lemma do_del_ok name ver desc paths pre post wpre wpost f o :
  names_ok name ver desc paths -> DB ∉ paths -> WORLD ∉ paths ->
  content f DB = pre ++ stanza_text name ver desc (files_text paths) ++ post -> NUL ∉ content f DB ->
  ends_nl pre -> strstr pre (lit "P:" ++ name ++ [NL]) = None ->
  content f WORLD = wpre ++ name ++ [NL] ++ wpost -> NUL ∉ content f WORLD ->
  ends_nl wpre -> strstr wpre (name ++ [NL]) = None ->
  exists f', do_del name f o = Ok f' (o ++ [lit "OK: " ++ name ++ lit " removed"]) false /\
    forall q, fs_read f' q = if decide (q = WORLD) then Some (wpre ++ wpost)
                             else if decide (q = DB) then Some (pre ++ post)
                             else if decide (q ∈ paths) then None else fs_read f q.
Proof.
  intros Hn HD HW Edb Cdb Hpre Hno Ew Cw Hwpre Hwno.
  unfold do_del, bind at 1. rewrite read_clean by done. rewrite Edb.
  rewrite stanza_starts by (done || apply Hn). rewrite cut_stanza_ok, stanza_paths, upto_app by done.
  unfold bind at 1, unlink_all.
  destruct (write_ok (foldl fs_unlink f paths) o DB (pre ++ post)) as (f2 & E2 & R2).
  unfold bind at 1. rewrite E2.
  assert (content f2 WORLD = content f WORLD) as Ew2.
  { unfold content. by rewrite R2, decide_False, unlink_all_read, decide_False by (done || by_eval). }
  destruct (drop_from_world_ok name wpre wpost f2 o) as (f3 & E3 & R3); rewrite ?Ew2; try done; [apply Hn|].
  unfold bind at 1. rewrite E3. exists f3. split; [done|]. intros q. rewrite R3, R2, unlink_all_read. done.
Qed.

(** ** Installing *)

(** The paths an archive writes, and what it leaves at a path. *)
Definition paths_of (es : list entry) : list cstr := path_of <$> filter (fun e => is_info e = false) es.

Fixpoint written (es : list entry) (q : cstr) : option cstr :=
  match es with
  | [] => None
  | e :: es' => match written es' q with
                | Some d => Some d
                | None => if is_info e then None
                          else if decide (q = path_of e) then Some (en_data e) else None
                end
  end.

Lemma listing_files es : listing es = files_text (paths_of es).
Proof.
  induction es as [|e es IH]; [done|]. cbn [listing]. unfold paths_of. rewrite filter_cons.
  destruct (is_info e) eqn:Ei; rewrite ?decide_True, ?decide_False by done; [done|].
  unfold files_text. cbn. rewrite IH. by rewrite <- !app_assoc.
Qed.

Lemma write_all_ok es f : exists f', write_all f es = Some f' /\
  forall q, fs_read f' q = match written es q with Some d => Some d | None => fs_read f q end.
Proof.
  revert f. induction es as [|e es IH]; intros f; cbn [write_all written]; [by exists f|].
  destruct (is_info e).
  - destruct (IH f) as (f' & E' & R'). exists f'. split; [done|]. intros q. rewrite R'. by destruct (written es q).
  - destruct (writable f (path_of e) (en_data e)) as [f1 E1]. rewrite E1.
    destruct (IH f1) as (f' & E' & R'). exists f'. split; [done|]. intros q. rewrite R'.
    destruct (written es q); [done|]. rewrite (read_write _ _ _ _ _ E1). by case_decide.
Qed.

Lemma written_none es q : q ∉ paths_of es -> written es q = None.
Proof.
  unfold paths_of. induction es as [|e es IH]; [done|]. rewrite filter_cons. cbn [written].
  destruct (is_info e) eqn:Ei; rewrite ?decide_True, ?decide_False by done.
  - intros Hq. by rewrite IH.
  - rewrite fmap_cons, not_elem_of_cons. intros [Hne Hq]. by rewrite IH, decide_False.
Qed.

Lemma add_to_world_ok name f o :
  NUL ∉ content f WORLD -> in_lines (content f WORLD) name = false ->
  exists f', add_to_world name f o = Ok f' o tt /\
    forall q, fs_read f' q = if decide (q = WORLD) then Some (content f WORLD ++ name ++ [NL]) else fs_read f q.
Proof.
  intros Cw Hl. unfold add_to_world, bind. rewrite read_clean by done. rewrite Hl. apply append_ok.
Qed.

(** A package as downloaded: its archive and what its information says. *)
Record package (es : list entry) (ver desc : cstr) : Prop := mk_package {
  pk_entries : Forall entry_ok es;
  pk_ver : pi_get (c_str (default [] (info_of es None))) (lit "pkgver") = Some ver;
  pk_desc : pi_get (c_str (default [] (info_of es None))) (lit "pkgdesc") = Some desc;
  pk_db : DB ∉ paths_of es;
  pk_world : WORLD ∉ paths_of es;
  pk_tmp : TARTMP ∉ paths_of es;
}.

Lemma install_ok name es ver desc f o :
  package es ver desc -> fs_read f TARTMP = Some (archive es) ->
  NUL ∉ content f WORLD -> in_lines (content f WORLD) name = false ->
  exists f', install_tar_file name true f o = Ok f' (o ++ [lit "OK: " ++ name ++ lit " installed"]) false /\
    forall q, fs_read f' q =
      if decide (q = WORLD) then Some (content f WORLD ++ name ++ [NL])
      else if decide (q = DB) then Some (content f DB ++ stanza_text name ver desc (files_text (paths_of es)))
      else if decide (q = TARTMP) then None
      else match written es q with Some d => Some d | None => fs_read f q end.
Proof.
  intros [Hes Hv Hd HD HW HT] Ht Cw Hl.
  destruct (write_all_ok es f) as (f1 & E1 & R1).
  unfold install_tar_file, bind at 1.
  unfold tar_extract. rewrite Ht, (tar_loop_archive es _ [] None f o f1) by (done || by apply archive_fuel).
  unfold bind at 1, unlink. cbn [fst snd app].
  replace (match info_of es None with Some d => c_str d | None => [] end)
    with (c_str (default [] (info_of es None))) by (by destruct (info_of es None)).
  rewrite Hv, Hd, listing_files.
  assert (content (fs_unlink f1 TARTMP) DB = content f DB) as Ed.
  { unfold content. rewrite read_unlink, decide_False by by_eval. by rewrite R1, written_none. }
  destruct (append_ok (fs_unlink f1 TARTMP) o DB (stanza_text name ver desc (files_text (paths_of es))))
    as (f2 & E2 & R2). unfold bind at 1. rewrite E2. rewrite Ed in R2.
  assert (content f2 WORLD = content f WORLD) as Ew.
  { unfold content. rewrite R2, decide_False, read_unlink, decide_False by by_eval. by rewrite R1, written_none. }
  destruct (add_to_world_ok name f2 o) as (f3 & E3 & R3); rewrite ?Ew; try done.
  unfold bind at 1. rewrite E3. exists f3. split; [done|]. intros q. rewrite R3, R2, read_unlink, R1, Ew. done.
Qed.

(** What is relied on of the download. *)
Definition fetched (fetch : F -> cstr -> cstr -> F * bool) (name : cstr) (es : list entry) (f : F) : Prop :=
  exists f', fetch f name TARTMP = (f', true) /\ fs_read f' TARTMP = Some (archive es) /\
    forall q, q <> TARTMP -> fs_read f' q = fs_read f q.

(** The file system after installing. *)
Definition installed (name ver desc : cstr) (es : list entry) (f f' : F) : Prop :=
  forall q, fs_read f' q =
    if decide (q = WORLD) then Some (content f WORLD ++ name ++ [NL])
    else if decide (q = DB) then Some (content f DB ++ stanza_text name ver desc (files_text (paths_of es)))
    else if decide (q = TARTMP) then None
    else match written es q with Some d => Some d | None => fs_read f q end.

Lemma do_add_ok fetch name es ver desc f o :
  package es ver desc -> fetched fetch name es f ->
  NUL ∉ content f DB -> strstr (content f DB) (lit "P:" ++ name ++ [NL]) = None ->
  NUL ∉ content f WORLD -> in_lines (content f WORLD) name = false ->
  exists f' o', do_add fetch name true f o = Ok f' o' false /\ installed name ver desc es f f'.
Proof.
  intros Hp (f1 & Ef & Et & Ro) Cdb Hno Cw Hl.
  assert (content f1 WORLD = content f WORLD) as Ew by (unfold content; by rewrite Ro by by_eval).
  assert (content f1 DB = content f DB) as Ed by (unfold content; by rewrite Ro by by_eval).
  destruct (install_ok name es ver desc f1 (o ++ [lit "(1/1) Installing " ++ name ++ lit "..."]) Hp Et)
    as (f2 & E2 & R2); rewrite ?Ew; try done.
  exists f2, ((o ++ [lit "(1/1) Installing " ++ name ++ lit "..."]) ++ [lit "OK: " ++ name ++ lit " installed"]).
  split.
  - unfold do_add, bind at 1. rewrite read_clean by done. rewrite Hno. unfold bind at 1, say at 1.
    by rewrite Ef, E2.
  - intros q. rewrite R2, Ew, Ed. repeat case_decide; try done. by rewrite Ro.
Qed.

(** A longer needle at the first place of a shorter one. *)
Lemma strstr_longer h n x r t : strstr h n = Some r -> r = n ++ x ++ t -> strstr h (n ++ x) = Some r.
Proof.
  intros Hs ->. assert (starts_with (n ++ x) (n ++ x ++ t) = true) as Hx.
  { rewrite app_assoc. apply starts_with_app. }
  induction h as [|c h IH]; cbn [strstr] in *.
  - destruct (starts_with n []) eqn:E; [|done]. injection Hs as Hs. rewrite Hs. by rewrite Hx.
  - destruct (starts_with n (c :: h)) eqn:E.
    + injection Hs as Hs. rewrite Hs. by rewrite Hx.
    + destruct (starts_with (n ++ x) (c :: h)) eqn:E2; [|by apply IH].
      apply starts_with_spec in E2 as [r E2]. rewrite <- app_assoc in E2. by rewrite E2, starts_with_app in E.
Qed.

Lemma db_ver_stanza name ver desc files pre post :
  NL ∉ name -> NL ∉ ver -> ends_nl pre -> strstr pre (lit "P:" ++ name ++ [NL]) = None ->
  db_ver (pre ++ stanza_text name ver desc files ++ post) name = Some ver.
Proof.
  intros Hn Hv He Hno. unfold db_ver.
  pose proof (stanza_starts name ver desc files post pre Hn He Hno) as Hs.
  set (t := ver ++ NL :: lit "T:" ++ desc ++ [NL] ++ files ++ [NL] ++ post).
  assert (stanza_text name ver desc files ++ post = (lit "P:" ++ name ++ [NL]) ++ lit "V:" ++ t) as Et.
  { unfold stanza_text, t. by rewrite <- !app_assoc. }
  pose proof (strstr_longer _ _ (lit "V:") _ t Hs Et) as Hl. rewrite <- !app_assoc in Hl. rewrite Hl.
  rewrite Et. rewrite (app_assoc _ (lit "V:") t).
  rewrite (drop_app_length' _ _ _) by (by rewrite <- !app_assoc). unfold t.
  rewrite strchrnul_app by done. by rewrite upto_app.
Qed.

(** C18. Installing a package that is not installed: the archive's files are
    written with their contents, the database gets the package's stanza, the
    world its line (when no line had its name), the downloaded archive is gone,
    and no other file changes; afterwards [db_ver] finds the archive's version,
    and adding it once more changes nothing. *)
Theorem do_add_installs fetch name es ver desc f o :
  package es ver desc -> fetched fetch name es f -> NL ∉ name -> NL ∉ ver ->
  NUL ∉ content f DB -> NUL ∉ stanza_text name ver desc (files_text (paths_of es)) ->
  ends_nl (content f DB) -> strstr (content f DB) (lit "P:" ++ name ++ [NL]) = None ->
  NUL ∉ content f WORLD -> in_lines (content f WORLD) name = false ->
  exists f' o', do_add fetch name true f o = Ok f' o' false /\ installed name ver desc es f f' /\
    db_ver (content f' DB) name = Some ver /\
    do_add fetch name true f' o' = Ok f' (o' ++ [name ++ lit ": already installed"]) false.
Proof.
  intros Hp Hf Hn Hv Cdb Cst He Hno Cw Hl.
  destruct (do_add_ok fetch name es ver desc f o) as (f' & o' & E & R); [done..|].
  exists f', o'. split; [done|]. split; [done|].
  assert (content f' DB = content f DB ++ stanza_text name ver desc (files_text (paths_of es)) ++ []) as Ed.
  { unfold content at 1. rewrite R, decide_False, decide_True by by_eval. by rewrite app_nil_r. }
  split.
  - rewrite Ed. by apply db_ver_stanza.
  - unfold do_add, bind at 1. rewrite read_clean.
    2: { rewrite Ed, app_nil_r. by apply not_elem_of_app. }
    rewrite Ed, stanza_starts by done. done.
Qed.

(** C17. Adding a package and removing it again restores the database and the
    world, deletes the package's files and leaves every other file as it was.
    The last hypothesis on the world (its text does not contain the name at the
    end of a line) is needed, as an example below shows. *)
Theorem add_del_restores fetch name es ver desc f o :
  package es ver desc -> fetched fetch name es f -> names_ok name ver desc (paths_of es) ->
  NUL ∉ content f DB -> NUL ∉ stanza_text name ver desc (files_text (paths_of es)) ->
  ends_nl (content f DB) -> strstr (content f DB) (lit "P:" ++ name ++ [NL]) = None ->
  NUL ∉ content f WORLD -> NUL ∉ name -> ends_nl (content f WORLD) ->
  in_lines (content f WORLD) name = false -> strstr (content f WORLD) (name ++ [NL]) = None ->
  exists f1 o1 f2 o2, do_add fetch name true f o = Ok f1 o1 false /\ do_del name f1 o1 = Ok f2 o2 false /\
    forall q, fs_read f2 q =
      if decide (q = WORLD) then Some (content f WORLD)
      else if decide (q = DB) then Some (content f DB)
      else if decide (q ∈ TARTMP :: paths_of es) then None else fs_read f q.
Proof.
  intros Hp Hf Hn Cdb Cst He Hno Cw Cn Hew Hl Hwno.
  destruct (do_add_ok fetch name es ver desc f o) as (f1 & o1 & E1 & R1); [done..|].
  assert (content f1 DB = content f DB ++ stanza_text name ver desc (files_text (paths_of es)) ++ []) as Ed.
  { unfold content at 1. rewrite R1, decide_False, decide_True by by_eval. by rewrite app_nil_r. }
  assert (content f1 WORLD = content f WORLD ++ name ++ [NL] ++ []) as Ew.
  { unfold content at 1. by rewrite R1, decide_True by by_eval. }
  destruct (do_del_ok name ver desc (paths_of es) (content f DB) [] (content f WORLD) [] f1 o1)
    as (f2 & E2 & R2); try done; try apply Hp.
  { rewrite Ed, app_nil_r. by apply not_elem_of_app. }
  { rewrite Ew. apply not_elem_of_app. split; [done|]. apply not_elem_of_app. split; [done|by_eval]. }
  exists f1, o1, f2, (o1 ++ [lit "OK: " ++ name ++ lit " removed"]). split; [done|]. split; [done|].
  intros q. rewrite R2, !app_nil_r.
  destruct (decide (q = WORLD)) as [|HW]; [done|]. destruct (decide (q = DB)) as [|HD]; [done|].
  rewrite R1, (decide_False (P := q = WORLD)), (decide_False (P := q = DB)) by done.
  destruct (decide (q ∈ paths_of es)) as [Hq|Hq]; [by rewrite decide_True by (by right)|].
  rewrite written_none by done. destruct (decide (q = TARTMP)) as [->|HT].
  - by rewrite decide_True by (by left).
  - rewrite decide_False; [done|]. by apply not_elem_of_cons.
Qed.

(** ** Failed downloads *)

Definition same_but_tmp (f f' : F) : Prop := forall q, q <> TARTMP -> fs_read f' q = fs_read f q.

(** The condition under which [upgrade] downloads a package. *)
Definition needs_upgrade (ix db line : cstr) : bool :=
  match index_ver ix line, db_ver db line with
  | Some iv, Some dv => negb (hd0 iv ≟ "?"%char) && negb (strcmp iv dv =? 0)%Z
  | _, _ => false
  end.

Definition downloads_fail (fetch : F -> cstr -> cstr -> F * bool) : Prop :=
  forall f name, (fetch f name TARTMP).2 = false /\ same_but_tmp f (fetch f name TARTMP).1.

Lemma upgrade_one_fails fetch ix db l f o :
  downloads_fail fetch ->
  exists f' o', upgrade_one fetch ix db l f o = Ok f' o' (needs_upgrade ix db l, false) /\ same_but_tmp f f'.
Proof.
  intros Hfail. unfold upgrade_one, needs_upgrade.
  destruct (index_ver ix l) as [iv|]; [|by exists f, o]. destruct (db_ver db l) as [dv|]; [|by exists f, o].
  case_goal; [|by exists f, o]. unfold bind at 1, say at 1.
  destruct (Hfail f l) as [Hr Hs]. destruct (fetch f l TARTMP) as [f1 r]. simpl in Hr, Hs. subst r.
  eexists f1, _. split; [reflexivity|done].
Qed.

Lemma upgrade_loop_fails fetch ix db lines rc nup f o :
  downloads_fail fetch ->
  exists f' o', upgrade_loop fetch ix db lines rc nup f o = Ok f' o' (rc || existsb (needs_upgrade ix db) lines, nup)
    /\ same_but_tmp f f'.
Proof.
  intros Hfail. revert rc f o. induction lines as [|l lines IH]; intros rc f o.
  { exists f, o. cbn. rewrite orb_false_r. split; [done|]. by intros q _. }
  cbn [upgrade_loop existsb]. unfold bind at 1.
  destruct (upgrade_one_fails fetch ix db l f o Hfail) as (f1 & o1 & E1 & S1). rewrite E1.
  destruct (IH (rc || needs_upgrade ix db l) f1 o1) as (f2 & o2 & E2 & S2). exists f2, o2. cbn [fst snd].
  rewrite E2, orb_assoc. split; [done|]. intros q Hq. by rewrite S2, S1.
Qed.

(** C20. When every download fails, [upgrade] keeps what is installed: no file
    but the download's own temporary one changes, and the exit status is a
    failure exactly when some package of the world needed an upgrade. *)
Theorem upgrade_keeps_old index fetch ix f o :
  downloads_fail fetch -> index true = Some ix -> NUL ∉ content f DB -> NUL ∉ content f WORLD ->
  exists f' o', cmd_upgrade index fetch f o =
      Ok f' o' (existsb (needs_upgrade (c_str ix) (content f DB)) (strtok_all NL (content f WORLD))) /\
    same_but_tmp f f'.
Proof.
  intros Hfail Hix Cdb Cw. unfold cmd_upgrade, get_index. rewrite Hix. unfold bind at 1, ret at 1.
  unfold bind at 1. rewrite read_clean by done. unfold bind at 1. rewrite read_clean by done. unfold bind at 1.
  destruct (upgrade_loop_fails fetch (c_str ix) (content f DB) (strtok_all NL (content f WORLD)) false 0 f o Hfail)
    as (f1 & o1 & E1 & S1). rewrite E1. eexists f1, _. split; [reflexivity|done].
Qed.

End Db.

(** ** A package, installed and removed *)

Definition sample_fetch (f : gmap cstr cstr) (name dest : cstr) : gmap cstr cstr * bool :=
  (<[dest := archive sample_pkg]> f, true).

Definition hello : cstr := lit "hello".

Definition sample_fs : gmap cstr cstr :=
  {[ WORLD := lit "nano" ++ [NL];
     DB := stanza_text (lit "nano") (lit "7.2") (lit "editor") (files_text [lit "/usr/bin/nano"]);
     lit "/usr/bin/nano" := lit "nano" ]}.

Lemma sample_package : package sample_pkg (lit "1.2") (lit "says hello").
Proof.
  constructor; try by_eval; try (vm_compute; reflexivity).
  repeat constructor; try (vm_compute; lia); try by_eval; discriminate.
Qed.

Lemma sample_fetched f : fetched sample_fetch hello sample_pkg f.
Proof.
  eexists. split; [reflexivity|]. split; [apply lookup_insert_eq|].
  intros q Hq. by apply lookup_insert_ne.
Qed.

Lemma do_add_installs_witness :
  exists f' o', do_add sample_fetch hello true sample_fs [] = Ok f' o' false /\
    installed hello (lit "1.2") (lit "says hello") sample_pkg sample_fs f' /\
    db_ver (content f' DB) hello = Some (lit "1.2") /\
    do_add sample_fetch hello true f' o' = Ok f' (o' ++ [hello ++ lit ": already installed"]) false.
Proof.
  apply (do_add_installs (fun f p d => ltac:(eexists; reflexivity)) (fun f p d => ltac:(eexists; reflexivity))
    sample_fetch hello sample_pkg (lit "1.2") (lit "says hello") sample_fs []).
  - apply sample_package.
  - apply sample_fetched.
  - by_eval.
  - by_eval.
  - by_eval.
  - by_eval.
  - right. vm_compute. reflexivity.
  - vm_compute. reflexivity.
  - by_eval.
  - vm_compute. reflexivity.
Defined.

Lemma add_del_restores_witness :
  exists f1 o1 f2 o2, do_add sample_fetch hello true sample_fs [] = Ok f1 o1 false /\
    do_del hello f1 o1 = Ok f2 o2 false /\
    forall q, fs_read f2 q =
      if decide (q = WORLD) then Some (content sample_fs WORLD)
      else if decide (q = DB) then Some (content sample_fs DB)
      else if decide (q ∈ TARTMP :: paths_of sample_pkg) then None else fs_read sample_fs q.
Proof.
  apply (add_del_restores (fun f p d => ltac:(eexists; reflexivity)) (fun f p d => ltac:(eexists; reflexivity))
    sample_fetch hello sample_pkg (lit "1.2") (lit "says hello") sample_fs []).
  - apply sample_package.
  - apply sample_fetched.
  - constructor; by_eval.
  - by_eval.
  - by_eval.
  - right. vm_compute. reflexivity.
  - vm_compute. reflexivity.
  - by_eval.
  - by_eval.
  - right. vm_compute. reflexivity.
  - vm_compute. reflexivity.
  - vm_compute. reflexivity.
Defined.

Definition sample_index : cstr := lit "nano 7.3 100 editor" ++ [NL].

Lemma upgrade_keeps_old_witness :
  existsb (needs_upgrade (c_str sample_index) (content sample_fs DB)) (strtok_all NL (content sample_fs WORLD)) = true /\
  exists f' o', cmd_upgrade (fun _ => Some sample_index) (fun f _ _ => (f, false)) sample_fs []
      = Ok f' o' (existsb (needs_upgrade (c_str sample_index) (content sample_fs DB))
                    (strtok_all NL (content sample_fs WORLD))) /\
    same_but_tmp sample_fs f'.
Proof.
  split; [vm_compute; reflexivity|].
  apply (upgrade_keeps_old (fun _ => Some sample_index) (fun f _ _ => (f, false)) sample_index sample_fs []).
  - intros f name. split; [reflexivity|]. by intros q _.
  - reflexivity.
  - by_eval.
  - by_eval.
Defined.

(** Removing a package can leave its world line behind: the first match of
    the line is looked at, and when that is the end of another package's line
    (here of [xnano]) nothing is dropped, so the next [sync-world] reinstalls the
    removed package. *)
Theorem del_keeps_world_line :
  let f := <[WORLD := lit "xnano" ++ [NL] ++ lit "nano" ++ [NL]]> sample_fs in
  match do_del (lit "nano") f [] with
  | Ok f' _ rc => rc = false /\ content f' DB = [] /\ in_lines (content f' WORLD) (lit "nano") = true
  | _ => False
  end.
Proof. vm_compute. repeat split. Qed.

(** A [.PKGINFO] that ends right after [pkgver =] makes [pi_get] read behind the
    terminator of its buffer. *)
Lemma pi_get_overread : pi_get (lit "pkgver =") (lit "pkgver") = None.
Proof. reflexivity. Qed.
