(* ===== verification/Tr.v ===== *)
(** * coreutils/tr.c: translate, squeeze, delete

    [expand] turns an argument (ranges and escapes; the character classes are
    not configured in) into a list of characters while growing its buffer in
    steps of 256, [complement] and [map] prepare the tables, and the main loop
    works chunk by chunk, the state between chunks being the last character
    written. *)

From Stdlib Require Import Ascii String ZArith Lia.
From stdpp Require Import base gmap list strings.
From S2P Require Import Prelude Clib LibbbNum.

Local Open Scope nat_scope.

Definition ASCII : nat := 256.
(** BUFSIZ is 1024 in the libc. *)
Definition TR_BUFSIZ : nat := if 512 <? 1024 then 1024 else 512.

(** ** Expansion of an argument *)

(** [while (i <= ac) buffer[pos++] = i++;] *)
Definition range (i ac : Z) : cstr := (fun k => chr (i + Z.of_nat k)) <$> seq 0 (Z.to_nat (ac - i + 1)).

(** One turn of the loop on a non-empty [arg]: what is appended to the buffer and
    the rest of the argument.  After an escape the decoded character takes the
    place of the last character of the sequence. *)
Definition expand_step (arg : cstr) : cstr * cstr :=
  let arg := match arg with
             | c :: arg' => if (c ≟ "\"%char) then let '(ac, z) := bb_process_escape_sequence arg' in ac :: z
                            else arg
             | [] => []
             end in
  if (at0 arg 1 ≟ "-"%char) then
    let ac := at0 arg 2 in
    if (ac ≟ NUL) then ([hd0 arg], tail arg)
    else
      let i := uc (hd0 arg) in
      let arg := drop 3 arg in
      let '(ac, arg) := if (ac ≟ "\"%char) then bb_process_escape_sequence arg else (ac, arg) in
      (range i (uc ac), arg)
  else ([hd0 arg], tail arg).

(** The buffer (its contents so far and its allocated size) through the loop. *)
Fixpoint expand_loop (fuel : nat) (arg buffer : cstr) (size : nat) : option (cstr * nat) :=
  match fuel with
  | O => None
  | S f =>
      match arg with
      | [] => Some (buffer, size)
      | _ =>
          let size := if size <? length buffer + ASCII then size + ASCII else size in
          let '(out, arg) := expand_step arg in
          expand_loop f arg (buffer ++ out) size
      end
  end.

(** Every turn shortens the argument. *)
Definition expand (arg : cstr) : option (cstr * nat) := expand_loop (S (length arg)) arg [] TR_BUFSIZ.

(** ** Tables *)

Definition all_bytes : cstr := (fun i => chr (Z.of_nat i)) <$> seq 0 ASCII.

Definition complement (buffer : cstr) : cstr := filter (fun c => c ∉ buffer) all_bytes.

(** A 256-entry table indexed by an unsigned char. *)
Abbreviation table A := (list A).
Definition idx (c : ascii) : nat := Z.to_nat (uc c).

Fixpoint map_loop (pvector : table ascii) (string1 string2 : cstr) (last : ascii) : table ascii :=
  match string1 with
  | [] => pvector
  | c :: string1' =>
      match string2 with
      | [] => map_loop (<[idx c := last]> pvector) string1' [] last
      | d :: string2' => map_loop (<[idx c := d]> pvector) string1' string2' d
      end
  end.
Definition map (pvector : table ascii) (string1 string2 : cstr) : table ascii :=
  map_loop pvector string1 string2 "0"%char.

(** [vec[(unsigned char)str[i]] = TRUE] for all [i]. *)
Definition mark (vec : table bool) (str : cstr) : table bool :=
  foldl (fun v c => <[idx c := true]> v) vec str.

(** ** The main loop *)

Record opts := mk_opts { opt_complement : bool; opt_delete : bool; opt_squeeze_reps : bool }.

Record tables := mk_tables { vector : table ascii; invec : table bool; outvec : table bool }.

Definition get_c (t : table ascii) (c : ascii) : ascii := nth (idx c) t NUL.
Definition get_b (t : table bool) (c : ascii) : bool := nth (idx c) t false.

(** One input character: what it writes and the new [last] ([None] is
    UCHAR_MAX + 1, equal to no character). *)
Definition tr_char (o : opts) (t : tables) (last : option ascii) (c : ascii) : cstr * option ascii :=
  if opt_delete o && get_b (invec t) c then ([], last)
  else
    let coded := get_c (vector t) c in
    if opt_squeeze_reps o && bool_decide (last = Some coded) && (get_b (invec t) c || get_b (outvec t) coded)
    then ([], last)
    else ([coded], Some coded).

(** One buffer of input: the output buffer that is flushed after it. *)
Fixpoint tr_chunk (o : opts) (t : tables) (last : option ascii) (str1 : cstr) : cstr * option ascii :=
  match str1 with
  | [] => ([], last)
  | c :: str1' =>
      let '(out, last) := tr_char o t last c in
      let '(rest, last) := tr_chunk o t last str1' in
      (out ++ rest, last)
  end.

(** Successive [safe_read]s (at most TR_BUFSIZ bytes each) and their flushes. *)
Fixpoint tr_loop (o : opts) (t : tables) (last : option ascii) (reads : list cstr) : cstr :=
  match reads with
  | [] => []
  | r :: reads' => let '(out, last) := tr_chunk o t last r in out ++ tr_loop o t last reads'
  end.

(** [tr_main] up to the loop; [inl]: the error of an empty STRING2. *)
Definition tr_tables (o : opts) (arg1 : cstr) (arg2 : option cstr) : option (string + tables) :=
  match expand arg1 with
  | None => None
  | Some (str1, _) =>
      let str1 := if opt_complement o then complement str1 else str1 in
      match arg2 with
      | None => Some (inr (mk_tables all_bytes (mark (replicate ASCII false) str1) (replicate ASCII false)))
      | Some a2 =>
          if (hd0 a2 ≟ NUL) then Some (inl "STRING2 cannot be empty"%string)
          else
            match expand a2 with
            | None => None
            | Some (str2, _) =>
                Some (inr (mk_tables (map all_bytes str1 str2)
                             (mark (replicate ASCII false) str1) (mark (replicate ASCII false) str2)))
            end
      end
  end.

Definition tr_main (o : opts) (arg1 : cstr) (arg2 : option cstr) (reads : list cstr) : option (string + cstr) :=
  match tr_tables o arg1 arg2 with
  | None => None
  | Some (inl e) => Some (inl e)
  | Some (inr t) => Some (inr (tr_loop o t None reads))
  end.

(** ** Expansion ends and stays within its buffer *)

Lemma range_length i ac : (0 <= i)%Z -> (ac < 256)%Z -> length (range i ac) <= ASCII.
Proof. intros Hi Ha. unfold range, ASCII. rewrite length_fmap, length_seq. lia. Qed.

Lemma escape_shorter p : length (bb_process_escape_sequence p).2 <= length p.
Proof.
  pose proof (escape_pointer p) as Hp. destruct (bb_process_escape_sequence p) as [c q].
  destruct Hp as [Hw _]. by apply within_length in Hw.
Qed.

Lemma expand_step_ok arg :
  arg <> [] -> length (expand_step arg).1 <= ASCII /\ length (expand_step arg).2 < length arg.
Proof.
  intros Hne. destruct arg as [|c arg]; [done|]. unfold expand_step.
  assert (exists c' z, (if (c ≟ "\"%char) then let '(ac, z) := bb_process_escape_sequence arg in ac :: z else c :: arg)
    = c' :: z /\ length z <= length arg) as (c' & z & -> & Hz).
  { destruct (c ≟ "\"%char); [|by exists c, arg]. pose proof (escape_shorter arg) as Hs.
    destruct (bb_process_escape_sequence arg) as [ac z]. by exists ac, z. }
  assert (1 <= ASCII) by (unfold ASCII; lia).
  case_goal; [|simpl; lia]. case_goal; [simpl; lia|].
  pose proof (uc_range c').
  assert (length (drop 3 (c' :: z)) <= length arg) by (rewrite length_drop; simpl; lia).
  destruct (at0 (c' :: z) 2 ≟ "\"%char).
  - pose proof (escape_shorter (drop 3 (c' :: z))) as Hs.
    destruct (bb_process_escape_sequence (drop 3 (c' :: z))) as [ac q]. simpl in *.
    pose proof (uc_range ac). split; [apply range_length; lia|lia].
  - pose proof (uc_range (at0 (c' :: z) 2)). simpl in *. split; [apply range_length; lia|lia].
Qed.

Lemma expand_loop_ok fuel arg buffer size :
  length arg < fuel -> length buffer <= size ->
  exists buffer' size', expand_loop fuel arg buffer size = Some (buffer', size') /\
    length buffer' <= size' /\ size <= size' /\ size' <= size + ASCII * length arg.
Proof.
  revert arg buffer size. induction fuel as [|f IH]; intros arg buffer size Hf Hb; [lia|]. cbn [expand_loop].
  destruct arg as [|c arg]; [exists buffer, size; split; [done|]; simpl; lia|].
  destruct (expand_step_ok (c :: arg)) as [Ho Hr]; [done|].
  destruct (expand_step (c :: arg)) as [out rest]. cbn [fst snd] in *.
  set (size1 := if size <? length buffer + ASCII then size + ASCII else size).
  assert (length buffer + ASCII <= size1 /\ size <= size1 <= size + ASCII) as [Hs1 Hs2].
  { subst size1. destruct (Nat.ltb_spec size (length buffer + ASCII)); lia. }
  destruct (IH rest (buffer ++ out) size1) as (b' & s' & E & H1 & H2 & H3).
  { simpl in *. lia. }
  { rewrite length_app. lia. }
  exists b', s'. split; [done|]. split; [done|]. cbn [length] in *. unfold ASCII in *. lia.
Qed.

(** Expanding an argument always ends, and the characters it stores never
    exceed the buffer: one growth step of 256 per turn is enough because a turn
    stores at most 256 characters; the buffer never shrinks below TR_BUFSIZ, the
    size the main loop reads into. *)
Theorem expand_in_bounds arg :
  exists buffer size, expand arg = Some (buffer, size) /\
    length buffer <= size /\ TR_BUFSIZ <= size /\ size <= TR_BUFSIZ + ASCII * length arg.
Proof. apply expand_loop_ok; [lia|simpl; lia]. Qed.

(** ** Tables *)

Lemma idx_lt c : idx c < ASCII.
Proof. unfold idx, ASCII. pose proof (uc_range c). lia. Qed.

Lemma idx_inj a b : idx a = idx b -> a = b.
Proof.
  unfold idx. pose proof (uc_range a). pose proof (uc_range b). intros. apply uc_inj. lia.
Qed.

Lemma all_bytes_length : length all_bytes = ASCII.
Proof. unfold all_bytes. by rewrite length_fmap, length_seq. Qed.

Lemma all_bytes_at c : all_bytes !! idx c = Some c.
Proof.
  unfold all_bytes. rewrite list_lookup_fmap, lookup_seq_lt by apply idx_lt. cbn. f_equal.
  unfold idx. pose proof (uc_range c). rewrite Z2Nat.id by lia. apply chr_uc.
Qed.

Lemma elem_of_all_bytes c : c ∈ all_bytes.
Proof. eapply list_elem_of_lookup_2, all_bytes_at. Qed.

Lemma nth_insert {A} (v : list A) i j (x d : A) :
  i < length v -> nth j (<[i := x]> v) d = if decide (i = j) then x else nth j v d.
Proof.
  intros Hi. rewrite !nth_lookup. case_decide as Hd; [subst; by rewrite list_lookup_insert_eq|].
  by rewrite list_lookup_insert_ne.
Qed.

Lemma mark_get vec (s : cstr) c :
  length vec = ASCII -> get_b (mark vec s) c = bool_decide (c ∈ s) || get_b vec c.
Proof.
  unfold mark. revert vec. induction s as [|d s IH]; intros vec Hl; cbn [foldl].
  { rewrite bool_decide_eq_false_2; [done|apply not_elem_of_nil]. }
  rewrite IH by (by rewrite length_insert). unfold get_b.
  rewrite nth_insert by (rewrite Hl; apply idx_lt).
  destruct (decide (idx d = idx c)) as [Hd|Hd].
  - apply idx_inj in Hd as ->. rewrite orb_true_r. by rewrite bool_decide_eq_true_2 by (by left).
  - f_equal. apply bool_decide_ext. rewrite elem_of_cons. split; [by right|].
    intros [->|?]; done.
Qed.

Lemma mark_empty (s : cstr) c : get_b (mark (replicate ASCII false) s) c = bool_decide (c ∈ s).
Proof.
  rewrite mark_get by apply length_replicate. replace (get_b (replicate ASCII false) c) with false.
  - apply orb_false_r.
  - unfold get_b. by rewrite nth_lookup, lookup_replicate_2 by apply idx_lt.
Qed.

(** The translation a pair of strings stands for: the last occurrence in STRING1
    counts, and STRING2 is extended with its last character ([last]; '0' if it is
    empty). *)
Fixpoint translate (string1 string2 : cstr) (last : ascii) (c : ascii) (dflt : ascii) : ascii :=
  match string1 with
  | [] => dflt
  | a :: string1' =>
      let '(d, string2') := match string2 with [] => (last, []) | d :: s => (d, s) end in
      translate string1' string2' d c (if decide (a = c) then d else dflt)
  end.

Lemma map_loop_get v s1 s2 last c :
  length v = ASCII -> get_c (map_loop v s1 s2 last) c = translate s1 s2 last c (get_c v c).
Proof.
  revert v s2 last. induction s1 as [|a s1 IH]; intros v s2 last Hl; cbn [map_loop translate]; [done|].
  assert (forall d, get_c (<[idx a := d]> v) c = if decide (a = c) then d else get_c v c) as Hi.
  { intros d. unfold get_c. rewrite nth_insert by (rewrite Hl; apply idx_lt).
    repeat case_decide; subst; try done. by apply idx_inj in H. }
  destruct s2 as [|d s2]; rewrite IH by (by rewrite length_insert); by rewrite Hi.
Qed.

Lemma get_all_bytes c : get_c all_bytes c = c.
Proof. unfold get_c. by rewrite nth_lookup, all_bytes_at. Qed.

(** ** The main loop *)

Lemma tr_chunk_app o t last a b :
  tr_chunk o t last (a ++ b) =
  ((tr_chunk o t last a).1 ++ (tr_chunk o t (tr_chunk o t last a).2 b).1,
   (tr_chunk o t (tr_chunk o t last a).2 b).2).
Proof.
  revert last. induction a as [|c a IH]; intros last; cbn [app tr_chunk fst snd].
  { by destruct (tr_chunk o t last b). }
  destruct (tr_char o t last c) as [out l]. rewrite IH. destruct (tr_chunk o t l a) as [o1 l1]. cbn [fst snd].
  by rewrite app_assoc.
Qed.

Lemma tr_loop_concat o t last reads : tr_loop o t last reads = (tr_chunk o t last (concat reads)).1.
Proof.
  revert last. induction reads as [|r reads IH]; intros last; cbn [tr_loop concat]; [done|].
  rewrite tr_chunk_app. destruct (tr_chunk o t last r) as [out l]. cbn [fst snd]. by rewrite IH.
Qed.

Lemma complement_spec b c : c ∈ complement b <-> c ∉ b.
Proof. unfold complement. rewrite list_elem_of_filter. pose proof (elem_of_all_bytes c). tauto. Qed.

(** The characters of STRING1, complemented or not. *)
Definition set1 (o : opts) (s1 : cstr) : cstr := if opt_complement o then complement s1 else s1.

Lemma set1_spec o s1 c : c ∈ set1 o s1 <-> if opt_complement o then c ∉ s1 else c ∈ s1.
Proof. unfold set1. destruct (opt_complement o); [apply complement_spec|done]. Qed.

Lemma translate_absent s1 s2 last c d : c ∉ s1 -> translate s1 s2 last c d = d.
Proof.
  revert s2 last d. induction s1 as [|a s1 IH]; intros s2 last d Hc; [done|].
  apply not_elem_of_cons in Hc as [Ha Hc]. cbn [translate]. destruct s2; rewrite IH by done;
    by rewrite decide_False by congruence.
Qed.

(** The last occurrence, at index [length p], decides. *)
Lemma translate_at p q s2 last c d :
  c ∉ q ->
  translate (p ++ c :: q) s2 last c d =
  match s2 with [] => last | _ => nth (min (length p) (length s2 - 1)) s2 last end.
Proof.
  intros Hq. revert s2 last d. induction p as [|a p IH]; intros s2 last d; cbn [app translate length].
  - destruct s2 as [|e s2]; rewrite translate_absent by done; by rewrite decide_True.
  - destruct s2 as [|e s2]; rewrite IH; [done|]. destruct s2 as [|e' s2]; [done|].
    change (length (e :: e' :: s2) - 1) with (S (length s2)). rewrite <- Nat.succ_min_distr.
    change (length (e' :: s2) - 1) with (length s2 - 0). rewrite Nat.sub_0_r.
    change (nth (S ?n) (e :: ?l) last) with (nth n l last). apply nth_indep. simpl. lia.
Qed.

Lemma chunk_plain o t last l :
  opt_delete o = false -> opt_squeeze_reps o = false -> (tr_chunk o t last l).1 = get_c (vector t) <$> l.
Proof.
  intros Hd Hs. revert last. induction l as [|c l IH]; intros last; [done|]. cbn [tr_chunk].
  unfold tr_char. rewrite Hd, Hs. cbn [andb].
  specialize (IH (Some (get_c (vector t) c))). destruct (tr_chunk o t _ l) as [r l']. simpl in *. by rewrite IH.
Qed.

(** C34. Plain [tr STRING1 STRING2] maps every input character by itself,
    however the input is cut into reads: a character outside STRING1 (or, with
    -c, inside it) is kept, and one of it becomes the character of STRING2 at the
    index of its last occurrence, or STRING2's last character when STRING2 is
    shorter. *)
Theorem tr_translates cpl a1 a2 s1 n1 s2 n2 reads :
  let o := mk_opts cpl false false in
  expand a1 = Some (s1, n1) -> expand a2 = Some (s2, n2) -> hd0 a2 <> NUL -> s2 <> [] ->
  exists f, tr_main o a1 (Some a2) reads = Some (inr (f <$> concat reads)) /\
    (forall c, c ∉ set1 o s1 -> f c = c) /\
    (forall c p q, set1 o s1 = p ++ c :: q -> c ∉ q -> f c = nth (min (length p) (length s2 - 1)) s2 "0"%char).
Proof.
  intros o E1 E2 Hn Hs2. exists (fun c => translate (set1 o s1) s2 "0"%char c c).
  split; [|split].
  - unfold tr_main, tr_tables. rewrite E1, (proj2 (Ascii.eqb_neq _ _) Hn), E2. fold (set1 o s1).
    rewrite tr_loop_concat, chunk_plain by done. do 2 f_equal. cbn [vector].
    apply list_fmap_ext. intros i c _. unfold map. rewrite map_loop_get by apply all_bytes_length.
    by rewrite get_all_bytes.
  - intros c Hc. by apply translate_absent.
  - intros c p q -> Hq. rewrite translate_at by done. by destruct s2.
Qed.

Lemma tr_translates_witness :
  exists f, tr_main (mk_opts false false false) (lit "a-c") (Some (lit "xy")) [lit "ab"; lit "cd"]
      = Some (inr (f <$> lit "abcd")) /\ f "c"%char = "y"%char /\ f "d"%char = "d"%char.
Proof.
  destruct (tr_translates false (lit "a-c") (lit "xy") (lit "abc") 1024 (lit "xy") 1024 [lit "ab"; lit "cd"])
    as (f & H1 & H2 & H3).
  - vm_compute. reflexivity.
  - vm_compute. reflexivity.
  - vm_compute. discriminate.
  - discriminate.
  - exists f. split; [exact H1|]. split.
    + exact (H3 "c"%char (lit "ab") [] eq_refl (not_elem_of_nil _)).
    + apply H2. by_eval.
Defined.

Lemma chunk_delete o t last l (s : cstr) :
  opt_delete o = true -> opt_squeeze_reps o = false -> vector t = all_bytes ->
  (forall c, get_b (invec t) c = bool_decide (c ∈ s)) ->
  (tr_chunk o t last l).1 = filter (fun c => c ∉ s) l.
Proof.
  intros Hd Hs Hv Hi. revert last. induction l as [|c l IH]; intros last; [done|]. cbn [tr_chunk].
  unfold tr_char. rewrite Hd, Hs, Hi, Hv, get_all_bytes. cbn [andb]. rewrite filter_cons.
  destruct (decide (c ∈ s)) as [Hc|Hc].
  - rewrite bool_decide_eq_true_2 by done. rewrite decide_False by tauto.
    specialize (IH last). by destruct (tr_chunk o t last l).
  - rewrite bool_decide_eq_false_2, decide_True by done.
    specialize (IH (Some c)). destruct (tr_chunk o t (Some c) l). simpl in *. by rewrite IH.
Qed.

(** [tr -d STRING1] writes exactly the input characters outside STRING1, and
    with -c exactly those inside it, however the input is cut into reads. *)
Theorem tr_deletes cpl a1 s1 n1 reads :
  expand a1 = Some (s1, n1) ->
  tr_main (mk_opts cpl true false) a1 None reads =
  Some (inr (filter (fun c => bool_decide (c ∈ s1) = cpl) (concat reads))).
Proof.
  intros E1. unfold tr_main, tr_tables. rewrite E1. rewrite tr_loop_concat.
  rewrite (chunk_delete _ _ _ _ (set1 (mk_opts cpl true false) s1)); try done.
  - do 2 f_equal. apply list_filter_iff. intros c. rewrite set1_spec. cbn.
    destruct (decide (c ∈ s1)) as [Hc|Hc].
    + rewrite bool_decide_eq_true_2 by done. destruct cpl; [tauto|]. split; [tauto|done].
    + rewrite bool_decide_eq_false_2 by done. destruct cpl; [|tauto]. split; [tauto|done].
  - intros c. cbn [invec]. apply mark_empty.
Qed.

Lemma tr_deletes_witness :
  tr_main (mk_opts true true false) (lit "a-c") None [lit "abcd"; lit "efab"] = Some (inr (lit "abcab")).
Proof.
  refine (eq_trans (tr_deletes true (lit "a-c") (lit "abc") 1024 [lit "abcd"; lit "efab"] _) _);
    vm_compute; reflexivity.
Defined.

(** *** Runs: a character and how often it is repeated *)

Definition run_text (r : ascii * nat) : cstr := replicate (S r.2) r.1.
Definition runs_text (rs : list (ascii * nat)) : cstr := concat (run_text <$> rs).
(** Runs of characters of [s] squeezed to one character. *)
Definition squeezed_text (s : cstr) (rs : list (ascii * nat)) : cstr :=
  concat ((fun r => if bool_decide (r.1 ∈ s) then [r.1] else run_text r) <$> rs).

(** The runs are maximal. *)
Fixpoint maximal_runs (last : option ascii) (rs : list (ascii * nat)) : Prop :=
  match rs with
  | [] => True
  | r :: rs' => last <> Some r.1 /\ maximal_runs (Some r.1) rs'
  end.

Lemma runs_exist last l :
  exists n rs, l = (match last with Some c => replicate n c | None => [] end) ++ runs_text rs /\ maximal_runs last rs.
Proof.
  revert last. induction l as [|c l IH]; intros last; [by exists 0, []; destruct last|].
  destruct (IH (Some c)) as (n & rs & E & Hm). destruct (decide (last = Some c)) as [->|Hn].
  - exists (S n), rs. split; [by rewrite E|done].
  - exists 0, ((c, n) :: rs). split; [|done]. rewrite E. unfold runs_text. by destruct last.
Qed.

Section Squeeze.
Context (o : opts) (t : tables) (s : cstr).
Hypothesis Hd : opt_delete o = false.
Hypothesis Hs : opt_squeeze_reps o = true.
Hypothesis Hv : vector t = all_bytes.
Hypothesis Hi : forall c, get_b (invec t) c = bool_decide (c ∈ s).
Hypothesis Ho : forall c, get_b (outvec t) c = false.

Lemma squeeze_char last c :
  tr_char o t last c = if bool_decide (last = Some c) && bool_decide (c ∈ s) then ([], last) else ([c], Some c).
Proof. unfold tr_char. by rewrite Hd, Hs, Hi, Ho, Hv, get_all_bytes, orb_false_r. Qed.

(** The rest of a run. *)
Lemma chunk_repeat n c l :
  (tr_chunk o t (Some c) (replicate n c ++ l)).1 =
  (if bool_decide (c ∈ s) then [] else replicate n c) ++ (tr_chunk o t (Some c) l).1.
Proof.
  induction n as [|n IH]; [by destruct (bool_decide _)|]. cbn [replicate app tr_chunk].
  rewrite squeeze_char, (bool_decide_eq_true_2 (Some c = Some c)) by done. cbn [andb].
  destruct (bool_decide (c ∈ s)); cbn [app] in *; destruct (tr_chunk o t (Some c) (replicate n c ++ l)) as [r l'];
    cbn [fst app] in *; by rewrite IH.
Qed.

Lemma chunk_runs last rs : maximal_runs last rs -> (tr_chunk o t last (runs_text rs)).1 = squeezed_text s rs.
Proof.
  revert last. induction rs as [|[c n] rs IH]; intros last Hm; [done|]. destruct Hm as [Hl Hm].
  change (runs_text ((c, n) :: rs)) with (c :: replicate n c ++ runs_text rs). cbn [tr_chunk fst] in *.
  rewrite squeeze_char, (bool_decide_eq_false_2 (last = Some c)) by done. cbn [andb].
  pose proof (chunk_repeat n c (runs_text rs)) as Hr.
  destruct (tr_chunk o t (Some c) (replicate n c ++ runs_text rs)) as [r l']. cbn [fst] in *.
  rewrite Hr, IH by done. unfold squeezed_text. cbn [fmap list_fmap concat fst]. by destruct (bool_decide (c ∈ s)).
Qed.

End Squeeze.

(** [tr -s STRING1]: taking the input, whatever its division into reads, as
    its maximal runs of equal characters, the output has one character for each
    run of a character of STRING1 (of its complement with -c) and the other runs
    whole. *)
Theorem tr_squeezes cpl a1 s1 n1 reads :
  let o := mk_opts cpl false true in
  expand a1 = Some (s1, n1) ->
  exists rs, concat reads = runs_text rs /\ maximal_runs None rs /\
    tr_main o a1 None reads = Some (inr (squeezed_text (set1 o s1) rs)).
Proof.
  intros o E1. destruct (runs_exist None (concat reads)) as (_ & rs & E & Hm). cbn [app] in E.
  exists rs. split; [done|]. split; [done|]. unfold tr_main, tr_tables. rewrite E1, tr_loop_concat, E.
  do 2 f_equal. fold (set1 o s1). apply chunk_runs; try done.
  - intros c. cbn [invec]. apply mark_empty.
  - intros c. cbn [outvec]. apply (mark_empty [] c).
Qed.

Lemma tr_squeezes_witness :
  tr_main (mk_opts false false true) (lit "a-z") None [lit "aab"; lit "bb  c"] = Some (inr (lit "ab  c")) /\
  exists rs, lit "aabbb  c" = runs_text rs /\ maximal_runs None rs /\
    Some (inr (lit "ab  c")) = Some (inr (squeezed_text (lit "abcdefghijklmnopqrstuvwxyz") rs) : string + cstr).
Proof.
  split; [vm_compute; reflexivity|].
  destruct (tr_squeezes false (lit "a-z") (lit "abcdefghijklmnopqrstuvwxyz") 1024 [lit "aab"; lit "bb  c"])
    as (rs & H1 & H2 & H3); [vm_compute; reflexivity|].
  exists rs. split; [exact H1|]. split; [exact H2|]. refine (eq_trans _ H3). vm_compute. reflexivity.
Defined.
