(* ===== verification/TestExpr.v ===== *)
(** * coreutils/test.c: the [test] and [[] commands

    The recursive-descent parser works on the NULL-terminated [argv] through the
    pointer [args]: a state of the parser is that pointer (an index) and
    [last_operator].  Reading past the terminating NULL is the outcome [TOob], a
    [longjmp] out of [syntax] is [TSyntax].  [number_t] is [int] (FEATURE_TEST_64
    is off), the [[[] dialect is not configured in, and the file system is an
    argument. *)

From Stdlib Require Import Ascii String ZArith Lia.
From stdpp Require Import base gmap list strings.
From S2P Require Import Prelude Clib LibbbStr.

Local Open Scope Z_scope.

(** ** Tokens *)

Definition EOI : Z := 0.
Definition FILRD : Z := 1.
Definition FILWR : Z := 2.
Definition FILEX : Z := 3.
Definition FILEXIST : Z := 4.
Definition FILREG : Z := 5.
Definition FILDIR : Z := 6.
Definition FILCDEV : Z := 7.
Definition FILBDEV : Z := 8.
Definition FILFIFO : Z := 9.
Definition FILSOCK : Z := 10.
Definition FILSYM : Z := 11.
Definition FILGZ : Z := 12.
Definition FILTT : Z := 13.
Definition FILSUID : Z := 14.
Definition FILSGID : Z := 15.
Definition FILSTCK : Z := 16.
Definition FILNT : Z := 17.
Definition FILOT : Z := 18.
Definition FILEQ : Z := 19.
Definition FILUID : Z := 20.
Definition FILGID : Z := 21.
Definition STREZ : Z := 22.
Definition STRNZ : Z := 23.
Definition STREQ : Z := 24.
Definition STRNE : Z := 25.
Definition STRLT : Z := 26.
Definition STRGT : Z := 27.
Definition INTEQ : Z := 28.
Definition INTNE : Z := 29.
Definition INTGE : Z := 30.
Definition INTGT : Z := 31.
Definition INTLE : Z := 32.
Definition INTLT : Z := 33.
Definition UNOT : Z := 34.
Definition BAND : Z := 35.
Definition BOR : Z := 36.
Definition LPAREN : Z := 37.
Definition RPAREN : Z := 38.
Definition OPERAND : Z := 39.

Definition is_int_op (a : Z) : bool := wrapU 8 (a - INTEQ) <=? 5.
Definition is_str_op (a : Z) : bool := wrapU 8 (a - STREZ) <=? 5.
Definition is_file_access (a : Z) : bool := wrapU 8 (a - FILRD) <=? 2.
Definition is_file_type (a : Z) : bool := wrapU 8 (a - FILREG) <=? 5.
Definition is_file_bit (a : Z) : bool := wrapU 8 (a - FILSUID) <=? 2.

Inductive op_kind := UNOP | BINOP | BUNOP | BBINOP | PAREN | NO_OP.

#[export] Instance op_kind_eq_dec : EqDecision op_kind.
Proof. solve_decision. Defined.

Record operator_t := mk_op { op_num : Z; op_type : op_kind }.

(** [op_num] and [op_type] are -1, i.e. 255 in an unsigned char. *)
Definition no_op : operator_t := mk_op 255 NO_OP.

Definition ops_table : list operator_t :=
  [ mk_op FILRD UNOP; mk_op FILWR UNOP; mk_op FILEX UNOP; mk_op FILEXIST UNOP; mk_op FILREG UNOP;
    mk_op FILDIR UNOP; mk_op FILCDEV UNOP; mk_op FILBDEV UNOP; mk_op FILFIFO UNOP; mk_op FILSUID UNOP;
    mk_op FILSGID UNOP; mk_op FILSTCK UNOP; mk_op FILGZ UNOP; mk_op FILTT UNOP; mk_op STREZ UNOP;
    mk_op STRNZ UNOP; mk_op FILSYM UNOP;
    mk_op FILUID UNOP; mk_op FILGID UNOP; mk_op FILSYM UNOP; mk_op FILSOCK UNOP;
    mk_op STREQ BINOP; mk_op STREQ BINOP; mk_op STRNE BINOP; mk_op STRLT BINOP; mk_op STRGT BINOP;
    mk_op INTEQ BINOP; mk_op INTNE BINOP; mk_op INTGE BINOP; mk_op INTGT BINOP; mk_op INTLE BINOP;
    mk_op INTLT BINOP; mk_op FILNT BINOP; mk_op FILOT BINOP; mk_op FILEQ BINOP;
    mk_op UNOT BUNOP; mk_op BAND BBINOP; mk_op BOR BBINOP; mk_op LPAREN PAREN; mk_op RPAREN PAREN ].

Definition ops_list : list cstr :=
  lit <$> [ "-r"; "-w"; "-x"; "-e"; "-f"; "-d"; "-c"; "-b"; "-p"; "-u"; "-g"; "-k"; "-s"; "-t"; "-z"; "-n"; "-h";
            "-O"; "-G"; "-L"; "-S"; "="; "=="; "!="; "<"; ">";
            "-eq"; "-ne"; "-ge"; "-gt"; "-le"; "-lt"; "-nt"; "-ot"; "-ef";
            "!"; "-a"; "-o"; "("; ")" ]%string.
Definition ops_texts : list ascii := pack_strings ops_list.

(** The token, and the new [last_operator]. *)
Definition check_operator (s : option cstr) : Z * operator_t :=
  match s with
  | None => (EOI, no_op)
  | Some s =>
      let n := index_in_strings ops_texts s in
      if n <? 0 then (OPERAND, no_op)
      else let op := nth (Z.to_nat n) ops_table no_op in (op_num op, op)
  end.

(** ** Outcomes and the parser's state *)

Record pstate := mk_ps { args : nat; last_operator : operator_t }.

Inductive tres (A : Type) :=
  | TOk (s : pstate) (a : A)
  | TSyntax (op : option cstr) (msg : string)
  | TOob
  | TFuel.
Arguments TOk {A} s a.
Arguments TSyntax {A} op msg.
Arguments TOob {A}.
Arguments TFuel {A}.

Definition T (A : Type) : Type := pstate -> tres A.
Definition tret {A} (a : A) : T A := fun s => TOk s a.
Definition tbind {A B} (m : T A) (k : A -> T B) : T B :=
  fun s => match m s with
           | TOk s a => k a s
           | TSyntax op msg => TSyntax op msg
           | TOob => TOob
           | TFuel => TFuel
           end.

Declare Scope test_scope.
Delimit Scope test_scope with tst.
Notation "'let*' x := m 'in' k" := (tbind m (fun x => k))
  (at level 10, x name, m at level 100, k at level 200) : test_scope.
Notation "m ;; k" := (tbind m (fun _ => k)) (at level 100, k at level 200, right associativity) : test_scope.
Local Open Scope test_scope.

Definition syntax {A} (op : option cstr) (msg : string) : T A := fun s => TSyntax op msg.

(** ** The file system *)

Record stat_t := mk_stat {
  st_mode : Z; st_uid : Z; st_gid : Z; st_size : Z; st_mtime : Z; st_dev : Z; st_ino : Z;
}.

Record env := mk_env {
  e_stat : cstr -> option stat_t;
  e_lstat : cstr -> option stat_t;
  e_isatty : Z -> bool;
  e_geteuid : Z;
  e_getegid : Z;
  e_getgid : Z;
  e_groups : list Z;
}.

(** Values of the libc's <sys/stat.h> and <unistd.h>. *)
Definition S_IFMT : Z := 0xf000.
Definition S_IFREG : Z := 0x8000.
Definition S_IFDIR : Z := 0x4000.
Definition S_IFCHR : Z := 0x2000.
Definition S_IFBLK : Z := 0x6000.
Definition S_IFIFO : Z := 0x1000.
Definition S_IFSOCK : Z := 0xc000.
Definition S_IFLNK : Z := 0xa000.
Definition S_ISUID : Z := 0x800.
Definition S_ISGID : Z := 0x400.
Definition S_ISVTX : Z := 0x200.
Definition R_OK : Z := 4.
Definition W_OK : Z := 2.
Definition X_OK : Z := 1.

Section Test.
Variable e : env.
Variable argv : list cstr.

(** [args[i]]: the terminating NULL can be read, what follows it cannot. *)
Definition arg_at (i : nat) : T (option cstr) :=
  fun s => let k := (args s + i)%nat in
           if (k <? length argv)%nat then TOk s (argv !! k)
           else if (k =? length argv)%nat then TOk s None
           else TOob.

(** A string that is dereferenced. *)
Definition deref (p : option cstr) : T cstr :=
  fun s => match p with Some x => TOk s x | None => TOob end.

Definition advance : T unit := fun s => TOk (mk_ps (S (args s)) (last_operator s)) tt.
Definition retreat : T unit := fun s => TOk (mk_ps (pred (args s)) (last_operator s)) tt.
Definition get_last : T operator_t := fun s => TOk s (last_operator s).

(** [check_operator(args[i])]. *)
Definition check_at (i : nat) : T Z :=
  let* p := arg_at i in
  fun s => let '(tok, op) := check_operator p in TOk (mk_ps (args s) op) tok.

(** [check_operator( *++args )]. *)
Definition check_next : T Z := advance ;; check_at 0.

Definition getn (s : cstr) : T Z :=
  let r := strtol 10 s in
  if negb (bool_decide (st_err r = E_OK)) then syntax (Some s) "out of range"
  else if (length (st_end r) =? length s)%nat || negb (bool_decide (skip_whitespace (st_end r) = []))
  then syntax (Some s) "bad number"
  else tret (st_val r).

Definition int_cmp (op v1 v2 : Z) : bool :=
  if op =? INTEQ then v1 =? v2
  else if op =? INTNE then negb (v1 =? v2)
  else if op =? INTGE then v2 <=? v1
  else if op =? INTGT then v2 <? v1
  else if op =? INTLE then v1 <=? v2
  else v1 <? v2.

Definition str_cmp (op v1 : Z) : bool :=
  if op =? STREQ then v1 =? 0
  else if op =? STRNE then negb (v1 =? 0)
  else if op =? STRLT then v1 <? 0
  else 0 <? v1.

Definition file_cmp (op : Z) (o1 o2 : cstr) : bool :=
  match e_stat e o1, e_stat e o2 with
  | Some b1, Some b2 =>
      if op =? FILNT then st_mtime b2 <? st_mtime b1
      else if op =? FILOT then st_mtime b1 <? st_mtime b2
      else (st_dev b1 =? st_dev b2) && (st_ino b1 =? st_ino b2)
  | _, _ => false
  end.

Definition binop : T bool :=
  let* p1 := arg_at 0 in
  let* _ := check_next in
  let* op := get_last in
  advance ;;
  let* p2 := arg_at 0 in
  match p2 with
  | None => fun s => TSyntax (argv !! pred (args s)) "argument expected"
  | Some opnd2 =>
      let* opnd1 := deref p1 in
      if is_int_op (op_num op) then
        let* val1 := getn opnd1 in
        let* val2 := getn opnd2 in
        tret (int_cmp (op_num op) val1 val2)
      else if is_str_op (op_num op) then tret (str_cmp (op_num op) (strcmp opnd1 opnd2))
      else tret (file_cmp (op_num op) opnd1 opnd2)
  end.

Definition is_a_group_member (gid : Z) : bool :=
  (gid =? e_getgid e) || (gid =? e_getegid e) || bool_decide (gid ∈ e_groups e).

(** 0: access is allowed. *)
Definition test_eaccess (st : stat_t) (mode : Z) : Z :=
  let euid := e_geteuid e in
  if (euid =? 0) && (negb (mode =? X_OK) || negb (Z.land (st_mode st) 0x49 =? 0)) then 0
  else
    let mode := if st_uid st =? euid then Z.shiftl mode 6
                else if is_a_group_member (st_gid st) then Z.shiftl mode 3 else mode in
    if negb (Z.land (st_mode st) mode =? 0) then 0 else -1.

Definition filstat (nm : cstr) (mode : Z) : bool :=
  let filetype s i := Z.land (st_mode s) S_IFMT =? i in
  if mode =? FILSYM then
    match e_lstat e nm with Some s => filetype s S_IFLNK | None => false end
  else
    match e_stat e nm with
    | None => false
    | Some s =>
        if mode =? FILEXIST then true
        else if is_file_access mode then
          test_eaccess s (if mode =? FILRD then R_OK else if mode =? FILWR then W_OK else X_OK) =? 0
        else if is_file_type mode then
          filetype s (if mode =? FILREG then S_IFREG else if mode =? FILDIR then S_IFDIR
                      else if mode =? FILCDEV then S_IFCHR else if mode =? FILBDEV then S_IFBLK
                      else if mode =? FILFIFO then S_IFIFO else S_IFSOCK)
        else if is_file_bit mode then
          negb (Z.land (st_mode s) (if mode =? FILSUID then S_ISUID
                                    else if mode =? FILSGID then S_ISGID else S_ISVTX) =? 0)
        else if mode =? FILGZ then 0 <? st_size s
        else if mode =? FILUID then st_uid s =? e_geteuid e
        else if mode =? FILGID then st_gid s =? e_getegid e
        else true
    end.

(** The part of [primary] after the parenthesis case, for the token [n]. *)
Definition primary_simple (n : Z) : T bool :=
  let check_emptiness :=
    let* p := arg_at 0 in
    let* a := deref p in
    tret (negb (bool_decide (a = []))) in
  let* args0_op := get_last in
  let* t1 := check_at 1 in
  let* is_bin := (if negb (t1 =? EOI) then
                    let* p2 := arg_at 2 in
                    let* lo := get_last in
                    tret (bool_decide (is_Some p2) && bool_decide (op_type lo = BINOP))
                  else tret false) in
  if is_bin then binop
  else if bool_decide (op_type args0_op = UNOP) then
    let* p1 := arg_at 1 in
    match p1 with
    | None => check_emptiness
    | Some a1 =>
        advance ;;
        if n =? STREZ then tret (bool_decide (a1 = []))
        else if n =? STRNZ then tret (negb (bool_decide (a1 = [])))
        else if n =? FILTT then let* fd := getn a1 in tret (e_isatty e fd)
        else tret (filstat a1 n)
    end
  else
    let* lo := get_last in
    if bool_decide (op_type lo = BINOP) then binop else check_emptiness.

(** The mutually recursive functions; [fuel] bounds the calls. *)
Fixpoint nexpr (fuel : nat) (n : Z) : T bool :=
  match fuel with
  | O => fun s => TFuel
  | S f =>
      if n =? UNOT then
        let* n := check_next in
        if n =? EOI then retreat ;; tret true
        else let* r := nexpr f n in tret (negb r)
      else primary f n
  end
with aexpr (fuel : nat) (n : Z) : T bool :=
  match fuel with
  | O => fun s => TFuel
  | S f =>
      let* res := nexpr f n in
      let* t := check_next in
      if t =? BAND then
        let* n := check_next in
        let* r := aexpr f n in
        tret (r && res)
      else retreat ;; tret res
  end
with oexpr (fuel : nat) (n : Z) : T bool :=
  match fuel with
  | O => fun s => TFuel
  | S f =>
      let* res := aexpr f n in
      let* t := check_next in
      if t =? BOR then
        let* n := check_next in
        let* r := oexpr f n in
        tret (r || res)
      else retreat ;; tret res
  end
with primary (fuel : nat) (n : Z) : T bool :=
  match fuel with
  | O => fun s => TFuel
  | S f =>
      if n =? EOI then syntax None "argument expected"
      else if n =? LPAREN then
        let* n := check_next in
        let* res := oexpr f n in
        let* t := check_next in
        if negb (t =? RPAREN) then syntax None "closing paren expected" else tret res
      else primary_simple n
  end.

End Test.

(** ** The command *)

Definition LONE_CHAR (s : cstr) (c : ascii) : bool := bool_decide (s = [c]).

(** What the special cases for few arguments decide: a result, or the general
    parser on [argv] (which they may have cut after its third word). *)
Inductive special := SRes (r : tres bool) (negate : bool) | SValue (res : bool) | SGeneral (argv : list cstr).

(** The [again:] loop; [off] is how far the code's [argv] has moved.  Every turn
    moves it. *)
Fixpoint special_loop (fuel : nat) (e : env) (argv : list cstr) (off : nat) (negate : bool) : special :=
  match fuel with
  | O => SGeneral argv
  | S f =>
      let check_negate argv off :=
        if LONE_CHAR (default [] (argv !! off)) "!"
        then special_loop f e argv (S off) (negb negate) else SGeneral argv in
      match drop off argv with
      | [] => SValue (xorb true negate)
      | [a] => SValue (xorb (bool_decide (a = [])) negate)
      | [a; b] => check_negate argv off
      | [a; b; c] =>
          let '(_, op) := check_operator (Some b) in
          if bool_decide (op_type op = BINOP) then SRes (binop e argv (mk_ps off op)) negate
          else check_negate argv off
      | [a; b; c; d] =>
          if LONE_CHAR a "(" && LONE_CHAR d ")" then check_negate (take (off + 3) argv) (S off)
          else check_negate argv off
      | _ => check_negate argv off
      end
  end.

(** Exit status, or a failure of the model's own making (never, see below). *)
Inductive tcode := Code (z : Z) | BadRead | NoFuel.

Definition code_of (r : tres bool) (k : pstate -> bool -> tcode) : tcode :=
  match r with
  | TOk s v => k s v
  | TSyntax _ _ => Code 2
  | TOob => BadRead
  | TFuel => NoFuel
  end.

(** [res = !oexpr(..)] and the check for left-over operands. *)
Definition test_general (e : env) (argv : list cstr) : tcode :=
  let start : T bool := tbind (check_at argv 0) (fun n => oexpr e argv (4 * length argv + 4) n) in
  code_of (start (mk_ps 0 no_op)) (fun s v =>
    if (args s <? length argv)%nat && (S (args s) <? length argv)%nat then Code 2
    else if (length argv <? args s)%nat then BadRead
    else Code (b2z (negb v))).

Definition test_body (e : env) (argv : list cstr) : tcode :=
  match special_loop (S (length argv)) e argv 0 false with
  | SValue res => Code (b2z res)
  | SRes r negate => code_of r (fun _ v => Code (b2z (xorb (negb v) negate)))
  | SGeneral argv => test_general e argv
  end.

(** [test_main] on the command name and its arguments. *)
Definition test_main (e : env) (arg0 : cstr) (argv : list cstr) : tcode :=
  let base := bb_basename arg0 in
  if (hd0 base ≟ "["%char) then
    let last_arg := default base (last argv) in
    let ok := if bool_decide (tail base = []) then LONE_CHAR last_arg "]" else bool_decide (last_arg = lit "]]") in
    if ok then test_body e (take (pred (length argv)) argv) else Code 2
  else test_body e argv.

(** ** The parser stays inside [argv] and ends *)

Lemma op_nums_nonzero : forallb (fun o => negb (op_num o =? EOI)) ops_table = true.
Proof. reflexivity. Qed.

Lemma check_operator_some s : (check_operator (Some s)).1 <> EOI.
Proof.
  unfold check_operator. case_goal; [done|]. cbn [fst].
  destruct (nth_in_or_default (Z.to_nat (index_in_strings ops_texts s)) ops_table no_op) as [Hin| ->]; [|done].
  pose proof op_nums_nonzero as Hz. rewrite forallb_forall in Hz. specialize (Hz _ Hin). bool_prop. done.
Qed.

Section Safe.
Variable e : env.
Variable argv : list cstr.
Abbreviation n := (length argv).

(** A parse from position [pos] that succeeded stands on a word not before it. *)
Definition stays {A} (pos : nat) (r : tres A) : Prop :=
  match r with
  | TOk s _ => (pos <= args s < n)%nat
  | TSyntax _ _ => True
  | TOob | TFuel => False
  end.

Lemma check_at_ok i s : (args s + i <= n)%nat ->
  check_at argv i s = TOk (mk_ps (args s) (check_operator (argv !! (args s + i)%nat)).2)
                        (check_operator (argv !! (args s + i)%nat)).1.
Proof.
  intros Hi. unfold check_at, tbind, arg_at.
  destruct (Nat.ltb_spec (args s + i) n) as [Hl|Hl].
  - by destruct (check_operator _).
  - rewrite (proj2 (Nat.eqb_eq _ _)) by lia. rewrite lookup_ge_None_2 by lia. by destruct (check_operator None).
Qed.

Lemma check_next_ok s : (S (args s) <= n)%nat ->
  check_next argv s = TOk (mk_ps (S (args s)) (check_operator (argv !! S (args s))).2)
                        (check_operator (argv !! S (args s))).1.
Proof.
  intros Hi. unfold check_next, tbind, advance. rewrite check_at_ok by (simpl; lia).
  cbn [args]. by rewrite Nat.add_0_r.
Qed.

Lemma arg_at_ok i s : (args s + i <= n)%nat -> arg_at argv i s = TOk s (argv !! (args s + i)%nat).
Proof.
  intros Hi. unfold arg_at. destruct (Nat.ltb_spec (args s + i) n); [done|].
  rewrite (proj2 (Nat.eqb_eq _ _)) by lia. by rewrite lookup_ge_None_2 by lia.
Qed.

(** A token is EOI exactly at the end. *)
Lemma check_eoi k : (k <= n)%nat -> ((check_operator (argv !! k)).1 = EOI <-> k = n).
Proof.
  intros Hk. destruct (argv !! k) as [x|] eqn:E.
  - apply lookup_lt_Some in E. split; [intros Hx; by apply check_operator_some in Hx|lia].
  - apply lookup_ge_None in E. split; [lia|done].
Qed.

(** The value of a number word, or the message about it. *)
Definition num_of (x : cstr) : string + Z :=
  let r := strtol 10 x in
  if negb (bool_decide (st_err r = E_OK)) then inl "out of range"%string
  else if (length (st_end r) =? length x)%nat || negb (bool_decide (skip_whitespace (st_end r) = []))
  then inl "bad number"%string
  else inr (st_val r).

Lemma getn_num x s : getn x s = match num_of x with inl m => TSyntax (Some x) m | inr v => TOk s v end.
Proof. unfold getn, num_of. by repeat case_goal. Qed.

Lemma binop_stays s : (S (args s) < n)%nat -> stays (args s) (binop e argv s).
Proof.
  intros Hs. unfold binop, tbind. rewrite arg_at_ok by lia. rewrite check_next_ok by lia.
  unfold get_last, advance. cbn [args last_operator]. rewrite arg_at_ok by (simpl; lia). cbn [args].
  rewrite !Nat.add_0_r.
  destruct (argv !! S (S (args s))) as [o2|] eqn:E2; [|done]. apply lookup_lt_Some in E2.
  destruct (lookup_lt_is_Some_2 argv (args s)) as [o1 E1]; [lia|]. rewrite E1. cbn [deref].
  case_goal.
  - rewrite getn_num. destruct (num_of o1); [done|]. rewrite getn_num. destruct (num_of o2); [done|].
    cbn [stays tret args]. lia.
  - case_goal; cbn [stays tret args]; lia.
Qed.
Lemma stays_bind {A B} pos (m : T A) (k : A -> T B) s :
  stays pos (m s) -> (forall s' a, (pos <= args s' < n)%nat -> stays pos (k a s')) -> stays pos (tbind m k s).
Proof. unfold tbind. destruct (m s); simpl; auto. Qed.

Lemma stays_weaken {A} pos pos' (r : tres A) : (pos <= pos')%nat -> stays pos' r -> stays pos r.
Proof. destruct r; simpl; try done. lia. Qed.

Lemma check_operator_binop p : op_type (check_operator p).2 = BINOP -> (check_operator p).1 <> EOI.
Proof. destruct p as [x|]; [intros _; apply check_operator_some|done]. Qed.

Lemma primary_simple_stays tok s : (args s < n)%nat -> stays (args s) (primary_simple e argv tok s).
Proof.
  intros Hs. unfold primary_simple.
  set (emptiness := tbind (arg_at argv 0) _).
  assert (forall op, stays (args s) (emptiness (mk_ps (args s) op))) as Hemp.
  { intros op. unfold emptiness, tbind. rewrite arg_at_ok by (simpl; lia). cbn [args]. rewrite Nat.add_0_r.
    destruct (lookup_lt_is_Some_2 argv (args s) Hs) as [a Ea]. rewrite Ea. simpl. lia. }
  clearbody emptiness. unfold tbind at 1, get_last at 1. unfold tbind at 1. rewrite check_at_ok by lia.
  set (p1 := argv !! (args s + 1)%nat). set (s1 := mk_ps (args s) (check_operator p1).2).
  assert ((check_operator p1).1 <> EOI -> (S (args s) < n)%nat) as Hne.
  { intros Hne. destruct (decide (S (args s) = n)) as [E|E]; [|lia]. exfalso. apply Hne.
    subst p1. apply check_eoi; lia. }
  assert (op_type (check_operator p1).2 = BINOP -> stays (args s) (binop e argv s1)) as Hbin.
  { intros Hb%check_operator_binop%Hne. exact (binop_stays s1 Hb). }
  assert (exists b, (if negb ((check_operator p1).1 =? EOI) then
                    (let* p2 := arg_at argv 2 in let* lo := get_last in
                     tret (bool_decide (is_Some p2) && bool_decide (op_type lo = BINOP)))%tst
                  else tret false) s1 = TOk s1 b /\ (b = true -> op_type (check_operator p1).2 = BINOP))
    as (b & Eb & Hb).
  { destruct (Z.eqb_spec (check_operator p1).1 EOI) as [Ez|Ez]; cbn [negb]; [by exists false|].
    unfold tbind. rewrite arg_at_ok by (specialize (Hne Ez); simpl; lia). cbn [get_last]. eexists. split; [reflexivity|].
    intros [_ Ht]%andb_true_iff. by apply bool_decide_eq_true in Ht. }
  unfold tbind at 1. rewrite Eb. destruct b; [by apply Hbin, Hb|].
  case_bool_decide.
  - unfold tbind at 1. rewrite arg_at_ok by (simpl; lia). change (argv !! (args s1 + 1)%nat) with p1.
    destruct p1 as [a1|] eqn:E1; [|apply Hemp]. apply lookup_lt_Some in E1.
    unfold tbind at 1, advance. repeat (case_goal; [simpl; lia|]).
    case_goal; [|simpl; lia]. unfold tbind. rewrite getn_num. destruct (num_of a1); [done|]. simpl. lia.
  - unfold tbind at 1, get_last. cbn [last_operator s1]. case_bool_decide; [by apply Hbin|apply Hemp].
Qed.

Lemma step_next s : (args s < n)%nat ->
  check_next argv s = TOk (mk_ps (S (args s)) (check_operator (argv !! S (args s))).2)
                        (check_operator (argv !! S (args s))).1 /\
  ((check_operator (argv !! S (args s))).1 = EOI <-> S (args s) = n).
Proof. intros Hs. split; [apply check_next_ok; lia|apply check_eoi; lia]. Qed.

Lemma retreat_stays {A} pos (a : A) s : (pos < args s <= n)%nat -> stays pos (tbind retreat (fun _ => tret a) s).
Proof. intros Hs. simpl. lia. Qed.

(** A parsing function is safe with enough fuel for what is left. *)
Definition safe (rank fuel : nat) (g : Z -> T bool) : Prop :=
  forall s tok, (args s <= n)%nat -> (tok = EOI <-> args s = n) ->
    (4 * (n - args s) + rank <= fuel)%nat -> stays (args s) (g tok s).

(** Reading the next word and going on from there. *)
Lemma stays_next pos s (k : Z -> T bool) :
  (pos <= args s < n)%nat ->
  (forall s' t, args s' = S (args s) -> (t = EOI <-> args s' = n) -> stays pos (k t s')) ->
  stays pos (tbind (check_next argv) k s).
Proof.
  intros Hs Hk. unfold tbind. destruct (step_next s) as [E1 E2]; [lia|]. rewrite E1. by apply Hk.
Qed.

Lemma stays_call {B} pos (g : Z -> T bool) tok s (k : bool -> T B) :
  (pos <= args s)%nat -> stays (args s) (g tok s) ->
  (forall s' a, (pos <= args s' < n)%nat -> stays pos (k a s')) -> stays pos (tbind (g tok) k s).
Proof. intros Hp Hg Hk. apply stays_bind; [|done]. by apply (stays_weaken pos (args s)). Qed.

Lemma tret_stays {A} pos (a : A) s : (pos <= args s < n)%nat -> stays pos (tret a s).
Proof. done. Qed.

Lemma primary_safe f : safe 4 f (oexpr e argv f) -> safe 1 (S f) (primary e argv (S f)).
Proof.
  intros IH s tok Hs Ht Hf. cbn [primary].
  destruct (Z.eqb_spec tok EOI) as [|Hne]; [done|]. assert (args s < n)%nat by (destruct (decide (args s = n)); tauto || lia).
  case_goal; [|by apply primary_simple_stays].
  apply stays_next; [lia|]. intros s1 t1 E1 T1. apply stays_call; [lia|apply IH; [lia|done|lia]|].
  intros s2 r H2. apply stays_next; [lia|]. intros s3 t3 E3 T3. case_goal; [done|]. bool_prop.
  apply tret_stays. assert (args s3 <> n); [|lia]. rewrite <- T3, Heqb0. done.
Qed.

Lemma nexpr_safe f :
  safe 2 f (nexpr e argv f) -> safe 1 f (primary e argv f) -> safe 2 (S f) (nexpr e argv (S f)).
Proof.
  intros IHn IHp s tok Hs Ht Hf. cbn [nexpr]. destruct (Z.eqb_spec tok UNOT) as [->|Hne].
  - assert (args s < n)%nat by (destruct (decide (args s = n)) as [E|]; [by apply Ht in E|lia]).
    apply stays_next; [lia|]. intros s1 t1 E1 T1. case_goal; [apply retreat_stays; lia|].
    apply stays_call; [lia|apply IHn; [lia|done|lia]|]. intros. by apply tret_stays.
  - apply IHp; [done|done|lia].
Qed.

(** The two binary levels have the same shape. *)
Lemma infix_safe f rank op (sub self : Z -> T bool) (join : bool -> bool -> bool) :
  op <> EOI -> safe rank f sub -> safe (S rank) f self ->
  safe (S rank) (S f) (fun tok =>
    let* res := sub tok in
    let* t := check_next argv in
    if t =? op then let* t := check_next argv in let* r := self t in tret (join r res)
    else retreat ;; tret res)%tst.
Proof.
  intros Hop Hsub Hself s tok Hs Ht Hf. apply stays_call; [done|by apply Hsub; [..|lia]|].
  intros s1 r H1. apply stays_next; [lia|]. intros s2 t2 E2 T2.
  destruct (Z.eqb_spec t2 op) as [->|_]; [|apply retreat_stays; lia].
  assert (args s2 <> n) by (rewrite <- T2; done).
  apply stays_next; [lia|]. intros s3 t3 E3 T3.
  apply stays_call; [lia|apply Hself; [lia|done|lia]|]. intros. by apply tret_stays.
Qed.

Lemma parse_safe fuel :
  safe 1 fuel (primary e argv fuel) /\ safe 2 fuel (nexpr e argv fuel) /\
  safe 3 fuel (aexpr e argv fuel) /\ safe 4 fuel (oexpr e argv fuel).
Proof.
  induction fuel as [|f (IHp & IHn & IHa & IHo)].
  { repeat split; intros s tok _ _ Hf; lia. }
  split; [by apply primary_safe|]. split; [by apply nexpr_safe|]. split.
  - by apply (infix_safe f 2 BAND (nexpr e argv f) (aexpr e argv f) andb).
  - by apply (infix_safe f 3 BOR (aexpr e argv f) (oexpr e argv f) orb).
Qed.

End Safe.

Lemma test_general_code e argv : exists z, test_general e argv = Code z /\ 0 <= z <= 2.
Proof.
  unfold test_general. unfold tbind. rewrite check_at_ok by (simpl; lia). cbn [args]. rewrite Nat.add_0_r.
  set (tok := (check_operator (argv !! 0%nat)).1). set (s0 := mk_ps 0 _).
  assert (stays argv (args s0) (oexpr e argv (4 * length argv + 4) tok s0)) as Hs.
  { apply parse_safe; [simpl; lia|apply check_eoi; simpl; lia|simpl; lia]. }
  destruct (oexpr _ _ _ _ _) as [s v| | |]; cbn [stays code_of] in *; try done.
  - case_goal; [by exists 2|]. rewrite (proj2 (Nat.ltb_ge _ _)) by lia.
    exists (b2z (negb v)). split; [done|]. destruct v; simpl; lia.
  - by exists 2.
Qed.

Definition special_good (r : special) : Prop :=
  match r with SRes (TOk _ _) _ | SRes (TSyntax _ _) _ | SValue _ | SGeneral _ => True | _ => False end.

Lemma special_binop e argv off op negate :
  (S off < length argv)%nat -> special_good (SRes (binop e argv (mk_ps off op)) negate).
Proof.
  intros Ho. pose proof (binop_stays e argv (mk_ps off op) Ho) as Hb.
  by destruct (binop e argv (mk_ps off op)).
Qed.

Lemma special_code fuel e argv off negate : special_good (special_loop fuel e argv off negate).
Proof.
  revert argv off negate. induction fuel as [|f IH]; intros argv off negate; cbn [special_loop]; [done|].
  assert (forall argv off negate, special_good
    (if LONE_CHAR (default [] (argv !! off)) "!" then special_loop f e argv (S off) (negb negate) else SGeneral argv))
    as Hneg by (intros; by case_goal).
  pose proof (length_drop argv off) as Hl. cbv zeta.
  destruct (drop off argv) as [|a [|b [|c [|d [|x r]]]]]; simpl in Hl; try done; try apply Hneg.
  - destruct (check_operator (Some b)) as [tok op]. case_goal; [|apply Hneg]. apply special_binop. lia.
  - case_goal; apply Hneg.
Qed.

(** C24. [test] always ends and never reads outside its argument vector: for
    every command name, arguments and file system, the exit status is 0, 1 or 2
    (the recursive-descent parser needs at most four nested calls per word). *)
Theorem test_total e arg0 argv : exists z, test_main e arg0 argv = Code z /\ 0 <= z <= 2.
Proof.
  assert (forall argv, exists z, test_body e argv = Code z /\ 0 <= z <= 2) as Hb.
  { intros argv'. unfold test_body. pose proof (special_code (S (length argv')) e argv' 0 false) as Hs.
    destruct (special_loop _ _ _ _ _) as [r neg|res|av].
    - destruct r as [s v|op m| |]; try done; cbn [code_of].
      + exists (b2z (xorb (negb v) neg)). split; [done|]. destruct (xorb _ _); simpl; lia.
      + by exists 2.
    - exists (b2z res). split; [done|]. destruct res; simpl; lia.
    - apply test_general_code. }
  unfold test_main. case_goal; [|apply Hb]. cbv zeta. case_goal; [apply Hb|by exists 2].
Qed.

(** ** Expressions and what they mean *)

Inductive texp :=
  | EStr (s : cstr)                    (* s *)
  | EUn (op s : cstr)                  (* -n s, -f s, ... *)
  | EBin (s1 op s2 : cstr)             (* s1 = s2, n1 -lt n2, ... *)
  | ENot (t : texp)
  | EAnd (a b : texp)
  | EOr (a b : texp).

(** The truth value; [None]: a word that should be a number is none.  Both sides
    of -a and -o are evaluated. *)
Fixpoint tden (e : env) (t : texp) : option bool :=
  match t with
  | EStr s => Some (negb (bool_decide (s = [])))
  | EUn op s =>
      let k := (check_operator (Some op)).1 in
      if k =? STREZ then Some (bool_decide (s = []))
      else if k =? STRNZ then Some (negb (bool_decide (s = [])))
      else if k =? FILTT then match num_of s with inl _ => None | inr fd => Some (e_isatty e fd) end
      else Some (filstat e s k)
  | EBin s1 op s2 =>
      let k := (check_operator (Some op)).1 in
      if is_int_op k then
        match num_of s1, num_of s2 with inr v1, inr v2 => Some (int_cmp k v1 v2) | _, _ => None end
      else if is_str_op k then Some (str_cmp k (strcmp s1 s2))
      else Some (file_cmp e k s1 s2)
  | ENot t => negb <$> tden e t
  | EAnd a b => x ← tden e a; y ← tden e b; Some (x && y)
  | EOr a b => x ← tden e a; y ← tden e b; Some (x || y)
  end.

(** The words of an expression, with parentheses where -a inside ! or -o inside
    -a need them ([p]: 0 an or-, 1 an and-, 2 a not-expression is expected). *)
Definition parens (b : bool) (ws : list cstr) : list cstr := if b then lit "(" :: ws ++ [lit ")"] else ws.
Fixpoint words (p : nat) (t : texp) : list cstr :=
  match t with
  | EStr s => [s]
  | EUn op s => [op; s]
  | EBin s1 op s2 => [s1; op; s2]
  | ENot t => lit "!" :: words 2 t
  | EAnd a b => parens (1 <? p)%nat (words 2 a ++ lit "-a" :: words 1 b)
  | EOr a b => parens (0 <? p)%nat (words 1 a ++ lit "-o" :: words 0 b)
  end.

(** Operands are words that are no operators. *)
Definition plain (s : cstr) : Prop := check_operator (Some s) = (OPERAND, no_op).
Fixpoint operands_ok (t : texp) : Prop :=
  match t with
  | EStr s => plain s
  | EUn op s => plain s /\ op_type (check_operator (Some op)).2 = UNOP
  | EBin s1 op s2 => plain s1 /\ op_type (check_operator (Some op)).2 = BINOP
  | ENot t => operands_ok t
  | EAnd a b | EOr a b => operands_ok a /\ operands_ok b
  end.

Lemma check_operator_num s :
  op_type (check_operator (Some s)).2 <> NO_OP -> (check_operator (Some s)).1 = op_num (check_operator (Some s)).2.
Proof. unfold check_operator. by case_goal. Qed.

Section Meaning.
Variable e : env.
Variable argv : list cstr.
Abbreviation n := (length argv).

(** The parser ends on the last word with the value, or with a message. *)
Definition outcome (r : tres bool) (last : nat) (d : option bool) : Prop :=
  match d with
  | Some v => exists lo, r = TOk (mk_ps last lo) v
  | None => exists o m, r = TSyntax o m
  end.

Definition follow (stops : list Z) (rest : list cstr) : Prop :=
  op_type (check_operator (head rest)).2 <> BINOP /\ (check_operator (head rest)).1 ∉ stops.

(** [g] parses the words [X], wherever they stand before a fitting word. *)
Definition parses (rank : nat) (stops : list Z) (g : nat -> Z -> T bool) (X : list cstr) (d : option bool) : Prop :=
  X <> [] /\ forall f s rest,
    drop (args s) argv = X ++ rest -> last_operator s = (check_operator (head X)).2 -> follow stops rest ->
    (4 * (n - args s) + rank <= f)%nat ->
    outcome (g f (check_operator (head X)).1 s) (args s + length X - 1) d.

Abbreviation Pn := (parses 2 [] (nexpr e argv)).
Abbreviation Pa := (parses 3 [BAND] (aexpr e argv)).
Abbreviation Po := (parses 4 [BAND; BOR] (oexpr e argv)).

Lemma lookup_pos s X rest k : drop (args s) argv = X ++ rest -> argv !! (args s + k)%nat = (X ++ rest) !! k.
Proof. intros Hd. by rewrite <- Hd, lookup_drop. Qed.

Lemma pos_bound s X rest : drop (args s) argv = X ++ rest -> X <> [] -> (args s + length X <= n)%nat.
Proof.
  intros Hd HX. apply (f_equal length) in Hd. rewrite length_drop, length_app in Hd.
  destruct X; [done|]. simpl in *. lia.
Qed.

(** The word after [X]. *)
Lemma next_word s X rest lo :
  drop (args s) argv = X ++ rest -> X <> [] ->
  check_next argv (mk_ps (args s + length X - 1) lo) =
  TOk (mk_ps (args s + length X) (check_operator (head rest)).2) (check_operator (head rest)).1.
Proof.
  intros Hd HX. pose proof (pos_bound s X rest Hd HX).
  assert (S (args s + length X - 1) = args s + length X)%nat as E by (destruct X; [done|simpl; lia]).
  rewrite check_next_ok by (simpl; lia). cbn [args]. rewrite E, (lookup_pos s X rest) by done.
  by rewrite lookup_app_r, Nat.sub_diag, <- head_lookup by lia.
Qed.

Lemma drop_after s X Y : drop (args s) argv = X ++ Y -> drop (args s + length X) argv = Y.
Proof. intros Hd. rewrite <- drop_drop, Hd. apply drop_app_length. Qed.

(** A level without its operator passes the result through. *)
Lemma level_up rank stops op (sub self : nat -> Z -> T bool) join X d :
  (forall f tok s, self (S f) tok s =
    (let* res := sub f tok in
     let* t := check_next argv in
     if t =? op then let* t := check_next argv in let* r := self f t in tret (join r res)
     else retreat ;; tret res)%tst s) ->
  parses rank stops sub X d -> parses (S rank) (stops ++ [op]) self X d.
Proof.
  intros Heq [HX Hsub]. split; [done|]. intros f s rest Hd Hl [Hf1 Hf2] Hf.
  destruct f as [|f]; [lia|]. apply not_elem_of_app in Hf2 as [Hf2 Hf3]. rewrite Heq. unfold tbind at 1.
  assert (follow stops rest) as Hfo by done. specialize (Hsub f s rest Hd Hl Hfo ltac:(lia)).
  destruct d as [v|]; cbn [outcome] in *; [|destruct Hsub as (o & m & E); rewrite E; by eexists _, _].
  destruct Hsub as [lo E]. rewrite E. unfold tbind at 1. rewrite (next_word s X rest) by done.
  rewrite (proj2 (Z.eqb_neq _ op)) by (intros Ho; apply Hf3; rewrite Ho; by left).
  eexists. cbn. do 2 f_equal. by rewrite Nat.sub_1_r.
Qed.
(** Parsing on from the word after [X]. *)
Lemma parses_from rank stops g Y b s X rest f :
  parses rank stops g Y b -> drop (args s) argv = X ++ Y ++ rest -> follow stops rest ->
  (4 * (n - (args s + length X)) + rank <= f)%nat ->
  outcome (g f (check_operator (head (Y ++ rest))).1
    (mk_ps (args s + length X) (check_operator (head (Y ++ rest))).2)) (args s + length X + length Y - 1) b.
Proof.
  intros [HY Hg] Hd Hfo Hf. assert (head (Y ++ rest) = head Y) as -> by (by destruct Y).
  apply (Hg f (mk_ps (args s + length X) (check_operator (head Y)).2) rest); [|done|done|done].
  cbn [args]. by apply (drop_after s X).
Qed.

Lemma parses_infix rank stops op w (sub self : nat -> Z -> T bool) join X Y a b :
  (forall f tok s, self (S f) tok s =
    (let* res := sub f tok in
     let* t := check_next argv in
     if t =? op then let* t := check_next argv in let* r := self f t in tret (join r res)
     else retreat ;; tret res)%tst s) ->
  (check_operator (Some w)).1 = op -> op_type (check_operator (Some w)).2 <> BINOP -> op ∉ stops ->
  parses rank stops sub X a -> parses (S rank) (stops ++ [op]) self Y b ->
  parses (S rank) (stops ++ [op]) self (X ++ w :: Y) (x ← a; y ← b; Some (join y x)).
Proof.
  intros Heq Hw1 Hw2 Hst [HX Hsub] Hself. split; [by destruct X|]. intros f s rest Hd Hl Hfo Hf.
  destruct f as [|f]; [lia|]. rewrite <- app_assoc in Hd. cbn [app] in Hd.
  assert (head (X ++ w :: Y) = head X) as Eh by (by destruct X). rewrite Eh in *.
  pose proof (pos_bound s (X ++ [w]) (Y ++ rest)) as Hb. rewrite <- app_assoc, length_app in Hb.
  specialize (Hb Hd ltac:(by destruct X)). simpl in Hb.
  rewrite Heq. unfold tbind at 1.
  specialize (Hsub f s (w :: Y ++ rest) Hd Hl). cbn [head] in Hsub.
  specialize (Hsub ltac:(split; cbn [head]; [done|by rewrite Hw1]) ltac:(lia)).
  destruct a as [x|]; cbn [outcome] in Hsub; [|destruct Hsub as (o & m & E); rewrite E; by eexists _, _].
  destruct Hsub as [lo E]. rewrite E. unfold tbind at 1. rewrite (next_word s X (w :: Y ++ rest)) by done.
  cbn [head]. rewrite Hw1, Z.eqb_refl. unfold tbind at 1.
  pose proof (next_word s (X ++ [w]) (Y ++ rest) (check_operator (Some w)).2) as Hn.
  rewrite <- app_assoc, length_app in Hn. cbn [length] in Hn.
  replace (args s + (length X + 1) - 1)%nat with (args s + length X)%nat in Hn by lia.
  rewrite Hn by (done || by destruct X). unfold tbind at 1.
  pose proof (parses_from _ _ _ Y b s (X ++ [w]) rest f Hself) as Hr.
  rewrite <- app_assoc, length_app in Hr. specialize (Hr Hd Hfo). cbn [length] in Hr. specialize (Hr ltac:(lia)).
  rewrite length_app. cbn [length].
  replace (args s + (length X + S (length Y)) - 1)%nat with (args s + (length X + 1) + length Y - 1)%nat by lia.
  destruct b as [y|]; cbn [outcome mbind option_bind] in *.
  - destruct Hr as [lo' E']. rewrite E'. by eexists.
  - destruct Hr as (o & m & E'). rewrite E'. by eexists _, _.
Qed.

Lemma nexpr_S f tok : nexpr e argv (S f) tok =
  (if tok =? UNOT then
     let* t := check_next argv in
     if t =? EOI then retreat ;; tret true else let* r := nexpr e argv f t in tret (negb r)
   else primary e argv f tok)%tst.
Proof. reflexivity. Qed.

Lemma primary_S f tok : primary e argv (S f) tok =
  (if tok =? EOI then syntax None "argument expected"
   else if tok =? LPAREN then
     let* t := check_next argv in
     let* res := oexpr e argv f t in
     let* t := check_next argv in
     if negb (t =? RPAREN) then syntax None "closing paren expected" else tret res
   else primary_simple e argv tok)%tst.
Proof. reflexivity. Qed.

Lemma parses_not X d : Pn X d -> Pn (lit "!" :: X) (negb <$> d).
Proof.
  intros Hn. split; [done|]. intros f s rest Hd Hl Hfo Hf. destruct f as [|f]; [lia|].
  pose proof (proj1 Hn) as HX. pose proof (pos_bound s (lit "!" :: X) rest Hd ltac:(done)) as Hb. simpl in Hb.
  cbn [head]. rewrite nexpr_S. change ((check_operator (Some (lit "!"))).1 =? UNOT) with true. cbv iota.
  unfold tbind at 1.
  pose proof (next_word s [lit "!"] (X ++ rest) (last_operator s) Hd ltac:(done)) as Hnw. cbn [length] in Hnw.
  replace (mk_ps (args s + 1 - 1) (last_operator s)) with s in Hnw by (destruct s; cbn; f_equal; lia).
  rewrite Hnw.
  assert ((check_operator (head (X ++ rest))).1 <> EOI) as He by (destruct X; [done|apply check_operator_some]).
  rewrite (proj2 (Z.eqb_neq _ EOI) He). unfold tbind at 1.
  pose proof (parses_from _ _ _ X d s [lit "!"] rest f Hn Hd Hfo) as Hr. cbn [length] in Hr. specialize (Hr ltac:(lia)).
  cbn [length]. replace (args s + S (length X) - 1)%nat with (args s + 1 + length X - 1)%nat by lia.
  destruct d as [v|]; cbn [outcome] in *.
  - destruct Hr as [lo E]. rewrite E. by eexists.
  - destruct Hr as (o & m & E). rewrite E. by eexists _, _.
Qed.

Lemma parses_paren X d : Po X d -> Pn (lit "(" :: X ++ [lit ")"]) d.
Proof.
  intros Ho. split; [done|]. intros f s rest Hd Hl Hfo Hf. destruct f as [|[|f]]; [lia|lia|].
  pose proof (proj1 Ho) as HX. cbn [app] in Hd. rewrite <- app_assoc in Hd. cbn [app] in Hd.
  pose proof (pos_bound s (lit "(" :: X ++ [lit ")"]) rest) as Hb. cbn [app] in Hb. rewrite <- app_assoc in Hb.
  specialize (Hb Hd ltac:(done)). cbn [length] in Hb. rewrite length_app in Hb. simpl in Hb.
  cbn [head]. rewrite nexpr_S, primary_S. change ((check_operator (Some (lit "("))).1) with LPAREN.
  change (LPAREN =? UNOT) with false. change (LPAREN =? EOI) with false. change (LPAREN =? LPAREN) with true.
  cbv iota.
  unfold tbind at 1.
  pose proof (next_word s [lit "("] (X ++ lit ")" :: rest) (last_operator s) Hd ltac:(done)) as Hnw. cbn [length] in Hnw.
  replace (mk_ps (args s + 1 - 1) (last_operator s)) with s in Hnw by (destruct s; cbn; f_equal; lia).
  rewrite Hnw. unfold tbind at 1.
  pose proof (parses_from _ _ _ X d s [lit "("] (lit ")" :: rest) f Ho Hd) as Hr. cbn [length] in Hr.
  specialize (Hr ltac:(split; [discriminate|by_eval]) ltac:(lia)).
  cbn [length]. rewrite length_app. cbn [length].
  destruct d as [v|]; cbn [outcome] in *; [|destruct Hr as (o & m & E); rewrite E; by eexists _, _].
  destruct Hr as [lo E]. rewrite E. unfold tbind at 1.
  pose proof (next_word s (lit "(" :: X) (lit ")" :: rest) lo Hd ltac:(done)) as Hc. cbn [length] in Hc.
  replace (args s + 1 + length X - 1)%nat with (args s + S (length X) - 1)%nat by lia. rewrite Hc.
  cbn [head]. change ((check_operator (Some (lit ")"))).1 =? RPAREN) with true. cbn [negb].
  replace (args s + S (length X + 1) - 1)%nat with (args s + S (length X))%nat by lia. by eexists.
Qed.

(** Words that start no ! or parenthesis are simple primaries. *)
Lemma nexpr_simple f tok s :
  tok <> UNOT -> tok <> EOI -> tok <> LPAREN -> nexpr e argv (S (S f)) tok s = primary_simple e argv tok s.
Proof.
  intros H1 H2 H3. rewrite nexpr_S, (proj2 (Z.eqb_neq _ _) H1), primary_S.
  by rewrite (proj2 (Z.eqb_neq _ _) H2), (proj2 (Z.eqb_neq _ _) H3).
Qed.

Lemma binop_eq s o1 w o2 :
  drop (args s) argv = o1 :: w :: o2 :: drop (args s + 3) argv ->
  let k := op_num (check_operator (Some w)).2 in
  outcome (binop e argv s) (args s + 2)
    (if is_int_op k then match num_of o1, num_of o2 with inr v1, inr v2 => Some (int_cmp k v1 v2) | _, _ => None end
     else if is_str_op k then Some (str_cmp k (strcmp o1 o2)) else Some (file_cmp e k o1 o2)).
Proof.
  intros Hd k. pose proof (pos_bound s [o1; w; o2] _ Hd ltac:(done)) as Hb. simpl in Hb.
  assert (forall i, argv !! (args s + i)%nat = (o1 :: w :: o2 :: drop (args s + 3) argv) !! i) as Hk.
  { intros i. by rewrite <- Hd, lookup_drop. }
  pose proof (Hk 0%nat) as H0. pose proof (Hk 1%nat) as H1. pose proof (Hk 2%nat) as H2. cbn in H0, H1, H2.
  unfold binop, tbind. rewrite arg_at_ok by lia. rewrite check_next_ok by lia.
  unfold get_last, advance. cbn [args last_operator]. rewrite arg_at_ok by (simpl; lia). cbn [args].
  replace (S (args s)) with (args s + 1)%nat by lia. replace (S (args s + 1) + 0)%nat with (args s + 2)%nat by lia.
  rewrite H0, H1, H2. cbn [deref]. fold k. replace (S (args s + 1)) with (args s + 2)%nat by lia.
  destruct (is_int_op k).
  - rewrite getn_num. destruct (num_of o1) as [m|v1]; [by eexists _, _|].
    rewrite getn_num. destruct (num_of o2) as [m|v2]; [by eexists _, _|]. by eexists.
  - by destruct (is_str_op k); eexists.
Qed.

Lemma primary_next s : (args s < n)%nat ->
  check_at argv 1 s = TOk (mk_ps (args s) (check_operator (argv !! (args s + 1)%nat)).2)
    (check_operator (argv !! (args s + 1)%nat)).1.
Proof. intros Hs. apply check_at_ok. lia. Qed.

(** Followed by no binary operator: a unary test or a non-emptiness test. *)
Lemma primary_nobin tok s a :
  argv !! args s = Some a -> op_type (check_operator (argv !! (args s + 1)%nat)).2 <> BINOP ->
  let s1 := mk_ps (args s) (check_operator (argv !! (args s + 1)%nat)).2 in
  primary_simple e argv tok s =
  if bool_decide (op_type (last_operator s) = UNOP) then
    match argv !! (args s + 1)%nat with
    | None => TOk s1 (negb (bool_decide (a = [])))
    | Some a1 =>
        (advance ;;
         if tok =? STREZ then tret (bool_decide (a1 = []))
         else if tok =? STRNZ then tret (negb (bool_decide (a1 = [])))
         else if tok =? FILTT then let* fd := getn a1 in tret (e_isatty e fd)
         else tret (filstat e a1 tok))%tst s1
    end
  else TOk s1 (negb (bool_decide (a = []))).
Proof.
  intros Ha Hb s1. pose proof (lookup_lt_Some _ _ _ Ha) as Hs. unfold primary_simple.
  set (emptiness := tbind (arg_at argv 0) _).
  assert (emptiness s1 = TOk s1 (negb (bool_decide (a = [])))) as Hemp.
  { unfold emptiness, tbind. rewrite arg_at_ok by (simpl; lia). cbn [args s1]. by rewrite Nat.add_0_r, Ha. }
  clearbody emptiness. unfold tbind at 1, get_last at 1. unfold tbind at 1. rewrite primary_next by done. fold s1.
  set (p1 := argv !! (args s + 1)%nat) in *.
  assert ((if negb ((check_operator p1).1 =? EOI) then
             (let* p2 := arg_at argv 2 in let* lo := get_last in
              tret (bool_decide (is_Some p2) && bool_decide (op_type lo = BINOP)))%tst
           else tret false) s1 = TOk s1 false) as Eb.
  { destruct (Z.eqb_spec (check_operator p1).1 EOI) as [Ez|Ez]; cbn [negb]; [done|].
    assert (args s + 1 < n)%nat as Hn.
    { destruct p1 eqn:Ep; [by apply lookup_lt_Some in Ep|by contradiction Ez]. }
    unfold tbind. rewrite arg_at_ok by (simpl; lia). unfold get_last, tret, s1. cbn [last_operator].
    by rewrite (bool_decide_eq_false_2 _ Hb), andb_false_r. }
  unfold tbind at 1. rewrite Eb. destruct (bool_decide (op_type (last_operator s) = UNOP)).
  - unfold tbind at 1. rewrite arg_at_ok by (simpl; lia). change (argv !! (args s1 + 1)%nat) with p1.
    by destruct p1.
  - unfold tbind at 1, get_last. cbn [last_operator s1].
    by rewrite (bool_decide_eq_false_2 _ Hb).
Qed.

(** Followed by a binary operator and one more word: the binary test. *)
Lemma primary_bin tok s w o2 :
  argv !! (args s + 1)%nat = Some w -> argv !! (args s + 2)%nat = Some o2 ->
  op_type (check_operator (Some w)).2 = BINOP ->
  primary_simple e argv tok s = binop e argv (mk_ps (args s) (check_operator (Some w)).2).
Proof.
  intros H1 H2 Hb. pose proof (lookup_lt_Some _ _ _ H2) as Hs. unfold primary_simple.
  set (emptiness := tbind (arg_at argv 0) _). clearbody emptiness.
  unfold tbind at 1, get_last at 1. unfold tbind at 1. rewrite primary_next by lia. rewrite H1.
  rewrite (proj2 (Z.eqb_neq _ EOI) (check_operator_some w)). cbn [negb].
  unfold tbind at 1. unfold tbind at 1. rewrite arg_at_ok by (simpl; lia). cbn [args]. rewrite H2.
  unfold tbind at 1, get_last at 1. cbn [last_operator tret]. by rewrite (bool_decide_eq_true_2 _ Hb).
Qed.

Lemma parses_str x : plain x -> Pn [x] (Some (negb (bool_decide (x = [])))).
Proof.
  intros Hp. split; [done|]. intros f s rest Hd Hl [Hfo _] Hf. destruct f as [|[|f]]; [lia|lia|].
  cbn [head] in *. rewrite Hp in *. rewrite nexpr_simple by done. cbn [length].
  pose proof (lookup_pos s _ _ 0 Hd) as H0. pose proof (lookup_pos s _ _ 1 Hd) as H1.
  rewrite Nat.add_0_r in H0. change (argv !! (args s + 1)%nat = rest !! 0%nat) in H1.
  rewrite <- head_lookup in H1.
  rewrite (primary_nobin _ s x) by (done || (rewrite H1; done)). rewrite Hl. cbn.
  eexists. do 2 f_equal. lia.
Qed.

(** A word that is no !, -a, -o or parenthesis starts a simple primary. *)
Lemma check_operator_simple w :
  op_type (check_operator (Some w)).2 ∈ [UNOP; BINOP; NO_OP] ->
  (check_operator (Some w)).1 <> UNOT /\ (check_operator (Some w)).1 <> EOI /\ (check_operator (Some w)).1 <> LPAREN.
Proof.
  unfold check_operator. case_goal; [done|]. set (k := Z.to_nat _). clearbody k. cbn [fst snd].
  assert (Forall (fun o => op_type o ∈ [UNOP; BINOP; NO_OP] ->
    op_num o <> UNOT /\ op_num o <> EOI /\ op_num o <> LPAREN) (no_op :: ops_table)) as Ht by by_eval.
  rewrite List.Forall_forall in Ht. apply Ht. destruct (nth_in_or_default k ops_table no_op) as [Hi| ->]; simpl; auto.
Qed.

Lemma parses_un op x : plain x -> op_type (check_operator (Some op)).2 = UNOP -> Pn [op; x] (tden e (EUn op x)).
Proof.
  intros Hp Hu. split; [done|]. intros f s rest Hd Hl Hfo Hf. destruct f as [|[|f]]; [lia|lia|].
  cbn [head] in *. destruct (check_operator_simple op) as (N1 & N2 & N3); [rewrite Hu; by_eval|].
  rewrite nexpr_simple by done. cbn [length].
  pose proof (lookup_pos s _ _ 0 Hd) as H0. pose proof (lookup_pos s _ _ 1 Hd) as H1.
  rewrite Nat.add_0_r in H0. cbn in H0, H1. rewrite (primary_nobin _ s op), H1; [|done|by rewrite H1, Hp].
  rewrite Hl, (bool_decide_eq_true_2 _ Hu). unfold tbind at 1, advance. cbn [args last_operator tden].
  replace (args s + 2 - 1)%nat with (S (args s)) by lia. unfold tret, tbind.
  do 2 (case_goal; [by eexists|]). case_goal; [|by eexists].
  rewrite getn_num. destruct (num_of x); [by eexists _, _|by eexists].
Qed.

Lemma parses_bin s1 op s2 :
  plain s1 -> op_type (check_operator (Some op)).2 = BINOP -> Pn [s1; op; s2] (tden e (EBin s1 op s2)).
Proof.
  intros Hp Hb. split; [done|]. intros f s rest Hd Hl Hfo Hf. destruct f as [|[|f]]; [lia|lia|].
  cbn [head] in *. rewrite Hp. rewrite nexpr_simple by done. cbn [length tden].
  pose proof (lookup_pos s _ _ 1 Hd) as H1. pose proof (lookup_pos s _ _ 2 Hd) as H2. cbn in H1, H2.
  rewrite (primary_bin _ s op s2) by done. rewrite check_operator_num by (by rewrite Hb).
  replace (args s + 3 - 1)%nat with (args s + 2)%nat by lia.
  apply (binop_eq (mk_ps (args s) (check_operator (Some op)).2)). cbn [args].
  rewrite (drop_after s [s1; op; s2] rest Hd : drop (args s + 3) argv = rest). exact Hd.
Qed.

Lemma aexpr_S f tok s : aexpr e argv (S f) tok s =
  (let* res := nexpr e argv f tok in
   let* t := check_next argv in
   if t =? BAND then let* t := check_next argv in let* r := aexpr e argv f t in tret (r && res)
   else retreat ;; tret res)%tst s.
Proof. reflexivity. Qed.

Lemma oexpr_S f tok s : oexpr e argv (S f) tok s =
  (let* res := aexpr e argv f tok in
   let* t := check_next argv in
   if t =? BOR then let* t := check_next argv in let* r := oexpr e argv f t in tret (r || res)
   else retreat ;; tret res)%tst s.
Proof. reflexivity. Qed.

Lemma pn_pa X d : Pn X d -> Pa X d.
Proof. apply (level_up 2 [] BAND (nexpr e argv) (aexpr e argv) andb X d). exact aexpr_S. Qed.

Lemma pa_po X d : Pa X d -> Po X d.
Proof. apply (level_up 3 [BAND] BOR (aexpr e argv) (oexpr e argv) orb X d). exact oexpr_S. Qed.

Lemma parses_and X Y a b : Pn X a -> Pa Y b -> Pa (X ++ lit "-a" :: Y) (x ← a; y ← b; Some (x && y)).
Proof.
  intros HX HY. replace (x ← a; y ← b; Some (x && y)) with (x ← a; y ← b; Some (y && x))
    by (destruct a, b; cbn; f_equal; apply andb_comm).
  apply (parses_infix 2 [] BAND (lit "-a") (nexpr e argv) (aexpr e argv) andb X Y a b aexpr_S); by_eval || done.
Qed.

Lemma parses_or X Y a b : Pa X a -> Po Y b -> Po (X ++ lit "-o" :: Y) (x ← a; y ← b; Some (x || y)).
Proof.
  intros HX HY. replace (x ← a; y ← b; Some (x || y)) with (x ← a; y ← b; Some (y || x))
    by (destruct a, b; cbn; f_equal; apply orb_comm).
  apply (parses_infix 3 [BAND] BOR (lit "-o") (aexpr e argv) (oexpr e argv) orb X Y a b oexpr_S); by_eval || done.
Qed.

Lemma words_parse t :
  operands_ok t -> Pn (words 2 t) (tden e t) /\ Pa (words 1 t) (tden e t) /\ Po (words 0 t) (tden e t).
Proof.
  assert (forall X d, Pn X d -> Pn X d /\ Pa X d /\ Po X d) as Hup by (intros; auto using pn_pa, pa_po).
  induction t as [s|op s|s1 op s2|t IH|a IHa b IHb|a IHa b IHb]; cbn [operands_ok words tden].
  - intros H. by apply Hup, parses_str.
  - intros [H1 H2]. by apply Hup, parses_un.
  - intros [H1 H2]. by apply Hup, parses_bin.
  - intros H. by apply Hup, parses_not, IH.
  - intros [Ha Hb]. destruct (IHa Ha) as (A & _ & _), (IHb Hb) as (_ & B & _).
    pose proof (parses_and _ _ _ _ A B) as H. simpl parens. split; [by apply parses_paren, pa_po|]. auto using pa_po.
  - intros [Ha Hb]. destruct (IHa Ha) as (_ & A & _), (IHb Hb) as (_ & _ & B).
    pose proof (parses_or _ _ _ _ A B) as H. simpl parens.
    assert (Pn (lit "(" :: (words 1 a ++ lit "-o" :: words 0 b) ++ [lit ")"])
              (x ← tden e a; y ← tden e b; Some (x || y))) by (by apply parses_paren).
    auto using pn_pa.
Qed.

Lemma general_code d : Po argv d ->
  test_general e argv = Code (match d with Some v => b2z (negb v) | None => 2 end).
Proof.
  intros [Hne Ho]. unfold test_general. unfold tbind. rewrite check_at_ok by (simpl; lia). cbn [args plus].
  assert (argv !! 0%nat = head argv) as -> by (by destruct argv).
  specialize (Ho (4 * n + 4)%nat (mk_ps 0 (check_operator (head argv)).2) []). cbn [args last_operator plus] in Ho.
  rewrite drop_0, app_nil_r in Ho. specialize (Ho eq_refl eq_refl ltac:(split; by_eval) ltac:(lia)).
  assert (0 < n)%nat by (destruct argv; [done|simpl; lia]).
  destruct d as [v|]; cbn [outcome] in Ho.
  - destruct Ho as [lo E]. rewrite E. cbn [code_of args].
    rewrite (proj2 (Nat.ltb_ge (S (n - 1)) n)), andb_false_r, (proj2 (Nat.ltb_ge n (n - 1))) by lia. done.
  - destruct Ho as (o & m & E). by rewrite E.
Qed.

End Meaning.

Lemma body_general e argv :
  (5 <= length argv)%nat -> head argv <> Some (lit "!") -> test_body e argv = test_general e argv.
Proof.
  intros Hl Hh. unfold test_body. cbn [special_loop]. rewrite drop_0.
  destruct argv as [|a [|b [|c [|d [|x r]]]]]; simpl in Hl; try lia. cbv zeta. cbn [lookup list_lookup default].
  unfold LONE_CHAR at 1. rewrite bool_decide_eq_false_2; [done|]. intros E. apply Hh. simpl in *. by rewrite E.
Qed.

Lemma body_words e t :
  operands_ok t -> (5 <= length (words 0 t))%nat -> head (words 0 t) <> Some (lit "!") ->
  test_body e (words 0 t) = Code (match tden e t with Some v => b2z (negb v) | None => 2 end).
Proof.
  intros Ht Hl Hh. rewrite body_general by done. apply general_code.
  by apply (words_parse e (words 0 t) t).
Qed.

(** C23. The general parser of [test] and [[] computes the meaning of the
    expression its words spell: with ! binding closer than -a, -a closer than -o,
    and parentheses, the exit status is 0 for a true expression, 1 for a false
    one and 2 when a word that must be a number is none.  The words are five or
    more and do not begin with ! (what has fewer words can end in the POSIX special
    cases), and no operand is itself an operator (see [paren_two_words]). *)
Theorem test_evaluates e t :
  operands_ok t -> (5 <= length (words 0 t))%nat -> head (words 0 t) <> Some (lit "!") ->
  let status := Code (match tden e t with Some v => b2z (negb v) | None => 2 end) in
  test_main e (lit "test") (words 0 t) = status /\ test_main e (lit "[") (words 0 t ++ [lit "]"]) = status.
Proof.
  intros Ht Hl Hh status. split; [by apply body_words|].
  change (test_main e (lit "[") (words 0 t ++ [lit "]"])) with
    (if LONE_CHAR (default (lit "[") (last (words 0 t ++ [lit "]"]))) "]"
     then test_body e (take (pred (length (words 0 t ++ [lit "]"]))) (words 0 t ++ [lit "]"])) else Code 2).
  rewrite last_snoc. change (LONE_CHAR (default (lit "[") (Some (lit "]"))) "]") with true. cbv iota.
  rewrite length_app, Nat.add_1_r. cbn [pred]. rewrite take_app_length. by apply body_words.
Qed.

Definition demo_env : env :=
  mk_env (fun p => if bool_decide (p = lit "/tmp") then Some (mk_stat 0x41ed 0 0 0 0 1 1) else None)
    (fun _ => None) (fun _ => false) 0 0 0 [].

(** "( a = b -o 3 -lt 4 ) -a ! -f /tmp". *)
Definition demo_exp : texp :=
  EAnd (EOr (EBin (lit "a") (lit "=") (lit "b")) (EBin (lit "3") (lit "-lt") (lit "4")))
       (ENot (EUn (lit "-f") (lit "/tmp"))).

Lemma test_evaluates_witness :
  test_main demo_env (lit "test") (words 0 demo_exp) = Code 0 /\
  test_main demo_env (lit "[") (words 0 demo_exp ++ [lit "]"]) = Code 0.
Proof. apply (test_evaluates demo_env demo_exp); [repeat split; reflexivity|by_eval|discriminate]. Defined.

(** With the four words ( -op y ) the code cuts the closing parenthesis off
    but still parses from the opening one, so the two-word test POSIX asks for
    there (and the comment announces) is never made: the answer is always the
    syntax error, status 2, whatever the two words say. *)
Theorem paren_two_words e x y :
  op_type (check_operator (Some x)).2 = UNOP -> plain y ->
  test_main e (lit "test") [lit "("; x; y; lit ")"] = Code 2.
Proof.
  intros Hx Hy. set (argv := [lit "("; x; y]).
  assert (x <> lit "!") as Hne by (intros ->; discriminate Hx).
  assert (test_body e [lit "("; x; y; lit ")"] = test_general e argv) as E.
  { unfold test_body. cbn. unfold LONE_CHAR. by rewrite (bool_decide_eq_false_2 (x = _)). }
  change (test_body e [lit "("; x; y; lit ")"] = Code 2). rewrite E. unfold test_general, tbind at 1.
  rewrite check_at_ok by (simpl; lia). cbn [args plus argv lookup list_lookup].
  change (4 * length argv + 4)%nat with (S (S (S (S 12)))).
  rewrite oexpr_S. unfold tbind at 1. rewrite aexpr_S. unfold tbind at 1.
  rewrite nexpr_S, primary_S. change (check_operator (Some (lit "("))) with (LPAREN, mk_op LPAREN PAREN).
  cbn [fst snd]. change (LPAREN =? UNOT) with false. change (LPAREN =? EOI) with false.
  change (LPAREN =? LPAREN) with true. cbv iota. unfold tbind at 1.
  rewrite check_next_ok by (simpl; lia). cbn [args]. change (argv !! 1%nat) with (Some x). unfold tbind at 1.
  pose proof (pa_po e argv _ _ (pn_pa e argv _ _ (parses_un e argv x y Hy Hx))) as [_ Ho].
  specialize (Ho 12%nat (mk_ps 1 (check_operator (Some x)).2) [] eq_refl eq_refl ltac:(split; by_eval)
    ltac:(cbn; lia)). cbn [head args length] in Ho.
  destruct (tden e (EUn x y)) as [v|]; cbn [outcome] in Ho.
  - destruct Ho as [lo E']. rewrite E'. unfold tbind at 1. rewrite check_next_ok by (simpl; lia). reflexivity.
  - destruct Ho as (o & m & E'). by rewrite E'.
Qed.

Lemma paren_two_words_witness : test_main demo_env (lit "test") [lit "("; lit "-n"; lit "a"; lit ")"] = Code 2.
Proof. apply paren_two_words; reflexivity. Defined.
