(* ===== verification/Cut.v ===== *)
(** * coreutils/cut.c: the [cut] command

    The list parser and the three ways of cutting a line: by bytes (-b, -c), by
    whole lines (a newline as delimiter) and by fields (-f), with -s, -D and the
    output delimiter.  FEATURE_CUT_REGEX is off, so [shoe] is 0.  The input is
    the list of lines [xmalloc_fgetline] returns.  The order the libc's [qsort]
    gives to ranges with the same start is not specified: sorting is an
    operation of the class [Qsort], whose laws are the C standard's. *)

From Stdlib Require Import Ascii String ZArith Lia Sorted Permutation.
From stdpp Require Import base list sorting strings.
From S2P Require Import Prelude Clib LibbbStr LibbbNum.

Local Open Scope Z_scope.

Definition INT_MAX : Z := 2 ^ 31 - 1.

(** [struct cut_list]: zero-based, [endpos] included. *)
Record cut_list := mk_cl { startpos : Z; endpos : Z }.

Definition cmpfunc (a b : cut_list) : Z := wrapS 32 (startpos a - startpos b).

(** ** The list *)

(** [strsep] on one separator: the token, and what is left ([None]: no
    separator was found). *)
Fixpoint strsep (d : ascii) (s : cstr) : cstr * option cstr :=
  match s with
  | [] => ([], None)
  | c :: s' => if (c ≟ d) then ([], Some s')
               else let '(tok, rest) := strsep d s' in (c :: tok, rest)
  end.

(** The ways [cut] dies. *)
Inductive cut_error :=
  | NoMode                    (* none of -b, -c, -f *)
  | OnlyOnFields              (* -s or -d without -f *)
  | BadNumber                 (* out of xatoi_positive *)
  | Reversed (e s : Z)        (* "%d<%d" *)
  | NoList.                   (* "missing list of positions" *)

(** The start: an empty token is 0; numbers are one-based for the user. *)
Definition parse_start (ntok : cstr) : option Z :=
  match ntok with
  | [] => Some 0
  | _ => match xatoi_positive ntok with
         | XOk s => Some (if negb (s =? 0) then s - 1 else s)
         | _ => None
         end
  end.

(** One range: the body of the [while] loop for a token that is not empty. *)
Definition parse_range (ltok : cstr) : cut_error + cut_list :=
  let '(ntok, ltok) := strsep "-"%char ltok in
  match parse_start ntok with
  | None => inl BadNumber
  | Some s =>
      match ltok with
      | None => inr (mk_cl s s)
      | Some [] => inr (mk_cl s INT_MAX)
      | Some l => match xatoi_positive l with
                  | XOk e => if e <? s then inl (Reversed e s) else inr (mk_cl s (e - 1))
                  | _ => inl BadNumber
                  end
      end
  end.

(** [while ((ltok = strsep(&sopt, ",")) != NULL)]; every turn but the last
    removes a comma. *)
Fixpoint parse_loop (fuel : nat) (sopt : cstr) (acc : list cut_list) : cut_error + list cut_list :=
  match fuel with
  | O => inr (rev acc)
  | S f =>
      let '(ltok, rest) := strsep ","%char sopt in
      match (match ltok with
             | [] => inr acc
             | _ => match parse_range ltok with inl e => inl e | inr r => inr (r :: acc) end
             end) with
      | inl e => inl e
      | inr acc => match rest with None => inr (rev acc) | Some sopt => parse_loop f sopt acc end
      end
  end.

(** The standard library's [qsort] with [cmpfunc]. *)
Class Qsort := {
  qsort : list cut_list -> list cut_list;
  qsort_perm : forall l, qsort l ≡ₚ l;
  qsort_sorted : forall l, Forall (fun r => 0 <= startpos r <= INT_MAX) l ->
    StronglySorted (fun a b => cmpfunc a b <= 0) (qsort l);
}.

Definition cut_lists_of `{Qsort} (nosort : bool) (sopt : cstr) : cut_error + list cut_list :=
  match parse_loop (S (length sopt)) sopt [] with
  | inl e => inl e
  | inr [] => inl NoList
  | inr l => inr (if nosort then l else qsort l)
  end.

(** ** Cutting one line *)

(** The inner loop of the byte mode, from [spos]: the characters put out, and
    the new [printed] array. *)
Fixpoint bytes_range (fuel : nat) (line : cstr) (spos endp : Z) (printed : list bool) : cstr * list bool :=
  match fuel with
  | O => ([], printed)
  | S f =>
      if spos <? Z.of_nat (length line) then
        let i := Z.to_nat spos in
        let '(out, printed) :=
          if default false (printed !! i) then ([], printed) else ([at0 line i], <[i := true]> printed) in
        if endp <? spos + 1 then (out, printed)
        else let '(out', printed) := bytes_range f line (spos + 1) endp printed in (out ++ out', printed)
      else ([], printed)
  end.

Fixpoint bytes_lists (line : cstr) (lists : list cut_list) (printed : list bool) : cstr :=
  match lists with
  | [] => []
  | r :: lists =>
      let '(out, printed) := bytes_range (length line) line (startpos r) (endpos r) printed in
      out ++ bytes_lists line lists printed
  end.

Definition cut_bytes (lists : list cut_list) (line : cstr) : cstr :=
  bytes_lists line lists (replicate (S (length line)) false).

(** The line mode: is line [linenum] printed?  [spos] walks through the ranges. *)
Fixpoint lines_walk (fuel : nat) (linenum spos : Z) (r : cut_list) (more : list cut_list) : bool :=
  match fuel with
  | O => false
  | S f =>
      if spos <? linenum then
        let spos := spos + 1 in
        if endpos r <? spos then
          match more with
          | [] => false
          | r :: more => if linenum <? startpos r then false else lines_walk f linenum (startpos r) r more
          end
        else lines_walk f linenum spos r more
      else true
  end.

Definition cut_lines (lists : list cut_list) (linenum : Z) : bool :=
  match lists with
  | [] => false
  | r :: more =>
      if linenum <? startpos r then false
      else lines_walk (S (Z.to_nat linenum * length lists + length lists)) linenum (startpos r) r more
  end.

(** The field mode: the local variables of the loop (the index [end] is
    [fend]). *)
Record fstate := mk_fs { cl_pos : nat; uu : nat; start : nat; fend : nat; out : nat; dcount : Z }.

Inductive fnext :=
  | FGo (st : fstate) (text : cstr)          (* continue, after printing [text] *)
  | FBreak (text : cstr)                     (* break, after printing [text] *)
  | FSuppress.                               (* goto next_line *)

Section Fields.
Variable delim : ascii.
Variable odelim : cstr.
Variable suppress nosort : bool.
Variable lists : list cut_list.
Variable line : cstr.
Abbreviation linelen := (length line).

(** [cut_lists[cl_pos]]. *)
Definition clist (i : nat) : cut_list := nth i lists (mk_cl 0 0).

(** [printf("%s%.*s", out++ ? odelim : "", end-start, line + start)], the new
    [start] and the [if (!dcount) break]. *)
Definition field_print (st : fstate) : fnext :=
  let text := (if (out st =? 0)%nat then [] else odelim) ++ take (fend st - start st) (drop (start st) line) in
  if dcount st =? 0 then FBreak text
  else FGo (mk_fs (cl_pos st) (uu st) (uu st) (fend st) (S (out st)) (dcount st)) text.

(** The end of the line and the next delimiter. *)
Definition field_scan (st : fstate) : fnext :=
  let '(mk_fs cl u s e o d) := st in
  if (u =? linelen)%nat then
    if (cl =? 0)%nat && (d =? 0) then
      if suppress then FSuppress else field_print (mk_fs cl u s linelen o d)
    else field_print (mk_fs cl u (if d <? startpos (clist cl) then linelen else s) linelen o d)
  else if negb (at0 line u ≟ delim) then FGo (mk_fs cl (S u) s u o d) []
  else if d <? startpos (clist cl) then FGo (mk_fs cl (S u) (S u) u o (d + 1)) []
  else field_print (mk_fs cl (S u) s u o (d + 1)).

(** One turn of [for (;;)]. *)
Definition field_step (st : fstate) : fnext :=
  if (fend st =? linelen)%nat || (endpos (clist (cl_pos st)) <? dcount st) then
    let cl := S (cl_pos st) in
    if (length lists <=? cl)%nat then FBreak []
    else if nosort then field_scan (mk_fs cl 0 0 0 (out st) 0)
    else field_scan (mk_fs cl (uu st) (start st) 0 (out st) (dcount st))
  else field_scan st.

(** [None]: out of fuel; [Some None]: the line is suppressed. *)
Fixpoint field_loop (fuel : nat) (st : fstate) : option (option cstr) :=
  match fuel with
  | O => None
  | S f =>
      match field_step st with
      | FGo st text => match field_loop f st with
                       | Some (Some text') => Some (Some (text ++ text'))
                       | r => r
                       end
      | FBreak text => Some (Some text)
      | FSuppress => Some None
      end
  end.

(** A range costs at most one pass over the line and one turn at its end. *)
Definition cut_fields : option (option cstr) :=
  field_loop ((length lists + 1) * (linelen + 3)) (mk_fs 0 0 0 0 0 0).

End Fields.

(** ** The command *)

Inductive cut_mode := ByBytes | ByFields.

Record cut_opts := mk_co {
  co_mode : cut_mode; co_delim : cstr; co_odelim : cstr; co_suppress : bool; co_nosort : bool;
}.

(** What is printed for one line. *)
Definition cut_line (o : cut_opts) (lists : list cut_list) (linenum : Z) (line : cstr) : option cstr :=
  match co_mode o with
  | ByBytes => Some (cut_bytes lists line ++ [NL])
  | ByFields =>
      if (hd0 (co_delim o) ≟ NL) then Some (if cut_lines lists linenum then line ++ [NL] else [])
      else match cut_fields (hd0 (co_delim o)) (co_odelim o) (co_suppress o) (co_nosort o) lists line with
           | None => None
           | Some None => Some []
           | Some (Some text) => Some (text ++ [NL])
           end
  end.

Fixpoint cut_file (o : cut_opts) (lists : list cut_list) (linenum : Z) (lines : list cstr) : option cstr :=
  match lines with
  | [] => Some []
  | l :: lines =>
      match cut_line o lists linenum l, cut_file o lists (linenum + 1) lines with
      | Some a, Some b => Some (a ++ b)
      | _, _ => None
      end
  end.

(** The defaults and checks on the options, then the list, then each file
    ([None]: it cannot be opened, a warning), to the output and the exit status.
    [delim] and [odelim] are the arguments of -d and -O. *)
Definition cut_main `{Qsort} (mode : option cut_mode) (sopt : cstr) (delim odelim : option cstr)
    (suppress nosort : bool) (files : list (option (list cstr))) : option (cut_error + cstr * Z) :=
  let d := match delim with Some (c :: r) => c :: r | _ => [TAB] end in
  let od := default d odelim in
  match mode with
  | None => Some (inl NoMode)
  | Some m =>
      if match m with ByBytes => suppress || bool_decide (is_Some delim) | ByFields => false end
      then Some (inl OnlyOnFields)
      else
        match cut_lists_of nosort sopt with
        | inl e => Some (inl e)
        | inr lists =>
            let one file := match file with
                            | None => Some []
                            | Some lines => cut_file (mk_co m d od suppress nosort) lists 0 lines
                            end in
            (fun outs => inr (concat outs, b2z (bool_decide (None ∈ files)))) <$> mapM one files
        end
  end.

(** ** Ranges *)

(** The positions the loops over the ranges go through.  They test for the end
    after the start, so a range whose end is before its start, which the parsing
    lets through ([cut_reversed_accepted]), goes through its start. *)
Definition covers (r : cut_list) (i : Z) : bool :=
  (startpos r <=? i) && (i <=? Z.max (startpos r) (endpos r)).
Definition covered (lists : list cut_list) (i : Z) : bool := existsb (fun r => covers r i) lists.

Definition pos_ok (r : cut_list) : Prop := 0 <= startpos r <= INT_MAX.
Definition by_start (lists : list cut_list) : Prop := StronglySorted (fun a b => startpos a <= startpos b) lists.

Lemma xatoi_positive_range s z : xatoi_positive s = XOk z -> 0 <= z <= INT_MAX.
Proof.
  unfold xatoi_positive, xatou_range, xstrtou_range_sfx, chk_range, TYPE_MAX, INT_MAX.
  repeat case_goal; try done; bool_prop; intros [= <-]; lia.
Qed.

Lemma parse_range_ok l r : parse_range l = inr r -> pos_ok r.
Proof.
  unfold parse_range. destruct (strsep _ l) as [ntok ltok].
  assert (forall s, parse_start ntok = Some s -> 0 <= s <= INT_MAX) as Hs.
  { intros s. unfold parse_start. destruct ntok; [intros [= <-]; unfold INT_MAX; lia|].
    destruct (xatoi_positive _) eqn:E; [|done|done]. apply xatoi_positive_range in E.
    intros [= <-]. destruct (Z.eqb_spec z 0); cbn [negb]; lia. }
  destruct (parse_start ntok) as [s|]; [|done]. specialize (Hs s eq_refl).
  repeat case_goal; intros; simplify_eq; done.
Qed.

Lemma parse_loop_ok fuel sopt acc l :
  Forall pos_ok acc -> parse_loop fuel sopt acc = inr l -> Forall pos_ok l.
Proof.
  revert sopt acc. induction fuel as [|f IH]; intros sopt acc Ha; cbn [parse_loop].
  { intros [= <-]. by apply Forall_rev. }
  destruct (strsep _ sopt) as [ltok rest]. destruct ltok as [|c ltok].
  - destruct rest; [by apply IH|]. intros [= <-]. by apply Forall_rev.
  - destruct (parse_range (c :: ltok)) eqn:E; [done|]. apply parse_range_ok in E.
    assert (Forall pos_ok (c0 :: acc)) as Hc by (by constructor).
    destruct rest; [by apply IH|]. intros [= <-]. by apply (Forall_rev Hc).
Qed.

Lemma cmpfunc_sorted l : Forall pos_ok l -> StronglySorted (fun a b => cmpfunc a b <= 0) l -> by_start l.
Proof.
  intros Hl Hs. induction Hs as [|a l Hs IH Ha]; [constructor|].
  inversion Hl as [|? ? Hpa Hpl]; subst. constructor; [by apply IH|].
  rewrite !Forall_forall in *. intros b Hb. specialize (Ha b Hb). specialize (Hpl b Hb).
  unfold cmpfunc, pos_ok, INT_MAX in *. rewrite wrapS_id in Ha by (done || (unfold is_s; lia)). lia.
Qed.

Lemma cut_lists_ok `{Qsort} nosort sopt lists :
  cut_lists_of nosort sopt = inr lists -> lists <> [] /\ Forall pos_ok lists /\ (nosort = false -> by_start lists).
Proof.
  unfold cut_lists_of. destruct (parse_loop _ _ _) as [|[|r l]] eqn:E; [done|done|].
  apply parse_loop_ok in E; [|constructor]. intros [= <-]. destruct nosort; [done|].
  pose proof (qsort_perm (r :: l)) as Hp. assert (Forall pos_ok (qsort (r :: l))) as Hq by (by rewrite Hp).
  split; [intros E0; rewrite E0 in Hp; by apply Permutation_nil_cons in Hp|].
  split; [done|]. intros _. by apply cmpfunc_sorted, qsort_sorted.
Qed.

(** ** Cutting by bytes *)

Lemma filter_ext_elem {A} (P Q : A -> Prop) `{forall x, Decision (P x), forall x, Decision (Q x)} (l : list A) :
  (forall x, x ∈ l -> P x <-> Q x) -> filter P l = filter Q l.
Proof.
  induction l as [|x l IH]; intros H1; [done|]. rewrite !filter_cons.
  rewrite (decide_ext (P x) (Q x)) by (apply H1; left). rewrite IH by (intros; apply H1; by right). done.
Qed.

Definition marked (printed : list bool) (i : nat) : bool := default false (printed !! i).

Lemma marked_insert printed i j :
  (i < length printed)%nat -> marked (<[i := true]> printed) j = (i =? j)%nat || marked printed j.
Proof.
  intros Hi. unfold marked. destruct (Nat.eqb_spec i j) as [->|Hne]; simpl.
  - by rewrite list_lookup_insert_eq.
  - by rewrite list_lookup_insert_ne.
Qed.

(** The first position behind a range that starts at [spos]. *)
Definition stop (line : cstr) (spos endp : Z) : nat :=
  Z.to_nat (Z.min (Z.of_nat (length line)) (Z.max spos endp + 1)).

Lemma bytes_range_spec fuel line spos endp printed :
  0 <= spos -> Z.of_nat (length line) - spos <= Z.of_nat fuel -> length printed = S (length line) ->
  let lo := Z.to_nat spos in
  let hi := stop line spos endp in
  let '(out, printed') := bytes_range fuel line spos endp printed in
  out = at0 line <$> filter (fun i => marked printed i = false) (seq lo (hi - lo)) /\
  length printed' = length printed /\
  (forall i, marked printed' i = marked printed i || ((lo <=? i)%nat && (i <? hi)%nat)).
Proof.
  revert spos printed. induction fuel as [|f IH]; intros spos printed Hs Hf Hp; cbn [bytes_range].
  { assert (stop line spos endp - Z.to_nat spos = 0)%nat as E by (unfold stop; lia).
    cbv zeta. rewrite E. split; [done|]. split; [done|]. intros i. destruct (marked printed i); [done|].
    destruct (Nat.leb_spec (Z.to_nat spos) i), (Nat.ltb_spec i (stop line spos endp)); simpl; lia. }
  destruct (Z.ltb_spec spos (Z.of_nat (length line))) as [Hlt|Hge].
  2: { assert (stop line spos endp - Z.to_nat spos = 0)%nat as E by (unfold stop; lia).
    cbv zeta. rewrite E. split; [done|]. split; [done|]. intros i. destruct (marked printed i); [done|].
    destruct (Nat.leb_spec (Z.to_nat spos) i), (Nat.ltb_spec i (stop line spos endp)); simpl; lia. }
  cbv zeta. set (lo := Z.to_nat spos). set (hi := stop line spos endp).
  fold (marked printed lo).
  set (one := if marked printed lo then ([], printed) else ([at0 line lo], <[lo := true]> printed)).
  assert (one.1 = at0 line <$> filter (fun i => marked printed i = false) [lo] /\ length one.2 = length printed /\
    forall i, marked one.2 i = marked printed i || (lo =? i)%nat) as (E1 & E2 & E3).
  { unfold one. rewrite filter_cons, filter_nil. destruct (marked printed lo) eqn:Em; simpl.
    - split; [done|]. split; [done|]. intros i. destruct (Nat.eqb_spec lo i) as [<-|]; [by rewrite Em|].
      by rewrite orb_false_r.
    - rewrite length_insert. split; [done|]. split; [done|]. intros i.
      rewrite marked_insert by lia. apply orb_comm. }
  destruct one as [o printed1]. cbn [fst snd] in *. destruct (Z.ltb_spec endp (spos + 1)) as [He|He].
  - assert (hi = S lo) as Eh by (unfold hi, lo, stop; lia). rewrite Eh.
    replace (S lo - lo)%nat with 1%nat by lia. split; [done|]. split; [done|]. intros i. rewrite E3. f_equal.
    destruct (Nat.eqb_spec lo i), (Nat.leb_spec lo i), (Nat.ltb_spec i (S lo)); simpl; lia || done.
  - specialize (IH (spos + 1) printed1 ltac:(lia) ltac:(lia) ltac:(lia)).
    cbv zeta in IH. destruct (bytes_range f line (spos + 1) endp printed1) as [o' p']. destruct IH as (I1 & I2 & I3).
    assert (stop line (spos + 1) endp = hi) as Eh by (unfold hi, stop; lia).
    assert (Z.to_nat (spos + 1) = S lo) as El by (unfold lo; lia). rewrite Eh, El in I1, I3.
    assert (lo < hi)%nat by (unfold lo, hi, stop; lia).
    split; [|split; [lia|]].
    + replace (hi - lo)%nat with (S (hi - S lo)) by lia. cbn [seq].
      rewrite (filter_app _ [lo] (seq (S lo) _) : filter _ (lo :: seq (S lo) _) = _), fmap_app, <- E1. f_equal.
      rewrite I1. f_equal. apply filter_ext_elem. intros i Hi. apply elem_of_seq in Hi. rewrite E3.
      rewrite (proj2 (Nat.eqb_neq lo i)), orb_false_r by lia. done.
    + intros i. rewrite I3, E3. destruct (marked printed i); [done|]. cbn [orb].
      destruct (Nat.eqb_spec lo i), (Nat.leb_spec lo i), (Nat.leb_spec (S lo) i), (Nat.ltb_spec i hi); simpl; lia || done.
Qed.

(** The positions printed for sorted ranges, when those below [m] are done. *)
Fixpoint positions (line : cstr) (lists : list cut_list) (m : nat) : list nat :=
  match lists with
  | [] => []
  | r :: lists =>
      let lo := Z.to_nat (startpos r) in
      let hi := stop line (startpos r) (endpos r) in
      seq (Nat.max lo m) (hi - Nat.max lo m) ++ positions line lists (Nat.max m hi)
  end.

Lemma filter_seq_ge m lo n :
  filter (fun i => (i <? m)%nat = false) (seq lo n) = seq (Nat.max lo m) (lo + n - Nat.max lo m).
Proof.
  revert lo. induction n as [|n IH]; intros lo; cbn [seq].
  - by replace (lo + 0 - Nat.max lo m)%nat with 0%nat by lia.
  - rewrite filter_cons, IH. destruct (Nat.ltb_spec lo m); case_decide; try done.
    + f_equal; lia.
    + replace (Nat.max lo m) with lo by lia. replace (Nat.max (S lo) m) with (S lo) by lia.
      by replace (lo + S n - lo)%nat with (S (S lo + n - S lo)) by lia.
Qed.

Lemma bytes_lists_positions line lists printed m :
  by_start lists -> Forall pos_ok lists -> length printed = S (length line) ->
  (forall r i, r ∈ lists -> startpos r <= Z.of_nat i -> marked printed i = (i <? m)%nat) ->
  bytes_lists line lists printed = at0 line <$> positions line lists m.
Proof.
  intros Hs. revert printed m. induction Hs as [|r lists Hs IH Hr]; intros printed m Hok Hp Hm; [done|].
  inversion Hok as [|? ? [Hr0 _] Hok']; subst. cbn [bytes_lists positions].
  pose proof (bytes_range_spec (length line) line (startpos r) (endpos r) printed Hr0 ltac:(lia) Hp) as Hb.
  cbv zeta in Hb. destruct (bytes_range _ _ _ _ _) as [o p']. destruct Hb as (-> & Hl & Hm').
  set (lo := Z.to_nat (startpos r)) in *. set (hi := stop line (startpos r) (endpos r)) in *.
  rewrite fmap_app. f_equal.
  - f_equal. rewrite (filter_ext_elem _ (fun i => (i <? m)%nat = false)).
    2: { intros i Hi. apply elem_of_seq in Hi. by rewrite (Hm r) by (by left || lia). }
    rewrite filter_seq_ge. f_equal. lia.
  - apply IH; [done|lia|]. intros r' i Hin Hi. rewrite Hm'.
    rewrite Forall_forall in Hr. pose proof (Hr r' Hin). simpl in *.
    rewrite (Hm r i) by (by left || lia).
    destruct (Nat.ltb_spec i m), (Nat.leb_spec lo i), (Nat.ltb_spec i hi), (Nat.ltb_spec i (Nat.max m hi));
      simpl; lia || done.
Qed.

Lemma elem_positions line lists m i :
  by_start lists -> Forall pos_ok lists ->
  i ∈ positions line lists m <-> (i < length line)%nat /\ (m <= i)%nat /\ covered lists (Z.of_nat i) = true.
Proof.
  intros Hs. revert m. induction Hs as [|r lists Hs IH Hr]; intros m Hok; cbn [positions covered existsb].
  { split; [by intros ?%elem_of_nil|by intros (_ & _ & ?)]. }
  inversion Hok as [|? ? [Hr0 _] Hok']; subst.
  rewrite elem_of_app, elem_of_seq, (IH (Nat.max m _) Hok'), orb_true_iff. unfold covers at 1, stop.
  rewrite andb_true_iff, !Z.leb_le. fold (covered lists (Z.of_nat i)). split.
  - intros [H|(H1 & H2 & H3)]; [|split; [done|split; [lia|by right]]]. split; [lia|]. split; [lia|]. left. lia.
  - intros (H1 & H2 & [H3|H3]); [left; lia|].
    destruct (decide (i < Z.to_nat (Z.min (Z.of_nat (length line)) (Z.max (startpos r) (endpos r) + 1)))%nat).
    + left. unfold covered in H3. apply existsb_exists in H3 as (r' & Hin & Hr').
      rewrite Forall_forall in Hr. specialize (Hr r' ltac:(by apply list_elem_of_In)).
      unfold covers in Hr'. bool_prop. lia.
    + right. split; [done|]. split; [lia|done].
Qed.

Lemma incr_ext (l1 l2 : list nat) :
  StronglySorted lt l1 -> StronglySorted lt l2 -> (forall x, x ∈ l1 <-> x ∈ l2) -> l1 = l2.
Proof.
  intros H1. revert l2. induction H1 as [|a l1 H1 IH Ha]; intros l2 H2 He.
  - destruct l2 as [|b l2]; [done|]. exfalso. assert (b ∈ @nil nat) by (apply He; left). by apply not_elem_of_nil in H.
  - destruct H2 as [|b l2 H2 Hb].
    { exfalso. assert (a ∈ @nil nat) by (apply He; left). by apply not_elem_of_nil in H. }
    rewrite Forall_forall in Ha, Hb.
    assert (a = b) as ->.
    { assert (a ∈ b :: l2) as [->|Hab]%elem_of_cons by (apply He; left); [done|].
      assert (b ∈ a :: l1) as [->|Hba]%elem_of_cons by (apply He; left); [done|].
      specialize (Ha b Hba). specialize (Hb a Hab). lia. }
    f_equal. apply IH; [done|]. intros x. split; intros Hx.
    + assert (x ∈ b :: l2) as [->|?]%elem_of_cons by (apply He; by right); [|done]. specialize (Ha b Hx). lia.
    + assert (x ∈ b :: l1) as [->|?]%elem_of_cons by (apply He; by right); [|done]. specialize (Hb b Hx). lia.
Qed.

Lemma sorted_seq lo n : StronglySorted lt (seq lo n).
Proof.
  revert lo. induction n as [|n IH]; intros lo; simpl; constructor; [apply IH|].
  apply Forall_forall. intros x Hx. apply elem_of_seq in Hx. lia.
Qed.

Lemma sorted_app (l1 l2 : list nat) :
  StronglySorted lt l1 -> StronglySorted lt l2 -> (forall x y, x ∈ l1 -> y ∈ l2 -> (x < y)%nat) ->
  StronglySorted lt (l1 ++ l2).
Proof.
  intros H1 H2 Hx. induction H1 as [|a l1 H1 IH Ha]; [done|]. simpl. constructor.
  - apply IH. intros; apply Hx; [by right|done].
  - apply Forall_app. split; [done|]. apply Forall_forall. intros y Hy. apply Hx; [by left|done].
Qed.

Lemma positions_sorted line lists m :
  by_start lists -> Forall pos_ok lists -> StronglySorted lt (positions line lists m).
Proof.
  intros Hs. revert m. induction Hs as [|r lists Hs IH Hr]; intros m Hok; cbn [positions]; [constructor|].
  inversion Hok; subst. apply sorted_app; [apply sorted_seq|by apply IH|].
  intros x y Hx Hy. apply elem_of_seq in Hx. apply elem_positions in Hy; [|done|done]. lia.
Qed.

Lemma sorted_filter (P : nat -> Prop) `{forall x, Decision (P x)} (l : list nat) :
  StronglySorted lt l -> StronglySorted lt (filter P l).
Proof.
  induction 1 as [|a l H1 IH Ha]; [constructor|]. rewrite filter_cons. case_decide; [|done].
  constructor; [done|]. rewrite Forall_forall in *. intros x [_ Hx]%list_elem_of_filter. by apply Ha.
Qed.

(** *** Lists of positions *)

(** A text from its pieces. *)
Fixpoint join_with (sep : cstr) (l : list cstr) : cstr :=
  match l with
  | [] => []
  | [x] => x
  | x :: l => x ++ sep ++ join_with sep l
  end.
Lemma strsep_app d a b : d ∉ a -> strsep d (a ++ d :: b) = (a, Some b).
Proof.
  induction a as [|c a IH]; intros Ha; simpl; [by rewrite Ascii.eqb_refl|].
  apply not_elem_of_cons in Ha as [Hc Ha]. by rewrite (proj2 (Ascii.eqb_neq c d)), IH by done.
Qed.

Lemma strsep_none d a : d ∉ a -> strsep d a = (a, None).
Proof.
  induction a as [|c a IH]; intros Ha; simpl; [done|].
  apply not_elem_of_cons in Ha as [Hc Ha]. by rewrite (proj2 (Ascii.eqb_neq c d)), IH by done.
Qed.

Lemma digits_no_sep z c : 0 <= z -> (uc c < 48) -> c ∉ fmt_u z.
Proof.
  intros Hz Hc Hin. pose proof (fmt_u_digits z Hz) as Hd. rewrite Forall_forall in Hd.
  specialize (Hd c Hin). unfold is_digit_char in Hd. lia.
Qed.

Lemma xatoi_positive_fmt z : 0 <= z <= INT_MAX -> xatoi_positive (fmt_u z) = XOk z.
Proof.
  unfold INT_MAX. intros Hz. unfold xatoi_positive, xatou_range. rewrite xstrtou_fmt by (done || (unfold is_u; lia)).
  unfold TYPE_MAX. by rewrite (proj2 (Z.leb_le _ _)) by lia.
Qed.

Lemma parse_range_fmt a b : 1 <= a <= INT_MAX -> 0 <= b <= INT_MAX ->
  parse_range (fmt_u a ++ "-"%char :: fmt_u b) =
  if b <? a - 1 then inl (Reversed b (a - 1)) else inr (mk_cl (a - 1) (b - 1)).
Proof.
  intros Ha Hb. unfold parse_range. rewrite strsep_app by (apply digits_no_sep; [lia|done]).
  destruct (fmt_u_cons a ltac:(lia)) as (c & s & E & _). unfold parse_start. rewrite E, <- E, xatoi_positive_fmt by lia.
  rewrite (proj2 (Z.eqb_neq a 0)) by lia. cbn [negb].
  destruct (fmt_u_cons b ltac:(lia)) as (c' & s' & E' & _). rewrite E', <- E', xatoi_positive_fmt by lia. done.
Qed.

(** A position or range as users write it, counting from 1. *)
Inductive item := One (n : Z) | FromTo (n m : Z) | From (n : Z) | UpTo (m : Z).

Definition item_ok (it : item) : Prop :=
  match it with
  | One n | From n | UpTo n => 1 <= n <= INT_MAX
  | FromTo n m => 1 <= n <= m /\ m <= INT_MAX
  end.

Definition item_text (it : item) : cstr :=
  match it with
  | One n => fmt_u n
  | FromTo n m => fmt_u n ++ "-"%char :: fmt_u m
  | From n => fmt_u n ++ ["-"%char]
  | UpTo m => "-"%char :: fmt_u m
  end.

(** Does it name the [k]-th byte? *)
Definition names (it : item) (k : Z) : bool :=
  match it with
  | One n => k =? n
  | FromTo n m => (n <=? k) && (k <=? m)
  | From n => n <=? k
  | UpTo m => k <=? m
  end.

Definition list_text (items : list item) : cstr := join_with [","%char] (item_text <$> items).

(** What it is parsed to. *)
Definition item_range (it : item) : cut_list :=
  match it with
  | One n => mk_cl (n - 1) (n - 1)
  | FromTo n m => mk_cl (n - 1) (m - 1)
  | From n => mk_cl (n - 1) INT_MAX
  | UpTo m => mk_cl 0 (m - 1)
  end.

Lemma parse_start_fmt n : 1 <= n <= INT_MAX -> parse_start (fmt_u n) = Some (n - 1).
Proof.
  intros Hn. unfold parse_start. destruct (fmt_u_cons n ltac:(lia)) as (c & s & E & _). rewrite E, <- E, xatoi_positive_fmt by lia.
  by rewrite (proj2 (Z.eqb_neq n 0)) by lia.
Qed.

Lemma parse_item it : item_ok it -> parse_range (item_text it) = inr (item_range it).
Proof.
  assert (forall n, 1 <= n -> "-"%char ∉ fmt_u n) as Hn by (intros; apply digits_no_sep; lia || done).
  destruct it as [n|n m|n|m]; cbn [item_ok item_text item_range]; intros Hok; unfold parse_range.
  - by rewrite strsep_none, parse_start_fmt by first [lia|apply Hn; lia].
  - change (parse_range (fmt_u n ++ "-"%char :: fmt_u m) = inr (mk_cl (n - 1) (m - 1))). rewrite parse_range_fmt by lia.
    by rewrite (proj2 (Z.ltb_ge m (n - 1))) by lia.
  - rewrite strsep_app, parse_start_fmt by first [lia|apply Hn; lia]. done.
  - cbn [strsep]. rewrite Ascii.eqb_refl. cbn [parse_start]. destruct (fmt_u_cons m ltac:(lia)) as (c & s & E & _).
    rewrite E, <- E, xatoi_positive_fmt by lia. by rewrite (proj2 (Z.ltb_ge m 0)) by lia.
Qed.

Lemma item_token it : item_ok it -> ","%char ∉ item_text it /\ exists c t, item_text it = c :: t.
Proof.
  assert (forall n, 1 <= n -> ","%char ∉ fmt_u n) as Hn by (intros; apply digits_no_sep; lia || done).
  assert (forall n, 1 <= n -> exists c t, fmt_u n = c :: t) as Hc by (intros n ?; destruct (fmt_u_cons n ltac:(lia)) as (c & s & E & _); eauto).
  destruct it as [n|n m|n|m]; cbn [item_ok item_text]; intros Hok; rewrite ?elem_of_app, ?elem_of_cons, ?elem_of_nil.
  - split; [apply Hn; lia|apply Hc; lia].
  - pose proof (Hn n ltac:(lia)). pose proof (Hn m ltac:(lia)). destruct (Hc n ltac:(lia)) as (c & t & E). rewrite E in *. split; [intros [?|[?|?]]; done|by eexists _, _].
  - pose proof (Hn n ltac:(lia)). destruct (Hc n ltac:(lia)) as (c & t & E). rewrite E in *. split; [intros [?|[?|?]]; done|by eexists _, _].
  - pose proof (Hn m ltac:(lia)). split; [intros [?|?]; done|by eexists _, _].
Qed.

Lemma parse_items items : items <> [] -> Forall item_ok items -> forall fuel acc, (length items <= fuel)%nat ->
  parse_loop fuel (list_text items) acc = inr (rev acc ++ (item_range <$> items)).
Proof.
  intros Hne Hok. induction Hok as [|it items Hit Hok IH]; [done|]. intros [|f] acc Hf; [cbn in Hf; lia|].
  destruct (item_token it Hit) as (Hc & c & t & E). pose proof (parse_item it Hit) as Hp. destruct items as [|it' items].
  - cbn [list_text fmap list_fmap join_with parse_loop]. unfold list_text. cbn [fmap list_fmap join_with]. by rewrite strsep_none, E, <- E, Hp by done.
  - change (list_text (it :: it' :: items)) with (item_text it ++ ","%char :: list_text (it' :: items)). cbn [parse_loop].
    rewrite strsep_app, E, <- E, Hp, IH by (done || (cbn in *; lia)). cbn [rev fmap list_fmap]. by rewrite <- app_assoc.
Qed.

Lemma list_text_long items : (length items <= S (length (list_text items)))%nat.
Proof.
  unfold list_text. induction items as [|it [|it' items] IH]; [cbn; lia..|]. cbn [fmap list_fmap join_with] in *. rewrite !length_app. cbn [length app] in *. lia.
Qed.

Lemma covers_item it i : item_ok it -> 0 <= i <= INT_MAX -> covers (item_range it) i = names it (i + 1).
Proof.
  intros Hok Hi. apply eq_bool_prop_intro. rewrite !Is_true_true. unfold covers.
  destruct it as [n|n m|n|m]; cbn [item_ok item_range names startpos endpos] in *; rewrite ?andb_true_iff, ?Z.leb_le, ?Z.eqb_eq; lia.
Qed.

(** C33. [cut -b LIST] and [cut -c LIST], for any list of positions N and ranges
    N-M (N not above M), N- and -M, counting from 1, overlapping, repeated and in
    any order, and however the library orders ranges with the same start: the list
    is accepted, and every byte of the line that it names is printed once, in the
    order of the line, and no other. *)
Theorem cut_bytes_selects `{Qsort} items line :
  items <> [] -> Forall item_ok items -> Z.of_nat (length line) <= INT_MAX ->
  exists lists, cut_lists_of false (list_text items) = inr lists /\
    cut_bytes lists line =
      at0 line <$> filter (fun i => existsb (fun it => names it (Z.of_nat i + 1)) items = true) (seq 0 (length line)).
Proof.
  intros Hne Hitems Hline.
  assert (cut_lists_of false (list_text items) = inr (qsort (item_range <$> items))) as E.
  { unfold cut_lists_of. rewrite (parse_items items Hne Hitems) by apply list_text_long. by destruct items. }
  exists (qsort (item_range <$> items)). split; [done|]. apply cut_lists_ok in E as (_ & Hok & Hs). specialize (Hs eq_refl).
  unfold cut_bytes. rewrite (bytes_lists_positions line _ _ 0); [|done|done|by rewrite length_replicate|].
  2: { intros _ i _ _. unfold marked. destruct (replicate _ _ !! i) eqn:Er; [|done].
       by apply lookup_replicate in Er as [-> _]. }
  f_equal. apply incr_ext; [by apply positions_sorted|apply sorted_filter, sorted_seq|].
  intros i. rewrite elem_positions, list_elem_of_filter, elem_of_seq by done.
  assert ((i < length line)%nat -> covered (qsort (item_range <$> items)) (Z.of_nat i) = existsb (fun it => names it (Z.of_nat i + 1)) items) as Hc.
  { intros Hi. unfold covered. apply eq_bool_prop_intro. rewrite !Is_true_true, !existsb_exists. split.
    - intros (r & Hr & Hri). apply list_elem_of_In in Hr. rewrite qsort_perm in Hr. apply list_elem_of_fmap in Hr as (it & -> & Hit).
      exists it. split; [by apply list_elem_of_In|]. rewrite Forall_forall in Hitems. by rewrite <- covers_item by (auto; lia).
    - intros (it & Hit & Hn). apply list_elem_of_In in Hit. exists (item_range it). split.
      + apply list_elem_of_In. rewrite qsort_perm. apply list_elem_of_fmap. by exists it.
      + rewrite Forall_forall in Hitems. by rewrite covers_item by (auto; lia). }
  split; [intros (H1 & _ & H2)|intros [H1 [_ H2]]]; (split; [|try split]); try lia; try (rewrite <- Hc by lia; done); rewrite Hc by lia; done.
Qed.

#[export] Instance start_le_dec : RelDecision (fun a b => startpos a <= startpos b).
Proof. intros a b. apply _. Defined.

Lemma merge_sorted l : Forall pos_ok l ->
  StronglySorted (fun a b => cmpfunc a b <= 0) (merge_sort (fun a b => startpos a <= startpos b) l).
Proof.
  intros Hl. pose proof (merge_sort_Permutation (fun a b => startpos a <= startpos b) l) as Hp.
  assert (StronglySorted (fun a b => startpos a <= startpos b) (merge_sort (fun a b => startpos a <= startpos b) l))
    as Hs by (apply StronglySorted_merge_sort; [intros a b c; lia|intros a b; lia]).
  assert (Forall pos_ok (merge_sort (fun a b => startpos a <= startpos b) l)) as Hq by (by rewrite Hp).
  clear Hp. induction Hs as [|a k Hs IH Ha]; [constructor|].
  inversion Hq as [|? ? Hpa Hpk]; subst. constructor; [by apply IH|].
  rewrite !Forall_forall in *. intros b Hb. specialize (Ha b Hb). specialize (Hpk b Hb).
  unfold cmpfunc, pos_ok, INT_MAX in *. rewrite wrapS_id by (done || (unfold is_s; lia)). simpl in Ha. lia.
Qed.

(** A sorting function with the laws of [qsort]. *)
#[export] Instance merge_qsort : Qsort := {|
  qsort := merge_sort (fun a b => startpos a <= startpos b);
  qsort_perm := merge_sort_Permutation (fun a b => startpos a <= startpos b);
  qsort_sorted := merge_sorted;
|}.

Lemma cut_bytes_selects_witness :
  list_text [From 4; One 2; FromTo 3 5; One 2] = lit "4-,2,3-5,2" /\
  exists lists, cut_lists_of false (lit "4-,2,3-5,2") = inr lists /\ cut_bytes lists (lit "abcdef") = lit "bcdef".
Proof.
  split; [reflexivity|].
  destruct (cut_bytes_selects [From 4; One 2; FromTo 3 5; One 2] (lit "abcdef")) as (lists & E & H).
  - discriminate.
  - repeat (constructor; [cbn; unfold INT_MAX; lia|]). constructor.
  - by vm_compute.
  - exists lists. exact (conj E H).
Defined.

(** ** Cutting by lines *)

Lemma lines_walk_spec fuel linenum spos r more :
  startpos r <= spos <= linenum -> spos = startpos r \/ spos <= endpos r ->
  by_start (r :: more) -> Forall pos_ok (r :: more) ->
  (linenum - spos + 1) + (linenum + 1) * Z.of_nat (length more) <= Z.of_nat fuel ->
  lines_walk fuel linenum spos r more = covered (r :: more) linenum.
Proof.
  revert spos r more. induction fuel as [|f IH]; intros spos r more Hs He Hst Hok Hf;
    inversion Hok as [|? ? [Hr _] Hok']; subst; [nia|]. inversion Hst as [|? ? Hst' Hle]; subst. cbn [lines_walk].
  assert (0 <= spos) by lia.
  destruct (Z.ltb_spec spos linenum) as [Hlt|Hge].
  2: { assert (covers r linenum = true) as E by (unfold covers; apply andb_true_intro; split; apply Z.leb_le; lia).
       cbn [covered existsb]. by rewrite E. }
  destruct (Z.ltb_spec (endpos r) (spos + 1)) as [Hend|Hend].
  - assert (covers r linenum = false) as E.
    { unfold covers. apply andb_false_iff. right. apply Z.leb_gt. lia. }
    cbn [covered existsb]. rewrite E. cbn [orb]. destruct more as [|r' more]; [done|].
    inversion Hst' as [|? ? _ Hle']; subst. rewrite Forall_forall in Hle'.
    destruct (Z.ltb_spec linenum (startpos r')) as [Hb|Hb].
    + symmetry. apply not_true_is_false. intros (x & Hin & Hx)%existsb_exists.
      unfold covers in Hx. bool_prop.
      destruct Hin as [->|Hin]; [lia|]. specialize (Hle' x ltac:(by apply list_elem_of_In)). simpl in *. lia.
    + inversion Hok' as [|? ? [Hr' _] _]; subst. cbn [length] in Hf.
      apply IH; [lia|by left|done|done|nia].
  - apply IH; [lia|right; lia|done|done|lia].
Qed.

Lemma cut_lines_selected lists linenum :
  0 <= linenum -> lists <> [] -> by_start lists -> Forall pos_ok lists -> cut_lines lists linenum = covered lists linenum.
Proof.
  intros Hn Hne Hst Hok. destruct lists as [|r more]; [done|]. unfold cut_lines.
  inversion Hok as [|? ? [Hr _] _]; subst. inversion Hst as [|? ? _ Hle]; subst. rewrite Forall_forall in Hle.
  destruct (Z.ltb_spec linenum (startpos r)) as [Hb|Hb].
  - symmetry. apply not_true_is_false. intros (x & Hin & Hx)%existsb_exists. unfold covers in Hx. bool_prop.
    destruct Hin as [->|Hin]; [lia|]. specialize (Hle x ltac:(by apply list_elem_of_In)). simpl in *. lia.
  - apply lines_walk_spec; [lia|by left|done|done|]. cbn [length]. nia.
Qed.

(** With a newline as delimiter, [cut -f LIST] prints the selected lines
    of the file, whole and in order. *)
Theorem cut_lines_selects `{Qsort} sopt lists od suppress rest lines :
  cut_lists_of false sopt = inr lists ->
  cut_file (mk_co ByFields (NL :: rest) od suppress false) lists 0 lines =
  Some (concat (imap (fun i l => if covered lists (Z.of_nat i) then l ++ [NL] else []) lines)).
Proof.
  intros E. apply cut_lists_ok in E as (Hne & Hok & Hs). specialize (Hs eq_refl).
  change 0 with (Z.of_nat 0).
  assert (forall k, cut_file (mk_co ByFields (NL :: rest) od suppress false) lists (Z.of_nat k) lines =
    Some (concat (imap (fun i l => if covered lists (Z.of_nat (k + i)) then l ++ [NL] else []) lines))) as Hk;
    [|exact (Hk 0%nat)].
  induction lines as [|l lines IH]; intros k; [done|]. cbn [cut_file imap concat].
  replace (Z.of_nat k + 1) with (Z.of_nat (S k)) by lia. rewrite IH. unfold cut_line. cbn [co_mode co_delim hd0].
  rewrite Ascii.eqb_refl, cut_lines_selected by (done || lia). rewrite Nat.add_0_r. do 3 f_equal.
  apply imap_ext. intros i x _. unfold compose. by rewrite Nat.add_succ_r.
Qed.

Lemma cut_lines_selects_witness :
  cut_file (mk_co ByFields [NL] [NL] false false) [mk_cl 1 2] 0 (lit <$> ["a"; "b"; "c"; "d"]%string) =
  Some (lit "b" ++ [NL] ++ lit "c" ++ [NL]).
Proof. rewrite (cut_lines_selects (lit "2-3") [mk_cl 1 2]); reflexivity. Defined.

(** ** Cutting by fields *)

Section FieldRun.
Variable delim : ascii.
Variable odelim : cstr.
Variable suppress nosort : bool.
Variable lists : list cut_list.
Variable line : cstr.
Abbreviation step := (field_step delim odelim suppress nosort lists line).
Abbreviation scan := (field_scan delim odelim suppress lists line).
Abbreviation loop := (field_loop delim odelim suppress nosort lists line).
Abbreviation linelen := (length line).

(** Every turn gets closer to the end of the line or of the list. *)
Definition fmeasure (st : fstate) : nat :=
  ((length lists - cl_pos st) * (linelen + 2) + (linelen - uu st) + (if (fend st =? linelen)%nat then 0 else 1))%nat.

Definition fgood (st : fstate) : Prop := (cl_pos st < length lists /\ uu st <= linelen)%nat.

Lemma field_print_go st st' text :
  field_print odelim line st = FGo st' text ->
  cl_pos st' = cl_pos st /\ uu st' = uu st /\ fend st' = fend st.
Proof. unfold field_print. case_goal; [done|]. by intros [= <- <-]. Qed.

(** A scan from an [end] that is not the end of the line makes progress. *)
Lemma field_scan_go st st' text :
  fgood st -> scan st = FGo st' text ->
  fgood st' /\ cl_pos st' = cl_pos st /\
  ((linelen - uu st') + (if (fend st' =? linelen)%nat then 0 else 1) < S (linelen - uu st))%nat.
Proof.
  destruct st as [cl u s e o d]. unfold fgood. cbn [cl_pos uu]. intros [Hc Hu]. unfold field_scan.
  destruct (Nat.eqb_spec u linelen) as [->|Hne].
  - intros E. assert (exists s', field_print odelim line (mk_fs cl linelen s' linelen o d) = FGo st' text) as [s' E'].
    { destruct (_ && _); [destruct suppress; [done|]|]; by eexists. }
    apply field_print_go in E' as (-> & -> & ->). cbn [cl_pos uu fend]. rewrite Nat.eqb_refl. lia.
  - assert ((if (u =? linelen)%nat then 0 else 1) = 1)%nat as Eu by (by rewrite (proj2 (Nat.eqb_neq _ _) Hne)).
    case_goal; [|case_goal]; [intros [= <- <-]|intros [= <- <-]|]; cbn [cl_pos uu fend]; try rewrite Eu; try lia.
    intros E'. apply field_print_go in E' as (-> & -> & ->). cbn [cl_pos uu fend]. rewrite Eu. lia.
Qed.

Lemma field_step_go st st' text : fgood st -> step st = FGo st' text -> fgood st' /\ (fmeasure st' < fmeasure st)%nat.
Proof.
  intros [Hc Hu]. unfold field_step.
  destruct ((fend st =? linelen)%nat || (endpos (clist lists (cl_pos st)) <? dcount st)) eqn:Ee.
  - destruct (Nat.leb_spec (length lists) (S (cl_pos st))) as [|Hlt]; [done|].
    assert (forall u s d, (u <= linelen)%nat -> scan (mk_fs (S (cl_pos st)) u s 0 (out st) d) = FGo st' text ->
      fgood st' /\ (fmeasure st' < fmeasure st)%nat) as Hgo.
    { intros u s d Hu' E. apply field_scan_go in E as (Hg & Ec & Hm); [|done]. split; [done|].
      unfold fmeasure. cbn [cl_pos uu] in *. rewrite Ec. nia. }
    destruct nosort; apply Hgo; lia.
  - intros E. apply field_scan_go in E as (Hg & Ec & Hm); [|done]. split; [done|].
    unfold fmeasure. rewrite Ec. apply orb_false_iff in Ee as [Ee _]. rewrite Ee. nia.
Qed.

Lemma field_loop_total fuel st : fgood st -> (fmeasure st < fuel)%nat -> loop fuel st <> None.
Proof.
  revert st. induction fuel as [|f IH]; intros st Hg Hf; [lia|]. cbn [field_loop].
  destruct (step st) as [st' text| |] eqn:E; [|done|done].
  apply field_step_go in E as [Hg' Hm]; [|done]. specialize (IH st' Hg' ltac:(lia)).
  by destruct (loop f st') as [[]|].
Qed.

(** *** What the loop prints for ranges that are apart *)

(** The fields [fs] of the line from number [d] on, as the range [r] shows
    them: a range that starts behind the last field shows one empty field. *)
Definition range_fields (d : Z) (fs : list cstr) (r : cut_list) : list cstr :=
  if startpos r <? d + Z.of_nat (length fs)
  then take (Z.to_nat (endpos r - Z.max (startpos r) d + 1)) (drop (Z.to_nat (startpos r - d)) fs)
  else [[]].

Lemma range_fields_later d f fs r : d < startpos r -> range_fields d (f :: fs) r = range_fields (d + 1) fs r.
Proof.
  intros Hd. unfold range_fields. cbn [length].
  replace (d + 1 + Z.of_nat (length fs)) with (d + Z.of_nat (S (length fs))) by lia. case_goal; [|done].
  replace (Z.max (startpos r) (d + 1)) with (Z.max (startpos r) d) by lia.
  by replace (Z.to_nat (startpos r - d)) with (S (Z.to_nat (startpos r - (d + 1)))) by lia.
Qed.

Lemma range_fields_here d f fs r :
  startpos r <= d <= endpos r ->
  range_fields d (f :: fs) r = f :: take (Z.to_nat (endpos r - d)) fs.
Proof.
  intros Hd. unfold range_fields. rewrite (proj2 (Z.ltb_lt _ _)) by (cbn [length]; lia).
  replace (Z.max (startpos r) d) with d by lia. replace (Z.to_nat (startpos r - d)) with 0%nat by lia.
  by replace (Z.to_nat (endpos r - d + 1)) with (S (Z.to_nat (endpos r - d))) by lia.
Qed.

Lemma range_fields_next d fs r :
  startpos r <= d < endpos r -> fs <> [] -> range_fields (d + 1) fs r = take (Z.to_nat (endpos r - d)) fs.
Proof.
  intros Hd Hfs. unfold range_fields. destruct fs as [|f fs]; [done|]. rewrite (proj2 (Z.ltb_lt _ _)) by (cbn [length]; lia).
  replace (Z.to_nat (startpos r - (d + 1))) with 0%nat by lia. rewrite drop_0. f_equal. lia.
Qed.

(** Ranges in order, not empty and without overlap. *)
Definition apart (l : list cut_list) : Prop :=
  Forall (fun r => 0 <= startpos r <= endpos r) l /\ StronglySorted (fun a b => endpos a < startpos b) l.

Lemma apart_cons r l : apart (r :: l) ->
  0 <= startpos r <= endpos r /\ apart l /\ forall r', r' ∈ l -> endpos r < startpos r'.
Proof.
  intros [Hf Hs]. inversion Hf as [|? ? Hr Hf']; subst. inversion Hs as [|? ? Hs' Hle]; subst.
  rewrite Forall_forall in Hle. done.
Qed.


(** The pieces as the [printf]s put them out, when [o] were printed before. *)
Fixpoint joined (o : nat) (ps : list cstr) : cstr :=
  match ps with
  | [] => []
  | p :: ps => (if (o =? 0)%nat then [] else odelim) ++ p ++ joined (S o) ps
  end.

Definition prepend (text : cstr) (r : option (option cstr)) : option (option cstr) :=
  match r with Some (Some text') => Some (Some (text ++ text')) | r => r end.

(** A turn that starts with a scan. *)
Definition scan_loop (f : nat) (st : fstate) : option (option cstr) :=
  match scan st with
  | FGo st text => prepend text (loop f st)
  | FBreak text => Some (Some text)
  | FSuppress => Some None
  end.

Lemma step_scan f st st' : step st = scan st' -> loop (S f) st = scan_loop f st'.
Proof.
  intros E. cbn [field_loop]. rewrite E. unfold scan_loop.
  destruct (scan st') as [st2 text| |]; [|done|done]. by destruct (loop f st2) as [[]|].
Qed.

Lemma loop_scan f st :
  fend st <> linelen -> dcount st <= endpos (clist lists (cl_pos st)) -> loop (S f) st = scan_loop f st.
Proof.
  intros He Hd. apply step_scan. unfold field_step.
  by rewrite (proj2 (Nat.eqb_neq _ _) He), (proj2 (Z.ltb_ge _ _) Hd).
Qed.

(** A range that is done: the next one, or the end. *)
Lemma loop_range_done f st :
  nosort = false -> fend st = linelen \/ endpos (clist lists (cl_pos st)) < dcount st ->
  loop (S f) st =
  if (length lists <=? S (cl_pos st))%nat then Some (Some [])
  else scan_loop f (mk_fs (S (cl_pos st)) (uu st) (start st) 0 (out st) (dcount st)).
Proof.
  intros Hn He.
  assert ((fend st =? linelen)%nat || (endpos (clist lists (cl_pos st)) <? dcount st) = true) as E.
  { apply orb_true_iff. rewrite Nat.eqb_eq, Z.ltb_lt. done. }
  case_goal.
  - cbn [field_loop]. unfold field_step. by rewrite E, Heqb.
  - apply step_scan. unfold field_step. by rewrite E, Heqb, Hn.
Qed.

Lemma prepend_nil r : prepend [] r = r.
Proof. by destruct r as [[]|]. Qed.

Lemma prepend_prepend a b r : prepend a (prepend b r) = prepend (a ++ b) r.
Proof. destruct r as [[]|]; simpl; [by rewrite app_assoc|done|done]. Qed.

(** The old [end] plays no role in a scan. *)
Lemma scan_end cl u s e e' o d f : scan_loop f (mk_fs cl u s e o d) = scan_loop f (mk_fs cl u s e' o d).
Proof. reflexivity. Qed.

(** Through the characters of a field. *)
Lemma scan_field f rest g cl u s e o d :
  delim ∉ f -> drop u line = f ++ rest -> d <= endpos (clist lists cl) ->
  scan_loop (length f + g) (mk_fs cl u s e o d) = scan_loop g (mk_fs cl (u + length f) s e o d).
Proof.
  revert u e. induction f as [|c f IH]; intros u e Hf Hl Hd; cbn [length plus]; [by rewrite Nat.add_0_r|].
  apply not_elem_of_cons in Hf as [Hc Hf].
  assert (u < linelen)%nat as Hu by (apply (f_equal length) in Hl; rewrite length_drop in Hl; simpl in Hl; lia).
  unfold scan_loop at 1, field_scan. rewrite (proj2 (Nat.eqb_neq u linelen)) by lia.
  unfold at0. rewrite Hl. cbn [app hd0]. rewrite (proj2 (Ascii.eqb_neq c delim)) by done. cbn [negb].
  rewrite loop_scan by (cbn [fend cl_pos dcount]; lia).
  assert (drop (S u) line = f ++ rest) as Hl' by (by rewrite <- Nat.add_1_r, <- drop_drop, Hl).
  rewrite prepend_nil, (IH (S u) u Hf Hl' Hd). by replace (S u + length f)%nat with (u + S (length f))%nat by lia.
Qed.

Lemma joined_join o p ps : joined o (p :: ps) = (if (o =? 0)%nat then [] else odelim) ++ join_with odelim (p :: ps).
Proof.
  revert o p. induction ps as [|q ps IH]; intros o p.
  - simpl. by rewrite app_nil_r.
  - change (joined o (p :: q :: ps)) with ((if (o =? 0)%nat then [] else odelim) ++ p ++ joined (S o) (q :: ps)).
    rewrite IH. reflexivity.
Qed.

Lemma clist_drop cl r rs : drop cl lists = r :: rs -> clist lists cl = r /\ drop (S cl) lists = rs /\
  (length lists = cl + S (length rs))%nat.
Proof.
  intros Hd. unfold clist. assert (lists = take cl lists ++ r :: rs) as E by (by rewrite <- Hd, take_drop).
  assert (length (take cl lists) = cl) as Hl.
  { rewrite length_take. apply (f_equal length) in Hd. rewrite length_drop in Hd. simpl in Hd. lia. }
  repeat split.
  - rewrite E, app_nth2 by lia. by rewrite Hl, Nat.sub_diag.
  - by rewrite <- Nat.add_1_r, <- drop_drop, Hd.
  - apply (f_equal length) in Hd. rewrite length_drop in Hd. simpl in Hd. lia.
Qed.

(** From the end of the line, when [nosort] is off: the field at hand, then an
    empty one for each range that is left. *)
Lemma scan_eol r rs g cl s e o d :
  nosort = false -> d <> 0 -> drop cl lists = r :: rs -> (forall r', r' ∈ rs -> d < startpos r') ->
  (length rs < g)%nat ->
  scan_loop g (mk_fs cl linelen s e o d) =
  Some (Some (joined o ((if d <? startpos r then [] else drop s line) :: ((fun _ => []) <$> rs)))).
Proof.
  intros Hn Hd. revert r cl s e o g. induction rs as [|r' rs IH]; intros r cl s e o g Hc Hrs Hg;
    destruct (clist_drop cl _ _ Hc) as (El & Ed & Ell); simpl in Ell.
  all: assert (scan (mk_fs cl linelen s e o d) = FGo (mk_fs cl linelen linelen linelen (S o) d)
    ((if (o =? 0)%nat then [] else odelim) ++ (if d <? startpos r then [] else drop s line))) as Es.
  1,3: unfold field_scan; rewrite Nat.eqb_refl, (proj2 (Z.eqb_neq d 0) Hd), andb_false_r;
    unfold field_print; cbn [dcount cl_pos uu fend start out]; rewrite (proj2 (Z.eqb_neq d 0) Hd), El;
    do 2 f_equal; case_goal; [by rewrite Nat.sub_diag, take_0|];
    apply take_ge; rewrite length_drop; lia.
  all: destruct g as [|g]; [simpl in Hg; lia|]; unfold scan_loop at 1; rewrite Es, loop_range_done by (done || by left);
    cbn [fend cl_pos out uu start dcount].
  - rewrite (proj2 (Nat.leb_le _ _)) by lia. simpl. by rewrite !app_nil_r.
  - rewrite (proj2 (Nat.leb_gt _ _)) by lia.
    rewrite (IH r' (S cl)) by (done || (intros; apply Hrs; by right) || (simpl in Hg; lia)).
    rewrite (proj2 (Z.ltb_lt d (startpos r'))) by (apply Hrs; left).
    cbn [joined fmap list_fmap prepend]. by rewrite <- !app_assoc.
Qed.

Lemma later_ranges d f fs rs :
  (forall r', r' ∈ rs -> d < startpos r') ->
  concat (range_fields d (f :: fs) <$> rs) = concat (range_fields (d + 1) fs <$> rs).
Proof.
  intros H. f_equal. apply list_fmap_ext. intros i r Hi. apply range_fields_later, H. by eapply list_elem_of_lookup_2.
Qed.

Lemma ranges_behind d f rs :
  (forall r', r' ∈ rs -> d < startpos r') -> concat (range_fields d [f] <$> rs) = (fun _ => []) <$> rs.
Proof.
  intros H. induction rs as [|r rs IH]; [done|]. cbn [fmap list_fmap concat]. unfold range_fields at 1.
  rewrite (proj2 (Z.ltb_ge _ _)) by (specialize (H r ltac:(left)); simpl; lia). simpl. f_equal. apply IH.
  intros; apply H; by right.
Qed.

(** At a delimiter behind a field that starts at [u]. *)
Lemma scan_delim f rest g cl u e o d :
  drop u line = f ++ delim :: rest -> 0 <= d ->
  scan_loop g (mk_fs cl (u + length f) u e o d) =
  if d <? startpos (clist lists cl)
  then loop g (mk_fs cl (u + S (length f)) (u + S (length f)) (u + length f) o (d + 1))
  else prepend ((if (o =? 0)%nat then [] else odelim) ++ f)
         (loop g (mk_fs cl (u + S (length f)) (u + S (length f)) (u + length f) (S o) (d + 1))).
Proof.
  intros Hl Hd. assert (linelen - u = length f + S (length rest))%nat as Elen.
  { apply (f_equal length) in Hl. rewrite length_drop, length_app in Hl. done. }
  unfold scan_loop, field_scan. rewrite (proj2 (Nat.eqb_neq _ linelen)) by lia.
  assert (at0 line (u + length f) = delim) as ->.
  { unfold at0. by rewrite <- drop_drop, Hl, drop_app_length. }
  rewrite Ascii.eqb_refl. cbn [negb]. rewrite <- Nat.add_succ_r.
  destruct (d <? startpos (clist lists cl)); [by rewrite prepend_nil|].
  unfold field_print. cbn [dcount cl_pos uu fend start out]. rewrite (proj2 (Z.eqb_neq (d + 1) 0)) by lia.
  rewrite Hl. replace (u + length f - u)%nat with (length f) by lia. by rewrite take_app_length.
Qed.

(** From the beginning of a field. *)
Lemma scan_fields fs f r rs g cl u e o d :
  nosort = false -> drop u line = join_with [delim] (f :: fs) -> Forall (fun x => delim ∉ x) (f :: fs) ->
  drop cl lists = r :: rs -> apart (r :: rs) -> 0 <= d <= endpos r -> 1 <= d + Z.of_nat (length fs) ->
  (linelen - u + length rs < g)%nat -> (u <= linelen)%nat ->
  scan_loop g (mk_fs cl u u e o d) = Some (Some (joined o (concat (range_fields d (f :: fs) <$> r :: rs)))).
Proof.
  intros Hn. revert f r rs g cl u e o d.
  induction fs as [|f' fs IH]; intros f r rs g cl u e o d Hl Hfs Hc Ha Hd H1 Hg Hu;
    destruct (apart_cons _ _ Ha) as (Hr & Ha' & Hrs); destruct (clist_drop cl _ _ Hc) as (El & Ed & Ell);
    apply Forall_cons in Hfs as [Hf Hfs'];
    assert (forall r', r' ∈ rs -> d < startpos r') as Hlater by (intros r' Hin; specialize (Hrs r' Hin); lia).
  - assert (length f = linelen - u)%nat as Elen by (apply (f_equal length) in Hl; rewrite length_drop in Hl; done).
    replace g with (length f + (g - length f))%nat by lia. cbn [join_with] in Hl.
    rewrite (scan_field f [] (g - length f)) by (done || (by rewrite app_nil_r) || (rewrite El; lia)).
    replace (u + length f)%nat with linelen by lia. cbn [length] in H1.
    rewrite (scan_eol r rs) by (done || lia). do 3 f_equal. rewrite !fmap_cons; cbn [concat].
    rewrite ranges_behind, Hl by done. destruct (Z.ltb_spec d (startpos r)).
    + unfold range_fields. by rewrite (proj2 (Z.ltb_ge _ _)) by (simpl; lia).
    + by rewrite range_fields_here, take_nil by lia.
  - change (drop u line = f ++ delim :: join_with [delim] (f' :: fs)) in Hl.
    assert (linelen - u = length f + S (length (join_with [delim] (f' :: fs))))%nat as Elen.
    { apply (f_equal length) in Hl. rewrite length_drop, length_app in Hl. done. }
    replace g with (length f + S (g - length f - 1))%nat by lia.
    rewrite (scan_field f _ (S (g - length f - 1)) _ _ _ _ _ _ Hf Hl) by (rewrite El; lia).
    rewrite (scan_delim _ _ _ _ _ _ _ _ Hl), El by lia.
    assert (drop (u + S (length f)) line = join_with [delim] (f' :: fs)) as Hl'.
    { rewrite <- drop_drop, Hl. rewrite <- Nat.add_1_r. rewrite <- drop_drop, drop_app_length. done. }
    cbn [length] in H1. destruct (Z.ltb_spec d (startpos r)) as [Hlt|Hge].
    + rewrite loop_scan by (cbn [fend cl_pos dcount]; rewrite ?El; lia).
      rewrite (IH f' r rs) by (done || lia). rewrite !fmap_cons; cbn [concat].
      by rewrite (range_fields_later d f), (later_ranges d f) by done.
    + rewrite !fmap_cons; cbn [concat]. rewrite (range_fields_here d f), (later_ranges d f) by (done || lia).
      destruct (Z.leb_spec (d + 1) (endpos r)) as [Hle|Hgt].
      * rewrite loop_scan by (cbn [fend cl_pos dcount]; rewrite ?El; lia).
        rewrite (IH f' r rs) by (done || lia). rewrite !fmap_cons; cbn [concat].
        rewrite range_fields_next by (done || lia). cbn [prepend app joined]. by rewrite <- !app_assoc.
      * rewrite loop_range_done by (done || (right; cbn [cl_pos dcount]; rewrite El; lia)). cbn [fend cl_pos out uu start dcount].
        replace (endpos r - d) with 0 by lia. cbn [Z.to_nat take]. destruct rs as [|r' rs].
        { rewrite (proj2 (Nat.leb_le _ _)) by (simpl in Ell; lia). simpl. by rewrite !app_nil_r. }
        rewrite (proj2 (Nat.leb_gt _ _)) by (simpl in Ell; lia).
        destruct (apart_cons _ _ Ha') as (Hr' & _ & _). specialize (Hrs r' ltac:(left)). cbn [length] in *.
        rewrite (IH f' r' rs) by (done || lia). cbn [prepend app joined]. by rewrite <- !app_assoc.
Qed.

End FieldRun.

(** C32. [cut -f] on a line with delimiters, for ranges that are in order and do
    not overlap: the selected fields joined by the output delimiter, where a
    range that starts behind the last field contributes an empty field (so an
    output delimiter is printed for a field that does not exist). *)
Theorem cut_fields_selects delim odelim suppress lists f0 f1 fs :
  Forall (fun x => delim ∉ x) (f0 :: f1 :: fs) -> apart lists -> lists <> [] ->
  cut_fields delim odelim suppress false lists (join_with [delim] (f0 :: f1 :: fs)) =
  Some (Some (join_with odelim (concat (range_fields 0 (f0 :: f1 :: fs) <$> lists)))).
Proof.
  intros Hfs Ha Hne. destruct lists as [|r rs]; [done|]. set (line := join_with _ _).
  assert (0 < length line)%nat as Hl by (unfold line; change (join_with [delim] (f0 :: f1 :: fs))
    with (f0 ++ [delim] ++ join_with [delim] (f1 :: fs)); rewrite !length_app; simpl; lia).
  unfold cut_fields. destruct (apart_cons _ _ Ha) as (Hr & _ & _).
  set (fuel := (_ * _)%nat). assert (length line + length rs + 2 <= fuel)%nat as Hf by (unfold fuel; simpl; nia).
  destruct fuel as [|g]; [lia|]. rewrite loop_scan by (cbn [fend cl_pos dcount]; unfold clist; cbn [nth]; lia).
  rewrite (scan_fields _ _ _ _ _ _ (f1 :: fs) f0 r rs) by (done || (cbn [length]; lia)).
  do 2 f_equal. destruct (concat _) as [|p ps]; [done|]. by rewrite joined_join.
Qed.

Lemma cut_fields_selects_witness :
  cut_fields ":"%char (lit "+") false false [mk_cl 0 0; mk_cl 2 3; mk_cl 9 9] (lit "a:b:c:d:e") =
  Some (Some (lit "a+c+d+")).
Proof.
  refine (cut_fields_selects ":"%char (lit "+") false [mk_cl 0 0; mk_cl 2 3; mk_cl 9 9] (lit "a") (lit "b")
            [lit "c"; lit "d"; lit "e"] _ _ _).
  - by_eval.
  - split; [repeat constructor; discriminate|repeat constructor].
  - discriminate.
Defined.

(** [cut] always ends: for every list of ranges it accepts (also with -D,
    where each range starts over at the beginning of the line), every delimiter
    and every input, the loop over a line stops and a text comes out. *)
Theorem cut_ends `{Qsort} mode sopt delim odelim suppress nosort files :
  cut_main mode sopt delim odelim suppress nosort files <> None.
Proof.
  unfold cut_main. destruct mode as [m|]; [|done]. case_goal; [done|].
  destruct (cut_lists_of nosort sopt) as [|lists] eqn:E; [done|]. apply cut_lists_ok in E as (Hne & _ & _).
  set (o := mk_co _ _ _ _ _). assert (forall n line, cut_line o lists n line <> None) as Hline.
  { intros n line. unfold cut_line. destruct (co_mode o); [done|]. case_goal; [done|].
    unfold cut_fields. destruct (field_loop _ _ _ _ _ _ _ _) as [[]|] eqn:El; [done|done|].
    apply field_loop_total in El; [done|split; simpl; destruct lists; done || (simpl; lia)|].
    unfold fmeasure. cbn [cl_pos uu fend]. case_goal; nia. }
  assert (forall k lines, cut_file o lists k lines <> None) as Hfile.
  { intros k lines. revert k. induction lines as [|l lines IH]; intros k; [done|]. cbn [cut_file].
    specialize (Hline k l). specialize (IH (k + 1)). by destruct (cut_line _ _ _ _), (cut_file _ _ _ _). }
  cbv zeta. destruct (mapM _ files) eqn:Em; [done|]. exfalso.
  apply eq_None_not_Some in Em. apply Em. apply mapM_is_Some, Forall_forall. intros [lines|] _; unfold compose; [|by eexists].
  apply not_eq_None_Some. apply Hfile.
Qed.

(** ** Reversed ranges *)

(** The check for reversed ranges is off by one: after the start has been
    made zero-based it is compared with the one-based end, so [cut -b N+1-N] is
    not refused, and byte N+1 is printed. *)
Theorem cut_reversed_accepted `{Qsort} n line :
  1 <= n < INT_MAX -> n < Z.of_nat (length line) ->
  cut_lists_of false (fmt_u (n + 1) ++ "-"%char :: fmt_u n) = inr [mk_cl n (n - 1)] /\
  cut_bytes [mk_cl n (n - 1)] line = [at0 line (Z.to_nat n)].
Proof.
  intros Hn Hl. split.
  - unfold cut_lists_of. cbn [parse_loop].
    rewrite strsep_none.
    2: { intros [Hin|[Hin|Hin]%elem_of_cons]%elem_of_app; [|done|]; revert Hin; apply digits_no_sep; lia || done. }
    destruct (fmt_u_cons (n + 1) ltac:(lia)) as (c & s & E & _). rewrite E. cbn [app]. rewrite app_comm_cons, <- E.
    rewrite parse_range_fmt by lia. replace (n + 1 - 1) with n by lia. rewrite (proj2 (Z.ltb_ge n n)) by lia. simpl.
    f_equal. apply Permutation_singleton_r, qsort_perm.
  - unfold cut_bytes. cbn [bytes_lists startpos endpos]. destruct line as [|x line]; [simpl in Hl; lia|].
    cbn [length bytes_range]. rewrite (proj2 (Z.ltb_lt n _)) by done.
    rewrite (proj2 (Z.ltb_lt (n - 1) (n + 1))) by lia.
    rewrite lookup_replicate_2 by (simpl in Hl; lia). done.
Qed.

Lemma cut_reversed_accepted_witness :
  cut_lists_of false (lit "5-4") = inr [mk_cl 4 3] /\ cut_bytes [mk_cl 4 3] (lit "abcdef") = lit "e".
Proof. apply (cut_reversed_accepted 4 (lit "abcdef")); by_eval. Defined.
