(* ===== verification/Uniq.v ===== *)
(** * coreutils/uniq.c: the [uniq] command

    The main loop of [uniq_main] over the lines [xmalloc_fgetline] returns, with
    all its options.  [unsigned] and [unsigned long] have 32 bits; the skip
    counts are natural numbers because the code only counts them down. *)

From Stdlib Require Import Ascii String ZArith Lia.
From stdpp Require Import base list strings.
From S2P Require Import Prelude Clib LibbbStr.

Local Open Scope Z_scope.

Record uopts := mk_uo {
  opt_c : bool; opt_d : bool; opt_u : bool; opt_i : bool; opt_z : bool;
  skip_fields : nat; skip_chars : nat; max_chars : Z;
}.

(** [tolower] of the C locale, which [strncasecmp] compares by. *)
Definition tolower (c : ascii) : ascii := if isupper c then chr (uc c + 32) else c.

(** [strncmp] and [strncasecmp]: is the result not 0? *)
Fixpoint strn_differ (fold : ascii -> ascii) (p q : cstr) (n : Z) : bool :=
  if n <=? 0 then false
  else match p, q with
       | [], [] => false
       | a :: p, b :: q => if (fold a ≟ fold b) then strn_differ fold p q (n - 1) else true
       | _, _ => true
       end.

Section Uniq.
Variable o : uopts.

(** What [cur_compare] points to. *)
Definition compare_part (line : cstr) : cstr :=
  drop (skip_chars o) (Nat.iter (skip_fields o) (fun s => skip_non_whitespace (skip_whitespace s)) line).

Definition differ (a b : cstr) : bool :=
  strn_differ (if opt_i o then tolower else fun c => c) (compare_part a) (compare_part b) (max_chars o).

(** The inner loop: the number of repetitions of [old_line], the line that ended
    it and the lines after that one. *)
Fixpoint read_dups (old_line : option cstr) (lines : list cstr) (dups : Z) : Z * option cstr * list cstr :=
  match lines with
  | [] => (dups, None, [])
  | cur :: lines =>
      match old_line with
      | None => (dups, Some cur, lines)
      | Some old => if differ old cur then (dups, Some cur, lines)
                    else read_dups old_line lines (wrapU 32 (dups + 1))
      end
  end.

(** "%7lu ". *)
Definition pad7 (s : cstr) : cstr := replicate (7 - length s) SP ++ s.

Definition show (old : cstr) (dups : Z) : cstr :=
  if (if dups =? 0 then opt_d o else opt_u o) then []
  else (if opt_c o then pad7 (fmt_u (wrapU 32 (dups + 1))) ++ [SP] else []) ++
       old ++ [if opt_z o then NUL else NL].

(** [do ... while (cur_line)]: every turn but the first and last reads a line. *)
Fixpoint uniq_loop (fuel : nat) (old_line : option cstr) (lines : list cstr) : cstr :=
  match fuel with
  | O => []
  | S f =>
      let '(dups, cur_line, lines) := read_dups old_line lines 0 in
      match old_line with Some old => show old dups | None => [] end ++
      match cur_line with Some _ => uniq_loop f cur_line lines | None => [] end
  end.

Definition uniq_main (lines : list cstr) : cstr := uniq_loop (length lines + 2) None lines.

(** ** What is asked for *)

Fixpoint skip_while (p : ascii -> bool) (s : cstr) : cstr :=
  match s with [] => [] | c :: s' => if p c then skip_while p s' else s end.

(** A field: blanks and what follows them up to the next blank. *)
Definition after_field (s : cstr) : cstr := skip_while (fun c => negb (is_space c)) (skip_while is_space s).

(** What lines are compared by. *)
Definition key (line : cstr) : cstr :=
  let s := take (Z.to_nat (max_chars o)) (drop (skip_chars o) (Nat.iter (skip_fields o) after_field line)) in
  if opt_i o then tolower <$> s else s.

(** A group: a first line and the lines after it with the same key. *)
Definition group_ok (g : cstr * list cstr) : Prop := Forall (fun l => key l = key g.1) g.2.

(** Each group's key is not that of the one before. *)
Fixpoint separate (gs : list (cstr * list cstr)) : Prop :=
  match gs with
  | g :: (g' :: _) as gs' => key g.1 <> key g'.1 /\ separate gs'
  | _ => True
  end.

Definition lines_of (gs : list (cstr * list cstr)) : list cstr := concat ((fun g => g.1 :: g.2) <$> gs).

(** Is a group of [n] lines printed? *)
Definition wanted (n : nat) : bool := if (n =? 1)%nat then negb (opt_d o) else negb (opt_u o).

(** [n] in a column of seven characters. *)
Definition column (n : nat) : cstr := let s := fmt_u (Z.of_nat n) in replicate (7 - length s) SP ++ s.

Definition group_text (g : cstr * list cstr) : cstr :=
  let n := S (length g.2) in
  if wanted n then
    (if opt_c o then column n ++ [SP] else []) ++ g.1 ++ [if opt_z o then NUL else NL]
  else [].

(** ** Groups *)

Lemma skip_while_blank s : skip_whitespace s = skip_while is_space s.
Proof. rewrite skip_whitespace_spec. induction s as [|c s IH]; [done|]. cbn. by rewrite IH. Qed.

Lemma skip_while_word s : skip_non_whitespace s = skip_while (fun c => negb (is_space c)) s.
Proof.
  induction s as [|c s IH]; [done|]. cbn [skip_non_whitespace skip_while]. rewrite IH.
  by replace (negb (c ≟ SP) && (13 - 9 <? to_uchar (uc c - 9))%Z) with (negb (is_space c)) by all_chars c.
Qed.

Lemma compare_part_key line : compare_part line = drop (skip_chars o) (Nat.iter (skip_fields o) after_field line).
Proof.
  unfold compare_part. f_equal. induction (skip_fields o) as [|n IH]; [done|].
  rewrite !Nat.iter_succ, IH. unfold after_field. by rewrite skip_while_blank, skip_while_word.
Qed.

Lemma strn_differ_keys f p : forall q n, strn_differ f p q n = negb (bool_decide (f <$> take (Z.to_nat n) p = f <$> take (Z.to_nat n) q)).
Proof.
  induction p as [|a p IH]; intros q n; destruct q as [|b q]; cbn [strn_differ]; (destruct (Z.leb_spec n 0); [by replace (Z.to_nat n) with O by lia|]).
  1-3: by (replace (Z.to_nat n) with (S (Z.to_nat (n - 1))) by lia).
  replace (Z.to_nat n) with (S (Z.to_nat (n - 1))) by lia. cbn [take fmap list_fmap]. rewrite IH. destruct (Ascii.eqb_spec (f a) (f b)) as [->|Hne].
  - f_equal. apply bool_decide_ext. split; [by intros ->|by intros [= ->]].
  - rewrite bool_decide_false; [done|]. by intros [= ? _].
Qed.

Lemma differ_keys a b : differ a b = negb (bool_decide (key b = key a)).
Proof.
  unfold differ, key. rewrite !compare_part_key. destruct (opt_i o); rewrite strn_differ_keys; f_equal; apply bool_decide_ext.
  - by split.
  - change (fun c : ascii => c) with (@id ascii). rewrite !list_fmap_id. by split.
Qed.

Lemma show_text old l :
  Z.of_nat (length l) + 1 < 2 ^ 32 -> show old (Z.of_nat (length l)) = group_text (old, l).
Proof.
  intros Hn. unfold show, group_text, wanted, column, pad7. cbn [fst snd].
  rewrite wrapU_id by (unfold is_u; lia). rewrite (Nat2Z.inj_succ (length l)). unfold Z.succ.
  destruct l as [|x l]; cbn [length].
  - cbn [Z.of_nat Z.eqb Nat.eqb]. by destruct (opt_d o).
  - rewrite (proj2 (Z.eqb_neq _ 0)) by lia. rewrite (proj2 (Nat.eqb_neq (S (S (length l))) 1)) by lia.
    by destruct (opt_u o).
Qed.

Lemma read_dups_spec old lines dups :
  0 <= dups -> dups + Z.of_nat (length lines) < 2 ^ 32 ->
  exists same, Forall (fun l => differ old l = false) same /\
    match read_dups (Some old) lines dups with
    | (n, None, rest) => n = dups + Z.of_nat (length same) /\ lines = same /\ rest = []
    | (n, Some cur, rest) =>
        n = dups + Z.of_nat (length same) /\ lines = same ++ cur :: rest /\ differ old cur = true
    end.
Proof.
  revert dups. induction lines as [|l lines IH]; intros dups Hd Hl; cbn [read_dups].
  { exists []. split; [done|]. split; [simpl; lia|done]. }
  destruct (differ old l) eqn:El; [exists []; split; [done|]; split; [simpl; lia|done]|].
  cbn [length] in Hl. rewrite wrapU_id by (unfold is_u; lia).
  destruct (IH (dups + 1) ltac:(lia) ltac:(lia)) as (same & Hs & H). exists (l :: same). split; [by constructor|].
  destruct (read_dups _ _ _) as [[n [cur|]] rest]; destruct H as (-> & -> & Hc); cbn [length]; (split; [lia|]);
    split; [done|done|done|done].
Qed.

Lemma same_group_ok old same : Forall (fun l => differ old l = false) same -> group_ok (old, same).
Proof. intros H. eapply Forall_impl; [exact H|]. intros l. cbn beta. rewrite differ_keys, negb_false_iff. apply bool_decide_eq_true. Qed.

Lemma differ_key_ne old cur : differ old cur = true -> key old <> key cur.
Proof. rewrite differ_keys, negb_true_iff, bool_decide_eq_false. by intros H ?. Qed.

Lemma uniq_loop_groups fuel old lines :
  (length lines < fuel)%nat -> Z.of_nat (length lines) + 1 < 2 ^ 32 ->
  exists gs, old :: lines = lines_of gs /\ Forall group_ok gs /\ separate gs /\ (fst <$> head gs = Some old) /\
    uniq_loop fuel (Some old) lines = concat (group_text <$> gs).
Proof.
  revert old lines. induction fuel as [|f IH]; intros old lines Hf Hl; [lia|]. cbn [uniq_loop].
  destruct (read_dups_spec old lines 0 ltac:(lia) ltac:(lia)) as (same & Hs & H).
  destruct (read_dups _ _ _) as [[n [cur|]] rest]; destruct H as (-> & -> & Hc); rewrite Z.add_0_l.
  - rewrite length_app in Hf, Hl. cbn [length] in Hf, Hl.
    destruct (IH cur rest ltac:(lia) ltac:(lia)) as (gs & E1 & E2 & E3 & E4 & E5).
    exists ((old, same) :: gs). split; [unfold lines_of in *; cbn; by rewrite <- E1|].
    split; [constructor; [by apply same_group_ok|done]|]. split; [|split; [done|]].
    + destruct gs as [|g gs]; [done|]. injection E4 as E4. split; [|done]. rewrite E4. by apply differ_key_ne.
    + rewrite fmap_cons. cbn [concat]. rewrite E5. f_equal. apply show_text. lia.
  - exists [(old, same)]. unfold lines_of. cbn. rewrite !app_nil_r. repeat split; [|].
    + constructor; [by apply same_group_ok|constructor].
    + apply show_text. lia.
Qed.

End Uniq.

(** C38. [uniq]: the input falls into groups of adjacent lines with the same key
    (what is left when the fields of -f and then the characters of -s are skipped,
    at most -w characters of it, without regard to case under -i), and one line is
    printed per group: its first, behind the group's size in seven columns under
    -c; -d drops the groups of one line and -u the larger ones. *)
Theorem uniq_groups o lines :
  Z.of_nat (length lines) < 2 ^ 32 ->
  exists gs, lines = lines_of gs /\ Forall (group_ok o) gs /\ separate o gs /\
    uniq_main o lines = concat (group_text o <$> gs).
Proof.
  intros Hl. unfold uniq_main. destruct lines as [|l lines].
  { by exists []. }
  rewrite Nat.add_comm. cbn [plus uniq_loop read_dups app].
  destruct (uniq_loop_groups o (S (length (l :: lines))) l lines) as (gs & E1 & E2 & E3 & _ & E5);
    [simpl; lia|simpl in Hl; lia|]. by exists gs.
Qed.

Lemma uniq_groups_witness :
  let o := mk_uo true false false true false 0 0 (2 ^ 31 - 1) in
  uniq_main o (lit <$> ["a"; "A"; "b"; "a"]%string) = lit "      2 a" ++ [NL] ++ lit "      1 b" ++ [NL] ++ lit "      1 a" ++ [NL] /\
  exists gs, lit <$> ["a"; "A"; "b"; "a"]%string = lines_of gs /\ Forall (group_ok o) gs /\ separate o gs /\
    uniq_main o (lit <$> ["a"; "A"; "b"; "a"]%string) = concat (group_text o <$> gs).
Proof. split; [vm_compute; reflexivity|]. apply uniq_groups. by_eval. Defined.
