(* ===== verification/Sort.v ===== *)
(** * coreutils/sort.c: the [sort] command

    As configured, without FEATURE_SORT_BIG: whole lines, as texts, by their leading
    number or by versions.  getopt32 accepts the options of the large version all the
    same; the code of -c, -o, -k, -t, -b, -d, -f and -i is not compiled in, so that
    these options do nothing.  What a file holds is given as the lines that
    [xmalloc_fgetline] returns, none for a file that cannot be opened; [qsort] and
    [strverscmp] are the libc's, a class with the laws of their documentation. *)

From Stdlib Require Import Ascii String ZArith Lia Sorted Permutation.
From stdpp Require Import base list sorting strings.
From S2P Require Import Prelude Clib.

Local Open Scope Z_scope.

(** Which of -n, -g, -h, -M, -V are given: none, only -n, only -V, or others. *)
Inductive sort_type := Text | Numeric | Version | Unknown.

#[export] Instance sort_type_eq_dec : EqDecision sort_type.
Proof. solve_decision. Defined.

(** [option_mask32]. *)
Record sopts := mk_so {
  opt_type : sort_type; opt_u : bool; opt_s : bool; opt_z : bool; opt_r : bool;
  no_tie_break : bool;
}.

(** A line and the number that -s stores behind its NUL. *)
Abbreviation sline := (cstr * Z)%type.

(** What the C standard asks of a comparison function. *)
Definition consistent {A} (cmp : A -> A -> Z) (l : list A) : Prop :=
  (forall x y, x ∈ l -> y ∈ l -> x <> y -> (cmp x y <= 0 <-> 0 <= cmp y x)) /\
  (forall x y z, x ∈ l -> y ∈ l -> z ∈ l -> x <> y -> y <> z -> x <> z -> cmp x y <= 0 -> cmp y z <= 0 -> cmp x z <= 0).

Class Libc := {
  qsort : (sline -> sline -> Z) -> list sline -> list sline;
  qsort_perm : forall cmp l, qsort cmp l ≡ₚ l;
  qsort_sorted : forall cmp l, NoDup l -> consistent cmp l -> StronglySorted (fun x y => cmp x y <= 0) (qsort cmp l);
  strverscmp : cstr -> cstr -> Z;
  strverscmp_int : forall x y, - 2 ^ 31 < strverscmp x y < 2 ^ 31;
  strverscmp_opp : forall x y, strverscmp x y <= 0 <-> 0 <= strverscmp y x;
  strverscmp_trans : forall x y z, strverscmp x y <= 0 -> strverscmp y z <= 0 -> strverscmp x z <= 0;
}.

(** The files' lines one after the other; the first file that cannot be opened
    ends the program.  GET_LINE of the small version reads lines that end with a
    newline, under -z too, whatever the usage text says. *)
Fixpoint read_lines (files : list (option (list cstr))) : option (list cstr) :=
  match files with
  | [] => Some []
  | None :: _ => None
  | Some ls :: files => app ls <$> read_lines files
  end.

Section Sort.
Context `{Libc}.

(** [None]: "unknown sort type", and the program dies.  Overflow of the difference
    of two numbers is undefined in C; here it wraps. *)
Definition key_result (o : sopts) (x y : cstr) : option Z :=
  match opt_type o with
  | Text => Some (strcmp x y)
  | Numeric => Some (wrapS 32 (atoi x - atoi y))
  | Version => Some (strverscmp x y)
  | Unknown => None
  end.

Definition compare_keys (o : sopts) (x y : sline) : option Z :=
  retval ← key_result o x.1 y.1;
  Some (if (retval =? 0) && opt_s o then b2z (y.2 <? x.2) * 2 - 1
        else
          let retval := if (retval =? 0) && negb (no_tie_break o) then strcmp x.1 y.1 else retval in
          if opt_r o then wrapS 32 (- retval) else retval).

(** For a type that is known. *)
Definition compare_lines (o : sopts) (x y : sline) : Z := default 0 (compare_keys o x y).

Definition numbered (ls : list cstr) : list sline := imap (fun i l => (l, wrapU 32 (Z.of_nat i))) ls.

(** The loop of -u, from [lines[j]] on. *)
Fixpoint drop_equal (cmp : sline -> sline -> Z) (cur : sline) (rest : list sline) : list sline :=
  match rest with
  | [] => [cur]
  | l :: rest => if cmp cur l =? 0 then drop_equal cmp cur rest else cur :: drop_equal cmp l rest
  end.

Definition unique (o : sopts) (lines : list sline) : list sline :=
  match lines with
  | [] => []
  | l :: lines => drop_equal (compare_lines (mk_so (opt_type o) (opt_u o) false (opt_z o) (opt_r o) true)) l lines
  end.

Definition print_lines (z : bool) (lines : list cstr) : cstr := concat ((fun l => l ++ [if z then NUL else NL]) <$> lines).

Inductive sort_end :=
  | CannotOpen            (* status 2 *)
  | UnknownType           (* status 2 *)
  | Printed (text : cstr).

(** [files] is the operands, or standard input. *)
Definition sort_main (o : sopts) (files : list (option (list cstr))) : sort_end :=
  match read_lines files with
  | None => CannotOpen
  | Some ls =>
      (* with two lines or more, qsort calls compare_keys *)
      if bool_decide (opt_type o = Unknown) && (2 <=? length ls)%nat then UnknownType
      else
        let lines := qsort (compare_lines o) (numbered ls) in
        Printed (print_lines (opt_z o) ((if opt_u o then unique o lines else lines).*1))
  end.

(** ** The order of lines *)

(** The order of the C locale. *)
Fixpoint text_compare (x y : cstr) : comparison :=
  match x, y with
  | [], [] => Eq
  | [], _ => Lt
  | _, [] => Gt
  | a :: x, b :: y => match uc a ?= uc b with Eq => text_compare x y | c => c end
  end.

Definition key_compare (o : sopts) (x y : cstr) : comparison :=
  match opt_type o with
  | Numeric => atoi x ?= atoi y
  | Version => strverscmp x y ?= 0
  | Text | Unknown => text_compare x y
  end.

(** Lines with equal keys are in the order of their texts, or with -s in the order
    of the input. *)
Definition line_compare (o : sopts) (x y : cstr) : comparison :=
  match key_compare o x y with
  | Eq => if opt_s o then Eq else text_compare x y
  | c => c
  end.

(** May [x] stand before [y]? *)
Definition line_order (o : sopts) (x y : cstr) : comparison :=
  if opt_r o then CompOpp (line_compare o x y) else line_compare o x y.
Definition before (o : sopts) (x y : cstr) : bool := match line_order o x y with Gt => false | _ => true end.

(** Stable insertion sort. *)
Fixpoint insert_by {A} (le : A -> A -> bool) (x : A) (l : list A) : list A :=
  match l with
  | [] => [x]
  | y :: l' => if le x y then x :: l else y :: insert_by le x l'
  end.
Definition sort_by {A} (le : A -> A -> bool) (l : list A) : list A := foldr (insert_by le) [] l.

(** The first line of each run of lines with equal keys. *)
Fixpoint first_of_each (o : sopts) (cur : cstr) (rest : list cstr) : list cstr :=
  match rest with
  | [] => [cur]
  | l :: rest => match key_compare o cur l with Eq => first_of_each o cur rest | _ => cur :: first_of_each o l rest end
  end.
Definition distinct (o : sopts) (ls : list cstr) : list cstr := match ls with [] => [] | l :: ls => first_of_each o l ls end.

Definition same_key (o : sopts) (x y : cstr) : bool := match key_compare o x y with Eq => true | _ => false end.

(** Numbers whose differences are in range. *)
Definition small_number (l : cstr) : Prop := - 2 ^ 30 <= atoi l < 2 ^ 30.
Definition sortable (o : sopts) (l : cstr) : Prop := NUL ∉ l /\ (opt_type o = Numeric -> small_number l).

(** ** Orders given by comparisons *)

Definition preorder {A} (P : A -> Prop) (f : A -> A -> comparison) : Prop :=
  (forall x y, P x -> P y -> f y x = CompOpp (f x y)) /\
  (forall x y z, P x -> P y -> P z -> f x y <> Gt -> f y z <> Gt -> f x z <> Gt).

(** The order of numbered lines that -s asks for. *)
Definition sline_order (o : sopts) (x y : sline) : comparison :=
  match line_order o x.1 y.1 with Eq => if opt_s o then x.2 ?= y.2 else Eq | c => c end.

Lemma preorder_lex {A} (P : A -> Prop) f g : preorder P f -> preorder P g ->
  preorder P (fun x y => match f x y with Eq => g x y | c => c end).
Proof.
  intros [Of Tf] [Og Tg]. split.
  - intros x y Hx Hy. rewrite (Of x y Hx Hy). destruct (f x y); cbn; [by apply Og|done..].
  - intros x y z Hx Hy Hz H1 H2.
    assert (f x y <> Gt) as F1 by (intros E; by rewrite E in H1). assert (f y z <> Gt) as F2 by (intros E; by rewrite E in H2).
    pose proof (Tf x y z Hx Hy Hz F1 F2) as F3. destruct (f x z) eqn:E; [|done..].
    assert (f z x <> Gt) as F4 by (rewrite (Of x z Hx Hz), E; done).
    assert (f x y = Eq) as E1.
    { pose proof (Tf y z x Hy Hz Hx F2 F4) as F5. rewrite (Of x y Hx Hy) in F5. by destruct (f x y). }
    assert (f y z = Eq) as E2.
    { pose proof (Tf z x y Hz Hx Hy F4 F1) as F5. rewrite (Of y z Hy Hz) in F5. by destruct (f y z). }
    rewrite E1 in H1. rewrite E2 in H2. by apply (Tg x y z).
Qed.

Lemma preorder_opp {A} (P : A -> Prop) f : preorder P f -> preorder P (fun x y => CompOpp (f x y)).
Proof.
  intros [Of Tf]. split; [intros x y Hx Hy; by rewrite (Of x y)|]. intros x y z Hx Hy Hz H1 H2.
  rewrite <- (Of x y) in H1 by done. rewrite <- (Of y z) in H2 by done. rewrite <- (Of x z) by done. by apply (Tf z y x).
Qed.

Lemma preorder_Z {A} (P : A -> Prop) (f : A -> Z) : preorder P (fun x y => f x ?= f y).
Proof.
  split; [intros x y _ _; apply Z.compare_antisym|]. intros x y z _ _ _. apply Z.le_trans.
Qed.

Lemma preorder_eq {A} (P : A -> Prop) : preorder P (fun _ _ => Eq).
Proof. by split. Qed.

Lemma preorder_sub {A B} (P : A -> Prop) (Q : B -> Prop) (g : A -> B) f : (forall x, P x -> Q (g x)) -> preorder Q f ->
  preorder P (fun x y => f (g x) (g y)).
Proof. intros Hg [O T]. split; [intros; apply O; auto|]. intros x y z Hx Hy Hz. apply T; auto. Qed.

Lemma text_compare_eq x : forall y, text_compare x y = Eq -> x = y.
Proof.
  induction x as [|a x IH]; intros [|b y]; cbn; try done. destruct (Z.compare_spec (uc a) (uc b)) as [E| |]; try done.
  intros H1. f_equal; [by apply uc_inj|by apply IH].
Qed.

Lemma text_compare_preorder (P : cstr -> Prop) : preorder P text_compare.
Proof.
  split.
  - intros x y _ _. revert y. induction x as [|a x IH]; intros [|b y]; cbn; try done.
    rewrite (Z.compare_antisym (uc a) (uc b)). destruct (uc a ?= uc b); cbn; auto.
  - intros x y z _ _ _. revert y z. induction x as [|a x IH]; intros [|b y] [|c z]; cbn; try done.
    destruct (Z.compare_spec (uc a) (uc b)), (Z.compare_spec (uc b) (uc c)), (Z.compare_spec (uc a) (uc c)); try done; try lia. apply IH.
Qed.

Lemma strcmp_compare x : forall y, NUL ∉ x -> NUL ∉ y -> (strcmp x y ?= 0) = text_compare x y /\ - 256 < strcmp x y < 256.
Proof.
  induction x as [|a x IH]; intros [|b y]; rewrite ?not_elem_of_cons; intros Hx Hy; cbn [strcmp text_compare].
  - done.
  - destruct Hy as [Hb _]. pose proof (uc_pos b ltac:(congruence)). pose proof (uc_range b). split; [apply Z.compare_lt_iff; lia|lia].
  - destruct Hx as [Ha _]. pose proof (uc_pos a ltac:(congruence)). pose proof (uc_range a). split; [apply Z.compare_gt_iff; lia|lia].
  - destruct Hx as [_ Hx], Hy as [_ Hy]. destruct (Ascii.eqb_spec a b) as [->|Hne].
    + rewrite Z.compare_refl. by apply IH.
    + assert (uc a <> uc b) by (intros E; by apply Hne, uc_inj). pose proof (uc_range a). pose proof (uc_range b). split; [|lia].
      destruct (Z.compare_spec (uc a) (uc b)); [lia|by apply Z.compare_lt_iff; lia|by apply Z.compare_gt_iff; lia].
Qed.

(** The comparison of keys, without overflow. *)
Lemma key_result_compare o x y : opt_type o <> Unknown -> sortable o x -> sortable o y ->
  exists r, key_result o x y = Some r /\ (r ?= 0) = key_compare o x y /\ - 2 ^ 31 < r < 2 ^ 31.
Proof.
  intros Ht [Hx Hnx] [Hy Hny]. unfold key_result, key_compare. destruct (opt_type o).
  - destruct (strcmp_compare x y Hx Hy). eexists. split_and!; [done|done|lia..].
  - specialize (Hnx eq_refl). specialize (Hny eq_refl). unfold small_number in *. eexists. split; [done|].
    rewrite wrapS_id by (unfold is_s; lia). split; [|lia].
    destruct (Z.compare_spec (atoi x) (atoi y)); [apply Z.compare_eq_iff; lia|apply Z.compare_lt_iff; lia|apply Z.compare_gt_iff; lia].
  - eexists. split_and!; [done|done|apply strverscmp_int..].
  - done.
Qed.

Lemma opp_compare r : - 2 ^ 31 < r < 2 ^ 31 -> (wrapS 32 (- r) ?= 0) = CompOpp (r ?= 0).
Proof.
  intros Hr. rewrite wrapS_id by (unfold is_s; lia). rewrite <- Z.compare_antisym. destruct (Z.compare_spec (- r) 0), (Z.compare_spec 0 r); done || lia.
Qed.

(** [compare_keys] gives the order of lines. *)
Lemma compare_lines_order o x y : opt_type o <> Unknown -> no_tie_break o = false -> sortable o x.1 -> sortable o y.1 -> x.2 <> y.2 ->
  (compare_lines o x y ?= 0) = sline_order o x y.
Proof.
  intros Ht Hn Hx Hy Hne. destruct (key_result_compare o x.1 y.1 Ht Hx Hy) as (r & Hr & Hc & Hb).
  destruct (strcmp_compare x.1 y.1) as [Hs Hsb]; [apply Hx|apply Hy|].
  unfold compare_lines, compare_keys. rewrite Hr, Hn. cbn [mbind option_bind default id negb]. unfold sline_order, line_order, line_compare.
  rewrite <- Hc. destruct (Z.eqb_spec r 0) as [->|Hr0]; cbn [andb Z.compare].
  - destruct (opt_s o); cbn [CompOpp].
    + destruct (Z.ltb_spec y.2 x.2), (Z.compare_spec x.2 y.2), (opt_r o); done || lia.
    + rewrite <- Hs. destruct (opt_r o); [rewrite opp_compare by lia|]; by destruct (strcmp x.1 y.1 ?= 0).
  - destruct (opt_r o); [rewrite opp_compare by lia|]; destruct (Z.compare_spec r 0); done || lia.
Qed.

Lemma key_compare_preorder o (P : cstr -> Prop) : preorder P (key_compare o).
Proof.
  unfold key_compare. destruct (opt_type o); [apply text_compare_preorder|apply preorder_Z| |apply text_compare_preorder].
  split.
  - intros x y _ _. pose proof (strverscmp_opp x y). pose proof (strverscmp_opp y x).
    destruct (Z.compare_spec (strverscmp x y) 0), (Z.compare_spec (strverscmp y x) 0); done || lia.
  - intros x y z _ _ _. apply strverscmp_trans.
Qed.

Lemma line_order_preorder o P : preorder P (line_order o).
Proof.
  assert (preorder P (line_compare o)) as Hl.
  { unfold line_compare. apply (preorder_lex P (key_compare o)); [apply key_compare_preorder|].
    destruct (opt_s o); [apply preorder_eq|apply text_compare_preorder]. }
  unfold line_order. destruct (opt_r o); [by apply preorder_opp|done].
Qed.

Lemma sline_order_preorder o P : preorder P (sline_order o).
Proof.
  unfold sline_order. apply (preorder_lex P (fun x y => line_order o x.1 y.1)).
  - apply (preorder_sub P (fun _ => True)); [done|apply line_order_preorder].
  - destruct (opt_s o); [apply preorder_Z|apply preorder_eq].
Qed.

(** ** Numbered lines *)

Lemma numbered_fst ls : (numbered ls).*1 = ls.
Proof. unfold numbered. rewrite fmap_imap. transitivity (imap (const id) ls); [by apply imap_ext|by rewrite imap_const, list_fmap_id]. Qed.

Lemma numbered_increasing ls : Z.of_nat (length ls) < 2 ^ 32 -> StronglySorted (fun x y => x.2 < y.2) (numbered ls).
Proof.
  intros Hl. assert (forall k, Z.of_nat (k + length ls) < 2 ^ 32 ->
    StronglySorted (fun x y : sline => x.2 < y.2) (imap (fun i l => (l, wrapU 32 (Z.of_nat (k + i)))) ls)) as Hgen.
  { clear Hl. induction ls as [|l ls IH]; intros k Hk; [constructor|]. cbn [length] in Hk. rewrite imap_cons. constructor.
    - rewrite (imap_ext _ (fun i l => (l, wrapU 32 (Z.of_nat (S k + i))))) by (intros; cbn; do 3 f_equal; lia). apply IH. lia.
    - apply Forall_forall. intros x Hx. apply elem_of_lookup_imap in Hx as (i & t & -> & Hi). apply lookup_lt_Some in Hi. cbn.
      rewrite !wrapU_id by (unfold is_u; lia). lia. }
  apply (Hgen 0%nat). lia.
Qed.

Lemma increasing_inj (l : list sline) x y : StronglySorted (fun x y => x.2 < y.2) l -> x ∈ l -> y ∈ l -> x.2 = y.2 -> x = y.
Proof.
  induction 1 as [|z l Hs IH Hz]; intros Hx Hy E; [by apply elem_of_nil in Hx|]. rewrite Forall_forall in Hz.
  apply elem_of_cons in Hx as [->|Hx], Hy as [->|Hy]; [done| | |by apply IH].
  - specialize (Hz _ Hy). lia.
  - specialize (Hz _ Hx). lia.
Qed.

Lemma increasing_nodup (l : list sline) : StronglySorted (fun x y => x.2 < y.2) l -> NoDup l.
Proof.
  induction 1 as [|z l Hs IH Hz]; [constructor|]. apply NoDup_cons. split; [|done]. intros Hin. rewrite Forall_forall in Hz. specialize (Hz _ Hin). lia.
Qed.

(** ** Insertion *)

Lemma insert_by_perm {A} le (x : A) l : insert_by le x l ≡ₚ x :: l.
Proof. induction l as [|y l IH]; cbn; [done|]. destruct (le x y); [done|]. rewrite IH. apply perm_swap. Qed.

Lemma sort_by_perm {A} le (l : list A) : sort_by le l ≡ₚ l.
Proof. induction l as [|x l IH]; cbn; [done|]. by rewrite insert_by_perm, IH. Qed.

Lemma sort_by_fmap {A B} (f : A -> B) le l : f <$> sort_by (fun x y => le (f x) (f y)) l = sort_by le (f <$> l).
Proof.
  induction l as [|x l IH]; [done|]. rewrite fmap_cons.
  change (f <$> insert_by (fun x y => le (f x) (f y)) x (sort_by (fun x y => le (f x) (f y)) l) = insert_by le (f x) (sort_by le (f <$> l))).
  rewrite <- IH. generalize (sort_by (fun x y => le (f x) (f y)) l). intros k.
  induction k as [|y k IHk]; cbn; [done|]. destruct (le (f x) (f y)); [done|]. cbn. by rewrite IHk.
Qed.

Lemma insert_by_sorted {A} (R : A -> A -> Prop) le x l :
  StronglySorted R l -> Forall (fun y => le x y = true -> R x y) l -> Forall (fun y => le x y = false -> R y x) l ->
  (forall y z, y ∈ l -> z ∈ l -> R x y -> R y z -> R x z) -> StronglySorted R (insert_by le x l).
Proof.
  induction 1 as [|y l Hs IH Hy]; cbn [insert_by]; intros H1 H2 Ht; [repeat constructor|].
  apply Forall_cons in H1 as [H1 H1'], H2 as [H2 H2']. destruct (le x y) eqn:E.
  - constructor; [by constructor|]. constructor; [by apply H1|]. apply Forall_forall. intros z Hz. rewrite Forall_forall in Hy.
    apply (Ht y z); [left|by right|by apply H1|by apply Hy].
  - constructor.
    + apply IH; [done..|]. intros y' z Hy' Hz. apply Ht; by right.
    + rewrite insert_by_perm. constructor; [by apply H2|done].
Qed.

(** What insertion does to one class of lines. *)
Lemma sort_by_stable {A} (P : A -> Prop) `{forall x, Decision (P x)} le l :
  (forall x y, P x -> P y -> le x y = true) -> filter P (sort_by le l) = filter P l.
Proof.
  intros Hle. induction l as [|x l IH]; [done|]. cbn [sort_by foldr]. fold (sort_by le l). rewrite filter_cons, <- IH.
  generalize (sort_by le l). intros k. induction k as [|y k IHk]; cbn [insert_by].
  - by rewrite filter_cons.
  - destruct (le x y) eqn:E; [by rewrite filter_cons|]. rewrite !filter_cons, IHk.
    destruct (decide (P x)), (decide (P y)); try done. by rewrite Hle in E.
Qed.

(** ** What is printed *)

Section Lines.
Context (o : sopts) (ls : list cstr).
Context (Htype : opt_type o <> Unknown) (Htie : no_tie_break o = false).
Context (Hls : Forall (sortable o) ls) (Hlen : Z.of_nat (length ls) < 2 ^ 32).

Abbreviation le := (fun x y : sline => sline_order o x y <> Gt).

Lemma numbered_sortable x : x ∈ numbered ls -> sortable o x.1.
Proof.
  intros Hx. rewrite Forall_forall in Hls. apply Hls. rewrite <- (numbered_fst ls). apply list_elem_of_fmap. by exists x.
Qed.

Lemma numbered_compare x y : x ∈ numbered ls -> y ∈ numbered ls -> x <> y -> (compare_lines o x y ?= 0) = sline_order o x y.
Proof.
  intros Hx Hy Hne. apply compare_lines_order; [done|done|by apply numbered_sortable..|]. intros E. apply Hne.
  eapply increasing_inj; [by apply numbered_increasing|done..].
Qed.

Lemma consistent_lines : consistent (compare_lines o) (numbered ls).
Proof.
  destruct (sline_order_preorder o (fun _ => True)) as [Ho Ht]. split.
  - intros x y Hx Hy Hne. pose proof (numbered_compare x y Hx Hy Hne) as H1. pose proof (numbered_compare y x Hy Hx ltac:(congruence)) as H2.
    rewrite (Ho x y I I), <- H1 in H2. destruct (Z.compare_spec (compare_lines o x y) 0), (Z.compare_spec (compare_lines o y x) 0); done || lia.
  - intros x y z Hx Hy Hz H1 H2 H3. unfold Z.le. rewrite !numbered_compare by done. by apply Ht.
Qed.

Lemma sorted_order l : NoDup l -> (forall x, x ∈ l -> x ∈ numbered ls) -> StronglySorted (fun x y => compare_lines o x y <= 0) l -> StronglySorted le l.
Proof.
  intros Hn Hin. induction 1 as [|x l Hs IH Hx]; [constructor|]. apply NoDup_cons in Hn as [Hxl Hn]. constructor.
  - apply IH; [done|]. intros y Hy. apply Hin. by right.
  - rewrite Forall_forall in *. intros y Hy. specialize (Hx y Hy). unfold Z.le in Hx. rewrite numbered_compare in Hx; [done|apply Hin; left|apply Hin; by right|].
    by intros ->.
Qed.

Lemma reference_sorted l : StronglySorted (fun x y => x.2 < y.2) l -> StronglySorted le (sort_by (fun x y => before o x.1 y.1) l).
Proof.
  destruct (sline_order_preorder o (fun _ => True)) as [Ho Ht]. destruct (line_order_preorder o (fun _ => True)) as [Hlo _].
  induction 1 as [|x l Hs IH Hx]; [constructor|]. cbn [sort_by foldr]. fold (sort_by (fun x y : sline => before o x.1 y.1) l).
  apply insert_by_sorted; [done|..].
  - rewrite sort_by_perm. eapply Forall_impl; [exact Hx|]. cbn. intros y Hlt. unfold before, sline_order.
    destruct (line_order o x.1 y.1); try done. intros _. destruct (opt_s o); [|done]. destruct (Z.compare_spec x.2 y.2); done || lia.
  - apply Forall_forall. intros y _. unfold before, sline_order. rewrite (Hlo x.1 y.1 I I). by destruct (line_order o x.1 y.1).
  - intros y z _ _. by apply Ht.
Qed.

(** Whatever the libc's algorithm. *)
Lemma qsort_lines : (qsort (compare_lines o) (numbered ls)).*1 = sort_by (before o) ls.
Proof.
  set (q := qsort (compare_lines o) (numbered ls)). set (r := sort_by (fun x y : sline => before o x.1 y.1) (numbered ls)).
  pose proof (numbered_increasing ls Hlen) as Hinc. pose proof (increasing_nodup _ Hinc) as Hnd.
  assert (q ≡ₚ numbered ls) as Hq by apply qsort_perm. assert (r ≡ₚ numbered ls) as Hr by apply sort_by_perm.
  assert (StronglySorted le q) as Sq.
  { apply sorted_order; [by rewrite Hq|intros x; by rewrite Hq|]. by apply qsort_sorted, consistent_lines. }
  assert (StronglySorted le r) as Sr by by apply reference_sorted.
  replace (sort_by (before o) ls) with (r.*1) by (unfold r; by rewrite (sort_by_fmap fst), numbered_fst).
  destruct (sline_order_preorder o (fun _ => True)) as [Ho _].
  destruct (opt_s o) eqn:Hs.
  - f_equal. apply (StronglySorted_unique_strong le); [|done|done|by rewrite Hq, Hr]. intros x y Hx Hy H1 H2.
    rewrite (Ho x y I I) in H2. rewrite Hq in Hx. rewrite Hr in Hy. apply (increasing_inj _ _ _ Hinc Hx Hy).
    unfold sline_order in H1, H2. rewrite Hs in H1, H2. destruct (line_order o x.1 y.1); try done.
    destruct (Z.compare_spec x.2 y.2); done.
  - assert (forall l : list sline, StronglySorted le l -> StronglySorted (fun x y => line_order o x y <> Gt) l.*1) as Hf.
    { intros l. apply StronglySorted_fmap. intros x y Hxy E. apply Hxy. unfold sline_order. by rewrite E. }
    apply (StronglySorted_unique_strong (fun x y => line_order o x y <> Gt)); [|by apply Hf..|by rewrite Hq, Hr].
    intros x y _ _ H1 H2. destruct (line_order_preorder o (fun _ => True)) as [Hlo _]. rewrite (Hlo x y I I) in H2.
    unfold line_order, line_compare in H1, H2. rewrite Hs in H1, H2. apply text_compare_eq.
    destruct (key_compare o x y), (text_compare x y), (opt_r o); done.
Qed.

Lemma unique_lines l : (forall x, x ∈ l.*1 -> sortable o x) -> (unique o l).*1 = distinct o l.*1.
Proof.
  destruct l as [|x l]; [done|]. cbn [unique distinct fmap list_fmap]. revert x. induction l as [|y l IH]; intros x Hx; [done|].
  cbn [drop_equal first_of_each fmap list_fmap].
  assert (sortable o x.1) as Sx by (apply Hx; left). assert (sortable o y.1) as Sy by (apply Hx; right; left).
  destruct (key_result_compare o x.1 y.1 Htype Sx Sy) as (r & Hr & Hc & Hb).
  assert ((compare_lines (mk_so (opt_type o) (opt_u o) false (opt_z o) (opt_r o) true) x y =? 0) = (r =? 0)) as ->.
  { unfold compare_lines, compare_keys. change (key_result _ x.1 y.1) with (key_result o x.1 y.1). rewrite Hr. cbn [mbind option_bind default id opt_s no_tie_break negb opt_r].
    rewrite !andb_false_r. destruct (opt_r o); [|done]. rewrite wrapS_id by (unfold is_s; lia). destruct (Z.eqb_spec (- r) 0), (Z.eqb_spec r 0); done || lia. }
  rewrite <- Hc. destruct (Z.compare_spec r 0), (Z.eqb_spec r 0); try lia.
  - apply IH. intros z Hz. apply Hx. apply elem_of_cons in Hz as [->|Hz]; [left|right; by right].
  - cbn [fmap list_fmap]. f_equal. apply IH. intros z Hz. apply Hx. by right.
  - cbn [fmap list_fmap]. f_equal. apply IH. intros z Hz. apply Hx. by right.
Qed.
End Lines.

Lemma before_sorted o ls : StronglySorted (fun x y => before o x y = true) (sort_by (before o) ls).
Proof.
  destruct (line_order_preorder o (fun _ => True)) as [Ho Ht].
  assert (forall x y, before o x y = true <-> line_order o x y <> Gt) as Hb by (intros x y; unfold before; by destruct (line_order o x y)).
  induction ls as [|x l IH]; [constructor|]. cbn [sort_by foldr]. fold (sort_by (before o) l). apply insert_by_sorted; [done|..].
  - by apply Forall_forall.
  - apply Forall_forall. intros y _ E. apply Hb. rewrite (Ho x y I I). unfold before in E. by destruct (line_order o x y).
  - intros y z _ _. rewrite !Hb. by apply Ht.
Qed.

Lemma same_key_stable o ls x : opt_s o = true -> filter (fun y => same_key o x y = true) (sort_by (before o) ls) = filter (fun y => same_key o x y = true) ls.
Proof.
  intros Hs. apply sort_by_stable. intros y z. unfold same_key, before, line_order, line_compare. rewrite Hs.
  destruct (key_compare_preorder o (fun _ => True)) as [Ho Ht]. pose proof (Ho x y I I) as O1. pose proof (Ht y x z I I I) as T1. pose proof (Ho y z I I) as O2.
  pose proof (Ht z x y I I I) as T2. pose proof (Ho x z I I) as O3.
  destruct (key_compare o x y) eqn:E1; try done. destruct (key_compare o x z) eqn:E2; try done. intros _ _. cbn in *.
  rewrite O1 in T1. rewrite O3 in T2. specialize (T1 ltac:(done) ltac:(done)). specialize (T2 ltac:(done) ltac:(done)).
  destruct (key_compare o y z), (opt_r o), (key_compare o z y); done.
Qed.

(** C35. sort prints the lines of its files in order, whichever algorithm the libc's
    qsort is: the lines are sorted by key and then by text, or with -s left in the
    order of the input where their keys are equal, with -r the other way round; with
    -u only the first of each run of lines with equal keys is printed.  Under -n the
    numbers are between -2^30 and 2^30, since the difference of two numbers further
    apart can overflow ([sort_overflow]); -z is left out, since it does not change
    how the input is read. *)
Theorem sort_sorts (o : sopts) files ls : read_lines files = Some ls -> opt_type o <> Unknown -> no_tie_break o = false -> opt_z o = false ->
  Forall (sortable o) ls -> Z.of_nat (length ls) < 2 ^ 32 ->
  let sorted := sort_by (before o) ls in
  sort_main o files = Printed (print_lines false (if opt_u o then distinct o sorted else sorted)) /\
  sorted ≡ₚ ls /\ StronglySorted (fun x y => before o x y = true) sorted /\
  (opt_s o = true -> forall x, filter (fun y => same_key o x y = true) sorted = filter (fun y => same_key o x y = true) ls).
Proof.
  intros Hf Ht Hn Hz Hs Hl sorted. refine (conj _ (conj (sort_by_perm _ _) (conj (before_sorted _ _) _))); [|intros; by apply same_key_stable].
  unfold sort_main. rewrite Hf, Hz, bool_decide_false by done. cbn [andb]. do 2 f_equal.
  pose proof (qsort_lines o ls Ht Hn Hs Hl) as Hq. destruct (opt_u o); [|done]. rewrite unique_lines; [by rewrite Hq|done..|].
  intros x. rewrite Hq, (sort_by_perm (before o) ls). rewrite Forall_forall in Hs. apply Hs.
Qed.
End Sort.

(** ** A libc *)

Lemma insertion_sorted `{EqDecision A} (cmp : A -> A -> Z) l : NoDup l -> consistent cmp l ->
  StronglySorted (fun x y => cmp x y <= 0) (sort_by (fun x y => cmp x y <=? 0) l).
Proof.
  intros Hn [Ho Ht]. assert (forall k, (forall x, x ∈ k -> x ∈ l) -> NoDup k -> StronglySorted (fun x y => cmp x y <= 0) (sort_by (fun x y => cmp x y <=? 0) k)) as H.
  2: { by apply H. }
  induction k as [|x k IH]; intros Hk Hkn; [constructor|]. apply NoDup_cons in Hkn as [Hx Hkn].
  cbn [sort_by foldr]. fold (sort_by (fun x y => cmp x y <=? 0) k). apply insert_by_sorted.
  - apply IH; [|done]. intros y Hy. apply Hk. by right.
  - apply Forall_forall. intros y _ E. by apply Z.leb_le.
  - apply Forall_forall. intros y Hy E. rewrite (sort_by_perm (fun x y => cmp x y <=? 0) k) in Hy. apply Z.leb_gt in E.
    apply (Ho y x); [apply Hk; by right|apply Hk; left|by intros ->|lia].
  - intros y z Hy Hz. rewrite (sort_by_perm (fun x y => cmp x y <=? 0) k) in Hy, Hz. destruct (decide (y = z)) as [->|Hyz]; [done|].
    apply Ht; [apply Hk; left|apply Hk; by right|apply Hk; by right|by intros ->|done|by intros ->].
Qed.

(** Insertion sort; versions in the order of their lengths. *)
#[export] Instance example_libc : Libc.
Proof.
  refine {| qsort cmp l := sort_by (fun x y => cmp x y <=? 0) l; strverscmp x y := Z.sgn (Z.of_nat (length x) - Z.of_nat (length y)) |}.
  - intros. apply sort_by_perm.
  - intros. by apply insertion_sorted.
  - intros x y. destruct (Z.sgn_spec (Z.of_nat (length x) - Z.of_nat (length y))) as [[_ ->]|[[_ ->]|[_ ->]]]; lia.
  - intros x y. rewrite Z.sgn_nonpos, Z.sgn_nonneg. lia.
  - intros x y z. rewrite !Z.sgn_nonpos. lia.
Defined.

Definition example_opts (t : sort_type) (u s r : bool) : sopts := mk_so t u s false r false.
Definition example_files : list (option (list cstr)) := [Some [lit "10 b"; lit "9"; lit "10 a"]; Some [lit "-3"; lit "9"]].

Example sort_text : sort_main (example_opts Text false false false) example_files = Printed (lit "-3
10 a
10 b
9
9
").
Proof. vm_compute. reflexivity. Qed.

Example sort_numbers_reversed : sort_main (example_opts Numeric false true true) example_files = Printed (lit "10 b
10 a
9
9
-3
").
Proof. vm_compute. reflexivity. Qed.

Example sort_unique : sort_main (example_opts Numeric true false false) example_files = Printed (lit "-3
9
10 a
").
Proof. vm_compute. reflexivity. Qed.

(** Two numbers whose difference is out of range: the smaller one is printed last. *)
Example sort_overflow : sort_main (example_opts Numeric false false false) [Some [lit "2000000000"; lit "-2000000000"]] =
  Printed (lit "2000000000
-2000000000
").
Proof. vm_compute. reflexivity. Qed.

Lemma sort_sorts_witness :
  sort_main (example_opts Numeric true false true) example_files =
    Printed (print_lines false (distinct (example_opts Numeric true false true)
      (sort_by (before (example_opts Numeric true false true)) [lit "10 b"; lit "9"; lit "10 a"; lit "-3"; lit "9"]))).
Proof.
  apply (sort_sorts (example_opts Numeric true false true) example_files [lit "10 b"; lit "9"; lit "10 a"; lit "-3"; lit "9"]).
  - reflexivity.
  - discriminate.
  - reflexivity.
  - reflexivity.
  - repeat (apply Forall_cons; split); try apply Forall_nil; try exact I;
      (split; [apply (bool_decide_unpack _); vm_compute; exact I|intros _; unfold small_number; split; vm_compute; congruence]).
  - reflexivity.
Defined.
