(* ===== verification/Tail.v ===== *)
(** * coreutils/tail.c and head.c: the [tail] and [head] commands

    As configured, without FEATURE_FANCY_TAIL and FEATURE_FANCY_HEAD: [tail] with
    -c and -n, [head] with -n.  A file is what it contains, whether it can be
    seeked, and whether reading it ends with an error; [full_read] returns as many
    bytes as it was asked for, fewer at the end.  [tail_main] is modelled to the
    point where -f begins to wait; numbers have 32 bits, file offsets are exact.  Access
    outside of the buffer's contents is [None].  BUFSIZ is the libc's. *)

From Stdlib Require Import Ascii String ZArith Lia.
From stdpp Require Import base list strings.
From S2P Require Import Prelude Clib LibbbNum.

Local Open Scope Z_scope.

Definition INT_MAX : Z := 2 ^ 31 - 1.

Record input := mk_in { i_data : cstr; i_seekable : bool; i_error : bool }.

(** [lseek(fd, 0, SEEK_END)]. *)
Definition seek_end (i : input) : Z := if i_seekable i then Z.of_nat (length (i_data i)) else -1.

Definition newlines (s : cstr) : Z := Z.of_nat (length (filter (fun c => c = NL) s)).

Section Tail.
Context (BUFSIZ : Z).
Context (from_top count_bytes : bool) (count : Z).

(** The variables of the loop over the reads; [t_buf] is the first [taillen] bytes
    of [tailbuf]. *)
Record tail_state := mk_t { t_buf : cstr; t_size : Z; seen : Z; newlines_seen : Z; t_out : cstr }.

(** [while (k) ...]: the rest of the buffer behind [k] newlines. *)
Fixpoint skip_lines (k : Z) (s : cstr) : option cstr :=
  if k =? 0 then Some s
  else match s with [] => None | c :: s => skip_lines (if (c ≟ NL)%cc then k - 1 else k) s end.

(** [do ... while (nwrite)] of +N lines: the bytes left to write, and [seen]. *)
Fixpoint pass_lines (s : cstr) (seen : Z) : cstr * Z :=
  match s with
  | [] => ([], seen)
  | c :: s =>
      if (c ≟ NL)%cc then
        let seen := wrapU 32 (seen + 1) in if seen =? count then (s, seen) else pass_lines s seen
      else pass_lines s seen
  end.

Definition from_top_step (t : tail_state) (chunk : cstr) : option tail_state :=
  let nread := Z.of_nat (length chunk) in
  if seen t <? count then
    if count_bytes then
      let nwrite := wrapS 32 (nread - (count - seen t)) in
      let t' := mk_t (t_buf t) (t_size t) (wrapU 32 (seen t + nread)) (newlines_seen t) in
      if nwrite <=? 0 then Some (t' (t_out t))
      else if nread <? nwrite then None
      else Some (t' (t_out t ++ drop (Z.to_nat (nread - nwrite)) chunk))
    else
      let '(rest, seen) := pass_lines chunk (seen t) in
      Some (mk_t (t_buf t) (t_size t) seen (newlines_seen t) (t_out t ++ rest))
  else Some (mk_t (t_buf t) (t_size t) (seen t) (newlines_seen t) (t_out t ++ chunk)).

Definition bytes_step (t : tail_state) (chunk : cstr) : option tail_state :=
  let b := t_buf t ++ chunk in
  let taillen := Z.of_nat (length b) in
  if wrapS 32 count <? taillen then
    if count <=? taillen then Some (mk_t (drop (Z.to_nat (taillen - count)) b) (t_size t) (seen t) (newlines_seen t) (t_out t))
    else None
  else Some (mk_t b (t_size t) (seen t) (newlines_seen t) (t_out t)).

Definition lines_step (t : tail_state) (chunk : cstr) : option tail_state :=
  let b := t_buf t ++ chunk in
  let in_buf := newlines chunk in
  let grown b := if t_size t <? wrapU 32 (Z.of_nat (length b) + BUFSIZ) then wrapU 32 (Z.of_nat (length b) + BUFSIZ) else t_size t in
  if newlines_seen t + in_buf <? wrapS 32 count then
    Some (mk_t b (grown b) (seen t) (newlines_seen t + in_buf) (t_out t))
  else
    let extra := b2z (negb (default NUL (last chunk) ≟ NL)%cc) in
    let k := wrapS 32 (newlines_seen t + in_buf + extra - count) in
    b' ← skip_lines k b;
    Some (mk_t b' (grown b') (seen t) (wrapS 32 (count - extra)) (t_out t)).

Definition tail_step (t : tail_state) (chunk : cstr) : option tail_state :=
  if from_top then from_top_step t chunk
  else if count =? 0 then Some t
  else if count_bytes then bytes_step t chunk else lines_step t chunk.

(** [while ((nread = tail_read(fd, buf, tailbufsize - taillen)) > 0)]; reading 0
    bytes, where there is no room, ends it too. *)
Fixpoint tail_loop (fuel : nat) (data : cstr) (t : tail_state) : option tail_state :=
  match fuel with
  | O => None
  | S f =>
      let n := Z.to_nat (wrapU 32 (t_size t - Z.of_nat (length (t_buf t)))) in
      match take n data with
      | [] => Some t
      | chunk => t ← tail_step t chunk; tail_loop f (drop n data) t
      end
  end.

Definition tailbufsize : Z :=
  if negb from_top && count_bytes && (BUFSIZ <? wrapU 32 (count + BUFSIZ)) then wrapU 32 (count + BUFSIZ) else BUFSIZ.

(** What is read of a file that can be seeked. *)
Definition seek_lines (current : Z) : Z :=
  let off := Z.lor count 15 in
  let off := if INT_MAX / (64 * 1024) <? off then INT_MAX / (64 * 1024) else off in
  Z.max 0 (current - wrapU 32 (off * (64 * 1024))).

(** One file: what is written, and whether reading failed.  The size of the buffer
    is that of the file before. *)
Definition tail_file (size : Z) (i : input) : option (Z * cstr * bool) :=
  let current := seek_end i in
  if negb from_top && (0 <? current) && count_bytes then
    if count =? 0 then Some (size, [], false)
    else Some (size, take (Z.to_nat count) (drop (Z.to_nat (Z.max 0 (current - count))) (i_data i)), false)
  else
    let data := if negb from_top && (0 <? current) then drop (Z.to_nat (seek_lines current)) (i_data i) else i_data i in
    t ← tail_loop (S (length data)) data (mk_t [] size 1 0 []);
    Some (t_size t, if from_top then t_out t else t_buf t, i_error i).

Definition header (first : bool) (name : cstr) : cstr :=
  (if first then [] else [NL]) ++ lit "==> " ++ name ++ lit " <==" ++ [NL].

Fixpoint tail_files (many first : bool) (size : Z) (files : list (cstr * input)) : option (cstr * bool) :=
  match files with
  | [] => Some ([], false)
  | (name, i) :: files =>
      r ← tail_file size i;
      let '(size, text, err) := r in
      rest ← tail_files many false size files;
      Some ((if many then header first name else []) ++ text ++ fst rest, err || snd rest)
  end.
End Tail.

(** The number, and whether it began with a plus. *)
Definition eat_num (p : cstr) : xres * bool :=
  match p with
  | "-"%char :: p => (xatou_sfx 32 p (Some bkm_suffixes), false)
  | "+"%char :: p => (xatou_sfx 32 p (Some bkm_suffixes), true)
  | p => (xatou_sfx 32 p (Some bkm_suffixes), false)
  end.

Inductive tail_end :=
  | BadNumber
  | NoFiles
  | OutOfBounds
  | Shown (text : cstr) (status : Z).

(** The files that can be opened, and whether one could not. *)
Definition opened (files : list (cstr * option input)) : list (cstr * input) * bool :=
  (omap (fun '(name, f) => pair name <$> f) files, existsb (fun '(_, f) => bool_decide (f = None)) files).

(** from_top, COUNT_BYTES and count; [None]: a number is none. *)
Definition tail_options (str_c str_n : option cstr) : option (bool * bool * Z) :=
  let num o := match eat_num <$> o with Some (XOk n, top) => Some (Some n, top) | Some _ => None | None => Some (None, false) end in
  c ← num str_c;
  n ← num str_n;
  Some (snd c || snd n, bool_decide (is_Some str_c), default (default 10 (fst c)) (fst n)).

(** Up to -f; [files]: the operands, or "standard input". *)
Definition tail_main (BUFSIZ : Z) (str_c str_n : option cstr) (files : list (cstr * option input)) : tail_end :=
  match tail_options str_c str_n with
  | None => BadNumber
  | Some (from_top, count_bytes, count) =>
      let '(inputs, missing) := opened files in
      match inputs with
      | [] => NoFiles
      | _ =>
          match tail_files BUFSIZ from_top count_bytes count (1 <? length inputs)%nat true (tailbufsize BUFSIZ from_top count_bytes count) inputs with
          | None => OutOfBounds
          | Some (text, err) => Shown text (b2z (missing || err))
          end
      end
  end.

(** ** head *)

(** [print_first_N]. *)
Fixpoint print_first_N (data : cstr) (count : Z) : cstr :=
  if count =? 0 then []
  else match data with
       | [] => []
       | c :: data => c :: print_first_N data (if (c ≟ NL)%cc then count - 1 else count)
       end.

Definition bb_msg_standard_input : cstr := lit "standard input".

Fixpoint head_files (many first : bool) (count : Z) (files : list (cstr * option cstr)) : cstr * Z :=
  match files with
  | [] => ([], 0)
  | (name, f) :: files =>
      let shown := match f with
                   | Some data => (if first && negb many then [] else header first (if bool_decide (name = lit "-") then bb_msg_standard_input else name)) ++
                                  print_first_N data count
                   | None => []
                   end in
      let '(text, status) := head_files many false count files in
      (shown ++ text, if f then status else 1)
  end.

(** [None]: the number is none, and the program dies. *)
Definition head_main (str_n : option cstr) (files : list (cstr * option cstr)) : option (cstr * Z) :=
  match default (XOk 10) ((fun s => xatou_sfx 32 s (Some bkm_suffixes)) <$> str_n) with
  | XOk count => Some (head_files (1 <? length files)%nat true count files)
  | _ => None
  end.

(** ** Lines *)

(** With their newlines. *)
Fixpoint lines (s : cstr) : list cstr :=
  match s with
  | [] => []
  | c :: s => if (c ≟ NL)%cc then [c] :: lines s
              else match lines s with [] => [[c]] | l :: ls => (c :: l) :: ls end
  end.

Definition last_n {A} (n : nat) (l : list A) : list A := drop (length l - n) l.

(** What tail shows of a file. *)
Definition tail_of (from_top count_bytes : bool) (count : Z) (data : cstr) : cstr :=
  let n := Z.to_nat count in
  match from_top, count_bytes with
  | true, true => drop (n - 1) data
  | true, false => concat (drop (n - 1) (lines data))
  | false, true => last_n n data
  | false, false => concat (last_n n (lines data))
  end.

(** With the headers. *)
Fixpoint tails (from_top count_bytes : bool) (count : Z) (many first : bool) (files : list (cstr * input)) : cstr :=
  match files with
  | [] => []
  | (name, i) :: files =>
      (if many then header first name else []) ++ tail_of from_top count_bytes count (i_data i) ++
      tails from_top count_bytes count many false files
  end.

(** Files of less than 1 GB; of those that can be seeked the last lines are looked
    for in a part of the file that is large enough only if lines are below 64 KB. *)
Definition fits (from_top count_bytes : bool) (i : input) : Prop :=
  Z.of_nat (length (i_data i)) < 2 ^ 30 /\
  (from_top = false -> count_bytes = false -> i_seekable i = true -> Forall (fun l => Z.of_nat (length l) < 2 ^ 16) (lines (i_data i))).

(** [full_read] failed.  Of a file that can be seeked and whose last bytes are shown, the error is
    [bb_copyfd_size]'s and is not counted. *)
Definition read_failed (from_top count_bytes : bool) (i : input) : bool :=
  i_error i && (from_top || negb count_bytes || (seek_end i <=? 0)).

Definition ends_nl (s : cstr) : Prop := s = [] \/ last s = Some NL.

(** ** Lines *)

Lemma concat_lines s : concat (lines s) = s.
Proof.
  induction s as [|c s IH]; [done|]. cbn [lines]. destruct (Ascii.eqb_spec c NL) as [->|Hc]; [cbn; by rewrite IH|].
  destruct (lines s) as [|l ls]; cbn in *; by rewrite <- IH.
Qed.

Lemma lines_nil s : lines s = [] -> s = [].
Proof. intros E. rewrite <- (concat_lines s), E. done. Qed.

Lemma lines_nonempty s : Forall (fun l => l <> []) (lines s).
Proof.
  induction s as [|c s IH]; cbn [lines]; [constructor|]. destruct (c ≟ NL)%cc; [by constructor|].
  destruct (lines s) as [|l ls]; [by repeat constructor|]. apply Forall_cons in IH as [_ IH]. by constructor.
Qed.

Lemma lines_drop s : forall d, lines (concat (drop d (lines s))) = drop d (lines s).
Proof.
  induction s as [|c s IH]; intros d; [by destruct d|]. destruct d as [|d]; [by rewrite drop_0, concat_lines|].
  cbn [lines]. destruct (c ≟ NL)%cc; [apply IH|]. specialize (IH (S d)). destruct (lines s) as [|l ls]; [by destruct d|exact IH].
Qed.

Lemma take_lines_nl s : forall d, (d < length (lines s))%nat -> ends_nl (concat (take d (lines s))).
Proof.
  induction s as [|c s IH]; intros [|d] Hd; [by left|cbn in Hd; lia|by left|]. right. cbn [lines] in *.
  destruct (Ascii.eqb_spec c NL) as [->|Hc].
  - cbn [length] in Hd. cbn. destruct (IH d ltac:(lia)) as [->|E]; [done|]. by rewrite last_cons, E.
  - destruct (lines s) as [|l ls] eqn:El; [cbn in Hd; lia|]. destruct (IH (S d) Hd) as [E|E].
    + pose proof (lines_nonempty s) as Hn. rewrite El in Hn. apply Forall_cons in Hn as [Hn _]. cbn in E. by destruct l.
    + cbn in *. by rewrite last_cons, E.
Qed.

Lemma lines_app a b : ends_nl a -> lines (a ++ b) = lines a ++ lines b.
Proof.
  induction a as [|c a IH]; [done|]. intros [?|E]; [done|]. rewrite last_cons in E. cbn [app lines].
  destruct (Ascii.eqb_spec c NL) as [->|Hc].
  - rewrite IH; [done|]. destruct (last a) eqn:Ea; [right; congruence|left; by apply last_None].
  - destruct (last a) as [x|] eqn:Ea; [|congruence]. rewrite IH by (right; congruence).
    destruct (lines a) as [|l ls] eqn:El; [|done]. apply lines_nil in El. by subst.
Qed.

Lemma length_lines_app a b : (length (lines a) <= length (lines (a ++ b)))%nat.
Proof.
  induction a as [|c a IH]; [cbn; lia|]. cbn [app lines]. destruct (c ≟ NL)%cc; [cbn; lia|].
  destruct (lines a), (lines (a ++ b)); cbn in *; lia.
Qed.

Lemma newlines_cons c s : newlines (c :: s) = b2z (c ≟ NL)%cc + newlines s.
Proof. unfold newlines. rewrite filter_cons. destruct (Ascii.eqb_spec c NL); [rewrite decide_True by done; cbn [length b2z]; lia|by rewrite decide_False]. Qed.

Lemma newlines_app a b : newlines (a ++ b) = newlines a + newlines b.
Proof. unfold newlines. rewrite filter_app, length_app. lia. Qed.

Lemma newlines_bound s : 0 <= newlines s <= Z.of_nat (length s).
Proof. unfold newlines. pose proof (length_filter (fun c => c = NL) s). lia. Qed.

Lemma length_lines s : Z.of_nat (length (lines s)) = newlines s + match last s with Some c => b2z (negb (c ≟ NL)%cc) | None => 0 end.
Proof.
  induction s as [|c s IH]; [done|]. rewrite newlines_cons, last_cons. cbn [lines]. destruct (Ascii.eqb_spec c NL) as [->|Hc]; cbn [b2z].
  - cbn [length]. destruct (last s) eqn:El; [lia|]. cbn. lia.
  - destruct (lines s) as [|l ls] eqn:E.
    + apply lines_nil in E. subst. cbn. destruct (Ascii.eqb_spec c NL); done.
    + cbn [length] in *. destruct (last s) eqn:El; [lia|]. apply last_None in El. by subst.
Qed.

Lemma last_n_app {A} n (a b : list A) : (n <= length b)%nat -> last_n n (a ++ b) = last_n n b.
Proof. intros Hn. unfold last_n. rewrite length_app, drop_app_ge by lia. f_equal. lia. Qed.

(** The last lines depend on the last lines of what came before only. *)
Lemma last_lines_app n p c : (0 < n)%nat ->
  concat (last_n n (lines (p ++ c))) = concat (last_n n (lines (concat (last_n n (lines p)) ++ c))).
Proof.
  intros Hn. set (d := (length (lines p) - n)%nat). unfold last_n at 3. fold d. destruct (decide (d = 0%nat)) as [->|Hd].
  - by rewrite drop_0, concat_lines.
  - rewrite <- (concat_lines p) at 1. rewrite <- (take_drop d (lines p)) at 1. rewrite concat_app, <- app_assoc, lines_app by (apply take_lines_nl; lia).
    rewrite last_n_app; [done|]. etrans; [|apply length_lines_app]. rewrite lines_drop, length_drop. lia.
Qed.

Lemma skip_lines_spec s : forall k, 0 <= k <= newlines s -> skip_lines k s = Some (concat (drop (Z.to_nat k) (lines s))).
Proof.
  induction s as [|c s IH]; intros k Hk; cbn [skip_lines].
  - change (newlines []) with 0 in Hk. assert (k = 0) as -> by lia. done.
  - destruct (Z.eqb_spec k 0) as [->|Hk0]; [by rewrite drop_0, concat_lines|]. rewrite newlines_cons in Hk. cbn [lines]. revert Hk.
    destruct (Ascii.eqb_spec c NL) as [->|Hc]; cbn [b2z]; intros Hk.
    + rewrite IH by lia. replace (Z.to_nat k) with (S (Z.to_nat (k - 1))) by lia. done.
    + rewrite IH by lia. replace (Z.to_nat k) with (S (Z.to_nat (k - 1))) by lia.
      destruct (lines s) as [|l ls] eqn:E; [|done]. cbn; by rewrite drop_nil.
Qed.

(** ** The loop over the reads *)

Section Loop.
Context (BUFSIZ : Z) (HB : 0 < BUFSIZ < 2 ^ 20).
Context (from_top count_bytes : bool) (count : Z) (Hcount : 0 <= count < 2 ^ 30).

(** What holds when [p] has been read. *)
Definition inv (p : cstr) (t : tail_state) : Prop :=
  BUFSIZ <= t_size t < 2 ^ 32 /\
  match from_top, count_bytes with
  | true, true => t_buf t = [] /\ t_out t = drop (Z.to_nat (count - 1)) p /\
      (if seen t <? count then seen t = 1 + Z.of_nat (length p) else count <= 1 + Z.of_nat (length p))
  | true, false => t_buf t = [] /\
      (if seen t <? count then seen t = 1 + newlines p /\ t_out t = [] else skip_lines (Z.max 0 (count - 1)) p = Some (t_out t))
  | false, true => t_buf t = last_n (Z.to_nat count) p /\ count + BUFSIZ <= t_size t
  | false, false => t_buf t = concat (last_n (Z.to_nat count) (lines p)) /\ newlines_seen t = newlines (t_buf t) /\
      (count = 0 \/ Z.of_nat (length (t_buf t)) + BUFSIZ <= t_size t)
  end.

Lemma skip_lines_app s : forall k r u, skip_lines k s = Some r -> skip_lines k (s ++ u) = Some (r ++ u).
Proof.
  induction s as [|c s IH]; intros k r u; cbn [skip_lines app].
  - destruct (k =? 0) eqn:E; [|done]. intros [= <-]. cbn. destruct u; cbn [skip_lines]; by rewrite E.
  - destruct (k =? 0); [by intros [= <-]|apply IH].
Qed.

Lemma skip_lines_more s : forall k u, newlines s < k -> skip_lines k (s ++ u) = skip_lines (k - newlines s) u.
Proof.
  induction s as [|c s IH]; intros k u Hk.
  - cbn. f_equal. change (newlines []) with 0. lia.
  - rewrite newlines_cons in *. pose proof (newlines_bound s) as Hs. cbn [skip_lines app]. revert Hk.
    destruct (Ascii.eqb_spec c NL) as [->|Hc]; cbn [b2z]; intros Hk; (destruct (Z.eqb_spec k 0); [lia|]); rewrite IH by lia; f_equal; lia.
Qed.

Lemma pass_lines_spec s : forall n, 0 <= n < count ->
  pass_lines count s n = if n + newlines s <? count then ([], n + newlines s)
                         else (default [] (skip_lines (count - n) s), count).
Proof.
  induction s as [|c s IH]; intros n Hn; cbn [pass_lines].
  - change (newlines []) with 0. destruct (Z.ltb_spec (n + 0) count); [f_equal; lia|lia].
  - rewrite newlines_cons. pose proof (newlines_bound s) as Hs. cbn [skip_lines]. destruct (Z.eqb_spec (count - n) 0); [lia|].
    destruct (Ascii.eqb_spec c NL) as [->|Hc]; cbn [b2z].
    + rewrite wrapU_id by (unfold is_u; lia). destruct (Z.eqb_spec (n + 1) count) as [E|E].
      * destruct (Z.ltb_spec (n + (1 + newlines s)) count); [lia|]. replace (count - n - 1) with 0 by lia. f_equal; [|lia]. by destruct s.
      * rewrite IH by lia. replace (n + 1 + newlines s) with (n + (1 + newlines s)) by lia. replace (count - (n + 1)) with (count - n - 1) by lia. done.
    + rewrite IH by lia. by replace (n + (0 + newlines s)) with (n + newlines s) by lia.
Qed.

Lemma from_top_bytes p t chunk : from_top = true -> count_bytes = true -> inv p t -> Z.of_nat (length (p ++ chunk)) < 2 ^ 30 ->
  exists t', tail_step BUFSIZ from_top count_bytes count t chunk = Some t' /\ inv (p ++ chunk) t'.
Proof using Hcount HB.
  unfold inv, tail_step. intros -> -> (Hsz & Hb & Ho & Hs) Hl. rewrite length_app in Hl. unfold from_top_step.
  destruct (Z.ltb_spec (seen t) count) as [Hlt|Hge].
  - rewrite wrapS_id by (unfold is_s; lia). rewrite (wrapU_id 32 (seen t + _)) by (unfold is_u; lia).
    destruct (Z.leb_spec (Z.of_nat (length chunk) - (count - seen t)) 0).
    + eexists. split; [done|]. cbn. split_and!; [lia|lia|done| |].
      * rewrite Ho, !drop_ge; [done|rewrite length_app; lia|lia].
      * rewrite length_app. destruct (Z.ltb_spec (seen t + Z.of_nat (length chunk)) count); lia.
    + destruct (Z.ltb_spec (Z.of_nat (length chunk)) (Z.of_nat (length chunk) - (count - seen t))); [lia|].
      eexists. split; [done|]. cbn. split_and!; [lia|lia|done| |].
      * rewrite Ho, drop_ge by lia. cbn. rewrite drop_app_ge by lia. f_equal. lia.
      * rewrite length_app. destruct (Z.ltb_spec (seen t + Z.of_nat (length chunk)) count); lia.
  - eexists. split; [done|]. cbn. split_and!; [lia|lia|done| |].
    + rewrite Ho, drop_app_le by lia. done.
    + destruct (Z.ltb_spec (seen t) count); [lia|]. rewrite length_app. lia.
Qed.

Lemma from_top_lines p t chunk : from_top = true -> count_bytes = false -> inv p t ->
  exists t', tail_step BUFSIZ from_top count_bytes count t chunk = Some t' /\ inv (p ++ chunk) t'.
Proof using Hcount HB.
  unfold inv, tail_step. intros -> -> (Hsz & Hb & Hs). unfold from_top_step. pose proof (newlines_bound p) as Hp.
  destruct (Z.ltb_spec (seen t) count) as [Hlt|Hge].
  - destruct Hs as [Hs Ho]. pose proof (newlines_bound chunk) as Hc. rewrite pass_lines_spec by lia.
    destruct (Z.ltb_spec (seen t + newlines chunk) count).
    + eexists. split; [done|]. cbn. split_and!; [lia|lia|done|]. destruct (Z.ltb_spec (seen t + newlines chunk) count); [|lia].
      rewrite newlines_app, app_nil_r. split; [lia|done].
    + eexists. split; [done|]. cbn. split_and!; [lia|lia|done|]. destruct (Z.ltb_spec count count); [lia|].
      rewrite skip_lines_more, Z.max_r by lia. replace (count - 1 - newlines p) with (count - seen t) by lia.
      rewrite skip_lines_spec by lia. cbn. by rewrite Ho.
  - eexists. split; [done|]. cbn. split_and!; [lia|lia|done|]. destruct (Z.ltb_spec (seen t) count); [lia|]. by apply skip_lines_app.
Qed.

Lemma last_n_last_n {A} n (p c : list A) : last_n n (p ++ c) = last_n n (last_n n p ++ c).
Proof.
  unfold last_n. rewrite !length_app, length_drop. destruct (decide (length p <= n)%nat) as [Hle|Hgt].
  - replace (length p - n)%nat with 0%nat by lia. rewrite drop_0. f_equal. lia.
  - destruct (decide (length c <= n)%nat).
    + rewrite !drop_app_le by (rewrite ?length_drop; lia). rewrite drop_drop. do 2 f_equal. lia.
    + rewrite !drop_app_ge by (rewrite ?length_drop; lia). f_equal. rewrite length_drop. lia.
Qed.

Lemma length_last_n {A} n (l : list A) : (length (last_n n l) <= n)%nat /\ (length (last_n n l) <= length l)%nat.
Proof. unfold last_n. rewrite length_drop. lia. Qed.

Lemma bytes_shown p t chunk : from_top = false -> count_bytes = true -> inv p t -> Z.of_nat (length (p ++ chunk)) < 2 ^ 30 ->
  exists t', tail_step BUFSIZ from_top count_bytes count t chunk = Some t' /\ inv (p ++ chunk) t'.
Proof using Hcount HB.
  unfold inv, tail_step. intros -> -> (Hsz & Hb & Hroom) Hl. rewrite length_app in Hl. destruct (Z.eqb_spec count 0) as [H0|H0].
  - exists t. split; [done|]. rewrite Hb, H0. unfold last_n. split_and!; [lia..| |lia].
    rewrite !drop_ge; [done|cbn; rewrite ?length_app; lia|cbn; lia].
  - unfold bytes_step. set (b := t_buf t ++ chunk). rewrite wrapS_id by (unfold is_s; lia).
    assert (last_n (Z.to_nat count) (p ++ chunk) = last_n (Z.to_nat count) b) as E by (unfold b; rewrite Hb; apply last_n_last_n).
    destruct (Z.ltb_spec count (Z.of_nat (length b))).
    + destruct (Z.leb_spec count (Z.of_nat (length b))); [|lia]. eexists. split; [done|]. cbn. rewrite E. split_and!; [lia..| |lia].
      unfold last_n. f_equal. lia.
    + eexists. split; [done|]. cbn. rewrite E. split_and!; [lia..| |lia]. unfold last_n. by replace (length b - Z.to_nat count)%nat with 0%nat by lia.
Qed.

Lemma split_lines n b : b = concat (take (length (lines b) - n) (lines b)) ++ concat (last_n n (lines b)).
Proof. unfold last_n. by rewrite <- concat_app, take_drop, concat_lines. Qed.

Lemma length_last_lines n b : (length (concat (last_n n (lines b))) <= length b)%nat.
Proof. rewrite (split_lines n b) at 2. rewrite length_app. lia. Qed.

(** Skipping down to [n] lines. *)
Lemma skip_to n b : (0 < n)%nat -> Z.of_nat n <= newlines b ->
  let b' := concat (last_n n (lines b)) in
  skip_lines (Z.of_nat (length (lines b)) - Z.of_nat n) b = Some b' /\
  newlines b' = Z.of_nat n - match last b with Some c => b2z (negb (c ≟ NL)%cc) | None => 0 end.
Proof.
  intros Hn Hb b'. pose proof (length_lines b) as Hl.
  assert (0 <= match last b with Some c => b2z (negb (c ≟ NL)%cc) | None => 0 end <= 1) as He by (destruct (last b) as [c|]; [destruct (c ≟ NL)%cc; cbn; lia|lia]).
  split.
  - rewrite skip_lines_spec by lia. unfold b', last_n. do 3 f_equal. lia.
  - assert (lines b' = last_n n (lines b)) as E by apply lines_drop. pose proof (length_lines b') as Hl'. rewrite E in Hl'.
    assert (length (last_n n (lines b)) = n) as En by (unfold last_n; rewrite length_drop; lia). rewrite En in Hl'.
    assert (last b = last b') as ->; [|lia]. pose proof (split_lines n b) as Hs. apply (f_equal last) in Hs. fold b' in Hs. rewrite last_app in Hs.
    destruct (last b') as [c|] eqn:El; [done|]. apply last_None in El. rewrite El in E. cbn in E. rewrite <- E in En. cbn in En. lia.
Qed.

Lemma lines_shown p t chunk : from_top = false -> count_bytes = false -> chunk <> [] -> inv p t -> Z.of_nat (length (p ++ chunk)) < 2 ^ 30 ->
  exists t', tail_step BUFSIZ from_top count_bytes count t chunk = Some t' /\ inv (p ++ chunk) t'.
Proof using Hcount HB.
  unfold inv, tail_step. intros -> -> Hne (Hsz & Hb & Hnl & Hroom) Hl. destruct (Z.eqb_spec count 0) as [H0|H0].
  { exists t. split; [done|]. assert (forall q, concat (last_n (Z.to_nat count) (lines q)) = []) as Hnil.
    { intros q. unfold last_n. by rewrite drop_ge by lia. }
    rewrite Hnil. rewrite Hnil in Hb. split_and!; [lia..|done|done|by left]. }
  unfold lines_step. set (b := t_buf t ++ chunk).
  assert (concat (last_n (Z.to_nat count) (lines (p ++ chunk))) = concat (last_n (Z.to_nat count) (lines b))) as E.
  { unfold b. rewrite Hb. apply last_lines_app. lia. }
  assert (Z.of_nat (length b) < 2 ^ 30) as Hlb.
  { unfold b. rewrite Hb. rewrite length_app in *. pose proof (length_last_lines (Z.to_nat count) p). lia. }
  assert (newlines_seen t + newlines chunk = newlines b) as -> by (unfold b; by rewrite newlines_app, Hnl).
  assert (match last b with Some c => b2z (negb (c ≟ NL)%cc) | None => 0 end = b2z (negb (default NUL (last chunk) ≟ NL)%cc)) as He.
  { unfold b. rewrite last_app. destruct (last chunk) as [c|] eqn:Ec; [done|]. by apply last_None in Ec. }
  set (extra := b2z _) in *. assert (0 <= extra <= 1) by (unfold extra; destruct (_ ≟ _)%cc; cbn; lia).
  pose proof (length_lines b) as Hlines. rewrite He in Hlines. pose proof (newlines_bound b) as Hnb.
  assert (forall b' : cstr, Z.of_nat (length b') < 2 ^ 30 -> let g := if t_size t <? wrapU 32 (Z.of_nat (length b') + BUFSIZ) then wrapU 32 (Z.of_nat (length b') + BUFSIZ) else t_size t in
    BUFSIZ <= g < 2 ^ 32 /\ Z.of_nat (length b') + BUFSIZ <= g) as Hgrown.
  { intros b' Hb'. cbv zeta. rewrite wrapU_id by (unfold is_u; lia). destruct (Z.ltb_spec (t_size t) (Z.of_nat (length b') + BUFSIZ)); lia. }
  rewrite (wrapS_id 32 count) by (unfold is_s; lia). destruct (Z.ltb_spec (newlines b) count) as [Hlt|Hge].
  - eexists. split; [done|]. cbn. destruct (Hgrown b Hlb). rewrite E.
    assert (last_n (Z.to_nat count) (lines b) = lines b) as -> by (unfold last_n; by replace (length (lines b) - Z.to_nat count)%nat with 0%nat by lia).
    rewrite concat_lines. split_and!; [lia..|done|done|by right].
  - destruct (skip_to (Z.to_nat count) b ltac:(lia) ltac:(lia)) as [Hskip Hn]. rewrite He in Hn.
    set (b' := concat (last_n (Z.to_nat count) (lines b))) in *.
    replace (wrapS 32 (newlines b + extra - count)) with (Z.of_nat (length (lines b)) - Z.of_nat (Z.to_nat count)) by (rewrite wrapS_id by (unfold is_s; lia); lia).
    rewrite Hskip. eexists. split; [done|]. cbn [t_buf t_size seen newlines_seen t_out].
    assert (Z.of_nat (length b') < 2 ^ 30) as Hb' by (unfold b'; pose proof (length_last_lines (Z.to_nat count) b); lia).
    destruct (Hgrown b' Hb'). rewrite E, Hn. split_and!; [lia..|done| |by right]. rewrite wrapS_id by (unfold is_s; lia). lia.
Qed.

Lemma step_inv p t chunk : chunk <> [] -> inv p t -> Z.of_nat (length (p ++ chunk)) < 2 ^ 30 ->
  exists t', tail_step BUFSIZ from_top count_bytes count t chunk = Some t' /\ inv (p ++ chunk) t'.
Proof using Hcount HB.
  intros. assert ((from_top = true \/ from_top = false) /\ (count_bytes = true \/ count_bytes = false)) as [[Et|Et] [Ec|Ec]] by (by destruct from_top, count_bytes; auto).
  - by apply from_top_bytes.
  - by apply from_top_lines.
  - by apply bytes_shown.
  - by apply lines_shown.
Qed.

(** There is room for a read. *)
Lemma room p t : inv p t -> Z.of_nat (length (t_buf t)) < t_size t.
Proof using Hcount HB.
  unfold inv. intros [Hs H]. destruct from_top, count_bytes.
  - destruct H as [-> _]. cbn. lia.
  - destruct H as [-> _]. cbn. lia.
  - destruct H as [-> H]. pose proof (length_last_n (Z.to_nat count) p). lia.
  - destruct H as (Hb & _ & [->|H]); [|lia]. rewrite Hb. unfold last_n. rewrite drop_ge by (cbn; lia). cbn. lia.
Qed.

(** Whatever the sizes of the reads. *)
Lemma loop_inv fuel : forall p t data, inv p t -> (length data < fuel)%nat -> Z.of_nat (length (p ++ data)) < 2 ^ 30 ->
  exists t', tail_loop BUFSIZ from_top count_bytes count fuel data t = Some t' /\ inv (p ++ data) t'.
Proof using Hcount HB.
  induction fuel as [|f IH]; intros p t data Hi Hf Hl; [lia|]. cbn [tail_loop].
  pose proof (room p t Hi) as Hr. assert (t_size t < 2 ^ 32) by (by destruct Hi as [[_ ?] _]).
  set (n := Z.to_nat _). assert (0 < n)%nat as Hn by (unfold n; rewrite wrapU_id by (unfold is_u; lia); lia).
  destruct (take n data) as [|c chunk] eqn:E.
  - exists t. split; [done|]. assert (data = []) as ->; [|by rewrite app_nil_r].
    apply (f_equal length) in E. rewrite length_take in E. cbn in E. destruct data; [done|cbn in E; lia].
  - assert (data = (c :: chunk) ++ drop n data) as Hd by (rewrite <- E; by rewrite take_drop).
    assert (length (drop n data) < length data)%nat as Hs by (rewrite length_drop; destruct data; [by destruct n|cbn [length]; lia]).
    rewrite Hd, app_assoc in Hl. rewrite length_app in Hl.
    destruct (step_inv p t (c :: chunk)) as (t' & Ht & Hi'); [done|done|lia|].
    destruct (IH (p ++ c :: chunk) t' (drop n data) Hi' ltac:(lia)) as (u & Hu & Hiu); [rewrite length_app; lia|].
    exists u. unfold mbind, option_bind. rewrite Ht. split; [done|]. by rewrite <- app_assoc, <- Hd in Hiu.
Qed.
(** ** A file *)

(** The size of the buffer between the files. *)
Definition size_ok (size : Z) : Prop :=
  BUFSIZ <= size < 2 ^ 32 /\ (from_top = false -> count_bytes = true -> count + BUFSIZ <= size).

Lemma inv_start size : size_ok size -> inv [] (mk_t [] size 1 0 []).
Proof using Hcount HB.
  intros [Hs Hr]. unfold inv. cbn [t_buf t_size seen newlines_seen t_out]. split; [done|].
  destruct from_top, count_bytes.
  - rewrite drop_nil. cbn. destruct (Z.ltb_spec 1 count); split_and!; [done..|lia].
  - change (newlines []) with 0. destruct (Z.ltb_spec 1 count); [done|]. by rewrite Z.max_l by lia.
  - split; [by unfold last_n; rewrite drop_nil|auto].
  - unfold last_n. cbn [lines length]. rewrite drop_nil. change (newlines []) with 0. split_and!; [done..|cbn; right; lia].
Qed.

Lemma inv_size p t : inv p t -> size_ok (t_size t).
Proof using. unfold inv, size_ok. intros [Hs H]. split; [done|]. intros Et Ec. rewrite Et, Ec in H. by destruct H. Qed.

Lemma skip_lines_result k s r : 0 <= k -> skip_lines k s = Some r -> r = concat (drop (Z.to_nat k) (lines s)).
Proof using.
  intros Hk H. destruct (decide (k <= newlines s)) as [Hle|Hgt]; [rewrite skip_lines_spec in H by lia; congruence|].
  pose proof (skip_lines_more s k [] ltac:(lia)) as E. rewrite app_nil_r, H in E. cbn in E. destruct (Z.eqb_spec (k - newlines s) 0); [lia|done].
Qed.

Lemma inv_result p t : inv p t -> (if from_top then t_out t else t_buf t) = tail_of from_top count_bytes count p.
Proof using Hcount.
  unfold inv, tail_of. intros [_ H]. destruct from_top, count_bytes.
  - destruct H as (_ & -> & _). f_equal. lia.
  - destruct H as [_ H]. destruct (Z.ltb_spec (seen t) count).
    + destruct H as [Hs ->]. pose proof (length_lines p) as Hl. pose proof (newlines_bound p).
      assert (match last p with Some c => b2z (negb (c ≟ NL)%cc) | None => 0 end <= 1) by (destruct (last p) as [c|]; [destruct (c ≟ NL)%cc; cbn|]; lia).
      by rewrite drop_ge by lia.
    + apply skip_lines_result in H; [|lia]. rewrite H. do 2 f_equal. lia.
  - by destruct H.
  - by destruct H.
Qed.

(** The end of a file has the file's last lines, the first of which may be cut. *)
Lemma lines_app_tail a b h ls : lines b = h :: ls -> exists pre l, lines (a ++ b) = pre ++ l :: ls /\ (length h <= length l)%nat.
Proof using.
  intros Hb. induction a as [|c a (pre & l & E & Hl)]; [by exists [], h|]. cbn [app lines]. destruct (c ≟ NL)%cc.
  - exists ([c] :: pre), l. by rewrite E.
  - rewrite E. destruct pre as [|x pre]; [exists [], (c :: l); cbn; split; [done|lia]|by exists ((c :: x) :: pre), l].
Qed.

Lemma length_concat_lines k (ls : list cstr) : 0 <= k -> Forall (fun l => Z.of_nat (length l) <= k) ls -> Z.of_nat (length (concat ls)) <= k * Z.of_nat (length ls).
Proof using. intros Hk. induction 1 as [|l ls Hl H IH]; [cbn; lia|]. cbn [concat length]. rewrite length_app. nia. Qed.

(** What is read of the file is enough. *)
Lemma last_lines_suffix n (off : Z) a b : 0 < off -> Z.of_nat n <= off -> Z.of_nat (length b) = off * 2 ^ 16 ->
  Forall (fun l => Z.of_nat (length l) < 2 ^ 16) (lines (a ++ b)) -> last_n n (lines (a ++ b)) = last_n n (lines b).
Proof using.
  intros H0 Hn Hb Hl. destruct (lines b) as [|h ls] eqn:E; [apply lines_nil in E; subst; cbn in Hb; lia|].
  destruct (lines_app_tail a b h ls E) as (pre & l & Ea & Hh). rewrite Ea in *.
  apply Forall_app in Hl as [_ Hl]. apply Forall_cons in Hl as [Hl Hls].
  assert (Z.of_nat (length (concat (lines b))) <= (2 ^ 16 - 1) * Z.of_nat (length (lines b))) as Hc.
  { apply length_concat_lines; [lia|]. rewrite E. constructor; [lia|]. eapply Forall_impl; [exact Hls|]. cbn. intros. lia. }
  rewrite concat_lines, E in Hc. cbn [length] in Hc.
  change (pre ++ l :: ls) with (pre ++ [l] ++ ls). change (h :: ls) with ([h] ++ ls). rewrite app_assoc, !last_n_app by lia. done.
Qed.

Lemma seek_lines_enough data : Z.of_nat (length data) < 2 ^ 30 -> Forall (fun l => Z.of_nat (length l) < 2 ^ 16) (lines data) ->
  last_n (Z.to_nat count) (lines (drop (Z.to_nat (seek_lines count (Z.of_nat (length data)))) data)) = last_n (Z.to_nat count) (lines data).
Proof using Hcount.
  intros Hl Hls. unfold seek_lines, INT_MAX.
  set (off := Z.lor count 15). assert (count <= off /\ 15 <= off) as [Hc H15] by (unfold off; split; [|rewrite Z.lor_comm]; apply lor_ge; lia).
  set (off' := if (2 ^ 31 - 1) / (64 * 1024) <? off then (2 ^ 31 - 1) / (64 * 1024) else off).
  change ((2 ^ 31 - 1) / (64 * 1024)) with 32767 in *.
  assert (0 < off' <= 32767) as Ho by (unfold off'; destruct (Z.ltb_spec 32767 off); lia).
  rewrite wrapU_id by (unfold is_u; lia). destruct (Z.leb_spec (Z.of_nat (length data)) (off' * (64 * 1024))).
  - rewrite Z.max_l by lia. by rewrite drop_0.
  - rewrite Z.max_r by lia. assert (off' = off) as Eo by (unfold off' in *; destruct (Z.ltb_spec 32767 off); lia). rewrite Eo in *.
    set (k := Z.to_nat (Z.of_nat (length data) - _)).
    pose proof (last_lines_suffix (Z.to_nat count) off (take k data) (drop k data)) as E. rewrite take_drop in E.
    symmetry. apply E; [lia..| |done]. rewrite length_drop. unfold k. lia.
Qed.

Lemma tail_file_shows size i : size_ok size -> fits from_top count_bytes i ->
  exists size', tail_file BUFSIZ from_top count_bytes count size i = Some (size', tail_of from_top count_bytes count (i_data i), read_failed from_top count_bytes i) /\ size_ok size'.
Proof using Hcount HB.
  intros Hs [Hlen Hseek]. unfold tail_file. destruct (negb from_top && (0 <? seek_end i) && count_bytes) eqn:Efast.
  - apply andb_true_iff in Efast as [Efast Ec]. apply andb_true_iff in Efast as [Et Ep]. apply negb_true_iff in Et. apply Z.ltb_lt in Ep.
    assert (read_failed from_top count_bytes i = false) as ->.
    { unfold read_failed. rewrite Et, Ec. destruct (Z.leb_spec (seek_end i) 0); [lia|by rewrite andb_false_r]. }
    assert (seek_end i = Z.of_nat (length (i_data i))) as -> by (unfold seek_end in *; destruct (i_seekable i); lia).
    exists size. rewrite Et, Ec. unfold tail_of, last_n. destruct (Z.eqb_spec count 0) as [->|H0].
    + by rewrite drop_ge by (cbn; lia).
    + split; [|done]. do 3 f_equal. rewrite take_ge by (rewrite length_drop; lia). f_equal. lia.
  - set (data := if negb from_top && (0 <? seek_end i) then drop (Z.to_nat (seek_lines count (seek_end i))) (i_data i) else i_data i).
    assert (Z.of_nat (length data) < 2 ^ 30) as Hl by (unfold data; destruct (negb from_top && _); [rewrite length_drop; lia|done]).
    destruct (loop_inv (S (length data)) [] (mk_t [] size 1 0 []) data) as (t & Ht & Hi); [by apply inv_start|lia|done|].
    exists (t_size t). unfold mbind, option_bind. rewrite Ht. split; [|by apply (inv_size ([] ++ data))]. f_equal. apply inv_result in Hi. rewrite Hi. cbn [app].
    assert (i_error i = read_failed from_top count_bytes i) as <-.
    { unfold read_failed. destruct from_top, count_bytes; cbn in *; rewrite ?andb_true_r; try done.
      destruct (Z.ltb_spec 0 (seek_end i)); [done|]. destruct (Z.leb_spec (seek_end i) 0); [by rewrite andb_true_r|lia]. }
    do 2 f_equal. unfold data in *. destruct (negb from_top && (0 <? seek_end i)) eqn:E; [|done].
    apply andb_true_iff in E as [Et Ep]. apply negb_true_iff in Et. cbn [andb] in Efast. rewrite Et, Efast in *.
    unfold tail_of. apply Z.ltb_lt in Ep. destruct (i_seekable i) eqn:Es; [|unfold seek_end in Ep; rewrite Es in Ep; lia].
    unfold seek_end. rewrite Es. f_equal. apply seek_lines_enough; [done|by apply Hseek].
Qed.

Lemma tail_files_shows many files : forall size first, size_ok size -> Forall (fun f => fits from_top count_bytes (snd f)) files ->
  tail_files BUFSIZ from_top count_bytes count many first size files =
    Some (tails from_top count_bytes count many first files, existsb (fun f => read_failed from_top count_bytes (snd f)) files).
Proof using Hcount HB.
  induction files as [|[name i] files IH]; intros size first Hs Hf; [done|]. apply Forall_cons in Hf as [Hi Hf]. cbn [tail_files tails existsb snd].
  destruct (tail_file_shows size i Hs Hi) as (size' & E & Hs'). rewrite E. unfold mbind, option_bind. by rewrite (IH size' false Hs' Hf).
Qed.

Lemma first_size_ok : size_ok (tailbufsize BUFSIZ from_top count_bytes count).
Proof using Hcount HB.
  unfold size_ok, tailbufsize. rewrite wrapU_id by (unfold is_u; lia).
  destruct from_top, count_bytes; cbn [negb andb]; destruct (Z.ltb_spec BUFSIZ (count + BUFSIZ)); split; intros; try lia; done.
Qed.
End Loop.

(** ** The commands *)

(** C36. [tail] shows of every file that can be opened exactly the last lines or
    bytes, or those from a line or byte on, that it was asked for, under a header
    where there are several; whatever the sizes of the reads, of a file that can
    be seeked or of a pipe, and its buffer is never left: counts and files below
    1 GB, and lines below 64 KB where the file can be seeked. *)
Theorem tail_shows (BUFSIZ : Z) (HB : 0 < BUFSIZ < 2 ^ 20) str_c str_n from_top count_bytes count files :
  tail_options str_c str_n = Some (from_top, count_bytes, count) -> 0 <= count < 2 ^ 30 ->
  Forall (fun f => fits from_top count_bytes (snd f)) (fst (opened files)) ->
  tail_main BUFSIZ str_c str_n files =
    match fst (opened files) with
    | [] => NoFiles
    | inputs => Shown (tails from_top count_bytes count (1 <? length inputs)%nat true inputs)
                      (b2z (snd (opened files) || existsb (fun f => read_failed from_top count_bytes (snd f)) inputs))
    end.
Proof.
  intros Ho Hc Hf. unfold tail_main. rewrite Ho. destruct (opened files) as [inputs missing]. cbn [fst snd] in *.
  rewrite tail_files_shows by (try done; by apply first_size_ok). by destruct inputs.
Qed.

Lemma print_first_lines data : forall n, 0 <= n -> print_first_N data n = concat (take (Z.to_nat n) (lines data)).
Proof.
  induction data as [|c data IH]; intros n Hn; cbn [print_first_N lines]; (destruct (Z.eqb_spec n 0) as [->|H0]; [done|]); [by rewrite take_nil|].
  replace (Z.to_nat n) with (S (Z.to_nat (n - 1))) by lia. destruct (Ascii.eqb_spec c NL) as [->|Hc].
  - cbn. by rewrite IH by lia.
  - rewrite IH by lia. replace (Z.to_nat n) with (S (Z.to_nat (n - 1))) by lia. destruct (lines data) as [|l ls]; cbn; by rewrite ?take_nil.
Qed.

(** [head -n N] and [tail -n +M] with M = N + 1 share a file between them:
    what the first prints followed by what the second prints is the file. *)
Theorem head_then_tail (BUFSIZ : Z) (HB : 0 < BUFSIZ < 2 ^ 20) (N M name data : cstr) seekable (n : Z) :
  xatou_sfx 32 N (Some bkm_suffixes) = XOk n -> tail_options None (Some M) = Some (true, false, n + 1) ->
  0 <= n < 2 ^ 30 - 1 -> Z.of_nat (length data) < 2 ^ 30 ->
  exists first rest, head_main (Some N) [(name, Some data)] = Some (first, 0) /\
    tail_main BUFSIZ None (Some M) [(name, Some (mk_in data seekable false))] = Shown rest 0 /\ first ++ rest = data.
Proof.
  intros HN HM Hn Hl. exists (print_first_N data n), (tail_of true false (n + 1) data). split_and!.
  - unfold head_main. cbn [default id fmap option_fmap option_map]. rewrite HN. cbn. by rewrite app_nil_r.
  - unfold tail_main. rewrite HM. cbn [opened omap list_omap fmap option_fmap option_map existsb fst snd bool_decide].
    rewrite tail_files_shows; [cbn; by rewrite app_nil_r|done|lia|apply first_size_ok; [done|lia]|].
    constructor; [|done]. by split.
  - rewrite print_first_lines by lia. unfold tail_of. replace (Z.to_nat (n + 1) - 1)%nat with (Z.to_nat n) by lia.
    by rewrite <- concat_app, take_drop, concat_lines.
Qed.

(** ** Examples *)

Definition three : cstr := lit "one" ++ [NL] ++ lit "two" ++ [NL] ++ lit "three".

Lemma tail_shows_witness :
  tail_main 1024 None (Some (lit "2")) [(lit "a", Some (mk_in three true false)); (lit "b", None); (lit "c", Some (mk_in (lit "x" ++ [NL]) false true))] =
    Shown (lit "==> a <==" ++ [NL] ++ lit "two" ++ [NL] ++ lit "three" ++ [NL] ++ lit "==> c <==" ++ [NL] ++ lit "x" ++ [NL]) 1.
Proof.
  rewrite (tail_shows 1024 ltac:(lia) None (Some (lit "2")) false false 2).
  - vm_compute. reflexivity.
  - vm_compute. reflexivity.
  - lia.
  - repeat constructor; cbn; try lia; intros; repeat constructor.
Defined.

Lemma head_then_tail_witness :
  exists first rest, head_main (Some (lit "1")) [(lit "f", Some three)] = Some (first, 0) /\
    tail_main 4096 None (Some (lit "+2")) [(lit "f", Some (mk_in three false false))] = Shown rest 0 /\ first ++ rest = three.
Proof. apply (head_then_tail 4096 ltac:(lia) (lit "1") (lit "+2") (lit "f") three false 1); [vm_compute; reflexivity..|lia|cbn; lia]. Defined.

(** More than INT_MAX lines: the number is compared as an int, and newlines that
    are not there are looked for behind the buffer. *)
Example tail_int_max :
  tail_main 1024 None (Some (lit "4294967295")) [(lit "f", Some (mk_in (lit "x") false false))] = OutOfBounds.
Proof. vm_compute. reflexivity. Qed.

(** Of a file of 1 MB that can be seeked, the last 960 KB are looked at for one line. *)
Example seek_one_line : seek_lines 1 (2 ^ 20) = 2 ^ 16.
Proof. reflexivity. Qed.
