(* ===== verification/LineEdit.v ===== *)
(** * libbb/lineedit.c: the line editor

    As configured: one byte is one character (no Unicode), no vi mode, no reverse
    search, no fancy prompt, no resizing and no questions to the terminal; saved
    history.  The state is [lineedit_statics], with the bytes printed so far, and
    the [line_input_t] of the shell, which sets DO_HISTORY and TAB_COMPLETION.
    Keys are what [lineedit_read_key] returns.  The command buffer is its text;
    everything that writes to it compares with [maxsize] first, but for the
    newline at the end, which may be [Overrun]. *)

From Stdlib Require Import Ascii String ZArith Lia Sorted.
From stdpp Require Import base list strings.
From S2P Require Import Prelude Clib LibbbStr.

Local Open Scope Z_scope.

Definition ESC : ascii := "027"%char.
Definition BEL : ascii := "007"%char.
Definition BS : ascii := "008"%char.
Definition DQUOTE : ascii := "034"%char.

Definition SEQ_CLEAR_TILL_END_OF_SCREEN : cstr := ESC :: lit "[J".
Definition MAX_LINELEN : Z := 1024.
Definition MAX_HISTORY : nat := 255.

(** The file of the history: its text (without NULs), if it exists, and what can
    be done to it. *)
Record hist_file := mk_hf { hf_text : option cstr; hf_appendable : bool; hf_replaceable : bool }.

(** [line_input_t]; [history] has MAX_HISTORY + 1 slots. *)
Record line_input := mk_li {
  history : list (option cstr);
  cnt_history : nat; cur_history : nat; max_history : nat;
  cnt_history_in_file : Z;
  file : option hist_file;
}.

Record editor := mk_ed {
  cmdedit_termw : Z; cmdedit_x : Z; cmdedit_y : Z; cmdedit_prmt_len : Z;
  cursor : nat; command_ps : cstr; maxsize : Z;
  cmdedit_prompt : cstr; prompt_last_line : cstr;
  matches : list cstr; last_was_tab : bool;
  state : line_input;
  out : cstr;
}.

Definition command_len (s : editor) : nat := length (command_ps s).
(** [command_ps[i]]. *)
Definition ps_at (s : editor) (i : nat) : ascii := at0 (command_ps s) i.

(** ** The state's parts *)

Definition emit (b : cstr) (s : editor) : editor :=
  mk_ed (cmdedit_termw s) (cmdedit_x s) (cmdedit_y s) (cmdedit_prmt_len s) (cursor s) (command_ps s) (maxsize s)
    (cmdedit_prompt s) (prompt_last_line s) (matches s) (last_was_tab s) (state s) (out s ++ b).
Definition set_xy (x y : Z) (s : editor) : editor :=
  mk_ed (cmdedit_termw s) x y (cmdedit_prmt_len s) (cursor s) (command_ps s) (maxsize s)
    (cmdedit_prompt s) (prompt_last_line s) (matches s) (last_was_tab s) (state s) (out s).
Definition set_cursor (c : nat) (s : editor) : editor :=
  mk_ed (cmdedit_termw s) (cmdedit_x s) (cmdedit_y s) (cmdedit_prmt_len s) c (command_ps s) (maxsize s)
    (cmdedit_prompt s) (prompt_last_line s) (matches s) (last_was_tab s) (state s) (out s).
Definition set_ps (b : cstr) (s : editor) : editor :=
  mk_ed (cmdedit_termw s) (cmdedit_x s) (cmdedit_y s) (cmdedit_prmt_len s) (cursor s) b (maxsize s)
    (cmdedit_prompt s) (prompt_last_line s) (matches s) (last_was_tab s) (state s) (out s).
Definition set_tab (m : list cstr) (t : bool) (s : editor) : editor :=
  mk_ed (cmdedit_termw s) (cmdedit_x s) (cmdedit_y s) (cmdedit_prmt_len s) (cursor s) (command_ps s) (maxsize s)
    (cmdedit_prompt s) (prompt_last_line s) m t (state s) (out s).
Definition set_state (li : line_input) (s : editor) : editor :=
  mk_ed (cmdedit_termw s) (cmdedit_x s) (cmdedit_y s) (cmdedit_prmt_len s) (cursor s) (command_ps s) (maxsize s)
    (cmdedit_prompt s) (prompt_last_line s) (matches s) (last_was_tab s) li (out s).

Fixpoint while (fuel : nat) (cond : editor -> bool) (body : editor -> editor) (s : editor) : editor :=
  match fuel with
  | O => s
  | S f => if cond s then while f cond body (body s) else s
  end.

Definition beep : editor -> editor := emit [BEL].

(** ** Moving and drawing *)

Definition put_cur_glyph_and_inc_cursor (s : editor) : editor :=
  let c := ps_at s (cursor s) in
  let (c, s) := if (c ≟ NUL)%cc then (SP, s)
                else (c, set_xy (wrapU 32 (cmdedit_x s + 1)) (cmdedit_y s) (set_cursor (S (cursor s)) s)) in
  let ofs_to_right := wrapS 32 (cmdedit_x s - cmdedit_termw s) in
  let s := emit [c] s in
  if 0 <=? ofs_to_right then set_xy 0 (wrapU 32 (cmdedit_y s + 1)) (emit [CR; NL] s) else s.

Definition put_till_end_and_adv_cursor (s : editor) : editor :=
  while (command_len s - cursor s) (fun s => (cursor s <? command_len s)%nat) put_cur_glyph_and_inc_cursor s.

Definition goto_new_line (s : editor) : editor :=
  let s := put_till_end_and_adv_cursor s in
  if (cursor s =? 0)%nat || negb (cmdedit_x s =? 0) then emit [NL] s else s.

Definition put_prompt_custom (is_full : bool) (s : editor) : editor :=
  let s := emit (if is_full then cmdedit_prompt s else prompt_last_line s) s in
  set_xy (cmdedit_prmt_len s mod cmdedit_termw s) (cmdedit_prmt_len s / cmdedit_termw s) (set_cursor 0 s).

Definition csi (n : Z) (c : ascii) : cstr := ESC :: "["%char :: fmt_u n ++ [c].

Definition input_backward (num : nat) (s : editor) : editor :=
  let num := Nat.min num (cursor s) in
  if (num =? 0)%nat then s
  else
    let s := set_cursor (cursor s - num) s in
    let num := Z.of_nat num in
    if num <=? cmdedit_x s then
      let s := set_xy (cmdedit_x s - num) (cmdedit_y s) s in
      if num <=? 4 then emit (repeat BS (Z.to_nat num)) s else emit (csi num "D"%char) s
    else
      let num := num - cmdedit_x s in
      let lines_up := 1 + (num - 1) / cmdedit_termw s in
      let x := wrapU 32 (cmdedit_termw s * cmdedit_y s - num) mod cmdedit_termw s in
      let s := set_xy x (wrapU 32 (cmdedit_y s - lines_up)) s in
      let s := emit (CR :: csi lines_up "A"%char) s in
      if x =? 0 then s else emit (csi x "C"%char) s.

Definition draw_custom (y : Z) (back_cursor : nat) (is_full : bool) (s : editor) : editor :=
  let s := if 0 <? y then emit (csi y "A"%char) s else s in
  let s := put_prompt_custom is_full (emit [CR] s) in
  let s := put_till_end_and_adv_cursor s in
  input_backward back_cursor (emit SEQ_CLEAR_TILL_END_OF_SCREEN s).

Definition redraw (y : Z) (back_cursor : nat) : editor -> editor := draw_custom y back_cursor false.
Definition draw_full (back_cursor : nat) : editor -> editor := draw_custom 0 back_cursor true.

Definition input_delete (s : editor) : editor :=
  let j := cursor s in
  if (j =? command_len s)%nat then s
  else
    let s := set_ps (take j (command_ps s) ++ drop (S j) (command_ps s)) s in
    let s := emit SEQ_CLEAR_TILL_END_OF_SCREEN (put_till_end_and_adv_cursor s) in
    input_backward (cursor s - j) s.

Definition input_backspace (s : editor) : editor :=
  if (0 <? cursor s)%nat then input_delete (input_backward 1 s) else s.

Definition input_forward (s : editor) : editor :=
  if (cursor s <? command_len s)%nat then put_cur_glyph_and_inc_cursor s else s.

(** libbb.h's [ispunct]. *)
Definition ispunct (c : ascii) : bool := negb (hd0 (strchrnul (lit "!" ++ DQUOTE :: lit "#$%&'()*+,-./:;<=>?@[\]^_`{|}~") c) ≟ NUL)%cc.

(** What separates words for Ctrl-<arrow>. *)
Definition delimits (c : ascii) : bool := (c ≟ SP)%cc || ispunct c.

Fixpoint ctrl_left_word (fuel : nat) (s : editor) : editor :=
  match fuel with
  | O => s
  | S f =>
      if delimits (ps_at s (cursor s - 1)) then s
      else
        let s := input_backward 1 s in
        if (cursor s =? 0)%nat then s else ctrl_left_word f s
  end.

Fixpoint ctrl_left_loop (fuel : nat) (s : editor) : editor :=
  match fuel with
  | O => s
  | S f =>
      let s := input_backward 1 s in
      if (cursor s =? 0)%nat then s
      else if negb (delimits (ps_at s (cursor s))) then ctrl_left_word (cursor s) s
      else ctrl_left_loop f s
  end.
Definition ctrl_left (s : editor) : editor := ctrl_left_loop (S (cursor s)) s.

Fixpoint ctrl_right_word (fuel : nat) (s : editor) : editor :=
  match fuel with
  | O => s
  | S f =>
      let s := input_forward s in
      let c := ps_at s (cursor s) in
      if (c ≟ NUL)%cc || delimits c then s else ctrl_right_word f s
  end.

Fixpoint ctrl_right_loop (fuel : nat) (s : editor) : editor :=
  match fuel with
  | O => s
  | S f =>
      let c := ps_at s (cursor s) in
      if (c ≟ NUL)%cc then s
      else if negb (delimits c) then ctrl_right_word (S (command_len s - cursor s)) s
      else ctrl_right_loop f (input_forward s)
  end.
Definition ctrl_right (s : editor) : editor := ctrl_right_loop (S (command_len s - cursor s)) s.

(** ** History *)

Definition load_string (src : cstr) (s : editor) : editor := set_ps (safe_strncpy [] src (Z.to_nat (maxsize s))) s.

Definition set_history (h : list (option cstr)) (cnt cur : nat) (in_file : Z) (li : line_input) : line_input :=
  mk_li h cnt cur (max_history li) in_file (file li).

Definition save_command_ps_at_cur_history (s : editor) : editor :=
  match command_ps s with
  | [] => s
  | _ =>
      let li := state s in
      set_state (set_history (<[cur_history li := Some (command_ps s)]> (history li)) (cnt_history li) (cur_history li) (cnt_history_in_file li) li) s
  end.

Definition set_cur (c : nat) (s : editor) : editor :=
  let li := state s in set_state (set_history (history li) (cnt_history li) c (cnt_history_in_file li) li) s.

Definition get_previous_history (s : editor) : editor * bool :=
  if (0 <? cur_history (state s))%nat then
    let s := save_command_ps_at_cur_history s in
    (set_cur (cur_history (state s) - 1) s, true)
  else (beep s, false).

Definition get_next_history (s : editor) : editor * bool :=
  if (cur_history (state s) <? cnt_history (state s))%nat then
    let s := save_command_ps_at_cur_history s in
    (set_cur (S (cur_history (state s))) s, true)
  else (beep s, false).

(** [rewrite_line]: change the command and redraw. *)
Definition rewrite_line (s : editor) : editor :=
  let s := load_string (default [] (default None (history (state s) !! cur_history (state s)))) s in
  redraw (cmdedit_y s) 0 s.

(** [xmalloc_fgetline] until it returns NULL; the last line may lack its newline. *)
Fixpoint fgetlines (t : cstr) : list cstr :=
  match t with
  | [] => []
  | c :: t =>
      if (c ≟ NL)%cc then [] :: fgetlines t
      else match t with
           | [] => [[c]]
           | _ => match fgetlines t with [] => [[c]] | l :: ls => (c :: l) :: ls end
           end
  end.

Definition next_idx (max idx : nat) : nat := if (S idx =? max)%nat then O else S idx.

(** The loop that fills [temp_h[]]; the lines counted. *)
Fixpoint fill_temp (max : nat) (lines : list cstr) (temp_h : list (option cstr)) (idx : nat) (n : Z) : list (option cstr) * nat * Z :=
  match lines with
  | [] => (temp_h, idx, n)
  | [] :: lines => fill_temp max lines temp_h idx n
  | line :: lines => fill_temp max lines (<[idx := Some line]> temp_h) (next_idx max idx) (wrapU 32 (n + 1))
  end.

(** [while (temp_h[idx] == NULL)]. *)
Fixpoint first_line (fuel max : nat) (temp_h : list (option cstr)) (idx : nat) : nat :=
  match fuel with
  | O => idx
  | S f => match default None (temp_h !! idx) with None => first_line f max temp_h (next_idx max idx) | Some _ => idx end
  end.

(** The copying of [temp_h[]]; [todo] is [max_history - i]. *)
Fixpoint copy_temp (todo max : nat) (temp_h : list (option cstr)) (idx : nat) : list cstr :=
  match todo with
  | O => []
  | S n =>
      match default None (temp_h !! idx) with
      | None => []
      | Some line => take (Z.to_nat MAX_LINELEN - 1) line :: copy_temp n max temp_h (next_idx max idx)
      end
  end.

(** [history[]] with its first slots filled. *)
Definition slots (l : list cstr) : list (option cstr) := (Some <$> l) ++ replicate (S MAX_HISTORY - length l) None.

Definition load_history (li : line_input) : line_input :=
  match file li ≫= hf_text with
  | None => li
  | Some text =>
      let max := max_history li in
      let '(temp_h, idx, n) := fill_temp max (fgetlines text) (replicate MAX_HISTORY None) 0 0 in
      let idx := if n =? 0 then idx else first_line max max temp_h idx in
      let h := copy_temp max max temp_h idx in
      (* the slots behind the old entries stay *)
      mk_li ((Some <$> h) ++ drop (length h) (replicate (cnt_history li) None ++ drop (cnt_history li) (history li)))
        (length h) (cur_history li) max n (file li)
  end.

Definition set_text (t : cstr) (f : hist_file) : hist_file := mk_hf (Some t) (hf_appendable f) (hf_replaceable f).

Definition save_history (str : cstr) (li : line_input) : line_input :=
  match file li with
  | None => li
  | Some f =>
      if negb (hf_appendable f) then li
      else
        let f := set_text (default [] (hf_text f) ++ str ++ [NL]) f in
        let n := wrapU 32 (cnt_history_in_file li + 1) in
        if Z.of_nat (max_history li * 4) <? n then
          let temp := load_history (mk_li (replicate (S MAX_HISTORY) None) 0 0 (max_history li) 0 (Some f)) in
          let text := concat ((fun l => default [] l ++ [NL]) <$> take (cnt_history temp) (history temp)) in
          if hf_replaceable f then
            mk_li (history li) (cnt_history li) (cur_history li) (max_history li) (Z.of_nat (cnt_history temp)) (Some (set_text text f))
          else mk_li (history li) (cnt_history li) (cur_history li) (max_history li) n (Some f)
        else mk_li (history li) (cnt_history li) (cur_history li) (max_history li) n (Some f)
  end.

Definition remember_in_history (str : cstr) (li : line_input) : line_input :=
  let i := cnt_history li in
  if bool_decide (str = []) then li
  else if (0 <? i)%nat && bool_decide (history li !! (i - 1)%nat = Some (Some str)) then li
  else
    let h := <[max_history li := None]> (history li) in
    let (h, i) := if (max_history li <=? i)%nat then (drop 1 (take (max_history li) h) ++ drop (max_history li - 1) h, (max_history li - 1)%nat)
                  else (h, i) in
    let h := <[i := Some str]> h in
    save_history str (mk_li h (S i) (S i) (max_history li) (cnt_history_in_file li) (file li)).

(** ** Completion *)

Inductive find_type := FIND_EXE_ONLY | FIND_DIR_ONLY | FIND_FILE_ONLY.
#[export] Instance find_type_eq_dec : EqDecision find_type.
Proof. solve_decision. Defined.

(** What completion looks at: the names of the applets and of the shell's builtins,
    PATH, the entries of a directory, whether a file is a directory ([None]: it
    cannot be found), and the libc's sorting of strings.  Names are short (the
    libc's NAME_MAX is 255). *)
Class Names := {
  applet_names : list cstr;
  get_exe_name : list cstr;
  path_lookup : option cstr;
  readdir : cstr -> option (list cstr);
  stat_dir : cstr -> option bool;
  names_short : Forall (fun n => (length n < 4096)%nat) (applet_names ++ get_exe_name);
  readdir_short : forall d l, readdir d = Some l -> Forall (fun n => (length n < 4096)%nat) l;
  qsort_string_vector : list cstr -> list cstr;
  qsort_string_vector_perm : forall l, qsort_string_vector l ≡ₚ l;
  qsort_string_vector_sorted : forall l, Sorted (fun x y => strcmp x y <= 0) (qsort_string_vector l);
}.

(** What [add_match] lets through. *)
Definition plain (c : ascii) : bool := (32 <=? uc c) && (uc c <? 0x7f).
Definition add_match (matched : cstr) (m : list cstr) : list cstr := if forallb plain matched then m ++ [matched] else m.

Fixpoint split_path (p : cstr) : list cstr :=
  match p with
  | [] => [[]]
  | c :: p => if (c ≟ ":"%char)%cc then [] :: split_path p
              else match split_path p with [] => [[c]] | d :: ds => (c :: d) :: ds end
  end.

(** The paths to look in; [None]: the last one, for directories only. *)
Definition path_parse (pth : option cstr) : list (option cstr) :=
  match pth with
  | None | Some [] => [Some (lit ".")]
  | Some p => if bool_decide (p = lit ":") then [Some (lit ".")] else (Some <$> split_path p) ++ [None]
  end.

Section Completion.
Context `{Names}.

(** One entry of a directory. *)
Definition dir_entry (type : find_type) (has_dirbuf : bool) (lpath basecmd : cstr) (m : list cstr) (name_found : cstr) : list cstr :=
  if bool_decide (basecmd = []) && DOT_OR_DOTDOT name_found then m
  else if negb (strncmp_eq basecmd name_found (length basecmd)) then m
  else match stat_dir (concat_path_file (Some lpath) name_found) with
       | None => m
       | Some true => if bool_decide (type = FIND_EXE_ONLY) && negb has_dirbuf then m else add_match (name_found ++ lit "/") m
       | Some false => if bool_decide (type = FIND_DIR_ONLY) then m else add_match name_found m
       end.

Fixpoint every_path (paths : list (option cstr)) (type : find_type) (has_dirbuf : bool) (basecmd : cstr) (m : list cstr) : list cstr :=
  match paths with
  | [] => m
  | p :: paths =>
      let type := match p with None => FIND_DIR_ONLY | Some _ => type end in
      let lpath := match p with None | Some [] => lit "." | Some p => p end in
      every_path paths type has_dirbuf basecmd (foldl (dir_entry type has_dirbuf lpath basecmd) m (default [] (readdir lpath)))
  end.

(** The length of the prefix, and the matches. *)
Definition complete_cmd_dir_file (command : cstr) (type : find_type) : nat * list cstr :=
  let '(basecmd, dirbuf) := match strrchr command "/"%char with
                            | None => (command, None)
                            | Some p => (drop 1 p, Some (upto command (drop 1 p)))
                            end in
  let baselen := length basecmd in
  let paths := match dirbuf with
               | Some d => [Some d]
               | None => if bool_decide (type = FIND_EXE_ONLY) then path_parse path_lookup else [Some (lit ".")]
               end in
  let names := if bool_decide (type = FIND_EXE_ONLY) && bool_decide (dirbuf = None) then applet_names ++ get_exe_name else [] in
  let m := foldl (fun m b => if strncmp_eq basecmd b baselen then add_match b m else m) [] names in
  (baselen, every_path paths type (bool_decide (is_Some dirbuf)) basecmd m).
End Completion.

Definition QUOT : Z := 256.

(** [int_buf[]]: characters and quoted characters. *)
Fixpoint mark_backslashes (l : list Z) : list Z :=
  match l with
  | [] => []
  | c :: l =>
      if c =? uc "\"%char then
        match l with
        | [] => [QUOT]       (* the NUL *)
        | d :: l => Z.lor d QUOT :: mark_backslashes l
        end
      else c :: mark_backslashes l
  end.

Fixpoint mark_quotes (in_quote : Z) (l : list Z) : list Z :=
  match l with
  | [] => []
  | c :: l =>
      if ((c =? uc "'"%char) || (c =? uc DQUOTE)) && ((in_quote =? 0) || (c =? in_quote)) then mark_quotes (Z.lxor in_quote c) l
      else (if in_quote =? 0 then c else Z.lor c QUOT) :: mark_quotes in_quote l
  end.

(** Everything up to command delimiters goes; [kept] is what stays so far. *)
Fixpoint after_delimiters (fuel : nat) (kept l : list Z) : list Z :=
  match fuel, l with
  | S f, cur :: l =>
      if (cur =? uc ";"%char) || (cur =? uc "&"%char) || (cur =? uc "|"%char) then
        let prev := default 0 (last kept) in
        if (cur =? uc "&"%char) && ((prev =? uc ">"%char) || (prev =? uc "<"%char)) then after_delimiters f (kept ++ [cur]) l
        else if (cur =? uc "|"%char) && (prev =? uc ">"%char) then after_delimiters f (kept ++ [cur]) l
        else after_delimiters f [] (if cur =? hd 0 l then drop 1 l else l)
      else after_delimiters f (kept ++ [cur]) l
  | _, _ => kept
  end.

Fixpoint from_char (c : Z) (l : list Z) : option (list Z) :=
  match l with
  | [] => None
  | d :: l' => if d =? c then Some l else from_char c l'
  end.

Fixpoint remove_substitutions (fuel : nat) (kept l : list Z) : list Z :=
  match fuel, l with
  | S f, cur :: l =>
      if cur =? uc "`"%char then
        match from_char (uc "`"%char) l with
        | Some l => remove_substitutions f (kept ++ take 1 l) (drop 1 l)
        | None => l
        end
      else remove_substitutions f (kept ++ [cur]) l
  | _, _ => kept
  end.

Fixpoint after_groups (kept l : list Z) : list Z :=
  match l with
  | [] => kept
  | cur :: l => if (cur =? uc "("%char) || (cur =? uc "{"%char) then after_groups [] l else after_groups (kept ++ [cur]) l
  end.

Fixpoint skip_spaces (l : list Z) : list Z :=
  match l with c :: l' => if c =? 32 then skip_spaces l' else l | [] => [] end.

(** [i] is the place in the word list [whole]. *)
Fixpoint mode_loop (whole l : list Z) (i : nat) (mode : find_type) : find_type :=
  match l with
  | [] => mode
  | c :: l =>
      if (c =? 32) || (c =? uc "<"%char) || (c =? uc ">"%char) then
        if (c =? 32) && bool_decide (mode = FIND_EXE_ONLY) && (default 0 (whole !! 0%nat) mod 256 =? uc "c"%char) &&
           (default 0 (whole !! 1%nat) mod 256 =? uc "d"%char) && (i =? 2)%nat
        then mode_loop whole l (S i) FIND_DIR_ONLY
        else FIND_FILE_ONLY
      else mode_loop whole l (S i) mode
  end.

Definition ends_word (c : Z) : bool := existsb (fun d => c =? uc d) (lit " <>|&=").
Fixpoint last_word (word l : list Z) : list Z :=
  match l with [] => word | c :: l => if ends_word c then last_word [] l else last_word (word ++ [c]) l end.

Fixpoint to_chars (l : list Z) : cstr :=
  match l with [] => [] | c :: l => if c mod 256 =? 0 then [] else chr c :: to_chars l end.

Definition build_match_prefix (match_buf : cstr) : cstr * find_type :=
  let l := mark_quotes 0 (mark_backslashes (uc <$> match_buf)) in
  let l := after_delimiters (length l) [] l in
  let l := remove_substitutions (length l) [] l in
  let l := skip_spaces (after_groups [] l) in
  (to_chars (last_word [] l), mode_loop l l 0 FIND_EXE_ONLY).

Definition is_special_char (c : ascii) : bool := existsb (fun d => c ≟ d)%cc (lit " `'" ++ DQUOTE :: lit "\#$~?*[{()&;|<>").
Definition quote_special_chars (found : cstr) : cstr := concat ((fun c => if is_special_char c then ["\"%char; c] else [c]) <$> found).

Definition showfiles (termw : Z) (m : list cstr) : cstr :=
  let column_width := foldr (fun f w => Z.max (Z.of_nat (length f)) w) 0 m + 2 in
  let ncols := termw / column_width in
  let nfiles := length m in
  let '(ncols, nrows) := if 1 <? ncols then (Z.to_nat ncols, let n := (nfiles / Z.to_nat ncols)%nat in if (nfiles mod Z.to_nat ncols =? 0)%nat then n else S n)
                         else (1%nat, nfiles) in
  let cell n := default [] (m !! n) in
  let padded n := cell n ++ repeat SP (Z.to_nat (column_width - Z.of_nat (length (cell n)))) in
  let row r :=
    let n := length (filter (fun k => (r + k * nrows < nfiles)%nat) (seq 1 (ncols - 1))) in
    concat ((fun k => padded (r + k * nrows)%nat) <$> seq 0 n) ++ cell (r + n * nrows)%nat ++ [NL] in
  concat (row <$> seq 0 nrows).

Fixpoint remove_duplicates (m : list cstr) : list cstr :=
  match m with
  | a :: ((b :: _) as m') => if bool_decide (a = b) then remove_duplicates m' else a :: remove_duplicates m'
  | m => m
  end.

Fixpoint common_prefix (first : cstr) (others : list cstr) : cstr :=
  match first with
  | [] => []
  | c :: first => if forallb (fun o => hd0 o ≟ c)%cc others then c :: common_prefix first (drop 1 <$> others) else []
  end.

Section Editor.
Context `{Names}.

(** The part of [input_tab] after the matches are known. *)
Definition place_match (chosen_match : cstr) (match_pfx_len : nat) (s : editor) : editor :=
  let len_found := length chosen_match in
  if wrapS 32 (Z.of_nat len_found - Z.of_nat match_pfx_len + Z.of_nat (command_len s)) <? maxsize s then
    let pos := (cursor s + len_found - match_pfx_len)%nat in
    let s := set_ps (take (cursor s) (command_ps s) ++ drop match_pfx_len chosen_match ++ drop (cursor s) (command_ps s)) s in
    redraw (cmdedit_y s) (command_len s - pos) s
  else s.

Definition input_tab (s : editor) : editor :=
  if last_was_tab s then
    if (0 <? length (matches s))%nat then
      let sav_cursor := cursor s in
      let s := goto_new_line s in
      let s := emit (showfiles (cmdedit_termw s) (matches s)) s in
      draw_full (command_len s - sav_cursor) s
    else s
  else
    let '(match_buf, find_type) := build_match_prefix (take (cursor s) (command_ps s)) in
    let '(match_pfx_len, m) := complete_cmd_dir_file match_buf find_type in
    let pfx := drop (length match_buf - match_pfx_len) match_buf in
    let match_pfx_len := (match_pfx_len + length (filter (fun c => is_special_char c) pfx))%nat in
    let m := remove_duplicates (qsort_string_vector m) in
    let s := set_tab m true s in
    match m with
    | [] => beep s
    | [found] =>
        let s := set_tab m false s in
        let chosen_match := quote_special_chars found in
        place_match (if bool_decide (last chosen_match = Some "/"%char) then chosen_match else chosen_match ++ [SP]) match_pfx_len s
    | first :: others =>
        let s := beep s in
        match common_prefix first others with
        | [] => s
        | p => place_match (quote_special_chars p) match_pfx_len s
        end
    end.

(** ** Keys *)

Definition CTRL (a : ascii) : Z := Z.land (uc a) (Z.lnot 0x40).
Definition KEYCODE_UP : Z := -2.
Definition KEYCODE_DOWN : Z := -3.
Definition KEYCODE_RIGHT : Z := -4.
Definition KEYCODE_LEFT : Z := -5.
Definition KEYCODE_HOME : Z := -6.
Definition KEYCODE_END : Z := -7.
Definition KEYCODE_DELETE : Z := -9.
Definition KEYCODE_BACKSPACE : Z := -12.
Definition KEYCODE_D : Z := -13.
Definition KEYCODE_CTRL_RIGHT : Z := Z.land KEYCODE_RIGHT (Z.lnot 0x40).
Definition KEYCODE_CTRL_LEFT : Z := Z.land KEYCODE_LEFT (Z.lnot 0x40).
Definition KEYCODE_ALT_RIGHT : Z := Z.land KEYCODE_RIGHT (Z.lnot 0x20).
Definition KEYCODE_ALT_LEFT : Z := Z.land KEYCODE_LEFT (Z.lnot 0x20).
Definition KEYCODE_ALT_BACKSPACE : Z := Z.land KEYCODE_BACKSPACE (Z.lnot 0x20).
Definition KEYCODE_ALT_D : Z := Z.land KEYCODE_D (Z.lnot 0x20).

(** [Nat.iter] with the operation applied first. *)
Fixpoint times (n : nat) (f : editor -> editor) (s : editor) : editor :=
  match n with O => s | S n => times n f (f s) end.

Definition kill_word (s : editor) : editor :=
  let s := while (cursor s) (fun s => (0 <? cursor s)%nat && isspace (ps_at s (cursor s - 1))) input_backspace s in
  while (cursor s) (fun s => (0 <? cursor s)%nat && negb (isspace (ps_at s (cursor s - 1)))) input_backspace s.

Definition kill_word_forward (s : editor) : editor :=
  let sc := cursor s in
  let s := ctrl_right s in
  let nc := (cursor s - sc)%nat in
  times nc input_delete (input_backward nc s).

Definition kill_word_back (s : editor) : editor :=
  let sc := cursor s in
  let s := ctrl_left s in
  times (sc - cursor s) input_delete s.

Definition kill_to_start (s : editor) : editor :=
  if (0 <? cursor s)%nat then
    let s := set_ps (drop (cursor s) (command_ps s)) s in
    redraw (cmdedit_y s) (command_len s) s
  else s.

(** A character: appended or inserted. *)
Definition insert_char (ic : Z) (s : editor) : editor :=
  if maxsize s - 2 <=? Z.of_nat (command_len s) then s
  else
    let sc := cursor s in
    if (sc =? command_len s)%nat then put_cur_glyph_and_inc_cursor (set_ps (command_ps s ++ [chr ic]) s)
    else
      let s := set_ps (take sc (command_ps s) ++ chr ic :: drop sc (command_ps s)) s in
      let s := put_till_end_and_adv_cursor s in
      input_backward (cursor s - S sc) s.

(** [break_out]: what is returned with, besides the line. *)
Inductive key_result :=
  | More (s : editor)
  | Break (break_out : Z) (len : Z) (s : editor).

Definition clear_line (s : editor) : editor := set_ps [] s.

(** [vintr], [veof]: the terminal's interrupt and end-of-file characters. *)
Definition default_key (vintr veof ic : Z) (s : editor) : key_result :=
  if negb (vintr =? 0) && (ic =? vintr) then Break (-1) 0 s
  else if negb (veof =? 0) && (ic =? veof) then
    if (command_len s =? 0)%nat then Break (-1) (-1) s else More (input_delete s)
  else if ic =? -1 then Break (-1) (-1) s
  else if (ic <? uc SP) || (256 <=? ic) then More s
  else More (insert_char ic s).

Definition key (vintr veof ic : Z) (s : editor) : key_result :=
  if (ic =? uc NL) || (ic =? uc CR) then let s := goto_new_line s in Break 1 (Z.of_nat (command_len s)) s
  else if ic =? CTRL "C"%char then Break 1 0 (clear_line (goto_new_line (emit (lit "^C") s)))
  else if (ic =? CTRL "A"%char) || (ic =? KEYCODE_HOME) then More (input_backward (cursor s) s)
  else if (ic =? CTRL "B"%char) || (ic =? KEYCODE_LEFT) then More (input_backward 1 s)
  else if (ic =? CTRL "E"%char) || (ic =? KEYCODE_END) then More (put_till_end_and_adv_cursor s)
  else if (ic =? CTRL "F"%char) || (ic =? KEYCODE_RIGHT) then More (input_forward s)
  else if (ic =? uc BS) || (ic =? 0x7f) then More (input_backspace s)
  else if ic =? KEYCODE_DELETE then More (input_delete s)
  else if ic =? uc TAB then More (input_tab s)
  else if ic =? CTRL "K"%char then More (emit SEQ_CLEAR_TILL_END_OF_SCREEN (set_ps (take (cursor s) (command_ps s)) s))
  else if ic =? CTRL "L"%char then More (draw_full (command_len s - cursor s) (emit (ESC :: lit "[H" ++ ESC :: lit "[J") s))
  else if (ic =? CTRL "N"%char) || (ic =? KEYCODE_DOWN) then let (s, found) := get_next_history s in More (if found then rewrite_line s else s)
  else if ic =? CTRL "P"%char then let (s, found) := get_previous_history s in More (if found then rewrite_line s else s)
  else if ic =? KEYCODE_UP then let (s, found) := get_previous_history s in More (if found then rewrite_line s else beep s)
  else if ic =? CTRL "U"%char then More (kill_to_start s)
  else if ic =? CTRL "W"%char then More (kill_word s)
  else if ic =? KEYCODE_ALT_D then More (kill_word_forward s)
  else if ic =? KEYCODE_ALT_BACKSPACE then More (kill_word_back s)
  else if (ic =? KEYCODE_CTRL_LEFT) || (ic =? KEYCODE_ALT_LEFT) then More (ctrl_left s)
  else if (ic =? KEYCODE_CTRL_RIGHT) || (ic =? KEYCODE_ALT_RIGHT) then More (ctrl_right s)
  else default_key vintr veof ic s.

(** One turn of the loop over the keys. *)
Definition turn (vintr veof ic : Z) (s : editor) : key_result :=
  match key vintr veof ic s with
  | More s => More (if ic =? uc TAB then s else set_tab (matches s) false s)
  | r => r
  end.

Fixpoint edit_loop (vintr veof : Z) (keys : list Z) (s : editor) : key_result :=
  match keys with
  | [] => More s
  | ic :: keys => match turn vintr veof ic s with More s => edit_loop vintr veof keys s | r => r end
  end.

(** ** The whole line *)

Inductive line_result :=
  | Waiting                                             (* for more keys *)
  | Overrun                                             (* written behind the buffer *)
  | Returned (len : Z) (command : cstr) (li : line_input) (screen : cstr).

Definition last_line (p : cstr) : cstr := match strrchr p NL with Some q => drop 1 q | None => p end.

Definition start_editor (termw : Z) (prompt : cstr) (size : Z) (li : line_input) : editor :=
  let li := if (cnt_history li =? 0)%nat then load_history li else li in
  let li := set_history (history li) (cnt_history li) (cnt_history li) (cnt_history_in_file li) li in
  let last := last_line prompt in
  put_prompt_custom true
    (mk_ed termw 0 0 (Z.of_nat (length last)) 0 [] (if MAX_LINELEN <? size then MAX_LINELEN else size) prompt last [] false li []).

(** With a terminal that was in line mode with echo, as the shell finds it;
    [size] is that of the caller's buffer. *)
Definition read_line_input (termw vintr veof : Z) (prompt : cstr) (size : Z) (li : line_input) (keys : list Z) : line_result :=
  match edit_loop vintr veof keys (start_editor termw prompt size li) with
  | More _ => Waiting
  | Break break_out len s =>
      let li := if 0 <? len then remember_in_history (command_ps s) (state s) else state s in
      if 0 <? break_out then
        if size <? len + 2 then Overrun
        else Returned (len + 1) (command_ps s ++ [NL]) li (out s)
      else Returned len (command_ps s) li (out s)
  end.
End Editor.
