(* ===== verification/LineHist.v ===== *)
(** * The line editor's history and its file

    [load_history] reads the file into a ring of the last lines, [remember_in_history]
    moves the entries up, [save_history] appends to the file and now and then cuts
    it down.  Together they keep one bounded queue, in memory and in the file
    ([history_kept]). *)

From Stdlib Require Import Ascii String ZArith Lia Sorted.
From stdpp Require Import base list strings.
From S2P Require Import Prelude Clib LibbbStr LineEdit.

Local Open Scope nat_scope.

(** ** The queue *)

(** The last [max] elements. *)
Definition keep {A} (max : nat) (l : list A) : list A := drop (length l - max) l.

(** A line, unless it repeats the one before. *)
Definition push (max : nat) (s : cstr) (l : list cstr) : list cstr := if bool_decide (last l = Some s) then l else keep max (l ++ [s]).

Lemma length_keep {A} max (l : list A) : length (keep max l) = Nat.min max (length l).
Proof. unfold keep. rewrite length_drop. lia. Qed.

Lemma keep_all {A} max (l : list A) : length l <= max -> keep max l = l.
Proof. intros H. unfold keep. by replace (length l - max) with 0 by lia. Qed.

Lemma keep_fmap {A B} (f : A -> B) max l : f <$> keep max l = keep max (f <$> l).
Proof. unfold keep. by rewrite fmap_drop, length_fmap. Qed.

Lemma keep_snoc {A} max (l : list A) x : 0 < max -> keep max (keep max l ++ [x]) = keep max (l ++ [x]).
Proof.
  intros H. unfold keep. rewrite !length_app, length_drop. cbn [length]. destruct (decide (length l <= max)).
  - by replace (length l - max) with 0 by lia; cbn; rewrite Nat.sub_0_r.
  - replace (length l - (length l - max) + 1 - max) with 1 by lia. rewrite !drop_app_le, drop_drop by (rewrite ?length_drop; lia). do 2 f_equal. lia.
Qed.

Lemma keep_snoc_full {A} max (l : list A) x : 0 < max -> length l = max -> keep max (l ++ [x]) = drop 1 l ++ [x].
Proof.
  intros H E. unfold keep. rewrite length_app. cbn [length]. replace (length l + 1 - max) with 1 by lia. by rewrite drop_app_le by lia.
Qed.

(** ** Lines of a file *)

Lemma fgetlines_snoc a b : fgetlines ((a ++ [NL]) ++ b) = fgetlines (a ++ [NL]) ++ fgetlines b /\ fgetlines (a ++ [NL]) <> [].
Proof.
  induction a as [|c a [IH Hne]]; [by split|]. cbn. destruct (c ≟ NL)%cc; [by rewrite IH|]. rewrite IH.
  destruct (fgetlines (a ++ [NL])) as [|l ls] eqn:E; [done|]. by destruct a.
Qed.

Definition ended (t : cstr) : Prop := t = [] \/ last t = Some NL.

Lemma fgetlines_app a b : ended a -> fgetlines (a ++ b) = fgetlines a ++ fgetlines b.
Proof. intros [->|Ha]; [done|]. apply last_Some in Ha as [a' ->]. apply fgetlines_snoc. Qed.

Lemma fgetlines_line s : NL ∉ s -> fgetlines (s ++ [NL]) = [s].
Proof.
  induction s as [|c s IH]; [done|]. rewrite not_elem_of_cons. intros [Hc Hs]. cbn. destruct (Ascii.eqb_spec c NL) as [->|]; [done|]. rewrite IH by done. by destruct s.
Qed.

Lemma ended_app a b : ended b -> b <> [] -> ended (a ++ b).
Proof. intros [->|Hb] Hne; [done|]. right. apply last_Some in Hb as [b' ->]. by rewrite app_assoc, last_snoc. Qed.

Lemma ended_lines (l : list cstr) : ended (concat ((fun l => l ++ [NL]) <$> l)).
Proof. induction l as [|s l IH]; [by left|]. cbn. rewrite <- app_assoc. destruct IH as [->|IH]; [right; by rewrite app_nil_r, last_snoc|]. right. apply last_Some in IH as [t ->]. by rewrite !app_assoc, last_snoc. Qed.

Lemma fgetlines_lines l : Forall (fun s => NL ∉ s) l -> fgetlines (concat ((fun l => l ++ [NL]) <$> l)) = l.
Proof.
  induction 1 as [|s l Hs Hl IH]; [done|]. cbn [fmap list_fmap concat]. rewrite fgetlines_app by (right; by rewrite last_snoc). by rewrite fgetlines_line, IH.
Qed.

Lemma fgetlines_free t : Forall (fun s => NL ∉ s) (fgetlines t).
Proof.
  induction t as [|c t IH]; [constructor|]. cbn. destruct (Ascii.eqb_spec c NL) as [->|Hc]; [constructor; [by intros []%elem_of_nil|done]|].
  assert (Forall (fun s => NL ∉ s) [[c]]) as H1 by (constructor; [rewrite list_elem_of_singleton; congruence|constructor]).
  destruct t as [|d t]; [done|]. destruct (fgetlines (d :: t)) as [|l ls]; [done|]. apply Forall_cons in IH as [Hl Hls]. constructor; [|done]. rewrite elem_of_cons. intros [?|?]; [congruence|done].
Qed.

(** What the history takes of a file: lines that are not empty. *)
Definition not_empty (l : cstr) : Prop := l <> [].
Definition file_lines (f : hist_file) : list cstr := filter not_empty (fgetlines (default [] (hf_text f))).

Lemma filter_not_empty l : Forall not_empty l -> filter not_empty l = l.
Proof. induction 1 as [|s l Hs Hl IH]; [done|]. by rewrite filter_cons, decide_True, IH. Qed.

Definition fit (l : cstr) : cstr := take (Z.to_nat MAX_LINELEN - 1) l.
Definition saved (max : nat) (f : hist_file) : list cstr := fit <$> keep max (file_lines f).

Lemma saved_keep max f : saved max f = keep max (fit <$> file_lines f).
Proof. apply keep_fmap. Qed.

(** ** The ring *)

Section Ring.
Context (max : nat) (Hmax : 0 < max <= MAX_HISTORY).

(** [temp_h[]] after the lines [L]. *)
Definition ring (L : list cstr) (temp : list (option cstr)) : Prop :=
  length temp = MAX_HISTORY /\
  (forall k x, L !! k = Some x -> length L <= k + max -> temp !! (k mod max) = Some (Some x)) /\
  (forall j, length L <= j < MAX_HISTORY -> temp !! j = Some None).

Lemma next_mod k : next_idx max (k mod max) = S k mod max.
Proof using Hmax.
  pose proof (Nat.div_mod k max ltac:(lia)) as Hd. pose proof (Nat.mod_upper_bound k max ltac:(lia)) as Hb. unfold next_idx.
  destruct (Nat.eqb_spec (S (k mod max)) max) as [E|E].
  - apply (Nat.mod_unique (S k) max (S (k / max)) 0); [lia|]. rewrite Nat.mul_succ_r. lia.
  - apply (Nat.mod_unique (S k) max (k / max) (S (k mod max))); lia.
Qed.

Lemma mod_apart a b : a < b < a + max -> a mod max <> b mod max.
Proof using Hmax.
  intros H E. pose proof (Nat.div_mod a max ltac:(lia)) as Ha. pose proof (Nat.div_mod b max ltac:(lia)) as Hb. rewrite E in Ha.
  destruct (Nat.lt_ge_cases (a / max) (b / max)) as [Hq|Hq].
  - pose proof (Nat.mul_le_mono_l (S (a / max)) (b / max) max Hq) as Hm. rewrite Nat.mul_succ_r in Hm. lia.
  - pose proof (Nat.mul_le_mono_l _ _ max Hq). lia.
Qed.

Lemma mod_le k : k mod max <= k.
Proof using Hmax. apply Nat.Div0.mod_le. Qed.

Lemma ring_snoc L temp x : ring L temp -> ring (L ++ [x]) (<[length L mod max := Some x]> temp).
Proof using Hmax.
  intros (Hlen & Hin & Hout). pose proof (Nat.mod_upper_bound (length L) max ltac:(lia)) as Hb. unfold ring. rewrite length_insert, length_app. cbn [length].
  split_and!; [done| |].
  - intros k y Hy Hk. destruct (decide (k = length L)) as [->|Hne].
    + rewrite lookup_app_r, Nat.sub_diag in Hy by lia. injection Hy as ->. apply list_lookup_insert_eq. lia.
    + pose proof (lookup_lt_Some _ _ _ Hy) as Hlt. rewrite length_app in Hlt. cbn in Hlt. rewrite lookup_app_l in Hy by lia.
      rewrite list_lookup_insert_ne by (apply not_eq_sym, mod_apart; lia). apply Hin; [done|lia].
  - intros j Hj. pose proof (mod_le (length L)). rewrite list_lookup_insert_ne by lia. apply Hout. lia.
Qed.

Lemma fill_ring lines : forall L temp, ring L temp -> (Z.of_nat (length L + length (filter not_empty lines)) < 2 ^ 32)%Z ->
  let '(temp', idx, n) := fill_temp max lines temp (length L mod max) (Z.of_nat (length L)) in
  let L' := L ++ filter not_empty lines in
  ring L' temp' /\ idx = length L' mod max /\ n = Z.of_nat (length L').
Proof using Hmax.
  induction lines as [|line lines IH]; intros L temp Hr Hn; [by cbn; rewrite app_nil_r|]. rewrite filter_cons in Hn |- *. destruct line as [|c line].
  - rewrite decide_False in Hn |- * by (intros Hne; by apply Hne). by apply IH.
  - rewrite decide_True in Hn |- * by done. cbn [fill_temp length] in Hn |- *. rewrite next_mod, wrapU_id by (unfold is_u; lia).
    specialize (IH (L ++ [c :: line]) _ (ring_snoc L temp (c :: line) Hr) ltac:(rewrite length_app; cbn [length]; lia)).
    rewrite length_app in IH. cbn [length] in IH. rewrite Nat.add_1_r in IH. rewrite <- app_assoc in IH. cbn [app] in IH.
    by replace (Z.of_nat (length L) + 1)%Z with (Z.of_nat (S (length L))) by lia.
Qed.

(** Where the oldest line is. *)
Lemma first_line_at L temp : ring L temp -> L <> [] -> first_line max max temp (length L mod max) = (length L - max) mod max.
Proof using Hmax.
  intros (Hlen & Hin & Hout) Hne. assert (0 < length L) as Hpos by (destruct L; [done|cbn; lia]).
  assert (forall k, length L - max <= k < length L -> exists x, temp !! (k mod max) = Some (Some x)) as Hsome.
  { intros k Hk. destruct (lookup_lt_is_Some_2 L k ltac:(lia)) as [x Hx]. exists x. apply Hin; [done|lia]. }
  destruct (decide (max <= length L)) as [Hge|Hlt].
  - assert ((length L - max) mod max = length L mod max) as E.
    { replace (length L) with (length L - max + 1 * max) at 2 by lia. by rewrite Nat.Div0.mod_add. }
    destruct (Hsome (length L - max) ltac:(lia)) as [x Hx]. rewrite E in *. destruct max; [lia|]. cbn [first_line]. by rewrite Hx.
  - replace (length L - max) with 0 by lia. rewrite (Nat.mod_small (length L)), (Nat.mod_small 0) by lia.
    destruct (Hsome 0 ltac:(lia)) as [x Hx]. rewrite Nat.mod_small in Hx by lia.
    assert (forall d fuel j, max - j = d -> length L <= j < max -> d < fuel -> first_line fuel max temp j = 0) as Hgo.
    { induction d as [|d IH]; intros fuel j Hd Hj Hf; [lia|]. destruct fuel as [|fuel]; [lia|]. cbn [first_line]. rewrite Hout by lia. cbn [default]. unfold next_idx.
      destruct (Nat.eqb_spec (S j) max); [|apply IH; lia]. destruct fuel; [lia|]. cbn. by rewrite Hx. }
    apply (Hgo (max - length L)); lia.
Qed.

Lemma copy_from L temp : ring L temp -> forall todo k, length L <= k + max -> todo = max - (k - (length L - max)) -> k <= length L ->
  copy_temp todo max temp (k mod max) = fit <$> drop k L.
Proof using Hmax.
  intros (Hlen & Hin & Hout). induction todo as [|todo IH]; intros k Hk Htodo Hle; cbn [copy_temp].
  - by rewrite drop_ge by lia.
  - destruct (L !! k) as [x|] eqn:E.
    + rewrite (Hin k x E Hk). cbn [default]. rewrite (drop_S _ _ _ E). cbn [fmap list_fmap]. f_equal. rewrite next_mod. pose proof (lookup_lt_Some _ _ _ E). apply IH; lia.
    + apply lookup_ge_None in E. rewrite drop_ge by lia. assert (k < max) by lia. rewrite Nat.mod_small by lia. by rewrite Hout by lia.
Qed.
End Ring.

(** ** The operations *)

Definition entries (li : line_input) : list (option cstr) := take (cnt_history li) (history li).

(** The history the shell starts with, before the file is read. *)
Definition opened (max : nat) (f : hist_file) : line_input := mk_li (replicate (S MAX_HISTORY) None) 0 0 max 0 (Some f).

Record file_ok (f : hist_file) : Prop := mk_fo {
  fo_appendable : hf_appendable f = true;
  fo_replaceable : hf_replaceable f = true;
  fo_ended : ended (default [] (hf_text f));
  fo_counted : (Z.of_nat (length (file_lines f)) + 1 < 2 ^ 32)%Z;
}.

(** Memory and file hold the same. *)
Record agrees (max : nat) (li : line_input) (f : hist_file) : Prop := mk_ag {
  ag_file : file li = Some f;
  ag_max : max_history li = max;
  ag_slots : length (history li) = S MAX_HISTORY;
  ag_cnt : cnt_history li = length (saved max f);
  ag_entries : entries li = Some <$> saved max f;
  ag_lines : cnt_history_in_file li = Z.of_nat (length (file_lines f));
}.

Section History.
Context (max : nat) (Hmax : 0 < max <= MAX_HISTORY).

Lemma length_saved f : length (saved max f) = Nat.min max (length (file_lines f)).
Proof using. unfold saved. by rewrite length_fmap, length_keep. Qed.

Lemma load_agrees f : (Z.of_nat (length (file_lines f)) < 2 ^ 32)%Z -> agrees max (load_history (opened max f)) f.
Proof using Hmax.
  intros Hcount. unfold load_history. cbn [file opened mbind option_bind]. destruct (hf_text f) as [text|] eqn:Et.
  2:{ assert (file_lines f = []) as E by (unfold file_lines; by rewrite Et). assert (saved max f = []) as Es by (unfold saved; by rewrite E). by constructor; rewrite ?Es, ?E. }
  cbn [max_history opened history cnt_history cur_history]. assert (file_lines f = filter not_empty (fgetlines text)) as Ef by (unfold file_lines; by rewrite Et).
  assert (ring max [] (replicate MAX_HISTORY None)) as Hr0.
  { split_and!; [by rewrite length_replicate|done|]. intros j Hj. apply lookup_replicate_2. lia. }
  pose proof (fill_ring max Hmax (fgetlines text) [] _ Hr0 ltac:(by rewrite <- Ef)) as Hfill. cbn [length app] in Hfill. rewrite Nat.Div0.mod_0_l in Hfill. rewrite <- Ef in Hfill. change (Z.of_nat 0) with 0%Z in Hfill.
  destruct (fill_temp max (fgetlines text) (replicate MAX_HISTORY None) 0 0) as [[temp idx] n]. destruct Hfill as (Hr & -> & ->). set (L := file_lines f) in *.
  assert (copy_temp max max temp (if (Z.of_nat (length L) =? 0)%Z then length L mod max else first_line max max temp (length L mod max)) = saved max f) as ->.
  { unfold saved, keep. fold L. rewrite <- (copy_from max Hmax L temp Hr max (length L - max)) by lia. f_equal. destruct (Z.eqb_spec (Z.of_nat (length L)) 0) as [E|E].
    - f_equal. lia.
    - apply first_line_at; [done..|]. intros E'. apply E. by rewrite E'. }
  pose proof (length_saved f) as Hlen. fold L in Hlen. constructor; cbn [file max_history history cnt_history cnt_history_in_file]; try done.
  - rewrite length_app, length_fmap, length_drop. cbn [replicate app drop length]. rewrite length_replicate. unfold MAX_HISTORY in *. lia.
  - unfold entries. cbn [history cnt_history]. by rewrite take_app_length' by (by rewrite length_fmap).
Qed.

Definition rememberable (s : cstr) : Prop := s <> [] /\ NL ∉ s /\ length s < Z.to_nat MAX_LINELEN.

Lemma fit_short s : length s < Z.to_nat MAX_LINELEN -> fit s = s.
Proof using Hmax. intros H. apply take_ge. lia. Qed.

(** Appending to the file, and cutting it down. *)
Lemma save_file s li f : file_ok f -> rememberable s -> file li = Some f -> max_history li = max -> cnt_history_in_file li = Z.of_nat (length (file_lines f)) ->
  exists f', file_ok f' /\ saved max f' = keep max (saved max f ++ [s]) /\ length (file_lines f') <= Nat.max (4 * max) (length (file_lines f)) /\
    save_history s li = mk_li (history li) (cnt_history li) (cur_history li) max (Z.of_nat (length (file_lines f'))) (Some f').
Proof using Hmax.
  intros [Ha Hre He Hct] (Hne & Hnl & Hs) Hf Hm Hc. unfold save_history. rewrite Hf, Ha, Hm, Hc, wrapU_id by (unfold is_u; lia). cbn [negb]. set (f1 := set_text _ f).
  assert (file_lines f1 = file_lines f ++ [s]) as E1.
  { unfold f1, file_lines. cbn. rewrite fgetlines_app, fgetlines_line, filter_app by done. f_equal. by rewrite filter_cons, decide_True by done. }
  assert (saved max f1 = keep max (saved max f ++ [s])) as Es1.
  { rewrite !saved_keep, E1, fmap_app. cbn. by rewrite keep_snoc, fit_short by (done || lia). }
  pose proof (length_saved f1) as Hl1. rewrite E1, length_app in Hl1. cbn [length] in Hl1.
  destruct (Z.ltb_spec (Z.of_nat (max * 4)) (Z.of_nat (length (file_lines f)) + 1)) as [Hbig|Hsmall].
  - change (mk_li (replicate (S MAX_HISTORY) None) 0 0 max 0 (Some f1)) with (opened max f1). pose proof (load_agrees f1 ltac:(rewrite E1, length_app; cbn [length]; lia)) as [_ _ _ L1 L2 _].
    change (take (cnt_history (load_history (opened max f1))) (history (load_history (opened max f1)))) with (entries (load_history (opened max f1))).
    rewrite L1, L2. rewrite <- list_fmap_compose. change ((fun l : option cstr => default [] l ++ [NL]) ∘ Some) with (fun l : cstr => l ++ [NL]).
    assert (hf_replaceable f1 = true) as -> by done. set (f2 := set_text _ f1).
    assert (Forall (fun l => l <> [] /\ NL ∉ l) (saved max f1)) as Hfree.
    { unfold saved. apply Forall_fmap, Forall_drop, Forall_forall. intros l Hl. unfold file_lines in Hl. apply list_elem_of_filter in Hl as [Hne' Hl].
      pose proof (fgetlines_free (default [] (hf_text f1))) as Hfr. rewrite Forall_forall in Hfr. specialize (Hfr l Hl). unfold fit. split.
      - destruct l; [done|]. by vm_compute (Z.to_nat MAX_LINELEN - 1).
      - intros Hin. apply Hfr. rewrite <- (take_drop (Z.to_nat MAX_LINELEN - 1) l). apply elem_of_app. by left. }
    assert (file_lines f2 = saved max f1) as E2.
    { unfold file_lines. change (default [] (hf_text f2)) with (concat ((fun l : cstr => l ++ [NL]) <$> saved max f1)). rewrite fgetlines_lines by (eapply Forall_impl; [exact Hfree|]; by intros ? []).
      apply filter_not_empty. eapply Forall_impl; [exact Hfree|]. by intros ? []. }
    exists f2. split_and!.
    + constructor; [done|done|apply ended_lines|]. rewrite E2. unfold MAX_HISTORY in Hmax. lia.
    + rewrite saved_keep, E2, <- Es1. rewrite keep_all by (rewrite length_fmap; lia). unfold saved. rewrite <- list_fmap_compose. apply list_fmap_ext. intros i l _. cbn. unfold fit. rewrite take_take. f_equal; lia.
    + rewrite E2. lia.
    + by rewrite E2.
  - assert (file_ok f1) as Hok1.
    { constructor; [done|done|apply ended_app; [by right; rewrite last_snoc|by destruct s]|]. rewrite E1, length_app. cbn [length]. unfold MAX_HISTORY in Hmax. lia. }
    exists f1. split_and!; [done|done|rewrite E1, length_app; cbn [length]; lia|]. rewrite E1, length_app. cbn [length]. f_equal. lia.
Qed.

Lemma remember_agrees s li f : agrees max li f -> file_ok f -> rememberable s ->
  exists f', agrees max (remember_in_history s li) f' /\ file_ok f' /\ saved max f' = push max s (saved max f) /\ length (file_lines f') <= Nat.max (4 * max) (length (file_lines f)).
Proof using Hmax.
  intros [Hf Hm Hsl Hcnt Hent Hin] Hok Hs. unfold remember_in_history, push. rewrite (bool_decide_eq_false_2 (s = [])) by apply Hs. pose proof (length_saved f) as Hlen.
  assert ((0 <? cnt_history li) && bool_decide (history li !! (cnt_history li - 1) = Some (Some s)) = bool_decide (last (saved max f) = Some s)) as ->.
  { rewrite Hcnt. destruct (saved max f) as [|l0 l _] eqn:Es using rev_ind; [done|]. rewrite last_snoc, length_app. cbn [length].
    destruct (Nat.ltb_spec 0 (length l + 1)); [|lia]. cbn [andb]. replace (length l + 1 - 1) with (length l) by lia.
    assert (history li !! length l = Some (Some l0)) as ->.
    { rewrite <- (lookup_take_lt _ (cnt_history li)) by (rewrite Hcnt, length_app; cbn; lia). change (take (cnt_history li) (history li)) with (entries li). rewrite Hent, list_lookup_fmap, lookup_app_r, Nat.sub_diag by lia. done. }
    apply bool_decide_ext. split; congruence. }
  destruct (bool_decide_reflect (last (saved max f) = Some s)) as [Hdup|Hnew]; [exists f; split_and!; [done|done|done|lia]|].
  assert (take (cnt_history li) (<[max:=None]> (history li)) = Some <$> saved max f) as Hent'.
  { rewrite take_insert_ge by lia. exact Hent. }
  set (h0 := <[max:=None]> (history li)) in *. assert (length h0 = S MAX_HISTORY) as Hl0 by (unfold h0; by rewrite length_insert).
  rewrite Hm. fold h0.
  assert (exists h i, (if max <=? cnt_history li then (drop 1 (take max h0) ++ drop (max - 1) h0, max - 1) else (h0, cnt_history li)) = (h, i) /\
    length h = S MAX_HISTORY /\ S i = length (keep max (saved max f ++ [s])) /\ take (S i) (<[i:=Some s]> h) = Some <$> keep max (saved max f ++ [s])) as (h & i & -> & Hl & Hi & Hh).
  { destruct (Nat.leb_spec max (cnt_history li)) as [Hfull|Hroom]; do 2 eexists; (split; [done|]).
    - assert (cnt_history li = max) as Ec by lia. rewrite Ec in Hent'. rewrite Hent', keep_snoc_full by lia. rewrite !length_app, !length_drop, length_fmap. cbn [length].
      assert (length (saved max f) = max) as El by lia. rewrite El, Hl0. split_and!; [lia|lia|]. replace (S (max - 1)) with max by lia.
      rewrite <- fmap_drop, fmap_app. cbn. assert (length (Some <$> drop 1 (saved max f)) = max - 1) as Ed by (rewrite length_fmap, length_drop; lia).
      rewrite insert_app_r_alt, Ed, Nat.sub_diag by lia. destruct (drop (max - 1) h0) as [|x r] eqn:Er; [apply (f_equal length) in Er; rewrite length_drop in Er; cbn in Er; lia|].
      cbn. rewrite take_app, Ed. rewrite take_ge by lia. by replace (max - (max - 1)) with 1 by lia.
    - rewrite keep_all by (rewrite length_app; cbn; lia). rewrite length_app. cbn [length]. split_and!; [done|lia|]. rewrite (take_S_r _ _ (Some s)) by (apply list_lookup_insert_eq; lia).
      rewrite take_insert_ge, Hent', fmap_app by lia. done. }
  destruct (save_file s (mk_li (<[i:=Some s]> h) (S i) (S i) max (cnt_history_in_file li) (file li)) f Hok Hs) as (f' & H1 & H2 & H3 & ->); [done..|].
  exists f'. split_and!; [|done|done|done]. cbn [history cnt_history cur_history]. constructor; try done; rewrite ?H2; try done. cbn. by rewrite length_insert.
Qed.

(** C37. The history is one queue of the last [max] lines, in memory and in the
    file: after any lines (not empty, without newlines, shorter than MAX_LINELEN)
    were remembered, starting from a file that can be written and whose last line
    is whole ([file_ok]), it holds what a queue that leaves out
    repetitions holds, a shell that starts then reads the same from the file, and
    the file never has more than four times [max] lines, or those it had. *)
Theorem history_kept f strs : file_ok f -> Forall rememberable strs ->
  let li := foldl (fun li s => remember_in_history s li) (load_history (opened max f)) strs in
  entries li = Some <$> foldl (fun l s => push max s l) (saved max f) strs /\
  exists f', file li = Some f' /\ entries (load_history (opened max f')) = entries li /\
    length (file_lines f') <= Nat.max (4 * max) (length (file_lines f)).
Proof using Hmax.
  intros Hok Hstrs. cbv zeta. pose proof (load_agrees f ltac:(destruct Hok; lia)) as Hag.
  assert (forall strs li f, agrees max li f -> file_ok f -> Forall rememberable strs ->
    exists f', agrees max (foldl (fun li s => remember_in_history s li) li strs) f' /\ saved max f' = foldl (fun l s => push max s l) (saved max f) strs /\
      length (file_lines f') <= Nat.max (4 * max) (length (file_lines f))) as Hgo.
  { clear - Hmax. intros strs. induction strs as [|s strs IH]; intros li f Hag Hok Hs; [exists f; split_and!; [done|done|lia]|]. apply Forall_cons in Hs as [Hs Hss].
    destruct (remember_agrees s li f Hag Hok Hs) as (f1 & H1 & H2 & H3 & H4). destruct (IH _ f1 H1 H2 Hss) as (f2 & K1 & K2 & K3). exists f2. cbn [foldl]. rewrite <- H3. split_and!; [done|done|lia]. }
  destruct (Hgo strs _ f Hag Hok Hstrs) as (f' & H1 & H2 & H3). rewrite <- H2. split; [apply H1|]. exists f'. split_and!; [apply H1| |done].
  rewrite (ag_entries _ _ _ (load_agrees f' ltac:(destruct Hok; unfold MAX_HISTORY in Hmax; lia))). symmetry. apply H1.
Qed.
End History.

Definition demo_file : hist_file := mk_hf (Some (lit "ls" ++ [NL; NL] ++ lit "cd" ++ [NL] ++ lit "vi" ++ [NL])) true true.

Lemma history_kept_witness :
  entries (foldl (fun li s => remember_in_history s li) (load_history (opened 2 demo_file)) [lit "vi"; lit "rm"]) = [Some (lit "vi"); Some (lit "rm")].
Proof.
  assert (0 < 2 <= MAX_HISTORY) as Hmax by (unfold MAX_HISTORY; lia).
  destruct (history_kept 2 Hmax demo_file [lit "vi"; lit "rm"]) as [E _].
  - split; [done|done|by right|by vm_compute].
  - repeat (constructor; [split_and!; [done|apply (bool_decide_unpack _); by vm_compute|apply Nat.ltb_lt; by vm_compute]|]). constructor.
  - rewrite E. by vm_compute.
Defined.
