(* ===== verification/LineTerm.v ===== *)
(** * A terminal, and a reference for the line editor

    A terminal that understands what lineedit.c prints: a screen [w] columns wide
    and [h] rows high over an unlimited roll of rows, with the automatic margin of
    the VT100 (after the last column the cursor waits for the next character) and
    the tty's translation of newlines.  Cells are numbered row by row from the
    start of the roll.  The reference editor works on the texts before and behind
    the cursor. *)

From Stdlib Require Import Ascii String ZArith Lia Sorted.
From stdpp Require Import base list strings.
From S2P Require Import Prelude Clib LibbbStr LineEdit.

Local Open Scope Z_scope.

Inductive parser := Ground | Escape | Csi (n : option Z).

Record term := mk_term { t_cell : Z -> ascii; t_row : Z; t_col : Z; t_pending : bool; t_top : Z; t_parser : parser }.

Section Terminal.
Context (w h : Z).

Definition goto (row col : Z) (t : term) : term := mk_term (t_cell t) row col false (t_top t) Ground.

Definition line_feed (t : term) : term :=
  let row := t_row t + 1 in
  mk_term (t_cell t) row 0 false (if t_top t + h <=? row then row - h + 1 else t_top t) Ground.

Definition put_char (c : ascii) (t : term) : term :=
  let t := if t_pending t then line_feed t else t in
  let p := t_row t * w + t_col t in
  let cell := fun q => if q =? p then c else t_cell t q in
  if t_col t =? w - 1 then mk_term cell (t_row t) (t_col t) true (t_top t) Ground
  else mk_term cell (t_row t) (t_col t + 1) false (t_top t) Ground.

Definition clear_below (t : term) : term :=
  let p := t_row t * w + t_col t in
  mk_term (fun q => if q <? p then t_cell t q else SP) (t_row t) (t_col t) (t_pending t) (t_top t) Ground.

Definition set_parser (p : parser) (t : term) : term := mk_term (t_cell t) (t_row t) (t_col t) (t_pending t) (t_top t) p.

Definition control (n : option Z) (c : ascii) (t : term) : term :=
  let n1 := Z.max 1 (default 1 n) in
  if (c ≟ "A"%char)%cc then goto (Z.max (t_top t) (t_row t - n1)) (t_col t) t
  else if (c ≟ "C"%char)%cc then goto (t_row t) (Z.min (w - 1) (t_col t + n1)) t
  else if (c ≟ "D"%char)%cc then goto (t_row t) (Z.max 0 (t_col t - n1)) t
  else if (c ≟ "J"%char)%cc then clear_below t
  else if (c ≟ "H"%char)%cc then goto (t_top t) 0 t
  else set_parser Ground t.

Definition feed (t : term) (c : ascii) : term :=
  match t_parser t with
  | Ground =>
      if (c ≟ ESC)%cc then set_parser Escape t
      else if (c ≟ CR)%cc then goto (t_row t) 0 t
      else if (c ≟ NL)%cc then line_feed t
      else if (c ≟ BS)%cc then goto (t_row t) (Z.max 0 (t_col t - 1)) t
      else if plain c then put_char c t
      else t
  | Escape => set_parser (if (c ≟ "["%char)%cc then Csi None else Ground) t
  | Csi n => if (digit_val c <? 10) then set_parser (Csi (Some (default 0 n * 10 + digit_val c))) t else control n c t
  end.

Definition feeds (b : cstr) (t : term) : term := foldl feed t b.

(** A row's text. *)
Definition row_text (t : term) (row : Z) : cstr := (fun k => t_cell t (row * w + Z.of_nat k)) <$> seq 0 (Z.to_nat w).
End Terminal.

(** ** The reference editor *)

Record line := mk_line { before : cstr; after : cstr }.

Fixpoint drop_while (p : ascii -> bool) (l : cstr) : cstr :=
  match l with c :: l' => if p c then drop_while p l' else l | [] => [] end.
Definition drop_while_end (p : ascii -> bool) (l : cstr) : cstr := rev (drop_while p (rev l)).

Definition not_delimits (c : ascii) : bool := negb (delimits c).

(** What is left of a text when its last word is taken off, and its first. *)
Definition word_back (b : cstr) : cstr := drop_while_end not_delimits (drop_while_end delimits b).
Definition word_ahead (a : cstr) : cstr := drop_while not_delimits (drop_while delimits a).

Inductive action :=
  | Insert (c : ascii) | Left | Right | Home | End
  | Backspace | Delete | KillEnd | KillStart | KillSpaced
  | WordLeft | WordRight | KillWordLeft | KillWordRight.

(** A line may have [room] characters. *)
Definition edit (room : Z) (a : action) (l : line) : line :=
  let b := before l in
  let f := after l in
  match a with
  | Insert c => if Z.of_nat (length (b ++ f)) <? room then mk_line (b ++ [c]) f else l
  | Left => match last b with Some c => mk_line (removelast b) (c :: f) | None => l end
  | Right => match f with c :: f => mk_line (b ++ [c]) f | [] => l end
  | Home => mk_line [] (b ++ f)
  | End => mk_line (b ++ f) []
  | Backspace => mk_line (removelast b) f
  | Delete => mk_line b (drop 1 f)
  | KillEnd => mk_line b []
  | KillStart => mk_line [] f
  | KillSpaced => mk_line (drop_while_end (fun c => negb (isspace c)) (drop_while_end isspace b)) f
  | WordLeft => let b' := word_back b in mk_line b' (drop (length b') (b ++ f))
  | WordRight => let f' := word_ahead f in mk_line (take (length (b ++ f) - length f') (b ++ f)) f'
  | KillWordLeft => mk_line (word_back b) f
  | KillWordRight => mk_line b (word_ahead f)
  end.

Definition line_of (s : editor) : line := mk_line (take (cursor s) (command_ps s)) (drop (cursor s) (command_ps s)).

(** ** Words *)

Lemma drop_while_end_snoc p l c : drop_while_end p (l ++ [c]) = if p c then drop_while_end p l else l ++ [c].
Proof. unfold drop_while_end. rewrite rev_unit. cbn. destruct (p c); [done|]. cbn. by rewrite rev_involutive. Qed.

Lemma drop_while_suffix p l : exists x, l = x ++ drop_while p l.
Proof. induction l as [|c l [x IH]]; [by exists []|]. cbn. destruct (p c); [|by exists []]. exists (c :: x). cbn. by rewrite <- IH. Qed.

Lemma drop_while_end_prefix p l : exists y, l = drop_while_end p l ++ y.
Proof.
  destruct (drop_while_suffix p (rev l)) as [x E]. exists (rev x). unfold drop_while_end. rewrite <- rev_app_distr, <- E. by rewrite rev_involutive.
Qed.

Lemma word_back_prefix b : exists y, b = word_back b ++ y.
Proof.
  unfold word_back. destruct (drop_while_end_prefix delimits b) as [y E]. destruct (drop_while_end_prefix not_delimits (drop_while_end delimits b)) as [z E'].
  exists (z ++ y). by rewrite app_assoc, <- E', <- E.
Qed.

Lemma word_ahead_suffix a : exists x, a = x ++ word_ahead a.
Proof.
  unfold word_ahead. destruct (drop_while_suffix delimits a) as [x E]. destruct (drop_while_suffix not_delimits (drop_while delimits a)) as [y E'].
  exists (x ++ y). by rewrite <- app_assoc, <- E', <- E.
Qed.

(** Two numbers of one cell. *)
Ltac same_cell := match goal with |- context[if _ =? ?a then _ else _] => match goal with |- _ = (if _ =? ?b then _ else _) => replace a with b by lia; done end end.

(** ** The terminal *)

Section Facts.
Context (w h : Z) (Hw : 2 <= w < 2 ^ 15).

Lemma feeds_app a b t : feeds w h (a ++ b) t = feeds w h b (feeds w h a t).
Proof. apply foldl_app. Qed.

Lemma feeds_digits l : forall o t, Forall is_digit_char l -> l <> [] ->
  feeds w h l (set_parser (Csi o) t) = set_parser (Csi (Some (fst (scan_digits 10 (default 0 o) l)))) t.
Proof.
  induction l as [|c l IH]; intros o t Hl Hne; [done|]. apply Forall_cons in Hl as [Hc Hl].
  destruct (digit_char_facts c Hc) as (_ & _ & _ & Hd). cbn [feeds foldl]. unfold feed at 2. cbn [set_parser t_parser]. rewrite Hd.
  cbn [scan_digits]. rewrite Hd. destruct l as [|d l]; [done|].
  etrans; [by apply (IH (Some (default 0 o * 10 + digit_val c)) (set_parser (Csi o) t))|done].
Qed.

(** What a control sequence does. *)
Lemma feeds_csi n c t : 0 <= n -> (digit_val c <? 10) = false -> t_parser t = Ground ->
  feeds w h (csi n c) t = control w (Some n) c (set_parser (Csi (Some n)) t).
Proof.
  intros Hn Hc Ht. unfold csi. change (ESC :: "["%char :: fmt_u n ++ [c]) with ([ESC; "["%char] ++ fmt_u n ++ [c]). rewrite !feeds_app.
  assert (feeds w h [ESC; "["%char] t = set_parser (Csi None) t) as ->.
  { unfold feeds. cbn [foldl]. unfold feed at 2. rewrite Ht. done. }
  destruct (fmt_u_cons n Hn) as (d & l & E & _).
  rewrite feeds_digits by (first [by apply fmt_u_digits|by rewrite E]).
  pose proof (scan_fmt_u n [] Hn) as Hs. rewrite app_nil_r in Hs. cbn [default id]. rewrite Hs by (vm_compute; discriminate). cbn [fst].
  cbn [feeds foldl]. unfold feed. cbn [set_parser t_parser]. by rewrite Hc.
Qed.

Lemma feed_plain c t : plain c = true -> t_parser t = Ground -> feed w h t c = put_char w h c t.
Proof.
  unfold plain. intros Hc Ht. unfold feed. rewrite Ht. apply andb_true_iff in Hc as [H1 H2]. rewrite !ceqb_uc.
  change (uc ESC) with 27. change (uc CR) with 13. change (uc NL) with 10. change (uc BS) with 8.
  destruct (Z.eqb_spec (uc c) 27); [lia|]. destruct (Z.eqb_spec (uc c) 13); [lia|]. destruct (Z.eqb_spec (uc c) 10); [lia|].
  destruct (Z.eqb_spec (uc c) 8); [lia|]. unfold plain. by rewrite H1, H2.
Qed.

(** The cursor at a column that is a column, on a row of the screen. *)
Definition at_pos (t : term) (row col : Z) : Prop :=
  t_parser t = Ground /\ t_pending t = false /\ t_row t = row /\ t_col t = col /\ 0 <= col < w.

Definition in_view (t : term) : Prop := t_top t <= t_row t < t_top t + h.

(** A character at a column that is not the last. *)
Lemma put_at t row col c : at_pos t row col -> plain c = true -> col < w - 1 ->
  let t' := feed w h t c in
  at_pos t' row (col + 1) /\ t_top t' = t_top t /\ forall q, t_cell t' q = if q =? row * w + col then c else t_cell t q.
Proof using.
  intros (Hg & Hp & Hr & Hc & Hb) Hpl Hlast. cbv zeta. rewrite feed_plain by done. unfold put_char. rewrite Hp, Hr, Hc.
  destruct (Z.eqb_spec col (w - 1)); [lia|]. cbn. unfold at_pos. cbn. split_and!; first [done|lia].
Qed.

(** At the last one, and the newline that the editor prints there. *)
Lemma put_last t row c : at_pos t row (w - 1) -> plain c = true -> t_top t <= row < t_top t + h ->
  let t' := feeds w h [CR; NL] (feed w h t c) in
  at_pos t' (row + 1) 0 /\ t_top t' = Z.max (t_top t) (row + 1 - h + 1) /\ forall q, t_cell t' q = if q =? row * w + (w - 1) then c else t_cell t q.
Proof using Hw.
  intros (Hg & Hp & Hr & Hc & Hb) Hpl Hv. cbv zeta. rewrite feed_plain by done. unfold put_char. rewrite Hp, Hr, Hc, Z.eqb_refl.
  cbn [feeds foldl]. unfold feed at 2. cbn [t_parser]. change ((CR ≟ ESC)%cc) with false. change ((CR ≟ CR)%cc) with true. cbn iota.
  unfold feed. cbn [goto t_parser]. change ((NL ≟ ESC)%cc) with false. change ((NL ≟ CR)%cc) with false. change ((NL ≟ NL)%cc) with true. cbn iota.
  unfold line_feed, at_pos. cbn. destruct (Z.leb_spec (t_top t + h) (row + 1)); split_and!; try first [done|lia].
Qed.

Lemma feeds_clear t : t_parser t = Ground -> feeds w h SEQ_CLEAR_TILL_END_OF_SCREEN t = clear_below w t.
Proof using.
  intros Hg. change SEQ_CLEAR_TILL_END_OF_SCREEN with ([ESC; "["%char] ++ ["J"%char]). rewrite feeds_app.
  assert (feeds w h [ESC; "["%char] t = set_parser (Csi None) t) as -> by (unfold feeds; cbn [foldl]; unfold feed at 2; by rewrite Hg).
  done.
Qed.

Lemma clear_at t row col : at_pos t row col ->
  let t' := feeds w h SEQ_CLEAR_TILL_END_OF_SCREEN t in
  at_pos t' row col /\ t_top t' = t_top t /\ forall q, t_cell t' q = if q <? row * w + col then t_cell t q else SP.
Proof using.
  intros (Hg & Hp & Hr & Hc & Hb). cbv zeta. rewrite feeds_clear by done. unfold clear_below, at_pos. cbn. rewrite Hr, Hc, Hp. split_and!; first [done|lia].
Qed.

Lemma backspaces n : forall t row col, at_pos t row col -> Z.of_nat n <= col ->
  let t' := feeds w h (repeat BS n) t in
  at_pos t' row (col - Z.of_nat n) /\ t_top t' = t_top t /\ t_cell t' = t_cell t.
Proof using.
  induction n as [|n IH]; intros t row col Ht Hn; cbn [repeat].
  - cbn. rewrite Z.sub_0_r. done.
  - destruct Ht as (Hg & Hp & Hr & Hc & Hb). cbn [feeds foldl].
    assert (feed w h t BS = goto row (col - 1) t) as -> by (unfold feed; rewrite Hg; cbn; rewrite Hr, Hc; f_equal; lia).
    destruct (IH (goto row (col - 1) t) row (col - 1)) as (H1 & H2 & H3); [unfold at_pos; cbn; split_and!; first [done|lia]|lia|].
    change (fold_left (feed w h) (repeat BS n)) with (feeds w h (repeat BS n)) in *. unfold feeds in *.
    replace (col - Z.of_nat (S n)) with (col - 1 - Z.of_nat n) by lia. by rewrite H2, H3.
Qed.

Lemma left_by n t row col : at_pos t row col -> 0 < n <= col ->
  let t' := feeds w h (csi n "D"%char) t in at_pos t' row (col - n) /\ t_top t' = t_top t /\ t_cell t' = t_cell t.
Proof using.
  intros (Hg & Hp & Hr & Hc & Hb) Hn. cbv zeta. rewrite feeds_csi by (done || lia). unfold control. cbn. unfold at_pos. cbn.
  rewrite Hr, Hc. split_and!; first [done|lia].
Qed.

Lemma right_by n t row : at_pos t row 0 -> 0 < n < w ->
  let t' := feeds w h (csi n "C"%char) t in at_pos t' row n /\ t_top t' = t_top t /\ t_cell t' = t_cell t.
Proof using Hw.
  intros (Hg & Hp & Hr & Hc & Hb) Hn. cbv zeta. rewrite feeds_csi by (done || lia). unfold control. cbn. unfold at_pos. cbn.
  rewrite Hr, Hc. split_and!; first [done|lia].
Qed.

(** [\r] and up. *)
Lemma up_by n t row col : at_pos t row col -> 0 < n -> t_top t <= row - n ->
  let t' := feeds w h (CR :: csi n "A"%char) t in at_pos t' (row - n) 0 /\ t_top t' = t_top t /\ t_cell t' = t_cell t.
Proof using Hw.
  intros (Hg & Hp & Hr & Hc & Hb) Hn Ht. cbv zeta. change (CR :: csi n "A"%char) with ([CR] ++ csi n "A"%char). rewrite feeds_app.
  assert (feeds w h [CR] t = goto row 0 t) as -> by (cbn; unfold feed; rewrite Hg; cbn; by rewrite Hr).
  rewrite feeds_csi by (done || lia). unfold control. cbn. unfold at_pos. cbn. split_and!; first [done|lia].
Qed.

(** Up and then [\r]. *)
Lemma up_then_cr n t row col : at_pos t row col -> 0 <= n -> t_top t <= row - n ->
  let t' := feed w h (if 0 <? n then feeds w h (csi n "A"%char) t else t) CR in at_pos t' (row - n) 0 /\ t_top t' = t_top t /\ t_cell t' = t_cell t.
Proof using Hw.
  intros (Hg & Hp & Hr & Hc & Hb) Hn Ht. cbv zeta. destruct (Z.ltb_spec 0 n).
  - rewrite feeds_csi by (done || lia). unfold control. cbn. unfold at_pos. cbn. split_and!; first [done|lia].
  - unfold feed. rewrite Hg. cbn. unfold at_pos. cbn. split_and!; first [done|lia].
Qed.

Lemma div_mod_pos (n q r : Z) : n = q * w + r -> 0 <= r < w -> n / w = q /\ n mod w = r.
Proof using Hw. intros -> Hr. split; [symmetry; apply Z.div_unique with r; lia|symmetry; apply Z.mod_unique with q; lia]. Qed.

(** Where printing [n] characters from the start of a row leaves the cursor. *)
Definition printed (row n : Z) (t : term) : Prop :=
  t_parser t = Ground /\
  if (0 <? n) && (n mod w =? 0) then t_pending t = true /\ t_row t = row + n / w - 1 /\ t_col t = w - 1
  else t_pending t = false /\ t_row t = row + n / w /\ t_col t = n mod w.

Lemma printed_next row n t c : 0 <= n -> printed row n t -> in_view t -> plain c = true ->
  let t' := feed w h t c in
  printed row (n + 1) t' /\ in_view t' /\ t_top t <= t_top t' <= Z.max (t_top t) (row + (n + 1) / w - h + 1) /\
  forall q, t_cell t' q = if q =? row * w + n then c else t_cell t q.
Proof using Hw.
  intros Hn [Hg Ht] Hv Hc. cbv zeta. rewrite feed_plain by done. unfold put_char, printed, in_view in *.
  pose proof (Z.div_mod n w ltac:(lia)) as Hdm. pose proof (Z.mod_pos_bound n w ltac:(lia)) as Hmb. set (q := n / w) in *. set (r := n mod w) in *.
  destruct (Z.ltb_spec 0 n) as [Hpos|Hz], (Z.eqb_spec r 0) as [Hr|Hr]; cbn [andb] in Ht; destruct Ht as (Hp & Hrow & Hcol); rewrite Hp.
  - unfold line_feed. cbn [t_col t_row t_cell t_top]. destruct (Z.eqb_spec 0 (w - 1)); [lia|].
    destruct (div_mod_pos (n + 1) q 1) as [-> ->]; [lia..|]. destruct (Z.ltb_spec 0 (n + 1)); [|lia]. cbn [andb Z.eqb t_col t_row t_cell t_top t_parser t_pending].
    destruct (Z.leb_spec (t_top t + h) (t_row t + 1)); split_and!; try first [done|lia]; intros p; rewrite Hrow; same_cell.
  - rewrite Hcol. destruct (Z.eqb_spec r (w - 1)) as [Hlast|Hlast].
    + destruct (div_mod_pos (n + 1) (q + 1) 0) as [-> ->]; [lia..|]. destruct (Z.ltb_spec 0 (n + 1)); [|lia]. cbn.
      split_and!; try first [done|lia]. intros p. rewrite Hrow. same_cell.
    + destruct (div_mod_pos (n + 1) q (r + 1)) as [-> ->]; [lia..|]. destruct (Z.eqb_spec (r + 1) 0); [lia|]. rewrite andb_false_r. cbn.
      split_and!; try first [done|lia]. intros p. rewrite Hrow. same_cell.
  - rewrite Hcol. destruct (Z.eqb_spec r (w - 1)) as [Hlast|Hlast]; [lia|].
    destruct (div_mod_pos (n + 1) q (r + 1)) as [-> ->]; [lia..|]. destruct (Z.eqb_spec (r + 1) 0); [lia|]. rewrite andb_false_r. cbn.
    split_and!; try first [done|lia]. intros p. rewrite Hrow. same_cell.
  - exfalso. apply Hr. unfold r. replace n with 0 by lia. apply Z.mod_0_l. lia.
Qed.

(** Text that is wrapped by the terminal's margin. *)
Lemma prints row t : at_pos t row 0 -> in_view t -> forall l, Forall (fun c => plain c = true) l ->
  let t' := feeds w h l t in
  let n := Z.of_nat (length l) in
  printed row n t' /\ in_view t' /\ t_top t <= t_top t' <= Z.max (t_top t) (row + n / w - h + 1) /\
  forall q, t_cell t' q = if (row * w <=? q) && (q <? row * w + n) then nth (Z.to_nat (q - row * w)) l SP else t_cell t q.
Proof using Hw.
  intros (Hg & Hp & Hr & Hc & Hb) Hv. induction l as [|c l IH] using rev_ind; intros Hl; cbv zeta.
  - cbn [length feeds foldl]. unfold printed. change (Z.of_nat 0) with 0. destruct (div_mod_pos 0 0 0) as [-> ->]; [lia..|]. cbn.
    split_and!; try first [done|lia|unfold in_view in *; lia]. intros q.
    destruct (Z.leb_spec (row * w) q), (Z.ltb_spec q (row * w + 0)); cbn [andb]; first [done|lia].
  - apply Forall_app in Hl as [Hl Hcl]. apply Forall_cons in Hcl as [Hcl _]. destruct (IH Hl) as (H1 & H2 & H3 & H4).
    rewrite feeds_app, length_app. cbn [length]. rewrite Nat2Z.inj_add. change (Z.of_nat 1) with 1.
    destruct (printed_next row (Z.of_nat (length l)) (feeds w h l t) c) as (K1 & K2 & K3 & K4); [lia|done..|].
    assert (Z.of_nat (length l) / w <= (Z.of_nat (length l) + 1) / w) by (apply Z.div_le_mono; lia).
    split_and!; [done|done|cbn [feeds foldl] in *; lia|cbn [feeds foldl] in *; lia|]. intros q. cbn [feeds foldl] in *. rewrite K4, H4.
    destruct (Z.eqb_spec q (row * w + Z.of_nat (length l))) as [->|Hne].
    + destruct (Z.leb_spec (row * w) (row * w + Z.of_nat (length l))); [|lia].
      destruct (Z.ltb_spec (row * w + Z.of_nat (length l)) (row * w + (Z.of_nat (length l) + 1))); [|lia]. cbn [andb].
      replace (Z.to_nat (row * w + Z.of_nat (length l) - row * w)) with (length l) by lia. by rewrite nth_middle.
    + destruct (Z.leb_spec (row * w) q), (Z.ltb_spec q (row * w + Z.of_nat (length l))), (Z.ltb_spec q (row * w + (Z.of_nat (length l) + 1))); cbn [andb]; try first [done|lia].
      rewrite app_nth1 by lia. done.
Qed.
End Facts.
