(* ===== verification/LineDraw.v ===== *)
(** * What the line editor's drawing leaves on the screen

    [shown]: the screen has the last line of the prompt and the command from some
    row on, nothing behind them, what was there above them, and the cursor where it
    belongs.  [performs]: an operation keeps this and does to the line what the
    reference does. *)

From Stdlib Require Import Ascii String ZArith Lia Sorted.
From stdpp Require Import base list strings.
From S2P Require Import Prelude Clib LibbbStr LineEdit LineTerm.

Local Open Scope Z_scope.

Section Drawing.
Context (w h : Z) (Hw : 2 <= w < 2 ^ 15) (t0 : term).

Definition screen (s : editor) : term := feeds w h (out s) t0.

(** What moving and drawing leave alone. *)
Definition rest (s : editor) :=
  (cmdedit_termw s, cmdedit_prmt_len s, command_ps s, maxsize s, cmdedit_prompt s, prompt_last_line s, matches s, last_was_tab s, state s).

Definition all_plain (l : cstr) : Prop := Forall (fun c => plain c = true) l.

(** The prompt is printable, its last line does not end at the margin, and prompt
    and command fit on the screen. *)
Record sound (s : editor) : Prop := mk_sound {
  so_width : cmdedit_termw s = w;
  so_prompt : cmdedit_prmt_len s = Z.of_nat (length (prompt_last_line s));
  so_prompt_plain : all_plain (prompt_last_line s);
  so_margin : (0 <? cmdedit_prmt_len s) && (cmdedit_prmt_len s mod w =? 0) = false;
  so_fits : cmdedit_prmt_len s + maxsize s <= w * h;
  so_small : cmdedit_prmt_len s < 2 ^ 20;
  so_max : 2 <= maxsize s <= MAX_LINELEN;
  so_len : Z.of_nat (command_len s) < maxsize s;
  so_cursor : (cursor s <= command_len s)%nat;
  so_plain : all_plain (command_ps s);
  so_full : exists lines, cmdedit_prompt s = lines ++ prompt_last_line s /\ (lines = [] \/ last lines = Some NL) /\ Forall (fun c => plain c = true \/ c = NL) lines;
}.

(** The terminal's cursor is where the editor believes it is. *)
Record drawn (row0 : Z) (s : editor) : Prop := mk_drawn {
  dr_pos : at_pos w (screen s) (row0 + cmdedit_y s) (cmdedit_x s);
  dr_view : in_view h (screen s);
  dr_top : t_top (screen s) <= row0;
  dr_y : 0 <= cmdedit_y s;
  dr_cursor : cmdedit_y s * w + cmdedit_x s = cmdedit_prmt_len s + Z.of_nat (cursor s);
}.

(** What each cell has to show. *)
Definition want (above : Z -> ascii) (row0 : Z) (s : editor) (q : Z) : ascii :=
  if q <? row0 * w then above q else nth (Z.to_nat (q - row0 * w)) (prompt_last_line s ++ command_ps s) SP.

Definition shown (above : Z -> ascii) (row0 : Z) (s : editor) : Prop :=
  sound s /\ drawn row0 s /\ forall q, t_cell (screen s) q = want above row0 s q.

Lemma screen_emit b s : screen (emit b s) = feeds w h b (screen s).
Proof using. apply foldl_app. Qed.

(** The cell of the character at the cursor. *)
Definition cursor_cell (row0 : Z) (s : editor) : Z := row0 * w + cmdedit_prmt_len s + Z.of_nat (cursor s).

Lemma plain_not_nul c : plain c = true -> (c ≟ NUL)%cc = false.
Proof using. destruct (Ascii.eqb_spec c NUL) as [->|]; [by vm_compute|done]. Qed.

Lemma ps_plain s : sound s -> (cursor s < command_len s)%nat -> plain (ps_at s (cursor s)) = true.
Proof using.
  intros Hs Hc. unfold ps_at, at0. destruct (drop (cursor s) (command_ps s)) as [|c l] eqn:E.
  - apply (f_equal length) in E. rewrite length_drop in E. unfold command_len in Hc. cbn in E. lia.
  - cbn. pose proof (so_plain _ Hs) as Hp. unfold all_plain in Hp. rewrite Forall_forall in Hp. apply Hp.
    rewrite <- (take_drop (cursor s) (command_ps s)), E. apply elem_of_app. right. by left.
Qed.

Lemma rest_ps s s' : rest s' = rest s -> command_ps s' = command_ps s.
Proof using. by intros [=]. Qed.

Lemma rest_sound s s' : rest s' = rest s -> (cursor s' <= command_len s')%nat -> sound s -> sound s'.
Proof using. unfold rest. intros [= E1 E2 E3 E4 E5 E6 E7 E8 E9] Hc []. split; unfold command_len in *; first [congruence|by rewrite E5, E6]. Qed.

Lemma rest_want above row0 s s' q : rest s' = rest s -> want above row0 s' q = want above row0 s q.
Proof using. unfold rest, want. intros [= E1 E2 E3 E4 E5 E6 E7 E8 E9]. by rewrite E3, E6. Qed.

Lemma y_small row0 s : sound s -> drawn row0 s -> cmdedit_y s < h /\ cmdedit_y s < 2 ^ 21 /\ cmdedit_prmt_len s + Z.of_nat (command_len s) < w * h.
Proof using Hw.
  intros [] []. unfold MAX_LINELEN in *. destruct dr_pos0 as (_ & _ & _ & _ & Hx). assert (0 <= cmdedit_prmt_len s) by lia.
  split_and!; [nia|nia|lia].
Qed.

Lemma put_glyph row0 s : sound s -> drawn row0 s -> (cursor s < command_len s)%nat ->
  let s' := put_cur_glyph_and_inc_cursor s in
  drawn row0 s' /\ cursor s' = S (cursor s) /\ rest s' = rest s /\
  forall q, t_cell (screen s') q = if q =? cursor_cell row0 s then ps_at s (cursor s) else t_cell (screen s) q.
Proof using Hw.
  intros Hs Hd Hc. pose proof (y_small row0 s Hs Hd) as (Hy & Hy2 & Hlen). pose proof (ps_plain s Hs Hc) as Hp.
  destruct Hs as [Ew _ _ _ Hfit Hsm Hmax _ _ _]. destruct Hd as [Hpos Hv Htop Hy0 Hcur]. pose proof Hpos as (_ & _ & Hrow & _ & Hx).
  cbv zeta. unfold put_cur_glyph_and_inc_cursor. rewrite plain_not_nul by done. set (c := ps_at s (cursor s)) in *.
  cbn [cmdedit_x cmdedit_y cmdedit_termw set_xy set_cursor emit]. rewrite Ew, wrapU_id by (unfold is_u; lia). rewrite wrapS_id by (unfold is_s; lia).
  unfold cursor_cell. destruct (Z.leb_spec 0 (cmdedit_x s + 1 - w)) as [Hend|Hin].
  - assert (cmdedit_x s = w - 1) as Hl by lia. rewrite Hl in *. unfold in_view in Hv.
    assert (cmdedit_y s + 1 < h) as Hrows by (unfold command_len in *; nia).
    destruct (put_last w h Hw (screen s) (row0 + cmdedit_y s) c Hpos Hp ltac:(lia)) as (H1 & H2 & H3).
    assert (forall x y s1, screen (set_xy x y s1) = screen s1) as Hxy by done. rewrite Hxy, !screen_emit.
    change (screen (set_xy _ _ _)) with (screen s).
    rewrite (wrapU_id 32 (cmdedit_y s + 1)) by (unfold is_u; lia). split_and!; [|done|done|].
    + constructor; cbn [cmdedit_x cmdedit_y cmdedit_prmt_len cursor set_xy set_cursor emit]; rewrite ?Hxy, ?screen_emit; change (screen (set_xy _ _ _)) with (screen s); cbn [feeds foldl] in *.
      * by rewrite Z.add_assoc.
      * destruct H1 as (_ & _ & Hr1 & _). unfold in_view. cbn [feeds foldl]. rewrite H2, Hr1. lia.
      * rewrite H2. lia.
      * lia.
      * lia.
    + intros q. cbn [feeds foldl] in *. rewrite H3. same_cell.
  - assert (cmdedit_x s < w - 1) as Hl by lia.
    destruct (put_at w h (screen s) (row0 + cmdedit_y s) (cmdedit_x s) c Hpos Hp Hl) as (H1 & H2 & H3).
    rewrite screen_emit. change (screen (set_xy _ _ _)) with (screen s). split_and!; [|done|done|].
    + constructor; cbn [cmdedit_x cmdedit_y cmdedit_prmt_len cursor set_xy set_cursor emit]; rewrite ?screen_emit; change (screen (set_xy _ _ _)) with (screen s); cbn [feeds foldl] in *.
      * done.
      * destruct H1 as (_ & _ & Hr1 & _). unfold in_view in *. rewrite H2, Hr1. lia.
      * by rewrite H2.
      * done.
      * lia.
    + intros q. cbn [feeds foldl] in *. rewrite H3. same_cell.
Qed.

(** The cell behind the command's last character. *)
Definition end_cell (row0 : Z) (s : editor) : Z := row0 * w + cmdedit_prmt_len s + Z.of_nat (command_len s).

Lemma want_cursor above row0 s : sound s -> (cursor s < command_len s)%nat -> want above row0 s (cursor_cell row0 s) = ps_at s (cursor s).
Proof using.
  intros Hs Hc. unfold want, cursor_cell. rewrite (so_prompt _ Hs). destruct (Z.ltb_spec (row0 * w + Z.of_nat (length (prompt_last_line s)) + Z.of_nat (cursor s)) (row0 * w)); [lia|].
  rewrite app_nth2 by lia. replace (Z.to_nat _ - _)%nat with (cursor s) by lia. unfold ps_at, at0. rewrite <- (take_drop (cursor s) (command_ps s)) at 1.
  unfold command_len in Hc. rewrite app_nth2 by (rewrite length_take; lia). rewrite length_take.
  replace (cursor s - _)%nat with 0%nat by lia. destruct (drop (cursor s) (command_ps s)) eqn:E; [|done].
  apply (f_equal length) in E. rewrite length_drop in E. cbn in E. lia.
Qed.

Lemma rest_end row0 s s' : rest s' = rest s -> end_cell row0 s' = end_cell row0 s.
Proof using. unfold rest, end_cell, command_len. intros [= E1 E2 E3 E4 E5 E6 E7 E8 E9]. by rewrite E2, E3. Qed.

Lemma put_till above row0 s : sound s -> drawn row0 s ->
  let s' := put_till_end_and_adv_cursor s in
  drawn row0 s' /\ cursor s' = command_len s /\ rest s' = rest s /\
  forall q, t_cell (screen s') q = if (cursor_cell row0 s <=? q) && (q <? end_cell row0 s) then want above row0 s q else t_cell (screen s) q.
Proof using Hw.
  unfold put_till_end_and_adv_cursor. remember (command_len s - cursor s)%nat as n eqn:En. revert s En.
  induction n as [|n IH]; intros s En Hs Hd; pose proof (so_cursor _ Hs) as Hc; cbn [while].
  - split_and!; [done|lia|done|]. intros q. unfold cursor_cell, end_cell. replace (command_len s) with (cursor s) by lia.
    destruct (Z.leb_spec (row0 * w + cmdedit_prmt_len s + Z.of_nat (cursor s)) q), (Z.ltb_spec q (row0 * w + cmdedit_prmt_len s + Z.of_nat (cursor s))); first [lia|done].
  - destruct (Nat.ltb_spec (cursor s) (command_len s)) as [Hlt|]; [|lia].
    destruct (put_glyph row0 s Hs Hd Hlt) as (Hd1 & Hc1 & Hr1 & Hq1). set (s1 := put_cur_glyph_and_inc_cursor s) in *.
    assert (command_len s1 = command_len s) as Hl1 by (unfold rest, command_len in *; congruence).
    assert (sound s1) as Hs1 by (apply (rest_sound s); [done|lia|done]).
    destruct (IH s1) as (H1 & H2 & H3 & H4); [lia|done..|]. split_and!; [done|congruence|congruence|].
    intros q. rewrite H4, Hq1, (rest_want _ _ s), (rest_end _ s) by done.
    assert (cursor_cell row0 s1 = cursor_cell row0 s + 1) as -> by (unfold cursor_cell; unfold rest in Hr1; injection Hr1 as _ E2 _ _ _ _ _ _ _; rewrite Hc1, E2; lia).
    pose proof (want_cursor above row0 s Hs Hlt) as Hwant. assert (cursor_cell row0 s < end_cell row0 s) by (unfold cursor_cell, end_cell; lia).
    destruct (Z.eqb_spec q (cursor_cell row0 s)) as [->|Hne].
    + rewrite Z.leb_refl. destruct (Z.leb_spec (cursor_cell row0 s + 1) (cursor_cell row0 s)), (Z.ltb_spec (cursor_cell row0 s) (end_cell row0 s)); cbn [andb]; first [lia|done].
    + destruct (Z.leb_spec (cursor_cell row0 s + 1) q), (Z.leb_spec (cursor_cell row0 s) q), (Z.ltb_spec q (end_cell row0 s)); cbn [andb]; first [lia|done].
Qed.

Lemma clear_cells row0 s : drawn row0 s ->
  let s' := emit SEQ_CLEAR_TILL_END_OF_SCREEN s in
  drawn row0 s' /\ forall q, t_cell (screen s') q = if q <? cursor_cell row0 s then t_cell (screen s) q else SP.
Proof using.
  intros []. cbv zeta. destruct (clear_at w h (screen s) _ _ dr_pos0) as (H1 & H2 & H3). split.
  - constructor; rewrite ?screen_emit; cbn [cmdedit_x cmdedit_y cmdedit_prmt_len cursor emit]; try done.
    + unfold in_view in *. destruct H1 as (_ & _ & Hr1 & _), dr_pos0 as (_ & _ & Hr & _). rewrite H2, Hr1. lia.
    + by rewrite H2.
  - intros q. rewrite screen_emit, H3. unfold cursor_cell. by replace ((row0 + cmdedit_y s) * w + cmdedit_x s) with (row0 * w + cmdedit_prmt_len s + Z.of_nat (cursor s)) by lia.
Qed.

(** The editor's way back is the terminal's. *)
Lemma backward_rows x y n : 0 <= x < w -> 0 <= y -> x < n -> n <= y * w + x ->
  let n' := n - x in let lines_up := 1 + (n' - 1) / w in
  0 <= y - lines_up /\ 0 < lines_up /\ (y - lines_up) * w + (w * y - n') mod w = y * w + x - n /\ 0 <= (w * y - n') mod w < w /\ 0 <= w * y - n'.
Proof using Hw.
  intros Hx Hy Hn Hle. cbv zeta. pose proof (Z.div_mod (n - x - 1) w ltac:(lia)) as H1. pose proof (Z.mod_pos_bound (n - x - 1) w ltac:(lia)) as H2.
  set (d := (n - x - 1) / w) in *. set (m := (n - x - 1) mod w) in *. pose proof (Z.div_pos (n - x - 1) w ltac:(lia) ltac:(lia)) as Hd. fold d in Hd.
  destruct (div_mod_pos w Hw (w * y - (n - x)) (y - (1 + d)) (w - 1 - m)) as [E1 E2]; [lia|lia|]. rewrite E2. split_and!; nia.
Qed.

Lemma input_backward_cells row0 n s : sound s -> drawn row0 s ->
  let s' := input_backward n s in
  drawn row0 s' /\ cursor s' = (cursor s - n)%nat /\ rest s' = rest s /\ t_cell (screen s') = t_cell (screen s).
Proof using Hw.
  intros Hs Hd. pose proof (y_small row0 s Hs Hd) as (Hyh & Hy2 & Hlen). pose proof (so_cursor _ Hs) as Hcl. destruct Hd as [Hpos Hv Htop Hy Hcur].
  cbv zeta. unfold input_backward. destruct (Nat.eqb_spec (Nat.min n (cursor s)) 0) as [H0|H0].
  { split_and!; [done|lia|done|done]. }
  set (num := Nat.min n (cursor s)) in *. pose proof Hpos as (_ & _ & Hrow & _ & Hx).
  assert (forall x y c s1, screen (set_xy x y (set_cursor c s1)) = screen s1) as Hsc by done.
  cbn [cmdedit_x cmdedit_y cmdedit_termw set_cursor set_xy emit]. rewrite (so_width _ Hs). pose proof (so_small _ Hs) as Hsmall.
  assert (0 <= cmdedit_prmt_len s) as Hp0 by (rewrite (so_prompt _ Hs); lia).
  destruct (Z.leb_spec (Z.of_nat num) (cmdedit_x s)) as [Hsame|Hup].
  - assert (exists b, (if Z.of_nat num <=? 4 then emit (repeat BS (Z.to_nat (Z.of_nat num))) else emit (csi (Z.of_nat num) "D"%char)) = emit b /\
      let t' := feeds w h b (screen s) in at_pos w t' (row0 + cmdedit_y s) (cmdedit_x s - Z.of_nat num) /\ t_top t' = t_top (screen s) /\ t_cell t' = t_cell (screen s)) as (b & Eb & H1 & H2 & H3).
    { destruct (Z.of_nat num <=? 4); eexists; (split; [done|]).
      - rewrite Nat2Z.id. apply backspaces; [done|lia].
      - apply left_by; [done|lia]. }
    set (s1 := set_xy _ _ _). assert ((if Z.of_nat num <=? 4 then emit (repeat BS (Z.to_nat (Z.of_nat num))) s1 else emit (csi (Z.of_nat num) "D"%char) s1) = emit b s1) as ->.
    { rewrite <- Eb. by destruct (_ <=? _). }
    assert (screen s1 = screen s) as Es1 by done. split_and!; [|cbn; lia|done|by rewrite screen_emit, Es1].
    constructor; rewrite ?screen_emit, ?Es1; cbn [s1 cmdedit_x cmdedit_y cmdedit_prmt_len cursor set_xy set_cursor emit];
      first [done|unfold in_view in *; destruct H1 as (_ & _ & Hr1 & _); lia|lia].
  - destruct (backward_rows (cmdedit_x s) (cmdedit_y s) (Z.of_nat num)) as (B1 & B2 & B3 & B4 & B5); [lia..|].
    set (lines_up := 1 + (Z.of_nat num - cmdedit_x s - 1) / w) in *.
    assert (w * cmdedit_y s - (Z.of_nat num - cmdedit_x s) < 2 ^ 32) by (pose proof (so_len _ Hs); pose proof (so_max _ Hs); unfold MAX_LINELEN in *; lia).
    rewrite (wrapU_id 32 (w * _ - _)) by (unfold is_u; lia). rewrite (wrapU_id 32 (cmdedit_y s - _)) by (unfold is_u; lia).
    set (x' := (w * cmdedit_y s - (Z.of_nat num - cmdedit_x s)) mod w) in *.
    destruct (up_by w h Hw lines_up (screen s) _ _ Hpos B2 ltac:(lia)) as (H1 & H2 & H3).
    set (s1 := set_xy _ _ _). assert (screen s1 = screen s) as Es1 by done.
    destruct (Z.eqb_spec x' 0) as [Hx0|Hx0].
    + split_and!; [|cbn; lia|done|by rewrite screen_emit, Es1].
      constructor; rewrite ?screen_emit, ?Es1; cbn [s1 cmdedit_x cmdedit_y cmdedit_prmt_len cursor set_xy set_cursor emit].
      * rewrite Hx0. by replace (row0 + (cmdedit_y s - lines_up)) with (row0 + cmdedit_y s - lines_up) by lia.
      * unfold in_view in *. destruct H1 as (_ & _ & Hr1 & _). lia.
      * lia.
      * lia.
      * lia.
    + destruct (right_by w h Hw x' _ _ H1 ltac:(lia)) as (K1 & K2 & K3).
      split_and!; [|cbn; lia|done|by rewrite !screen_emit, Es1, K3].
      constructor; rewrite ?screen_emit, ?Es1; cbn [s1 cmdedit_x cmdedit_y cmdedit_prmt_len cursor set_xy set_cursor emit].
      * by replace (row0 + (cmdedit_y s - lines_up)) with (row0 + cmdedit_y s - lines_up) by lia.
      * unfold in_view in *. destruct K1 as (_ & _ & Hr1 & _). lia.
      * lia.
      * lia.
      * lia.
Qed.

(** ** Operations on what is shown *)

Section Operations.
Context (above : Z -> ascii) (row0 : Z).

Abbreviation shown' := (shown above row0).

Lemma shown_backward n s : shown' s ->
  shown' (input_backward n s) /\ cursor (input_backward n s) = (cursor s - n)%nat /\ rest (input_backward n s) = rest s.
Proof using Hw.
  intros (Hs & Hd & Hq). destruct (input_backward_cells row0 n s Hs Hd) as (H1 & H2 & H3 & H4).
  assert (command_len (input_backward n s) = command_len s) as Hl by (unfold rest, command_len in *; congruence).
  split_and!; [|done|done]. split_and!; [apply (rest_sound s); [done|pose proof (so_cursor _ Hs); lia|done]|done|].
  intros q. by rewrite H4, (rest_want _ _ s).
Qed.

Lemma shown_till s : shown' s ->
  let s' := put_till_end_and_adv_cursor s in shown' s' /\ cursor s' = command_len s /\ rest s' = rest s.
Proof using Hw.
  intros (Hs & Hd & Hq). destruct (put_till above row0 s Hs Hd) as (H1 & H2 & H3 & H4). cbv zeta.
  set (s' := put_till_end_and_adv_cursor s) in *.
  assert (command_len s' = command_len s) as Hl by (unfold rest, command_len in *; congruence).
  split_and!; [|done|done]. split_and!; [apply (rest_sound s); [done|lia|done]|done|].
  intros q. rewrite H4, Hq, (rest_want _ _ s s') by done. by destruct (_ && _).
Qed.

Lemma shown_forward s : shown' s ->
  shown' (input_forward s) /\ cursor (input_forward s) = Nat.min (S (cursor s)) (command_len s) /\ rest (input_forward s) = rest s.
Proof using Hw.
  intros (Hs & Hd & Hq). unfold input_forward. pose proof (so_cursor _ Hs) as Hc. destruct (Nat.ltb_spec (cursor s) (command_len s)) as [Hlt|]; [|split_and!; [done|lia|done]].
  destruct (put_glyph row0 s Hs Hd Hlt) as (H1 & H2 & H3 & H4). set (s' := put_cur_glyph_and_inc_cursor s) in *.
  assert (command_len s' = command_len s) as Hl by (unfold rest, command_len in *; congruence).
  split_and!; [|lia|done]. split_and!; [apply (rest_sound s); [done|lia|done]|done|].
  intros q. rewrite H4, Hq, (rest_want _ _ s s') by done. destruct (Z.eqb_spec q (cursor_cell row0 s)) as [->|]; [|done].
  by rewrite want_cursor.
Qed.

(** The text is another from the cursor on. *)
Definition retyped (s : editor) (b : cstr) : Prop :=
  all_plain b /\ Z.of_nat (length b) < maxsize s /\ (cursor s <= length b)%nat /\ take (cursor s) b = take (cursor s) (command_ps s).

Lemma nth_take (l m : cstr) (i k : nat) : take k l = take k m -> (i < k)%nat -> nth i l SP = nth i m SP.
Proof using. intros E Hi. rewrite !nth_lookup. f_equal. rewrite <- (lookup_take_lt l k i) by done. by rewrite E, lookup_take_lt. Qed.

Lemma want_retyped s b q : sound s -> take (cursor s) b = take (cursor s) (command_ps s) -> q < cursor_cell row0 s ->
  want above row0 (set_ps b s) q = want above row0 s q.
Proof using.
  intros Hs E Hq. unfold want, cursor_cell in *. cbn [prompt_last_line command_ps set_ps]. destruct (Z.ltb_spec q (row0 * w)); [done|].
  rewrite (so_prompt _ Hs) in Hq. set (i := Z.to_nat (q - row0 * w)). destruct (decide (i < length (prompt_last_line s))%nat) as [Hi|Hi].
  - by rewrite !app_nth1.
  - rewrite !app_nth2 by lia. apply (nth_take _ _ _ (cursor s)); [done|lia].
Qed.

Lemma want_behind s q : sound s -> end_cell row0 s <= q -> want above row0 s q = SP.
Proof using.
  intros Hs Hq. unfold want, end_cell, command_len in *. rewrite (so_prompt _ Hs) in Hq. destruct (Z.ltb_spec q (row0 * w)); [lia|].
  apply nth_overflow. rewrite length_app. lia.
Qed.

(** The new text is written from the cursor on, and the rest of the screen cleared
    if there may be something. *)
Lemma shown_retyped b clear s : shown' s -> retyped s b -> (clear = true \/ (length (command_ps s) <= length b)%nat) ->
  let s' := put_till_end_and_adv_cursor (set_ps b s) in
  let s' := if clear then emit SEQ_CLEAR_TILL_END_OF_SCREEN s' else s' in
  shown' s' /\ cursor s' = length b /\ rest s' = rest (set_ps b s).
Proof using Hw.
  intros (Hs & Hd & Hq) (Hp & Hl & Hc & Et) Hclear.
  assert (sound (set_ps b s)) as Hs1 by (destruct Hs; by constructor).
  assert (drawn row0 (set_ps b s)) as Hd1 by (destruct Hd; by constructor).
  destruct (put_till above row0 _ Hs1 Hd1) as (H1 & H2 & H3 & H4). cbv zeta. set (s1 := put_till_end_and_adv_cursor (set_ps b s)) in *.
  assert (command_len s1 = length b) as Hl1 by (unfold command_len; by rewrite (rest_ps _ _ H3)).
  assert (sound s1) as Hs2 by (apply (rest_sound (set_ps b s)); [done|rewrite Hl1, H2; done|done]).
  assert (cursor_cell row0 s1 = end_cell row0 (set_ps b s)) as Ecell.
  { unfold cursor_cell, end_cell. rewrite H2. unfold rest in H3. injection H3 as _ -> _ _ _ _ _ _ _. done. }
  assert (forall q, q < end_cell row0 (set_ps b s) -> t_cell (screen s1) q = want above row0 s1 q) as Hbefore.
  { intros q Hlt. rewrite H4, (rest_want _ _ (set_ps b s) s1) by done. change (screen (set_ps b s)) with (screen s).
    change (cursor_cell row0 (set_ps b s)) with (cursor_cell row0 s). destruct (Z.leb_spec (cursor_cell row0 s) q), (Z.ltb_spec q (end_cell row0 (set_ps b s))); cbn [andb]; [done|lia| |lia].
    by rewrite Hq, want_retyped. }
  destruct clear.
  - destruct (clear_cells row0 s1 H1) as (K1 & K2). split_and!; [|done|done]. split_and!; [by destruct Hs2; constructor|done|].
    intros q. rewrite K2, Ecell, (rest_want _ _ s1 (emit SEQ_CLEAR_TILL_END_OF_SCREEN s1)) by done. destruct (Z.ltb_spec q (end_cell row0 (set_ps b s))); [by apply Hbefore|].
    symmetry. apply want_behind; [done|]. by rewrite (rest_end _ (set_ps b s)).
  - destruct Hclear as [?|Hlen]; [done|]. split_and!; [|done|done]. split_and!; [done|done|]. intros q.
    destruct (Z.ltb_spec q (end_cell row0 (set_ps b s))) as [?|Hge]; [by apply Hbefore|].
    rewrite want_behind by (first [done|by rewrite (rest_end _ (set_ps b s))]). rewrite H4.
    destruct (Z.ltb_spec q (end_cell row0 (set_ps b s))); [lia|]. rewrite andb_false_r. change (screen (set_ps b s)) with (screen s).
    rewrite Hq. apply want_behind; [done|]. unfold end_cell, command_len in *. cbn in Hge. lia.
Qed.
End Operations.

(** ** Drawing it all *)

Lemma emit_app a b s : emit (a ++ b) s = emit b (emit a s).
Proof using. unfold emit. cbn. by rewrite app_assoc. Qed.

(** A terminal between two control sequences. *)
Definition steady (t : term) : Prop := t_parser t = Ground /\ in_view h t /\ 0 <= t_col t < w.

Lemma steady_line_feed t : steady t -> steady (line_feed h t) /\ at_pos w (line_feed h t) (t_row t + 1) 0.
Proof using Hw.
  intros (Hg & Hv & Hc). unfold steady, in_view, at_pos, line_feed in *. cbn. destruct (Z.leb_spec (t_top t + h) (t_row t + 1)); split_and!; first [done|lia].
Qed.

Lemma steady_put c t : steady t -> steady (put_char w h c t).
Proof using Hw.
  intros Ht. unfold put_char. assert (steady (if t_pending t then line_feed h t else t)) as (Hg & Hv & Hc) by (destruct (t_pending t); [by apply steady_line_feed|done]).
  set (t' := if t_pending t then _ else _) in *. unfold steady, in_view in *. destruct (Z.eqb_spec (t_col t') (w - 1)); cbn; split_and!; first [done|lia].
Qed.

Lemma feed_nl t : t_parser t = Ground -> feed w h t NL = line_feed h t.
Proof using. intros Hg. unfold feed. rewrite Hg. done. Qed.

Lemma steady_text l : forall t, steady t -> Forall (fun c => plain c = true \/ c = NL) l ->
  steady (feeds w h l t) /\ (last l = Some NL -> exists row, at_pos w (feeds w h l t) row 0).
Proof using Hw.
  induction l as [|c l IH] using rev_ind; intros t Ht Hl; [done|]. apply Forall_app in Hl as [Hl Hc]. apply Forall_cons in Hc as [Hc _].
  rewrite feeds_app, last_snoc. destruct (IH t Ht Hl) as [Hs _]. pose proof Hs as [Hg _]. cbn [feeds foldl]. change (foldl (feed w h) t l) with (feeds w h l t). destruct Hc as [Hc| ->].
  - rewrite feed_plain by done. split; [by apply steady_put|intros [= ->]; by vm_compute in Hc].
  - rewrite feed_nl by done. destruct (steady_line_feed _ Hs). split; [done|eauto].
Qed.

Lemma steady_cr t : steady t -> at_pos w (feed w h t CR) (t_row t) 0 /\ in_view h (feed w h t CR) /\ t_cell (feed w h t CR) = t_cell t.
Proof using Hw. intros (Hg & Hv & Hc). unfold feed. rewrite Hg. unfold at_pos, in_view in *. cbn. split_and!; first [done|lia]. Qed.

Lemma drawn_steady row0 s : drawn row0 s -> steady (screen s).
Proof using. intros []. destruct dr_pos0 as (? & ? & ? & Hc & ?). unfold steady. by rewrite Hc. Qed.

(** Prompt and command on a row that has nothing in front of the cursor. *)
Lemma fresh_shown above row0 s : sound (set_cursor 0 s) -> at_pos w (screen s) row0 0 -> in_view h (screen s) -> t_top (screen s) <= row0 ->
  (forall q, q < row0 * w -> t_cell (screen s) q = above q) ->
  let s1 := set_xy (cmdedit_prmt_len s mod cmdedit_termw s) (cmdedit_prmt_len s / cmdedit_termw s) (set_cursor 0 (emit (prompt_last_line s) s)) in
  let s2 := emit SEQ_CLEAR_TILL_END_OF_SCREEN (put_till_end_and_adv_cursor s1) in
  shown above row0 s2 /\ cursor s2 = command_len s /\ rest s2 = rest s.
Proof using Hw.
  intros Hs Hpos Hv Htop Habove s1 s2. pose proof Hs as [Ew Epr Hplain Hmargin Hfits Hsmall Hmax Hlen _ _ _].
  cbn in Ew, Epr, Hplain, Hmargin, Hfits, Hsmall, Hmax, Hlen. unfold command_len in Hlen. cbn in Hlen.
  destruct (prints w h Hw row0 (screen s) Hpos Hv (prompt_last_line s) Hplain) as ((Hg & Hpr) & Hv1 & Ht1 & Hq1).
  rewrite <- Epr, Hmargin in *. destruct Hpr as (Hp1 & Hr1 & Hc1).
  assert (screen s1 = feeds w h (prompt_last_line s) (screen s)) as Es1 by (unfold s1; change (screen (set_xy _ _ _)) with (screen (emit (prompt_last_line s) s)); apply screen_emit).
  pose proof (Z.mod_pos_bound (cmdedit_prmt_len s) w ltac:(lia)) as Hmod. pose proof (Z.div_mod (cmdedit_prmt_len s) w ltac:(lia)) as Hdm.
  pose proof (Z.div_pos (cmdedit_prmt_len s) w ltac:(lia) ltac:(lia)) as Hdp.
  assert (cmdedit_prmt_len s / w < h) as Hrows by (apply Z.div_lt_upper_bound; lia).
  assert (drawn row0 s1) as Hd1.
  { constructor; rewrite ?Es1; unfold s1; cbn [cmdedit_x cmdedit_y cmdedit_prmt_len cmdedit_termw cursor set_xy set_cursor emit]; rewrite ?Ew; first [done|lia]. }
  assert (sound s1) as Hs1 by (destruct Hs; by constructor).
  destruct (put_till above row0 s1 Hs1 Hd1) as (H1 & H2 & H3 & H4). set (s3 := put_till_end_and_adv_cursor s1) in *.
  assert (sound s3) as Hs3 by (apply (rest_sound s1); [done|unfold command_len in *; rewrite (rest_ps _ _ H3), H2; done|done]).
  destruct (clear_cells row0 s3 H1) as (K1 & K2). change (emit SEQ_CLEAR_TILL_END_OF_SCREEN s3) with s2 in K1, K2.
  split_and!; [|done|done]. split_and!; [by destruct Hs3; constructor|done|]. intros q.
  assert (cursor_cell row0 s3 = end_cell row0 s1) as Ecell.
  { unfold cursor_cell, end_cell. rewrite H2. unfold rest in H3. injection H3 as _ -> _ _ _ _ _ _ _. done. }
  assert (cmdedit_prmt_len s1 = cmdedit_prmt_len s) as Ep1 by done.
  rewrite K2, Ecell, (rest_want _ _ s3 s2), (rest_want _ _ s1 s3) by done. destruct (Z.ltb_spec q (end_cell row0 s1)) as [Hlt|Hge]; [|by rewrite want_behind].
  rewrite H4. destruct (Z.ltb_spec q (end_cell row0 s1)); [|lia]. rewrite andb_true_r.
  destruct (Z.leb_spec (cursor_cell row0 s1) q) as [|Hfront]; [done|]. unfold cursor_cell in Hfront. change (cursor s1) with 0%nat in Hfront.
  rewrite Es1, Hq1. unfold want. change (prompt_last_line s1) with (prompt_last_line s). change (command_ps s1) with (command_ps s).
  destruct (Z.ltb_spec q (row0 * w)) as [Hq|Hq], (Z.leb_spec (row0 * w) q); try lia; cbn [andb]; [by apply Habove|].
  destruct (Z.ltb_spec q (row0 * w + cmdedit_prmt_len s)); [|lia]. rewrite app_nth1 by lia. done.
Qed.

Lemma redraw_shown above row0 back s : sound (set_cursor 0 s) -> at_pos w (screen s) (row0 + cmdedit_y s) (cmdedit_x s) -> in_view h (screen s) ->
  t_top (screen s) <= row0 -> 0 <= cmdedit_y s -> (forall q, q < row0 * w -> t_cell (screen s) q = above q) ->
  let s' := redraw (cmdedit_y s) back s in
  shown above row0 s' /\ cursor s' = (command_len s - back)%nat /\ rest s' = rest s.
Proof using Hw.
  intros Hs Hpos Hv Htop Hy Habove. cbv zeta. unfold redraw, draw_custom. set (s0 := if 0 <? cmdedit_y s then _ else _).
  destruct (up_then_cr w h Hw (cmdedit_y s) (screen s) _ _ Hpos Hy ltac:(lia)) as (H1 & H2 & H3).
  replace (row0 + cmdedit_y s - cmdedit_y s) with row0 in H1 by lia.
  assert (screen (emit [CR] s0) = feed w h (if 0 <? cmdedit_y s then feeds w h (csi (cmdedit_y s) "A"%char) (screen s) else screen s) CR) as Es.
  { rewrite screen_emit. unfold s0. destruct (0 <? cmdedit_y s); [by rewrite screen_emit|done]. }
  assert (rest (emit [CR] s0) = rest s) as Er by (unfold s0; by destruct (0 <? cmdedit_y s)).
  change (put_prompt_custom false (emit [CR] s0)) with
    (set_xy (cmdedit_prmt_len (emit [CR] s0) mod cmdedit_termw (emit [CR] s0)) (cmdedit_prmt_len (emit [CR] s0) / cmdedit_termw (emit [CR] s0))
       (set_cursor 0 (emit (prompt_last_line (emit [CR] s0)) (emit [CR] s0)))).
  destruct (fresh_shown above row0 (emit [CR] s0)) as (K1 & K2 & K3).
  - apply (rest_sound (set_cursor 0 s)); [done|cbn; lia|done].
  - by rewrite Es.
  - rewrite Es. unfold in_view in *. destruct H1 as (_ & _ & Hr & _), Hpos as (_ & _ & Hr' & _). rewrite H2, Hr. lia.
  - by rewrite Es, H2.
  - intros q Hq. rewrite Es, H3. by apply Habove.
  - set (s2 := emit SEQ_CLEAR_TILL_END_OF_SCREEN _) in *.
    destruct (shown_backward above row0 back s2 K1) as (J1 & J2 & J3). split_and!; [done| |congruence].
    rewrite J2, K2. unfold command_len. by rewrite (rest_ps _ _ Er).
Qed.

(** With the whole prompt, wherever the cursor is. *)
Lemma draw_full_shown back s : sound (set_cursor 0 s) -> steady (screen s) ->
  let s' := draw_full back s in
  (exists above row0, shown above row0 s') /\ cursor s' = (command_len s - back)%nat /\ rest s' = rest s.
Proof using Hw.
  intros Hs Hst. cbv zeta. unfold draw_full, draw_custom. cbn [Z.ltb Z.compare]. destruct (so_full _ Hs) as (lines & Efull & Hlast & Hlines). cbn in Efull.
  destruct (steady_cr _ Hst) as (H1 & H2 & _).
  set (s0 := emit [CR] s) in *. assert (screen s0 = feed w h (screen s) CR) as Es0 by (unfold s0; by rewrite screen_emit).
  rewrite <- Es0 in H1, H2. set (s1 := emit lines s0).
  assert (steady (screen s0)) as Hst0 by (destruct H1 as (? & ? & ? & Hc & ?); unfold steady; by rewrite Hc).
  destruct (steady_text lines (screen s0) Hst0 Hlines) as (K1 & K2). rewrite <- screen_emit in K1, K2. fold s1 in K1, K2.
  assert (exists row, at_pos w (screen s1) row 0) as (row & Hrow).
  { destruct Hlast as [->|Hl]; [|by apply K2]. exists (t_row (screen s)). unfold s1. by rewrite screen_emit. }
  assert (put_prompt_custom true s0 = set_xy (cmdedit_prmt_len s1 mod cmdedit_termw s1) (cmdedit_prmt_len s1 / cmdedit_termw s1) (set_cursor 0 (emit (prompt_last_line s1) s1))) as ->.
  { unfold put_prompt_custom, s1. change (cmdedit_prompt s0) with (cmdedit_prompt s). rewrite Efull, emit_app. done. }
  destruct (fresh_shown (t_cell (screen s1)) row s1) as (J1 & J2 & J3).
  - apply (rest_sound (set_cursor 0 s)); [done|cbn; lia|done].
  - done.
  - by destruct K1 as (_ & ? & _).
  - destruct K1 as (_ & Hv & _), Hrow as (_ & _ & Hr & _). unfold in_view in Hv. lia.
  - done.
  - set (s2 := emit SEQ_CLEAR_TILL_END_OF_SCREEN _) in *. destruct (shown_backward _ row back s2 J1) as (M1 & M2 & M3).
    split_and!; [by eauto|by rewrite M2, J2|by rewrite M3, J3].
Qed.

(** ** Operations on the text *)

(** What the keys that edit leave alone. *)
Definition other (s : editor) :=
  (cmdedit_termw s, cmdedit_prmt_len s, maxsize s, cmdedit_prompt s, prompt_last_line s, matches s, last_was_tab s, state s).

(** On the screen [f] does to what is shown what [g] does to the line. *)
Definition performs (f : editor -> editor) (s : editor) (l : line) : Prop :=
  forall above row0, shown above row0 s -> shown above row0 (f s) /\ line_of (f s) = l /\ other (f s) = other s.

Lemma rest_other s s' : rest s' = rest s -> other s' = other s.
Proof using. unfold rest, other. intros [= E1 E2 E3 E4 E5 E6 E7 E8 E9]. congruence. Qed.

Lemma line_of_rest s s' k : rest s' = rest s -> cursor s' = k -> line_of s' = mk_line (take k (command_ps s)) (drop k (command_ps s)).
Proof using. intros E <-. unfold line_of. by rewrite (rest_ps _ _ E). Qed.

Lemma line_cursor s b f : (cursor s <= command_len s)%nat -> line_of s = mk_line b f -> command_ps s = b ++ f /\ cursor s = length b.
Proof using.
  unfold line_of, command_len. intros Hc [= <- <-]. rewrite take_drop, length_take. split; [done|lia].
Qed.

Lemma shown_cursor above row0 s : shown above row0 s -> (cursor s <= command_len s)%nat.
Proof using. intros (Hs & _). by destruct Hs. Qed.

Lemma line_at s b f : command_ps s = b ++ f -> cursor s = length b -> line_of s = mk_line b f.
Proof using. intros E1 E2. unfold line_of. by rewrite E1, E2, take_app_length, drop_app_length. Qed.

(** The line after a move to the end of [b']. *)
Definition move_to (b' : cstr) (l : line) : line := mk_line b' (drop (length b') (before l ++ after l)).

Lemma performs_backward n s : performs (input_backward n) s (move_to (take (cursor s - n) (command_ps s)) (line_of s)).
Proof using Hw.
  intros above row0 Hs. destruct (shown_backward above row0 n s Hs) as (H1 & H2 & H3). split_and!; [done| |by apply rest_other].
  rewrite (line_of_rest _ _ _ H3 H2). unfold move_to, line_of. cbn. rewrite take_drop. f_equal. f_equal. rewrite length_take.
  pose proof (shown_cursor _ _ _ Hs). unfold command_len in *. lia.
Qed.

Lemma performs_left s b c f : line_of s = mk_line (b ++ [c]) f -> performs (input_backward 1) s (mk_line b (c :: f)).
Proof using Hw.
  intros El above row0 Hs. destruct (shown_backward above row0 1 s Hs) as (H1 & H2 & H3). split_and!; [done| |by apply rest_other].
  destruct (line_cursor s _ _ (shown_cursor _ _ _ Hs) El) as [E1 E2]. apply line_at; [by rewrite (rest_ps _ _ H3), E1, <- app_assoc|].
  rewrite H2, E2, length_app. cbn. lia.
Qed.

Lemma performs_right s b c f : line_of s = mk_line b (c :: f) -> performs input_forward s (mk_line (b ++ [c]) f).
Proof using Hw.
  intros El above row0 Hs. destruct (shown_forward above row0 s Hs) as (H1 & H2 & H3). split_and!; [done| |by apply rest_other].
  destruct (line_cursor s _ _ (shown_cursor _ _ _ Hs) El) as [E1 E2]. apply line_at; [by rewrite (rest_ps _ _ H3), E1, <- app_assoc|].
  rewrite H2, E2. unfold command_len. rewrite E1, !length_app. cbn [length]. lia.
Qed.

Lemma performs_end s : performs put_till_end_and_adv_cursor s (edit 0 End (line_of s)).
Proof using Hw.
  intros above row0 Hs. destruct (shown_till above row0 s Hs) as (H1 & H2 & H3). split_and!; [done| |by apply rest_other].
  rewrite (line_of_rest _ _ _ H3 H2). unfold command_len, edit, line_of. cbn. by rewrite take_drop, firstn_all, drop_all.
Qed.

(** New text on the screen, and back to where the cursor has to be. *)
Lemma performs_retyped (clear : bool) b' f' s (g : editor -> editor) : let b := b' ++ f' in
  (forall above row0, shown above row0 s -> retyped s b) -> (clear = true \/ (length (command_ps s) <= length b)%nat) ->
  (forall s1, g s1 = input_backward (cursor s1 - length b') s1) ->
  performs (fun s => let s1 := put_till_end_and_adv_cursor (set_ps b s) in g (if clear then emit SEQ_CLEAR_TILL_END_OF_SCREEN s1 else s1)) s (mk_line b' f').
Proof using Hw.
  intros b Hb Hclear Hg above row0 Hs. destruct (shown_retyped above row0 b clear s Hs (Hb _ _ Hs) Hclear) as (H1 & H2 & H3). cbv zeta.
  set (s1 := if clear then _ else _) in *. rewrite Hg. destruct (shown_backward above row0 (cursor s1 - length b') s1 H1) as (K1 & K2 & K3).
  split_and!; [done| |].
  - apply line_at; [rewrite (rest_ps _ _ K3); by rewrite (rest_ps _ _ H3)|]. rewrite K2, H2. unfold b. rewrite length_app. lia.
  - rewrite (rest_other _ _ K3), (rest_other _ _ H3). done.
Qed.

Lemma retyped_line above row0 s b f f' : shown above row0 s -> line_of s = mk_line b f -> all_plain f' ->
  Z.of_nat (length (b ++ f')) < maxsize s -> retyped s (b ++ f').
Proof using.
  intros Hs El Hf Hl. destruct (line_cursor s _ _ (shown_cursor _ _ _ Hs) El) as [E1 E2]. destruct Hs as (Hs & _).
  pose proof (so_plain _ Hs) as Hp. rewrite E1 in Hp. apply Forall_app in Hp as [Hp _]. split_and!; [by apply Forall_app|done|rewrite E2, length_app; lia|].
  by rewrite E1, E2, !take_app_length.
Qed.

Lemma line_room above row0 s b f : shown above row0 s -> line_of s = mk_line b f -> all_plain (b ++ f) /\ Z.of_nat (length (b ++ f)) < maxsize s.
Proof using.
  intros Hs El. destruct (line_cursor s _ _ (shown_cursor _ _ _ Hs) El) as [E1 E2]. destruct Hs as (Hs & _). destruct Hs. unfold command_len in *.
  by rewrite <- E1.
Qed.

Lemma performs_delete s b f : line_of s = mk_line b f -> performs input_delete s (mk_line b (drop 1 f)).
Proof using Hw.
  intros El above row0 Hs. destruct (line_cursor s _ _ (shown_cursor _ _ _ Hs) El) as [E1 E2]. unfold input_delete, command_len. rewrite E1, E2, length_app.
  destruct f as [|c f]; cbn [length drop].
  - rewrite Nat.add_0_r, Nat.eqb_refl. by split_and!.
  - destruct (Nat.eqb_spec (length b) (length b + S (length f))); [lia|].
    assert (take (length b) (b ++ c :: f) ++ drop (S (length b)) (b ++ c :: f) = b ++ f) as ->.
    { rewrite take_app_length. f_equal. by rewrite (cons_middle c b f), app_assoc, (drop_app_length' (b ++ [c])) by (rewrite length_app; cbn; lia). }
    destruct (line_room _ _ _ _ _ Hs El) as [Hp Hl]. apply Forall_app in Hp as [_ Hp]. apply Forall_cons in Hp as [_ Hp]. rewrite length_app in Hl. cbn [length] in Hl.
    apply (performs_retyped true b f s (fun s1 => input_backward (cursor s1 - length b) s1)); [|by left|done|done].
    intros ab r Hs'. apply (retyped_line ab r _ _ (c :: f)); [done..|rewrite length_app; lia].
Qed.

Lemma performs_backspace s b f : line_of s = mk_line b f -> performs input_backspace s (mk_line (removelast b) f).
Proof using Hw.
  intros El above row0 Hs. destruct (line_cursor s _ _ (shown_cursor _ _ _ Hs) El) as [E1 E2]. unfold input_backspace. rewrite E2.
  destruct b as [|c b _] using rev_ind; [by split_and!|]. rewrite removelast_last, length_app, Nat.add_1_r. cbn [Nat.ltb Nat.leb].
  destruct (performs_left s b c f El above row0 Hs) as (H1 & H2 & H3). destruct (performs_delete _ _ _ H2 above row0 H1) as (K1 & K2 & K3).
  split_and!; [done|done|congruence].
Qed.

Lemma performs_insert s b f ic : 32 <= ic < 127 -> line_of s = mk_line b f ->
  performs (insert_char ic) s (edit (maxsize s - 2) (Insert (chr ic)) (mk_line b f)).
Proof using Hw.
  intros Hic El above row0 Hs. destruct (line_cursor s _ _ (shown_cursor _ _ _ Hs) El) as [E1 E2]. cbn [edit before after].
  assert (command_len s = length (b ++ f)) as Ecl by (unfold command_len; by rewrite E1).
  unfold insert_char. rewrite Ecl, E1. destruct (Z.leb_spec (maxsize s - 2) (Z.of_nat (length (b ++ f)))) as [Hfull|Hroom].
  { destruct (Z.ltb_spec (Z.of_nat (length (b ++ f))) (maxsize s - 2)); [lia|]. by split_and!. }
  destruct (Z.ltb_spec (Z.of_nat (length (b ++ f))) (maxsize s - 2)); [|lia].
  assert (plain (chr ic) = true) as Hc by (unfold plain; rewrite uc_chr by lia; lia).
  destruct (line_room _ _ _ _ _ Hs El) as [Hp _]. pose proof Hp as Hpb. apply Forall_app in Hpb as [Hpb Hpf].
  rewrite length_app in Hroom. rewrite E2, length_app. destruct (Nat.eqb_spec (length b) (length b + length f)) as [Hend|Hmid].
  - destruct f; [|cbn in Hend; lia]. rewrite app_nil_r.
    assert (retyped s (b ++ [chr ic])) as Hr by (apply (retyped_line above row0 s b []); [done..|by repeat constructor|rewrite length_app; cbn [length] in *; lia]).
    destruct (shown_retyped above row0 (b ++ [chr ic]) false s Hs Hr) as (H1 & H2 & H3); [right; rewrite E1, !length_app; cbn; lia|].
    assert (put_till_end_and_adv_cursor (set_ps (b ++ [chr ic]) s) = put_cur_glyph_and_inc_cursor (set_ps (b ++ [chr ic]) s)) as E.
    { unfold put_till_end_and_adv_cursor, command_len. cbn [command_ps cursor set_ps]. rewrite E2, length_app. replace (length b + length [chr ic] - length b)%nat with 1%nat by (cbn; lia).
      cbn [while cursor command_ps set_ps]. unfold command_len. cbn [command_ps set_ps]. rewrite E2, length_app. cbn [length]. by destruct (Nat.ltb_spec (length b) (length b + 1)); [|lia]. }
    rewrite E in *. split_and!; [done| |by rewrite (rest_other _ _ H3)]. apply line_at; [by rewrite (rest_ps _ _ H3), app_nil_r|done].
  - rewrite take_app_length, drop_app_length.
    assert (b ++ chr ic :: f = (b ++ [chr ic]) ++ f) as Eb by by rewrite <- app_assoc. rewrite Eb.
    apply (performs_retyped false (b ++ [chr ic]) f s (fun s1 => input_backward (cursor s1 - S (length b)) s1)); [|right; rewrite E1, !length_app; cbn; lia| |done].
    + intros ab r Hs'. rewrite <- Eb. apply (retyped_line ab r _ _ f); [done..|by constructor|rewrite length_app; cbn [length]; lia].
    + intros s1. f_equal. rewrite length_app. cbn. lia.
Qed.

Definition kill_to_end (s : editor) : editor := emit SEQ_CLEAR_TILL_END_OF_SCREEN (set_ps (take (cursor s) (command_ps s)) s).

Lemma performs_kill_end s b f : line_of s = mk_line b f -> performs kill_to_end s (mk_line b []).
Proof using Hw.
  intros El above row0 Hs. destruct (line_cursor s _ _ (shown_cursor _ _ _ Hs) El) as [E1 E2]. unfold kill_to_end. rewrite E1, E2, take_app_length.
  destruct (line_room _ _ _ _ _ Hs El) as [_ Hl]. rewrite length_app in Hl.
  assert (retyped s b) as Hr by (rewrite <- (app_nil_r b); apply (retyped_line above row0 s b f); [done..|constructor|rewrite app_nil_r; lia]).
  destruct (shown_retyped above row0 b true s Hs Hr) as (H1 & H2 & H3); [by left|].
  assert (put_till_end_and_adv_cursor (set_ps b s) = set_ps b s) as E.
  { unfold put_till_end_and_adv_cursor, command_len. cbn [command_ps cursor set_ps]. by rewrite E2, Nat.sub_diag. }
  rewrite E in *. split_and!; [done| |by rewrite (rest_other _ _ H3)]. apply line_at; [by rewrite (rest_ps _ _ H3), app_nil_r|done].
Qed.

(** Another text altogether. *)
Lemma redraw_text above row0 s b back : shown above row0 s -> all_plain b -> Z.of_nat (length b) < maxsize s ->
  let s' := redraw (cmdedit_y s) back (set_ps b s) in
  shown above row0 s' /\ cursor s' = (length b - back)%nat /\ rest s' = rest (set_ps b s).
Proof using Hw.
  intros (Hs & Hd & Hq) Hp Hl. change (cmdedit_y s) with (cmdedit_y (set_ps b s)). destruct Hd.
  apply redraw_shown; cbn [cmdedit_y cmdedit_x set_ps]; try done.
  - destruct Hs. by constructor; cbn; try done; unfold command_len; cbn; lia.
  - intros q Hlt. change (screen (set_ps b s)) with (screen s). rewrite Hq. unfold want. destruct (Z.ltb_spec q (row0 * w)); [done|lia].
Qed.

Lemma performs_kill_start s b f : line_of s = mk_line b f -> performs kill_to_start s (mk_line [] f).
Proof using Hw.
  intros El above row0 Hs. destruct (line_cursor s _ _ (shown_cursor _ _ _ Hs) El) as [E1 E2]. unfold kill_to_start. rewrite E1, E2.
  destruct b as [|c b]; [by split_and!|]. cbn [Nat.ltb Nat.leb length]. change (S (length b)) with (length (c :: b)). rewrite drop_app_length.
  destruct (line_room _ _ _ _ _ Hs El) as [Hp Hl]. apply Forall_app in Hp as [_ Hp]. rewrite length_app in Hl.
  destruct (redraw_text above row0 s f (command_len (set_ps f s)) Hs Hp ltac:(lia)) as (H1 & H2 & H3).
  split_and!; [done| |by apply (rest_other _ _ H3)]. apply line_at; [by etrans; [apply (rest_ps _ _ H3)|]|]. etrans; [apply H2|]. unfold command_len. cbn. lia.
Qed.

(** ** Loops *)

(** Two operations one after the other. *)
Lemma performs_then f g s l l' : performs f s l -> (line_of (f s) = l -> performs g (f s) l') -> performs (fun s => g (f s)) s l'.
Proof using.
  intros Hf Hg above row0 Hs. destruct (Hf above row0 Hs) as (H1 & H2 & H3). destruct (Hg H2 above row0 H1) as (K1 & K2 & K3). split_and!; [done|done|congruence].
Qed.

(** What can be assumed of the line that is shown. *)
Lemma performs_known f s l : ((cursor s <= command_len s)%nat -> all_plain (command_ps s) -> performs f s l) -> performs f s l.
Proof using.
  intros H above row0 Hs. pose proof (shown_cursor _ _ _ Hs) as Hc. apply (H Hc); [|done]. destruct Hs as (Hs & _). by destruct Hs.
Qed.

Lemma performs_line f s l l' : l = l' -> performs f s l -> performs f s l'.
Proof using. by intros ->. Qed.

Lemma performs_id s b f : line_of s = mk_line b f -> performs (fun s => s) s (mk_line b f).
Proof using. intros E above row0 Hs. by split_and!. Qed.

Lemma ps_before s b c f : (cursor s <= command_len s)%nat -> line_of s = mk_line (b ++ [c]) f -> ps_at s (cursor s - 1) = c.
Proof using.
  intros Hc El. destruct (line_cursor s _ _ Hc El) as [E1 E2]. unfold ps_at, at0. rewrite E1, E2, length_app. cbn [length].
  replace (length b + 1 - 1)%nat with (length b) by lia. by rewrite <- app_assoc, drop_app_length.
Qed.

Lemma ps_after s b f : (cursor s <= command_len s)%nat -> line_of s = mk_line b f -> ps_at s (cursor s) = hd0 f.
Proof using. intros Hc El. destruct (line_cursor s _ _ Hc El) as [E1 E2]. unfold ps_at, at0. by rewrite E1, E2, drop_app_length. Qed.

Lemma performs_while_back p b : forall s f, line_of s = mk_line b f ->
  performs (while (length b) (fun s => (0 <? cursor s)%nat && p (ps_at s (cursor s - 1))) input_backspace) s (mk_line (drop_while_end p b) f).
Proof using Hw.
  induction b as [|c b IH] using rev_ind; intros s f El; [by apply performs_id|]. apply performs_known. intros Hc _. rewrite length_app, Nat.add_1_r. cbn [while].
  destruct (line_cursor s _ _ Hc El) as [_ E2]. assert ((0 <? cursor s)%nat = true) as E0 by (rewrite E2, length_app; cbn [length]; apply Nat.ltb_lt; lia).
  pose proof (ps_before s b c f Hc El) as Ep. rewrite drop_while_end_snoc. intros above row0 Hs. rewrite E0, Ep. cbn [andb]. destruct (p c); [|by split_and!].
  refine (performs_then input_backspace _ s _ _ (performs_backspace s _ _ El) _ above row0 Hs). rewrite removelast_last. apply IH.
Qed.

Lemma performs_kill_word s b f : line_of s = mk_line b f -> performs kill_word s (edit 0 KillSpaced (mk_line b f)).
Proof using Hw.
  intros El. apply performs_known. intros Hc _. destruct (line_cursor s _ _ Hc El) as [_ E2]. unfold kill_word.
  set (p := fun s => (0 <? cursor s)%nat && isspace (ps_at s (cursor s - 1))).
  intros above row0 Hs. rewrite E2. destruct (performs_while_back isspace b s f El above row0 Hs) as (H1 & H2 & H3). fold p in H1, H2, H3.
  set (s1 := while (length b) p input_backspace s) in *. destruct (line_cursor s1 _ _ (shown_cursor _ _ _ H1) H2) as [_ E3]. rewrite E3.
  destruct (performs_while_back (fun c => negb (isspace c)) _ s1 f H2 above row0 H1) as (K1 & K2 & K3). split_and!; [done|done|congruence].
Qed.

Lemma performs_word_back n : forall s b f, line_of s = mk_line b f -> b <> [] -> (length b <= n)%nat ->
  performs (ctrl_left_word n) s (mk_line (drop_while_end not_delimits b) (drop (length (drop_while_end not_delimits b)) (b ++ f))).
Proof using Hw.
  induction n as [|n IH]; intros s b f El Hne Hn; [destruct b; cbn in Hn; [done|lia]|].
  destruct b as [|c b _] using rev_ind; [done|]. apply performs_known. intros Hc _. rewrite drop_while_end_snoc.
  intros above row0 Hs. cbn [ctrl_left_word]. rewrite (ps_before s b c f Hc El). change (not_delimits c) with (negb (delimits c)). destruct (delimits c); cbn [negb].
  { split_and!; [done| |done]. by rewrite drop_app_length. }
  destruct (performs_left s b c f El above row0 Hs) as (H1 & H2 & H3). set (s1 := input_backward 1 s) in *.
  destruct (line_cursor s1 _ _ (shown_cursor _ _ _ H1) H2) as [_ E3]. rewrite <- app_assoc. cbn [app]. destruct (Nat.eqb_spec (cursor s1) 0) as [E0|E0].
  - assert (b = []) as -> by (apply length_zero_iff_nil; lia). by split_and!.
  - rewrite length_app in Hn. cbn in Hn. destruct (IH s1 b (c :: f) H2) with (above := above) (row0 := row0) as (K1 & K2 & K3); [by intros ->|lia|done|].
    split_and!; [done|done|congruence].
Qed.

Lemma performs_ctrl_left n : forall s b f, line_of s = mk_line b f -> (length b < n)%nat -> performs (ctrl_left_loop n) s (edit 0 WordLeft (mk_line b f)).
Proof using Hw.
  induction n as [|n IH]; intros s b f El Hn; [lia|]. destruct b as [|c b _] using rev_ind.
  - apply performs_known. intros Hc _ above row0 Hs. destruct (line_cursor s _ _ Hc El) as [_ E2]. cbn [ctrl_left_loop].
    unfold input_backward. rewrite E2. cbn [length]. rewrite Nat.min_0_r. cbn [Nat.eqb]. rewrite E2. cbn. by split_and!.
  - intros above row0 Hs. cbn [ctrl_left_loop]. destruct (performs_left s b c f El above row0 Hs) as (H1 & H2 & H3). set (s1 := input_backward 1 s) in *.
    pose proof (shown_cursor _ _ _ H1) as Hc1. destruct (line_cursor s1 _ _ Hc1 H2) as [_ E3]. cbn [edit before after]. unfold word_back. rewrite <- app_assoc. cbn [app].
    rewrite (ps_after s1 b _ Hc1 H2). cbn [hd0]. destruct (Nat.eqb_spec (cursor s1) 0) as [E0|E0].
    + assert (b = []) as -> by (apply length_zero_iff_nil; lia). rewrite (drop_while_end_snoc _ []). destruct (delimits c) eqn:Ed; [by split_and!|].
      rewrite (drop_while_end_snoc _ []). unfold not_delimits. rewrite Ed. by split_and!.
    + assert (b <> []) as Hne by (by intros ->). rewrite drop_while_end_snoc. destruct (delimits c) eqn:Ed; cbn [negb].
      * rewrite length_app in Hn. cbn in Hn. destruct (IH s1 b (c :: f) H2 ltac:(lia) above row0 H1) as (K1 & K2 & K3). split_and!; [done|done|congruence].
      * rewrite drop_while_end_snoc. unfold not_delimits at 1 3. rewrite Ed. cbn [negb].
        destruct (performs_word_back (cursor s1) s1 b (c :: f) H2 Hne ltac:(lia) above row0 H1) as (K1 & K2 & K3). split_and!; [done|done|congruence].
Qed.

(** The line when [f'] is left behind the cursor. *)
Definition ahead_to (f' : cstr) (b f : cstr) : line := mk_line (take (length (b ++ f) - length f') (b ++ f)) f'.

Lemma ahead_here b f : ahead_to f b f = mk_line b f.
Proof using. unfold ahead_to. rewrite length_app. by replace (length b + length f - length f)%nat with (length b) by lia; rewrite take_app_length. Qed.

Lemma ahead_next f' b c f : ahead_to f' (b ++ [c]) f = ahead_to f' b (c :: f).
Proof using. unfold ahead_to. by rewrite <- app_assoc. Qed.

Lemma hd_nul f : all_plain f -> (hd0 f ≟ NUL)%cc = true <-> f = [].
Proof using.
  intros Hf. destruct f as [|c f]; [done|]. apply Forall_cons in Hf as [Hc _]. cbn. rewrite plain_not_nul by done. split; done.
Qed.

Lemma plain_after s b f : (cursor s <= command_len s)%nat -> all_plain (command_ps s) -> line_of s = mk_line b f -> all_plain f.
Proof using. intros Hc Hp El. destruct (line_cursor s _ _ Hc El) as [E1 _]. rewrite E1 in Hp. by apply Forall_app in Hp as [_ ?]. Qed.

Lemma performs_word_ahead n : forall s b c f, line_of s = mk_line b (c :: f) -> delimits c = false -> (length f < n)%nat ->
  performs (ctrl_right_word n) s (ahead_to (drop_while not_delimits f) b (c :: f)).
Proof using Hw.
  induction n as [|n IH]; intros s b c f El Hd Hn; [lia|]. intros above row0 Hs. cbn [ctrl_right_word].
  destruct (performs_right s b c f El above row0 Hs) as (H1 & H2 & H3). set (s1 := input_forward s) in *. pose proof (shown_cursor _ _ _ H1) as Hc1.
  rewrite (ps_after s1 _ _ Hc1 H2). destruct H1 as (Hs1 & H1). pose proof (plain_after s1 _ _ Hc1 (so_plain _ Hs1) H2) as Hpf.
  assert (shown above row0 s1) as Hsh by done. destruct f as [|d f].
  - cbn [hd0 drop_while]. rewrite <- ahead_next, ahead_here. by split_and!.
  - apply Forall_cons in Hpf as [Hd1 _]. cbn [hd0 drop_while]. rewrite plain_not_nul by done. cbn [orb]. change (not_delimits d) with (negb (delimits d)). destruct (delimits d) eqn:Ed; cbn [negb].
    + rewrite <- ahead_next, ahead_here. by split_and!.
    + cbn [length] in Hn. destruct (IH s1 (b ++ [c]) d f H2 Ed ltac:(lia) above row0 Hsh) as (K1 & K2 & K3). rewrite ahead_next in K2. split_and!; [done|done|congruence].
Qed.

Lemma performs_ctrl_right n : forall s b f, line_of s = mk_line b f -> (length f < n)%nat -> performs (ctrl_right_loop n) s (edit 0 WordRight (mk_line b f)).
Proof using Hw.
  induction n as [|n IH]; intros s b f El Hn; [lia|]. apply performs_known. intros Hc Hp above row0 Hs. cbn [ctrl_right_loop edit before after].
  fold (ahead_to (word_ahead f) b f). rewrite (ps_after s _ _ Hc El). pose proof (plain_after s _ _ Hc Hp El) as Hpf. destruct f as [|c f].
  - cbn. by split_and!; [|rewrite ahead_here|].
  - apply Forall_cons in Hpf as [Hpc _]. cbn [hd0]. rewrite plain_not_nul by done. unfold word_ahead. cbn [drop_while]. destruct (delimits c) eqn:Ed; cbn [negb].
    + cbn [length] in Hn. destruct (performs_right s b c f El above row0 Hs) as (H1 & H2 & H3).
      destruct (IH _ (b ++ [c]) f H2 ltac:(lia) above row0 H1) as (K1 & K2 & K3). cbn [edit before after] in K2. fold (ahead_to (word_ahead f) (b ++ [c]) f) in K2.
      rewrite ahead_next in K2. split_and!; [done|done|congruence].
    + cbn [drop_while]. change (not_delimits c) with (negb (delimits c)). rewrite Ed. cbn [negb]. destruct (line_cursor s _ _ Hc El) as [E1 E2].
      apply (performs_word_ahead _ s b c f El Ed); [|done]. unfold command_len. rewrite E1, E2, length_app. cbn [length]. lia.
Qed.

Lemma performs_deletes x : forall s b f, line_of s = mk_line b (x ++ f) -> performs (times (length x) input_delete) s (mk_line b f).
Proof using Hw.
  induction x as [|c x IH]; intros s b f El; [by apply performs_id|]. cbn [length times app] in *.
  apply (performs_then input_delete _ s _ _ (performs_delete s _ _ El)). apply IH.
Qed.

Lemma performs_back_over s b x f : line_of s = mk_line (b ++ x) f -> performs (input_backward (length x)) s (mk_line b (x ++ f)).
Proof using Hw.
  intros El above row0 Hs. destruct (shown_backward above row0 (length x) s Hs) as (H1 & H2 & H3). split_and!; [done| |by apply rest_other].
  destruct (line_cursor s _ _ (shown_cursor _ _ _ Hs) El) as [E1 E2]. apply line_at; [by rewrite (rest_ps _ _ H3), E1, <- app_assoc|].
  rewrite H2, E2, length_app. lia.
Qed.

Lemma performs_kill_forward s b f : line_of s = mk_line b f -> performs kill_word_forward s (edit 0 KillWordRight (mk_line b f)).
Proof using Hw.
  intros El above row0 Hs. destruct (line_cursor s _ _ (shown_cursor _ _ _ Hs) El) as [E1 E2]. unfold kill_word_forward.
  assert (length f < S (command_len s - cursor s))%nat as Hfuel by (unfold command_len; rewrite E1, E2, length_app; lia).
  destruct (performs_ctrl_right _ s b f El Hfuel above row0 Hs) as (H1 & H2 & H3). fold (ctrl_right s) in H1, H2, H3. set (s1 := ctrl_right s) in *.
  cbn [edit before after] in *. destruct (word_ahead_suffix f) as [x Ex].
  set (f' := word_ahead f) in *. clearbody f'. subst f.
  assert (take (length (b ++ x ++ f') - length f') (b ++ x ++ f') = b ++ x) as Et.
  { rewrite app_assoc. apply take_app_length'. rewrite !length_app. lia. }
  rewrite Et in H2. destruct (line_cursor s1 _ _ (shown_cursor _ _ _ H1) H2) as [_ E3].
  replace (cursor s1 - cursor s)%nat with (length x) by (rewrite E2, E3, length_app; lia).
  destruct (performs_back_over s1 b x _ H2 above row0 H1) as (K1 & K2 & K3).
  destruct (performs_deletes x _ _ _ K2 above row0 K1) as (J1 & J2 & J3). split_and!; [done|done|congruence].
Qed.

Lemma performs_kill_back s b f : line_of s = mk_line b f -> performs kill_word_back s (edit 0 KillWordLeft (mk_line b f)).
Proof using Hw.
  intros El above row0 Hs. destruct (line_cursor s _ _ (shown_cursor _ _ _ Hs) El) as [E1 E2]. unfold kill_word_back.
  assert (length b < S (cursor s))%nat as Hfuel by lia.
  destruct (performs_ctrl_left _ s b f El Hfuel above row0 Hs) as (H1 & H2 & H3). fold (ctrl_left s) in H1, H2, H3. set (s1 := ctrl_left s) in *.
  cbn [edit before after] in *. destruct (word_back_prefix b) as [y Ey].
  set (b' := word_back b) in *. clearbody b'. subst b.
  assert (drop (length b') ((b' ++ y) ++ f) = y ++ f) as Ed by (by rewrite <- app_assoc, drop_app_length).
  rewrite Ed in H2. destruct (line_cursor s1 _ _ (shown_cursor _ _ _ H1) H2) as [_ E3].
  replace (cursor s - cursor s1)%nat with (length y) by (rewrite E2, E3, length_app; lia).
  destruct (performs_deletes y _ _ _ H2 above row0 H1) as (J1 & J2 & J3). split_and!; [done|done|congruence].
Qed.
End Drawing.
