(* ===== verification/Modes.v ===== *)
(** * libbb/parse_mode.c and libbb/mode_string.c: file modes

    [bb_parse_mode] reads the mode argument of mkdir -m and umask, octal or
    symbolic; [bb_mode_string] writes the mode column of ls -l.  Both forms of
    the latter are modelled: which one is compiled depends on the libc's file
    type constants.  [umask] is the process's mask, an argument. *)

From Stdlib Require Import Ascii String ZArith Lia.
From stdpp Require Import base list strings.
From S2P Require Import Prelude Clib.

Local Open Scope Z_scope.

(** The values mode_string.c insists on. *)
Definition S_ISUID : Z := 0x800.
Definition S_ISGID : Z := 0x400.
Definition S_ISVTX : Z := 0x200.
Definition S_IRWXU : Z := 0x1c0.
Definition S_IRWXG : Z := 0x38.
Definition S_IRWXO : Z := 0x7.
Definition S_IFDIR : Z := 0x4000.
Definition IXUGO : Z := 0x49.

Definition FILEMODEBITS : Z := 0xfff.

(** ** parse_mode.c *)

Definition who_chars : cstr := lit "augo".
Definition who_mask : list Z :=
  [ 0xfff; Z.lor S_ISUID S_IRWXU; Z.lor S_ISGID S_IRWXG; S_IRWXO ].
Definition perm_chars : cstr := lit "rwxXst".
Definition perm_mask : list Z := [ 0x124; 0x92; 0x49; 0x49; Z.lor S_ISUID S_ISGID; S_ISVTX ].

(** The [do ... while ( *++p )] searches. *)
Fixpoint mask_of (chars : cstr) (masks : list Z) (c : ascii) : option Z :=
  match chars, masks with
  | k :: chars, m :: masks => if (k ≟ c) then Some m else mask_of chars masks c
  | _, _ => None
  end.

(** From WHO_LIST: the list of users, and the rest; [None]: return -1. *)
Fixpoint parse_who (s : cstr) (wholist : Z) : option (Z * cstr) :=
  match s with
  | [] => Some (wholist, [])
  | c :: s' =>
      match mask_of who_chars who_mask c with
      | None => Some (wholist, s)
      | Some m => match s' with [] => None | _ => parse_who s' (Z.lor wholist m) end
      end
  end.

(** From PERM_LIST. *)
Fixpoint parse_perms (s : cstr) (new_mode permlist : Z) : Z * cstr :=
  match s with
  | [] => (permlist, [])
  | c :: s' =>
      match mask_of perm_chars perm_mask c with
      | None => (permlist, s)
      | Some m =>
          let permlist :=
            if negb (c ≟ "X"%char) || negb (Z.land new_mode (Z.lor S_IFDIR IXUGO) =? 0)
            then Z.lor permlist m else permlist in
          parse_perms s' new_mode permlist
      end
  end.

(** A permcopy: the bits of one class, spread to all three. *)
Definition permcopy (m new_mode : Z) : Z :=
  fold_left (fun pl pm => if Z.land pl pm =? 0 then pl else Z.lor pl pm) (take 3 perm_mask)
    (Z.land (Z.land m 0x1ff) new_mode).

(** GOT_ACTION. *)
Definition apply_action (umask wholist : Z) (op : ascii) (permlist new_mode : Z) : Z :=
  if permlist =? 0 then new_mode
  else
    let permlist := if wholist =? 0 then Z.ldiff permlist umask else Z.land permlist wholist in
    if (op ≟ "-"%char) then Z.ldiff new_mode permlist else Z.lor new_mode permlist.

(** One turn of the action list. *)
Definition parse_action (umask wholist : Z) (s : cstr) (new_mode : Z) : option (Z * cstr) :=
  let op := hd0 s in
  if (op ≟ "+"%char) || (op ≟ "-"%char) || (op ≟ "="%char) then
    let new_mode := if (op ≟ "="%char)
                    then Z.ldiff new_mode (if wholist =? 0 then FILEMODEBITS else wholist) else new_mode in
    let s := tail s in
    let '(permlist, s) :=
      match mask_of (tail who_chars) (tail who_mask) (hd0 s) with
      | Some m => (permcopy m new_mode, tail s)
      | None => parse_perms s new_mode 0
      end in
    Some (apply_action umask wholist op permlist new_mode, s)
  else None.

(** [do ... while ( *s && ( *s != ',' ))]; every turn reads at least its operator. *)
Fixpoint parse_actions (fuel : nat) (umask wholist : Z) (s : cstr) (new_mode : Z) : option (Z * cstr) :=
  match fuel with
  | O => None
  | S f =>
      match parse_action umask wholist s new_mode with
      | None => None
      | Some (new_mode, s) =>
          if (hd0 s ≟ NUL) || (hd0 s ≟ ","%char) then Some (new_mode, s)
          else parse_actions f umask wholist s new_mode
      end
  end.

(** [while ( *s )]: the clauses. *)
Fixpoint parse_clauses (fuel : nat) (umask : Z) (s : cstr) (new_mode : Z) : option Z :=
  match fuel with
  | O => None
  | S f =>
      match s with
      | [] => Some new_mode
      | c :: s' =>
          if (c ≟ ","%char) then parse_clauses f umask s' new_mode
          else
            match parse_who s 0 with
            | None => None
            | Some (wholist, s1) =>
                match parse_actions (length s) umask wholist s1 new_mode with
                | None => None
                | Some (new_mode, s) => parse_clauses f umask s new_mode
                end
            end
      end
  end.

(** [None] is the return value -1. *)
Definition bb_parse_mode (umask : Z) (s : cstr) (current_mode : Z) : option Z :=
  if wrapU 8 (uc (hd0 s) - 48) <? 8 then
    let r := strtoul 8 s in
    if negb (hd0 (st_end r) ≟ NUL) || (0xfff <? st_val r) then None else Some (st_val r)
  else parse_clauses (S (length s)) umask s current_mode.

(** ** mode_string.c *)

Definition type_chars : cstr := lit "?pc?d?b?-?l?s???".
Definition mode_chars : cstr := lit "rwxSTst".
Definition mode_flags : list Z :=
  [ 0x100; 0x80; 0x40; S_ISUID; 0x20; 0x10; 0x8; S_ISGID; 0x4; 0x2; 0x1; S_ISVTX ].

Definition type_char (mode : Z) : ascii := at0 type_chars (Z.to_nat (Z.land (Z.shiftr mode 12) 0xf)).

(** The three characters of one class: [flags] are its three permission masks,
    [special] its fourth, [last] whether it is the third class; [k] is the last
    permission that was set. *)
Definition class_string (mode : Z) (flags : list Z) (special : Z) (last : bool) : cstr :=
  let bit m := negb (Z.land mode m =? 0) in
  let chars := imap (fun j m => if bit m then at0 mode_chars j else "-"%char) flags in
  let k := foldl (fun k jm => if bit jm.2 then jm.1 else k) 0%nat (imap (fun j m => (j, m)) flags) in
  if bit special
  then <[2%nat := at0 mode_chars (3 + Z.to_nat (Z.land (Z.of_nat k) 2) + (if last then 1 else 0))]> chars
  else chars.

(** The larger version, with its table of flags. *)
Definition bb_mode_string_table (mode : Z) : cstr :=
  type_char mode ::
  class_string mode (take 3 mode_flags) (nth 3 mode_flags 0) false ++
  class_string mode (take 3 (drop 4 mode_flags)) (nth 7 mode_flags 0) false ++
  class_string mode (take 3 (drop 8 mode_flags)) (nth 11 mode_flags 0) true.

(** The smaller one shifts a mask: [m] starts at 0400, the special bits are
    010000 >> i. *)
Definition shifted (i : nat) : list Z := (fun j => Z.shiftr 0x100 (Z.of_nat (3 * i + j))) <$> [0; 1; 2]%nat.
Definition bb_mode_string (mode : Z) : cstr :=
  type_char mode ::
  class_string mode (shifted 0) (Z.shiftr 0x1000 1) false ++
  class_string mode (shifted 1) (Z.shiftr 0x1000 2) false ++
  class_string mode (shifted 2) (Z.shiftr 0x1000 3) true.

Lemma mode_strings_agree mode : bb_mode_string mode = bb_mode_string_table mode.
Proof. reflexivity. Qed.

(** ** Bits *)

(** No bits above the twelve mode bits. *)
Definition low (m : Z) : Prop := forall n, 12 <= n -> Z.testbit m n = false.
(** The same bits above them: the file type. *)
Definition same_type (a b : Z) : Prop := forall n, 12 <= n -> Z.testbit a n = Z.testbit b n.

Lemma low_small m : 0 <= m < 4096 -> low m.
Proof.
  intros Hm n Hn. destruct (Z.eq_dec m 0) as [->|]; [apply Z.bits_0|].
  apply Z.bits_above_log2; [lia|]. assert (Z.log2 m < 12) by (apply Z.log2_lt_pow2; lia). lia.
Qed.

Lemma low_lor a b : low a -> low b -> low (Z.lor a b).
Proof. intros Ha Hb n Hn. by rewrite Z.lor_spec, Ha, Hb. Qed.

Lemma low_land_l a b : low a -> low (Z.land a b).
Proof. intros Ha n Hn. by rewrite Z.land_spec, Ha. Qed.

Lemma low_ldiff a b : low a -> low (Z.ldiff a b).
Proof. intros Ha n Hn. by rewrite Z.ldiff_spec, Ha. Qed.

#[export] Hint Resolve low_small low_lor low_land_l low_ldiff : cchar.

Lemma mask_of_low chars masks c m :
  Forall (fun m => 0 <= m < 4096) masks -> mask_of chars masks c = Some m -> low m.
Proof.
  intros Hm. revert chars. induction Hm as [|x masks Hx Hm IH]; intros [|k chars]; simpl; try done.
  case_goal; [|apply IH]. intros [= <-]. by apply low_small.
Qed.

Lemma who_small : Forall (fun m => 0 <= m < 4096) who_mask.
Proof. by_eval. Qed.
Lemma perm_small : Forall (fun m => 0 <= m < 4096) perm_mask.
Proof. by_eval. Qed.

Lemma parse_who_low s w w' s' : low w -> parse_who s w = Some (w', s') -> low w'.
Proof.
  revert w. induction s as [|c s IH]; intros w Hw; cbn [parse_who]; [by intros [= <- <-]|].
  destruct (mask_of who_chars who_mask c) as [m|] eqn:E; [|by intros [= <- <-]].
  apply mask_of_low in E; [|apply who_small]. destruct s; [done|]. apply IH. by apply low_lor.
Qed.

Lemma parse_perms_low s mode pl : low pl -> low (parse_perms s mode pl).1.
Proof.
  revert pl. induction s as [|c s IH]; intros pl Hp; cbn [parse_perms]; [done|].
  destruct (mask_of perm_chars perm_mask c) as [m|] eqn:E; [|done].
  apply mask_of_low in E; [|apply perm_small]. apply IH. case_goal; [by apply low_lor|done].
Qed.

Lemma permcopy_low m mode : low (permcopy m mode).
Proof.
  unfold permcopy. set (pl := Z.land _ mode).
  assert (low pl) as Hp by (unfold pl; rewrite (Z.land_comm m); apply low_land_l, low_land_l, low_small; lia).
  clearbody pl. cbn [take perm_mask fold_left]. repeat case_goal; repeat apply low_lor; done || (apply low_small; lia).
Qed.

Lemma apply_action_type umask w op pl mode : low pl -> same_type (apply_action umask w op pl mode) mode.
Proof.
  intros Hp n Hn. unfold apply_action. case_goal; [done|]. set (q := if w =? 0 then _ else _).
  assert (Z.testbit q n = false) as Hq by (unfold q; case_goal; [by apply low_ldiff|by apply low_land_l]).
  case_goal; [by rewrite Z.ldiff_spec, Hq, andb_true_r|by rewrite Z.lor_spec, Hq, orb_false_r].
Qed.

Lemma ldiff_type mode m : low m -> same_type (Z.ldiff mode m) mode.
Proof. intros Hm n Hn. by rewrite Z.ldiff_spec, Hm, andb_true_r. Qed.

Lemma same_type_trans a b c : same_type a b -> same_type b c -> same_type a c.
Proof. intros H1 H2 n Hn. by rewrite H1, H2. Qed.

Lemma parse_perms_length s mode pl : (length (parse_perms s mode pl).2 <= length s)%nat.
Proof.
  revert pl. induction s as [|c s IH]; intros pl; cbn [parse_perms]; [done|].
  case_goal; [|done]. cbn [length]. etrans; [apply IH|lia].
Qed.

Lemma parse_action_spec umask w s mode mode' s' :
  low w -> parse_action umask w s mode = Some (mode', s') -> same_type mode' mode /\ (length s' < length s)%nat.
Proof.
  intros Hw. unfold parse_action. destruct (_ || _) eqn:Eo; [|done].
  destruct s as [|c s]; [done|]. cbn [hd0 tail length].
  set (mode1 := if (c ≟ "="%char) then _ else _).
  assert (same_type mode1 mode) as H1.
  { unfold mode1. case_goal; [|done]. apply ldiff_type. case_goal; [apply low_small; unfold FILEMODEBITS; lia|done]. }
  clearbody mode1. destruct (mask_of _ _ _) as [m|].
  - intros [= <- <-]. split; [|destruct s; simpl; lia].
    eapply same_type_trans; [apply apply_action_type, permcopy_low|done].
  - pose proof (parse_perms_low s mode1 0 ltac:(apply low_small; lia)) as Hl. pose proof (parse_perms_length s mode1 0).
    destruct (parse_perms s mode1 0) as [pl s1]. intros [= <- <-]. split; [|simpl in *; lia].
    eapply same_type_trans; [by apply apply_action_type|done].
Qed.

Lemma parse_actions_spec fuel umask w s mode mode' s' :
  low w -> parse_actions fuel umask w s mode = Some (mode', s') -> same_type mode' mode /\ (length s' < length s)%nat.
Proof.
  intros Hw. revert s mode. induction fuel as [|f IH]; intros s mode; cbn [parse_actions]; [done|].
  destruct (parse_action umask w s mode) as [[mode1 s1]|] eqn:E; [|done].
  apply parse_action_spec in E as [Ht Hl]; [|done]. case_goal; [by intros [= <- <-]|].
  intros H. apply IH in H as [Ht' Hl']. split; [by eapply same_type_trans|lia].
Qed.

Lemma parse_who_length s w w' s' : parse_who s w = Some (w', s') -> (length s' <= length s)%nat.
Proof.
  revert w. induction s as [|c s IH]; intros w; cbn [parse_who]; [by intros [= <- <-]|].
  case_goal; [|by intros [= <- <-]]. destruct s as [|d s]; [done|]. intros H%IH. simpl in *. lia.
Qed.

Lemma parse_clauses_type fuel umask s mode mode' : parse_clauses fuel umask s mode = Some mode' -> same_type mode' mode.
Proof.
  revert s mode. induction fuel as [|f IH]; intros [|c s] mode; cbn [parse_clauses]; try done; [by intros [= <-]|].
  case_goal; [apply IH|]. destruct (parse_who (c :: s) 0) as [[w s1]|] eqn:Ew; [|done].
  apply parse_who_low in Ew; [|apply low_small; lia].
  destruct (parse_actions _ _ _ _ _) as [[mode1 s2]|] eqn:Ea; [|done]. apply parse_actions_spec in Ea as [Ht _]; [|done].
  intros H%IH. by eapply same_type_trans.
Qed.

(** The fuel does not matter: each action and each clause reads on. *)
Lemma parse_actions_fuel f f' umask w s mode :
  low w -> (length s <= f)%nat -> (length s <= f')%nat ->
  parse_actions (S f) umask w s mode = parse_actions (S f') umask w s mode.
Proof.
  intros Hw. revert f' s mode. induction f as [|f IH]; intros f' s mode Hf Hf'.
  - destruct s; [|simpl in Hf; lia]. reflexivity.
  - cbn [parse_actions]. destruct (parse_action umask w s mode) as [[mode1 s1]|] eqn:E; [|done].
    apply parse_action_spec in E as [_ Hl]; [|done]. destruct (_ || _); [done|].
    destruct f' as [|f']; [lia|]. apply IH; lia.
Qed.

Lemma parse_clauses_fuel f f' umask s mode :
  (length s < f)%nat -> (length s < f')%nat -> parse_clauses f umask s mode = parse_clauses f' umask s mode.
Proof.
  revert f' s mode. induction f as [|f IH]; intros [|f'] s mode Hf Hf'; try lia. cbn [parse_clauses].
  destruct s as [|c s]; [done|]. cbn [length] in *. case_goal; [apply IH; lia|].
  destruct (parse_who (c :: s) 0) as [[w s1]|] eqn:Ew; [|done].
  apply parse_who_length in Ew as Hw. apply parse_who_low in Ew; [|apply low_small; lia].
  destruct (parse_actions _ _ _ _ _) as [[mode1 s2]|] eqn:Ea; [|done].
  apply parse_actions_spec in Ea as [_ Hl]; [|done]. simpl in *. apply IH; lia.
Qed.

(** ** The language of symbolic modes *)

Inductive class := User | Group | Other.
Inductive who := Every | Of (c : class).
Inductive operator := Add | Remove | Assign.
Inductive permission := Read | Write | Exec | ExecIf | SetId | Sticky.
Inductive right_side := Perms (l : list permission) | CopyOf (c : class).
Abbreviation action := (operator * right_side)%type.
Record clause := mk_clause { c_whos : list who; c_first : action; c_more : list action }.

Definition class_char (c : class) : ascii := match c with User => "u" | Group => "g" | Other => "o" end%char.
Definition who_char (w : who) : ascii := match w with Every => "a"%char | Of c => class_char c end.
Definition op_char (o : operator) : ascii := match o with Add => "+" | Remove => "-" | Assign => "=" end%char.
Definition perm_char (p : permission) : ascii :=
  match p with Read => "r" | Write => "w" | Exec => "x" | ExecIf => "X" | SetId => "s" | Sticky => "t" end%char.

Definition right_text (r : right_side) : cstr := match r with Perms l => perm_char <$> l | CopyOf c => [class_char c] end.
Definition action_text (a : action) : cstr := op_char a.1 :: right_text a.2.
Definition actions_text (l : list action) : cstr := concat (action_text <$> l).
Definition clause_text (c : clause) : cstr := (who_char <$> c_whos c) ++ actions_text (c_first c :: c_more c).

(** Clauses between commas; a clause may be empty. *)
Definition part_text (c : option clause) : cstr := default [] (clause_text <$> c).
Definition commas (cs : list (option clause)) : cstr := concat ((fun c => ","%char :: part_text c) <$> cs).
Definition mode_text (c : option clause) (cs : list (option clause)) : cstr := part_text c ++ commas cs.

(** ** Its meaning, on the bits of a mode

    Bits 0 to 8 are x, w, r of other, group and user; 9 is the sticky bit, 10 and
    11 are setgid and setuid, and bit 14 marks directories. *)
Definition class_base (c : class) : Z := match c with Other => 0 | Group => 3 | User => 6 end.

Definition class_has (c : class) (n : Z) : bool :=
  (class_base c <=? n) && (n <? class_base c + 3) ||
  match c with User => n =? 11 | Group => n =? 10 | Other => false end.

Definition who_has (w : who) (n : Z) : bool := match w with Every => (0 <=? n) && (n <? 12) | Of c => class_has c n end.

(** The bits a clause may change: those of its classes; without any, + and - keep
    to what the umask lets through. *)
Definition allowed (umask : Z) (whos : list who) (n : Z) : bool :=
  match whos with [] => negb (Z.testbit umask n) | _ => existsb (fun w => who_has w n) whos end.

(** The bits = clears first. *)
Definition cleared (whos : list who) (n : Z) : bool :=
  match whos with [] => (0 <=? n) && (n <? 12) | _ => existsb (fun w => who_has w n) whos end.

(** The bits a permission stands for where the mode is [f]. *)
Definition perm_has (f : Z -> bool) (n : Z) (p : permission) : bool :=
  let of_each k := (0 <=? n) && (n <? 9) && (n mod 3 =? k) in
  match p with
  | Read => of_each 2
  | Write => of_each 1
  | Exec => of_each 0
  | ExecIf => of_each 0 && (f 0 || f 3 || f 6 || f 14)
  | SetId => (n =? 10) || (n =? 11)
  | Sticky => n =? 9
  end.

Definition right_has (f : Z -> bool) (r : right_side) (n : Z) : bool :=
  match r with
  | Perms l => existsb (perm_has f n) l
  | CopyOf c => (0 <=? n) && (n <? 9) && f (class_base c + n mod 3)
  end.

Definition act (umask : Z) (whos : list who) (f : Z -> bool) (a : action) : Z -> bool :=
  let f1 := match a.1 with Assign => fun n => f n && negb (cleared whos n) | _ => f end in
  let named n := right_has f1 a.2 n && allowed umask whos n in
  match a.1 with Remove => fun n => f1 n && negb (named n) | _ => fun n => f1 n || named n end.

Definition act_all (umask : Z) (f : Z -> bool) (c : option clause) : Z -> bool :=
  match c with Some c => fold_left (act umask (c_whos c)) (c_first c :: c_more c) f | None => f end.

Definition mode_means (umask : Z) (c : option clause) (cs : list (option clause)) (f : Z -> bool) : Z -> bool :=
  fold_left (act_all umask) (c :: cs) f.

(** ** The parser computes it *)

(** The mode [m] has the bits [f]. *)
Definition bits (m : Z) (f : Z -> bool) : Prop := forall n, 0 <= n -> Z.testbit m n = f n.

Lemma bits_table m (f : Z -> bool) : 0 <= m < 4096 ->
  forallb (fun n => Bool.eqb (Z.testbit m n) (f n)) (seqZ 0 12) = true -> (forall n, 12 <= n -> f n = false) -> bits m f.
Proof.
  intros Hm Ht Hf n Hn. destruct (Z.lt_decidable n 12) as [Hlt|Hge]; [|rewrite Hf by lia; apply low_small; [done|lia]].
  rewrite forallb_forall in Ht. apply eqb_prop, Ht, list_elem_of_In, elem_of_seqZ. lia.
Qed.

Lemma class_has_above c n : 12 <= n -> class_has c n = false.
Proof. intros Hn. unfold class_has, class_base. destruct c; lia. Qed.

Lemma who_has_above w n : 12 <= n -> who_has w n = false.
Proof. intros Hn. destruct w as [|c]; [unfold who_has; lia|by apply class_has_above]. Qed.

Lemma who_mask_bits w : exists m, mask_of who_chars who_mask (who_char w) = Some m /\ m <> 0 /\ bits m (who_has w).
Proof.
  destruct w as [|[]]; (eexists; split; [reflexivity|]; split; [done|]; apply bits_table; [by_eval|reflexivity|apply who_has_above]).
Qed.

Lemma perm_has_above f p n : 12 <= n -> perm_has f n p = false.
Proof. intros Hn. unfold perm_has. destruct p; lia. Qed.

(** The mask of a permission: X's is the one of x. *)
Lemma perm_mask_bits p : exists m, mask_of perm_chars perm_mask (perm_char p) = Some m /\
  bits m (fun n => perm_has (fun _ => true) n p).
Proof.
  destruct p; (eexists; split; [reflexivity|]; apply bits_table; [by_eval|reflexivity|by intros; apply perm_has_above]).
Qed.

Lemma exec_if mode f : bits mode f -> negb (Z.land mode (Z.lor S_IFDIR IXUGO) =? 0) = f 0 || f 3 || f 6 || f 14.
Proof.
  intros Hf. rewrite <- !Hf by lia. apply eq_bool_prop_intro. rewrite !Is_true_true, negb_true_iff, Z.eqb_neq. split.
  - intros Hne. destruct (Z.testbit mode 0 || _ || _ || _) eqn:E; [done|]. exfalso. apply Hne, Z.bits_inj'. intros n Hn.
    rewrite !orb_false_iff in E. destruct E as [[[E0 E3] E6] E14]. rewrite Z.land_spec, Z.bits_0.
    destruct (Z.testbit (Z.lor S_IFDIR IXUGO) n) eqn:En; [|apply andb_false_r].
    assert (n = 0 \/ n = 3 \/ n = 6 \/ n = 14) as [-> | [-> | [-> | ->]]]; [|by rewrite ?E0, ?E3, ?E6, ?E14..].
    destruct (Z.lt_decidable n 15) as [Hlt|Hge].
    + assert (forallb (fun n => implb (Z.testbit (Z.lor S_IFDIR IXUGO) n) ((n =? 0) || (n =? 3) || (n =? 6) || (n =? 14))) (seqZ 0 15) = true) as Ht by reflexivity.
      rewrite forallb_forall in Ht. specialize (Ht n ltac:(apply list_elem_of_In, elem_of_seqZ; lia)). rewrite En in Ht. simpl in Ht. lia.
    + rewrite Z.bits_above_log2 in En; [done|vm_compute; discriminate|]. change (Z.log2 _) with 14. lia.
  - intros Hb Hz. assert (forall n, Z.testbit (Z.lor S_IFDIR IXUGO) n = true -> Z.testbit mode n = false) as Hall.
    { intros n Hn. pose proof (f_equal (fun z => Z.testbit z n) Hz) as E. cbv beta in E. by rewrite Z.land_spec, Hn, andb_true_r, Z.bits_0 in E. }
    by rewrite !Hall in Hb by reflexivity.
Qed.

(** *** Whom *)

Definition stops (chars : cstr) (masks : list Z) (rest : cstr) : Prop := rest = [] \/ mask_of chars masks (hd0 rest) = None.

Lemma parse_who_bits whos rest w f : rest <> [] -> mask_of who_chars who_mask (hd0 rest) = None -> bits w f ->
  exists w', parse_who ((who_char <$> whos) ++ rest) w = Some (w', rest) /\
    bits w' (fun n => f n || existsb (fun x => who_has x n) whos) /\ (w' = 0 <-> whos = [] /\ w = 0).
Proof.
  intros Hr Hm. revert w f. induction whos as [|x whos IH]; intros w f Hf.
  - exists w. split; [destruct rest as [|c rest]; [done|]; cbn in *; by rewrite Hm|]. split; [|tauto].
    intros n Hn. cbn. by rewrite orb_false_r, Hf.
  - destruct (who_mask_bits x) as (m & Em & Hm0 & Hb).
    destruct (IH (Z.lor w m) (fun n => f n || who_has x n)) as (w' & E & H1 & H2).
    { intros n Hn. by rewrite Z.lor_spec, Hf, Hb. }
    exists w'. cbn [fmap list_fmap app parse_who]. rewrite Em.
    assert ((who_char <$> whos) ++ rest <> []) as Hnn by (by intros [_ ?]%app_eq_nil).
    split; [rewrite <- E; unfold fmap in *; by destruct (_ ++ rest)|]. split.
    + intros n Hn. rewrite H1 by done. cbn. by rewrite orb_assoc.
    + rewrite H2, Z.lor_eq_0_iff. split; [by intros [_ [_ ?]]|by intros [? _]].
Qed.

(** *** Which permissions *)

Lemma parse_perms_bits l rest mode pl f g : stops perm_chars perm_mask rest -> bits mode f -> bits pl g ->
  exists pl', parse_perms ((perm_char <$> l) ++ rest) mode pl = (pl', rest) /\
    bits pl' (fun n => g n || existsb (perm_has f n) l).
Proof.
  intros Hr Hf. revert pl g. induction l as [|p l IH]; intros pl g Hg.
  - exists pl. split; [|intros n Hn; cbn; by rewrite orb_false_r, Hg].
    destruct rest as [|c rest]; [done|]. destruct Hr as [?|Hr]; [done|]. cbn in *. by rewrite Hr.
  - destruct (perm_mask_bits p) as (m & Em & Hb). cbn [fmap list_fmap app parse_perms]. rewrite Em, (exec_if mode f Hf).
    set (pl1 := if negb (perm_char p ≟ "X"%char) || (f 0 || f 3 || f 6 || f 14) then Z.lor pl m else pl). assert (bits pl1 (fun n => g n || perm_has f n p)) as H1.
    { intros n Hn. unfold pl1. destruct p; cbn [perm_char Ascii.eqb Bool.eqb andb negb orb];
        [rewrite Z.lor_spec, Hg, Hb by done; done..| |rewrite Z.lor_spec, Hg, Hb by done; done|rewrite Z.lor_spec, Hg, Hb by done; done].
      destruct (f 0 || f 3 || f 6 || f 14) eqn:E; cbn [perm_has]; rewrite E.
      - rewrite Z.lor_spec, Hg, Hb by done. done.
      - by rewrite andb_false_r, orb_false_r, Hg. }
    destruct (IH pl1 _ H1) as (pl' & E & H2). exists pl'. split; [exact E|]. intros n Hn. rewrite H2 by done. cbn. by rewrite orb_assoc.
Qed.

Lemma permcopy_bits c m mode f : mask_of (tail who_chars) (tail who_mask) (class_char c) = Some m -> bits mode f ->
  bits (permcopy m mode) (right_has f (CopyOf c)).
Proof.
  intros Em Hf. set (v := Z.land (Z.shiftr mode (class_base c)) 7).
  assert (Z.land (Z.land m 0x1ff) mode = Z.shiftl v (class_base c)) as E.
  { assert (Z.land m 0x1ff = Z.shiftl 7 (class_base c)) as -> by (destruct c; injection Em as <-; reflexivity).
    apply Z.bits_inj'. intros n Hn. assert (0 <= class_base c) by (by destruct c). unfold v. rewrite Z.land_spec, !Z.shiftl_spec by lia.
    destruct (Z.lt_decidable n (class_base c)) as [Hlt|Hge]; [by rewrite !(Z.testbit_neg_r _ (n - class_base c)) by lia|].
    rewrite Z.land_spec, Z.shiftr_spec, Z.sub_add by lia. apply andb_comm. }
  assert (forall k, 0 <= k < 3 -> f (class_base c + k) = Z.testbit v k) as Hv.
  { intros k Hk. assert (0 <= class_base c) by (by destruct c). rewrite <- Hf by lia. unfold v.
    rewrite Z.land_spec, Z.shiftr_spec, Z.add_comm by lia. assert (k = 0 \/ k = 1 \/ k = 2) as [-> | [-> | ->]] by lia; by rewrite andb_true_r. }
  assert (0 <= v < 8) as Hrange by (unfold v; change 7 with (Z.ones 3); rewrite Z.land_ones by lia; apply Z.mod_pos_bound; lia).
  intros n Hn. cbn [right_has]. rewrite (Hv (n mod 3)) by (apply Z.mod_pos_bound; lia). unfold permcopy. rewrite E. clearbody v.
  revert n Hn. change (bits (fold_left (fun pl pm => if Z.land pl pm =? 0 then pl else Z.lor pl pm) (take 3 perm_mask) (Z.shiftl v (class_base c)))
    (fun n => (0 <=? n) && (n <? 9) && Z.testbit v (n mod 3))).
  assert (v = 0 \/ v = 1 \/ v = 2 \/ v = 3 \/ v = 4 \/ v = 5 \/ v = 6 \/ v = 7) as Hcases by lia.
  repeat destruct Hcases as [->|Hcases]; subst; destruct c; (apply bits_table; [by_eval|reflexivity|intros n Hn; by rewrite (proj2 (Z.ltb_ge n 9)), andb_false_r by lia]).
Qed.

(** *** Actions and clauses *)

(** [w] is the list the classes [whos] gave. *)
Definition who_list (w : Z) (whos : list who) : Prop :=
  (w = 0 <-> whos = []) /\ bits w (fun n => existsb (fun x => who_has x n) whos).

Lemma apply_action_bits umask w whos o pl mode f g : who_list w whos -> bits mode f -> bits pl g ->
  bits (apply_action umask w (op_char o) pl mode)
    (fun n => let named := g n && allowed umask whos n in match o with Remove => f n && negb named | _ => f n || named end).
Proof.
  intros [Hw0 Hw] Hf Hg n Hn. unfold apply_action. destruct (Z.eqb_spec pl 0) as [->|_].
  { rewrite <- (Hg n Hn), Z.bits_0, (Hf n Hn). cbn [andb negb]. by rewrite andb_true_r, orb_false_r; destruct o. }
  set (q := if w =? 0 then _ else _). assert (Z.testbit q n = g n && allowed umask whos n) as Hq.
  { unfold q, allowed. destruct (Z.eqb_spec w 0) as [E|E]; [|destruct whos; [by destruct E; apply Hw0|]].
    - apply Hw0 in E as ->. by rewrite Z.ldiff_spec, Hg.
    - by rewrite Z.land_spec, Hg, Hw. }
  by destruct o; cbn [op_char Ascii.eqb Bool.eqb]; rewrite ?Z.lor_spec, ?Z.ldiff_spec, Hq, Hf.
Qed.

Lemma assign_bits w whos mode f : who_list w whos -> bits mode f ->
  bits (Z.ldiff mode (if w =? 0 then FILEMODEBITS else w)) (fun n => f n && negb (cleared whos n)).
Proof.
  intros [Hw0 Hw] Hf n Hn. rewrite Z.ldiff_spec, Hf by done. f_equal. f_equal. unfold cleared.
  destruct (Z.eqb_spec w 0) as [E|E].
  - apply Hw0 in E as ->. revert n Hn. apply bits_table; [by_eval|reflexivity|lia].
  - rewrite Hw by done. destruct whos; [by destruct E; apply Hw0|done].
Qed.

(** Where an action ends. *)
Definition ends_action (rest : cstr) : Prop := rest = [] \/ hd0 rest ∈ lit ",+-=".

Lemma ends_action_stops rest : ends_action rest ->
  stops perm_chars perm_mask rest /\ mask_of (tail who_chars) (tail who_mask) (hd0 rest) = None.
Proof.
  intros [->|H]; [split; [by left|reflexivity]|]. unfold stops.
  repeat (apply elem_of_cons in H as [->|H]); [split; [by right|reflexivity]..|by apply elem_of_nil in H].
Qed.

Lemma parse_action_act umask w whos a rest mode f : who_list w whos -> ends_action rest -> bits mode f ->
  exists m, parse_action umask w (action_text a ++ rest) mode = Some (m, rest) /\ bits m (act umask whos f a).
Proof.
  intros Hw Hr Hf. destruct (ends_action_stops rest Hr) as [Hs Hc]. destruct a as [o r]. unfold action_text, act. cbn [fst snd app].
  set (f1 := match o with Assign => fun n => f n && negb (cleared whos n) | _ => f end).
  set (mode1 := if (op_char o ≟ "="%char) then Z.ldiff mode (if w =? 0 then FILEMODEBITS else w) else mode).
  assert (bits mode1 f1) as H1 by (destruct o; [exact Hf|exact Hf|by apply assign_bits]).
  assert (exists pl, (match mask_of (tail who_chars) (tail who_mask) (hd0 (right_text r ++ rest)) with
      | Some m => (permcopy m mode1, tail (right_text r ++ rest))
      | None => parse_perms (right_text r ++ rest) mode1 0
      end) = (pl, rest) /\ bits pl (right_has f1 r)) as (pl & Epl & Hpl).
  { destruct r as [l|c]; cbn [right_text].
    - assert (mask_of (tail who_chars) (tail who_mask) (hd0 ((perm_char <$> l) ++ rest)) = None) as ->
        by (destruct l as [|[] l]; [exact Hc|reflexivity..]).
      destruct (parse_perms_bits l rest mode1 0 f1 (fun _ => false) Hs H1) as (pl & E & Hb); [intros n _; apply Z.bits_0|].
      exists pl. by split.
    - cbn [app hd0 tail]. destruct (mask_of _ _ (class_char c)) as [m|] eqn:Em; [|by destruct c].
      eexists. split; [reflexivity|]. by apply permcopy_bits. }
  exists (apply_action umask w (op_char o) pl mode1). split.
  - unfold parse_action. cbn [hd0 tail]. fold mode1.
    assert ((op_char o ≟ "+"%char) || (op_char o ≟ "-"%char) || (op_char o ≟ "="%char) = true) as -> by (by destruct o).
    by rewrite Epl.
  - intros n Hn. rewrite (apply_action_bits umask w whos o pl mode1 _ _ Hw H1 Hpl n Hn). by destruct o.
Qed.

(** Where a clause ends. *)
Definition ends_clause (rest : cstr) : Prop := rest = [] \/ hd0 rest = ","%char.

Lemma next_action a l rest : hd0 (actions_text (a :: l) ++ rest) ∈ lit ",+-=".
Proof. change (hd0 (actions_text (a :: l) ++ rest)) with (op_char a.1). destruct a as [[] r]; cbn [fst op_char]; by_eval. Qed.

Lemma parse_actions_act umask w whos l rest : forall a mode f fuel, who_list w whos -> ends_clause rest -> bits mode f ->
  (length l < fuel)%nat ->
  exists m, parse_actions fuel umask w (actions_text (a :: l) ++ rest) mode = Some (m, rest) /\
    bits m (fold_left (act umask whos) (a :: l) f).
Proof.
  induction l as [|b l IH]; intros a mode f [|fuel] Hw Hr Hf Hfuel; try (simpl in Hfuel; lia).
  - destruct (parse_action_act umask w whos a rest mode f Hw) as (m & E & Hb); [|done|].
    { destruct Hr as [->|Hr]; [by left|right; rewrite Hr; by left]. }
    exists m. split; [|done]. unfold actions_text. cbn [fmap list_fmap concat parse_actions]. rewrite app_nil_r, E.
    destruct Hr as [->|Hr]; [done|]. by rewrite Hr.
  - destruct (parse_action_act umask w whos a (actions_text (b :: l) ++ rest) mode f Hw) as (m1 & E1 & H1); [|done|].
    { right. apply next_action. }
    destruct (IH b m1 (act umask whos f a) fuel Hw Hr H1) as (m & E & Hb); [simpl in Hfuel; lia|].
    exists m. split; [|done]. change (actions_text (a :: b :: l)) with (action_text a ++ actions_text (b :: l)).
    rewrite <- app_assoc. cbn [parse_actions]. rewrite E1.
    assert ((hd0 (actions_text (b :: l) ++ rest) ≟ NUL) || (hd0 (actions_text (b :: l) ++ rest) ≟ ","%char) = false) as ->
      by (by destruct b as [[] r]).
    exact E.
Qed.

Lemma actions_text_long l : (length l <= length (actions_text l))%nat.
Proof. unfold actions_text. induction l as [|a l IH]; [done|]. cbn [fmap list_fmap concat]. rewrite length_app. simpl in *. lia. Qed.

Lemma parse_clause umask c rest mode f fuel : ends_clause rest -> bits mode f ->
  (length (clause_text c ++ rest) < S fuel)%nat ->
  exists m, parse_clauses (S fuel) umask (clause_text c ++ rest) mode = parse_clauses fuel umask rest m /\
    bits m (act_all umask f (Some c)).
Proof.
  intros Hr Hf Hfuel. destruct c as [whos a l]. unfold clause_text in *. cbn [c_whos c_first c_more act_all] in *.
  rewrite <- app_assoc in *. set (t := actions_text (a :: l) ++ rest) in *.
  assert (t <> [] /\ hd0 t = op_char a.1) as [Ht Hh] by done.
  destruct (parse_who_bits whos t 0 (fun _ => false) Ht) as (w & Ew & Hw & Hw0).
  { rewrite Hh. by destruct a as [[] r]. }
  { intros n _. apply Z.bits_0. }
  set (s := (who_char <$> whos) ++ t) in *.
  destruct (parse_actions_act umask w whos l rest a mode f (length s)) as (m & Em & Hm); [|done|done| |].
  { split; [|done]. rewrite Hw0. tauto. }
  { unfold s, t. rewrite !length_app. pose proof (actions_text_long (a :: l)). simpl in *. lia. }
  exists m. split; [|done]. assert (exists c s', s = c :: s' /\ (c ≟ ","%char) = false) as (c & s' & Es & Hc).
  { unfold s. destruct whos as [|x whos]; [exists (op_char a.1), (tail t); split; [done|by destruct a as [[] r]]|].
    exists (who_char x), ((who_char <$> whos) ++ t). split; [done|by destruct x as [|[]]]. }
  fold t in Em. cbn [parse_clauses]. rewrite Es, Hc, <- Es, Ew, Em. done.
Qed.

Lemma parse_parts umask cs : forall c mode f fuel, bits mode f -> (length (mode_text c cs) < fuel)%nat ->
  exists m, parse_clauses fuel umask (mode_text c cs) mode = Some m /\ bits m (mode_means umask c cs f).
Proof.
  unfold mode_text, mode_means. induction cs as [|d cs IH]; intros c mode f fuel Hf Hfuel.
  - unfold commas in *. cbn [fmap list_fmap concat fold_left] in *. rewrite app_nil_r in *. destruct fuel as [|fuel]; [lia|].
    destruct c as [c|]; [|by exists mode]. cbn [part_text fmap option_fmap option_map default] in *.
    destruct (parse_clause umask c [] mode f fuel) as (m & E & Hb); [by left|done|by rewrite app_nil_r|].
    rewrite app_nil_r in E. exists m. split; [|done]. unfold part_text. cbn [fmap option_fmap option_map default from_option id]. rewrite E.
    destruct fuel as [|fuel]; [|done]. exfalso. destruct c as [whos a l]. unfold part_text, clause_text, actions_text, action_text in Hfuel. cbn in Hfuel.
    rewrite !length_app in Hfuel. simpl in Hfuel. lia.
  - change (commas (d :: cs)) with (","%char :: part_text d ++ commas cs) in *. cbn [fold_left] in *. set (rest := part_text d ++ commas cs) in *.
    assert (forall mode f fuel, bits mode f -> (length (","%char :: rest) < fuel)%nat ->
      exists m, parse_clauses fuel umask (","%char :: rest) mode = Some m /\ bits m (fold_left (act_all umask) cs (act_all umask f d))) as Hnext.
    { intros mode' f' [|fuel'] Hf' Hfuel'; [lia|]. cbn [parse_clauses]. change ((","%char ≟ ","%char)) with true. cbv iota.
      apply (IH d mode' f' fuel' Hf'). unfold rest in Hfuel'. simpl in Hfuel'. lia. }
    destruct c as [c|]; [|by apply Hnext]. unfold part_text in *. cbn [fmap option_fmap option_map default from_option id] in *.
    destruct fuel as [|fuel]; [lia|].
    destruct (parse_clause umask c (","%char :: rest) mode f fuel) as (m & E & Hb); [by right|done|done|].
    rewrite E. apply Hnext; [done|]. rewrite length_app in Hfuel. destruct c as [whos a l]. unfold clause_text, actions_text, action_text in Hfuel.
    cbn [c_whos c_first c_more fmap list_fmap concat] in Hfuel. rewrite !length_app in Hfuel. simpl in *. lia.
Qed.

(** C39. A symbolic mode, of any clauses WHO op PERMS op PERMS ... with WHO of the
    letters a, u, g, o or none, op one of +, - and =, and PERMS of r, w, x, X, s, t
    or one of u, g, o, parses to a mode all of whose bits are those the text means:
    clause after clause and action after action, = clears the bits of its classes
    (all twelve without WHO) first, + and = set the named bits within the classes
    and - clears them; without WHO the bits of the umask are left alone; X is x for
    a directory or where someone may execute at that moment, s is setuid for u and
    setgid for g, t goes with a, and u, g, o copy the permissions that class has at
    that moment.  No bit above the twelve changes. *)
Theorem parse_mode_means umask cur c cs :
  exists m, bb_parse_mode umask (mode_text c cs) cur = Some m /\
    forall n, 0 <= n -> Z.testbit m n = mode_means umask c cs (Z.testbit cur) n.
Proof.
  unfold bb_parse_mode. assert ((wrapU 8 (uc (hd0 (mode_text c cs)) - 48) <? 8) = false) as ->.
  { assert (forall c, (wrapU 8 (uc (hd0 (clause_text c)) - 48) <? 8) = false) as Hc
      by (intros [[|[|[]] ?] [[] ?] ?]; reflexivity).
    unfold mode_text, part_text. destruct c as [c|]; [|by destruct cs].
    cbn [fmap option_fmap option_map default from_option id].
    assert (hd0 (clause_text c ++ commas cs) = hd0 (clause_text c)) as -> by (by destruct c as [[|? ?] [? ?] ?]). apply Hc. }
  apply parse_parts; [by intros n _|lia].
Qed.

(** Under a umask of 022, "+x" and "a=rX,u+ws" for a file 0100644, and a directory. *)
Example modes_example :
  bb_parse_mode 0x12 (lit "+xw,g=u-x") 0x81a4 = Some 0x81f5 /\
  bb_parse_mode 0x12 (lit "a=rX,u+ws") 0x81a4 = Some 0x89a4 /\
  bb_parse_mode 0x12 (lit "a=rX,u+ws") 0x41a4 = Some 0x49ed.
Proof. by vm_compute. Qed.

(** The = of a copy clears its class before the copy is read: "g=g" takes every
    permission from the group. *)
Example copy_of_itself : bb_parse_mode 0x12 (lit "g=g") 0x81f8 = Some 0x81c0.
Proof. by vm_compute. Qed.

(** Whatever a symbolic mode says, the result differs from the current mode
    only in the twelve mode bits: the file type never changes. *)
Theorem parse_mode_keeps_type umask s cur m :
  (wrapU 8 (uc (hd0 s) - 48) <? 8) = false -> bb_parse_mode umask s cur = Some m -> same_type m cur.
Proof. intros Hs. unfold bb_parse_mode. rewrite Hs. apply parse_clauses_type. Qed.

Lemma parse_mode_keeps_type_witness : same_type 0x41c0 0x41ff.
Proof. apply (parse_mode_keeps_type 0x12 (lit "u=rwX,og=") 0x41ff 0x41c0); reflexivity. Defined.

(** ** The mode string *)

Lemma land_bit mode b : 0 <= b -> negb (Z.land mode (2 ^ b) =? 0) = Z.testbit mode b.
Proof.
  intros Hb. destruct (Z.testbit mode b) eqn:E.
  - apply negb_true_iff, Z.eqb_neq. intros H. apply (f_equal (fun z => Z.testbit z b)) in H.
    rewrite Z.land_spec, E, Z.pow2_bits_true, Z.bits_0 in H by done. done.
  - apply negb_false_iff, Z.eqb_eq. apply Z.bits_inj'. intros n Hn.
    rewrite Z.land_spec, Z.pow2_bits_eqb, Z.bits_0 by done. destruct (Z.eqb_spec b n) as [<-|]; [by rewrite E|].
    apply andb_false_r.
Qed.

(** Reading a class back: its three permissions and the special bit. *)
Definition read_class (r w x : ascii) : list bool :=
  [ bool_decide (x ∈ lit "xst"); bool_decide (w = "w"%char); bool_decide (r = "r"%char); bool_decide (x ∈ lit "sStT") ].

Lemma class_string_reads mode b special last :
  0 <= b -> 0 <= special ->
  exists r w x, class_string mode [2 ^ (b + 2); 2 ^ (b + 1); 2 ^ b] (2 ^ special) last = [r; w; x] /\
    read_class r w x =
      [Z.testbit mode b; Z.testbit mode (b + 1); Z.testbit mode (b + 2); Z.testbit mode special].
Proof.
  intros Hb Hs. unfold class_string. cbn [imap foldl fst snd compose]. rewrite !land_bit by lia.
  destruct (Z.testbit mode b), (Z.testbit mode (b + 1)), (Z.testbit mode (b + 2)), (Z.testbit mode special), last;
    (do 3 eexists; split; [reflexivity|vm_compute; reflexivity]).
Qed.

(** The bits of the twelve mode bits in a mode string: classes other, group and
    user, then sticky, setgid and setuid. *)
Definition read_mode (s : cstr) : list bool :=
  let cls i := read_class (at0 s i) (at0 s (S i)) (at0 s (S (S i))) in
  take 3 (cls 7%nat) ++ take 3 (cls 4%nat) ++ take 3 (cls 1%nat) ++
  drop 3 (cls 7%nat) ++ drop 3 (cls 4%nat) ++ drop 3 (cls 1%nat).

(** The mode string of ls -l says everything: all twelve mode bits can be
    read back from it (the special bits share a letter with the execute bits,
    upper case when the file is not executable), in both compiled forms. *)
Theorem mode_string_reads mode :
  read_mode (bb_mode_string mode) = (fun b => Z.testbit mode (Z.of_nat b)) <$> seq 0 12 /\
  bb_mode_string_table mode = bb_mode_string mode.
Proof.
  split; [|symmetry; apply mode_strings_agree].
  destruct (class_string_reads mode 6 11 false ltac:(lia) ltac:(lia)) as (r1 & w1 & x1 & E1 & R1).
  destruct (class_string_reads mode 3 10 false ltac:(lia) ltac:(lia)) as (r2 & w2 & x2 & E2 & R2).
  destruct (class_string_reads mode 0 9 true ltac:(lia) ltac:(lia)) as (r3 & w3 & x3 & E3 & R3).
  assert (bb_mode_string mode = [type_char mode; r1; w1; x1; r2; w2; x2; r3; w3; x3]) as ->.
  { unfold bb_mode_string. change (shifted 0) with [2 ^ (6 + 2); 2 ^ (6 + 1); 2 ^ 6].
    change (shifted 1) with [2 ^ (3 + 2); 2 ^ (3 + 1); 2 ^ 3]. change (shifted 2) with [2 ^ (0 + 2); 2 ^ (0 + 1); 2 ^ 0].
    change (Z.shiftr 0x1000 1) with (2 ^ 11). change (Z.shiftr 0x1000 2) with (2 ^ 10).
    change (Z.shiftr 0x1000 3) with (2 ^ 9). by rewrite E1, E2, E3. }
  unfold read_mode, at0. cbn [drop hd0]. by rewrite R1, R2, R3.
Qed.
