(* ===== verification/AshBase.v ===== *)
(** * shell/ash.c: computations

    ash reports errors by longjmp.  A computation over a state ends normally,
    by an exception (with the state at the jump, [exception_type] and the
    message), or by touching memory it must not touch. *)

From Stdlib Require Import Ascii String ZArith Lia.
From stdpp Require Import base gmap list strings.
From S2P Require Import Prelude Clib.

(** [EXINT], [EXERROR], [EXEND], [EXEXIT]; [DIED] is no exception of ash's but the
    end of the process in [xfunc_die] or [_exit]: no handler sees it. *)
Inductive exn := EXINT | EXERROR (msg : cstr) | EXEND | EXEXIT | DIED.

Inductive res (S A : Type) :=
  | Ok (s : S) (a : A)
  | Raise (s : S) (e : exn)
  | Wild.
Arguments Ok {S A} s a.
Arguments Raise {S A} s e.
Arguments Wild {S A}.

Definition M (S A : Type) : Type := S -> res S A.

Definition ret {S A} (a : A) : M S A := fun s => Ok s a.
Definition bind {S A B} (m : M S A) (k : A -> M S B) : M S B :=
  fun s => match m s with
           | Ok s a => k a s
           | Raise s e => Raise s e
           | Wild => Wild
           end.
Definition raise {S A} (e : exn) : M S A := fun s => Raise s e.
Definition wild {S A} : M S A := fun _ => Wild.
Definition get {S A} (f : S -> A) : M S A := fun s => Ok s (f s).
Definition modify {S} (f : S -> S) : M S unit := fun s => Ok (f s) tt.

(** A dereference: [None] is an object that is not (or no longer) there. *)
Definition deref {S A} (o : option A) : M S A := match o with Some a => ret a | None => wild end.

Declare Scope ash_scope.
Delimit Scope ash_scope with ash.
Notation "'let!' x ':=' m 'in' k" := (bind m (fun x => k))
  (at level 200, x pattern, m at level 100, k at level 200) : ash_scope.
Notation "m ;; k" := (bind m (fun _ => k)) (at level 100, right associativity) : ash_scope.

(** Run [f] on each element in turn. *)
Fixpoint for_each {S A} (f : A -> M S unit) (l : list A) : M S unit :=
  match l with
  | [] => ret tt
  | a :: l => bind (f a) (fun _ => for_each f l)
  end.

(** ** Reasoning about computations

    [safe P Q E m]: from states satisfying [P], [m] touches no bad memory, a
    normal end satisfies [Q] and an exception [E]. *)
Definition safe {S A} (P : S -> Prop) (Q : A -> S -> Prop) (E : S -> Prop) (m : M S A) : Prop :=
  forall s, P s -> match m s with Ok s a => Q a s | Raise s _ => E s | Wild => False end.

Lemma safe_ret {S A} (P : S -> Prop) Q E (a : A) : (forall s, P s -> Q a s) -> safe P Q E (ret a).
Proof. intros H s Hs. by apply H. Qed.

Lemma safe_bind {S A B} (P : S -> Prop) Q R E (m : M S A) (k : A -> M S B) :
  safe P Q E m -> (forall a, safe (Q a) R E (k a)) -> safe P R E (bind m k).
Proof.
  intros Hm Hk s Hs. specialize (Hm s Hs). unfold bind. destruct (m s); [by apply Hk|done|done].
Qed.

Lemma safe_weaken {S A} (P P' : S -> Prop) (Q Q' : A -> S -> Prop) (E E' : S -> Prop) m :
  safe P Q E m -> (forall s, P' s -> P s) -> (forall a s, Q a s -> Q' a s) -> (forall s, E s -> E' s) ->
  safe P' Q' E' m.
Proof. intros Hm HP HQ HE s Hs. specialize (Hm s (HP s Hs)). destruct (m s); auto. Qed.

Lemma safe_for_each {S A} (P E : S -> Prop) (f : A -> M S unit) l :
  (forall a, safe P (fun _ => P) E (f a)) -> safe P (fun _ => P) E (for_each f l).
Proof.
  intros Hf. induction l as [|a l IH]; cbn [for_each]; [by apply safe_ret|].
  eapply safe_bind; [apply Hf|]. by intros [].
Qed.

(** Evaluate the first computation of a sequence. *)
Lemma bind_run {S A B} (m : M S A) (k : A -> M S B) s s' a : m s = Ok s' a -> bind m k s = k a s'.
Proof. unfold bind. by intros ->. Qed.

Lemma bind_raise {S A B} (m : M S A) (k : A -> M S B) s s' e : m s = Raise s' e -> bind m k s = Raise s' e.
Proof. unfold bind. by intros ->. Qed.

Lemma bind_modify {S A} (f : S -> S) (k : unit -> M S A) s : bind (modify f) k s = k tt (f s).
Proof. done. Qed.

Lemma bind_get {S A B} (f : S -> A) (k : A -> M S B) s : bind (get f) k s = k (f s) s.
Proof. done. Qed.

(** Dropping a result twice. *)
Lemma bind_ret_tt {S A B} (m : M S A) (k : M S B) s :
  bind (bind m (fun _ => ret tt)) (fun _ => k) s = bind m (fun _ => k) s.
Proof. unfold bind. by destruct (m s). Qed.

Lemma bind_ret_tt_end {S} (m : M S unit) s : bind m (fun _ => ret tt) s = m s.
Proof. unfold bind. destruct (m s) as [s' []| |]; done. Qed.

Lemma bind_ok {S A B} (m : M S A) (k : A -> M S B) s s' b :
  bind m k s = Ok s' b <-> exists s1 a, m s = Ok s1 a /\ k a s1 = Ok s' b.
Proof.
  unfold bind. split.
  - destruct (m s) as [s1 a| |]; try discriminate. eauto.
  - intros (s1 & a & -> & Hk). done.
Qed.
