(* ===== verification/AshVar.v ===== *)
(** * shell/ash.c: shell variables and local variables

    Variables are structs in a hash table of linked lists; a struct points to a
    text "name=value" that it may or may not own (VTEXTFIXED, VSTACK), and
    "local" saves struct, flags and text of a variable until the function
    returns.  Structs and texts have addresses here, so that freeing one twice or
    using it afterwards shows up as [Wild].  Callbacks: only PATH has one
    ([changepath]); its calls are recorded.  As configured: no dynamic variables
    (VDYNAMIC is 0), no getopts, mail or locale variables. *)

From Stdlib Require Import Ascii String ZArith Lia.
From stdpp Require Import base gmap list strings.
From S2P Require Import Prelude Clib LibbbStr AshBase.

Local Open Scope Z_scope.
Local Open Scope ash_scope.

(** ** Data *)

Definition VEXPORT : Z := 0x01.
Definition VREADONLY : Z := 0x02.
Definition VSTRFIXED : Z := 0x04.
Definition VTEXTFIXED : Z := 0x08.
Definition VSTACK : Z := 0x10.
Definition VUNSET : Z := 0x20.
Definition VNOFUNC : Z := 0x40.
Definition VNOSET : Z := 0x80.
Definition VNOSAVE : Z := 0x100.
Definition VTABSIZE : Z := 39.

(** [struct var], less its link: [v_func] says whether [var_func] is
    [changepath] (it is NULL otherwise). *)
Record var := mk_var { v_flags : Z; v_text : nat; v_func : bool }.

(** [struct localvar]: one that saves the options ("-"), or one of a variable. *)
Inductive localvar :=
  | LvOpts (saved : list Z)
  | LvVar (vp : nat) (flags : Z) (text : nat).

(** A text: whether malloc made it, and its characters. *)
Record text := mk_text { t_heap : bool; t_chars : cstr }.

Record shvars := mk_shvars {
  s_tab : list (list nat);          (* vartab: the structs of each bucket *)
  s_vars : gmap nat var;            (* live structs *)
  s_texts : gmap nat text;          (* live texts *)
  s_next : nat;                     (* the allocator: addresses from here on are unused *)
  s_frames : list (list localvar);  (* localvar_stack *)
  s_optlist : list Z;
  s_exitstatus : Z;
  s_lineno : Z;
  s_funcname : option cstr;
  s_paths : list cstr;              (* arguments of changepath, newest first *)
}.

Definition set_tab f s := mk_shvars (f (s_tab s)) (s_vars s) (s_texts s) (s_next s) (s_frames s)
  (s_optlist s) (s_exitstatus s) (s_lineno s) (s_funcname s) (s_paths s).
Definition set_vars f s := mk_shvars (s_tab s) (f (s_vars s)) (s_texts s) (s_next s) (s_frames s)
  (s_optlist s) (s_exitstatus s) (s_lineno s) (s_funcname s) (s_paths s).
Definition set_texts f s := mk_shvars (s_tab s) (s_vars s) (f (s_texts s)) (s_next s) (s_frames s)
  (s_optlist s) (s_exitstatus s) (s_lineno s) (s_funcname s) (s_paths s).
Definition set_next n s := mk_shvars (s_tab s) (s_vars s) (s_texts s) n (s_frames s)
  (s_optlist s) (s_exitstatus s) (s_lineno s) (s_funcname s) (s_paths s).
Definition set_frames l s := mk_shvars (s_tab s) (s_vars s) (s_texts s) (s_next s) l
  (s_optlist s) (s_exitstatus s) (s_lineno s) (s_funcname s) (s_paths s).
Definition set_optlist o s := mk_shvars (s_tab s) (s_vars s) (s_texts s) (s_next s) (s_frames s)
  o (s_exitstatus s) (s_lineno s) (s_funcname s) (s_paths s).
Definition set_exitstatus e s := mk_shvars (s_tab s) (s_vars s) (s_texts s) (s_next s) (s_frames s)
  (s_optlist s) e (s_lineno s) (s_funcname s) (s_paths s).
Definition add_path v s := mk_shvars (s_tab s) (s_vars s) (s_texts s) (s_next s) (s_frames s)
  (s_optlist s) (s_exitstatus s) (s_lineno s) (s_funcname s) (v :: s_paths s).

Abbreviation Sh := (M shvars).

Definition has (flags bits : Z) : bool := negb (Z.land flags bits =? 0).

(** ** Objects *)

Definition get_var (i : nat) : Sh var := let! m := get s_vars in deref (m !! i).
Definition put_var (i : nat) (v : var) : Sh unit := modify (set_vars <[i := v]>).
Definition get_text (t : nat) : Sh cstr := let! m := get s_texts in deref (t_chars <$> m !! t).

Definition malloc_text (x : cstr) : Sh nat :=
  let! n := get s_next in
  modify (set_next (S n)) ;; modify (set_texts <[n := mk_text true x]>) ;; ret n.

(** [free] of a text: it must be live and malloc's. *)
Definition free_text (t : nat) : Sh unit :=
  let! m := get s_texts in
  match m !! t with
  | Some (mk_text true _) => modify (set_texts (delete t))
  | _ => wild
  end.

Definition malloc_var : Sh nat :=
  let! n := get s_next in
  modify (set_next (S n)) ;; put_var n (mk_var 0 0 false) ;; ret n.

Definition free_var (i : nat) : Sh unit :=
  let! _ := get_var i in modify (set_vars (delete i)).

(** [ash_msg_and_raise_error] *)
Definition ash_msg_and_raise_error {A} (msg : cstr) : Sh A :=
  modify (set_exitstatus 2) ;; raise (EXERROR msg).

(** ** Looking up *)

Fixpoint var_end (var : cstr) : cstr :=
  match var with
  | [] => []
  | c :: r => if c ≟ "="%char then r else var_end r
  end.

Fixpoint varcmp (p q : cstr) : Z :=
  let c := hd0 p in
  let d := hd0 q in
  if c ≟ d then
    if (c ≟ NUL) || (c ≟ "="%char) then 0
    else match p, q with
         | _ :: p', _ :: q' => varcmp p' q'
         | _, _ => 0
         end
  else (if c ≟ "="%char then 0 else uc c) - (if d ≟ "="%char then 0 else uc d).

Fixpoint hashvar_loop (p : cstr) (hashval : Z) : Z :=
  match p with
  | [] => hashval
  | c :: r => if c ≟ "="%char then hashval else hashvar_loop r (wrapU 32 (hashval + uc c))
  end.

(** The index of the bucket. *)
Definition hashvar (p : cstr) : nat :=
  Z.to_nat (hashvar_loop p (Z.shiftl (uc (hd0 p)) 4) mod VTABSIZE).

(** [findvar] from the head of a bucket: the struct found, if any. *)
Fixpoint find_in (l : list nat) (name : cstr) : Sh (option nat) :=
  match l with
  | [] => ret None
  | i :: l =>
      let! v := get_var i in
      let! t := get_text (v_text v) in
      if varcmp t name =? 0 then ret (Some i) else find_in l name
  end.

Definition bucket (b : nat) (s : shvars) : list nat := default [] (s_tab s !! b).

Definition findvar (name : cstr) : Sh (option nat) :=
  let! l := get (bucket (hashvar name)) in find_in l name.

(** The static texts whose address means something. *)
Definition LINENO_TEXT : nat := 5.
Definition FUNCNAME_TEXT : nat := 6.

Definition lookupvar (name : cstr) : Sh (option cstr) :=
  let! v := findvar name in
  match v with
  | None => ret None
  | Some i =>
      let! v := get_var i in
      if has (v_flags v) VUNSET then ret None
      else
        (if (v_text v =? LINENO_TEXT)%nat then
           let! n := get s_lineno in
           modify (set_texts <[LINENO_TEXT := mk_text false (lit "LINENO=" ++ fmt_d n)]>)
         else if (v_text v =? FUNCNAME_TEXT)%nat then
           let! f := get s_funcname in
           modify (set_texts <[FUNCNAME_TEXT :=
             mk_text false (lit "FUNCNAME=" ++ safe_strncpy [] (default [] f) 65)]>)
         else ret tt) ;;
        let! t := get_text (v_text v) in
        ret (Some (var_end t))
  end.

(** ** Setting *)

Definition aflag (s : shvars) : Z := nth 11 (s_optlist s) 0.

(** [VEXPORT & (((unsigned) (1 - aflag)) - 1)] *)
Definition allexport (a : Z) : Z := Z.land VEXPORT (wrapU 32 (wrapU 32 (1 - a) - 1)).

Definition KEEP : Z := Z.lor VEXPORT (Z.lor VREADONLY (Z.lor VSTRFIXED VUNSET)).
Definition TEXTBITS : Z := Z.lor VTEXTFIXED VSTACK.
Definition OWNBITS : Z := Z.lor TEXTBITS VNOSAVE.
Definition DROPPED : Z := Z.lor OWNBITS VUNSET.

(** [if (!(flags & (VTEXTFIXED|VSTACK|VNOSAVE))) s = ckstrdup(s);
    vp->var_text = s; vp->flags = flags;] *)
Definition store_text (i s : nat) (flags : Z) (func : bool) : Sh unit :=
  let! t := (if has flags OWNBITS then ret s
             else let! x := get_text s in malloc_text x) in
  put_var i (mk_var flags t func).

(** [*vpp = vp->next] *)
Fixpoint unlink (i : nat) (l : list nat) : list nat :=
  match l with
  | [] => []
  | j :: l => if (j =? i)%nat then l else j :: unlink i l
  end.

(** [setvareq] of the text at [s]; the result is the struct's address (which
    may have been freed) or NULL. *)
Definition setvareq (s : nat) (flags : Z) : Sh (option nat) :=
  let! x := get_text s in
  let! a := get aflag in
  let flags := Z.lor flags (allexport a) in
  let! vp := findvar x in
  match vp with
  | Some i =>
      let! v := get_var i in
      if Z.land (v_flags v) VREADONLY =? VREADONLY then
        (if has flags VNOSAVE then free_text s else ret tt) ;;
        let! n := get_text (v_text v) in
        modify (set_exitstatus 1) ;;
        ash_msg_and_raise_error (upto n (strchrnul n "=") ++ lit ": is read only")
      else if has flags VNOSET then ret (Some i)
      else
        (if v_func v && negb (has flags VNOFUNC) then modify (add_path (var_end x)) else ret tt) ;;
        (if has (v_flags v) TEXTBITS then ret tt else free_text (v_text v)) ;;
        if Z.lor (Z.land flags KEEP) (Z.land (v_flags v) VSTRFIXED) =? VUNSET then
          modify (set_tab (alter (unlink i) (hashvar x))) ;;
          free_var i ;;
          (if Z.land flags OWNBITS =? VNOSAVE then free_text s else ret tt) ;;
          ret (Some i)
        else
          store_text i s (Z.lor flags (Z.ldiff (v_flags v) DROPPED)) (v_func v) ;; ret (Some i)
  | None =>
      if has flags VNOSET then ret None
      else if Z.land flags KEEP =? VUNSET then
        (if Z.land flags OWNBITS =? VNOSAVE then free_text s else ret tt) ;; ret None
      else
        let! i := malloc_var in
        modify (set_tab (alter (fun l => l ++ [i]) (hashvar x))) ;;
        store_text i s flags false ;; ret (Some i)
  end.

Definition setvar (name : cstr) (val : option cstr) (flags : Z) : Sh (option nat) :=
  let q := endofname name in
  let p := strchrnul q "=" in
  let n := upto name p in
  if (length n =? 0)%nat || negb (length p =? length q)%nat then
    ash_msg_and_raise_error (n ++ lit ": bad variable name")
  else
    let flags := match val with None => Z.lor flags VUNSET | Some _ => flags end in
    let! nameeq := malloc_text (match val with
                                | Some v => n ++ lit "=" ++ v
                                | None => n
                                end) in
    setvareq nameeq (Z.lor flags VNOSAVE).

Definition setvar0 (name val : cstr) : Sh unit := setvar name (Some val) 0 ;; ret tt.
Definition unsetvar (s : cstr) : Sh unit := setvar s None 0 ;; ret tt.

(** ** Start-up *)

(** [varinit_data] as configured ([vps1] is "PS1=# " for user 0), with the
    flags and whether the callback is [changepath]. *)
Definition defifsvar : cstr := lit "IFS= " ++ [TAB; NL].
Definition varinit (root : bool) (path : cstr) : list (Z * cstr * bool) :=
  let fixed := Z.lor VSTRFIXED VTEXTFIXED in
  [ (fixed, defifsvar, false);
    (fixed, lit "PATH=" ++ path, true);
    (fixed, lit "PS1=" ++ lit (if root then "# " else "$ "), false);
    (fixed, lit "PS2=> ", false);
    (fixed, lit "PS4=+ ", false);
    (fixed, lit "LINENO=", false);
    (fixed, lit "FUNCNAME=", false);
    (Z.lor fixed VUNSET, lit "HISTFILE", false) ].

(** [initvar]: struct and text [k] are the [k]th of [varinit]. *)
Fixpoint initvar_loop (k : nat) (l : list (Z * cstr * bool)) : Sh unit :=
  match l with
  | [] => ret tt
  | (flags, x, func) :: l =>
      modify (set_texts <[k := mk_text false x]>) ;;
      put_var k (mk_var flags k func) ;;
      modify (set_tab (alter (cons k) (hashvar x))) ;;
      initvar_loop (S k) l
  end.

Definition initvar (root : bool) (path : cstr) : Sh unit := initvar_loop 0 (varinit root path).

(** The globals before [init]: everything zero. *)
Definition zero_state : shvars :=
  mk_shvars (replicate (Z.to_nat VTABSIZE) []) ∅ ∅ 8 [] (replicate 16 0) 0 0 None [].

(** A text outside the heap: an environment string, a constant. *)
Definition static_text (x : cstr) : Sh nat :=
  let! n := get s_next in
  modify (set_next (S n)) ;; modify (set_texts <[n := mk_text false x]>) ;; ret n.

(** The variables part of [init], up to PPID; [environ] is the environment. *)
Definition init_vars (root : bool) (path : cstr) (environ : list cstr) (ppid : Z) : Sh unit :=
  initvar root path ;;
  for_each (fun e =>
    if strchr e "=" then
      let! t := static_text e in
      setvareq t (Z.lor VEXPORT VTEXTFIXED) ;; ret tt
    else ret tt) environ ;;
  (let! t := static_text defifsvar in setvareq t VTEXTFIXED ;; ret tt) ;;
  (let! t := static_text (lit "OPTIND=1") in setvareq t VTEXTFIXED ;; ret tt) ;;
  setvar0 (lit "PPID") (fmt_u ppid).

(** ** Local variables *)

Definition lv_names (name : cstr) (lv : localvar) : Sh bool :=
  match lv with
  | LvOpts _ => ret false
  | LvVar vp _ _ =>
      let! v := get_var vp in
      let! t := get_text (v_text v) in
      ret (varcmp t name =? 0)
  end.

Fixpoint any_names (name : cstr) (l : list localvar) : Sh bool :=
  match l with
  | [] => ret false
  | lv :: l => let! b := lv_names name lv in if b then ret true else any_names name l
  end.

Definition LONE_DASH (s : cstr) : bool := bool_decide (s = lit "-").

(** [lvp->next = localvar_stack->lv; localvar_stack->lv = lvp;] *)
Definition push_lv (lv : localvar) : Sh unit :=
  let! fs := get s_frames in
  match fs with
  | f :: fs => modify (set_frames ((lv :: f) :: fs))
  | [] => wild
  end.

(** [name] is a text; the caller has checked that there is a frame. *)
Definition mklocal (name : nat) (flags : Z) : Sh unit :=
  let! x := get_text name in
  let eq := if strchr x "=" then true else false in
  let! fs := get s_frames in
  let! lvs := deref (head fs) in
  let! dup := any_names x lvs in
  if dup then (if eq : bool then setvareq name 0 ;; ret tt else ret tt)
  else if LONE_DASH x then
    let! o := get s_optlist in push_lv (LvOpts o)
  else
    let! vp := findvar x in
    match vp with
    | None =>
        let! vp := (if eq : bool then setvareq name (Z.lor VSTRFIXED flags)
                    else setvar x None (Z.lor VSTRFIXED flags)) in
        let! i := deref vp in
        push_lv (LvVar i VUNSET 0)
    | Some i =>
        let! v := get_var i in
        put_var i (mk_var (Z.lor (v_flags v) (Z.lor VSTRFIXED VTEXTFIXED)) (v_text v) (v_func v)) ;;
        (if eq : bool then setvareq name flags ;; ret tt else unsetvar x) ;;
        push_lv (LvVar i (v_flags v) (v_text v))
    end.

(** The words of a command are texts outside the heap. *)
Definition localcmd (args : list cstr) : Sh unit :=
  let! fs := get s_frames in
  match fs with
  | [] => ash_msg_and_raise_error (lit "not in a function")
  | _ => for_each (fun x => let! name := static_text x in mklocal name 0) args
  end.

(** An assignment before a command word, in [evalcommand]. *)
Definition assign_word (vlocal : bool) (vflags : Z) (x : cstr) : Sh unit :=
  let! s := static_text x in
  if vlocal then mklocal s VEXPORT else setvareq s vflags ;; ret tt.

Definition pushlocalvars : Sh unit :=
  let! fs := get s_frames in modify (set_frames ([] :: fs)).

(** The turn of [poplocalvars(0)] for one saved variable ([poplocalvars] is
    never called with another argument). *)
Definition restore_lv (lv : localvar) : Sh unit :=
  match lv with
  | LvOpts o => modify (set_optlist o)
  | LvVar i flags t =>
      let! v := get_var i in
      if flags =? VUNSET then
        put_var i (mk_var (Z.ldiff (v_flags v) (Z.lor VSTRFIXED VREADONLY)) (v_text v) (v_func v)) ;;
        let! x := get_text (v_text v) in unsetvar x
      else
        (if v_func v then let! x := get_text t in modify (add_path (var_end x)) else ret tt) ;;
        (if has (v_flags v) TEXTBITS then ret tt else free_text (v_text v)) ;;
        put_var i (mk_var flags t (v_func v))
  end.

Definition poplocalvars : Sh unit :=
  let! fs := get s_frames in
  match fs with
  | [] => wild
  | f :: fs => modify (set_frames fs) ;; for_each restore_lv f
  end.

(** [unwindlocalvars(stop)]; [stop] is given by the number of frames below it. *)
Fixpoint unwind_loop (n : nat) : Sh unit :=
  match n with
  | O => ret tt
  | S n => poplocalvars ;; unwind_loop n
  end.

Definition unwindlocalvars (stop : nat) : Sh unit :=
  let! fs := get s_frames in unwind_loop (length fs - stop).

(** ** Builtins *)

(** One operand of "export" or "readonly". *)
Definition export_one (flag flag_off : Z) (name : cstr) : Sh unit :=
  match strchr name "=" with
  | Some p => setvar name (Some (tail p)) (Z.land flag flag_off) ;; ret tt
  | None =>
      let! vp := findvar name in
      match vp with
      | Some i =>
          let! v := get_var i in
          put_var i (mk_var (Z.land (Z.lor (v_flags v) flag) flag_off) (v_text v) (v_func v))
      | None => setvar name None (Z.land flag flag_off) ;; ret tt
      end
  end.

(** [exportcmd] with operands: "readonly" and its flag, or "export" with or
    without -n. *)
Definition exportcmd (readonly n : bool) (names : list cstr) : Sh unit :=
  let flag := if readonly then VREADONLY else VEXPORT in
  let flag_off := if readonly then 0 else if n then VEXPORT else 0 in
  for_each (export_one flag (Z.lnot flag_off)) names.

(** [listvars]: the texts of the variables whose flags among [on] and [off] are
    exactly [on], bucket by bucket, but for those in [lp]; then [lp]. *)
Fixpoint listvars_bucket (on off : Z) (lp : list cstr) (l : list nat) : Sh (list cstr) :=
  match l with
  | [] => ret []
  | i :: l =>
      let! v := get_var i in
      if Z.land (v_flags v) (Z.lor on off) =? on then
        let! t := get_text (v_text v) in
        let! r := listvars_bucket on off lp l in
        ret (if existsb (fun x => strcmp x t =? 0) lp then r else t :: r)
      else listvars_bucket on off lp l
  end.

Fixpoint listvars_tab (on off : Z) (lp : list cstr) (tab : list (list nat)) : Sh (list cstr) :=
  match tab with
  | [] => ret lp
  | b :: tab =>
      let! l := listvars_bucket on off lp b in
      let! r := listvars_tab on off lp tab in
      ret (l ++ r)
  end.

Definition listvars (on off : Z) (lp : list cstr) : Sh (list cstr) :=
  let! tab := get s_tab in listvars_tab on off lp tab.
