(* ===== verification/AshVarSpec.v ===== *)
(** * shell/ash.c: the variable table implements a map with scopes

    An abstract machine: a map from names to entries (exported, read-only, fixed,
    value) and a stack of scopes that hold saved entries.  The theorem: every
    operation of AshVar on well-formed states does what the abstract operation
    does, raises the same errors, and never frees or reads a struct or a text
    that is not live. *)

From Stdlib Require Import Ascii String ZArith Lia.
From stdpp Require Import base gmap list strings.
From S2P Require Import Prelude Clib LibbbStr AshBase AshVar.

Local Open Scope Z_scope.
Local Open Scope ash_scope.

(** ** Names *)

(** The name in a text: what stands before "=". *)
Fixpoint nm (t : cstr) : cstr :=
  match t with
  | [] => []
  | c :: r => if c ≟ "="%char then [] else c :: nm r
  end.

(** The key of a text; "=..." is apart from the empty name (another bucket). *)
Definition key (t : cstr) : cstr := if hd0 t ≟ "="%char then lit "=" else nm t.

Lemma varcmp_nm p q : NUL ∉ p -> NUL ∉ q -> (varcmp p q =? 0) = bool_decide (nm p = nm q).
Proof.
  revert q. induction p as [|c p IH]; intros [|d q] Hp Hq; cbn [varcmp nm hd0].
  - done.
  - apply not_elem_of_cons in Hq as [Hd _]. destruct (Ascii.eqb_spec NUL d) as [|_]; [congruence|].
    destruct (Ascii.eqb_spec d "=") as [->|Hn]; [done|].
    change (uc NUL) with 0. pose proof (uc_range d).
    assert (uc d <> 0) by (intros E; apply Hd; by apply uc_inj).
    rewrite bool_decide_eq_false_2 by done. apply Z.eqb_neq. cbn. lia.
  - apply not_elem_of_cons in Hp as [Hd _]. destruct (Ascii.eqb_spec c NUL) as [|_]; [congruence|].
    destruct (Ascii.eqb_spec c "=") as [->|Hn]; [done|].
    change (uc NUL) with 0. pose proof (uc_range c).
    assert (uc c <> 0) by (intros E; apply Hd; by apply uc_inj).
    rewrite bool_decide_eq_false_2 by done. apply Z.eqb_neq. cbn. lia.
  - apply not_elem_of_cons in Hp as [Hc Hp]. apply not_elem_of_cons in Hq as [Hd Hq].
    assert (uc c <> 0 /\ uc d <> 0) as [Hc0 Hd0].
    { split; intros E; [apply Hc|apply Hd]; by apply uc_inj. }
    destruct (Ascii.eqb_spec c d) as [->|Hcd].
    + rewrite (proj2 (Ascii.eqb_neq d NUL)) by congruence.
      destruct (Ascii.eqb_spec d "=") as [->|Hn]; [done|]. cbn [orb].
      rewrite IH by done. case_bool_decide; case_bool_decide; congruence.
    + assert (uc c <> uc d) by (intros E; by apply Hcd, uc_inj).
      destruct (Ascii.eqb_spec c "=") as [->|], (Ascii.eqb_spec d "=") as [->|];
        rewrite ?bool_decide_eq_false_2 by congruence; (apply Z.eqb_neq; cbn; lia) || done.
Qed.

Lemma hashvar_loop_nm p h : hashvar_loop p h = hashvar_loop (nm p) h.
Proof.
  revert h. induction p as [|c p IH]; intros h; [done|]. cbn [hashvar_loop nm].
  destruct (c ≟ "="%char) eqn:E; [done|]. cbn [hashvar_loop]. by rewrite E.
Qed.

Lemma hashvar_key p : hashvar p = hashvar (key p).
Proof.
  unfold key. destruct p as [|c p]; [done|]. cbn [hd0]. destruct (Ascii.eqb_spec c "=") as [->|Hc]; [done|].
  unfold hashvar. rewrite hashvar_loop_nm. cbn [nm].
  by rewrite (proj2 (Ascii.eqb_neq c "=")) by done.
Qed.

Lemma hashvar_lt p : (hashvar p < 39)%nat.
Proof.
  unfold hashvar, VTABSIZE. pose proof (Z.mod_pos_bound (hashvar_loop p (Z.shiftl (uc (hd0 p)) 4)) 39). lia.
Qed.

Lemma key_eq_nm p q : key p = key q -> nm p = nm q.
Proof.
  unfold key. destruct p as [|c p], q as [|d q]; cbn [hd0 nm]; repeat case_goal; try done.
  all: cbn; intros; simplify_eq/=; try done.
Qed.

(** Within one bucket, comparing names is comparing keys. *)
Lemma same_bucket_key p q : hashvar p = hashvar q -> nm p = nm q -> key p = key q.
Proof.
  unfold key. destruct p as [|c p], q as [|d q]; cbn [hd0 nm]; repeat case_goal; try done.
  - bool_prop; subst. intros H. rewrite hashvar_key in H. symmetry in H. by rewrite hashvar_key in H.
  - bool_prop; subst. intros H. by rewrite hashvar_key in H.
Qed.

Lemma varcmp_key p q : NUL ∉ p -> NUL ∉ q -> hashvar p = hashvar q ->
  (varcmp p q =? 0) = bool_decide (key p = key q).
Proof.
  intros Hp Hq Hh. rewrite varcmp_nm by done. apply bool_decide_ext. split.
  - by apply same_bucket_key.
  - apply key_eq_nm.
Qed.

Lemma var_end_none x : "="%char ∉ x -> var_end x = [].
Proof.
  induction x as [|c x IH]; [done|]. rewrite not_elem_of_cons. intros [Hc Hx]. cbn [var_end].
  rewrite (proj2 (Ascii.eqb_neq c "=")) by done. by apply IH.
Qed.

(** ** Flag bits *)

Lemma land_pow2 f k : 0 <= k -> (Z.land f (2 ^ k) =? 0) = negb (Z.testbit f k).
Proof.
  intros Hk. destruct (Z.testbit f k) eqn:Ht; cbn [negb].
  - apply Z.eqb_neq. intros E. assert (Z.testbit (Z.land f (2 ^ k)) k = true) as Hx; [|by rewrite E, Z.bits_0 in Hx].
    by rewrite Z.land_spec, Ht, Z.pow2_bits_true.
  - apply Z.eqb_eq. apply Z.bits_inj'. intros n Hn. rewrite Z.land_spec, Z.bits_0.
    destruct (Z.eq_dec n k) as [->|Hne]; [by rewrite Ht|].
    rewrite (Z.pow2_bits_false k) by done. apply andb_false_r.
Qed.

Lemma has_bit f k : 0 <= k -> has f (2 ^ k) = Z.testbit f k.
Proof. intros Hk. unfold has. rewrite land_pow2 by done. apply negb_involutive. Qed.

Lemma has_VEXPORT f : has f VEXPORT = Z.testbit f 0. Proof. by apply (has_bit f 0). Qed.
Lemma has_VREADONLY f : has f VREADONLY = Z.testbit f 1. Proof. by apply (has_bit f 1). Qed.
Lemma has_VSTRFIXED f : has f VSTRFIXED = Z.testbit f 2. Proof. by apply (has_bit f 2). Qed.
Lemma has_VUNSET f : has f VUNSET = Z.testbit f 5. Proof. by apply (has_bit f 5). Qed.
Lemma has_VNOFUNC f : has f VNOFUNC = Z.testbit f 6. Proof. by apply (has_bit f 6). Qed.
Lemma has_VNOSET f : has f VNOSET = Z.testbit f 7. Proof. by apply (has_bit f 7). Qed.
Lemma has_VNOSAVE f : has f VNOSAVE = Z.testbit f 8. Proof. by apply (has_bit f 8). Qed.

(** A test of some bits against a pattern, bit by bit. *)
Lemma land_eq_bits f m c :
  (Z.land f m =? c) = true <-> forall n, 0 <= n -> Z.testbit f n && Z.testbit m n = Z.testbit c n.
Proof.
  rewrite Z.eqb_eq. split.
  - intros <- n Hn. by rewrite Z.land_spec.
  - intros H. apply Z.bits_inj'. intros n Hn. rewrite Z.land_spec. auto.
Qed.

Ltac small_bit n :=
  destruct (Z.ltb_spec n 9) as [?|?];
  [assert (n = 0 \/ n = 1 \/ n = 2 \/ n = 3 \/ n = 4 \/ n = 5 \/ n = 6 \/ n = 7 \/ n = 8) as Hsmall by lia;
   repeat (destruct Hsmall as [-> | Hsmall]); try subst n|].

Lemma high_bit c n : 0 <= c < 512 -> 9 <= n -> Z.testbit c n = false.
Proof.
  intros Hc Hn. destruct (Z.eq_dec c 0) as [->|]; [apply Z.bits_0|].
  apply Z.bits_above_log2; [lia|]. apply Z.log2_lt_pow2; [lia|].
  assert (2 ^ 9 <= 2 ^ n) by (apply Z.pow_le_mono_r; lia). lia.
Qed.

Ltac bit_pattern :=
  apply eq_true_iff_eq; rewrite land_eq_bits, ?andb_true_iff, ?negb_true_iff;
  split;
  [ let H := fresh in intros H; repeat split;
    match goal with |- Z.testbit _ ?k = _ => specialize (H k ltac:(lia)); revert H end;
    cbn; rewrite ?andb_true_r; done
  | let n := fresh "n" in let H := fresh in intros H n ?; destruct_and?; small_bit n;
    [..|match goal with |- Z.testbit _ _ && Z.testbit ?m _ = Z.testbit ?c _ =>
          rewrite (high_bit m n), ?(high_bit c n) by first [lia|by vm_compute] end; by rewrite andb_false_r];
    cbn; rewrite ?andb_true_r, ?andb_false_r; done ].

Lemma keep_unset f :
  (Z.land f KEEP =? VUNSET) = negb (Z.testbit f 0) && negb (Z.testbit f 1) && negb (Z.testbit f 2) && Z.testbit f 5.
Proof. bit_pattern. Qed.

Lemma land_fixed f : Z.land f VSTRFIXED = if Z.testbit f 2 then VSTRFIXED else 0.
Proof.
  pose proof (land_pow2 f 2 ltac:(lia)) as H. destruct (Z.testbit f 2) eqn:E; cbn [negb] in H; [|by apply Z.eqb_eq].
  apply Z.bits_inj'. intros k Hk. rewrite Z.land_spec. change VSTRFIXED with (2 ^ 2).
  rewrite Z.pow2_bits_eqb by lia. destruct (Z.eqb_spec 2 k) as [<-|]; [by rewrite E|apply andb_false_r].
Qed.

Lemma keep_fixed f g : (Z.lor (Z.land f KEEP) (Z.land g VSTRFIXED) =? VUNSET) =
  (Z.land f KEEP =? VUNSET) && negb (Z.testbit g 2).
Proof.
  rewrite land_fixed. destruct (Z.testbit g 2); cbn [negb]; [|by rewrite Z.lor_0_r, andb_true_r].
  rewrite andb_false_r. apply Z.eqb_neq. intros E.
  assert (Z.testbit VUNSET 2 = true) as Hx; [|done]. rewrite <- E, Z.lor_spec. apply orb_true_r.
Qed.

Lemma own_nosave f :
  (Z.land f OWNBITS =? VNOSAVE) = negb (Z.testbit f 3) && negb (Z.testbit f 4) && Z.testbit f 8.
Proof. bit_pattern. Qed.

Lemma readonly_bit f : (Z.land f VREADONLY =? VREADONLY) = Z.testbit f 1.
Proof. bit_pattern. Qed.

Lemma allexport_bit a n : 0 <= n -> Z.testbit (allexport a) n = (n =? 0) && Z.odd a.
Proof.
  intros Hn. unfold allexport. rewrite Z.land_spec. change VEXPORT with (2 ^ 0).
  rewrite (Z.pow2_bits_eqb 0) by lia. rewrite Z.eqb_sym.
  destruct (Z.eqb_spec n 0) as [->|]; [|done]. cbn [andb].
  rewrite Z.bit0_odd. unfold wrapU. rewrite (Zminus_mod_idemp_l _ 1 (2 ^ 32)).
  rewrite Zodd_mod. rewrite Z.mod_mod_divide by (by exists (2 ^ 31)).
  rewrite (Zodd_mod a). replace (1 - a - 1) with (- a) by lia.
  pose proof (Z.mod_pos_bound a 2). pose proof (Z.div_mod a 2 ltac:(lia)) as Hd.
  rewrite <- (Z_mod_plus_full (- a) (2 * (a / 2) + a mod 2) 2).
  replace (- a + (2 * (a / 2) + a mod 2) * 2) with (a) by lia. done.
Qed.

(** ** The abstract machine *)

Inductive aval := AUnset | AVal (v : cstr) | ALineno | AFuncname.

Record aentry := mk_entry {
  a_exp : bool; a_ro : bool; a_fixed : bool;
  a_val : aval;
  a_func : bool;
}.

Inductive asaved :=
  | ASOpts (saved : list Z)
  | ASVar (k : cstr) (old : option aentry).   (* [None]: the variable did not exist *)

Record astate := mk_astate {
  a_env : gmap cstr aentry;
  a_frames : list (list asaved);
  a_optlist : list Z;
  a_exitstatus : Z;
  a_lineno : Z;
  a_funcname : option cstr;
  a_paths : list cstr;
}.

Abbreviation Ab := (M astate).

Definition aset_env f a := mk_astate (f (a_env a)) (a_frames a) (a_optlist a) (a_exitstatus a)
  (a_lineno a) (a_funcname a) (a_paths a).
Definition aset_frames l a := mk_astate (a_env a) l (a_optlist a) (a_exitstatus a)
  (a_lineno a) (a_funcname a) (a_paths a).
Definition aset_optlist o a := mk_astate (a_env a) (a_frames a) o (a_exitstatus a)
  (a_lineno a) (a_funcname a) (a_paths a).
Definition aset_exitstatus e a := mk_astate (a_env a) (a_frames a) (a_optlist a) e
  (a_lineno a) (a_funcname a) (a_paths a).
Definition aadd_path p a := mk_astate (a_env a) (a_frames a) (a_optlist a) (a_exitstatus a)
  (a_lineno a) (a_funcname a) (p :: a_paths a).

Definition a_error {A} (msg : cstr) : Ab A := modify (aset_exitstatus 2) ;; raise (EXERROR msg).

Definition is_unset (v : aval) : bool := match v with AUnset => true | _ => false end.
Definition val_text (v : aval) : cstr := match v with AVal x => x | _ => [] end.
Definition a_aflag (a : astate) : bool := Z.odd (nth 11 (a_optlist a) 0).

(** Give [k] a value (or unset it) and attributes. *)
Definition a_set (k : cstr) (val : aval) (exp ro fixed : bool) : Ab unit :=
  let! all := get a_aflag in
  let! env := get a_env in
  let exp := exp || all in
  match env !! k with
  | Some e =>
      if a_ro e then a_error (nm k ++ lit ": is read only")
      else
        (if a_func e then modify (aadd_path (val_text val)) else ret tt) ;;
        if is_unset val && negb exp && negb ro && negb fixed && negb (a_fixed e)
        then modify (aset_env (delete k))
        else modify (aset_env <[k := mk_entry (exp || a_exp e) ro (fixed || a_fixed e) val (a_func e)]>)
  | None =>
      if is_unset val && negb exp && negb ro && negb fixed then ret tt
      else modify (aset_env <[k := mk_entry exp ro fixed val false]>)
  end.

Definition valid_name (n : cstr) : bool := negb (bool_decide (n = [])) && bool_decide (endofname n = []).

Definition a_setvar (name : cstr) (val : option cstr) (exp ro fixed : bool) : Ab unit :=
  if valid_name (nm name)
  then a_set (nm name) (match val with Some v => AVal v | None => AUnset end) exp ro fixed
  else a_error (nm name ++ lit ": bad variable name").

Definition a_lookup (a : astate) (k : cstr) : option cstr :=
  match a_val <$> a_env a !! k with
  | None | Some AUnset => None
  | Some (AVal v) => Some v
  | Some ALineno => Some (fmt_d (a_lineno a))
  | Some AFuncname => Some (take 64 (default [] (a_funcname a)))
  end.

Definition set_fixed (b : bool) (e : aentry) : aentry := mk_entry (a_exp e) (a_ro e) b (a_val e) (a_func e).
Definition set_ro (b : bool) (e : aentry) : aentry := mk_entry (a_exp e) b (a_fixed e) (a_val e) (a_func e).
Definition set_exp (b : bool) (e : aentry) : aentry := mk_entry b (a_ro e) (a_fixed e) (a_val e) (a_func e).

Definition saves (x : cstr) (sv : asaved) : bool :=
  match sv with ASVar k _ => bool_decide (nm k = nm x) | ASOpts _ => false end.

Definition a_push (sv : asaved) : Ab unit :=
  let! fs := get a_frames in
  match fs with
  | f :: fs => modify (aset_frames ((sv :: f) :: fs))
  | [] => wild
  end.

(** Declare the word [x] ("name" or "name=value") local to the youngest scope. *)
Definition a_mklocal (x : cstr) (exp ro : bool) : Ab unit :=
  let eq := bool_decide ("="%char ∈ x) in
  let k := key x in
  let! fs := get a_frames in
  let! f := deref (head fs) in
  if existsb (saves x) f then if eq then a_set k (AVal (var_end x)) false false false else ret tt
  else if bool_decide (x = lit "-") then let! o := get a_optlist in a_push (ASOpts o)
  else
    let! env := get a_env in
    match env !! k with
    | None =>
        (if eq then a_set k (AVal (var_end x)) exp ro true else a_setvar x None exp ro true) ;;
        a_push (ASVar k None)
    | Some e =>
        modify (aset_env <[k := set_fixed true e]>) ;;
        (if eq then a_set k (AVal (var_end x)) exp ro false else a_setvar x None false false false) ;;
        a_push (ASVar k (Some e))
    end.

Definition a_localcmd (args : list cstr) : Ab unit :=
  let! fs := get a_frames in
  match fs with
  | [] => a_error (lit "not in a function")
  | _ => for_each (fun x => a_mklocal x false false) args
  end.

Definition a_pushlocalvars : Ab unit := let! fs := get a_frames in modify (aset_frames ([] :: fs)).

Definition a_restore (sv : asaved) : Ab unit :=
  match sv with
  | ASOpts o => modify (aset_optlist o)
  | ASVar k None =>
      modify (aset_env (alter (fun e => set_fixed false (set_ro false e)) k)) ;;
      a_setvar k None false false false
  | ASVar k (Some e) =>
      (if a_func e then modify (aadd_path (val_text (a_val e))) else ret tt) ;;
      modify (aset_env <[k := e]>)
  end.

Definition a_poplocalvars : Ab unit :=
  let! fs := get a_frames in
  match fs with
  | [] => wild
  | f :: fs => modify (aset_frames fs) ;; for_each a_restore f
  end.

Definition a_export_one (readonly n : bool) (name : cstr) : Ab unit :=
  let exp := negb readonly && negb n in
  match strchr name "=" with
  | Some p => a_setvar name (Some (tail p)) exp readonly false
  | None =>
      let! env := get a_env in
      match env !! key name with
      | Some e => modify (aset_env <[key name := if readonly then set_ro true e else set_exp (negb n) e]>)
      | None => a_setvar name None exp readonly false
      end
  end.

Definition a_exportcmd (readonly n : bool) (names : list cstr) : Ab unit :=
  for_each (a_export_one readonly n) names.

(** ** Well-formed states

    [pend] are saved variables taken off the stack but not yet restored. *)

Inductive rf := RVar (i : nat) | RLv (k : nat).

#[export] Instance rf_eq_dec : EqDecision rf.
Proof. solve_decision. Defined.

Definition lvs (pend : list localvar) (s : shvars) : list localvar := reverse (pend ++ concat (s_frames s)).

(** The text a saved variable holds ("did not exist before" holds none). *)
Definition lv_text (lv : localvar) : option nat :=
  match lv with LvVar _ fl n => if fl =? VUNSET then None else Some n | LvOpts _ => None end.

Definition ref_text (pend : list localvar) (s : shvars) (r : rf) : option nat :=
  match r with
  | RVar i => v_text <$> s_vars s !! i
  | RLv k => lvs pend s !! k ≫= lv_text
  end.

(** What holds of a variable's flags and its text. *)
Record var_ok (fl : Z) (t : text) : Prop := mk_var_ok {
  ok_nul : NUL ∉ t_chars t;
  ok_own : has fl TEXTBITS = false -> t_heap t = true;
  ok_set : Z.testbit fl 5 = false -> "="%char ∈ t_chars t;
  ok_unset : Z.testbit fl 5 = true -> "="%char ∉ t_chars t /\ Z.testbit fl 8 || Z.testbit fl 3 = true;
}.

Record inv (pend : list localvar) (s : shvars) : Prop := mk_inv {
  i_tab : length (s_tab s) = 39%nat;
  i_live b i : i ∈ bucket b s -> is_Some (s_vars s !! i);
  i_var i v : s_vars s !! i = Some v -> exists t, s_texts s !! v_text v = Some t /\ var_ok (v_flags v) t;
  i_bucket i v t b : s_vars s !! i = Some v -> s_texts s !! v_text v = Some t ->
    i ∈ bucket b s <-> b = hashvar (t_chars t);
  i_nodup b : NoDup (bucket b s);
  i_uniq i j v w t u :
    s_vars s !! i = Some v -> s_texts s !! v_text v = Some t ->
    s_vars s !! j = Some w -> s_texts s !! v_text w = Some u ->
    key (t_chars t) = key (t_chars u) -> i = j;
  i_refs r1 r2 n t : ref_text pend s r1 = Some n -> ref_text pend s r2 = Some n ->
    s_texts s !! n = Some t -> t_heap t = true -> r1 = r2;
  i_lv i fl n : LvVar i fl n ∈ lvs pend s -> exists v t,
    s_vars s !! i = Some v /\ Z.testbit (v_flags v) 2 = true /\ s_texts s !! v_text v = Some t /\
    (fl <> VUNSET -> exists u, s_texts s !! n = Some u /\ var_ok fl u /\ key (t_chars u) = key (t_chars t));
  i_chain k k' i fl n fl' n' : (k < k')%nat -> lvs pend s !! k = Some (LvVar i fl n) ->
    lvs pend s !! k' = Some (LvVar i fl' n') -> Z.testbit fl' 2 = true;
  i_next i : is_Some (s_vars s !! i) \/ is_Some (s_texts s !! i) -> (i < s_next s)%nat;
  i_path i v t : s_vars s !! i = Some v -> s_texts s !! v_text v = Some t -> v_func v = true ->
    key (t_chars t) = lit "PATH";
  i_funcname : NUL ∉ default [] (s_funcname s);
  i_static : (8 <= s_next s)%nat /\
    (exists x, s_texts s !! LINENO_TEXT = Some (mk_text false (lit "LINENO=" ++ x)) /\ NUL ∉ x) /\
    (exists x, s_texts s !! FUNCNAME_TEXT = Some (mk_text false (lit "FUNCNAME=" ++ x)) /\ NUL ∉ x);
}.

Lemma ref_live pend s r m : inv pend s -> ref_text pend s r = Some m -> is_Some (s_texts s !! m).
Proof.
  intros Hinv Hm. destruct r as [j|k]; cbn in Hm.
  - destruct (s_vars s !! j) as [w|] eqn:Ew; [|done]. injection Hm as <-.
    destruct (i_var _ _ Hinv j w Ew) as (u & -> & _). done.
  - destruct (lvs pend s !! k) as [[|j f m']|] eqn:El; [done| |done]. cbn in Hm.
    destruct (Z.eqb_spec f VUNSET); [done|]. injection Hm as <-.
    destruct (i_lv _ _ Hinv j f m') as (? & ? & _ & _ & _ & Hx); [by eapply list_elem_of_lookup_2|].
    destruct Hx as (u & -> & _); done.
Qed.

(** ** The abstraction *)

Definition aval_of (fl : Z) (n : nat) (t : text) : aval :=
  if Z.testbit fl 5 then AUnset
  else if (n =? LINENO_TEXT)%nat then ALineno
  else if (n =? FUNCNAME_TEXT)%nat then AFuncname
  else AVal (var_end (t_chars t)).

Definition entry_of (fl : Z) (n : nat) (t : text) (func : bool) : aentry :=
  mk_entry (Z.testbit fl 0) (Z.testbit fl 1) (Z.testbit fl 2) (aval_of fl n t) func.

Definition env_rel (s : shvars) (env : gmap cstr aentry) : Prop := forall k e,
  env !! k = Some e <-> exists i v t, s_vars s !! i = Some v /\ s_texts s !! v_text v = Some t /\
    key (t_chars t) = k /\ entry_of (v_flags v) (v_text v) t (v_func v) = e.

Definition lv_rel (s : shvars) (lv : localvar) (sv : asaved) : Prop :=
  match lv, sv with
  | LvOpts o, ASOpts o' => o = o'
  | LvVar i fl n, ASVar k old => exists v t, s_vars s !! i = Some v /\ s_texts s !! v_text v = Some t /\
      key (t_chars t) = k /\
      if fl =? VUNSET then old = None
      else exists u, s_texts s !! n = Some u /\ old = Some (entry_of fl n u (v_func v))
  | _, _ => False
  end.

Record rel (pend : list localvar) (apend : list asaved) (s : shvars) (a : astate) : Prop := mk_rel {
  r_inv : inv pend s;
  r_env : env_rel s (a_env a);
  r_pend : Forall2 (lv_rel s) pend apend;
  r_frames : Forall2 (Forall2 (lv_rel s)) (s_frames s) (a_frames a);
  r_opt : s_optlist s = a_optlist a;
  r_exit : s_exitstatus s = a_exitstatus a;
  r_lineno : s_lineno s = a_lineno a;
  r_func : s_funcname s = a_funcname a;
  r_paths : s_paths s = a_paths a;
}.

(** Two computations agree: both end normally in related states with related
    results, or raise the same exception. *)
Definition agree {A B} (pend : list localvar) (apend : list asaved) (RA : A -> B -> Prop)
    (x : res shvars A) (y : res astate B) : Prop :=
  match x, y with
  | Ok s r, Ok a r' => rel pend apend s a /\ RA r r'
  | Raise s e, Raise a e' => rel [] [] s a /\ e = e'
  | _, _ => False
  end.
Abbreviation agree0 pend apend := (agree pend apend (fun _ _ => True)).

(** ** Changing one variable *)

(** The state with another store of variables and texts. *)
Definition upd (s : shvars) (vars : gmap nat var) (texts : gmap nat text) (next : nat) : shvars :=
  mk_shvars (s_tab s) vars texts next (s_frames s) (s_optlist s) (s_exitstatus s) (s_lineno s)
    (s_funcname s) (s_paths s).

Section Put.
Variables (pend : list localvar) (s : shvars) (i : nat) (v : var) (t : text).
Variables (v' : var) (t' : text) (texts' : gmap nat text) (next' : nat).
Hypothesis Hinv : inv pend s.
Hypothesis Hv : s_vars s !! i = Some v.
Hypothesis Ht : s_texts s !! v_text v = Some t.
Hypothesis Ht' : texts' !! v_text v' = Some t'.
Hypothesis Hkey : key (t_chars t') = key (t_chars t).
Hypothesis Hfn : v_func v' = v_func v.
Hypothesis Hok : var_ok (v_flags v') t'.
(** The other references keep their texts, and a heap text is not shared. *)
Hypothesis Hothers : forall r n, r <> RVar i -> ref_text pend s r = Some n -> texts' !! n = s_texts s !! n.
Hypothesis Hfresh : t_heap t' = true -> forall r, r <> RVar i -> ref_text pend s r <> Some (v_text v').
Hypothesis Hfixed : Z.testbit (v_flags v) 2 = true ->
  Z.testbit (v_flags v') 2 = true \/ forall fl n, LvVar i fl n ∉ lvs pend s.
Hypothesis Hnext : forall n, is_Some (texts' !! n) -> (n < next')%nat.
Hypothesis Hnext' : (s_next s <= next')%nat.
Hypothesis Hline : texts' !! LINENO_TEXT = s_texts s !! LINENO_TEXT.
Hypothesis Hfunc : texts' !! FUNCNAME_TEXT = s_texts s !! FUNCNAME_TEXT.

Let s' := upd s (<[i := v']> (s_vars s)) texts' next'.

(** Variables other than [i], their texts. *)
Lemma put_other j w : j <> i -> s_vars s !! j = Some w -> texts' !! v_text w = s_texts s !! v_text w.
Proof. intros Hj Hw. apply (Hothers (RVar j)); [congruence|]. cbn. by rewrite Hw. Qed.

Lemma put_lv j fl n : LvVar j fl n ∈ lvs pend s -> fl <> VUNSET -> texts' !! n = s_texts s !! n.
Proof.
  intros Hl Hf. apply list_elem_of_lookup in Hl as [k Hk]. apply (Hothers (RLv k)); [done|].
  cbn. rewrite Hk. cbn. by rewrite (proj2 (Z.eqb_neq fl VUNSET)).
Qed.

(** Any variable afterwards has the key it had before. *)
Lemma put_key j w u : s_vars s' !! j = Some w -> texts' !! v_text w = Some u ->
  exists w0 u0, s_vars s !! j = Some w0 /\ s_texts s !! v_text w0 = Some u0 /\ key (t_chars u) = key (t_chars u0).
Proof.
  intros Hw Hu. cbn in Hw. destruct (decide (j = i)) as [->|Hj].
  - rewrite lookup_insert_eq in Hw. simplify_eq. eauto.
  - rewrite lookup_insert_ne in Hw by done. rewrite (put_other j) in Hu by done. eauto 6.
Qed.

Lemma put_inv : inv pend s'.
Proof.
  destruct Hinv. split; cbn [s' upd s_tab s_vars s_texts s_next s_frames bucket].
  - done.
  - intros b j Hj. apply lookup_insert_is_Some'. right. by eapply i_live0.
  - intros j w. destruct (decide (j = i)) as [->|Hj].
    + rewrite lookup_insert_eq. intros [= <-]. eauto.
    + rewrite lookup_insert_ne by done. intros Hw. rewrite (put_other j) by done. by eapply i_var0.
  - intros j w u b Hw Hu. destruct (put_key j w u) as (w0 & u0 & Hw0 & Hu0 & Hk); [done..|].
    rewrite hashvar_key, Hk, <- hashvar_key. by eapply i_bucket0.
  - done.
  - intros j1 j2 w1 w2 u1 u2 Hw1 Hu1 Hw2 Hu2 Hk.
    destruct (put_key j1 w1 u1) as (? & ? & ? & ? & E1); [done..|].
    destruct (put_key j2 w2 u2) as (? & ? & ? & ? & E2); [done..|].
    eapply i_uniq0; [done..|]. congruence.
  - assert (forall r n u, r <> RVar i -> ref_text pend s' r = Some n -> texts' !! n = Some u ->
      ref_text pend s r = Some n /\ s_texts s !! n = Some u) as Hback.
    { intros r n u Hr Hn Hu. assert (ref_text pend s r = Some n) as E.
      { destruct r as [j|k]; [|done]. cbn in Hn |- *. rewrite lookup_insert_ne in Hn by congruence. done. }
      split; [done|]. by rewrite <- (Hothers r). }
    assert (forall n, ref_text pend s' (RVar i) = Some n -> n = v_text v') as Hi.
    { intros n. cbn. rewrite lookup_insert_eq. cbn. congruence. }
    intros r1 r2 n u H1 H2 Hu Hh.
    destruct (decide (r1 = RVar i)) as [->|N1], (decide (r2 = RVar i)) as [->|N2]; [done|..].
    + apply Hi in H1 as ->. assert (u = t') as -> by congruence.
      destruct (Hback r2 (v_text v') t') as [E _]; [done..|]. by destruct (Hfresh Hh r2 N2).
    + apply Hi in H2 as ->. assert (u = t') as -> by congruence.
      destruct (Hback r1 (v_text v') t') as [E _]; [done..|]. by destruct (Hfresh Hh r1 N1).
    + destruct (Hback r1 n u) as [? ?]; [done..|]. destruct (Hback r2 n u) as [? ?]; [done..|]. eauto.
  - intros j fl n Hl. change (lvs pend s') with (lvs pend s) in Hl.
    destruct (i_lv0 j fl n Hl) as (w & u & Hw & Hb & Hu & Hrest).
    assert (fl <> VUNSET -> exists u0, texts' !! n = Some u0 /\ var_ok fl u0 /\ key (t_chars u0) = key (t_chars u)) as Hrest'.
    { intros Hf. rewrite (put_lv j fl n) by done. auto. }
    destruct (decide (j = i)) as [->|Hj].
    + exists v', t'. rewrite lookup_insert_eq. simplify_eq. rewrite Hkey. repeat split; try done.
      destruct (Hfixed Hb) as [|Hno]; [done|]. by destruct (Hno fl n).
    + exists w, u. rewrite lookup_insert_ne, (put_other j) by done. done.
  - done.
  - intros j [Hj|Hj]; [|by apply Hnext].
    apply lookup_insert_is_Some' in Hj as [<-|Hj]; [|eapply Nat.lt_le_trans; [apply i_next0; by left|done]].
    eapply Nat.lt_le_trans; [|done]. apply i_next0. left. by rewrite Hv.
  - intros j w u Hw Hu Hf. destruct (decide (j = i)) as [->|Hj].
    + rewrite lookup_insert_eq in Hw. simplify_eq. rewrite Hkey. eapply i_path0; [done..|congruence].
    + rewrite lookup_insert_ne in Hw by done. rewrite (put_other j) in Hu by done. by eapply i_path0.
  - done.
  - rewrite Hline, Hfunc. destruct i_static0 as (? & ? & ?). split_and!; [lia|done..].
Qed.

Lemma put_env env : env_rel s env ->
  env_rel s' (<[key (t_chars t) := entry_of (v_flags v') (v_text v') t' (v_func v)]> env).
Proof.
  intros Henv k e. rewrite lookup_insert. cbn [s' upd s_vars s_texts].
  destruct (decide (key (t_chars t) = k)) as [<-|Hk]; cbn.
  - split.
    + intros [= <-]. exists i, v', t'. rewrite lookup_insert_eq, Hfn. done.
    + intros (j & w & u & Hw & Hu & Hku & <-). destruct (decide (j = i)) as [->|Hj].
      * rewrite lookup_insert_eq in Hw. simplify_eq. by rewrite Hfn.
      * rewrite lookup_insert_ne in Hw by done. rewrite (put_other j) in Hu by done.
        destruct Hj. by eapply (i_uniq _ _ Hinv).
  - rewrite (Henv k e). split; intros (j & w & u & Hw & Hu & Hku & He).
    + exists j, w, u. assert (j <> i) by congruence. rewrite lookup_insert_ne, (put_other j) by done. done.
    + destruct (decide (j = i)) as [->|Hj].
      * rewrite lookup_insert_eq in Hw. congruence.
      * rewrite lookup_insert_ne in Hw by done. rewrite (put_other j) in Hu by done. eauto 8.
Qed.

Lemma put_lv_rel lv sv : lv ∈ lvs pend s -> lv_rel s lv sv -> lv_rel s' lv sv.
Proof.
  intros Hin. destruct lv as [|j fl n], sv as [|k old]; cbn [lv_rel]; try done.
  intros (w & u & Hw & Hu & Hk & Hold). cbn [s' upd s_vars s_texts].
  assert (if fl =? VUNSET then old = None
      else exists u, texts' !! n = Some u /\ old = Some (entry_of fl n u (v_func w))) as Hold'.
  { destruct (Z.eqb_spec fl VUNSET); [done|]. by rewrite (put_lv j fl n). }
  destruct (decide (j = i)) as [->|Hj].
  - exists v', t'. rewrite lookup_insert_eq, Hfn. simplify_eq. rewrite Hkey. done.
  - exists w, u. rewrite lookup_insert_ne, (put_other j) by done. done.
Qed.

Lemma put_rel apend a : rel pend apend s a ->
  rel pend apend s' (aset_env <[key (t_chars t) := entry_of (v_flags v') (v_text v') t' (v_func v)]> a).
Proof.
  intros [? ? Hp Hf]. split; try done; [apply put_inv|by apply put_env|..]; cbn.
  - eapply Forall2_impl_in; [exact Hp|]. intros lv sv Hin _ Hr. apply put_lv_rel; [|done].
    apply elem_of_reverse, elem_of_app. by left.
  - eapply Forall2_impl_in; [exact Hf|]. intros f af Hin _ Hr.
    eapply Forall2_impl_in; [exact Hr|]. intros lv sv Hin' _ Hr'. apply put_lv_rel; [|done].
    apply elem_of_reverse, elem_of_app. right. apply list_elem_of_In, in_concat.
    exists f. by rewrite <- !list_elem_of_In.
Qed.

End Put.

(** ** Changing the texts only *)

(** A text that may stand for another: only the dynamic ones (LINENO, FUNCNAME)
    may differ, and then not in their names. *)
Record similar (n : nat) (u u' : text) : Prop := mk_similar {
  sim_heap : t_heap u' = t_heap u;
  sim_key : key (t_chars u') = key (t_chars u);
  sim_nul : NUL ∉ t_chars u -> NUL ∉ t_chars u';
  sim_eq : "="%char ∈ t_chars u' <-> "="%char ∈ t_chars u;
  sim_same : n = LINENO_TEXT \/ n = FUNCNAME_TEXT \/ u' = u;
}.

Lemma similar_refl n u : similar n u u.
Proof. split; auto. Qed.

Lemma similar_ok n u u' fl : similar n u u' -> var_ok fl u -> var_ok fl u'.
Proof. intros [] []. split; rewrite ?sim_heap0, ?sim_eq0; auto. Qed.

Lemma similar_entry n u u' fl f : similar n u u' -> entry_of fl n u' f = entry_of fl n u f.
Proof. intros []. unfold entry_of, aval_of. destruct sim_same0 as [->|[->| ->]]; done. Qed.

Section Texts.
Variables (pend : list localvar) (s : shvars) (texts' : gmap nat text) (next' : nat).
Hypothesis Hinv : inv pend s.
Hypothesis Hrefs : forall r n u, ref_text pend s r = Some n -> s_texts s !! n = Some u ->
  exists u', texts' !! n = Some u' /\ similar n u u'.
Hypothesis Hnext : forall n, is_Some (texts' !! n) -> (n < next')%nat.
Hypothesis Hnext' : (s_next s <= next')%nat.
Hypothesis Hline : exists x, texts' !! LINENO_TEXT = Some (mk_text false (lit "LINENO=" ++ x)) /\ NUL ∉ x.
Hypothesis Hfunc : exists x, texts' !! FUNCNAME_TEXT = Some (mk_text false (lit "FUNCNAME=" ++ x)) /\ NUL ∉ x.

Let s' := upd s (s_vars s) texts' next'.

Lemma texts_var i v u : s_vars s !! i = Some v -> s_texts s !! v_text v = Some u ->
  exists u', texts' !! v_text v = Some u' /\ similar (v_text v) u u'.
Proof. intros Hv. apply (Hrefs (RVar i)). cbn. by rewrite Hv. Qed.

Lemma texts_var_back i v u' : s_vars s !! i = Some v -> texts' !! v_text v = Some u' ->
  exists u, s_texts s !! v_text v = Some u /\ similar (v_text v) u u'.
Proof.
  intros Hv Hu'. destruct (i_var _ _ Hinv i v Hv) as (u & Hu & _).
  destruct (texts_var i v u Hv Hu) as (u1 & Hu1 & Hs). simplify_eq. eauto.
Qed.

Lemma texts_lv j fl n u : LvVar j fl n ∈ lvs pend s -> fl <> VUNSET -> s_texts s !! n = Some u ->
  exists u', texts' !! n = Some u' /\ similar n u u'.
Proof.
  intros Hl Hf. apply list_elem_of_lookup in Hl as [k Hk]. apply (Hrefs (RLv k)).
  cbn. rewrite Hk. cbn. by rewrite (proj2 (Z.eqb_neq fl VUNSET)).
Qed.

Lemma texts_inv : inv pend s'.
Proof.
  pose proof Hinv as []. split; cbn [s' upd s_tab s_vars s_texts s_next s_frames bucket]; try done.
  - intros i v Hv. destruct (i_var0 i v Hv) as (u & Hu & Hok). destruct (texts_var i v u Hv Hu) as (u' & Hu' & Hs).
    exists u'. split; [done|by eapply similar_ok].
  - intros i v u' b Hv Hu'. destruct (texts_var_back i v u' Hv Hu') as (u & Hu & Hs).
    rewrite hashvar_key, (sim_key _ _ _ Hs), <- hashvar_key. by apply (i_bucket0 i v u).
  - intros i j v w t u Hv Ht Hw Hu Hk. destruct (texts_var_back i v t Hv Ht) as (t0 & Ht0 & Hs1).
    destruct (texts_var_back j w u Hw Hu) as (u0 & Hu0 & Hs2). eapply i_uniq0; [done..|].
    rewrite <- (sim_key _ _ _ Hs1), <- (sim_key _ _ _ Hs2). done.
  - intros r1 r2 n t H1 H2 Ht Hh. change (ref_text pend s r1 = Some n) in H1. change (ref_text pend s r2 = Some n) in H2.
    destruct (ref_live _ _ _ _ Hinv H1) as [u Hu]. destruct (Hrefs r1 n u H1 Hu) as (u' & Hu' & Hs).
    eapply i_refs0; [done..|]. rewrite <- (sim_heap _ _ _ Hs). congruence.
  - intros i fl n Hl. change (lvs pend s') with (lvs pend s) in Hl.
    destruct (i_lv0 i fl n Hl) as (v & t & Hv & Hb & Ht & Hr). destruct (texts_var i v t Hv Ht) as (t' & Ht' & Hs).
    exists v, t'. split_and!; try done. intros Hf. destruct (Hr Hf) as (u & Hu & Hok & Hk).
    destruct (texts_lv i fl n u Hl Hf Hu) as (u' & Hu' & Hsu). exists u'. split_and!; [done|by eapply similar_ok|].
    by rewrite (sim_key _ _ _ Hs), (sim_key _ _ _ Hsu).
  - intros i [Hi|Hi]; [|by apply Hnext]. eapply Nat.lt_le_trans; [apply i_next0; by left|done].
  - intros i v u' Hv Hu' Hf. destruct (texts_var_back i v u' Hv Hu') as (u & Hu & Hs).
    rewrite (sim_key _ _ _ Hs). by eapply i_path0.
  - destruct i_static0 as (? & _ & _). split_and!; [lia|done..].
Qed.

Lemma texts_lv_rel lv sv : lv ∈ lvs pend s -> lv_rel s lv sv -> lv_rel s' lv sv.
Proof.
  intros Hin. destruct lv as [|j fl n], sv as [|k old]; cbn [lv_rel]; try done.
  intros (w & u & Hw & Hu & Hk & Hold). cbn [s' upd s_vars s_texts].
  destruct (texts_var j w u Hw Hu) as (u' & Hu' & Hs). exists w, u'.
  split_and!; try done; [by rewrite (sim_key _ _ _ Hs)|].
  destruct (Z.eqb_spec fl VUNSET); [done|]. destruct Hold as (u0 & Hu0 & ->).
  destruct (texts_lv j fl n u0) as (u0' & Hu0' & Hs0); [done..|]. exists u0'. split; [done|].
  by rewrite (similar_entry _ _ _ _ _ Hs0).
Qed.

End Texts.

(** Lifting a change to the saved variables. *)
Lemma lift_lv_rel pend apend s s' fs afs :
  (forall lv sv, lv ∈ lvs pend s -> lv_rel s lv sv -> lv_rel s' lv sv) -> s_frames s = fs ->
  Forall2 (lv_rel s) pend apend -> Forall2 (Forall2 (lv_rel s)) fs afs ->
  Forall2 (lv_rel s') pend apend /\ Forall2 (Forall2 (lv_rel s')) fs afs.
Proof.
  intros H Hfs Hp Hf. split.
  - eapply Forall2_impl_in; [exact Hp|]. intros lv sv Hin _ Hr. apply H; [|done].
    apply elem_of_reverse, elem_of_app. by left.
  - eapply Forall2_impl_in; [exact Hf|]. intros f af Hin _ Hr.
    eapply Forall2_impl_in; [exact Hr|]. intros lv sv Hin' _ Hr'. apply H; [|done].
    apply elem_of_reverse, elem_of_app. right. apply list_elem_of_In, in_concat.
    exists f. rewrite <- !list_elem_of_In. by subst.
Qed.

Lemma retext_rel pend apend s a texts' next' :
  rel pend apend s a ->
  (forall r n u, ref_text pend s r = Some n -> s_texts s !! n = Some u -> exists u', texts' !! n = Some u' /\ similar n u u') ->
  (forall n, is_Some (texts' !! n) -> (n < next')%nat) -> (s_next s <= next')%nat ->
  (exists x, texts' !! LINENO_TEXT = Some (mk_text false (lit "LINENO=" ++ x)) /\ NUL ∉ x) ->
  (exists x, texts' !! FUNCNAME_TEXT = Some (mk_text false (lit "FUNCNAME=" ++ x)) /\ NUL ∉ x) ->
  rel pend apend (upd s (s_vars s) texts' next') a.
Proof.
  intros [Hi He Hp Hf] Hr Hn Hn' Hl Hfn.
  destruct (lift_lv_rel pend apend s (upd s (s_vars s) texts' next') _ _
    ltac:(intros; by eapply texts_lv_rel) eq_refl Hp Hf) as [Hp' Hf'].
  split; try done; [by eapply texts_inv|].
  intros k e. cbn [upd s_vars s_texts]. rewrite (He k e).
  split; intros (i & v & t & Hv & Ht & Hk & Hent).
  - destruct (texts_var pend s texts' Hr i v t Hv Ht) as (t' & Ht' & Hs). exists i, v, t'.
    rewrite (similar_entry _ _ _ _ _ Hs), (sim_key _ _ _ Hs). done.
  - destruct (texts_var_back pend s texts' Hi Hr i v t Hv Ht) as (t' & Ht' & Hs). exists i, v, t'.
    rewrite <- (similar_entry _ _ _ _ _ Hs), <- (sim_key _ _ _ Hs). done.
Qed.

Lemma texts_rel pend apend s a texts' next' :
  rel pend apend s a ->
  (forall r n, ref_text pend s r = Some n -> texts' !! n = s_texts s !! n) ->
  (forall n, is_Some (texts' !! n) -> (n < next')%nat) -> (s_next s <= next')%nat ->
  (exists x, texts' !! LINENO_TEXT = Some (mk_text false (lit "LINENO=" ++ x)) /\ NUL ∉ x) ->
  (exists x, texts' !! FUNCNAME_TEXT = Some (mk_text false (lit "FUNCNAME=" ++ x)) /\ NUL ∉ x) ->
  rel pend apend (upd s (s_vars s) texts' next') a.
Proof.
  intros Hrel Hr. apply retext_rel; [done|]. intros r n u Hn Hu. exists u. rewrite (Hr r n) by done.
  split; [done|apply similar_refl].
Qed.

(** ** Removing a variable *)

Lemma unlink_elem i j l : NoDup l -> j ∈ unlink i l <-> j ∈ l /\ j <> i.
Proof.
  induction 1 as [|x l Hx Hl IH]; cbn [unlink]; [rewrite !elem_of_nil; tauto|].
  destruct (Nat.eqb_spec x i) as [->|Hn]; rewrite ?elem_of_cons, ?IH; intuition congruence.
Qed.

Lemma unlink_nodup i l : NoDup l -> NoDup (unlink i l).
Proof.
  induction 1 as [|x l Hx Hl IH]; cbn [unlink]; [constructor|].
  destruct (x =? i)%nat; [done|]. constructor; [|done]. rewrite unlink_elem by done. tauto.
Qed.

Lemma bucket_alter f b b' s : bucket b' (set_tab (alter f b) s) =
  if decide (b = b') then match s_tab s !! b with Some l => f l | None => [] end else bucket b' s.
Proof.
  unfold bucket. cbn. case_decide as Hb; [subst|by rewrite list_lookup_alter_ne].
  rewrite list_lookup_alter_eq. by destruct (s_tab s !! b').
Qed.

Lemma bucket_some s b : length (s_tab s) = 39%nat -> (b < 39)%nat -> s_tab s !! b = Some (bucket b s).
Proof.
  intros Hl Hb. unfold bucket. destruct (lookup_lt_is_Some_2 (s_tab s) b) as [l ->]; [lia|done].
Qed.

Definition upd_tab (s : shvars) f (b : nat) vars texts next : shvars := set_tab (alter f b) (upd s vars texts next).

Section Del.
Variables (pend : list localvar) (s : shvars) (i : nat) (v : var) (t : text).
Variables (texts' : gmap nat text).
Hypothesis Hinv : inv pend s.
Hypothesis Hv : s_vars s !! i = Some v.
Hypothesis Ht : s_texts s !! v_text v = Some t.
Hypothesis Hfree : Z.testbit (v_flags v) 2 = false.
Hypothesis Hothers : forall r n, r <> RVar i -> ref_text pend s r = Some n -> texts' !! n = s_texts s !! n.
Hypothesis Hnext : forall n, is_Some (texts' !! n) -> (n < s_next s)%nat.
Hypothesis Hline : texts' !! LINENO_TEXT = s_texts s !! LINENO_TEXT.
Hypothesis Hfunc : texts' !! FUNCNAME_TEXT = s_texts s !! FUNCNAME_TEXT.

Let s' := upd_tab s (unlink i) (hashvar (t_chars t)) (delete i (s_vars s)) texts' (s_next s).

Lemma del_not_saved fl n : LvVar i fl n ∉ lvs pend s.
Proof. intros Hl. destruct (i_lv _ _ Hinv _ _ _ Hl) as (w & u & Hw & Hb & _). congruence. Qed.

Lemma del_bucket b j : j ∈ bucket b s' <-> j ∈ bucket b s /\ j <> i.
Proof.
  unfold s', upd_tab. rewrite bucket_alter. cbn [upd s_tab].
  assert (forall b', bucket b' (upd s (delete i (s_vars s)) texts' (s_next s)) = bucket b' s) as E by done.
  rewrite E. case_decide as Hb.
  - subst. rewrite bucket_some by first [apply Hinv|apply hashvar_lt]. apply unlink_elem, Hinv.
  - split; [|tauto]. intros Hj. split; [done|]. intros ->.
    by apply (i_bucket _ _ Hinv i v t) in Hj.
Qed.

Lemma del_lookup j w : s_vars s' !! j = Some w -> j <> i /\ s_vars s !! j = Some w /\ texts' !! v_text w = s_texts s !! v_text w.
Proof.
  cbn. intros Hw. apply lookup_delete_Some in Hw as [Hj Hw]. split_and!; [done..|].
  apply (Hothers (RVar j)); [congruence|]. cbn. by rewrite Hw.
Qed.

Lemma del_lv j fl n : LvVar j fl n ∈ lvs pend s -> fl <> VUNSET -> texts' !! n = s_texts s !! n.
Proof.
  intros Hl Hf. apply list_elem_of_lookup in Hl as [k Hk]. apply (Hothers (RLv k)); [done|].
  cbn. rewrite Hk. cbn. by rewrite (proj2 (Z.eqb_neq fl VUNSET)).
Qed.

Lemma del_lv_rel lv sv : lv ∈ lvs pend s -> lv_rel s lv sv -> lv_rel s' lv sv.
Proof.
  intros Hin. destruct lv as [|j fl n], sv as [|k old]; cbn [lv_rel]; try done.
  intros (w & u & Hw & Hu & Hk & Hold). assert (j <> i) as Hj by (intros ->; by apply del_not_saved in Hin).
  exists w, u. cbn. rewrite lookup_delete_ne by done.
  rewrite (Hothers (RVar j)) by first [congruence|cbn; by rewrite Hw]. split_and!; try done.
  destruct (Z.eqb_spec fl VUNSET); [done|]. by rewrite (del_lv j fl n).
Qed.

Lemma del_inv : inv pend s'.
Proof.
  pose proof Hinv as H0. destruct Hinv. split.
  - cbn. by rewrite length_alter.
  - intros b j Hj. apply del_bucket in Hj as [Hj Hn]. cbn. rewrite lookup_delete_ne by done. by eapply i_live0.
  - intros j w Hw. apply del_lookup in Hw as (Hj & Hw & E). change (s_texts s') with texts'. rewrite E. by eapply i_var0.
  - intros j w u b Hw Hu. apply del_lookup in Hw as (Hj & Hw & E). change (s_texts s') with texts' in Hu. rewrite E in Hu.
    rewrite del_bucket, (i_bucket0 j w u) by done. tauto.
  - intros b. unfold s', upd_tab. rewrite bucket_alter. cbn [upd s_tab].
    case_decide; [|apply i_nodup0]. subst. rewrite bucket_some by first [done|apply hashvar_lt].
    by apply unlink_nodup.
  - intros j1 j2 w1 w2 u1 u2 Hw1 Hu1 Hw2 Hu2.
    apply del_lookup in Hw1 as (Hj1 & Hw1 & E1). apply del_lookup in Hw2 as (Hj2 & Hw2 & E2).
    change (s_texts s') with texts' in *. rewrite E1 in Hu1. rewrite E2 in Hu2. by eapply i_uniq0.
  - assert (forall r n, ref_text pend s' r = Some n -> ref_text pend s r = Some n /\ r <> RVar i) as Hback.
    { intros [j|k] n; [|done]. cbn. destruct (decide (j = i)) as [->|Hj]; [by rewrite lookup_delete_eq|].
      rewrite lookup_delete_ne by done. split; [done|congruence]. }
    intros r1 r2 n u H1 H2 Hu. apply Hback in H1 as [H1 N1]. apply Hback in H2 as [H2 N2].
    change (s_texts s') with texts' in Hu. rewrite (Hothers r1) in Hu by done. by eapply i_refs0.
  - intros j fl n Hl. change (lvs pend s') with (lvs pend s) in Hl.
    assert (j <> i) as Hj by (intros ->; by apply del_not_saved in Hl).
    destruct (i_lv0 j fl n Hl) as (w & u & Hw & Hb & Hu & Hr). exists w, u.
    cbn. rewrite lookup_delete_ne by done. rewrite (Hothers (RVar j)) by first [congruence|cbn; by rewrite Hw].
    split_and!; try done. intros Hf. rewrite (del_lv j fl) by done. auto.
  - done.
  - intros j [Hj|Hj]; [|by apply Hnext]. cbn in Hj. apply i_next0. left.
    destruct Hj as [w Hw]. apply lookup_delete_Some in Hw as [_ Hw]. by rewrite Hw.
  - intros j w u Hw Hu. apply del_lookup in Hw as (Hj & Hw & E). change (s_texts s') with texts' in Hu. rewrite E in Hu.
    by eapply i_path0.
  - done.
  - cbn. rewrite Hline, Hfunc. done.
Qed.

Lemma del_rel apend a : rel pend apend s a -> rel pend apend s' (aset_env (delete (key (t_chars t))) a).
Proof.
  intros [Hi He Hp Hf].
  destruct (lift_lv_rel pend apend s s' _ _ del_lv_rel eq_refl Hp Hf) as [Hp' Hf'].
  split; try done; [apply del_inv|]. intros k e. cbn. rewrite lookup_delete_Some, (He k e). split.
  - intros (Hk & j & w & u & Hw & Hu & Hku & Hent). exists j, w, u. assert (j <> i) by congruence.
    rewrite lookup_delete_ne by done. by rewrite (Hothers (RVar j)) by first [congruence|cbn; by rewrite Hw].
  - intros (j & w & u & Hw & Hu & Hku & Hent). apply del_lookup in Hw as (Hj & Hw & E). rewrite E in Hu.
    split; [|eauto 8]. intros <-. destruct Hj. by eapply (i_uniq _ _ Hinv).
Qed.

End Del.

(** ** Adding a variable *)

Section New.
Variables (pend : list localvar) (s : shvars) (i : nat) (v' : var) (t' : text).
Variables (texts' : gmap nat text) (next' : nat).
Hypothesis Hinv : inv pend s.
Hypothesis Hi : s_vars s !! i = None.
Hypothesis Hnf : v_func v' = false.
Hypothesis Hlt : (i < next')%nat.
Hypothesis Ht' : texts' !! v_text v' = Some t'.
Hypothesis Hok : var_ok (v_flags v') t'.
Hypothesis Hkey : forall j w u, s_vars s !! j = Some w -> s_texts s !! v_text w = Some u -> key (t_chars u) <> key (t_chars t').
Hypothesis Hothers : forall r n, ref_text pend s r = Some n -> texts' !! n = s_texts s !! n.
Hypothesis Hfresh : t_heap t' = true -> forall r, ref_text pend s r <> Some (v_text v').
Hypothesis Hnext : forall n, is_Some (texts' !! n) -> (n < next')%nat.
Hypothesis Hnext' : (s_next s <= next')%nat.
Hypothesis Hline : texts' !! LINENO_TEXT = s_texts s !! LINENO_TEXT.
Hypothesis Hfunc : texts' !! FUNCNAME_TEXT = s_texts s !! FUNCNAME_TEXT.

Let s' := upd_tab s (fun l => l ++ [i]) (hashvar (t_chars t')) (<[i := v']> (s_vars s)) texts' next'.

Lemma new_bucket b j : j ∈ bucket b s' <-> j ∈ bucket b s \/ (b = hashvar (t_chars t') /\ j = i).
Proof.
  unfold s', upd_tab. rewrite bucket_alter. cbn [upd s_tab].
  assert (forall b', bucket b' (upd s (<[i := v']> (s_vars s)) texts' next') = bucket b' s) as E by done.
  rewrite E. case_decide as Hb.
  - subst. rewrite bucket_some by first [apply Hinv|apply hashvar_lt]. rewrite elem_of_app, list_elem_of_singleton. tauto.
  - split; [tauto|]. intros [?|[? ?]]; [done|congruence].
Qed.

Lemma new_lookup j w : s_vars s' !! j = Some w ->
  (j = i /\ w = v') \/ (j <> i /\ s_vars s !! j = Some w /\ texts' !! v_text w = s_texts s !! v_text w).
Proof.
  cbn. intros Hw. apply lookup_insert_Some in Hw as [[<- <-]|[Hj Hw]]; [by left|right].
  split_and!; [done..|]. apply (Hothers (RVar j)). cbn. by rewrite Hw.
Qed.

Lemma new_old j w : s_vars s !! j = Some w -> j <> i /\ s_vars s' !! j = Some w /\ texts' !! v_text w = s_texts s !! v_text w.
Proof.
  intros Hw. assert (j <> i) by congruence. split; [done|]. cbn. rewrite lookup_insert_ne by done.
  split; [done|]. apply (Hothers (RVar j)). cbn. by rewrite Hw.
Qed.

Lemma new_lv j fl n : LvVar j fl n ∈ lvs pend s -> fl <> VUNSET -> texts' !! n = s_texts s !! n.
Proof.
  intros Hl Hf. apply list_elem_of_lookup in Hl as [k Hk]. apply (Hothers (RLv k)).
  cbn. rewrite Hk. cbn. by rewrite (proj2 (Z.eqb_neq fl VUNSET)).
Qed.

Lemma new_lv_rel lv sv : lv ∈ lvs pend s -> lv_rel s lv sv -> lv_rel s' lv sv.
Proof.
  intros Hin. destruct lv as [|j fl n], sv as [|k old]; cbn [lv_rel]; try done.
  intros (w & u & Hw & Hu & Hk & Hold). destruct (new_old j w Hw) as (Hj & Hw' & E).
  exists w, u. change (s_texts s') with texts'. rewrite E. split_and!; try done.
  destruct (Z.eqb_spec fl VUNSET); [done|]. by rewrite (new_lv j fl n).
Qed.

Lemma new_inv : inv pend s'.
Proof.
  pose proof Hinv as H0. destruct Hinv. split.
  - cbn. by rewrite length_alter.
  - intros b j Hj. apply new_bucket in Hj as [Hj|[_ ->]]; cbn.
    + apply lookup_insert_is_Some'. right. by eapply i_live0.
    + by rewrite lookup_insert_eq.
  - intros j w Hw. change (s_texts s') with texts'. apply new_lookup in Hw as [[-> ->]|(Hj & Hw & E)]; [eauto|].
    rewrite E. by eapply i_var0.
  - intros j w u b Hw Hu. change (s_texts s') with texts' in Hu. rewrite new_bucket.
    apply new_lookup in Hw as [[-> ->]|(Hj & Hw & E)].
    + simplify_eq. split; [intros [Hb|[-> _]]; [|done]|by right].
      apply i_live0 in Hb as [? ?]. congruence.
    + rewrite E in Hu. rewrite (i_bucket0 j w u) by done. tauto.
  - intros b. unfold s', upd_tab. rewrite bucket_alter. cbn [upd s_tab].
    case_decide; [|apply i_nodup0]. subst. rewrite bucket_some by first [done|apply hashvar_lt].
    apply NoDup_app. split_and!; [apply i_nodup0| |apply NoDup_singleton].
    intros j Hj Hj'. apply list_elem_of_singleton in Hj' as ->. apply i_live0 in Hj as [? ?]. congruence.
  - intros j1 j2 w1 w2 u1 u2 Hw1 Hu1 Hw2 Hu2 Hk. change (s_texts s') with texts' in *.
    apply new_lookup in Hw1 as [[-> ->]|(Hj1 & Hw1 & E1)], Hw2 as [[-> ->]|(Hj2 & Hw2 & E2)]; [done|..].
    + rewrite E2 in Hu2. simplify_eq. by destruct (Hkey j2 w2 u2).
    + rewrite E1 in Hu1. simplify_eq. by destruct (Hkey j1 w1 u1).
    + rewrite E1 in Hu1. rewrite E2 in Hu2. by eapply i_uniq0.
  - assert (forall r n, ref_text pend s' r = Some n -> (r = RVar i /\ n = v_text v') \/ ref_text pend s r = Some n) as Hback.
    { intros [j|k] n; [|by right]. cbn. destruct (decide (j = i)) as [->|Hj].
      - rewrite lookup_insert_eq. intros [= <-]. by left.
      - rewrite lookup_insert_ne by done. by right. }
    intros r1 r2 n u H1 H2 Hu Hh. change (s_texts s') with texts' in Hu.
    apply Hback in H1 as [[-> E1]|H1], H2 as [[-> E2]|H2]; [done|..]; subst.
    + simplify_eq. by destruct (Hfresh Hh r2).
    + simplify_eq. by destruct (Hfresh Hh r1).
    + rewrite (Hothers r1) in Hu by done. by eapply i_refs0.
  - intros j fl n Hl. change (lvs pend s') with (lvs pend s) in Hl.
    destruct (i_lv0 j fl n Hl) as (w & u & Hw & Hb & Hu & Hr). destruct (new_old j w Hw) as (Hj & Hw' & E).
    exists w, u. change (s_texts s') with texts'. rewrite E. split_and!; try done.
    intros Hf. rewrite (new_lv j fl) by done. auto.
  - done.
  - intros j [Hj|Hj]; [|by apply Hnext]. cbn in Hj. apply lookup_insert_is_Some' in Hj as [<-|Hj]; [done|].
    eapply Nat.lt_le_trans; [apply i_next0; by left|done].
  - intros j w u Hw Hu Hf. change (s_texts s') with texts' in Hu.
    apply new_lookup in Hw as [[-> ->]|(Hj & Hw & E)]; [congruence|]. rewrite E in Hu. by eapply i_path0.
  - done.
  - cbn. rewrite Hline, Hfunc. destruct i_static0 as (? & ? & ?). split_and!; [lia|done..].
Qed.

Lemma new_rel apend a : rel pend apend s a ->
  rel pend apend s' (aset_env <[key (t_chars t') := entry_of (v_flags v') (v_text v') t' false]> a).
Proof.
  intros [Hi' He Hp Hf].
  destruct (lift_lv_rel pend apend s s' _ _ new_lv_rel eq_refl Hp Hf) as [Hp' Hf'].
  split; try done; [apply new_inv|]. intros k e. cbn -[entry_of s']. rewrite lookup_insert_Some, (He k e). split.
  - intros [[<- <-]|[Hk (j & w & u & Hw & Hu & Hku & Hent)]].
    + exists i, v', t'. cbn. rewrite lookup_insert_eq, Hnf. done.
    + destruct (new_old j w Hw) as (Hj & Hw' & E). exists j, w, u. change (s_texts s') with texts'. by rewrite E.
  - intros (j & w & u & Hw & Hu & Hku & Hent). change (s_texts s') with texts' in Hu.
    apply new_lookup in Hw as [[-> ->]|(Hj & Hw & E)].
    + left. simplify_eq. by rewrite Hnf.
    + rewrite E in Hu. right. split; [|eauto 8]. intros <-. by eapply Hkey.
Qed.

End New.

(** ** Finding *)

Lemma get_var_ok s i v : s_vars s !! i = Some v -> get_var i s = Ok s v.
Proof. intros Hv. unfold get_var, bind, get. by rewrite Hv. Qed.

Lemma get_text_ok s n t : s_texts s !! n = Some t -> get_text n s = Ok s (t_chars t).
Proof. intros Ht. unfold get_text, bind, get. by rewrite Ht. Qed.

Lemma find_in_none l x pend s : inv pend s -> NUL ∉ x ->
  (forall i, i ∈ l -> i ∈ bucket (hashvar x) s) ->
  (forall i v t, s_vars s !! i = Some v -> s_texts s !! v_text v = Some t -> key (t_chars t) <> key x) ->
  find_in l x s = Ok s None.
Proof.
  intros Hi Hx. induction l as [|i l IH]; intros Hl Hk; [done|]. cbn [find_in].
  destruct (i_live _ _ Hi (hashvar x) i) as [v Hv]; [apply Hl; left|].
  destruct (i_var _ _ Hi i v Hv) as (t & Ht & Hok).
  rewrite (bind_run _ _ _ _ _ (get_var_ok _ _ _ Hv)), (bind_run _ _ _ _ _ (get_text_ok _ _ _ Ht)).
  rewrite varcmp_key; [|apply Hok|done|].
  - rewrite bool_decide_eq_false_2 by eauto. apply IH; [|done]. intros j Hj. apply Hl. by right.
  - symmetry. eapply (i_bucket _ _ Hi); [done..|]. apply Hl. left.
Qed.

Lemma find_in_some l x pend s i v t : inv pend s -> NUL ∉ x ->
  (forall j, j ∈ l -> j ∈ bucket (hashvar x) s) -> i ∈ l ->
  s_vars s !! i = Some v -> s_texts s !! v_text v = Some t -> key (t_chars t) = key x ->
  find_in l x s = Ok s (Some i).
Proof.
  intros Hi Hx. induction l as [|j l IH]; intros Hl Hin Hv Ht Hk; [by apply elem_of_nil in Hin|]. cbn [find_in].
  destruct (i_live _ _ Hi (hashvar x) j) as [w Hw]; [apply Hl; left|].
  destruct (i_var _ _ Hi j w Hw) as (u & Hu & Hok).
  rewrite (bind_run _ _ _ _ _ (get_var_ok _ _ _ Hw)), (bind_run _ _ _ _ _ (get_text_ok _ _ _ Hu)).
  rewrite varcmp_key; [|apply Hok|done|].
  - case_bool_decide as E.
    + unfold ret. do 2 f_equal. eapply (i_uniq _ _ Hi); [done..|]. congruence.
    + apply elem_of_cons in Hin as [->|Hin]; [congruence|]. apply IH; try done. intros m Hm. apply Hl. by right.
  - symmetry. eapply (i_bucket _ _ Hi); [done..|]. apply Hl. left.
Qed.

(** [findvar] finds the variable of a name exactly if the map has an entry. *)
Lemma findvar_spec pend apend s a x : rel pend apend s a -> NUL ∉ x ->
  match a_env a !! key x with
  | Some e => exists i v t, findvar x s = Ok s (Some i) /\ s_vars s !! i = Some v /\
      s_texts s !! v_text v = Some t /\ key (t_chars t) = key x /\ entry_of (v_flags v) (v_text v) t (v_func v) = e
  | None => findvar x s = Ok s None /\
      forall i v t, s_vars s !! i = Some v -> s_texts s !! v_text v = Some t -> key (t_chars t) <> key x
  end.
Proof.
  intros [Hi He _ _] Hx. destruct (a_env a !! key x) as [e|] eqn:E.
  - apply He in E as (i & v & t & Hv & Ht & Hk & Hent). exists i, v, t. split_and!; try done.
    unfold findvar, get, bind. eapply find_in_some; try done.
    apply (i_bucket _ _ Hi i v t); [done..|]. rewrite hashvar_key, <- Hk. symmetry. apply hashvar_key.
  - assert (forall i v t, s_vars s !! i = Some v -> s_texts s !! v_text v = Some t -> key (t_chars t) <> key x) as Hno.
    { intros i v t Hv Ht Hk. assert (a_env a !! key x = Some (entry_of (v_flags v) (v_text v) t (v_func v))); [|congruence].
      apply He. eauto 8. }
    split; [|done]. unfold findvar, get, bind. eapply find_in_none; done.
Qed.

(** ** Fields that only mirror each other *)

Lemma inv_same pend s s' : inv pend s -> s_tab s' = s_tab s -> s_vars s' = s_vars s -> s_texts s' = s_texts s ->
  s_next s' = s_next s -> s_frames s' = s_frames s -> s_funcname s' = s_funcname s -> inv pend s'.
Proof. destruct s, s'. cbn. intros Hi -> -> -> -> -> ->. destruct Hi. by split. Qed.

(** A state and its map may change the mirrored fields together. *)
Lemma rel_same pend apend s a s' a' : rel pend apend s a ->
  s_tab s' = s_tab s -> s_vars s' = s_vars s -> s_texts s' = s_texts s ->
  s_next s' = s_next s -> s_frames s' = s_frames s -> s_funcname s' = s_funcname s ->
  a_env a' = a_env a -> a_frames a' = a_frames a ->
  s_optlist s' = a_optlist a' -> s_exitstatus s' = a_exitstatus a' -> s_lineno s' = a_lineno a' ->
  a_funcname a' = a_funcname a -> s_paths s' = a_paths a' -> rel pend apend s' a'.
Proof.
  destruct s, s', a, a'; cbn. intros [Hi He Hp Hf] E1 E2 E3 E4 E5 E6 A1 A2 ? ? ? ? ?. cbn in *. subst.
  split; try done. by eapply inv_same.
Qed.

Ltac rel_same H := eapply (rel_same _ _ _ _ _ _ H); cbn; try reflexivity; try (by apply H); try (f_equal; by apply H).

Lemma rel_drop pend apend s a : rel pend apend s a -> rel [] [] s a.
Proof.
  intros [Hi He Hp Hf]. split; try done.
  assert (forall k lv, lvs [] s !! k = Some lv -> lvs pend s !! k = Some lv) as Hk.
  { intros k lv. unfold lvs. cbn. rewrite reverse_app. intros H. by apply lookup_app_l_Some. }
  assert (forall r n, ref_text [] s r = Some n -> ref_text pend s r = Some n) as Hr.
  { intros [i|k] n; [done|]. cbn [ref_text]. destruct (lvs [] s !! k) as [lv|] eqn:E; [|done]. by rewrite (Hk _ _ E). }
  destruct Hi. split; try done.
  - intros r1 r2 n t H1 H2. apply i_refs0; by apply Hr.
  - intros i fl n Hl. apply (i_lv0 i fl n). apply list_elem_of_lookup in Hl as [k Hl]. eapply list_elem_of_lookup_2. by apply Hk.
  - intros k k' i fl n fl' n' Hlt H1 H2. eapply i_chain0; [done|by apply Hk..].
Qed.

Lemma static_rel pend apend s a : rel pend apend s a ->
  s_texts s !! LINENO_TEXT <> None /\ s_texts s !! FUNCNAME_TEXT <> None /\
  forall n t, s_texts s !! n = Some t -> t_heap t = true -> n <> LINENO_TEXT /\ n <> FUNCNAME_TEXT.
Proof.
  intros Hr. destruct (i_static _ _ (r_inv _ _ _ _ Hr)) as (_ & (x & Ex & _) & (y & Ey & _)).
  rewrite Ex, Ey. split_and!; [done..|]. intros n t Ht Hh. split; intros ->; simplify_eq; done.
Qed.

(** ** Setting *)

(** The text a caller hands to [setvareq]: with VNOSAVE an allocated one that
    nothing else refers to, otherwise one outside the heap. *)
Record arg_ok (pend : list localvar) (s : shvars) (n : nat) (t : text) (fl : Z) : Prop := mk_arg_ok {
  arg_text : s_texts s !! n = Some t;
  arg_nul : NUL ∉ t_chars t;
  arg_static : n <> LINENO_TEXT /\ n <> FUNCNAME_TEXT;
  arg_mode : if Z.testbit fl 8
             then has fl TEXTBITS = false /\ t_heap t = true /\ forall r, ref_text pend s r <> Some n
             else t_heap t = false;
  arg_bits : Z.testbit fl 6 = false /\ Z.testbit fl 7 = false;
  arg_unset : if Z.testbit fl 5 then Z.testbit fl 8 = true /\ "="%char ∉ t_chars t else "="%char ∈ t_chars t;
}.

Definition arg_val (fl : Z) (x : cstr) : aval := if Z.testbit fl 5 then AUnset else AVal (var_end x).

(** The texts of [s] that are neither the argument [n] nor owned by variable
    [i] survive, and [i] does not refer to them afterwards. *)
Definition keeps (pend : list localvar) (i n : nat) (s s' : shvars) : Prop :=
  forall m v, s_vars s !! i = Some v -> m <> n -> is_Some (s_texts s !! m) ->
  (v_text v = m -> has (v_flags v) TEXTBITS = true) ->
  s_texts s' !! m = s_texts s !! m /\
  forall r, ref_text pend s' r = Some m -> ref_text pend s r = Some m /\ r <> RVar i.

Lemma has_TEXTBITS f : has f TEXTBITS = Z.testbit f 3 || Z.testbit f 4.
Proof.
  unfold has. assert ((Z.land f TEXTBITS =? 0) = negb (Z.testbit f 3) && negb (Z.testbit f 4)) as ->.
  { bit_pattern. }
  by rewrite negb_andb, !negb_involutive.
Qed.

Lemma has_OWNBITS f : has f OWNBITS = has f TEXTBITS || Z.testbit f 8.
Proof.
  unfold has at 1. assert ((Z.land f OWNBITS =? 0) = negb (Z.testbit f 3) && negb (Z.testbit f 4) && negb (Z.testbit f 8)) as ->.
  { bit_pattern. }
  rewrite has_TEXTBITS. by rewrite !negb_andb, !negb_involutive.
Qed.

Lemma has_flag f b : 0 <= b -> has f (2 ^ b) = Z.testbit f b.
Proof. apply has_bit. Qed.

(** [store_text]: the text is taken over or copied. *)
Lemma store_text_spec i n fl func s t : s_texts s !! n = Some t -> (forall m, is_Some (s_texts s !! m) -> (m < s_next s)%nat) ->
  (if Z.testbit fl 8 then t_heap t = true else t_heap t = false) ->
  exists n' t' texts' next',
    store_text i n fl func s = Ok (upd s (<[i := mk_var fl n' func]> (s_vars s)) texts' next') tt /\
    texts' !! n' = Some t' /\ t_chars t' = t_chars t /\ (has fl TEXTBITS = false -> t_heap t' = true) /\
    (forall m, m <> n' -> texts' !! m = s_texts s !! m) /\ (s_next s <= next')%nat /\
    (forall m, is_Some (texts' !! m) -> (m < next')%nat) /\
    (n' = n /\ t' = t \/ n' = s_next s).
Proof.
  intros Ht Hb Hm. unfold store_text. rewrite has_OWNBITS. destruct (has fl TEXTBITS) eqn:Eb; cbn [orb].
  - exists n, t, (s_texts s), (s_next s). split; [destruct s; reflexivity|]. by split_and!; auto.
  - destruct (Z.testbit fl 8) eqn:E8.
    + exists n, t, (s_texts s), (s_next s). split; [destruct s; reflexivity|]. by split_and!; auto.
    + exists (s_next s), (mk_text true (t_chars t)), (<[s_next s := mk_text true (t_chars t)]> (s_texts s)), (S (s_next s)).
      split.
      { unfold bind. rewrite (get_text_ok _ _ _ Ht). reflexivity. }
      rewrite lookup_insert_eq. split_and!; try done; [|lia| |by right].
      * intros m Hne. by apply lookup_insert_ne.
      * intros m Hs. apply lookup_insert_is_Some' in Hs as [<-|Hs]; [lia|]. specialize (Hb m Hs). lia.
Qed.

Lemma free_text_ok s n x : s_texts s !! n = Some (mk_text true x) ->
  free_text n s = Ok (set_texts (delete n) s) tt.
Proof. intros H. unfold free_text, bind, get. by rewrite H. Qed.

Lemma lor_allexport fl a n : 0 <= n ->
  Z.testbit (Z.lor fl (allexport a)) n = Z.testbit fl n || ((n =? 0) && Z.odd a).
Proof. intros Hn. by rewrite Z.lor_spec, allexport_bit. Qed.

(** The texts after the old text of variable [i] has been given back. *)
Definition texts_freed (v : var) (m : gmap nat text) : gmap nat text :=
  if has (v_flags v) TEXTBITS then m else delete (v_text v) m.

Section SetVarEq.
Variables (pend : list localvar) (apend : list asaved) (s : shvars) (a : astate).
Variables (n : nat) (t : text) (fl0 : Z).
Hypothesis Hrel : rel pend apend s a.
Hypothesis Harg : arg_ok pend s n t fl0.

Let x : cstr := t_chars t.
Let fl : Z := Z.lor fl0 (allexport (aflag s)).
Let all : bool := Z.odd (aflag s).

Lemma fl_bit k : 1 <= k -> Z.testbit fl k = Z.testbit fl0 k.
Proof.
  intros Hk. unfold fl. rewrite lor_allexport by lia. rewrite (proj2 (Z.eqb_neq k 0)) by lia. apply orb_false_r.
Qed.

Lemma fl_bit0 : Z.testbit fl 0 = Z.testbit fl0 0 || all.
Proof. unfold fl. by rewrite lor_allexport. Qed.

Lemma fl_text : has fl TEXTBITS = has fl0 TEXTBITS.
Proof. by rewrite !has_TEXTBITS, !fl_bit. Qed.

(** The stored flags. *)
Lemma new_flags vfl k : 0 <= k -> Z.testbit (Z.lor fl (Z.ldiff vfl DROPPED)) k =
  Z.testbit fl k || (Z.testbit vfl k && negb (Z.testbit DROPPED k)).
Proof. intros Hk. by rewrite Z.lor_spec, Z.ldiff_spec. Qed.

Lemma aflag_eq : all = a_aflag a.
Proof. unfold all, aflag, a_aflag. by rewrite (r_opt _ _ _ _ Hrel). Qed.

Section Found.
Variables (i : nat) (v : var) (t0 : text).
Hypothesis Hv : s_vars s !! i = Some v.
Hypothesis Ht0 : s_texts s !! v_text v = Some t0.
Hypothesis Hk : key (t_chars t0) = key x.

Lemma found_ok : var_ok (v_flags v) t0.
Proof. destruct (i_var _ _ (r_inv _ _ _ _ Hrel) i v Hv) as (u & Hu & Hok). congruence. Qed.

Lemma texts_freed_other m : (v_text v = m -> has (v_flags v) TEXTBITS = true) ->
  texts_freed v (s_texts s) !! m = s_texts s !! m.
Proof.
  intros H. unfold texts_freed. destruct (has (v_flags v) TEXTBITS); [done|].
  apply lookup_delete_ne. intros E. by specialize (H E).
Qed.

Lemma freed_ref r m : r <> RVar i -> ref_text pend s r = Some m ->
  texts_freed v (s_texts s) !! m = s_texts s !! m.
Proof.
  intros Hr Hm. apply texts_freed_other. intros <-. destruct (has (v_flags v) TEXTBITS) eqn:E; [done|].
  destruct Hr. eapply (i_refs _ _ (r_inv _ _ _ _ Hrel)); [exact Hm| |exact Ht0|by apply found_ok].
  cbn. by rewrite Hv.
Qed.

Lemma freed_static : texts_freed v (s_texts s) !! LINENO_TEXT = s_texts s !! LINENO_TEXT /\
  texts_freed v (s_texts s) !! FUNCNAME_TEXT = s_texts s !! FUNCNAME_TEXT.
Proof.
  destruct (static_rel _ _ _ _ Hrel) as (_ & _ & Hst).
  split; apply texts_freed_other; intros E; destruct (has (v_flags v) TEXTBITS) eqn:Eb; try done;
    by destruct (Hst _ _ Ht0 (ok_own _ _ found_ok Eb)).
Qed.

(** The argument outlives the old text. *)
Lemma freed_arg : texts_freed v (s_texts s) !! n = Some t.
Proof.
  rewrite texts_freed_other; [apply Harg|]. intros E. destruct (has (v_flags v) TEXTBITS) eqn:Eb; [done|].
  pose proof (ok_own _ _ found_ok Eb) as Hh. destruct Harg. subst n. assert (t = t0) as -> by congruence.
  destruct (Z.testbit fl0 8); [|congruence]. destruct arg_mode0 as (_ & _ & Hno).
  destruct (Hno (RVar i)). cbn. by rewrite Hv.
Qed.

Lemma freed_dom m : is_Some (texts_freed v (s_texts s) !! m) -> is_Some (s_texts s !! m).
Proof. unfold texts_freed. destruct (has _ _); [done|]. intros [u Hu]. apply lookup_delete_Some in Hu as [_ ->]. done. Qed.

Lemma free_old (s1 : shvars) : s_texts s1 = s_texts s ->
  (if has (v_flags v) TEXTBITS then ret tt else free_text (v_text v)) s1 =
  Ok (set_texts (fun _ => texts_freed v (s_texts s)) s1) tt.
Proof.
  intros E. unfold texts_freed. destruct (has (v_flags v) TEXTBITS) eqn:Eb; [rewrite <- E; by destruct s1|].
  pose proof (ok_own _ _ found_ok Eb) as Hh. rewrite (free_text_ok _ _ (t_chars t0)).
  - rewrite <- E. by destruct s1.
  - rewrite E, Ht0. destruct t0. cbn in *. by subst.
Qed.

(** The new text takes the place of the old one. *)
Lemma store_rel (s1 : shvars) (a1 : astate) : rel pend apend s1 a1 ->
  s_vars s1 = s_vars s -> s_texts s1 = s_texts s -> s_next s1 = s_next s -> s_frames s1 = s_frames s ->
  exists s' t',
    store_text i n (Z.lor fl (Z.ldiff (v_flags v) DROPPED)) (v_func v)
      (set_texts (fun _ => texts_freed v (s_texts s)) s1) = Ok s' tt /\
    rel pend apend s' (aset_env <[key x := mk_entry (Z.testbit fl0 0 || all || Z.testbit (v_flags v) 0)
      (Z.testbit fl0 1 || Z.testbit (v_flags v) 1) (Z.testbit fl0 2 || Z.testbit (v_flags v) 2)
      (arg_val fl0 x) (v_func v)]> a1) /\
    s_frames s' = s_frames s /\ keeps pend i n s s' /\
    exists v', s_vars s' !! i = Some v' /\ s_texts s' !! v_text v' = Some t' /\ key (t_chars t') = key x /\
      Z.testbit (v_flags v') 2 = Z.testbit fl0 2 || Z.testbit (v_flags v) 2 /\ v_func v' = v_func v.
Proof.
  intros Hrel1 Ev Et En Ef. set (fl' := Z.lor fl (Z.ldiff (v_flags v) DROPPED)).
  assert (Z.testbit fl' 8 = Z.testbit fl0 8) as E8 by (unfold fl'; rewrite new_flags, fl_bit by lia; by rewrite andb_false_r, orb_false_r).
  assert (has fl' TEXTBITS = has fl0 TEXTBITS) as Etx.
  { rewrite !has_TEXTBITS. unfold fl'. rewrite !new_flags, !fl_bit by lia. by rewrite !andb_false_r, !orb_false_r. }
  assert (Z.testbit fl' 5 = Z.testbit fl0 5) as E5 by (unfold fl'; rewrite new_flags, fl_bit by lia; by rewrite andb_false_r, orb_false_r).
  assert (Z.testbit fl' 2 = Z.testbit fl0 2 || Z.testbit (v_flags v) 2) as E2 by (unfold fl'; rewrite new_flags, fl_bit by lia; by rewrite andb_true_r).
  assert (Z.testbit fl' 1 = Z.testbit fl0 1 || Z.testbit (v_flags v) 1) as E1 by (unfold fl'; rewrite new_flags, fl_bit by lia; by rewrite andb_true_r).
  assert (Z.testbit fl' 0 = Z.testbit fl0 0 || all || Z.testbit (v_flags v) 0) as E0 by (unfold fl'; rewrite new_flags, fl_bit0 by lia; by rewrite andb_true_r).
  pose proof Harg as [Ha1 Ha2 [Ha3 Ha3'] Ha4 Ha5 Ha6].
  destruct (store_text_spec i n fl' (v_func v) (set_texts (fun _ => texts_freed v (s_texts s)) s1) t)
    as (n' & t' & texts' & next' & Hrun & Hn' & Hc & Hown & Hoth & Hnx & Hdom & Hwho);
    cbn [set_texts s_texts s_next] in *.
  { apply freed_arg. }
  { intros m Hm. rewrite En. eapply (i_next _ _ (r_inv _ _ _ _ Hrel)). right. by apply freed_dom. }
  { rewrite E8. destruct (Z.testbit fl0 8); [apply Ha4|done]. }
  cbn [set_texts s_vars] in Hrun. rewrite Hrun, Ev, En in *.
  assert (forall m, is_Some (s_texts s !! m) -> m <> n -> m <> n') as Hne.
  { intros m Hm Hmn. destruct Hwho as [[-> _]| ->]; [done|]. intros ->.
    pose proof (i_next _ _ (r_inv _ _ _ _ Hrel) (s_next s) (or_intror Hm)). lia. }
  assert (forall r m, ref_text pend s r = Some m -> is_Some (s_texts s !! m)) as Hreflive.
  { intros r m. by apply ref_live, Hrel. }
  assert (forall r m, r <> RVar i -> ref_text pend s r = Some m -> texts' !! m = s_texts s !! m) as Hothers.
  { intros r m Hr Hm. destruct (decide (m = n')) as [->|Hmn]; [|rewrite Hoth by done; by apply (freed_ref r)].
    destruct Hwho as [[-> ->]| ->].
    - by rewrite Hn', Ha1.
    - apply Hreflive in Hm. pose proof (i_next _ _ (r_inv _ _ _ _ Hrel) (s_next s) (or_intror Hm)). lia. }
  set (s' := upd _ _ _ _).
  assert (rel pend apend s' (aset_env <[key (t_chars t0) := entry_of fl' n' t' (v_func v)]> a1)) as Hfinal.
  { assert (s' = upd s1 (<[i := mk_var fl' n' (v_func v)]> (s_vars s1)) texts' next') as -> by (unfold s'; by rewrite Ev).
    apply (put_rel pend s1 i v t0 (mk_var fl' n' (v_func v)) t' texts' next'); cbn [v_flags v_text v_func].
    - apply Hrel1.
    - by rewrite Ev.
    - by rewrite Et.
    - done.
    - rewrite Hc. done.
    - done.
    - split; rewrite ?Hc, ?E5, ?E8, ?E2; [done|done| |].
      + intros Hu. by rewrite Hu in Ha6.
      + intros Hu. rewrite Hu in Ha6. destruct Ha6 as [-> ?]. done.
    - intros r m Hr Hm. rewrite Et. apply (Hothers r); [done|].
      destruct r as [j|k]; cbn in Hm |- *; [by rewrite <- Ev|]. unfold lvs in *. by rewrite <- Ef.
    - intros Hh r Hr Hm. assert (ref_text pend s r = Some n') as Hm'.
      { destruct r as [j|k]; cbn in Hm |- *; [by rewrite <- Ev|]. unfold lvs in *. by rewrite <- Ef. }
      destruct Hwho as [[-> ->]| ->].
      + destruct (Z.testbit fl0 8); [by destruct Ha4 as (_ & _ & Hno); apply (Hno r)|congruence].
      + apply Hreflive in Hm'. pose proof (i_next _ _ (r_inv _ _ _ _ Hrel) (s_next s) (or_intror Hm')). lia.
    - intros Hb. left. by rewrite E2, Hb, orb_true_r.
    - done.
    - by rewrite En.
    - rewrite Et, <- (proj1 freed_static). apply Hoth, Hne; [|congruence].
      destruct (s_texts s !! LINENO_TEXT) eqn:E; [done|]. by apply (static_rel _ _ _ _ Hrel) in E.
    - rewrite Et, <- (proj2 freed_static). apply Hoth, Hne; [|congruence].
      destruct (s_texts s !! FUNCNAME_TEXT) eqn:E; [done|]. by apply (static_rel _ _ _ _ Hrel) in E.
    - done. }
  exists s', t'. split; [done|]. split.
  { rewrite Hk in Hfinal. unfold entry_of, aval_of in Hfinal. rewrite E0, E1, E2, E5, Hc in Hfinal.
    unfold arg_val. destruct (Z.testbit fl0 5); [done|].
    assert (n' <> LINENO_TEXT /\ n' <> FUNCNAME_TEXT) as [N1 N2].
    { destruct Hwho as [[-> _]| ->]; [done|]. destruct (i_static _ _ (r_inv _ _ _ _ Hrel)) as [? _]. unfold LINENO_TEXT, FUNCNAME_TEXT. lia. }
    rewrite (proj2 (Nat.eqb_neq n' _)), (proj2 (Nat.eqb_neq n' _)) in Hfinal by done. done. }
  split; [done|]. split.
  { intros m w Hw Hmn Hlive Hfix. assert (w = v) as -> by congruence.
    pose proof (Hne m Hlive Hmn) as Hmn'. split.
    - change (s_texts s') with texts'. rewrite Hoth by done. by apply texts_freed_other.
    - intros r Hr. destruct (decide (r = RVar i)) as [->|Hri].
      + cbn in Hr. rewrite lookup_insert_eq in Hr. cbn in Hr. congruence.
      + split; [|done]. destruct r as [j|k]; cbn in Hr |- *.
        * rewrite lookup_insert_ne in Hr by congruence. done.
        * unfold lvs in *. cbn in Hr. by rewrite <- Ef. }
  exists (mk_var fl' n' (v_func v)). cbn. rewrite lookup_insert_eq, Hc. done.
Qed.
End Found.
End SetVarEq.

Lemma key_nm x y : key x = key y -> nm x = nm y.
Proof. apply key_eq_nm. Qed.

Lemma upto_nm x : upto x (strchrnul x "=") = nm x.
Proof.
  induction x as [|c x IH]; [done|]. cbn [strchrnul nm]. destruct (c ≟ "="%char) eqn:E.
  - unfold upto. by rewrite Nat.sub_diag.
  - pose proof (within_length _ _ (strchrnul_within x "=")). unfold upto in *. cbn [length].
    rewrite Nat.sub_succ_l by done. cbn [take]. by rewrite IH.
Qed.

Lemma nm_key x : nm (key x) = nm x.
Proof.
  unfold key. destruct x as [|c x]; [done|]. cbn [hd0 nm]. destruct (c ≟ "="%char) eqn:E; [done|].
  cbn [nm]. rewrite E. f_equal. induction x as [|d x IH]; [done|]. cbn [nm].
  destruct (d ≟ "="%char) eqn:Ed; [done|]. cbn [nm]. by rewrite Ed, IH.
Qed.

(** Variable [i] names [k] and is fixed. *)
Definition fixed_at (k : cstr) (i : nat) (s : shvars) : Prop := exists v t,
  s_vars s !! i = Some v /\ s_texts s !! v_text v = Some t /\ key (t_chars t) = k /\ Z.testbit (v_flags v) 2 = true.

(** Freeing an argument that nothing refers to. *)
Lemma free_arg pend apend s a n t fl s1 a1 : rel pend apend s a -> arg_ok pend s n t fl ->
  rel pend apend s1 a1 -> s_vars s1 = s_vars s -> s_frames s1 = s_frames s -> s_next s1 = s_next s ->
  s_texts s1 !! n = s_texts s !! n -> (forall m, is_Some (s_texts s1 !! m) -> is_Some (s_texts s !! m)) ->
  Z.testbit fl 8 = true ->
  free_text n s1 = Ok (upd s1 (s_vars s1) (delete n (s_texts s1)) (s_next s1)) tt /\
  rel pend apend (upd s1 (s_vars s1) (delete n (s_texts s1)) (s_next s1)) a1.
Proof.
  intros Hrel [Ht Hnul Hst Hmode _ _] Hrel1 Ev Ef En Et Hdom H8. rewrite H8 in Hmode. destruct Hmode as (_ & Hh & Hno).
  split.
  { rewrite (free_text_ok _ _ (t_chars t)); [by destruct s1|]. rewrite Et, Ht. destruct t. cbn in *. by subst. }
  assert (forall r, ref_text pend s1 r <> Some n) as Hno1.
  { intros r Hr. apply (Hno r). destruct r; cbn in Hr |- *; [by rewrite <- Ev|]. unfold lvs in *. by rewrite <- Ef. }
  destruct (i_static _ _ (r_inv _ _ _ _ Hrel1)) as (_ & Hl & Hf).
  apply texts_rel; rewrite ?lookup_delete_ne by tauto; try done.
  - intros r m Hm. apply lookup_delete_ne. intros ->. by apply (Hno1 r).
  - intros m [u Hu]. apply lookup_delete_Some in Hu as [_ Hu]. eapply (i_next _ _ (r_inv _ _ _ _ Hrel1)). right. by rewrite Hu.
Qed.

Section SetVarEq2.
Variables (pend : list localvar) (apend : list asaved) (s : shvars) (a : astate).
Variables (n : nat) (t : text) (fl0 : Z).
Hypothesis Hrel : rel pend apend s a.
Hypothesis Harg : arg_ok pend s n t fl0.

Let x : cstr := t_chars t.
Let fl : Z := Z.lor fl0 (allexport (aflag s)).

(** The outcome, with what the callers need of the variable set. *)
Definition set_spec (r1 : res shvars (option nat)) (r2 : res astate unit) : Prop :=
  match r1, r2 with
  | Ok s' r, Ok a' _ =>
      rel pend apend s' a' /\ s_frames s' = s_frames s /\
      (Z.testbit fl0 2 = true -> exists i, r = Some i /\ fixed_at (key x) i s') /\
      (forall i, fixed_at (key x) i s -> r = Some i /\ keeps pend i n s s' /\ fixed_at (key x) i s' /\
         v_func <$> s_vars s' !! i = v_func <$> s_vars s !! i)
  | Raise s' e, Raise a' e' => rel pend apend s' a' /\ e = e'
  | _, _ => False
  end.

Lemma keep_fl : (Z.land fl KEEP =? VUNSET) =
  is_unset (arg_val fl0 x) && negb (Z.testbit fl0 0 || a_aflag a) && negb (Z.testbit fl0 1) && negb (Z.testbit fl0 2).
Proof.
  rewrite keep_unset. unfold fl. rewrite fl_bit0, !fl_bit by lia. rewrite <- (aflag_eq _ _ _ _ Hrel).
  unfold arg_val. destruct (Z.testbit fl0 5); cbn; rewrite ?andb_true_r, ?andb_false_r; done.
Qed.

Lemma no_fixed_at i : Z.testbit fl0 2 = false ->
  (forall j v u, s_vars s !! j = Some v -> s_texts s !! v_text v = Some u -> key (t_chars u) <> key x) ->
  fixed_at (key x) i s -> False.
Proof. intros _ Hno (v & u & Hv & Hu & Hk & _). by apply (Hno i v u). Qed.

(** A variable of that name exists and is read-only. *)
Lemma set_readonly i v t0 : s_vars s !! i = Some v -> s_texts s !! v_text v = Some t0 -> key (t_chars t0) = key x ->
  Z.testbit (v_flags v) 1 = true ->
  set_spec (((if has fl VNOSAVE then free_text n else ret tt) ;;
        let! m := get_text (v_text v) in
        modify (set_exitstatus 1) ;;
        ash_msg_and_raise_error (upto m (strchrnul m "=") ++ lit ": is read only")) s)
    (a_error (nm (key x) ++ lit ": is read only") a).
Proof.
  intros Hv Ht0 Hk H1. rewrite has_VNOSAVE. unfold fl. rewrite fl_bit by lia.
  assert (exists s1, (if Z.testbit fl0 8 then free_text n else ret tt) s = Ok s1 tt /\ rel pend apend s1 a /\
    s_texts s1 !! v_text v = Some t0) as (s1 & Hrun & Hrel1 & E).
  { destruct (Z.testbit fl0 8) eqn:E8; [|by exists s].
    destruct (free_arg pend apend s a n t fl0 s a) as [Hrun Hr]; [done..|]. eexists. split; [exact Hrun|].
    split; [done|]. cbn. rewrite lookup_delete_ne; [done|]. intros E.
    destruct Harg as [_ _ _ Hm _ _]. rewrite E8 in Hm. destruct Hm as (_ & _ & Hno).
    apply (Hno (RVar i)). cbn. by rewrite Hv, E. }
  rewrite (bind_run _ _ _ _ _ Hrun), (bind_run _ _ _ _ _ (get_text_ok _ _ _ E)). cbn.
  rewrite upto_nm, nm_key, (key_nm _ _ Hk). split; [|done]. rel_same Hrel1.
Qed.

(** The callback of PATH. *)
Lemma call_path (v : var) : Z.testbit fl0 6 = false ->
  exists s1 a1,
    (if v_func v && negb (has fl VNOFUNC) then modify (add_path (var_end x)) else ret tt) s = Ok s1 tt /\
    (if v_func v then modify (aadd_path (val_text (arg_val fl0 x))) else ret tt) a = Ok a1 tt /\
    rel pend apend s1 a1 /\ s_vars s1 = s_vars s /\ s_texts s1 = s_texts s /\ s_next s1 = s_next s /\
    s_frames s1 = s_frames s /\ s_tab s1 = s_tab s.
Proof.
  intros H6. rewrite has_VNOFUNC. unfold fl. rewrite fl_bit, H6, andb_true_r by lia.
  destruct (v_func v); [|by exists s, a].
  exists (add_path (var_end x) s), (aadd_path (val_text (arg_val fl0 x)) a). split_and!; try done.
  rel_same Hrel. f_equal; [|apply Hrel]. unfold arg_val. destruct Harg as [_ _ _ _ _ Hu].
  destruct (Z.testbit fl0 5); [|done]. apply var_end_none, Hu.
Qed.


Lemma fixed_found i v t0 : s_vars s !! i = Some v -> s_texts s !! v_text v = Some t0 -> key (t_chars t0) = key x ->
  forall j, fixed_at (key x) j s -> j = i /\ Z.testbit (v_flags v) 2 = true.
Proof.
  intros Hv Ht0 Hk j (w & u & Hw & Hu & Hku & Hb).
  assert (j = i) as -> by (eapply (i_uniq _ _ (r_inv _ _ _ _ Hrel)); [done..|congruence]).
  split; [done|congruence].
Qed.

(** It loses its value, its export and its struct. *)
Lemma set_delete i v t0 s1 a1 : s_vars s !! i = Some v -> s_texts s !! v_text v = Some t0 -> key (t_chars t0) = key x ->
  Z.testbit (v_flags v) 2 = false -> Z.testbit fl0 5 = true -> Z.testbit fl0 2 = false ->
  rel pend apend s1 a1 -> s_vars s1 = s_vars s -> s_texts s1 = s_texts s -> s_next s1 = s_next s ->
  s_frames s1 = s_frames s -> s_tab s1 = s_tab s ->
  set_spec ((modify (set_tab (alter (unlink i) (hashvar x))) ;; free_var i ;;
      (if Z.land fl OWNBITS =? VNOSAVE then free_text n else ret tt) ;; ret (Some i))
      (set_texts (fun _ => texts_freed v (s_texts s)) s1))
    (modify (aset_env (delete (key x))) a1).
Proof.
  intros Hv Ht0 Hk Hb H5 H2 Hrel1 Ev Et En Ef Etb. pose proof Harg as [Ha1 Ha2 Ha3 Ha4 Ha5 Ha6]. rewrite H5 in Ha6.
  destruct Ha6 as [H8 _]. rewrite H8 in Ha4. destruct Ha4 as (Htx & Hh & Hno).
  assert (Z.land fl OWNBITS =? VNOSAVE = true) as ->.
  { rewrite own_nosave. unfold fl. rewrite !fl_bit by lia. rewrite has_TEXTBITS in Htx. apply orb_false_iff in Htx as [-> ->]. by rewrite H8. }
  set (texts' := delete n (texts_freed v (s_texts s))).
  pose proof (freed_arg pend apend s a n t fl0 Hrel Harg i v t0 Hv Ht0 Hk) as Hfa.
  rewrite hashvar_key, <- Hk, <- hashvar_key.
  assert (((modify (set_tab (alter (unlink i) (hashvar (t_chars t0)))) ;; free_var i ;; free_text n ;; ret (Some i))
      (set_texts (fun _ => texts_freed v (s_texts s)) s1)) =
    Ok (upd_tab s1 (unlink i) (hashvar (t_chars t0)) (delete i (s_vars s1)) texts' (s_next s1)) (Some i)) as ->.
  { unfold bind at 1. cbn [modify]. unfold free_var, get_var, bind, get, deref. cbn. rewrite Ev, Hv. cbn.
    unfold free_text, bind, get. cbn. rewrite Hfa. destruct t as [h y]. cbn in Hh. subst h.
    unfold modify, set_texts, ret, texts'. cbn. by rewrite Ev. }
  unfold set_spec, modify. split; [|split; [done|split; [congruence|]]].
  - apply (del_rel pend s1 i v t0 texts'); rewrite ?Ev, ?Et, ?En; try done; [apply Hrel1|..].
    + intros r m Hr Hm. unfold texts'. assert (ref_text pend s r = Some m) as Hm'.
      { destruct r; cbn in Hm |- *; [by rewrite <- Ev|]. unfold lvs in *. by rewrite <- Ef. }
      rewrite lookup_delete_ne by (intros ->; by apply (Hno r)). by eapply (freed_ref pend apend s a Hrel i v t0).
    + intros m [u Hu]. apply lookup_delete_Some in Hu as [_ Hu].
      eapply (i_next _ _ (r_inv _ _ _ _ Hrel)). right. apply (freed_dom s v). by rewrite Hu.
    + unfold texts'. rewrite lookup_delete_ne by tauto. by apply (freed_static pend apend s a Hrel i v t0).
    + unfold texts'. rewrite lookup_delete_ne by tauto. by apply (freed_static pend apend s a Hrel i v t0).
  - intros j Hj. apply (fixed_found i v t0) in Hj as [_ Hj]; [congruence|done..].
Qed.

(** It gets a new text. *)
Lemma set_store i v t0 s1 a1 : s_vars s !! i = Some v -> s_texts s !! v_text v = Some t0 -> key (t_chars t0) = key x ->
  Z.testbit (v_flags v) 1 = false ->
  rel pend apend s1 a1 -> s_vars s1 = s_vars s -> s_texts s1 = s_texts s -> s_next s1 = s_next s ->
  s_frames s1 = s_frames s ->
  set_spec ((store_text i n (Z.lor fl (Z.ldiff (v_flags v) DROPPED)) (v_func v) ;; ret (Some i))
      (set_texts (fun _ => texts_freed v (s_texts s)) s1))
    (modify (aset_env <[key x := mk_entry (Z.testbit fl0 0 || a_aflag a || Z.testbit (v_flags v) 0)
      (Z.testbit fl0 1) (Z.testbit fl0 2 || Z.testbit (v_flags v) 2) (arg_val fl0 x) (v_func v)]>) a1).
Proof.
  intros Hv Ht0 Hk Hro Hrel1 Ev Et En Ef.
  destruct (store_rel pend apend s a n t fl0 Hrel Harg i v t0 Hv Ht0 Hk s1 a1) as
    (s' & t' & Hrun & Hrel' & Hfr & Hkeep & v' & Hv' & Ht' & Hk' & Hb' & Hfn); [done..|].
  rewrite (bind_run _ _ _ _ _ Hrun). unfold set_spec, ret, modify.
  rewrite (aflag_eq _ _ _ _ Hrel), Hro, orb_false_r in Hrel'. split; [done|]. split; [done|].
  split.
  - intros H2. exists i. split; [done|]. exists v', t'. rewrite H2 in Hb'. done.
  - intros j Hj. apply (fixed_found i v t0) in Hj as [-> Hj]; [|done..]. split; [done|]. split; [done|].
    rewrite Hj, orb_true_r in Hb'. split; [by exists v', t'|]. rewrite Hv, Hv'. cbn. by rewrite Hfn.
Qed.

(** No variable of that name: nothing to unset. *)
Lemma set_none : (forall i v u, s_vars s !! i = Some v -> s_texts s !! v_text v = Some u -> key (t_chars u) <> key x) ->
  Z.testbit fl0 5 = true -> Z.testbit fl0 2 = false ->
  set_spec (((if Z.land fl OWNBITS =? VNOSAVE then free_text n else ret tt) ;; ret None) s) (ret tt a).
Proof.
  intros Hno H5 H2. pose proof Harg as [Ha1 Ha2 Ha3 Ha4 Ha5 Ha6]. rewrite H5 in Ha6. destruct Ha6 as [H8 _].
  rewrite H8 in Ha4. destruct Ha4 as (Htx & Hh & Hnr).
  assert (Z.land fl OWNBITS =? VNOSAVE = true) as ->.
  { rewrite own_nosave. unfold fl. rewrite !fl_bit by lia. rewrite has_TEXTBITS in Htx. apply orb_false_iff in Htx as [-> ->]. by rewrite H8. }
  destruct (free_arg pend apend s a n t fl0 s a) as [Hrun Hr]; [done..|]. rewrite (bind_run _ _ _ _ _ Hrun).
  split; [done|]. split; [done|]. split; [congruence|]. intros i (v & u & Hv & Hu & Hku & _). by destruct (Hno i v u).
Qed.

(** No variable of that name: a new struct at the end of its bucket. *)
Lemma set_new : (forall i v u, s_vars s !! i = Some v -> s_texts s !! v_text v = Some u -> key (t_chars u) <> key x) ->
  (Z.testbit fl0 5 = true -> Z.testbit fl0 2 = true \/ Z.testbit fl0 8 = true) ->
  set_spec ((let! i := malloc_var in
      modify (set_tab (alter (fun l => l ++ [i]) (hashvar x))) ;; store_text i n fl false ;; ret (Some i)) s)
    (modify (aset_env <[key x := mk_entry (Z.testbit fl0 0 || a_aflag a) (Z.testbit fl0 1) (Z.testbit fl0 2)
      (arg_val fl0 x) false]>) a).
Proof.
  intros Hno _. pose proof Harg as [Ha1 Ha2 [Ha3 Ha3'] Ha4 Ha5 Ha6]. pose proof (r_inv _ _ _ _ Hrel) as Hinv.
  set (i := s_next s). set (s1 := set_tab (alter (fun l => l ++ [i]) (hashvar x))
    (upd s (<[i := mk_var 0 0 false]> (s_vars s)) (s_texts s) (S i))).
  assert (malloc_var s = Ok (upd s (<[i := mk_var 0 0 false]> (s_vars s)) (s_texts s) (S i)) i) as Hm by done.
  rewrite (bind_run _ _ _ _ _ Hm). change ((store_text i n fl false ;; ret (Some i)) s1) with
    (bind (store_text i n fl false) (fun _ => ret (Some i)) s1).
  assert (s_vars s !! i = None) as Hi.
  { destruct (s_vars s !! i) eqn:E; [|done]. pose proof (i_next _ _ Hinv i ltac:(left; by rewrite E)). unfold i in *. lia. }
  assert (forall r, ref_text pend s r <> Some i) as Hri.
  { intros r Hr. assert (is_Some (s_texts s !! i)) as Hl by (by eapply ref_live).
    pose proof (i_next _ _ Hinv i (or_intror Hl)). unfold i in *. lia. }
  destruct (store_text_spec i n fl false s1 t) as (n' & t' & texts' & next' & Hrun & Hn' & Hc & Hown & Hoth & Hnx & Hdom & Hwho).
  { done. }
  { intros m Hmm. cbn. pose proof (i_next _ _ Hinv m (or_intror Hmm)). unfold i. lia. }
  { unfold fl. rewrite fl_bit by lia. destruct (Z.testbit fl0 8); [apply Ha4|done]. }
  change (s_texts s1) with (s_texts s) in *. change (s_next s1) with (S i) in *.
  change (bind (modify (set_tab (alter (fun l => l ++ [i]) (hashvar x)))) (fun _ => store_text i n fl false ;; ret (Some i))
    (upd s (<[i := mk_var 0 0 false]> (s_vars s)) (s_texts s) (S i))) with (bind (store_text i n fl false) (fun _ => ret (Some i)) s1).
  rewrite (bind_run _ _ _ _ _ Hrun). unfold set_spec, ret, modify.
  assert (forall r m, ref_text pend s r = Some m -> m <> n' \/ n' = n) as Hrn.
  { intros r m Hr. destruct Hwho as [[-> _]| ->]; [by right|left]. intros ->.
    pose proof (i_next _ _ Hinv (S i) ltac:(right; by eapply ref_live)). unfold i in *. lia. }
  assert (forall r m, ref_text pend s r = Some m -> texts' !! m = s_texts s !! m) as Hothers.
  { intros r m Hr. destruct (decide (m = n')) as [->|]; [|by apply Hoth].
    destruct (Hrn r n' Hr) as [|E]; [done|]. destruct Hwho as [[_ ->]| ->]; [by rewrite Hn', E|].
    rewrite <- E in Ha1. pose proof (i_next _ _ Hinv (S i) ltac:(right; by rewrite Ha1)). unfold i in *. lia. }
  assert (n' <> LINENO_TEXT /\ n' <> FUNCNAME_TEXT) as [N1 N2].
  { destruct Hwho as [[-> _]| ->]; [done|]. destruct (i_static _ _ Hinv) as [? _]. unfold LINENO_TEXT, FUNCNAME_TEXT, i. lia. }
  assert (key (t_chars t') = key x) as Hkx by (by rewrite Hc).
  assert (upd s1 (<[i := mk_var fl n' false]> (s_vars s1)) texts' next' =
    upd_tab s (fun l => l ++ [i]) (hashvar (t_chars t')) (<[i := mk_var fl n' false]> (s_vars s)) texts' next') as ->.
  { unfold upd_tab, upd, set_tab. cbn. rewrite insert_insert_eq, Hc. done. }
  split.
  - assert (mk_entry (Z.testbit fl0 0 || a_aflag a) (Z.testbit fl0 1) (Z.testbit fl0 2) (arg_val fl0 x) false =
      entry_of fl n' t' false) as ->.
    { unfold entry_of, aval_of, arg_val, fl. rewrite fl_bit0, !fl_bit, (aflag_eq _ _ _ _ Hrel), Hc by lia.
      rewrite (proj2 (Nat.eqb_neq n' LINENO_TEXT)), (proj2 (Nat.eqb_neq n' FUNCNAME_TEXT)) by done. done. }
    rewrite <- Hkx. apply (new_rel pend s i (mk_var fl n' false) t' texts' next'); try done.
    + cbn [v_flags]. assert (Z.testbit fl 5 = Z.testbit fl0 5 /\ Z.testbit fl 8 = Z.testbit fl0 8) as [E5 E8]
        by (split; unfold fl; by apply fl_bit).
      split; rewrite ?Hc, ?E5, ?E8; [done| | |].
      * intros Ht. apply Hown. done.
      * intros Hu. by rewrite Hu in Ha6.
      * intros Hu. rewrite Hu in Ha6. destruct Ha6 as [-> ?]. done.
    + intros j w u Hw Hu. rewrite Hkx. eauto.
    + intros Hh r Hr. cbn [v_text] in Hr. destruct Hwho as [[-> ->]| ->].
      * destruct (Z.testbit fl0 8); [by destruct Ha4 as (_ & _ & Hnr); apply (Hnr r)|congruence].
      * pose proof (i_next _ _ Hinv (S i) ltac:(right; by eapply ref_live)). unfold i in *. lia.
    + unfold i in *. lia.
    + by apply Hoth.
    + by apply Hoth.
  - split; [done|]. split.
    + intros H2. exists i. split; [done|]. exists (mk_var fl n' false), t'. cbn [upd_tab set_tab upd s_vars s_texts v_text v_flags].
      rewrite lookup_insert_eq. split_and!; try done. unfold fl. by rewrite fl_bit by lia.
    + intros j (w & u & Hw & Hu & Hku & _). by destruct (Hno j w u).
Qed.

Lemma setvareq_spec : set_spec (setvareq n fl0 s)
  (a_set (key x) (arg_val fl0 x) (Z.testbit fl0 0) (Z.testbit fl0 1) (Z.testbit fl0 2) a).
Proof.
  pose proof Harg as [Ha1 Ha2 _ Ha4 [H6 H7] Ha6].
  unfold setvareq. rewrite (bind_run _ _ _ _ _ (get_text_ok _ _ _ Ha1)).
  change (bind (get aflag) ?k s) with (k (aflag s) s). cbv beta zeta. fold x fl.
  unfold a_set. change (bind (get a_aflag) ?k a) with (k (a_aflag a) a). cbv beta zeta.
  change (bind (get a_env) ?k a) with (k (a_env a) a). cbv beta.
  pose proof (findvar_spec pend apend s a x Hrel Ha2) as Hf. destruct (a_env a !! key x) as [e|].
  - destruct Hf as (i & v & t0 & Hfind & Hv & Ht0 & Hk & He).
    rewrite (bind_run _ _ _ _ _ Hfind), (bind_run _ _ _ _ _ (get_var_ok _ _ _ Hv)), readonly_bit.
    subst e. cbn [entry_of a_ro a_func a_exp a_fixed].
    destruct (Z.testbit (v_flags v) 1) eqn:Hro; [by eapply set_readonly|].
    rewrite has_VNOSET. unfold fl at 1. rewrite fl_bit, H7 by lia.
    destruct (call_path v H6) as (s1 & a1 & Hrun & Harun & Hrel1 & Ev & Et & En & Ef & Etb).
    rewrite (bind_run _ _ _ _ _ Hrun), (bind_run _ _ _ _ _ Harun).
    rewrite (bind_run _ _ _ _ _ (free_old pend apend s a t Hrel i v t0 Hv Ht0 Hk s1 Et)).
    assert (Z.lor (Z.land fl KEEP) (Z.land (v_flags v) VSTRFIXED) =? VUNSET =
      (Z.land fl KEEP =? VUNSET) && negb (Z.testbit (v_flags v) 2)) as -> by apply keep_fixed.
    rewrite keep_fl. destruct (is_unset _ && _ && _ && _ && _) eqn:Ed.
    + bool_prop. eapply (set_delete i v t0); try done. unfold arg_val in *. by destruct (Z.testbit fl0 5).
    + eapply (set_store i v t0); done.
  - destruct Hf as [Hfind Hno]. rewrite (bind_run _ _ _ _ _ Hfind), has_VNOSET. unfold fl at 1.
    rewrite fl_bit, H7 by lia. rewrite keep_fl. destruct (is_unset _ && _ && _ && _) eqn:Ed.
    + bool_prop. apply set_none; try done. unfold arg_val in *. by destruct (Z.testbit fl0 5).
    + apply set_new; [done|]. intros H5. rewrite H5 in Ha6. right. apply Ha6.
Qed.
End SetVarEq2.

(** ** [setvar] and [unsetvar] *)

Lemma nm_split x : exists p, x = nm x ++ p /\ strchrnul x "=" = p /\ (p = [] \/ hd0 p = "="%char) /\ "="%char ∉ nm x.
Proof.
  induction x as [|c x (p & E & Es & Hp & Hn)]; [exists []; split_and!; try done; [by left|apply not_elem_of_nil]|].
  cbn [nm strchrnul]. destruct (Ascii.eqb_spec c "=") as [->|Hc].
  - exists ("="%char :: x). split_and!; try done; [by right|apply not_elem_of_nil].
  - exists p. split_and!; [cbn; by rewrite <- E|done|done|]. rewrite not_elem_of_cons. split; [congruence|done].
Qed.

Lemma skip_in_name_app m p : p = [] \/ hd0 p = "="%char -> skip_in_name (m ++ p) = skip_in_name m ++ p.
Proof.
  intros Hp. induction m as [|c m IH]; cbn [app skip_in_name].
  - destruct Hp as [->|Hp]; [done|]. destruct p as [|c p]; [done|]. cbn in Hp. by subst.
  - by destruct (is_in_name c).
Qed.

Lemma endofname_app m p : p = [] \/ hd0 p = "="%char -> endofname (m ++ p) = endofname m ++ p.
Proof.
  intros Hp. destruct m as [|c m]; cbn [app endofname].
  - destruct Hp as [->|Hp]; [done|]. destruct p as [|c p]; [done|]. cbn in Hp. by subst.
  - destruct (is_name c); [by apply skip_in_name_app|done].
Qed.

Lemma strchrnul_stop m p : "="%char ∉ m -> p = [] \/ hd0 p = "="%char -> strchrnul (m ++ p) "=" = p.
Proof.
  intros Hm Hp. destruct Hp as [->|Hp].
  - rewrite app_nil_r. by apply strchrnul_none.
  - destruct p as [|c p]; cbn in Hp; [done|]. subst. by apply strchrnul_app.
Qed.

(** The name check of [setvar]. *)
Lemma setvar_name name : exists p, strchrnul (endofname name) "=" = p /\ upto name p = nm name /\
  ((length (nm name) =? 0)%nat || negb (length p =? length (endofname name))%nat) = negb (valid_name (nm name)).
Proof.
  destruct (nm_split name) as (p & E & Es & Hp & Hn). exists p.
  assert (endofname name = endofname (nm name) ++ p) as Eq by (rewrite E at 1; by apply endofname_app).
  assert ("="%char ∉ endofname (nm name)) as Hne.
  { destruct (endofname_within (nm name)) as [l El]. intros H. apply Hn. rewrite El. apply elem_of_app. by right. }
  split_and!.
  - rewrite Eq. by apply strchrnul_stop.
  - rewrite <- Es. apply upto_nm.
  - rewrite Eq, length_app. unfold valid_name. rewrite negb_andb, negb_involutive. f_equal.
    + by destruct (nm name); case_bool_decide.
    + f_equal. destruct (endofname (nm name)); case_bool_decide; try done; apply Nat.eqb_eq || apply Nat.eqb_neq; simpl; lia.
Qed.

Lemma key_name n r : n <> [] -> "="%char ∉ n -> r = [] \/ hd0 r = "="%char -> key (n ++ r) = n.
Proof.
  intros Hn He Hr. unfold key. destruct n as [|c n]; [done|]. apply not_elem_of_cons in He as [Hc He].
  cbn [app hd0]. rewrite (proj2 (Ascii.eqb_neq c "=")) by congruence. cbn [nm].
  rewrite (proj2 (Ascii.eqb_neq c "=")) by congruence. f_equal. clear Hn. induction n as [|d n IH]; cbn [app nm].
  - destruct Hr as [->|Hr]; [done|]. destruct r as [|d r]; [done|]. cbn in Hr. by subst.
  - apply not_elem_of_cons in He as [Hd He]. rewrite (proj2 (Ascii.eqb_neq d "=")) by congruence. f_equal. by apply IH.
Qed.

Lemma var_end_name n v : "="%char ∉ n -> var_end (n ++ "="%char :: v) = v.
Proof.
  induction n as [|c n IH]; [done|]. rewrite not_elem_of_cons. intros [Hc Hn]. cbn [app var_end].
  rewrite (proj2 (Ascii.eqb_neq c "=")) by congruence. by apply IH.
Qed.

Lemma nm_nonul x : NUL ∉ x -> NUL ∉ nm x.
Proof. intros H Hn. apply H. destruct (nm_split x) as (p & -> & _). apply elem_of_app. by left. Qed.

(** Allocating a text changes nothing that is seen. *)
Lemma alloc_rel pend apend s a u : rel pend apend s a ->
  rel pend apend (set_texts <[s_next s := u]> (set_next (S (s_next s)) s)) a /\
  (forall r, ref_text pend s r <> Some (s_next s)) /\ s_next s <> LINENO_TEXT /\ s_next s <> FUNCNAME_TEXT.
Proof.
  intros Hrel. pose proof (r_inv _ _ _ _ Hrel) as Hinv. destruct (i_static _ _ Hinv) as (H8 & Hl & Hf).
  assert (s_next s <> LINENO_TEXT /\ s_next s <> FUNCNAME_TEXT) as [? ?] by (unfold LINENO_TEXT, FUNCNAME_TEXT; lia).
  assert (forall r, ref_text pend s r <> Some (s_next s)) as Hr.
  { intros r Hr. apply (ref_live _ _ _ _ Hinv) in Hr. pose proof (i_next _ _ Hinv _ (or_intror Hr)). lia. }
  split; [|done]. change (set_texts _ _) with (upd s (s_vars s) (<[s_next s := u]> (s_texts s)) (S (s_next s))).
  apply texts_rel; rewrite ?lookup_insert_ne by done; try done; [| |lia].
  - intros r n Hn. apply lookup_insert_ne. intros <-. by apply (Hr r).
  - intros n Hn. apply lookup_insert_is_Some' in Hn as [<-|Hn]; [lia|].
    pose proof (i_next _ _ Hinv n (or_intror Hn)). lia.
Qed.

(** Flags a caller of [setvar] may pass. *)
Definition plain (fl : Z) : Prop := forall k, 3 <= k <= 8 -> Z.testbit fl k = false.

Definition sv_spec (pend : list localvar) (apend : list asaved) (s : shvars) (k : cstr) (fixed : bool)
    (r1 : res shvars (option nat)) (r2 : res astate unit) : Prop :=
  match r1, r2 with
  | Ok s' r, Ok a' _ =>
      rel pend apend s' a' /\ s_frames s' = s_frames s /\
      (fixed = true -> exists i, r = Some i /\ fixed_at k i s') /\
      (forall i, fixed_at k i s -> r = Some i /\ keeps pend i (s_next s) s s' /\ fixed_at k i s' /\
         v_func <$> s_vars s' !! i = v_func <$> s_vars s !! i)
  | Raise s' e, Raise a' e' => rel pend apend s' a' /\ e = e'
  | _, _ => False
  end.

Lemma setvar_spec pend apend s a name val fl : rel pend apend s a -> NUL ∉ name ->
  (forall v, val = Some v -> NUL ∉ v) -> plain fl ->
  sv_spec pend apend s (nm name) (Z.testbit fl 2) (setvar name val fl s)
    (a_setvar name val (Z.testbit fl 0) (Z.testbit fl 1) (Z.testbit fl 2) a).
Proof.
  intros Hrel Hnul Hval Hpl. unfold setvar, a_setvar. destruct (setvar_name name) as (p & -> & -> & ->).
  destruct (nm_split name) as (_ & _ & _ & _ & Heq).
  destruct (valid_name (nm name)) eqn:Hvn; cbn [negb].
  2: { cbn. split; [|done]. rel_same Hrel. }
  apply andb_true_iff in Hvn as [Hne _]. bool_prop.
  set (x := match val with Some v => nm name ++ lit "=" ++ v | None => nm name end).
  set (fl1 := Z.lor (match val with None => Z.lor fl VUNSET | Some _ => fl end) VNOSAVE).
  assert (forall k, 0 <= k -> k <> 5 -> k <> 8 -> Z.testbit fl1 k = Z.testbit fl k) as Hbits.
  { intros k Hk N5 N8. unfold fl1. change VNOSAVE with (2 ^ 8). change VUNSET with (2 ^ 5).
    destruct val; rewrite !Z.lor_spec, !Z.pow2_bits_eqb by lia;
      rewrite ?(proj2 (Z.eqb_neq 8 k)), ?(proj2 (Z.eqb_neq 5 k)) by lia; by rewrite !orb_false_r. }
  assert (Z.testbit fl1 8 = true) as H8 by (unfold fl1; rewrite Z.lor_spec; apply orb_true_r).
  assert (Z.testbit fl1 5 = match val with None => true | Some _ => false end) as H5.
  { unfold fl1. rewrite Z.lor_spec. change (Z.testbit VNOSAVE 5) with false. rewrite orb_false_r.
    destruct val; [by apply Hpl|]. rewrite Z.lor_spec. apply orb_true_r. }
  destruct (alloc_rel pend apend s a (mk_text true x) Hrel) as (Hrel1 & Hno & Hst).
  set (s1 := set_texts _ _) in *.
  assert (malloc_text x s = Ok s1 (s_next s)) as Hm by done. rewrite (bind_run _ _ _ _ _ Hm).
  assert (key x = nm name) as Hkx.
  { unfold x. destruct val as [v|]; [apply key_name; [done..|by right]|]. rewrite <- (app_nil_r (nm name)) at 1.
    apply key_name; [done..|by left]. }
  assert (NUL ∉ x) as Hnx.
  { unfold x. destruct val as [v|]; [|by apply nm_nonul]. rewrite !not_elem_of_app. split_and!; [by apply nm_nonul|by_eval|auto]. }
  assert (arg_ok pend s1 (s_next s) (mk_text true x) fl1) as Harg.
  { split; cbn [t_chars t_heap]; rewrite ?H8, ?H5.
    - apply lookup_insert_eq.
    - done.
    - done.
    - rewrite has_TEXTBITS, !Hbits, !Hpl by lia. split_and!; [done..|]. intros r. apply Hno.
    - rewrite !Hbits, !Hpl by lia. done.
    - unfold x. destruct val; [|done]. apply elem_of_app. right. left. }
  pose proof (setvareq_spec pend apend s1 a (s_next s) (mk_text true x) fl1 Hrel1 Harg) as Hspec.
  cbn [t_chars] in Hspec. rewrite Hkx, !Hbits in Hspec by lia.
  assert (arg_val fl1 x = match val with Some v => AVal v | None => AUnset end) as Hav.
  { unfold arg_val. rewrite H5. destruct val; [|done]. unfold x. cbn. by rewrite var_end_name. }
  rewrite Hav in Hspec. unfold sv_spec, set_spec in *.
  set (sa := a_set _ _ _ _ _) in *. clearbody sa.
  destruct (setvareq (s_next s) fl1 s1) as [s' r|s' e|], (sa a) as [a' []|a' e'|]; try done.
  cbn [t_chars] in Hspec. rewrite Hkx in Hspec. destruct Hspec as (? & Hfr & Hfx & Hat). rewrite Hbits in Hfx by lia.
  split_and!; [done|by rewrite Hfr|done|]. intros i Hi.
  assert (forall m, is_Some (s_texts s !! m) -> m <> s_next s) as Hlt.
  { intros m Hm1 ->. pose proof (i_next _ _ (r_inv _ _ _ _ Hrel) _ (or_intror Hm1)). lia. }
  destruct (Hat i) as (? & Hkeep & ? & Hfn).
  { destruct Hi as (v & t & Hv & Ht & Hkt). exists v, t. split_and!; try apply Hkt; [done|]. cbn.
    rewrite lookup_insert_ne; [done|]. apply not_eq_sym, Hlt. by rewrite Ht. }
  split_and!; [done| |done|by rewrite Hfn]. intros m v Hv Hne' Hlive Hown.
  destruct (Hkeep m v Hv Hne') as [E Hr]; [cbn; by rewrite lookup_insert_ne by done|done|].
  split; [|done]. rewrite E. cbn. by apply lookup_insert_ne.
Qed.

(** ** Local variables *)

Lemma elem_lvs lv pend s : lv ∈ lvs pend s <-> lv ∈ pend \/ exists f, f ∈ s_frames s /\ lv ∈ f.
Proof.
  unfold lvs. rewrite elem_of_reverse, elem_of_app, (list_elem_of_In (concat _)), in_concat.
  by setoid_rewrite <- list_elem_of_In.
Qed.

Lemma any_names_spec pend s x l al : NUL ∉ x -> inv pend s ->
  Forall2 (lv_rel s) l al -> any_names x l s = Ok s (existsb (saves x) al).
Proof.
  intros Hx Hinv. induction 1 as [|lv sv l al Hlv Hl IH]; [done|]. cbn [any_names existsb].
  assert (lv_names x lv s = Ok s (saves x sv)) as E.
  { destruct lv as [o|i fl n], sv as [o'|k old]; cbn [lv_rel] in Hlv; try done.
    destruct Hlv as (v & t & Hv & Ht & <- & _). cbn [lv_names].
    rewrite (bind_run _ _ _ _ _ (get_var_ok _ _ _ Hv)), (bind_run _ _ _ _ _ (get_text_ok _ _ _ Ht)).
    destruct (i_var _ _ Hinv i v Hv) as (t' & Ht' & [Hn' _ _ _]). unfold ret. rewrite varcmp_nm by (done || congruence).
    cbn [saves]. by rewrite nm_key. }
  rewrite (bind_run _ _ _ _ _ E). destruct (saves x sv); [done|]. by rewrite IH.
Qed.

(** Entering a saved variable into the youngest frame. *)
Lemma push_lv_spec s a lv sv : rel [] [] s a -> s_frames s <> [] -> lv_rel s lv sv ->
  (forall i fl n, lv = LvVar i fl n ->
    (exists v t, s_vars s !! i = Some v /\ Z.testbit (v_flags v) 2 = true /\ s_texts s !! v_text v = Some t /\
      (fl <> VUNSET -> exists u, s_texts s !! n = Some u /\ var_ok fl u /\ key (t_chars u) = key (t_chars t) /\
         (t_heap u = true -> forall r, ref_text [] s r <> Some n))) /\
    (forall fl' n', LvVar i fl' n' ∈ lvs [] s -> Z.testbit fl 2 = true)) ->
  agree0 [] [] (push_lv lv s) (a_push sv a).
Proof.
  intros Hrel Hne Hlv Hcond. unfold push_lv, a_push, bind, get.
  pose proof (r_frames _ _ _ _ Hrel) as Hfr. destruct (s_frames s) as [|f fs] eqn:Ef; [done|].
  apply Forall2_cons_inv_l in Hfr as (af & afs & Hf & Hfs & Eaf). rewrite Eaf. cbn. split; [|done].
  set (s' := set_frames _ _). pose proof (r_inv _ _ _ _ Hrel) as Hinv.
  assert (lvs [] s' = lvs [] s ++ [lv]) as El.
  { unfold lvs. rewrite Ef. exact (reverse_cons (f ++ concat fs) lv). }
  assert (forall r n, ref_text [] s' r = Some n -> ref_text [] s r = Some n \/
    (r = RLv (length (lvs [] s)) /\ lv_text lv = Some n)) as Hrt.
  { intros [j|k] n Hr; [by left|]. unfold ref_text in Hr |- *. rewrite El in Hr.
    destruct ((lvs [] s ++ [lv]) !! k) as [lv'|] eqn:Ek; [|done].
    apply lookup_app_Some in Ek as [Ek|[Hk Ek]]; [left; by rewrite Ek|].
    apply list_lookup_singleton_Some in Ek as [Hk0 <-]. right. split; [f_equal; lia|done]. }
  split; try (by apply Hrel); [|constructor; [constructor; [done|done]|done]].
  destruct Hinv. split; try done.
  - intros r1 r2 n t H1 H2 Ht Hh. apply Hrt in H1, H2. change (s_texts s') with (s_texts s) in Ht.
    assert (lv_text lv = Some n -> forall r, ref_text [] s r <> Some n) as Hlast.
    { intros Hl r Hr. destruct lv as [|i fl n']; [done|]. cbn in Hl. destruct (Z.eqb_spec fl VUNSET); [done|].
      injection Hl as ->. destruct (Hcond i fl n eq_refl) as [(v & u & _ & _ & _ & Hx) _].
      destruct Hx as (w & Hw & _ & _ & Hno); [done|]. apply (Hno ltac:(congruence) r Hr). }
    destruct H1 as [H1|[-> H1]], H2 as [H2|[-> H2]]; [by eapply i_refs0|..|done]; exfalso; by eapply Hlast.
  - intros i fl n. rewrite El, elem_of_app, list_elem_of_singleton. intros [Hl|Hl]; [by apply i_lv0|]. subst lv.
    destruct (Hcond i fl n eq_refl) as [(v & t & Hv & Hb & Ht & Hx) _]. exists v, t. split_and!; try done.
    intros Hfl. destruct (Hx Hfl) as (u & ? & ? & ? & _). eauto.
  - intros k k' i fl n fl' n' Hlt. rewrite El. intros H1 H2. apply lookup_app_Some in H2 as [H2|[Hk H2]].
    + rewrite lookup_app_l in H1 by (apply lookup_lt_Some in H2; lia). by eapply i_chain0.
    + apply list_lookup_singleton_Some in H2 as [Hk0 E]. rewrite lookup_app_l in H1 by lia.
      destruct (Hcond i fl' n') as [_ Hch]; [done|]. eapply Hch, list_elem_of_lookup_2, H1.
Qed.

Lemma strchr_eq x : (if strchr x "=" then true else false) = bool_decide ("="%char ∈ x).
Proof.
  induction x as [|c x IH]; [by rewrite bool_decide_eq_false_2 by apply not_elem_of_nil|]. cbn [strchr].
  destruct (Ascii.eqb_spec c "=") as [->|Hc]; [by rewrite bool_decide_eq_true_2 by left|].
  rewrite IH. apply bool_decide_ext. rewrite elem_of_cons. naive_solver.
Qed.

Lemma nm_noeq x : "="%char ∉ x -> nm x = x.
Proof.
  induction x as [|c x IH]; [done|]. rewrite not_elem_of_cons. intros [Hc Hx]. cbn [nm].
  rewrite (proj2 (Ascii.eqb_neq c "=")) by congruence. by rewrite IH.
Qed.

Lemma key_noeq x : "="%char ∉ x -> key x = nm x.
Proof. intros Hx. unfold key. destruct x as [|c x]; [done|]. apply not_elem_of_cons in Hx as [Hc _]. cbn [hd0]. by rewrite (proj2 (Ascii.eqb_neq c "=")). Qed.

(** A word of a command and the flags it may be declared with. *)
Record word_ok (pend : list localvar) (s : shvars) (n : nat) (x : cstr) : Prop := mk_word_ok {
  word_text : s_texts s !! n = Some (mk_text false x);
  word_nul : NUL ∉ x;
  word_static : n <> LINENO_TEXT /\ n <> FUNCNAME_TEXT;
  word_fresh : forall r, ref_text pend s r <> Some n;
}.

Lemma word_arg pend s n x fl : word_ok pend s n x -> plain fl -> "="%char ∈ x -> arg_ok pend s n (mk_text false x) fl.
Proof. intros [] Hpl He. split; rewrite ?Hpl by lia; done. Qed.

Lemma plain_val x fl : plain fl -> arg_val fl x = AVal (var_end x).
Proof. intros H. unfold arg_val. by rewrite H by lia. Qed.

(** Setting a variable to the value of a word, or unsetting it: what [mklocal]
    does with the name; [fixed_at] before or after. *)
Definition declare (n : nat) (x : cstr) (eq : bool) (fl fl' : Z) : Sh (option nat) :=
  if eq then setvareq n fl else setvar x None fl'.
Definition a_declare (x : cstr) (eq : bool) (fl fl' : Z) : Ab unit :=
  if eq then a_set (key x) (AVal (var_end x)) (Z.testbit fl 0) (Z.testbit fl 1) (Z.testbit fl 2)
  else a_setvar x None (Z.testbit fl' 0) (Z.testbit fl' 1) (Z.testbit fl' 2).

Lemma declare_spec pend apend s a n x fl fl' : rel pend apend s a -> word_ok pend s n x -> plain fl -> plain fl' ->
  let eq := bool_decide ("="%char ∈ x) in
  match declare n x eq fl fl' s, a_declare x eq fl fl' a with
  | Ok s' r, Ok a' _ =>
      rel pend apend s' a' /\ s_frames s' = s_frames s /\
      (Z.testbit fl 2 && Z.testbit fl' 2 = true -> exists i, r = Some i /\ fixed_at (key x) i s') /\
      (forall i v m t0, fixed_at (key x) i s -> s_vars s !! i = Some v -> v_text v = m -> s_texts s !! m = Some t0 ->
         has (v_flags v) TEXTBITS = true ->
         fixed_at (key x) i s' /\ v_func <$> s_vars s' !! i = Some (v_func v) /\ s_texts s' !! m = Some t0 /\
         (t_heap t0 = true -> forall r, ref_text pend s' r <> Some m))
  | Raise s' e, Raise a' e' => rel pend apend s' a' /\ e = e'
  | _, _ => False
  end.
Proof.
  intros Hrel Hw Hp Hp'. pose proof (r_inv _ _ _ _ Hrel) as Hinv. cbv zeta.
  assert (forall i v m t0 s' n', s_vars s !! i = Some v -> v_text v = m -> s_texts s !! m = Some t0 ->
    has (v_flags v) TEXTBITS = true -> m <> n' -> keeps pend i n' s s' ->
    s_texts s' !! m = Some t0 /\ (t_heap t0 = true -> forall r, ref_text pend s' r <> Some m)) as Hkeep.
  { intros i v m t0 s' n' Hv Hm Ht0 Hb Hne Hk. destruct (Hk m v Hv Hne ltac:(by rewrite Ht0) ltac:(done)) as [E Hr].
    split; [by rewrite E|]. intros Hh r Hr'. apply Hr in Hr' as [Hr' Hri]. apply Hri.
    eapply (i_refs _ _ Hinv); [exact Hr'| |exact Ht0|done]. cbn. rewrite Hv. cbn. by rewrite Hm. }
  assert (forall i v m, s_vars s !! i = Some v -> v_text v = m -> m <> n) as Hmn.
  { intros i v m Hv Hm ->. apply (word_fresh _ _ _ _ Hw (RVar i)). cbn. rewrite Hv. cbn. by rewrite Hm. }
  unfold declare, a_declare. case_bool_decide as Heq.
  - pose proof (setvareq_spec pend apend s a n (mk_text false x) fl Hrel (word_arg _ _ _ _ _ Hw Hp Heq)) as Hs.
    cbn [t_chars] in Hs. rewrite plain_val in Hs by done. unfold set_spec in Hs. cbn [t_chars] in Hs.
    set (sa := a_set _ _ _ _ _) in *. clearbody sa.
    destruct (setvareq n fl s) as [s' r|s' e|], (sa a) as [a' []|a' e'|]; try done.
    destruct Hs as (? & ? & Hfx & Hat). split_and!; [done|done| |].
    + intros Hb. apply andb_true_iff in Hb as [Hb _]. auto.
    + intros i v m t0 Hi Hv Hm Ht0 Hb. destruct (Hat i Hi) as (_ & Hk & Hi' & Hfn). rewrite Hv in Hfn.
      destruct (Hkeep i v m t0 s' n) as [? ?]; [by eauto..|]. done.
  - pose proof (setvar_spec pend apend s a x None fl' Hrel (word_nul _ _ _ _ Hw) ltac:(done) Hp') as Hs.
    rewrite key_noeq by done. unfold sv_spec in Hs. set (sa := a_setvar _ _ _ _ _) in *. clearbody sa.
    destruct (setvar x None fl' s) as [s' r|s' e|], (sa a) as [a' []|a' e'|]; try done.
    destruct Hs as (? & ? & Hfx & Hat). split_and!; [done|done| |].
    + intros Hb. apply andb_true_iff in Hb as [_ Hb]. auto.
    + intros i v m t0 Hi Hv Hm Ht0 Hb. destruct (Hat i Hi) as (_ & Hk & Hi' & Hfn). rewrite Hv in Hfn.
      destruct (Hkeep i v m t0 s' (s_next s)) as [? ?]; try done.
      intros ->. pose proof (i_next _ _ Hinv (s_next s) ltac:(right; by rewrite Ht0)). lia.
Qed.

Lemma plain_fixed fl : plain fl -> plain (Z.lor VSTRFIXED fl) /\
  Z.testbit (Z.lor VSTRFIXED fl) 0 = Z.testbit fl 0 /\ Z.testbit (Z.lor VSTRFIXED fl) 1 = Z.testbit fl 1 /\
  Z.testbit (Z.lor VSTRFIXED fl) 2 = true.
Proof.
  intros Hp. rewrite !Z.lor_spec. split_and!; [|done..]. intros k Hk. rewrite Z.lor_spec, Hp by lia.
  change VSTRFIXED with (2 ^ 2). rewrite Z.pow2_bits_eqb by lia. by rewrite (proj2 (Z.eqb_neq 2 k)) by lia.
Qed.

(** Marking an existing variable fixed, its text no longer its own. *)
Lemma mark_fixed pend apend s a i v t : rel pend apend s a -> s_vars s !! i = Some v -> s_texts s !! v_text v = Some t ->
  let v' := mk_var (Z.lor (v_flags v) (Z.lor VSTRFIXED VTEXTFIXED)) (v_text v) (v_func v) in
  rel pend apend (set_vars <[i := v']> s)
    (aset_env <[key (t_chars t) := set_fixed true (entry_of (v_flags v) (v_text v) t (v_func v))]> a) /\
  fixed_at (key (t_chars t)) i (set_vars <[i := v']> s) /\ has (v_flags v') TEXTBITS = true /\
  (forall r, ref_text pend (set_vars <[i := v']> s) r = ref_text pend s r).
Proof.
  intros Hrel Hv Ht v'. pose proof (r_inv _ _ _ _ Hrel) as Hinv.
  destruct (i_var _ _ Hinv i v Hv) as (t0 & Ht0 & Hok). assert (t0 = t) as -> by congruence.
  assert (forall k, 0 <= k -> Z.testbit (v_flags v') k = Z.testbit (v_flags v) k || ((k =? 2) || (k =? 3))) as Hb.
  { intros k Hk. cbn [v' v_flags]. rewrite !Z.lor_spec. change VSTRFIXED with (2 ^ 2). change VTEXTFIXED with (2 ^ 3).
    rewrite !Z.pow2_bits_eqb by lia. by rewrite (Z.eqb_sym k 2), (Z.eqb_sym k 3). }
  assert (Z.testbit (v_flags v') 2 = true /\ Z.testbit (v_flags v') 3 = true) as [H2 H3].
  { split; rewrite Hb by lia; apply orb_true_r. }
  assert (forall k, 0 <= k -> k <> 2 -> k <> 3 -> Z.testbit (v_flags v') k = Z.testbit (v_flags v) k) as Hk.
  { intros k Hk N2 N3. rewrite Hb, (proj2 (Z.eqb_neq k 2)), (proj2 (Z.eqb_neq k 3)) by done. apply orb_false_r. }
  assert (has (v_flags v') TEXTBITS = true) as Htx by (by rewrite has_TEXTBITS, H3).
  assert (set_vars <[i := v']> s = upd s (<[i := v']> (s_vars s)) (s_texts s) (s_next s)) as -> by done.
  split_and!.
  - assert (set_fixed true (entry_of (v_flags v) (v_text v) t (v_func v)) = entry_of (v_flags v') (v_text v') t (v_func v)) as ->.
    { unfold entry_of, set_fixed, aval_of. by rewrite H2, !Hk by lia. }
    apply put_rel; try done.
    + destruct Hok. split; rewrite ?Htx, ?H3, ?Hk by lia; try done.
      intros H5. split; [by apply ok_unset0|apply orb_true_r].
    + intros Hh r Hr Hr'. destruct Hr. eapply (i_refs _ _ Hinv); [exact Hr'| |exact Ht|done]. cbn. by rewrite Hv.
    + by left.
    + intros n Hn. apply (i_next _ _ Hinv). by right.
  - exists v', t. cbn [upd s_vars s_texts]. by rewrite lookup_insert_eq.
  - done.
  - intros [j|k]; [|done]. cbn. destruct (decide (j = i)) as [->|Hj]; [by rewrite lookup_insert_eq, Hv|by rewrite lookup_insert_ne].
Qed.

(** The scopes are not touched by setting. *)
Definition same_frames {A} (a : astate) (r : res astate A) : Prop :=
  match r with Ok a' _ | Raise a' _ => a_frames a' = a_frames a | Wild => True end.

Lemma a_set_frames k v e r f a : same_frames a (a_set k v e r f a).
Proof.
  unfold a_set. cbn. destruct (a_env a !! k) as [en|]; [destruct (a_ro en); [done|]|].
  - unfold bind. by destruct (a_func en); cbn; case_match.
  - by case_match.
Qed.

Lemma a_declare_frames x eq fl fl' a : same_frames a (a_declare x eq fl fl' a).
Proof.
  unfold a_declare, a_setvar. destruct eq; [apply a_set_frames|]. destruct (valid_name _); [apply a_set_frames|done].
Qed.

Lemma saved_key s a s' a' i fl n : rel [] [] s a -> rel [] [] s' a' -> s_frames s' = s_frames s ->
  a_frames a' = a_frames a -> LvVar i fl n ∈ lvs [] s -> exists v t v' t',
    s_vars s !! i = Some v /\ s_texts s !! v_text v = Some t /\
    s_vars s' !! i = Some v' /\ s_texts s' !! v_text v' = Some t' /\ key (t_chars t) = key (t_chars t').
Proof.
  intros Hr Hr' Ef Ea Hl. apply elem_lvs in Hl as [Hl|(f & Hf & Hl)]; [by apply elem_of_nil in Hl|].
  apply list_elem_of_lookup in Hf as [k1 Hk1], Hl as [k2 Hk2].
  pose proof (r_frames _ _ _ _ Hr) as F. pose proof (r_frames _ _ _ _ Hr') as F'. rewrite Ef, Ea in F'.
  destruct (Forall2_lookup_l _ _ _ _ _ F Hk1) as (af & Haf & F1).
  destruct (Forall2_lookup_l _ _ _ _ _ F1 Hk2) as (sv & Hsv & F2).
  pose proof (Forall2_lookup_lr _ _ _ _ _ _ F' Hk1 Haf) as F1'. pose proof (Forall2_lookup_lr _ _ _ _ _ _ F1' Hk2 Hsv) as F2'.
  destruct sv as [|k old]; [done|]. destruct F2 as (v & t & ? & ? & ? & _), F2' as (v' & t' & ? & ? & ? & _).
  exists v, t, v', t'. split_and!; try done. congruence.
Qed.

Lemma a_declare_some x eq fl fl' (a : astate) :
  a_declare x eq fl fl' a = (if eq then a_set (key x) (AVal (var_end x)) (Z.testbit fl 0) (Z.testbit fl 1) (Z.testbit fl 2)
    else a_setvar x None (Z.testbit fl' 0) (Z.testbit fl' 1) (Z.testbit fl' 2)) a.
Proof. done. Qed.

Lemma bind_if {S A B} (b : bool) (m1 m2 : M S A) (k : A -> M S B) s :
  bind (if b then m1 else m2) k s = (if b then bind m1 k s else bind m2 k s).
Proof. by destruct b. Qed.

(** The first "local" of a variable that does not exist. *)
Lemma mklocal_new s a n x fl : rel [] [] s a -> word_ok [] s n x -> plain fl -> s_frames s <> [] ->
  a_env a !! key x = None ->
  let eq := bool_decide ("="%char ∈ x) in
  agree0 [] []
    ((let! vp := declare n x eq (Z.lor VSTRFIXED fl) (Z.lor VSTRFIXED fl) in
      let! i := deref vp in push_lv (LvVar i VUNSET 0)) s)
    ((a_declare x eq (Z.lor VSTRFIXED fl) (Z.lor VSTRFIXED fl) ;; a_push (ASVar (key x) None)) a).
Proof.
  intros Hrel Hw Hp Hne Henv. cbv zeta. destruct (plain_fixed fl Hp) as (Hp' & _ & _ & H2).
  pose proof (declare_spec [] [] s a n x _ _ Hrel Hw Hp' Hp') as Hs. cbv zeta in Hs.
  unfold bind at 1. unfold bind at 2.
  destruct (declare _ _ _ _ _ s) as [s' r|s' e|], (a_declare _ _ _ _ a) as [a' []|a' e'|] eqn:Ea; try done.
  destruct Hs as (Hrel' & Hfr & Hfx & _). destruct Hfx as (i & -> & Hi); [by rewrite H2|]. cbn [bind deref ret].
  destruct Hi as (v & t & Hv & Ht & Hk & Hb).
  pose proof (a_declare_frames x (bool_decide ("="%char ∈ x)) (Z.lor VSTRFIXED fl) (Z.lor VSTRFIXED fl) a) as Hafr.
  rewrite Ea in Hafr. cbn in Hafr.
  assert (forall fl' n', LvVar i fl' n' ∉ lvs [] s) as Hnot.
  { intros fl' n' Hl. destruct (saved_key s a s' a' i fl' n') as (w & u & w' & u' & Hw1 & Hu1 & Hw2 & Hu2 & Hk12); [done..|].
    pose proof (findvar_spec [] [] s a x Hrel (word_nul _ _ _ _ Hw)) as Hfv. rewrite Henv in Hfv.
    apply (proj2 Hfv i w u); [done..|]. congruence. }
  apply push_lv_spec; [done|congruence| |].
  - exists v, t. split_and!; try done.
  - intros i0 fl0 n0 [= -> <- <-]. split; [exists v, t; done|]. intros fl' n' Hl. unfold lvs in *. rewrite Hfr in Hl. by apply Hnot in Hl.
Qed.

(** "local" of an existing variable. *)
Lemma mklocal_old s a n x fl i v t : rel [] [] s a -> word_ok [] s n x -> plain fl -> s_frames s <> [] ->
  s_vars s !! i = Some v -> s_texts s !! v_text v = Some t -> key (t_chars t) = key x ->
  let eq := bool_decide ("="%char ∈ x) in
  let e := entry_of (v_flags v) (v_text v) t (v_func v) in
  agree0 [] []
    ((put_var i (mk_var (Z.lor (v_flags v) (Z.lor VSTRFIXED VTEXTFIXED)) (v_text v) (v_func v)) ;;
      declare n x eq fl 0 ;; push_lv (LvVar i (v_flags v) (v_text v))) s)
    ((modify (aset_env <[key x := set_fixed true e]>) ;;
      a_declare x eq fl 0 ;; a_push (ASVar (key x) (Some e))) a).
Proof.
  intros Hrel Hw Hp Hne Hv Ht Hk. cbv zeta. pose proof (r_inv _ _ _ _ Hrel) as Hinv.
  destruct (i_var _ _ Hinv i v Hv) as (t0 & Ht0 & Hok). assert (t0 = t) as -> by congruence.
  destruct (mark_fixed [] [] s a i v t Hrel Hv Ht) as (Hrel1 & Hfix & Htx & Hrefs).
  set (v' := mk_var (Z.lor _ _) _ _) in *. set (s1 := set_vars <[i := v']> s) in *.
  rewrite Hk in Hrel1, Hfix. set (e := entry_of _ _ _ _) in *. set (a1 := aset_env _ a) in *.
  rewrite (bind_run (put_var i v') _ s s1 tt eq_refl), (bind_run (modify (aset_env <[key x := set_fixed true e]>)) _ a a1 tt eq_refl).
  assert (word_ok [] s1 n x) as Hw1 by (destruct Hw; split; try done; intros r; by rewrite Hrefs).
  assert (plain 0) as Hp0 by (intros k _; apply Z.bits_0).
  pose proof (declare_spec [] [] s1 a1 n x fl 0 Hrel1 Hw1 Hp Hp0) as Hs. cbv zeta in Hs.
  pose proof (a_declare_frames x (bool_decide ("="%char ∈ x)) fl 0 a1) as Hafr.
  unfold bind. destruct (declare _ _ _ _ _ s1) as [s' r|s' e0|], (a_declare _ _ _ _ a1) as [a' []|a' e'|]; try done.
  destruct Hs as (Hrel' & Hfr & _ & Hat).
  assert (s_vars s1 !! i = Some v') as Hv1 by (cbn; apply lookup_insert_eq).
  destruct (Hat i v' (v_text v) t Hfix Hv1 eq_refl Ht Htx) as ((w & u & Hw' & Hu & Hku & Hb) & Hfn & Htt & Hno).
  rewrite Hw' in Hfn. injection Hfn as Hfn.
  assert (v_flags v <> VUNSET) as Hflag.
  { intros E. destruct (ok_unset _ _ Hok) as [_ Hbits]; [by rewrite E|]. by rewrite E in Hbits. }
  apply push_lv_spec; [done|by rewrite Hfr| |].
  - exists w, u. rewrite (proj2 (Z.eqb_neq _ _)) by done. split_and!; try done. exists t. split; [done|]. by rewrite Hfn.
  - intros i0 fl0 n0 [= <- <- <-]. split.
    + exists w, u. split_and!; try done. intros _. exists t. split_and!; try done. congruence.
    + intros fl' n' Hl. unfold lvs in Hl. rewrite Hfr in Hl. destruct (i_lv _ _ Hinv i fl' n' Hl) as (w0 & ? & ? & ? & _). congruence.
Qed.

(** [mklocal] does what the scopes promise. *)
Lemma mklocal_spec s a n x fl : rel [] [] s a -> word_ok [] s n x -> plain fl -> Z.testbit fl 2 = false -> s_frames s <> [] ->
  agree0 [] [] (mklocal n fl s) (a_mklocal x (Z.testbit fl 0) (Z.testbit fl 1) a).
Proof.
  intros Hrel Hw Hp H2 Hne. pose proof Hw as [Hwt Hwn _ _]. unfold mklocal, a_mklocal.
  rewrite (bind_run _ _ _ _ _ (get_text_ok _ _ _ Hwt)). cbn [t_chars]. rewrite strchr_eq.
  set (eq := bool_decide _). pose proof (r_frames _ _ _ _ Hrel) as Hfr.
  rewrite (bind_run (get s_frames) _ s s _ eq_refl), (bind_run (get a_frames) _ a a _ eq_refl).
  destruct (s_frames s) as [|f fs] eqn:Ef; [done|].
  apply Forall2_cons_inv_l in Hfr as (af & afs & Hf & Hfs & Eaf). rewrite Eaf. cbn [head].
  rewrite (bind_run (deref (Some f)) _ s s f eq_refl), (bind_run (deref (Some af)) _ a a af eq_refl).
  rewrite (bind_run _ _ _ _ _ (any_names_spec [] s x f af Hwn (r_inv _ _ _ _ Hrel) Hf)).
  assert (forall (m : Sh (option nat)), (m ;; ret tt) s = match m s with Ok s' _ => Ok s' tt | Raise s' e => Raise s' e | Wild => Wild end) as Hret by done.
  destruct (existsb (saves x) af).
  - assert (plain 0) as Hp0 by (intros k _; apply Z.bits_0).
    unfold eq. case_bool_decide as He; [|done]. rewrite Hret.
    pose proof (setvareq_spec [] [] s a n (mk_text false x) 0 Hrel (word_arg _ _ _ _ _ Hw Hp0 He)) as Hs.
    cbn [t_chars] in Hs. rewrite plain_val in Hs by done. change (Z.testbit 0 0) with false in Hs.
    change (Z.testbit 0 1) with false in Hs. change (Z.testbit 0 2) with false in Hs. unfold set_spec in Hs.
    set (sa := a_set _ _ _ _ _) in *. clearbody sa.
    destruct (setvareq n 0 s) as [s' r|s' e|], (sa a) as [a' []|a' e'|]; try done. by destruct Hs as (? & _).
  - unfold LONE_DASH. case_bool_decide as Hd.
    + rewrite (bind_run (get s_optlist) _ s s _ eq_refl), (bind_run (get a_optlist) _ a a _ eq_refl).
      apply push_lv_spec; [done|congruence|apply (r_opt _ _ _ _ Hrel)|done].
    + rewrite (bind_run (get a_env) _ a a _ eq_refl).
      pose proof (findvar_spec [] [] s a x Hrel Hwn) as Hfv. destruct (a_env a !! key x) as [e|] eqn:Ee.
      * destruct Hfv as (i & v & t & Hfind & Hv & Ht & Hk & He).
        rewrite (bind_run _ _ _ _ _ Hfind), (bind_run _ _ _ _ _ (get_var_ok _ _ _ Hv)).
        pose proof (mklocal_old s a n x fl i v t Hrel Hw Hp ltac:(congruence) Hv Ht Hk) as Hs. cbv zeta in Hs. subst e.
        fold eq in Hs. unfold a_declare in Hs. rewrite H2 in Hs. change (Z.testbit 0 0) with false in Hs.
        change (Z.testbit 0 1) with false in Hs. change (Z.testbit 0 2) with false in Hs.
        rewrite (bind_run (put_var i _) _ s _ tt eq_refl) in Hs. rewrite (bind_run (put_var i _) _ s _ tt eq_refl).
        destruct eq; [|unfold unsetvar]; rewrite bind_ret_tt; exact Hs.
      * destruct Hfv as [Hfind _]. rewrite (bind_run _ _ _ _ _ Hfind).
        pose proof (mklocal_new s a n x fl Hrel Hw Hp ltac:(congruence) Ee) as Hs. cbv zeta in Hs. fold eq in Hs.
        destruct (plain_fixed fl Hp) as (_ & E0 & E1 & E2). unfold a_declare in Hs. rewrite E0, E1, E2 in Hs.
        destruct eq; exact Hs.
Qed.

(** ** Leaving a scope *)

Lemma lvs_cons lv pend s : lvs (lv :: pend) s = lvs pend s ++ [lv].
Proof. unfold lvs. exact (reverse_cons (pend ++ concat (s_frames s)) lv). Qed.

Lemma ref_tail lv pend s r n : ref_text pend s r = Some n -> ref_text (lv :: pend) s r = Some n.
Proof.
  destruct r as [i|k]; [done|]. unfold ref_text. rewrite lvs_cons.
  destruct (lvs pend s !! k) as [lv'|] eqn:E; [|done]. by rewrite (lookup_app_l_Some _ _ _ _ E).
Qed.

Lemma inv_tail lv pend s : inv (lv :: pend) s -> inv pend s.
Proof.
  intros []. split; try done.
  - intros r1 r2 n t H1 H2. by apply i_refs0; apply ref_tail.
  - intros i fl n Hl. apply (i_lv0 i fl n). rewrite lvs_cons. apply elem_of_app. by left.
  - intros k k' i fl n fl' n' Hlt H1 H2. eapply i_chain0; [exact Hlt|..]; rewrite lvs_cons; by apply lookup_app_l_Some.
Qed.

Lemma rel_tail lv pend sv apend s a : rel (lv :: pend) (sv :: apend) s a -> rel pend apend s a.
Proof.
  intros [Hi He Hp Hf]. split; try done; [by eapply inv_tail|]. by apply Forall2_cons_1 in Hp as [_ ?].
Qed.

(** An older saved copy of the same variable makes the younger one fixed. *)
Lemma chain_last i fl n pend s fl' n' : inv (LvVar i fl n :: pend) s -> LvVar i fl' n' ∈ lvs pend s ->
  Z.testbit fl 2 = true.
Proof.
  intros Hinv Hl. apply list_elem_of_lookup in Hl as [k Hk].
  eapply (i_chain _ _ Hinv k (length (lvs pend s)) i fl' n'); rewrite ?lvs_cons.
  - by eapply lookup_lt_Some.
  - by apply lookup_app_l_Some.
  - by rewrite lookup_app_r, Nat.sub_diag.
Qed.

Lemma alter_insert_some {A} (m : gmap cstr A) k f e : m !! k = Some e -> alter f k m = <[k := f e]> m.
Proof.
  intros He. apply map_eq. intros j. destruct (decide (k = j)) as [<-|Hj].
  - by rewrite lookup_alter_eq, lookup_insert_eq, He.
  - by rewrite lookup_alter_ne, lookup_insert_ne.
Qed.

(** A variable that did not exist when it was made local. *)
Lemma restore_new i n pend k apend s a : rel (LvVar i VUNSET n :: pend) (ASVar k None :: apend) s a ->
  agree0 pend apend (restore_lv (LvVar i VUNSET n) s) (a_restore (ASVar k None) a).
Proof.
  intros Hrel. pose proof (rel_tail _ _ _ _ _ _ Hrel) as Ht. pose proof (r_inv _ _ _ _ Hrel) as Hinv.
  pose proof (r_pend _ _ _ _ Hrel) as Hp. apply Forall2_cons_1 in Hp as [(v & t & Hv & Htx & Hk & _) _].
  destruct (i_var _ _ Hinv i v Hv) as (t1 & Ht1 & Hok). assert (t1 = t) as -> by congruence.
  cbn [restore_lv a_restore]. change (VUNSET =? VUNSET) with true. cbv iota.
  rewrite (bind_run _ _ _ _ _ (get_var_ok _ _ _ Hv)).
  set (v' := mk_var _ _ _). set (s1 := set_vars <[i := v']> s).
  rewrite (bind_run (put_var i v') _ s s1 tt eq_refl).
  rewrite (bind_run (get_text (v_text v)) _ s1 s1 (t_chars t)) by (by apply get_text_ok).
  set (f := fun e => set_fixed false (set_ro false e)). set (a1 := aset_env (alter f k) a).
  rewrite (bind_run (modify (aset_env (alter f k))) _ a a1 tt eq_refl).
  assert (forall b, 0 <= b -> Z.testbit (v_flags v') b = Z.testbit (v_flags v) b && negb ((b =? 1) || (b =? 2))) as Hb.
  { intros b Hb. cbn [v' v_flags]. rewrite Z.ldiff_spec, Z.lor_spec. change VSTRFIXED with (2 ^ 2). change VREADONLY with (2 ^ 1).
    rewrite !Z.pow2_bits_eqb by lia. by rewrite (Z.eqb_sym b 1), (Z.eqb_sym b 2), orb_comm. }
  assert (Z.testbit (v_flags v') 1 = false /\ Z.testbit (v_flags v') 2 = false) as [H1 H2].
  { split; rewrite Hb by lia; apply andb_false_r. }
  assert (forall b, 0 <= b -> b <> 1 -> b <> 2 -> Z.testbit (v_flags v') b = Z.testbit (v_flags v) b) as Hbb.
  { intros b Hb0 N1 N2. rewrite Hb, (proj2 (Z.eqb_neq b 1)), (proj2 (Z.eqb_neq b 2)) by done. apply andb_true_r. }
  assert (rel pend apend s1 a1) as Hrel1.
  { assert (a_env a !! k = Some (entry_of (v_flags v) (v_text v) t (v_func v))) as He.
    { apply (r_env _ _ _ _ Hrel). eauto 8. }
    assert (a1 = aset_env <[key (t_chars t) := entry_of (v_flags v') (v_text v') t (v_func v)]> a) as ->.
    { unfold a1, aset_env. f_equal. rewrite Hk, (alter_insert_some _ _ _ _ He). f_equal.
      unfold f, set_fixed, set_ro, entry_of, aval_of. by rewrite H1, H2, !Hbb by lia. }
    change s1 with (upd s (<[i := v']> (s_vars s)) (s_texts s) (s_next s)).
    apply put_rel; try done.
    - apply Ht.
    - destruct Hok. split; rewrite ?has_TEXTBITS in *; rewrite ?Hbb by lia; done.
    - intros Hh r Hr Hr'. destruct Hr. eapply (i_refs _ _ (r_inv _ _ _ _ Ht)); [exact Hr'| |exact Htx|done]. cbn. by rewrite Hv.
    - intros _. right. intros fl' n' Hl. by pose proof (chain_last _ _ _ _ _ _ _ Hinv Hl).
    - intros m Hm. apply (i_next _ _ Hinv). by right. }
  pose proof (setvar_spec pend apend s1 a1 (t_chars t) None 0 Hrel1 (ok_nul _ _ Hok) ltac:(done)) as Hs.
  unfold unsetvar. change (Z.testbit 0 ?b) with false in Hs. unfold sv_spec in Hs.
  assert (a_setvar k None false false false a1 = a_setvar (t_chars t) None false false false a1) as ->.
  { unfold a_setvar. by rewrite <- Hk, nm_key. }
  assert (plain 0) as Hp0 by (intros b _; apply Z.bits_0). specialize (Hs Hp0). unfold bind.
  destruct (setvar _ _ _ s1) as [s' r|s' e|], (a_setvar _ _ _ _ _ a1) as [a' []|a' e'|]; try done.
  - by destruct Hs as (? & _).
  - destruct Hs as [Hr ->]. split; [by eapply rel_drop|done].
Qed.

(** A variable that existed. *)
Lemma restore_old i fl n pend k old apend s a : fl <> VUNSET -> rel (LvVar i fl n :: pend) (ASVar k old :: apend) s a ->
  agree0 pend apend (restore_lv (LvVar i fl n) s) (a_restore (ASVar k old) a).
Proof.
  intros Hfl Hrel. pose proof (rel_tail _ _ _ _ _ _ Hrel) as Ht. pose proof (r_inv _ _ _ _ Hrel) as Hinv.
  pose proof (r_pend _ _ _ _ Hrel) as Hp. apply Forall2_cons_1 in Hp as [(v & t & Hv & Htx & Hk & Hold) _].
  destruct (i_var _ _ Hinv i v Hv) as (t1 & Ht1 & Hok). assert (t1 = t) as -> by congruence.
  rewrite (proj2 (Z.eqb_neq fl VUNSET)) in Hold by done. destruct Hold as (u & Hu & ->).
  destruct (i_lv _ _ Hinv i fl n) as (v0 & t0 & Hv0 & Hb2 & Ht0 & Hx); [rewrite lvs_cons; apply elem_of_app; right; left|].
  destruct (Hx Hfl) as (u0 & Hu0 & Huok & Hukey). simplify_eq.
  cbn [restore_lv a_restore entry_of a_func a_val]. rewrite (proj2 (Z.eqb_neq fl VUNSET)) by done.
  rewrite (bind_run _ _ _ _ _ (get_var_ok _ _ _ Hv)).
  assert (ref_text (LvVar i fl n :: pend) s (RLv (length (lvs pend s))) = Some n) as Href.
  { unfold ref_text. rewrite lvs_cons, lookup_app_r, Nat.sub_diag by done. cbn. by rewrite (proj2 (Z.eqb_neq fl VUNSET)). }
  assert (exists s1 a1,
    (if v_func v then let! x := get_text n in modify (add_path (var_end x)) else ret tt) s = Ok s1 tt /\
    (if v_func v then modify (aadd_path (val_text (aval_of fl n u))) else ret tt) a = Ok a1 tt /\
    rel pend apend s1 a1 /\ s_vars s1 = s_vars s /\ s_texts s1 = s_texts s /\ s_next s1 = s_next s /\
    s_frames s1 = s_frames s) as (s1 & a1 & Hrun & Harun & Hrel1 & Ev & Et & En & Ef).
  { destruct (v_func v) eqn:Efn; [|by exists s, a].
    exists (add_path (var_end (t_chars u)) s), (aadd_path (val_text (aval_of fl n u)) a).
    rewrite (bind_run _ _ _ _ _ (get_text_ok _ _ _ Hu)). split_and!; try done. rel_same Ht. f_equal; [|apply Ht].
    pose proof (i_path _ _ Hinv i v t Hv Htx Efn) as Hpath. destruct (i_static _ _ Hinv) as (_ & (x & Hx5 & _) & (y & Hx6 & _)).
    unfold aval_of. destruct (Z.testbit fl 5) eqn:E5; [by apply var_end_none, (ok_unset _ _ Huok)|].
    destruct (Nat.eqb_spec n LINENO_TEXT) as [->|_].
    { rewrite Hx5 in Hu. injection Hu as <-. rewrite Hpath in Hukey. done. }
    destruct (Nat.eqb_spec n FUNCNAME_TEXT) as [->|_]; [|done].
    rewrite Hx6 in Hu. injection Hu as <-. rewrite Hpath in Hukey. done. }
  rewrite (bind_run _ _ _ _ _ Hrun), (bind_run _ _ _ _ _ Harun).
  rewrite (bind_run _ _ _ _ _ (free_old pend apend s a u Ht i v t Hv Htx (eq_sym Hukey) s1 Et)).
  unfold agree, put_var, modify. split; [|done].
  assert (texts_freed v (s_texts s) !! n = Some u) as Hun.
  { rewrite (texts_freed_other s); [done|]. intros <-. destruct (has (v_flags v) TEXTBITS) eqn:Eb; [done|].
    assert (RVar i = RLv (length (lvs pend s))); [|done].
    eapply (i_refs _ _ Hinv); [|exact Href|exact Htx|by apply Hok]. cbn. by rewrite Hv. }
  assert (set_vars <[i := mk_var fl n (v_func v)]> (set_texts (fun _ => texts_freed v (s_texts s)) s1) =
    upd s1 (<[i := mk_var fl n (v_func v)]> (s_vars s1)) (texts_freed v (s_texts s)) (s_next s1)) as -> by done.
  assert (forall r m, ref_text pend s1 r = Some m -> ref_text pend s r = Some m) as Hback.
  { intros [j|j] m; unfold ref_text, lvs; by rewrite ?Ev, ?Ef. }
  pose proof (put_rel pend s1 i v t (mk_var fl n (v_func v)) u (texts_freed v (s_texts s)) (s_next s1)) as Hput.
  cbn [v_flags v_text v_func] in Hput. apply Hput; rewrite ?Ev, ?Et, ?En; try done; clear Hput.
  - apply Hrel1.
  - intros r m Hr Hm. eapply (freed_ref pend apend s a Ht i v t); eauto.
  - intros Hh r Hr Hm. apply Hback in Hm.
    assert (r = RLv (length (lvs pend s))) as ->.
    { eapply (i_refs _ _ Hinv); [by apply ref_tail|exact Href|exact Hu|done]. }
    cbn in Hm. by rewrite lookup_ge_None_2 in Hm.
  - intros _. destruct (Z.testbit fl 2) eqn:E2; [by left|right]. intros fl' n' Hl.
    assert (LvVar i fl' n' ∈ lvs pend s) as Hl' by (unfold lvs in *; by rewrite <- Ef).
    pose proof (chain_last _ _ _ _ _ _ _ Hinv Hl'). congruence.
  - intros m Hm. apply (i_next _ _ Hinv). right. by apply (freed_dom s v).
  - by apply (freed_static pend apend s a Ht i v t).
  - by apply (freed_static pend apend s a Ht i v t).
Qed.

Lemma restore_spec lv pend sv apend s a : rel (lv :: pend) (sv :: apend) s a ->
  agree0 pend apend (restore_lv lv s) (a_restore sv a).
Proof.
  intros Hrel. pose proof (r_pend _ _ _ _ Hrel) as Hp. apply Forall2_cons_1 in Hp as [Hlv _].
  destruct lv as [o|i fl n], sv as [o'|k old]; cbn [lv_rel] in Hlv; try done.
  - pose proof (rel_tail _ _ _ _ _ _ Hrel) as Ht. cbn. split; [|done]. rel_same Ht. done.
  - destruct (Z.eq_dec fl VUNSET) as [->|Hfl]; [|by apply restore_old].
    destruct Hlv as (v & t & _ & _ & _ & ->). by apply restore_new.
Qed.

Lemma restore_all pend apend s a : rel pend apend s a ->
  agree0 [] [] (for_each restore_lv pend s) (for_each a_restore apend a).
Proof.
  revert apend s a. induction pend as [|lv pend IH]; intros apend s a Hrel;
    pose proof (r_pend _ _ _ _ Hrel) as Hp; apply Forall2_length in Hp as Hlen; destruct apend as [|sv apend]; try done.
  cbn [for_each]. pose proof (restore_spec _ _ _ _ _ _ Hrel) as Hs. unfold agree, bind in *.
  destruct (restore_lv lv s) as [s' []|s' e|], (a_restore sv a) as [a' []|a' e'|]; try done.
  apply IH. apply Hs.
Qed.

Lemma poplocalvars_spec s a : rel [] [] s a -> s_frames s <> [] ->
  agree0 [] [] (poplocalvars s) (a_poplocalvars a).
Proof.
  intros Hrel Hne. unfold poplocalvars, a_poplocalvars. pose proof (r_frames _ _ _ _ Hrel) as Hfr.
  rewrite (bind_run (get s_frames) _ s s _ eq_refl), (bind_run (get a_frames) _ a a _ eq_refl).
  destruct (s_frames s) as [|f fs] eqn:Ef; [done|].
  apply Forall2_cons_inv_l in Hfr as (af & afs & Hf & Hfs & Eaf). rewrite Eaf.
  rewrite (bind_run (modify _) _ s (set_frames fs s) tt eq_refl), (bind_run (modify _) _ a (aset_frames afs a) tt eq_refl).
  apply restore_all. destruct Hrel as [Hi He _ _]. split; try done.
  assert (lvs f (set_frames fs s) = lvs [] s) as El by (unfold lvs; by rewrite Ef).
  destruct Hi. split; try done.
  - intros r1 r2 n t. unfold ref_text in *. rewrite El. apply i_refs0.
  - rewrite El. done.
  - rewrite El. done.
Qed.

Lemma pushlocalvars_spec s a : rel [] [] s a -> agree0 [] [] (pushlocalvars s) (a_pushlocalvars a).
Proof.
  intros Hrel. cbn. split; [|done]. destruct Hrel as [Hi He Hp Hf].
  assert (lvs [] (set_frames ([] :: s_frames s) s) = lvs [] s) as El by done.
  split; try done; [|constructor; [constructor|done]]. destruct Hi. by split.
Qed.

(** ** Looking up *)

Lemma fmt_d_nonul n : NUL ∉ fmt_d n.
Proof.
  assert (forall z, 0 <= z -> NUL ∉ fmt_u z) as Hu.
  { intros z Hz Hin. pose proof (fmt_u_digits z Hz) as H. rewrite Forall_forall in H.
    specialize (H _ Hin). unfold is_digit_char in H. change (uc NUL) with 0 in H. lia. }
  unfold fmt_d. destruct (Z.ltb_spec n 0); [|apply Hu; lia].
  rewrite not_elem_of_cons. split; [done|apply Hu; lia].
Qed.

(** Writing a dynamic text anew. *)
Lemma redo_text pend apend s a n (name x y : cstr) : rel pend apend s a ->
  s_texts s !! n = Some (mk_text false (name ++ lit "=" ++ x)) ->
  (n = LINENO_TEXT /\ name = lit "LINENO") \/ (n = FUNCNAME_TEXT /\ name = lit "FUNCNAME") -> NUL ∉ y ->
  rel pend apend (set_texts <[n := mk_text false (name ++ lit "=" ++ y)]> s) a.
Proof.
  intros Hrel Hn Hwho Hy. change (set_texts _ s) with (upd s (s_vars s) (<[n := mk_text false (name ++ lit "=" ++ y)]> (s_texts s)) (s_next s)).
  destruct (i_static _ _ (r_inv _ _ _ _ Hrel)) as (_ & Hl & Hf).
  assert ("="%char ∉ name /\ NUL ∉ name /\ name <> []) as (He & Hnul & Hne).
  { destruct Hwho as [[_ ->]|[_ ->]]; (split; [by_eval|split; [by_eval|done]]). }
  apply retext_rel; [done|..|lia| |].
  - intros r m u Hm Hu. destruct (decide (m = n)) as [->|Hmn]; [|exists u; rewrite lookup_insert_ne by done; split; [done|apply similar_refl]].
    exists (mk_text false (name ++ lit "=" ++ y)). rewrite lookup_insert_eq. split; [done|].
    rewrite Hn in Hu. injection Hu as <-. split; cbn [t_heap t_chars].
    + done.
    + by rewrite !key_name by (done || by right).
    + intros _. rewrite !not_elem_of_app. split_and!; [done|by_eval|done].
    + rewrite !elem_of_app. split; intros _; right; left; left.
    + destruct Hwho as [[-> _]|[-> _]]; auto.
  - intros m Hm. apply lookup_insert_is_Some' in Hm as Hm'. apply (i_next _ _ (r_inv _ _ _ _ Hrel)). right.
    destruct Hm' as [<-|]; [by rewrite Hn|done].
  - destruct Hwho as [[-> ->]|[-> _]]; [rewrite lookup_insert_eq; by exists y|by rewrite lookup_insert_ne].
  - destruct Hwho as [[-> _]|[-> ->]]; [by rewrite lookup_insert_ne|rewrite lookup_insert_eq; by exists y].
Qed.

Lemma lookupvar_spec pend apend s a x : rel pend apend s a -> NUL ∉ x ->
  exists s', lookupvar x s = Ok s' (a_lookup a (key x)) /\ rel pend apend s' a.
Proof.
  intros Hrel Hx. unfold lookupvar, a_lookup. pose proof (findvar_spec _ _ _ _ _ Hrel Hx) as Hf.
  destruct (a_env a !! key x) as [e|]; [|destruct Hf as [Hf _]; rewrite (bind_run _ _ _ _ _ Hf); eauto].
  destruct Hf as (i & v & t & Hf & Hv & Ht & Hk & <-).
  rewrite (bind_run _ _ _ _ _ Hf), (bind_run _ _ _ _ _ (get_var_ok _ _ _ Hv)), has_VUNSET.
  cbn [fmap option_fmap option_map entry_of a_val]. unfold aval_of. destruct (Z.testbit (v_flags v) 5) eqn:E5; [eauto|].
  destruct (i_static _ _ (r_inv _ _ _ _ Hrel)) as (_ & (x1 & Hx1 & _) & (x2 & Hx2 & _)).
  destruct (Nat.eqb_spec (v_text v) LINENO_TEXT) as [El|Nl]; [|destruct (Nat.eqb_spec (v_text v) FUNCNAME_TEXT) as [Ef|Nf]].
  - eexists. split; [|apply (redo_text _ _ _ _ LINENO_TEXT (lit "LINENO") x1 (fmt_d (s_lineno s)) Hrel); [done|by left|apply fmt_d_nonul]].
    rewrite El. cbn -[fmt_d]. unfold bind, get, modify, get_text. cbn -[fmt_d]. rewrite lookup_insert_eq. cbn -[fmt_d].
    by rewrite (r_lineno _ _ _ _ Hrel).
  - eexists. split; [|apply (redo_text _ _ _ _ FUNCNAME_TEXT (lit "FUNCNAME") x2 (take 64 (default [] (s_funcname s))) Hrel); [done|by right|]].
    + rewrite Ef. unfold bind, get, modify, get_text. cbn -[take]. rewrite lookup_insert_eq. cbn -[take].
      by rewrite (r_func _ _ _ _ Hrel).
    + intros Hin. apply (i_funcname _ _ (r_inv _ _ _ _ Hrel)). rewrite <- (take_drop 64). apply elem_of_app. by left.
  - exists s. split; [|done]. rewrite (bind_run (ret tt) _ s s tt eq_refl), (bind_run _ _ _ _ _ (get_text_ok _ _ _ Ht)). done.
Qed.

(** ** Builtins *)

Lemma static_word pend apend s a x : rel pend apend s a -> NUL ∉ x ->
  exists s', static_text x s = Ok s' (s_next s) /\ rel pend apend s' a /\ word_ok pend s' (s_next s) x /\
    s_frames s' = s_frames s.
Proof.
  intros Hrel Hx. destruct (alloc_rel pend apend s a (mk_text false x) Hrel) as (Hrel' & Hno & Hst).
  eexists. split; [reflexivity|]. split; [exact Hrel'|]. split; [|done].
  split; [cbn; apply lookup_insert_eq|done|done|]. intros r. apply Hno.
Qed.

Lemma agree_for_each {A} (f : A -> Sh unit) (g : A -> Ab unit) l :
  (forall x s a, x ∈ l -> rel [] [] s a -> agree0 [] [] (f x s) (g x a)) ->
  forall s a, rel [] [] s a -> agree0 [] [] (for_each f l s) (for_each g l a).
Proof.
  induction l as [|x l IH]; intros H s a Hrel; [done|]. cbn [for_each].
  pose proof (H x s a ltac:(left) Hrel) as Hx. unfold agree, bind in *.
  destruct (f x s) as [s' []|s' e|], (g x a) as [a' []|a' e'|]; try done.
  apply IH; [|apply Hx]. intros y s1 a1 Hy. apply H. by right.
Qed.

(** The scope an operation runs in stays there, so that a sequence of local
    declarations stays inside one. *)
Lemma agree_for_each_frames {A} (f : A -> Sh unit) (g : A -> Ab unit) l :
  (forall x s a, x ∈ l -> rel [] [] s a -> s_frames s <> [] ->
    agree [] [] (fun _ _ => True) (f x s) (g x a) /\ forall s', f x s = Ok s' tt -> s_frames s' <> []) ->
  forall s a, rel [] [] s a -> s_frames s <> [] -> agree0 [] [] (for_each f l s) (for_each g l a).
Proof.
  induction l as [|x l IH]; intros H s a Hrel Hne; [done|]. cbn [for_each].
  destruct (H x s a ltac:(left) Hrel Hne) as [Hx Hf]. unfold agree, bind in *.
  destruct (f x s) as [s' []|s' e|] eqn:Ef, (g x a) as [a' []|a' e'|]; try done.
  apply IH; [|apply Hx|by apply Hf]. intros y s1 a1 Hy. apply H. by right.
Qed.

Lemma push_lv_frames lv s s' r : push_lv lv s = Ok s' r -> s_frames s' <> [].
Proof. unfold push_lv, bind, get. destruct (s_frames s); [done|]. intros [= <- _]. done. Qed.

Lemma bind_inv {S A B} (m : M S A) (k : A -> M S B) s s' b : bind m k s = Ok s' b ->
  exists s1 x, m s = Ok s1 x /\ k x s1 = Ok s' b.
Proof. apply bind_ok. Qed.

Lemma mklocal_frames s a n x fl s' : rel [] [] s a -> word_ok [] s n x -> plain fl -> Z.testbit fl 2 = false ->
  s_frames s <> [] -> mklocal n fl s = Ok s' tt -> s_frames s' <> [].
Proof.
  intros Hrel Hw Hp H2 Hne. pose proof (mklocal_spec s a n x fl Hrel Hw Hp H2 Hne) as Hs. intros Hm.
  rewrite Hm in Hs. unfold agree in Hs. destruct (a_mklocal _ _ _ a) as [a' []|a' e|] eqn:Ea; [|done|done].
  destruct Hs as [Hs _]. pose proof (Forall2_length _ _ _ (r_frames _ _ _ _ Hs)) as Hl.
  enough (a_frames a' <> []) as Hx by (intros E; rewrite E in Hl; by destruct (a_frames a')).
  pose proof (Forall2_length _ _ _ (r_frames _ _ _ _ Hrel)) as Hl0.
  assert (a_frames a <> []) as Hne0 by (intros E; rewrite E in Hl0; by destruct (s_frames s)).
  assert (forall k v e r f a1, a_frames a1 <> [] -> match a_set k v e r f a1 with Ok a2 _ => a_frames a2 <> [] | _ => True end) as Hset.
  { intros k v e r f a1 Ha1. pose proof (a_set_frames k v e r f a1) as H. unfold same_frames in H.
    destruct (a_set k v e r f a1); [by rewrite H|done..]. }
  assert (forall sv a1 a2, a_push sv a1 = Ok a2 tt -> a_frames a2 <> []) as Hpush.
  { intros sv a1 a2. unfold a_push, bind, get. destruct (a_frames a1); [done|]. intros [= <-]. done. }
  unfold a_mklocal in Ea. apply bind_inv in Ea as (a1 & fs & [= <- <-] & Ea). apply bind_inv in Ea as (a1 & f & Ef & Ea).
  destruct (a_frames a) eqn:Efr; [done|]. injection Ef as <- <-.
  destruct (existsb _ _).
  { case_bool_decide; [|by injection Ea as <-; rewrite Efr]. specialize (Hset (key x) (AVal (var_end x)) false false false a).
    rewrite Ea in Hset. apply Hset. by rewrite Efr. }
  case_bool_decide; [apply bind_inv in Ea as (a1 & o & [= <- <-] & Ea); by eapply Hpush|].
  apply bind_inv in Ea as (a1 & env & [= <- <-] & Ea). destruct (a_env a !! key x).
  - apply bind_inv in Ea as (a1 & [] & _ & Ea). apply bind_inv in Ea as (a2 & [] & _ & Ea). by eapply Hpush.
  - apply bind_inv in Ea as (a1 & [] & _ & Ea). by eapply Hpush.
Qed.

Lemma plain_0 : plain 0. Proof. intros k _. apply Z.bits_0. Qed.
Lemma plain_VEXPORT : plain VEXPORT. Proof. intros k Hk. change VEXPORT with (2 ^ 0). apply Z.pow2_bits_false. lia. Qed.
Lemma plain_VREADONLY : plain VREADONLY. Proof. intros k Hk. change VREADONLY with (2 ^ 1). apply Z.pow2_bits_false. lia. Qed.

Lemma localcmd_spec s a args : rel [] [] s a -> Forall (fun x => NUL ∉ x) args ->
  agree0 [] [] (localcmd args s) (a_localcmd args a).
Proof.
  intros Hrel Hargs. unfold localcmd, a_localcmd.
  rewrite (bind_run (get s_frames) _ s s _ eq_refl), (bind_run (get a_frames) _ a a _ eq_refl).
  pose proof (Forall2_length _ _ _ (r_frames _ _ _ _ Hrel)) as Hl.
  destruct (s_frames s) as [|f fs] eqn:Ef, (a_frames a) as [|af afs] eqn:Eaf; try done.
  { cbn. split; [|done]. rel_same Hrel. }
  apply agree_for_each_frames; [|done|by rewrite Ef]. intros x s1 a1 Hx Hrel1 Hne.
  rewrite Forall_forall in Hargs. destruct (static_word _ _ _ _ x Hrel1 (Hargs x Hx)) as (s2 & Hrun & Hrel2 & Hw & Hfr).
  rewrite (bind_run _ _ _ _ _ Hrun). split.
  - apply (mklocal_spec s2 a1 (s_next s1) x 0); try done; [apply plain_0|congruence].
  - intros s'. eapply mklocal_frames; try done; [apply plain_0|congruence].
Qed.

(** [setvar] as a step: the result is not looked at. *)
Lemma setvar_agree s a name val fl : rel [] [] s a -> NUL ∉ name -> (forall v, val = Some v -> NUL ∉ v) -> plain fl ->
  agree0 [] [] ((setvar name val fl ;; ret tt) s)
    (a_setvar name val (Z.testbit fl 0) (Z.testbit fl 1) (Z.testbit fl 2) a).
Proof.
  intros Hrel Hn Hv Hp. pose proof (setvar_spec [] [] s a name val fl Hrel Hn Hv Hp) as Hs. unfold sv_spec in Hs.
  set (sa := a_setvar _ _ _ _ _) in *. clearbody sa.
  unfold agree, bind. destruct (setvar name val fl s) as [s' r|s' e|], (sa a) as [a' []|a' e'|]; try done.
  by destruct Hs as (? & _).
Qed.

Lemma assign_word_spec s a vflags x : rel [] [] s a -> NUL ∉ x -> "="%char ∈ x -> plain vflags ->
  agree0 [] [] (assign_word false vflags x s)
    (a_set (key x) (AVal (var_end x)) (Z.testbit vflags 0) (Z.testbit vflags 1) (Z.testbit vflags 2) a).
Proof.
  intros Hrel Hx He Hp. unfold assign_word. destruct (static_word _ _ _ _ x Hrel Hx) as (s1 & Hrun & Hrel1 & Hw & _).
  rewrite (bind_run _ _ _ _ _ Hrun).
  pose proof (setvareq_spec [] [] s1 a _ (mk_text false x) vflags Hrel1 (word_arg _ _ _ _ _ Hw Hp He)) as Hs.
  cbn [t_chars] in Hs. rewrite plain_val in Hs by done. unfold set_spec in Hs. unfold agree, bind.
  set (sa := a_set _ _ _ _ _) in *. clearbody sa.
  destruct (setvareq _ _ s1) as [s' r|s' e|], (sa a) as [a' []|a' e'|]; try done.
  by destruct Hs as (? & _).
Qed.

Lemma strchr_split x c p : strchr x c = Some p -> exists l, x = l ++ p /\ p = c :: tail p.
Proof.
  induction x as [|b x IH]; [done|]. cbn [strchr]. destruct (Ascii.eqb_spec b c) as [->|_].
  - intros [= <-]. by exists [].
  - intros H. destruct (IH H) as (l & -> & Hp). by exists (b :: l).
Qed.

Lemma export_one_spec s a (readonly n : bool) x : rel [] [] s a -> NUL ∉ x ->
  agree0 [] [] (export_one (if readonly then VREADONLY else VEXPORT)
    (Z.lnot (if readonly then 0 else if n then VEXPORT else 0)) x s) (a_export_one readonly n x a).
Proof.
  intros Hrel Hx. unfold export_one, a_export_one. set (flag := if readonly then VREADONLY else VEXPORT).
  set (off := Z.lnot _). set (fl := Z.land flag off).
  assert (plain fl /\ Z.testbit fl 0 = negb readonly && negb n /\ Z.testbit fl 1 = readonly /\ Z.testbit fl 2 = false) as (Hp & H0 & H1 & H2).
  { unfold fl, flag, off. destruct readonly, n; (split; [|done]); first [exact plain_0|exact plain_VEXPORT|exact plain_VREADONLY]. }
  assert (forall val, (forall v, val = Some v -> NUL ∉ v) ->
    agree0 [] [] ((setvar x val fl ;; ret tt) s) (a_setvar x val (negb readonly && negb n) readonly false a)) as Hset.
  { intros val Hv. rewrite <- H0. pose proof (setvar_agree s a x val fl Hrel Hx Hv Hp) as Hs. by rewrite H1, H2 in Hs. }
  destruct (strchr x "=") as [p|] eqn:Ep.
  - apply Hset. intros v [= <-]. destruct (strchr_split _ _ _ Ep) as (l & -> & E).
    intros Hin. apply Hx. apply elem_of_app. right. rewrite E. by right.
  - rewrite (bind_run (get a_env) _ a a _ eq_refl). pose proof (findvar_spec [] [] s a x Hrel Hx) as Hf.
    destruct (a_env a !! key x) as [e|]; [|destruct Hf as [Hf _]; rewrite (bind_run _ _ _ _ _ Hf); by apply Hset].
    destruct Hf as (i & v & t & Hf & Hv & Ht & Hk & <-). rewrite (bind_run _ _ _ _ _ Hf), (bind_run _ _ _ _ _ (get_var_ok _ _ _ Hv)).
    unfold put_var, modify. split; [|done]. set (v' := mk_var _ _ _). pose proof (r_inv _ _ _ _ Hrel) as Hinv.
    destruct (i_var _ _ Hinv i v Hv) as (t1 & Ht1 & Hok). assert (t1 = t) as -> by congruence.
    assert (forall b, 2 <= b -> Z.testbit (v_flags v') b = Z.testbit (v_flags v) b) as Hb.
    { intros b Hb. cbn [v' v_flags]. unfold flag, off. rewrite Z.land_spec, Z.lor_spec, Z.lnot_spec by lia.
      change VREADONLY with (2 ^ 1). change VEXPORT with (2 ^ 0).
      destruct readonly; rewrite ?Z.pow2_bits_eqb by lia.
      - rewrite (proj2 (Z.eqb_neq 1 b)), Z.bits_0 by lia. by rewrite orb_false_r, andb_true_r.
      - destruct n; rewrite ?Z.pow2_bits_eqb, ?Z.bits_0, (proj2 (Z.eqb_neq 0 b)) by lia; by rewrite orb_false_r, andb_true_r. }
    assert (Z.testbit (v_flags v') 1 = readonly || Z.testbit (v_flags v) 1) as E1.
    { cbn [v' v_flags]. unfold flag, off. rewrite Z.land_spec, Z.lor_spec, Z.lnot_spec by lia.
      destruct readonly, n; cbn; by rewrite ?orb_true_r, ?orb_false_r, ?andb_true_r. }
    assert (Z.testbit (v_flags v') 0 = if readonly then Z.testbit (v_flags v) 0 else negb n) as E0.
    { cbn [v' v_flags]. unfold flag, off. rewrite Z.land_spec, Z.lor_spec, Z.lnot_spec by lia.
      destruct readonly, n; cbn; by rewrite ?orb_true_r, ?orb_false_r, ?andb_true_r, ?andb_false_r. }
    assert ((if readonly then set_ro true (entry_of (v_flags v) (v_text v) t (v_func v))
       else set_exp (negb n) (entry_of (v_flags v) (v_text v) t (v_func v))) = entry_of (v_flags v') (v_text v') t (v_func v)) as ->.
    { unfold set_ro, set_exp, entry_of, aval_of. cbn [a_exp a_ro a_fixed a_val a_func].
      rewrite E0, E1, !Hb by lia. by destruct readonly. }
    rewrite <- Hk. change (set_vars <[i := v']> s) with (upd s (<[i := v']> (s_vars s)) (s_texts s) (s_next s)).
    apply put_rel; try done.
    + destruct Hok. split; rewrite ?has_TEXTBITS in *; rewrite ?Hb by lia; done.
    + intros Hh r Hr Hr'. destruct Hr. eapply (i_refs _ _ Hinv); [exact Hr'| |exact Ht|done]. cbn. by rewrite Hv.
    + intros Hb2. left. rewrite Hb; [done|lia].
    + intros m Hm. apply (i_next _ _ Hinv). by right.
Qed.

Lemma for_each_frames {A} (f : A -> Ab unit) l : (forall x a, same_frames a (f x a)) ->
  forall a, same_frames a (for_each f l a).
Proof.
  intros Hf. induction l as [|x l IH]; intros a; [done|]. cbn [for_each]. specialize (Hf x a). unfold same_frames, bind in *.
  destruct (f x a) as [a1 []|a1 e|]; [|done|done]. specialize (IH a1). destruct (for_each f l a1); congruence.
Qed.

Lemma a_restore_frames sv a : same_frames a (a_restore sv a).
Proof.
  destruct sv as [o|k [e|]]; cbn [a_restore]; [done|unfold bind; by destruct (a_func e)|].
  unfold bind, modify. set (a1 := aset_env _ a). change (a_frames a) with (a_frames a1).
  unfold same_frames. change (a_frames a) with (a_frames a1).
  pose proof (a_declare_frames k false 0 0 a1) as H. exact H.
Qed.

Fixpoint a_unwind_loop (n : nat) : Ab unit :=
  match n with
  | O => ret tt
  | S n => a_poplocalvars ;; a_unwind_loop n
  end.
Definition a_unwindlocalvars (stop : nat) : Ab unit :=
  let! fs := get a_frames in a_unwind_loop (length fs - stop).

Lemma unwind_loop_spec n s a : rel [] [] s a -> (n <= length (s_frames s))%nat ->
  agree0 [] [] (unwind_loop n s) (a_unwind_loop n a).
Proof.
  revert s a. induction n as [|n IH]; intros s a Hrel Hn; [done|]. cbn [unwind_loop a_unwind_loop].
  assert (s_frames s <> []) as Hne by (intros E; rewrite E in Hn; cbn in Hn; lia).
  pose proof (poplocalvars_spec s a Hrel Hne) as Hs. unfold agree, bind in *.
  destruct (poplocalvars s) as [s' []|s' e|], (a_poplocalvars a) as [a' []|a' e'|] eqn:Ea; try done.
  destruct Hs as [Hs _]. apply IH; [done|].
  pose proof (Forall2_length _ _ _ (r_frames _ _ _ _ Hs)) as Hl. pose proof (Forall2_length _ _ _ (r_frames _ _ _ _ Hrel)) as Hl0.
  unfold a_poplocalvars in Ea. apply bind_inv in Ea as (a1 & fs & [= <- <-] & Ea).
  destruct (a_frames a) as [|af afs] eqn:Ef; [done|]. apply bind_inv in Ea as (a2 & [] & [= <-] & Ea).
  pose proof (for_each_frames a_restore af a_restore_frames (aset_frames afs a)) as H. rewrite Ea in H. cbn in H.
  rewrite H in Hl. cbn in Hl0. lia.
Qed.

Lemma unwindlocalvars_spec stop s a : rel [] [] s a ->
  agree0 [] [] (unwindlocalvars stop s) (a_unwindlocalvars stop a).
Proof.
  intros Hrel. unfold unwindlocalvars, a_unwindlocalvars.
  rewrite (bind_run (get s_frames) _ s s _ eq_refl), (bind_run (get a_frames) _ a a _ eq_refl).
  rewrite <- (Forall2_length _ _ _ (r_frames _ _ _ _ Hrel)). apply unwind_loop_spec; [done|lia].
Qed.

(** ** The shell's start *)

(** The map of a state without scopes. *)
Definition abs_entry (s : shvars) (p : nat * var) : option (cstr * aentry) :=
  t ← s_texts s !! v_text p.2; Some (key (t_chars t), entry_of (v_flags p.2) (v_text p.2) t (v_func p.2)).
Definition abs (s : shvars) : astate :=
  mk_astate (list_to_map (omap (abs_entry s) (map_to_list (s_vars s)))) [] (s_optlist s) (s_exitstatus s)
    (s_lineno s) (s_funcname s) (s_paths s).

Lemma abs_rel s : inv [] s -> s_frames s = [] -> rel [] [] s (abs s).
Proof.
  intros Hinv Hf. split; try done; [|rewrite Hf; constructor].
  intros k e. cbn [abs a_env]. rewrite <- elem_of_list_to_map.
  - rewrite list_elem_of_omap. split.
    + intros ([i v] & Hi & He). apply elem_of_map_to_list in Hi. unfold abs_entry in He. cbn in He.
      destruct (s_texts s !! v_text v) as [t|] eqn:Et; [|done]. injection He as <- <-. eauto 8.
    + intros (i & v & t & Hv & Ht & Hk & He). exists (i, v). split; [by apply elem_of_map_to_list|].
      unfold abs_entry. cbn [snd]. subst. by rewrite Ht.
  - assert (forall l, NoDup (fst <$> l) -> (forall p, p ∈ l -> s_vars s !! p.1 = Some p.2) ->
      NoDup (fst <$> omap (abs_entry s) l)) as Hnd.
    { induction l as [|[i v] l IH]; intros Hnd Hl; [constructor|]. cbn in Hnd. apply NoDup_cons in Hnd as [Hni Hnd].
      cbn. unfold abs_entry at 1. cbn. pose proof (Hl (i, v) ltac:(left)) as Hv. cbn in Hv.
      assert (NoDup (fst <$> omap (abs_entry s) l)) as IH' by (apply IH; [done|]; intros p Hp; apply Hl; by right).
      destruct (i_var _ _ Hinv i v Hv) as (t & Ht & _). rewrite Ht. cbn. apply NoDup_cons. split; [|done].
      intros Hin. apply list_elem_of_fmap in Hin as ([k' e'] & E & Hin). cbn in E. apply list_elem_of_omap in Hin as ([j w] & Hj & He).
      unfold abs_entry in He. cbn in He. destruct (s_texts s !! v_text w) as [u|] eqn:Eu; [|done]. injection He as Ek _.
      apply Hni. apply list_elem_of_fmap. exists (j, w). split; [|done]. cbn.
      pose proof (Hl (j, w) ltac:(by right)) as Hw. cbn in Hw. eapply (i_uniq _ _ Hinv); [done..|congruence]. }
    apply Hnd; [apply NoDup_fst_map_to_list|]. intros [i v] Hi. by apply elem_of_map_to_list.
Qed.

(** The state [initvar] builds, spelled out. *)
Definition init_flags (k : nat) : Z := if (k =? 7)%nat then 44 else 12.
Definition init_text (root : bool) (path : cstr) (k : nat) : cstr :=
  match k with
  | 0 => lit "IFS= " ++ [TAB; NL] | 1 => lit "PATH=" ++ path
  | 2 => lit "PS1=" ++ lit (if root then "# " else "$ ") | 3 => lit "PS2=> " | 4 => lit "PS4=+ "
  | 5 => lit "LINENO=" | 6 => lit "FUNCNAME=" | _ => lit "HISTFILE"
  end%nat.
Definition init_name (k : nat) : cstr :=
  match k with
  | 0 => lit "IFS" | 1 => lit "PATH" | 2 => lit "PS1" | 3 => lit "PS2" | 4 => lit "PS4"
  | 5 => lit "LINENO" | 6 => lit "FUNCNAME" | _ => lit "HISTFILE"
  end%nat.

Ltac cases8 i := destruct i as [|[|[|[|[|[|[|[|i]]]]]]]].

Lemma init_key root path k : (k < 8)%nat -> key (init_text root path k) = init_name k.
Proof. intros Hk. do 8 (destruct k as [|k]; [reflexivity|]). lia. Qed.

Definition init_step (root : bool) (path : cstr) (k : nat) (s : shvars) : shvars :=
  set_tab (alter (cons k) (hashvar (init_name k)))
    (set_vars <[k := mk_var (init_flags k) k (k =? 1)%nat]> (set_texts <[k := mk_text false (init_text root path k)]> s)).

Definition init_state (root : bool) (path : cstr) : shvars :=
  foldr (init_step root path) zero_state [7; 6; 5; 4; 3; 2; 1; 0]%nat.

Lemma initvar_loop_cons k l s root path : (k < 8)%nat ->
  initvar_loop k ((init_flags k, init_text root path k, (k =? 1)%nat) :: l) s = initvar_loop (S k) l (init_step root path k s).
Proof.
  intros Hk. unfold init_step. rewrite <- (init_key root path k Hk), <- hashvar_key. reflexivity.
Qed.

Lemma initvar_state root path : initvar root path zero_state = Ok (init_state root path) tt.
Proof.
  assert (varinit root path = map (fun k => (init_flags k, init_text root path k, (k =? 1)%nat)) (seq 0 8)) as E by reflexivity.
  unfold initvar. rewrite E. cbn [seq map]. rewrite !initvar_loop_cons by lia. reflexivity.
Qed.

Lemma init_vars_lookup root path i v : s_vars (init_state root path) !! i = Some v ->
  (i < 8)%nat /\ v = mk_var (init_flags i) i (i =? 1)%nat.
Proof.
  cbn -[init_flags lookup insert]. intros H.
  repeat (apply lookup_insert_Some in H as [[<- <-]|[_ H]]; [split; [lia|done]|]). by rewrite lookup_empty in H.
Qed.

Lemma init_texts_lookup root path i t : s_texts (init_state root path) !! i = Some t ->
  (i < 8)%nat /\ t = mk_text false (init_text root path i).
Proof.
  cbn -[init_text lookup insert]. intros H.
  repeat (apply lookup_insert_Some in H as [[<- <-]|[_ H]]; [split; [lia|done]|]). by rewrite lookup_empty in H.
Qed.

Lemma init_live root path i : (i < 8)%nat ->
  s_vars (init_state root path) !! i = Some (mk_var (init_flags i) i (i =? 1)%nat) /\
  s_texts (init_state root path) !! i = Some (mk_text false (init_text root path i)).
Proof. intros Hi. do 8 (destruct i as [|i]; [split; reflexivity|]). lia. Qed.

Lemma init_bucket_out root path b : (39 <= b)%nat -> bucket b (init_state root path) = [].
Proof.
  intros Hb. assert (length (s_tab (init_state root path)) = 39%nat) as E by reflexivity.
  unfold bucket. by rewrite lookup_ge_None_2 by (rewrite E; lia).
Qed.

Lemma init_bucket_list root path b : (b < 39)%nat ->
  bucket b (init_state root path) = filter (fun j => hashvar (init_name j) = b) (seq 0 8).
Proof.
  intros Hb. change (bucket b (init_state root path)) with (bucket b (init_state false [])).
  assert (forallb (fun b => bool_decide (bucket b (init_state false []) = filter (fun j => hashvar (init_name j) = b) (seq 0 8)))
    (seq 0 39) = true) as H by (vm_compute; reflexivity).
  rewrite forallb_forall in H. specialize (H b). rewrite in_seq, bool_decide_eq_true in H. apply H. lia.
Qed.

Lemma init_bucket root path b i : i ∈ bucket b (init_state root path) <-> (i < 8)%nat /\ b = hashvar (init_name i).
Proof.
  destruct (decide (b < 39)%nat).
  - rewrite init_bucket_list, list_elem_of_filter, list_elem_of_In, in_seq by done. intuition lia.
  - rewrite init_bucket_out by lia. split; [intros H; by apply elem_of_nil in H|].
    intros [_ ->]. pose proof (hashvar_lt (init_name i)). lia.
Qed.

Lemma init_inv root path : NUL ∉ path -> inv [] (init_state root path).
Proof.
  intros Hpath. split; try done.
  - intros b i Hi. apply init_bucket in Hi as [Hi _]. by rewrite (proj1 (init_live root path i Hi)).
  - intros i v Hv. apply init_vars_lookup in Hv as [Hi ->]. exists (mk_text false (init_text root path i)).
    split; [by apply init_live|]. split; cbn [t_heap t_chars v_flags].
    + cases8 i; try by_eval; [cbn [init_text]; rewrite not_elem_of_app; split; [by_eval|done]|destruct root; by_eval].
    + intros H. cases8 i; discriminate H.
    + cases8 i; intros H; try discriminate H; try lia; cbn [init_text]; by_eval.
    + cases8 i; intros H; try discriminate H. split; [by_eval|done].
  - intros i v t b Hv Ht. apply init_vars_lookup in Hv as [Hi ->]. apply init_texts_lookup in Ht as [_ ->].
    cbn [t_chars v_text]. rewrite init_bucket, (hashvar_key (init_text root path i)), init_key by done. tauto.
  - intros b. destruct (decide (b < 39)%nat); [|rewrite init_bucket_out by lia; constructor].
    rewrite init_bucket_list by done. apply NoDup_filter, NoDup_ListNoDup, seq_NoDup.
  - intros i j v w t u Hv Ht Hw Hu. apply init_vars_lookup in Hv as [Hi ->], Hw as [Hj ->].
    apply init_texts_lookup in Ht as [_ ->], Hu as [_ ->]. cbn [t_chars v_text]. rewrite !init_key by done.
    intros Hn. cases8 i; cases8 j; try lia; discriminate Hn.
  - intros r1 r2 n t _ _ Ht. apply init_texts_lookup in Ht as [_ ->]. done.
  - intros i fl n Hl. by apply elem_of_nil in Hl.
  - intros i [[v Hv]|[t Ht]]; [by apply init_vars_lookup in Hv as [? _]|by apply init_texts_lookup in Ht as [? _]].
  - intros i v t Hv Ht Hf. apply init_vars_lookup in Hv as [Hi ->]. apply init_texts_lookup in Ht as [_ ->].
    cbn [t_chars v_text v_func] in *. apply Nat.eqb_eq in Hf as ->. reflexivity.
  - by apply not_elem_of_nil.
  - split; [exact (le_n 8)|]. split; exists []; (split; [reflexivity|by apply not_elem_of_nil]).
Qed.

(** Nothing is read-only while the shell starts. *)
Definition no_ro (a : astate) : Prop := forall k e, a_env a !! k = Some e -> a_ro e = false.

Lemma a_set_no_ro k v e f a : no_ro a -> exists a', a_set k v e false f a = Ok a' tt /\ no_ro a'.
Proof.
  intros Hn. unfold a_set. cbn. destruct (a_env a !! k) as [en|] eqn:E.
  - rewrite (Hn k en E). unfold bind.
    assert (forall a1 : astate, a_env a1 = a_env a -> exists a',
      (if is_unset v && negb (e || a_aflag a) && true && negb f && negb (a_fixed en)
       then modify (aset_env (delete k))
       else modify (aset_env <[k := mk_entry (e || a_aflag a || a_exp en) false (f || a_fixed en) v (a_func en)]>)) a1 = Ok a' tt /\ no_ro a') as H.
    { intros a1 E1. destruct (_ && _); (eexists; split; [reflexivity|]); intros j ej; cbn; rewrite E1; intros Hj.
      - apply lookup_delete_Some in Hj as [_ Hj]. eauto.
      - apply lookup_insert_Some in Hj as [[_ <-]|[_ Hj]]; [done|eauto]. }
    destruct (a_func en); cbn; by apply H.
  - destruct (_ && _); [by exists a|]. eexists. split; [reflexivity|]. intros j ej. cbn. intros Hj.
    apply lookup_insert_Some in Hj as [[_ <-]|[_ Hj]]; [done|eauto].
Qed.

(** Setting a variable to a static text. *)
Lemma set_static s a x fl : rel [] [] s a -> no_ro a -> NUL ∉ x -> "="%char ∈ x ->
  fl = Z.lor VEXPORT VTEXTFIXED \/ fl = VTEXTFIXED ->
  exists s' a', (let! t := static_text x in setvareq t fl ;; ret tt) s = Ok s' tt /\ rel [] [] s' a' /\ no_ro a' /\
    s_frames s' = s_frames s.
Proof.
  intros Hrel Hno Hx He Hfl. destruct (static_word [] [] s a x Hrel Hx) as (s1 & Hrun & Hrel1 & Hw & Hfr).
  rewrite (bind_run _ _ _ _ _ Hrun).
  assert (arg_ok [] s1 (s_next s) (mk_text false x) fl) as Harg.
  { destruct Hw. destruct Hfl as [-> | ->]; by split. }
  pose proof (setvareq_spec [] [] s1 a (s_next s) (mk_text false x) fl Hrel1 Harg) as Hs.
  assert (Z.testbit fl 1 = false) as E1 by (by destruct Hfl as [-> | ->]). rewrite E1 in Hs.
  destruct (a_set_no_ro (key (t_chars (mk_text false x))) (arg_val fl (t_chars (mk_text false x))) (Z.testbit fl 0) (Z.testbit fl 2) a Hno)
    as (a' & Ea & Hno'). rewrite Ea in Hs. unfold set_spec in Hs. unfold bind.
  destruct (setvareq _ fl s1) as [s' r|s' e|]; [|done|done]. exists s', a'. destruct Hs as (? & Hf & _). split_and!; try done. congruence.
Qed.

Lemma init_vars_spec root path environ ppid : NUL ∉ path -> Forall (fun e => NUL ∉ e) environ -> 0 <= ppid ->
  exists s a, init_vars root path environ ppid zero_state = Ok s tt /\ rel [] [] s a /\ s_frames s = [].
Proof.
  intros Hpath Henv Hpid. unfold init_vars. rewrite (bind_run _ _ _ _ _ (initvar_state root path)).
  assert (exists a, rel [] [] (init_state root path) a /\ no_ro a) as (a0 & Hrel0 & Hno0).
  { exists (abs (init_state root path)). assert (rel [] [] (init_state root path) (abs (init_state root path))) as Hr.
    { apply abs_rel; [by apply init_inv|done]. }
    split; [done|]. intros k e He. apply (r_env _ _ _ _ Hr) in He as (i & v & t & Hv & _ & _ & <-).
    apply init_vars_lookup in Hv as [_ ->]. unfold init_flags. cbn. by destruct (i =? 7)%nat. }
  match goal with |- context [for_each ?g environ] => set (f := g) end.
  assert (forall s a, rel [] [] s a -> no_ro a -> exists s' a', for_each f environ s = Ok s' tt /\ rel [] [] s' a' /\ no_ro a' /\
    s_frames s' = s_frames s) as Hloop.
  { clear Hrel0 Hno0. induction Henv as [|e l He Hl IH]; intros s a Hrel Hno; [by exists s, a|]. cbn [for_each].
    assert (exists s' a', f e s = Ok s' tt /\ rel [] [] s' a' /\ no_ro a' /\ s_frames s' = s_frames s) as (s' & a' & Hrun & Hrel' & Hno' & Hf').
    { unfold f. pose proof (strchr_eq e) as Hc. destruct (strchr e "="); [|by exists s, a].
      symmetry in Hc. apply bool_decide_eq_true in Hc. eapply set_static; try done. by left. }
    rewrite (bind_run _ _ _ _ _ Hrun). destruct (IH s' a' Hrel' Hno') as (s2 & a2 & ? & ? & ? & ?).
    exists s2, a2. split_and!; try done. congruence. }
  destruct (Hloop _ _ Hrel0 Hno0) as (s1 & a1 & Hrun & Hrel1 & Hno1 & Hf1). rewrite (bind_run _ _ _ _ _ Hrun).
  destruct (set_static s1 a1 defifsvar VTEXTFIXED Hrel1 Hno1 ltac:(by_eval) ltac:(by_eval) (or_intror eq_refl))
    as (s2 & a2 & Hrun2 & Hrel2 & Hno2 & Hf2).
  destruct (set_static s2 a2 (lit "OPTIND=1") VTEXTFIXED Hrel2 Hno2 ltac:(by_eval) ltac:(by_eval) (or_intror eq_refl))
    as (s3 & a3 & Hrun3 & Hrel3 & Hno3 & Hf3).
  rewrite (bind_run _ _ _ _ _ Hrun2), (bind_run _ _ _ _ _ Hrun3). unfold setvar0.
  assert (forall v, Some (fmt_u ppid) = Some v -> NUL ∉ v) as Hv.
  { intros v [= <-]. pose proof (fmt_d_nonul ppid) as Hd. unfold fmt_d in Hd. by rewrite (proj2 (Z.ltb_ge ppid 0)) in Hd by lia. }
  pose proof (setvar_spec [] [] s3 a3 (lit "PPID") (Some (fmt_u ppid)) 0 Hrel3 ltac:(by_eval) Hv plain_0) as Hs. unfold sv_spec in Hs.
  destruct (a_set_no_ro (lit "PPID") (AVal (fmt_u ppid)) false false a3 Hno3) as (a4 & Ea & _).
  assert (a_setvar (lit "PPID") (Some (fmt_u ppid)) (Z.testbit 0 0) (Z.testbit 0 1) (Z.testbit 0 2) a3 = Ok a4 tt) as Eset by exact Ea.
  rewrite Eset in Hs. unfold bind.
  destruct (setvar _ _ 0 s3) as [s4 r|s4 e|]; [|done|done]. exists s4, a4. destruct Hs as (? & Hf & _).
  split_and!; [done|done|]. by rewrite Hf, Hf3, Hf2, Hf1.
Qed.

(** ** Sequences of operations *)

Inductive op :=
  | OLookup (x : cstr)                          (* lookupvar *)
  | OSetvar (name : cstr) (val : option cstr) (flags : Z)
  | OAssign (vflags : Z) (x : cstr)             (* an assignment word *)
  | OPush                                       (* pushlocalvars(1) *)
  | OLocal (args : list cstr)                   (* the "local" builtin *)
  | OUnwind (stop : nat)                        (* unwindlocalvars *)
  | OExport (readonly n : bool) (names : list cstr).

Definition run_op (o : op) : Sh (option cstr) :=
  match o with
  | OLookup x => lookupvar x
  | OSetvar name val flags => setvar name val flags ;; ret None
  | OAssign vflags x => assign_word false vflags x ;; ret None
  | OPush => pushlocalvars ;; ret None
  | OLocal args => localcmd args ;; ret None
  | OUnwind stop => unwindlocalvars stop ;; ret None
  | OExport readonly n names => exportcmd readonly n names ;; ret None
  end.

Definition a_run_op (o : op) : Ab (option cstr) :=
  match o with
  | OLookup x => fun a => Ok a (a_lookup a (key x))
  | OSetvar name val fl => a_setvar name val (Z.testbit fl 0) (Z.testbit fl 1) (Z.testbit fl 2) ;; ret None
  | OAssign fl x => a_set (key x) (AVal (var_end x)) (Z.testbit fl 0) (Z.testbit fl 1) (Z.testbit fl 2) ;; ret None
  | OPush => a_pushlocalvars ;; ret None
  | OLocal args => a_localcmd args ;; ret None
  | OUnwind stop => a_unwindlocalvars stop ;; ret None
  | OExport readonly n names => a_exportcmd readonly n names ;; ret None
  end.

(** The strings are C strings, the flags those the callers use, an assignment
    word holds "=". *)
Definition op_ok (o : op) : Prop :=
  match o with
  | OLookup x => NUL ∉ x
  | OSetvar name val fl => NUL ∉ name /\ (forall v, val = Some v -> NUL ∉ v) /\ plain fl
  | OAssign fl x => NUL ∉ x /\ "="%char ∈ x /\ plain fl
  | OLocal args => Forall (fun x => NUL ∉ x) args
  | OExport _ _ names => Forall (fun x => NUL ∉ x) names
  | OPush | OUnwind _ => True
  end.

(** Each operation's result: what a lookup finds, or the exception raised; the
    shell goes on after an exception (the interactive command loop does). *)
Definition run_all {S} (f : op -> M S (option cstr)) : list op -> S -> option (S * list (exn + option cstr)) :=
  fix go l s :=
    match l with
    | [] => Some (s, [])
    | o :: l =>
        match f o s with
        | Ok s r => match go l s with Some (s', obs) => Some (s', inr r :: obs) | None => None end
        | Raise s e => match go l s with Some (s', obs) => Some (s', inl e :: obs) | None => None end
        | Wild => None
        end
    end.

Lemma agree_none {A B} s a (m : Sh A) (m' : Ab B) : agree0 [] [] (m s) (m' a) ->
  agree [] [] eq ((m ;; ret (@None cstr)) s) ((m' ;; ret None) a).
Proof. unfold agree, bind. destruct (m s), (m' a); try done. by intros [? _]. Qed.

Lemma op_spec o s a : rel [] [] s a -> op_ok o -> agree [] [] eq (run_op o s) (a_run_op o a).
Proof.
  intros Hrel Hok. destruct o as [x|name val fl|fl x| |args|stop|ro n names]; cbn [run_op a_run_op op_ok] in *.
  - destruct (lookupvar_spec _ _ _ _ x Hrel Hok) as (s' & -> & Hr). done.
  - destruct Hok as (Hn & Hv & Hp). apply (agree_none s a (setvar name val fl)).
    pose proof (setvar_agree s a name val fl Hrel Hn Hv Hp) as Hs. unfold agree, bind in *.
    by destruct (setvar name val fl s).
  - destruct Hok as (Hx & He & Hp). by apply agree_none, assign_word_spec.
  - by apply agree_none, pushlocalvars_spec.
  - by apply agree_none, localcmd_spec.
  - by apply agree_none, unwindlocalvars_spec.
  - apply agree_none. unfold exportcmd, a_exportcmd. apply agree_for_each; [|done]. intros x s1 a1 Hx Hr.
    apply export_one_spec; [done|]. rewrite Forall_forall in Hok. auto.
Qed.

Lemma run_all_spec ops s a : rel [] [] s a -> Forall op_ok ops ->
  exists s' a' obs, run_all run_op ops s = Some (s', obs) /\ run_all a_run_op ops a = Some (a', obs) /\ rel [] [] s' a'.
Proof.
  revert s a. induction ops as [|o ops IH]; intros s a Hrel Hok; [by exists s, a, []|].
  apply Forall_cons in Hok as [Ho Hok]. pose proof (op_spec o s a Hrel Ho) as Hs. cbn [run_all]. unfold agree in Hs.
  destruct (run_op o s) as [s1 r|s1 e|], (a_run_op o a) as [a1 r'|a1 e'|]; try done; destruct Hs as [Hr <-];
    destruct (IH s1 a1 Hr Hok) as (s' & a' & obs & E & E' & Hr'); cbn [run_all] in E, E'; rewrite E, E'; eauto 6.
Qed.

(** C3. The variable table implements a map with scopes: from the shell's start
    with any PATH and environment, any sequence of lookups, assignments,
    settings, scope entries, "local" declarations, scope exits, "export" and
    "readonly" gives exactly the values and the errors of the abstract machine,
    whose state is a map and a stack of saved entries; no struct or text is
    used after it was freed, or freed twice, on the way. *)
Theorem vars_refine_scopes (root : bool) (path : cstr) (environ : list cstr) (ppid : Z) (ops : list op) :
  NUL ∉ path -> Forall (fun e => NUL ∉ e) environ -> 0 <= ppid -> Forall op_ok ops ->
  exists s0 s a obs, init_vars root path environ ppid zero_state = Ok s0 tt /\
    run_all run_op ops s0 = Some (s, obs) /\
    run_all a_run_op ops (abs s0) = Some (a, obs) /\ rel [] [] s a.
Proof.
  intros Hp He Hpid Hops. destruct (init_vars_spec root path environ ppid Hp He Hpid) as (s0 & a0 & E & Hr0 & Hf0).
  destruct (run_all_spec ops s0 (abs s0)) as (s & a & obs & ? & ? & ?); [|done|by exists s0, s, a, obs].
  apply abs_rel; [apply Hr0|done].
Qed.

(** A function declares x and y local, sets x, fails to set a read-only
    variable, and returns. *)
Definition scope_demo : list op :=
  [ OAssign 0 (lit "x=out"); OPush; OLocal [lit "x"; lit "y=in"]; OAssign 0 (lit "x=loc");
    OLookup (lit "x"); OLookup (lit "y"); OExport true false [lit "PATH"]; OAssign 0 (lit "PATH=/tmp");
    OUnwind 0; OLookup (lit "x"); OLookup (lit "y"); OLookup (lit "HOME") ].

Example scope_demo_run :
  (let! _ := init_vars true (lit "/bin") [lit "HOME=/root"] 1 in
   fun s => match run_all run_op scope_demo s with Some (s, obs) => Ok s obs | None => Wild end) zero_state
  = match init_vars true (lit "/bin") [lit "HOME=/root"] 1 zero_state with
    | Ok s _ => match run_all run_op scope_demo s with
                | Some (s, _) => Ok s
                    [inr None; inr None; inr None; inr None; inr (Some (lit "loc")); inr (Some (lit "in"));
                     inr None; inl (EXERROR (lit "PATH: is read only")); inr None;
                     inr (Some (lit "out")); inr None; inr (Some (lit "/root"))]
                | None => Wild end
    | _ => Wild end.
Proof. vm_compute. reflexivity. Qed.

Lemma vars_refine_scopes_witness : exists s0 s a obs,
  init_vars true (lit "/bin") [lit "HOME=/root"] 1 zero_state = Ok s0 tt /\
  run_all run_op scope_demo s0 = Some (s, obs) /\
  run_all a_run_op scope_demo (abs s0) = Some (a, obs) /\ rel [] [] s a.
Proof.
  apply (vars_refine_scopes true (lit "/bin") [lit "HOME=/root"] 1 scope_demo).
  - by_eval.
  - repeat constructor; by_eval.
  - lia.
  - unfold scope_demo. repeat constructor; try by_eval; try (intros k Hk; do 9 (destruct k as [|k|]; try by_eval)); cbn [op_ok].
    all: try (split; [by_eval|]; split; [by_eval|exact plain_0]).
Defined.

(** A name that is no identifier is accepted by "local NAME=VALUE", but the
    scope exit raises an error on it, before the variables declared earlier in
    the same scope are restored: x keeps its local value. *)
Definition bad_local : list op :=
  [ OAssign 0 (lit "x=out"); OPush; OLocal [lit "x=loc"; lit "a-b=2"]; OUnwind 0; OLookup (lit "x") ].

Example local_bad_name_leaks :
  match init_vars true (lit "/bin") [] 1 zero_state with
  | Ok s _ => snd <$> run_all run_op bad_local s
  | _ => None
  end = Some [inr None; inr None; inr None; inl (EXERROR (lit "a-b: bad variable name")); inr (Some (lit "loc"))].
Proof. vm_compute. reflexivity. Qed.
