(* ===== verification/AshInput.v ===== *)
(** * shell/ash.c: parse trees and the parser's input

    The nodes of the parse tree, the parser's global variables, and the input
    layer under it: a stack of files and strings, strings pushed back, and up to
    two characters "ungot".  A character read is an [ichar]: [None] is PEOF.
    Reading a descriptor is the environment's part: the list of buffers its
    reads deliver is given.  Aliases are not configured; memory that is only
    freed later ([spfree]) is not observed, nor is the -v echo of the input. *)

From Stdlib Require Import Ascii String ZArith Lia.
From stdpp Require Import base gmap list strings.
From S2P Require Import Prelude Clib LibbbStr.

Local Open Scope Z_scope.

(** ** Parse trees *)

Definition CTLESC : ascii := "129"%char.
Definition CTLVAR : ascii := "130"%char.
Definition CTLENDVAR : ascii := "131"%char.
Definition CTLBACKQ : ascii := "132"%char.
Definition CTLARI : ascii := "134"%char.
Definition CTLENDARI : ascii := "135"%char.
Definition CTLQUOTEMARK : ascii := "136"%char.

Definition VSTYPE : Z := 0x0f.
Definition VSNUL : Z := 0x10.
Definition VSNORMAL : Z := 0x1.
Definition VSMINUS : Z := 0x2.
Definition VSPLUS : Z := 0x3.
Definition VSQUESTION : Z := 0x4.
Definition VSASSIGN : Z := 0x5.
Definition VSTRIMRIGHT : Z := 0x6.
Definition VSTRIMRIGHTMAX : Z := 0x7.
Definition VSTRIMLEFT : Z := 0x8.
Definition VSTRIMLEFTMAX : Z := 0x9.
Definition VSLENGTH : Z := 0xa.

Definition dolatstr : cstr := [CTLQUOTEMARK; CTLVAR; chr VSNORMAL; "@"%char; "="%char; CTLQUOTEMARK].

(** The types of [struct nfile] and of [struct ndup]. *)
Inductive ftype := NTO | NCLOBBER | NFROM | NFROMTO | NAPPEND.
Inductive dtype := NTOFD | NFROMFD.

(** [union node]; the chains of NARG, NCLIST and redirection nodes are lists.
    [Null] and [NODE_EOF] are the pointers that point to no node.  The text of a
    here document is set long after its node was made: the node holds the
    address of a [hdoc]. *)
Inductive node :=
  | Null
  | NODE_EOF
  | NCMD (linno : Z) (assign args : list arg) (redirect : list redir)
  | NPIPE (backgnd : bool) (cmdlist : list node)
  | NREDIR (linno : Z) (n : node) (redirect : list redir)
  | NBACKGND (linno : Z) (n : node) (redirect : list redir)
  | NSUBSHELL (linno : Z) (n : node) (redirect : list redir)
  | NAND (ch1 ch2 : node)
  | NOR (ch1 ch2 : node)
  | NSEMI (ch1 ch2 : node)
  | NIF (test ifpart elsepart : node)
  | NWHILE (ch1 ch2 : node)
  | NUNTIL (ch1 ch2 : node)
  | NFOR (linno : Z) (args : list arg) (body : node) (var : cstr)
  | NCASE (linno : Z) (expr : arg) (cases : list nclist)
  | NDEFUN (linno : Z) (text : cstr) (body : node)
  | NNOT (com : node)
with arg := NARG (text : cstr) (backquote : list node)
with redir :=
  | NFILE (type : ftype) (fd : Z) (fname : option arg)
  | NDUP (type : dtype) (fd dupfd : Z) (vname : option arg)
  | NHERE_AT (fd : Z) (here : nat)
with nclist := NCLIST (pattern : list arg) (body : node).

(** A here document's node: NHERE (as it stands) or NXHERE (to be expanded),
    and its text once it was read. *)
Record hdoc := mk_hdoc { h_expand : bool; h_doc : option arg }.

(** ** Tokens *)

Inductive token :=
  | TEOF | TNL | TREDIR | TWORD | TSEMI | TBACKGND | TAND | TOR | TPIPE | TLP | TRP
  | TENDCASE | TENDBQUOTE | TNOT | TCASE | TDO | TDONE | TELIF | TELSE | TESAC | TFI
  | TFOR | TIF | TIN | TTHEN | TUNTIL | TWHILE | TBEGIN | TEND.

#[export] Instance token_eq_dec : EqDecision token.
Proof. solve_decision. Defined.

(** [struct heredoc], less its link. *)
Record heredoc := mk_heredoc { hd_here : nat; hd_eofmark : cstr; hd_striptabs : bool }.

(** ** Input *)

Abbreviation ichar := (option ascii).

Record strpush := mk_sp {
  sp_string : cstr; sp_left_in_line : Z; sp_unget : nat; sp_lastc : ichar * ichar
}.

(** [struct parsefile]: [f_next] is the text from [next_to_pgetc] to the end of
    its buffer or string; [f_buf] says whether there is a buffer, [f_reads] what
    reading the descriptor will deliver. *)
Record parsefile := mk_pf {
  f_linno : Z;
  f_fd : Z;
  f_left_in_line : Z;
  f_left_in_buffer : Z;
  f_next : cstr;
  f_buf : bool;
  f_strpush : list strpush;
  f_unget : nat;
  f_lastc : ichar * ichar;
  f_reads : list cstr;
}.

Record pstate := mk_ps {
  p_file : parsefile;          (* *g_parsefile *)
  p_prev : list parsefile;     (* the files below it, basepf the last *)
  p_checkkwd : Z;
  p_tokpushback : bool;
  p_quoteflag : bool;
  p_lasttoken : token;
  p_heredoclist : list heredoc;
  p_wordtext : cstr;
  p_backquotelist : list node;
  p_redirnode : redir;
  p_heredoc : heredoc;
  p_docs : gmap nat hdoc;      (* the nodes of here documents *)
  p_ndocs : nat;
  p_doprompt : bool;
  p_needprompt : bool;
  p_prompt : nat;              (* the last prompt shown: 1 is PS1, 2 is PS2 *)
  p_trap_depth : Z;
  p_lineno : Z;
  p_errlinno : Z;
  p_exitstatus : Z;
}.

Definition set_file v s := mk_ps v (p_prev s) (p_checkkwd s) (p_tokpushback s) (p_quoteflag s) (p_lasttoken s)
  (p_heredoclist s) (p_wordtext s) (p_backquotelist s) (p_redirnode s) (p_heredoc s) (p_docs s) (p_ndocs s)
  (p_doprompt s) (p_needprompt s) (p_prompt s) (p_trap_depth s) (p_lineno s) (p_errlinno s) (p_exitstatus s).
Definition set_prev v s := mk_ps (p_file s) v (p_checkkwd s) (p_tokpushback s) (p_quoteflag s) (p_lasttoken s)
  (p_heredoclist s) (p_wordtext s) (p_backquotelist s) (p_redirnode s) (p_heredoc s) (p_docs s) (p_ndocs s)
  (p_doprompt s) (p_needprompt s) (p_prompt s) (p_trap_depth s) (p_lineno s) (p_errlinno s) (p_exitstatus s).
Definition set_checkkwd v s := mk_ps (p_file s) (p_prev s) v (p_tokpushback s) (p_quoteflag s) (p_lasttoken s)
  (p_heredoclist s) (p_wordtext s) (p_backquotelist s) (p_redirnode s) (p_heredoc s) (p_docs s) (p_ndocs s)
  (p_doprompt s) (p_needprompt s) (p_prompt s) (p_trap_depth s) (p_lineno s) (p_errlinno s) (p_exitstatus s).
Definition set_tokpushback v s := mk_ps (p_file s) (p_prev s) (p_checkkwd s) v (p_quoteflag s) (p_lasttoken s)
  (p_heredoclist s) (p_wordtext s) (p_backquotelist s) (p_redirnode s) (p_heredoc s) (p_docs s) (p_ndocs s)
  (p_doprompt s) (p_needprompt s) (p_prompt s) (p_trap_depth s) (p_lineno s) (p_errlinno s) (p_exitstatus s).
Definition set_quoteflag v s := mk_ps (p_file s) (p_prev s) (p_checkkwd s) (p_tokpushback s) v (p_lasttoken s)
  (p_heredoclist s) (p_wordtext s) (p_backquotelist s) (p_redirnode s) (p_heredoc s) (p_docs s) (p_ndocs s)
  (p_doprompt s) (p_needprompt s) (p_prompt s) (p_trap_depth s) (p_lineno s) (p_errlinno s) (p_exitstatus s).
Definition set_lasttoken v s := mk_ps (p_file s) (p_prev s) (p_checkkwd s) (p_tokpushback s) (p_quoteflag s) v
  (p_heredoclist s) (p_wordtext s) (p_backquotelist s) (p_redirnode s) (p_heredoc s) (p_docs s) (p_ndocs s)
  (p_doprompt s) (p_needprompt s) (p_prompt s) (p_trap_depth s) (p_lineno s) (p_errlinno s) (p_exitstatus s).
Definition set_heredoclist v s := mk_ps (p_file s) (p_prev s) (p_checkkwd s) (p_tokpushback s) (p_quoteflag s)
  (p_lasttoken s) v (p_wordtext s) (p_backquotelist s) (p_redirnode s) (p_heredoc s) (p_docs s) (p_ndocs s)
  (p_doprompt s) (p_needprompt s) (p_prompt s) (p_trap_depth s) (p_lineno s) (p_errlinno s) (p_exitstatus s).
Definition set_wordtext v s := mk_ps (p_file s) (p_prev s) (p_checkkwd s) (p_tokpushback s) (p_quoteflag s)
  (p_lasttoken s) (p_heredoclist s) v (p_backquotelist s) (p_redirnode s) (p_heredoc s) (p_docs s) (p_ndocs s)
  (p_doprompt s) (p_needprompt s) (p_prompt s) (p_trap_depth s) (p_lineno s) (p_errlinno s) (p_exitstatus s).
Definition set_backquotelist v s := mk_ps (p_file s) (p_prev s) (p_checkkwd s) (p_tokpushback s) (p_quoteflag
  s) (p_lasttoken s) (p_heredoclist s) (p_wordtext s) v (p_redirnode s) (p_heredoc s) (p_docs s) (p_ndocs s)
  (p_doprompt s) (p_needprompt s) (p_prompt s) (p_trap_depth s) (p_lineno s) (p_errlinno s) (p_exitstatus s).
Definition set_redirnode v s := mk_ps (p_file s) (p_prev s) (p_checkkwd s) (p_tokpushback s) (p_quoteflag s)
  (p_lasttoken s) (p_heredoclist s) (p_wordtext s) (p_backquotelist s) v (p_heredoc s) (p_docs s) (p_ndocs s)
  (p_doprompt s) (p_needprompt s) (p_prompt s) (p_trap_depth s) (p_lineno s) (p_errlinno s) (p_exitstatus s).
Definition set_heredoc v s := mk_ps (p_file s) (p_prev s) (p_checkkwd s) (p_tokpushback s) (p_quoteflag s)
  (p_lasttoken s) (p_heredoclist s) (p_wordtext s) (p_backquotelist s) (p_redirnode s) v (p_docs s) (p_ndocs
  s) (p_doprompt s) (p_needprompt s) (p_prompt s) (p_trap_depth s) (p_lineno s) (p_errlinno s) (p_exitstatus
  s).
Definition set_doprompt v s := mk_ps (p_file s) (p_prev s) (p_checkkwd s) (p_tokpushback s) (p_quoteflag s)
  (p_lasttoken s) (p_heredoclist s) (p_wordtext s) (p_backquotelist s) (p_redirnode s) (p_heredoc s) (p_docs
  s) (p_ndocs s) v (p_needprompt s) (p_prompt s) (p_trap_depth s) (p_lineno s) (p_errlinno s) (p_exitstatus
  s).
Definition set_needprompt v s := mk_ps (p_file s) (p_prev s) (p_checkkwd s) (p_tokpushback s) (p_quoteflag s)
  (p_lasttoken s) (p_heredoclist s) (p_wordtext s) (p_backquotelist s) (p_redirnode s) (p_heredoc s) (p_docs
  s) (p_ndocs s) (p_doprompt s) v (p_prompt s) (p_trap_depth s) (p_lineno s) (p_errlinno s) (p_exitstatus s).
Definition set_prompt v s := mk_ps (p_file s) (p_prev s) (p_checkkwd s) (p_tokpushback s) (p_quoteflag s)
  (p_lasttoken s) (p_heredoclist s) (p_wordtext s) (p_backquotelist s) (p_redirnode s) (p_heredoc s) (p_docs
  s) (p_ndocs s) (p_doprompt s) (p_needprompt s) v (p_trap_depth s) (p_lineno s) (p_errlinno s) (p_exitstatus
  s).
Definition set_errlinno v s := mk_ps (p_file s) (p_prev s) (p_checkkwd s) (p_tokpushback s) (p_quoteflag s)
  (p_lasttoken s) (p_heredoclist s) (p_wordtext s) (p_backquotelist s) (p_redirnode s) (p_heredoc s) (p_docs
  s) (p_ndocs s) (p_doprompt s) (p_needprompt s) (p_prompt s) (p_trap_depth s) (p_lineno s) v (p_exitstatus
  s).
Definition set_exitstatus v s := mk_ps (p_file s) (p_prev s) (p_checkkwd s) (p_tokpushback s) (p_quoteflag s)
  (p_lasttoken s) (p_heredoclist s) (p_wordtext s) (p_backquotelist s) (p_redirnode s) (p_heredoc s) (p_docs
  s) (p_ndocs s) (p_doprompt s) (p_needprompt s) (p_prompt s) (p_trap_depth s) (p_lineno s) (p_errlinno s) v.
Definition set_docs d n s := mk_ps (p_file s) (p_prev s) (p_checkkwd s) (p_tokpushback s) (p_quoteflag s)
  (p_lasttoken s) (p_heredoclist s) (p_wordtext s) (p_backquotelist s) (p_redirnode s) (p_heredoc s) d n
  (p_doprompt s) (p_needprompt s) (p_prompt s) (p_trap_depth s) (p_lineno s) (p_errlinno s) (p_exitstatus s).

(** ** Computations of the parser *)

(** A result: a value, a syntax error (its message), not enough fuel, or a
    pointer that points to nothing. *)
Inductive pres (A : Type) :=
  | POk (s : pstate) (a : A)
  | PErr (s : pstate) (msg : cstr)
  | PFuel
  | PWild.
Arguments POk {A} s a.
Arguments PErr {A} s msg.
Arguments PFuel {A}.
Arguments PWild {A}.

Definition P (A : Type) : Type := pstate -> pres A.

#[export] Instance P_ret : MRet P := fun A a s => POk s a.
#[export] Instance P_bind : MBind P := fun A B k m s =>
  match m s with
  | POk s a => k a s
  | PErr s msg => PErr s msg
  | PFuel => PFuel
  | PWild => PWild
  end.

Definition get {A} (f : pstate -> A) : P A := fun s => POk s (f s).
Definition modify (f : pstate -> pstate) : P unit := fun s => POk (f s) tt.
Definition pfuel {A} : P A := fun _ => PFuel.
Definition pwild {A} : P A := fun _ => PWild.

(** A loop: [body] continues with a new state ([inl]) or ends. *)
Fixpoint loop {A B} (body : A -> P (A + B)) (fuel : nat) (a : A) : P B :=
  match fuel with
  | O => pfuel
  | S n => r ← body a; match r with inl a => loop body n a | inr b => mret b end
  end.

(** [raise_error_syntax] *)
Definition raise_error_syntax {A} (msg : cstr) : P A := fun s =>
  PErr (set_exitstatus 2 (set_errlinno (f_linno (p_file s)) s)) (lit "syntax error: " ++ msg).

(** ** Prompts *)

Definition setprompt_if (do_set : bool) (whichprompt : nat) : P unit :=
  if do_set then modify (fun s => set_prompt whichprompt (set_needprompt false s)) else mret tt.

Definition f_set_linno n f := mk_pf n (f_fd f) (f_left_in_line f) (f_left_in_buffer f) (f_next f) (f_buf f)
  (f_strpush f) (f_unget f) (f_lastc f) (f_reads f).
Definition f_set_unget n f := mk_pf (f_linno f) (f_fd f) (f_left_in_line f) (f_left_in_buffer f) (f_next f)
  (f_buf f) (f_strpush f) n (f_lastc f) (f_reads f).
Definition f_set_left n f := mk_pf (f_linno f) (f_fd f) n (f_left_in_buffer f) (f_next f) (f_buf f)
  (f_strpush f) (f_unget f) (f_lastc f) (f_reads f).
Definition f_set_next l r f := mk_pf (f_linno f) (f_fd f) l (f_left_in_buffer f) r (f_buf f) (f_strpush f)
  (f_unget f) (f_lastc f) (f_reads f).
Definition f_set_lastc c f := mk_pf (f_linno f) (f_fd f) (f_left_in_line f) (f_left_in_buffer f) (f_next f)
  (f_buf f) (f_strpush f) (f_unget f) c (f_reads f).
Definition f_set_buffer l b r rs f := mk_pf (f_linno f) (f_fd f) l b r (f_buf f) (f_strpush f) (f_unget f)
  (f_lastc f) rs.

Definition file_modify (g : parsefile -> parsefile) : P unit := modify (fun s => set_file (g (p_file s)) s).

(** [if (trap_depth == 0) g_parsefile->linno++;] *)
Definition next_line : P unit := fun s =>
  POk (if p_trap_depth s =? 0 then set_file (f_set_linno (f_linno (p_file s) + 1) (p_file s)) s else s) tt.

Definition nlprompt : P unit := next_line;; d ← get p_doprompt; setprompt_if d 2.
Definition nlnoprompt : P unit := next_line;; d ← get p_doprompt; modify (set_needprompt d).

(** ** Reading characters *)

Definition pushstring (x : cstr) : P unit := file_modify (fun f =>
  mk_pf (f_linno f) (f_fd f) (Z.of_nat (length x)) (f_left_in_buffer f) x (f_buf f)
    (mk_sp (f_next f) (f_left_in_line f) (f_unget f) (f_lastc f) :: f_strpush f) 0 (f_lastc f) (f_reads f)).

Definition popstring (sp : strpush) (rest : list strpush) : P unit := file_modify (fun f =>
  mk_pf (f_linno f) (f_fd f) (sp_left_in_line sp) (f_left_in_buffer f) (sp_string sp) (f_buf f) rest
    (sp_unget sp) (sp_lastc sp) (f_reads f)).

(** The next line of a buffer without its NUL characters, and what follows it. *)
Fixpoint cut_line (b : cstr) : cstr * cstr :=
  match b with
  | [] => ([], [])
  | c :: b =>
      if c ≟ NUL then cut_line b
      else if c ≟ NL then ([c], b)
      else let '(l, r) := cut_line b in (c :: l, r)
  end.

(** The line taken from the buffer [b] and what follows it; while there is
    none, buffers are read (an empty one is the end of the file or an error).
    The last component is what later reads will deliver. *)
Fixpoint read_line (b : cstr) (reads : list cstr) : option (cstr * cstr) * list cstr :=
  match cut_line b with
  | ([], _) => match reads with
               | [] => (None, [])
               | b :: reads => if bool_decide (b = []) then (None, reads) else read_line b reads
               end
  | (l, r) => (Some (l, r), reads)
  end.

(** What is left in the buffer: [left_in_buffer] characters. *)
Definition buffered (f : parsefile) : cstr := if f_left_in_buffer f <=? 0 then [] else f_next f.

(** [preadbuffer] without pushed strings. *)
Definition preadbuffer : P ichar := fun s =>
  let f := p_file s in
  if f_buf f then
    match read_line (buffered f) (f_reads f) with
    | (None, reads) => POk (set_file (f_set_buffer 0 0 [] reads f) s) None
    | (Some (l, r), reads) =>
        let left := Z.of_nat (length l) - 1 in
        POk (set_file (f_set_buffer left (Z.of_nat (length r)) (tail l ++ r) reads f) s) (head l)
    end
  else POk s None.

Definition lastc_at (f : parsefile) (u : nat) : option ichar :=
  match u with 0%nat => Some (fst (f_lastc f)) | 1%nat => Some (snd (f_lastc f)) | _ => None end.

(** [__pgetc]; [pushed] is the number of strings pushed back, which bounds the
    recursion through [preadbuffer] and [popstring]. *)
Fixpoint pgetc_ (pushed : nat) : P ichar :=
  f ← get p_file;
  match f_unget f with
  | S u =>
      match lastc_at f u with
      | Some c => file_modify (f_set_unget u);; mret c
      | None => pwild
      end
  | O =>
      file_modify (f_set_left (f_left_in_line f - 1));;
      c ← (if 0 <=? f_left_in_line f - 1 then
             match f_next f with
             | c :: r => file_modify (f_set_next (f_left_in_line f - 1) r);; mret (Some c)
             | [] => pwild
             end
           else match f_strpush f, pushed with
                | sp :: rest, S n => popstring sp rest;; pgetc_ n
                | sp :: rest, O => pfuel
                | [], _ => preadbuffer
                end);
      file_modify (fun f => f_set_lastc (c, fst (f_lastc f)) f);;
      mret c
  end.

Definition pgetc : P ichar := f ← get p_file; pgetc_ (length (f_strpush f)).

Definition pungetc : P unit := file_modify (fun f => f_set_unget (S (f_unget f)) f).

Definition is_char (c : ichar) (a : ascii) : bool := match c with Some b => b ≟ a | None => false end.

Definition eatbnl_body (_ : unit) : P (unit + ichar) :=
  c ← pgetc;
  if is_char c "\" then
    d ← pgetc;
    if is_char d NL then nlprompt;; mret (inl tt) else pungetc;; mret (inr c)
  else mret (inr c).
Definition pgetc_eatbnl (fuel : nat) : P ichar := loop eatbnl_body fuel tt.

(** ** The stack of files *)

Definition pushfile : P unit := modify (fun s =>
  set_file (mk_pf 0 (-1) 0 0 [] false [] 0 (Some NUL, Some NUL) []) (set_prev (p_file s :: p_prev s) s)).

(** [basepf], the last file, is never popped. *)
Definition popfile : P unit := modify (fun s =>
  match p_prev s with
  | [] => s
  | f :: fs => set_file f (set_prev fs s)
  end).

Definition setinputstring (x : cstr) : P unit :=
  pushfile;;
  modify (fun s => set_file (mk_pf (p_lineno s) (-1) (Z.of_nat (length x)) 0 x false [] 0
    (Some NUL, Some NUL) []) s).

(** [setinputfd] of a descriptor whose reads will deliver [reads]. *)
Definition setinputfd (fd : Z) (reads : list cstr) (push : bool) : P unit :=
  (if push then pushfile else mret tt);;
  file_modify (fun f => mk_pf 1 fd 0 0 (f_next f) true (f_strpush f) (f_unget f) (f_lastc f) reads).

(** [unwindfiles(stop)]; [stop] has [n] files below it. *)
Fixpoint unwindfiles (n k : nat) : P unit :=
  match k with
  | O => mret tt
  | S k => s ← get (fun s => length (p_prev s));
           if (s =? n)%nat then mret tt else popfile;; unwindfiles n k
  end.
Definition popallfiles : P unit := s ← get p_prev; unwindfiles 0 (length s).
