(* ===== verification/AshLex.v ===== *)
(** * shell/ash.c: the tokenizer

    [readtoken1] (a word, a redirection operator or a here document),
    [xxreadtoken], [readtoken] and [parseheredoc], as configured: no bash
    extensions, no aliases.  [readtoken1]'s "subroutines" (checkend, parsesub,
    parsebackq, parsearith, parseredir) are definitions on its local variables
    [lex].  Command substitutions call back into the parser: the callees are a
    parameter [procs], tied in AshParse. *)

From Stdlib Require Import Ascii String ZArith Lia.
From stdpp Require Import base gmap list strings.
From S2P Require Import Prelude Clib LibbbStr LibbbNum AshInput.

Local Open Scope Z_scope.

(** ** Syntax classes *)

Inductive synclass :=
  | CWORD | CNL | CBACK | CSQUOTE | CDQUOTE | CENDQUOTE | CBQUOTE | CVAR | CENDVAR | CLP | CRP
  | CENDFILE | CCTL | CSPCL.

Inductive syntaxid := BASESYNTAX | DQSYNTAX | SQSYNTAX | ARISYNTAX.

#[export] Instance synclass_eq_dec : EqDecision synclass.
Proof. solve_decision. Defined.
#[export] Instance syntaxid_eq_dec : EqDecision syntaxid.
Proof. solve_decision. Defined.

Inductive sitem :=
  | CSPCL_CWORD_CWORD_CWORD | CNL_CNL_CNL_CNL | CWORD_CCTL_CCTL_CWORD
  | CDQUOTE_CENDQUOTE_CWORD_CWORD | CVAR_CVAR_CWORD_CVAR | CSQUOTE_CWORD_CENDQUOTE_CWORD
  | CSPCL_CWORD_CWORD_CLP | CSPCL_CWORD_CWORD_CRP | CBACK_CBACK_CCTL_CBACK
  | CBQUOTE_CBQUOTE_CWORD_CBQUOTE | CENDVAR_CENDVAR_CWORD_CENDVAR
  | CENDFILE_CENDFILE_CENDFILE_CENDFILE | CWORD_CWORD_CWORD_CWORD | CCTL_CCTL_CCTL_CCTL.

Definition SIT_ITEM (a b c d : synclass) (s : syntaxid) : synclass :=
  match s with BASESYNTAX => a | DQSYNTAX => b | SQSYNTAX => c | ARISYNTAX => d end.

Definition S_I_T (i : sitem) : syntaxid -> synclass :=
  match i with
  | CSPCL_CWORD_CWORD_CWORD => SIT_ITEM CSPCL CWORD CWORD CWORD
  | CNL_CNL_CNL_CNL => SIT_ITEM CNL CNL CNL CNL
  | CWORD_CCTL_CCTL_CWORD => SIT_ITEM CWORD CCTL CCTL CWORD
  | CDQUOTE_CENDQUOTE_CWORD_CWORD => SIT_ITEM CDQUOTE CENDQUOTE CWORD CWORD
  | CVAR_CVAR_CWORD_CVAR => SIT_ITEM CVAR CVAR CWORD CVAR
  | CSQUOTE_CWORD_CENDQUOTE_CWORD => SIT_ITEM CSQUOTE CWORD CENDQUOTE CWORD
  | CSPCL_CWORD_CWORD_CLP => SIT_ITEM CSPCL CWORD CWORD CLP
  | CSPCL_CWORD_CWORD_CRP => SIT_ITEM CSPCL CWORD CWORD CRP
  | CBACK_CBACK_CCTL_CBACK => SIT_ITEM CBACK CBACK CCTL CBACK
  | CBQUOTE_CBQUOTE_CWORD_CBQUOTE => SIT_ITEM CBQUOTE CBQUOTE CWORD CBQUOTE
  | CENDVAR_CENDVAR_CWORD_CENDVAR => SIT_ITEM CENDVAR CENDVAR CWORD CENDVAR
  | CENDFILE_CENDFILE_CENDFILE_CENDFILE => SIT_ITEM CENDFILE CENDFILE CENDFILE CENDFILE
  | CWORD_CWORD_CWORD_CWORD => SIT_ITEM CWORD CWORD CWORD CWORD
  | CCTL_CCTL_CCTL_CCTL => SIT_ITEM CCTL CCTL CCTL CCTL
  end.

(** [syntax_index_table], entries 0 to 127. *)
Definition syntax_index_lo : list sitem :=
  [ CWORD_CWORD_CWORD_CWORD; CWORD_CWORD_CWORD_CWORD; CWORD_CWORD_CWORD_CWORD;
    CWORD_CWORD_CWORD_CWORD; CWORD_CWORD_CWORD_CWORD; CWORD_CWORD_CWORD_CWORD;
    CWORD_CWORD_CWORD_CWORD; CWORD_CWORD_CWORD_CWORD; CWORD_CWORD_CWORD_CWORD;
    CSPCL_CWORD_CWORD_CWORD; CNL_CNL_CNL_CNL; CWORD_CWORD_CWORD_CWORD;
    CWORD_CWORD_CWORD_CWORD; CWORD_CWORD_CWORD_CWORD; CWORD_CWORD_CWORD_CWORD;
    CWORD_CWORD_CWORD_CWORD; CWORD_CWORD_CWORD_CWORD; CWORD_CWORD_CWORD_CWORD;
    CWORD_CWORD_CWORD_CWORD; CWORD_CWORD_CWORD_CWORD; CWORD_CWORD_CWORD_CWORD;
    CWORD_CWORD_CWORD_CWORD; CWORD_CWORD_CWORD_CWORD; CWORD_CWORD_CWORD_CWORD;
    CWORD_CWORD_CWORD_CWORD; CWORD_CWORD_CWORD_CWORD; CWORD_CWORD_CWORD_CWORD;
    CWORD_CWORD_CWORD_CWORD; CWORD_CWORD_CWORD_CWORD; CWORD_CWORD_CWORD_CWORD;
    CWORD_CWORD_CWORD_CWORD; CWORD_CWORD_CWORD_CWORD; CSPCL_CWORD_CWORD_CWORD;
    CWORD_CCTL_CCTL_CWORD; CDQUOTE_CENDQUOTE_CWORD_CWORD; CWORD_CWORD_CWORD_CWORD;
    CVAR_CVAR_CWORD_CVAR; CWORD_CWORD_CWORD_CWORD; CSPCL_CWORD_CWORD_CWORD;
    CSQUOTE_CWORD_CENDQUOTE_CWORD; CSPCL_CWORD_CWORD_CLP; CSPCL_CWORD_CWORD_CRP;
    CWORD_CCTL_CCTL_CWORD; CWORD_CWORD_CWORD_CWORD; CWORD_CWORD_CWORD_CWORD;
    CWORD_CCTL_CCTL_CWORD; CWORD_CWORD_CWORD_CWORD; CWORD_CWORD_CWORD_CWORD;
    CWORD_CWORD_CWORD_CWORD; CWORD_CWORD_CWORD_CWORD; CWORD_CWORD_CWORD_CWORD;
    CWORD_CWORD_CWORD_CWORD; CWORD_CWORD_CWORD_CWORD; CWORD_CWORD_CWORD_CWORD;
    CWORD_CWORD_CWORD_CWORD; CWORD_CWORD_CWORD_CWORD; CWORD_CWORD_CWORD_CWORD;
    CWORD_CWORD_CWORD_CWORD; CWORD_CCTL_CCTL_CWORD; CSPCL_CWORD_CWORD_CWORD;
    CSPCL_CWORD_CWORD_CWORD; CWORD_CCTL_CCTL_CWORD; CSPCL_CWORD_CWORD_CWORD;
    CWORD_CCTL_CCTL_CWORD; CWORD_CWORD_CWORD_CWORD; CWORD_CWORD_CWORD_CWORD;
    CWORD_CWORD_CWORD_CWORD; CWORD_CWORD_CWORD_CWORD; CWORD_CWORD_CWORD_CWORD;
    CWORD_CWORD_CWORD_CWORD; CWORD_CWORD_CWORD_CWORD; CWORD_CWORD_CWORD_CWORD;
    CWORD_CWORD_CWORD_CWORD; CWORD_CWORD_CWORD_CWORD; CWORD_CWORD_CWORD_CWORD;
    CWORD_CWORD_CWORD_CWORD; CWORD_CWORD_CWORD_CWORD; CWORD_CWORD_CWORD_CWORD;
    CWORD_CWORD_CWORD_CWORD; CWORD_CWORD_CWORD_CWORD; CWORD_CWORD_CWORD_CWORD;
    CWORD_CWORD_CWORD_CWORD; CWORD_CWORD_CWORD_CWORD; CWORD_CWORD_CWORD_CWORD;
    CWORD_CWORD_CWORD_CWORD; CWORD_CWORD_CWORD_CWORD; CWORD_CWORD_CWORD_CWORD;
    CWORD_CWORD_CWORD_CWORD; CWORD_CWORD_CWORD_CWORD; CWORD_CWORD_CWORD_CWORD;
    CWORD_CWORD_CWORD_CWORD; CWORD_CCTL_CCTL_CWORD; CBACK_CBACK_CCTL_CBACK;
    CWORD_CCTL_CCTL_CWORD; CWORD_CWORD_CWORD_CWORD; CWORD_CWORD_CWORD_CWORD;
    CBQUOTE_CBQUOTE_CWORD_CBQUOTE; CWORD_CWORD_CWORD_CWORD; CWORD_CWORD_CWORD_CWORD;
    CWORD_CWORD_CWORD_CWORD; CWORD_CWORD_CWORD_CWORD; CWORD_CWORD_CWORD_CWORD;
    CWORD_CWORD_CWORD_CWORD; CWORD_CWORD_CWORD_CWORD; CWORD_CWORD_CWORD_CWORD;
    CWORD_CWORD_CWORD_CWORD; CWORD_CWORD_CWORD_CWORD; CWORD_CWORD_CWORD_CWORD;
    CWORD_CWORD_CWORD_CWORD; CWORD_CWORD_CWORD_CWORD; CWORD_CWORD_CWORD_CWORD;
    CWORD_CWORD_CWORD_CWORD; CWORD_CWORD_CWORD_CWORD; CWORD_CWORD_CWORD_CWORD;
    CWORD_CWORD_CWORD_CWORD; CWORD_CWORD_CWORD_CWORD; CWORD_CWORD_CWORD_CWORD;
    CWORD_CWORD_CWORD_CWORD; CWORD_CWORD_CWORD_CWORD; CWORD_CWORD_CWORD_CWORD;
    CWORD_CWORD_CWORD_CWORD; CWORD_CWORD_CWORD_CWORD; CWORD_CWORD_CWORD_CWORD;
    CWORD_CWORD_CWORD_CWORD; CSPCL_CWORD_CWORD_CWORD; CENDVAR_CENDVAR_CWORD_CENDVAR;
    CWORD_CCTL_CCTL_CWORD; CWORD_CWORD_CWORD_CWORD ].

(** Entries 128 to 255, and PEOF. *)
Definition syntax_index_hi : list sitem :=
  [ CWORD_CWORD_CWORD_CWORD; CCTL_CCTL_CCTL_CCTL; CCTL_CCTL_CCTL_CCTL;
    CCTL_CCTL_CCTL_CCTL; CCTL_CCTL_CCTL_CCTL; CCTL_CCTL_CCTL_CCTL;
    CCTL_CCTL_CCTL_CCTL; CCTL_CCTL_CCTL_CCTL; CCTL_CCTL_CCTL_CCTL;
    CWORD_CWORD_CWORD_CWORD; CWORD_CWORD_CWORD_CWORD; CWORD_CWORD_CWORD_CWORD;
    CWORD_CWORD_CWORD_CWORD; CWORD_CWORD_CWORD_CWORD; CWORD_CWORD_CWORD_CWORD;
    CWORD_CWORD_CWORD_CWORD; CWORD_CWORD_CWORD_CWORD; CWORD_CWORD_CWORD_CWORD;
    CWORD_CWORD_CWORD_CWORD; CWORD_CWORD_CWORD_CWORD; CWORD_CWORD_CWORD_CWORD;
    CWORD_CWORD_CWORD_CWORD; CWORD_CWORD_CWORD_CWORD; CWORD_CWORD_CWORD_CWORD;
    CWORD_CWORD_CWORD_CWORD; CWORD_CWORD_CWORD_CWORD; CWORD_CWORD_CWORD_CWORD;
    CWORD_CWORD_CWORD_CWORD; CWORD_CWORD_CWORD_CWORD; CWORD_CWORD_CWORD_CWORD;
    CWORD_CWORD_CWORD_CWORD; CWORD_CWORD_CWORD_CWORD; CWORD_CWORD_CWORD_CWORD;
    CWORD_CWORD_CWORD_CWORD; CWORD_CWORD_CWORD_CWORD; CWORD_CWORD_CWORD_CWORD;
    CWORD_CWORD_CWORD_CWORD; CWORD_CWORD_CWORD_CWORD; CWORD_CWORD_CWORD_CWORD;
    CWORD_CWORD_CWORD_CWORD; CWORD_CWORD_CWORD_CWORD; CWORD_CWORD_CWORD_CWORD;
    CWORD_CWORD_CWORD_CWORD; CWORD_CWORD_CWORD_CWORD; CWORD_CWORD_CWORD_CWORD;
    CWORD_CWORD_CWORD_CWORD; CWORD_CWORD_CWORD_CWORD; CWORD_CWORD_CWORD_CWORD;
    CWORD_CWORD_CWORD_CWORD; CWORD_CWORD_CWORD_CWORD; CWORD_CWORD_CWORD_CWORD;
    CWORD_CWORD_CWORD_CWORD; CWORD_CWORD_CWORD_CWORD; CWORD_CWORD_CWORD_CWORD;
    CWORD_CWORD_CWORD_CWORD; CWORD_CWORD_CWORD_CWORD; CWORD_CWORD_CWORD_CWORD;
    CWORD_CWORD_CWORD_CWORD; CWORD_CWORD_CWORD_CWORD; CWORD_CWORD_CWORD_CWORD;
    CWORD_CWORD_CWORD_CWORD; CWORD_CWORD_CWORD_CWORD; CWORD_CWORD_CWORD_CWORD;
    CWORD_CWORD_CWORD_CWORD; CWORD_CWORD_CWORD_CWORD; CWORD_CWORD_CWORD_CWORD;
    CWORD_CWORD_CWORD_CWORD; CWORD_CWORD_CWORD_CWORD; CWORD_CWORD_CWORD_CWORD;
    CWORD_CWORD_CWORD_CWORD; CWORD_CWORD_CWORD_CWORD; CWORD_CWORD_CWORD_CWORD;
    CWORD_CWORD_CWORD_CWORD; CWORD_CWORD_CWORD_CWORD; CWORD_CWORD_CWORD_CWORD;
    CWORD_CWORD_CWORD_CWORD; CWORD_CWORD_CWORD_CWORD; CWORD_CWORD_CWORD_CWORD;
    CWORD_CWORD_CWORD_CWORD; CWORD_CWORD_CWORD_CWORD; CWORD_CWORD_CWORD_CWORD;
    CWORD_CWORD_CWORD_CWORD; CWORD_CWORD_CWORD_CWORD; CWORD_CWORD_CWORD_CWORD;
    CWORD_CWORD_CWORD_CWORD; CWORD_CWORD_CWORD_CWORD; CWORD_CWORD_CWORD_CWORD;
    CWORD_CWORD_CWORD_CWORD; CWORD_CWORD_CWORD_CWORD; CWORD_CWORD_CWORD_CWORD;
    CWORD_CWORD_CWORD_CWORD; CWORD_CWORD_CWORD_CWORD; CWORD_CWORD_CWORD_CWORD;
    CWORD_CWORD_CWORD_CWORD; CWORD_CWORD_CWORD_CWORD; CWORD_CWORD_CWORD_CWORD;
    CWORD_CWORD_CWORD_CWORD; CWORD_CWORD_CWORD_CWORD; CWORD_CWORD_CWORD_CWORD;
    CWORD_CWORD_CWORD_CWORD; CWORD_CWORD_CWORD_CWORD; CWORD_CWORD_CWORD_CWORD;
    CWORD_CWORD_CWORD_CWORD; CWORD_CWORD_CWORD_CWORD; CWORD_CWORD_CWORD_CWORD;
    CWORD_CWORD_CWORD_CWORD; CWORD_CWORD_CWORD_CWORD; CWORD_CWORD_CWORD_CWORD;
    CWORD_CWORD_CWORD_CWORD; CWORD_CWORD_CWORD_CWORD; CWORD_CWORD_CWORD_CWORD;
    CWORD_CWORD_CWORD_CWORD; CWORD_CWORD_CWORD_CWORD; CWORD_CWORD_CWORD_CWORD;
    CWORD_CWORD_CWORD_CWORD; CWORD_CWORD_CWORD_CWORD; CWORD_CWORD_CWORD_CWORD;
    CWORD_CWORD_CWORD_CWORD; CWORD_CWORD_CWORD_CWORD; CWORD_CWORD_CWORD_CWORD;
    CWORD_CWORD_CWORD_CWORD; CWORD_CWORD_CWORD_CWORD; CWORD_CWORD_CWORD_CWORD;
    CWORD_CWORD_CWORD_CWORD; CWORD_CWORD_CWORD_CWORD; CWORD_CWORD_CWORD_CWORD;
    CWORD_CWORD_CWORD_CWORD; CWORD_CWORD_CWORD_CWORD; CENDFILE_CENDFILE_CENDFILE_CENDFILE ].

Definition syntax_index_table : list sitem := syntax_index_lo ++ syntax_index_hi.

Definition SIT (c : ichar) (syntax : syntaxid) : synclass :=
  let i := match c with Some a => Z.to_nat (uc a) | None => 256%nat end in
  S_I_T (nth i syntax_index_table CENDFILE_CENDFILE_CENDFILE_CENDFILE) syntax.

(** ** Tokens *)

Definition tokname_array : list (token * cstr) :=
  [ (TEOF, lit "end of file"); (TNL, lit "newline"); (TREDIR, lit "redirection"); (TWORD, lit "word");
    (TSEMI, lit ";"); (TBACKGND, lit "&"); (TAND, lit "&&"); (TOR, lit "||"); (TPIPE, lit "|");
    (TLP, lit "("); (TRP, lit ")"); (TENDCASE, lit ";;"); (TENDBQUOTE, lit "`");
    (TNOT, lit "!"); (TCASE, lit "case"); (TDO, lit "do"); (TDONE, lit "done"); (TELIF, lit "elif");
    (TELSE, lit "else"); (TESAC, lit "esac"); (TFI, lit "fi"); (TFOR, lit "for"); (TIF, lit "if");
    (TIN, lit "in"); (TTHEN, lit "then"); (TUNTIL, lit "until"); (TWHILE, lit "while");
    (TBEGIN, lit "{"); (TEND, lit "}") ].

(** The keywords: [tokname_array] from KWDOFFSET on, in strcmp's order.  The
    binary search of a sorted array finds the equal entry. *)
Definition KWDOFFSET : nat := 13.
Definition findkwd (s : cstr) : option token :=
  fst <$> List.find (fun e => bool_decide (s = snd e)) (drop KWDOFFSET tokname_array).

Definition tok_text (t : token) : cstr :=
  default [] (snd <$> List.find (fun e => bool_decide (t = fst e)) tokname_array).

(** [tok < TSEMI] *)
Definition tokname (t : token) : cstr :=
  match t with
  | TEOF | TNL | TREDIR | TWORD => tok_text t
  | _ => "034"%char :: tok_text t ++ ["034"%char]
  end.

Definition raise_error_unexpected_syntax {A} (expected : option token) : P A :=
  t ← get p_lasttoken;
  raise_error_syntax (lit "unexpected " ++ tokname t ++
    match expected with
    | Some e => lit " (expecting " ++ tokname e ++ lit ")"
    | None => []
    end).

Definition CHKALIAS : Z := 0x1.
Definition CHKKWD : Z := 0x2.
Definition CHKNL : Z := 0x4.
Definition CHKEOFMARK : Z := 0x8.
Definition chk (kwd bit : Z) : bool := negb (Z.land kwd bit =? 0).

(** What the tokenizer calls back: the parser one level down, and the fuel of
    the loops at this level. *)
Record procs := mk_procs {
  k_list : Z -> P node;
  k_parse_command : P node;
  k_readtoken : P token;
  k_parseheredoc : P unit;
  k_fuel : nat;
}.

(** ** The local variables of [readtoken1] *)

Record synstack := mk_syn {
  y_syntax : syntaxid;
  y_innerdq : bool;
  y_varpushed : bool;
  y_dblquote : bool;
  y_varnest : Z;
  y_dqvarnest : Z;
  y_parenlevel : Z;
}.

(** [eofmark]: NULL, FAKEEOFMARK, or the word that ends a here document. *)
Inductive eofmark := NoMark | FAKEEOFMARK | Mark (m : cstr).

Definition is_doc (e : eofmark) : bool := match e with NoMark => false | _ => true end.

Record lex := mk_lex {
  x_c : ichar;
  x_out : cstr;                (* the text so far *)
  x_quotef : bool;
  x_bqlist : list node;
  x_syn : synstack;            (* *synstack *)
  x_below : list synstack;     (* its chain of next *)
}.

Definition with_c c x := mk_lex c (x_out x) (x_quotef x) (x_bqlist x) (x_syn x) (x_below x).
Definition with_out o x := mk_lex (x_c x) o (x_quotef x) (x_bqlist x) (x_syn x) (x_below x).
Definition with_quotef x := mk_lex (x_c x) (x_out x) true (x_bqlist x) (x_syn x) (x_below x).
Definition with_bqlist b x := mk_lex (x_c x) (x_out x) (x_quotef x) b (x_syn x) (x_below x).
Definition with_syn (g : synstack -> synstack) x :=
  mk_lex (x_c x) (x_out x) (x_quotef x) (x_bqlist x) (g (x_syn x)) (x_below x).

Definition set_syntax v y := mk_syn v (y_innerdq y) (y_varpushed y) (y_dblquote y) (y_varnest y) (y_dqvarnest y) (y_parenlevel y).
Definition set_innerdq v y := mk_syn (y_syntax y) v (y_varpushed y) (y_dblquote y) (y_varnest y) (y_dqvarnest y) (y_parenlevel y).
Definition set_varpushed v y := mk_syn (y_syntax y) (y_innerdq y) v (y_dblquote y) (y_varnest y) (y_dqvarnest y) (y_parenlevel y).
Definition set_dblquote v y := mk_syn (y_syntax y) (y_innerdq y) (y_varpushed y) v (y_varnest y) (y_dqvarnest y) (y_parenlevel y).
Definition set_varnest v y := mk_syn (y_syntax y) (y_innerdq y) (y_varpushed y) (y_dblquote y) v (y_dqvarnest y) (y_parenlevel y).
Definition set_dqvarnest v y := mk_syn (y_syntax y) (y_innerdq y) (y_varpushed y) (y_dblquote y) (y_varnest y) v (y_parenlevel y).
Definition set_parenlevel v y := mk_syn (y_syntax y) (y_innerdq y) (y_varpushed y) (y_dblquote y) (y_varnest y) (y_dqvarnest y) v.

(** [USTPUTC]: PEOF is stored as a NUL. *)
Definition putc (a : ascii) (x : lex) : lex := with_out (x_out x ++ [a]) x.
Definition puts (s : cstr) (x : lex) : lex := with_out (x_out x ++ s) x.
Definition byte_of (c : ichar) : ascii := match c with Some a => a | None => NUL end.
Definition put_c (x : lex) : lex := putc (byte_of (x_c x)) x.

Definition syn_zero (s : syntaxid) : synstack := mk_syn s false false false 0 0 0.
Definition synstack_push (s : syntaxid) (x : lex) : lex :=
  mk_lex (x_c x) (x_out x) (x_quotef x) (x_bqlist x) (syn_zero s) (x_syn x :: x_below x).
Definition synstack_pop (x : lex) : P lex :=
  match x_below x with
  | y :: below => mret (mk_lex (x_c x) (x_out x) (x_quotef x) (x_bqlist x) y below)
  | [] => pwild
  end.

Definition pgetc_top (fuel : nat) (y : synstack) : P ichar :=
  if bool_decide (y_syntax y = SQSYNTAX) then pgetc else pgetc_eatbnl fuel.

(** ** The subroutines of [readtoken1] *)

Definition tabs_body (c : ichar) : P (ichar + ichar) :=
  if is_char c TAB then c ← pgetc; mret (inl c) else mret (inr c).

(** [for (p = eofmark; STPUTC(c, out), *p; p++)]: the characters stored, the
    last one read, and whether the whole mark was seen. *)
Fixpoint mark_loop (p : cstr) (got : list ichar) (c : ichar) : P (list ichar * ichar * bool) :=
  match p with
  | [] => mret (got ++ [c], c, true)
  | a :: p => if is_char c a then c' ← pgetc; mark_loop p (got ++ [c]) c' else mret (got ++ [c], c, false)
  end.

(** checkend: the next character of the document, PEOF at its end.  What was
    read of a line that is not the mark is pushed back. *)
Definition checkend (fuel : nat) (e : eofmark) (striptabs : bool) (c : ichar) : P ichar :=
  match e with
  | Mark m =>
      c ← (if striptabs : bool then loop tabs_body fuel c else mret c);
      r ← mark_loop m [] c;
      let '(got, c, matched) := r in
      if matched && (is_char c NL || bool_decide (c = None)) then
        next_line;;
        d ← get p_doprompt; modify (set_needprompt d);;
        mret None
      else
        match got with
        | first :: (_ :: _) as rest =>
            let here := map byte_of (if bool_decide (c = None) then removelast rest else rest) in
            (if bool_decide (here = []) then mret tt else pushstring here);;
            mret first
        | _ => mret c
        end
  | _ => mret c
  end.

Fixpoint digits_at_most (maxlen : nat) (str : cstr) : cstr :=
  match maxlen, str with
  | S n, c :: r => if isdigit c then digits_at_most n r else str
  | _, _ => str
  end.
Definition isdigit_str9 (str : cstr) : bool := hd0 (digits_at_most 9 str) ≟ NUL.

Definition atoi (s : cstr) : Z := fst (scan_digits 10 0 s).

(** A new node for a here document. *)
Definition new_doc : P nat := fun s =>
  POk (set_docs (<[p_ndocs s := mk_hdoc false None]> (p_docs s)) (S (p_ndocs s)) s) (p_ndocs s).

(** parseredir: [out] is the number in front of the operator, [c] its first
    character. *)
Definition parseredir (fuel : nat) (out : cstr) (c : ichar) : P unit :=
  let fd := if bool_decide (out = []) then -1 else atoi out in
  let or_fd d := if 0 <=? fd then fd else d in
  np ← (if is_char c ">" then
          c ← pgetc_eatbnl fuel;
          if is_char c ">" then mret (NFILE NAPPEND (or_fd 1) None)
          else if is_char c "|" then mret (NFILE NCLOBBER (or_fd 1) None)
          else if is_char c "&" then mret (NDUP NTOFD (or_fd 1) 0 None)
          else pungetc;; mret (NFILE NTO (or_fd 1) None)
        else
          c ← pgetc_eatbnl fuel;
          if is_char c "<" then
            n ← new_doc;
            c ← pgetc_eatbnl fuel;
            (if is_char c "-" then modify (set_heredoc (mk_heredoc n [] true))
             else modify (set_heredoc (mk_heredoc n [] false));; pungetc);;
            mret (NHERE_AT (or_fd 0) n)
          else if is_char c "&" then mret (NDUP NFROMFD (or_fd 0) 0 None)
          else if is_char c ">" then mret (NFILE NFROMTO (or_fd 0) None)
          else pungetc;; mret (NFILE NFROM (or_fd 0) None));
  modify (set_redirnode np).

Definition is_special (c : ichar) : bool :=
  match c with Some a => bool_decide (a ∈ lit "!#$*-0123456789?@") | None => false end.
Definition is_name_c (c : ichar) : bool := match c with Some a => is_name a | None => false end.
Definition is_in_name_c (c : ichar) : bool := match c with Some a => is_in_name a | None => false end.
Definition isdigit_c (c : ichar) : bool := match c with Some a => isdigit a | None => false end.

(** [do { STPUTC(c, out); c = pgetc_eatbnl(); } while (more c)] *)
Definition chars_body (fuel : nat) (more : ichar -> bool) (x : lex) : P (lex + lex) :=
  c ← pgetc_eatbnl fuel;
  let x' := with_c c (put_c x) in
  mret (if more c then inl x' else inr x').

(** The name of a substitution; the result is the subtype and whether there is
    none ("goto badsub").  [again] allows the jump back to varname. *)
Fixpoint varname (fuel : nat) (again : nat) (subtype : Z) (x : lex) : P (lex * Z * bool) :=
  let c := x_c x in
  if is_name_c c then
    x ← loop (chars_body fuel is_in_name_c) fuel x; mret (x, subtype, false)
  else if isdigit_c c then
    x ← loop (chars_body fuel (fun c => ((subtype =? 0) || (subtype =? VSLENGTH)) && isdigit_c c)) fuel x;
    mret (x, subtype, false)
  else if negb (is_char c "}") then
    let special cc subtype (x : lex) : P (lex * Z * bool) :=
      if is_special cc then mret (putc (byte_of cc) x, subtype, false)
      else mret (x, if subtype =? VSLENGTH then 0 else subtype, true) in
    c' ← pgetc_eatbnl fuel;
    if (subtype =? 0) && is_char c "#" then
      if is_char c' "_" || is_in_name_c c' then
        match again with
        | S n => varname fuel n VSLENGTH (with_c c' x)
        | O => pfuel
        end
      else
        c'' ← pgetc_eatbnl fuel;
        if is_char c' "}" || negb (is_char c'' "}") then
          pungetc;; special c 0 (with_c c' x)
        else special c' VSLENGTH (with_c c'' x)
    else special c subtype (with_c c' x)
  else mret (x, subtype, true).

(** [strchr(types, c) - types]; PEOF is taken for the terminating NUL. *)
Definition types_index (c : ichar) : option Z :=
  match c with
  | None => Some 5
  | Some a => Z.of_nat <$> (fst <$> list_find (fun b => a = b) (lit "}-+?="))
  end.

(** The operator after the name in braces: the subtype, and the syntax of the
    word that follows. *)
Definition varop (fuel : nat) (newsyn : syntaxid) (x : lex) : P (lex * Z * syntaxid) :=
  let typed c sub : P (lex * Z * syntaxid) :=
    mret (with_c c x, match types_index c with Some i => Z.lor sub (i + VSNORMAL) | None => sub end, newsyn) in
  let c := x_c x in
  if is_char c ":" then c ← pgetc_eatbnl fuel; typed c VSNUL
  else if is_char c "%" || is_char c "#" then
    let sub := if is_char c "#" then VSTRIMLEFT else VSTRIMRIGHT in
    c' ← pgetc_eatbnl fuel;
    if bool_decide (c' = c) then mret (with_c c' x, sub + 1, BASESYNTAX)
    else pungetc;; mret (with_c c' x, sub, BASESYNTAX)
  else typed c 0.

(** parsesub behind the dollar sign, for a parameter: [x_c] is the first
    character of its name or the brace. *)
Definition parsesub_var (fuel : nat) (x : lex) : P lex :=
  let newsyn := y_syntax (x_syn x) in
  let typeloc := S (length (x_out x)) in
  let x := puts [CTLVAR; NUL] x in
  cs ← (if is_char (x_c x) "{" then c ← pgetc_eatbnl fuel; mret (c, 0) else mret (x_c x, VSNORMAL));
  r ← varname fuel 1 (snd cs) (with_c (fst cs) x);
  let '(x, subtype, bad) := r in
  r ← (if negb bad && (subtype =? 0) then varop fuel newsyn x
       else
         let subtype := if negb bad && (subtype =? VSLENGTH) && negb (is_char (x_c x) "}") then 0 else subtype in
         pungetc;; mret (x, subtype, newsyn));
  let '(x, subtype, newsyn) := r in
  let newsyn := if bool_decide (newsyn = ARISYNTAX) then DQSYNTAX else newsyn in
  let x := if (negb (bool_decide (newsyn = y_syntax (x_syn x))) || y_innerdq (x_syn x)) && negb (subtype =? VSNORMAL)
           then with_syn (fun y => set_dblquote (negb (bool_decide (newsyn = BASESYNTAX))) (set_varpushed true y))
                  (synstack_push newsyn x)
           else x in
  let x := with_out (<[typeloc := chr subtype]> (x_out x)) x in
  let x := if negb (subtype =? VSNORMAL)
           then with_syn (fun y => let y := set_varnest (y_varnest y + 1) y in
                                   if y_dblquote y then set_dqvarnest (y_dqvarnest y + 1) y else y) x
           else x in
  mret (putc "=" x).

(** One turn of the loop that collects an old-style command substitution. *)
Definition backq_body (fuel : nat) (dblquote : bool) (pout : cstr) : P (cstr + cstr) :=
  n ← get p_needprompt;
  setprompt_if n 2;;
  pc ← pgetc_eatbnl fuel;
  match pc with
  | None => raise_error_syntax (lit "EOF in backquote substitution")
  | Some a =>
      if a ≟ "`"%char then mret (inr pout)
      else if a ≟ "\"%char then
        pc ← pgetc;
        let b := byte_of pc in
        if negb (is_char pc "\") && negb (is_char pc "`") && negb (is_char pc "$")
           && (negb dblquote || negb (is_char pc "034"))
        then mret (inl (pout ++ ["\"%char; b]))
        else mret (inl (pout ++ [b]))
      else if a ≟ NL then nlnoprompt;; mret (inl (pout ++ [a]))
      else mret (inl (pout ++ [a]))
  end.

(** parsebackq, of the old or the new style. *)
Definition parsebackq (k : procs) (oldstyle : bool) (x : lex) : P lex :=
  (if oldstyle : bool then
     str ← loop (backq_body (k_fuel k) (y_dblquote (x_syn x))) (k_fuel k) [];
     setinputstring str
   else mret tt);;
  saveheredoclist ← get p_heredoclist;
  modify (set_heredoclist []);;
  saveprompt ← get p_doprompt;
  (if oldstyle : bool then modify (set_doprompt false) else mret tt);;
  n ← k_list k 2;
  (if oldstyle : bool then modify (set_doprompt saveprompt)
   else
     t ← k_readtoken k;
     (if bool_decide (t = TRP) then mret tt else raise_error_unexpected_syntax (Some TRP));;
     setinputstring []);;
  k_parseheredoc k;;
  modify (set_heredoclist saveheredoclist);;
  popfile;;
  (if oldstyle : bool then modify (set_tokpushback false) else mret tt);;
  mret (putc CTLBACKQ (with_bqlist (x_bqlist x ++ [n]) x)).

(** parsesub: everything behind a dollar sign. *)
Definition parsesub (k : procs) (x : lex) : P lex :=
  c ← pgetc_eatbnl (k_fuel k);
  kwd ← get p_checkkwd;
  if chk kwd CHKEOFMARK || (negb (is_char c "(") && negb (is_char c "{") && negb (is_name_c c) && negb (is_special c))
  then pungetc;; mret (putc "$" x)
  else if is_char c "(" then
    c' ← pgetc_eatbnl (k_fuel k);
    if is_char c' "(" then
      mret (putc CTLARI (with_syn (set_dblquote true) (synstack_push ARISYNTAX x)))
    else pungetc;; parsebackq k false x
  else parsesub_var (k_fuel k) (with_c c x).

(** ** [readtoken1] *)

(** How a turn of the character loop ends: read the next character, start the
    next line ("goto loop"), or end the word. *)
Inductive turn := Next (x : lex) | Line (x : lex) | Endword (x : lex).

Definition quotemark (e : eofmark) (x : lex) : lex := if is_doc e then x else putc CTLQUOTEMARK x.

(** toggledq *)
Definition toggledq (e : eofmark) (x : lex) : lex :=
  quotemark e (if negb (y_varnest (x_syn x) =? 0)
               then with_syn (fun y => set_innerdq (negb (y_innerdq y)) y) x else x).

Definition char_turn (k : procs) (e : eofmark) (x : lex) : P turn :=
  let y := x_syn x in
  let nested := negb (y_varnest y =? 0) in
  match SIT (x_c x) (y_syntax y) with
  | CNL =>
      if bool_decide (y_syntax y = BASESYNTAX) && negb nested then mret (Endword x)
      else
        nlprompt;;
        c ← pgetc_top (k_fuel k) y;
        mret (Line (with_c c (put_c x)))
  | CWORD => mret (Next (put_c x))
  | CCTL =>
      mret (Next (put_c (if negb (is_doc e) || y_dblquote y || nested then putc CTLESC x else x)))
  | CBACK =>
      c ← pgetc;
      match c with
      | None => pungetc;; mret (Next (puts [CTLESC; "\"%char] x))
      | Some a =>
          let kept := y_dblquote y && negb (a ≟ "\"%char) && negb (a ≟ "`"%char) && negb (a ≟ "$"%char)
                      && (negb (a ≟ "034"%char) || (is_doc e && negb nested))
                      && (negb (a ≟ "}"%char) || negb nested) in
          mret (Next (with_quotef (puts [CTLESC; a] (if kept then puts [CTLESC; "\"%char] x else x))))
      end
  | CSQUOTE => mret (Next (quotemark e (with_syn (set_syntax SQSYNTAX) x)))
  | CDQUOTE => mret (Next (toggledq e (with_syn (fun y => set_dblquote true (set_syntax DQSYNTAX y)) x)))
  | CENDQUOTE =>
      if is_doc e && negb nested then mret (Next (put_c x))
      else
        let x := if y_dqvarnest y =? 0
                 then with_syn (fun y => set_dblquote false (set_syntax BASESYNTAX y)) x else x in
        let x := with_quotef x in
        mret (Next (if is_char (x_c x) "034" then toggledq e x else quotemark e x))
  | CVAR => x ← parsesub k x; mret (Next x)
  | CENDVAR =>
      if negb (y_innerdq y) && (0 <? y_varnest y) then
        let y' := set_varnest (y_varnest y - 1) y in
        x ← (if (y_varnest y' =? 0) && y_varpushed y' then synstack_pop (with_syn (fun _ => y') x)
             else mret (with_syn (fun _ => if 0 <? y_dqvarnest y' then set_dqvarnest (y_dqvarnest y' - 1) y' else y') x));
        mret (Next (putc CTLENDVAR x))
      else mret (Next (put_c x))
  | CLP => mret (Next (put_c (with_syn (fun y => set_parenlevel (y_parenlevel y + 1) y) x)))
  | CRP =>
      if 0 <? y_parenlevel y then
        mret (Next (put_c (with_syn (fun y => set_parenlevel (y_parenlevel y - 1) y) x)))
      else
        c ← pgetc_eatbnl (k_fuel k);
        if is_char c ")" then x ← synstack_pop x; mret (Next (putc CTLENDARI x))
        else pungetc;; mret (Next (put_c x))
  | CBQUOTE =>
      kwd ← get p_checkkwd;
      if chk kwd CHKEOFMARK then mret (Next (putc "`" (with_quotef x)))
      else x ← parsebackq k true x; mret (Next x)
  | CENDFILE => mret (Endword x)
  | CSPCL => if nested then mret (Next (put_c x)) else mret (Endword x)
  end.

(** One turn, and the character for the next; [fresh] at the start of a line. *)
Definition readtoken1_body (k : procs) (e : eofmark) (striptabs : bool) (st : bool * lex) : P (bool * lex + lex) :=
  let '(fresh, x) := st in
  x ← (if fresh : bool then c ← checkend (k_fuel k) e striptabs (x_c x); mret (with_c c x) else mret x);
  t ← char_turn k e x;
  match t with
  | Next x => c ← pgetc_top (k_fuel k) (x_syn x); mret (inl (false, with_c c x))
  | Line x => mret (inl (true, x))
  | Endword x => mret (inr x)
  end.

(** From endword on. *)
Definition endword (k : procs) (e : eofmark) (x : lex) : P token :=
  let y := x_syn x in
  if bool_decide (y_syntax y = ARISYNTAX) then raise_error_syntax (lit "missing '))'")
  else if negb (bool_decide (y_syntax y = BASESYNTAX)) && negb (is_doc e) then
    raise_error_syntax (lit "unterminated quoted string")
  else if negb (y_varnest y =? 0) then raise_error_syntax (lit "missing '}'")
  else
    let word : P token :=
      modify (set_quoteflag (x_quotef x));;
      modify (set_backquotelist (x_bqlist x));;
      modify (set_wordtext (x_out x));;
      modify (set_lasttoken TWORD);;
      mret TWORD in
    if is_doc e then word
    else if (is_char (x_c x) ">" || is_char (x_c x) "<") && negb (x_quotef x) && isdigit_str9 (x_out x) then
      parseredir (k_fuel k) (x_out x) (x_c x);;
      modify (set_lasttoken TREDIR);;
      mret TREDIR
    else pungetc;; word.

Definition readtoken1 (k : procs) (c : ichar) (syntax : syntaxid) (e : eofmark) (striptabs : bool) : P token :=
  let y := syn_zero syntax in
  let y := if bool_decide (syntax = DQSYNTAX) then set_dblquote true y else y in
  x ← loop (readtoken1_body k e striptabs) (k_fuel k) (true, mk_lex c [] false [] y []);
  endword k e x.

(** ** [xxreadtoken] and [readtoken] *)

Definition xxreadtoken_chars : cstr := [NL; "("; ")"; "&"; "|"; ";"]%char.
Definition xxreadtoken_singles : nat := 3.
Definition xxreadtoken_doubles : nat := 3.
Definition xxreadtoken_tokens : list token :=
  [TNL; TLP; TRP; TBACKGND; TPIPE; TSEMI; TEOF; TAND; TOR; TENDCASE].

Definition comment_body (_ : unit) : P (unit + unit) :=
  c ← pgetc; mret (if negb (is_char c NL) && negb (bool_decide (c = None)) then inl tt else inr tt).

(** One turn of the loop: a blank or a comment is skipped, an operator is a
    token ([inr inr]), other characters start a word ([inr inl]). *)
Definition xxread_body (k : procs) (_ : unit) : P (unit + (ichar + token)) :=
  c ← pgetc_eatbnl (k_fuel k);
  if is_char c " " || is_char c TAB then mret (inl tt)
  else if is_char c "#" then
    loop comment_body (k_fuel k) tt;; pungetc;; mret (inl tt)
  else if is_char c "\" then mret (inr (inl c))
  else
    let token p : P (unit + (ichar + token)) :=
      let t := nth p xxreadtoken_tokens TEOF in
      modify (set_lasttoken t);; mret (inr (inr t)) in
    match c with
    | None => token (length xxreadtoken_chars)
    | Some a =>
        (if a ≟ NL then nlnoprompt else mret tt);;
        match list_find (fun b => a = b) xxreadtoken_chars with
        | None => mret (inr (inl c))
        | Some (p, _) =>
            if (xxreadtoken_singles <=? p)%nat then
              cc ← pgetc_eatbnl (k_fuel k);
              if bool_decide (cc = c) then token (p + xxreadtoken_doubles + 1)%nat
              else pungetc;; token p
            else token p
        end
    end.

Definition xxreadtoken (k : procs) : P token :=
  pb ← get p_tokpushback;
  if pb : bool then modify (set_tokpushback false);; get p_lasttoken
  else
    n ← get p_needprompt;
    setprompt_if n 2;;
    r ← loop (xxread_body k) (k_fuel k) tt;
    match r with
    | inl c => readtoken1 k c BASESYNTAX NoMark false
    | inr t => mret t
    end.

Definition set_doc (n : nat) (d : arg) : P unit := fun s =>
  match p_docs s !! n with
  | Some h => POk (set_docs (<[n := mk_hdoc (h_expand h) (Some d)]> (p_docs s)) (p_ndocs s) s) tt
  | None => PWild
  end.

Fixpoint read_heredocs (k : procs) (l : list heredoc) : P unit :=
  match l with
  | [] => mret tt
  | here :: l =>
      modify (set_tokpushback false);;
      n ← get p_needprompt;
      setprompt_if n 2;;
      docs ← get p_docs;
      match docs !! hd_here here with
      | None => pwild
      | Some h =>
          (if h_expand h
           then c ← pgetc_eatbnl (k_fuel k); readtoken1 k c DQSYNTAX (Mark (hd_eofmark here)) (hd_striptabs here)
           else c ← pgetc; readtoken1 k c SQSYNTAX (Mark (hd_eofmark here)) (hd_striptabs here));;
          text ← get p_wordtext;
          bq ← get p_backquotelist;
          set_doc (hd_here here) (NARG text bq);;
          read_heredocs k l
      end
  end.

Definition parseheredoc (k : procs) : P unit :=
  l ← get p_heredoclist;
  modify (set_heredoclist []);;
  read_heredocs k l.

Definition newlines_body (k : procs) (t : token) : P (token + token) :=
  if bool_decide (t = TNL) then
    parseheredoc k;;
    modify (set_checkkwd 0);;
    t ← xxreadtoken k;
    mret (inl t)
  else mret (inr t).

Definition readtoken (k : procs) : P token :=
  kwd ← get p_checkkwd;
  t ← xxreadtoken k;
  t ← (if chk kwd CHKNL then loop (newlines_body k) (k_fuel k) t else mret t);
  kwd' ← get p_checkkwd;
  modify (set_checkkwd 0);;
  q ← get p_quoteflag;
  if negb (bool_decide (t = TWORD)) || q then mret t
  else if chk (Z.lor kwd kwd') CHKKWD then
    w ← get p_wordtext;
    match findkwd w with
    | Some t => modify (set_lasttoken t);; mret t
    | None => mret t
    end
  else mret t.
