(* ===== verification/AshParse.v ===== *)
(** * shell/ash.c: the parser

    [list], [andor], [pipeline], [simplecmd], [parse_command], redirections and
    [parsecmd], over the tokenizer of AshLex.  Calls that go round in circles
    (list to parse_command to list, the tokenizer to the parser) go through
    [procs]; [procs_at n] ties the knot for [n] levels of nesting, with loops of
    at most [n] turns. *)

From Stdlib Require Import Ascii String ZArith Lia.
From stdpp Require Import base gmap list strings.
From S2P Require Import Prelude Clib LibbbStr LibbbNum AshInput AshLex.

Local Open Scope Z_scope.

(** ** Names, builtins, escapes *)

Definition goodname (p : cstr) : bool := hd0 (endofname p) ≟ NUL.

Definition isassignment (p : cstr) : bool :=
  let q := endofname p in
  if (length p =? length q)%nat then false else hd0 q ≟ "=".

Definition BUILTIN_NOSPEC : ascii := "0".
Definition BUILTIN_SPECIAL : ascii := "1".
Definition BUILTIN_REGULAR : ascii := "2".
Definition BUILTIN_SPEC_REG : ascii := "3".
Definition BUILTIN_REG_ASSG : ascii := "6".
Definition BUILTIN_SPEC_REG_ASSG : ascii := "7".

(** The flag characters and names of [builtintab]. *)
Definition builtintab : list (ascii * cstr) :=
  [ (BUILTIN_SPEC_REG, lit "."); (BUILTIN_SPEC_REG, lit ":"); (BUILTIN_REGULAR, lit "[");
    (BUILTIN_SPEC_REG, lit "break"); (BUILTIN_REGULAR, lit "cd"); (BUILTIN_NOSPEC, lit "chdir");
    (BUILTIN_REGULAR, lit "command"); (BUILTIN_SPEC_REG, lit "continue"); (BUILTIN_REGULAR, lit "echo");
    (BUILTIN_SPEC_REG, lit "eval"); (BUILTIN_SPEC_REG, lit "exec"); (BUILTIN_SPEC_REG, lit "exit");
    (BUILTIN_SPEC_REG_ASSG, lit "export"); (BUILTIN_REGULAR, lit "false"); (BUILTIN_REGULAR, lit "hash");
    (BUILTIN_NOSPEC, lit "help"); (BUILTIN_NOSPEC, lit "history"); (BUILTIN_NOSPEC, lit "let");
    (BUILTIN_SPEC_REG_ASSG, lit "local"); (BUILTIN_REGULAR, lit "printf"); (BUILTIN_REGULAR, lit "pwd");
    (BUILTIN_REGULAR, lit "read"); (BUILTIN_SPEC_REG_ASSG, lit "readonly"); (BUILTIN_SPEC_REG, lit "return");
    (BUILTIN_SPEC_REG, lit "set"); (BUILTIN_SPEC_REG, lit "shift"); (BUILTIN_REGULAR, lit "test");
    (BUILTIN_SPEC_REG, lit "times"); (BUILTIN_SPEC_REG, lit "trap"); (BUILTIN_REGULAR, lit "true");
    (BUILTIN_REGULAR, lit "type"); (BUILTIN_REGULAR, lit "ulimit"); (BUILTIN_REGULAR, lit "umask");
    (BUILTIN_SPEC_REG, lit "unset"); (BUILTIN_REGULAR, lit "wait") ].

(** The flags of the builtin of that name. *)
Definition find_builtin (name : cstr) : option ascii :=
  fst <$> List.find (fun e => bool_decide (name = snd e)) builtintab.
Definition IS_BUILTIN_SPECIAL (flag : ascii) : bool := Z.odd (uc flag).

(** [rmescapes]: the loop from the first CTLESC or CTLQUOTEMARK on.  [None] is a
    CTLESC at the end of the string, behind which the loop would read on. *)
Definition needs_backslash (c : ascii) : bool := bool_decide (c ∈ lit "*?[\]-!^").

Fixpoint rmescapes_loop (globbing protect : bool) (p : cstr) : option cstr :=
  match p with
  | [] => Some []
  | c :: p' =>
      if c ≟ CTLQUOTEMARK then rmescapes_loop globbing globbing p'
      else if c ≟ "\" then cons c <$> rmescapes_loop globbing false p'
      else if c ≟ CTLESC then
        match p' with
        | [] => None
        | d :: p'' =>
            let q := if protect && needs_backslash d then ["\"; d]%char else [d] in
            app q <$> rmescapes_loop globbing globbing p''
        end
      else cons c <$> rmescapes_loop globbing globbing p'
  end.

(** [glob] is RMESCAPE_GLOB; the other flags only choose where the result is
    stored.  Text in front of the first special character is kept as it is. *)
Fixpoint rmescapes_skip (glob : bool) (str : cstr) : option cstr :=
  match str with
  | [] => Some []
  | c :: r => if (c ≟ CTLESC) || (c ≟ CTLQUOTEMARK) then rmescapes_loop glob glob str
              else cons c <$> rmescapes_skip glob r
  end.
Definition rmescapes (str : cstr) (glob : bool) : option cstr := rmescapes_skip glob str.
Definition preglob (pattern : cstr) : option cstr := rmescapes pattern true.

(** ** Redirections *)

Definition makename : P arg :=
  w ← get p_wordtext; bq ← get p_backquotelist; mret (NARG w bq).

(** [fixredir(n, text, 0)] of the redirection [n >& text]: [dupfd], [vname]. *)
Definition fixredir (text : cstr) : P (Z * option arg) :=
  let r := bb_strtoul text 10 in
  let fd := wrapS 32 (st_val r) in
  if bool_decide (st_err r = E_OK) && (0 <=? fd) then mret (fd, None)
  else if bool_decide (text = lit "-") then mret (-1, None)
  else n ← makename; mret (0, Some n).

(** [parsefname]: completes the redirection node [redirnode]. *)
Definition parsefname (k : procs) : P redir :=
  n ← get p_redirnode;
  (match n with NHERE_AT _ _ => modify (set_checkkwd CHKEOFMARK) | _ => mret tt end);;
  t ← readtoken k;
  (if bool_decide (t = TWORD) then mret tt else raise_error_unexpected_syntax None);;
  match n with
  | NHERE_AT fd id =>
      here ← get p_heredoc;
      q ← get p_quoteflag;
      (if q : bool then mret tt
       else modify (fun s => set_docs (alter (fun h => mk_hdoc true (h_doc h)) id (p_docs s)) (p_ndocs s) s));;
      w ← get p_wordtext;
      match rmescapes w false with
      | None => pwild
      | Some mark =>
          modify (set_wordtext mark);;
          modify (fun s => set_heredoclist (p_heredoclist s ++
            [mk_heredoc (hd_here here) mark (hd_striptabs here)]) s);;
          mret n
      end
  | NDUP type fd _ _ => w ← get p_wordtext; r ← fixredir w; mret (NDUP type fd (fst r) (snd r))
  | NFILE type fd _ => n ← makename; mret (NFILE type fd (Some n))
  end.

Definition push_back : P unit := modify (set_tokpushback true).
Definition expect (k : procs) (t : token) : P unit :=
  t' ← readtoken k;
  if bool_decide (t' = t) then mret tt else raise_error_unexpected_syntax (Some t).

(** ** Simple commands *)

(** The chains [args], [vars] and [redir] of [simplecmd], and [savecheckkwd]. *)
Record simple := mk_simple {
  c_args : list arg; c_vars : list arg; c_redir : list redir; c_checkkwd : Z
}.

Definition simplecmd_body (k : procs) (savelinno : Z) (c : simple) : P (simple + node) :=
  modify (set_checkkwd (c_checkkwd c));;
  t ← readtoken k;
  let out : P (simple + node) :=
    push_back;; mret (inr (NCMD savelinno (c_vars c) (c_args c) (c_redir c))) in
  match t with
  | TWORD =>
      n ← makename;
      w ← get p_wordtext;
      if negb (c_checkkwd c =? 0) && isassignment w
      then mret (inl (mk_simple (c_args c) (c_vars c ++ [n]) (c_redir c) (c_checkkwd c)))
      else mret (inl (mk_simple (c_args c ++ [n]) (c_vars c) (c_redir c) 0))
  | TREDIR =>
      n ← parsefname k;
      mret (inl (mk_simple (c_args c) (c_vars c) (c_redir c ++ [n]) (c_checkkwd c)))
  | TLP =>
      match c_args c, c_vars c, c_redir c with
      | [NARG name _], [], [] =>
          expect k TRP;;
          (if negb (goodname name)
              || match find_builtin name with Some flag => IS_BUILTIN_SPECIAL flag | None => false end
           then raise_error_syntax (lit "bad function name") else mret tt);;
          modify (set_checkkwd (Z.lor CHKNL (Z.lor CHKKWD CHKALIAS)));;
          f ← get p_file;
          body ← k_parse_command k;
          mret (inr (NDEFUN (f_linno f) name body))
      | _, _, _ => out
      end
  | _ => out
  end.

Definition simplecmd (k : procs) : P node :=
  f ← get p_file;
  loop (simplecmd_body k (f_linno f)) (k_fuel k) (mk_simple [] [] [] CHKALIAS).

(** ** Compound commands *)

(** if ... then ... [elif ... then ...] [else ...]: what follows "then". *)
Definition elif_body (k : procs) (l : list (node * node)) : P (list (node * node) + list (node * node)) :=
  t ← readtoken k;
  if bool_decide (t = TELIF) then
    test ← k_list k 0;
    expect k TTHEN;;
    ifpart ← k_list k 0;
    mret (inl (l ++ [(test, ifpart)]))
  else mret (inr l).

Fixpoint nest_if (l : list (node * node)) (elsepart : node) : node :=
  match l with
  | [] => elsepart
  | (test, ifpart) :: l => NIF test ifpart (nest_if l elsepart)
  end.

Definition parse_if (k : procs) : P node :=
  test ← k_list k 0;
  expect k TTHEN;;
  ifpart ← k_list k 0;
  l ← loop (elif_body k) (k_fuel k) [(test, ifpart)];
  t ← get p_lasttoken;
  elsepart ← (if bool_decide (t = TELSE) then k_list k 0 else push_back;; mret Null);
  mret (nest_if l elsepart).

Definition parse_while (k : procs) : P node :=
  t ← get p_lasttoken;
  ch1 ← k_list k 0;
  expect k TDO;;
  ch2 ← k_list k 0;
  mret (if bool_decide (t = TWHILE) then NWHILE ch1 ch2 else NUNTIL ch1 ch2).

Definition words_body (k : procs) (l : list arg) : P (list arg + list arg) :=
  t ← readtoken k;
  if bool_decide (t = TWORD) then n ← makename; mret (inl (l ++ [n])) else mret (inr l).

Definition parse_for (k : procs) (savelinno : Z) : P node :=
  t ← readtoken k;
  q ← get p_quoteflag;
  w ← get p_wordtext;
  (if negb (bool_decide (t = TWORD)) || q || negb (goodname w)
   then raise_error_syntax (lit "bad for loop variable") else mret tt);;
  modify (set_checkkwd (Z.lor CHKNL (Z.lor CHKKWD CHKALIAS)));;
  t ← readtoken k;
  args ← (if bool_decide (t = TIN) then
            ap ← loop (words_body k) (k_fuel k) [];
            t ← get p_lasttoken;
            (if bool_decide (t = TNL) || bool_decide (t = TSEMI) then mret tt
             else raise_error_unexpected_syntax None);;
            mret ap
          else
            t ← get p_lasttoken;
            (if bool_decide (t = TSEMI) then mret tt else push_back);;
            mret [NARG dolatstr []]);
  modify (set_checkkwd (Z.lor CHKNL (Z.lor CHKKWD CHKALIAS)));;
  expect k TDO;;
  body ← k_list k 0;
  mret (NFOR savelinno args body w).

(** The patterns of one case clause; their tokens are taken for words. *)
Definition patterns_body (k : procs) (l : list arg) : P (list arg + list arg) :=
  n ← makename;
  t ← readtoken k;
  if bool_decide (t = TPIPE) then readtoken k;; mret (inl (l ++ [n]))
  else mret (inr (l ++ [n])).

(** One clause; [t] is its first token. *)
Definition case_body (k : procs) (st : token * list nclist) : P (token * list nclist + list nclist) :=
  let '(t, cases) := st in
  if bool_decide (t = TESAC) then mret (inr cases)
  else
    t ← get p_lasttoken;
    (if bool_decide (t = TLP) then readtoken k;; mret tt else mret tt);;
    pattern ← loop (patterns_body k) (k_fuel k) [];
    t ← get p_lasttoken;
    (if bool_decide (t = TRP) then mret tt else raise_error_unexpected_syntax (Some TRP));;
    body ← k_list k 2;
    let cases := cases ++ [NCLIST pattern body] in
    modify (set_checkkwd (Z.lor CHKNL CHKKWD));;
    t ← readtoken k;
    if bool_decide (t = TESAC) then mret (inl (t, cases))
    else if bool_decide (t = TENDCASE) then
      modify (set_checkkwd (Z.lor CHKNL CHKKWD));;
      t ← readtoken k;
      mret (inl (t, cases))
    else raise_error_unexpected_syntax (Some TENDCASE).

Definition parse_case (k : procs) (savelinno : Z) : P node :=
  expect k TWORD;;
  expr ← makename;
  modify (set_checkkwd (Z.lor CHKNL (Z.lor CHKKWD CHKALIAS)));;
  expect k TIN;;
  modify (set_checkkwd (Z.lor CHKNL CHKKWD));;
  t ← readtoken k;
  cases ← loop (case_body k) (k_fuel k) (t, []);
  mret (NCASE savelinno expr cases).

(** The redirections behind a compound command. *)
Definition redirs_body (k : procs) (l : list redir) : P (list redir + list redir) :=
  t ← readtoken k;
  if bool_decide (t = TREDIR) then n ← parsefname k; mret (inl (l ++ [n])) else mret (inr l).

Definition with_redirs (savelinno : Z) (n1 : node) (redir : list redir) : node :=
  if bool_decide (length redir = 0%nat) then n1
  else match n1 with
       | NSUBSHELL l n _ => NSUBSHELL l n redir
       | _ => NREDIR savelinno n1 redir
       end.

Definition trailing_redirs (k : procs) (savelinno : Z) (n1 : node) : P node :=
  modify (set_checkkwd (Z.lor CHKKWD CHKALIAS));;
  redir ← loop (redirs_body k) (k_fuel k) [];
  push_back;;
  mret (with_redirs savelinno n1 redir).

(** The end of a compound command read by [m]: its last keyword and the
    redirections. *)
Definition compound (k : procs) (savelinno : Z) (m : P node) (t : token) : P node :=
  n1 ← m; expect k t;; trailing_redirs k savelinno n1.

(** The switch of [parse_command] on its first token. *)
Definition command_from (k : procs) (savelinno : Z) (t : token) : P node :=
  match t with
  | TIF => compound k savelinno (parse_if k) TFI
  | TWHILE | TUNTIL => compound k savelinno (parse_while k) TDONE
  | TFOR => compound k savelinno (parse_for k savelinno) TDONE
  | TCASE => n1 ← parse_case k savelinno; trailing_redirs k savelinno n1
  | TLP => compound k savelinno (n ← k_list k 0; mret (NSUBSHELL savelinno n [])) TRP
  | TBEGIN => compound k savelinno (k_list k 0) TEND
  | TWORD | TREDIR => push_back;; simplecmd k
  | _ => raise_error_unexpected_syntax None
  end.

Definition parse_command (k : procs) : P node :=
  f ← get p_file;
  t ← readtoken k;
  command_from k (f_linno f) t.

(** ** Pipelines and lists *)

Definition pipe_body (k : procs) (l : list node) : P (list node + list node) :=
  modify (set_checkkwd (Z.lor CHKNL (Z.lor CHKKWD CHKALIAS)));;
  n ← parse_command k;
  t ← readtoken k;
  mret (if bool_decide (t = TPIPE) then inl (l ++ [n]) else inr (l ++ [n])).

Definition pipeline (k : procs) : P node :=
  t ← readtoken k;
  let negate := bool_decide (t = TNOT) in
  (if negate then modify (set_checkkwd (Z.lor CHKKWD CHKALIAS)) else push_back);;
  n1 ← parse_command k;
  t ← readtoken k;
  n1 ← (if bool_decide (t = TPIPE) then
          l ← loop (pipe_body k) (k_fuel k) [n1]; mret (NPIPE false l)
        else mret n1);
  push_back;;
  mret (if negate then NNOT n1 else n1).

Definition andor_body (k : procs) (n1 : node) : P (node + node) :=
  t ← readtoken k;
  let more (f : node -> node -> node) : P (node + node) :=
    modify (set_checkkwd (Z.lor CHKNL (Z.lor CHKKWD CHKALIAS)));;
    n2 ← pipeline k;
    mret (inl (f n1 n2)) in
  match t with
  | TAND => more NAND
  | TOR => more NOR
  | _ => push_back;; mret (inr n1)
  end.

Definition andor (k : procs) : P node := n1 ← pipeline k; loop (andor_body k) (k_fuel k) n1.

Definition tokendlist (t : token) : bool :=
  match t with
  | TEOF | TRP | TENDCASE | TENDBQUOTE | TDO | TDONE | TELIF | TELSE | TESAC | TFI | TTHEN | TEND => true
  | _ => false
  end.

(** A command put in the background. *)
Definition background (n2 : node) : P node :=
  match n2 with
  | NPIPE _ l => mret (NPIPE true l)
  | NREDIR l n r => mret (NBACKGND l n r)
  | Null | NODE_EOF => pwild
  | _ => mret (NBACKGND 0 n2 [])
  end.

Definition out_eof (k : procs) (n1 : node) : P node :=
  parseheredoc k;; push_back;; modify (set_lasttoken TEOF);; mret n1.

(** One turn of [list] whose first token starts a command: [n1] is what was
    read so far, [started] that the turn is not the first ([nlflag |= 2]), [tok]
    the token. *)
Definition list_command (k : procs) (nlflag : Z) (n1 : node) (started : bool) (tok : token) :
    P (node * bool + node) :=
  push_back;;
  if ((if started then Z.lor nlflag 2 else nlflag) =? 2) && tokendlist tok then mret (inr n1)
  else
    n2 ← andor k;
    tok ← readtoken k;
    n2 ← (if bool_decide (tok = TBACKGND) then background n2 else mret n2);
    let n1 := match n1 with Null => n2 | _ => NSEMI n1 n2 end in
    match tok with
    | TEOF => n ← out_eof k n1; mret (inr n)
    | TNL => push_back;; mret (inl (n1, true))
    | TBACKGND | TSEMI => mret (inl (n1, true))
    | _ =>
        (if Z.odd nlflag then raise_error_unexpected_syntax None else mret tt);;
        push_back;;
        mret (inr n1)
    end.

Definition list_body (k : procs) (nlflag : Z) (st : node * bool) : P (node * bool + node) :=
  let '(n1, started) := st in
  let chknl := if Z.odd nlflag then 0 else CHKNL in
  modify (set_checkkwd (Z.lor chknl (Z.lor CHKKWD CHKALIAS)));;
  tok ← readtoken k;
  match tok with
  | TNL => parseheredoc k;; mret (inr n1)
  | TEOF =>
      n ← out_eof k (match n1 with Null => if chknl =? 0 then NODE_EOF else Null | _ => n1 end);
      mret (inr n)
  | _ => list_command k nlflag n1 started tok
  end.

Definition parse_list (k : procs) (nlflag : Z) : P node := loop (list_body k nlflag) (k_fuel k) (Null, false).

(** ** The knot *)

Fixpoint procs_at (n : nat) : procs :=
  match n with
  | O => mk_procs (fun _ => pfuel) pfuel pfuel pfuel 0
  | S n => let k := procs_at n in
           mk_procs (parse_list k) (parse_command k) (readtoken k) (parseheredoc k) (S n)
  end.

(** [parsecmd(interact)] *)
Definition parsecmd (n : nat) (interact : bool) : P node :=
  modify (set_tokpushback false);;
  modify (set_checkkwd 0);;
  modify (set_heredoclist []);;
  modify (set_doprompt interact);;
  setprompt_if interact (if interact then 1 else 0)%nat;;
  modify (set_needprompt false);;
  parse_list (procs_at n) 1.

(** The parser's state when the shell starts. *)
Definition basepf : parsefile := mk_pf 1 0 0 0 [] true [] 0 (Some NUL, Some NUL) [].
Definition pstate_zero : pstate :=
  mk_ps basepf [] 0 false false TEOF [] [] [] (NFILE NTO 0 None) (mk_heredoc 0 [] false) ∅ 0
    false false 0 0 0 0 0.

(** [evalstring]'s view of a string: its commands one by one ([parser_eof] after
    each), until the end. *)
Fixpoint parse_all (n : nat) (k : nat) : P (list node) :=
  match k with
  | O => pfuel
  | S k =>
      c ← parsecmd n false;
      match c with
      | NODE_EOF => mret []
      | _ => l ← parse_all n k; mret (c :: l)
      end
  end.

Definition parse_string (n : nat) (s : cstr) : pres (list node) :=
  (setinputstring s;; parse_all n n) pstate_zero.
