(* ===== verification/AshParseSpec.v ===== *)
(** * shell/ash.c: the parser against a grammar of programs

    Shell programs as trees ([tree]), their text as a sequence of blank-separated
    lexemes with braces only where the precedence of the operators needs them,
    and the parse tree each stands for ([compile]).  The parser of AshParse maps
    the text to that parse tree. *)

From Stdlib Require Import Ascii String ZArith Lia.
From stdpp Require Import base gmap list strings.
From S2P Require Import Prelude Clib LibbbStr LibbbNum AshInput AshLex AshParse.

Local Open Scope Z_scope.

(** ** Programs *)

Inductive rop := RTo | RClobber | RAppend | RFrom | RFromTo.

Inductive tree :=
  | Simple (vars : list (cstr * list wpart)) (args : list (list wpart)) (redirs : list redirection)
  | Pipe (t1 : tree) (ts : list tree)            (* t1 | t2 | ... *)
  | Not (t : tree)
  | And (a b : tree)
  | Or (a b : tree)
  | Bg (t : tree)                                (* t & *)
  | Seq (a b : tree)
  | If (test ifpart : tree) (elifs : list (tree * tree)) (elsepart : option tree)
  | While (test body : tree)
  | Until (test body : tree)
  | For (var : cstr) (words : list (list wpart)) (body : tree)
  | Case (w : list wpart) (clauses : list clause)
  | Fun (name : cstr) (body : tree)
  | Subshell (t : tree) (redirs : list redirection)
  | Redir (t : tree) (redirs : list redirection)
with wpart :=
  | WLit (s : cstr)
  | WSq (s : cstr)
  | WDq (l : list dpart)
  | WEsc (c : ascii)
  | WVar (name : cstr)
  | WCmd (t : tree)
with dpart :=
  | DChar (c : ascii)
  | DVar (name : cstr)
  | DCmd (t : tree)
with redirection :=
  | RFile (fd : option nat) (op : rop) (w : list wpart)
  | RDup (fd : option nat) (out : bool) (target : option nat)   (* None is "-" *)
with clause := Clause (pats : list (list wpart)) (body : option tree).

Abbreviation word := (list wpart).

(** ** Words *)

Definition is_class (s : syntaxid) (c : synclass) (a : ascii) : bool := bool_decide (SIT (Some a) s = c).

(** The characters a backslash is needed for between double quotes. *)
Definition dq_special (a : ascii) : bool := bool_decide (a ∈ ["034"; "\"; "$"; "`"]%char).

Definition esc_in (s : syntaxid) (a : ascii) : cstr := if is_class s CCTL a then [CTLESC; a] else [a].

Definition valid_name (n : cstr) : bool :=
  match n with c :: r => is_name c && forallb is_in_name r | [] => false end.

Definition var_text (name : cstr) : cstr := CTLVAR :: chr VSNORMAL :: name ++ ["="%char].

(** The encoded text of a part, and the commands it substitutes, given their
    parse trees. *)
Section Encode.
Context (L : Z) (comp : tree -> node).

Definition dtext (d : dpart) : cstr :=
  match d with
  | DChar c => if dq_special c then [CTLESC; c] else esc_in DQSYNTAX c
  | DVar name => var_text name
  | DCmd _ => [CTLBACKQ]
  end.
Definition dbq (d : dpart) : list node := match d with DCmd t => [comp t] | _ => [] end.

Definition ptext (p : wpart) : cstr :=
  match p with
  | WLit s => s
  | WSq s => CTLQUOTEMARK :: concat (map (esc_in SQSYNTAX) s) ++ [CTLQUOTEMARK]
  | WDq l => CTLQUOTEMARK :: concat (map dtext l) ++ [CTLQUOTEMARK]
  | WEsc c => [CTLESC; c]
  | WVar name => var_text name
  | WCmd _ => [CTLBACKQ]
  end.
Definition pbq (p : wpart) : list node :=
  match p with WCmd t => [comp t] | WDq l => concat (map dbq l) | _ => [] end.

Definition wtext (w : word) : cstr := concat (map ptext w).
Definition wbq (w : word) : list node := concat (map pbq w).
Definition warg (w : word) : arg := NARG (wtext w) (wbq w).

Definition rfd (fd : option nat) (d : Z) : Z := match fd with Some n => Z.of_nat n | None => d end.
Definition rop_type (op : rop) : ftype :=
  match op with RTo => NTO | RClobber => NCLOBBER | RAppend => NAPPEND | RFrom => NFROM | RFromTo => NFROMTO end.
Definition rop_fd (op : rop) : Z := match op with RTo | RClobber | RAppend => 1 | RFrom | RFromTo => 0 end.

Definition rnode (r : redirection) : redir :=
  match r with
  | RFile fd op w => NFILE (rop_type op) (rfd fd (rop_fd op)) (Some (warg w))
  | RDup fd out target =>
      NDUP (if out then NTOFD else NFROMFD) (rfd fd (if out then 1 else 0))
        (match target with Some n => Z.of_nat n | None => -1 end) None
  end.
End Encode.

(** A quoted part makes the whole word quoted. *)
Definition quoted_part (p : wpart) : bool :=
  match p with WSq _ | WDq _ | WEsc _ => true | _ => false end.
Definition quoted (w : word) : bool := existsb quoted_part w.

(** ** Parse trees of programs; [L] is the line they stand on *)

Definition bg_node (n : node) : node :=
  match n with
  | NPIPE _ l => NPIPE true l
  | NREDIR l n r => NBACKGND l n r
  | _ => NBACKGND 0 n []
  end.

Fixpoint compile (L : Z) (t : tree) : node :=
  let rec := compile L in
  match t with
  | Simple vars args redirs =>
      NCMD L (map (fun v => warg rec (WLit (v.1 ++ ["="%char]) :: v.2)) vars) (map (warg rec) args)
        (map (rnode rec) redirs)
  | Pipe t1 ts => NPIPE false (rec t1 :: map rec ts)
  | Not t => NNOT (rec t)
  | And a b => NAND (rec a) (rec b)
  | Or a b => NOR (rec a) (rec b)
  | Bg t => bg_node (rec t)
  | Seq a b => NSEMI (rec a) (rec b)
  | If test ifpart elifs elsepart =>
      nest_if ((rec test, rec ifpart) :: map (fun e => (rec e.1, rec e.2)) elifs)
        (match elsepart with Some e => rec e | None => Null end)
  | While a b => NWHILE (rec a) (rec b)
  | Until a b => NUNTIL (rec a) (rec b)
  | For var words body => NFOR L (map (warg rec) words) (rec body) var
  | Case w clauses =>
      NCASE L (warg rec w) (map (fun c => match c with
        | Clause pats body => NCLIST (map (warg rec) pats) (match body with Some b => rec b | None => Null end)
        end) clauses)
  | Fun name body => NDEFUN L name (rec body)
  | Subshell t redirs => NSUBSHELL L (rec t) (map (rnode rec) redirs)
  | Redir t redirs => NREDIR L (rec t) (map (rnode rec) redirs)
  end.

(** ** Lexemes *)

(** What [xxreadtoken] makes of a piece of text: an operator, a word (its text,
    commands, and whether it is quoted), or a redirection operator. *)
Inductive item :=
  | IOp (t : token)
  | IWord (text : cstr) (bq : list node) (q : bool)
  | IRedir (r : redir).

Record lexeme := mk_lexeme { l_src : cstr; l_item : item }.

(** Each lexeme stands behind a blank. *)
Definition text (l : list lexeme) : cstr := concat (map (fun x => SP :: l_src x) l).

Definition op (s : string) (t : token) : lexeme := mk_lexeme (lit s) (IOp t).
Definition kw (s : string) : lexeme := mk_lexeme (lit s) (IWord (lit s) [] false).
Arguments op s%_string t.
Arguments kw s%_string.
Definition name_lexeme (n : cstr) : lexeme := mk_lexeme n (IWord n [] false).

Definition brace (l : list lexeme) : list lexeme := kw "{" :: l ++ [kw "}"].

Section Source.
Context (comp : tree -> node) (list_of : tree -> list lexeme).

Definition cmd_src (t : tree) : cstr := lit "$(" ++ text (list_of t) ++ lit " )".
Definition var_src (name : cstr) : cstr := lit "${" ++ name ++ lit "}".
Definition dsrc (d : dpart) : cstr :=
  match d with
  | DChar c => if dq_special c then ["\"%char; c] else [c]
  | DVar name => var_src name
  | DCmd t => cmd_src t
  end.
Definition psrc (p : wpart) : cstr :=
  match p with
  | WLit s => s
  | WSq s => "'"%char :: s ++ ["'"%char]
  | WDq l => "034"%char :: concat (map dsrc l) ++ ["034"%char]
  | WEsc c => ["\"%char; c]
  | WVar name => var_src name
  | WCmd t => cmd_src t
  end.
Definition wsrc (w : word) : cstr := concat (map psrc w).

Definition word_lexeme (w : word) : lexeme := mk_lexeme (wsrc w) (IWord (wtext w) (wbq comp w) (quoted w)).

Definition fd_src (fd : option nat) : cstr := match fd with Some n => fmt_u (Z.of_nat n) | None => [] end.
Definition rop_src (op : rop) : cstr :=
  match op with
  | RTo => lit ">" | RClobber => lit ">|" | RAppend => lit ">>" | RFrom => lit "<" | RFromTo => lit "<>"
  end.
Definition rd_lexemes (r : redirection) : list lexeme :=
  match r with
  | RFile fd op w =>
      [mk_lexeme (fd_src fd ++ rop_src op) (IRedir (NFILE (rop_type op) (rfd fd (rop_fd op)) None)); word_lexeme w]
  | RDup fd out target =>
      [mk_lexeme (fd_src fd ++ lit (if out then ">&" else "<&"))
         (IRedir (NDUP (if out then NTOFD else NFROMFD) (rfd fd (if out then 1 else 0)) 0 None));
       name_lexeme (match target with Some n => fmt_u (Z.of_nat n) | None => lit "-" end)]
  end.
End Source.

(** ** The text of a program *)

(** How tightly a tree binds: commands, pipelines, "!", and-or lists,
    background commands, sequences. *)
Definition level (t : tree) : nat :=
  match t with
  | Pipe _ _ => 1
  | Not _ => 2
  | And _ _ | Or _ _ => 3
  | Bg _ => 4
  | Seq _ _ => 5
  | _ => 0
  end.

(** A tree's own lexemes, and its lexemes as a list of commands, each with its
    terminator. *)
Record printed := mk_printed { own : list lexeme; lst : list lexeme }.

(** [t] where an operator allows level [n], braced if it binds less tightly. *)
Definition at_level (n : nat) (t : tree) (p : printed) : list lexeme :=
  if (level t <=? n)%nat then own p else brace (lst p).

(** [t] as the last element of a list. *)
Definition elem_of_list (t : tree) (p : printed) : list lexeme :=
  match t with
  | Seq _ _ => brace (lst p) ++ [op ";" TSEMI]
  | _ => lst p
  end.

Definition terminated (l : list lexeme) : printed := mk_printed l (l ++ [op ";" TSEMI]).

Fixpoint sep_by (sep : lexeme) (l : list lexeme) : list lexeme :=
  match l with
  | [] => []
  | [x] => [x]
  | x :: l => x :: sep :: sep_by sep l
  end.

Fixpoint print (L : Z) (t : tree) : printed :=
  let rec := print L in
  let list_of t := lst (rec t) in
  let comp := compile L in
  let wl w := word_lexeme comp list_of w in
  let rds := fix rds l := match l with [] => [] | r :: l => rd_lexemes comp list_of r ++ rds l end in
  match t with
  | Simple vars args redirs =>
      terminated (map (fun v => wl (WLit (v.1 ++ ["="%char]) :: v.2)) vars ++ map wl args ++ rds redirs)
  | Pipe t1 ts =>
      terminated (at_level 0 t1 (rec t1) ++ concat (map (fun t => op "|" TPIPE :: at_level 0 t (rec t)) ts))
  | Not t => terminated (kw "!" :: at_level 1 t (rec t))
  | And a b => terminated (at_level 3 a (rec a) ++ op "&&" TAND :: at_level 2 b (rec b))
  | Or a b => terminated (at_level 3 a (rec a) ++ op "||" TOR :: at_level 2 b (rec b))
  | Bg t => let l := at_level 3 t (rec t) ++ [op "&" TBACKGND] in mk_printed l l
  | Seq a b => let l := lst (rec a) ++ elem_of_list b (rec b) in mk_printed l l
  | If test ifpart elifs elsepart =>
      terminated (kw "if" :: lst (rec test) ++ kw "then" :: lst (rec ifpart) ++
        concat (map (fun e => kw "elif" :: lst (rec e.1) ++ kw "then" :: lst (rec e.2)) elifs) ++
        match elsepart with Some e => kw "else" :: lst (rec e) | None => [] end ++ [kw "fi"])
  | While a b => terminated (kw "while" :: lst (rec a) ++ kw "do" :: lst (rec b) ++ [kw "done"])
  | Until a b => terminated (kw "until" :: lst (rec a) ++ kw "do" :: lst (rec b) ++ [kw "done"])
  | For var words body =>
      terminated (kw "for" :: name_lexeme var :: kw "in" :: map wl words ++
        op ";" TSEMI :: kw "do" :: lst (rec body) ++ [kw "done"])
  | Case w clauses =>
      terminated (kw "case" :: wl w :: kw "in" ::
        concat (map (fun c => match c with
          | Clause pats body =>
              op "(" TLP :: sep_by (op "|" TPIPE) (map wl pats) ++ op ")" TRP ::
              match body with Some b => lst (rec b) | None => [] end ++ [op ";;" TENDCASE]
          end) clauses) ++ [kw "esac"])
  | Fun name body =>
      terminated (name_lexeme name :: op "(" TLP :: op ")" TRP :: at_level 0 body (rec body))
  | Subshell t redirs => terminated (op "(" TLP :: lst (rec t) ++ op ")" TRP :: rds redirs)
  | Redir t redirs => terminated (brace (lst (rec t)) ++ rds redirs)
  end.

(** A program on one line. *)
Definition line (t : tree) : cstr := text (lst (print 0 t)) ++ [NL].
Definition script (ts : list tree) : cstr := concat (map line ts).

(** ** Well-formed programs *)

Definition no_nl (s : cstr) : bool := bool_decide (NL ∉ s).
Definition lit_char (a : ascii) : bool := is_class BASESYNTAX CWORD a || is_class BASESYNTAX CENDVAR a.
Definition wf_fd (fd : option nat) : bool := match fd with Some n => (n <=? 9)%nat | None => true end.

Definition is_keyword (w : word) : bool :=
  negb (quoted w) && match findkwd (wtext w) with Some _ => true | None => false end.

(** A word does not start a comment. *)
Definition no_hash (w : word) : bool :=
  match w with
  | WLit (c :: _) :: _ => negb (c ≟ "#"%char)
  | _ => true
  end.

Section Wf.
Context (wf : tree -> bool).

Definition wf_dpart (d : dpart) : bool :=
  match d with
  | DChar c => negb (c ≟ NL)
  | DVar name => valid_name name
  | DCmd t => wf t
  end.
Definition wf_part (p : wpart) : bool :=
  match p with
  | WLit s => negb (bool_decide (s = [])) && forallb lit_char s
  | WSq s => bool_decide ("'"%char ∉ s) && no_nl s
  | WDq l => forallb wf_dpart l
  | WEsc c => negb (c ≟ NL)
  | WVar name => valid_name name
  | WCmd t => wf t
  end.
Definition wf_word (w : word) : bool := negb (bool_decide (w = [])) && no_hash w && forallb wf_part w.
Definition wf_rd (r : redirection) : bool :=
  match r with
  | RFile fd op w => wf_fd fd && wf_word w
  | RDup fd out target => wf_fd fd && wf_fd target
  end.
Definition wf_clause (c : clause) : bool :=
  match c with
  | Clause pats body => negb (bool_decide (pats = [])) && forallb wf_word pats &&
                        match body with Some b => wf b | None => true end
  end.
End Wf.

Definition plain_name (n : cstr) : bool :=
  valid_name n && match findkwd n with Some _ => false | None => true end.

Fixpoint wf (t : tree) : bool :=
  match t with
  | Simple vars args redirs =>
      forallb (fun v => valid_name v.1 && forallb (wf_part wf) v.2) vars &&
      forallb (wf_word wf) args && forallb (wf_rd wf) redirs &&
      match args with
      | w :: _ => negb (isassignment (wtext w)) && negb (is_keyword w)
      | [] => negb (bool_decide (length vars + length redirs = 0)%nat)
      end
  | Pipe t1 ts => wf t1 && forallb wf ts && negb (bool_decide (length ts = 0%nat))
  | Not t | Bg t => wf t
  | And a b | Or a b | Seq a b | While a b | Until a b => wf a && wf b
  | If test ifpart elifs elsepart =>
      wf test && wf ifpart && forallb (fun e => wf e.1 && wf e.2) elifs &&
      match elsepart with Some e => wf e | None => true end
  | For var words body => valid_name var && forallb (wf_word wf) words && wf body
  | Case w clauses => wf_word wf w && forallb (wf_clause wf) clauses
  | Fun name body =>
      plain_name name && wf body &&
      match find_builtin name with Some flag => negb (IS_BUILTIN_SPECIAL flag) | None => true end
  | Subshell t redirs => wf t && forallb (wf_rd wf) redirs
  | Redir t redirs =>
      wf t && forallb (wf_rd wf) redirs && negb (bool_decide (length redirs = 0%nat)) &&
      match t with Subshell _ _ => false | _ => true end
  end.
