(* ===== verification/AshLexRun.v ===== *)
(** * shell/ash.c: running the tokenizer

    [ev m pre a post]: with enough fuel, [m] ends with the value [a] in a state
    satisfying [post], from every state satisfying [pre].  Rules for sequences
    and loops, the input layer, and the words of AshParseSpec. *)

From Stdlib Require Import Ascii String ZArith Lia.
From stdpp Require Import base gmap list strings.
From S2P Require Import Prelude Clib LibbbStr LibbbNum AshInput AshLex AshParse AshParseSpec.

Local Open Scope Z_scope.

(** ** Rules *)

Definition ev {A} (m : procs -> P A) (pre : pstate -> Prop) (a : A) (post : pstate -> Prop) : Prop :=
  exists N, forall n, (N <= n)%nat -> forall s, pre s -> exists s', m (procs_at n) s = POk s' a /\ post s'.

(** The loop of [body] with its own fuel. *)
Definition lev {A B} (body : procs -> A -> P (A + B)) (pre : pstate -> Prop) (a : A) (b : B)
    (post : pstate -> Prop) : Prop :=
  exists N, forall n m, (N <= n)%nat -> (N <= m)%nat -> forall s, pre s ->
    exists s', loop (body (procs_at n)) m a s = POk s' b /\ post s'.

Lemma ev_bind {A B} (m : procs -> P A) (f : procs -> A -> P B) pre a mid b post :
  ev m pre a mid -> ev (fun k => f k a) mid b post -> ev (fun k => m k ≫= f k) pre b post.
Proof.
  intros [N1 H1] [N2 H2]. exists (N1 + N2)%nat. intros n Hn s Hs.
  destruct (H1 n ltac:(lia) s Hs) as (s1 & E1 & Hs1). destruct (H2 n ltac:(lia) s1 Hs1) as (s2 & E2 & Hs2).
  exists s2. split; [|done]. unfold mbind, P_bind. by rewrite E1.
Qed.

Lemma ev_ret {A} (pre post : pstate -> Prop) (a : A) : (forall s, pre s -> post s) -> ev (fun _ => mret a) pre a post.
Proof. intros H. exists 0%nat. intros n _ s Hs. exists s. split; [done|by apply H]. Qed.

Lemma ev_get {A} (f : pstate -> A) (pre : pstate -> Prop) a : (forall s, pre s -> f s = a) -> ev (fun _ => get f) pre a pre.
Proof. intros H. exists 0%nat. intros n _ s Hs. exists s. split; [|done]. unfold get. by rewrite H. Qed.

Lemma ev_modify (f : pstate -> pstate) (pre post : pstate -> Prop) :
  (forall s, pre s -> post (f s)) -> ev (fun _ => modify f) pre tt post.
Proof. intros H. exists 0%nat. intros n _ s Hs. exists (f s). split; [done|by apply H]. Qed.

Lemma ev_weaken {A} (m : procs -> P A) (pre pre' post post' : pstate -> Prop) a :
  ev m pre a post -> (forall s, pre' s -> pre s) -> (forall s, post s -> post' s) -> ev m pre' a post'.
Proof. intros [N H] H1 H2. exists N. intros n Hn s Hs. destruct (H n Hn s (H1 s Hs)) as (s' & ? & ?). eauto. Qed.

Lemma ev_ext {A} (m m' : procs -> P A) pre a post : (forall k, m k = m' k) -> ev m pre a post -> ev m' pre a post.
Proof. intros E [N H]. exists N. intros n Hn s Hs. rewrite <- E. by apply H. Qed.

(** A known value in front. *)
Lemma ev_get_bind {A B} (g : pstate -> A) (f : procs -> A -> P B) pre a b post :
  (forall s, pre s -> g s = a) -> ev (fun k => f k a) pre b post -> ev (fun k => get g ≫= f k) pre b post.
Proof. intros H Hf. eapply ev_bind; [by apply ev_get|done]. Qed.

Lemma ev_modify_bind {B} (g : pstate -> pstate) (f : procs -> unit -> P B) pre mid b post :
  (forall s, pre s -> mid (g s)) -> ev (fun k => f k tt) mid b post -> ev (fun k => modify g ≫= f k) pre b post.
Proof. intros H Hf. eapply ev_bind; [by apply ev_modify|done]. Qed.

Lemma ev_ret_bind {A B} (a : A) (f : procs -> A -> P B) pre b post :
  ev (fun k => f k a) pre b post -> ev (fun k => mret a ≫= f k) pre b post.
Proof. intros Hf. eapply ev_bind; [by apply ev_ret|done]. Qed.

Lemma lev_done {A B} (body : procs -> A -> P (A + B)) pre a b post :
  ev (fun k => body k a) pre (inr b) post -> lev body pre a b post.
Proof.
  intros [N H]. exists (S N). intros n m Hn Hm s Hs. destruct (H n ltac:(lia) s Hs) as (s' & E & Hs').
  exists s'. split; [|done]. destruct m as [|m]; [lia|]. cbn [loop]. unfold mbind, P_bind. by rewrite E.
Qed.

Lemma lev_step {A B} (body : procs -> A -> P (A + B)) pre mid a a' b post :
  ev (fun k => body k a) pre (inl a') mid -> lev body mid a' b post -> lev body pre a b post.
Proof.
  intros [N1 H1] [N2 H2]. exists (S (N1 + N2))%nat. intros n m Hn Hm s Hs.
  destruct (H1 n ltac:(lia) s Hs) as (s1 & E1 & Hs1). destruct m as [|m]; [lia|].
  destruct (H2 n m ltac:(lia) ltac:(lia) s1 Hs1) as (s2 & E2 & Hs2). exists s2. split; [|done].
  cbn [loop]. unfold mbind at 1, P_bind at 1. by rewrite E1.
Qed.

Lemma lev_weaken {A B} (body : procs -> A -> P (A + B)) (pre pre' post post' : pstate -> Prop) a b :
  lev body pre a b post -> (forall s, pre' s -> pre s) -> (forall s, post s -> post' s) -> lev body pre' a b post'.
Proof.
  intros [N H] H1 H2. exists N. intros n m Hn Hm s Hs. destruct (H n m Hn Hm s (H1 s Hs)) as (s' & ? & ?). eauto.
Qed.

Lemma procs_at_fuel n : k_fuel (procs_at n) = n.
Proof. by destruct n. Qed.

Lemma ev_loop {A B} (body : procs -> A -> P (A + B)) pre a b post :
  lev body pre a b post -> ev (fun k => loop (body k) (k_fuel k) a) pre b post.
Proof.
  intros [N H]. exists N. intros n Hn s Hs. rewrite procs_at_fuel. by apply H.
Qed.

(** Calls one level down. *)
Lemma ev_k_list fl pre c post : ev (fun k => parse_list k fl) pre c post -> ev (fun k => k_list k fl) pre c post.
Proof. intros [N H]. exists (S N). intros [|n] Hn; [lia|]. cbn [procs_at k_list]. apply H. lia. Qed.

Lemma ev_k_parse_command pre c post : ev parse_command pre c post -> ev k_parse_command pre c post.
Proof. intros [N H]. exists (S N). intros [|n] Hn; [lia|]. cbn [procs_at k_parse_command]. apply H. lia. Qed.

Lemma ev_k_readtoken pre t post : ev readtoken pre t post -> ev k_readtoken pre t post.
Proof. intros [N H]. exists (S N). intros [|n] Hn; [lia|]. cbn [procs_at k_readtoken]. apply H. lia. Qed.

Lemma ev_k_parseheredoc pre post : ev parseheredoc pre tt post -> ev k_parseheredoc pre tt post.
Proof. intros [N H]. exists (S N). intros [|n] Hn; [lia|]. cbn [procs_at k_parseheredoc]. apply H. lia. Qed.

(** ** Input from a string *)

Definition left_ok (l : Z) (r : cstr) : Prop := l = Z.of_nat (length r) \/ (r = [] /\ l <= 0).

(** What is left to read is [r], perhaps with its first character ungot. *)
Record inp (f : parsefile) (r : cstr) : Prop := mk_inp {
  i_buf : f_buf f = false;
  i_strpush : f_strpush f = [];
  i_text : (f_unget f = 0%nat /\ f_next f = r /\ left_ok (f_left_in_line f) r) \/
           (f_unget f = 1%nat /\ fst (f_lastc f) = head r /\ f_next f = tail r /\ left_ok (f_left_in_line f) (tail r));
}.

(** The same after the first character of [r] was read: it can be ungot. *)
Record got (f : parsefile) (r : cstr) : Prop := mk_got {
  g_buf : f_buf f = false;
  g_strpush : f_strpush f = [];
  g_unget : f_unget f = 0%nat;
  g_last : fst (f_lastc f) = head r;
  g_next : f_next f = tail r;
  g_left : left_ok (f_left_in_line f) (tail r);
}.

Lemma got_inp f r : got f r -> inp f (tail r).
Proof. intros []. split; [done..|]. by left. Qed.

Lemma got_unget f r : got f r -> inp (f_set_unget 1 f) r.
Proof. intros []. split; [done..|]. by right. Qed.

Lemma pgetc_spec s r : inp (p_file s) r ->
  exists f, pgetc s = POk (set_file f s) (head r) /\ got f r /\ f_linno f = f_linno (p_file s).
Proof.
  intros [Hb Hp [(Hu & Hn & Hl)|(Hu & Hc & Hn & Hl)]].
  - unfold pgetc, mbind, P_bind, get. rewrite Hp. cbn [length pgetc_]. unfold mbind, P_bind, get. rewrite Hu.
    cbn [file_modify modify p_file set_file].
    destruct r as [|a r].
    + assert (f_left_in_line (p_file s) <= 0) as Hle by (destruct Hl as [Hl|[_ Hl]]; [rewrite Hl; cbn; lia|lia]).
      rewrite (proj2 (Z.leb_gt 0 _)) by lia. rewrite Hp. unfold preadbuffer. cbn. rewrite Hb. cbn.
      eexists. split; [reflexivity|]. split; [|done]. split; try done. cbn. right. split; [done|lia].
    + assert (f_left_in_line (p_file s) = Z.of_nat (S (length r))) as Hle by (destruct Hl as [Hl|[? _]]; [exact Hl|done]).
      rewrite (proj2 (Z.leb_le 0 _)) by lia. rewrite Hn. cbn.
      eexists. split; [reflexivity|]. split; [|done]. split; try done. cbn. left. rewrite Hle. lia.
  - unfold pgetc, mbind, P_bind, get. rewrite Hp. cbn [length pgetc_]. unfold mbind, P_bind, get. rewrite Hu.
    cbn. rewrite Hc. eexists. split; [reflexivity|]. by split.
Qed.

Definition starts_bnl (r : cstr) : bool := (hd0 r ≟ "\"%char) && (at0 r 1 ≟ NL).

Lemma eatbnl_loop n s r : starts_bnl r = false -> inp (p_file s) r -> exists f,
  loop eatbnl_body (S n) tt s = POk (set_file f s) (head r) /\ inp f (tail r) /\
  (head r <> Some "\"%char -> got f r) /\ f_linno f = f_linno (p_file s).
Proof.
  intros Hr Hi. destruct (pgetc_spec s r Hi) as (f & E & Hg & Hln). cbn [loop].
  unfold mbind, P_bind, eatbnl_body, mbind, P_bind. rewrite E.
  destruct r as [|a r]; cbn [head is_char].
  - exists f. split; [reflexivity|]. split; [by apply (got_inp f [])|]. by split.
  - destruct (Ascii.eqb_spec a "\"%char) as [-> |Ha].
    + destruct (pgetc_spec (set_file f s) r (got_inp f _ Hg)) as (f2 & E2 & Hg2 & Hln2). rewrite E2.
      assert (is_char (head r) NL = false) as ->.
      { unfold starts_bnl in Hr. cbn in Hr. destruct r as [|b r]; [done|]. exact Hr. }
      cbn. exists (f_set_unget (S (f_unget f2)) f2). split; [reflexivity|]. rewrite (g_unget _ _ Hg2).
      split; [by apply got_unget|]. split; [done|]. cbn. by rewrite Hln2.
    + exists f. split; [reflexivity|]. split; [by apply (got_inp f (a :: r))|]. by split.
Qed.

(** ** States of the tokenizer *)

(** What stays the same while one line is read. *)
Record env := mk_env {
  e_linno : Z; e_prev : list parsefile; e_docs : gmap nat hdoc; e_ndocs : nat; e_doprompt : bool;
  e_trap_depth : Z; e_lineno : Z
}.

Record env_is (e : env) (s : pstate) : Prop := mk_env_is {
  v_linno : f_linno (p_file s) = e_linno e;
  v_prev : p_prev s = e_prev e;
  v_docs : p_docs s = e_docs e;
  v_ndocs : p_ndocs s = e_ndocs e;
  v_doprompt : p_doprompt s = e_doprompt e;
  v_trap_depth : p_trap_depth s = e_trap_depth e;
  v_lineno : p_lineno s = e_lineno e;
  v_needprompt : p_needprompt s = false;
  v_heredoclist : p_heredoclist s = [];
  v_tokpushback : p_tokpushback s = false;
}.

(** At the text [r], with flags [kwd] or none. *)
Definition rd (e : env) (kwd : Z) (r : cstr) (s : pstate) : Prop :=
  env_is e s /\ inp (p_file s) r /\ (p_checkkwd s = kwd \/ p_checkkwd s = 0).

(** Just behind the first character of [r]. *)
Definition rg (e : env) (kwd : Z) (r : cstr) (s : pstate) : Prop :=
  env_is e s /\ got (p_file s) r /\ (p_checkkwd s = kwd \/ p_checkkwd s = 0).

(** The current character is the first of [r]; behind a backslash nothing can
    be ungot. *)
Definition cur (e : env) (kwd : Z) (r : cstr) (s : pstate) : Prop :=
  rd e kwd (tail r) s /\ (head r <> Some "\"%char -> rg e kwd r s).

Lemma rg_rd e kwd r s : rg e kwd r s -> rd e kwd (tail r) s.
Proof. intros (? & ? & ?). split_and!; try done. by apply got_inp. Qed.

Lemma rg_cur e kwd r s : rg e kwd r s -> cur e kwd r s.
Proof. intros H. split; [by apply rg_rd|done]. Qed.

Lemma env_is_file e f s : env_is e s -> f_linno f = f_linno (p_file s) -> env_is e (set_file f s).
Proof. intros [] ?. split; try done. cbn. congruence. Qed.

Lemma ev_pgetc e kwd r : ev (fun _ => pgetc) (rd e kwd r) (head r) (rg e kwd r).
Proof.
  exists 0%nat. intros n _ s (He & Hi & Hk). destruct (pgetc_spec s r Hi) as (f & -> & Hg & Hl).
  eexists. split; [reflexivity|]. split_and!; try done. by apply env_is_file.
Qed.

Lemma ev_pungetc e kwd r : ev (fun _ => pungetc) (rg e kwd r) tt (rd e kwd r).
Proof.
  apply ev_modify. intros s (He & Hg & Hk). split_and!; try done.
  - apply env_is_file; [done|]. done.
  - cbn. rewrite (g_unget _ _ Hg). by apply got_unget.
Qed.

Lemma ev_eatbnl e kwd r : starts_bnl r = false ->
  ev (fun k => pgetc_eatbnl (k_fuel k)) (rd e kwd r) (head r) (cur e kwd r).
Proof.
  intros Hr. exists 1%nat. intros n Hn s (He & Hi & Hk). rewrite procs_at_fuel. destruct n as [|n]; [lia|].
  destruct (eatbnl_loop n s r Hr Hi) as (f & E & Hi' & Hg & Hl). exists (set_file f s). split; [exact E|].
  split; [|intros Hb]; split_and!; try done; try by apply env_is_file. by apply Hg.
Qed.

(** A token was read: what it left in the globals. *)
Definition has (it : item) (s : pstate) : Prop :=
  match it with
  | IOp _ => True
  | IWord w bq q => p_wordtext s = w /\ p_backquotelist s = bq /\ p_quoteflag s = q
  | IRedir n => p_redirnode s = n
  end.

Definition at_tok (e : env) (kwd : Z) (t : token) (it : item) (r : cstr) (s : pstate) : Prop :=
  rd e kwd r s /\ p_lasttoken s = t /\ has it s.

(** A token was read and pushed back. *)
Definition pushed (e : env) (kwd : Z) (t : token) (it : item) (r : cstr) (s : pstate) : Prop :=
  p_tokpushback s = true /\ at_tok e kwd t it r (set_tokpushback false s).

Lemma ev_case {A} (m : procs -> P A) (pre1 pre2 : pstate -> Prop) a post :
  ev m pre1 a post -> ev m pre2 a post -> ev m (fun s => pre1 s \/ pre2 s) a post.
Proof.
  intros [N1 H1] [N2 H2]. exists (N1 + N2)%nat. intros n Hn s [Hs|Hs]; [apply H1|apply H2]; (lia || done).
Qed.

Lemma ev_get_kwd {B} (f : procs -> Z -> P B) kwd pre b post :
  (forall s, pre s -> p_checkkwd s = kwd \/ p_checkkwd s = 0) ->
  ev (fun k => f k kwd) pre b post -> ev (fun k => f k 0) pre b post ->
  ev (fun k => get p_checkkwd ≫= f k) pre b post.
Proof.
  intros H [N1 H1] [N2 H2]. exists (N1 + N2)%nat. intros n Hn s Hs. unfold mbind, P_bind, get.
  destruct (H s Hs) as [-> | ->]; [apply H1|apply H2]; (lia || done).
Qed.

(** ** Reading a token again *)

Lemma has_checkkwd it v s : has it s -> has it (set_checkkwd v s).
Proof. by destruct it. Qed.

Lemma has_tokpushback it v s : has it s -> has it (set_tokpushback v s).
Proof. by destruct it. Qed.

Lemma has_lasttoken it v s : has it s -> has it (set_lasttoken v s).
Proof. by destruct it. Qed.

Lemma env_is_pushback e v s : env_is e s -> env_is e (set_tokpushback false (set_tokpushback v s)).
Proof. by intros []. Qed.

Lemma env_is_checkkwd e v s : env_is e s -> env_is e (set_checkkwd v s).
Proof. by intros []. Qed.

Lemma env_is_lasttoken e v s : env_is e s -> env_is e (set_lasttoken v s).
Proof. by intros []. Qed.

Lemma rd_checkkwd e kwd kwd' r s : rd e kwd r s -> rd e kwd' r (set_checkkwd kwd' s).
Proof. intros (? & ? & _). split_and!; [by apply env_is_checkkwd|done|by left]. Qed.

Lemma rd_lasttoken e kwd t r s : rd e kwd r s -> rd e kwd r (set_lasttoken t s).
Proof. intros (? & ? & ?). split_and!; [by apply env_is_lasttoken|done|done]. Qed.

Lemma at_tok_checkkwd e kwd kwd' t it r s : at_tok e kwd t it r s -> at_tok e kwd' t it r (set_checkkwd kwd' s).
Proof. intros (? & ? & ?). split_and!; [by eapply rd_checkkwd|done|by apply has_checkkwd]. Qed.

Lemma pushed_checkkwd e kwd kwd' t it r s : pushed e kwd t it r s -> pushed e kwd' t it r (set_checkkwd kwd' s).
Proof. intros [Hp Ht]. split; [done|]. by apply (at_tok_checkkwd e kwd kwd') in Ht. Qed.

(** [tokpushback = 1] *)
Lemma ev_push_back e kwd t it r : ev (fun _ => push_back) (at_tok e kwd t it r) tt (pushed e kwd t it r).
Proof.
  apply ev_modify. intros s ((He & Hi & Hk) & Hl & Hh). split; [done|]. split; [|split; [done|by destruct it]].
  split; [by apply env_is_pushback|done].
Qed.

(** A word that was pushed back and is no keyword stays a word. *)
Definition stays_word (t : token) (it : item) : Prop :=
  t <> TNL /\ (t = TWORD -> exists w bq q, it = IWord w bq q /\ (q = true \/ findkwd w = None)).

Lemma ev_readtoken_pushed e kwd t it r : stays_word t it ->
  ev readtoken (pushed e kwd t it r) t (at_tok e 0 t it r).
Proof.
  intros [Hnl Hw]. exists 1%nat. intros n Hn s [Hp ((He & Hi & Hk) & Hl & Hh)].
  cbn in Hl. unfold readtoken, xxreadtoken, mbind, P_bind, get, modify. rewrite Hp. cbn [p_lasttoken set_tokpushback].
  rewrite Hl, procs_at_fuel. destruct n as [|n]; [lia|].
  assert ((if chk (p_checkkwd s) CHKNL then loop (newlines_body (procs_at (S n))) (S n) t else mret t) =
    (mret t : P token)) as ->.
  { destruct (chk _ CHKNL); [|done]. cbn [loop]. unfold newlines_body. by rewrite bool_decide_eq_false_2. }
  unfold mret, P_ret. cbn [p_quoteflag set_tokpushback set_checkkwd p_checkkwd p_wordtext].
  assert (at_tok e 0 t it r (set_checkkwd 0 (set_tokpushback false s))) as Hat.
  { split; [|split; [done|by apply has_checkkwd]]. split; [by apply env_is_checkkwd|]. split; [done|by left]. }
  case_bool_decide as Ht; cbn [negb orb]; [|by eexists].
  destruct (Hw Ht) as (w & bq & q & -> & Hq). destruct Hh as (Hw1 & Hw2 & Hw3). cbn in Hw1, Hw3.
  rewrite Hw3. destruct q; [by eexists|]. destruct Hq as [|Hq]; [done|].
  destruct (chk _ CHKKWD); [|by eexists]. cbn [p_wordtext set_checkkwd set_tokpushback]. rewrite Hw1, Hq. by eexists.
Qed.

(** ** The characters of a word *)

Section Chars.
Context (e : env) (kwd : Z) (Hkwd : chk kwd CHKEOFMARK = false).
Context (b : lex) (post : pstate -> Prop).

Definition body (k : procs) : bool * lex -> P (bool * lex + lex) := readtoken1_body k NoMark false.

(** From the current character on: syntax [y], text [o] so far. *)
Definition runs (y : synstack) (r o : cstr) (q : bool) (bq : list node) : Prop :=
  lev body (cur e kwd r) (false, mk_lex (head r) o q bq y []) b post.

Lemma runs_turn pre x x' r : ev (fun k => char_turn k NoMark x) pre (Next x') (rd e kwd r) -> starts_bnl r = false ->
  lev body (cur e kwd r) (false, with_c (head r) x') b post -> lev body pre (false, x) b post.
Proof.
  intros H Hr Hl. eapply lev_step; [|exact Hl]. unfold body, readtoken1_body. apply ev_ret_bind.
  eapply ev_bind; [exact H|]. unfold pgetc_top. case_bool_decide.
  - eapply ev_bind; [apply ev_pgetc|]. apply ev_ret. intros s. apply rg_cur.
  - eapply ev_bind; [by apply ev_eatbnl|]. by apply ev_ret.
Qed.

(** A turn that reads nothing. *)
Lemma runs_pure a r y o q bq c' y' o' q' bq' :
  (forall k, char_turn k NoMark (mk_lex (Some a) o q bq y []) = mret (Next (mk_lex c' o' q' bq' y' []))) ->
  starts_bnl r = false -> runs y' r o' q' bq' -> runs y (a :: r) o q bq.
Proof.
  intros H Hr Hl. eapply (runs_turn _ _ (mk_lex c' o' q' bq' y' []) r); [|done|exact Hl].
  destruct (ev_ret (cur e kwd (a :: r)) (rd e kwd r) (Next (mk_lex c' o' q' bq' y' []))) as [N HN]; [by intros s [? _]|].
  exists N. intros n Hn s Hs. cbn [head]. rewrite H. by apply (HN n).
Qed.

Lemma runs_word y a r o q bq : SIT (Some a) (y_syntax y) = CWORD -> starts_bnl r = false ->
  runs y r (o ++ [a]) q bq -> runs y (a :: r) o q bq.
Proof. intros Hs Hr. apply runs_pure with (c' := Some a); [|done]. intros k. unfold char_turn. cbn [x_c x_syn]. by rewrite Hs. Qed.

Lemma runs_cctl y a r o q bq : SIT (Some a) (y_syntax y) = CCTL -> starts_bnl r = false ->
  runs y r (o ++ [CTLESC; a]) q bq -> runs y (a :: r) o q bq.
Proof.
  intros Hs Hr. change [CTLESC; a] with ([CTLESC] ++ [a]). rewrite app_assoc.
  apply runs_pure with (c' := Some a); [|done]. intros k. unfold char_turn. cbn [x_c x_syn]. by rewrite Hs.
Qed.

Lemma runs_endvar y a r o q bq : SIT (Some a) (y_syntax y) = CENDVAR -> y_varnest y = 0 -> starts_bnl r = false ->
  runs y r (o ++ [a]) q bq -> runs y (a :: r) o q bq.
Proof.
  intros Hs Hv Hr. apply runs_pure with (c' := Some a); [|done]. intros k. unfold char_turn.
  cbn [x_c x_syn]. rewrite Hs, Hv. by rewrite andb_false_r.
Qed.

Definition dqsyn : synstack := mk_syn DQSYNTAX false false true 0 0 0.

Lemma runs_sq_open r o q bq : starts_bnl r = false ->
  runs (syn_zero SQSYNTAX) r (o ++ [CTLQUOTEMARK]) q bq -> runs (syn_zero BASESYNTAX) ("'"%char :: r) o q bq.
Proof. intros Hr. by eapply runs_pure. Qed.

Lemma runs_sq_close r o q bq : starts_bnl r = false ->
  runs (syn_zero BASESYNTAX) r (o ++ [CTLQUOTEMARK]) true bq -> runs (syn_zero SQSYNTAX) ("'"%char :: r) o q bq.
Proof. intros Hr. by eapply runs_pure. Qed.

Lemma runs_dq_open r o q bq : starts_bnl r = false ->
  runs dqsyn r (o ++ [CTLQUOTEMARK]) q bq -> runs (syn_zero BASESYNTAX) ("034"%char :: r) o q bq.
Proof. intros Hr. by eapply runs_pure. Qed.

Lemma runs_dq_close r o q bq : starts_bnl r = false ->
  runs (syn_zero BASESYNTAX) r (o ++ [CTLQUOTEMARK]) true bq -> runs dqsyn ("034"%char :: r) o q bq.
Proof. intros Hr. by eapply runs_pure. Qed.

(** A backslash and the character it escapes. *)
Lemma runs_back y a r o q bq : y = syn_zero BASESYNTAX \/ (y = dqsyn /\ dq_special a = true) -> starts_bnl r = false ->
  runs y r (o ++ [CTLESC; a]) true bq -> runs y ("\"%char :: a :: r) o q bq.
Proof.
  intros Hy Hr H. eapply (runs_turn _ _ (mk_lex (Some "\"%char) (o ++ [CTLESC; a]) true bq y []) r); [|done|exact H].
  assert (SIT (Some "\"%char) (y_syntax y) = CBACK) as Hs by (by destruct Hy as [-> |[-> _]]).
  unfold char_turn. cbn [x_c x_syn head]. rewrite Hs.
  eapply ev_bind; [eapply ev_weaken; [apply (ev_pgetc e kwd (a :: r))|by intros s [? _]|by intros s ?]|]. cbn [head].
  assert (y_dblquote y && negb (a ≟ "\"%char) && negb (a ≟ "`"%char) && negb (a ≟ "$"%char)
    && (negb (a ≟ "034"%char) || (is_doc NoMark && negb (negb (y_varnest y =? 0))))
    && (negb (a ≟ "}"%char) || negb (negb (y_varnest y =? 0))) = false) as ->.
  { destruct Hy as [-> |[-> Ha]]; [done|]. unfold dq_special in Ha. apply bool_decide_eq_true in Ha.
    cbn [y_dblquote y_varnest dqsyn is_doc]. set_unfold in Ha. by destruct Ha as [-> |[-> |[-> |[-> |[]]]]]. }
  apply ev_ret. intros s Hg. by apply rg_rd in Hg.
Qed.

(** ** ${name} *)

Lemma in_name_bnl c r : is_in_name c = true -> starts_bnl (c :: r) = false.
Proof. intros H. unfold starts_bnl. cbn. destruct (Ascii.eqb_spec c "\"%char) as [-> |]; done. Qed.

Lemma name_chars n : forall c r x, forallb is_in_name n = true -> x_c x = Some c ->
  is_in_name_c (head r) = false -> starts_bnl r = false ->
  lev (fun k => chars_body (k_fuel k) is_in_name_c) (cur e kwd (c :: n ++ r)) x
    (with_c (head r) (puts (c :: n) x)) (cur e kwd r).
Proof.
  induction n as [|d n IH]; intros c r x Hn Hx Hr Hb; cbn [app] in *.
  - apply lev_done. unfold chars_body.
    eapply ev_bind; [eapply ev_weaken; [by apply (ev_eatbnl e kwd r)|by intros s [? _]|by intros s ?]|].
    rewrite Hr. unfold put_c. rewrite Hx. by apply ev_ret.
  - cbn in Hn. apply andb_true_iff in Hn as [Hd Hn].
    assert (puts (c :: d :: n) x = puts (d :: n) (putc c x)) as Ep.
    { unfold puts, putc. cbn. by rewrite <- app_assoc. }
    rewrite Ep. eapply lev_step; [|by apply (IH d r (with_c (Some d) (putc c x)))].
    unfold chars_body.
    eapply ev_bind; [eapply ev_weaken; [apply (ev_eatbnl e kwd (d :: n ++ r)); by apply in_name_bnl|by intros s [? _]|by intros s ?]|].
    cbn [head is_in_name_c]. rewrite Hd. unfold put_c. rewrite Hx. by apply ev_ret.
Qed.

Lemma cur_rd r s : cur e kwd r s -> rd e kwd (tail r) s.
Proof. by intros [? _]. Qed.

(** The next character, from the current one. *)
Lemma ev_next c r : starts_bnl r = false ->
  ev (fun k => pgetc_eatbnl (k_fuel k)) (cur e kwd (c :: r)) (head r) (cur e kwd r).
Proof. intros Hr. eapply ev_weaken; [by apply ev_eatbnl|intros s; apply cur_rd|done]. Qed.

Lemma varname_spec c n r x : is_name c = true -> forallb is_in_name n = true -> x_c x = Some c ->
  ev (fun k => varname (k_fuel k) 1 0 x) (cur e kwd (c :: n ++ "}"%char :: r))
    (with_c (Some "}"%char) (puts (c :: n) x), 0, false) (cur e kwd ("}"%char :: r)).
Proof.
  intros Hc Hn Hx. cbn [varname]. rewrite Hx. cbn [is_name_c]. rewrite Hc.
  eapply ev_bind; [|by apply ev_ret]. apply (ev_loop (fun k => chars_body (k_fuel k) is_in_name_c)).
  by apply (name_chars n c ("}"%char :: r) x).
Qed.

Lemma is_name_in_name c : is_name c = true -> is_in_name c = true.
Proof.
  unfold is_name, is_in_name. intros H. apply orb_true_iff in H as [-> |H]; [done|]. unfold isalnum.
  apply orb_true_iff. right. cbv zeta. destruct (_ <=? 9); [done|exact H].
Qed.

Lemma insert_behind (o r : cstr) a c : <[length o := c]> (o ++ a :: r) = o ++ c :: r.
Proof. induction o as [|d o IH]; cbn; [done|]. f_equal. apply IH. Qed.

Lemma runs_var y name r o q bq : y = syn_zero BASESYNTAX \/ y = dqsyn -> valid_name name = true -> starts_bnl r = false ->
  runs y r (o ++ var_text name) q bq -> runs y (var_src name ++ r) o q bq.
Proof.
  intros Hy Hname Hr H. unfold var_src. rewrite <- !app_assoc.
  destruct name as [|c n]; [done|]. cbn in Hname. apply andb_true_iff in Hname as [Hc Hn].
  pose proof (is_name_in_name c Hc) as Hc'. cbn [app lit list_ascii_of_string].
  eapply (runs_turn _ _ (mk_lex (Some "}"%char) (o ++ var_text (c :: n)) q bq y []) r); [|done|exact H].
  assert (SIT (Some "$"%char) (y_syntax y) = CVAR) as Hs by (by destruct Hy as [-> | ->]).
  unfold char_turn. cbn [x_c x_syn head]. rewrite Hs.
  eapply ev_bind with (mid := rd e kwd r); [|by apply ev_ret].
  unfold parsesub. eapply ev_bind; [by apply ev_next|]. cbn [head].
  assert (forall kw, chk kw CHKEOFMARK = false ->
    ev (fun k => parsesub_var (k_fuel k) (with_c (Some "{"%char) (mk_lex (Some "$"%char) o q bq y [])))
      (cur e kwd ("{"%char :: c :: n ++ "}"%char :: r)) (mk_lex (Some "}"%char) (o ++ var_text (c :: n)) q bq y [])
      (rd e kwd r)) as Hvar.
  { intros kw _. unfold parsesub_var. cbn [x_c with_c x_syn puts with_out is_char x_out].
    eapply ev_bind; [eapply ev_bind; [apply ev_next; by apply in_name_bnl|by apply ev_ret]|]. cbn [head fst snd].
    eapply ev_bind; [by apply varname_spec|].
    eapply ev_bind with (a := (mk_lex (Some "}"%char) ((o ++ [CTLVAR; NUL]) ++ c :: n) q bq y [], VSNORMAL, y_syntax y));
      [by apply (ev_ret (cur e kwd ("}"%char :: r)) (cur e kwd ("}"%char :: r)))|]. cbn match.
    assert ((if bool_decide (y_syntax y = ARISYNTAX) then DQSYNTAX else y_syntax y) = y_syntax y) as Ey
      by (by destruct Hy as [-> | ->]).
    rewrite Ey. cbn [x_syn].
    assert ((negb (bool_decide (y_syntax y = y_syntax y)) || y_innerdq y) && negb (VSNORMAL =? VSNORMAL) = false) as ->
      by (by destruct Hy as [-> | ->]).
    change (negb (VSNORMAL =? VSNORMAL)) with false. cbn match. cbn [x_out].
    assert (putc "=" (with_out (<[S (length o) := chr VSNORMAL]> ((o ++ [CTLVAR; NUL]) ++ c :: n))
      (mk_lex (Some "}"%char) ((o ++ [CTLVAR; NUL]) ++ c :: n) q bq y [])) =
      mk_lex (Some "}"%char) (o ++ var_text (c :: n)) q bq y []) as Eo.
    { unfold putc, with_out. cbn [x_c x_out x_quotef x_bqlist x_syn x_below]. f_equal.
      change ([CTLVAR; NUL]) with ([CTLVAR] ++ [NUL]). rewrite (app_assoc o), <- (app_assoc _ [NUL]).
      replace (S (length o)) with (length (o ++ [CTLVAR])) by (rewrite length_app; cbn; lia).
      cbn [app]. rewrite insert_behind. rewrite <- !app_assoc. reflexivity. }
    rewrite <- Eo. apply ev_ret. intros s. apply cur_rd. }
  eapply ev_get_kwd with (kwd := kwd).
  - intros s [(_ & _ & Hk) _]. exact Hk.
  - rewrite Hkwd. cbn -[parsesub_var]. by apply (Hvar kwd).
  - cbn -[parsesub_var]. by apply (Hvar kwd).
Qed.

(** ** $(command) *)

(** The state below the empty string that ends a command substitution. *)
Definition below (r : cstr) (s : pstate) : Prop :=
  p_heredoclist s = [] /\ rd e 0 r (match p_prev s with [] => s | f :: fs => set_file f (set_prev fs s) end).

Lemma below_string r : ev (fun _ => setinputstring []) (rd e 0 r) tt (below r).
Proof.
  exists 0%nat. intros n _ s ([] & Hi & Hk). eexists. split; [reflexivity|]. split; [done|]. by split_and!.
Qed.

Lemma below_parseheredoc r : ev parseheredoc (below r) tt (below r).
Proof.
  exists 0%nat. intros n _ s [Hh Hr]. unfold parseheredoc, mbind, P_bind, get, modify. rewrite Hh.
  eexists. split; [reflexivity|]. split; [done|].
  destruct Hr as ([] & Hi & Hk), (p_prev s) as [|f fs] eqn:Ep; cbn in *; rewrite Ep; by split_and!.
Qed.

Lemma below_pop r : ev (fun _ => popfile) (below r) tt (rd e 0 r).
Proof.
  exists 0%nat. intros n _ s [_ Hr]. eexists. split; [reflexivity|].
  destruct Hr as (He & Hi & Hk). destruct (p_prev s) as [|f fs]; by split_and!.
Qed.

(** The commands [txt] parse to [c], as a list ended by a parenthesis. *)
Definition sub_ok (txt : cstr) (c : node) : Prop := forall r,
  ev (fun k => parse_list k 2) (rd e kwd (txt ++ lit " )" ++ r)) c (pushed e 0 TRP (IOp TRP) r).

Lemma rd_0 r s : rd e 0 r s -> rd e kwd r s.
Proof. intros (? & ? & [?|?]); split_and!; auto. Qed.

Lemma ev_parsebackq_new txt c r x : sub_ok txt c ->
  ev (fun k => parsebackq k false x) (rd e kwd (txt ++ lit " )" ++ r))
    (putc CTLBACKQ (with_bqlist (x_bqlist x ++ [c]) x)) (rd e kwd r).
Proof.
  intros Hsub. unfold parsebackq. apply ev_ret_bind.
  eapply ev_get_bind; [by intros s ([] & _)|].
  eapply ev_modify_bind with (mid := rd e kwd (txt ++ lit " )" ++ r)).
  { intros s ([] & Hi & Hk). by split_and!. }
  eapply ev_get_bind; [by intros s ([] & _)|]. apply ev_ret_bind.
  eapply ev_bind; [apply ev_k_list, Hsub|].
  eapply ev_bind with (mid := below r).
  { eapply ev_bind; [apply ev_k_readtoken, ev_readtoken_pushed; by split|].
    change (bool_decide (TRP = TRP)) with true. cbn match. apply ev_ret_bind.
    eapply ev_weaken; [apply below_string|by intros s [? _]|done]. }
  eapply ev_bind; [apply ev_k_parseheredoc, below_parseheredoc|].
  eapply ev_modify_bind with (mid := below r).
  { intros s [Hh Hr]. split; [done|]. destruct Hr as ([] & Hi & Hk), (p_prev s) as [|f fs] eqn:Ep; cbn in *; rewrite Ep; by split_and!. }
  eapply ev_bind; [apply below_pop|]. apply ev_ret_bind. apply ev_ret, rd_0.
Qed.

Lemma runs_cmd y txt c r o q bq : y = syn_zero BASESYNTAX \/ y = dqsyn -> sub_ok (SP :: txt) c -> starts_bnl r = false ->
  runs y r (o ++ [CTLBACKQ]) q (bq ++ [c]) -> runs y (lit "$(" ++ SP :: txt ++ lit " )" ++ r) o q bq.
Proof.
  intros Hy Hsub Hr H. cbn [app lit list_ascii_of_string].
  eapply (runs_turn _ _ (mk_lex (Some "$"%char) (o ++ [CTLBACKQ]) q (bq ++ [c]) y []) r); [|done|exact H].
  assert (SIT (Some "$"%char) (y_syntax y) = CVAR) as Hs by (by destruct Hy as [-> | ->]).
  unfold char_turn. cbn [x_c x_syn head]. rewrite Hs.
  eapply ev_bind with (mid := rd e kwd r); [|by apply ev_ret].
  unfold parsesub. eapply ev_bind; [by apply ev_next|]. cbn [head].
  assert (ev (fun k => c' ← pgetc_eatbnl (k_fuel k);
     if is_char c' "("
     then mret (putc CTLARI (with_syn (set_dblquote true) (synstack_push ARISYNTAX (mk_lex (Some "$"%char) o q bq y []))))
     else pungetc;; parsebackq k false (mk_lex (Some "$"%char) o q bq y []))
    (cur e kwd ("("%char :: SP :: txt ++ " "%char :: ")"%char :: r))
    (mk_lex (Some "$"%char) (o ++ [CTLBACKQ]) q (bq ++ [c]) y []) (rd e kwd r)) as Hcmd.
  { eapply ev_bind; [by apply ev_next|]. cbn [head]. change (is_char (Some SP) "(") with false. cbn match.
    eapply ev_bind.
    - eapply ev_weaken; [apply (ev_pungetc e kwd (SP :: txt ++ " "%char :: ")"%char :: r))| |by intros s ?].
      intros s [_ Hg]. by apply Hg.
    - exact (ev_parsebackq_new (SP :: txt) c r (mk_lex (Some "$"%char) o q bq y []) Hsub). }
  eapply ev_get_kwd with (kwd := kwd).
  - intros s [(_ & _ & Hk) _]. exact Hk.
  - rewrite Hkwd. exact Hcmd.
  - exact Hcmd.
Qed.

(** ** Parts of words *)

(** The text behind does not complete an escaped newline. *)
Definition calm (r : cstr) : Prop := hd0 r <> NL /\ starts_bnl r = false.

Lemma calm_app u r : NL ∉ u -> calm r -> calm (u ++ r).
Proof.
  intros Hu [H1 H2]. destruct u as [|a u]; [done|]. apply not_elem_of_cons in Hu as [Ha Hu].
  split; [cbn; congruence|]. unfold starts_bnl. cbn. destruct u as [|d u]; cbn.
  - destruct (a ≟ "\"%char); [|done]. unfold at0. cbn. by apply Ascii.eqb_neq.
  - apply not_elem_of_cons in Hu as [Hb _]. unfold at0. cbn. destruct (a ≟ "\"%char); [|done]. cbn.
    by apply Ascii.eqb_neq.
Qed.

Lemma calm_cons a r : a <> NL -> calm r -> calm (a :: r).
Proof. clear. intros Ha Hr. apply (calm_app [a]); [set_solver|done]. Qed.

Lemma sq_class a : a <> "'"%char -> a <> NL -> SIT (Some a) SQSYNTAX = CWORD \/ SIT (Some a) SQSYNTAX = CCTL.
Proof. destruct a as [[] [] [] [] [] [] [] []]; intros H1 H2; first [left; reflexivity|right; reflexivity|by destruct H1|by destruct H2]. Qed.

Lemma dq_class a : dq_special a = false -> a <> NL ->
  SIT (Some a) DQSYNTAX = CWORD \/ SIT (Some a) DQSYNTAX = CCTL \/ SIT (Some a) DQSYNTAX = CENDVAR.
Proof.
  destruct a as [[] [] [] [] [] [] [] []]; intros H1 H2;
    first [left; reflexivity|right; left; reflexivity|right; right; reflexivity|discriminate H1|by destruct H2].
Qed.

Lemma runs_sq s : forall r o q bq, "'"%char ∉ s -> NL ∉ s -> calm r ->
  runs (syn_zero SQSYNTAX) r (o ++ concat (map (esc_in SQSYNTAX) s)) q bq -> runs (syn_zero SQSYNTAX) (s ++ r) o q bq.
Proof.
  induction s as [|a s IH]; intros r o q bq Hq Hn Hr H; cbn in *; [by rewrite app_nil_r in H|].
  apply not_elem_of_cons in Hq as [Ha Hq]. apply not_elem_of_cons in Hn as [Hb Hn].
  assert (starts_bnl (s ++ r) = false) as Hs by (apply calm_app; done).
  rewrite app_assoc in H. unfold esc_in, is_class in H.
  destruct (sq_class a) as [E|E]; [congruence..| |]; rewrite E in H.
  - apply runs_word; [done..|]. by apply IH.
  - apply runs_cctl; [done..|]. by apply IH.
Qed.

Context (L : Z) (ok : tree -> Prop).
Let list_of (t : tree) : list lexeme := lst (print L t).
Let comp : tree -> node := compile L.
Context (Hok : forall t, ok t -> exists txt, text (list_of t) = SP :: txt /\ NL ∉ txt /\ sub_ok (SP :: txt) (comp t)).

Definition all_dpart (d : dpart) : Prop := match d with DCmd t => ok t | _ => True end.
Definition all_part (p : wpart) : Prop :=
  match p with WCmd t => ok t | WDq l => Forall all_dpart l | _ => True end.

Lemma name_no_nl n : forallb is_in_name n = true -> NL ∉ n.
Proof.
  intros H Hin. apply forallb_forall with (x := NL) in H; [done|]. by apply list_elem_of_In.
Qed.

Lemma valid_name_no_nl n : valid_name n = true -> NL ∉ n.
Proof.
  destruct n as [|c n]; [done|]. cbn. intros H. apply andb_true_iff in H as [Hc Hn]. apply not_elem_of_cons.
  split; [|by apply name_no_nl]. intros <-. discriminate Hc.
Qed.

Lemma var_src_no_nl n : valid_name n = true -> NL ∉ var_src n.
Proof. intros H. apply valid_name_no_nl in H. unfold var_src. cbn. set_unfold. naive_solver. Qed.

Lemma cmd_src_no_nl t : ok t -> NL ∉ cmd_src list_of t.
Proof. intros H. destruct (Hok t H) as (txt & E & Hn & _). unfold cmd_src. rewrite E. cbn. set_unfold. naive_solver. Qed.

Lemma dsrc_no_nl d : wf_dpart wf d = true -> all_dpart d -> NL ∉ dsrc list_of d.
Proof.
  destruct d as [c|n|t]; cbn [wf_dpart all_dpart dsrc]; intros H Ha.
  - apply negb_true_iff, Ascii.eqb_neq in H. destruct (dq_special c); set_unfold; naive_solver.
  - by apply var_src_no_nl.
  - by apply cmd_src_no_nl.
Qed.

Lemma dsrcs_no_nl l : forallb (wf_dpart wf) l = true -> Forall all_dpart l -> NL ∉ concat (map (dsrc list_of) l).
Proof.
  induction l as [|d l IH]; cbn; intros H Ha; [by apply not_elem_of_nil|]. apply andb_true_iff in H as [Hd Hl].
  apply Forall_cons in Ha as [Had Hal]. rewrite not_elem_of_app. split; [by apply dsrc_no_nl|by apply IH].
Qed.

Lemma lit_no_nl s : forallb lit_char s = true -> NL ∉ s.
Proof. intros H Hin. apply forallb_forall with (x := NL) in H; [discriminate H|]. by apply list_elem_of_In. Qed.

Lemma psrc_no_nl p : wf_part wf p = true -> all_part p -> NL ∉ psrc list_of p.
Proof.
  destruct p as [s|s|l|c|n|t]; cbn [wf_part all_part psrc]; intros H Ha.
  - apply andb_true_iff in H as [_ H]. by apply lit_no_nl.
  - apply andb_true_iff in H as [_ H]. unfold no_nl in H. apply bool_decide_eq_true in H. set_unfold. naive_solver.
  - pose proof (dsrcs_no_nl l H Ha). set_unfold. naive_solver.
  - apply negb_true_iff, Ascii.eqb_neq in H. set_unfold. naive_solver.
  - by apply var_src_no_nl.
  - by apply cmd_src_no_nl.
Qed.

Lemma wsrc_no_nl w : forallb (wf_part wf) w = true -> Forall all_part w -> NL ∉ wsrc list_of w.
Proof.
  unfold wsrc. induction w as [|p w IH]; cbn; intros H Ha; [by apply not_elem_of_nil|].
  apply andb_true_iff in H as [Hp Hw]. apply Forall_cons in Ha as [Hap Haw].
  rewrite not_elem_of_app. split; [by apply psrc_no_nl|by apply IH].
Qed.

Lemma runs_sub y t r o q bq : y = syn_zero BASESYNTAX \/ y = dqsyn -> ok t -> starts_bnl r = false ->
  runs y r (o ++ [CTLBACKQ]) q (bq ++ [comp t]) -> runs y (cmd_src list_of t ++ r) o q bq.
Proof.
  intros Hy Ht Hr H. destruct (Hok t Ht) as (txt & E & _ & Hsub). unfold cmd_src. rewrite E, <- !app_assoc.
  by apply (runs_cmd y txt (comp t)).
Qed.

Lemma runs_dpart d r o q bq : wf_dpart wf d = true -> all_dpart d -> calm r ->
  runs dqsyn r (o ++ dtext d) (match d with DChar c => q || dq_special c | _ => q end) (bq ++ dbq comp d) ->
  runs dqsyn (dsrc list_of d ++ r) o q bq.
Proof.
  destruct d as [c|n|t]; cbn [wf_dpart all_dpart dsrc dtext dbq]; intros H Ha [Hr1 Hr] Hrun.
  - apply negb_true_iff, Ascii.eqb_neq in H. rewrite app_nil_r in Hrun. destruct (dq_special c) eqn:Ec.
    + apply runs_back; [by right|done|]. by rewrite orb_true_r in Hrun.
    + rewrite orb_false_r in Hrun. unfold esc_in, is_class in Hrun.
      destruct (dq_class c Ec H) as [E|[E|E]]; rewrite E in Hrun.
      * by apply runs_word.
      * by apply runs_cctl.
      * by apply runs_endvar.
  - rewrite app_nil_r in Hrun. apply runs_var; auto.
  - apply runs_sub; auto.
Qed.

Lemma runs_dparts l : forall r o q bq, forallb (wf_dpart wf) l = true -> Forall all_dpart l -> calm r ->
  (forall q, runs dqsyn r (o ++ concat (map dtext l)) q (bq ++ concat (map (dbq comp) l))) ->
  runs dqsyn (concat (map (dsrc list_of) l) ++ r) o q bq.
Proof.
  induction l as [|d l IH]; intros r o q bq H Ha Hr Hrun; cbn in *; [specialize (Hrun q); by rewrite !app_nil_r in Hrun|].
  apply andb_true_iff in H as [Hd Hl]. apply Forall_cons in Ha as [Had Hal].
  rewrite <- app_assoc. apply runs_dpart; [done..| |].
  { apply calm_app; [by apply dsrcs_no_nl|done]. }
  apply IH; [done..|]. intros q'. rewrite <- !app_assoc. apply Hrun.
Qed.

Lemma runs_lit s : forall r o q bq, forallb lit_char s = true -> calm r ->
  runs (syn_zero BASESYNTAX) r (o ++ s) q bq -> runs (syn_zero BASESYNTAX) (s ++ r) o q bq.
Proof.
  induction s as [|a s IH]; intros r o q bq H Hr Hrun; cbn in *; [by rewrite app_nil_r in Hrun|].
  apply andb_true_iff in H as [Ha Hs].
  assert (starts_bnl (s ++ r) = false) as Hb by (apply calm_app; [by apply lit_no_nl|done]).
  change (a :: s) with ([a] ++ s) in Hrun. rewrite app_assoc in Hrun.
  unfold lit_char, is_class in Ha. apply orb_true_iff in Ha as [Ha|Ha]; apply bool_decide_eq_true in Ha.
  - apply runs_word; [done..|]. by apply IH.
  - apply runs_endvar; [done..|]. by apply IH.
Qed.

Lemma runs_part p r o q bq : wf_part wf p = true -> all_part p -> calm r ->
  runs (syn_zero BASESYNTAX) r (o ++ ptext p) (q || quoted_part p) (bq ++ pbq comp p) ->
  runs (syn_zero BASESYNTAX) (psrc list_of p ++ r) o q bq.
Proof.
  destruct p as [s|s|l|c|n|t]; cbn [wf_part all_part psrc ptext pbq quoted_part]; intros H Ha Hr Hrun;
    rewrite ?orb_true_r, ?orb_false_r, ?app_nil_r in Hrun.
  - apply andb_true_iff in H as [_ H]. by apply runs_lit.
  - apply andb_true_iff in H as [Hq Hn]. apply bool_decide_eq_true in Hq, Hn.
    cbn [app]. rewrite <- app_assoc. apply runs_sq_open; [by apply calm_app; [|by apply calm_cons]|].
    apply runs_sq; [done..|by apply calm_cons|]. apply runs_sq_close; [by apply Hr|].
    by rewrite <- !app_assoc.
  - cbn [app]. rewrite <- app_assoc. apply runs_dq_open; [apply calm_app; [by apply dsrcs_no_nl|by apply calm_cons]|].
    apply runs_dparts; [done..|by apply calm_cons|]. intros q'. apply runs_dq_close; [by apply Hr|].
    by rewrite <- !app_assoc.
  - apply negb_true_iff, Ascii.eqb_neq in H. apply runs_back; [by left|by apply Hr|done].
  - apply runs_var; [auto..|by apply Hr|done].
  - apply runs_sub; [auto..|by apply Hr|done].
Qed.

Lemma runs_parts w : forall r o q bq, forallb (wf_part wf) w = true -> Forall all_part w -> calm r ->
  runs (syn_zero BASESYNTAX) r (o ++ wtext w) (q || quoted w) (bq ++ wbq comp w) ->
  runs (syn_zero BASESYNTAX) (wsrc list_of w ++ r) o q bq.
Proof.
  unfold wsrc, wtext, wbq, quoted. induction w as [|p w IH]; intros r o q bq H Ha Hr Hrun; cbn in *.
  { by rewrite !app_nil_r, orb_false_r in Hrun. }
  apply andb_true_iff in H as [Hp Hw]. apply Forall_cons in Ha as [Hap Haw].
  rewrite <- app_assoc. apply runs_part; [done..| |].
  { apply calm_app; [by apply wsrc_no_nl|done]. }
  apply IH; [done..|]. by rewrite <- !app_assoc, <- orb_assoc.
Qed.
End Chars.

(** ** Lexemes *)

(** What follows a lexeme: a blank or the end of the line. *)
Definition ends (r : cstr) : Prop := hd0 r = SP \/ hd0 r = NL.

Lemma ends_bnl r : ends r -> starts_bnl r = false.
Proof. unfold starts_bnl. by intros [-> | ->]. Qed.

Lemma ends_head r : ends r -> exists a r', r = a :: r' /\ (a = SP \/ a = NL).
Proof. destruct r as [|a r]; [by intros [|]|]. intros H. by exists a, r. Qed.

(** The token [xxreadtoken] returns for an item. *)
Definition raw (it : item) : token :=
  match it with IOp t => t | IWord _ _ _ => TWORD | IRedir _ => TREDIR end.

(** From the text [r], the item [it] is read, and [r'] is left. *)
Definition lexes (e : env) (r : cstr) (it : item) (r' : cstr) : Prop := forall kwd, chk kwd CHKEOFMARK = false ->
  ev xxreadtoken (rd e kwd r) (raw it) (at_tok e kwd (raw it) it r').

(** Reading a word from its first character on. *)
Lemma ev_readtoken1_word e kwd w r o q bq : chk kwd CHKEOFMARK = false -> ends r ->
  (forall b post, runs e kwd b post (syn_zero BASESYNTAX) r o q bq -> runs e kwd b post (syn_zero BASESYNTAX) (w ++ r) [] false []) ->
  ev (fun k => readtoken1 k (head (w ++ r)) BASESYNTAX NoMark false) (cur e kwd (w ++ r)) TWORD
    (at_tok e kwd TWORD (IWord o bq q) r).
Proof.
  intros Hk He Hrun. destruct (ends_head r He) as (a & r' & -> & Ha).
  unfold readtoken1. change (bool_decide (BASESYNTAX = DQSYNTAX)) with false. cbn match.
  set (fin := mk_lex (Some a) o q bq (syn_zero BASESYNTAX) []).
  eapply ev_bind with (a := fin) (mid := rg e kwd (a :: r')).
  - apply (ev_loop (fun k => readtoken1_body k NoMark false)).
    assert (lev body (cur e kwd (w ++ a :: r')) (false, mk_lex (head (w ++ a :: r')) [] false [] (syn_zero BASESYNTAX) [])
      fin (rg e kwd (a :: r'))) as [N H].
    { apply Hrun. unfold runs. apply lev_done. unfold body, readtoken1_body. apply ev_ret_bind.
      unfold char_turn. cbn [x_c x_syn syn_zero y_syntax head y_varnest].
      destruct Ha as [-> | ->].
      - change (SIT (Some SP) BASESYNTAX) with CSPCL. cbn match. apply ev_ret_bind. apply ev_ret.
        intros s [_ Hs]. by apply Hs.
      - change (SIT (Some NL) BASESYNTAX) with CNL. cbn match. apply ev_ret_bind. apply ev_ret.
        intros s [_ Hs]. by apply Hs. }
    exists (S N). intros n m Hn Hm s Hs. destruct m as [|m]; [lia|].
    destruct (H n (S m) ltac:(lia) ltac:(lia) s Hs) as (s' & E & Hs'). exists s'. split; [|done]. exact E.
  - unfold endword. cbn [x_syn fin y_syntax syn_zero y_varnest x_c x_quotef x_out x_bqlist is_doc].
    assert ((is_char (Some a) ">" || is_char (Some a) "<") && negb q && isdigit_str9 o = false) as ->
      by (by destruct Ha as [-> | ->]).
    change (bool_decide (BASESYNTAX = ARISYNTAX)) with false.
    change (negb (bool_decide (BASESYNTAX = BASESYNTAX)) && negb false) with false.
    change (negb (0 =? 0)) with false. cbn match.
    eapply ev_bind; [apply ev_pungetc|].
    apply ev_modify_bind with (mid := fun s => rd e kwd (a :: r') s /\ p_quoteflag s = q).
    { intros s ([] & Hi & Hkk). by split_and!. }
    apply ev_modify_bind with (mid := fun s => rd e kwd (a :: r') s /\ p_quoteflag s = q /\ p_backquotelist s = bq).
    { intros s (([] & Hi & Hkk) & ?). by split_and!. }
    apply ev_modify_bind with (mid := fun s => rd e kwd (a :: r') s /\ has (IWord o bq q) s).
    { intros s (([] & Hi & Hkk) & ? & ?). by split_and!. }
    apply ev_modify_bind with (mid := at_tok e kwd TWORD (IWord o bq q) (a :: r')).
    { intros s (([] & Hi & Hkk) & ? & ? & ?). by split_and!. }
    by apply ev_ret.
Qed.

(** The characters that start a word for [xxreadtoken]. *)
Definition word_start (c : ascii) : bool :=
  negb (bool_decide (c ∈ [" "%char; TAB; "#"%char])) &&
  ((c ≟ "\"%char) || bool_decide (c ∉ xxreadtoken_chars)).

Lemma list_find_none (c : ascii) l : c ∉ l -> list_find (fun b => c = b) l = None.
Proof. intros H. apply list_find_None, Forall_forall. intros x Hx ->. done. Qed.

(** Skipping the blank in front, up to the first character of a word. *)
Lemma xxread_word e kwd c w : word_start c = true -> starts_bnl (c :: w) = false ->
  lev xxread_body (rd e kwd (SP :: c :: w)) tt (inl (Some c)) (cur e kwd (c :: w)).
Proof.
  intros Hc Hb. apply lev_step with (a' := tt) (mid := rd e kwd (c :: w)).
  - unfold xxread_body. eapply ev_bind; [by apply ev_eatbnl|]. cbn [head]. change (is_char (Some SP) " ") with true.
    cbn [orb]. apply ev_ret. intros s. apply cur_rd.
  - apply lev_done. unfold xxread_body. eapply ev_bind; [by apply ev_eatbnl|]. cbn [head is_char].
    unfold word_start in Hc. apply andb_true_iff in Hc as [H1 H2]. apply negb_true_iff, bool_decide_eq_false in H1.
    assert (c <> " "%char /\ c <> TAB /\ c <> "#"%char) as (E1 & E2 & E3) by (set_unfold; naive_solver).
    apply Ascii.eqb_neq in E1, E2, E3. rewrite E1, E2, E3. cbn [orb].
    destruct (c ≟ "\"%char); [by apply ev_ret|]. cbn [orb] in H2. apply bool_decide_eq_true in H2.
    assert (c ≟ NL = false) as ->. { apply Ascii.eqb_neq. intros ->. apply H2. left. }
    apply ev_ret_bind. rewrite (list_find_none c xxreadtoken_chars H2). by apply ev_ret.
Qed.

Lemma xxreadtoken_start e kwd r (f : procs -> ichar + token -> P token) t post :
  ev (fun k => r ← loop (xxread_body k) (k_fuel k) tt; f k r) (rd e kwd r) t post ->
  ev (fun k => pb ← get p_tokpushback;
               if pb : bool then modify (set_tokpushback false);; get p_lasttoken
               else n ← get p_needprompt; setprompt_if n 2;; r ← loop (xxread_body k) (k_fuel k) tt; f k r)
    (rd e kwd r) t post.
Proof.
  intros H. eapply ev_get_bind; [by intros s ([] & _)|]. cbn match.
  eapply ev_get_bind; [by intros s ([] & _)|]. unfold setprompt_if. by apply ev_ret_bind.
Qed.

Lemma lexes_word e c w r o q bq : word_start c = true -> starts_bnl (c :: w ++ r) = false -> ends r ->
  (forall kwd b post, chk kwd CHKEOFMARK = false -> runs e kwd b post (syn_zero BASESYNTAX) r o q bq ->
     runs e kwd b post (syn_zero BASESYNTAX) ((c :: w) ++ r) [] false []) ->
  lexes e (SP :: (c :: w) ++ r) (IWord o bq q) r.
Proof.
  intros Hc Hb He Hrun kwd Hk. cbn [raw]. unfold xxreadtoken.
  apply xxreadtoken_start. eapply ev_bind.
  - apply (ev_loop xxread_body). by apply xxread_word.
  - cbn match. change (Some c) with (head ((c :: w) ++ r)). apply ev_readtoken1_word; [done..|].
    intros b post. by apply Hrun.
Qed.

Lemma lit_start c : lit_char c = true -> c <> "#"%char -> word_start c = true.
Proof. destruct c as [[] [] [] [] [] [] [] []]; intros H1 H2; first [reflexivity|discriminate H1|by destruct H2]. Qed.

Lemma calm_sp r : hd0 r = SP -> calm r.
Proof. intros H. split; [by rewrite H|]. unfold starts_bnl. by rewrite H. Qed.

(** A tree's text parses, as the body of a command substitution. *)
Definition tree_ok (L : Z) (e : env) (t : tree) : Prop := exists txt,
  text (lst (print L t)) = SP :: txt /\ NL ∉ txt /\
  forall kwd, chk kwd CHKEOFMARK = false -> sub_ok e kwd (SP :: txt) (compile L t).

Section Words.
Context (L : Z) (e : env).
Let list_of (t : tree) : list lexeme := lst (print L t).
Let comp : tree -> node := compile L.

Definition word_ok (w : word) : Prop := Forall (all_part (tree_ok L e)) w.

Lemma tree_ok_sub kwd : chk kwd CHKEOFMARK = false -> forall t, tree_ok L e t ->
  exists txt, text (list_of t) = SP :: txt /\ NL ∉ txt /\ sub_ok e kwd (SP :: txt) (comp t).
Proof. intros Hk t (txt & ? & ? & Hs). exists txt. split_and!; auto. Qed.

Lemma dummy_kwd : chk 0 CHKEOFMARK = false.
Proof. done. Qed.

Lemma word_no_nl w : forallb (wf_part wf) w = true -> word_ok w -> NL ∉ wsrc list_of w.
Proof. apply (wsrc_no_nl e 0 dummy_kwd L (tree_ok L e) (tree_ok_sub 0 dummy_kwd)). Qed.

(** The first character of a word. *)
Lemma wsrc_start w : wf_word wf w = true -> exists c u, wsrc list_of w = c :: u /\ word_start c = true /\
  (c = "\"%char -> hd0 u <> NL /\ u <> []).
Proof.
  unfold wf_word. intros H. apply andb_true_iff in H as [H Hw]. apply andb_true_iff in H as [Hne Hh].
  destruct w as [|p w]; [done|]. cbn in Hw. apply andb_true_iff in Hw as [Hp _]. unfold wsrc. cbn [map concat].
  destruct p as [s|s|l|c|n|t]; cbn [wf_part psrc] in *.
  - apply andb_true_iff in Hp as [Hs Hl]. destruct s as [|c s]; [done|]. cbn in Hl. apply andb_true_iff in Hl as [Hc _].
    cbn in Hh. apply negb_true_iff, Ascii.eqb_neq in Hh. exists c, (s ++ concat (map (psrc list_of) w)).
    split; [done|]. split; [by apply lit_start|]. intros ->. discriminate Hc.
  - eexists _, _. split; [reflexivity|]. by split.
  - eexists _, _. split; [reflexivity|]. by split.
  - apply negb_true_iff, Ascii.eqb_neq in Hp. eexists _, _. split; [reflexivity|]. by split.
  - eexists _, _. split; [reflexivity|]. by split.
  - eexists _, _. split; [reflexivity|]. by split.
Qed.

Lemma lexes_wword w r : wf_word wf w = true -> word_ok w -> hd0 r = SP ->
  lexes e (SP :: l_src (word_lexeme comp list_of w) ++ r) (l_item (word_lexeme comp list_of w)) r.
Proof.
  intros Hwf Hok Hr. destruct (wsrc_start w Hwf) as (c & u & E & Hc & Hb). cbn [word_lexeme l_src l_item].
  assert (forallb (wf_part wf) w = true) as Hparts by (unfold wf_word in Hwf; by apply andb_true_iff in Hwf as [_ ?]).
  pose proof (word_no_nl w Hparts Hok) as Hnl. rewrite E in Hnl. rewrite E.
  apply lexes_word; [done| |by left|].
  - change (c :: u ++ r) with ((c :: u) ++ r). apply calm_app; [done|by apply calm_sp].
  - intros kwd b post Hk Hrun. rewrite <- E.
    apply (runs_parts e kwd Hk b post L (tree_ok L e) (tree_ok_sub kwd Hk) w r [] false []); [done..|by apply calm_sp|done].
Qed.
End Words.

(** Plain words: names and keywords. *)
Lemma lexes_name e s r : negb (bool_decide (s = [])) && forallb lit_char s && negb (hd0 s ≟ "#"%char) = true -> hd0 r = SP ->
  lexes e (SP :: l_src (name_lexeme s) ++ r) (l_item (name_lexeme s)) r.
Proof.
  intros H Hr. apply andb_true_iff in H as [H Hh]. apply andb_true_iff in H as [Hn Hs].
  destruct s as [|c s]; [done|]. cbn in Hh. apply negb_true_iff, Ascii.eqb_neq in Hh.
  cbn [name_lexeme l_src l_item]. pose proof Hs as Hs'. cbn in Hs'. apply andb_true_iff in Hs' as [Hc _].
  apply lexes_word; [by apply lit_start| |by left|].
  - change (c :: s ++ r) with ((c :: s) ++ r). apply calm_app; [by apply lit_no_nl|by apply calm_sp].
  - intros kwd b post Hk Hrun. apply (runs_lit e kwd b post); [done|by apply calm_sp|done].
Qed.

(** ** Operators *)

Lemma ev_token e kwd p r : ev (fun _ => modify (set_lasttoken (nth p xxreadtoken_tokens TEOF));;
    mret (inr (inr (nth p xxreadtoken_tokens TEOF)) : unit + (ichar + token))) (rd e kwd r)
  (inr (inr (nth p xxreadtoken_tokens TEOF))) (at_tok e kwd (nth p xxreadtoken_tokens TEOF) (IOp (nth p xxreadtoken_tokens TEOF)) r).
Proof.
  apply ev_modify_bind with (mid := at_tok e kwd (nth p xxreadtoken_tokens TEOF) (IOp (nth p xxreadtoken_tokens TEOF)) r); [|by apply ev_ret].
  intros s Hs. split; [by apply rd_lasttoken|done].
Qed.

(** An operator character that is not a newline, at index [p]. *)
Definition op_char (c : ascii) (p : nat) : bool :=
  bool_decide (list_find (fun b => c = b) xxreadtoken_chars = Some (p, c)) && negb (c ≟ NL).

Lemma op_char_facts c p : op_char c p = true ->
  c <> " "%char /\ c <> TAB /\ c <> "#"%char /\ c <> "\"%char /\ c <> NL /\
  list_find (fun b => c = b) xxreadtoken_chars = Some (p, c).
Proof.
  unfold op_char. intros H. apply andb_true_iff in H as [H Hn]. apply bool_decide_eq_true in H.
  apply negb_true_iff, Ascii.eqb_neq in Hn.
  split_and!; try done; intros ->; discriminate H.
Qed.

(** From the blank in front of an operator to the operator. *)
Lemma xxread_op e kwd c p r res post : op_char c p = true -> starts_bnl (c :: r) = false ->
  ev (fun k => if (xxreadtoken_singles <=? p)%nat then
                 cc ← pgetc_eatbnl (k_fuel k);
                 if bool_decide (cc = Some c) then
                   modify (set_lasttoken (nth (p + xxreadtoken_doubles + 1)%nat xxreadtoken_tokens TEOF));;
                   mret (inr (inr (nth (p + xxreadtoken_doubles + 1)%nat xxreadtoken_tokens TEOF)) : unit + (ichar + token))
                 else pungetc;; modify (set_lasttoken (nth p xxreadtoken_tokens TEOF));;
                                mret (inr (inr (nth p xxreadtoken_tokens TEOF)))
               else modify (set_lasttoken (nth p xxreadtoken_tokens TEOF));;
                    mret (inr (inr (nth p xxreadtoken_tokens TEOF)))) (cur e kwd (c :: r)) (inr (inr res)) post ->
  ev xxreadtoken (rd e kwd (SP :: c :: r)) res post.
Proof.
  intros Hc Hb H. unfold xxreadtoken.
  apply (xxreadtoken_start e kwd _ (fun k r => match r with inl c => readtoken1 k c BASESYNTAX NoMark false | inr t => mret t end)).
  destruct (op_char_facts c p Hc) as (E1 & E2 & E3 & E4 & E5 & Ef).
  eapply ev_bind with (a := inr res); [|by apply ev_ret]. apply (ev_loop xxread_body).
  apply lev_step with (a' := tt) (mid := rd e kwd (c :: r)).
  - unfold xxread_body. eapply ev_bind; [by apply ev_eatbnl|]. cbn [head]. change (is_char (Some SP) " ") with true.
    cbn [orb]. apply ev_ret. intros s. apply cur_rd.
  - apply lev_done. unfold xxread_body. eapply ev_bind; [by apply ev_eatbnl|]. cbn [head is_char].
    apply Ascii.eqb_neq in E1, E2, E3, E4, E5. rewrite E1, E2, E3, E4, E5. cbn [orb].
    apply ev_ret_bind. rewrite Ef. exact H.
Qed.

Lemma lexes_paren e c p t r : op_char c p = true -> (p < 3)%nat -> nth p xxreadtoken_tokens TEOF = t ->
  lexes e (SP :: c :: r) (IOp t) r.
Proof.
  intros Hc Hp <- kwd Hk. pose proof (op_char_facts c p Hc) as (_ & _ & _ & E4 & _ & _).
  eapply xxread_op; [done| |].
  { unfold starts_bnl. cbn. apply Ascii.eqb_neq in E4. by rewrite E4. }
  rewrite (proj2 (Nat.leb_gt _ _)) by (unfold xxreadtoken_singles; lia).
  eapply ev_weaken; [apply (ev_token e kwd p r)|intros s; apply cur_rd|done].
Qed.

Lemma lexes_single e c p t r : op_char c p = true -> (3 <= p)%nat -> nth p xxreadtoken_tokens TEOF = t -> ends r ->
  lexes e (SP :: c :: r) (IOp t) r.
Proof.
  intros Hc Hp <- He kwd Hk. pose proof (op_char_facts c p Hc) as (E1 & _ & _ & E4 & E5 & _).
  eapply xxread_op; [done| |].
  { unfold starts_bnl. cbn. apply Ascii.eqb_neq in E4. by rewrite E4. }
  rewrite (proj2 (Nat.leb_le _ _)) by (unfold xxreadtoken_singles; lia).
  eapply ev_bind; [apply ev_next, ends_bnl, He|].
  destruct (ends_head r He) as (a & r' & -> & Ha). cbn [head].
  rewrite bool_decide_eq_false_2 by (intros [= <-]; by destruct Ha as [-> | ->]).
  eapply ev_bind; [|apply ev_token].
  eapply ev_weaken; [apply (ev_pungetc e kwd (a :: r'))| |done]. intros s [_ Hs]. apply Hs. by destruct Ha as [-> | ->].
Qed.

Lemma lexes_double e c p t r : op_char c p = true -> (3 <= p)%nat ->
  nth (p + xxreadtoken_doubles + 1)%nat xxreadtoken_tokens TEOF = t -> lexes e (SP :: c :: c :: r) (IOp t) r.
Proof.
  intros Hc Hp <- kwd Hk. pose proof (op_char_facts c p Hc) as (_ & _ & _ & E4 & _ & _). apply Ascii.eqb_neq in E4.
  eapply xxread_op; [done| |].
  { unfold starts_bnl. cbn. by rewrite E4. }
  rewrite (proj2 (Nat.leb_le _ _)) by (unfold xxreadtoken_singles; lia).
  eapply ev_bind; [apply ev_next; unfold starts_bnl; cbn; by rewrite E4|]. cbn [head].
  rewrite bool_decide_eq_true_2 by done.
  eapply ev_weaken; [apply (ev_token e kwd _ r)|intros s; apply cur_rd|done].
Qed.

Lemma lexes_newline e r kwd : chk kwd CHKEOFMARK = false -> e_doprompt e = false ->
  let e' := mk_env (if e_trap_depth e =? 0 then e_linno e + 1 else e_linno e) (e_prev e) (e_docs e) (e_ndocs e)
              (e_doprompt e) (e_trap_depth e) (e_lineno e) in
  ev xxreadtoken (rd e kwd (NL :: r)) TNL (at_tok e' kwd TNL (IOp TNL) r).
Proof.
  intros Hk Hd e'. unfold xxreadtoken.
  apply (xxreadtoken_start e kwd _ (fun k r => match r with inl c => readtoken1 k c BASESYNTAX NoMark false | inr t => mret t end)).
  eapply ev_bind with (a := inr TNL); [|by apply ev_ret]. apply (ev_loop xxread_body).
  apply lev_done. unfold xxread_body. eapply ev_bind; [by apply ev_eatbnl|]. cbn [head].
  change (is_char (Some NL) " " || is_char (Some NL) TAB) with false. change (is_char (Some NL) "#") with false.
  change (is_char (Some NL) "\") with false. change (NL ≟ NL) with true. cbn match.
  eapply ev_bind with (mid := rd e' kwd r).
  - exists 0%nat. intros n _ s [([] & Hi & Hkk) _]. eexists. split; [reflexivity|].
    cbn in Hi. destruct (p_trap_depth s =? 0) eqn:Et.
    + assert (e_trap_depth e =? 0 = true) as Et' by congruence.
      split; [split; cbn; rewrite ?Et'; try done; congruence|]. split; [|done].
      cbn. destruct Hi as [? ? Hi]. by split.
    + assert (e_trap_depth e =? 0 = false) as Et' by congruence.
      split; [split; cbn; rewrite ?Et'; try done; congruence|]. by split.
  - change (list_find (fun b => NL = b) xxreadtoken_chars) with (Some (0%nat, NL)). apply (ev_token e' kwd 0 r).
Qed.

(** ** Redirection operators *)

Lemma rd_redirnode e kwd n r s : rd e kwd r s -> rd e kwd r (set_redirnode n s).
Proof. intros ([] & ? & ?). by split_and!. Qed.

Definition dup_type (out : bool) : dtype := if out then NTOFD else NFROMFD.

(** The operators: first character, the rest, and the node made for a
    descriptor. *)
Definition operators : list (ascii * cstr * Z * (Z -> redir)) :=
  [ (">", [], 1, fun fd => NFILE NTO fd None); (">", ["|"], 1, fun fd => NFILE NCLOBBER fd None);
    (">", [">"], 1, fun fd => NFILE NAPPEND fd None); ("<", [], 0, fun fd => NFILE NFROM fd None);
    ("<", [">"], 0, fun fd => NFILE NFROMTO fd None);
    (">", ["&"], 1, fun fd => NDUP NTOFD fd 0 None); ("<", ["&"], 0, fun fd => NDUP NFROMFD fd 0 None) ]%char.

Lemma fd_value fd d : wf_fd fd = true ->
  (if 0 <=? (if bool_decide (fd_src fd = []) then -1 else atoi (fd_src fd))
   then (if bool_decide (fd_src fd = []) then -1 else atoi (fd_src fd)) else d) = rfd fd d.
Proof.
  destruct fd as [n|]; [|done]. cbn [wf_fd]. intros H. apply Nat.leb_le in H.
  do 10 (destruct n as [|n]; [reflexivity|]). lia.
Qed.

Lemma ev_parseredir e kwd fd c u d mk r : (c, u, d, mk) ∈ operators -> wf_fd fd = true -> hd0 r = SP ->
  ev (fun k => parseredir (k_fuel k) (fd_src fd) (Some c)) (rd e kwd (u ++ r)) tt
    (fun s => rd e kwd r s /\ p_redirnode s = mk (rfd fd d)).
Proof.
  intros Hin Hfd Hr. unfold parseredir.
  assert (ends r) as He by (by left). destruct (ends_head r He) as (a & r' & -> & _). cbn in Hr. subst a.
  assert (forall n, ev (fun _ => modify (set_redirnode n)) (rd e kwd (SP :: r')) tt
    (fun s => rd e kwd (SP :: r') s /\ p_redirnode s = n)) as Hset.
  { intros n. apply ev_modify. intros s Hs. split; [by apply rd_redirnode|done]. }
  unfold operators in Hin.
  repeat (apply elem_of_cons in Hin as [Hin|Hin]; [injection Hin as -> -> -> ->|]); [..|by apply elem_of_nil in Hin].
  all: cbn [is_char]; rewrite <- (fd_value fd) by done.
  all: match goal with |- context [(">" ≟ ">")%char] => change (">" ≟ ">")%char with true | |- context [("<" ≟ ">")%char] => change ("<" ≟ ">")%char with false end; cbn match.
  all: eapply ev_bind; [eapply ev_bind; [by apply ev_eatbnl|]|apply Hset]; cbn [head app is_char].
  all: repeat match goal with |- context [(?x ≟ ?y)%char] => let v := eval vm_compute in (Ascii.eqb x y) in change (Ascii.eqb x y) with v; cbn match end.
  all: first [by apply ev_ret; intros s; apply cur_rd
             |eapply ev_bind; [eapply ev_weaken; [apply (ev_pungetc e kwd (SP :: r'))|intros s [_ Hs]; by apply Hs|done]|by apply ev_ret]].
Qed.

Lemma fd_src_facts fd : wf_fd fd = true -> forallb lit_char (fd_src fd) = true /\ isdigit_str9 (fd_src fd) = true /\
  match fd_src fd with c :: _ => c <> "#"%char | [] => True end.
Proof.
  destruct fd as [n|]; [|done]. cbn [wf_fd]. intros H. apply Nat.leb_le in H.
  do 10 (destruct n as [|n]; [done|]). lia.
Qed.

Lemma operator_char c u d mk : (c, u, d, mk) ∈ operators -> (c = ">"%char \/ c = "<"%char) /\
  NL ∉ u.
Proof.
  unfold operators. intros H.
  repeat (apply elem_of_cons in H as [H|H]; [injection H as -> -> -> ->; split; [auto|by_eval]|]). by apply elem_of_nil in H.
Qed.

Lemma ev_readtoken1_redir e kwd fd c u d mk r : (c, u, d, mk) ∈ operators -> wf_fd fd = true -> hd0 r = SP ->
  chk kwd CHKEOFMARK = false ->
  ev (fun k => readtoken1 k (head (fd_src fd ++ c :: u ++ r)) BASESYNTAX NoMark false) (cur e kwd (fd_src fd ++ c :: u ++ r))
    TREDIR (at_tok e kwd TREDIR (IRedir (mk (rfd fd d))) r).
Proof.
  intros Hin Hfd Hr Hk. destruct (operator_char c u d mk Hin) as [Hc Hu]. destruct (fd_src_facts fd Hfd) as (Hl & Hd9 & _).
  unfold readtoken1. change (bool_decide (BASESYNTAX = DQSYNTAX)) with false. cbn match.
  set (fin := mk_lex (Some c) (fd_src fd) false [] (syn_zero BASESYNTAX) []).
  assert (calm (c :: u ++ r)) as Hcalm.
  { apply calm_cons; [by destruct Hc as [-> | ->]|]. apply calm_app; [done|by apply calm_sp]. }
  eapply ev_bind with (a := fin) (mid := rd e kwd (u ++ r)).
  - apply (ev_loop (fun k => readtoken1_body k NoMark false)).
    assert (lev body (cur e kwd (fd_src fd ++ c :: u ++ r))
      (false, mk_lex (head (fd_src fd ++ c :: u ++ r)) [] false [] (syn_zero BASESYNTAX) []) fin (rd e kwd (u ++ r))) as [N H].
    { apply (runs_lit e kwd fin (rd e kwd (u ++ r)) (fd_src fd) (c :: u ++ r) [] false []); [done..|].
      unfold runs. apply lev_done. unfold body, readtoken1_body. apply ev_ret_bind.
      unfold char_turn. cbn [x_c x_syn syn_zero y_syntax head y_varnest].
      assert (SIT (Some c) BASESYNTAX = CSPCL) as -> by (by destruct Hc as [-> | ->]).
      apply ev_ret_bind. apply ev_ret. intros s. apply cur_rd. }
    exists (S N). intros n m Hn Hm s Hs. destruct m as [|m]; [lia|].
    destruct (H n (S m) ltac:(lia) ltac:(lia) s Hs) as (s' & E & Hs'). exists s'. split; [|done]. exact E.
  - unfold endword. cbn [x_syn fin y_syntax syn_zero y_varnest x_c x_quotef x_out x_bqlist is_doc].
    assert ((is_char (Some c) ">" || is_char (Some c) "<") && negb false && isdigit_str9 (fd_src fd) = true) as ->
      by (rewrite Hd9; by destruct Hc as [-> | ->]).
    change (bool_decide (BASESYNTAX = ARISYNTAX)) with false.
    change (negb (bool_decide (BASESYNTAX = BASESYNTAX)) && negb false) with false.
    change (negb (0 =? 0)) with false. cbn match.
    eapply ev_bind; [by apply (ev_parseredir e kwd fd c u d mk r)|].
    apply ev_modify_bind with (mid := at_tok e kwd TREDIR (IRedir (mk (rfd fd d))) r); [|by apply ev_ret].
    intros s [Hs Hn]. split; [by apply rd_lasttoken|]. split; [done|]. by apply has_lasttoken.
Qed.

Lemma lexes_redir e fd c u d mk r : (c, u, d, mk) ∈ operators -> wf_fd fd = true -> hd0 r = SP ->
  lexes e (SP :: (fd_src fd ++ c :: u) ++ r) (IRedir (mk (rfd fd d))) r.
Proof.
  intros Hin Hfd Hr kwd Hk. cbn [raw]. unfold xxreadtoken. rewrite <- app_assoc. cbn [app].
  destruct (operator_char c u d mk Hin) as [Hc Hu]. destruct (fd_src_facts fd Hfd) as (Hl & _ & Hh).
  assert (calm (c :: u ++ r)) as Hcalm.
  { apply calm_cons; [by destruct Hc as [-> | ->]|]. apply calm_app; [done|by apply calm_sp]. }
  apply xxreadtoken_start. eapply ev_bind with (a := inl (head (fd_src fd ++ c :: u ++ r)));
    [|by apply (ev_readtoken1_redir e kwd fd c u d mk r)].
  apply (ev_loop xxread_body). pose proof (calm_app (fd_src fd) _ (lit_no_nl _ Hl) Hcalm) as [_ Hb].
  destruct (fd_src fd) as [|a s] eqn:Ef; cbn [app head] in *.
  - apply xxread_word; [by destruct Hc as [-> | ->]|done].
  - cbn in Hl. apply andb_true_iff in Hl as [Ha _]. apply xxread_word; [by apply lit_start|done].
Qed.
