(* ===== verification/AshParseRun.v ===== *)
(** * shell/ash.c: the parser on the text of a program

    Readings of single tokens are turned into specifications of the parser's
    functions on the lexemes of AshParseSpec, one per level of the grammar, and
    these into the theorem that parsing the text of a program gives its tree. *)

From Stdlib Require Import Ascii String ZArith Lia.
From stdpp Require Import base gmap list strings.
From S2P Require Import Prelude Clib LibbbStr LibbbNum AshInput AshLex AshParse AshParseSpec AshLexRun.

Local Open Scope Z_scope.

(** ** Induction on programs *)

Section TreeInd.
Context (P : tree -> Prop).

Definition P_dpart (d : dpart) : Prop := match d with DCmd t => P t | _ => True end.
Definition P_part (p : wpart) : Prop :=
  match p with WCmd t => P t | WDq l => Forall P_dpart l | _ => True end.
Definition P_word (w : word) : Prop := Forall P_part w.
Definition P_rd (r : redirection) : Prop := match r with RFile _ _ w => P_word w | RDup _ _ _ => True end.
Definition P_opt (o : option tree) : Prop := match o with Some t => P t | None => True end.
Definition P_clause (c : clause) : Prop :=
  match c with Clause pats body => Forall P_word pats /\ P_opt body end.

Context
  (HSimple : forall vars args redirs, Forall (fun v => P_word v.2) vars -> Forall P_word args ->
     Forall P_rd redirs -> P (Simple vars args redirs))
  (HPipe : forall t ts, P t -> Forall P ts -> P (Pipe t ts))
  (HNot : forall t, P t -> P (Not t))
  (HAnd : forall a b, P a -> P b -> P (And a b))
  (HOr : forall a b, P a -> P b -> P (Or a b))
  (HBg : forall t, P t -> P (Bg t))
  (HSeq : forall a b, P a -> P b -> P (Seq a b))
  (HIf : forall a b l o, P a -> P b -> Forall (fun x => P x.1 /\ P x.2) l -> P_opt o -> P (If a b l o))
  (HWhile : forall a b, P a -> P b -> P (While a b))
  (HUntil : forall a b, P a -> P b -> P (Until a b))
  (HFor : forall v ws t, Forall P_word ws -> P t -> P (For v ws t))
  (HCase : forall w cs, P_word w -> Forall P_clause cs -> P (Case w cs))
  (HFun : forall n t, P t -> P (Fun n t))
  (HSubshell : forall t rs, P t -> Forall P_rd rs -> P (Subshell t rs))
  (HRedir : forall t rs, P t -> Forall P_rd rs -> P (Redir t rs)).

Section Lists.
Context {A : Type} (Q : A -> Prop) (f : forall a, Q a).
Fixpoint all (l : list A) : Forall Q l :=
  match l with [] => Forall_nil_2 Q | a :: l => Forall_cons_2 Q a l (f a) (all l) end.
End Lists.

Fixpoint tree_rec' (t : tree) : P t :=
  let opt o : P_opt o := match o as o return P_opt o with Some t => tree_rec' t | None => I end in
  let word w : P_word w := all P_part part_rec w in
  match t with
  | Simple vars args redirs =>
      HSimple vars args redirs (all (fun v => P_word v.2) (fun v => word v.2) vars) (all P_word word args)
        (all P_rd rd_rec redirs)
  | Pipe t ts => HPipe t ts (tree_rec' t) (all P tree_rec' ts)
  | Not t => HNot t (tree_rec' t)
  | And a b => HAnd a b (tree_rec' a) (tree_rec' b)
  | Or a b => HOr a b (tree_rec' a) (tree_rec' b)
  | Bg t => HBg t (tree_rec' t)
  | Seq a b => HSeq a b (tree_rec' a) (tree_rec' b)
  | If a b l o =>
      HIf a b l o (tree_rec' a) (tree_rec' b)
        (all (fun x => P x.1 /\ P x.2) (fun x => conj (tree_rec' x.1) (tree_rec' x.2)) l) (opt o)
  | While a b => HWhile a b (tree_rec' a) (tree_rec' b)
  | Until a b => HUntil a b (tree_rec' a) (tree_rec' b)
  | For v ws t => HFor v ws t (all P_word word ws) (tree_rec' t)
  | Case w cs => HCase w cs (word w) (all P_clause clause_rec cs)
  | Fun n t => HFun n t (tree_rec' t)
  | Subshell t rs => HSubshell t rs (tree_rec' t) (all P_rd rd_rec rs)
  | Redir t rs => HRedir t rs (tree_rec' t) (all P_rd rd_rec rs)
  end
with part_rec (p : wpart) : P_part p :=
  match p with
  | WLit s => I
  | WSq s => I
  | WDq l => all P_dpart dpart_rec l
  | WEsc c => I
  | WVar n => I
  | WCmd t => tree_rec' t
  end
with dpart_rec (d : dpart) : P_dpart d :=
  match d with DChar c => I | DVar n => I | DCmd t => tree_rec' t end
with rd_rec (r : redirection) : P_rd r :=
  match r with RFile fd op w => all P_part part_rec w | RDup fd out target => I end
with clause_rec (c : clause) : P_clause c :=
  match c with
  | Clause pats body =>
      conj (all P_word (fun w => all P_part part_rec w) pats)
        (match body as o return P_opt o with Some t => tree_rec' t | None => I end)
  end.
End TreeInd.

(** ** Reading a token *)

Definition classify (kwd : Z) (it : item) : token :=
  match it with
  | IWord w _ false => if chk kwd CHKKWD then default TWORD (findkwd w) else TWORD
  | _ => raw it
  end.

(** At the text [r] with exactly the flags [kwd]. *)
Definition fresh (e : env) (kwd : Z) (r : cstr) (s : pstate) : Prop := rd e kwd r s /\ p_checkkwd s = kwd.

Lemma fresh_set e kwd kwd' r s : rd e kwd r s -> fresh e kwd' r (set_checkkwd kwd' s).
Proof. intros H. split; [by eapply rd_checkkwd|done]. Qed.

Lemma at_tok_rd e kwd t it r s : at_tok e kwd t it r s -> rd e kwd r s.
Proof. by intros [? _]. Qed.

Arguments findkwd : simpl never.

Definition is_kwd (t : token) : bool := bool_decide (t ∈ fst <$> drop KWDOFFSET tokname_array).

Lemma findkwd_kwd w t : findkwd w = Some t -> is_kwd t = true.
Proof.
  unfold findkwd. intros H. destruct (List.find _ _) as [[t' s']|] eqn:E; [|done]. cbn in H. injection H as ->.
  apply List.find_some in E as [E _]. unfold is_kwd. apply bool_decide_eq_true. apply list_elem_of_fmap.
  exists (t, s'). split; [done|]. by apply list_elem_of_In.
Qed.

Lemma kwd_other t : is_kwd t = true -> t <> TWORD /\ t <> TNL /\ t <> TREDIR /\ t <> TEOF.
Proof. by destruct t. Qed.

Lemma ev_readtoken e e' kwd r it r' : ev xxreadtoken (rd e kwd r) (raw it) (at_tok e' kwd (raw it) it r') ->
  raw it <> TNL \/ chk kwd CHKNL = false -> raw it = TWORD <-> (exists w bq q, it = IWord w bq q) ->
  ev readtoken (fresh e kwd r) (classify kwd it) (at_tok e' 0 (classify kwd it) it r').
Proof.
  intros [N H] Hnl Hword. exists (S N). intros n Hn s [Hs Hk].
  destruct (H n ltac:(lia) s Hs) as (s1 & E & ((He & Hi & Hk1) & Hl & Hh)).
  unfold readtoken, mbind, P_bind, get, modify. rewrite E, Hk, procs_at_fuel. destruct n as [|n]; [lia|].
  assert ((if chk kwd CHKNL then loop (newlines_body (procs_at (S n))) (S n) (raw it) else mret (raw it)) =
    (mret (raw it) : P token)) as ->.
  { destruct Hnl as [Hnl|Hnl]; [|by rewrite Hnl]. destruct (chk _ CHKNL); [|done].
    cbn [loop]. unfold newlines_body. by rewrite bool_decide_eq_false_2. }
  unfold mret, P_ret. cbn [p_quoteflag set_checkkwd].
  assert (chk (Z.lor kwd (p_checkkwd s1)) CHKKWD = chk kwd CHKKWD) as ->.
  { destruct Hk1 as [-> | ->]; [by rewrite Z.lor_diag|by rewrite Z.lor_0_r]. }
  assert (at_tok e' 0 (raw it) it r' (set_checkkwd 0 s1)) as Hat.
  { split; [|split; [done|by apply has_checkkwd]]. split; [by apply env_is_checkkwd|]. split; [done|by left]. }
  case_bool_decide as Ht; cbn [negb orb].
  - apply Hword in Ht as (w & bq & q & ->). destruct Hh as (Hw1 & Hw2 & Hw3). rewrite Hw3. cbn [classify raw].
    destruct q; [by eexists|]. destruct (chk kwd CHKKWD); [|by eexists]. cbn [p_wordtext set_checkkwd]. rewrite Hw1.
    destruct (findkwd w) as [t|]; [|by eexists]. eexists. split; [reflexivity|].
    destruct Hat as (Hr & _ & Hh). split; [by apply rd_lasttoken|]. split; [done|by apply has_lasttoken].
  - assert (classify kwd it = raw it) as ->; [|by eexists]. destruct it as [t|w bq q|nd]; [done| |done].
    exfalso. apply Ht. apply Hword. eauto.
Qed.

(** The items that occur: an operator is not a word. *)
Definition proper (it : item) : Prop := match it with IOp t => t <> TWORD /\ t <> TNL | _ => True end.

Lemma proper_word it : proper it -> raw it = TWORD <-> (exists w bq q, it = IWord w bq q).
Proof. destruct it as [t|w bq q|n]; cbn; intros H; split; try done; try (intros (? & ? & ? & ?); done); eauto. naive_solver. Qed.

Lemma proper_nl it : proper it -> raw it <> TNL.
Proof. destruct it; cbn; naive_solver. Qed.

Lemma ev_read e kwd r it r' : lexes e r it r' -> proper it -> chk kwd CHKEOFMARK = false ->
  ev readtoken (fresh e kwd r) (classify kwd it) (at_tok e 0 (classify kwd it) it r').
Proof. intros Hl Hp Hk. apply (ev_readtoken e e); [by apply Hl|left; by apply proper_nl|by apply proper_word]. Qed.

Lemma ev_read_0 e r it r' : lexes e r it r' -> proper it ->
  ev readtoken (rd e 0 r) (raw it) (at_tok e 0 (raw it) it r').
Proof.
  intros Hl Hp. assert (classify 0 it = raw it) as <- by (by destruct it as [t|w bq []|n]).
  eapply ev_weaken; [by apply (ev_read e 0)| |done]. intros s Hs. split; [done|]. by destruct Hs as (_ & _ & [?|?]).
Qed.

Lemma classify_stays kwd it : proper it -> chk kwd CHKKWD = true -> stays_word (classify kwd it) it.
Proof.
  intros Hp Hk. destruct it as [t|w bq q|n]; cbn [classify proper raw] in *.
  - split; [naive_solver|]. naive_solver.
  - rewrite Hk. destruct q; [split; [done|]; eauto 6|]. destruct (findkwd w) as [t|] eqn:E; cbn [default].
    + destruct (kwd_other t (findkwd_kwd w t E)) as (? & ? & _). by split.
    + split; [done|]. eauto 6.
  - by split.
Qed.

(** ** Specifications of the levels of the grammar *)

(** The flags where a command may start. *)
Definition KWD : Z := Z.lor CHKNL (Z.lor CHKKWD CHKALIAS).

Lemma classify_kwd kwd it : chk kwd CHKKWD = true -> classify kwd it = classify KWD it.
Proof. intros H. destruct it as [t|w bq []|n]; cbn [classify]; try done. by rewrite H. Qed.

Lemma text_cons x l r : text (x :: l) ++ r = SP :: l_src x ++ (text l ++ r).
Proof. unfold text. cbn. by rewrite <- app_assoc. Qed.

Lemma text_app l l' : text (l ++ l') = text l ++ text l'.
Proof. unfold text. by rewrite map_app, concat_app. Qed.

Lemma text_hd l r : hd0 r = SP -> hd0 (text l ++ r) = SP.
Proof. by destruct l. Qed.

Section Line.
Context (e : env).

Definition lexeme_ok (x : lexeme) : Prop :=
  NL ∉ l_src x /\ proper (l_item x) /\ forall r, hd0 r = SP -> lexes e (SP :: l_src x ++ r) (l_item x) r.

(** From [pre] the next token is the item [it], and [r] is left behind it. *)
Definition first (pre : pstate -> Prop) (it : item) (r : cstr) : Prop :=
  ev readtoken pre (classify KWD it) (at_tok e 0 (classify KWD it) it r) /\
  proper it /\ forall s, pre s -> f_linno (p_file s) = e_linno e.

Lemma rd_linno kwd r s : rd e kwd r s -> f_linno (p_file s) = e_linno e.
Proof. by intros ([] & _). Qed.

Lemma first_fresh x r kwd : lexeme_ok x -> chk kwd CHKKWD = true -> chk kwd CHKEOFMARK = false -> hd0 r = SP ->
  first (fresh e kwd (SP :: l_src x ++ r)) (l_item x) r.
Proof.
  intros (_ & Hp & Hl) Hk Hk' Hr. split; [|split; [done|intros s [Hs _]; by eapply rd_linno]].
  rewrite <- (classify_kwd kwd) by done. by apply ev_read; [apply Hl| |].
Qed.

Lemma first_pushed it r kwd : proper it -> first (pushed e kwd (classify KWD it) it r) it r.
Proof.
  intros Hp. split; [|split; [done|]].
  - apply ev_readtoken_pushed. by apply classify_stays.
  - intros s [_ [Hs _]]. by apply rd_linno in Hs.
Qed.

Lemma first_back pre it r : first pre it r ->
  ev (fun k => readtoken k) pre (classify KWD it) (at_tok e 0 (classify KWD it) it r).
Proof. by intros [H _]. Qed.

(** An operator pushed back is read again. *)
Lemma ev_pushed_op t r kwd : t <> TWORD -> t <> TNL ->
  ev readtoken (pushed e kwd t (IOp t) r) t (at_tok e 0 t (IOp t) r).
Proof. intros H1 H2. apply ev_readtoken_pushed. by split. Qed.

(** [m] reads the lexemes [ls], makes [c] of them, and pushes back the
    operator behind, one of [allowed]. *)
Definition spec (m : procs -> P node) (allowed : list token) (ls : list lexeme) (c : node) : Prop :=
  match ls with
  | [] => False
  | x :: l => forall pre r0 t r1, first pre (l_item x) (text l ++ r0) -> lexes e r0 (IOp t) r1 -> t ∈ allowed ->
      hd0 r0 = SP -> ev m pre c (pushed e 0 t (IOp t) r1)
  end.

Definition after_pipeline : list token := [TSEMI; TBACKGND; TAND; TOR].
Definition after_command : list token := TPIPE :: after_pipeline.

(** [pipeline] behind its first token. *)
Definition pipe_rest (negate : bool) (k : procs) : P node :=
  n1 ← parse_command k;
  t ← readtoken k;
  n1 ← (if bool_decide (t = TPIPE) then
          l ← loop (pipe_body k) (k_fuel k) [n1]; mret (NPIPE false l)
        else mret n1);
  push_back;;
  mret (if negate then NNOT n1 else n1).

Definition cspec := spec parse_command after_command.
Definition qspec (ls : list lexeme) (c : node) : Prop :=
  forall negate, spec (pipe_rest negate) after_pipeline ls (if negate : bool then NNOT c else c).
Definition pspec := spec pipeline after_pipeline.

(** [andor], in front of any continuation of its loop. *)
Definition aspec (ls : list lexeme) (c : node) : Prop :=
  match ls with
  | [] => False
  | x :: l => forall pre r0 t r1 b post, first pre (l_item x) (text l ++ r0) -> lexes e r0 (IOp t) r1 ->
      t ∈ after_pipeline -> hd0 r0 = SP ->
      lev andor_body (pushed e 0 t (IOp t) r1) c b post -> ev andor pre b post
  end.

Lemma after_op t : t ∈ after_command -> t <> TWORD /\ t <> TNL /\ t <> TLP /\ t <> TREDIR.
Proof. unfold after_command, after_pipeline. intros H. set_unfold. naive_solver. Qed.

Lemma after_pipeline_command t : t ∈ after_pipeline -> t ∈ after_command /\ t <> TPIPE.
Proof. unfold after_command, after_pipeline. intros H. set_unfold. naive_solver. Qed.

Definition command_starts : list token := [TWORD; TREDIR; TIF; TWHILE; TUNTIL; TFOR; TCASE; TLP; TBEGIN].
Definition starts_with_one_of (l : list token) (ls : list lexeme) : Prop :=
  match ls with x :: _ => classify KWD (l_item x) ∈ l | [] => False end.
Definition cstart := starts_with_one_of command_starts.
Definition lstart := starts_with_one_of (TNOT :: command_starts).

Lemma cstart_lstart ls : cstart ls -> lstart ls.
Proof. destruct ls as [|x l]; [done|]. unfold lstart, cstart, starts_with_one_of. intros H. by apply list_elem_of_further. Qed.

(** *** Pipelines *)

Lemma qspec_command ls c : cspec ls c -> qspec ls c.
Proof.
  intros H negate. destruct ls as [|x l]; [done|]. intros pre r0 t r1 Hf Hl Ht Hr.
  destruct (after_pipeline_command t Ht) as [Hc Hnp]. destruct (after_op t Hc) as (? & ? & _).
  eapply ev_bind; [by eapply H|]. eapply ev_bind; [by apply ev_pushed_op|].
  rewrite bool_decide_eq_false_2 by done. apply ev_ret_bind.
  eapply ev_bind; [apply ev_push_back|]. by apply ev_ret.
Qed.

Definition part : Type := list lexeme * node.
Definition cmd_ok (p : part) : Prop := cspec p.1 p.2 /\ Forall lexeme_ok p.1.
Definition piped (ps : list part) : list lexeme := concat (map (fun p => op "|" TPIPE :: p.1) ps).

Lemma lexes_pipe r : ends r -> lexes e (SP :: l_src (op "|" TPIPE) ++ r) (IOp TPIPE) r.
Proof. intros H. apply (lexes_single e "|" 4); [reflexivity|lia|reflexivity|done]. Qed.

Lemma lexemes_hd l r : Forall lexeme_ok l -> hd0 r = SP -> hd0 (text l ++ r) = SP.
Proof. intros _. apply text_hd. Qed.

Lemma pipe_loop ps : forall r0 t r1 l, Forall cmd_ok ps -> ps <> [] -> lexes e r0 (IOp t) r1 -> t ∈ after_pipeline ->
  hd0 r0 = SP -> match ps with
    | p :: ps' => lev pipe_body (rd e 0 (text p.1 ++ text (piped ps') ++ r0)) l (l ++ map snd ps) (at_tok e 0 t (IOp t) r1)
    | [] => True
    end.
Proof.
  induction ps as [|[ls c] ps IH]; [done|]. intros r0 t r1 l Hps _ Hl Ht Hr. apply Forall_cons in Hps as [[Hc Hls] Hps].
  cbn [fst snd] in *. destruct ls as [|x ls]; [done|]. apply Forall_cons in Hls as [Hx Hls].
  destruct (after_pipeline_command t Ht) as [Htc Hnp]. destruct (after_op t Htc) as (? & ? & _).
  rewrite text_cons. destruct ps as [|p ps].
  - apply lev_done. unfold pipe_body. change (Z.lor CHKNL (Z.lor CHKKWD CHKALIAS)) with KWD.
    eapply ev_modify_bind; [intros s Hs; by apply (fresh_set e 0 KWD)|].
    change (text (piped []) ++ r0) with r0.
    eapply ev_bind; [eapply Hc; [apply first_fresh; [done..|by apply text_hd]|exact Hl|done|done]|].
    eapply ev_bind; [by apply ev_pushed_op|]. rewrite bool_decide_eq_false_2 by done. by apply ev_ret.
  - assert (text (piped (p :: ps)) ++ r0 = SP :: l_src (op "|" TPIPE) ++ text p.1 ++ text (piped ps) ++ r0) as Et.
    { unfold piped. cbn [map concat]. by rewrite text_app, <- app_assoc, text_cons. }
    rewrite Et. pose proof Hps as Hps'. apply Forall_cons in Hps' as [[Hp _] _].
    assert (hd0 (text p.1 ++ text (piped ps) ++ r0) = SP) as Hsp by (by do 2 apply text_hd).
    eapply lev_step with (a' := l ++ [c]).
    + unfold pipe_body. change (Z.lor CHKNL (Z.lor CHKKWD CHKALIAS)) with KWD.
      eapply ev_modify_bind; [intros s Hs; by apply (fresh_set e 0 KWD)|].
      eapply ev_bind; [eapply (Hc _ _ TPIPE); [apply first_fresh; [done..|by apply text_hd]| | |]|].
      * apply lexes_pipe. by left.
      * by left.
      * done.
      * eapply ev_bind; [by apply ev_pushed_op|]. rewrite bool_decide_eq_true_2 by done. apply ev_ret, at_tok_rd.
    + specialize (IH r0 t r1 (l ++ [c]) Hps ltac:(done) Hl Ht Hr). cbn [map snd] in IH |- *.
      by rewrite <- app_assoc in IH.
Qed.

Lemma qspec_pipe ls c p ps : cspec ls c -> Forall cmd_ok (p :: ps) ->
  qspec (ls ++ piped (p :: ps)) (NPIPE false (c :: map snd (p :: ps))).
Proof.
  intros Hc Hps negate. destruct ls as [|x l]; [done|]. cbn [app]. intros pre r0 t r1 Hf Hl Ht Hr.
  assert (text (l ++ piped (p :: ps)) ++ r0 = text l ++ SP :: l_src (op "|" TPIPE) ++ text p.1 ++ text (piped ps) ++ r0) as Et.
  { rewrite text_app. unfold piped. cbn [map concat]. by rewrite text_app, <- !app_assoc, text_cons. }
  rewrite Et in Hf. assert (hd0 (text p.1 ++ text (piped ps) ++ r0) = SP) as Hsp by (by do 2 apply text_hd).
  eapply ev_bind; [eapply (Hc _ _ TPIPE _ Hf); [apply lexes_pipe; by left|by left|done]|].
  eapply ev_bind; [by apply ev_pushed_op|]. rewrite bool_decide_eq_true_2 by done.
  eapply ev_bind with (a := NPIPE false (c :: map snd (p :: ps))).
  - eapply ev_bind; [apply (ev_loop pipe_body)|by apply ev_ret].
    eapply lev_weaken; [apply (pipe_loop (p :: ps) r0 t r1 [c]); done|intros s; apply at_tok_rd|done].
  - eapply ev_bind; [apply ev_push_back|]. by apply ev_ret.
Qed.

Lemma pspec_rest ls c : qspec ls c -> cstart ls -> pspec ls c.
Proof.
  intros H Hs. destruct ls as [|x l]; [done|]. intros pre r0 t r1 [Hf [Hp Hl0]] Hl Ht Hr.
  unfold pipeline. eapply ev_bind; [exact Hf|].
  assert (classify KWD (l_item x) <> TNOT) as Hn.
  { intros E. unfold cstart, starts_with_one_of in Hs. rewrite E in Hs. revert Hs. clear. by_eval. }
  rewrite bool_decide_eq_false_2 by done. eapply ev_bind; [apply ev_push_back|].
  exact (H false _ r0 t r1 (first_pushed _ _ 0 Hp) Hl Ht Hr).
Qed.

Lemma pspec_not ls c : qspec ls c -> Forall lexeme_ok ls -> pspec (kw "!" :: ls) (NNOT c).
Proof.
  intros H Hls. intros pre r0 t r1 [Hf [Hp Hl0]] Hl Ht Hr. unfold pipeline.
  eapply ev_bind; [exact Hf|]. cbn [l_item kw]. change (classify KWD (IWord (lit "!") [] false)) with TNOT.
  rewrite bool_decide_eq_true_2 by done. change (Z.lor CHKKWD CHKALIAS) with 3.
  destruct ls as [|x l]; [by destruct (H false)|]. apply Forall_cons in Hls as [Hx Hls]. rewrite text_cons.
  eapply ev_modify_bind; [intros s Hs; apply (fresh_set e 0 3); by apply at_tok_rd in Hs|].
  refine (H true _ r0 t r1 _ Hl Ht Hr). apply first_fresh; [done..|by apply text_hd].
Qed.

(** *** And-or lists *)

Lemma aspec_pipeline ls c : pspec ls c -> aspec ls c.
Proof.
  intros H. destruct ls as [|x l]; [done|]. intros pre r0 t r1 b post Hf Hl Ht Hr Hk.
  unfold andor. eapply ev_bind; [by eapply H|]. by apply (ev_loop andor_body).
Qed.

Definition andor_node (t : token) : node -> node -> node := match t with TAND => NAND | _ => NOR end.

Lemma aspec_op ls1 c1 ls2 c2 x t : aspec ls1 c1 -> pspec ls2 c2 -> Forall lexeme_ok ls2 ->
  x = op "&&" TAND /\ t = TAND \/ x = op "||" TOR /\ t = TOR ->
  aspec (ls1 ++ x :: ls2) (andor_node t c1 c2).
Proof.
  intros H1 H2 Hls Hx. destruct ls1 as [|x1 l1]; [done|]. cbn [app]. intros pre r0 t0 r1 b post Hf Hl Ht Hr Hk.
  rewrite text_app, <- app_assoc, text_cons in Hf.
  assert (hd0 (text ls2 ++ r0) = SP) as Hsp by (by apply text_hd).
  eapply (H1 pre _ t (text ls2 ++ r0)); [exact Hf| | |done|].
  - destruct Hx as [[-> ->]|[-> ->]]; [apply (lexes_double e "&" 3)|apply (lexes_double e "|" 4)]; first [reflexivity|lia].
  - destruct Hx as [[-> ->]|[-> ->]]; by_eval.
  - eapply lev_step with (a' := andor_node t c1 c2); [|exact Hk]. unfold andor_body.
    eapply ev_bind; [apply ev_pushed_op; by destruct Hx as [[-> ->]|[-> ->]]|].
    change (Z.lor CHKNL (Z.lor CHKKWD CHKALIAS)) with KWD. destruct ls2 as [|x2 l2]; [done|].
    apply Forall_cons in Hls as [Hx2 Hls]. rewrite text_cons.
    assert (ev (fun k => modify (set_checkkwd KWD);; n2 ← pipeline k; mret (inl (andor_node t c1 n2) : node + node))
      (at_tok e 0 t (IOp t) (SP :: l_src x2 ++ text l2 ++ r0)) (inl (andor_node t c1 c2)) (pushed e 0 t0 (IOp t0) r1)) as Hm.
    { eapply ev_modify_bind; [intros s Hs; apply (fresh_set e 0 KWD); by apply at_tok_rd in Hs|].
      eapply ev_bind; [|by apply ev_ret]. refine (H2 _ r0 t0 r1 _ Hl Ht Hr). apply first_fresh; [done..|by apply text_hd]. }
    by destruct Hx as [[-> ->]|[-> ->]].
Qed.

(** *** Lists of commands *)

Definition solid (c : node) : Prop := c <> Null /\ c <> NODE_EOF.

(** A command of a list: its lexemes, its node, and whether it is put in the
    background. *)
Record element := mk_element { m_lexemes : list lexeme; m_node : node; m_bg : bool }.

Record element_ok (m : element) : Prop := mk_element_ok {
  m_spec : aspec (m_lexemes m) (m_node m);
  m_lexemes_ok : Forall lexeme_ok (m_lexemes m);
  m_start : lstart (m_lexemes m);
  m_solid : solid (m_node m);
}.

Definition el_sep (m : element) : lexeme := if m_bg m then op "&" TBACKGND else op ";" TSEMI.
Definition el_lexemes (m : element) : list lexeme := m_lexemes m ++ [el_sep m].
Definition el_node (m : element) : node := if m_bg m then bg_node (m_node m) else m_node m.

Definition append_node (n1 n : node) : node := match n1 with Null => n | _ => NSEMI n1 n end.
Definition els_lexemes (l : list element) : list lexeme := concat (map el_lexemes l).
Definition els_node (n1 : node) (l : list element) : node := fold_left (fun n m => append_node n (el_node m)) l n1.

Lemma background_spec c pre : solid c -> ev (fun _ => background c) pre (bg_node c) pre.
Proof. intros [H1 H2]. destruct c; try done; by apply ev_ret. Qed.

Lemma lstart_facts x l : lstart (x :: l) -> let t := classify KWD (l_item x) in
  t <> TNL /\ t <> TEOF /\ tokendlist t = false.
Proof.
  unfold lstart, starts_with_one_of, command_starts. cbv zeta. intros H. set_unfold.
  by repeat destruct H as [-> |H].
Qed.

Lemma lexes_sep m r : ends r -> lexes e (SP :: l_src (el_sep m) ++ r) (l_item (el_sep m)) r.
Proof.
  intros H. unfold el_sep. destruct (m_bg m).
  - apply (lexes_single e "&" 3); [reflexivity|lia|reflexivity|done].
  - apply (lexes_single e ";" 5); [reflexivity|lia|reflexivity|done].
Qed.

Definition list_kwd (fl : Z) : Z := Z.lor (if Z.odd fl then 0 else CHKNL) (Z.lor CHKKWD CHKALIAS).

(** One element: the turn of [list]'s loop that reads it. *)
Lemma list_element fl kwd m n1 started r : element_ok m -> fl = 0 \/ fl = 1 \/ fl = 2 -> ends r ->
  ev (fun k => list_body k fl (n1, started)) (rd e kwd (text (el_lexemes m) ++ r))
    (inl (append_node n1 (el_node m), true)) (rd e 0 r).
Proof.
  intros [Hs Hls Hst Hso] Hfl Hr. unfold el_lexemes. rewrite text_app, <- app_assoc.
  destruct (m_lexemes m) as [|x l] eqn:El; [done|]. apply Forall_cons in Hls as [Hx Hls].
  destruct (lstart_facts x l Hst) as (Hnl & Heof & Hend).
  rewrite text_cons. set (r0 := text [el_sep m] ++ r).
  assert (r0 = SP :: l_src (el_sep m) ++ r) as Er0 by (unfold r0; by rewrite text_cons).
  assert (hd0 r0 = SP) as Hr0 by (by rewrite Er0).
  unfold list_body. eapply ev_modify_bind; [intros s Hs'; by apply (fresh_set e kwd (list_kwd fl))|].
  assert (first (fresh e (list_kwd fl) (SP :: l_src x ++ text l ++ r0)) (l_item x) (text l ++ r0)) as [Hf [Hp _]].
  { apply first_fresh; [done|by destruct Hfl as [-> |[-> | ->]]..|by apply text_hd]. }
  eapply ev_bind; [exact Hf|].
  apply (ev_ext (fun k => list_command k fl n1 started (classify KWD (l_item x))));
    [intros k; by destruct (classify KWD (l_item x))|].
  unfold list_command. eapply ev_bind; [apply ev_push_back|]. rewrite Hend, andb_false_r.
  set (t := if m_bg m then TBACKGND else TSEMI).
  assert (l_item (el_sep m) = IOp t) as Et by (unfold el_sep, t; by destruct (m_bg m)).
  eapply ev_bind with (a := m_node m) (mid := pushed e 0 t (IOp t) r).
  { eapply (Hs _ r0 t r); [by apply first_pushed| | |done|].
    - rewrite Er0, <- Et. by apply lexes_sep.
    - unfold t. destruct (m_bg m); by_eval.
    - apply lev_done. unfold andor_body. eapply ev_bind; [apply ev_pushed_op; unfold t; by destruct (m_bg m)|].
      unfold t. destruct (m_bg m); (eapply ev_bind; [apply ev_push_back|by apply ev_ret]). }
  eapply ev_bind; [apply ev_pushed_op; unfold t; by destruct (m_bg m)|].
  unfold el_node, t. destruct (m_bg m).
  - change (bool_decide (TBACKGND = TBACKGND)) with true. cbn match.
    eapply ev_bind; [by apply background_spec|]. apply ev_ret, at_tok_rd.
  - change (bool_decide (TSEMI = TBACKGND)) with false. cbn match. apply ev_ret_bind. apply ev_ret, at_tok_rd.
Qed.

Lemma list_elements fl l : forall n1 started kwd r b post, Forall element_ok l -> fl = 0 \/ fl = 1 \/ fl = 2 -> ends r ->
  l <> [] -> lev (fun k => list_body k fl) (rd e 0 r) (els_node n1 l, true) b post ->
  lev (fun k => list_body k fl) (rd e kwd (text (els_lexemes l) ++ r)) (n1, started) b post.
Proof.
  induction l as [|m l IH]; [done|]. intros n1 started kwd r b post Hl Hfl Hr _ Hk.
  apply Forall_cons in Hl as [Hm Hl]. unfold els_lexemes. cbn [map concat]. rewrite text_app, <- app_assoc.
  eapply lev_step; [apply list_element; [done..|]|].
  - destruct l as [|m' l]; [done|]. unfold els_lexemes, el_lexemes. cbn [map concat].
    apply Forall_cons in Hl as [Hm' _]. destruct (m_lexemes m') eqn:E; [by destruct Hm' as [H _ _ _]; rewrite E in H|].
    by left.
  - destruct l as [|m' l]; [exact Hk|]. by apply IH.
Qed.

(** A list as [list] reads it up to a closing token. *)
Definition list_spec (ls : list lexeme) (c : node) : Prop := forall fl kwd r0 t it r1,
  fl = 0 \/ fl = 2 -> ev readtoken (fresh e KWD r0) t (at_tok e 0 t it r1) -> tokendlist t = true -> t <> TEOF ->
  hd0 r0 = SP -> ev (fun k => parse_list k fl) (rd e kwd (text ls ++ r0)) c (pushed e 0 t it r1).

(** The closing token ends the list. *)
Lemma list_close fl n1 started kwd r0 t it r1 : fl = 0 /\ started = true \/ fl = 2 ->
  ev readtoken (fresh e KWD r0) t (at_tok e 0 t it r1) -> tokendlist t = true -> t <> TEOF ->
  ev (fun k => list_body k fl (n1, started)) (rd e kwd r0) (inr n1) (pushed e 0 t it r1).
Proof.
  intros Hfl Ht Hend Hne. unfold list_body.
  apply ev_modify_bind with (mid := fresh e KWD r0).
  { intros s Hs. destruct Hfl as [[-> _]| ->]; by apply (fresh_set e kwd KWD). }
  eapply ev_bind; [exact Ht|].
  apply (ev_ext (fun k => list_command k fl n1 started t)); [intros k; by destruct t|].
  unfold list_command. eapply ev_bind; [apply ev_push_back|]. rewrite Hend.
  destruct Hfl as [[-> ->]| ->]; [|destruct started]; by apply ev_ret.
Qed.

Lemma list_spec_elements l : Forall element_ok l -> l <> [] -> list_spec (els_lexemes l) (els_node Null l).
Proof.
  intros Hl Hne fl kwd r0 t it r1 Hfl Ht Hend Hteof Hr. unfold parse_list. apply (ev_loop (fun k => list_body k fl)).
  apply list_elements; [done|naive_solver|by left|done|]. apply lev_done.
  apply list_close; [naive_solver|done..].
Qed.

(** *** Closing words and braces *)

Lemma lexeme_ok_name s : negb (bool_decide (s = [])) && forallb lit_char s && negb (hd0 s ≟ "#"%char) = true ->
  lexeme_ok (name_lexeme s).
Proof.
  intros H. split; [|split; [done|]].
  - apply andb_true_iff in H as [H _]. apply andb_true_iff in H as [_ H]. by apply lit_no_nl.
  - intros r Hr. by apply lexes_name.
Qed.

Lemma closing_word s t r : negb (bool_decide (lit s = [])) && forallb lit_char (lit s) && negb (hd0 (lit s) ≟ "#"%char) = true ->
  findkwd (lit s) = Some t -> hd0 r = SP ->
  ev readtoken (fresh e KWD (SP :: l_src (kw s) ++ r)) t (at_tok e 0 t (l_item (kw s)) r).
Proof.
  intros H Hf Hr. assert (classify KWD (l_item (kw s)) = t) as <-.
  { cbn [classify kw l_item]. change (chk KWD CHKKWD) with true. cbn match. by rewrite Hf. }
  apply ev_read; [|done..]. by apply (lexes_name e (lit s) r).
Qed.

(** [expect] of a token that was pushed back. *)
Lemma ev_expect kwd t it r : stays_word t it -> ev (fun k => expect k t) (pushed e kwd t it r) tt (at_tok e 0 t it r).
Proof.
  intros H. unfold expect. eapply ev_bind; [by apply ev_readtoken_pushed|]. rewrite bool_decide_eq_true_2 by done. by apply ev_ret.
Qed.

Lemma kwd_stays w t : findkwd w = Some t -> stays_word t (IWord w [] false).
Proof. intros H. destruct (kwd_other t (findkwd_kwd w t H)) as (? & ? & _). by split. Qed.

(** A list between a keyword just read and a closing keyword, which is then
    expected. *)
Lemma ev_list_expect {B} ls c s t kwd r (f : procs -> node -> P B) b post : list_spec ls c ->
  negb (bool_decide (lit s = [])) && forallb lit_char (lit s) && negb (hd0 (lit s) ≟ "#"%char) = true ->
  findkwd (lit s) = Some t -> tokendlist t = true -> hd0 r = SP ->
  ev (fun k => f k c) (at_tok e 0 t (l_item (kw s)) r) b post ->
  ev (fun k => n ← k_list k 0; expect k t;; f k n) (rd e kwd (text ls ++ SP :: l_src (kw s) ++ r)) b post.
Proof.
  intros Hls Hs Hf Hend Hr Hk. eapply ev_bind.
  - apply ev_k_list. eapply Hls; [by left|by apply closing_word|done|..|done].
    by destruct (kwd_other t (findkwd_kwd _ t Hf)) as (_ & _ & _ & ?).
  - eapply ev_bind; [|exact Hk]. apply ev_expect. by apply kwd_stays.
Qed.

(** A compound command, given its lexemes between the first token and the last. *)
Lemma trailing_none c t r0 r1 kwd L : lexes e r0 (IOp t) r1 -> t ∈ after_command ->
  ev (fun k => trailing_redirs k L c) (rd e kwd r0) c (pushed e 0 t (IOp t) r1).
Proof.
  intros Hl Ht. destruct (after_op t Ht) as (? & ? & ? & Hre). unfold trailing_redirs.
  eapply ev_modify_bind; [intros s Hs; by apply (fresh_set e kwd 3)|].
  eapply ev_bind with (a := []).
  - apply (ev_loop redirs_body), lev_done. unfold redirs_body. eapply ev_bind; [by apply (ev_read e 3 r0 (IOp t) r1)|].
    cbn [classify raw]. rewrite bool_decide_eq_false_2 by done. by apply ev_ret.
  - eapply ev_bind; [apply ev_push_back|]. by apply ev_ret.
Qed.


(** *** Redirections *)

Let L : Z := e_linno e.
Let comp : tree -> node := compile L.
Let list_of (t : tree) : list lexeme := lst (print L t).
Let wl (w : word) : lexeme := word_lexeme comp list_of w.

Lemma ev_linno_bind {B} (h : procs -> Z -> P B) (pre : pstate -> Prop) b post :
  (forall s, pre s -> f_linno (p_file s) = L) -> ev (fun k => h k L) pre b post ->
  ev (fun k => f ← get p_file; h k (f_linno f)) pre b post.
Proof.
  intros Hl [N H]. exists N. intros n Hn s Hs. unfold mbind, P_bind, get. rewrite (Hl s Hs). by apply H.
Qed.

Definition good_word (w : word) : Prop := wf_word wf w = true /\ word_ok L e w.

Lemma lexeme_ok_word w : good_word w -> lexeme_ok (wl w).
Proof.
  intros [Hwf Hok]. split; [|split; [done|]].
  - apply (word_no_nl L e w); [|done]. unfold wf_word in Hwf. by apply andb_true_iff in Hwf as [_ ?].
  - intros r Hr. by apply (lexes_wword L e w r).
Qed.

Definition good_rd (r : redirection) : Prop :=
  match r with RFile fd op w => wf_fd fd = true /\ good_word w | RDup fd out target => wf_fd fd = true /\ wf_fd target = true end.

Definition rd_head (r : redirection) : lexeme :=
  match r with
  | RFile fd op w => mk_lexeme (fd_src fd ++ rop_src op) (IRedir (NFILE (rop_type op) (rfd fd (rop_fd op)) None))
  | RDup fd out target => mk_lexeme (fd_src fd ++ lit (if out then ">&" else "<&"))
         (IRedir (NDUP (if out then NTOFD else NFROMFD) (rfd fd (if out then 1 else 0)) 0 None))
  end.
Definition rd_word (r : redirection) : lexeme :=
  match r with
  | RFile fd op w => wl w
  | RDup fd out target => name_lexeme (match target with Some n => fmt_u (Z.of_nat n) | None => lit "-" end)
  end.

Lemma rd_lexemes_eq r : rd_lexemes comp list_of r = [rd_head r; rd_word r].
Proof. by destruct r. Qed.

Lemma rd_head_ok r : good_rd r -> lexeme_ok (rd_head r).
Proof.
  intros H. destruct r as [fd op w|fd out target]; destruct H as [Hfd _]; cbn [rd_head].
  - destruct (fd_src_facts fd Hfd) as (Hl & _ & _). split; [|split; [done|]].
    + cbn [l_src]. rewrite not_elem_of_app. split; [by apply lit_no_nl|]. destruct op; by_eval.
    + intros r Hr. cbn [l_src l_item].
      destruct op; match goal with |- lexes _ (SP :: (_ ++ rop_src ?o) ++ _) _ _ =>
        let v := eval vm_compute in (rop_src o) in change (rop_src o) with v end;
        (eapply (lexes_redir e fd _ _ _ (fun fd => NFILE _ fd None)); [|done|done]); unfold operators; repeat (first [left; reflexivity|right]).
  - destruct (fd_src_facts fd Hfd) as (Hl & _ & _). split; [|split; [done|]].
    + cbn [l_src]. rewrite not_elem_of_app. split; [by apply lit_no_nl|]. destruct out; by_eval.
    + intros r Hr. cbn [l_src l_item].
      destruct out;
        (eapply (lexes_redir e fd _ ["&"%char] _ (fun fd => NDUP _ fd 0 None)); [|done|done]); unfold operators; repeat (first [left; reflexivity|right]).
Qed.

Lemma fd_name_ok target : wf_fd target = true ->
  let s := match target with Some n => fmt_u (Z.of_nat n) | None => lit "-" end in
  negb (bool_decide (s = [])) && forallb lit_char s && negb (hd0 s ≟ "#"%char) = true /\
  (forall pre, ev (fun _ => fixredir s) pre (match target with Some n => Z.of_nat n | None => -1 end, None) pre).
Proof.
  destruct target as [n|]; cbn [wf_fd].
  - intros H. apply Nat.leb_le in H. do 10 (destruct n as [|n]; [split; [reflexivity|intros pre; by apply ev_ret]|]). lia.
  - intros _. split; [reflexivity|]. intros pre. by apply ev_ret.
Qed.

Lemma rd_word_ok r : good_rd r -> lexeme_ok (rd_word r).
Proof.
  destruct r as [fd op w|fd out target]; intros [Hfd H]; cbn [rd_word]; [by apply lexeme_ok_word|].
  apply lexeme_ok_name. by apply fd_name_ok.
Qed.

(** The file name of a redirection operator just read. *)
Lemma ev_parsefname rdn r : good_rd rdn -> hd0 r = SP ->
  ev parsefname (at_tok e 0 TREDIR (l_item (rd_head rdn)) (SP :: l_src (rd_word rdn) ++ r)) (rnode comp rdn) (rd e 0 r).
Proof.
  intros Hg Hr. pose proof (rd_word_ok rdn Hg) as (_ & Hp & Hlex). unfold parsefname.
  assert (exists n, l_item (rd_head rdn) = IRedir n /\ (forall fd id, n <> NHERE_AT fd id)) as (n & En & Hn)
    by (by destruct rdn; eexists).
  eapply ev_get_bind; [intros s (_ & _ & Hh); rewrite En in Hh; exact Hh|].
  assert (raw (l_item (rd_word rdn)) = TWORD) as Ew by (by destruct rdn).
  eapply (ev_bind (fun _ => match n with NHERE_AT _ _ => modify (set_checkkwd CHKEOFMARK) | _ => mret tt end)) with (mid := rd e 0 (SP :: l_src (rd_word rdn) ++ r)).
  { destruct n as [| |fd id]; [..|by destruct (Hn fd id)]; apply ev_ret; intros s; apply at_tok_rd. }
  eapply ev_bind; [apply ev_read_0; [by apply Hlex|done]|]. rewrite Ew.
  change (bool_decide (TWORD = TWORD)) with true. cbn match. apply ev_ret_bind.
  destruct rdn as [fd op w|fd out target]; cbn [rd_head l_item] in En; injection En as <-; cbn [rd_word l_item wl word_lexeme name_lexeme].
  - eapply ev_bind with (a := warg comp w).
    + unfold makename. eapply ev_get_bind; [by intros s (_ & _ & H & _)|].
      eapply ev_get_bind; [by intros s (_ & _ & _ & H & _)|]. by apply ev_ret.
    + apply ev_ret. intros s. apply at_tok_rd.
  - eapply ev_get_bind; [by intros s (_ & _ & H & _)|]. destruct Hg as [_ Ht].
    eapply ev_bind; [apply fd_name_ok, Ht|]. apply ev_ret. intros s. apply at_tok_rd.
Qed.

Definition no_word (it : item) : Prop := match it with IWord _ _ _ => False | _ => True end.

(** Operators are read the same with any flags. *)
Lemma ev_read_op kwd r it r' : lexes e r it r' -> proper it -> no_word it -> chk kwd CHKEOFMARK = false ->
  ev readtoken (rd e kwd r) (raw it) (at_tok e 0 (raw it) it r').
Proof.
  intros Hl Hp Hn Hk. assert (forall kw, classify kw it = raw it) as Hc by (by destruct it).
  pose proof (ev_read e kwd r it r' Hl Hp Hk) as H1. pose proof (ev_read e 0 r it r' Hl Hp ltac:(done)) as H2.
  rewrite Hc in H1, H2. eapply ev_weaken; [exact (ev_case _ _ _ _ _ H1 H2)| |done].
  intros s (He & Hi & [Hkw|Hkw]); [left|right]; (split; [|done]); split_and!; try done; by left.
Qed.

Lemma redirs_loop rds : forall kwd l r0 t r1, Forall good_rd rds -> chk kwd CHKEOFMARK = false ->
  lexes e r0 (IOp t) r1 -> t ∈ after_command -> hd0 r0 = SP ->
  lev redirs_body (rd e kwd (text (concat (map (rd_lexemes comp list_of) rds)) ++ r0)) l (l ++ map (rnode comp) rds) (at_tok e 0 t (IOp t) r1).
Proof.
  induction rds as [|x rds IH]; intros kwd l r0 t r1 Hg Hk Hl Ht Hr.
  - destruct (after_op t Ht) as (? & ? & ? & Hre). apply lev_done. unfold redirs_body.
    eapply ev_bind; [by apply (ev_read_op kwd r0 (IOp t) r1)|]. cbn [raw].
    rewrite bool_decide_eq_false_2 by done. cbn [map]. rewrite app_nil_r. by apply ev_ret.
  - apply Forall_cons in Hg as [Hx Hg]. pose proof (rd_head_ok x Hx) as (_ & Hp & Hlex).
    cbn [map concat]. rewrite text_app, rd_lexemes_eq, <- app_assoc, text_cons, text_cons.
    change (text []) with (@nil ascii). cbn [app].
    assert (raw (l_item (rd_head x)) = TREDIR) as Eh by (by destruct x).
    eapply lev_step with (a' := l ++ [rnode comp x]).
    + unfold redirs_body. eapply ev_bind; [apply (ev_read_op kwd _ (l_item (rd_head x))); [apply Hlex; done|done|by destruct x|done]|].
      rewrite Eh. change (bool_decide (TREDIR = TREDIR)) with true. cbn match.
      eapply ev_bind; [apply ev_parsefname; [done|by apply text_hd]|]. by apply ev_ret.
    + specialize (IH 0 (l ++ [rnode comp x]) r0 t r1 Hg ltac:(done) Hl Ht Hr). by rewrite <- app_assoc in IH.
Qed.

Lemma ev_trailing_redirs c rds kwd r0 t r1 : Forall good_rd rds -> lexes e r0 (IOp t) r1 -> t ∈ after_command ->
  hd0 r0 = SP ->
  ev (fun k => trailing_redirs k L c) (rd e kwd (text (concat (map (rd_lexemes comp list_of) rds)) ++ r0))
    (with_redirs L c (map (rnode comp) rds)) (pushed e 0 t (IOp t) r1).
Proof.
  intros Hg Hl Ht Hr. unfold trailing_redirs.
  eapply ev_modify_bind; [intros s Hs; by apply (fresh_set e kwd 3)|].
  eapply ev_bind with (a := map (rnode comp) rds).
  - apply (ev_loop redirs_body). eapply lev_weaken; [by apply (redirs_loop rds 3 [] r0 t r1)|by intros s [? _]|done].
  - eapply ev_bind; [apply ev_push_back|]. by apply ev_ret.
Qed.
End Line.
