(* ===== verification/AshParseCmd.v ===== *)
(** * shell/ash.c: the parser's commands on the text of a program

    The specifications of AshParseRun for simple commands, function definitions
    and the compound commands. *)

From Stdlib Require Import Ascii String ZArith Lia.
From stdpp Require Import base gmap list strings.
From S2P Require Import Prelude Clib LibbbStr LibbbNum AshInput AshLex AshParse AshParseSpec AshLexRun AshParseRun.

Local Open Scope Z_scope.

(** ** Names and assignments *)

Lemma skip_in_name_prefix n p : forallb is_in_name n = true -> skip_in_name (n ++ p) = skip_in_name p.
Proof. induction n as [|c n IH]; [done|]. cbn. intros H. apply andb_true_iff in H as [-> H]. by apply IH. Qed.

Lemma endofname_valid n p : valid_name n = true -> hd0 p = "="%char \/ p = [] -> endofname (n ++ p) = p.
Proof.
  destruct n as [|c n]; [done|]. cbn. intros H Hp. apply andb_true_iff in H as [-> H].
  rewrite skip_in_name_prefix by done. destruct Hp as [Hp| ->]; [|done]. destruct p as [|d p]; [done|]. cbn in Hp. by subst d.
Qed.

Lemma isassignment_var n p : valid_name n = true -> isassignment (n ++ "="%char :: p) = true.
Proof.
  intros H. unfold isassignment. rewrite endofname_valid by auto. rewrite length_app.
  destruct n as [|c n]; [done|]. by rewrite (proj2 (Nat.eqb_neq _ _)) by (cbn; lia).
Qed.

Lemma isassignment_name n : valid_name n = true -> isassignment n = false.
Proof.
  intros H. unfold isassignment. assert (endofname n = []) as -> by (rewrite <- (app_nil_r n); by apply endofname_valid; auto). by destruct (_ =? _)%nat.
Qed.

Lemma goodname_valid n : valid_name n = true -> goodname n = true.
Proof. intros H. unfold goodname. rewrite <- (app_nil_r n). by rewrite endofname_valid by auto. Qed.

Lemma findkwd_no_eq w : "="%char ∈ w -> findkwd w = None.
Proof.
  intros Hw. unfold findkwd. destruct (List.find _ _) as [[t k]|] eqn:E; [|done]. exfalso.
  apply List.find_some in E as [E1 E2]. apply bool_decide_eq_true in E2. cbn in E2. subst k.
  assert (Forall (fun x : token * cstr => "="%char ∉ x.2) (drop KWDOFFSET tokname_array)) as Hf by by_eval.
  rewrite Forall_forall in Hf. apply (Hf (t, w)); [by apply list_elem_of_In|done].
Qed.

Lemma valid_name_lit n : valid_name n = true ->
  negb (bool_decide (n = [])) && forallb lit_char n && negb (hd0 n ≟ "#"%char) = true.
Proof.
  assert (forall c, is_in_name c = true -> lit_char c = true) as Hc.
  { intros c. destruct c as [[] [] [] [] [] [] [] []]; vm_compute; congruence. }
  destruct n as [|c n]; [done|]. cbn [valid_name]. intros H. apply andb_true_iff in H as [H Hn].
  rewrite (bool_decide_eq_false_2 _) by done. cbn [negb andb forallb hd0 hd].
  rewrite Hc by by apply is_name_in_name. cbn [andb].
  assert (forallb lit_char n = true) as ->.
  { rewrite forallb_forall in *. auto. }
  cbn. destruct (Ascii.eqb_spec c "#"%char) as [-> |]; done.
Qed.

Section Commands.
Context (e : env).

Let L : Z := e_linno e.
Let comp : tree -> node := compile L.
Let list_of (t : tree) : list lexeme := lst (print L t).
Let wl (w : word) : lexeme := word_lexeme comp list_of w.

(** The rest of a command behind its first token [x]. *)
Definition tail_spec (m : procs -> P node) (x : lexeme) (l : list lexeme) (c : node) : Prop :=
  forall r0 t r1, lexes e r0 (IOp t) r1 -> t ∈ after_command -> hd0 r0 = SP ->
    ev m (at_tok e 0 (classify KWD (l_item x)) (l_item x) (text l ++ r0)) c (pushed e 0 t (IOp t) r1).

Lemma cspec_intro x l c : tail_spec (fun k => command_from k L (classify KWD (l_item x))) x l c -> cspec e (x :: l) c.
Proof.
  intros H pre r0 t r1 (Hf & Hp & Hlin) Hl Ht Hr. unfold parse_command.
  apply (ev_linno_bind e (fun k L => t ← readtoken k; command_from k L t)); [done|].
  eapply ev_bind; [exact Hf|]. by apply H.
Qed.

(** *** Simple commands *)

(** The turn of [simplecmd]'s loop at [pre] reads [it]. *)
Definition ready (ck : Z) (pre : pstate -> Prop) (it : item) (r : cstr) : Prop :=
  exists mid, (forall s, pre s -> mid (set_checkkwd ck s)) /\ ev readtoken mid (raw it) (at_tok e 0 (raw it) it r).

Definition plain (ck : Z) : Prop := ck = 0 \/ ck = CHKALIAS.

Lemma classify_plain ck it : plain ck -> classify ck it = raw it.
Proof. intros [-> | ->]; by destruct it as [t|w bq []|n]. Qed.

Lemma ready_lexes ck kwd r it r' : plain ck -> lexes e r it r' -> proper it -> ready ck (rd e kwd r) it r'.
Proof.
  intros Hck Hl Hp. exists (fresh e ck r). split; [intros s; apply fresh_set|].
  rewrite <- (classify_plain ck it Hck). apply ev_read; [done..|by destruct Hck as [-> | ->]].
Qed.

Lemma ready_pushed ck kwd it r : stays_word (raw it) it -> ready ck (pushed e kwd (raw it) it r) it r.
Proof. intros H. exists (pushed e ck (raw it) it r). split; [intros s; apply pushed_checkkwd|by apply ev_readtoken_pushed]. Qed.

(** One part of a simple command: a turn of the loop from [c] to [c']. *)
Definition turn_ok (ls : list lexeme) (c c' : simple) : Prop :=
  plain (c_checkkwd c') /\
  match ls with
  | [] => False
  | x :: l => lexeme_ok e x /\ forall pre r, hd0 r = SP -> ready (c_checkkwd c) pre (l_item x) (text l ++ r) ->
      ev (fun k => simplecmd_body k L c) pre (inl c') (rd e 0 r)
  end.

Inductive turns : simple -> list lexeme -> simple -> Prop :=
  | turns_nil c : turns c [] c
  | turns_cons c c' c'' l l' : turn_ok l c c' -> turns c' l' c'' -> turns c (l ++ l') c''.

Lemma turns_trans c c' c'' l l' : turns c l c' -> turns c' l' c'' -> turns c (l ++ l') c''.
Proof. induction 1; [done|]. intros. rewrite <- app_assoc. econstructor; eauto. Qed.

Definition cmd_node (c : simple) : node := NCMD L (c_vars c) (c_args c) (c_redir c).

(** The operator behind the command ends it. *)
Lemma simple_end c pre t r1 : t ∈ after_command -> ready (c_checkkwd c) pre (IOp t) r1 ->
  ev (fun k => simplecmd_body k L c) pre (inr (cmd_node c)) (pushed e 0 t (IOp t) r1).
Proof.
  intros Ht (mid & Hm & Hr). unfold simplecmd_body. eapply ev_modify_bind; [exact Hm|].
  eapply ev_bind; [exact Hr|]. cbn [raw].
  assert (ev (fun _ : procs => push_back;; mret (inr (NCMD L (c_vars c) (c_args c) (c_redir c)) : simple + node))
    (at_tok e 0 t (IOp t) r1) (inr (cmd_node c)) (pushed e 0 t (IOp t) r1)) as H.
  { eapply ev_bind; [apply ev_push_back|by apply ev_ret]. }
  unfold after_command, after_pipeline in Ht. clear - H Ht.
  repeat (apply elem_of_cons in Ht as [-> |Ht]; [exact H|]). by apply elem_of_nil in Ht.
Qed.

Lemma turns_run c ls c' : turns c ls c' -> forall kwd r0 t r1, plain (c_checkkwd c) -> lexes e r0 (IOp t) r1 ->
  t ∈ after_command -> hd0 r0 = SP ->
  lev (fun k => simplecmd_body k L) (rd e kwd (text ls ++ r0)) c (cmd_node c') (pushed e 0 t (IOp t) r1).
Proof.
  induction 1 as [c|c c1 c2 ls ls' [Hpl Hturn] Hts IH]; intros kwd r0 t r1 Hc Hl Ht Hr.
  - apply lev_done. destruct (after_op t Ht) as (? & ? & _). apply simple_end; [done|].
    by apply ready_lexes.
  - destruct ls as [|x ls]; [done|]. destruct Hturn as [(_ & Hp & Hlex) Hev]. cbn [app].
    rewrite text_cons, text_app, <- app_assoc. assert (hd0 (text ls' ++ r0) = SP) as Hsp by (by apply text_hd).
    eapply lev_step; [apply Hev; [done|]|by apply IH].
    apply ready_lexes; [done| |done]. apply Hlex. by apply text_hd.
Qed.

(** The first part was pushed back by [parse_command]. *)
Lemma cspec_turns x l c' : turns (mk_simple [] [] [] CHKALIAS) (x :: l) c' ->
  classify KWD (l_item x) = raw (l_item x) -> raw (l_item x) = TWORD \/ raw (l_item x) = TREDIR ->
  cspec e (x :: l) (cmd_node c').
Proof.
  intros Hts Hcl Hraw. apply cspec_intro. intros r0 t r1 Hl Ht Hr. rewrite Hcl.
  assert (turns (mk_simple [] [] [] CHKALIAS) (x :: l) c' -> ev (fun k => push_back;; simplecmd k)
    (at_tok e 0 (raw (l_item x)) (l_item x) (text l ++ r0)) (cmd_node c') (pushed e 0 t (IOp t) r1)) as H;
    [|specialize (H Hts); by destruct Hraw as [E|E]; rewrite E in *].
  clear Hts. intros Hts. eapply ev_bind; [apply ev_push_back|]. unfold simplecmd.
  apply (ev_linno_bind e (fun k L => loop (simplecmd_body k L) (k_fuel k) (mk_simple [] [] [] CHKALIAS))).
  { intros s [_ [Hs _]]. by apply rd_linno in Hs. }
  apply (ev_loop (fun k => simplecmd_body k L)).
  remember (mk_simple [] [] [] CHKALIAS) as c0 eqn:E0. remember (x :: l) as xs eqn:Exs.
  destruct Hts as [c|c c1 c2 ls ls' [Hpl Hturn] Hts]; [done|]. destruct ls as [|x1 ls]; [done|].
  cbn in Exs. injection Exs as -> <-. subst c. destruct Hturn as [(_ & Hp & _) Hev].
  rewrite text_app, <- app_assoc. assert (hd0 (text ls' ++ r0) = SP) as Hsp by (by apply text_hd).
  eapply lev_step; [apply Hev; [done|]|by apply turns_run].
  apply ready_pushed. rewrite <- Hcl. by apply classify_stays.
Qed.

Lemma ev_makename t w q r : ev (fun _ => makename) (at_tok e 0 t (IWord (wtext w) (wbq comp w) q) r) (warg comp w)
  (at_tok e 0 t (IWord (wtext w) (wbq comp w) q) r).
Proof.
  unfold makename. eapply ev_get_bind; [by intros s (_ & _ & H & _)|].
  eapply ev_get_bind; [by intros s (_ & _ & _ & H & _)|]. by apply ev_ret.
Qed.

(** A word read by [simplecmd]. *)
Lemma word_turn w c c' : good_word e w -> plain (c_checkkwd c') ->
  (if negb (c_checkkwd c =? 0) && isassignment (wtext w)
   then mk_simple (c_args c) (c_vars c ++ [warg comp w]) (c_redir c) (c_checkkwd c)
   else mk_simple (c_args c ++ [warg comp w]) (c_vars c) (c_redir c) 0) = c' ->
  turn_ok [wl w] c c'.
Proof.
  intros Hw Hpl Ec. split; [done|]. split; [by apply lexeme_ok_word|]. intros pre r Hr (mid & Hm & Hrd).
  unfold simplecmd_body. eapply ev_modify_bind; [exact Hm|]. eapply ev_bind; [exact Hrd|].
  cbn [raw wl word_lexeme l_item]. eapply ev_bind; [apply ev_makename|].
  eapply ev_get_bind; [by intros s (_ & _ & H & _)|]. change (text [] ++ r) with r. subst c'.
  destruct (negb _ && _); apply ev_ret; intros s; apply at_tok_rd.
Qed.

Lemma rd_turn x c : good_rd e x -> plain (c_checkkwd c) ->
  turn_ok (rd_lexemes comp list_of x) c (mk_simple (c_args c) (c_vars c) (c_redir c ++ [rnode comp x]) (c_checkkwd c)).
Proof.
  intros Hx Hpl. split; [done|]. unfold comp, list_of. rewrite (rd_lexemes_eq e).
  split; [by apply rd_head_ok|]. intros pre r Hr (mid & Hm & Hrd).
  unfold simplecmd_body. eapply ev_modify_bind; [exact Hm|]. eapply ev_bind; [exact Hrd|].
  assert (raw (l_item (rd_head x)) = TREDIR) as -> by (by destruct x).
  rewrite text_cons. eapply ev_bind; [by apply (ev_parsefname e x)|]. by apply ev_ret.
Qed.

Definition good_var (v : cstr * word) : Prop :=
  valid_name v.1 = true /\ forallb (wf_part wf) v.2 = true /\ word_ok L e v.2.
Definition var_word (v : cstr * word) : word := WLit (v.1 ++ ["="%char]) :: v.2.

Lemma var_word_text v : exists p, wtext (var_word v) = v.1 ++ "="%char :: p.
Proof. eexists. unfold wtext, var_word. cbn [map concat ptext]. rewrite <- app_assoc. reflexivity. Qed.

Lemma var_word_ok v : good_var v -> good_word e (var_word v).
Proof.
  intros (Hn & Hw & Hok). split; [|by constructor]. apply valid_name_lit in Hn.
  apply andb_true_iff in Hn as [Hn Hh]. apply andb_true_iff in Hn as [Hne Hl].
  destruct v as [n w]. cbn [fst snd] in *. destruct n as [|c n]; [done|]. unfold var_word, wf_word. cbn [fst snd no_hash app forallb wf_part].
  cbn [hd0 hd] in Hh. rewrite Hh, Hw. cbn [forallb] in Hl. apply andb_true_iff in Hl as [-> Hl].
  rewrite forallb_app, Hl. done.
Qed.

Lemma vars_turns vs : forall c, Forall good_var vs -> c_checkkwd c = CHKALIAS ->
  turns c (map (fun v => wl (var_word v)) vs)
    (mk_simple (c_args c) (c_vars c ++ map (fun v => warg comp (var_word v)) vs) (c_redir c) CHKALIAS).
Proof.
  induction vs as [|v vs IH]; intros c Hv Hc.
  - cbn [map]. rewrite app_nil_r, <- Hc. destruct c. constructor.
  - apply Forall_cons in Hv as [Hv Hvs]. cbn [map].
    apply (turns_cons c (mk_simple (c_args c) (c_vars c ++ [warg comp (var_word v)]) (c_redir c) CHKALIAS) _ [_]).
    + apply word_turn; [by apply var_word_ok|by right|]. rewrite Hc.
      destruct (var_word_text v) as [p ->]. by rewrite isassignment_var by apply Hv.
    + specialize (IH (mk_simple (c_args c) (c_vars c ++ [warg comp (var_word v)]) (c_redir c) CHKALIAS) Hvs eq_refl).
      cbn [c_args c_vars c_redir] in IH. by rewrite <- app_assoc in IH.
Qed.

Lemma args_turns ws : forall c, Forall (good_word e) ws -> plain (c_checkkwd c) ->
  match ws with w :: _ => c_checkkwd c = 0 \/ isassignment (wtext w) = false | [] => True end ->
  turns c (map wl ws) (mk_simple (c_args c ++ map (warg comp) ws) (c_vars c) (c_redir c)
    (match ws with [] => c_checkkwd c | _ => 0 end)).
Proof.
  induction ws as [|w ws IH]; intros c Hw Hc Ha.
  - cbn [map]. rewrite app_nil_r. destruct c. constructor.
  - apply Forall_cons in Hw as [Hw Hws]. cbn [map].
    set (c1 := mk_simple (c_args c ++ [warg comp w]) (c_vars c) (c_redir c) 0).
    apply (turns_cons c c1 _ [_]).
    + apply word_turn; [done|by left|]. destruct Ha as [-> | ->]; [done|]. by rewrite andb_false_r.
    + specialize (IH c1 Hws ltac:(by left)). unfold c1 in IH. cbn [c_args c_vars c_redir c_checkkwd] in IH.
      rewrite <- app_assoc in IH.
      assert (match ws with w :: _ => 0 = 0 \/ isassignment (wtext w) = false | [] => True end) as Hws' by (destruct ws; auto).
      specialize (IH Hws'). by destruct ws.
Qed.

Definition rds_lexemes (rs : list redirection) : list lexeme := concat (map (rd_lexemes comp list_of) rs).

Lemma rds_turns rs : forall c, Forall (good_rd e) rs -> plain (c_checkkwd c) ->
  turns c (rds_lexemes rs) (mk_simple (c_args c) (c_vars c) (c_redir c ++ map (rnode comp) rs) (c_checkkwd c)).
Proof.
  induction rs as [|x rs IH]; intros c Hr Hc.
  - cbn [map]. rewrite app_nil_r. destruct c. constructor.
  - apply Forall_cons in Hr as [Hx Hr]. unfold rds_lexemes. cbn [map concat].
    eapply turns_cons; [by apply rd_turn|].
    specialize (IH (mk_simple (c_args c) (c_vars c) (c_redir c ++ [rnode comp x]) (c_checkkwd c)) Hr Hc).
    cbn [c_args c_vars c_redir c_checkkwd] in IH. by rewrite <- app_assoc in IH.
Qed.

Definition simple_lexemes (vars : list (cstr * word)) (args : list word) (rs : list redirection) : list lexeme :=
  map (fun v => wl (var_word v)) vars ++ map wl args ++ rds_lexemes rs.

Lemma not_keyword w : is_keyword w = false -> classify KWD (IWord (wtext w) (wbq comp w) (quoted w)) = TWORD.
Proof.
  unfold is_keyword. intros H. cbn [classify]. destruct (quoted w); [done|]. change (chk KWD CHKKWD) with true. cbn match.
  by destruct (findkwd (wtext w)).
Qed.

Lemma var_not_keyword v : is_keyword (var_word v) = false.
Proof.
  destruct (var_word_text v) as [p Ep]. unfold is_keyword. rewrite Ep, findkwd_no_eq; [by rewrite andb_false_r|].
  apply elem_of_app. right. by left.
Qed.

Lemma cspec_simple vars args rs : Forall good_var vars -> Forall (good_word e) args -> Forall (good_rd e) rs ->
  match args with
  | w :: _ => isassignment (wtext w) = false /\ is_keyword w = false
  | [] => length vars + length rs <> 0
  end%nat ->
  cspec e (simple_lexemes vars args rs) (NCMD L (map (fun v => warg comp (var_word v)) vars) (map (warg comp) args) (map (rnode comp) rs)).
Proof.
  intros Hv Ha Hr Hne. set (c0 := mk_simple [] [] [] CHKALIAS).
  set (c1 := mk_simple [] (map (fun v => warg comp (var_word v)) vars) [] CHKALIAS).
  set (c2 := mk_simple (map (warg comp) args) (c_vars c1) [] (match args with [] => CHKALIAS | _ => 0 end)).
  assert (turns c0 (simple_lexemes vars args rs) (mk_simple (c_args c2) (c_vars c2) (map (rnode comp) rs) (c_checkkwd c2))) as H.
  { eapply turns_trans; [by apply vars_turns|]. eapply turns_trans; [apply (args_turns args c1)|apply (rds_turns rs c2)]; try done.
    - by right.
    - destruct args as [|w ws]; [done|]. right. by destruct Hne.
    - cbn. destruct args; [by right|by left]. }
  unfold simple_lexemes in *. destruct vars as [|v vars]; [|eapply (cspec_turns _ _ _ H)].
  - destruct args as [|w args].
    + destruct rs as [|x rs]; [by destruct Hne|]. unfold rds_lexemes in *. cbn [map concat] in *.
      unfold comp, list_of in H |- *. rewrite (rd_lexemes_eq e) in *. cbn [app] in *.
      eapply (cspec_turns _ _ _ H); destruct x; auto.
    + cbn [map app] in *. eapply (cspec_turns _ _ _ H); [|by left]. apply not_keyword, Hne.
  - apply not_keyword, var_not_keyword.
  - by left.
Qed.

(** *** Function definitions *)

Lemma ev_at {A} (m : procs -> P A) kwd t it r a post : ev m (rd e kwd r) a post -> ev m (at_tok e kwd t it r) a post.
Proof. intros H. eapply ev_weaken; [exact H|intros s; apply at_tok_rd|done]. Qed.

(** A command behind a point where it may start on a new line. *)
Lemma ev_command ls c r0 t r1 : cspec e ls c -> Forall (lexeme_ok e) ls -> lexes e r0 (IOp t) r1 ->
  t ∈ after_command -> hd0 r0 = SP -> ev parse_command (fresh e KWD (text ls ++ r0)) c (pushed e 0 t (IOp t) r1).
Proof.
  intros Hc Hls Hl Ht Hr. destruct ls as [|x l]; [done|]. apply Forall_cons in Hls as [Hx _]. rewrite text_cons.
  eapply Hc; [|done..]. apply first_fresh; [done..|by apply text_hd].
Qed.

Definition definable (name : cstr) : bool :=
  plain_name name && match find_builtin name with Some flag => negb (IS_BUILTIN_SPECIAL flag) | None => true end.

Lemma cspec_fun name ls c : definable name = true -> cspec e ls c -> Forall (lexeme_ok e) ls ->
  cspec e (name_lexeme name :: op "(" TLP :: op ")" TRP :: ls) (NDEFUN L name c).
Proof.
  unfold definable. intros H Hc Hls. apply andb_true_iff in H as [H Hb].
  unfold plain_name in H. apply andb_true_iff in H as [Hn Hk].
  apply cspec_intro. intros r0 t r1 Hl Ht Hr. set (it := IWord name [] false).
  assert (findkwd name = None) as Hkw by (by destruct (findkwd name)).
  assert (classify KWD it = TWORD) as Ecl.
  { cbn [it classify]. change (chk KWD CHKKWD) with true. cbn match. by rewrite Hkw. }
  change (l_item (name_lexeme name)) with it. rewrite Ecl. cbn [command_from].
  eapply ev_bind; [apply ev_push_back|]. unfold simplecmd.
  apply (ev_linno_bind e (fun k L => loop (simplecmd_body k L) (k_fuel k) (mk_simple [] [] [] CHKALIAS))).
  { intros s [_ [Hs _]]. by apply rd_linno in Hs. }
  apply (ev_loop (fun k => simplecmd_body k L)). rewrite !text_cons.
  set (c1 := mk_simple [NARG name []] [] [] 0). set (r2 := SP :: l_src (op ")" TRP) ++ text ls ++ r0).
  eapply lev_step with (a' := c1) (mid := rd e 0 (SP :: l_src (op "(" TLP) ++ r2)).
  - destruct (ready_pushed CHKALIAS 0 it (SP :: l_src (op "(" TLP) ++ r2)) as (mid & Hm & Hrd).
    { cbn [it raw]. split; [done|]. intros _. eauto 7. }
    unfold simplecmd_body. eapply ev_modify_bind; [exact Hm|]. eapply ev_bind; [exact Hrd|]. cbn [it raw].
    eapply ev_bind with (a := NARG name []) (mid := at_tok e 0 TWORD it (SP :: l_src (op "(" TLP) ++ r2)).
    { unfold makename. eapply ev_get_bind; [by intros s (_ & _ & E & _)|].
      eapply ev_get_bind; [by intros s (_ & _ & _ & E & _)|]. by apply ev_ret. }
    eapply ev_get_bind; [by intros s (_ & _ & E & _)|]. rewrite isassignment_name by done. rewrite andb_false_r.
    apply ev_ret. intros s. apply at_tok_rd.
  - apply lev_done. unfold simplecmd_body.
    eapply ev_modify_bind; [intros s Hs; by apply (fresh_set e 0 0)|]. cbn [c1 c_checkkwd].
    eapply ev_bind; [apply (ev_read e 0 _ (IOp TLP) r2); [apply (lexes_paren e "(" 1); [done|lia|done]|done|done]|].
    cbn [classify raw c_args c_vars c_redir]. eapply ev_bind.
    { apply ev_at. unfold expect. eapply ev_bind; [apply (ev_read_0 e _ (IOp TRP) (text ls ++ r0)); [apply (lexes_paren e ")" 2); [done|lia|done]|done]|].
      change (bool_decide (raw (IOp TRP) = TRP)) with true. by apply ev_ret. }
    assert (negb (goodname name) || match find_builtin name with Some flag => IS_BUILTIN_SPECIAL flag | None => false end = false) as ->.
    { rewrite goodname_valid by done. destruct (find_builtin name); [|done]. by apply negb_true_iff in Hb. }
    apply ev_ret_bind. eapply ev_modify_bind; [intros s Hs; apply at_tok_rd in Hs; by apply (fresh_set e 0 KWD)|].
    change (Z.lor CHKNL (Z.lor CHKKWD CHKALIAS)) with KWD.
    eapply (ev_linno_bind e (fun k L => body ← k_parse_command k; mret (inr (NDEFUN L name body) : simple + node))).
    { intros s [Hs _]. by apply rd_linno in Hs. }
    eapply ev_bind; [by apply ev_k_parse_command, (ev_command ls c r0 t r1)|]. by apply ev_ret.
Qed.

(** *** Compound commands *)

(** [s] is the keyword [t], which ends a list. *)
Definition closes (s : string) (t : token) : Prop :=
  negb (bool_decide (lit s = [])) && forallb lit_char (lit s) && negb (hd0 (lit s) ≟ "#"%char) = true /\
  findkwd (lit s) = Some t /\ tokendlist t = true.

Lemma closes_stays s t : closes s t -> stays_word t (l_item (kw s)).
Proof. intros (_ & H & _). by apply kwd_stays. Qed.

(** A list up to the keyword. *)
Lemma ev_list_kw ls c s t kwd fl r : list_spec e ls c -> closes s t -> fl = 0 \/ fl = 2 -> hd0 r = SP ->
  ev (fun k => k_list k fl) (rd e kwd (text ls ++ SP :: l_src (kw s) ++ r)) c (pushed e 0 t (l_item (kw s)) r).
Proof.
  intros H (Hs & Hf & Hend) Hfl Hr. apply ev_k_list. apply H; [done|by apply closing_word|done|..|done].
  by destruct (kwd_other t (findkwd_kwd _ t Hf)) as (_ & _ & _ & ?).
Qed.

Lemma ev_expect_kw s t r : closes s t -> ev (fun k => expect k t) (pushed e 0 t (l_item (kw s)) r) tt (at_tok e 0 t (l_item (kw s)) r).
Proof. intros H. by apply ev_expect, closes_stays. Qed.

(** The closing token was pushed back; redirections may follow. *)
Lemma ev_compound (m : procs -> P node) pre c t it rs r0 top r1 : stays_word t it -> Forall (good_rd e) rs ->
  lexes e r0 (IOp top) r1 -> top ∈ after_command -> hd0 r0 = SP ->
  ev m pre c (pushed e 0 t it (text (rds_lexemes rs) ++ r0)) ->
  ev (fun k => compound k L (m k) t) pre (with_redirs L c (map (rnode comp) rs)) (pushed e 0 top (IOp top) r1).
Proof.
  intros Hst Hrs Hl Htop Hr Hm. unfold compound. eapply ev_bind; [exact Hm|].
  eapply ev_bind; [by apply ev_expect|]. apply ev_at. by apply ev_trailing_redirs.
Qed.

Lemma cspec_compound s t0 l s1 t1 c rs (m : procs -> P node) : findkwd (lit s) = Some t0 ->
  (forall k, command_from k L t0 = compound k L (m k) t1) -> closes s1 t1 -> Forall (good_rd e) rs ->
  (forall r, hd0 r = SP -> ev m (at_tok e 0 t0 (l_item (kw s)) (text l ++ SP :: l_src (kw s1) ++ r)) c (pushed e 0 t1 (l_item (kw s1)) r)) ->
  cspec e (kw s :: l ++ kw s1 :: rds_lexemes rs) (with_redirs L c (map (rnode comp) rs)).
Proof.
  intros Hk Hcmd Hcl Hrs Hm. apply cspec_intro. intros r0 t r1 Hl Ht Hr.
  assert (classify KWD (l_item (kw s)) = t0) as ->.
  { cbn [kw l_item classify]. change (chk KWD CHKKWD) with true. cbn match. by rewrite Hk. }
  apply (ev_ext (fun k => compound k L (m k) t1)); [done|].
  rewrite text_app, <- app_assoc, text_cons. eapply ev_compound; [by apply closes_stays|done..|].
  apply Hm. by apply text_hd.
Qed.

Lemma cspec_brace ls c rs : list_spec e ls c -> Forall (good_rd e) rs ->
  cspec e (brace ls ++ rds_lexemes rs) (with_redirs L c (map (rnode comp) rs)).
Proof.
  intros H Hrs. unfold brace. cbn [app]. rewrite <- app_assoc. cbn [app].
  apply (cspec_compound "{" TBEGIN ls "}" TEND c rs (fun k => k_list k 0)); [done..|].
  intros r Hr. apply ev_at. apply (ev_list_kw ls c "}" TEND); [done..|by left|done].
Qed.

Lemma cspec_while (u : bool) la ca lb cb : list_spec e la ca -> list_spec e lb cb ->
  cspec e (kw (if u then "until" else "while") :: la ++ kw "do" :: lb ++ [kw "done"]) (if u then NUNTIL ca cb else NWHILE ca cb).
Proof.
  intros Ha Hb. replace (la ++ kw "do" :: lb ++ [kw "done"]) with ((la ++ kw "do" :: lb) ++ kw "done" :: rds_lexemes []) by (by rewrite <- app_assoc).
  apply (cspec_compound _ (if u then TUNTIL else TWHILE) _ "done" TDONE _ [] parse_while); [by destruct u|by destruct u|done|done|].
  intros r Hr. rewrite text_app, <- app_assoc, text_cons. unfold parse_while.
  eapply ev_get_bind; [by intros s (_ & E & _)|]. apply ev_at.
  eapply ev_bind; [apply (ev_list_kw la ca "do" TDO); [done..|by left|by apply text_hd]|].
  eapply ev_bind; [by apply ev_expect_kw|]. apply ev_at.
  eapply ev_bind; [apply (ev_list_kw lb cb "done" TDONE); [done..|by left|done]|]. destruct u; by apply ev_ret.
Qed.

Lemma cspec_subshell ls c rs : list_spec e ls c -> Forall (good_rd e) rs ->
  cspec e (op "(" TLP :: ls ++ op ")" TRP :: rds_lexemes rs) (NSUBSHELL L c (map (rnode comp) rs)).
Proof.
  intros H Hrs. apply cspec_intro. intros r0 t r1 Hl Ht Hr.
  change (classify KWD (l_item (op "(" TLP))) with TLP. cbn [command_from].
  assert (with_redirs L (NSUBSHELL L c []) (map (rnode comp) rs) = NSUBSHELL L c (map (rnode comp) rs)) as <- by (by destruct rs).
  rewrite text_app, <- app_assoc, text_cons. set (r := text (rds_lexemes rs) ++ r0).
  eapply (ev_compound (fun k => n ← k_list k 0; mret (NSUBSHELL L n [])) _ _ TRP (IOp TRP)); [by split|done..|].
  apply ev_at. eapply ev_bind; [|by apply ev_ret]. apply ev_k_list.
  apply (H 0 0 _ TRP (IOp TRP) r); [by left| |done..].
  apply (ev_read e KWD _ (IOp TRP) r); [apply (lexes_paren e ")" 2); [done|lia|done]|done|done].
Qed.

(** *** if *)

Lemma text_mid l x l' r : text (l ++ x :: l') ++ r = text l ++ SP :: l_src x ++ text l' ++ r.
Proof. by rewrite text_app, <- app_assoc, text_cons. Qed.

(** A list of commands: its lexemes and its tree. *)
Definition cmds : Type := list lexeme * node.
Definition cmds_ok (p : cmds) : Prop := list_spec e p.1 p.2.

Definition elif_lexemes (es : list (cmds * cmds)) : list lexeme :=
  concat (map (fun x => kw "elif" :: x.1.1 ++ kw "then" :: x.2.1) es).
Definition else_lexemes (o : option cmds) : list lexeme :=
  match o with Some p => kw "else" :: p.1 | None => [] end.

(** The keyword behind a part of the command, and what follows it. *)
Definition if_next (es : list (cmds * cmds)) (o : option cmds) : string * token * list lexeme :=
  match es, o with
  | x :: es, _ => ("elif"%string, TELIF, x.1.1 ++ kw "then" :: x.2.1 ++ elif_lexemes es ++ else_lexemes o ++ [kw "fi"])
  | [], Some p => ("else"%string, TELSE, p.1 ++ [kw "fi"])
  | [], None => ("fi"%string, TFI, [])
  end.

Lemma if_next_eq es o : elif_lexemes es ++ else_lexemes o ++ [kw "fi"] = kw (if_next es o).1.1 :: (if_next es o).2.
Proof. destruct es as [|x es]; [by destruct o|]. unfold elif_lexemes. cbn. f_equal. by rewrite <- !app_assoc. Qed.

Lemma if_next_closes es o : closes (if_next es o).1.1 (if_next es o).1.2.
Proof. destruct es; [|done]. by destruct o. Qed.

Definition elif_nodes (es : list (cmds * cmds)) : list (node * node) := map (fun x => (x.1.2, x.2.2)) es.

Lemma elif_loop es o : forall l r, Forall (fun x => cmds_ok x.1 /\ cmds_ok x.2) es -> hd0 r = SP ->
  lev elif_body (pushed e 0 (if_next es o).1.2 (l_item (kw (if_next es o).1.1)) (text (if_next es o).2 ++ r)) l
    (l ++ elif_nodes es) (at_tok e 0 (if_next [] o).1.2 (l_item (kw (if_next [] o).1.1)) (text (if_next [] o).2 ++ r)).
Proof.
  induction es as [|x es IH]; intros l r Hes Hr.
  - apply lev_done. unfold elif_body. eapply ev_bind; [apply ev_readtoken_pushed, closes_stays, if_next_closes|].
    assert ((if_next [] o).1.2 <> TELIF) as Hn by (by destruct o). rewrite bool_decide_eq_false_2 by done.
    cbn [elif_nodes map]. rewrite app_nil_r. by apply ev_ret.
  - apply Forall_cons in Hes as [[Ht Hi] Hes]. eapply lev_step with (a' := l ++ [(x.1.2, x.2.2)]).
    + unfold elif_body. eapply ev_bind; [apply ev_readtoken_pushed, closes_stays, if_next_closes|].
      cbn [if_next fst snd]. change (bool_decide (TELIF = TELIF)) with true. cbn match. apply ev_at.
      rewrite if_next_eq, text_app, <- app_assoc, text_cons, text_app, <- app_assoc, text_cons.
      eapply ev_bind; [apply (ev_list_kw x.1.1 x.1.2 "then" TTHEN); [done..|by left|by apply text_hd]|].
      eapply ev_bind; [by apply ev_expect_kw|]. apply ev_at.
      eapply ev_bind; [apply (ev_list_kw x.2.1 x.2.2 _ (if_next es o).1.2); [done|apply if_next_closes|by left|by apply text_hd]|].
      by apply ev_ret.
    + specialize (IH (l ++ [(x.1.2, x.2.2)]) r Hes Hr). by rewrite <- app_assoc in IH.
Qed.

Definition if_node (t p : cmds) (es : list (cmds * cmds)) (o : option cmds) : node :=
  nest_if ((t.2, p.2) :: elif_nodes es) (match o with Some p => p.2 | None => Null end).

Lemma cspec_if t p es o : cmds_ok t -> cmds_ok p -> Forall (fun x => cmds_ok x.1 /\ cmds_ok x.2) es ->
  match o with Some p => cmds_ok p | None => True end ->
  cspec e (kw "if" :: t.1 ++ kw "then" :: p.1 ++ elif_lexemes es ++ else_lexemes o ++ [kw "fi"]) (if_node t p es o).
Proof.
  intros Ht Hp Hes Ho. set (l := t.1 ++ kw "then" :: p.1 ++ elif_lexemes es ++ else_lexemes o).
  replace (t.1 ++ kw "then" :: p.1 ++ elif_lexemes es ++ else_lexemes o ++ [kw "fi"]) with (l ++ kw "fi" :: rds_lexemes [])
    by (unfold l; repeat first [rewrite <- app_assoc|rewrite <- app_comm_cons]; reflexivity).
  apply (cspec_compound "if" TIF l "fi" TFI (if_node t p es o) [] parse_if); [done..|]. intros r Hr.
  assert (text l ++ SP :: l_src (kw "fi") ++ r = text t.1 ++ SP :: l_src (kw "then") ++ text p.1 ++
    SP :: l_src (kw (if_next es o).1.1) ++ text (if_next es o).2 ++ r) as ->.
  { transitivity (text (l ++ [kw "fi"]) ++ r); [by rewrite text_mid|]. rewrite <- text_mid. rewrite <- text_mid.
    f_equal. f_equal. rewrite <- if_next_eq. unfold l. repeat first [rewrite <- app_assoc|rewrite <- app_comm_cons]. done. }
  unfold parse_if. apply ev_at.
  eapply ev_bind; [apply (ev_list_kw t.1 t.2 "then" TTHEN); [done..|by left|by apply text_hd]|].
  eapply ev_bind; [by apply ev_expect_kw|]. apply ev_at.
  eapply ev_bind; [apply (ev_list_kw p.1 p.2 _ (if_next es o).1.2); [done|apply if_next_closes|by left|by apply text_hd]|].
  eapply ev_bind; [apply (ev_loop elif_body); by apply (elif_loop es o [(t.2, p.2)] r)|].
  eapply ev_get_bind; [by intros s (_ & E & _)|].
  eapply ev_bind with (a := match o with Some p => p.2 | None => Null end) (mid := pushed e 0 TFI (l_item (kw "fi")) r); [|by apply ev_ret].
  destruct o as [q|]; cbn [if_next fst snd].
  - change (bool_decide (TELSE = TELSE)) with true. cbn match. apply ev_at.
    rewrite text_app, <- app_assoc, text_cons. apply (ev_list_kw q.1 q.2 "fi" TFI); [done..|by left|done].
  - change (bool_decide (TFI = TELSE)) with false. cbn match.
    eapply ev_bind; [apply ev_push_back|]. by apply ev_ret.
Qed.

(** *** for *)

Lemma words_loop ws : forall l r r1, Forall (good_word e) ws -> lexes e r (IOp TSEMI) r1 -> hd0 r = SP ->
  lev words_body (rd e 0 (text (map wl ws) ++ r)) l (l ++ map (warg comp) ws) (at_tok e 0 TSEMI (IOp TSEMI) r1).
Proof.
  induction ws as [|w ws IH]; intros l r r1 Hws Hl Hr.
  - apply lev_done. unfold words_body. eapply ev_bind; [by apply (ev_read_0 e _ _ _ Hl)|].
    change (bool_decide (raw (IOp TSEMI) = TWORD)) with false. cbn match. cbn [map]. rewrite app_nil_r. by apply ev_ret.
  - apply Forall_cons in Hws as [Hw Hws]. cbn [map]. rewrite text_cons.
    pose proof (lexeme_ok_word e w Hw) as (_ & Hp & Hlex).
    eapply lev_step with (a' := l ++ [warg comp w]).
    + unfold words_body. eapply ev_bind; [apply ev_read_0; [apply Hlex; by apply text_hd|done]|].
      change (bool_decide (raw (l_item (wl w)) = TWORD)) with true. cbn match.
      eapply ev_bind; [apply ev_makename|]. apply ev_ret. intros s. apply at_tok_rd.
    + specialize (IH (l ++ [warg comp w]) r r1 Hws Hl Hr). by rewrite <- app_assoc in IH.
Qed.

(** The keyword [t] where a newline may come first. *)
Lemma ev_expect_next {B} s t r kwd (f : procs -> P B) b post : closes s t \/ s = "in"%string /\ t = TIN -> hd0 r = SP ->
  ev f (at_tok e 0 t (l_item (kw s)) r) b post ->
  ev (fun k => modify (set_checkkwd KWD);; expect k t;; f k) (rd e kwd (SP :: l_src (kw s) ++ r)) b post.
Proof.
  intros Hs Hr Hf. eapply ev_modify_bind; [intros s' Hs'; by apply (fresh_set e kwd KWD)|].
  eapply ev_bind with (a := tt); [|exact Hf]. unfold expect.
  eapply ev_bind; [apply closing_word; [..|done]|].
  - destruct Hs as [(H & _)|[-> ->]]; [exact H|reflexivity].
  - destruct Hs as [(_ & H & _)|[-> ->]]; [exact H|reflexivity].
  - rewrite bool_decide_eq_true_2 by done. by apply ev_ret.
Qed.

Lemma cspec_for name ws lb cb : valid_name name = true -> Forall (good_word e) ws -> list_spec e lb cb ->
  cspec e (kw "for" :: name_lexeme name :: kw "in" :: map wl ws ++ op ";" TSEMI :: kw "do" :: lb ++ [kw "done"])
    (NFOR L (map (warg comp) ws) cb name).
Proof.
  intros Hn Hws Hb. set (l := name_lexeme name :: kw "in" :: map wl ws ++ op ";" TSEMI :: kw "do" :: lb).
  replace (name_lexeme name :: kw "in" :: map wl ws ++ op ";" TSEMI :: kw "do" :: lb ++ [kw "done"])
    with (l ++ kw "done" :: rds_lexemes []) by (unfold l; cbn [app]; by rewrite <- app_assoc).
  apply (cspec_compound "for" TFOR l "done" TDONE _ [] (fun k => parse_for k L)); [done..|]. intros r Hr.
  unfold l. rewrite text_cons, text_cons, text_mid, text_cons. unfold parse_for. apply ev_at.
  set (r' := SP :: l_src (kw "do") ++ text lb ++ SP :: l_src (kw "done") ++ r).
  pose proof (valid_name_lit name Hn) as Hlit. destruct (lexeme_ok_name e name Hlit) as (_ & Hp & Hlex).
  eapply ev_bind; [apply ev_read_0; [by apply Hlex|done]|].
  eapply ev_get_bind; [by intros s (_ & _ & _ & _ & E)|]. eapply ev_get_bind; [by intros s (_ & _ & E & _)|].
  change (bool_decide (raw (l_item (name_lexeme name)) = TWORD)) with true. cbn [negb orb].
  rewrite goodname_valid by done. cbn [negb]. apply ev_ret_bind.
  change (Z.lor CHKNL (Z.lor CHKKWD CHKALIAS)) with KWD.
  eapply ev_modify_bind; [intros s Hs; apply at_tok_rd in Hs; by apply (fresh_set e 0 KWD)|].
  eapply ev_bind; [apply (closing_word e "in" TIN); [done|done|by apply text_hd]|].
  change (bool_decide (TIN = TIN)) with true. cbn match. eapply ev_bind.
  { eapply ev_bind; [apply (ev_loop words_body); eapply lev_weaken|].
    - apply (words_loop ws [] (SP :: l_src (op ";" TSEMI) ++ r') r'); [done|apply (lexes_single e ";" 5 TSEMI); [done|lia|done|by left]|done].
    - intros s. apply at_tok_rd.
    - done.
    - eapply ev_get_bind; [by intros s (_ & E & _)|].
      change (bool_decide (TSEMI = TNL) || bool_decide (TSEMI = TSEMI)) with true. cbn match.
      apply ev_ret_bind. by apply ev_ret. }
  apply ev_at. apply (ev_expect_next "do" TDO); [by left|by apply text_hd|]. apply ev_at.
  eapply ev_bind; [apply (ev_list_kw lb cb "done" TDONE); [done..|by left|done]|]. by apply ev_ret.
Qed.

(** *** case *)

Definition clause_parts : Type := list word * option cmds.
Definition clause_ok (p : clause_parts) : Prop :=
  p.1 <> [] /\ Forall (good_word e) p.1 /\ match p.2 with Some q => cmds_ok q | None => True end.

Definition clause_lexemes (p : clause_parts) : list lexeme :=
  op "(" TLP :: sep_by (op "|" TPIPE) (map wl p.1) ++ op ")" TRP ::
    match p.2 with Some q => q.1 | None => [] end ++ [op ";;" TENDCASE].
Definition clause_node (p : clause_parts) : nclist :=
  NCLIST (map (warg comp) p.1) (match p.2 with Some q => q.2 | None => Null end).
Definition clauses_lexemes (ps : list clause_parts) : list lexeme := concat (map clause_lexemes ps).

(** The patterns, from the first one on, which was read. *)
Lemma patterns_loop ws : forall w l r, Forall (good_word e) (w :: ws) -> 
  lev patterns_body (at_tok e 0 TWORD (l_item (wl w))
    (text (concat (map (fun w => [op "|" TPIPE; wl w]) ws)) ++ SP :: l_src (op ")" TRP) ++ r))
    l (l ++ map (warg comp) (w :: ws)) (at_tok e 0 TRP (IOp TRP) r).
Proof.
  induction ws as [|w' ws IH]; intros w l r Hws; apply Forall_cons in Hws as [Hw Hws].
  - apply lev_done. unfold patterns_body. eapply ev_bind; [apply ev_makename|]. apply ev_at.
    eapply ev_bind; [apply (ev_read_0 e _ (IOp TRP) r); [apply (lexes_paren e ")" 2); [done|lia|done]|done]|].
    change (bool_decide (raw (IOp TRP) = TPIPE)) with false. by apply ev_ret.
  - cbn [map concat app]. rewrite !text_cons. eapply lev_step with (a' := l ++ [warg comp w]).
    + unfold patterns_body. eapply ev_bind; [apply ev_makename|]. apply ev_at.
      eapply ev_bind; [apply (ev_read_0 e _ (IOp TPIPE)); [apply (lexes_single e "|" 4 TPIPE); [done|lia|done|by left]|done]|].
      change (bool_decide (raw (IOp TPIPE) = TPIPE)) with true. cbn match. apply ev_at.
      pose proof Hws as Hws'. apply Forall_cons in Hws' as [Hw' _]. destruct (lexeme_ok_word e w' Hw') as (_ & Hp & Hlex).
      eapply ev_bind; [apply ev_read_0; [apply Hlex; by apply text_hd|done]|]. by apply ev_ret.
    + specialize (IH w' (l ++ [warg comp w]) r Hws). by rewrite <- app_assoc in IH.
Qed.

(** The commands of a clause. *)
Lemma ev_clause_body (o : option cmds) r : match o with Some q => cmds_ok q | None => True end -> hd0 r = SP ->
  ev (fun k => k_list k 2) (rd e 0 (text (match o with Some q => q.1 | None => [] end) ++ SP :: l_src (op ";;" TENDCASE) ++ r))
    (match o with Some q => q.2 | None => Null end) (pushed e 0 TENDCASE (IOp TENDCASE) r).
Proof.
  intros Ho Hr. assert (ev readtoken (fresh e KWD (SP :: l_src (op ";;" TENDCASE) ++ r)) TENDCASE (at_tok e 0 TENDCASE (IOp TENDCASE) r)) as Ht.
  { apply (ev_read e KWD _ (IOp TENDCASE) r); [apply (lexes_double e ";" 5); [done|lia|done]|done|done]. }
  apply ev_k_list. destruct o as [q|]; [by apply Ho; [right| ..]|].
  apply (ev_loop (fun k => list_body k 2)), lev_done. apply (list_close e); [by right|done..].
Qed.

(** The first token of the clauses and [esac]. *)
Definition clauses_next (ps : list clause_parts) : token * item * list lexeme :=
  match ps with
  | p :: ps => (TLP, IOp TLP, tail (clause_lexemes p) ++ clauses_lexemes ps ++ [kw "esac"])
  | [] => (TESAC, l_item (kw "esac"), [])
  end.

Lemma clauses_first ps kwd r : hd0 r = SP -> chk kwd CHKKWD = true -> chk kwd CHKEOFMARK = false ->
  ev readtoken (fresh e kwd (text (clauses_lexemes ps ++ [kw "esac"]) ++ r)) (clauses_next ps).1.1
    (at_tok e 0 (clauses_next ps).1.1 (clauses_next ps).1.2 (text (clauses_next ps).2 ++ r)).
Proof.
  intros Hr Hk Hk'. destruct ps as [|p ps]; cbn [clauses_next fst snd].
  - change (clauses_lexemes [] ++ [kw "esac"]) with [kw "esac"]. rewrite text_cons.
    assert (classify kwd (l_item (kw "esac")) = TESAC) as E by (rewrite (classify_kwd kwd) by done; done).
    rewrite <- E. apply ev_read; [by apply (lexes_name e (lit "esac"))|done|done].
  - unfold clauses_lexemes. cbn [map concat]. unfold clause_lexemes at 1. cbn [app]. rewrite text_cons. cbn [tail clause_lexemes].
    rewrite <- app_assoc.
    apply (ev_read e kwd _ (IOp TLP)); [apply (lexes_paren e "(" 1); [done|lia|done]|done|done].
Qed.

Lemma sep_by_words w ws : sep_by (op "|" TPIPE) (map wl (w :: ws)) = wl w :: concat (map (fun w => [op "|" TPIPE; wl w]) ws).
Proof. revert w. induction ws as [|w' ws IH]; intros w; [done|]. specialize (IH w'). cbn [map sep_by concat app] in *. by rewrite IH. Qed.

(** One clause, from its parenthesis on. *)
Lemma case_turn p ps cases r : clause_ok p -> hd0 r = SP ->
  ev (fun k => case_body k (TLP, cases)) (at_tok e 0 TLP (IOp TLP) (text (clauses_next (p :: ps)).2 ++ r))
    (inl ((clauses_next ps).1.1, cases ++ [clause_node p]))
    (at_tok e 0 (clauses_next ps).1.1 (clauses_next ps).1.2 (text (clauses_next ps).2 ++ r)).
Proof.
  destruct p as [ws o]. intros (Hne & Hws & Ho) Hr. cbn [fst snd] in *. destruct ws as [|w ws]; [done|]. clear Hne.
  cbn [clauses_next snd clause_lexemes tail fst]. rewrite sep_by_words. set (after := clauses_lexemes ps ++ [kw "esac"]).
  cbn [app]. rewrite text_cons, <- !app_assoc. cbn [app]. rewrite text_mid, <- app_assoc. cbn [app]. rewrite text_mid.
  unfold case_body. change (bool_decide (TLP = TESAC)) with false. cbn match.
  eapply ev_get_bind; [by intros s (_ & E & _)|]. change (bool_decide (TLP = TLP)) with true. cbn match.
  pose proof Hws as Hws'. apply Forall_cons in Hws' as [Hw _]. destruct (lexeme_ok_word e w Hw) as (_ & Hp & Hlex).
  eapply ev_bind.
  { eapply ev_bind; [apply ev_at, ev_read_0; [apply Hlex; by apply text_hd|done]|]. by apply ev_ret. }
  eapply ev_bind; [apply (ev_loop patterns_body); by apply (patterns_loop ws w [])|].
  eapply ev_get_bind; [by intros s (_ & E & _)|]. change (bool_decide (TRP = TRP)) with true. cbn match.
  apply ev_ret_bind. apply ev_at.
  eapply ev_bind; [apply ev_clause_body; [done|by apply text_hd]|].
  change (Z.lor CHKNL CHKKWD) with 6.
  eapply ev_modify_bind; [intros s Hs; by apply (pushed_checkkwd e 0 6)|].
  eapply ev_bind; [by apply ev_readtoken_pushed|].
  change (bool_decide (TENDCASE = TESAC)) with false. change (bool_decide (TENDCASE = TENDCASE)) with true. cbn match.
  eapply ev_modify_bind; [intros s Hs; apply at_tok_rd in Hs; by apply (fresh_set e 0 6)|].
  eapply ev_bind; [by apply clauses_first|]. by apply ev_ret.
Qed.

Lemma case_loop ps : forall cases r, Forall clause_ok ps -> hd0 r = SP ->
  lev case_body (at_tok e 0 (clauses_next ps).1.1 (clauses_next ps).1.2 (text (clauses_next ps).2 ++ r))
    ((clauses_next ps).1.1, cases) (cases ++ map clause_node ps) (rd e 0 r).
Proof.
  induction ps as [|p ps IH]; intros cases r Hps Hr.
  - apply lev_done. cbn [clauses_next fst snd]. unfold case_body. change (bool_decide (TESAC = TESAC)) with true. cbn match.
    cbn [map]. rewrite app_nil_r. apply ev_ret. intros s. apply at_tok_rd.
  - apply Forall_cons in Hps as [Hp Hps]. eapply lev_step; [by apply case_turn|].
    specialize (IH (cases ++ [clause_node p]) r Hps Hr). by rewrite <- app_assoc in IH.
Qed.

Lemma cspec_case w ps : good_word e w -> Forall clause_ok ps ->
  cspec e (kw "case" :: wl w :: kw "in" :: clauses_lexemes ps ++ [kw "esac"]) (NCASE L (warg comp w) (map clause_node ps)).
Proof.
  intros Hw Hps. apply cspec_intro. intros r0 t r1 Hl Ht Hr.
  change (classify KWD (l_item (kw "case"))) with TCASE. cbn [command_from].
  rewrite !text_cons. set (r := text (clauses_lexemes ps ++ [kw "esac"]) ++ r0).
  assert (hd0 r = SP) as Hr' by (by apply text_hd). destruct (lexeme_ok_word e w Hw) as (_ & Hp & Hlex).
  eapply ev_bind; [|by apply trailing_none]. unfold parse_case. apply ev_at.
  eapply ev_bind.
  { unfold expect. eapply ev_bind; [apply ev_read_0; [by apply Hlex|done]|].
    change (bool_decide (raw (l_item (wl w)) = TWORD)) with true. by apply ev_ret. }
  eapply ev_bind; [apply ev_makename|]. change (Z.lor CHKNL (Z.lor CHKKWD CHKALIAS)) with KWD. apply ev_at.
  apply (ev_expect_next "in" TIN); [by right|done|]. change (Z.lor CHKNL CHKKWD) with 6.
  eapply ev_modify_bind; [intros s Hs; apply at_tok_rd in Hs; by apply (fresh_set e 0 6)|].
  eapply ev_bind; [by apply clauses_first|].
  eapply ev_bind; [apply (ev_loop case_body); by apply (case_loop ps [])|]. by apply ev_ret.
Qed.
End Commands.
