(* ===== verification/AshParseCorrect.v ===== *)
(** * shell/ash.c: parsing the text of a program

    By induction on programs, the parser maps the text of a well-formed program
    to its parse tree; then [parsecmd] on a line and the parsing of a whole
    script. *)

From Stdlib Require Import Ascii String ZArith Lia.
From stdpp Require Import base gmap list strings.
From S2P Require Import Prelude Clib LibbbStr LibbbNum AshInput AshLex AshParse AshParseSpec AshLexRun AshParseRun AshParseCmd.

Local Open Scope Z_scope.

Section Trees.
Context (e : env).

Let L : Z := e_linno e.
Let comp : tree -> node := compile L.
Let pr : tree -> printed := print L.
Let list_of (t : tree) : list lexeme := lst (pr t).
Let wl (w : word) : lexeme := word_lexeme comp list_of w.

(** What the parser does with the text of a tree, at each level. *)
Record good (t : tree) : Prop := mk_good {
  g_own : Forall (lexeme_ok e) (own (pr t));
  g_command : level t = 0%nat -> cspec e (own (pr t)) (comp t) /\ cstart (own (pr t));
  g_pipe : level t = 1%nat -> qspec e (own (pr t)) (comp t) /\ cstart (own (pr t));
  g_not : level t = 2%nat -> pspec e (own (pr t)) (comp t) /\ lstart (own (pr t));
  g_andor : level t = 3%nat -> aspec e (own (pr t)) (comp t) /\ lstart (own (pr t));
  g_elems : exists l, l <> [] /\ Forall (element_ok e) l /\ els_lexemes l = lst (pr t) /\ els_node Null l = comp t;
  g_single : level t <> 5%nat -> exists m, element_ok e m /\ el_lexemes m = lst (pr t) /\ el_node m = comp t;
  g_solid : solid (comp t);
}.

(** *** Lexemes *)

Lemma op_ok s t : t <> TWORD -> t <> TNL -> NL ∉ lit s -> (forall r, hd0 r = SP -> lexes e (SP :: lit s ++ r) (IOp t) r) ->
  lexeme_ok e (op s t).
Proof. done. Qed.

Lemma op_semi : lexeme_ok e (op ";" TSEMI).
Proof. apply op_ok; [done|done|by_eval|]. intros r Hr. apply (lexes_single e ";" 5); [done|lia|done|by left]. Qed.
Lemma op_amp : lexeme_ok e (op "&" TBACKGND).
Proof. apply op_ok; [done|done|by_eval|]. intros r Hr. apply (lexes_single e "&" 3); [done|lia|done|by left]. Qed.
Lemma op_pipe : lexeme_ok e (op "|" TPIPE).
Proof. apply op_ok; [done|done|by_eval|]. intros r Hr. apply (lexes_single e "|" 4); [done|lia|done|by left]. Qed.
Lemma op_lp : lexeme_ok e (op "(" TLP).
Proof. apply op_ok; [done|done|by_eval|]. intros r Hr. apply (lexes_paren e "(" 1); [done|lia|done]. Qed.
Lemma op_rp : lexeme_ok e (op ")" TRP).
Proof. apply op_ok; [done|done|by_eval|]. intros r Hr. apply (lexes_paren e ")" 2); [done|lia|done]. Qed.
Lemma op_and : lexeme_ok e (op "&&" TAND).
Proof. apply op_ok; [done|done|by_eval|]. intros r Hr. apply (lexes_double e "&" 3); [done|lia|done]. Qed.
Lemma op_or : lexeme_ok e (op "||" TOR).
Proof. apply op_ok; [done|done|by_eval|]. intros r Hr. apply (lexes_double e "|" 4); [done|lia|done]. Qed.
Lemma op_endcase : lexeme_ok e (op ";;" TENDCASE).
Proof. apply op_ok; [done|done|by_eval|]. intros r Hr. apply (lexes_double e ";" 5); [done|lia|done]. Qed.

Lemma kw_ok s : negb (bool_decide (lit s = [])) && forallb lit_char (lit s) && negb (hd0 (lit s) ≟ "#"%char) = true ->
  lexeme_ok e (kw s).
Proof. intros H. by apply lexeme_ok_name. Qed.

Local Hint Resolve op_semi op_amp op_pipe op_lp op_rp op_and op_or op_endcase : lexemes.
Local Hint Extern 1 (lexeme_ok _ (kw _)) => apply kw_ok; reflexivity : lexemes.

(** Lists of lexemes, piece by piece. *)
Ltac lexs := repeat match goal with
  | |- Forall (lexeme_ok _) (_ ++ _) => apply Forall_app; split
  | |- Forall (lexeme_ok _) (_ :: _) => apply Forall_cons; split
  | |- Forall (lexeme_ok _) [] => apply Forall_nil_2
  | |- lexeme_ok _ _ => solve [auto with lexemes]
  end; try done.

Lemma lexs_concat {A} (f : A -> list lexeme) l : Forall (fun x => Forall (lexeme_ok e) (f x)) l ->
  Forall (lexeme_ok e) (concat (map f l)).
Proof. induction 1; cbn; [done|]. by apply Forall_app. Qed.

Lemma brace_ok l : Forall (lexeme_ok e) l -> Forall (lexeme_ok e) (brace l).
Proof. intros H. unfold brace. lexs. Qed.

Lemma rds_ok rs : Forall (good_rd e) rs -> Forall (lexeme_ok e) (rds_lexemes e rs).
Proof.
  intros H. apply lexs_concat. eapply Forall_impl; [exact H|]. intros r Hr. cbn beta. rewrite (rd_lexemes_eq e).
  constructor; [by apply rd_head_ok|]. constructor; [by apply rd_word_ok|constructor].
Qed.

Lemma words_ok ws : Forall (good_word e) ws -> Forall (lexeme_ok e) (map wl ws).
Proof. intros H. apply Forall_map. eapply Forall_impl; [exact H|]. intros w Hw. by apply lexeme_ok_word. Qed.

(** *** Trees at a level *)

Lemma g_list t : good t -> list_spec e (lst (pr t)) (comp t).
Proof. intros H. destruct (g_elems t H) as (l & Hne & Hl & <- & <-). by apply list_spec_elements. Qed.

Lemma g_lst t : good t -> Forall (lexeme_ok e) (lst (pr t)).
Proof.
  intros H. destruct (g_elems t H) as (l & _ & Hl & <- & _). apply lexs_concat.
  eapply Forall_impl; [exact Hl|]. intros m [_ Hm _ _]. unfold el_lexemes. lexs.
  unfold el_sep. destruct (m_bg m); auto with lexemes.
Qed.

Lemma at_level_ok n t : good t -> Forall (lexeme_ok e) (at_level n t (pr t)).
Proof. intros H. unfold at_level. case_match; [by apply g_own|by apply brace_ok, g_lst]. Qed.

Lemma brace_command t : good t -> cspec e (brace (lst (pr t))) (comp t) /\ cstart (brace (lst (pr t))).
Proof.
  intros H. split; [|cbn; by_eval]. pose proof (cspec_brace e (lst (pr t)) (comp t) [] (g_list t H)) as Hb.
  unfold rds_lexemes in Hb. cbn [map concat] in Hb. rewrite app_nil_r in Hb. by apply Hb.
Qed.

Lemma at_0 t : good t -> cspec e (at_level 0 t (pr t)) (comp t) /\ cstart (at_level 0 t (pr t)).
Proof.
  intros H. unfold at_level. destruct (Nat.leb_spec (level t) 0); [apply (g_command t H); lia|by apply brace_command].
Qed.

Lemma at_1 t : good t -> qspec e (at_level 1 t (pr t)) (comp t) /\ cstart (at_level 1 t (pr t)).
Proof.
  intros H. unfold at_level. destruct (Nat.leb_spec (level t) 1).
  - destruct (decide (level t = 1%nat)) as [E|E]; [by apply (g_pipe t H)|].
    destruct (g_command t H ltac:(lia)). split; [by apply qspec_command|done].
  - destruct (brace_command t H). split; [by apply qspec_command|done].
Qed.

Lemma at_2 t : good t -> pspec e (at_level 2 t (pr t)) (comp t) /\ lstart (at_level 2 t (pr t)).
Proof.
  intros H. destruct (decide (level t = 2%nat)) as [E|E].
  - unfold at_level. rewrite E. by apply (g_not t H).
  - assert (at_level 2 t (pr t) = at_level 1 t (pr t)) as ->.
    { unfold at_level. destruct (Nat.leb_spec (level t) 2), (Nat.leb_spec (level t) 1); done || lia. }
    destruct (at_1 t H). split; [by apply pspec_rest|by apply cstart_lstart].
Qed.

Lemma at_3 t : good t -> aspec e (at_level 3 t (pr t)) (comp t) /\ lstart (at_level 3 t (pr t)).
Proof.
  intros H. destruct (decide (level t = 3%nat)) as [E|E].
  - unfold at_level. rewrite E. by apply (g_andor t H).
  - assert (at_level 3 t (pr t) = at_level 2 t (pr t)) as ->.
    { unfold at_level. destruct (Nat.leb_spec (level t) 3), (Nat.leb_spec (level t) 2); done || lia. }
    destruct (at_2 t H). split; [by apply aspec_pipeline|done].
Qed.

(** *** Trees by their level *)

Lemma good_terminated t ls : pr t = terminated ls -> Forall (lexeme_ok e) ls -> solid (comp t) -> (level t <= 3)%nat ->
  (level t = 0%nat -> cspec e ls (comp t) /\ cstart ls) -> (level t = 1%nat -> qspec e ls (comp t) /\ cstart ls) ->
  (level t = 2%nat -> pspec e ls (comp t) /\ lstart ls) -> (level t = 3%nat -> aspec e ls (comp t) /\ lstart ls) ->
  good t.
Proof.
  intros Hpr Hls Hso Hlev H0 H1 H2 H3.
  assert (aspec e ls (comp t) /\ lstart ls) as [Ha Hst].
  { destruct (level t) as [|[|[|[|n]]]]; [..|lia].
    - destruct (H0 eq_refl) as [Hc Hs]. split; [by apply aspec_pipeline, pspec_rest; [apply qspec_command|]|by apply cstart_lstart].
    - destruct (H1 eq_refl) as [Hq Hs]. split; [by apply aspec_pipeline, pspec_rest|by apply cstart_lstart].
    - destruct (H2 eq_refl) as [Hp Hs]. split; [by apply aspec_pipeline|done].
    - by apply H3. }
  set (m := mk_element ls (comp t) false). assert (element_ok e m) as Hm by done.
  assert (el_lexemes m = lst (pr t)) as El by (by rewrite Hpr).
  split; rewrite ?Hpr; try done.
  - exists [m]. split_and!; [done|by constructor| |done]. unfold els_lexemes. cbn [map concat]. rewrite app_nil_r, El. by rewrite Hpr.
  - intros _. exists m. rewrite <- Hpr. by split_and!.
Qed.

Lemma good_command t ls : pr t = terminated ls -> level t = 0%nat -> Forall (lexeme_ok e) ls -> solid (comp t) ->
  cspec e ls (comp t) -> cstart ls -> good t.
Proof. intros. apply (good_terminated t ls); [done..|lia| | | |]; intros; try lia; done. Qed.

Lemma good_bg t : good t -> good (Bg t).
Proof.
  intros H. destruct (at_3 t H) as [Ha Hst]. pose proof (at_level_ok 3 t H) as Hls.
  set (m := mk_element (at_level 3 t (pr t)) (comp t) true).
  assert (element_ok e m) as Hm by (by split; [..|apply g_solid]).
  assert (solid (bg_node (comp t))) as Hso by (by destruct (comp t)).
  split; try done.
  - cbn. lexs.
  - exists [m]. split_and!; [done|by constructor| |done]. unfold els_lexemes. cbn [map concat]. by rewrite app_nil_r.
  - intros _. by exists m.
Qed.

Lemma els_node_app n l l' : els_node n (l ++ l') = els_node (els_node n l) l'.
Proof. apply fold_left_app. Qed.

Lemma append_solid c n : solid c -> append_node c n = NSEMI c n.
Proof. intros [H _]. by destruct c. Qed.

Lemma good_last t : good t -> exists m, element_ok e m /\ el_lexemes m = elem_of_list t (pr t) /\ el_node m = comp t.
Proof.
  intros H. destruct (decide (level t = 5%nat)) as [E|E].
  - destruct (brace_command t H) as [Hc Hs].
    exists (mk_element (brace (lst (pr t))) (comp t) false). split_and!; [|by destruct t|done].
    split; cbn [m_lexemes m_node]; [|by apply brace_ok, g_lst|by apply cstart_lstart|by apply g_solid].
    by apply aspec_pipeline, pspec_rest; [apply qspec_command|].
  - destruct (g_single t H E) as (m & Hm & El & En). exists m. split_and!; [done| |done]. rewrite El. by destruct t.
Qed.

Lemma good_seq a b : good a -> good b -> good (Seq a b).
Proof.
  intros Ha Hb. destruct (g_elems a Ha) as (la & Hne & Hla & Ela & Ena). destruct (good_last b Hb) as (m & Hm & Em & Enm).
  assert (Forall (lexeme_ok e) (el_lexemes m)) as Hml.
  { destruct Hm as [_ Hml _ _]. unfold el_lexemes. lexs. unfold el_sep. destruct (m_bg m); auto with lexemes. }
  assert (lst (pr a) ++ elem_of_list b (pr b) = els_lexemes (la ++ [m])) as El.
  { unfold els_lexemes in *. rewrite map_app, concat_app, Ela. cbn [map concat]. by rewrite app_nil_r, Em. }
  split; try done.
  - change (own (pr (Seq a b))) with (lst (pr a) ++ elem_of_list b (pr b)). apply Forall_app. split; [by apply g_lst|]. by rewrite <- Em.
  - exists (la ++ [m]). split_and!; [by destruct la|by apply Forall_app; split; [|constructor]|done|].
    rewrite els_node_app, Ena. cbn [els_node fold_left]. rewrite append_solid by by apply g_solid. by rewrite Enm.
Qed.

Lemma good_not t : good t -> good (Not t).
Proof.
  intros H. destruct (at_1 t H) as [Hq Hs]. pose proof (at_level_ok 1 t H) as Hls.
  apply (good_terminated (Not t) (kw "!" :: at_level 1 t (pr t))); [done|lexs|done|cbn; lia|..]; cbn; try done.
  intros _. split; [by apply pspec_not|by_eval].
Qed.

Lemma good_andor (f : bool) a b : good a -> good b -> good (if f then And a b else Or a b).
Proof.
  intros Ha Hb. destruct (at_3 a Ha) as [Hsa Hst]. destruct (at_2 b Hb) as [Hsb _].
  pose proof (at_level_ok 3 a Ha) as Hla. pose proof (at_level_ok 2 b Hb) as Hlb.
  set (x := if f then op "&&" TAND else op "||" TOR).
  apply (good_terminated _ (at_level 3 a (pr a) ++ x :: at_level 2 b (pr b))); [by destruct f|..].
  - unfold x. destruct f; lexs.
  - by destruct f.
  - destruct f; cbn; lia.
  - by destruct f.
  - by destruct f.
  - by destruct f.
  - intros _. split; [|by destruct (at_level 3 a (pr a))].
    assert (comp (if f then And a b else Or a b) = andor_node (if f then TAND else TOR) (comp a) (comp b)) as -> by (by destruct f).
    apply aspec_op; [done..|]. unfold x. destruct f; auto.
Qed.

Lemma good_pipe t ts : good t -> Forall good ts -> ts <> [] -> good (Pipe t ts).
Proof.
  intros H Hts Hne. destruct (at_0 t H) as [Hc Hs]. pose proof (at_level_ok 0 t H) as Hls.
  set (parts := map (fun t => (at_level 0 t (pr t), comp t)) ts).
  assert (Forall (cmd_ok e) parts) as Hparts.
  { apply Forall_map. eapply Forall_impl; [exact Hts|]. intros u Hu. split; [by apply at_0|by apply at_level_ok]. }
  assert (concat (map (fun t => op "|" TPIPE :: at_level 0 t (pr t)) ts) = piped parts) as E.
  { unfold piped, parts. by rewrite map_map. }
  apply (good_terminated _ (at_level 0 t (pr t) ++ piped parts)); [cbn; by rewrite <- E| |done|cbn; lia|done| |done|done].
  - lexs. apply lexs_concat. eapply Forall_impl; [exact Hparts|]. intros p [_ Hp]. cbn beta. lexs.
  - intros _. destruct ts as [|u ts]; [done|]. split; [|by destruct (at_level 0 t (pr t))].
    assert (comp (Pipe t (u :: ts)) = NPIPE false (comp t :: map snd parts)) as -> by (unfold parts; by rewrite map_map).
    by apply qspec_pipe.
Qed.

(** *** Command substitutions and words *)

Lemma text_no_nl ls : Forall (lexeme_ok e) ls -> NL ∉ text ls.
Proof.
  induction 1 as [|x ls [Hx _] _ IH]; [by_eval|]. rewrite <- (app_nil_r (text (x :: ls))), text_cons, app_nil_r.
  rewrite elem_of_cons, elem_of_app. naive_solver.
Qed.

Lemma good_tree_ok t : good t -> tree_ok L e t.
Proof.
  intros H. destruct (g_elems t H) as (l & Hne & _ & El & _).
  assert (exists x ls, lst (pr t) = x :: ls) as (x & ls & E).
  { rewrite <- El. destruct l as [|m l]; [done|]. unfold els_lexemes. cbn [map concat]. unfold el_lexemes.
    destruct (m_lexemes m); eexists _, _; reflexivity. }
  pose proof (text_no_nl _ (g_lst t H)) as Hnl. pose proof (g_list t H) as Hl. unfold pr in *. rewrite E in *.
  assert (text (x :: ls) = SP :: l_src x ++ text ls) as Et by done. rewrite Et in Hnl. rewrite not_elem_of_cons in Hnl.
  exists (l_src x ++ text ls). rewrite E. split_and!; [done|apply Hnl|]. intros kwd Hk r. rewrite <- Et.
  apply (Hl 2 kwd _ TRP (IOp TRP) r); [by right| |done..].
  apply (ev_read e KWD _ (IOp TRP) r); [apply (lexes_paren e ")" 2); [done|lia|done]|done|done].
Qed.

Definition wf_good (t : tree) : Prop := wf t = true -> good t.

Lemma forallb_Forall {A} (f : A -> bool) (P Q : A -> Prop) l : forallb f l = true -> Forall P l ->
  (forall x, f x = true -> P x -> Q x) -> Forall Q l.
Proof.
  intros Hf HP H. induction HP as [|x l Hx _ IH]; [constructor|]. cbn in Hf. apply andb_true_iff in Hf as [Hfx Hf].
  constructor; auto.
Qed.

Lemma parts_ok w : forallb (wf_part wf) w = true -> P_word wf_good w -> word_ok L e w.
Proof.
  intros Hw HP. eapply forallb_Forall; [exact Hw|exact HP|]. intros p Hp HPp.
  destruct p as [s|s|ds|c|n|t]; cbn in *; try done.
  - eapply forallb_Forall; [exact Hp|exact HPp|]. intros d Hd HPd. destruct d as [c|n|t]; cbn in *; try done.
    by apply good_tree_ok, HPd.
  - by apply good_tree_ok, HPp.
Qed.

Lemma wf_good_word w : wf_word wf w = true -> P_word wf_good w -> good_word e w.
Proof. intros H HP. split; [done|]. apply parts_ok; [|done]. unfold wf_word in H. by apply andb_true_iff in H as [_ ?]. Qed.

Lemma wf_good_words ws : forallb (wf_word wf) ws = true -> Forall (P_word wf_good) ws -> Forall (good_word e) ws.
Proof. intros H HP. eapply forallb_Forall; [exact H|exact HP|apply wf_good_word]. Qed.

Lemma wf_good_rds rs : forallb (wf_rd wf) rs = true -> Forall (P_rd wf_good) rs -> Forall (good_rd e) rs.
Proof.
  intros H HP. eapply forallb_Forall; [exact H|exact HP|]. intros [fd op w|fd out target] Hr HPr; cbn in *.
  - apply andb_true_iff in Hr as [Hfd Hw]. split; [done|]. by apply wf_good_word.
  - by apply andb_true_iff in Hr.
Qed.

(** *** Commands *)

Lemma print_simple vars args rs : pr (Simple vars args rs) = terminated (simple_lexemes e vars args rs).
Proof.
  unfold pr, simple_lexemes. cbn [print]. f_equal. f_equal. f_equal.
  induction rs as [|r rs IH]; [done|]. unfold rds_lexemes. cbn [map concat]. by rewrite IH.
Qed.

Lemma print_subshell t rs : pr (Subshell t rs) = terminated (op "(" TLP :: lst (pr t) ++ op ")" TRP :: rds_lexemes e rs).
Proof.
  unfold pr. cbn [print]. f_equal. f_equal. f_equal. f_equal.
  induction rs as [|r rs IH]; [done|]. unfold rds_lexemes. cbn [map concat]. by rewrite IH.
Qed.

Lemma print_redir t rs : pr (Redir t rs) = terminated (brace (lst (pr t)) ++ rds_lexemes e rs).
Proof.
  unfold pr. cbn [print]. f_equal. f_equal.
  induction rs as [|r rs IH]; [done|]. unfold rds_lexemes. cbn [map concat]. by rewrite IH.
Qed.

Lemma good_simple vars args rs : Forall (good_var e) vars -> Forall (good_word e) args -> Forall (good_rd e) rs ->
  match args with
  | w :: _ => isassignment (wtext w) = false /\ is_keyword w = false
  | [] => length vars + length rs <> 0
  end%nat -> good (Simple vars args rs).
Proof.
  intros Hv Ha Hr Hne. apply (good_command _ (simple_lexemes e vars args rs)); [apply print_simple|done| |done|by apply cspec_simple|].
  - unfold simple_lexemes. lexs; [|by apply words_ok|by apply rds_ok].
    apply Forall_map. eapply Forall_impl; [exact Hv|]. intros v Hgv. by apply lexeme_ok_word, var_word_ok.
  - unfold simple_lexemes. destruct vars as [|v vars]; [destruct args as [|w args]; [destruct rs as [|r rs]|]|].
    + by destruct Hne.
    + unfold cstart, starts_with_one_of. unfold rds_lexemes. cbn [map concat app]. rewrite (rd_lexemes_eq e). destruct r; cbn; by_eval.
    + unfold cstart, starts_with_one_of. cbn [map app]. cbn [word_lexeme l_item]. rewrite not_keyword by apply Hne. by_eval.
    + unfold cstart, starts_with_one_of. cbn [map app]. cbn [word_lexeme l_item]. rewrite not_keyword; [by_eval|].
      by apply var_not_keyword.
Qed.

(** The parts of a compound command. *)
Definition parts_of (t : tree) : cmds := (lst (pr t), comp t).

Lemma parts_of_ok t : good t -> cmds_ok e (parts_of t).
Proof. apply g_list. Qed.

Lemma start_in x l : classify KWD (l_item x) ∈ command_starts -> cstart (x :: l).
Proof. done. Qed.

Lemma good_if a b l o : good a -> good b -> Forall (fun x => good x.1 /\ good x.2) l ->
  match o with Some t => good t | None => True end -> good (If a b l o).
Proof.
  intros Ha Hb Hl Ho. set (es := map (fun x : tree * tree => (parts_of x.1, parts_of x.2)) l). set (o' := parts_of <$> o).
  assert (pr (If a b l o) = terminated (kw "if" :: (parts_of a).1 ++ kw "then" :: (parts_of b).1 ++ elif_lexemes es ++
    else_lexemes o' ++ [kw "fi"])) as Epr.
  { unfold es, elif_lexemes. rewrite map_map. by destruct o. }
  assert (Forall (fun x => cmds_ok e x.1 /\ cmds_ok e x.2) es) as Hes.
  { apply Forall_map. eapply Forall_impl; [exact Hl|]. intros x [H1 H2]. split; by apply parts_of_ok. }
  assert (comp (If a b l o) = if_node (parts_of a) (parts_of b) es o') as Ec.
  { unfold if_node, elif_nodes, es. rewrite map_map. by destruct o. }
  pose proof (g_lst a Ha) as Hla. pose proof (g_lst b Hb) as Hlb.
  eapply good_command; [exact Epr|done| | | |by apply start_in; by_eval].
  - lexs.
    + apply lexs_concat, Forall_map. eapply Forall_impl; [exact Hl|]. intros x [H1 H2]. cbn beta.
      pose proof (g_lst _ H1) as Hl1. pose proof (g_lst _ H2) as Hl2. lexs.
    + destruct o as [t|]; [|constructor]. pose proof (g_lst t Ho) as Hlt. cbn. lexs.
  - by rewrite Ec.
  - rewrite Ec. apply cspec_if; [by apply parts_of_ok..|done|]. destruct o as [t|]; [by apply parts_of_ok|done].
Qed.

Lemma good_while (u : bool) a b : good a -> good b -> good (if u then Until a b else While a b).
Proof.
  intros Ha Hb. pose proof (g_lst a Ha) as Hla. pose proof (g_lst b Hb) as Hlb.
  eapply (good_command _ (kw (if u then "until" else "while") :: lst (pr a) ++ kw "do" :: lst (pr b) ++ [kw "done"]));
    [by destruct u|by destruct u| |by destruct u| |destruct u; apply start_in; by_eval].
  - destruct u; lexs.
  - assert (comp (if u then Until a b else While a b) = if u then NUNTIL (comp a) (comp b) else NWHILE (comp a) (comp b)) as ->
      by (by destruct u).
    by apply cspec_while; apply g_list.
Qed.

Lemma good_for name ws t : valid_name name = true -> Forall (good_word e) ws -> good t -> good (For name ws t).
Proof.
  intros Hn Hws Ht. pose proof (g_lst t Ht) as Hlt.
  eapply good_command; [reflexivity|done| |done| |by apply start_in; by_eval].
  - lexs; [by apply lexeme_ok_name, valid_name_lit|by apply words_ok].
  - by apply cspec_for; [..|apply g_list].
Qed.

Definition clause_of (c : clause) : clause_parts :=
  match c with Clause pats body => (pats, parts_of <$> body) end.

Definition good_clause (c : clause) : Prop :=
  match c with Clause pats body => pats <> [] /\ Forall (good_word e) pats /\ match body with Some t => good t | None => True end end.

Lemma good_clause_ok c : good_clause c -> clause_ok e (clause_of c) /\ Forall (lexeme_ok e) (clause_lexemes e (clause_of c)).
Proof.
  destruct c as [pats body]. intros (Hne & Hp & Hb). split.
  - split; [done|]. split; [done|]. destruct body as [t|]; [by apply parts_of_ok|done].
  - unfold clause_lexemes. cbn [clause_of fst snd]. destruct pats as [|w ws]; [done|]. rewrite sep_by_words.
    apply Forall_cons in Hp as [Hw Hws]. lexs.
    + by apply lexeme_ok_word.
    + apply lexs_concat. eapply Forall_impl; [exact Hws|]. intros w' Hw'. cbn beta. lexs. by apply lexeme_ok_word.
    + destruct body as [t|]; [|constructor]. by apply g_lst.
Qed.

Lemma good_case w cs : good_word e w -> Forall good_clause cs -> good (Case w cs).
Proof.
  intros Hw Hcs. set (ps := map clause_of cs).
  assert (pr (Case w cs) = terminated (kw "case" :: wl w :: kw "in" :: clauses_lexemes e ps ++ [kw "esac"])) as Epr.
  { unfold pr. cbn [print]. unfold ps, clauses_lexemes. rewrite map_map. do 5 f_equal. f_equal. apply map_ext.
    intros [pats [t|]]; done. }
  assert (comp (Case w cs) = NCASE L (warg comp w) (map (clause_node e) ps)) as Ec.
  { unfold comp. cbn [compile]. f_equal. unfold ps. rewrite map_map. apply map_ext. intros [pats [t|]]; done. }
  eapply good_command; [exact Epr|done| |done| |by apply start_in; by_eval].
  - lexs; [by apply lexeme_ok_word|]. apply lexs_concat. unfold ps. apply Forall_map.
    eapply Forall_impl; [exact Hcs|]. intros c Hc. by apply good_clause_ok.
  - rewrite Ec. apply cspec_case; [done|]. unfold ps. apply Forall_map.
    eapply Forall_impl; [exact Hcs|]. intros c Hc. by apply good_clause_ok.
Qed.

Lemma good_fun name t : definable name = true -> good t -> good (Fun name t).
Proof.
  intros Hn Ht. destruct (at_0 t Ht) as [Hc _]. pose proof (at_level_ok 0 t Ht) as Hls.
  assert (plain_name name = true) as Hp by (unfold definable in Hn; by apply andb_true_iff in Hn as [? _]).
  unfold plain_name in Hp. apply andb_true_iff in Hp as [Hv Hk].
  eapply (good_command _ (name_lexeme name :: op "(" TLP :: op ")" TRP :: at_level 0 t (pr t))); [done|done| |done| |].
  - lexs. by apply lexeme_ok_name, valid_name_lit.
  - by apply cspec_fun.
  - unfold cstart, starts_with_one_of. cbn [name_lexeme l_item classify]. change (chk KWD CHKKWD) with true. cbn match.
    destruct (findkwd name); [done|by_eval].
Qed.

Lemma good_subshell t rs : good t -> Forall (good_rd e) rs -> good (Subshell t rs).
Proof.
  intros Ht Hrs. pose proof (g_lst t Ht) as Hlt. pose proof (rds_ok rs Hrs) as Hlr.
  eapply good_command; [apply print_subshell|done| |done| |by apply start_in; by_eval].
  - lexs.
  - by apply cspec_subshell; [apply g_list|].
Qed.

Lemma good_redir t rs : good t -> Forall (good_rd e) rs -> rs <> [] ->
  match t with Subshell _ _ => False | _ => True end -> good (Redir t rs).
Proof.
  intros Ht Hrs Hne Hns. pose proof (rds_ok rs Hrs) as Hlr. pose proof (brace_ok _ (g_lst t Ht)) as Hlb.
  assert (with_redirs L (comp t) (map (rnode comp) rs) = comp (Redir t rs)) as Ew.
  { unfold with_redirs. destruct rs as [|r rs]; [done|]. cbn [map length]. rewrite bool_decide_eq_false_2 by done.
    assert (forall l n r', comp t <> NSUBSHELL l n r') as Hn; [|destruct (comp t) eqn:Et; first [by edestruct Hn|by rewrite <- Et]].
    destruct t; try done; cbn; first [by intros ? ? ? [=]|match goal with |- context [bg_node ?b] => by destruct b end]. }
  eapply good_command; [apply print_redir|done|lexs|done| |by apply start_in; by_eval].
  rewrite <- Ew. by apply cspec_brace; [apply g_list|].
Qed.

Ltac wf_split := cbn [wf] in *; repeat match goal with
  | H : _ && _ = true |- _ => apply andb_true_iff in H as [? ?]
  | H : wf_good ?t, H' : wf ?t = true |- _ => specialize (H H')
  end.

(** Every well-formed tree. *)
Lemma all_good t : wf t = true -> good t.
Proof.
  revert t. apply (tree_rec' wf_good).
  - intros vars args redirs Hv Ha Hr H. wf_split. apply good_simple; [|by apply wf_good_words|by apply wf_good_rds|].
    + eapply forallb_Forall; [eassumption|exact Hv|]. intros v Hwf HP. wf_split. by split_and!; [..|apply parts_ok].
    + destruct args as [|w ws].
      * intros E. rewrite bool_decide_eq_true_2 in * by done. done.
      * wf_split. by split; apply negb_true_iff.
  - intros t ts Ht Hts H. wf_split. apply good_pipe; [done| |by destruct ts].
    eapply forallb_Forall; [eassumption|exact Hts|]. auto.
  - intros t Ht H. wf_split. by apply good_not.
  - intros a b Ha Hb H. wf_split. by apply (good_andor true).
  - intros a b Ha Hb H. wf_split. by apply (good_andor false).
  - intros t Ht H. wf_split. by apply good_bg.
  - intros a b Ha Hb H. wf_split. by apply good_seq.
  - intros a b l o Ha Hb Hl Ho H. wf_split. apply good_if; [done..| |].
    + eapply forallb_Forall; [eassumption|exact Hl|]. intros x Hx [? ?]. by wf_split.
    + destruct o as [t|]; [by apply Ho|done].
  - intros a b Ha Hb H. wf_split. by apply (good_while false).
  - intros a b Ha Hb H. wf_split. by apply (good_while true).
  - intros v ws t Hws Ht H. wf_split. by apply good_for; [|apply wf_good_words|].
  - intros w cs Hw Hcs H. wf_split. apply good_case; [by apply wf_good_word|].
    eapply forallb_Forall; [eassumption|exact Hcs|]. intros [pats body] Hc [Hp Hb]. cbn in Hc. wf_split.
    split; [by intros ->|]. split; [by apply wf_good_words|]. destruct body as [t|]; [by apply Hb|done].
  - intros n t Ht H. wf_split. apply good_fun; [|done]. unfold definable. by apply andb_true_iff.
  - intros t rs Ht Hrs H. wf_split. by apply good_subshell; [|apply wf_good_rds].
  - intros t rs Ht Hrs H. wf_split. apply good_redir; [done|by apply wf_good_rds|by destruct rs|by destruct t].
Qed.
End Trees.

(** ** The text of a program does not depend on its line number *)

Section SameText.
Context (L L' : Z).

Definition src (l : list lexeme) : list cstr := map l_src l.
Definition same (t : tree) : Prop :=
  src (own (print L t)) = src (own (print L' t)) /\ src (lst (print L t)) = src (lst (print L' t)).

Lemma text_src l : text l = concat (map (cons SP) (src l)).
Proof. unfold text, src. by rewrite map_map. Qed.

Lemma same_cmd t : same t -> cmd_src (fun t => lst (print L t)) t = cmd_src (fun t => lst (print L' t)) t.
Proof. intros [_ H]. unfold cmd_src. by rewrite !text_src, H. Qed.

Lemma concat_same {A B} (f g : A -> list B) l : Forall (fun x => f x = g x) l -> concat (map f l) = concat (map g l).
Proof. induction 1 as [|x l E _ IH]; [done|]. cbn. by rewrite E, IH. Qed.

Lemma map_same {A B} (f g : A -> B) l : Forall (fun x => f x = g x) l -> map f l = map g l.
Proof. induction 1 as [|x l E _ IH]; [done|]. cbn. by rewrite E, IH. Qed.

Lemma src_concat {A} (f : A -> list lexeme) l : src (concat (map f l)) = concat (map (fun x => src (f x)) l).
Proof. unfold src. by rewrite concat_map, map_map. Qed.

Lemma src_app l l' : src (l ++ l') = src l ++ src l'.
Proof. apply map_app. Qed.

Lemma same_word w : P_word same w -> wsrc (fun t => lst (print L t)) w = wsrc (fun t => lst (print L' t)) w.
Proof.
  intros H. apply concat_same. eapply Forall_impl; [exact H|]. intros [s|s|ds|c|n|t] Hp; cbn in *; try done.
  - f_equal. f_equal. apply concat_same. eapply Forall_impl; [exact Hp|]. intros [c|n|t] Hd; cbn in *; try done.
    by apply same_cmd.
  - by apply same_cmd.
Qed.

Lemma same_rds rs : Forall (P_rd same) rs ->
  src (rds_lexemes (mk_env L [] ∅ 0 false 0 0) rs) = src (rds_lexemes (mk_env L' [] ∅ 0 false 0 0) rs).
Proof.
  intros H. unfold rds_lexemes. rewrite !src_concat. apply concat_same. eapply Forall_impl; [exact H|].
  intros [fd op w|fd out target] Hr; cbn in *; [|done]. by rewrite same_word.
Qed.

Lemma same_terminated t ls ls' : print L t = terminated ls -> print L' t = terminated ls' -> src ls = src ls' -> same t.
Proof. intros E E' H. unfold same. rewrite E, E'. cbn [own lst terminated]. by rewrite !src_app, H. Qed.

Lemma src_app_eq a b a' b' : src a = src a' -> src b = src b' -> src (a ++ b) = src (a' ++ b').
Proof. intros H1 H2. by rewrite !src_app, H1, H2. Qed.

Lemma src_cons_eq x l x' l' : l_src x = l_src x' -> src l = src l' -> src (x :: l) = src (x' :: l').
Proof. intros H1 H2. unfold src. cbn. by rewrite H1; f_equal. Qed.

Lemma same_at n t : same t -> src (at_level n t (print L t)) = src (at_level n t (print L' t)).
Proof. intros [H1 H2]. unfold at_level. case_match; [done|]. apply src_cons_eq; [done|]. by apply src_app_eq. Qed.

Lemma src_concat_eq {A} (f g : A -> list lexeme) l : Forall (fun x => src (f x) = src (g x)) l ->
  src (concat (map f l)) = src (concat (map g l)).
Proof. intros H. rewrite !src_concat. by apply concat_same. Qed.

Lemma same_words ws : Forall (P_word same) ws ->
  src (map (word_lexeme (compile L) (fun t => lst (print L t))) ws) = src (map (word_lexeme (compile L') (fun t => lst (print L' t))) ws).
Proof. intros H. unfold src. rewrite !map_map. apply map_same. eapply Forall_impl; [exact H|]. intros w. apply same_word. Qed.

Ltac sm := repeat first [reflexivity|assumption|apply src_app_eq|apply src_cons_eq|by apply same_at].

Lemma same_all t : same t.
Proof.
  induction t as [vars args rs Hv Ha Hr|t ts Ht Hts|t Ht|a b Ha Hb|a b Ha Hb|t Ht|a b Ha Hb|a b l o Ha Hb Hl Ho
    |a b Ha Hb|a b Ha Hb|v ws t Hws Ht|w cs Hw Hcs|n t Ht|t rs Ht Hrs|t rs Ht Hrs] using tree_rec'.
  - eapply same_terminated; [apply (print_simple (mk_env L [] ∅ 0 false 0 0))|apply (print_simple (mk_env L' [] ∅ 0 false 0 0))|].
    unfold simple_lexemes. apply src_app_eq; [|apply src_app_eq; [by apply same_words|by apply same_rds]].
    unfold src. rewrite !map_map. apply map_same. eapply Forall_impl; [exact Hv|]. intros x Hx.
    cbn. f_equal. by apply same_word.
  - eapply same_terminated; [done..|]. sm. apply src_concat_eq. eapply Forall_impl; [exact Hts|]. intros x Hx. cbn beta. sm.
  - eapply same_terminated; [done..|]. sm.
  - eapply same_terminated; [done..|]. sm.
  - eapply same_terminated; [done..|]. sm.
  - pose proof (same_at 3 t Ht). split; cbn; sm.
  - destruct Ha as [_ Ha], Hb as [Hb1 Hb2].
    assert (src (elem_of_list b (print L b)) = src (elem_of_list b (print L' b))).
    { unfold elem_of_list. destruct b; try done. unfold brace. sm. }
    split; cbn; sm.
  - eapply same_terminated; [done..|]. destruct Ha as [_ Ha], Hb as [_ Hb]. sm.
    + apply src_concat_eq. eapply Forall_impl; [exact Hl|]. intros x [[_ H1] [_ H2]]. cbn beta. sm.
    + destruct o as [t|]; [|done]. destruct Ho as [_ Ho]. sm.
  - eapply same_terminated; [done..|]. destruct Ha as [_ Ha], Hb as [_ Hb]. sm.
  - eapply same_terminated; [done..|]. destruct Ha as [_ Ha], Hb as [_ Hb]. sm.
  - eapply same_terminated; [done..|]. destruct Ht as [_ Ht]. sm. by apply same_words.
  - eapply same_terminated; [done..|]. sm; [by apply same_word|].
    apply src_concat_eq. eapply Forall_impl; [exact Hcs|]. intros [pats body] [Hp Hb]. sm.
    + assert (forall l l', src l = src l' -> src (sep_by (op "|" TPIPE) l) = src (sep_by (op "|" TPIPE) l')) as Hsep.
      { clear. induction l as [|x l IH]; intros [|x' l'] H; try done. cbn in H. injection H as Hx H.
        specialize (IH l' H). destruct l, l'; try done; cbn [sep_by] in *; sm. }
      apply Hsep. by apply same_words.
    + destruct body as [t|]; [|done]. by destruct Hb.
  - eapply same_terminated; [done..|]. sm.
  - eapply same_terminated; [apply (print_subshell (mk_env L [] ∅ 0 false 0 0))|apply (print_subshell (mk_env L' [] ∅ 0 false 0 0))|].
    destruct Ht as [_ Ht]. sm. by apply same_rds.
  - eapply same_terminated; [apply (print_redir (mk_env L [] ∅ 0 false 0 0))|apply (print_redir (mk_env L' [] ∅ 0 false 0 0))|].
    destruct Ht as [_ Ht]. unfold brace. sm. by apply same_rds.
Qed.

Lemma text_same t : text (lst (print L t)) = text (lst (print L' t)).
Proof. rewrite !text_src. by destruct (same_all t) as [_ ->]. Qed.
End SameText.

(** ** Lines and scripts *)

Lemma lexes_eof e : lexes e [] (IOp TEOF) [].
Proof.
  intros kwd Hk. unfold xxreadtoken.
  apply (xxreadtoken_start e kwd _ (fun k r => match r with inl c => readtoken1 k c BASESYNTAX NoMark false | inr t => mret t end)).
  eapply ev_bind with (a := inr TEOF); [|by apply ev_ret]. apply (ev_loop xxread_body), lev_done. unfold xxread_body.
  eapply ev_bind; [by apply ev_eatbnl|]. cbn [head is_char orb].
  eapply ev_weaken; [apply (ev_token e kwd 6 [])|intros s; apply cur_rd|done].
Qed.

(** No here-documents are waiting. *)
Lemma ev_parseheredoc e kwd r : ev parseheredoc (rd e kwd r) tt (rd e kwd r).
Proof.
  unfold parseheredoc. eapply ev_get_bind; [by intros s ([] & _)|].
  eapply ev_modify_bind with (mid := rd e kwd r); [|by apply ev_ret]. intros s ([] & Hi & Hk). by split_and!.
Qed.

(** [parsecmd] with the procedures abstracted. *)
Definition parsecmd_with (k : procs) : P node :=
  modify (set_tokpushback false);;
  modify (set_checkkwd 0);;
  modify (set_heredoclist []);;
  modify (set_doprompt false);;
  setprompt_if false 0;;
  modify (set_needprompt false);;
  parse_list k 1.

Lemma parsecmd_resets e r c post : e_doprompt e = false -> ev (fun k => parse_list k 1) (rd e 0 r) c post ->
  ev parsecmd_with (rd e 0 r) c post.
Proof.
  intros He H. unfold parsecmd_with.
  eapply ev_modify_bind with (mid := rd e 0 r); [intros s ([] & Hi & Hk); by split_and!|].
  eapply ev_modify_bind with (mid := rd e 0 r); [intros s ([] & Hi & Hk); split_and!; try done; by left|].
  eapply ev_modify_bind with (mid := rd e 0 r); [intros s ([] & Hi & Hk); by split_and!|].
  eapply ev_modify_bind with (mid := rd e 0 r); [intros s ([] & Hi & Hk); by split_and!|].
  apply ev_ret_bind.
  eapply ev_modify_bind with (mid := rd e 0 r); [intros s ([] & Hi & Hk); by split_and!|]. done.
Qed.

(** The state on the next line. *)
Definition next_env (e : env) : env := mk_env (if e_trap_depth e =? 0 then e_linno e + 1 else e_linno e)
  (e_prev e) (e_docs e) (e_ndocs e) (e_doprompt e) (e_trap_depth e) (e_lineno e).

Lemma ev_line e t rest : wf t = true -> e_doprompt e = false ->
  ev parsecmd_with (rd e 0 (line t ++ rest)) (compile (e_linno e) t) (rd (next_env e) 0 rest).
Proof.
  intros Hwf He. apply parsecmd_resets; [done|]. destruct (g_elems e t (all_good e t Hwf)) as (l & Hne & Hl & El & En).
  unfold line. rewrite (text_same 0 (e_linno e)), <- app_assoc, <- El, <- En. cbn [app].
  apply (ev_loop (fun k => list_body k 1)). apply (list_elements e); [done|by right; left|by right|done|].
  apply lev_done. unfold list_body.
  eapply ev_modify_bind; [intros s Hs; by apply (fresh_set e 0 3)|].
  eapply ev_bind; [apply (ev_readtoken e (next_env e) 3 (NL :: rest) (IOp TNL) rest); [by apply lexes_newline|by right|]|].
  { split; [done|]. by intros (? & ? & ? & ?). }
  cbn [classify raw]. apply ev_at. eapply ev_bind; [apply ev_parseheredoc|]. by apply ev_ret.
Qed.

Lemma ev_end e : e_doprompt e = false -> ev parsecmd_with (rd e 0 []) NODE_EOF (fun _ => True).
Proof.
  intros He. apply parsecmd_resets; [done|]. apply (ev_loop (fun k => list_body k 1)), lev_done. unfold list_body.
  eapply ev_modify_bind; [intros s Hs; by apply (fresh_set e 0 3)|].
  eapply ev_bind; [apply (ev_read e 3 [] (IOp TEOF) []); [apply lexes_eof|done|done]|].
  cbn [classify raw]. apply ev_at.
  eapply ev_bind with (a := NODE_EOF) (mid := fun _ => True); [|by apply ev_ret]. unfold out_eof.
  eapply ev_bind; [apply ev_parseheredoc|].
  eapply ev_modify_bind with (mid := fun _ => True); [done|].
  eapply ev_modify_bind with (mid := fun _ => True); [done|]. by apply ev_ret.
Qed.

Lemma parse_all_lines ts : forall e, Forall (fun t => wf t = true) ts -> e_doprompt e = false -> e_trap_depth e = 0 ->
  exists N, forall n k, (N <= n)%nat -> (N <= k)%nat -> forall s, rd e 0 (script ts) s ->
    exists s', parse_all n k s = POk s' (imap (fun i t => compile (e_linno e + Z.of_nat i) t) ts).
Proof.
  induction ts as [|t ts IH]; intros e Hts He Hd.
  - destruct (ev_end e He) as [N H]. exists (S N). intros n k Hn Hk s Hs. destruct k as [|k]; [lia|].
    destruct (H n ltac:(lia) s Hs) as (s' & E & _). exists s'. cbn [parse_all]. unfold mbind, P_bind.
    change (parsecmd n false) with (parsecmd_with (procs_at n)). by rewrite E.
  - apply Forall_cons in Hts as [Ht Hts]. destruct (ev_line e t (script ts) Ht He) as [N1 H1].
    destruct (IH (next_env e) Hts He Hd) as [N2 H2]. exists (S (N1 + N2)). intros n k Hn Hk s Hs.
    destruct k as [|k]; [lia|]. destruct (H1 n ltac:(lia) s Hs) as (s1 & E1 & Hs1).
    destruct (H2 n k ltac:(lia) ltac:(lia) s1 Hs1) as (s2 & E2). exists s2. cbn [parse_all]. unfold mbind, P_bind.
    change (parsecmd n false) with (parsecmd_with (procs_at n)). rewrite E1.
    destruct (g_solid e t (all_good e t Ht)) as [_ Hne]. cbn [imap]. rewrite Z.add_0_r.
    assert (imap (fun i t => compile (e_linno (next_env e) + Z.of_nat i) t) ts =
      imap ((fun i t => compile (e_linno e + Z.of_nat i) t) ∘ S) ts) as E3.
    { apply imap_ext. intros i x _. cbn [e_linno next_env]. rewrite Hd. cbn. f_equal. lia. }
    rewrite E3 in E2. by destruct (compile (e_linno e) t); first [done|rewrite E2].
Qed.

(** Examples of text and tree. *)
Module Examples.
Definition w (s : string) : word := [WLit (lit s)].
Arguments w s%_string.
Definition cmd (s : string) : tree := Simple [] [w s] [].
Arguments cmd s%_string.

Definition cleanup : tree :=
  Fun (lit "cleanup") (For (lit "i") [w "one"; [WSq (lit "t w o")]]
    (Case [WVar (lit "i")]
      [Clause [w "one"; [WEsc "*"]] (Some (Simple [(lit "v", w "1")] [w "rm"; [WDq [DVar (lit "i"); DChar " "; DCmd (cmd "pwd")]]]
                                             [RFile (Some 2%nat) RAppend (w "log"); RDup None true (Some 2%nat)]));
       Clause [w "x"] None])).
Definition main : tree :=
  Seq (Bg (And (cmd "cleanup") (Not (Pipe (cmd "a") [Seq (cmd "b") (cmd "c")]))))
    (If (Or (cmd "t") (cmd "u")) (Redir (While (cmd "k") (cmd "z")) [RFile None RTo (w "out")])
       [(cmd "p", cmd "q")] (Some (Subshell (Until (cmd "d") (cmd "e")) []))).

(** The parser about to read [main]'s line from a string. *)
Definition at_main : pstate :=
  match setinputstring (line main ++ lit "rest") pstate_zero with POk s _ => s | _ => pstate_zero end.

Example main_text : line main = lit " cleanup && ! a | { b ; c ; } & if t || u ; then { while k ; do z ; done ; } > out ; elif p ; then q ; else ( until d ; do e ; done ; ) ; fi ;" ++ [NL].
Proof. reflexivity. Qed.

(** What the parser does with programs outside the grammar: the inner
    redirection of a subshell alone in a group is lost, and the pattern of a
    [case] clause may be missing. *)
Definition parsed (s : cstr) : option (list node) :=
  match parse_string 60 s with POk _ l => Some l | _ => None end.

Example inner_redirection_lost : parsed (lit "{ (a) >x; } >y") =
  Some [NSUBSHELL 0 (NCMD 0 [] [NARG (lit "a") []] []) [NFILE NTO 1 (Some (NARG (lit "y") []))]].
Proof. vm_compute. reflexivity. Qed.

Example case_without_pattern : parsed (lit "case in in ;) echo hit;; esac") =
  Some [NCASE 0 (NARG (lit "in") []) [NCLIST [NARG (lit "in") []] (NCMD 0 [] [NARG (lit "echo") []; NARG (lit "hit") []] [])]].
Proof. vm_compute. reflexivity. Qed.
End Examples.

(** C4. Parsing is inverse to printing, for every script of well-formed programs. *)
Theorem parse_script ts : Forall (fun t => wf t = true) ts ->
  exists N, forall n, (N <= n)%nat ->
    exists s, parse_string n (script ts) = POk s (imap (fun i t => compile (Z.of_nat i) t) ts).
Proof.
  intros Hts. set (e := mk_env 0 [basepf] ∅ 0 false 0 0).
  destruct (parse_all_lines ts e Hts eq_refl eq_refl) as [N H]. exists N. intros n Hn.
  assert (exists s0, setinputstring (script ts) pstate_zero = POk s0 tt /\ rd e 0 (script ts) s0) as (s0 & E0 & Hs0).
  { eexists. split; [reflexivity|]. split; [done|]. split; [|by left]. split; [done|done|]. left. split_and!; [done|done|by left]. }
  destruct (H n n Hn Hn s0 Hs0) as (s' & E). exists s'. unfold parse_string, mbind, P_bind. by rewrite E0.
Qed.

(** C5. [parsecmd] reads exactly one line of a string: from any state whose input
    is a string that starts with a program's line, the tree the program stands for
    is returned, what follows is left to read, and the line number moves on.
    [rd] says which states are meant: the current file is a string without a
    descriptor ([f_buf] false, no strings of [pushstring] on it, at most one
    character ungot), no token is pushed back and no here-document is pending, no
    prompt is due and no word flags are set; prompting is off.  The files below, the
    documents read before, the line numbers and the other variables are arbitrary. *)
Theorem parsecmd_line e t rest : wf t = true -> e_doprompt e = false ->
  exists N, forall n, (N <= n)%nat -> forall s, rd e 0 (line t ++ rest) s ->
    exists s', parsecmd n false s = POk s' (compile (e_linno e) t) /\ rd (next_env e) 0 rest s'.
Proof. intros Hwf He. exact (ev_line e t rest Hwf He). Qed.

Lemma parse_script_witness : Forall (fun t => wf t = true) [Examples.cleanup; Examples.main] /\
  exists N, forall n, (N <= n)%nat -> exists s,
    parse_string n (script [Examples.cleanup; Examples.main]) = POk s [compile 0 Examples.cleanup; compile 1 Examples.main].
Proof.
  assert (Forall (fun t => wf t = true) [Examples.cleanup; Examples.main]) as H by (repeat constructor).
  split; [exact H|exact (parse_script _ H)].
Defined.

Lemma parsecmd_line_witness :
  let e := mk_env 0 [basepf] ∅ 0 false 0 0 in
  wf Examples.main = true /\ rd e 0 (line Examples.main ++ lit "rest") Examples.at_main /\
  exists N, forall n, (N <= n)%nat ->
    exists s', parsecmd n false Examples.at_main = POk s' (compile 0 Examples.main) /\ rd (next_env e) 0 (lit "rest") s'.
Proof.
  intros e. assert (rd e 0 (line Examples.main ++ lit "rest") Examples.at_main) as H.
  { split; [done|]. split; [|by left]. split; [done|done|]. left. split_and!; [done|done|by left]. }
  split; [reflexivity|]. split; [exact H|].
  destruct (parsecmd_line e Examples.main (lit "rest") eq_refl eq_refl) as [N HN]. exists N. intros n Hn. by apply HN.
Defined.
