(* ===== verification/AshCopy.v ===== *)
(** * shell/ash.c: copying a function's body

    A parse tree lives on the shell's stack and dies with the command; a function
    keeps a copy of its tree in one block of the heap.  [calcsize] computes the
    block's size, [copyfunc] allocates it and [copynode] fills it: structures from
    the front ([funcblock]), strings from the back ([funcstring_end]), with no
    check that the two do not meet.

    The tree to copy is a [node]; the copy is made in a memory of cells, one cell
    per structure or string, at its address.  Sizes are those of wasm32. *)

From Stdlib Require Import Ascii String ZArith Lia.
From stdpp Require Import base gmap list option strings.
From S2P Require Import Prelude AshInput.

Local Open Scope Z_scope.

(** ** Memory *)

(** What [copynode] writes, by structure; pointers are addresses, 0 is NULL. *)
Inductive nredirtype := T_NREDIR | T_NBACKGND | T_NSUBSHELL.
Inductive nbinarytype := T_NAND | T_NOR | T_NSEMI | T_NWHILE | T_NUNTIL.

Inductive cell :=
  | C_ncmd (linno assign args redirect : Z)
  | C_npipe (pipe_backgnd : bool) (cmdlist : Z)
  | C_nredir (type : nredirtype) (linno n redirect : Z)
  | C_nbinary (type : nbinarytype) (ch1 ch2 : Z)
  | C_nif (test ifpart elsepart : Z)
  | C_nfor (linno args body var : Z)
  | C_ncase (linno expr cases : Z)
  | C_nclist (next pattern body : Z)
  | C_ndefun (linno text body : Z)
  | C_narg (next text backquote : Z)
  | C_nfile (type : ftype) (next fd fname : Z)
  | C_ndup (type : dtype) (next fd dupfd vname : Z)
  | C_nhere (expand : bool) (next fd doc : Z)
  | C_nnot (com : Z)
  | C_nodelist (next n : Z)
  | C_string (s : cstr).

Definition SHELL_ALIGN (nbytes : Z) : Z := Z.land (nbytes + 7) (Z.lnot 7).

(** [sizeof] of the structure a cell holds: ints and pointers of 4 bytes ([smallint]
    is int on wasm32). *)
Definition sizeof (c : cell) : Z :=
  match c with
  | C_ncmd _ _ _ _ => 20
  | C_npipe _ _ => 12
  | C_nredir _ _ _ _ => 16
  | C_nbinary _ _ _ => 12
  | C_nif _ _ _ => 16
  | C_nfor _ _ _ _ => 20
  | C_ncase _ _ _ => 16
  | C_nclist _ _ _ => 16
  | C_ndefun _ _ _ => 16
  | C_narg _ _ _ => 16
  | C_nfile _ _ _ _ => 24
  | C_ndup _ _ _ _ _ => 24
  | C_nhere _ _ _ _ => 16
  | C_nnot _ => 8
  | C_nodelist _ _ => 8
  | C_string s => Z.of_nat (length s) + 1
  end.

(** [nodesize[type]], the structure given by its name. *)
Inductive ntype :=
  | S_ncmd | S_npipe | S_nredir | S_nbinary | S_nif | S_nfor | S_ncase | S_nclist
  | S_ndefun | S_narg | S_nfile | S_ndup | S_nhere | S_nnot.

Definition nodesize (t : ntype) : Z :=
  SHELL_ALIGN
    match t with
    | S_ncmd | S_nfor => 20
    | S_nnot => 8
    | S_nredir | S_nif | S_ncase | S_nclist | S_ndefun | S_narg | S_nhere => 16
    | S_npipe | S_nbinary => 12
    | S_nfile | S_ndup => 24
    end.

Definition strsize (s : cstr) : Z := SHELL_ALIGN (Z.of_nat (length s) + 1).
Definition nodelistsize : Z := SHELL_ALIGN 8.

(** The node of a here document, as it stands in [docs]. *)
Definition doc_of (docs : gmap nat hdoc) (here : nat) : hdoc := default (mk_hdoc false None) (docs !! here).

(** ** calcsize *)

(** [funcblocksize += nbytes], an int; [None]: it overflows, which C leaves
    undefined. *)
Definition grow (funcblocksize nbytes : Z) : option Z :=
  if funcblocksize + nbytes <? 2 ^ 31 then Some (funcblocksize + nbytes) else None.

Section Calcsize.
Context (calcsize_doc : nat -> Z -> option Z).

(** The functions run over a chain of nodes from its head; [next] does what is
  left to do for [n->next], and [calcsize_doc here] is [calcsize] on the text
  of a here document.  [None]: NODE_EOF would be dereferenced, or the sum is too
  large. *)
Fixpoint calcsize (funcblocksize : Z) (n : node) {struct n} : option Z :=
match n with
| Null => Some funcblocksize
| NODE_EOF => None
| NCMD _ assign args redirect =>
    k ← grow funcblocksize (nodesize S_ncmd);
    k ← foldr calcsize_redir Some redirect k;
    k ← foldr calcsize_arg Some args k;
    foldr calcsize_arg Some assign k
| NPIPE _ cmdlist =>
    k ← grow funcblocksize (nodesize S_npipe);
    foldr (fun n next k => k ← grow k nodelistsize; k ← calcsize k n; next k) Some cmdlist k
| NREDIR _ n redirect | NBACKGND _ n redirect | NSUBSHELL _ n redirect =>
    k ← grow funcblocksize (nodesize S_nredir);
    k ← foldr calcsize_redir Some redirect k;
    calcsize k n
| NAND ch1 ch2 | NOR ch1 ch2 | NSEMI ch1 ch2 | NWHILE ch1 ch2 | NUNTIL ch1 ch2 =>
    k ← grow funcblocksize (nodesize S_nbinary);
    k ← calcsize k ch2;
    calcsize k ch1
| NIF test ifpart elsepart =>
    k ← grow funcblocksize (nodesize S_nif);
    k ← calcsize k elsepart;
    k ← calcsize k ifpart;
    calcsize k test
| NFOR _ args body var =>
    k ← grow funcblocksize (nodesize S_nfor);
    k ← grow k (strsize var);
    k ← calcsize k body;
    foldr calcsize_arg Some args k
| NCASE _ expr cases =>
    k ← grow funcblocksize (nodesize S_ncase);
    k ← foldr calcsize_clist Some cases k;
    calcsize_arg expr Some k
| NDEFUN _ text body =>
    k ← grow funcblocksize (nodesize S_ndefun);
    k ← calcsize k body;
    grow k (strsize text)
| NNOT com => k ← grow funcblocksize (nodesize S_nnot); calcsize k com
end
with calcsize_arg (a : arg) (next : Z -> option Z) (funcblocksize : Z) {struct a} : option Z :=
match a with
| NARG text backquote =>
    k ← grow funcblocksize (nodesize S_narg);
    k ← foldr (fun n next k => k ← grow k nodelistsize; k ← calcsize k n; next k) Some backquote k;
    k ← grow k (strsize text);
    next k
end
with calcsize_redir (r : redir) (next : Z -> option Z) (funcblocksize : Z) {struct r} : option Z :=
match r with
| NFILE _ _ fname =>
    k ← grow funcblocksize (nodesize S_nfile);
    k ← match fname with None => Some k | Some a => calcsize_arg a Some k end;
    next k
| NDUP _ _ _ vname =>
    k ← grow funcblocksize (nodesize S_ndup);
    k ← match vname with None => Some k | Some a => calcsize_arg a Some k end;
    next k
| NHERE_AT _ here => k ← grow funcblocksize (nodesize S_nhere); k ← calcsize_doc here k; next k
end
with calcsize_clist (c : nclist) (next : Z -> option Z) (funcblocksize : Z) {struct c} : option Z :=
match c with
| NCLIST pattern body =>
    k ← grow funcblocksize (nodesize S_nclist);
    k ← calcsize k body;
    k ← foldr calcsize_arg Some pattern k;
    next k
end.

End Calcsize.

Section Copynode.
Context (docs : gmap nat hdoc).

(** Here documents contain commands that contain here documents: [depth] levels. *)
Fixpoint calcsize_doc (depth : nat) (here : nat) (funcblocksize : Z) : option Z :=
match depth, h_doc (doc_of docs here) with
| O, _ => None
| S depth, None => Some funcblocksize
| S depth, Some a => calcsize_arg (calcsize_doc depth) a Some funcblocksize
end.

(** ** copynode *)

(** [funcblock], [funcstring_end] and the heap. *)
Record fstate := mk_f { funcblock : Z; funcstring_end : Z; fmem : gmap Z cell }.

Definition copier (A : Type) : Type := fstate -> option (A * fstate).
Definition cret {A} (a : A) : copier A := fun s => Some (a, s).
Definition cbind {A B} (f : copier A) (g : A -> copier B) : copier B :=
fun s => match f s with Some (a, s') => g a s' | None => None end.
Local Notation "x <- f ;; g" := (cbind f (fun x => g)) (at level 100, f at next level, right associativity).

Definition nodeckstrdup (t : cstr) : copier Z := fun s =>
let e := funcstring_end s - strsize t in
Some (e, mk_f (funcblock s) e (<[e := C_string t]> (fmem s))).

(** [new = funcblock; funcblock += size; ... fields of *new ...; return new]. *)
Definition new_cell (size : Z) (fields : copier cell) : copier Z := fun s =>
let new := funcblock s in
match fields (mk_f (new + size) (funcstring_end s) (fmem s)) with
| Some (c, s') => Some (new, mk_f (funcblock s') (funcstring_end s') (<[new := c]> (fmem s')))
| None => None
end.

Definition new_node (t : ntype) : copier cell -> copier Z := new_cell (nodesize t).

Section Nodes.
Context (copydoc : nat -> copier Z).

Fixpoint copynode (n : node) {struct n} : copier Z :=
match n with
| Null => cret 0
| NODE_EOF => fun _ => None
| NCMD linno assign args redirect =>
  new_node S_ncmd
    (r <- foldr copynode_redir (cret 0) redirect;;
     a <- foldr copynode_arg (cret 0) args;;
     v <- foldr copynode_arg (cret 0) assign;;
     cret (C_ncmd linno v a r))
| NPIPE pipe_backgnd cmdlist =>
  new_node S_npipe
    (l <- foldr (fun n next => new_cell nodelistsize (p <- copynode n;; q <- next;; cret (C_nodelist q p)))
            (cret 0) cmdlist;;
     cret (C_npipe pipe_backgnd l))
| NREDIR linno n redirect =>
  new_node S_nredir
    (r <- foldr copynode_redir (cret 0) redirect;; p <- copynode n;; cret (C_nredir T_NREDIR linno p r))
| NBACKGND linno n redirect =>
  new_node S_nredir
    (r <- foldr copynode_redir (cret 0) redirect;; p <- copynode n;; cret (C_nredir T_NBACKGND linno p r))
| NSUBSHELL linno n redirect =>
  new_node S_nredir
    (r <- foldr copynode_redir (cret 0) redirect;; p <- copynode n;; cret (C_nredir T_NSUBSHELL linno p r))
| NAND ch1 ch2 => new_node S_nbinary (q <- copynode ch2;; p <- copynode ch1;; cret (C_nbinary T_NAND p q))
| NOR ch1 ch2 => new_node S_nbinary (q <- copynode ch2;; p <- copynode ch1;; cret (C_nbinary T_NOR p q))
| NSEMI ch1 ch2 => new_node S_nbinary (q <- copynode ch2;; p <- copynode ch1;; cret (C_nbinary T_NSEMI p q))
| NWHILE ch1 ch2 => new_node S_nbinary (q <- copynode ch2;; p <- copynode ch1;; cret (C_nbinary T_NWHILE p q))
| NUNTIL ch1 ch2 => new_node S_nbinary (q <- copynode ch2;; p <- copynode ch1;; cret (C_nbinary T_NUNTIL p q))
| NIF test ifpart elsepart =>
  new_node S_nif
    (e <- copynode elsepart;; i <- copynode ifpart;; t <- copynode test;; cret (C_nif t i e))
| NFOR linno args body var =>
  new_node S_nfor
    (v <- nodeckstrdup var;; b <- copynode body;; a <- foldr copynode_arg (cret 0) args;;
     cret (C_nfor linno a b v))
| NCASE linno expr cases =>
  new_node S_ncase
    (c <- foldr copynode_clist (cret 0) cases;; e <- copynode_arg expr (cret 0);; cret (C_ncase linno e c))
| NDEFUN linno text body =>
  new_node S_ndefun (b <- copynode body;; t <- nodeckstrdup text;; cret (C_ndefun linno t b))
| NNOT com => new_node S_nnot (p <- copynode com;; cret (C_nnot p))
end
with copynode_arg (a : arg) (next : copier Z) {struct a} : copier Z :=
match a with
| NARG text backquote =>
  new_node S_narg
    (b <- foldr (fun n next => new_cell nodelistsize (p <- copynode n;; q <- next;; cret (C_nodelist q p)))
            (cret 0) backquote;;
     t <- nodeckstrdup text;;
     x <- next;;
     cret (C_narg x t b))
end
with copynode_redir (r : redir) (next : copier Z) {struct r} : copier Z :=
match r with
| NFILE type fd fname =>
  new_node S_nfile
    (f <- match fname with None => cret 0 | Some a => copynode_arg a (cret 0) end;;
     x <- next;;
     cret (C_nfile type x fd f))
| NDUP type fd dupfd vname =>
  new_node S_ndup
    (v <- match vname with None => cret 0 | Some a => copynode_arg a (cret 0) end;;
     x <- next;;
     cret (C_ndup type x fd dupfd v))
| NHERE_AT fd here =>
  new_node S_nhere
    (d <- copydoc here;;
     x <- next;;
     cret (C_nhere (h_expand (doc_of docs here)) x fd d))
end
with copynode_clist (c : nclist) (next : copier Z) {struct c} : copier Z :=
match c with
| NCLIST pattern body =>
  new_node S_nclist
    (b <- copynode body;;
     p <- foldr copynode_arg (cret 0) pattern;;
     x <- next;;
     cret (C_nclist x p b))
end.

End Nodes.

Fixpoint copydoc (depth : nat) (here : nat) : copier Z :=
match depth, h_doc (doc_of docs here) with
| O, _ => fun _ => None
| S depth, None => cret 0
| S depth, Some a => copynode_arg (copydoc depth) a (cret 0)
end.

End Copynode.

(** [struct funcnode]: [count], then the tree.  [ckzalloc] is a parameter: where
    the new block of the given size is. *)
Definition offsetof_n : Z := 4.

Definition copyfunc (docs : gmap nat hdoc) (depth : nat) (ckzalloc : Z -> Z) (m : gmap Z cell) (n : node)
    : option (Z * fstate) :=
  match calcsize (calcsize_doc docs depth) 0 n with
  | None => None
  | Some size =>
      let blocksize := offsetof_n + size in
      let f := ckzalloc blocksize in
      match copynode docs (copydoc docs depth) n (mk_f (f + offsetof_n) (f + blocksize) m) with
      | Some (_, s) => Some (f, s)
      | None => None
      end
  end.

(** ** What a tree in memory is *)

Section Rep.
Context (docs : gmap nat hdoc) (m : gmap Z cell).

Definition cell_at (p : Z) (c : cell) : Prop := p <> 0 /\ m !! p = Some c.

(** [lp] is the list of nodes [l]. *)
Definition rep_nodelist {A} (rep : A -> Z -> Prop) (l : list A) (lp : Z) : Prop :=
foldr (fun n next p => exists q x, cell_at p (C_nodelist q x) /\ rep n x /\ next q) (eq 0) l lp.

Section RepNodes.
Context (rep_doc : nat -> Z -> Prop).

(** [p] points to the tree [n]. *)
Fixpoint rep_node (n : node) (p : Z) {struct n} : Prop :=
match n with
| Null => 0 = p
| NODE_EOF => False
| NCMD linno assign args redirect =>
  exists v a r, cell_at p (C_ncmd linno v a r) /\ foldr rep_redir (eq 0) redirect r /\
    foldr rep_arg (eq 0) args a /\ foldr rep_arg (eq 0) assign v
| NPIPE bg cmdlist => exists l, cell_at p (C_npipe bg l) /\ rep_nodelist rep_node cmdlist l
| NREDIR linno n redirect =>
  exists x r, cell_at p (C_nredir T_NREDIR linno x r) /\ foldr rep_redir (eq 0) redirect r /\ rep_node n x
| NBACKGND linno n redirect =>
  exists x r, cell_at p (C_nredir T_NBACKGND linno x r) /\ foldr rep_redir (eq 0) redirect r /\ rep_node n x
| NSUBSHELL linno n redirect =>
  exists x r, cell_at p (C_nredir T_NSUBSHELL linno x r) /\ foldr rep_redir (eq 0) redirect r /\ rep_node n x
| NAND ch1 ch2 => exists x y, cell_at p (C_nbinary T_NAND x y) /\ rep_node ch2 y /\ rep_node ch1 x
| NOR ch1 ch2 => exists x y, cell_at p (C_nbinary T_NOR x y) /\ rep_node ch2 y /\ rep_node ch1 x
| NSEMI ch1 ch2 => exists x y, cell_at p (C_nbinary T_NSEMI x y) /\ rep_node ch2 y /\ rep_node ch1 x
| NWHILE ch1 ch2 => exists x y, cell_at p (C_nbinary T_NWHILE x y) /\ rep_node ch2 y /\ rep_node ch1 x
| NUNTIL ch1 ch2 => exists x y, cell_at p (C_nbinary T_NUNTIL x y) /\ rep_node ch2 y /\ rep_node ch1 x
| NIF test ifpart elsepart =>
  exists t i e, cell_at p (C_nif t i e) /\ rep_node elsepart e /\ rep_node ifpart i /\ rep_node test t
| NFOR linno args body var =>
  exists a b v, cell_at p (C_nfor linno a b v) /\ cell_at v (C_string var) /\ rep_node body b /\
    foldr rep_arg (eq 0) args a
| NCASE linno expr cases =>
  exists e c, cell_at p (C_ncase linno e c) /\ foldr rep_clist (eq 0) cases c /\ rep_arg expr (eq 0) e
| NDEFUN linno text body =>
  exists t b, cell_at p (C_ndefun linno t b) /\ rep_node body b /\ cell_at t (C_string text)
| NNOT com => exists x, cell_at p (C_nnot x) /\ rep_node com x
end
with rep_arg (a : arg) (next : Z -> Prop) (p : Z) {struct a} : Prop :=
match a with
| NARG text backquote =>
  exists x t b, cell_at p (C_narg x t b) /\ rep_nodelist rep_node backquote b /\
    cell_at t (C_string text) /\ next x
end
with rep_redir (r : redir) (next : Z -> Prop) (p : Z) {struct r} : Prop :=
match r with
| NFILE type fd fname =>
  exists x f, cell_at p (C_nfile type x fd f) /\
    match fname with None => 0 = f | Some a => rep_arg a (eq 0) f end /\ next x
| NDUP type fd dupfd vname =>
  exists x v, cell_at p (C_ndup type x fd dupfd v) /\
    match vname with None => 0 = v | Some a => rep_arg a (eq 0) v end /\ next x
| NHERE_AT fd here =>
  exists x d, cell_at p (C_nhere (h_expand (doc_of docs here)) x fd d) /\ rep_doc here d /\ next x
end
with rep_clist (c : nclist) (next : Z -> Prop) (p : Z) {struct c} : Prop :=
match c with
| NCLIST pattern body =>
  exists x y b, cell_at p (C_nclist x y b) /\ rep_node body b /\ foldr rep_arg (eq 0) pattern y /\ next x
end.
End RepNodes.

Fixpoint rep_doc (depth : nat) (here : nat) (p : Z) : Prop :=
match depth, h_doc (doc_of docs here) with
| O, _ => False
| S depth, None => 0 = p
| S depth, Some a => rep_arg (rep_doc depth) a (eq 0) p
end.
End Rep.

(** ** The copy fits its block *)

Lemma SHELL_ALIGN_spec n : n <= SHELL_ALIGN n < n + 8 /\ (4 | SHELL_ALIGN n).
Proof.
  assert (SHELL_ALIGN n = 8 * ((n + 7) / 8)) as ->.
  { unfold SHELL_ALIGN. change (Z.lnot 7) with (Z.lnot (Z.ones 3)).
    rewrite <- Z.ldiff_land, Z.ldiff_ones_r by lia.
    rewrite Z.shiftl_mul_pow2, Z.shiftr_div_pow2 by lia. change (2 ^ 3) with 8. lia. }
  split; [|exists (2 * ((n + 7) / 8)); lia].
  pose proof (Z.div_mod (n + 7) 8 ltac:(lia)). pose proof (Z.mod_pos_bound (n + 7) 8 ltac:(lia)). lia.
Qed.

Lemma sizeof_pos c : 0 < sizeof c.
Proof. destruct c; simpl; lia. Qed.

(** No cell of the memory lies in the part of the block that is still unused, and
    no two cells overlap. *)
Definition unused (lo hi : Z) (m : gmap Z cell) : Prop :=
  forall q c, m !! q = Some c -> q + sizeof c <= lo \/ hi <= q.

Definition apart (m : gmap Z cell) : Prop :=
  forall p q c d, m !! p = Some c -> m !! q = Some d -> p = q \/ p + sizeof c <= q \/ q + sizeof d <= p.

Definition fstate_ok (s : fstate) : Prop :=
  0 < funcblock s /\ (4 | funcblock s) /\ (4 | funcstring_end s) /\
  unused (funcblock s) (funcstring_end s) (fmem s) /\ apart (fmem s).

(** What changed from [s] to [s']: [k] bytes were used, and the new cells are
    aligned and inside the bytes used. *)
Definition used (k : Z) (s s' : fstate) : Prop :=
  funcblock s <= funcblock s' /\ funcstring_end s' <= funcstring_end s /\
  funcstring_end s' - funcblock s' = funcstring_end s - funcblock s - k /\
  fmem s ⊆ fmem s' /\
  forall q c, fmem s' !! q = Some c ->
    fmem s !! q = Some c \/
    (4 | q) /\ (funcblock s <= q /\ q + sizeof c <= funcblock s' \/
                funcstring_end s' <= q /\ q + sizeof c <= funcstring_end s).

(** [f], given [k] bytes, uses them all and delivers something that satisfies [Q]
    from then on. *)
Definition runs {A} (f : copier A) (k : Z) (Q : gmap Z cell -> A -> Prop) : Prop :=
  forall s, fstate_ok s -> funcblock s + k <= funcstring_end s ->
  exists a s', f s = Some (a, s') /\ fstate_ok s' /\ used k s s' /\ forall m, fmem s' ⊆ m -> Q m a.

Definition fits (size : Z -> option Z) (f : copier Z) (rep : gmap Z cell -> Z -> Prop) : Prop :=
  forall k k', size k = Some k' -> runs f (k' - k) rep.

Lemma runs_mono {A} (f : copier A) k k' (Q Q' : gmap Z cell -> A -> Prop) :
  runs f k Q -> k = k' -> (forall m a, Q m a -> Q' m a) -> runs f k' Q'.
Proof.
  intros Hf <- HQ s Hok Hk. destruct (Hf s Hok Hk) as (a & s' & ? & ? & ? & ?). eauto 10.
Qed.

Lemma runs_ret {A} (a : A) : runs (cret a) 0 (fun _ b => b = a).
Proof.
  intros s Hok Hk. exists a, s. split; [done|split; [done|split; [|done]]].
  split; [lia|split; [lia|split; [lia|split; [done|tauto]]]].
Qed.

(** [f] returns: some state has room enough. *)
Lemma runs_result {A} (f : copier A) k Q : runs f k Q -> exists a : A, 0 <= k /\ (4 | k).
Proof.
  intros Hf.
  destruct (Hf (mk_f 4 (4 * Z.abs k + 4) ∅)) as (a & s' & ? & (? & [x Hx] & [y Hy] & ?) & (H1 & H2 & H3 & ?) & ?);
    simpl in *.
  - split; [simpl; lia|]. split; [by exists 1|]. split; [exists (Z.abs k + 1); simpl; lia|].
    split; intros ? **; simplify_map_eq.
  - lia.
  - exists a. split; [lia|]. exists (Z.abs k + x - y). lia.
Qed.

Lemma runs_nonneg {A} (f : copier A) k Q : runs f k Q -> 0 <= k.
Proof. intros Hf. by destruct (runs_result f k Q Hf) as (_ & ? & _). Qed.

Lemma runs_bind {A B} (f : copier A) (g : A -> copier B) k1 k2 k Q1 Q2 :
  runs f k1 Q1 -> (forall a, runs (g a) k2 (Q2 a)) -> k = k1 + k2 ->
  runs (cbind f g) k (fun m b => exists a, Q1 m a /\ Q2 a m b).
Proof.
  intros Hf Hg -> s Hok Hk. destruct (runs_result _ _ _ Hf) as [a0 _].
  pose proof (runs_nonneg _ _ _ (Hg a0)) as Hk2.
  destruct (Hf s Hok) as (a & s1 & E1 & Hok1 & (Ha1 & Ha2 & Ha3 & Ha4 & Ha5) & HQ1); [lia|].
  destruct (Hg a s1 Hok1) as (b & s2 & E2 & Hok2 & (Hb1 & Hb2 & Hb3 & Hb4 & Hb5) & HQ2); [lia|].
  exists b, s2. unfold cbind. rewrite E1. split; [done|]. split; [done|]. split.
  - split; [lia|split; [lia|split; [lia|split; [by etrans|]]]].
    intros q c Hq. destruct (Hb5 q c Hq) as [Hq'|[Hal Hq']].
    + destruct (Ha5 q c Hq') as [?|[? [?|?]]]; [by left|right..]; (split; [done|]); [left|right]; lia.
    + right. split; [done|]. destruct Hq' as [?|?]; [left|right]; lia.
  - intros m Hm. exists a. split; [apply HQ1; by etrans|by apply HQ2].
Qed.

Lemma runs_strdup t : runs (nodeckstrdup t) (strsize t) (fun m v => cell_at m v (C_string t)).
Proof.
  intros s (Hpos & Hfb & Hfe & Hun & Hap) Hk.
  unfold strsize in *. destruct (SHELL_ALIGN_spec (Z.of_nat (length t) + 1)) as [Hsz Hal].
  unfold nodeckstrdup, strsize. set (sz := SHELL_ALIGN _) in *. set (e := funcstring_end s - sz).
  assert (fmem s !! e = None) as Hnew.
  { destruct (fmem s !! e) as [c|] eqn:E; [|done]. pose proof (Hun _ _ E). pose proof (sizeof_pos c). lia. }
  eexists _, _. split; [done|]. split; [|split].
  - split; [done|]. split; [done|]. simpl. split; [by apply Z.divide_sub_r|]. split.
    + intros q c. rewrite lookup_insert_Some. intros [[<- <-]|[_ Hq]]; [lia|].
      destruct (Hun q c Hq); lia.
    + intros p q c d. rewrite !lookup_insert_Some.
      intros [[<- <-]|[Hp1 Hp]] [[<- <-]|[Hq1 Hq]]; simpl; [by left| | |by eapply Hap].
      * destruct (Hun q d Hq); lia.
      * destruct (Hun p c Hp); lia.
  - split; [simpl; lia|split; [simpl; lia|split; [simpl; lia|split; [by apply insert_subseteq|]]]].
    simpl. intros q c. rewrite lookup_insert_Some. intros [[<- <-]|[_ Hq]]; [right|by left].
    split; [by apply Z.divide_sub_r|]. simpl. lia.
  - simpl. intros m Hm. split; [lia|]. by apply (lookup_weaken _ _ _ _ (lookup_insert_eq _ _ _) Hm).
Qed.

(** A structure with the fields [fields] computes. *)
Lemma runs_new_cell size fields k Q :
  (4 | size) -> runs fields k Q -> (forall m c, Q m c -> sizeof c <= size) -> 0 <= size ->
  runs (new_cell size fields) (size + k) (fun m p => exists c, cell_at m p c /\ Q m c).
Proof.
  intros Hdiv Hf Hsz Hsz0 s (Hpos & Hfb & Hfe & Hun & Hap) Hk.
  pose proof (runs_nonneg _ _ _ Hf) as Hk0.
  destruct (Hf (mk_f (funcblock s + size) (funcstring_end s) (fmem s)))
    as (c & s' & E & (Hpos' & Hfb' & Hfe' & Hun' & Hap') & (H1 & H2 & H3 & H4 & H5) & HQ);
    simpl in *; [|lia|].
  { split; [simpl; lia|]. split; [by apply Z.divide_add_r|]. split; [done|]. split; [|done].
    intros q c Hq. destruct (Hun q c Hq); simpl; lia. }
  pose proof (Hsz _ _ (HQ _ (reflexivity _))) as Hc.
  assert (forall q d, fmem s' !! q = Some d -> q + sizeof d <= funcblock s \/ funcblock s + size <= q) as Hres.
  { intros q d Hq. destruct (H5 q d Hq) as [Hq'|[_ Hq']]; [destruct (Hun q d Hq')|]; lia. }
  assert (fmem s' !! funcblock s = None) as Hnew.
  { destruct (fmem s' !! funcblock s) as [d|] eqn:Ed; [|done].
    pose proof (Hres _ _ Ed). pose proof (sizeof_pos d). pose proof (sizeof_pos c). lia. }
  unfold new_cell. rewrite E. eexists _, _. split; [done|]. split; [|split].
  - split; [done|]. split; [done|]. split; [done|]. simpl. split.
    + intros q d. rewrite lookup_insert_Some. intros [[<- <-]|[_ Hq]]; [lia|by apply Hun'].
    + intros p q d d'. rewrite !lookup_insert_Some.
      intros [[<- <-]|[Hp1 Hp]] [[<- <-]|[Hq1 Hq]]; [by left| | |by eapply Hap'].
      * destruct (Hres q d' Hq); lia.
      * destruct (Hres p d Hp); lia.
  - split; [simpl; lia|split; [simpl; lia|split; [simpl; lia|split]]].
    + simpl. etrans; [apply H4|by apply insert_subseteq].
    + simpl. intros q d. rewrite lookup_insert_Some. intros [[<- <-]|[_ Hq]].
      * right. split; [done|]. lia.
      * destruct (H5 q d Hq) as [?|[? Hq']]; [by left|right]. split; [done|]. lia.
  - simpl. intros m Hm. exists c. split.
    + split; [lia|]. by apply (lookup_weaken _ _ _ _ (lookup_insert_eq _ _ _) Hm).
    + apply HQ. etrans; [|apply Hm]. by apply insert_subseteq.
Qed.

(** ** Induction on trees *)

Definition all_of {A} {P : A -> Prop} (f : forall a, P a) : forall l, Forall P l :=
  fix go l := match l with [] => List.Forall_nil _ | a :: l => List.Forall_cons _ _ _ (f a) (go l) end.

Section NodeInd.
Context (P : node -> Prop) (Q : arg -> Prop) (R : redir -> Prop) (T : nclist -> Prop).
Hypothesis HNull : P Null.
Hypothesis HEOF : P NODE_EOF.
Hypothesis HCMD : forall l v a r, Forall Q v -> Forall Q a -> Forall R r -> P (NCMD l v a r).
Hypothesis HPIPE : forall b l, Forall P l -> P (NPIPE b l).
Hypothesis HREDIR : forall l n r, P n -> Forall R r -> P (NREDIR l n r).
Hypothesis HBACKGND : forall l n r, P n -> Forall R r -> P (NBACKGND l n r).
Hypothesis HSUBSHELL : forall l n r, P n -> Forall R r -> P (NSUBSHELL l n r).
Hypothesis HAND : forall x y, P x -> P y -> P (NAND x y).
Hypothesis HOR : forall x y, P x -> P y -> P (NOR x y).
Hypothesis HSEMI : forall x y, P x -> P y -> P (NSEMI x y).
Hypothesis HWHILE : forall x y, P x -> P y -> P (NWHILE x y).
Hypothesis HUNTIL : forall x y, P x -> P y -> P (NUNTIL x y).
Hypothesis HIF : forall t i e, P t -> P i -> P e -> P (NIF t i e).
Hypothesis HFOR : forall l a b v, Forall Q a -> P b -> P (NFOR l a b v).
Hypothesis HCASE : forall l e c, Q e -> Forall T c -> P (NCASE l e c).
Hypothesis HDEFUN : forall l t b, P b -> P (NDEFUN l t b).
Hypothesis HNOT : forall c, P c -> P (NNOT c).
Hypothesis HARG : forall t b, Forall P b -> Q (NARG t b).
Hypothesis HFILE : forall t fd f, match f with Some a => Q a | None => True end -> R (NFILE t fd f).
Hypothesis HDUP : forall t fd d v, match v with Some a => Q a | None => True end -> R (NDUP t fd d v).
Hypothesis HHERE : forall fd h, R (NHERE_AT fd h).
Hypothesis HCLIST : forall p b, Forall Q p -> P b -> T (NCLIST p b).

Fixpoint node_induction (n : node) : P n :=
match n with
| Null => HNull
| NODE_EOF => HEOF
| NCMD l v a r => HCMD l v a r (all_of arg_induction v) (all_of arg_induction a) (all_of redir_induction r)
| NPIPE b l => HPIPE b l (all_of node_induction l)
| NREDIR l n r => HREDIR l n r (node_induction n) (all_of redir_induction r)
| NBACKGND l n r => HBACKGND l n r (node_induction n) (all_of redir_induction r)
| NSUBSHELL l n r => HSUBSHELL l n r (node_induction n) (all_of redir_induction r)
| NAND x y => HAND x y (node_induction x) (node_induction y)
| NOR x y => HOR x y (node_induction x) (node_induction y)
| NSEMI x y => HSEMI x y (node_induction x) (node_induction y)
| NIF t i e => HIF t i e (node_induction t) (node_induction i) (node_induction e)
| NWHILE x y => HWHILE x y (node_induction x) (node_induction y)
| NUNTIL x y => HUNTIL x y (node_induction x) (node_induction y)
| NFOR l a b v => HFOR l a b v (all_of arg_induction a) (node_induction b)
| NCASE l e c => HCASE l e c (arg_induction e) (all_of nclist_induction c)
| NDEFUN l t b => HDEFUN l t b (node_induction b)
| NNOT c => HNOT c (node_induction c)
end
with arg_induction (a : arg) : Q a :=
match a with NARG t b => HARG t b (all_of node_induction b) end
with redir_induction (r : redir) : R r :=
match r with
| NFILE t fd f => HFILE t fd f (match f with Some a => arg_induction a | None => I end)
| NDUP t fd d v => HDUP t fd d v (match v with Some a => arg_induction a | None => I end)
| NHERE_AT fd h => HHERE fd h
end
with nclist_induction (c : nclist) : T c :=
match c with NCLIST p b => HCLIST p b (all_of arg_induction p) (node_induction b) end.
End NodeInd.

(** ** What the copy is *)

Lemma fits_none (rep : gmap Z cell -> Z -> Prop) f : fits (fun _ => None) f rep.
Proof. intros k k' [=]. Qed.

Lemma fits_null : fits Some (cret 0) (fun _ => eq 0).
Proof. intros k k' [= ->]. eapply runs_mono; [apply runs_ret|lia|by intros ? ? ->]. Qed.

Lemma fits_foldr {A} (fz : A -> (Z -> option Z) -> Z -> option Z) (fc : A -> copier Z -> copier Z)
    (fr : gmap Z cell -> A -> (Z -> Prop) -> Z -> Prop) l :
  Forall (fun a => forall z c r, fits z c r -> fits (fz a z) (fc a c) (fun m => fr m a (r m))) l ->
  fits (foldr fz Some l) (foldr fc (cret 0) l) (fun m => foldr (fr m) (eq 0) l).
Proof. induction 1 as [|a l Ha Hl IH]; [apply fits_null|by apply Ha]. Qed.

Lemma grow_Some k n k' : grow k n = Some k' -> k' = k + n.
Proof. unfold grow. destruct (_ <? _); [by intros [= <-]|done]. Qed.

(** Run the fields of a structure one after the other. *)
Ltac run_fields :=
  lazymatch goal with
  | |- runs (cbind _ _) _ _ =>
      eapply runs_bind; [first [eassumption|apply runs_strdup]|intros ?; run_fields|reflexivity]
  | |- runs (cret _) _ _ => eapply runs_ret
  end.

(** A structure whose parts are known to fit: split the size, run the parts. *)
Ltac run_struct :=
  eapply runs_mono;
  [eapply runs_new_cell;
   [apply SHELL_ALIGN_spec|run_fields|intros ? ? HQ; cbv beta in HQ; decompose [ex and] HQ; subst; vm_compute; discriminate
   |by vm_compute]
  |lia
  |intros ? ? HQ; cbv beta in HQ; decompose [ex and] HQ; subst; simpl; eauto 14].

Ltac split_size H :=
  repeat match type of H with
  | mbind _ ?o = Some _ => let E := fresh "E" in destruct o as [?k|] eqn:E; [simpl in H|discriminate H]
  end;
  repeat match goal with E : grow _ _ = Some _ |- _ => apply grow_Some in E end;
  simplify_eq/=.

Section CopyFits.
Context (docs : gmap nat hdoc) (cz : nat -> Z -> option Z) (cp : nat -> copier Z) (rp : gmap Z cell -> nat -> Z -> Prop).
Hypothesis Hdoc : forall here, fits (cz here) (cp here) (fun m => rp m here).

Let fits_node n := fits (fun k => calcsize cz k n) (copynode docs cp n) (fun m => rep_node docs m (rp m) n).
Let fits_arg a := forall z c r, fits z c r ->
fits (calcsize_arg cz a z) (copynode_arg docs cp a c) (fun m => rep_arg docs m (rp m) a (r m)).
Let fits_redir x := forall z c r, fits z c r ->
fits (calcsize_redir cz x z) (copynode_redir docs cp x c) (fun m => rep_redir docs m (rp m) x (r m)).
Let fits_clist x := forall z c r, fits z c r ->
fits (calcsize_clist cz x z) (copynode_clist docs cp x c) (fun m => rep_clist docs m (rp m) x (r m)).

Lemma fits_nodelist l :
Forall fits_node l ->
fits (foldr (fun n next k => k ← grow k nodelistsize; k ← calcsize cz k n; next k) Some l)
     (foldr (fun n next => new_cell nodelistsize
         (cbind (copynode docs cp n) (fun p => cbind next (fun q => cret (C_nodelist q p))))) (cret 0) l)
     (fun m => rep_nodelist m (rep_node docs m (rp m)) l).
Proof.
intros Hl. apply (fits_foldr _ _ (fun m n next p => exists q x, cell_at m p (C_nodelist q x) /\
  rep_node docs m (rp m) n x /\ next q)).
apply (Forall_impl _ _ _ Hl). intros n Hn z c r Hz k k' E. split_size E. apply Hn in E1. apply Hz in E.
run_struct.
Qed.

Lemma fits_args l : Forall fits_arg l ->
fits (foldr (calcsize_arg cz) Some l) (foldr (copynode_arg docs cp) (cret 0) l)
     (fun m => foldr (rep_arg docs m (rp m)) (eq 0) l).
Proof. exact (fits_foldr _ _ (fun m => rep_arg docs m (rp m)) l). Qed.

Lemma fits_redirs l : Forall fits_redir l ->
fits (foldr (calcsize_redir cz) Some l) (foldr (copynode_redir docs cp) (cret 0) l)
     (fun m => foldr (rep_redir docs m (rp m)) (eq 0) l).
Proof. exact (fits_foldr _ _ (fun m => rep_redir docs m (rp m)) l). Qed.

Lemma fits_clists l : Forall fits_clist l ->
fits (foldr (calcsize_clist cz) Some l) (foldr (copynode_clist docs cp) (cret 0) l)
     (fun m => foldr (rep_clist docs m (rp m)) (eq 0) l).
Proof. exact (fits_foldr _ _ (fun m => rep_clist docs m (rp m)) l). Qed.

Lemma fits_opt_arg o : match o with Some a => fits_arg a | None => True end ->
fits (fun k => match o with None => Some k | Some a => calcsize_arg cz a Some k end)
     (match o with None => cret 0 | Some a => copynode_arg docs cp a (cret 0) end)
     (fun m p => match o with None => 0 = p | Some a => rep_arg docs m (rp m) a (eq 0) p end).
Proof. destruct o as [a|]; intros H; [by apply H, fits_null|apply fits_null]. Qed.

(** The parts of a structure fit by the induction hypotheses. *)
Ltac parts_fit :=
repeat match goal with
| H : Forall fits_arg _ |- _ => apply fits_args in H
| H : Forall fits_redir _ |- _ => apply fits_redirs in H
| H : Forall fits_clist _ |- _ => apply fits_clists in H
| H : Forall fits_node _ |- _ => apply fits_nodelist in H
| H : match ?o with Some _ => fits_arg _ | None => True end |- _ => apply fits_opt_arg in H
| H : fits_arg _ |- _ => specialize (H _ _ _ fits_null)
end.

Ltac use_fits :=
repeat match goal with
| F : fits ?z _ _, E : ?t = Some _ |- _ => apply F in E
end.

Ltac copy_case :=
parts_fit; repeat match goal with F : fits_node _ |- _ => unfold fits_node in F end;
intros ? ? Hsize; simpl in Hsize; split_size Hsize; use_fits; run_struct.

Ltac parts_in := intros *; repeat match goal with |- ?A -> ?B => intro end.

Lemma fits_NARG t b : Forall fits_node b -> fits_arg (NARG t b).
Proof. intros H z c r Hz. copy_case. Qed.

Lemma copynode_fits n : fits_node n.
Proof.
apply (node_induction fits_node fits_arg fits_redir fits_clist); parts_in;
  try first [apply fits_null|apply fits_none|solve [copy_case]|by apply fits_NARG];
  intros z c0 r0 Hz; [| |pose proof (Hdoc h)|]; copy_case.
Qed.

Lemma copynode_arg_fits a : fits_arg a.
Proof.
destruct a as [t b]. apply fits_NARG, Forall_forall. intros n _. apply copynode_fits.
Qed.
End CopyFits.

Lemma copydoc_fits docs depth here :
  fits (calcsize_doc docs depth here) (copydoc docs depth here) (fun m => rep_doc docs m depth here).
Proof.
  revert here. induction depth as [|depth IH]; intros here; simpl; [apply fits_none|].
  destruct (h_doc (doc_of docs here)) as [a|]; [|apply fits_null].
  apply (copynode_arg_fits docs _ _ (fun m => rep_doc docs m depth)); [done|apply fits_null].
Qed.

Lemma copynode_at docs cp n s p s' :
  copynode docs cp n s = Some (p, s') -> n <> Null -> p = funcblock s.
Proof.
  intros E Hn.
  destruct n; try done; simpl in E; unfold new_node, new_cell in E;
    match type of E with match ?x with _ => _ end = _ => destruct x as [[? ?]|] end; by simplify_eq/=.
Qed.

(** C21. Copying a function's body, whose size is an int, uses the block [calcsize] asked for to the last
    byte: the structures and the strings meet, nothing is written outside the
    block, no two objects overlap and all are aligned, the rest of the heap keeps
    its contents, and the block holds a copy of the tree. *)
Theorem copyfunc_fits docs depth ckzalloc m n size :
  calcsize (calcsize_doc docs depth) 0 n = Some size ->
  let f := ckzalloc (offsetof_n + size) in
  0 < f -> (4 | f) -> apart m -> unused f (f + offsetof_n + size) m ->
  exists s, copyfunc docs depth ckzalloc m n = Some (f, s) /\
    funcblock s = funcstring_end s /\
    m ⊆ fmem s /\ apart (fmem s) /\
    (forall q c, fmem s !! q = Some c -> m !! q = Some c \/
       (4 | q) /\ f + offsetof_n <= q /\ q + sizeof c <= f + offsetof_n + size) /\
    exists p, (n <> Null -> p = f + offsetof_n) /\ rep_node docs (fmem s) (rep_doc docs (fmem s) depth) n p.
Proof.
  intros E f Hf Hal Hap Hun. unfold copyfunc. rewrite E. fold f.
  pose proof (copynode_fits docs _ _ _ (copydoc_fits docs depth) n 0 size E) as Hruns.
  destruct (runs_result _ _ _ Hruns) as (_ & Hsz & Hsz4). rewrite Z.sub_0_r in Hruns, Hsz, Hsz4.
  destruct (Hruns (mk_f (f + offsetof_n) (f + (offsetof_n + size)) m))
    as (p & s & Es & Hok & (H1 & H2 & H3 & H4 & H5) & HQ); simpl in *.
  - assert (4 | offsetof_n) by (by exists 1).
    split; [unfold offsetof_n; simpl; lia|]. split; [by apply Z.divide_add_r|].
    split; [by apply Z.divide_add_r, Z.divide_add_r|]. split; [|done].
    intros q c Hq. destruct (Hun q c Hq); simpl; unfold offsetof_n in *; lia.
  - lia.
  - rewrite Es. exists s. split; [done|]. split; [lia|]. split; [done|]. split; [apply Hok|]. split.
    + intros q c Hq. destruct (H5 q c Hq) as [?|[? ?]]; [by left|right]. split; [done|].
      pose proof (sizeof_pos c). lia.
    + exists p. split; [|by apply HQ]. intros Hn. by rewrite (copynode_at _ _ _ _ _ _ Es Hn).
Qed.

(** A function with a here document, a loop and a quoted word. *)
Definition example_fn : node :=
  NDEFUN 1 (lit "f")
    (NSEMI (NFOR 2 [NARG (lit "a b") []; NARG (lit "c") [NCMD 3 [] [NARG (lit "ls") []] []]] Null (lit "x"))
           (NCMD 4 [] [NARG (lit "cat") []] [NHERE_AT 0 0; NFILE NTO 1 (Some (NARG (lit "out") []))])).

Definition example_docs : gmap nat hdoc := {[0%nat := mk_hdoc true (Some (NARG (lit "hello") []))]}.

Lemma copyfunc_fits_witness :
  calcsize (calcsize_doc example_docs 1) 0 example_fn = Some 312 /\
  exists s, copyfunc example_docs 1 (fun _ => 65536) ∅ example_fn = Some (65536, s) /\
    funcblock s = funcstring_end s.
Proof.
  assert (calcsize (calcsize_doc example_docs 1) 0 example_fn = Some 312) as E by reflexivity.
  split; [exact E|].
  destruct (copyfunc_fits example_docs 1 (fun _ => 65536) ∅ example_fn 312 E) as (s & H1 & H2 & _).
  - reflexivity.
  - by exists 16384.
  - intros ? ? ? ? H. by rewrite lookup_empty in H.
  - intros ? ? H. by rewrite lookup_empty in H.
  - exists s. exact (conj H1 H2).
Defined.
