(* ===== verification/AshExpand.v ===== *)
(** * shell/ash.c: word expansion

    Tilde, parameter, command and arithmetic expansion ([argstr]), field
    splitting ([ifsbreakup]), quote removal ([rmescapes]), patterns and file name
    expansion ([expandmeta] with the internal glob), as configured: no bash
    extensions, no Unicode, no locale.

    The word under construction grows at the top of the shell's stack: [x_out] is
    the memory from [stackblock()] to [expdest], with the NULs written into it,
    and positions are offsets from its start.  The text being expanded is the
    suffix its pointer points to.  What the expander asks of the rest of the shell
    is the class [Shell]; running a substituted command, getpwnam, fnmatch and the
    directory functions are parameters. *)

From Stdlib Require Import Ascii String ZArith Lia.
From stdpp Require Import base gmap list option strings.
From S2P Require Import Prelude Clib LibbbStr ShMath AshInput AshLex AshParse AshBase.

Local Open Scope Z_scope.
Local Open Scope ash_scope.

(** ** Flags *)

Definition EXP_FULL : Z := 0x1.
Definition EXP_TILDE : Z := 0x2.
Definition EXP_VARTILDE : Z := 0x4.
Definition EXP_CASE : Z := 0x10.
Definition EXP_VARTILDE2 : Z := 0x20.
Definition EXP_WORD : Z := 0x40.
Definition EXP_QUOTED : Z := 0x100.
Definition EXP_KEEPNUL : Z := 0x200.
Definition EXP_DISCARD : Z := 0x400.
Definition QUOTES_ESC : Z := Z.lor EXP_FULL EXP_CASE.

Definition has (flags bits : Z) : bool := negb (Z.land flags bits =? 0).

(** ** The shell below *)

Class Shell (St : Type) := {
  shell_vars :: VarStore St;
  ifsvar : St -> option cstr;             (* ifsval(), if ifsset() *)
  optlist : St -> list Z;
  exitstatus : St -> Z;
  set_exitstatus : Z -> St -> St;
  set_back_exitstatus : Z -> St -> St;
  rootpid : St -> Z;
  backgndpid : St -> Z;
  shellparam : St -> list cstr;           (* shellparam.p *)
  arg0 : St -> cstr;
  arith_depth : St -> nat;                (* how deep variables name each other *)
}.

Record ifsregion := mk_region { begoff : nat; endoff : nat; nulonly : bool }.

(** The expander's globals over the shell's state: [ifsfirst] and its chain, up
    to [ifslastp], are a list. *)
Record xstate (St : Type) := mk_x {
  x_sh : St;
  x_out : cstr;
  x_argbackq : list node;
  x_ifs : list ifsregion;
}.
Arguments mk_x {St}.
Arguments x_sh {St}.
Arguments x_out {St}.
Arguments x_argbackq {St}.
Arguments x_ifs {St}.

Definition defifs : cstr := [SP; TAB; NL].

(** [strchr(l, c) != NULL]: the terminating NUL is found too. *)
Definition strchr_hit (l : cstr) (c : ascii) : bool := (c ≟ NUL) || existsb (Ascii.eqb c) l.

(** The C string at an offset of the stack. *)
Definition str_at (mem : cstr) (i : nat) : cstr := cstr_at (drop i mem).

(** ** rmescapes *)

(** [rmescapes(str, flag)] of AshParse; [glob] is RMESCAPE_GLOB.  A CTLESC that
    ends the string does not occur here. *)
Definition rmescapes (glob : bool) (str : cstr) : cstr := default [] (AshParse.rmescapes str glob).

Definition preglob (pattern : cstr) : cstr := rmescapes true pattern.

Definition qchar (c : ascii) : bool := (c ≟ CTLESC) || (c ≟ CTLQUOTEMARK).

(** [strpbrk(str, qchars)] *)
Definition has_qchar (str : cstr) : bool := existsb qchar str.

(** [esclen]: how many CTLESC stand right before offset [p], down to [start]. *)
Fixpoint esclen (mem : cstr) (start p : nat) : nat :=
  match p with
  | O => O
  | S q => if (start <=? q)%nat && (at0 mem q ≟ CTLESC) then S (esclen mem start q) else O
  end.

(** ** Field splitting *)

Section Ifs.
Context (string : cstr).

(** Behind a delimiter: the IFS characters that belong to it. *)
Fixpoint ifs_skip (fuel : nat) (ifs : cstr) (endoff p : nat) (ifsspc : bool) : nat * bool :=
match fuel with
| O => (p, ifsspc)
| S f =>
    if (endoff <=? p)%nat then (p, ifsspc)
    else
      let q := p in
      let p := if (at0 string p ≟ CTLESC) then S p else p in
      if negb (strchr_hit ifs (at0 string p)) then (q, ifsspc)
      else if negb (strchr_hit defifs (at0 string p)) then
        if ifsspc then ifs_skip f ifs endoff (S p) false else (q, ifsspc)
      else ifs_skip f ifs endoff (S p) ifsspc
end.

(** The text of the word from [start], cut off at [q]. *)
Definition piece (start q : nat) : cstr := cstr_at (take (q - start) (drop start string)).

(** One region: where the scan stands, where the current word starts, [ifsspc];
  the words found. *)
Fixpoint ifs_region (fuel : nat) (ifs : cstr) (afternul nulonly : bool) (endoff p start : nat) (ifsspc : bool)
  (acc : list cstr) : nat * list cstr :=
match fuel with
| O => (start, acc)
| S f =>
    if (endoff <=? p)%nat then (start, acc)
    else
      let q := p in
      let p := if (at0 string p ≟ CTLESC) then S p else p in
      if negb (strchr_hit ifs (at0 string p)) then
        ifs_region f ifs afternul nulonly endoff (S p) start ifsspc acc
      else
        let ifsspc := if negb (afternul || nulonly) then strchr_hit defifs (at0 string p) else ifsspc in
        if (q =? start)%nat && ifsspc then ifs_region f ifs afternul nulonly endoff (S p) (S p) ifsspc acc
        else
          let acc := acc ++ [piece start q] in
          let '(p, ifsspc) := if negb nulonly then ifs_skip f ifs endoff (S p) ifsspc else (S p, ifsspc) in
          ifs_region f ifs afternul nulonly endoff p p ifsspc acc
end.

Fixpoint ifs_regions (realifs : cstr) (l : list ifsregion) (nul : bool) (start : nat) (acc : list cstr)
  : bool * nat * list cstr :=
match l with
| [] => (nul, start, acc)
| r :: l =>
    let '(start, acc) :=
      ifs_region (S (endoff r - begoff r)) (if nulonly r then [] else realifs) nul (nulonly r)
        (endoff r) (begoff r) start false acc in
    ifs_regions realifs l (nulonly r) start acc
end.

(** The words [ifsbreakup] adds to the list. *)
Definition ifsbreakup (ifs : option cstr) (regions : list ifsregion) : list cstr :=
let '(nul, start, acc) := ifs_regions (default defifs ifs) regions false 0 [] in
if nul then acc ++ [str_at string start]
else if (at0 string start ≟ NUL) then acc else acc ++ [str_at string start].
End Ifs.

(** [recordregion], [removerecordregions] on the chain of regions. *)
Fixpoint keep_below (end_ : nat) (last : ifsregion) (l : list ifsregion) : list ifsregion :=
  match l with
  | r :: l' => if (begoff r <? end_)%nat then last :: keep_below end_ r l'
               else [if (end_ <? endoff last)%nat then mk_region (begoff last) end_ (nulonly last) else last]
  | [] => [if (end_ <? endoff last)%nat then mk_region (begoff last) end_ (nulonly last) else last]
  end.

Definition remove_regions (end_ : nat) (l : list ifsregion) : list ifsregion :=
  match l with
  | [] => []
  | first :: l =>
      if (end_ <? endoff first)%nat then
        if (end_ <? begoff first)%nat then [] else [mk_region (begoff first) end_ (nulonly first)]
      else keep_below end_ first l
  end.

(** ** The expander's computations *)

Section Expand.
Context {St : Type} `{Shell St}.
(** [osd_evalbackcmd_inproc]: what reading the captured output delivers, unless
  the capture file cannot be made, and the command's status. *)
Context (osd_evalbackcmd_inproc : node -> M St (option (list cstr) * Z)).
(** [getpwnam(name)->pw_dir]; [!fnmatch(pattern, string, 0)]. *)
Context (getpwnam : cstr -> option cstr) (fnmatch : cstr -> cstr -> bool).

Abbreviation X := (M (xstate St)).

Definition set_sh (s : St) (x : xstate St) : xstate St := mk_x s (x_out x) (x_argbackq x) (x_ifs x).
Definition set_out (o : cstr) (x : xstate St) : xstate St := mk_x (x_sh x) o (x_argbackq x) (x_ifs x).
Definition set_argbackq (l : list node) (x : xstate St) : xstate St := mk_x (x_sh x) (x_out x) l (x_ifs x).
Definition set_ifs (l : list ifsregion) (x : xstate St) : xstate St := mk_x (x_sh x) (x_out x) (x_argbackq x) l.

(** A computation of the shell below. *)
Definition on_sh {A} (m : M St A) : X A := fun x =>
match m (x_sh x) with
| Ok s a => Ok (set_sh s x) a
| Raise s e => Raise (set_sh s x) e
| Wild => Wild
end.

Definition here : X nat := get (fun x => length (x_out x)).    (* expdest - stackblock() *)
Definition emit (t : cstr) : X unit := modify (fun x => set_out (x_out x ++ t) x).
Definition cut_to (n : nat) : X unit := modify (fun x => set_out (take n (x_out x)) x).

Definition ifsfree : X unit := modify (set_ifs []).
Definition recordregion (start end_ : nat) (nul : bool) : X unit :=
modify (fun x => set_ifs (x_ifs x ++ [mk_region start end_ nul]) x).
Definition removerecordregions (end_ : nat) : X unit := modify (fun x => set_ifs (remove_regions end_ (x_ifs x)) x).

Definition ash_msg_and_raise_error {A} (msg : cstr) : X A :=
modify (fun x => set_sh (set_exitstatus 2 (x_sh x)) x) ;; raise (EXERROR msg).

Definition raise_error_syntax {A} (msg : cstr) : X A := ash_msg_and_raise_error (lit "syntax error: " ++ msg).

Definition x_lookupvar (name : cstr) : X (option cstr) := get (fun x => lookupvar (x_sh x) name).
Definition x_setvar0 (name val : cstr) : X unit := fun x =>
match setvar (x_sh x) name val with
| Some s => Ok (set_sh s x) tt
| None => ash_msg_and_raise_error (name ++ lit ": is read only") x
end.

Definition ash_arith (s : cstr) : X Z := fun x =>
match arith (arith_depth (x_sh x)) (x_sh x) s with
| AOk e z => Ok (set_sh e x) z
| AErr e msg => ash_msg_and_raise_error (lit msg) (set_sh e x)
| ARaise e name => ash_msg_and_raise_error (name ++ lit ": is read only") (set_sh e x)
| AFuel => Wild
end.

(** ** Output *)

Definition mem_char (flags : Z) (c : ascii) : cstr :=
if negb (c ≟ NUL) then
  (if has flags QUOTES_ESC then
     let n := SIT (Some c) (if has flags EXP_QUOTED then DQSYNTAX else BASESYNTAX) in
     if bool_decide (n = CCTL) || (has flags EXP_QUOTED && bool_decide (n = CBACK)) then [CTLESC] else []
   else []) ++ [c]
else if has flags EXP_KEEPNUL then [c] else [].

Definition memtodest (p : cstr) (flags : Z) : X nat :=
let q := concat (map (mem_char flags) p) in
emit q ;; ret (length q).

Definition strtodest (p : cstr) (flags : Z) : X nat :=
memtodest p flags ;; ret (length p).

Definition cvtnum (num flags : Z) : X nat := memtodest (fmt_d num) flags.

(** ** Tilde expansion *)

(** Where the name ends, the name; [None]: it is quoted. *)
Fixpoint tilde_name (vartilde : bool) (p : cstr) : option (cstr * cstr) :=
match p with
| [] => Some ([], [])
| c :: r =>
    if (c ≟ CTLESC) || (c ≟ CTLQUOTEMARK) then None
    else if ((c ≟ ":"%char) && vartilde) || (c ≟ "/"%char) || (c ≟ CTLENDVAR) then Some ([], p)
    else match tilde_name vartilde r with Some (n, q) => Some (c :: n, q) | None => None end
end.

(** [startp] points to the "~". *)
Definition exptilde (startp : cstr) (flag : Z) : X cstr :=
match tilde_name (has flag EXP_VARTILDE) (tl startp) with
| None => ret startp
| Some (name, p) =>
    if has flag EXP_DISCARD then ret p
    else
      let! home := match name with [] => x_lookupvar (lit "HOME") | _ => ret (getpwnam name) end in
      match home with
      | None => ret startp
      | Some home => strtodest home (Z.lor flag EXP_QUOTED) ;; ret p
      end
end.

(** ** Command substitution *)

Fixpoint stunput_nl (startloc : nat) (fuel : nat) (out : cstr) : cstr :=
match fuel with
| O => out
| S f =>
    if (startloc <? length out)%nat && (at0 out (length out - 1) ≟ NL)
    then stunput_nl startloc f (take (length out - 1) out) else out
end.

Definition expbackq (cmd : node) (flag : Z) : X unit :=
(if has flag EXP_DISCARD then ret tt
 else
   let! startloc := here in
   let! r := match cmd with
             | Null => ret None
             | _ =>
                 let! r := on_sh (osd_evalbackcmd_inproc cmd) in
                 match r with
                 | (Some reads, status) => ret (Some (reads, status))
                 | (None, _) => ret None
                 end
             end in
   match r with
   | None => ret tt
   | Some (reads, status) =>
       for_each (fun buf => memtodest buf flag ;; ret tt) reads ;;
       modify (fun x => set_sh (set_back_exitstatus status (x_sh x)) x)
   end ;;
   modify (fun x => set_out (stunput_nl startloc (length (x_out x)) (x_out x)) x) ;;
   let! dest := here in
   if has flag EXP_QUOTED then ret tt else recordregion startloc dest false) ;;
modify (fun x => set_argbackq (tl (x_argbackq x)) x).

(** ** Parameters *)

(** [%.*s] of the text from [var] to the "=" before [end_]. *)
Definition var_name (p : cstr) : cstr := take (length p - length (strchrnul p "="%char)) p.

Definition varunset {A} (end_ var : cstr) (umsg : option cstr) (varflags : Z) : X A :=
let '(msg, tail) :=
  match umsg with
  | None => (lit "parameter not set", [])
  | Some u =>
      if (hd0 end_ ≟ CTLENDVAR)
      then (lit "parameter not set", if has varflags VSNUL then lit " or null" else [])
      else (u, [])
  end in
ifsfree ;;
ash_msg_and_raise_error (take (length var - length end_ - 1) var ++ lit ": " ++ msg ++ tail).

Definition optletters : list ascii :=
["e"; "f"; "I"; "i"; "m"; "n"; "s"; "c"; "x"; "v"; "C"; "a"; "b"; "u"; "E"; NUL]%char.
Definition fflag (s : St) : Z := nth 1 (optlist s) 0.
Definition uflag (s : St) : Z := nth 13 (optlist s) 0.

(** The letters of [$-], from the last option to the first. *)
Definition optletters_on (opts : list Z) : cstr :=
rev (concat (zip_with (fun (v : Z) c => if negb (v =? 0) && negb (c ≟ NUL) then [c] else []) opts optletters)).

Fixpoint put_params (ap : list cstr) (sep : Z) (flags : Z) (len : nat) : X nat :=
match ap with
| [] => ret len
| p :: ap =>
    let! n := strtodest p flags in
    let len := (len + n)%nat in
    match ap with
    | [] => ret len
    | _ =>
        if sep =? 0 then put_params ap sep flags len
        else memtodest [chr sep] flags ;; put_params ap sep flags (S len)
    end
end.

(** The value of a parameter goes to the stack; its length, or -1 if it is not
  set.  [discard] takes it off the stack again. *)
Definition varvalue (name : cstr) (varflags flags quoted : Z) : X Z :=
let subtype := Z.land varflags VSTYPE in
let discard := (subtype =? VSPLUS) || (subtype =? VSLENGTH) || has flags EXP_DISCARD in
if subtype =? 0 then
  (if discard then ret (-1) else ifsfree ;; raise_error_syntax (lit "bad substitution"))
else
  let flags := Z.lor flags EXP_KEEPNUL in
  let flags := if discard then Z.land flags (Z.lnot QUOTES_ESC) else flags in
  let sep := Z.shiftl (Z.land flags EXP_FULL) 8 in
  let finish (len : nat) : X Z :=
    (if discard then modify (fun x => set_out (take (length (x_out x) - len) (x_out x)) x) else ret tt) ;;
    ret (Z.of_nat len) in
  let numvar num := let! n := cvtnum num flags in finish n in
  let param sep :=
    let! ap := get (fun x => shellparam (x_sh x)) in
    let! len := put_params ap sep flags 0 in finish len in
  let star :=
    let! ifs := get (fun x => ifsvar (x_sh x)) in
    let c := if Z.land (Z.lor quoted (Z.lnot sep)) EXP_QUOTED =? 0 then 0 else 255 in
    param (Z.lor (Z.land sep (Z.lnot quoted))
             (match ifs with Some i => Z.land c (uc (hd0 i)) | None => 32 end)) in
  let value (p : option cstr) :=
    match p with
    | None => ret (-1)
    | Some p => let! n := strtodest p flags in finish n
    end in
  let c := hd0 name in
  if (c ≟ "$"%char) then let! s := get x_sh in numvar (rootpid s)
  else if (c ≟ "?"%char) then let! s := get x_sh in numvar (exitstatus s)
  else if (c ≟ "#"%char) then let! s := get x_sh in numvar (Z.of_nat (length (shellparam s)))
  else if (c ≟ "!"%char) then
    let! s := get x_sh in if backgndpid s =? 0 then ret (-1) else numvar (backgndpid s)
  else if (c ≟ "-"%char) then
    let! s := get x_sh in
    let l := optletters_on (optlist s) in emit l ;; finish (length l)
  else if (c ≟ "@"%char) then
    (if negb (quoted =? 0) && negb (sep =? 0) then param sep else star)
  else if (c ≟ "*"%char) then star
  else if isdigit c then
    let! s := get x_sh in
    let num := wrapS 32 (st_val (strtol 10 name)) in
    if (num <? 0) || (Z.of_nat (length (shellparam s)) <? num) then ret (-1)
    else if num =? 0 then value (Some (arg0 s)) else value (shellparam s !! Z.to_nat (num - 1))
  else let! p := x_lookupvar (var_name name) in value p.

(** ** Trimming *)

(** [memmove] and stores at offsets. *)
Definition write_at (mem : cstr) (i : nat) (s : cstr) : cstr := take i mem ++ s ++ drop (i + length s) mem.
Definition set_at (mem : cstr) (i : nat) (c : ascii) : cstr := write_at mem i [c].

(** [pmatch(pattern, s)] where the character at [loc2] stands for the end if the
  match is at the start. *)
Definition scan_match (mem : cstr) (pattern rmesc loc2 : nat) (at_start : bool) : bool :=
let mem := if at_start then set_at mem loc2 NUL else mem in
fnmatch (str_at mem pattern) (str_at mem (if at_start then rmesc else loc2)).

Fixpoint scanleft (fuel : nat) (mem : cstr) (loc loc2 rmesc pattern : nat) (quotes zero : bool) : option nat :=
match fuel with
| O => None
| S f =>
    let c := at0 mem loc2 in
    if scan_match mem pattern rmesc loc2 zero then Some loc
    else
      let loc := if quotes && (at0 mem loc ≟ CTLESC) then S (S loc) else S loc in
      if (c ≟ NUL) then None else scanleft f mem loc (S loc2) rmesc pattern quotes zero
end.

Fixpoint trailing_backslashes (rev_pat : cstr) : nat :=
match rev_pat with c :: r => if (c ≟ "\"%char) then S (trailing_backslashes r) else O | [] => O end.

(** The pattern ends with an unescaped "*". *)
Definition ends_star (pat : cstr) : bool :=
match rev pat with
| c :: r => (c ≟ "*"%char) && negb (Nat.odd (trailing_backslashes r))
| [] => false
end.

(** [loc] is one more than the offset, so that 0 is "before the string". *)
Fixpoint scanright (fuel : nat) (mem : cstr) (startp : nat) (loc loc2 : nat) (esc : Z) (try2optimize : bool)
  (rmesc pattern : nat) (quotes at_start : bool) : option nat :=
match fuel, loc with
| O, _ | _, O => None
| S f, S l =>
    if (l <? startp)%nat then None
    else if scan_match mem pattern rmesc loc2 at_start then Some l
    else if try2optimize && ends_star (str_at mem pattern) then None
    else
      let '(l, esc) :=
        if quotes then
          let esc := esc - 1 in
          let esc := if esc <? 0 then Z.of_nat (esclen mem startp (l - 1)) else esc in
          if Z.odd esc then ((l - 1)%nat, esc - 1) else (l, esc)
        else (l, esc) in
      scanright f mem startp l (loc2 - 1) esc false rmesc pattern quotes at_start
end.

(** ** The recursive procedures, over [argstr] one level down *)

Section Procs.
Context (argstr : cstr -> Z -> X cstr).

(** Trim the value at [startloc] by the pattern at [strloc]: what is left on the
stack. *)
Definition subevalvar_trim (mem : cstr) (strloc startloc : nat) (subtype : Z) (quotes : bool) : cstr :=
let val := str_at mem startloc in
let '(mem, rmesc, rmescend) :=
if quotes && has_qchar val
then let r := rmescapes false val in
     (mem ++ r ++ [NUL], length mem, (length mem + length r + 1)%nat)
else (mem, startloc, strloc) in
let rmescend := (rmescend - 1)%nat in
let mem := write_at mem strloc (rmescapes true (str_at mem strloc) ++ [NUL]) in
let sub := subtype - VSTRIMRIGHT in
let zero := negb (Z.shiftr sub 1 =? 0) in
let loc :=
if xorb (Z.odd sub) zero
then scanleft (S (length mem)) mem startloc rmesc rmesc strloc quotes zero
else scanright (S (length mem)) mem startloc strloc rmescend 0 zero rmesc strloc quotes zero in
match loc with
| Some loc =>
  if zero then take (startloc + (strloc - loc) - 1) (write_at mem startloc (take (strloc - loc) (drop loc mem)))
  else take loc mem
| None => take (strloc - 1) mem
end.

Definition subevalvar (start : cstr) (str : option cstr) (strloc startloc : nat) (varflags flag : Z) : X cstr :=
let subtype := Z.land varflags VSTYPE in
let argstr_flags := Z.lor (Z.land flag EXP_DISCARD) EXP_TILDE in
let argstr_flags := match str with None => Z.lor argstr_flags EXP_CASE | Some _ => argstr_flags end in
let! p := argstr start argstr_flags in
if has flag EXP_DISCARD then ret p
else
let! mem := get x_out in
let startp := str_at mem startloc in
(if subtype =? VSASSIGN then
   let! str := deref str in
   x_setvar0 (var_name str) startp ;; cut_to startloc
 else if subtype =? VSQUESTION then
   let! str := deref str in varunset start str (Some startp) varflags
 else modify (set_out (subevalvar_trim mem strloc startloc subtype (has flag QUOTES_ESC)))) ;;
removerecordregions startloc ;;
ret p.

Definition expari (start : cstr) (flag : Z) : X cstr :=
let! begoff := here in
let! p := argstr start (Z.land flag EXP_DISCARD) in
if has flag EXP_DISCARD then ret p
else
let! mem := get x_out in
let text := str_at mem begoff in
cut_to begoff ;;
removerecordregions begoff ;;
let! result := ash_arith (if has flag QUOTES_ESC then rmescapes false text else text) in
let! len := cvtnum result flag in
(if has flag EXP_QUOTED then ret tt else recordregion begoff (begoff + len) false) ;;
ret p.

(** [p] points to the flags; [strchr(p, '=')] finds the end of the name. *)
Definition evalvar (p : cstr) (flag : Z) : X cstr :=
match p with
| [] => wild
| vf :: var =>
  let varflags := uc vf in
  let subtype := Z.land varflags VSTYPE in
  let quoted := Z.land flag EXP_QUOTED in
  let! startloc := here in
  let really_record (p : cstr) : X cstr :=
    let! x := get (fun x => x) in
    let nulsep := (hd0 var ≟ "@"%char) && negb (Nat.eqb (length (shellparam (x_sh x))) 0) in
    (if quoted =? 0 then recordregion startloc (length (x_out x)) false
     else if nulsep then recordregion startloc (length (x_out x)) true
     else ret tt) ;;
    ret p in
  let record (p : cstr) (flag discard : Z) : X cstr :=
    if has (Z.lor flag discard) EXP_DISCARD then ret p else really_record p in
  let varvalue_len (varflags : Z) : X Z :=
    let! varlen := varvalue var varflags flag quoted in
    ret (if has varflags VSNUL then varlen - 1 else varlen) in
  let rest (p : cstr) (subtype varflags varlen : Z) : X cstr :=
    let discard := if varlen <? 0 then EXP_DISCARD else 0 in
    let! s := get x_sh in
    if negb (Z.land discard (Z.lnot flag) =? 0) && negb (uflag s =? 0) then varunset p var None 0
    else if subtype =? VSLENGTH then
      let p := tl p in
      if has flag EXP_DISCARD then ret p
      else cvtnum (if 0 <? varlen then varlen else 0) flag ;; really_record p
    else if subtype =? VSNORMAL then record p flag discard
    else
      let flag := Z.lor flag discard in
      (if has flag EXP_DISCARD then ret tt else emit [NUL]) ;;
      let! patloc := here in
      let! p := subevalvar p None patloc startloc varflags flag in
      record p flag discard in
  match strchr var "="%char with
  | None => wild
  | Some e =>
      let p := tl e in
      let! varlen := varvalue_len varflags in
      let discard := if varlen <? 0 then EXP_DISCARD else 0 in
      if (subtype =? VSPLUS) || (subtype =? 0) || (subtype =? VSMINUS) then
        let discard := if subtype =? VSPLUS then Z.lxor discard EXP_DISCARD else discard in
        let! p := argstr p (Z.lor flag (Z.lor EXP_TILDE (Z.lor EXP_WORD (Z.lxor discard EXP_DISCARD)))) in
        record p flag discard
      else if (subtype =? VSASSIGN) || (subtype =? VSQUESTION) then
        let! p := subevalvar p (Some var) 0 startloc varflags
                    (Z.lor (Z.land flag (Z.lnot QUOTES_ESC)) (Z.lxor discard EXP_DISCARD)) in
        if has (Z.lor flag (Z.lnot discard)) EXP_DISCARD then record p flag discard
        else
          let varflags := Z.land varflags (Z.lnot VSNUL) in
          let! varlen := varvalue_len varflags in
          rest p VSNORMAL varflags varlen
      else rest p subtype varflags varlen
  end
end.

Definition spclchars : cstr := ["="; ":"]%char ++ [CTLQUOTEMARK; CTLENDVAR; CTLESC; CTLVAR; CTLBACKQ; CTLARI; CTLENDARI].

(** [strcspn(p, reject)] *)
Fixpoint strcspn (p reject : cstr) : nat :=
match p with
| [] => O
| c :: r => if existsb (Ascii.eqb c) reject then O else S (strcspn r reject)
end.

(** [end]: the character ends the text. *)
Definition ends_text (c : ascii) : bool := (c ≟ NUL) || (c ≟ CTLENDARI) || (c ≟ CTLENDVAR).

(** [tilde:] *)
Definition tilde_at (p : cstr) (flag : Z) : X cstr :=
if (hd0 p ≟ "~"%char) then exptilde p flag else ret p.

(** The loop of [argstr]: [skip] characters behind [p] are already looked at
([length] in the code), [reject] counts how far into [spclchars] it points. *)
Fixpoint argstr_loop (fuel : nat) (p : cstr) (skip : nat) (flag : Z) (reject : nat) (breakall : bool) (inquotes : Z)
(startloc : nat) : X cstr :=
match fuel with
| O => wild
| S f =>
  let start p flag reject inquotes :=
    let! startloc := here in argstr_loop f p 0 flag reject breakall inquotes startloc in
  let length_ := (skip + strcspn (drop skip p) (drop reject spclchars))%nat in
  let c := at0 p length_ in
  let one_more := negb (Z.testbit (uc c) 7) || (c ≟ CTLENDARI) || (c ≟ CTLENDVAR) in
  let end_ := one_more && ends_text c in
  let length_ := if one_more then S length_ else length_ in
  let! startloc :=
    (if (0 <? length_)%nat && negb (has flag EXP_DISCARD) then
       let! loc := here in
       let text := take length_ p in
       emit (if end_ then take (length_ - 1) text ++ (if has flag EXP_WORD then [] else [NUL]) else text) ;;
       let newloc := (loc + length_ - (if end_ then 1 else 0))%nat in
       (if breakall && (inquotes =? 0) && (startloc <? newloc)%nat
        then recordregion startloc newloc false else ret tt) ;;
       ret newloc
     else ret startloc) in
  if end_ then ret (drop length_ p)
  else if (c ≟ "="%char) || (c ≟ ":"%char) then
    let p := drop length_ p in
    let '(flag, reject) := if (c ≟ "="%char) then (Z.lor flag EXP_VARTILDE2, S reject) else (flag, reject) in
    if (hd0 p ≟ "~"%char) then let! p := exptilde p flag in start p flag reject inquotes
    else argstr_loop f p 0 flag reject breakall inquotes startloc
  else
    let p := drop (S length_) p in
    if (c ≟ CTLQUOTEMARK) then
      if (inquotes =? 0) && bool_decide (take 5 p = drop 1 dolatstr) then
        let! p := evalvar (tl p) (Z.lor flag EXP_QUOTED) in start (tl p) flag reject inquotes
      else
        let inquotes := Z.lxor inquotes EXP_QUOTED in
        if has flag QUOTES_ESC
        then argstr_loop f (CTLQUOTEMARK :: p) 1 flag reject breakall inquotes (S startloc)
        else argstr_loop f p 0 flag reject breakall inquotes startloc
    else if (c ≟ CTLESC) then
      if has flag QUOTES_ESC
      then argstr_loop f (CTLESC :: p) 2 flag reject breakall inquotes (S (S startloc))
      else argstr_loop f p 1 flag reject breakall inquotes (S startloc)
    else if (c ≟ CTLVAR) then
      let! p := evalvar p (Z.lor flag inquotes) in start p flag reject inquotes
    else if (c ≟ CTLBACKQ) then
      let! bq := get x_argbackq in
      match bq with
      | [] => wild
      | n :: _ => expbackq n (Z.lor flag inquotes) ;; start p flag reject inquotes
      end
    else
      let! p := expari p (Z.lor flag inquotes) in start p flag reject inquotes
end.

Definition argstr_body (p : cstr) (flag : Z) : X cstr :=
let breakall := Z.land flag (Z.lor EXP_WORD EXP_QUOTED) =? EXP_WORD in
let reject := ((if has flag EXP_VARTILDE2 then 1 else 0) + (if has flag EXP_VARTILDE then 0 else 2))%nat in
let tilde := has flag EXP_TILDE in
let flag := Z.land flag (Z.lnot EXP_TILDE) in
let! p := (if tilde then tilde_at p flag else ret p) in
let! startloc := here in
argstr_loop (S (S (length p))) p 0 flag reject breakall 0 startloc.

End Procs.

(** [depth]: how deep expansions are nested in each other. *)
Fixpoint argstr_at (depth : nat) (p : cstr) (flag : Z) : X cstr :=
match depth with
| O => wild
| S d => argstr_body (argstr_at d) p flag
end.

Definition argstr (p : cstr) (flag : Z) : X cstr := argstr_at (S (length p)) p flag.

(** ** Patterns *)

Definition patmatch (pattern string : cstr) : bool := fnmatch (preglob pattern) string.

(** [argbackq = ...; STARTSTACKSTR(expdest)] *)
Definition start_arg (backquote : list node) : X unit :=
modify (fun x => mk_x (x_sh x) [] backquote (x_ifs x)).

Definition casematch (pattern : arg) (val : cstr) : X bool :=
match pattern with
| NARG text backquote =>
    start_arg backquote ;;
    argstr text (Z.lor EXP_TILDE EXP_CASE) ;;
    ifsfree ;;
    let! mem := get x_out in
    ret (patmatch (str_at mem 0) val)
end.

(** ** File name expansion *)

(** Behind a CTLQUOTEMARK: the text from its partner on; [None] at the end. *)
Fixpoint skip_quoted (p : cstr) : option cstr :=
match p with
| [] => None
| c :: r =>
    if (c ≟ CTLQUOTEMARK) then Some p
    else if (c ≟ CTLESC) then match r with [] => None | _ :: r => skip_quoted r end
    else skip_quoted r
end.

Fixpoint hasmeta_loop (fuel : nat) (p : cstr) : bool :=
match fuel, p with
| O, _ | _, [] => false
| S f, c :: r =>
    if (c ≟ "*"%char) || (c ≟ "?"%char) then true
    else if (c ≟ "["%char) then
      match strchr r "]"%char with Some _ => true | None => hasmeta_loop f r end
    else if (c ≟ CTLQUOTEMARK) then
      match skip_quoted r with Some q => hasmeta_loop f (tl q) | None => false end
    else if (c ≟ "\"%char) || (c ≟ CTLESC) then
      match r with [] => false | _ :: r => hasmeta_loop f r end
    else hasmeta_loop f r
end.

Definition hasmeta (p : cstr) : bool := hasmeta_loop (S (length p)) p.

(** The environment's directories: [opendir]/[readdir] and whether [lstat]
  succeeds. *)
Context (readdir : cstr -> option (list cstr)) (lstat : cstr -> bool).

Definition PATH_MAX : nat := 4096.
Definition NAME_MAX : nat := 255.

(** Is there a "]" for the "[" before offset [q]? *)
Fixpoint bracket_closed (fuel : nat) (name : cstr) (q : nat) : bool :=
match fuel with
| O => false
| S f =>
    let q := if (at0 name q ≟ "\"%char) then S q else q in
    if (at0 name q ≟ "/"%char) || (at0 name q ≟ NUL) then false
    else if (at0 name (S q) ≟ "]"%char) then true
    else bracket_closed f name (S q)
end.

(** The first component with a pattern: [metaflag], where it starts, where it
  ends, and whether the slash behind it is escaped. *)
Fixpoint scan_name (fuel : nat) (name : cstr) (p start : nat) (metaflag : bool) : bool * nat * nat * nat :=
match fuel with
| O => (metaflag, start, p, O)
| S f =>
    let c := at0 name p in
    if (c ≟ NUL) then (metaflag, start, p, O)
    else if (c ≟ "*"%char) || (c ≟ "?"%char) then scan_name f name (S p) start true
    else if (c ≟ "["%char) then
      let q := if (at0 name (S p) ≟ "!"%char) then S (S p) else S p in
      scan_name f name (S p) start (metaflag || bracket_closed (S (length name)) name q)
    else
      let esc := if (c ≟ "\"%char) && negb (at0 name (S p) ≟ NUL) then 1%nat else 0%nat in
      if (at0 name (p + esc) ≟ "/"%char) then
        if metaflag then (metaflag, start, p, esc)
        else scan_name f name (p + esc + 1) (p + esc + 1) metaflag
      else scan_name f name (p + esc + 1) start metaflag
end.

(** Copy [name] from offset [p] up to [stop] without its backslashes. *)
Fixpoint unbackslash (fuel : nat) (name : cstr) (p stop : nat) : cstr :=
match fuel with
| O => []
| S f =>
    if (stop <=? p)%nat then []
    else
      let p := if (at0 name p ≟ "\"%char) && negb (at0 name (S p) ≟ NUL) then S p else p in
      at0 name p :: unbackslash f name (S p) stop
end.

(** [exp_t] is the size of its buffer; [expdir] is the buffer's first
  [expdir_len] characters.  The result: the new size and the names found, or
  [None] if something was stored outside the buffer. *)
Section Expmeta.
(** One directory level down. *)
Context (expmeta : nat -> cstr -> cstr -> nat -> option (nat * list cstr)).

Fixpoint expmeta_entries (pattern : cstr) (matchdot atend : bool) (expdir endname : cstr) (name_len dir_max : nat)
(entries : list cstr) : option (nat * list cstr) :=
match entries with
| [] => Some (dir_max, [])
| d :: entries =>
  let next dir_max found :=
    match expmeta_entries pattern matchdot atend expdir endname name_len dir_max entries with
    | Some (m, l) => Some (m, found ++ l)
    | None => None
    end in
  if ((hd0 d ≟ "."%char) && negb matchdot) || negb (fnmatch pattern d) then next dir_max []
  else if (dir_max <? length expdir + length d + 1)%nat then None
  else if atend then next dir_max [expdir ++ d]
  else
    let offset := (length expdir + length d + 1)%nat in
    let len := (offset + name_len + NAME_MAX)%nat in
    let dir_max := if (dir_max <? len)%nat then (len + PATH_MAX)%nat else dir_max in
    match expmeta dir_max (expdir ++ d ++ ["/"%char]) endname name_len with
    | Some (m, l) => next m l
    | None => None
    end
end.

Definition expmeta_body (dir_max : nat) (expdir name : cstr) (name_len : nat) : option (nat * list cstr) :=
let '(metaflag, start, p, esc) := scan_name (S (length name)) name 0 0 false in
if negb metaflag then
match expdir with
| [] => Some (dir_max, [])
| _ =>
    let path := expdir ++ unbackslash (S (length name)) name 0 (length name) in
    if (dir_max <? length path + 1)%nat then None
    else Some (dir_max, if lstat path then [path] else [])
end
else
let expdir := expdir ++ unbackslash (S (length name)) name 0 start in
if (dir_max <? length expdir + 1)%nat then None
else
  match readdir (match expdir with [] => lit "." | _ => expdir end) with
  | None => Some (dir_max, [])
  | Some entries =>
      let atend := (at0 name p ≟ NUL) in
      let pattern := drop start (take p name) in
      let endname := if atend then drop p name else drop (p + esc + 1) name in
      let first := if (hd0 pattern ≟ "\"%char) then at0 pattern 1 else hd0 pattern in
      expmeta_entries pattern (first ≟ "."%char) atend expdir endname
        (name_len - (length name - length endname)) dir_max entries
  end.
End Expmeta.

Fixpoint expmeta (fuel : nat) (dir_max : nat) (expdir name : cstr) (name_len : nat) : option (nat * list cstr) :=
match fuel with
| O => None
| S f => expmeta_body (expmeta f) dir_max expdir name name_len
end.

(** The loop at the end of [msort]: [p] the second half, [q] the first. *)
Fixpoint msort_merge (p : list cstr) : list cstr -> list cstr :=
fix go (q : list cstr) : list cstr :=
  match p, q with
  | [], _ => q
  | _, [] => p
  | x :: p', y :: q' => if strcmp x y <? 0 then x :: msort_merge p' q else y :: go q'
  end.

Fixpoint msort (fuel : nat) (list_ : list cstr) (len : nat) : list cstr :=
match fuel with
| O => list_
| S f =>
    if (len <=? 1)%nat then list_
    else
      let half := Nat.div2 len in
      msort_merge (msort f (drop half list_) (len - half)) (msort f (take half list_) half)
end.

Definition expsort (str : list cstr) : list cstr := msort (length str) str (length str).

(** The names a word's pattern stands for; [None]: a store outside the buffer. *)
Definition expmeta_word (text : cstr) : option (list cstr) :=
let p := preglob text in
match expmeta (S (length p)) (length p + PATH_MAX) [] p (length p) with
| Some (_, l) => Some l
| None => None
end.

Fixpoint expandmeta (noglob : bool) (str : list cstr) : option (list cstr) :=
match str with
| [] => Some []
| text :: str =>
    found ← (if noglob || negb (hasmeta text) then Some [] else expmeta_word text);
    rest ← expandmeta noglob str;
    Some (match found with [] => [rmescapes false text] | _ => expsort found end ++ rest)
end.

(** The expanded text of a here document. *)
Definition expandhere (a : arg) : X cstr :=
match a with
| NARG text backquote =>
    start_arg backquote ;;
    argstr text EXP_QUOTED ;;
    let! mem := get x_out in
    ifsfree ;;
    ret (str_at mem 0)
end.

End Expand.

(** ** expandarg: the words for the argument list *)


Section Expandarg.
Context {St : Type} `{Shell St}.
Context (osd_evalbackcmd_inproc : node -> M St (option (list cstr) * Z)).
Context (getpwnam : cstr -> option cstr) (fnmatch : cstr -> cstr -> bool).
(** The directories as they are when the words are split: a substitution may
    have changed them. *)
Context (readdir : St -> cstr -> option (list cstr)) (lstat : St -> cstr -> bool).

Definition expandarg (a : arg) (flag : Z) : M (xstate St) (list cstr) :=
match a with
| NARG text backquote =>
    start_arg backquote ;;
    argstr osd_evalbackcmd_inproc getpwnam fnmatch text flag ;;
    let! x := get (fun x => x) in
    let! words :=
      (if has flag EXP_FULL then
         deref (expandmeta fnmatch (readdir (x_sh x)) (lstat (x_sh x)) (negb (fflag (x_sh x) =? 0))
           (ifsbreakup (x_out x) (ifsvar (x_sh x)) (x_ifs x)))
       else ret [str_at (x_out x) 0]) in
    ifsfree ;;
    ret words
end.
End Expandarg.
