(* ===== verification/AshExpandSpec.v ===== *)
(** * shell/ash.c: what expansion means

    A word is a sequence of parts (AshParseSpec); expanding its parts from left to
    right gives segments of characters, each segment open to field splitting or
    not, each character plain or protected.  [fields] splits them and the words
    are the fields, quotes removed, or the file names a field matches.  This is
    the meaning that AshExpandCorrect proves of [expandarg]. *)

From Stdlib Require Import Ascii String ZArith Lia.
From stdpp Require Import base gmap list option strings.
From S2P Require Import Prelude Clib LibbbStr ShMath AshInput AshLex AshParse AshParseSpec AshBase AshExpand.

Local Open Scope Z_scope.
Local Open Scope ash_scope.

(** ** Characters, segments, fields *)

(** A quotation mark (a field that has one is not empty), or a character;
    [esc] protects it. *)
Inductive xel := XMark | XC (esc : bool) (c : ascii).

Record seg := mk_seg { splittable : bool; els : list xel }.

Abbreviation field := (list xel).

(** The text of a field: its quotes removed. *)
Definition el_text (e : xel) : cstr := match e with XMark => [] | XC _ c => [c] end.
Definition field_text (f : field) : cstr := concat (map el_text f).

(** How the expander writes it. *)
Definition el_enc (e : xel) : cstr :=
  match e with XMark => [CTLQUOTEMARK] | XC true c => [CTLESC; c] | XC false c => [c] end.
Definition enc (f : field) : cstr := concat (map el_enc f).

(** ** Field splitting *)

Definition in_ifs (ifs : cstr) (c : ascii) : bool := existsb (Ascii.eqb c) ifs.
Definition ifs_white (c : ascii) : bool := existsb (Ascii.eqb c) defifs.

(** Splitting the characters of one segment: [behind] says that a delimiter was
    just read, and whether a delimiter that is not white space may still belong
    to it; [cur] is the field so far. *)
Fixpoint split_els (ifs : cstr) (l : list xel) (behind : option bool) (cur : field) : list field * field :=
  match l with
  | [] => ([], cur)
  | e :: l =>
      let emit b := let '(fs, cur') := split_els ifs l (Some b) [] in (cur :: fs, cur') in
      match e with
      | XC _ c =>
          if in_ifs ifs c then
            match behind with
            | Some b =>
                if ifs_white c then split_els ifs l behind cur
                else if b then split_els ifs l (Some false) cur
                else emit false
            | None =>
                if ifs_white c then (if bool_decide (cur = []) then split_els ifs l None cur else emit true)
                else emit false
            end
          else split_els ifs l None (cur ++ [e])
      | XMark => split_els ifs l None (cur ++ [e])
      end
  end.

Fixpoint split_segs (ifs : cstr) (l : list seg) (cur : field) : list field :=
  match l with
  | [] => if bool_decide (cur = []) then [] else [cur]
  | s :: l =>
      if splittable s then
        let '(fs, cur) := split_els ifs (els s) None cur in fs ++ split_segs ifs l cur
      else split_segs ifs l (cur ++ els s)
  end.

Definition fields (ifs : option cstr) (l : list seg) : list field := split_segs (default defifs ifs) l [].

(** ** Patterns *)

(** Some character outside quotes is special to patterns. *)
Fixpoint active_meta (inq : bool) (f : field) : bool :=
  match f with
  | [] => false
  | XMark :: f => active_meta (negb inq) f
  | XC esc c :: f =>
      negb inq && negb esc && existsb (Ascii.eqb c) ["*"; "?"; "["; "\"]%char || active_meta inq f
  end.

(** A pattern for fnmatch: protected characters with a backslash where it matters. *)
Definition el_glob (e : xel) : cstr :=
  match e with
  | XMark => []
  | XC esc c => if esc && needs_backslash c then ["\"%char; c] else [c]
  end.
Definition glob_text (f : field) : cstr := concat (map el_glob f).

(** No backslash that came out of a value. *)
Definition no_backslash (f : field) : bool :=
  forallb (fun e => match e with XC false c => negb (c ≟ "\"%char) | _ => true end) f.

Section Words.
Context {St : Type} `{Shell St}.
Context (osd_evalbackcmd_inproc : node -> M St (option (list cstr) * Z)) (comp : tree -> node).

(** ** Parts *)

(** Protected where the quoting rules of [syntax] ask for it. *)
Definition xc_in (s : syntaxid) (c : ascii) : xel := XC (is_class s CCTL c) c.

(** Characters of a value: in double quotes backslashes are protected too. *)
Definition xc_value (quoted : bool) (c : ascii) : xel :=
if quoted then XC (is_class DQSYNTAX CCTL c || is_class DQSYNTAX CBACK c) c
else xc_in BASESYNTAX c.

Definition value_seg (quoted : bool) (v : cstr) : seg := mk_seg (negb quoted) (map (xc_value quoted) v).

(** An unset variable is nothing, or an error under [set -u]. *)
Definition ref_var (quoted : bool) (name : cstr) : M St (list seg) := fun s =>
match lookupvar s name with
| Some v => Ok s [value_seg quoted v]
| None =>
    if uflag s =? 0 then Ok s []
    else Raise (set_exitstatus 2 s) (EXERROR (name ++ lit ": parameter not set"))
end.

Fixpoint drop_nl (l : cstr) : cstr :=
match l with c :: r => if (c ≟ NL) then drop_nl r else l | [] => [] end.

(** A command's output, NULs and final newlines left out. *)
Definition cmd_text (reads : list cstr) : cstr :=
rev (drop_nl (rev (filter (fun c => (c ≟ NUL) = false) (concat reads)))).

Definition ref_cmd (quoted : bool) (t : tree) : M St (list seg) :=
let! r := osd_evalbackcmd_inproc (comp t) in
match r with
| (Some reads, status) =>
    modify (set_back_exitstatus status) ;; ret [value_seg quoted (cmd_text reads)]
| (None, _) => ret [value_seg quoted []]
end.

Fixpoint ref_concat (l : list (M St (list seg))) : M St (list seg) :=
match l with
| [] => ret []
| m :: l => let! a := m in let! b := ref_concat l in ret (a ++ b)
end.

Definition ref_dpart (d : dpart) : M St (list seg) :=
match d with
| DChar c => ret [mk_seg false [if dq_special c then XC true c else xc_in DQSYNTAX c]]
| DVar name => ref_var true name
| DCmd t => ref_cmd true t
end.

Definition mark : seg := mk_seg false [XMark].

Definition ref_part (p : wpart) : M St (list seg) :=
match p with
| WLit s => ret [mk_seg false (map (XC false) s)]
| WSq s => ret [mk_seg false (XMark :: map (xc_in SQSYNTAX) s ++ [XMark])]
| WDq l => let! segs := ref_concat (map ref_dpart l) in ret (mark :: segs ++ [mark])
| WEsc c => ret [mk_seg false [XC true c]]
| WVar name => ref_var false name
| WCmd t => ref_cmd false t
end.

Definition ref_word (w : word) : M St (list seg) := ref_concat (map ref_part w).

(** ** Words *)

(** A word that is neither split nor matched against file names. *)
Definition ref_text (w : word) : M St cstr :=
let! segs := ref_word w in ret (field_text (concat (map els segs))).

(** The file names a field stands for, or its text. *)
Section Glob.
Context (fnmatch : cstr -> cstr -> bool) (readdir : St -> cstr -> option (list cstr)) (lstat : St -> cstr -> bool).

Definition field_words (readdir : cstr -> option (list cstr)) (lstat : cstr -> bool) (noglob : bool) (f : field) : option (list cstr) :=
if noglob || negb (active_meta false f) then Some [field_text f]
else expandmeta fnmatch readdir lstat false [enc f].

Definition ref_words (w : word) : M St (list cstr) :=
let! segs := ref_word w in
let! s := get (fun s => s) in
let! l := deref (mapM (field_words (readdir s) (lstat s) (negb (fflag s =? 0))) (fields (ifsvar s) segs)) in
ret (concat l).
End Glob.
End Words.

(** The result of an expansion, as the shell below sees it. *)
Definition proj {St A} (r : res (xstate St) A) : res St A :=
  match r with
  | Ok x a => Ok (x_sh x) a
  | Raise x e => Raise (x_sh x) e
  | Wild => Wild
  end.
