(* ===== verification/AshExpandIfs.v ===== *)
(** * shell/ash.c: field splitting and quote removal on encoded words

    The string [ifsbreakup] cuts up is the encoding of segments; the cuts are
    those of [fields].  On encoded fields [rmescapes] removes the quotes and
    [hasmeta] finds no pattern where every special character is protected. *)

From Stdlib Require Import Ascii String ZArith Lia.
From stdpp Require Import base gmap list option strings.
From S2P Require Import Prelude Clib LibbbStr AshInput AshLex AshParse AshExpand AshExpandSpec.

(** ** Well-formed encodings *)

Definition wf_el (e : xel) : Prop :=
  match e with
  | XMark => True
  | XC esc c => c <> NUL /\ (esc = false -> c <> CTLESC /\ c <> CTLQUOTEMARK)
  end.

Definition is_char (e : xel) : Prop := match e with XMark => False | XC _ _ => True end.

Definition wf_seg (s : seg) : Prop :=
  Forall wf_el (els s) /\ (splittable s = true -> Forall is_char (els s)).

Lemma enc_app f g : enc (f ++ g) = enc f ++ enc g.
Proof. unfold enc. by rewrite map_app, concat_app. Qed.

Lemma enc_cons e f : enc (e :: f) = el_enc e ++ enc f.
Proof. done. Qed.

Lemma enc_snoc f e : enc (f ++ [e]) = enc f ++ el_enc e.
Proof. rewrite enc_app. unfold enc at 2. simpl. by rewrite app_nil_r. Qed.

Lemma field_text_app f g : field_text (f ++ g) = field_text f ++ field_text g.
Proof. unfold field_text. by rewrite map_app, concat_app. Qed.

Lemma enc_nil f : enc f = [] -> f = [].
Proof. destruct f as [|[|[] c] f]; done. Qed.

Lemma enc_no_nul f : Forall wf_el f -> NUL ∉ enc f.
Proof.
  induction 1 as [|e f He Hf IH]; [apply not_elem_of_nil|].
  rewrite enc_cons, not_elem_of_app. split; [|done].
  destruct e as [|[] c]; simpl in *; rewrite ?not_elem_of_cons; repeat split; try apply not_elem_of_nil;
    try discriminate; destruct He; congruence.
Qed.

Lemma field_text_no_nul f : Forall wf_el f -> NUL ∉ field_text f.
Proof.
  induction 1 as [|[|esc c] f He Hf IH]; [apply not_elem_of_nil|done|].
  apply not_elem_of_cons. split; [destruct He; congruence|done].
Qed.

Lemma cstr_at_no_nul (s t : cstr) : NUL ∉ s -> cstr_at (s ++ NUL :: t) = s.
Proof.
  induction s as [|c s IH]; intros H; [done|]. apply not_elem_of_cons in H as [Hc Hs]. simpl.
  destruct (Ascii.eqb_spec c NUL); [congruence|]. by rewrite IH.
Qed.

Lemma cstr_at_whole (s : cstr) : NUL ∉ s -> cstr_at s = s.
Proof.
  induction s as [|c s IH]; intros H; [done|]. apply not_elem_of_cons in H as [Hc Hs]. simpl.
  destruct (Ascii.eqb_spec c NUL); [congruence|]. by rewrite IH.
Qed.

Lemma at0_app (s t : cstr) : at0 (s ++ t) (length s) = hd0 t.
Proof. unfold at0. by rewrite drop_app_length. Qed.

Lemma at0_app_S (s t : cstr) : at0 (s ++ t) (S (length s)) = hd0 (tl t).
Proof. unfold at0. rewrite drop_app_ge by lia. replace (S (length s) - length s)%nat with 1%nat by lia. by destruct t. Qed.

(** ** ifsbreakup *)

Section Split.
Context (string ifs : cstr).

(** The pointer to an element's character, from the one to its encoding. *)
Lemma skip_esc pre esc c r p :
wf_el (XC esc c) -> string = pre ++ el_enc (XC esc c) ++ r -> p = length pre ->
exists p', (if (at0 string p ≟ CTLESC)%cc then S p else p) = p' /\
  at0 string p' = c /\ S p' = (p + length (el_enc (XC esc c)))%nat.
Proof.
intros [Hc Hesc] -> ->. rewrite at0_app. destruct esc; simpl.
- exists (S (length pre)). rewrite at0_app_S. simpl. split; [done|split; [done|lia]].
- destruct (Hesc eq_refl) as [Hne _]. destruct (Ascii.eqb_spec c CTLESC) as [|_]; [done|].
  exists (length pre). rewrite at0_app. split; [done|split; [done|lia]].
Qed.

Lemma strchr_hit_eq l c : c <> NUL -> strchr_hit l c = existsb (Ascii.eqb c) l.
Proof. intros Hc. unfold strchr_hit. destruct (Ascii.eqb_spec c NUL); [done|]. done. Qed.

(** What [ifs_skip] skips, [split_els] skips behind a delimiter. *)
Lemma ifs_skip_spec l : forall fuel pre post p endoff b,
Forall wf_el l -> Forall is_char l ->
string = pre ++ enc l ++ post -> p = length pre -> endoff = (p + length (enc l))%nat ->
(length (enc l) < fuel)%nat ->
exists l1 l2 b', l = l1 ++ l2 /\ ifs_skip string fuel ifs endoff p b = ((p + length (enc l1))%nat, b') /\
  split_els ifs l (Some b) [] = split_els ifs l2 None [].
Proof.
induction l as [|e l IH]; intros fuel pre post p endoff b Hwf Hch Hs Hp He Hfuel;
  (destruct fuel as [|fuel]; [simpl in Hfuel; lia|]); cbn [ifs_skip].
- exists [], [], b. split; [done|]. rewrite (proj2 (Nat.leb_le _ _)) by (simpl in He; lia).
  split; [f_equal; simpl; lia|done].
- apply Forall_cons in Hwf as [Hwe Hwl]. apply Forall_cons in Hch as [Hce Hcl]. subst p endoff.
  destruct e as [|esc c]; [done|]. rewrite enc_cons in *.
  set (w := el_enc (XC esc c)) in *.
  assert (1 <= length w)%nat as Hw by (unfold w; destruct esc; simpl; lia).
  rewrite length_app in *.
  rewrite (proj2 (Nat.leb_gt _ _)) by lia.
  rewrite <- app_assoc in Hs.
  destruct (skip_esc pre esc c (enc l ++ post) (length pre) Hwe Hs eq_refl) as (p' & -> & Hc & Hp').
  fold w in Hp'. rewrite Hc. destruct Hwe as [Hnul _]. rewrite !strchr_hit_eq by done.
  assert (forall b1, split_els ifs (XC esc c :: l) (Some b) [] = split_els ifs l (Some b1) [] ->
    exists l1 l2 b', XC esc c :: l = l1 ++ l2 /\
      ifs_skip string fuel ifs (length pre + (length w + length (enc l))) (S p') b1 =
        ((length pre + length (enc l1))%nat, b') /\
      split_els ifs (XC esc c :: l) (Some b) [] = split_els ifs l2 None []) as Hgo.
  { intros b1 E. destruct (IH fuel (pre ++ w) post (S p') (length pre + (length w + length (enc l)))%nat b1)
      as (l1 & l2 & b' & -> & E2 & E3); try done.
    - by rewrite <- app_assoc.
    - rewrite length_app. lia.
    - lia.
    - lia.
    - exists (XC esc c :: l1), l2, b'. split; [done|]. rewrite E2, E, E3. split; [|done].
      f_equal. rewrite enc_cons, length_app. fold w. lia. }
  cbn [split_els] in *. unfold in_ifs, ifs_white in *.
  destruct (existsb (Ascii.eqb c) ifs) eqn:Ei; cbn [negb].
  + destruct (existsb (Ascii.eqb c) defifs) eqn:Ew; cbn [negb]; [by apply Hgo|].
    destruct b; [by apply Hgo|].
    exists [], (XC esc c :: l), false. split; [done|]. simpl. unfold in_ifs, ifs_white. rewrite Ei, Ew.
    split; [f_equal; lia|done].
  + exists [], (XC esc c :: l), b. split; [done|]. simpl. unfold in_ifs. rewrite Ei.
    split; [f_equal; lia|done].
Qed.

Lemma piece_spec pre f r start q :
Forall wf_el f -> string = pre ++ enc f ++ r -> start = length pre -> q = (start + length (enc f))%nat ->
piece string start q = enc f.
Proof.
intros Hwf -> -> ->. unfold piece. rewrite drop_app_length.
replace (length pre + length (enc f) - length pre)%nat with (length (enc f)) by lia.
rewrite take_app_length. by apply cstr_at_whole, enc_no_nul.
Qed.

Lemma enc_pos f : f <> [] -> (1 <= length (enc f))%nat.
Proof. destruct f as [|[|[] c] f]; [done|simpl; lia..]. Qed.

(** A run of [ifs_region] that ends at [endoff]: the words found are the fields of
  [r], the word begun is what [r] leaves. *)
Definition cuts (post : cstr) (endoff : nat) (acc : list cstr) (run : nat * list cstr) (r : list field * field) : Prop :=
exists pre', run = (length pre', acc ++ map enc (fst r)) /\
  (length pre' + length (enc (snd r)) = endoff)%nat /\ Forall wf_el (snd r) /\
  string = pre' ++ enc (snd r) ++ post.

(** One region of the string is split as [split_els] says; [cur] is the word that
  was begun before. *)
Definition region_spec (l : list xel) : Prop := forall fuel pre cur post p start endoff spc acc,
Forall wf_el cur -> Forall wf_el l -> Forall is_char l ->
string = pre ++ enc cur ++ enc l ++ post ->
start = length pre -> p = (start + length (enc cur))%nat -> endoff = (p + length (enc l))%nat ->
(length (enc l) < fuel)%nat ->
cuts post endoff acc (ifs_region string fuel ifs false false endoff p start spc acc) (split_els ifs l None cur).

(** At a delimiter: the word is cut off, the delimiter's other characters are
  skipped, and the rest is split. *)
Lemma region_cut l pre cur w post p p' start endoff fuel b acc :
(forall l', (length l' <= length l)%nat -> region_spec l') ->
Forall wf_el cur -> Forall wf_el l -> Forall is_char l ->
string = pre ++ enc cur ++ w ++ enc l ++ post -> start = length pre ->
p = (start + length (enc cur))%nat -> p' = (p + length w)%nat -> endoff = (p' + length (enc l))%nat ->
(length (enc l) < fuel)%nat ->
cuts post endoff acc
  (let '(p1, s1) := ifs_skip string fuel ifs endoff p' b in
   ifs_region string fuel ifs false false endoff p1 p1 s1 (acc ++ [piece string start p]))
  (let '(fs, cur') := split_els ifs l (Some b) [] in (cur :: fs, cur')).
Proof.
intros IH Hcur Hwf Hch Hs Hst Hp Hp' He Hfuel.
rewrite (piece_spec pre cur (w ++ enc l ++ post)) by done.
destruct (ifs_skip_spec l fuel (pre ++ enc cur ++ w) post p' endoff b Hwf Hch) as (l1 & l2 & b' & El & -> & ->);
  [by rewrite Hs, <- !app_assoc|rewrite !length_app; lia|done|done|]. subst l.
apply Forall_app in Hwf as [_ Hwf2]. apply Forall_app in Hch as [_ Hch2].
rewrite enc_app in *. rewrite !length_app in *.
destruct (IH l2 ltac:(lia) fuel (pre ++ enc cur ++ w ++ enc l1) [] post
            (p' + length (enc l1))%nat (p' + length (enc l1))%nat endoff b' (acc ++ [enc cur]))
  as (pre' & E & H1 & H2 & H3);
  [done|done|done|by rewrite Hs, <- !app_assoc|rewrite !length_app; lia|simpl; lia|lia|lia|].
rewrite E. exists pre'. destruct (split_els ifs l2 None []) as [fs cur']. simpl in *.
split; [by rewrite <- app_assoc|done].
Qed.

Lemma ifs_region_spec l : region_spec l.
Proof.
induction l as [l IHl] using (induction_ltof1 _ (@length xel)). unfold ltof in IHl.
intros fuel pre cur post p start endoff spc acc Hcur Hwf Hch Hs Hst Hp He Hfuel.
(destruct fuel as [|fuel]; [lia|]). cbn [ifs_region].
destruct l as [|[|esc c] l]; [|by apply Forall_cons in Hch as [[] _]|].
{ rewrite (proj2 (Nat.leb_le _ _)) by (simpl in He; lia). simpl in *.
  exists pre. simpl. rewrite app_nil_r, Hst. split; [done|]. split; [lia|done]. }
apply Forall_cons in Hwf as [Hwe Hwl]. apply Forall_cons in Hch as [_ Hcl].
rewrite enc_cons in *. set (w := el_enc (XC esc c)) in *.
assert (1 <= length w)%nat as Hw by (unfold w; destruct esc; simpl; lia).
rewrite length_app in *. rewrite <- app_assoc in Hs.
rewrite (proj2 (Nat.leb_gt _ _)) by lia.
destruct (skip_esc (pre ++ enc cur) esc c (enc l ++ post) p Hwe) as (p' & -> & Hc & Hp');
  [by rewrite <- app_assoc|rewrite length_app; lia|].
fold w in Hp'. rewrite Hc. pose proof (proj1 Hwe) as Hnul. rewrite !strchr_hit_eq by done.
cbn [split_els]. unfold in_ifs, ifs_white.
pose proof (fun b => region_cut l pre cur w post p (S p') start endoff fuel b acc
  (fun l' Hl' => IHl l' ltac:(simpl; lia)) Hcur Hwl Hcl Hs Hst Hp Hp' ltac:(lia) ltac:(lia)) as Hcut.
destruct (existsb (Ascii.eqb c) ifs); cbn [negb orb andb].
- destruct (existsb (Ascii.eqb c) defifs); [|rewrite andb_false_r; apply Hcut].
  destruct (decide (cur = [])) as [->|Hne].
  + rewrite bool_decide_eq_true_2 by done. simpl in Hp. rewrite (proj2 (Nat.eqb_eq _ _)) by lia. cbn [andb].
    apply (IHl l ltac:(simpl; lia) fuel (pre ++ w)); try done; [|rewrite length_app|simpl|..]; try lia.
    by rewrite Hs, <- !app_assoc.
  + rewrite bool_decide_eq_false_2 by done. pose proof (enc_pos cur Hne).
    rewrite (proj2 (Nat.eqb_neq _ _)) by lia. apply Hcut.
- apply (IHl l ltac:(simpl; lia) fuel pre); try done; try lia.
  + apply Forall_app. split; [done|]. by apply Forall_cons.
  + by rewrite Hs, enc_snoc, <- !app_assoc.
  + rewrite enc_snoc, length_app. fold w. lia.
Qed.
End Split.

(** ** The whole string *)

Definition enc_segs (l : list seg) : cstr := enc (concat (map els l)).

(** The regions [recordregion] was told, from offset [off]. *)
Fixpoint regions_of (off : nat) (l : list seg) : list ifsregion :=
  match l with
  | [] => []
  | s :: l =>
      let e := (off + length (enc (els s)))%nat in
      (if splittable s then [mk_region off e false] else []) ++ regions_of e l
  end.

Lemma enc_segs_cons s l : enc_segs (s :: l) = enc (els s) ++ enc_segs l.
Proof. unfold enc_segs. simpl. by rewrite enc_app. Qed.

Lemma enc_segs_app l k : enc_segs (l ++ k) = enc_segs l ++ enc_segs k.
Proof. unfold enc_segs. by rewrite map_app, concat_app, enc_app. Qed.

Lemma regions_of_app off l k :
  regions_of off (l ++ k) = regions_of off l ++ regions_of (off + length (enc_segs l)) k.
Proof.
  revert off. induction l as [|s l IH]; intros off; simpl; [by rewrite Nat.add_0_r|].
  rewrite IH, <- app_assoc, enc_segs_cons, length_app. do 3 f_equal. lia.
Qed.

Lemma ifs_regions_spec (string ifs : cstr) l : forall pre cur start off acc,
  Forall wf_el cur -> Forall wf_seg l ->
  string = pre ++ enc cur ++ enc_segs l ++ [NUL] -> start = length pre -> off = (start + length (enc cur))%nat ->
  exists start' cur', ifs_regions string ifs (regions_of off l) false start acc = (false, start', acc ++ map enc cur') /\
    exists last, Forall wf_el last /\ str_at string start' = enc last /\
      split_segs ifs l cur = cur' ++ (if bool_decide (last = []) then [] else [last]).
Proof.
  induction l as [|s l IH]; intros pre cur start off acc Hcur Hwf Hs Hst Hoff.
  - simpl. exists start, []. rewrite app_nil_r. split; [done|]. exists cur. split; [done|].
    split; [|done]. subst. unfold str_at. rewrite drop_app_length. simpl.
    by apply cstr_at_no_nul, enc_no_nul.
  - apply Forall_cons in Hwf as [[Hels Hsp] Hl]. rewrite enc_segs_cons in Hs. cbn [regions_of split_segs].
    destruct (splittable s) eqn:Esp; cbn [app].
    + cbn [ifs_regions nulonly begoff endoff]. rewrite <- app_assoc in Hs.
      destruct (ifs_region_spec string ifs (els s) (S (off + length (enc (els s)) - off)) pre cur
        (enc_segs l ++ [NUL]) off start (off + length (enc (els s)))%nat false acc)
        as (pre1 & E & Hst1 & Hw1 & Hpre1); try done; [by apply Hsp|lia|].
      rewrite E. destruct (split_els ifs (els s) None cur) as [fs cur1]. simpl in *.
      edestruct (IH pre1 cur1 (length pre1) (off + length (enc (els s)))%nat (acc ++ map enc fs))
        as (start' & cur' & E2 & last & Hlast & Hstr & Hsplit); try done.
      exists start', (fs ++ cur'). rewrite E2, map_app, app_assoc. split; [done|].
      exists last. split; [done|]. split; [done|]. by rewrite Hsplit, app_assoc.
    + edestruct (IH pre (cur ++ els s) start (off + length (enc (els s)))%nat acc)
        as (start' & cur' & E2 & last & Hlast & Hstr & Hsplit); try done.
      * by apply Forall_app.
      * by rewrite enc_app, <- !app_assoc in *.
      * rewrite enc_app, length_app. lia.
      * exists start', cur'. split; [done|]. by exists last.
Qed.

(** [ifsbreakup] cuts an expanded word into the fields of its segments. *)
Lemma ifsbreakup_fields ifs l :
  Forall wf_seg l ->
  ifsbreakup (enc_segs l ++ [NUL]) ifs (regions_of 0 l) = map enc (fields ifs l).
Proof.
  intros Hwf. unfold ifsbreakup, fields. set (string := enc_segs l ++ [NUL]).
  destruct (ifs_regions_spec string (default defifs ifs) l [] [] 0 0 []) as
    (start & fs & E & last & Hlast & Hstr & ->); try done.
  rewrite E. simpl. rewrite Hstr, map_app.
  assert ((at0 string start ≟ NUL)%cc = bool_decide (last = [])) as ->.
  { assert (hd0 (drop start string) = hd0 (enc last)) as Hhd.
    { rewrite <- Hstr. unfold str_at. destruct (drop start string) as [|c r]; [done|].
      simpl. by destruct (Ascii.eqb_spec c NUL) as [->|_]. }
    unfold at0. rewrite Hhd. pose proof (enc_no_nul _ Hlast) as Hn.
    destruct last as [|e last]; [done|]. rewrite bool_decide_eq_false_2 by done.
    rewrite enc_cons in *. destruct e as [|[] c]; [done..|]. simpl in *.
    apply not_elem_of_cons in Hn as [Hn _]. destruct (Ascii.eqb_spec c NUL); congruence. }
  destruct (bool_decide (last = [])); [by rewrite app_nil_r|done].
Qed.

(** ** Quote removal *)

(** Both uses of the loop: [glob] adds backslashes. *)
Definition unquoted (glob : bool) (f : field) : cstr := if glob then glob_text f else field_text f.

Lemma rmescapes_loop_enc glob f :
  Forall wf_el f -> (glob = true -> no_backslash f = true) ->
  rmescapes_loop glob glob (enc f) = Some (unquoted glob f).
Proof.
  induction 1 as [|[|esc c] f He Hf IH]; intros Hn; [by destruct glob|rewrite enc_cons; simpl; rewrite IH; by destruct glob|].
  assert (unquoted glob (XC esc c :: f) =
    (if glob && esc && needs_backslash c then ["\"%char; c] else [c]) ++ unquoted glob f) as ->.
  { destruct glob; [|done]. unfold unquoted, glob_text. simpl. by destruct esc, (needs_backslash c). }
  assert (glob = true -> no_backslash f = true /\ (esc = false -> c <> "\"%char)) as Hn'.
  { intros Hg. specialize (Hn Hg). unfold no_backslash in *. cbn [forallb] in Hn. bool_prop.
    split; [done|]. by intros -> ->. }
  rewrite enc_cons. destruct He as [_ He]. destruct esc; cbn [el_enc app rmescapes_loop].
  - rewrite (proj2 (Ascii.eqb_neq CTLESC CTLQUOTEMARK)) by done. simpl. rewrite IH by naive_solver.
    destruct glob; [|done]. by destruct (needs_backslash c).
  - destruct (He eq_refl) as [H1 H2].
    rewrite (proj2 (Ascii.eqb_neq c CTLQUOTEMARK)), (proj2 (Ascii.eqb_neq c CTLESC)) by done.
    rewrite andb_false_r. simpl.
    destruct (Ascii.eqb_spec c "\"%char) as [Hc|Hc]; [|by rewrite IH by naive_solver].
    destruct glob; [by destruct (Hn' eq_refl) as [_ []]|]. by rewrite IH.
Qed.

Lemma rmescapes_unquoted glob f : Forall wf_el f -> (glob = true -> no_backslash f = true) ->
  AshParse.rmescapes (enc f) glob = Some (unquoted glob f).
Proof.
  unfold AshParse.rmescapes. induction 1 as [|[|esc c] f He Hf IH]; intros Hn;
    [by destruct glob|by apply (rmescapes_loop_enc glob (XMark :: f)); [constructor|]|].
  destruct esc.
  - by apply (rmescapes_loop_enc glob (XC true c :: f)); [constructor|].
  - rewrite enc_cons. cbn [el_enc app rmescapes_skip].
    destruct (proj2 He eq_refl) as [H1 H2].
    rewrite (proj2 (Ascii.eqb_neq c CTLESC)), (proj2 (Ascii.eqb_neq c CTLQUOTEMARK)) by done. cbn [orb].
    rewrite IH; [by destruct glob|]. intros Hg. specialize (Hn Hg). unfold no_backslash in *. cbn [forallb] in Hn.
    by bool_prop.
Qed.

Lemma rmescapes_enc f : Forall wf_el f -> rmescapes false (enc f) = field_text f.
Proof. intros Hf. unfold rmescapes. by rewrite (rmescapes_unquoted false). Qed.

Lemma preglob_enc f : Forall wf_el f -> no_backslash f = true -> preglob (enc f) = glob_text f.
Proof. intros Hf Hn. unfold preglob, rmescapes. by rewrite (rmescapes_unquoted true). Qed.

(** ** Quotes in fields *)

(** Inside quotes at the end? *)
Fixpoint marks (inq : bool) (f : field) : bool :=
  match f with
  | [] => inq
  | XMark :: f => marks (negb inq) f
  | XC _ _ :: f => marks inq f
  end.

Lemma marks_app inq f g : marks inq (f ++ g) = marks (marks inq f) g.
Proof. revert inq. induction f as [|[|esc c] f IH]; intros inq; simpl; auto. Qed.

Lemma marks_chars inq f : Forall is_char f -> marks inq f = inq.
Proof. induction 1 as [|[|esc c] f He Hf IH]; [done..|done]. Qed.

(** Only unquoted text is split. *)
Fixpoint quotes_ok (inq : bool) (l : list seg) : Prop :=
  match l with
  | [] => inq = false
  | s :: l => (splittable s = true -> inq = false) /\ quotes_ok (marks inq (els s)) l
  end.

Definition field_ok (f : field) : Prop := Forall wf_el f /\ marks false f = false.

Lemma split_els_ok ifs l : forall behind cur,
  Forall wf_el l -> Forall is_char l -> field_ok cur ->
  Forall field_ok (fst (split_els ifs l behind cur)) /\ field_ok (snd (split_els ifs l behind cur)).
Proof.
  induction l as [|e l IH]; intros behind cur Hwf Hch Hcur; [by split; [constructor|]|].
  apply Forall_cons in Hwf as [He Hwf]. apply Forall_cons in Hch as [Hce Hch].
  assert (field_ok (cur ++ [e])) as Hsnoc.
  { destruct Hcur as [H1 H2]. split; [apply Forall_app; split; [done|by constructor]|].
    rewrite marks_app, H2. by destruct e. }
  assert (field_ok []) as Hnil by (by split; [constructor|]).
  assert (forall b, let r := (let '(fs, cur') := split_els ifs l (Some b) [] in (cur :: fs, cur')) in
    Forall field_ok (fst r) /\ field_ok (snd r)) as Hemit.
  { intros b. destruct (IH (Some b) [] Hwf Hch Hnil) as [H1 H2].
    destruct (split_els ifs l (Some b) []) as [fs cur']. simpl in *. split; [by constructor|done]. }
  cbn [split_els]. destruct e as [|esc c]; [by apply IH|].
  destruct (in_ifs ifs c); [|by apply IH].
  destruct behind as [[]|]; destruct (ifs_white c); try by apply IH; try apply Hemit.
  - apply Hemit.
  - destruct (bool_decide (cur = [])); [by apply IH|apply Hemit].
  - apply Hemit.
Qed.

Lemma split_segs_ok ifs l : forall cur,
  Forall wf_seg l -> Forall wf_el cur -> quotes_ok (marks false cur) l ->
  Forall field_ok (split_segs ifs l cur).
Proof.
  induction l as [|s l IH]; intros cur Hwf Hcur Hq; simpl in *.
  - destruct (bool_decide (cur = [])); by repeat constructor.
  - apply Forall_cons in Hwf as [[Hels Hsp] Hl]. destruct Hq as [Hin Hq].
    destruct (splittable s) eqn:E.
    + specialize (Hsp eq_refl). specialize (Hin eq_refl). rewrite Hin in Hq.
      rewrite marks_chars in Hq by done.
      destruct (split_els_ok ifs (els s) None cur Hels Hsp (conj Hcur Hin)) as [H1 [H2 H3]].
      destruct (split_els ifs (els s) None cur) as [fs cur']. simpl in *.
      apply Forall_app. split; [done|]. apply IH; [done|done|]. by rewrite H3.
    + apply IH; [done|by apply Forall_app|]. by rewrite marks_app.
Qed.

(** ** Patterns in fields *)

Lemma skip_quoted_enc f : Forall wf_el f -> marks true f = false -> active_meta true f = false ->
  exists f2, skip_quoted (enc f) = Some (CTLQUOTEMARK :: enc f2) /\ Forall wf_el f2 /\
    marks false f2 = false /\ active_meta false f2 = false /\ (length (enc f2) < length (enc f))%nat.
Proof.
  induction 1 as [|[|esc c] f He Hf IH]; intros Hm Ha; [done|..].
  - exists f. rewrite enc_cons. simpl in *. repeat split; auto.
  - simpl in Hm, Ha. destruct IH as (f2 & E & H1 & H2 & H3 & H4); [done..|].
    exists f2. rewrite enc_cons, length_app. split; [|repeat split; [done..|lia]].
    destruct He as [_ He]. destruct esc; cbn [el_enc app skip_quoted].
    + by rewrite (proj2 (Ascii.eqb_neq CTLESC CTLQUOTEMARK)).
    + destruct (He eq_refl) as [H5 H6].
      by rewrite (proj2 (Ascii.eqb_neq c CTLQUOTEMARK)), (proj2 (Ascii.eqb_neq c CTLESC)).
Qed.

Lemma hasmeta_loop_enc f : forall fuel,
  Forall wf_el f -> marks false f = false -> active_meta false f = false ->
  (length (enc f) < fuel)%nat -> hasmeta_loop fuel (enc f) = false.
Proof.
  induction f as [f IH] using (induction_ltof1 _ (fun f => length (enc f))). unfold ltof in IH.
  intros fuel Hwf Hm Ha Hfuel. (destruct fuel as [|fuel]; [lia|]).
  destruct Hwf as [|[|esc c] f He Hf]; [done|..]; rewrite enc_cons in *; rewrite length_app in *.
  - cbn [el_enc app hasmeta_loop marks active_meta negb] in *. simpl in Hfuel.
    destruct (skip_quoted_enc f) as (f2 & E & H1 & H2 & H3 & H4); [done..|].
    change (hasmeta_loop (S fuel) (CTLQUOTEMARK :: enc f) = false).
    cbn [hasmeta_loop]. change (CTLQUOTEMARK ≟ "*"%char)%cc with false. simpl. rewrite E.
    apply IH; try done; simpl; lia.
  - cbn [marks active_meta negb andb] in Hm, Ha. apply orb_false_iff in Ha as [Ha1 Ha2].
    destruct esc; cbn [el_enc app hasmeta_loop length] in *; simpl in Hfuel.
    + simpl. apply IH; try done; lia.
    + cbn [negb andb] in Ha1. cbn [existsb] in Ha1.
      repeat (apply orb_false_iff in Ha1 as [? Ha1]).
      destruct (proj2 He eq_refl) as [H5 H6].
      rewrite (proj2 (Ascii.eqb_neq c CTLQUOTEMARK)), (proj2 (Ascii.eqb_neq c CTLESC)) by done.
      repeat match goal with H : (c ≟ _)%cc = false |- _ => rewrite H; clear H end. simpl.
      apply IH; try done; lia.
Qed.

Lemma hasmeta_enc f : field_ok f -> active_meta false f = false -> hasmeta (enc f) = false.
Proof. intros [H1 H2] H3. apply hasmeta_loop_enc; try done. lia. Qed.

(** The words of encoded fields. *)
Lemma expandmeta_fields fnmatch readdir lstat noglob fs :
  Forall field_ok fs ->
  expandmeta fnmatch readdir lstat noglob (map enc fs) =
  concat (A := cstr) <$> mapM (field_words fnmatch readdir lstat noglob) fs.
Proof.
  set (W := field_words fnmatch readdir lstat noglob).
  assert (forall f, field_ok f ->
    W f = (found ← (if noglob || negb (hasmeta (enc f)) then Some [] else expmeta_word fnmatch readdir lstat (enc f));
           Some (match found with [] => [field_text f] | _ => expsort found end))) as HW.
  { intros f Hf. unfold W, field_words. destruct noglob; [done|].
    destruct (active_meta false f) eqn:Ea; simpl; [|by rewrite (hasmeta_enc f Hf Ea)].
    rewrite rmescapes_enc by apply Hf. destruct (if negb _ then _ else _); [simpl; by rewrite app_nil_r|done]. }
  clearbody W. induction 1 as [|f fs Hf Hfs IH]; [done|]. cbn [map expandmeta].
  rewrite IH, rmescapes_enc by apply Hf.
  change (mapM W (f :: fs)) with (y ← W f; k ← mapM W fs; Some (y :: k)). rewrite HW by done.
  destruct (if _ || _ then _ else _); [simpl|done]. by destruct (mapM W fs).
Qed.
