(* ===== verification/AshExpandRun.v ===== *)
(** * shell/ash.c: running the expander

    What [varvalue], [evalvar] and [expbackq] put on the stack for the parts of
    AshParseSpec's words, under each of the flags the evaluator expands words
    with. *)

From Stdlib Require Import Ascii String ZArith Lia.
From stdpp Require Import base gmap list option strings.
From S2P Require Import Prelude Clib LibbbStr ShMath AshInput AshLex AshParse AshParseSpec AshBase AshExpand AshExpandSpec AshExpandIfs.

Local Open Scope Z_scope.
Local Open Scope ash_scope.

(** ** The flags words are expanded with, and where [reject] then points *)

(** [q]: quotes are kept for field splitting and patterns. *)
Inductive flag_ok : bool -> Z -> nat -> Prop :=
  | flag_full : flag_ok true EXP_FULL 2
  | flag_case : flag_ok true EXP_CASE 2
  | flag_redir : flag_ok false 8 2
  | flag_plain : flag_ok false 0 2
  | flag_assign : flag_ok false EXP_VARTILDE 0
  | flag_assign2 : flag_ok false (Z.lor EXP_VARTILDE EXP_VARTILDE2) 1.

Definition inquotes (quoted : bool) : Z := if quoted then EXP_QUOTED else 0.

(** What the elements look like on the stack. *)
Definition emitted (q : bool) (f : field) : cstr := if q then enc f else field_text f.

Lemma emitted_app q f g : emitted q (f ++ g) = emitted q f ++ emitted q g.
Proof. destruct q; [apply enc_app|apply field_text_app]. Qed.

Lemma emitted_cons q e f : emitted q (e :: f) = (if q then el_enc e else el_text e) ++ emitted q f.
Proof. by destruct q. Qed.

Definition emitted_segs (q : bool) (l : list seg) : cstr := emitted q (concat (map els l)).

Lemma emitted_segs_app q l k : emitted_segs q (l ++ k) = emitted_segs q l ++ emitted_segs q k.
Proof. unfold emitted_segs. by rewrite map_app, concat_app, emitted_app. Qed.

Lemma emitted_segs_cons q s l : emitted_segs q (s :: l) = emitted q (els s) ++ emitted_segs q l.
Proof. unfold emitted_segs. simpl. by rewrite emitted_app. Qed.

Lemma emitted_segs_one q s : emitted_segs q [s] = emitted q (els s).
Proof. unfold emitted_segs. simpl. by rewrite app_nil_r. Qed.

(** The regions recorded, if anyone looks at them. *)
Definition recorded (q : bool) (off : nat) (l : list seg) (old new : list ifsregion) : Prop :=
  q = true -> new = old ++ regions_of off l.

Lemma recorded_app q off l k a b c :
  recorded q off l a b -> recorded q (off + length (emitted_segs q l)) k b c -> recorded q off (l ++ k) a c.
Proof.
  intros H1 H2 ->. rewrite H2, H1 by done. rewrite regions_of_app, app_assoc. unfold emitted_segs, enc_segs. done.
Qed.

Section Run.
Context {St : Type} `{Shell St}.
Context (bqcmd : node -> M St (option (list cstr) * Z)) (getpwnam : cstr -> option cstr) (fnmatch : cstr -> cstr -> bool).

(** ** Values *)

Lemma mem_char_value q flag rej quoted extra c :
flag_ok q flag rej -> extra = 0 \/ extra = EXP_KEEPNUL -> c <> NUL ->
mem_char (Z.lor (Z.lor flag (inquotes quoted)) extra) c = emitted q [xc_value quoted c].
Proof.
intros Hf He Hc. unfold mem_char. rewrite (proj2 (Ascii.eqb_neq c NUL)) by done.
assert (has (Z.lor (Z.lor flag (inquotes quoted)) extra) QUOTES_ESC = q /\
        has (Z.lor (Z.lor flag (inquotes quoted)) extra) EXP_QUOTED = quoted) as [-> ->].
{ destruct Hf, quoted, He as [-> | ->]; by split. }
simpl negb. destruct q; [|by destruct quoted].
unfold xc_value, xc_in, is_class. destruct quoted; simpl.
- rewrite <- orb_comm. destruct (bool_decide (SIT (Some c) DQSYNTAX = CCTL)) eqn:E1;
    destruct (bool_decide (SIT (Some c) DQSYNTAX = CBACK)); done.
- rewrite orb_false_r. by destruct (bool_decide (SIT (Some c) BASESYNTAX = CCTL)).
Qed.

Definition values (q quoted : bool) (v : cstr) : cstr := emitted q (map (xc_value quoted) v).

Lemma mem_chars q flag rej quoted extra v :
flag_ok q flag rej -> extra = 0 \/ extra = EXP_KEEPNUL -> NUL ∉ v ->
concat (map (mem_char (Z.lor (Z.lor flag (inquotes quoted)) extra)) v) = values q quoted v.
Proof.
intros Hf He. induction v as [|c v IH]; intros Hn; [by destruct q|].
apply not_elem_of_cons in Hn as [Hc Hn]. unfold values in *. simpl. rewrite IH by done.
rewrite (mem_char_value q flag rej) by done. by rewrite <- emitted_app.
Qed.

Lemma has_discard q flag rej quoted : flag_ok q flag rej -> has (Z.lor flag (inquotes quoted)) EXP_DISCARD = false.
Proof. by destruct 1, quoted. Qed.

Lemma valid_name_no_eq name : valid_name name = true -> "="%char ∉ name.
Proof.
assert (forall a, is_name a = true -> is_in_name a = true) as Hin by (intros a; all_chars a; congruence).
assert (forall n, forallb is_in_name n = true -> "="%char ∉ n) as Hall.
{ induction n as [|c n IH]; intros Hn; [apply not_elem_of_nil|]. simpl in Hn. bool_prop.
  apply not_elem_of_cons. split; [by intros <-|auto]. }
destruct name as [|c n]; intros Hn; [done|]. apply Hall. simpl in *. bool_prop.
apply andb_true_iff. auto.
Qed.

(** A name is none of the special parameters. *)
Lemma varvalue_name name rest flag quoted x :
valid_name name = true -> has flag EXP_DISCARD = false ->
varvalue (name ++ "="%char :: rest) VSNORMAL flag quoted x =
match lookupvar (x_sh x) name with
| Some p => (let! n := strtodest p (Z.lor flag EXP_KEEPNUL) in ret (Z.of_nat n)) x
| None => Ok x (-1)
end.
Proof.
intros Hn Hd. unfold varvalue. rewrite Hd.
assert (var_name (name ++ "="%char :: rest) = name) as ->.
{ unfold var_name. rewrite strchrnul_app by by apply valid_name_no_eq.
  rewrite length_app, Nat.add_sub. apply take_app_length. }
destruct name as [|c n]; [done|]. apply andb_true_iff in Hn as [Hc _].
assert (forall a, is_name a = false -> (c ≟ a)%cc = false) as Hne.
{ intros a Ha. destruct (Ascii.eqb_spec c a); congruence. }
assert (isdigit c = false) as Hdig by (revert Hc; clear; all_chars c; congruence).
change (Z.land VSNORMAL VSTYPE) with 1. cbn -[strtodest Z.lor]. rewrite !Hne, Hdig by done.
unfold bind at 1, x_lookupvar, get. by destruct (lookupvar (x_sh x) (c :: n)).
Qed.

(** From [x] the segments [segs] were written; [s] and [bq] are the shell and the
  substitutions left. *)
Definition wrote (q : bool) (x : xstate St) (segs : list seg) (s : St) (bq : list node) (x' : xstate St) : Prop :=
x_sh x' = s /\ x_out x' = x_out x ++ emitted_segs q segs /\ x_argbackq x' = bq /\
recorded q (length (x_out x)) segs (x_ifs x) (x_ifs x').

(** A run that does what [r] says of the shell and returns [a]. *)
Definition yields {A} (q : bool) (x : xstate St) (bq : list node) (r : res St (list seg)) (y : res (xstate St) A)
  (a : A) : Prop :=
match r with
| Ok s segs => exists x', y = Ok x' a /\ wrote q x segs s bq x'
| Raise s e => exists x', y = Raise x' e /\ x_sh x' = s
| Wild => y = Wild
end.

(** A value and its region. *)
Lemma wrote_value q (quoted : bool) v (x : xstate St) s bq ifs :
(q = true -> ifs = x_ifs x ++ (if quoted then @nil ifsregion else
   [mk_region (length (x_out x)) (length (x_out x ++ values q quoted v)) false])) ->
wrote q x [value_seg quoted v] s bq (mk_x s (x_out x ++ values q quoted v) bq ifs).
Proof.
intros Hifs. split; [done|]. cbn [x_out x_argbackq x_ifs].
split; [by rewrite emitted_segs_one|]. split; [done|].
intros Hq. rewrite Hifs by done. subst q. unfold values. simpl. rewrite length_app. by destruct quoted.
Qed.

Lemma at_sign_name name rest : valid_name name = true -> (hd0 (name ++ rest) ≟ "@"%char)%cc = false.
Proof.
destruct name as [|c n]; [done|]. simpl. intros Hn. apply andb_true_iff in Hn as [Hc _].
destruct (Ascii.eqb_spec c "@"%char) as [->|]; done.
Qed.

Lemma strchr_name name rest : valid_name name = true -> strchr (name ++ "="%char :: rest) "="%char = Some ("="%char :: rest).
Proof.
intros Hn. apply valid_name_no_eq in Hn. induction name as [|c n IH]; [done|].
apply not_elem_of_cons in Hn as [Hc Hn]. simpl. rewrite (proj2 (Ascii.eqb_neq c "="%char)) by congruence.
by apply IH.
Qed.

Context (Hvals : forall (s : St) n v, lookupvar s n = Some v -> NUL ∉ v).

Lemma strtodest_value q flag rej quoted extra v (x : xstate St) :
flag_ok q flag rej -> extra = 0 \/ extra = EXP_KEEPNUL -> NUL ∉ v ->
strtodest v (Z.lor (Z.lor flag (inquotes quoted)) extra) x =
Ok (set_out (x_out x ++ values q quoted v) x) (length v).
Proof.
intros Hf He Hv. unfold strtodest, memtodest. by rewrite (mem_chars q flag rej quoted extra v Hf He Hv).
Qed.

Lemma evalvar_name rec q flag rej quoted name rest x :
flag_ok q flag rej -> valid_name name = true ->
yields q x (x_argbackq x) (ref_var quoted name (x_sh x))
  (evalvar fnmatch rec (chr VSNORMAL :: name ++ "="%char :: rest) (Z.lor flag (inquotes quoted)) x) rest.
Proof.
intros Hf Hn. pose proof (has_discard q flag rej quoted Hf) as Hd.
set (fl := Z.lor flag (inquotes quoted)) in *.
assert (Z.land fl EXP_QUOTED = inquotes quoted) as Hq by (subst fl; by destruct Hf, quoted).
unfold evalvar. change (uc (chr VSNORMAL)) with VSNORMAL. rewrite strchr_name by done.
change (Z.land VSNORMAL VSTYPE) with 1. change (has VSNORMAL VSNUL) with false.
unfold bind at 1, here, get. cbn -[varvalue Z.lor Z.land lit].
unfold bind at 1. unfold bind at 1. rewrite varvalue_name by done.
unfold ref_var. destruct (lookupvar (x_sh x) name) as [v|] eqn:El.
- rewrite (bind_run _ _ _ _ _ (strtodest_value q flag rej quoted EXP_KEEPNUL v x Hf (or_intror eq_refl) (Hvals _ _ _ El))).
  cbn -[Z.lor Z.land lit]. rewrite (proj2 (Z.ltb_ge _ _)) by lia. cbn -[Z.lor lit]. rewrite Z.lor_0_r, Hd, Hq.
  rewrite at_sign_name, Z.land_0_l by done.
  destruct quoted; (eexists; split; [reflexivity|]);
    [apply (wrote_value q true)|apply (wrote_value q false)]; [by rewrite app_nil_r|done].
- cbn -[Z.lor Z.land lit].
  assert (Z.land EXP_DISCARD (Z.lnot fl) =? 0 = false) as -> by (subst fl; by destruct Hf, quoted).
  assert (has (Z.lor fl EXP_DISCARD) EXP_DISCARD = true) as -> by (subst fl; by destruct Hf, quoted).
  destruct (uflag (x_sh x) =? 0); cbn -[lit].
  + exists x. split; [done|]. split; [done|]. split; [by destruct q; rewrite app_nil_r|].
    split; [done|]. intros _. by rewrite app_nil_r.
  + assert (take (length (name ++ "="%char :: rest) - length rest - 1) (name ++ "="%char :: rest) = name) as ->.
    { rewrite length_app. cbn [length]. replace (_ - _ - 1)%nat with (length name) by lia. apply take_app_length. }
    eexists. by split.
Qed.

(** ** Command substitution *)

Lemma values_app q quoted v w : values q quoted (v ++ w) = values q quoted v ++ values q quoted w.
Proof. unfold values. by rewrite map_app, emitted_app. Qed.

Lemma mem_chars_any q flag rej quoted v :
flag_ok q flag rej ->
concat (map (mem_char (Z.lor flag (inquotes quoted))) v) =
values q quoted (filter (fun c => (c ≟ NUL)%cc = false) v).
Proof.
intros Hf. induction v as [|c v IH]; [by destruct q|]. simpl map. simpl concat. rewrite IH, filter_cons.
destruct (Ascii.eqb_spec c NUL) as [->|Hc].
- rewrite decide_False by done. unfold mem_char. simpl negb. by destruct Hf, quoted.
- rewrite decide_True by done. change (?a :: ?b) with ([a] ++ b). rewrite values_app. f_equal.
  rewrite <- (Z.lor_0_r (Z.lor flag (inquotes quoted))). apply (mem_char_value q flag rej); auto.
Qed.

Lemma for_each_reads q flag rej quoted reads : forall x : xstate St,
flag_ok q flag rej ->
for_each (fun buf => memtodest buf (Z.lor flag (inquotes quoted)) ;; ret tt) reads x =
Ok (set_out (x_out x ++ values q quoted (filter (fun c => (c ≟ NUL)%cc = false) (concat reads))) x) tt.
Proof.
induction reads as [|r reads IH]; intros x Hf; cbn [for_each concat].
- unfold ret. f_equal. destruct x, q; unfold set_out; simpl; by rewrite app_nil_r.
- erewrite bind_run; [|reflexivity]. rewrite IH by done. cbn. rewrite (mem_chars_any q flag rej) by done.
  by rewrite <- app_assoc, filter_app, values_app.
Qed.

(** Trailing newlines are dropped, whatever is in front of them. *)
Lemma values_last_nl q quoted : values q quoted [NL] = [NL].
Proof. by destruct q, quoted. Qed.

Lemma values_last q quoted c out : c <> NL -> at0 (out ++ values q quoted [c]) (length (out ++ values q quoted [c]) - 1) = c.
Proof.
intros Hc. assert (exists l, values q quoted [c] = l ++ [c]) as [l ->].
{ unfold values, xc_value, xc_in.
  destruct q, quoted; simpl; [destruct (_ || _)|destruct (is_class _ _ _)| |];
    first [by exists [CTLESC]|by exists []]. }
rewrite app_assoc, length_app. simpl. rewrite Nat.add_sub, at0_app. done.
Qed.

Lemma stunput_nl_values q quoted out v : forall fuel,
(length v <= fuel)%nat ->
stunput_nl (length out) fuel (out ++ values q quoted v) = out ++ values q quoted (rev (drop_nl (rev v))).
Proof.
induction v as [|c v IH] using rev_ind; intros fuel Hf.
- assert (values q quoted [] = []) as Hnil by (by destruct q). cbn [rev drop_nl]. rewrite Hnil, app_nil_r.
  destruct fuel as [|fuel]; [done|]. cbn [stunput_nl]. by rewrite (proj2 (Nat.ltb_ge _ _)) by lia.
- rewrite rev_app_distr. cbn [rev app drop_nl]. rewrite length_app in Hf. simpl in Hf.
  destruct fuel as [|fuel]; [lia|]. cbn [stunput_nl].
  rewrite values_app, app_assoc.
  destruct (Ascii.eqb_spec c NL) as [->|Hc].
  + rewrite values_last_nl. rewrite (length_app _ [NL]). cbn [length]. rewrite Nat.add_sub, at0_app. simpl hd0.
    rewrite (proj2 (Nat.ltb_lt _ _)) by (rewrite !length_app; lia). rewrite take_app_length. simpl.
    apply IH. lia.
  + rewrite values_last by done. rewrite (proj2 (Ascii.eqb_neq c NL)) by done. rewrite andb_false_r.
    cbn [rev]. by rewrite rev_involutive, values_app, app_assoc.
Qed.

Lemma values_length q quoted v : (length v <= length (values q quoted v))%nat.
Proof.
unfold values. induction v as [|c v IH]; [simpl; lia|]. simpl map. rewrite emitted_cons, length_app.
simpl. destruct q, (xc_value quoted c) as [|[] ?] eqn:E; simpl in *; try lia; by destruct quoted.
Qed.

Lemma expbackq_cmd q flag rej quoted (n : node) bq (x : xstate St) :
flag_ok q flag rej -> n <> Null -> x_argbackq x = n :: bq ->
yields q x bq
  (match bqcmd n (x_sh x) with
   | Ok s (Some reads, status) => Ok (set_back_exitstatus status s) [value_seg quoted (cmd_text reads)]
   | Ok s (None, _) => Ok s [value_seg quoted []]
   | Raise s e => Raise s e
   | Wild => Wild
   end)
  (expbackq bqcmd n (Z.lor flag (inquotes quoted)) x) tt.
Proof.
intros Hf Hn Hbq. unfold expbackq. rewrite (has_discard q flag rej quoted Hf).
set (fl := Z.lor flag (inquotes quoted)).
assert (has fl EXP_QUOTED = quoted) as Hq by (subst fl; by destruct Hf, quoted).
set (startloc := length (x_out x)).
assert (forall s v, yields q x bq (Ok s [value_seg quoted (rev (drop_nl (rev v)))])
  (bind (bind (modify (fun y : xstate St => set_out (stunput_nl startloc (length (x_out y)) (x_out y)) y)) (fun _ =>
     let! dest := here in
     if has fl EXP_QUOTED then ret tt else recordregion startloc dest false))
     (fun _ => modify (fun y => set_argbackq (tl (x_argbackq y)) y))
    (mk_x s (x_out x ++ values q quoted v) (x_argbackq x) (x_ifs x))) tt) as Htail.
{ intros s v. rewrite Hq. unfold startloc. unfold bind, modify, here, get, set_out, set_argbackq, yields. cbn [x_sh x_out x_argbackq x_ifs].
  rewrite stunput_nl_values by (rewrite length_app; pose proof (values_length q quoted v); lia). rewrite Hbq.
  destruct quoted; (eexists; split; [reflexivity|]);
    [apply (wrote_value q true)|apply (wrote_value q false)]; [by rewrite app_nil_r|done]. }
assert (forall A (a b : A), match n with Null => a | _ => b end = b) as Hnn by (intros; by destruct n).
rewrite Hnn. clear Hnn. unfold bind, here, get, on_sh in *.
destruct (bqcmd n (x_sh x)) as [s [[reads|] status]|s e|].
- destruct (Htail (set_back_exitstatus status s) (filter (fun c => (c ≟ NUL)%cc = false) (concat reads)))
    as (x' & Ht & Hw). exists x'. split; [|done]. rewrite <- Ht. cbn [ret].
  pose proof (for_each_reads q flag rej quoted reads (set_sh s x) Hf) as Hr. fold fl in Hr.
  unfold bind in Hr. by rewrite Hr.
- destruct (Htail s []) as (x' & Ht & Hw). exists x'. split; [|done]. rewrite <- Ht.
  assert (values q quoted [] = []) as -> by (by destruct q). by rewrite app_nil_r.
- by exists (set_sh s x).
- done.
Qed.
End Run.
