(* ===== verification/AshExpandCorrect.v ===== *)
(** * shell/ash.c: expansion computes what AshExpandSpec means

    [argstr] over the encoded text of a word: rules for each kind of character,
    then for each part, then for words; with AshExpandIfs, [expandarg] yields the
    words of [ref_words]. *)

From Stdlib Require Import Ascii String ZArith Lia.
From stdpp Require Import base gmap list option strings.
From S2P Require Import Prelude Clib LibbbStr ShMath AshInput AshLex AshParse AshParseSpec AshBase AshExpand AshExpandSpec AshExpandIfs AshExpandRun.

Local Open Scope Z_scope.
Local Open Scope ash_scope.

(** The unquoted characters [argstr] copies. *)
Definition plain (c : ascii) : Prop := c <> NUL /\ c ∉ [CTLQUOTEMARK; CTLENDVAR; CTLESC; CTLVAR; CTLBACKQ; CTLARI; CTLENDARI].

Definition wf_text_el (e : xel) : Prop :=
  match e with XMark => True | XC true c => c <> NUL | XC false c => plain c end.

(** No "~" behind an "=" or ":" that [argstr] would look at. *)
Definition tilde_ok (rej : nat) (p : cstr) : Prop :=
  rej = 2%nat \/ forall l c r, p = l ++ c :: "~"%char :: r -> c <> "="%char /\ c <> ":"%char.

Lemma tilde_ok_app rej s p : tilde_ok rej (s ++ p) -> tilde_ok rej p.
Proof. intros [?|Hs]; [by left|right]. intros l c r ->. apply (Hs (s ++ l) c r). by rewrite <- app_assoc. Qed.

Section Loop.
Context {St : Type} `{Shell St}.
Context (bqcmd : node -> M St (option (list cstr) * Z)) (getpwnam : cstr -> option cstr) (fnmatch : cstr -> cstr -> bool).
Context (rec : cstr -> Z -> M (xstate St) cstr).

Local Abbreviation loop := (argstr_loop bqcmd getpwnam fnmatch rec).
Local Abbreviation X := (M (xstate St)).

(** [start:] *)
Definition restart (f : nat) (p : cstr) (flag : Z) (rej : nat) (inq : Z) : X cstr :=
let! startloc := here in loop f p 0 flag rej false inq startloc.

(** What happens at a control character, the text in front of it written. *)
Definition at_special (f : nat) (c : ascii) (p : cstr) (flag : Z) (rej : nat) (inq : Z) (startloc : nat) : X cstr :=
if (c ≟ CTLQUOTEMARK)%cc then
  if (inq =? 0) && bool_decide (take 5 p = drop 1 dolatstr) then
    let! p := evalvar fnmatch rec (tl p) (Z.lor flag EXP_QUOTED) in restart f (tl p) flag rej inq
  else
    let inq := Z.lxor inq EXP_QUOTED in
    if has flag QUOTES_ESC then loop f (CTLQUOTEMARK :: p) 1 flag rej false inq (S startloc)
    else loop f p 0 flag rej false inq startloc
else if (c ≟ CTLESC)%cc then
  if has flag QUOTES_ESC then loop f (CTLESC :: p) 2 flag rej false inq (S (S startloc))
  else loop f p 1 flag rej false inq (S startloc)
else if (c ≟ CTLVAR)%cc then
  let! p := evalvar fnmatch rec p (Z.lor flag inq) in restart f p flag rej inq
else if (c ≟ CTLBACKQ)%cc then
  let! bq := get x_argbackq in
  match bq with
  | [] => wild
  | n :: _ => expbackq bqcmd n (Z.lor flag inq) ;; restart f p flag rej inq
  end
else
  let! p := expari rec p (Z.lor flag inq) in restart f p flag rej inq.

(** Without field splitting of literal text, the text in front is simply written. *)
Lemma flush (t : cstr) flag e sl (x : xstate St) w :
has flag EXP_DISCARD = false -> (t = [] -> w = []) ->
exists sl', (if (0 <? length t)%nat && negb (has flag EXP_DISCARD) then
    let! loc := here in
    emit w ;;
    let newloc := (loc + length t - e)%nat in
    (if false && (sl <? newloc)%nat then recordregion sl newloc false else ret tt) ;;
    ret newloc
  else ret sl) x = Ok (set_out (x_out x ++ w) x) sl'.
Proof.
intros -> Hw. destruct t as [|c t].
- exists sl. rewrite Hw by done. destruct x. unfold set_out. simpl. by rewrite app_nil_r.
- eexists. cbn. reflexivity.
Qed.

Definition in_reject (rej : nat) (c : ascii) : bool := existsb (Ascii.eqb c) (drop rej spclchars).

Lemma strcspn_stop rej c rest : in_reject rej c = true -> strcspn (c :: rest) (drop rej spclchars) = O.
Proof. unfold in_reject. simpl. by intros ->. Qed.

Lemma loop_plain f pre c rest flag rej inq sl x :
in_reject rej c = false ->
loop f (pre ++ c :: rest) (length pre) flag rej false inq sl x =
loop f ((pre ++ [c]) ++ rest) (length (pre ++ [c])) flag rej false inq sl x.
Proof.
intros Hc. rewrite <- app_assoc. cbn [app]. destruct f as [|f]; [done|]. cbn [argstr_loop].
assert (length pre + strcspn (drop (length pre) (pre ++ c :: rest)) (drop rej spclchars) =
  length (pre ++ [c]) + strcspn (drop (length (pre ++ [c])) (pre ++ c :: rest)) (drop rej spclchars))%nat as ->.
{ rewrite drop_app_length, length_app. cbn [length].
  replace (drop (length pre + 1) (pre ++ c :: rest)) with rest.
  - cbn [strcspn]. unfold in_reject in Hc. rewrite Hc. lia.
  - rewrite drop_app_ge by lia. by replace (length pre + 1 - length pre)%nat with 1%nat by lia. }
done.
Qed.

Definition control (c : ascii) : Prop := c = CTLQUOTEMARK \/ c = CTLESC \/ c = CTLVAR \/ c = CTLBACKQ.

Lemma loop_special q f pre c rest flag rej inq sl x :
flag_ok q flag rej -> control c ->
exists sl', loop (S f) (pre ++ c :: rest) (length pre) flag rej false inq sl x =
  at_special f c rest flag rej inq sl' (set_out (x_out x ++ pre) x).
Proof.
intros Hf Hc.
assert (in_reject rej c = true) as Hr by (by destruct Hf, Hc as [->|[->|[->| ->]]]).
assert (has flag EXP_DISCARD = false) as Hd by (by destruct Hf).
destruct (flush pre flag 0 sl x pre Hd (fun e => e)) as [sl' Hflush]. exists sl'.
cbn [argstr_loop]. rewrite drop_app_length, strcspn_stop, Nat.add_0_r, at0_app by done. cbn [hd0].
assert (negb (Z.testbit (uc c) 7) || (c ≟ CTLENDARI)%cc || (c ≟ CTLENDVAR)%cc = false) as ->
  by (by destruct Hc as [->|[->|[->| ->]]]).
cbn [andb]. rewrite take_app_length. erewrite bind_run by exact Hflush. clear Hflush.
assert (((c ≟ "="%char)%cc || (c ≟ ":"%char)%cc) = false) as -> by (by destruct Hc as [->|[->|[->| ->]]]).
replace (drop (S (length pre)) (pre ++ c :: rest)) with rest; [done|].
rewrite drop_app_ge by lia. by replace (S (length pre) - length pre)%nat with 1%nat by lia.
Qed.

Lemma loop_colon q f pre c rest flag rej inq sl x :
flag_ok q flag rej -> in_reject rej c = true -> c = "="%char \/ c = ":"%char -> hd0 rest <> "~"%char ->
exists sl' flag' rej', loop (S f) (pre ++ c :: rest) (length pre) flag rej false inq sl x =
  loop f rest 0 flag' rej' false inq sl' (set_out (x_out x ++ pre ++ [c]) x) /\
  flag_ok q flag' rej' /\ rej <> 2%nat.
Proof.
intros Hf Hr Hc Ht. assert (has flag EXP_DISCARD = false) as Hd by (by destruct Hf).
destruct (flush (pre ++ [c]) flag 0 sl x (pre ++ [c]) Hd (fun e => e)) as [sl' Hflush].
rewrite length_app in Hflush. cbn [length] in Hflush. rewrite Nat.add_1_r in Hflush.
cbn [argstr_loop]. rewrite drop_app_length, strcspn_stop, Nat.add_0_r, at0_app by done. cbn [hd0].
assert (negb (Z.testbit (uc c) 7) || (c ≟ CTLENDARI)%cc || (c ≟ CTLENDVAR)%cc = true) as ->
  by (by destruct Hc as [-> | ->]).
assert (ends_text c = false) as -> by (by destruct Hc as [-> | ->]). cbn [andb].
assert (take (S (length pre)) (pre ++ c :: rest) = pre ++ [c]) as ->.
{ rewrite take_app_ge by lia. by replace (S (length pre) - length pre)%nat with 1%nat by lia. }
exists sl'. erewrite bind_run by exact Hflush. clear Hflush.
replace (drop (S (length pre)) (pre ++ c :: rest)) with rest.
2:{ rewrite drop_app_ge by lia. by replace (S (length pre) - length pre)%nat with 1%nat by lia. }
assert (((c ≟ "="%char)%cc || (c ≟ ":"%char)%cc) = true) as -> by (by destruct Hc as [-> | ->]).
rewrite (proj2 (Ascii.eqb_neq (hd0 rest) "~"%char)) by done.
destruct Hc as [-> | ->].
- destruct Hf; try discriminate Hr. eexists _, _. split; [reflexivity|]. split; [constructor|done].
- destruct Hf; try discriminate Hr; (eexists _, _; split; [reflexivity|]; split; [constructor|done]).
Qed.

(** The end of the text. *)
Lemma loop_end q f pre flag rej inq sl x :
flag_ok q flag rej ->
loop (S f) pre (length pre) flag rej false inq sl x = Ok (set_out (x_out x ++ pre ++ [NUL]) x) [].
Proof.
intros Hf. assert (has flag EXP_DISCARD = false) as Hd by (by destruct Hf).
assert (has flag EXP_WORD = false) as Hw by (by destruct Hf).
cbn [argstr_loop]. rewrite drop_all. cbn [strcspn]. rewrite Nat.add_0_r.
assert (at0 pre (length pre) = NUL) as -> by (unfold at0; by rewrite drop_all).
change (negb (Z.testbit (uc NUL) 7) || (NUL ≟ CTLENDARI)%cc || (NUL ≟ CTLENDVAR)%cc) with true.
change (ends_text NUL) with true. cbn [andb]. rewrite Hw, (take_ge pre) by lia.
rewrite Hd. cbn [Nat.ltb Nat.leb andb negb]. unfold bind, here, get, emit, modify, ret. cbn.
rewrite Nat.sub_0_r, firstn_all. by rewrite (drop_ge pre) by lia.
Qed.

(** ** Parts *)

(** Reading [text] with quotes at [i] does what [r] says, and leaves quotes at
  [j]; characters still to be written are a prefix of the text. *)
Definition steps (q : bool) (text : cstr) (bqs : list node) (r : M St (list seg)) (i j : bool) : Prop :=
forall fuel pre rest flag rej sl x bq,
  flag_ok q flag rej -> tilde_ok rej (text ++ rest) -> (length (text ++ rest) < fuel)%nat ->
  x_argbackq x = bqs ++ bq ->
  let run := loop fuel (pre ++ text ++ rest) (length pre) flag rej false (inquotes i) sl x in
  match r (x_sh x) with
  | Ok s segs => exists fuel' pre' flag' rej' sl' x',
      run = loop fuel' (pre' ++ rest) (length pre') flag' rej' false (inquotes j) sl' x' /\
      flag_ok q flag' rej' /\ tilde_ok rej' rest /\ (length rest < fuel')%nat /\
      x_sh x' = s /\ x_out x' ++ pre' = (x_out x ++ pre) ++ emitted_segs q segs /\ x_argbackq x' = bq /\
      recorded q (length (x_out x ++ pre)) segs (x_ifs x) (x_ifs x')
  | Raise s e => exists x', run = Raise x' e /\ x_sh x' = s
  | Wild => run = Wild
  end.

Lemma steps_nil q i : steps q [] [] (ret []) i i.
Proof.
intros fuel pre rest flag rej sl x bq Hf Ht Hfuel Hbq. simpl.
exists fuel, pre, flag, rej, sl, x. repeat (split; [done|]).
split; [by destruct q; rewrite app_nil_r|]. split; [done|]. intros _. by rewrite app_nil_r.
Qed.

Lemma steps_app q t1 t2 b1 b2 r1 r2 i j k :
steps q t1 b1 r1 i j -> steps q t2 b2 r2 j k ->
steps q (t1 ++ t2) (b1 ++ b2) (let! a := r1 in let! b := r2 in ret (a ++ b)) i k.
Proof.
intros H1 H2 fuel pre rest flag rej sl x bq Hf Ht Hfuel Hbq run. subst run.
rewrite <- !app_assoc in *. specialize (H1 fuel pre (t2 ++ rest) flag rej sl x (b2 ++ bq) Hf Ht Hfuel Hbq).
unfold bind at 1. cbv zeta in H1. destruct (r1 (x_sh x)) as [s1 segs1|s1 e|]; [|done|done].
destruct H1 as (f1 & p1 & fl1 & rej1 & sl1 & x1 & -> & Hf1 & Ht1 & Hfu1 & Hs1 & Ho1 & Hb1 & Hr1).
specialize (H2 f1 p1 rest fl1 rej1 sl1 x1 bq Hf1 Ht1 Hfu1 Hb1). cbv zeta in H2.
unfold bind. rewrite Hs1 in H2. destruct (r2 s1) as [s2 segs2|s2 e|]; [|done|done].
destruct H2 as (f2 & p2 & fl2 & rej2 & sl2 & x2 & -> & Hf2 & Ht2 & Hfu2 & Hs2 & Ho2 & Hb2 & Hr2).
exists f2, p2, fl2, rej2, sl2, x2. repeat (split; [done|]).
rewrite emitted_segs_app. split; [by rewrite Ho2, Ho1, <- !app_assoc|]. split; [done|].
eapply recorded_app; [exact Hr1|]. by rewrite Ho1, length_app in Hr2.
Qed.

(** How text that is not split is cut into segments does not matter. *)
Lemma regions_unsplit l : Forall (fun s => splittable s = false) l -> forall off, regions_of off l = [].
Proof. induction 1 as [|s l Hs Hl IH]; intros off; simpl; [done|]. by rewrite Hs, IH. Qed.

Lemma steps_regroup q t b l k i j :
steps q t b (ret l) i j ->
Forall (fun s => splittable s = false) l -> Forall (fun s => splittable s = false) k ->
concat (map els l) = concat (map els k) ->
steps q t b (ret k) i j.
Proof.
intros Hs Hl Hk He fuel pre rest flag rej sl x bq Hf Ht Hfuel Hbq.
destruct (Hs fuel pre rest flag rej sl x bq Hf Ht Hfuel Hbq)
  as (f1 & p1 & fl1 & rej1 & sl1 & x1 & E1 & Hf1 & Ht1 & Hfu1 & Hs1 & Ho1 & Hb1 & Hr1).
exists f1, p1, fl1, rej1, sl1, x1. repeat (split; [done|]).
split; [unfold emitted_segs in *; by rewrite <- He|]. split; [done|].
intros Hq. by rewrite Hr1, !regions_unsplit.
Qed.

Lemma inq_xor i : Z.lxor (inquotes i) EXP_QUOTED = inquotes (negb i).
Proof. by destruct i. Qed.

Lemma steps_lit q c i : plain c -> steps q [c] [] (ret [mk_seg false [XC false c]]) i i.
Proof.
intros [Hnul Hc] fuel pre rest flag rej sl x bq Hf Ht Hfuel Hbq run. subst run. cbn [app] in *. simpl.
assert (emitted_segs q [mk_seg false [XC false c]] = [c]) as Hem by (by destruct q).
destruct (in_reject rej c) eqn:Hr.
- assert (c = "="%char \/ c = ":"%char) as Hcol.
  { unfold in_reject in Hr. apply existsb_exists in Hr as (d & Hd & <-%Ascii.eqb_eq).
    apply list_elem_of_In in Hd. assert (c ∈ spclchars) as Hin.
    { rewrite <- (take_drop rej spclchars). apply elem_of_app. by right. }
    unfold spclchars in Hin. rewrite elem_of_app, !elem_of_cons in Hin. set_solver. }
  (destruct fuel as [|f]; [simpl in Hfuel; lia|]).
  assert (hd0 rest <> "~"%char) as Htil.
  { destruct Ht as [-> |Ht]; [by destruct Hcol as [-> | ->]|].
    destruct rest as [|d rest]; [done|]. simpl. intros ->. destruct (Ht [] c rest eq_refl). tauto. }
  destruct (loop_colon q f pre c rest flag rej (inquotes i) sl x Hf Hr Hcol Htil)
    as (sl' & fl' & rej' & E & Hf' & Hrej).
  exists f, [], fl', rej', sl', (set_out (x_out x ++ pre ++ [c]) x). rewrite E. split; [done|]. split; [done|].
  split.
  { right. destruct Ht as [?|Ht]; [done|]. intros l d r ->. by apply (Ht (c :: l) d r). }
  split; [simpl in Hfuel; lia|]. split; [done|]. rewrite Hem, app_nil_r. cbn [x_out set_out].
  split; [by rewrite app_assoc|]. split; [done|]. intros _. by rewrite app_nil_r.
- exists fuel, (pre ++ [c]), flag, rej, sl, x. split; [by apply loop_plain|]. split; [done|].
  split; [by apply (tilde_ok_app rej [c])|]. split; [simpl in Hfuel; lia|]. split; [done|].
  rewrite Hem. split; [by rewrite app_assoc|]. split; [done|]. intros _. by rewrite app_nil_r.
Qed.

Lemma steps_esc q c i : steps q [CTLESC; c] [] (ret [mk_seg false [XC true c]]) i i.
Proof.
intros fuel pre rest flag rej sl x bq Hf Ht Hfuel Hbq run. subst run. cbn [app] in *. simpl.
(destruct fuel as [|f]; [simpl in Hfuel; lia|]).
destruct (loop_special q f pre CTLESC (c :: rest) flag rej (inquotes i) sl x Hf ltac:(unfold control; auto))
  as [sl' E]. rewrite E. unfold at_special. change (CTLESC ≟ CTLQUOTEMARK)%cc with false.
change (CTLESC ≟ CTLESC)%cc with true. cbv iota.
assert (has flag QUOTES_ESC = q) as -> by (by destruct Hf).
exists f, (if q then [CTLESC; c] else [c]), flag, rej, (if q then S (S sl') else S sl'), (set_out (x_out x ++ pre) x).
split; [by destruct q|]. split; [done|]. split; [by apply (tilde_ok_app rej [CTLESC; c])|].
split; [simpl in Hfuel; lia|]. split; [done|]. split; [by destruct q|]. split; [done|].
intros _. by rewrite app_nil_r.
Qed.

Lemma steps_els q l i : Forall wf_text_el l -> Forall is_char l -> steps q (enc l) [] (ret [mk_seg false l]) i i.
Proof.
induction l as [|e l IH]; intros Hwf Hch.
- intros fuel pre rest flag rej sl x bq Hf Ht Hfuel Hbq. simpl.
  exists fuel, pre, flag, rej, sl, x. repeat (split; [done|]).
  split; [by destruct q; rewrite app_nil_r|]. split; [done|]. intros _. by rewrite app_nil_r.
- apply Forall_cons in Hwf as [He Hwf]. apply Forall_cons in Hch as [Hce Hch].
  apply (steps_regroup q _ _ [mk_seg false [e]; mk_seg false l]); [|by repeat constructor|by repeat constructor|
    simpl; by rewrite app_nil_r]. rewrite enc_cons.
  apply (steps_app q (el_enc e) (enc l) [] [] (ret [mk_seg false [e]]) (ret [mk_seg false l]) i i i); [|by apply IH].
  destruct e as [|[] c]; [done|apply steps_esc|by apply steps_lit].
Qed.

(** A quotation mark; what follows is not the shape [argstr] takes for "$@". *)
Lemma loop_mark q f pre rest flag rej i sl x :
flag_ok q flag rej -> i = true \/ take 5 rest <> drop 1 dolatstr ->
exists sl', loop (S f) (pre ++ CTLQUOTEMARK :: rest) (length pre) flag rej false (inquotes i) sl x =
  loop f (emitted q [XMark] ++ rest) (length (emitted q [XMark])) flag rej false (inquotes (negb i)) sl'
    (set_out (x_out x ++ pre) x).
Proof.
intros Hf Hi.
destruct (loop_special q f pre CTLQUOTEMARK rest flag rej (inquotes i) sl x Hf ltac:(unfold control; auto))
  as [sl' E]. rewrite E. unfold at_special. change (CTLQUOTEMARK ≟ CTLQUOTEMARK)%cc with true. cbv iota.
assert ((inquotes i =? 0) && bool_decide (take 5 rest = drop 1 dolatstr) = false) as ->.
{ destruct i; [done|]. destruct Hi as [?|Hi]; [done|]. by rewrite bool_decide_eq_false_2. }
rewrite inq_xor. assert (has flag QUOTES_ESC = q) as -> by (by destruct Hf).
exists (if q then S sl' else sl'). by destruct q.
Qed.

Lemma steps_quoted q body b r :
steps q body b r true true -> (forall rest, take 5 (body ++ CTLQUOTEMARK :: rest) <> drop 1 dolatstr) ->
steps q (CTLQUOTEMARK :: body ++ [CTLQUOTEMARK]) b (let! segs := r in ret (mark :: segs ++ [mark])) false false.
Proof.
intros Hs Hd fuel pre rest flag rej sl x bq Hf Ht Hfuel Hbq run. subst run.
cbn [app] in *. rewrite <- app_assoc in *. cbn [app] in *.
(destruct fuel as [|f]; [simpl in Hfuel; lia|]).
destruct (loop_mark q f pre (body ++ CTLQUOTEMARK :: rest) flag rej false sl x Hf (or_intror (Hd rest))) as [sl0 ->].
set (x0 := set_out (x_out x ++ pre) x). set (m := emitted q [XMark]).
specialize (Hs f m (CTLQUOTEMARK :: rest) flag rej sl0 x0 bq Hf
  (tilde_ok_app rej [CTLQUOTEMARK] _ Ht) ltac:(simpl in Hfuel; lia) Hbq).
cbv zeta in Hs. unfold bind. change (x_sh x0) with (x_sh x) in Hs. cbn [negb].
destruct (r (x_sh x)) as [s1 segs1|s1 e|]; [|done|done]. unfold ret.
destruct Hs as (f1 & p1 & fl1 & rej1 & sl1 & x1 & -> & Hf1 & Ht1 & Hfu1 & Hs1 & Ho1 & Hb1 & Hr1).
destruct f1 as [|f1]; [simpl in Hfu1; lia|].
destruct (loop_mark q f1 p1 rest fl1 rej1 true sl1 x1 Hf1 (or_introl eq_refl)) as [sl2 ->].
exists f1, m, fl1, rej1, sl2, (set_out (x_out x1 ++ p1) x1). split; [done|]. split; [done|].
split; [by apply (tilde_ok_app rej1 [CTLQUOTEMARK])|]. split; [simpl in Hfu1; lia|]. split; [done|].
cbn [x_out x_argbackq x_ifs set_out]. rewrite Ho1. unfold x0 in *. cbn [x_out x_ifs set_out] in *.
split; [|split; [done|]].
- rewrite emitted_segs_cons, emitted_segs_app, emitted_segs_one. unfold mark at 1 2. cbn [els]. fold m.
  by rewrite <- !app_assoc.
- intros Hq. rewrite Hr1 by done. cbn [regions_of splittable mark app els].
  rewrite regions_of_app. cbn [regions_of splittable mark app]. rewrite app_nil_r, length_app. subst q. done.
Qed.

Context (Hvals : forall (s : St) n v, lookupvar s n = Some v -> NUL ∉ v).

(** From [x], its text so far [pre] written, [y] does what [r] says and reading
  goes on behind it. *)
Lemma steps_yields {A} q (y : X A) (a : A) (k : A -> X cstr) (r : M St (list seg)) x pre bq f rest flag rej i :
flag_ok q flag rej -> tilde_ok rej rest -> (length rest < f)%nat ->
yields q (set_out (x_out x ++ pre) x) bq (r (x_sh x)) (y (set_out (x_out x ++ pre) x)) a ->
(forall x', k a x' = restart f rest flag rej (inquotes i) x') ->
let run := bind y k (set_out (x_out x ++ pre) x) in
match r (x_sh x) with
| Ok s segs => exists fuel' pre' flag' rej' sl' x',
    run = loop fuel' (pre' ++ rest) (length pre') flag' rej' false (inquotes i) sl' x' /\
    flag_ok q flag' rej' /\ tilde_ok rej' rest /\ (length rest < fuel')%nat /\
    x_sh x' = s /\ x_out x' ++ pre' = (x_out x ++ pre) ++ emitted_segs q segs /\ x_argbackq x' = bq /\
    recorded q (length (x_out x ++ pre)) segs (x_ifs x) (x_ifs x')
| Raise s e => exists x', run = Raise x' e /\ x_sh x' = s
| Wild => run = Wild
end.
Proof.
intros Hf Ht Hfuel Hy Hk run. subst run. unfold yields, bind in *. destruct (r (x_sh x)) as [s segs|s e|].
- destruct Hy as (x' & E & Hs & Ho & Hb & Hr). rewrite E, Hk.
  exists f, [], flag, rej, (length (x_out x')), x'. split; [done|]. repeat (split; [done|]).
  rewrite app_nil_r. by repeat (split; [done|]).
- destruct Hy as (x' & E & Hs). rewrite E. by exists x'.
- by rewrite Hy.
Qed.

Lemma steps_var q name quoted :
valid_name name = true -> steps q (var_text name) [] (ref_var quoted name) quoted quoted.
Proof.
intros Hn fuel pre rest flag rej sl x bq Hf Ht Hfuel Hbq run. subst run.
unfold var_text in *. cbn [app] in *. rewrite <- app_assoc in *. cbn [app] in *.
(destruct fuel as [|f]; [simpl in Hfuel; lia|]).
destruct (loop_special q f pre CTLVAR (chr VSNORMAL :: name ++ "="%char :: rest) flag rej (inquotes quoted) sl x Hf
  ltac:(unfold control; auto)) as [sl' ->].
unfold at_special. change (CTLVAR ≟ CTLQUOTEMARK)%cc with false. change (CTLVAR ≟ CTLESC)%cc with false.
change (CTLVAR ≟ CTLVAR)%cc with true. cbv iota.
apply (steps_yields q _ rest (fun p => restart f p flag rej (inquotes quoted)) (ref_var quoted name)
  x pre bq f rest flag rej quoted); try done.
- apply (tilde_ok_app rej (CTLVAR :: chr VSNORMAL :: name ++ ["="%char])). by rewrite <- !app_comm_cons, <- app_assoc.
- simpl in Hfuel. rewrite length_app in Hfuel. simpl in Hfuel. lia.
- cbn [app] in Hbq. rewrite <- Hbq. by apply (evalvar_name fnmatch Hvals rec q flag rej quoted name rest (set_out (x_out x ++ pre) x)).
Qed.

Context (comp : tree -> node) (Hcomp : forall t, comp t <> Null).

Lemma steps_cmd q t quoted :
steps q [CTLBACKQ] [comp t] (ref_cmd bqcmd comp quoted t) quoted quoted.
Proof.
intros fuel pre rest flag rej sl x bq Hf Ht Hfuel Hbq run. subst run. cbn [app] in *.
(destruct fuel as [|f]; [simpl in Hfuel; lia|]).
destruct (loop_special q f pre CTLBACKQ rest flag rej (inquotes quoted) sl x Hf ltac:(unfold control; auto)) as [sl' ->].
unfold at_special. change (CTLBACKQ ≟ CTLQUOTEMARK)%cc with false. change (CTLBACKQ ≟ CTLESC)%cc with false.
change (CTLBACKQ ≟ CTLVAR)%cc with false. change (CTLBACKQ ≟ CTLBACKQ)%cc with true. cbv iota.
assert (get x_argbackq (set_out (x_out x ++ pre) x) = Ok (set_out (x_out x ++ pre) x) (comp t :: bq)) as Hget
  by (unfold get; cbn [x_argbackq set_out]; by rewrite Hbq).
rewrite !(bind_run _ _ _ _ _ Hget).
apply (steps_yields q _ tt (fun _ => restart f rest flag rej (inquotes quoted)) (ref_cmd bqcmd comp quoted t)
  x pre bq f rest flag rej quoted); try done.
- by apply (tilde_ok_app rej [CTLBACKQ]).
- simpl in Hfuel. lia.
- pose proof (expbackq_cmd bqcmd q flag rej quoted (comp t) bq (set_out (x_out x ++ pre) x) Hf (Hcomp t) Hbq) as Hy.
  unfold ref_cmd, bind. cbn [x_sh set_out] in *. destruct (bqcmd (comp t) (x_sh x)) as [s [[reads|] status]|s e|]; done.
Qed.

(** ** Words *)

Definition nul_free_dpart (d : dpart) : bool := match d with DChar c => negb (c ≟ NUL)%cc | _ => true end.
Definition nul_free_part (p : wpart) : bool :=
match p with
| WLit s | WSq s => bool_decide (NUL ∉ s)
| WDq l => forallb nul_free_dpart l
| WEsc c => negb (c ≟ NUL)%cc
| _ => true
end.
Definition nul_free (w : word) : bool := forallb nul_free_part w.

Lemma not_cctl_plain s c : s <> ARISYNTAX -> is_class s CCTL c = false -> c <> NUL -> plain c.
Proof.
intros Hs Hc Hn. split; [done|]. intros Hin.
rewrite !elem_of_cons in Hin.
destruct s; [..|done]; (destruct Hin as [->|[->|[->|[->|[->|[->|[->|Hin]]]]]]]; [discriminate Hc..|by apply not_elem_of_nil in Hin]).
Qed.

Lemma xc_in_wf s c : s <> ARISYNTAX -> c <> NUL -> wf_text_el (xc_in s c).
Proof.
intros Hs Hc. unfold xc_in. destruct (is_class s CCTL c) eqn:E; [done|]. by apply (not_cctl_plain s).
Qed.

Lemma enc_xc_in s l : concat (map (esc_in s) l) = enc (map (xc_in s) l).
Proof.
induction l as [|c l IH]; [done|]. simpl. rewrite enc_cons, IH. unfold esc_in, xc_in.
by destruct (is_class s CCTL c).
Qed.

Lemma enc_plain s : enc (map (XC false) s) = s.
Proof. induction s as [|c s IH]; [done|]. simpl. rewrite enc_cons. simpl. by rewrite IH. Qed.

Lemma chars_map (f : ascii -> xel) (s : cstr) : (forall c, is_char (f c)) -> Forall is_char (map f s).
Proof. intros Hf. induction s; constructor; auto. Qed.

Lemma text_els_map (f : ascii -> xel) (s : cstr) : (forall c, c <> NUL -> wf_text_el (f c)) -> NUL ∉ s -> Forall wf_text_el (map f s).
Proof.
intros Hf. induction s as [|c s IH]; intros Hn; [constructor|]. apply not_elem_of_cons in Hn as [Hc Hn].
constructor; auto.
Qed.

Lemma steps_dpart q wft d : wf_dpart wft d = true -> nul_free_dpart d = true ->
steps q (dtext d) (dbq comp d) (ref_dpart bqcmd comp d) true true.
Proof.
intros Hwf Hnul. destruct d as [c|name|t]; simpl in *.
- apply negb_true_iff, Ascii.eqb_neq in Hnul. destruct (dq_special c); [apply steps_esc|].
  replace (esc_in DQSYNTAX c) with (enc [xc_in DQSYNTAX c]).
  + apply steps_els; [|by constructor]. constructor; [by apply xc_in_wf|constructor].
  + unfold esc_in, xc_in. by destruct (is_class DQSYNTAX CCTL c).
- by apply steps_var.
- apply steps_cmd.
Qed.

Lemma steps_dparts q wft l : forallb (wf_dpart wft) l = true -> forallb nul_free_dpart l = true ->
steps q (concat (map dtext l)) (concat (map (dbq comp) l)) (ref_concat (map (ref_dpart bqcmd comp) l)) true true.
Proof.
induction l as [|d l IH]; intros Hwf Hnul; [apply steps_nil|]. simpl in Hwf, Hnul. bool_prop. simpl.
eapply steps_app; [by eapply steps_dpart|auto].
Qed.

Lemma lit_els s : forallb lit_char s = true -> NUL ∉ s -> Forall wf_text_el (map (XC false) s).
Proof.
induction s as [|c s IH]; intros Hs Hn; [constructor|]. simpl in Hs. bool_prop.
apply not_elem_of_cons in Hn as [Hc Hn]. constructor; [|auto].
apply (not_cctl_plain BASESYNTAX); [done| |congruence].
assert (forall c, lit_char c = true -> is_class BASESYNTAX CCTL c = false) as Hlit
  by (clear; intros c; all_chars c; congruence).
by apply Hlit.
Qed.

Lemma els_not_dolat l rest : Forall wf_text_el l -> take 5 (enc l ++ CTLQUOTEMARK :: rest) <> drop 1 dolatstr.
Proof.
destruct 1 as [|[|[] c] l He Hl]; [done..|]. rewrite enc_cons. simpl. intros [= -> _].
destruct He as [_ He]. apply He. rewrite !elem_of_cons. tauto.
Qed.

(** Text between double quotes never looks like "$@". *)
Lemma dq_not_dolat wft l rest : forallb (wf_dpart wft) l = true ->
take 5 (concat (map dtext l) ++ CTLQUOTEMARK :: rest) <> drop 1 dolatstr.
Proof.
destruct l as [|[c|name|t] l]; intros Hwf; [done|..]; simpl in Hwf; bool_prop; simpl.
- destruct (dq_special c); [done|]. unfold esc_in. destruct (is_class DQSYNTAX CCTL c) eqn:E; [done|].
  intros [= -> _]. discriminate E.
- unfold var_text. destruct name as [|c name]; [done|]. simpl. intros [= -> _]. discriminate.
- done.
Qed.

Lemma steps_part q wft p : wf_part wft p = true -> nul_free_part p = true ->
steps q (ptext p) (pbq comp p) (ref_part bqcmd comp p) false false.
Proof.
intros Hwf Hnul. destruct p as [s|s|l|c|name|t]; simpl in *.
- bool_prop. rewrite <- (enc_plain s) at 1. apply steps_els; [|by apply chars_map].
  by apply lit_els.
- apply (steps_regroup q _ _ [mark; mk_seg false (map (xc_in SQSYNTAX) s); mark]); [|by repeat constructor..|].
  + rewrite enc_xc_in.
    apply (steps_quoted q _ [] (ret [mk_seg false (map (xc_in SQSYNTAX) s)])).
    * apply steps_els; [|by apply chars_map]. apply text_els_map; [intros; by apply xc_in_wf|by bool_prop].
    * intros rest. apply els_not_dolat. apply text_els_map; [intros; by apply xc_in_wf|by bool_prop].
  + simpl. by rewrite app_nil_r.
- bool_prop. apply steps_quoted; [by eapply steps_dparts|]. intros rest. by eapply dq_not_dolat.
- apply steps_esc.
- by apply steps_var.
- apply steps_cmd.
Qed.

Lemma steps_word q wft w : forallb (wf_part wft) w = true -> nul_free w = true ->
steps q (wtext w) (wbq comp w) (ref_word bqcmd comp w) false false.
Proof.
induction w as [|p w IH]; intros Hwf Hnul; [apply steps_nil|]. simpl in Hwf, Hnul. bool_prop.
eapply steps_app; [by eapply steps_part|by apply IH].
Qed.
End Loop.

(** ** The segments of a word can be split *)

Definition segs_ok (i j : bool) (l : list seg) : Prop :=
  Forall wf_seg l /\ forall k, quotes_ok j k -> quotes_ok i (l ++ k).

Lemma segs_ok_nil i : segs_ok i i [].
Proof. by split. Qed.

Lemma segs_ok_app i j k l m : segs_ok i j l -> segs_ok j k m -> segs_ok i k (l ++ m).
Proof.
  intros [H1 H2] [H3 H4]. split; [by apply Forall_app|]. intros n Hn. rewrite <- app_assoc. auto.
Qed.

Lemma wf_text_wf e : wf_text_el e -> wf_el e.
Proof.
  destruct e as [|[] c]; simpl; [done|done|]. intros [H1 H2]. split; [done|]. intros _.
  rewrite !not_elem_of_cons in H2. tauto.
Qed.

Lemma segs_ok_text i l : Forall wf_text_el l -> segs_ok i (marks i l) [mk_seg false l].
Proof.
  intros Hl. split; [|by intros k Hk].
  constructor; [|done]. split; [|done]. apply (Forall_impl _ _ _ Hl). apply wf_text_wf.
Qed.

Lemma segs_ok_value quoted v : NUL ∉ v -> segs_ok quoted quoted [value_seg quoted v].
Proof.
  intros Hv. assert (Forall is_char (map (xc_value quoted) v)) as Hch.
  { apply chars_map. intros c. by destruct quoted. }
  assert (Forall wf_text_el (map (xc_value quoted) v)) as Hwf.
  { apply text_els_map; [|done]. intros c Hc. destruct quoted; [|by apply xc_in_wf].
    simpl. destruct (is_class DQSYNTAX CCTL c) eqn:E; [done|].
    destruct (is_class DQSYNTAX CBACK c); [done|]. by apply (not_cctl_plain DQSYNTAX). }
  split.
  - constructor; [|done]. split; [|done]. apply (Forall_impl _ _ _ Hwf). apply wf_text_wf.
  - intros k Hk. simpl. rewrite marks_chars by done. split; [|done]. by destruct quoted.
Qed.

Section Segs.
Context {St : Type} `{Shell St}.
Context (bqcmd : node -> M St (option (list cstr) * Z)) (comp : tree -> node).
Context (Hvals : forall (s : St) n v, lookupvar s n = Some v -> NUL ∉ v).

Lemma cmd_text_no_nul reads : NUL ∉ cmd_text reads.
Proof.
assert (forall l : cstr, NUL ∉ l -> NUL ∉ drop_nl l) as Hd.
{ induction l as [|c l IH]; intros Hl; [done|]. simpl. destruct (c ≟ NL)%cc; [|done].
  apply IH. by apply not_elem_of_cons in Hl as [_ Hl]. }
unfold cmd_text.
intros Hin%list_elem_of_In%in_rev%list_elem_of_In. revert Hin. apply Hd.
intros Hin%list_elem_of_In%in_rev%list_elem_of_In. apply list_elem_of_filter in Hin as [Hin _]. done.
Qed.

(** Every outcome of [m] is fine between quotes at [i] and at [j]. *)
Definition outs_ok (i j : bool) (m : M St (list seg)) : Prop := forall s s' l, m s = Ok s' l -> segs_ok i j l.

Lemma outs_ok_ret i j l : segs_ok i j l -> outs_ok i j (ret l).
Proof. by intros Hl s s' l' [= <- <-]. Qed.

Lemma outs_ok_bind i j k m n : outs_ok i j m -> outs_ok j k n -> outs_ok i k (let! a := m in let! b := n in ret (a ++ b)).
Proof.
intros Hm Hn s s' l E. apply bind_ok in E as (s1 & a & E1 & E). apply bind_ok in E as (s2 & b & E2 & [= <- <-]).
eapply segs_ok_app; [by eapply Hm|by eapply Hn].
Qed.

Lemma outs_ok_var quoted name : outs_ok quoted quoted (ref_var quoted name).
Proof.
intros s s' l E. unfold ref_var in E. destruct (lookupvar s name) as [v|] eqn:El.
- injection E as <- <-. apply segs_ok_value. by eapply Hvals.
- destruct (uflag s =? 0); [|done]. injection E as <- <-. apply segs_ok_nil.
Qed.

Lemma outs_ok_cmd quoted t : outs_ok quoted quoted (ref_cmd bqcmd comp quoted t).
Proof.
intros s s' l E. apply bind_ok in E as (s1 & [[reads|] status] & E1 & E).
- apply bind_ok in E as (s2 & [] & E2 & [= <- <-]). apply segs_ok_value, cmd_text_no_nul.
- injection E as <- <-. apply segs_ok_value, not_elem_of_nil.
Qed.

Lemma outs_ok_dpart wft d : wf_dpart wft d = true -> nul_free_dpart d = true -> outs_ok true true (ref_dpart bqcmd comp d).
Proof.
intros Hwf Hnul. destruct d as [c|name|t]; [|apply outs_ok_var|apply outs_ok_cmd].
simpl in Hnul. apply negb_true_iff, Ascii.eqb_neq in Hnul. apply outs_ok_ret.
assert (wf_text_el (if dq_special c then XC true c else xc_in DQSYNTAX c)) as He.
{ destruct (dq_special c); [done|]. by apply xc_in_wf. }
pose proof (segs_ok_text true [if dq_special c then XC true c else xc_in DQSYNTAX c] (Forall_cons_2 _ _ _ He (Forall_nil_2 _))) as Hs.
simpl in Hs. by destruct (dq_special c).
Qed.

Lemma outs_ok_concat {A} (P : A -> Prop) (f : A -> M St (list seg)) i l :
(forall a, P a -> outs_ok i i (f a)) -> Forall P l -> outs_ok i i (ref_concat (map f l)).
Proof.
intros Hf. induction 1 as [|a l Ha Hl IH]; [apply outs_ok_ret, segs_ok_nil|].
simpl. eapply outs_ok_bind; [by apply Hf|done].
Qed.

Lemma outs_ok_part wft p : wf_part wft p = true -> nul_free_part p = true -> outs_ok false false (ref_part bqcmd comp p).
Proof.
intros Hwf Hnul. destruct p as [s|s|l|c|name|t]; simpl in Hwf, Hnul; bool_prop;
  [..|apply outs_ok_var|apply outs_ok_cmd].
- apply outs_ok_ret. rewrite <- (marks_chars false (map (XC false) s)) at 2 by by apply chars_map.
  by apply segs_ok_text, lit_els.
- apply outs_ok_ret.
  assert (marks false (XMark :: map (xc_in SQSYNTAX) s ++ [XMark]) = false) as Hm.
  { simpl. rewrite marks_app, (marks_chars true (map _ s)) by by apply chars_map. done. }
  rewrite <- Hm at 2. apply segs_ok_text. constructor; [done|].
  apply Forall_app. split; [|by constructor]. apply text_els_map; [intros; by apply xc_in_wf|done].
- intros s s' r E. apply bind_ok in E as (s1 & segs & E1 & [= <- <-]).
  assert (outs_ok true true (ref_concat (map (ref_dpart bqcmd comp) l))) as Hl.
  { apply (outs_ok_concat (fun d => wf_dpart wft d = true /\ nul_free_dpart d = true)).
    - intros d [H1 H2]. by eapply outs_ok_dpart.
    - rewrite forallb_forall in *. apply Forall_forall. intros d Hd. apply list_elem_of_In in Hd. auto. }
  specialize (Hl _ _ _ E1). change (mark :: segs ++ [mark]) with ([mark] ++ segs ++ [mark]).
  apply (segs_ok_app false true false); [apply (segs_ok_text false [XMark]); by constructor|].
  apply (segs_ok_app true true false); [done|]. apply (segs_ok_text true [XMark]). by constructor.
- apply outs_ok_ret, (segs_ok_text false [XC true c]). constructor; [|done].
  done.
Qed.

Lemma outs_ok_word wft w : forallb (wf_part wft) w = true -> nul_free w = true ->
outs_ok false false (ref_word bqcmd comp w).
Proof.
intros Hwf Hnul. unfold nul_free in Hnul. rewrite forallb_forall in *.
apply (outs_ok_concat (fun p => wf_part wft p = true /\ nul_free_part p = true)).
- intros p [H1 H2]. by eapply outs_ok_part.
- apply Forall_forall. intros p Hp. apply list_elem_of_In in Hp. auto.
Qed.
End Segs.

(** ** argstr and expandarg on words *)

Section Expansion.
Context {St : Type} `{Shell St}.
Context (bqcmd : node -> M St (option (list cstr) * Z)) (getpwnam : cstr -> option cstr) (fnmatch : cstr -> cstr -> bool).
Context (Hvals : forall (s : St) n v, lookupvar s n = Some v -> NUL ∉ v).
Context (comp : tree -> node) (Hcomp : forall t, comp t <> Null).

(** The flags [argstr] is called with, and those its loop runs under. *)
Inductive arg_flags : Z -> bool -> Z -> nat -> Prop :=
| args_full : arg_flags (Z.lor EXP_FULL EXP_TILDE) true EXP_FULL 2
| args_case : arg_flags (Z.lor EXP_CASE EXP_TILDE) true EXP_CASE 2
| args_redir : arg_flags (Z.lor 8 EXP_TILDE) false 8 2
| args_plain : arg_flags EXP_TILDE false 0 2
| args_assign : arg_flags EXP_VARTILDE false EXP_VARTILDE 0.

Lemma argstr_word wft flag0 q flag rej w (x : xstate St) :
arg_flags flag0 q flag rej -> forallb (wf_part wft) w = true -> nul_free w = true ->
tilde_ok rej (wtext w) -> hd0 (wtext w) <> "~"%char ->
x_argbackq x = wbq comp w -> x_out x = [] -> x_ifs x = [] ->
match ref_word bqcmd comp w (x_sh x) with
| Ok s segs => exists ifs, argstr bqcmd getpwnam fnmatch (wtext w) flag0 x =
    Ok (mk_x s (emitted_segs q segs ++ [NUL]) [] ifs) [] /\ (q = true -> ifs = regions_of 0 segs)
| Raise s e => exists x', argstr bqcmd getpwnam fnmatch (wtext w) flag0 x = Raise x' e /\ x_sh x' = s
| Wild => argstr bqcmd getpwnam fnmatch (wtext w) flag0 x = Wild
end.
Proof.
intros Hf Hwf Hnul Ht Hhd Hbq Hout Hifs. unfold argstr. cbn [argstr_at].
set (rec := argstr_at bqcmd getpwnam fnmatch (length (wtext w))).
assert (argstr_body bqcmd getpwnam fnmatch rec (wtext w) flag0 x =
  argstr_loop bqcmd getpwnam fnmatch rec (S (S (length (wtext w)))) (wtext w) 0 flag rej false 0 (length (x_out x)) x)
  as ->.
{ assert (forall fl, tilde_at getpwnam (wtext w) fl = ret (wtext w)) as Htil.
  { intros fl. unfold tilde_at. by rewrite (proj2 (Ascii.eqb_neq _ _) Hhd). }
  assert (Z.land flag0 (Z.lor EXP_WORD EXP_QUOTED) =? EXP_WORD = false /\ Z.land flag0 (Z.lnot EXP_TILDE) = flag /\
    ((if has flag0 EXP_VARTILDE2 then 1 else 0) + (if has flag0 EXP_VARTILDE then 0 else 2))%nat = rej)
    as (Hb & Hfl & Hr) by (by destruct Hf).
  unfold argstr_body. rewrite Htil, Hb, Hfl, Hr. unfold bind, here, get, ret.
  by destruct (has flag0 EXP_TILDE). }
pose proof (steps_word bqcmd getpwnam fnmatch rec Hvals comp Hcomp q wft w Hwf Hnul
  (S (S (length (wtext w)))) [] [] flag rej (length (x_out x)) x []) as Hs.
rewrite !app_nil_r in Hs. cbn [app length] in Hs. cbv zeta in Hs.
assert (flag_ok q flag rej) as Hfl by (destruct Hf; constructor).
specialize (Hs Hfl Ht ltac:(lia) Hbq).
destruct (ref_word bqcmd comp w (x_sh x)) as [s segs|s e|]; [|done|done].
destruct Hs as (f1 & p1 & fl1 & rej1 & sl1 & x1 & E & Hf1 & Ht1 & Hfu1 & Hs1 & Ho1 & Hb1 & Hr1).
change (inquotes false) with 0 in E. rewrite E. destruct f1 as [|f1]; [simpl in Hfu1; lia|].
rewrite app_nil_r. rewrite (loop_end bqcmd getpwnam fnmatch rec q f1 p1 fl1 rej1) by done.
exists (x_ifs x1). split.
- unfold set_out. by rewrite app_assoc, Ho1, Hout, Hs1, Hb1.
- intros Hq. rewrite Hr1, Hifs, Hout by done. done.
Qed.

Context (readdir : St -> cstr -> option (list cstr)) (lstat : St -> cstr -> bool).

(** Where the expander starts a word. *)
Lemma start_arg_run (x : xstate St) bq : start_arg bq x = Ok (mk_x (x_sh x) [] bq (x_ifs x)) tt.
Proof. done. Qed.

Lemma expandarg_words wft w (x : xstate St) :
forallb (wf_part wft) w = true -> nul_free w = true -> hd0 (wtext w) <> "~"%char -> x_ifs x = [] ->
proj (expandarg bqcmd getpwnam fnmatch readdir lstat (warg comp w) (Z.lor EXP_FULL EXP_TILDE) x) =
ref_words bqcmd comp fnmatch readdir lstat w (x_sh x).
Proof.
intros Hwf Hnul Hhd Hifs. unfold expandarg, warg, ref_words. rewrite (bind_run _ _ _ _ _ (start_arg_run _ _)).
pose proof (argstr_word wft _ _ _ _ w (mk_x (x_sh x) [] (wbq comp w) (x_ifs x)) args_full Hwf Hnul
  (or_introl eq_refl) Hhd eq_refl eq_refl Hifs) as Hs. cbn [x_sh] in Hs.
destruct (ref_word bqcmd comp w (x_sh x)) as [s segs|s e|] eqn:Er.
- rewrite (bind_run _ _ _ _ _ Er). destruct Hs as (ifs & E & Hi). rewrite (bind_run _ _ _ _ _ E), (Hi eq_refl).
  destruct (outs_ok_word bqcmd comp Hvals wft w Hwf Hnul _ _ _ Er) as [Hseg Hq].
  specialize (Hq [] eq_refl). rewrite app_nil_r in Hq. cbn [bind get ret].
  change (has (Z.lor EXP_FULL EXP_TILDE) EXP_FULL) with true. unfold bind, get. cbn [x_out x_ifs x_sh].
  change (emitted_segs true segs) with (enc_segs segs). rewrite ifsbreakup_fields by done.
  rewrite expandmeta_fields by (apply split_segs_ok; [done|constructor|done]).
  by destruct (mapM _ (fields (ifsvar s) segs)).
- destruct Hs as (x' & E & <-). rewrite (bind_raise _ _ _ _ _ E). unfold bind. by rewrite Er.
- unfold bind. by rewrite Hs, Er.
Qed.

(** The other flags: one word, its quotes removed. *)
Lemma expandarg_text wft flag0 flag rej w (x : xstate St) :
arg_flags flag0 false flag rej ->
forallb (wf_part wft) w = true -> nul_free w = true -> tilde_ok rej (wtext w) -> hd0 (wtext w) <> "~"%char ->
x_ifs x = [] ->
proj (expandarg bqcmd getpwnam fnmatch readdir lstat (warg comp w) flag0 x) =
(let! t := ref_text bqcmd comp w in ret [t]) (x_sh x).
Proof.
intros Hf Hwf Hnul Ht Hhd Hifs. unfold expandarg, warg, ref_text. rewrite (bind_run _ _ _ _ _ (start_arg_run _ _)).
pose proof (argstr_word wft _ _ _ _ w (mk_x (x_sh x) [] (wbq comp w) (x_ifs x)) Hf Hwf Hnul
  Ht Hhd eq_refl eq_refl Hifs) as Hs. cbn [x_sh] in Hs.
assert (has flag0 EXP_FULL = false) as Hfull by (clear - Hf; by inversion Hf).
rewrite Hfull.
destruct (ref_word bqcmd comp w (x_sh x)) as [s segs|s e|] eqn:Er.
- destruct Hs as (ifs & E & _). rewrite (bind_run _ _ _ _ _ E). unfold bind, get, ret. cbn [x_out].
  destruct (outs_ok_word bqcmd comp Hvals wft w Hwf Hnul _ _ _ Er) as [Hseg _].
  rewrite Er. cbn [x_sh proj ifsfree modify set_ifs]. do 2 f_equal.
  unfold str_at. rewrite drop_0. apply cstr_at_no_nul, field_text_no_nul.
  clear - Hseg. induction Hseg as [|sg l [H1 _] Hl IH]; [constructor|]. simpl. by apply Forall_app.
- destruct Hs as (x' & E & <-). rewrite (bind_raise _ _ _ _ _ E). unfold bind. by rewrite Er.
- unfold bind. by rewrite Hs, Er.
Qed.

(** A case pattern: what fnmatch is given. *)
Lemma casematch_run wft w val (x : xstate St) s segs :
forallb (wf_part wft) w = true -> nul_free w = true -> hd0 (wtext w) <> "~"%char -> x_ifs x = [] ->
ref_word bqcmd comp w (x_sh x) = Ok s segs -> no_backslash (concat (map els segs)) = true ->
proj (casematch bqcmd getpwnam fnmatch (warg comp w) val x) =
Ok s (fnmatch (glob_text (concat (map els segs))) val).
Proof.
intros Hwf Hnul Hhd Hifs Er Hb. unfold casematch, warg. rewrite (bind_run _ _ _ _ _ (start_arg_run _ _)).
pose proof (argstr_word wft _ _ _ _ w (mk_x (x_sh x) [] (wbq comp w) (x_ifs x)) args_case Hwf Hnul
  (or_introl eq_refl) Hhd eq_refl eq_refl Hifs) as Hs. cbn [x_sh] in Hs. rewrite Er in Hs.
destruct Hs as (ifs & E & _). rewrite (bind_run _ _ _ _ _ E).
assert (Forall wf_el (concat (map els segs))) as Hwfe.
{ destruct (outs_ok_word bqcmd comp Hvals wft w Hwf Hnul _ _ _ Er) as [Hseg _].
  clear - Hseg. induction Hseg as [|sg l [H1 _] Hl IH]; [constructor|]. simpl. by apply Forall_app. }
unfold bind, get, ret, ifsfree, modify. cbn [x_out set_ifs proj x_sh]. do 2 f_equal. unfold patmatch. f_equal.
unfold str_at. rewrite drop_0, cstr_at_no_nul by by apply enc_no_nul. by apply preglob_enc.
Qed.
End Expansion.

Lemma compile_not_null L t : compile L t <> Null.
Proof.
  destruct t as [vars args redirs| | | | |t| |test ifp elifs els| | | | | | |]; try done.
  simpl. by destruct (compile L t).
Qed.

(** ** The theorems *)

(** A shell with variables, parameters and options, for examples. *)
Record map_shell := mk_map_shell {
  ms_vars : gmap cstr cstr; ms_params : list cstr; ms_opts : list Z; ms_status : Z; ms_back : Z }.

#[export] Instance map_shell_vars : VarStore map_shell := {|
  lookupvar := fun s n => cstr_at <$> ms_vars s !! n;
  setvar := fun s n v =>
    Some (mk_map_shell (<[n := v]> (ms_vars s)) (ms_params s) (ms_opts s) (ms_status s) (ms_back s));
|}.

#[export] Instance map_shell_shell : Shell map_shell := {|
  ifsvar := fun s => cstr_at <$> ms_vars s !! lit "IFS";
  optlist := ms_opts;
  exitstatus := ms_status;
  set_exitstatus := fun z s => mk_map_shell (ms_vars s) (ms_params s) (ms_opts s) z (ms_back s);
  set_back_exitstatus := fun z s => mk_map_shell (ms_vars s) (ms_params s) (ms_opts s) (ms_status s) z;
  rootpid := fun _ => 1;
  backgndpid := fun _ => 0;
  shellparam := ms_params;
  arg0 := fun _ => lit "ash";
  arith_depth := fun s => S (S (size (ms_vars s)));
|}.

Lemma cstr_at_nul_free s : NUL ∉ cstr_at s.
Proof.
  induction s as [|c s IH]; [apply not_elem_of_nil|]. simpl.
  destruct (Ascii.eqb_spec c NUL) as [|Hc]; [apply not_elem_of_nil|].
  apply not_elem_of_cons. split; [congruence|done].
Qed.

Lemma map_shell_vals (s : map_shell) n v : lookupvar s n = Some v -> NUL ∉ v.
Proof. simpl. intros (t & _ & ->)%fmap_Some. apply cstr_at_nul_free. Qed.


(** The word [a"b $x"$x'$y'\*$(ls)] where x is "1  2 " and ls prints two lines. *)
Definition example_word : word :=
  [WLit (lit "a"); WDq [DChar "b"%char; DChar SP; DVar (lit "x")]; WVar (lit "x"); WSq (lit "$y"); WEsc "*"%char;
   WCmd (Simple [] [[WLit (lit "ls")]] [])].
Definition example_x : xstate map_shell :=
  mk_x (mk_map_shell {[lit "x" := lit "1  2 "]} [] [] 0 0) [] [] [].
Definition example_ls (n : node) : M map_shell (option (list cstr) * Z) :=
  ret (Some [lit "out" ++ [NL]; lit "put" ++ [NL; NL]], 7).


(** Expanding a word where it is not split: the value of an assignment (with no
    "~" behind "=" or ":"), the name of a redirection, the word of a case. *)
Theorem expand_text {St} `{Shell St} bqcmd getpwnam fnmatch readdir lstat L wft flag0 flag rej w (x : xstate St) :
  (forall (s : St) n v, lookupvar s n = Some v -> NUL ∉ v) ->
  arg_flags flag0 false flag rej ->
  forallb (wf_part wft) w = true -> nul_free w = true -> tilde_ok rej (wtext w) -> hd0 (wtext w) <> "~"%char ->
  x_ifs x = [] ->
  proj (expandarg bqcmd getpwnam fnmatch readdir lstat (warg (compile L) w) flag0 x) =
  (let! t := ref_text bqcmd (compile L) w in ret [t]) (x_sh x).
Proof. intros. eapply expandarg_text; eauto using compile_not_null. Qed.

Lemma expand_text_witness :
  proj (expandarg example_ls (fun _ => None) (fun p s => bool_decide (p = s)) (fun _ _ => None) (fun _ _ => false)
    (warg (compile 1) (WLit (lit "v=") :: example_word)) EXP_VARTILDE example_x) =
  Ok (mk_map_shell {[lit "x" := lit "1  2 "]} [] [] 0 7) [lit "v=ab 1  2 1  2 $y*out" ++ NL :: lit "put"].
Proof.
  rewrite (@expand_text map_shell map_shell_shell example_ls (fun _ => None) (fun p s => bool_decide (p = s)) (fun _ _ => None) (fun _ _ => false)
    1 (fun _ => true) EXP_VARTILDE EXP_VARTILDE 0 (WLit (lit "v=") :: example_word) example_x map_shell_vals args_assign);
    [by vm_compute|reflexivity|reflexivity| |discriminate|reflexivity].
  right. intros l c r E. exfalso.
  assert ("~"%char ∈ wtext (WLit (lit "v=") :: example_word)) as Hin by (rewrite E; set_solver).
  revert Hin. by_eval.
Defined.

(** A case pattern is given to fnmatch with a backslash in front of every quoted
    character that is special to patterns, and nothing else quoted. *)
Theorem case_pattern {St} `{Shell St} bqcmd getpwnam fnmatch L wft w val (x : xstate St) s segs :
  (forall (s : St) n v, lookupvar s n = Some v -> NUL ∉ v) ->
  forallb (wf_part wft) w = true -> nul_free w = true -> hd0 (wtext w) <> "~"%char -> x_ifs x = [] ->
  ref_word bqcmd (compile L) w (x_sh x) = Ok s segs -> no_backslash (concat (map els segs)) = true ->
  proj (casematch bqcmd getpwnam fnmatch (warg (compile L) w) val x) =
  Ok s (fnmatch (glob_text (concat (map els segs))) val).
Proof. intros. eapply casematch_run; eauto using compile_not_null. Qed.

Lemma case_pattern_witness : exists s b,
  proj (casematch example_ls (fun _ => None) (fun p s => bool_decide (p = lit "*\*\[" /\ s = lit "a"))
    (warg (compile 1) [WLit (lit "*"); WSq (lit "*[")]) (lit "a") example_x) = Ok s b /\ b = true.
Proof.
  eexists _, _. split.
  - eapply (@case_pattern map_shell map_shell_shell example_ls (fun _ => None) _ 1 (fun _ => true) _ (lit "a") example_x _ _ map_shell_vals);
      [reflexivity|reflexivity|discriminate|reflexivity|reflexivity|reflexivity].
  - by vm_compute.
Defined.
