(* ===== verification/AshGlob.v ===== *)
(** * shell/ash.c: file name expansion

    [expmeta] walks the directories of a pattern with one buffer for the path: it
    always ends and never stores outside the buffer.  [expsort] sorts the names
    it found. *)

From Stdlib Require Import Ascii String ZArith Lia.
From stdpp Require Import base gmap list option sorting strings.
From S2P Require Import Prelude Clib LibbbStr AshExpand.

(** ** The buffer of expmeta *)

Lemma at0_lt name p : at0 name p <> NUL -> (p < length name)%nat.
Proof.
  intros Hp. destruct (decide (p < length name)%nat) as [|Hge]; [done|].
  exfalso. apply Hp. unfold at0. by rewrite drop_ge by lia.
Qed.

(** A component with a pattern starts inside the name, and ends no earlier. *)
Lemma scan_name_spec name : forall fuel p start metaflag,
  (start <= p)%nat -> (metaflag = true -> (start < length name)%nat) ->
  let '(m, s, e, _) := scan_name fuel name p start metaflag in
  (m = true -> (s < length name)%nat) /\ (s <= e)%nat.
Proof.
  induction fuel as [|fuel IH]; intros p start metaflag Hsp Hm; cbn [scan_name]; [done|].
  destruct (Ascii.eqb_spec (at0 name p) NUL) as [E|E]; [done|]. apply at0_lt in E.
  destruct ((at0 name p ≟ "*"%char)%cc || (at0 name p ≟ "?"%char)%cc); [by apply IH; lia|].
  destruct (at0 name p ≟ "["%char)%cc; [apply IH; lia|].
  cbv zeta. set (esc := if (_ && _)%bool then 1%nat else 0%nat). clearbody esc.
  destruct (at0 name (p + esc) ≟ "/"%char)%cc; [|apply IH; [lia|done]].
  destruct metaflag; [split; [done|lia]|]. apply IH; [lia|done].
Qed.

Lemma unbackslash_length name : forall fuel p stop, (length (unbackslash fuel name p stop) <= stop - p)%nat.
Proof.
  induction fuel as [|fuel IH]; intros p stop; cbn [unbackslash]; [simpl; lia|].
  destruct (Nat.leb_spec stop p) as [Hle|Hlt]; [simpl; lia|]. cbn [length].
  destruct ((at0 name p ≟ "\"%char)%cc && negb (at0 name (S p) ≟ NUL)%cc); specialize (IH (S (S p)) stop) as H1; specialize (IH (S p) stop) as H2; lia.
Qed.

Section Fits.
Context (fnmatch : cstr -> cstr -> bool) (readdir : cstr -> option (list cstr)) (lstat : cstr -> bool).
(** A file name has at most NAME_MAX characters. *)
Context (Hnames : forall d l, readdir d = Some l -> Forall (fun n => (length n <= NAME_MAX)%nat) l).

(** There is room for the rest of the pattern and a name. *)
Definition room (dir_max : nat) (expdir name : cstr) : Prop :=
(length expdir + length name + NAME_MAX <= dir_max)%nat.

Definition ends_with_room (dir_max : nat) (r : option (nat * list cstr)) : Prop :=
exists m l, r = Some (m, l) /\ (dir_max <= m)%nat.

Lemma entries_fit rec pattern matchdot atend expdir endname entries : forall dir_max,
(forall m e, atend = false -> room m e endname -> ends_with_room m (rec m e endname (length endname))) ->
Forall (fun n => (length n <= NAME_MAX)%nat) entries -> (length expdir + NAME_MAX + 1 <= dir_max)%nat ->
ends_with_room dir_max
  (expmeta_entries fnmatch rec pattern matchdot atend expdir endname (length endname) dir_max entries).
Proof.
induction entries as [|d entries IH]; intros dir_max Hrec Hlen Hroom; cbn [expmeta_entries]; [by eexists _, _|].
apply Forall_cons in Hlen as [Hd Hlen].
assert (forall m found, (dir_max <= m)%nat -> ends_with_room dir_max
  match expmeta_entries fnmatch rec pattern matchdot atend expdir endname (length endname) m entries with
  | Some (m, l) => Some (m, found ++ l) | None => None end) as Hnext.
{ intros m found Hm. destruct (IH m Hrec Hlen ltac:(lia)) as (m' & l & -> & ?).
  eexists _, _. split; [done|lia]. }
destruct (_ || _)%bool; [by apply Hnext|].
rewrite (proj2 (Nat.ltb_ge _ _)) by lia. destruct atend; [by apply Hnext|]. specialize (fun m e => Hrec m e eq_refl) as Hrec'. cbv zeta.
set (offset := (length expdir + length d + 1)%nat).
set (m0 := if (_ <? _)%nat then _ else dir_max).
assert (offset + length endname + NAME_MAX <= m0 /\ dir_max <= m0)%nat as [H1 H2].
{ subst m0. destruct (Nat.ltb_spec dir_max (offset + length endname + NAME_MAX)); lia. }
destruct (Hrec' m0 (expdir ++ d ++ ["/"%char])) as (m & l & -> & ?).
- unfold room. rewrite !length_app. simpl. lia.
- apply Hnext. lia.
Qed.

Lemma expmeta_fits fuel : forall dir_max expdir name,
(length name < fuel)%nat -> room dir_max expdir name ->
ends_with_room dir_max (expmeta fnmatch readdir lstat fuel dir_max expdir name (length name)).
Proof.
unfold room. induction fuel as [|fuel IH]; intros dir_max expdir name Hf Hroom; [lia|].
cbn [expmeta]. unfold expmeta_body.
pose proof (scan_name_spec name (S (length name)) 0 0 false ltac:(lia) ltac:(done)) as Hscan.
destruct (scan_name (S (length name)) name 0 0 false) as [[[meta start] p] esc]. destruct Hscan as [Hs Hse].
destruct meta; cbn [negb].
- specialize (Hs eq_refl). pose proof (unbackslash_length name (S (length name)) 0 start) as Hu.
  set (dir := expdir ++ unbackslash (S (length name)) name 0 start).
  assert (length dir + NAME_MAX + 1 <= dir_max)%nat as Hdir by (subst dir; rewrite length_app; lia).
  rewrite (proj2 (Nat.ltb_ge _ _)) by lia.
  destruct (readdir _) as [entries|] eqn:Er; [|by eexists _, _].
  set (endname := if (at0 name p ≟ NUL)%cc then drop p name else drop (p + esc + 1) name).
  assert (length name - (length name - length endname) = length endname)%nat as ->.
  { assert (length endname <= length name)%nat; [|lia].
    subst endname. destruct (at0 name p ≟ NUL)%cc; rewrite length_drop; lia. }
  apply entries_fit; [|by eapply Hnames|done].
  intros m e Ep Hm. apply IH; [|done]. subst endname. rewrite Ep, length_drop.
  apply Ascii.eqb_neq, at0_lt in Ep. lia.
- destruct expdir as [|c dir]; [by eexists _, _|].
  pose proof (unbackslash_length name (S (length name)) 0 (length name)) as Hu.
  assert (1 <= NAME_MAX)%nat by (apply Nat.leb_le; reflexivity).
  rewrite (proj2 (Nat.ltb_ge _ _)); [by eexists _, _|]. rewrite length_app. lia.
Qed.
End Fits.

(** ** Sorting *)

Definition str_le (a b : cstr) : Prop := (strcmp a b <= 0)%Z.

Lemma merge_spec p : forall q, Sorted str_le p -> Sorted str_le q ->
  Sorted str_le (msort_merge p q) /\ msort_merge p q ≡ₚ p ++ q /\
  (forall z, HdRel str_le z p -> HdRel str_le z q -> HdRel str_le z (msort_merge p q)).
Proof.
  induction p as [|x p IHp]; intros q Hp; [by destruct q|].
  induction q as [|y q IHq]; intros Hq; [by rewrite app_nil_r|]. cbn [msort_merge].
  apply Sorted_inv in Hp as [Hp Hxp]. apply Sorted_inv in Hq as Hq'. destruct Hq' as [Hq' Hyq].
  destruct (Z.ltb_spec (strcmp x y) 0) as [Hlt|Hge].
  - destruct (IHp (y :: q) Hp Hq) as (H1 & H2 & H3). split; [|split].
    + constructor; [done|]. apply H3; [done|]. constructor. unfold str_le. lia.
    + by rewrite H2.
    + intros z Hz _. constructor. by inversion Hz.
  - destruct (IHq Hq') as (H1 & H2 & H3). split; [|split].
    + constructor; [done|]. apply H3; [|done]. constructor. unfold str_le. rewrite strcmp_opp. lia.
    + change ((fix go (q : list cstr) : list cstr := _) q) with (msort_merge (x :: p) q) in *.
      rewrite H2. by rewrite Permutation_middle.
    + intros z _ Hz. constructor. by inversion Hz.
Qed.

Lemma msort_spec fuel : forall l, (length l <= fuel)%nat ->
  Sorted str_le (msort fuel l (length l)) /\ msort fuel l (length l) ≡ₚ l.
Proof.
  induction fuel as [|fuel IH]; intros l Hl; cbn [msort].
  - destruct l; [by split; [constructor|]|simpl in Hl; lia].
  - destruct (Nat.leb_spec (length l) 1) as [Hle|Hlt].
    + split; [|done]. destruct l as [|a [|b l]]; [by constructor..|simpl in Hle; lia].
    + cbv zeta. set (half := Nat.div2 (length l)).
      assert (half < length l /\ 1 <= half)%nat as [Hh1 Hh2].
      { pose proof (Nat.div2_odd (length l)) as Hodd. fold half in Hodd. destruct (Nat.odd (length l)); simpl in Hodd; lia. }
      destruct (IH (drop half l)) as [H1 H2]; [rewrite length_drop; lia|].
      destruct (IH (take half l)) as [H3 H4]; [rewrite length_take; lia|].
      rewrite length_drop in H1, H2. rewrite length_take, Nat.min_l in H3, H4 by lia.
      destruct (merge_spec _ _ H1 H3) as (H5 & H6 & _). split; [done|].
      rewrite H6, H2, H4, Permutation_app_comm. by rewrite take_drop.
Qed.

(** ** The theorems *)

(** C22. Matching a pattern against the file system always ends and never stores
    outside the buffer for the path, although the buffer is only made larger for
    directories whose name fits a longer pattern: a component and its NUL always
    fit behind the directory that was made room for. *)
Theorem expmeta_in_buffer fnmatch readdir lstat text :
  (forall d l, readdir d = Some l -> Forall (fun n => (length n <= NAME_MAX)%nat) l) ->
  exists l, expmeta_word fnmatch readdir lstat text = Some l.
Proof.
  intros Hnames. unfold expmeta_word. set (p := preglob text).
  destruct (expmeta_fits fnmatch readdir lstat Hnames (S (length p)) (length p + PATH_MAX) [] p) as (m & l & E & _).
  - lia.
  - unfold room. simpl. apply Nat.add_le_mono_l, Nat.leb_le. reflexivity.
  - assert (expmeta fnmatch readdir lstat (S (length p)) (length p + PATH_MAX) [] p (length p) = Some (m, l)) as E' by exact E.
    rewrite E'. by exists l.
Qed.

Lemma expmeta_in_buffer_witness :
  exists l, expmeta_word (fun p _ => true) (fun _ => Some [lit "b"; lit "a"]) (fun _ => true) (lit "*/x") = Some l.
Proof.
  apply (expmeta_in_buffer _ (fun _ => Some [lit "b"; lit "a"])).
  intros d l [= <-]. repeat constructor; apply Nat.leb_le; reflexivity.
Defined.

(** The names a pattern matched are handed on in the order of strcmp, none lost
    and none made up. *)
Theorem expsort_sorts l : Sorted str_le (expsort l) /\ expsort l ≡ₚ l.
Proof. by apply msort_spec. Qed.
