(* ===== verification/LineCorrect.v ===== *)
(** * The line editor, key by key

    Completion extends what was typed ([complete_extends]); every key does what the
    reference session makes of it and leaves the screen as it has to be
    ([turn_obeys]); and so a whole line ([line_read]). *)

From Stdlib Require Import Ascii String ZArith Lia Sorted.
From stdpp Require Import base list strings.
From S2P Require Import Prelude Clib LibbbStr AshExpand AshGlob LineEdit LineTerm LineDraw.

Local Open Scope Z_scope.

(** ** The reference session *)

(** The line, the history, and the place in it. *)
Record session := mk_session { the_line : line; the_history : list (option cstr); the_place : nat }.

Inductive command := Edit (a : action) | Older | Newer | Complete | Redraw | Nothing.

(** The keys: control characters by their codes, the others by their KEYCODEs. *)
Definition bindings : list (list Z * command) :=
  [([1; -6], Edit Home); ([2; -5], Edit Left); ([5; -7], Edit End); ([6; -4], Edit Right);
   ([8; 127], Edit Backspace); ([-9], Edit Delete); ([9], Complete); ([11], Edit KillEnd); ([12], Redraw);
   ([14; -3], Newer); ([16; -2], Older); ([21], Edit KillStart); ([23], Edit KillSpaced);
   ([-45], Edit KillWordRight); ([-44], Edit KillWordLeft); ([-69; -37], Edit WordLeft); ([-68; -36], Edit WordRight)].

Definition bound (ic : Z) : option command := snd <$> find (fun b => existsb (Z.eqb ic) (fst b)) bindings.

Definition command_of (veof ic : Z) : command :=
  match bound ic with
  | Some c => c
  | None => if negb (veof =? 0) && (ic =? veof) then Edit Delete
            else if (32 <=? ic) && (ic <? 256) then Edit (Insert (chr ic)) else Nothing
  end.

(** The edited line is kept in its place, unless it is empty; another line is
    fetched, as much of it as there is room for. *)
Definition recall (size : Z) (k : nat) (s : session) : session :=
  let t := before (the_line s) ++ after (the_line s) in
  let h := if bool_decide (t = []) then the_history s else <[the_place s := Some t]> (the_history s) in
  mk_session (mk_line (take (Z.to_nat size - 1) (default [] (default None (h !! k)))) []) h k.

(** [size] is that of the buffer, [cnt] the number of lines in the history, [ins]
    what completion adds. *)
Definition obey (size : Z) (cnt : nat) (ins : cstr) (c : command) (s : session) : session :=
  match c with
  | Edit a => mk_session (edit (size - 2) a (the_line s)) (the_history s) (the_place s)
  | Older => if (0 <? the_place s)%nat then recall size (the_place s - 1) s else s
  | Newer => if (the_place s <? cnt)%nat then recall size (S (the_place s)) s else s
  | Complete => mk_session (mk_line (before (the_line s) ++ ins) (after (the_line s))) (the_history s) (the_place s)
  | Redraw | Nothing => s
  end.

Definition session_of (s : editor) : session := mk_session (line_of s) (history (state s)) (cur_history (state s)).

(** ** Completion *)

(** A completion of [base] that can be printed. *)
Definition completes (base m : cstr) : Prop := all_plain m /\ (exists t, m = base ++ t) /\ (length m <= 4096)%nat.

Lemma strncmp_prefix p : forall q, strncmp_eq p q (length p) = true -> exists t, q = p ++ t.
Proof.
  induction p as [|c p IH]; intros q Hq; [by exists q|]. destruct q as [|d q]; [done|]. cbn in Hq. apply andb_true_iff in Hq as [Hc Hq].
  apply Ascii.eqb_eq in Hc as ->. destruct (IH q Hq) as [t ->]. by exists t.
Qed.

Lemma add_match_completes base m l : Forall (completes base) l -> (exists t, m = base ++ t) -> (length m <= 4096)%nat -> Forall (completes base) (add_match m l).
Proof.
  intros Hl Hm Hn. unfold add_match. destruct (forallb plain m) eqn:E; [|done]. apply Forall_app. split; [done|]. constructor; [|done].
  split_and!; [|done|done]. apply Forall_forall. intros c Hc. rewrite forallb_forall in E. apply E. by apply list_elem_of_In.
Qed.

Section Completion.
Context `{Names}.

Lemma dir_entry_completes type dirbuf lpath base m name : Forall (completes base) m -> (length name < 4096)%nat ->
  Forall (completes base) (dir_entry type dirbuf lpath base m name).
Proof.
  intros Hm Hn. unfold dir_entry. destruct (_ && DOT_OR_DOTDOT name); [done|]. destruct (strncmp_eq base name (length base)) eqn:E; [|done]. cbn [negb].
  destruct (strncmp_prefix _ _ E) as [t ->]. destruct (stat_dir _) as [[|]|]; [| |done].
  - destruct (_ && _); [done|]. apply add_match_completes; [done|exists (t ++ lit "/"); by rewrite app_assoc|]. rewrite length_app. cbn. lia.
  - destruct (bool_decide _); [done|]. apply add_match_completes; [done|by exists t|lia].
Qed.

Lemma dir_entries_completes type dirbuf lpath base names : forall m, Forall (completes base) m -> Forall (fun n => (length n < 4096)%nat) names ->
  Forall (completes base) (foldl (dir_entry type dirbuf lpath base) m names).
Proof.
  induction names as [|n names IH]; intros m Hm Hn; [done|]. apply Forall_cons in Hn as [Hn Hns]. cbn. apply IH; [|done]. by apply dir_entry_completes.
Qed.

Lemma every_path_completes dirbuf base paths : forall type m, Forall (completes base) m -> Forall (completes base) (every_path paths type dirbuf base m).
Proof.
  induction paths as [|p paths IH]; intros type m Hm; [done|]. cbn. apply IH. apply dir_entries_completes; [done|].
  destruct (readdir _) as [l|] eqn:E; [|constructor]. by apply (readdir_short _ _ E).
Qed.

Lemma strrchr_suffix p c q : strrchr p c = Some q -> exists l, p = l ++ q.
Proof.
  induction p as [|a p IH]; [done|]. cbn. destruct (strrchr p c) as [r|]; [|destruct (a ≟ c)%cc; [by intros [= <-]; exists []|done]].
  intros [= <-]. destruct (IH eq_refl) as [l ->]. by exists (a :: l).
Qed.

(** The matches extend the end of the text that was looked at. *)
Lemma complete_extends command type : let '(n, m) := complete_cmd_dir_file command type in
  (n <= length command)%nat /\ Forall (completes (drop (length command - n) command)) m.
Proof.
  unfold complete_cmd_dir_file.
  set (r := match strrchr command "/"%char with None => (command, None) | Some p => (drop 1 p, Some (upto command (drop 1 p))) end).
  assert (exists l, command = l ++ fst r) as [l Hl].
  { unfold r. destruct (strrchr command "/"%char) as [p|] eqn:E; [|by exists []]. destruct (strrchr_suffix _ _ _ E) as [l ->]. exists (l ++ take 1 p).
    cbn [fst]. by rewrite <- app_assoc, take_drop. }
  destruct r as [base dirbuf]. cbn [fst] in Hl. subst command. rewrite length_app. split; [lia|].
  replace (length l + length base - length base)%nat with (length l) by lia. rewrite drop_app_length. apply every_path_completes.
  set (names := if bool_decide (type = FIND_EXE_ONLY) && bool_decide (dirbuf = None) then applet_names ++ get_exe_name else []). assert (Forall (fun n => (length n < 4096)%nat) names) as Hn by (unfold names; destruct (_ && _); [apply names_short|constructor]).
  clearbody names. assert (forall m, Forall (completes base) m -> Forall (completes base) (foldl (fun m b => if strncmp_eq base b (length base) then add_match b m else m) m names)) as Hf; [|by apply Hf; constructor].
  induction Hn as [|n names Hn Hns IH]; intros m Hm; [done|]. cbn. apply IH. destruct (strncmp_eq base n (length base)) eqn:E; [|done].
  apply add_match_completes; [done|by apply strncmp_prefix|lia].
Qed.
End Completion.

Lemma remove_duplicates_sub m : (forall x, x ∈ remove_duplicates m -> x ∈ m) /\ (remove_duplicates m = [] -> m = []).
Proof.
  induction m as [|a m [IH1 IH2]]; [done|]. destruct m as [|b m]; [done|]. change (remove_duplicates (a :: b :: m)) with (if bool_decide (a = b) then remove_duplicates (b :: m) else a :: remove_duplicates (b :: m)).
  destruct (bool_decide (a = b)).
  - split; [intros x Hx; right; by apply IH1|]. intros E. by apply IH2 in E.
  - split; [|done]. intros x Hx. apply elem_of_cons in Hx as [->|Hx]; [left|right]; by try apply IH1.
Qed.

Lemma common_prefix_extends base first : forall others, completes base first -> Forall (completes base) others -> completes base (common_prefix first others).
Proof.
  intros others (Hp & [t ->] & Hl) Ho. assert (exists u, common_prefix (base ++ t) others = base ++ u) as [u Hu].
  { clear Hp Hl. assert (Forall (fun m => exists v, m = base ++ v) others) as Ho' by (eapply Forall_impl; [exact Ho|]; by intros ? (_ & ? & _)). clear Ho.
    revert others Ho'. induction base as [|c base IH]; intros others Ho; [by eexists|]. cbn.
    assert (forallb (fun o => (hd0 o ≟ c)%cc) others = true) as ->.
    { apply forallb_forall. intros o Hin. rewrite Forall_forall in Ho. destruct (Ho o) as [v ->]; [by apply list_elem_of_In|]. cbn. apply Ascii.eqb_refl. }
    destruct (IH (drop 1 <$> others)) as [u ->]; [|by exists u]. apply Forall_fmap. eapply Forall_impl; [exact Ho|]. intros o [v ->]. cbn. by exists v. }
  assert (forall f os, exists v, f = common_prefix f os ++ v) as Hpre.
  { induction f as [|c f IH]; intros os; [by exists []|]. cbn. destruct (forallb _ os); [|by eexists]. destruct (IH (drop 1 <$> os)) as [v Hv]. exists v. cbn. by rewrite <- Hv. }
  destruct (Hpre (base ++ t) others) as [v Hv]. split_and!; [|by exists u|].
  - rewrite Hv in Hp. by apply Forall_app in Hp as [? _].
  - rewrite Hv in Hl. rewrite length_app in Hl. lia.
Qed.

(** ** Quoting *)

Definition specials (l : cstr) : nat := length (filter (fun c => is_special_char c) l).

Lemma quote_app a b : quote_special_chars (a ++ b) = quote_special_chars a ++ quote_special_chars b.
Proof. unfold quote_special_chars. by rewrite fmap_app, concat_app. Qed.

Lemma quote_cons c l : quote_special_chars (c :: l) = (if is_special_char c then ["\"%char; c] else [c]) ++ quote_special_chars l.
Proof. done. Qed.

Lemma length_quote l : length (quote_special_chars l) = (length l + specials l)%nat.
Proof.
  induction l as [|c l IH]; [done|]. rewrite quote_cons, length_app, IH. unfold specials. rewrite filter_cons.
  destruct (is_special_char c) eqn:E; [rewrite decide_True by done|rewrite decide_False by (intros Hc; done)]; cbn; lia.
Qed.

Lemma specials_le l : (specials l <= length l)%nat.
Proof. apply length_filter. Qed.

Lemma quote_plain l : all_plain l -> all_plain (quote_special_chars l).
Proof.
  induction 1 as [|c l Hc Hl IH]; [constructor|]. rewrite quote_cons. apply Forall_app. split; [|done]. destruct (is_special_char c); repeat (constructor; [done|]); constructor.
Qed.

(** ** What is shown *)

Section Keys.
Context `{Names} (w h : Z) (Hw : 2 <= w < 2 ^ 15) (t0 : term).

Abbreviation shown := (LineDraw.shown w h t0).
Abbreviation performs := (LineDraw.performs w h t0).
Abbreviation screen := (LineDraw.screen w h t0).

Lemma shown_beep above row0 s : shown above row0 s -> shown above row0 (beep s).
Proof using.
  intros (Hs & Hd & Hq). assert (screen (beep s) = screen s) as E.
  { unfold beep. rewrite screen_emit. destruct Hd as [(Hg & _) _ _ _ _]. cbn. unfold feed. by rewrite Hg. }
  split_and!; [by destruct Hs; constructor| |intros q; rewrite E; apply Hq]. destruct Hd. constructor; by rewrite ?E.
Qed.

Lemma shown_tab above row0 m t s : shown above row0 s -> shown above row0 (set_tab m t s).
Proof using. intros (Hs & Hd & Hq). split_and!; [by destruct Hs; constructor|by destruct Hd; constructor|done]. Qed.

Lemma shown_state above row0 li s : shown above row0 s -> shown above row0 (set_state li s).
Proof using. intros (Hs & Hd & Hq). split_and!; [by destruct Hs; constructor|by destruct Hd; constructor|done]. Qed.

Lemma place_match_shown above row0 s b f chosen pfx : shown above row0 s -> line_of s = mk_line b f ->
  all_plain chosen -> (pfx <= length chosen)%nat -> Z.of_nat (length chosen) <= 10000 ->
  shown above row0 (place_match chosen pfx s) /\ other (place_match chosen pfx s) = other s /\
  exists ins, line_of (place_match chosen pfx s) = mk_line (b ++ ins) f.
Proof using Hw.
  intros Hs El Hp Hle Hshort. destruct (line_cursor s _ _ (shown_cursor _ _ _ _ _ _ Hs) El) as [E1 E2].
  destruct (line_room _ _ _ _ _ _ _ _ Hs El) as [Hplain Hroom]. pose proof Hs as (Hsound & _). pose proof (so_max _ _ _ Hsound) as Hmax. unfold MAX_LINELEN in *.
  apply Forall_app in Hplain as [Hb Hf]. rewrite length_app in Hroom.
  assert (command_len s = length b + length f)%nat as Ecl by (unfold command_len; by rewrite E1, length_app).
  unfold place_match. rewrite Ecl, E1, E2. rewrite wrapS_id by (unfold is_s; lia).
  destruct (Z.ltb_spec (Z.of_nat (length chosen) - Z.of_nat pfx + Z.of_nat (length b + length f)) (maxsize s)) as [Hfit|].
  2:{ split_and!; [done|done|]. exists []. by rewrite app_nil_r. }
  set (new := take (length b) (b ++ f) ++ drop pfx chosen ++ drop (length b) (b ++ f)).
  assert (new = (b ++ drop pfx chosen) ++ f) as Enew by (unfold new; by rewrite take_app_length, drop_app_length, app_assoc).
  assert (length new = length b + (length chosen - pfx) + length f)%nat as Hlen by (rewrite Enew, !length_app, length_drop; lia).
  destruct (redraw_text w h Hw t0 above row0 s new (command_len (set_ps new s) - (length b + length chosen - pfx)) Hs) as (H1 & H2 & H3).
  - rewrite Enew. apply Forall_app. split; [apply Forall_app; split; [done|by apply Forall_drop]|done].
  - lia.
  - change (cmdedit_y (set_ps new s)) with (cmdedit_y s). split_and!; [done|by apply (rest_other _ _ H3)|].
    exists (drop pfx chosen). apply line_at; [by etrans; [apply (rest_ps _ _ H3)|apply Enew]|]. etrans; [apply H2|].
    unfold command_len. cbn [command_ps set_ps]. rewrite Hlen, length_app, length_drop. lia.
Qed.

(** What no key changes. *)
Definition fixed (s : editor) := (maxsize s, prompt_last_line s, max_history (state s), cnt_history_in_file (state s), file (state s)).

Lemma fixed_of s s' : maxsize s' = maxsize s -> prompt_last_line s' = prompt_last_line s -> state s' = state s -> fixed s' = fixed s.
Proof using. unfold fixed. by intros -> -> ->. Qed.

Lemma fixed_max s s' : fixed s' = fixed s -> maxsize s' = maxsize s.
Proof using. by intros [= -> _ _ _ _]. Qed.

(** What the loop over the keys relies on besides the screen. *)
Definition clean (s : editor) : Prop :=
  Forall all_plain (matches s) /\ (forall i l, history (state s) !! i = Some (Some l) -> all_plain l).

Lemma showfiles_text termw m : Forall all_plain m -> Forall (fun c => plain c = true \/ c = NL) (showfiles termw m).
Proof using.
  intros Hm. unfold showfiles. destruct (if 1 <? _ then _ else _) as [ncols nrows]. apply Forall_concat, Forall_fmap, Forall_forall. intros r _. cbn.
  assert (forall n, Forall (fun c => plain c = true \/ c = NL) (default [] (m !! n))) as Hcell.
  { intros n. destruct (m !! n) as [l|] eqn:E; [|constructor]. rewrite Forall_forall in Hm. eapply Forall_impl; [apply Hm; by apply list_elem_of_lookup_2 in E|]. by left. }
  apply Forall_app. split; [|apply Forall_app; split; [apply Hcell|by constructor; [right|constructor]]].
  apply Forall_concat, Forall_fmap, Forall_forall. intros k _. cbn. apply Forall_app. split; [apply Hcell|]. apply Forall_forall. intros c Hc.
  apply list_elem_of_In, repeat_spec in Hc as ->. by left.
Qed.

Lemma goto_new_line_steady above row0 s : shown above row0 s ->
  let s' := goto_new_line s in
  steady w h (screen s') /\ rest s' = rest s /\ (cmdedit_prmt_len s <> 0 \/ command_ps s = [] -> exists row, at_pos w (screen s') row 0).
Proof using Hw.
  intros Hs. destruct (shown_till w h Hw t0 above row0 s Hs) as ((H1 & Hd & H2) & H3 & H4). cbv zeta. unfold goto_new_line. set (s1 := put_till_end_and_adv_cursor s) in *.
  pose proof (drawn_steady _ _ _ _ _ Hd) as Hst. destruct (_ || _) eqn:E.
  - destruct (steady_line_feed w h Hw (screen s1) Hst) as [K1 K2]. assert (screen (emit [NL] s1) = line_feed h (screen s1)) as Es.
    { rewrite screen_emit. cbn. apply feed_nl. by destruct Hst. }
    rewrite Es. split_and!; [done|done|eauto].
  - apply orb_false_iff in E as [_ E]. apply negb_false_iff, Z.eqb_eq in E. split_and!; [done|done|]. intros _. destruct Hd as [Hpos _ _ _ _]. rewrite E in Hpos. eauto.
Qed.

Lemma tab_shown above row0 s : shown above row0 s -> clean s ->
  exists above' row0' ins, shown above' row0' (input_tab s) /\ clean (input_tab s) /\ fixed (input_tab s) = fixed s /\ state (input_tab s) = state s /\
    line_of (input_tab s) = mk_line (before (line_of s) ++ ins) (after (line_of s)).
Proof using Hw.
  intros Hs [Hm Hh]. assert (forall s', line_of s' = line_of s -> line_of s' = mk_line (before (line_of s) ++ []) (after (line_of s))) as Hsame by (intros s' ->; by rewrite app_nil_r).
  unfold input_tab. destruct (last_was_tab s).
  - destruct (0 <? length (matches s))%nat; [|exists above, row0, []; split_and!; [done|by split|done|done|by apply Hsame]].
    destruct (goto_new_line_steady _ _ _ Hs) as (Hst & Hr & _). set (s1 := goto_new_line s) in *. pose proof (shown_cursor _ _ _ _ _ _ Hs) as Hc. destruct Hs as (Hsound & _).
    assert (matches s1 = matches s) as Em by (unfold rest in Hr; congruence).
    destruct (draw_full_shown w h Hw t0 (command_len (emit (showfiles (cmdedit_termw s1) (matches s1)) s1) - cursor s) (emit (showfiles (cmdedit_termw s1) (matches s1)) s1)) as ((ab & r & H1) & H2 & H3).
    + apply (rest_sound w h s); [by etrans; [|exact Hr]|cbn; lia|done].
    + rewrite screen_emit. apply steady_text; [done..|]. apply showfiles_text. by rewrite Em.
    + set (s2 := draw_full _ _) in *. assert (rest s2 = rest s) as Hr2 by (etrans; [exact H3|exact Hr]).
      assert (command_len (emit (showfiles (cmdedit_termw s1) (matches s1)) s1) = command_len s) as El by (unfold command_len; cbn; by rewrite (rest_ps _ _ Hr)).
      rewrite El in H2. exists ab, r, []. assert (matches s2 = matches s /\ state s2 = state s /\ fixed s2 = fixed s) as (E1 & E2 & E3) by (unfold rest in Hr2; unfold fixed; split_and!; congruence).
      split_and!; [done|unfold clean; by rewrite E1, E2|done|done|]. apply Hsame. unfold line_of. rewrite (rest_ps _ _ Hr2), H2. do 2 f_equal; lia.
  - destruct (build_match_prefix _) as [buf type]. pose proof (complete_extends buf type) as Hext. destruct (complete_cmd_dir_file buf type) as [n m]. destruct Hext as [Hn Hext].
    set (base := drop (length buf - n) buf) in *. assert (length base = n) as Hbase by (unfold base; rewrite length_drop; lia).
    set (ms := remove_duplicates (qsort_string_vector m)). assert (Forall (completes base) ms) as Hms.
    { apply Forall_forall. intros x Hx. apply remove_duplicates_sub in Hx. rewrite qsort_string_vector_perm in Hx. rewrite Forall_forall in Hext. by apply Hext. }
    clearbody ms. fold (specials base). rewrite <- Hbase.
    assert (forall t, clean (set_tab ms t s)) as Hclean.
    { intros t. split; [|done]. eapply Forall_impl; [exact Hms|]. by intros x (? & _). }
    assert (forall s0 c, shown above row0 s0 -> clean s0 -> fixed s0 = fixed s -> state s0 = state s -> line_of s0 = line_of s ->
      all_plain c -> (length base + specials base <= length c)%nat -> Z.of_nat (length c) <= 10000 ->
      exists above' row0' ins, shown above' row0' (place_match c (length base + specials base) s0) /\ clean (place_match c (length base + specials base) s0) /\
        fixed (place_match c (length base + specials base) s0) = fixed s /\ state (place_match c (length base + specials base) s0) = state s /\
        line_of (place_match c (length base + specials base) s0) = mk_line (before (line_of s) ++ ins) (after (line_of s))) as Hplace.
    { intros s0 c Hs0 Hc0 Em Est El Hpc Hlc Hsc.
      destruct (place_match_shown above row0 s0 (before (line_of s)) (after (line_of s)) c (length base + specials base) Hs0) as (K1 & K2 & ins & K3); [by rewrite El|done..|].
      set (s1 := place_match _ _ _) in *. assert (matches s1 = matches s0 /\ state s1 = state s0 /\ fixed s1 = fixed s0) as (F1 & F2 & F3) by (unfold other in K2; unfold fixed; split_and!; congruence).
      exists above, row0, ins. split_and!; [done|unfold clean; by rewrite F1, F2|congruence|congruence|done]. }
    assert (forall x, completes base x -> all_plain (quote_special_chars x) /\ (length base + specials base <= length (quote_special_chars x))%nat /\ Z.of_nat (length (quote_special_chars x)) <= 8192) as Hquote.
    { intros x (Hpx & [t ->] & Hlx). split_and!; [by apply quote_plain|rewrite quote_app, length_app, !length_quote; lia|rewrite length_quote; pose proof (specials_le (base ++ t)); lia]. }
    destruct ms as [|first [|second others]].
    + exists above, row0, []. split_and!; [apply shown_beep, shown_tab, Hs|apply (Hclean true)|done|done|by apply Hsame].
    + apply Forall_cons in Hms as [Hf _]. destruct (Hquote first Hf) as (Q1 & Q2 & Q3).
      apply Hplace; [by apply shown_tab, shown_tab|apply (Hclean false)|done|done|done| | |].
      * destruct (bool_decide _); [done|]. apply Forall_app. split; [done|]. by repeat constructor.
      * destruct (bool_decide _); [done|]. rewrite length_app. lia.
      * destruct (bool_decide _); [lia|]. rewrite length_app. cbn. lia.
    + apply Forall_cons in Hms as [Hf Ho]. pose proof (common_prefix_extends base first _ Hf Ho) as Hcp. destruct (common_prefix first (second :: others)) as [|c p].
      * exists above, row0, []. split_and!; [apply shown_beep, shown_tab, Hs|apply (Hclean true)|done|done|by apply Hsame].
      * destruct (Hquote (c :: p) Hcp) as (Q1 & Q2 & Q3). apply Hplace; [by apply shown_beep, shown_tab|apply (Hclean true)|done|done|done|done|done|lia].
Qed.

(** ** History *)

Lemma saved_shown above row0 k s : shown above row0 s -> clean s ->
  let s1 := set_cur k (save_command_ps_at_cur_history s) in
  let t := before (line_of s) ++ after (line_of s) in
  shown above row0 s1 /\ clean s1 /\ fixed s1 = fixed s /\ cnt_history (state s1) = cnt_history (state s) /\ cur_history (state s1) = k /\
  history (state s1) = if bool_decide (t = []) then history (state s) else <[cur_history (state s) := Some t]> (history (state s)).
Proof using.
  intros Hs [Hm Hh]. cbv zeta. assert (before (line_of s) ++ after (line_of s) = command_ps s) as -> by apply take_drop.
  pose proof Hs as (Hsound & _). pose proof (so_plain _ _ _ Hsound) as Hp. unfold set_cur, save_command_ps_at_cur_history.
  destruct (command_ps s) as [|c l] eqn:E.
  - rewrite bool_decide_true by done. split_and!; try done. by apply shown_state.
  - rewrite bool_decide_false by done. split_and!; try done; [by apply shown_state, shown_state|]. split; [done|]. cbn. intros i m Hi.
    destruct (decide (i = cur_history (state s))) as [->|Hne]; [|rewrite list_lookup_insert_ne in Hi by done; by apply (Hh i)].
    apply list_lookup_insert_Some in Hi as [(_ & [= <-] & _)|(? & _)]; done.
Qed.

Lemma recall_shown above row0 k s : shown above row0 s -> clean s ->
  let s' := rewrite_line (set_cur k (save_command_ps_at_cur_history s)) in
  shown above row0 s' /\ clean s' /\ fixed s' = fixed s /\ cnt_history (state s') = cnt_history (state s) /\ session_of s' = recall (maxsize s) k (session_of s).
Proof using Hw.
  intros Hs Hc. destruct (saved_shown above row0 k s Hs Hc) as (H1 & [Hm Hh] & Emax & Ecnt & Ecur & Ehist). set (s1 := set_cur k _) in *. cbv zeta. unfold rewrite_line, load_string.
  set (src := default [] (default None (history (state s1) !! cur_history (state s1)))).
  assert (all_plain src) as Hsrc.
  { unfold src. destruct (history (state s1) !! _) as [[l|]|] eqn:E; [by apply (Hh _ _ E)|constructor..]. }
  pose proof H1 as (Hsound & _). pose proof (so_max _ _ _ Hsound) as Hmax.
  assert (safe_strncpy [] src (Z.to_nat (maxsize s1)) = take (Z.to_nat (maxsize s1) - 1) src) as ->.
  { destruct (Z.to_nat (maxsize s1)) as [|n] eqn:E; [lia|]. cbn [safe_strncpy]. f_equal. lia. }
  set (b := take _ src).
  destruct (redraw_text w h Hw t0 above row0 s1 b 0 H1) as (K1 & K2 & K3); [by apply Forall_take|unfold b; rewrite length_take; lia|].
  change (cmdedit_y (set_ps b s1)) with (cmdedit_y s1). set (s2 := redraw _ _ _) in *.
  assert (matches s2 = matches s1 /\ state s2 = state s1 /\ fixed s2 = fixed s1) as (F1 & F2 & F3) by (unfold rest in K3; injection K3 as _ _ _ F3 _ F4 F1 _ F2; split_and!; [done|done|by apply fixed_of]).
  split_and!; [done|unfold clean; by rewrite F1, F2|exact (eq_trans F3 Emax)|by rewrite F2|].
  unfold session_of, recall. cbn [the_line the_history the_place]. rewrite F2, Ecur, <- Ehist. f_equal.
  rewrite (line_at s2 b []); [|by rewrite (rest_ps _ _ K3), app_nil_r|rewrite K2; lia]. unfold b, src. by rewrite (fixed_max _ _ Emax), Ecur.
Qed.

(** ** Keys *)

(** What a key has to do. *)
Definition follows (veof ic : Z) (above : Z -> ascii) (row0 : Z) (s s' : editor) : Prop :=
  exists above' row0' ins, shown above' row0' s' /\ clean s' /\ fixed s' = fixed s /\ cnt_history (state s') = cnt_history (state s) /\
    session_of s' = obey (maxsize s) (cnt_history (state s)) ins (command_of veof ic) (session_of s) /\
    (command_of veof ic = Complete \/ command_of veof ic = Redraw \/ (above' = above /\ row0' = row0)).

Lemma follows_edit veof ic above row0 s f a l : shown above row0 s -> clean s -> performs f s l -> command_of veof ic = Edit a -> l = edit (maxsize s - 2) a (line_of s) ->
  follows veof ic above row0 s (f s).
Proof using.
  intros Hs Hc Hf Ha ->. destruct (Hf above row0 Hs) as (H1 & H2 & H3). exists above, row0, []. unfold other in H3. injection H3 as _ _ E1 _ E4 E2 _ E3.
  split_and!; [done|unfold clean; by rewrite E2, E3|by apply fixed_of|congruence| |by auto].
  rewrite Ha. unfold session_of. cbn. by rewrite H2, E3.
Qed.

Lemma follows_same veof ic above row0 s s' : shown above row0 s' -> clean s' -> fixed s' = fixed s -> state s' = state s -> line_of s' = line_of s ->
  (command_of veof ic = Nothing \/ (command_of veof ic = Older /\ cur_history (state s) = 0%nat) \/ (command_of veof ic = Newer /\ (cnt_history (state s) <= cur_history (state s))%nat)) ->
  follows veof ic above row0 s s'.
Proof using.
  intros Hs Hc E1 E2 E3 Hcom. exists above, row0, []. split_and!; [done|done|done|congruence| |by auto]. unfold session_of. rewrite E2, E3.
  destruct Hcom as [-> |[[-> E]|[-> E]]]; cbn [obey the_place]; [done|by rewrite E|]. by destruct (Nat.ltb_spec (cur_history (state s)) (cnt_history (state s))); [lia|].
Qed.

Lemma older_shown veof ic above row0 s (g : editor -> editor) : shown above row0 s -> clean s -> command_of veof ic = Older -> (g = id \/ g = beep) ->
  follows veof ic above row0 s (let (s, found) := get_previous_history s in if found then rewrite_line s else g s).
Proof using Hw.
  intros Hs Hc Ha Hg. unfold get_previous_history. destruct (Nat.ltb_spec 0 (cur_history (state s))) as [Hlt|].
  - assert (cur_history (state (save_command_ps_at_cur_history s)) = cur_history (state s)) as -> by (unfold save_command_ps_at_cur_history; by destruct (command_ps s)).
    destruct (recall_shown above row0 (cur_history (state s) - 1) s Hs Hc) as (H1 & H2 & H3 & H4 & H5). exists above, row0, []. split_and!; [done..| |by auto].
    rewrite Ha, H5. cbn [obey the_place session_of]. by destruct (Nat.ltb_spec 0 (cur_history (state s))); [|lia].
  - assert (shown above row0 (g (beep s)) /\ clean (g (beep s)) /\ fixed (g (beep s)) = fixed s /\ state (g (beep s)) = state s /\ line_of (g (beep s)) = line_of s) as (H1 & H2 & H3 & H4 & H5).
    { destruct Hg as [-> | ->]; unfold id; (split_and!; [by repeat apply shown_beep|done..]). }
    apply follows_same; [done..|]. right; left. split; [done|lia].
Qed.

Lemma newer_shown veof ic above row0 s : shown above row0 s -> clean s -> command_of veof ic = Newer ->
  follows veof ic above row0 s (let (s, found) := get_next_history s in if found then rewrite_line s else s).
Proof using Hw.
  intros Hs Hc Ha. unfold get_next_history. destruct (Nat.ltb_spec (cur_history (state s)) (cnt_history (state s))) as [Hlt|].
  - assert (cur_history (state (save_command_ps_at_cur_history s)) = cur_history (state s)) as -> by (unfold save_command_ps_at_cur_history; by destruct (command_ps s)).
    destruct (recall_shown above row0 (S (cur_history (state s))) s Hs Hc) as (H1 & H2 & H3 & H4 & H5). exists above, row0, []. split_and!; [done..| |by auto].
    rewrite Ha, H5. cbn [obey the_place session_of]. by destruct (Nat.ltb_spec (cur_history (state s)) (cnt_history (state s))); [|lia].
  - apply follows_same; [by apply shown_beep|done..|]. right; right. split; [done|lia].
Qed.

Lemma redraw_all veof ic above row0 s : shown above row0 s -> clean s -> command_of veof ic = Redraw ->
  follows veof ic above row0 s (draw_full (command_len s - cursor s) (emit (ESC :: lit "[H" ++ ESC :: lit "[J") s)).
Proof using Hw.
  intros Hs Hc Ha. set (s1 := emit _ s). pose proof (shown_cursor _ _ _ _ _ _ Hs) as Hcur. pose proof Hs as (Hsound & Hd & _). pose proof (drawn_steady _ _ _ _ _ Hd) as (Hg & Hv & Hcol).
  assert (screen s1 = clear_below w (goto (t_top (screen s)) 0 (screen s))) as Es.
  { unfold s1. rewrite screen_emit. change (ESC :: lit "[H" ++ ESC :: lit "[J") with ([ESC; "["%char; "H"%char] ++ SEQ_CLEAR_TILL_END_OF_SCREEN). rewrite feeds_app.
    assert (feeds w h [ESC; "["%char; "H"%char] (screen s) = goto (t_top (screen s)) 0 (screen s)) as -> by (cbn; unfold feed at 3; rewrite Hg; done).
    by rewrite feeds_clear. }
  destruct (draw_full_shown w h Hw t0 (command_len s1 - cursor s) s1) as ((ab & r & H1) & H2 & H3).
  - apply (rest_sound w h s); [done|cbn; lia|done].
  - rewrite Es. unfold steady, in_view in *. cbn. split_and!; [done|lia..].
  - set (s2 := draw_full _ _) in *. assert (matches s2 = matches s /\ state s2 = state s /\ fixed s2 = fixed s) as (F1 & F2 & F3) by (unfold rest in H3; injection H3 as _ _ _ F3 _ F4 F1 _ F2; split_and!; [done|done|by apply fixed_of]).
    change (command_len s1) with (command_len s) in *. fold s2. exists ab, r, []. split_and!; [done|unfold clean; by rewrite F1, F2|done|congruence| |by auto].
    rewrite Ha. cbn [obey]. unfold session_of. rewrite F2. f_equal. unfold line_of. rewrite (rest_ps _ _ H3), H2. change (command_ps s1) with (command_ps s). do 2 f_equal; lia.
Qed.

Lemma complete_shown veof ic above row0 s : shown above row0 s -> clean s -> command_of veof ic = Complete -> follows veof ic above row0 s (input_tab s).
Proof using Hw.
  intros Hs Hc Ha. destruct (tab_shown above row0 s Hs Hc) as (ab & r & ins & H1 & H2 & H3 & H4 & H5). exists ab, r, ins. split_and!; [done|done|done|congruence| |by auto].
  rewrite Ha. unfold session_of. cbn. by rewrite H5, H4.
Qed.

Lemma line_eta l : l = mk_line (before l) (after l).
Proof using. by destruct l. Qed.

Lemma left_performs s : performs (input_backward 1) s (edit 0 Left (line_of s)).
Proof using Hw.
  apply performs_known. intros Hc _. destruct (line_of s) as [b f] eqn:El. destruct b as [|c b _] using rev_ind; cbn [edit before after].
  - intros above row0 Hs. destruct (line_cursor s _ _ Hc El) as [_ E2]. unfold input_backward. rewrite E2. cbn. by split_and!.
  - rewrite last_snoc, removelast_last. by apply (performs_left w h Hw t0).
Qed.

Lemma right_performs s : performs input_forward s (edit 0 Right (line_of s)).
Proof using Hw.
  apply performs_known. intros Hc _. destruct (line_of s) as [b f] eqn:El. destruct f as [|c f]; cbn [edit before after].
  - intros above row0 Hs. destruct (line_cursor s _ _ Hc El) as [E1 E2]. unfold input_forward, command_len. rewrite E1, E2, app_nil_r, Nat.ltb_irrefl. by split_and!.
  - by apply (performs_right w h Hw t0).
Qed.

Lemma home_performs s : performs (input_backward (cursor s)) s (edit 0 Home (line_of s)).
Proof using Hw.
  apply (performs_line w h t0 _ _ (move_to (take (cursor s - cursor s) (command_ps s)) (line_of s))); [|by apply performs_backward].
  rewrite Nat.sub_diag. done.
Qed.

Lemma word_left_performs s : performs ctrl_left s (edit 0 WordLeft (line_of s)).
Proof using Hw.
  apply performs_known. intros Hc _. destruct (line_cursor s _ _ Hc (line_eta (line_of s))) as [_ E2]. apply (performs_ctrl_left w h Hw t0 _ s _ _ (line_eta (line_of s))). lia.
Qed.

Lemma word_right_performs s : performs ctrl_right s (edit 0 WordRight (line_of s)).
Proof using Hw.
  apply performs_known. intros Hc _. destruct (line_cursor s _ _ Hc (line_eta (line_of s))) as [E1 E2]. apply (performs_ctrl_right w h Hw t0 _ s _ _ (line_eta (line_of s))).
  unfold command_len. rewrite E2. rewrite E1 at 1. rewrite length_app. lia.
Qed.

(** A key that is bound to nothing. *)
Lemma unbound ic : Forall (fun b => existsb (Z.eqb ic) (fst b) = false) bindings -> bound ic = None.
Proof using. unfold bound. induction bindings as [|b l IH]; [done|]. intros Hf. apply Forall_cons in Hf as [E Hf]. cbn. rewrite E. by apply IH. Qed.

Lemma default_follows vintr veof ic above row0 s s' : shown above row0 s -> clean s -> ic < 127 \/ 256 <= ic -> bound ic = None ->
  default_key vintr veof ic s = More s' -> follows veof ic above row0 s s'.
Proof using Hw.
  intros Hs Hc Hic Hb. unfold default_key. destruct (negb (vintr =? 0) && (ic =? vintr)); [done|]. destruct (negb (veof =? 0) && (ic =? veof)) eqn:Ee.
  - destruct (command_len s =? 0)%nat; [done|]. intros [= <-].
    apply (follows_edit _ _ _ _ _ input_delete Delete _ Hs Hc (performs_delete w h Hw t0 s _ _ (line_eta (line_of s)))); [|done]. unfold command_of. by rewrite Hb, Ee.
  - destruct (ic =? -1); [done|]. change (uc SP) with 32. destruct ((ic <? 32) || (256 <=? ic)) eqn:Er; intros [= <-].
    + apply follows_same; try done. left. unfold command_of. rewrite Hb, Ee. by destruct (Z.leb_spec 32 ic), (Z.ltb_spec ic 256); cbn [andb]; try done; lia.
    + apply (follows_edit _ _ _ _ _ (insert_char ic) (Insert (chr ic)) _ Hs Hc (performs_insert w h Hw t0 s _ _ ic ltac:(lia) (line_eta (line_of s)))); [|done].
      unfold command_of. rewrite Hb, Ee. by destruct (Z.leb_spec 32 ic), (Z.ltb_spec ic 256); cbn [andb]; try done; lia.
Qed.

Ltac pressed E := repeat (apply orb_true_iff in E as [E|E]); apply Z.eqb_eq in E; vm_compute in E; subst.

Lemma key_follows vintr veof ic above row0 s s' : shown above row0 s -> clean s -> ic < 128 \/ 256 <= ic ->
  key vintr veof ic s = More s' -> follows veof ic above row0 s s'.
Proof using Hw.
  intros Hs Hc Hic. assert (line_of s = mk_line (before (line_of s)) (after (line_of s))) as El by apply line_eta. unfold key.
  destruct ((ic =? uc NL) || _) eqn:E1; [done|]. destruct (ic =? CTRL "C"%char) eqn:E2; [done|].
  destruct ((ic =? CTRL "A"%char) || _) eqn:E3; [intros [= <-]; by pressed E3; apply (follows_edit _ _ _ _ _ _ Home _ Hs Hc (home_performs s))|].
  destruct ((ic =? CTRL "B"%char) || _) eqn:E4; [intros [= <-]; by pressed E4; apply (follows_edit _ _ _ _ _ _ Left _ Hs Hc (left_performs s))|].
  destruct ((ic =? CTRL "E"%char) || _) eqn:E5; [intros [= <-]; by pressed E5; apply (follows_edit _ _ _ _ _ _ End _ Hs Hc (performs_end w h Hw t0 s))|].
  destruct ((ic =? CTRL "F"%char) || _) eqn:E6; [intros [= <-]; by pressed E6; apply (follows_edit _ _ _ _ _ _ Right _ Hs Hc (right_performs s))|].
  destruct ((ic =? uc BS) || _) eqn:E7; [intros [= <-]; by pressed E7; apply (follows_edit _ _ _ _ _ _ Backspace _ Hs Hc (performs_backspace w h Hw t0 s _ _ El))|].
  destruct (ic =? KEYCODE_DELETE) eqn:E8; [intros [= <-]; by pressed E8; apply (follows_edit _ _ _ _ _ _ Delete _ Hs Hc (performs_delete w h Hw t0 s _ _ El))|].
  destruct (ic =? uc TAB) eqn:E9; [intros [= <-]; by pressed E9; apply complete_shown|].
  destruct (ic =? CTRL "K"%char) eqn:E10; [intros [= <-]; by pressed E10; apply (follows_edit _ _ _ _ _ kill_to_end KillEnd _ Hs Hc (performs_kill_end w h Hw t0 s _ _ El))|].
  destruct (ic =? CTRL "L"%char) eqn:E11; [intros [= <-]; by pressed E11; apply redraw_all|].
  destruct ((ic =? CTRL "N"%char) || _) eqn:E12.
  { assert (command_of veof ic = Newer) as Ha by (by pressed E12). pose proof (newer_shown veof ic above row0 s Hs Hc Ha). destruct (get_next_history s); by intros [= <-]. }
  destruct (ic =? CTRL "P"%char) eqn:E13.
  { pressed E13. pose proof (older_shown veof 16 above row0 s id Hs Hc eq_refl ltac:(by left)) as Ho. destruct (get_previous_history s); by intros [= <-]. }
  destruct (ic =? KEYCODE_UP) eqn:E14.
  { pressed E14. pose proof (older_shown veof (-2) above row0 s beep Hs Hc eq_refl ltac:(by right)) as Ho. destruct (get_previous_history s); by intros [= <-]. }
  destruct (ic =? CTRL "U"%char) eqn:E15; [intros [= <-]; by pressed E15; apply (follows_edit _ _ _ _ _ _ KillStart _ Hs Hc (performs_kill_start w h Hw t0 s _ _ El))|].
  destruct (ic =? CTRL "W"%char) eqn:E16; [intros [= <-]; by pressed E16; apply (follows_edit _ _ _ _ _ _ KillSpaced _ Hs Hc (performs_kill_word w h Hw t0 s _ _ El))|].
  destruct (ic =? KEYCODE_ALT_D) eqn:E17; [intros [= <-]; by pressed E17; apply (follows_edit _ _ _ _ _ _ KillWordRight _ Hs Hc (performs_kill_forward w h Hw t0 s _ _ El))|].
  destruct (ic =? KEYCODE_ALT_BACKSPACE) eqn:E18; [intros [= <-]; by pressed E18; apply (follows_edit _ _ _ _ _ _ KillWordLeft _ Hs Hc (performs_kill_back w h Hw t0 s _ _ El))|].
  destruct ((ic =? KEYCODE_CTRL_LEFT) || _) eqn:E19; [intros [= <-]; by pressed E19; apply (follows_edit _ _ _ _ _ _ WordLeft _ Hs Hc (word_left_performs s))|].
  destruct ((ic =? KEYCODE_CTRL_RIGHT) || _) eqn:E20; [intros [= <-]; by pressed E20; apply (follows_edit _ _ _ _ _ _ WordRight _ Hs Hc (word_right_performs s))|].
  apply default_follows; [done|done| |].
  - apply orb_false_iff in E7 as [_ E7]. apply Z.eqb_neq in E7. lia.
  - assert ((ic =? 16) || (ic =? -2) = false) as E1314 by (apply orb_false_iff; by split).
    apply unbound. unfold bindings. repeat constructor; cbn [fst existsb]; rewrite ?orb_false_r; assumption.
Qed.

(** ** A line *)

Lemma turn_obeys vintr veof ic above row0 s s' : shown above row0 s -> clean s -> ic < 128 \/ 256 <= ic ->
  turn vintr veof ic s = More s' -> follows veof ic above row0 s s'.
Proof using Hw.
  intros Hs Hc Hic. unfold turn. destruct (key vintr veof ic s) as [s1|] eqn:E; [|done].
  destruct (key_follows vintr veof ic above row0 s s1 Hs Hc Hic E) as (ab & r & ins & H1 & H2 & H3 & H4 & H5 & H6).
  intros [= <-]. destruct (ic =? uc TAB); exists ab, r, ins; split_and!; try done. by apply shown_tab.
Qed.

(** The session after several keys; [inss]: what completion adds at each. *)
Fixpoint heeds (size : Z) (cnt : nat) (veof : Z) (keys : list Z) (inss : list cstr) (s : session) : session :=
  match keys, inss with
  | ic :: keys, ins :: inss => heeds size cnt veof keys inss (obey size cnt ins (command_of veof ic) s)
  | _, _ => s
  end.

(** Keys that leave what is above the prompt alone. *)
Definition in_place (veof ic : Z) : Prop := command_of veof ic <> Complete /\ command_of veof ic <> Redraw.

Lemma loop_obeys vintr veof keys : forall above row0 s s', shown above row0 s -> clean s -> Forall (fun ic => ic < 128 \/ 256 <= ic) keys ->
  edit_loop vintr veof keys s = More s' ->
  exists above' row0' inss, length inss = length keys /\ shown above' row0' s' /\ clean s' /\ fixed s' = fixed s /\ cnt_history (state s') = cnt_history (state s) /\
    session_of s' = heeds (maxsize s) (cnt_history (state s)) veof keys inss (session_of s) /\
    (Forall (in_place veof) keys -> above' = above /\ row0' = row0).
Proof using Hw.
  induction keys as [|ic keys IH]; intros above row0 s s' Hs Hc Hk; [intros [= <-]; by exists above, row0, []|]. apply Forall_cons in Hk as [Hic Hk].
  cbn [edit_loop]. destruct (turn vintr veof ic s) as [s1|] eqn:E; [|done]. intros Hl.
  destruct (turn_obeys vintr veof ic above row0 s s1 Hs Hc Hic E) as (ab & r & ins & H1 & H2 & H3 & H4 & H5 & H6).
  destruct (IH ab r s1 s' H1 H2 Hk Hl) as (ab' & r' & inss & K0 & K1 & K2 & K3 & K4 & K5 & K6). exists ab', r', (ins :: inss).
  split_and!; [cbn; congruence|done|done|congruence|congruence| |].
  - cbn [heeds]. by rewrite K5, H5, (fixed_max _ _ H3), H4.
  - intros Hp. apply Forall_cons in Hp as [[P1 P2] Hp]. destruct (K6 Hp) as [-> ->]. destruct H6 as [?|[?|?]]; done.
Qed.

(** A terminal whose cursor is at the start of an empty row of the screen, with
    nothing below. *)
Definition fresh (t : term) : Prop := at_pos w t (t_row t) 0 /\ in_view h t /\ forall q, t_row t * w <= q -> t_cell t q = SP.

(** A prompt with which a line of [size] fits on the screen. *)
Definition prompt_ok (prompt : cstr) (size : Z) : Prop :=
  let last := last_line prompt in
  let n := Z.of_nat (length last) in
  all_plain last /\ (0 <? n) && (n mod w =? 0) = false /\ n + size <= w * h /\ n < 2 ^ 20 /\
  Forall (fun c => plain c = true \/ c = NL) prompt.

Lemma last_line_split prompt : exists lines, prompt = lines ++ last_line prompt /\ (lines = [] \/ last lines = Some NL).
Proof using.
  unfold last_line. destruct (strrchr prompt NL) as [q|] eqn:E; [|exists []; split; [done|by left]].
  destruct (strrchr_suffix _ _ _ E) as [l Hl]. assert (exists q', q = NL :: q') as [q' ->].
  { clear Hl. revert q E. induction prompt as [|a p IH]; intros q; [done|]. cbn. destruct (strrchr p NL); [intros [= <-]; by apply IH|].
    destruct (Ascii.eqb_spec a NL) as [->|]; [intros [= <-]; by eexists|done]. }
  exists (l ++ [NL]). cbn. rewrite <- app_assoc. split; [done|]. right. by rewrite last_snoc.
Qed.

(** The cell the next character goes to. *)
Definition next_cell (t : term) : Z := t_row t * w + (if t_pending t then w else t_col t).

Lemma feed_ahead c t : steady w h t -> plain c = true \/ c = NL ->
  let t' := feed w h t c in
  next_cell t <= next_cell t' /\ forall q, q < next_cell t \/ next_cell t' <= q -> t_cell t' q = t_cell t q.
Proof using Hw.
  intros (Hg & Hv & Hcol) Hc. cbv zeta. destruct Hc as [Hc| ->].
  - rewrite feed_plain by done. unfold put_char, next_cell. set (t2 := if t_pending t then line_feed h t else t).
    assert (t_pending t2 = false /\ t_row t2 * w + t_col t2 = t_row t * w + (if t_pending t then w else t_col t) /\ t_cell t2 = t_cell t) as (E1 & E2 & E3).
    { unfold t2. destruct (t_pending t) eqn:Ep; [|done]. cbn. split_and!; [done|lia|done]. }
    destruct (Z.eqb_spec (t_col t2) (w - 1)); cbn; (split; [lia|]); intros q Hq; (destruct (Z.eqb_spec q (t_row t2 * w + t_col t2)); [lia|by rewrite E3]).
  - rewrite feed_nl by done. unfold next_cell. cbn. split; [|done]. destruct (t_pending t); lia.
Qed.

Lemma text_ahead l : forall t, steady w h t -> Forall (fun c => plain c = true \/ c = NL) l ->
  next_cell t <= next_cell (feeds w h l t) /\ forall q, q < next_cell t \/ next_cell (feeds w h l t) <= q -> t_cell (feeds w h l t) q = t_cell t q.
Proof using Hw.
  induction l as [|c l IH] using rev_ind; intros t Hst Hl; [done|]. apply Forall_app in Hl as [Hl Hc]. apply Forall_cons in Hc as [Hc _].
  rewrite feeds_app. destruct (steady_text w h Hw l t Hst Hl) as [Hst1 _]. destruct (IH t Hst Hl) as [H1 H2]. set (t1 := feeds w h l t) in *.
  destruct (feed_ahead c t1 Hst1 Hc) as [K1 K2]. change (feeds w h [c] t1) with (feed w h t1 c). split; [lia|]. intros q Hq. rewrite K2, H2 by lia. done.
Qed.

Definition loaded (li : line_input) : line_input := if (cnt_history li =? 0)%nat then load_history li else li.
Definition line_size (size : Z) : Z := if MAX_LINELEN <? size then MAX_LINELEN else size.

Lemma start_shown prompt size li : fresh t0 -> 2 <= size -> prompt_ok prompt (line_size size) -> (forall i l, history (loaded li) !! i = Some (Some l) -> all_plain l) ->
  exists above row0, shown above row0 (start_editor w prompt size li) /\ clean (start_editor w prompt size li) /\
    (forall q, q < t_row t0 * w -> above q = t_cell t0 q) /\ (last_line prompt = prompt -> row0 = t_row t0).
Proof using Hw.
  intros (Hpos & Hv & Hblank) Hsize (Hlast & Hmargin & Hfits & Hsmall & Hprompt) Hhist. destruct (last_line_split prompt) as (lines & Esplit & Hlines).
  assert (steady w h t0) as Hst by (destruct Hpos as (? & ? & ? & Hc & ?); unfold steady; by rewrite Hc).
  assert (Forall (fun c => plain c = true \/ c = NL) lines) as Hl by (rewrite Esplit in Hprompt; by apply Forall_app in Hprompt as [? _]).
  destruct (steady_text w h Hw lines t0 Hst Hl) as [(Hg1 & Hv1 & _) Hrow]. destruct (text_ahead lines t0 Hst Hl) as [Ha1 Ha2]. set (t1 := feeds w h lines t0) in *.
  assert (at_pos w t1 (t_row t1) 0) as Hpos1.
  { destruct Hlines as [->|Hn]; [done|]. destruct (Hrow Hn) as (r & Hr). pose proof Hr as (_ & _ & -> & _). done. }
  assert (next_cell t0 = t_row t0 * w) as En0 by (unfold next_cell; destruct Hpos as (_ & -> & _ & -> & _); lia).
  assert (next_cell t1 = t_row t1 * w) as En1 by (unfold next_cell; destruct Hpos1 as (_ & -> & _ & -> & _); lia).
  set (s := start_editor w prompt size li). set (n := Z.of_nat (length (last_line prompt))) in *.
  assert (screen s = feeds w h (last_line prompt) t1) as Es by (unfold screen; change (out s) with prompt; rewrite Esplit at 1; apply feeds_app).
  destruct (prints w h Hw (t_row t1) t1 Hpos1 Hv1 (last_line prompt) Hlast) as ((Hg2 & Hpr) & Hv2 & Ht2 & Hq2). fold n in Hpr, Ht2, Hq2. rewrite Hmargin in Hpr. destruct Hpr as (Hp2 & Hr2 & Hc2).
  pose proof (Z.mod_pos_bound n w ltac:(lia)) as Hmod. pose proof (Z.div_mod n w ltac:(lia)) as Hdm. pose proof (Z.div_pos n w ltac:(lia) ltac:(lia)) as Hdp.
  assert (2 <= line_size size <= MAX_LINELEN) as Hls by (unfold line_size, MAX_LINELEN; destruct (Z.ltb_spec 1024 size); lia).
  assert (n / w < h) as Hrows by (apply Z.div_lt_upper_bound; lia).
  exists (t_cell t1), (t_row t1). split_and!.
  - split_and!.
    + constructor; try done; cbn; [change (Z.of_nat 0 < line_size size); lia|constructor|]. exists lines. split_and!; [exact Esplit|done|done].
    + constructor; rewrite ?Es; try done.
      * unfold in_view in Hv1. lia.
      * change (n / w * w + n mod w = n + Z.of_nat 0). lia.
    + intros q. rewrite Es, Hq2. unfold want. change (prompt_last_line s) with (last_line prompt). change (command_ps s) with (@nil ascii). rewrite app_nil_r.
      destruct (Z.ltb_spec q (t_row t1 * w)), (Z.leb_spec (t_row t1 * w) q); cbn [andb]; [lia|done| |lia].
      destruct (Z.ltb_spec q (t_row t1 * w + n)); [done|]. rewrite nth_overflow by lia. rewrite Ha2 by lia. apply Hblank. lia.
  - split; [constructor|]. exact Hhist.
  - intros q Hq. apply Ha2. lia.
  - intros E. assert (lines = []) as El by (apply length_zero_iff_nil; apply (f_equal length) in Esplit; rewrite length_app, E in Esplit; lia).
    unfold t1. by rewrite El.
Qed.

(** ** Enter *)

Lemma enter_fresh above row0 s : shown above row0 s ->
  let s' := goto_new_line s in
  fresh (screen s') /\ rest s' = rest s /\ forall q, t_cell (screen s') q = want w above row0 s q.
Proof using Hw.
  intros Hs. destruct (shown_till w h Hw t0 above row0 s Hs) as ((H1 & Hd & Hq) & H3 & H4). cbv zeta. unfold goto_new_line. set (s1 := put_till_end_and_adv_cursor s) in *.
  pose proof (drawn_steady _ _ _ _ _ Hd) as Hst. assert (command_len s1 = command_len s) as El by (unfold command_len; by rewrite (rest_ps _ _ H4)).
  assert (forall q, t_cell (screen s1) q = want w above row0 s q) as Hq1 by (intros q; rewrite Hq; by apply rest_want).
  assert (forall q, row0 * w + cmdedit_prmt_len s1 + Z.of_nat (command_len s1) <= q -> t_cell (screen s1) q = SP) as Hblank by (intros q Hge; rewrite Hq; by apply (want_behind w h)).
  pose proof Hd as [(Hg & Hp & Hr & Hc & Hx) Hv Htop Hy Hcur]. rewrite H3, <- El in Hcur. destruct (_ || _) eqn:E.
  - destruct (steady_line_feed w h Hw (screen s1) Hst) as [K1 K2]. assert (screen (emit [NL] s1) = line_feed h (screen s1)) as Es by (rewrite screen_emit; by apply feed_nl).
    rewrite Es. split_and!; [|done|done]. split_and!; [exact K2|by destruct K1 as (_ & ? & _)|]. intros q Hge. cbn in Hge. cbn. apply Hblank. rewrite Hr in Hge. lia.
  - apply orb_false_iff in E as [_ E]. apply negb_false_iff, Z.eqb_eq in E. split_and!; [|done|done]. split_and!; [|done|].
    + unfold at_pos. rewrite Hc, E. split_and!; first [done|lia].
    + intros q Hge. apply Hblank. rewrite Hr in Hge. lia.
Qed.
Definition first_session (li : line_input) : session := mk_session (mk_line [] []) (history li) (cnt_history li).
Definition text_of (s : session) : cstr := before (the_line s) ++ after (the_line s).
Definition with_session (s : session) (li : line_input) : line_input := set_history (the_history s) (cnt_history li) (the_place s) (cnt_history_in_file li) li.

(** What [lineedit_read_key] returns for a key: a byte of ASCII or a KEYCODE. *)
Definition typed (ic : Z) : Prop := ic < 128 \/ 256 <= ic.

(** Keys that add to the line no more than there is room for before the newline. *)
Definition types (veof ic : Z) : Prop := match command_of veof ic with Edit _ | Redraw | Nothing => True | _ => False end.

Lemma edit_loop_app vintr veof a b : forall s, edit_loop vintr veof (a ++ b) s = match edit_loop vintr veof a s with More s => edit_loop vintr veof b s | r => r end.
Proof using. induction a as [|ic a IH]; intros s; [done|]. cbn. destruct (turn vintr veof ic s); [apply IH|done]. Qed.

Lemma waiting_more prompt size li vintr veof keys : read_line_input w vintr veof prompt size li keys = Waiting ->
  exists s, edit_loop vintr veof keys (start_editor w prompt size li) = More s.
Proof using.
  unfold read_line_input. destruct (edit_loop _ _ _ _) as [s|bo len s]; [by exists s|]. by destruct (0 <? bo); [destruct (size <? len + 2)|].
Qed.

Lemma length_drop_while p l : (length (drop_while p l) <= length l)%nat.
Proof using. destruct (drop_while_suffix p l) as [x E]. apply (f_equal length) in E. rewrite length_app in E. lia. Qed.

Lemma length_drop_while_end p l : (length (drop_while_end p l) <= length l)%nat.
Proof using. destruct (drop_while_end_prefix p l) as [x E]. apply (f_equal length) in E. rewrite length_app in E. lia. Qed.

Lemma edit_fits room a l : Z.of_nat (length (before l ++ after l)) <= room ->
  Z.of_nat (length (before (edit room a l) ++ after (edit room a l))) <= room.
Proof using.
  destruct l as [b f]. cbn [before after]. rewrite length_app. intros Hl.
  assert (length (removelast b) <= length b)%nat as Hr by (destruct b as [|c b _] using rev_ind; [done|rewrite removelast_last, length_app; lia]).
  pose proof (length_drop_while delimits f). pose proof (length_drop_while not_delimits (drop_while delimits f)).
  pose proof (length_drop_while_end delimits b). pose proof (length_drop_while_end not_delimits (drop_while_end delimits b)).
  pose proof (length_drop_while_end isspace b). pose proof (length_drop_while_end (fun c => negb (isspace c)) (drop_while_end isspace b)).
  destruct a; cbn [edit before after]; fold (word_back b) (word_ahead f) in *; rewrite ?length_app; cbn [length]; rewrite ?length_drop, ?length_take, ?length_app; try lia.
  - destruct (Z.ltb_spec (Z.of_nat (length b + length f)) room); cbn [before after]; rewrite ?length_app; cbn [length]; lia.
  - destruct b as [|c b _] using rev_ind; [cbn; lia|]. rewrite last_snoc, removelast_last. cbn [before after length] in *. rewrite ?length_app in *. cbn [length] in *. lia.
  - destruct f; cbn [before after]; rewrite ?length_app; cbn [length] in *; lia.
Qed.

Lemma heeds_fits size cnt veof keys : forall inss s, Forall (types veof) keys -> Z.of_nat (length (text_of s)) <= size - 2 ->
  Z.of_nat (length (text_of (heeds size cnt veof keys inss s))) <= size - 2.
Proof using.
  induction keys as [|ic keys IH]; intros inss s Hk Hl; [by destruct inss|]. destruct inss as [|ins inss]; [done|].
  apply Forall_cons in Hk as [Hic Hk]. cbn [heeds]. apply IH; [done|]. unfold types in Hic. destruct (command_of veof ic); try done. by apply edit_fits.
Qed.

(** C12. A line is read as a session of the reference editor: for keys after which
    the editor waits for more, Enter returns that session's text with a newline,
    remembered in the history, if it fits into the caller's buffer, and always if
    the keys only edit.  On a terminal whose cursor was at the start of a row with
    nothing below, the rows then hold the last line of the prompt and the text,
    and nothing else is left of the editing; the cursor is again at the start of
    an empty row; and without completion and Ctrl-L what was above is still there.
    Keys are bytes of ASCII or KEYCODEs ([typed]); the prompt is printable, its last
    line is empty or its length no multiple of the terminal's width (see
    [wide_prompt]), that line and a full buffer fit on the screen ([prompt_ok]),
    and the lines of the history are printable ASCII. *)
Theorem line_read prompt size li vintr veof keys :
  fresh t0 -> 2 <= size -> prompt_ok prompt (line_size size) -> (forall i l, history (loaded li) !! i = Some (Some l) -> all_plain l) ->
  Forall typed keys -> read_line_input w vintr veof prompt size li keys = Waiting ->
  exists inss row0 printed, length inss = length keys /\
    let f := heeds (line_size size) (cnt_history (loaded li)) veof keys inss (first_session (loaded li)) in
    let text := text_of f in
    let n := Z.of_nat (length text) in
    let t := feeds w h printed t0 in
    read_line_input w vintr veof prompt size li (keys ++ [uc NL]) =
      (if size <? n + 2 then Overrun else Returned (n + 1) (text ++ [NL]) (remember_in_history text (with_session f (loaded li))) printed) /\
    (Forall (types veof) keys -> n + 2 <= size) /\
    fresh t /\
    (forall q, row0 * w <= q -> t_cell t q = nth (Z.to_nat (q - row0 * w)) (last_line prompt ++ text) SP) /\
    (Forall (in_place veof) keys -> (forall q, q < t_row t0 * w -> q < row0 * w -> t_cell t q = t_cell t0 q) /\ (last_line prompt = prompt -> row0 = t_row t0)).
Proof using Hw.
  intros Hf Hsize Hprompt Hhist Hkeys Hwait. destruct (waiting_more _ _ _ _ _ _ Hwait) as [s Hs].
  destruct (start_shown prompt size li Hf Hsize Hprompt Hhist) as (above & row & Hsh & Hcl & Habove & Hrow).
  destruct (loop_obeys vintr veof keys above row _ s Hsh Hcl Hkeys Hs) as (above' & row0 & inss & Hlen & H1 & _ & H3 & H4 & H5 & H6).
  destruct (enter_fresh above' row0 s H1) as (K1 & K2 & K3). set (s2 := goto_new_line s) in *. exists inss, row0, (out s2). split; [done|].
  cbv zeta. change (maxsize (start_editor w prompt size li)) with (line_size size) in H5.
  change (cnt_history (state (start_editor w prompt size li))) with (cnt_history (loaded li)) in H4, H5.
  change (session_of (start_editor w prompt size li)) with (first_session (loaded li)) in H5. rewrite <- H5.
  assert (text_of (session_of s) = command_ps s) as -> by apply take_drop.
  assert (command_ps s2 = command_ps s) as Eps by apply (rest_ps _ _ K2).
  assert (state s2 = with_session (session_of s) (loaded li)) as Est.
  { assert (state s2 = state s) as -> by (unfold rest in K2; congruence). unfold with_session, set_history. cbn [the_history the_place session_of].
    assert (max_history (state s) = max_history (loaded li) /\ cnt_history_in_file (state s) = cnt_history_in_file (loaded li) /\ file (state s) = file (loaded li)) as (E1 & E2 & E3)
      by (injection H3 as _ _ E1 E2 E3; by split_and!).
    rewrite <- H4, <- E1, <- E2, <- E3. by destruct (state s). }
  split_and!; [|..|done| |].
  - unfold read_line_input. rewrite edit_loop_app, Hs. change (edit_loop vintr veof [uc NL] s) with (Break 1 (Z.of_nat (command_len s2)) s2).
    change (0 <? 1) with true. cbn iota. unfold command_len. rewrite Eps, Est. destruct (size <? _); [done|]. f_equal.
    destruct (Z.ltb_spec 0 (Z.of_nat (length (command_ps s)))); [done|]. by destruct (command_ps s).
  - intros Ht. pose proof (heeds_fits (line_size size) (cnt_history (loaded li)) veof keys inss (first_session (loaded li)) Ht) as Hfit.
    rewrite <- H5 in Hfit. assert (text_of (session_of s) = command_ps s) as E by apply take_drop. rewrite E in Hfit.
    change (Z.of_nat (length (text_of (first_session (loaded li))))) with 0 in Hfit.
    unfold line_size, MAX_LINELEN in *. destruct (Z.ltb_spec 1024 size); lia.
  - intros q Hq. etrans; [apply K3|]. unfold want. destruct (Z.ltb_spec q (row0 * w)); [lia|]. f_equal. f_equal. by injection H3 as _ -> _ _ _.
  - intros Hp. destruct (H6 Hp) as [-> ->]. split; [|done]. intros q Hq1 Hq2. etrans; [apply K3|]. unfold want. destruct (Z.ltb_spec q (row * w)); [|lia]. by apply Habove.
Qed.
End Keys.

(** ** A directory, a terminal and a history *)

Definition demo_dir (d : cstr) : option (list cstr) := if bool_decide (d = lit ".") then Some [lit "notes one"; lit "src"] else None.

Lemma demo_short d l : demo_dir d = Some l -> Forall (fun n => (length n < 4096)%nat) l.
Proof. unfold demo_dir. destruct (bool_decide _); [intros [= <-]|done]. repeat (constructor; [apply Nat.ltb_lt; by vm_compute|]). constructor. Qed.

Lemma demo_applets : Forall (fun n => (length n < 4096)%nat) ([lit "ls"; lit "lsof"] ++ []).
Proof. repeat (constructor; [apply Nat.ltb_lt; by vm_compute|]). constructor. Qed.

#[local] Instance demo_names : Names := {|
  applet_names := [lit "ls"; lit "lsof"];
  get_exe_name := [];
  path_lookup := None;
  readdir := demo_dir;
  stat_dir f := Some (bool_decide (f = lit "src"));
  names_short := demo_applets;
  readdir_short := demo_short;
  qsort_string_vector := expsort;
  qsort_string_vector_perm l := proj2 (msort_spec (length l) l (le_n _));
  qsort_string_vector_sorted l := proj1 (msort_spec (length l) l (le_n _));
|}.

Definition blank : term := mk_term (fun _ => SP) 0 0 false 0 Ground.
Definition one_line (l : cstr) : line_input := mk_li (slots [l]) 1 1 MAX_HISTORY 0 None.
Definition INTR : Z := 0.
Definition EOT : Z := 4.

(** "ac", left, "b", and then up and down again. *)
Lemma line_read_witness : exists li printed,
  read_line_input 80 INTR EOT (lit "$ ") 1024 (one_line (lit "ls")) ([97; 99; -5; 98; -2; -3] ++ [uc NL]) = Returned 4 (lit "abc" ++ [NL]) li printed /\
  fresh 80 24 (feeds 80 24 printed blank).
Proof.
  destruct (line_read 80 24 ltac:(lia) blank (lit "$ ") 1024 (one_line (lit "ls")) INTR EOT [97; 99; -5; 98; -2; -3]) as (inss & row0 & printed & Hl & E & _ & Hf & _).
  - unfold fresh, at_pos, in_view. cbn. split_and!; first [done|lia].
  - lia.
  - unfold prompt_ok. cbv zeta. change (last_line (lit "$ ")) with (lit "$ "). assert (all_plain (lit "$ ")) as Hp by (unfold all_plain; by repeat constructor).
    split_and!; [exact Hp|done|by vm_compute|by vm_compute|]. eapply Forall_impl; [exact Hp|]. by left.
  - intros [|i] l; [intros [= <-]; unfold all_plain; by repeat constructor|].
    change (history (loaded (one_line (lit "ls"))) !! S i) with (replicate MAX_HISTORY (@None cstr) !! i). by intros [? _]%lookup_replicate.
  - unfold typed. repeat (constructor; [lia|]). constructor.
  - by vm_compute.
  - do 6 (destruct inss as [|? inss]; [discriminate Hl|]). destruct inss; [|discriminate Hl]. do 2 eexists. split; [|exact Hf]. rewrite E. by vm_compute.
Defined.

(** Completion quotes what has to be quoted. *)
Example tab_quotes :
  match edit_loop INTR EOT [uc "c"; uc SP; uc "n"; uc TAB] (start_editor 20 (lit "$ ") 1024 (one_line [])) with
  | More s => command_ps s = lit "c notes\ one "
  | _ => False
  end.
Proof. by vm_compute. Qed.

(** A line from the history as long as the buffer has room for, without the newline:
    of 1023 characters, for the shell. *)
Example history_overrun : read_line_input 20 INTR EOT (lit "$ ") 8 (one_line (lit "1234567")) [-2; uc NL] = Overrun.
Proof. by vm_compute. Qed.

(** So has completion. *)
Example completion_overrun : read_line_input 20 INTR EOT (lit "$ ") 14 (one_line []) [uc "c"; uc SP; uc "n"; uc TAB; uc NL] = Overrun.
Proof. by vm_compute. Qed.

(** A prompt as wide as the terminal: the editor believes to be in the next row,
    and redraws over the row above. *)
Example wide_prompt :
  let t1 := feeds 4 5 (lit "old" ++ [NL]) blank in
  row_text 4 t1 0 = lit "old " /\
  match edit_loop INTR EOT [-2] (start_editor 4 (lit "abc$") 8 (one_line (lit "ls"))) with
  | More s => row_text 4 (feeds 4 5 (out s) t1) 0 = lit "abc$"
  | _ => False
  end.
Proof. by vm_compute. Qed.

(** Ctrl-C returns a newline, and behind a line that ends at the margin the cursor
    is left behind the "^C". *)
Example interrupted :
  match read_line_input 4 INTR EOT (lit "$ ") 8 (one_line (lit "ls")) [uc "a"; uc "b"; 3] with
  | Returned len command _ printed =>
      let t := feeds 4 5 printed blank in len = 1 /\ command = [NL] /\ row_text 4 t 1 = lit "^C  " /\ t_row t = 1 /\ t_col t = 2
  | _ => False
  end.
Proof. by vm_compute. Qed.
