(* ===== verification/AshFrame.v ===== *)
(** * shell/ash.c: what expansions leave alone

    A computation keeps an observation of its state if the observation is the
    same whenever it ends normally.  Expanding words keeps every observation that
    assignments, [exitstatus] and the commands substituted keep: whatever the
    nesting of the word, nothing else of the shell is touched. *)

From Stdlib Require Import Ascii String ZArith Lia.
From stdpp Require Import base gmap list strings.
From S2P Require Import Prelude Clib LibbbStr ShMath AshInput AshLex AshParse AshBase AshExpand.

Local Open Scope Z_scope.
Local Open Scope ash_scope.

Definition keeps {S B A} (f : S -> B) (m : M S A) : Prop := forall s s' a, m s = Ok s' a -> f s' = f s.

Create HintDb keeps.

Section Keeps.
Context {S B : Type} (f : S -> B).

Lemma keeps_ret {A} (a : A) : keeps f (ret a).
Proof. intros s s' a' [= <- _]. done. Qed.

Lemma keeps_get {A} (g : S -> A) : keeps f (get g).
Proof. intros s s' a' [= <- _]. done. Qed.

Lemma keeps_wild {A} : keeps f (@wild S A).
Proof. by intros s s' a. Qed.

Lemma keeps_raise {A} e : keeps f (@raise S A e).
Proof. by intros s s' a. Qed.

Lemma keeps_deref {A} (o : option A) : keeps f (deref o).
Proof. destruct o; [apply keeps_ret|apply keeps_wild]. Qed.

Lemma keeps_modify (g : S -> S) : (forall s, f (g s) = f s) -> keeps f (modify g).
Proof. intros Hg s s' a' [= <- _]. done. Qed.

Lemma keeps_bind {A C} (m : M S A) (k : A -> M S C) :
  keeps f m -> (forall a, keeps f (k a)) -> keeps f (bind m k).
Proof.
  intros Hm Hk s s' c Hr. apply bind_ok in Hr as (s1 & a & H1 & H2).
  rewrite (Hk a s1 s' c H2). by apply (Hm s s1 a).
Qed.

Lemma keeps_for_each {A} (g : A -> M S unit) l : (forall a, keeps f (g a)) -> keeps f (for_each g l).
Proof.
  intros Hg. induction l as [|a l IH]; [apply keeps_ret|]. apply keeps_bind; [done|intros _; done].
Qed.
End Keeps.

#[export] Hint Resolve keeps_ret keeps_get keeps_wild keeps_raise keeps_deref keeps_for_each : keeps.

(** Take a computation apart; what is left are its calls. *)
Ltac keep :=
  repeat first
    [ solve [eauto with keeps]
    | match goal with
      | |- keeps _ (bind _ _) => apply keeps_bind; [|intros ?]
      | |- keeps _ (modify _) => apply keeps_modify; intros; reflexivity
      | |- keeps _ (if ?b then _ else _) => destruct b
      | |- keeps _ (match ?x with _ => _ end) => destruct x
      end ].

(** ** Arithmetic *)

Section Arith.
Context {E B : Type} `{VarStore E} (f : E -> B).
Context (setvar_keeps : forall e n v e', setvar e n v = Some e' -> f e' = f e).

Definition ares_keeps {A} (e : E) (r : ares E A) : Prop :=
  match r with AOk e' _ | AErr e' _ => f e' = f e | _ => True end.

Section Level.
Context (ev : E -> list cstr -> cstr -> ares E Z) (ev_keeps : forall e names p, ares_keeps e (ev e names p)).

Lemma lookup_val_keeps e names t : ares_keeps e (arith_lookup_val ev e names t).
Proof.
  unfold arith_lookup_val. destruct (var t) as [v|]; [|done]. destruct (lookupvar e v) as [p|]; [|done].
  case_bool_decide; [done|]. pose proof (ev_keeps e (v :: names) p) as Hk. by destruct (ev _ _ _).
Qed.

Lemma store_keeps e op rez top rest : ares_keeps e (arith_store e op rez top rest).
Proof.
  unfold arith_store. destruct (is_assign_op op); [|done]. destruct (var top) as [v|]; [|done].
  destruct (setvar e v _) eqn:Hs; [|done]. by apply setvar_keeps in Hs.
Qed.

Lemma ares_trans {A} e e' (r : ares E A) : f e' = f e -> ares_keeps e' r -> ares_keeps e r.
Proof. intros He. destruct r; simpl; congruence. Qed.

Lemma apply_keeps e names op nums : ares_keeps e (arith_apply ev e names op nums).
Proof.
  unfold arith_apply. destruct nums as [|top rest]; [done|].
  pose proof (lookup_val_keeps e names top) as H1. destruct (arith_lookup_val ev e names top) as [e1 top1| | |]; try done.
  simpl in H1. destruct (arith_unop op (val top1)) as [rez|].
  { apply (ares_trans e e1); [done|apply store_keeps]. }
  destruct rest as [|lhs rest]; [done|]. cbv zeta. destruct (if op =? _ then _ else _); [done|].
  assert (H2 : ares_keeps e (if op =? TOK_ASSIGN then AOk e1 lhs else arith_lookup_val ev e1 names lhs)).
  { destruct (op =? TOK_ASSIGN); [done|]. apply (ares_trans e e1); [done|apply lookup_val_keeps]. }
  destruct (if op =? TOK_ASSIGN then _ else _) as [e2 lhs2| | |]; try done. simpl in H2.
  destruct (_ && _); [done|]. destruct (arith_binop _ _ _ _); [done|].
  apply (ares_trans e e2); [done|apply store_keeps].
Qed.

Lemma pending_keeps e names op prec nums ops : ares_keeps e (apply_pending ev e names op prec nums ops).
Proof.
  revert e nums prec. induction ops as [|p ops IH]; intros e nums prec; cbn [apply_pending].
  { by destruct (op =? TOK_RPAREN). }
  assert (Hgo : forall prec, ares_keeps e
    (do e, nums <- arith_apply ev e names p nums; apply_pending ev e names op prec nums ops)).
  { intros pr. pose proof (apply_keeps e names p nums) as H1.
    destruct (arith_apply ev e names p nums) as [e1 n1| | |]; try done. apply (ares_trans e e1); [done|apply IH]. }
  cbv zeta. destruct (op =? TOK_RPAREN).
  - destruct (p =? TOK_LPAREN); [|apply Hgo]. destruct nums as [|top rest]; [done|].
    destruct (var top); [|done]. pose proof (lookup_val_keeps e names top) as H1.
    by destruct (arith_lookup_val ev e names top).
  - destruct (_ || _); [done|apply Hgo].
Qed.

Definition mnext_keeps (e : E) (n : mnext (E := E)) : Prop :=
  match n with MGo e' _ => f e' = f e | MEnd r => ares_keeps e r end.

Lemma process_op_keeps e names st op expr : mnext_keeps e (process_op ev e names st op expr).
Proof.
  unfold process_op. destruct (_ || _); [|done]. destruct (negb _); [done|].
  match goal with |- context [apply_pending ev e names ?o ?p ?n ?l] =>
    pose proof (pending_keeps e names o p n l) as Hk; destruct (apply_pending ev e names o p n l) as [e1 [[? ?] []]| | |]
  end; done.
Qed.

Lemma eval_step_keeps e names null st : mnext_keeps e (eval_step ev e names null st).
Proof.
  unfold eval_step. destruct (skip_whitespace _) as [|c r].
  - destruct null; [done|]. destruct (negb _); [done|]. by destruct (m_nums st) as [|? []].
  - cbv zeta. destruct (negb _); [done|]. destruct (isdigit _); [done|].
    destruct (two_signs _ _); [apply process_op_keeps|].
    destruct (find_op _ _) as [[? ?]|]; [apply process_op_keeps|done].
Qed.

Lemma eval_loop_keeps fuel e names null st : ares_keeps e (eval_loop ev fuel e names null st).
Proof.
  revert e st. induction fuel as [|n IH]; intros e st; [done|]. cbn [eval_loop].
  pose proof (eval_step_keeps e names null st) as Hk. destruct (eval_step _ _ _ _ _) as [e1 st1|r]; [|done].
  apply (ares_trans e e1); [done|apply IH].
Qed.
End Level.

Lemma arith_keeps depth e expr : ares_keeps e (arith depth e expr).
Proof.
  unfold arith. generalize (@nil cstr) as names. revert e expr.
  induction depth as [|d IH]; intros e expr names; [done|]. apply eval_loop_keeps. intros; apply IH.
Qed.
End Arith.

(** ** Words *)

Section Expand.
Context {St B : Type} `{Shell St} (f : St -> B).
Context (bqcmd : node -> M St (option (list cstr) * Z)) (getpwnam : cstr -> option cstr) (fnmatch : cstr -> cstr -> bool).

Class Unseen : Prop := {
  unseen_setvar : forall s n v s', setvar s n v = Some s' -> f s' = f s;
  unseen_exitstatus : forall z s, f (set_exitstatus z s) = f s;
  unseen_back_exitstatus : forall z s, f (set_back_exitstatus z s) = f s;
  unseen_bqcmd : forall n, keeps f (bqcmd n);
}.
Context {U : Unseen}.

Abbreviation fx := (fun x => f (x_sh x)).

Lemma keeps_on_sh {A} (m : M St A) : keeps f m -> keeps fx (on_sh m).
Proof.
  intros Hm x x' a. unfold on_sh. destruct (m (x_sh x)) as [s b| |] eqn:Hr; try done. intros [= <- _].
  simpl. by apply Hm in Hr.
Qed.

Lemma keeps_error {A} msg : keeps fx (@ash_msg_and_raise_error St _ A msg).
Proof. intros x x' a. done. Qed.

Lemma keeps_setvar name v : keeps fx (x_setvar0 name v).
Proof.
  intros x x' a. unfold x_setvar0. destruct (setvar _ _ _) eqn:Hs; [|done]. intros [= <- _].
  by apply unseen_setvar in Hs.
Qed.

Lemma keeps_arith text : keeps fx (ash_arith text).
Proof.
  intros x x' a. unfold ash_arith.
  pose proof (arith_keeps f unseen_setvar (arith_depth (x_sh x)) (x_sh x) text) as Hk.
  destruct (arith _ _ _) as [e z|e m|e nm|]; try done. by intros [= <- _].
Qed.

#[local] Hint Resolve keeps_on_sh keeps_error keeps_setvar keeps_arith unseen_bqcmd : keeps.

Lemma keeps_record a b n : keeps fx (@recordregion St a b n).
Proof. unfold recordregion. keep. Qed.
Lemma keeps_unrecord a : keeps fx (@removerecordregions St a).
Proof. unfold removerecordregions. keep. Qed.
Lemma keeps_ifsfree : keeps fx (@ifsfree St).
Proof. unfold ifsfree. keep. Qed.
Lemma keeps_cut_to n : keeps fx (@cut_to St n).
Proof. unfold cut_to. keep. Qed.
Lemma keeps_emit t : keeps fx (@emit St t).
Proof. unfold emit. keep. Qed.
Lemma keeps_here : keeps fx (@here St).
Proof. apply keeps_get. Qed.
#[local] Hint Resolve keeps_record keeps_unrecord keeps_ifsfree keeps_cut_to keeps_emit keeps_here : keeps.

Lemma keeps_varunset {A} e v u fl : keeps fx (@varunset St _ A e v u fl).
Proof. unfold varunset. destruct (match u with _ => _ end). keep. Qed.

#[local] Hint Resolve keeps_varunset : keeps.

Lemma keeps_memtodest p fl : keeps fx (@memtodest St p fl).
Proof. unfold memtodest, emit. keep. Qed.
#[local] Hint Resolve keeps_memtodest : keeps.

Lemma keeps_strtodest p fl : keeps fx (@strtodest St p fl).
Proof. unfold strtodest. keep. Qed.
Lemma keeps_cvtnum n fl : keeps fx (@cvtnum St n fl).
Proof. unfold cvtnum. keep. Qed.
#[local] Hint Resolve keeps_strtodest keeps_cvtnum : keeps.

Lemma keeps_exptilde p fl : keeps fx (exptilde getpwnam p fl).
Proof. unfold exptilde, x_lookupvar. keep. Qed.

Lemma keeps_expbackq cmd fl : keeps fx (expbackq bqcmd cmd fl).
Proof.
  unfold expbackq. keep.
  - apply keeps_for_each. intros. keep.
  - apply keeps_modify. intros. apply unseen_back_exitstatus.
Qed.

Lemma keeps_put_params ap sep fl len : keeps fx (@put_params St ap sep fl len).
Proof. revert len. induction ap as [|p ap IH]; intros len; cbn [put_params]; keep. Qed.
#[local] Hint Resolve keeps_exptilde keeps_expbackq keeps_put_params : keeps.

Lemma keeps_varvalue name vf fl q : keeps fx (varvalue name vf fl q).
Proof. unfold varvalue, raise_error_syntax. cbv zeta. keep. Qed.
#[local] Hint Resolve keeps_varvalue : keeps.

Section Procs.
Context (argstr : cstr -> Z -> M (xstate St) cstr) (argstr_keeps : forall p fl, keeps fx (argstr p fl)).

Lemma keeps_subevalvar start str a b vf fl : keeps fx (subevalvar fnmatch argstr start str a b vf fl).
Proof. unfold subevalvar. cbv zeta. keep. Qed.

Lemma keeps_expari p fl : keeps fx (expari argstr p fl).
Proof. unfold expari. keep. Qed.
#[local] Hint Resolve keeps_subevalvar keeps_expari : keeps.

Lemma keeps_evalvar p fl : keeps fx (evalvar fnmatch argstr p fl).
Proof. unfold evalvar. cbv zeta. keep. Qed.
#[local] Hint Resolve keeps_evalvar : keeps.

Lemma keeps_argstr_loop fuel p skip fl rej br inq st :
  keeps fx (argstr_loop bqcmd getpwnam fnmatch argstr fuel p skip fl rej br inq st).
Proof.
  revert p skip fl rej inq st. induction fuel as [|n IH]; intros p skip fl rej inq st; [apply keeps_wild|].
  cbn [argstr_loop]. cbv zeta. keep.
Qed.

Lemma keeps_argstr_body p fl : keeps fx (argstr_body bqcmd getpwnam fnmatch argstr p fl).
Proof. unfold argstr_body, tilde_at. cbv zeta. pose proof keeps_argstr_loop. keep. Qed.
End Procs.

Lemma keeps_argstr p fl : keeps fx (argstr bqcmd getpwnam fnmatch p fl).
Proof.
  unfold argstr. generalize (S (length p)) as d. intros d. revert p fl.
  induction d as [|d IH]; intros p fl; [apply keeps_wild|]. by apply keeps_argstr_body.
Qed.
#[local] Hint Resolve keeps_argstr : keeps.

Lemma keeps_start_arg l : keeps fx (@start_arg St l).
Proof. unfold start_arg. keep. Qed.
#[local] Hint Resolve keeps_start_arg : keeps.

Lemma keeps_casematch pat val : keeps fx (casematch bqcmd getpwnam fnmatch pat val).
Proof. unfold casematch. keep. Qed.

(** Expanding a word keeps what assignments and the commands in it keep. *)
Lemma keeps_expandarg readdir lstat a fl : keeps fx (expandarg bqcmd getpwnam fnmatch readdir lstat a fl).
Proof. unfold expandarg. keep. Qed.

End Expand.
