(* ===== verification/AshRedir.v ===== *)
(** * shell/ash.c: redirections

    The file descriptors of the process are a map from numbers to open files;
    [open], [stat] and the choice of a free descriptor are the host's
    ([Class Host]).  [redirlist] is the list of tables of moved descriptors
    ([struct redirtab]): a table is a list of slots of fixed length, and an access
    behind its end is [Wild].  The state also has the descriptors of the stack of
    input files ([pf_fd] of [g_parsefile] and below), which redirections move out
    of their way, and a record of the resets of the libc's buffers.

    The page's [dup] is modelled as it behaves: it fails for a closed descriptor
    only.  [errno] after that failure is any number ([dup_errno]): POSIX has
    [fcntl] set EBADF, but the layer's wrapper only hands on the page's answer, so
    that [errno] is what an earlier call left.  ash takes anything but EBADF for a
    fatal error, EBUSY and EINTR for a reason to try again, which never ends; such
    a call is [Wild] here.  As configured: no job control (no [ttyfd]) and no
    ">&file" (NTO2). *)

From Stdlib Require Import Ascii String ZArith Lia.
From stdpp Require Import base gmap list strings.
From S2P Require Import Prelude Clib WasiCompat AshInput AshBase.

Local Open Scope Z_scope.
Local Open Scope ash_scope.

(** ** The host *)

(** The flags of the calls of [open] in this part of the shell. *)
Inductive open_flags :=
  | O_RDONLY
  | O_RDWR_CREAT
  | O_WRONLY
  | O_WRONLY_CREAT_EXCL
  | O_WRONLY_CREAT_TRUNC
  | O_WRONLY_CREAT_APPEND
  | O_RDWR_CREAT_TRUNC.

(** [F] are open files, [W] is everything outside the process. *)
Class Host (F W : Type) := {
  free_fd : gmap Z F -> Z -> Z;             (* the descriptor a call that wants one gets, from a minimum on *)
  h_open : W -> cstr -> open_flags -> W * (F + Z);
  h_stat : W -> cstr -> option bool;        (* S_ISREG of what is there *)
  h_fstat : W -> F -> option bool;
  dup_errno : Z;                            (* errno after F_DUPFD of a closed descriptor *)
}.

Definition EBADF : Z := 8.
Definition EBUSY : Z := 10.
Definition EINTR : Z := 27.

(** What POSIX promises of the descriptor a call picks. *)
Class HostLaws (F W : Type) `{Host F W} := {
  free_fd_fresh t min : min <= free_fd t min /\ t !! free_fd t min = None;
}.

(** The lowest free descriptor from [min] on. *)
Definition lowest_free {F} (t : gmap Z F) (min : Z) : Z :=
  match List.find (fun n => bool_decide (t !! n = None)) (seqZ min (Z.of_nat (size t) + 1)) with
  | Some n => n
  | None => min
  end.

Lemma lowest_free_fresh {F} (t : gmap Z F) min : min <= lowest_free t min /\ t !! lowest_free t min = None.
Proof.
  unfold lowest_free. destruct (List.find _ _) as [n|] eqn:E.
  - apply find_some in E as [Hin Hn%bool_decide_eq_true]. apply list_elem_of_In, elem_of_seqZ in Hin. split; [lia|done].
  - exfalso. pose proof (find_none _ _ E) as Hnone.
    assert (list_to_set (seqZ min (Z.of_nat (size t) + 1)) ⊆ dom t) as Hsub.
    { intros n Hn%elem_of_list_to_set%list_elem_of_In. specialize (Hnone n Hn).
      apply bool_decide_eq_false in Hnone. by apply elem_of_dom, not_eq_None_Some. }
    apply subseteq_size in Hsub. rewrite size_dom, size_list_to_set, length_seqZ in Hsub by apply NoDup_seqZ. lia.
Qed.

(** ** Tables of moved descriptors *)

Definition EMPTY : Z := -2.
Definition CLOSED : Z := -1.

Record squirrel := mk_sq { orig_fd : Z; moved_to : Z }.
Abbreviation redirtab := (list squirrel).

(** A redirection whose words are expanded ([expfname], [dupfd] set). *)
Inductive xredir :=
  | XFILE (type : ftype) (fd : Z) (expfname : cstr)
  | XDUP (fd dupfd : Z)
  | XHERE (fd : Z).

Definition redir_fd (r : xredir) : Z := match r with XFILE _ fd _ => fd | XDUP fd _ => fd | XHERE fd => fd end.

Record rstate (F W : Type) := mk_r {
  r_fds : gmap Z F;
  r_world : W;
  r_list : list redirtab;        (* redirlist *)
  r_pf : list Z;                 (* pf_fd from g_parsefile down to basepf *)
  r_preverrout : Z;
  r_Cflag : bool;
  r_exitstatus : Z;
  r_stdio : list Z;              (* the resets of the libc's stdin (0) and stdout (1), newest first *)
}.
Arguments mk_r {F W}.
Arguments r_fds {F W}.
Arguments r_world {F W}.
Arguments r_list {F W}.
Arguments r_pf {F W}.
Arguments r_preverrout {F W}.
Arguments r_Cflag {F W}.
Arguments r_exitstatus {F W}.
Arguments r_stdio {F W}.

Section Redir.
Context {F W : Type} `{Host F W}.

Abbreviation R := (M (rstate F W)).

Definition set_fds (f : gmap Z F -> gmap Z F) (r : rstate F W) : rstate F W :=
  mk_r (f (r_fds r)) (r_world r) (r_list r) (r_pf r) (r_preverrout r) (r_Cflag r) (r_exitstatus r) (r_stdio r).
Definition set_world (w : W) (r : rstate F W) : rstate F W :=
  mk_r (r_fds r) w (r_list r) (r_pf r) (r_preverrout r) (r_Cflag r) (r_exitstatus r) (r_stdio r).
Definition set_list (l : list redirtab) (r : rstate F W) : rstate F W :=
  mk_r (r_fds r) (r_world r) l (r_pf r) (r_preverrout r) (r_Cflag r) (r_exitstatus r) (r_stdio r).
Definition set_pf (l : list Z) (r : rstate F W) : rstate F W :=
  mk_r (r_fds r) (r_world r) (r_list r) l (r_preverrout r) (r_Cflag r) (r_exitstatus r) (r_stdio r).
Definition set_preverrout (fd : Z) (r : rstate F W) : rstate F W :=
  mk_r (r_fds r) (r_world r) (r_list r) (r_pf r) fd (r_Cflag r) (r_exitstatus r) (r_stdio r).
Definition set_status (st : Z) (r : rstate F W) : rstate F W :=
  mk_r (r_fds r) (r_world r) (r_list r) (r_pf r) (r_preverrout r) (r_Cflag r) st (r_stdio r).
Definition add_stdio (fd : Z) (r : rstate F W) : rstate F W :=
  mk_r (r_fds r) (r_world r) (r_list r) (r_pf r) (r_preverrout r) (r_Cflag r) (r_exitstatus r) (fd :: r_stdio r).

Definition ash_msg_and_raise_error {A} (msg : cstr) : R A :=
  modify (set_status 2) ;; raise (EXERROR msg).

(** ** System calls *)

Definition close (fd : Z) : R unit := modify (set_fds (delete fd)).

Definition dup2 (from to : Z) : R Z :=
  let! t := get r_fds in
  match t !! from with
  | Some f => modify (set_fds <[to := f]>) ;; ret to
  | None => ret (-1)
  end.

(** [fcntl(fd, F_DUPFD_CLOEXEC, min)] *)
Definition dupfd (fd min : Z) : R Z :=
  let! t := get r_fds in
  match t !! fd with
  | Some f => let n := free_fd t min in modify (set_fds <[n := f]>) ;; ret n
  | None => ret (-1)
  end.

(** A descriptor, or [errno]. *)
Definition open (fname : cstr) (flags : open_flags) : R (Z + Z) :=
  let! w := get r_world in
  let '(w, r) := h_open w fname flags in
  modify (set_world w) ;;
  match r with
  | inl f => let! t := get r_fds in
             let n := free_fd t 0 in modify (set_fds <[n := f]>) ;; ret (inl n)
  | inr e => ret (inr e)
  end.

Definition xfunc_die {A} : R A := raise DIED.

(** ** Opening *)

Definition ecreate {A} (fname : cstr) : R A := ash_msg_and_raise_error (lit "can't create " ++ fname).
Definition eopen {A} (fname : cstr) : R A := ash_msg_and_raise_error (lit "can't open " ++ fname).

Definition open_or (err : R Z) (fname : cstr) (flags : open_flags) : R Z :=
  let! r := open fname flags in match r with inl f => ret f | inr _ => err end.

(** The layer's [pipe] fails always, so the rest of [openhere] is never run. *)
Definition openhere : R Z :=
  if fst Procs.pipe <? 0 then ash_msg_and_raise_error (lit "can't create pipe") else wild.

(** With noclobber on. *)
Definition open_noclobber (fname : cstr) : R Z :=
  let! w := get r_world in
  match h_stat w fname with
  | None => open_or (ecreate fname) fname O_WRONLY_CREAT_EXCL
  | Some false =>
      let! f := open_or (ecreate fname) fname O_WRONLY in
      let! w := get r_world in
      let! t := get r_fds in
      match t !! f ≫= h_fstat w with
      | Some true => close f ;; ecreate fname
      | _ => ret f
      end
  | Some true => ecreate fname
  end.

Definition openredirect (r : xredir) : R Z :=
  match r with
  | XHERE _ => openhere
  | XDUP _ _ => wild
  | XFILE type _ fname =>
      match type with
      | NFROM => open_or (eopen fname) fname O_RDONLY
      | NFROMTO => open_or (ecreate fname) fname O_RDWR_CREAT
      | NTO =>
          let! c := get r_Cflag in
          if c : bool then open_noclobber fname
          else open_or (ecreate fname) fname O_WRONLY_CREAT_TRUNC
      | NCLOBBER => open_or (ecreate fname) fname O_WRONLY_CREAT_TRUNC
      | NAPPEND => open_or (ecreate fname) fname O_WRONLY_CREAT_APPEND
      end
  end.

(** ** Moving descriptors *)

Definition dup_error {A} (fd : Z) : R A := ash_msg_and_raise_error (fmt_d fd).

Definition savefd (from : Z) : R Z :=
  let! newfd := dupfd from 10 in
  let err := if newfd <? 0 then dup_errno else 0 in
  if err =? EBADF then ret newfd
  else if negb (err =? 0) then dup_error from
  else close from ;; ret newfd.

Definition dup2_or_raise (from to : Z) : R Z :=
  let! newfd := (if from =? to then ret to else dup2 from to) in
  if newfd <? 0 then dup_error from else ret newfd.

(** Is the call that failed tried again?  The descriptor stays closed, so that
    it is tried again forever. *)
Definition retried : bool := (dup_errno =? EBUSY) || (dup_errno =? EINTR).

Definition dup_CLOEXEC (fd avoid_fd : Z) : R Z :=
  let! newfd := dupfd fd (avoid_fd + 1) in
  if (newfd <? 0) && retried then wild else ret newfd.

Definition xdup_CLOEXEC_and_close (fd avoid_fd : Z) : R Z :=
  let! newfd := dupfd fd (avoid_fd + 1) in
  if newfd <? 0 then
    (if retried then wild else if dup_errno =? EBADF then ret fd else dup_error newfd)
  else close fd ;; ret newfd.

(** *** The slots of the table at the head of [redirlist] *)

(** Where a loop over the slots stops. *)
Inductive found := AtMoved (i : nat) | AtOrig (i : nat) | AtEmpty (i : nat) | OffTable.

Fixpoint sq_scan (moved : bool) (fd : Z) (l : redirtab) (i : nat) : found :=
  match l with
  | [] => OffTable
  | s :: l =>
      if orig_fd s =? EMPTY then AtEmpty i
      else if moved && (fd =? moved_to s) then AtMoved i
      else if fd =? orig_fd s then AtOrig i
      else sq_scan moved fd l (S i)
  end.

Definition set_slot (i : nat) (s : squirrel) : R unit :=
  let! l := get r_list in
  match l with
  | tab :: l => modify (set_list (<[i := s]> tab :: l))
  | [] => wild
  end.

(** [sv]: the head of [redirlist] under REDIR_PUSH, if there is one. *)
Definition table (push : bool) (l : list redirtab) : option redirtab := if push then head l else None.

Definition add_squirrel_closed (push : bool) (fd : Z) : R unit :=
  let! l := get r_list in
  match table push l with
  | None => ret tt
  | Some tab =>
      match sq_scan false fd tab 0 with
      | AtEmpty i => set_slot i (mk_sq fd CLOSED)
      | AtOrig _ | AtMoved _ => ret tt
      | OffTable => wild
      end
  end.

(** The first input file read from [fd]. *)
Fixpoint pf_index (fd : Z) (l : list Z) (i : nat) : option nat :=
  match l with
  | [] => None
  | f :: l => if fd =? f then Some i else pf_index fd l (S i)
  end.

(** True if [fd] was closed on the way. *)
Definition save_fd_on_redirect (fd avoid_fd : Z) (push : bool) : R bool :=
  let avoid_fd := if avoid_fd <? 9 then 9 else avoid_fd in
  let! l := get r_list in
  match table push l with
  | None => ret false
  | Some tab =>
      let! pf := get r_pf in
      match (if fd =? 0 then None else pf_index fd pf 0) with
      | Some i =>
          let! n := xdup_CLOEXEC_and_close fd avoid_fd in
          modify (fun r => set_pf (<[i := n]> (r_pf r)) r) ;; ret true
      | None =>
          match sq_scan true fd tab 0 with
          | OffTable => wild
          | AtMoved i =>
              let! new_fd := dup_CLOEXEC fd avoid_fd in
              set_slot i (mk_sq (default 0 (orig_fd <$> tab !! i)) new_fd) ;;
              if new_fd <? 0 then xfunc_die else ret false
          | AtOrig _ => ret false
          | AtEmpty i =>
              let! new_fd := dup_CLOEXEC fd avoid_fd in
              if (new_fd <? 0) && negb (dup_errno =? EBADF) then xfunc_die
              else
                set_slot i (mk_sq fd new_fd) ;;
                modify (fun r => if fd =? r_preverrout r then set_preverrout new_fd r else r) ;;
                ret false
          end
      end
  end.

Fixpoint moved_here (fd : Z) (l : redirtab) : bool :=
  match l with
  | [] => false
  | s :: l => if orig_fd s =? EMPTY then false else (fd =? moved_to s) || moved_here fd l
  end.

Definition internally_opened_fd (fd : Z) (push : bool) : R bool :=
  let! r := get (fun r => r) in
  ret (negb (fd =? 0) && existsb (Z.eqb fd) (r_pf r) ||
       match table push (r_list r) with Some tab => moved_here fd tab | None => false end).

(** ** Redirecting *)

(** From the label [redirect_more] on: [newfd] becomes [fd]. *)
Definition redirect_fd (fd newfd close_fd : Z) (push : bool) : R unit :=
  let! closed := save_fd_on_redirect fd newfd push in
  if newfd =? -1 then (if closed : bool then ret tt else close fd)
  else
    let! own := internally_opened_fd newfd push in
    if own : bool then dup_error newfd
    else
      dup2_or_raise newfd fd ;;
      modify (fun r => if (fd =? 0) || (fd =? 1) then add_stdio fd r else r) ;;
      if 0 <=? close_fd then close close_fd else ret tt.

Definition redirect_one (push : bool) (r : xredir) : R unit :=
  match r with
  | XDUP fd newfd => if fd =? newfd then ret tt else redirect_fd fd newfd (-1) push
  | _ =>
      let! newfd := openredirect r in
      if redir_fd r =? newfd then add_squirrel_closed push newfd
      else redirect_fd (redir_fd r) newfd newfd push
  end.

Definition redirect (l : list xredir) (push : bool) : R unit := for_each (redirect_one push) l.

(** [setjmp] returned: 1 for an error of the shell's, other exceptions go on. *)
Definition redirectsafe (l : list xredir) (push : bool) : R Z := fun r =>
  match redirect l push r with
  | Ok r _ => Ok r 0
  | Raise r (EXERROR _) => Ok r 1
  | Raise r e => Raise r e
  | Wild => Wild
  end.

(** The list before, as its length. *)
Definition pushredir (l : list xredir) : R nat :=
  let! old := get r_list in
  match l with
  | [] => ret tt
  | _ => modify (set_list (repeat (mk_sq EMPTY EMPTY) (length l) :: old))
  end ;;
  ret (length old).

(** ** Undoing *)

Definition popslot (drop : bool) (s : squirrel) : R unit :=
  if moved_to s =? CLOSED then (if drop then ret tt else close (orig_fd s))
  else if moved_to s =? EMPTY then ret tt
  else
    (if drop then ret tt else dup2_or_raise (moved_to s) (orig_fd s) ;; ret tt) ;;
    close (moved_to s).

Definition popredir (drop : bool) : R unit :=
  let! l := get r_list in
  match l with
  | [] => ret tt
  | rp :: _ =>
      for_each (popslot drop) rp ;;
      let! l := get r_list in modify (set_list (tail l))
  end.

Fixpoint unwind_tables (n : nat) : R unit :=
  match n with
  | O => ret tt
  | S n => popredir false ;; unwind_tables n
  end.

(** [stop] is the number of tables below and at the one to stop at. *)
Definition unwindredir (stop : nat) : R unit :=
  let! l := get r_list in unwind_tables (length l - stop).

End Redir.
