(* ===== verification/AshRedirCorrect.v ===== *)
(** * shell/ash.c: what redirections do, and that they are undone

    The reference semantics changes a table of visible descriptors, one
    redirection after the other.  The shell's table also holds the descriptors it
    moved out of the way and those of its input files. *)

From Stdlib Require Import Ascii String ZArith Lia.
From stdpp Require Import base gmap list strings.
From S2P Require Import Prelude Clib WasiCompat AshInput AshBase AshRedir.

Local Open Scope Z_scope.
Local Open Scope ash_scope.

(** ** The reference *)

Section Ref.
Context {F W : Type} `{Host F W}.

Definition try_open (w : W) (fname : cstr) (flags : open_flags) : W * option F :=
  let '(w, r) := h_open w fname flags in (w, match r with inl f => Some f | inr _ => None end).

(** Opening the file of a redirection; [c]: noclobber. *)
Definition ref_open (c : bool) (w : W) (type : ftype) (fname : cstr) : W * option F :=
  match type with
  | NFROM => try_open w fname O_RDONLY
  | NFROMTO => try_open w fname O_RDWR_CREAT
  | NAPPEND => try_open w fname O_WRONLY_CREAT_APPEND
  | NCLOBBER => try_open w fname O_WRONLY_CREAT_TRUNC
  | NTO =>
      if c then
        match h_stat w fname with
        | None => try_open w fname O_WRONLY_CREAT_EXCL
        | Some true => (w, None)
        | Some false =>
            let '(w, o) := try_open w fname O_WRONLY in
            (w, match o with Some f => if h_fstat w f is Some true then None else Some f | None => None end)
        end
      else try_open w fname O_WRONLY_CREAT_TRUNC
  end.

(** One redirection; the last component says whether it succeeded. *)
Definition ref_one (c : bool) (t : gmap Z F) (w : W) (r : xredir) : gmap Z F * W * bool :=
  match r with
  | XFILE type fd fname =>
      match ref_open c w type fname with
      | (w, Some f) => (<[fd := f]> t, w, true)
      | (w, None) => (t, w, false)
      end
  | XDUP fd n =>
      if fd =? n then (t, w, true)
      else if n =? -1 then (delete fd t, w, true)
      else match t !! n with
           | Some f => (<[fd := f]> t, w, true)
           | None => (t, w, false)
           end
  | XHERE _ => (t, w, false)
  end.

(** Up to the first failure. *)
Fixpoint ref_list (c : bool) (t : gmap Z F) (w : W) (l : list xredir) : gmap Z F * W * bool :=
  match l with
  | [] => (t, w, true)
  | r :: l =>
      match ref_one c t w r with
      | (t, w, true) => ref_list c t w l
      | (t, w, false) => (t, w, false)
      end
  end.

(** ** The shell's view *)

(** Descriptors of the shell's own: input files and what it moved. *)
Definition hidden (pf moved : list Z) (fd : Z) : bool :=
  (0 <? fd) && existsb (Z.eqb fd) pf || (10 <=? fd) && existsb (Z.eqb fd) moved.

Definition visible (moved : list Z) (r : rstate F W) : gmap Z F :=
  filter (fun '(fd, _) => hidden (r_pf r) moved fd = false) (r_fds r).

Lemma lookup_visible moved r fd :
  visible moved r !! fd = if hidden (r_pf r) moved fd then None else r_fds r !! fd.
Proof.
  unfold visible. rewrite map_lookup_filter. destruct (r_fds r !! fd); simpl.
  - destruct (hidden _ _ _); [by rewrite option_guard_False|by rewrite option_guard_True].
  - by destruct (hidden _ _ _).
Qed.

(** The input files are read from open descriptors out of the way of scripts. *)
Definition pf_ok (r : rstate F W) : Prop :=
  Forall (fun fd => fd = -1 \/ fd = 0 \/ 10 <= fd /\ is_Some (r_fds r !! fd)) (r_pf r).

(** Redirections of the descriptors 0 to 9. *)
Definition target_ok (r : xredir) : Prop :=
  0 <= redir_fd r < 10 /\ match r with XDUP _ n => -1 <= n | _ => True end.

End Ref.

Section Correct.

Context {F W : Type} {HH : Host F W} {HL : HostLaws F W}.

Abbreviation R := (M (rstate F W)).

Definition empty_slot : squirrel := mk_sq EMPTY EMPTY.

(** A slot that remembers where [r0]'s descriptor is now, in [r]. *)
Definition slot_ok (r0 r : rstate F W) (s : squirrel) : Prop :=
  0 <= orig_fd s < 10 /\
  (moved_to s = CLOSED /\ r_fds r0 !! orig_fd s = None \/
   10 <= moved_to s /\ r_fds r0 !! moved_to s = None /\
   r_fds r !! moved_to s = r_fds r0 !! orig_fd s /\ is_Some (r_fds r0 !! orig_fd s)).

(** [r] is [r0] with redirections on top; [used] are the slots in use, [k] more
    are empty; [extra] is a file just opened. *)
Record redirected (extra : option Z) (r0 r : rstate F W) (used : list squirrel) (k : nat) : Prop := {
  rd_list : r_list r = (used ++ repeat empty_slot k) :: r_list r0;
  rd_slots : Forall (slot_ok r0 r) used;
  rd_orig : NoDup (map orig_fd used);
  rd_moved : NoDup (List.filter (Z.leb 10) (map moved_to used));
  rd_same fd : Some fd <> extra -> fd ∉ map orig_fd used -> fd < 10 \/ fd ∉ map moved_to used ->
    r_fds r !! fd = r_fds r0 !! fd;
  rd_pf : r_pf r = r_pf r0;
  rd_C : r_Cflag r = r_Cflag r0;
}.

(** What scripts see of [r]. *)
Definition agrees (r0 r : rstate F W) (t : gmap Z F) : Prop :=
  forall fd, t !! fd = if fd <? 10 then r_fds r !! fd else visible [] r0 !! fd.

Lemma slot_moved r0 r used s : Forall (slot_ok r0 r) used -> s ∈ used -> moved_to s = CLOSED \/ 10 <= moved_to s.
Proof. rewrite Forall_forall. intros Hs Hin. destruct (Hs s Hin) as (_ & [[? _]|[? _]]); auto. Qed.

Lemma moved_open r0 r used fd : Forall (slot_ok r0 r) used -> 10 <= fd -> fd ∈ map moved_to used ->
  r_fds r0 !! fd = None /\ is_Some (r_fds r !! fd).
Proof.
  rewrite Forall_forall. intros Hs Hfd (s & -> & Hin)%list_elem_of_fmap.
  destruct (Hs s Hin) as (_ & [[E _]|(_ & ? & E & ?)]); [unfold CLOSED in E; lia|]. by rewrite E.
Qed.

Lemma orig_small r0 r used fd : Forall (slot_ok r0 r) used -> fd ∈ map orig_fd used -> 0 <= fd < 10.
Proof. rewrite Forall_forall. intros Hs (s & -> & Hin)%list_elem_of_fmap. apply (Hs s Hin). Qed.

(** Where the loops over the slots stop. *)
Lemma sq_scan_run moved fd used k i r0 r : Forall (slot_ok r0 r) used -> 0 <= fd < 10 ->
  sq_scan moved fd (used ++ repeat empty_slot (S k)) i = AtEmpty (i + length used) /\ fd ∉ map orig_fd used \/
  (exists j, sq_scan moved fd (used ++ repeat empty_slot (S k)) i = AtOrig j) /\ fd ∈ map orig_fd used.
Proof.
  intros Hs Hfd. revert i. induction Hs as [|s used Hs1 Hs IH]; intros i.
  - left. split; [simpl; f_equal; lia|set_solver].
  - cbn [app sq_scan map length]. destruct Hs1 as (Ho & Hm).
    rewrite (proj2 (Z.eqb_neq (orig_fd s) EMPTY)) by (unfold EMPTY; lia).
    assert (moved && (fd =? moved_to s) = false) as ->.
    { destruct Hm as [[-> _]|[? _]]; apply andb_false_iff; right; apply Z.eqb_neq; unfold CLOSED; lia. }
    destruct (Z.eqb_spec fd (orig_fd s)) as [->|Hne]; [right; split; [by eexists|set_solver]|].
    destruct (IH (S i)) as [[-> Hn]|[Hj Hin]]; [left|right].
    + split; [f_equal; lia|]. by apply not_elem_of_cons.
    + split; [done|]. apply elem_of_cons; auto.
Qed.

Lemma moved_here_run fd used k r0 r : Forall (slot_ok r0 r) used ->
  moved_here fd (used ++ repeat empty_slot k) = true <-> fd ∈ map moved_to used.
Proof.
  intros Hs. induction Hs as [|s used (Ho & _) Hs IH]; simpl.
  - destruct k; simpl; set_solver.
  - rewrite (proj2 (Z.eqb_neq (orig_fd s) EMPTY)) by (unfold EMPTY; lia).
    rewrite orb_true_iff, Z.eqb_eq, IH, elem_of_cons. done.
Qed.

Lemma pf_index_none fd l i : fd ∉ l -> pf_index fd l i = None.
Proof.
  revert i. induction l as [|f l IH]; intros i Hn; simpl; [done|].
  apply not_elem_of_cons in Hn as [? ?]. rewrite (proj2 (Z.eqb_neq fd f)) by done. by apply IH.
Qed.

Lemma pf_small (r : rstate F W) fd : pf_ok r -> 0 < fd < 10 -> fd ∉ r_pf r.
Proof. unfold pf_ok. rewrite Forall_forall. intros Hpf Hfd Hin. destruct (Hpf fd Hin) as [?|[?|[? _]]]; lia. Qed.

Lemma set_slot_run i s tab l (r : rstate F W) : r_list r = tab :: l ->
  set_slot i s r = Ok (set_list (<[i := s]> tab :: l) r) tt.
Proof. unfold set_slot. intros E. by rewrite (bind_run _ _ _ r (tab :: l)) by (unfold get; by rewrite E). Qed.

Lemma fill_slot used k s : <[length used := s]> (used ++ repeat empty_slot (S k)) = (used ++ [s]) ++ repeat empty_slot k.
Proof. rewrite insert_app_r_alt, Nat.sub_diag by lia. simpl. by rewrite <- app_assoc. Qed.

(** Only the descriptors matter. *)
Lemma slot_ok_mono r0 r r' s : (forall fd, 10 <= fd -> is_Some (r_fds r !! fd) -> r_fds r' !! fd = r_fds r !! fd) ->
  slot_ok r0 r s -> slot_ok r0 r' s.
Proof.
  intros Hfds (Ho & [Hc|(Hm & H0 & E & Hsome)]); split; auto.
  right. split_and!; [done|done| |done]. rewrite Hfds; [done|done|]. by rewrite E.
Qed.

(** A file just opened is open, and not one that was moved. *)
Definition extra_ok (extra : option Z) (r : rstate F W) (used : list squirrel) : Prop :=
  forall n, extra = Some n -> 0 <= n /\ is_Some (r_fds r !! n) /\ n ∉ map moved_to used.

Lemma add_slot extra r0 r r' used k fd m :
  redirected extra r0 r used (S k) -> 0 <= fd < 10 -> extra <> Some fd -> fd ∉ map orig_fd used ->
  r_list r' = <[length used := mk_sq fd m]> (used ++ repeat empty_slot (S k)) :: r_list r0 ->
  r_pf r' = r_pf r -> r_Cflag r' = r_Cflag r ->
  (m = CLOSED /\ r_fds r !! fd = None /\ r_fds r' = r_fds r \/
   10 <= m /\ r_fds r !! m = None /\ extra <> Some m /\ exists f, r_fds r !! fd = Some f /\ r_fds r' = <[m := f]> (r_fds r)) ->
  redirected extra r0 r' (used ++ [mk_sq fd m]) k.
Proof.
  intros [Hl Hs Ho Hm Hsame Hpf HC] Hfd Hex Hnin Hl' Hpf' HC' Hcase.
  assert (Hsame_fd : r_fds r !! fd = r_fds r0 !! fd) by (apply Hsame; [done|done|left; lia]).
  assert (Hfresh : 10 <= m -> r_fds r !! m = None -> extra <> Some m ->
    m ∉ map orig_fd used /\ m ∉ map moved_to used /\ r_fds r0 !! m = None).
  { intros Hm10 Hnone Hexm.
    assert (m ∉ map orig_fd used) as Hno by (intros Hin; pose proof (orig_small r0 r used m Hs Hin); lia).
    assert (m ∉ map moved_to used) as Hnm.
    { intros Hin. destruct (moved_open r0 r used m Hs Hm10 Hin) as [_ [f E]]. congruence. }
    split_and!; [done|done|]. rewrite <- Hsame; [done|done|done|by right]. }
  split; simpl.
  - by rewrite Hl', fill_slot.
  - apply Forall_app; split.
    + eapply Forall_impl; [exact Hs|]. intros s. apply slot_ok_mono. intros x Hx Hsome.
      destruct Hcase as [(_ & _ & ->)|(Hm10 & Hnone & Hexm & f & _ & ->)]; [done|].
      rewrite lookup_insert_ne; [done|]. intros ->. rewrite Hnone in Hsome. by destruct Hsome.
    + constructor; [|done]. split; [done|]. simpl.
      destruct Hcase as [(-> & Hnone & _)|(Hm10 & Hnone & Hexm & f & Hf & ->)].
      * left. by rewrite <- Hsame_fd.
      * right. destruct (Hfresh Hm10 Hnone Hexm) as (_ & _ & H0).
        rewrite lookup_insert_eq, <- Hsame_fd, Hf. split_and!; eauto.
  - rewrite map_app. apply NoDup_app. split_and!; [done| |simpl; by apply NoDup_singleton].
    intros x Hx Hx'%list_elem_of_singleton. by subst x.
  - rewrite map_app, List.filter_app. apply NoDup_app. split_and!; [done| |].
    + intros x Hx%list_elem_of_In%filter_In. destruct Hx as [Hx _]. apply list_elem_of_In in Hx. simpl.
      destruct Hcase as [(-> & _)|(Hm10 & Hnone & Hexm & _)]; [apply not_elem_of_nil|].
      rewrite (proj2 (Z.leb_le 10 m)) by done. intros ->%list_elem_of_singleton.
      by destruct (Hfresh Hm10 Hnone Hexm) as (_ & ? & _).
    + simpl. destruct (10 <=? m); [apply NoDup_singleton|apply NoDup_nil_2].
  - intros x Hx. rewrite !map_app, !not_elem_of_app. intros [Hx1 Hx2] Hx3.
    assert (x < 10 \/ x ∉ map moved_to used) as Hx4 by (destruct Hx3 as [|[]]; auto).
    rewrite <- (Hsame x Hx Hx1 Hx4). destruct Hcase as [(_ & _ & ->)|(Hm10 & Hnone & Hexm & f & _ & ->)]; [done|].
    apply lookup_insert_ne. intros <-. destruct Hx3 as [|[_ Hx3]]; [lia|]. apply Hx3. simpl. by apply list_elem_of_singleton.
  - by rewrite Hpf'.
  - by rewrite HC'.
Qed.

Lemma dupfd_open fd min (r : rstate F W) f : r_fds r !! fd = Some f ->
  dupfd fd min r = Ok (set_fds <[free_fd (r_fds r) min := f]> r) (free_fd (r_fds r) min).
Proof. intros E. unfold dupfd. rewrite (bind_run _ _ _ r (r_fds r)) by done. by rewrite E. Qed.

Lemma dupfd_closed fd min (r : rstate F W) : r_fds r !! fd = None -> dupfd fd min r = Ok r (-1).
Proof. intros E. unfold dupfd. rewrite (bind_run _ _ _ r (r_fds r)) by done. by rewrite E. Qed.

Lemma preverr_run fd m (r : rstate F W) : exists r',
  modify (fun r => if fd =? r_preverrout r then set_preverrout m r else r) r = Ok r' tt /\
  r_fds r' = r_fds r /\ r_list r' = r_list r /\ r_pf r' = r_pf r /\ r_world r' = r_world r /\ r_Cflag r' = r_Cflag r.
Proof. eexists. split; [reflexivity|]. by destruct (fd =? _). Qed.

(** Where the page's answer for a closed descriptor is not EBADF: the process
    dies, or tries again forever. *)
Definition stuck {A} (res : res (rstate F W) A) : Prop :=
  dup_errno <> EBADF /\ ((exists r', res = Raise r' DIED) \/ res = Wild /\ retried = true).

Lemma stuck_bind {A B} (m : R A) (k : A -> R B) r : stuck (m r) -> stuck (bind m k r).
Proof.
  intros [Hne H]. split; [done|]. unfold bind. destruct H as [[r' ->]|[-> Hr]]; [left; by exists r'|by right].
Qed.

Lemma dup_CLOEXEC_open fd avoid (r : rstate F W) f : r_fds r !! fd = Some f -> -1 <= avoid ->
  dup_CLOEXEC fd avoid r = Ok (set_fds <[free_fd (r_fds r) (avoid + 1) := f]> r) (free_fd (r_fds r) (avoid + 1)).
Proof.
  intros E Ha. unfold dup_CLOEXEC. rewrite (bind_run _ _ _ _ _ (dupfd_open fd (avoid + 1) r f E)).
  destruct (free_fd_fresh (r_fds r) (avoid + 1)) as [Hm _]. by rewrite (proj2 (Z.ltb_ge _ 0)) by lia.
Qed.

Lemma dup_CLOEXEC_closed fd avoid (r : rstate F W) : r_fds r !! fd = None ->
  dup_CLOEXEC fd avoid r = if retried then Wild else Ok r (-1).
Proof. intros E. unfold dup_CLOEXEC. rewrite (bind_run _ _ _ _ _ (dupfd_closed fd (avoid + 1) r E)). cbn. by destruct retried. Qed.

(** Saving a descriptor: afterwards it is in a slot, and still what it was; or it
    was closed and the page's answer was taken for a fatal error. *)
Lemma save_fd_run extra r0 r used k fd avoid :
  pf_ok r0 -> 0 <= fd < 10 -> extra <> Some fd -> redirected extra r0 r used (S k) -> extra_ok extra r used ->
  (exists r' used' k', save_fd_on_redirect fd avoid true r = Ok r' false /\
    redirected extra r0 r' used' k' /\ (k <= k')%nat /\ extra_ok extra r' used' /\ r_world r' = r_world r /\
    (forall x, x ∈ map orig_fd used' <-> x ∈ fd :: map orig_fd used) /\
    (forall x, x < 10 \/ extra = Some x -> r_fds r' !! x = r_fds r !! x)) \/
  r_fds r0 !! fd = None /\ stuck (save_fd_on_redirect fd avoid true r).
Proof.
  intros Hpf Hfd Hex Hrd Hexok. destruct Hrd as [Hl Hs Ho Hm Hsame Hpf' HC].
  unfold save_fd_on_redirect.
  rewrite (bind_run (get r_list) _ r r (r_list r)) by done. rewrite Hl. cbn [table head].
  rewrite (bind_run _ _ _ r (r_pf r)) by done.
  assert ((if fd =? 0 then None else pf_index fd (r_pf r) 0) = None) as ->.
  { destruct (Z.eqb_spec fd 0); [done|]. apply pf_index_none. rewrite Hpf'. apply pf_small; [done|lia]. }
  set (av := if avoid <? 9 then 9 else avoid).
  assert (Hav : 9 <= av) by (subst av; destruct (Z.ltb_spec avoid 9); lia).
  destruct (sq_scan_run true fd used k 0 r0 r Hs Hfd) as [[-> Hnin]|[[j ->] Hin]].
  2: { left. exists r, used, (S k). split_and!; [done|by split|lia|done|done| |done].
       intros x. rewrite elem_of_cons. split; [auto|]. by intros [->|]. }
  cbn [Nat.add].
  assert (Horig : forall m x, x ∈ map orig_fd (used ++ [mk_sq fd m]) <-> x ∈ fd :: map orig_fd used).
  { intros m x. rewrite map_app, elem_of_app, elem_of_cons. simpl. rewrite list_elem_of_singleton. tauto. }
  destruct (r_fds r !! fd) as [f|] eqn:Ef.
  - set (m := free_fd (r_fds r) (av + 1)).
    destruct (free_fd_fresh (r_fds r) (av + 1)) as [Hm1 Hm2]. fold m in Hm1, Hm2.
    left. rewrite (bind_run _ _ _ _ _ (dup_CLOEXEC_open fd av r f Ef ltac:(lia))). fold m.
    rewrite (proj2 (Z.ltb_ge m 0)) by lia. cbn [andb].
    rewrite (bind_run _ _ _ _ _ (set_slot_run _ _ _ _ (set_fds <[m := f]> r) Hl)).
    destruct (preverr_run fd m (set_list (<[length used := mk_sq fd m]> (used ++ repeat empty_slot (S k)) :: r_list r0)
      (set_fds <[m := f]> r))) as (r' & E & E1 & E2 & E3 & E4 & E5).
    rewrite (bind_run _ _ _ _ _ E). simpl in E1, E3, E4, E5. clear E.
    assert (extra <> Some m) as Hexm.
    { intros E. destruct (Hexok m E) as (_ & [? ?] & _). congruence. }
    exists r', (used ++ [mk_sq fd m]), k. split_and!; [done| |done| |done|done|].
    + apply (add_slot extra r0 r _ used k fd m); [by split|done|done|done|done|done|done|].
      right. split_and!; [lia|done|done|]. by exists f.
    + intros n En. destruct (Hexok n En) as (Hn0 & Hsome & Hn). rewrite E1. split_and!; [done| |].
      * rewrite lookup_insert_ne; [done|]. intros ->. congruence.
      * rewrite map_app. apply not_elem_of_app. split; [done|]. simpl. intros ->%list_elem_of_singleton. by rewrite En in Hexm.
    + intros x Hx. rewrite E1. apply lookup_insert_ne. intros <-. destruct Hx; [lia|done].
  - assert (Hsame_fd : r_fds r0 !! fd = None) by (rewrite <- Hsame; [done|done|done|left; lia]).
    pose proof (dup_CLOEXEC_closed fd av r Ef) as Edup. destruct retried eqn:Eret.
    { right. split; [done|]. apply stuck_bind. rewrite Edup. split; [|by right].
      intros E. revert Eret. unfold retried. by rewrite E. }
    rewrite (bind_run _ _ _ _ _ Edup). cbn [Z.ltb Z.compare andb].
    destruct (Z.eqb_spec dup_errno EBADF) as [Eb|Eb]; cbn [negb].
    2: { right. split; [done|]. split; [done|]. left. by eexists. }
    left.
    rewrite (bind_run _ _ _ _ _ (set_slot_run _ _ _ _ _ Hl)).
    destruct (preverr_run fd CLOSED (set_list (<[length used := mk_sq fd CLOSED]> (used ++ repeat empty_slot (S k)) :: r_list r0) r))
      as (r' & E & E1 & E2 & E3 & E4 & E5).
    rewrite (bind_run _ _ _ _ _ E). simpl in E1, E3, E4, E5. clear E.
    exists r', (used ++ [mk_sq fd CLOSED]), k. split_and!; [done| |done| |done|done|].
    + apply (add_slot extra r0 r _ used k fd CLOSED); [by split|done|done|done|done|done|done|]. by left.
    + intros n En. destruct (Hexok n En) as (Hn0 & Hsome & Hn). rewrite E1. split_and!; [done|done|].
      rewrite map_app. apply not_elem_of_app. split; [done|]. simpl. by intros ->%list_elem_of_singleton.
    + intros x _. by rewrite E1.
Qed.

(** Descriptors that are the shell's own cannot be duplicated. *)
Lemma internally_run extra r0 r used k fd : 0 <= fd -> pf_ok r0 -> redirected extra r0 r used k ->
  internally_opened_fd fd true r = Ok r (hidden (r_pf r0) (map moved_to used) fd).
Proof.
  intros Hfd Hpf [Hl Hs _ _ _ Hpf' _]. unfold internally_opened_fd.
  rewrite (bind_run _ _ r r r) by done. rewrite Hl, Hpf'. cbn [table head]. unfold ret, hidden. f_equal. f_equal.
  - destruct (Z.eqb_spec fd 0) as [->|?]; [done|]. by rewrite (proj2 (Z.ltb_lt 0 fd)) by lia.
  - apply eq_bool_prop_intro. rewrite !Is_true_true, (moved_here_run fd used k r0 r Hs).
    rewrite andb_true_iff, existsb_exists. split.
    + intros Hin. split.
      * pose proof Hin as (s & -> & Hin')%list_elem_of_fmap.
        destruct (slot_moved r0 r used s Hs Hin') as [E|?]; [unfold CLOSED in E; lia|by apply Z.leb_le].
      * exists fd. split; [by apply list_elem_of_In|by rewrite Z.eqb_refl].
    + intros (_ & x & Hin%list_elem_of_In & E%Z.eqb_eq). by subst.
Qed.

(** A hidden descriptor shows no file to scripts, any other one its file. *)
Lemma agrees_source r0 r used k t fd : 0 <= fd -> pf_ok r0 -> redirected None r0 r used k -> agrees r0 r t ->
  t !! fd = if hidden (r_pf r0) (map moved_to used) fd then None else r_fds r !! fd.
Proof.
  intros Hfd Hpf [Hl Hs _ _ Hsame Hpf' _] Ht. rewrite Ht. unfold hidden.
  destruct (Z.ltb_spec fd 10) as [Hlt|Hge].
  - rewrite (proj2 (Z.leb_gt 10 fd)), orb_false_r by lia. cbn [andb].
    destruct (Z.ltb_spec 0 fd); cbn [andb]; [|done].
    destruct (existsb (Z.eqb fd) (r_pf r0)) eqn:E; [|done].
    apply existsb_exists in E as (x & Hin%list_elem_of_In & E%Z.eqb_eq). subst x.
    by apply pf_small in Hin.
  - rewrite lookup_visible. unfold hidden. simpl. rewrite andb_false_r, orb_false_r.
    rewrite (proj2 (Z.ltb_lt 0 fd)), (proj2 (Z.leb_le 10 fd)) by lia. cbn [andb].
    destruct (existsb (Z.eqb fd) (r_pf r0)); [done|]. cbn [orb].
    destruct (existsb (Z.eqb fd) (map moved_to used)) eqn:E.
    + apply existsb_exists in E as (x & Hin%list_elem_of_In & E%Z.eqb_eq). subst x.
      by destruct (moved_open r0 r used fd Hs Hge Hin).
    + rewrite Hsame; [done|done| |].
      * intros Hin. pose proof (orig_small r0 r used fd Hs Hin). lia.
      * right. intros Hin. assert (existsb (Z.eqb fd) (map moved_to used) = true); [|congruence].
        apply existsb_exists. exists fd. split; [by apply list_elem_of_In|by rewrite Z.eqb_refl].
Qed.

(** Writing to a saved descriptor, and closing the file just opened. *)
Lemma redirected_set extra r0 r r' used k fd :
  redirected extra r0 r used k -> fd ∈ map orig_fd used ->
  r_list r' = r_list r -> r_pf r' = r_pf r -> r_Cflag r' = r_Cflag r ->
  (forall x, x <> fd -> r_fds r' !! x = r_fds r !! x) ->
  redirected extra r0 r' used k.
Proof.
  intros [Hl Hs Ho Hm Hsame Hpf HC] Hin El Ep EC Hfds. split.
  - by rewrite El.
  - eapply Forall_impl; [exact Hs|]. intros s. apply slot_ok_mono. intros x Hx _. apply Hfds.
    pose proof (orig_small r0 r used fd Hs Hin). lia.
  - done.
  - done.
  - intros x H1 H2 H3. rewrite Hfds; [by apply Hsame|]. by intros ->.
  - by rewrite Ep.
  - by rewrite EC.
Qed.

Lemma redirected_open r0 r used k n f :
  redirected None r0 r used k -> r_fds r !! n = None -> 0 <= n ->
  redirected (Some n) r0 (set_fds <[n := f]> r) used k /\ extra_ok (Some n) (set_fds <[n := f]> r) used.
Proof.
  intros [Hl Hs Ho Hm Hsame Hpf HC] Hn Hn0. split.
  - split; try done.
    + eapply Forall_impl; [exact Hs|]. intros s. apply slot_ok_mono. intros x Hx Hsome. simpl.
      apply lookup_insert_ne. intros ->. rewrite Hn in Hsome. by destruct Hsome.
    + intros x Hx. simpl. rewrite lookup_insert_ne by congruence. by apply Hsame.
  - intros m [= <-]. simpl. rewrite lookup_insert_eq. split_and!; [done|done|]. intros Hin.
    destruct (decide (10 <= n)) as [Hge|Hlt].
    + destruct (moved_open r0 r used n Hs Hge Hin) as [_ Hsome]. rewrite Hn in Hsome. by destruct Hsome.
    + apply list_elem_of_fmap in Hin as (s & -> & Hin).
      destruct (slot_moved r0 r used s Hs Hin) as [E|?]; [unfold CLOSED in E|]; lia.
Qed.

Lemma redirected_close r0 r r' used k n :
  redirected (Some n) r0 r used k -> extra_ok (Some n) r used -> 
  (n ∉ map orig_fd used -> r_fds r0 !! n = None) ->
  r_list r' = r_list r -> r_pf r' = r_pf r -> r_Cflag r' = r_Cflag r -> r_fds r' = delete n (r_fds r) ->
  redirected None r0 r' used k.
Proof.
  intros [Hl Hs Ho Hm Hsame Hpf HC] Hex Hn El Ep EC Efds. destruct (Hex n eq_refl) as (_ & _ & Hnm). split.
  - by rewrite El.
  - apply Forall_forall. intros s Hin. rewrite Forall_forall in Hs.
    destruct (Hs s Hin) as (Hos & [Hc|(Hge & H1 & H2 & H3)]); split; auto. right. split_and!; [done|done| |done].
    rewrite Efds, lookup_delete_ne; [done|]. intros ->. apply Hnm. apply list_elem_of_fmap. by exists s.
  - done.
  - done.
  - intros x _ Hx1 Hx2. rewrite Efds. destruct (decide (x = n)) as [->|Hne].
    + rewrite lookup_delete_eq, Hn; done.
    + rewrite lookup_delete_ne by done. apply Hsame; [congruence|done|done].
  - by rewrite Ep.
  - by rewrite EC.
Qed.

Lemma stdio_run fd (r : rstate F W) : exists r',
  modify (fun r => if (fd =? 0) || (fd =? 1) then add_stdio fd r else r) r = Ok r' tt /\
  r_fds r' = r_fds r /\ r_list r' = r_list r /\ r_pf r' = r_pf r /\ r_world r' = r_world r /\ r_Cflag r' = r_Cflag r.
Proof. eexists. split; [reflexivity|]. by destruct ((fd =? 0) || (fd =? 1)). Qed.

Lemma dup2_or_raise_run from to (r : rstate F W) f : 0 <= to -> from <> to -> r_fds r !! from = Some f ->
  dup2_or_raise from to r = Ok (set_fds <[to := f]> r) to.
Proof.
  intros Hto Hne E. unfold dup2_or_raise, dup2. rewrite (proj2 (Z.eqb_neq from to)) by done.
  unfold bind, get, modify, ret. rewrite E. by rewrite (proj2 (Z.ltb_ge to 0)) by lia.
Qed.

Lemma dup2_or_raise_fail from to (r : rstate F W) : from <> to -> r_fds r !! from = None ->
  dup2_or_raise from to r = Raise (set_status 2 r) (EXERROR (fmt_d from)).
Proof.
  intros Hne E. unfold dup2_or_raise, dup2. rewrite (proj2 (Z.eqb_neq from to)) by done.
  unfold bind, get, modify, ret. by rewrite E.
Qed.

(** How a redirection may end: with the table [t] and the world [w], or (for
    [ok] false) with an error; either way what it moved is remembered. *)
Definition done_ok (r0 : rstate F W) (used : list squirrel) (k : nat) (fd : Z) (changed : bool)
  (res : res (rstate F W) unit) (t : gmap Z F) (w : W) (ok : bool) : Prop :=
  exists r' used' k', (k <= k')%nat /\
    (if ok then res = Ok r' tt else exists msg, res = Raise r' (EXERROR msg)) /\
    redirected None r0 r' used' k' /\ agrees r0 r' t /\ r_world r' = w /\
    map orig_fd used ⊆ map orig_fd used' /\ map orig_fd used' ⊆ fd :: map orig_fd used /\
    (ok && changed = true -> fd ∈ map orig_fd used').

(** Or it was to save a descriptor that was closed. *)
Definition ends (r0 : rstate F W) (used : list squirrel) (k : nat) (fd : Z) (changed : bool)
  (res : res (rstate F W) unit) (t : gmap Z F) (w : W) (ok : bool) : Prop :=
  done_ok r0 used k fd changed res t w ok \/ changed = true /\ r_fds r0 !! fd = None /\ stuck res.

Lemma agrees_fds r0 r r' t : (forall x, x < 10 -> r_fds r' !! x = r_fds r !! x) -> agrees r0 r t -> agrees r0 r' t.
Proof. intros E Ht x. rewrite Ht. destruct (Z.ltb_spec x 10); [by rewrite E|done]. Qed.

Lemma agrees_set r0 r r' t fd o : 0 <= fd < 10 -> agrees r0 r t ->
  (forall x, x < 10 -> r_fds r' !! x = if x =? fd then o else r_fds r !! x) ->
  agrees r0 r' (match o with Some f => <[fd := f]> t | None => delete fd t end).
Proof.
  intros Hfd Ht E x. specialize (Ht x). destruct (Z.eqb_spec x fd) as [->|Hne].
  - destruct (Z.ltb_spec fd 10); [|lia]. rewrite E, Z.eqb_refl by lia.
    destruct o; [apply lookup_insert_eq|apply lookup_delete_eq].
  - transitivity (t !! x).
    + destruct o; [by apply lookup_insert_ne|by apply lookup_delete_ne].
    + rewrite Ht. destruct (Z.ltb_spec x 10); [|done]. rewrite E by done.
      by rewrite (proj2 (Z.eqb_neq x fd)).
Qed.

(** "N>&-" and "N>&M" *)
Lemma redirect_dup r0 r used k fd n t :
  pf_ok r0 -> 0 <= fd < 10 -> -1 <= n -> fd <> n -> redirected None r0 r used (S k) -> agrees r0 r t ->
  let '(t', w', ok) := ref_one (r_Cflag r) t (r_world r) (XDUP fd n) in
  ends r0 used k fd true (redirect_fd fd n (-1) true r) t' w' ok.
Proof.
  intros Hpf Hfd Hn Hne Hrd Ht. cbn [ref_one]. rewrite (proj2 (Z.eqb_neq fd n)) by done.
  destruct (save_fd_run None r0 r used k fd n Hpf Hfd ltac:(done) Hrd ltac:(done))
    as [(r1 & used1 & k1 & E1 & Hrd1 & Hk & _ & Ew & Hor & Hfds1)|[Hcl Hst]].
  2: { destruct (if n =? -1 then _ else _) as [[? ?] ?]. right. split_and!; [done|done|]. by apply stuck_bind. }
  assert (Hin : fd ∈ map orig_fd used1) by (apply Hor; by left).
  assert (Hsub : map orig_fd used ⊆ map orig_fd used1) by (intros x Hx; apply Hor; by right).
  assert (Hsub' : map orig_fd used1 ⊆ fd :: map orig_fd used) by (intros x Hx; by apply Hor).
  assert (Ht1 : agrees r0 r1 t) by (eapply agrees_fds; [|exact Ht]; intros; apply Hfds1; by left).
  unfold redirect_fd. rewrite !(bind_run _ _ _ _ _ E1).
  destruct (Z.eqb_spec n (-1)) as [->|Hn1].
  - left. exists (set_fds (delete fd) r1), used1, k1. split_and!; try done.
    + apply (redirected_set None r0 r1 _ used1 k1 fd); try done. intros x Hx. simpl. by apply lookup_delete_ne.
    + apply (agrees_set r0 r1 _ t fd None Hfd Ht1). intros x Hx. simpl.
      destruct (Z.eqb_spec x fd) as [->|]; [apply lookup_delete_eq|by apply lookup_delete_ne].
  - rewrite (bind_run _ _ _ _ _ (internally_run None r0 r1 used1 k1 n ltac:(lia) Hpf Hrd1)).
    rewrite (agrees_source r0 r1 used1 k1 t n ltac:(lia) Hpf Hrd1 Ht1).
    assert (Herr : redirected None r0 (set_status 2 r1) used1 k1) by (by destruct Hrd1).
    destruct (hidden (r_pf r0) (map moved_to used1) n).
    { left. exists (set_status 2 r1), used1, k1. split_and!; try done; by eexists. }
    destruct (r_fds r1 !! n) as [f|] eqn:Ef.
    2: { rewrite (bind_raise _ _ _ _ _ (dup2_or_raise_fail n fd r1 ltac:(done) Ef)).
         left. exists (set_status 2 r1), used1, k1. split_and!; try done; by eexists. }
    rewrite (bind_run _ _ _ _ _ (dup2_or_raise_run n fd r1 f ltac:(lia) ltac:(done) Ef)).
    destruct (stdio_run fd (set_fds <[fd := f]> r1)) as (r2 & E2 & Ef2 & El2 & Ep2 & Ew2 & EC2).
    rewrite (bind_run _ _ _ _ _ E2). cbn [Z.leb Z.compare]. simpl in Ef2, El2, Ep2, Ew2, EC2.
    left. exists r2, used1, k1. split_and!; try done; [| |by rewrite Ew2].
    + apply (redirected_set None r0 r1 _ used1 k1 fd); try done. intros x Hx. rewrite Ef2. by apply lookup_insert_ne.
    + apply (agrees_set r0 r1 _ t fd (Some f) Hfd Ht1). intros x Hx. rewrite Ef2.
      destruct (Z.eqb_spec x fd) as [->|]; [apply lookup_insert_eq|by apply lookup_insert_ne].
Qed.

(** "N>FILE", the file being open as another descriptor. *)
Lemma redirect_new r0 r used k fd n f t :
  pf_ok r0 -> 0 <= fd < 10 -> 0 <= n -> fd <> n -> redirected None r0 r used (S k) -> agrees r0 r t ->
  r_fds r !! n = None ->
  ends r0 used k fd true (redirect_fd fd n n true (set_fds <[n := f]> r)) (<[fd := f]> t) (r_world r) true.
Proof.
  intros Hpf Hfd Hn Hne Hrd Ht Hfresh.
  destruct (redirected_open r0 r used (S k) n f Hrd Hfresh Hn) as [Hrd0 Hex0].
  destruct (save_fd_run (Some n) r0 _ used k fd n Hpf Hfd ltac:(congruence) Hrd0 Hex0)
    as [(r1 & used1 & k1 & E1 & Hrd1 & Hk & Hex1 & Ew & Hor & Hfds1)|[Hcl Hst]].
  2: { right. split_and!; [done|done|]. by apply stuck_bind. }
  unfold redirect_fd. rewrite !(bind_run _ _ _ _ _ E1). rewrite (proj2 (Z.eqb_neq n (-1))) by lia.
  rewrite (bind_run _ _ _ _ _ (internally_run (Some n) r0 r1 used1 k1 n ltac:(lia) Hpf Hrd1)).
  assert (hidden (r_pf r0) (map moved_to used1) n = false) as ->.
  { unfold hidden.
    apply orb_false_iff; split; apply andb_false_iff.
    - destruct (Z.ltb_spec 0 n); [right|by left].
      destruct (existsb (Z.eqb n) (r_pf r0)) eqn:E; [|done].
      apply existsb_exists in E as (x & Hin%list_elem_of_In & E%Z.eqb_eq). subst x.
      unfold pf_ok in Hpf. rewrite Forall_forall in Hpf. destruct (Hpf n Hin) as [?|[?|[Hge Hsome]]]; [lia|lia|].
      destruct Hrd as [_ Hs _ _ Hsame _ _]. exfalso.
      assert (n ∉ map orig_fd used) by (intros Hin'; pose proof (orig_small r0 r used n Hs Hin'); lia).
      assert (n ∉ map moved_to used).
      { intros Hin'. destruct (moved_open r0 r used n Hs Hge Hin') as [E _]. rewrite E in Hsome. by destruct Hsome. }
      rewrite <- Hsame, Hfresh in Hsome by (done || by right). by destruct Hsome.
    - right. destruct (existsb (Z.eqb n) (map moved_to used1)) eqn:E; [|done].
      apply existsb_exists in E as (x & Hin%list_elem_of_In & E%Z.eqb_eq). subst x.
      by destruct (Hex1 n eq_refl) as (_ & _ & ?). }
  assert (Ef : r_fds r1 !! n = Some f) by (rewrite Hfds1 by (by right); simpl; by rewrite lookup_insert_eq).
  rewrite (bind_run _ _ _ _ _ (dup2_or_raise_run n fd r1 f ltac:(lia) ltac:(done) Ef)).
  destruct (stdio_run fd (set_fds <[fd := f]> r1)) as (r2 & E2 & Ef2 & El2 & Ep2 & Ew2 & EC2).
  rewrite (bind_run _ _ _ _ _ E2). rewrite (proj2 (Z.leb_le 0 n)) by lia. simpl in Ef2, El2, Ep2, Ew2, EC2.
  assert (Hin : fd ∈ map orig_fd used1) by (apply Hor; by left).
  assert (Hrd2 : redirected (Some n) r0 r2 used1 k1).
  { apply (redirected_set (Some n) r0 r1 _ used1 k1 fd); try done. intros x Hx. rewrite Ef2. by apply lookup_insert_ne. }
  left. exists (set_fds (delete n) r2), used1, k1. split_and!; try done.
  - apply (redirected_close r0 r2 _ used1 k1 n); try done.
    + intros m [= <-]. destruct (Hex1 n eq_refl) as (_ & _ & Hnm). rewrite Ef2, lookup_insert_ne by done. by rewrite Ef.
    + intros Hnin. destruct Hrd as [_ Hs _ _ Hsame _ _]. rewrite <- Hsame; [done|done| |].
      * intros Hin'. apply Hnin, Hor. by right.
      * destruct (Z.lt_decidable n 10) as [?|Hge]; [by left|right]. intros Hin'.
        destruct (moved_open r0 r used n Hs ltac:(lia) Hin') as [_ [? ?]]. congruence.
  - apply (agrees_set r0 r _ t fd (Some f) Hfd Ht). intros x Hx. simpl. rewrite Ef2.
    destruct (Z.eqb_spec x fd) as [->|Hxf].
    + rewrite lookup_delete_ne by done. apply lookup_insert_eq.
    + destruct (decide (x = n)) as [->|Hxn]; [by rewrite lookup_delete_eq|].
      rewrite lookup_delete_ne, lookup_insert_ne, Hfds1 by (done || by left). simpl. by apply lookup_insert_ne.
  - simpl. by rewrite Ew2.
  - intros x Hx. apply Hor. by right.
  - intros x Hx. by apply Hor.
Qed.

(** A failed opening changes the world only. *)
Definition open_failed (r : rstate F W) (w : W) (res : res (rstate F W) Z) : Prop :=
  exists r' msg, res = Raise r' (EXERROR msg) /\ r_fds r' = r_fds r /\ r_list r' = r_list r /\
    r_pf r' = r_pf r /\ r_Cflag r' = r_Cflag r /\ r_world r' = w.

Definition opened (r : rstate F W) (w : W) (o : option F) (res : res (rstate F W) Z) : Prop :=
  match o with
  | Some f => res = Ok (set_fds <[free_fd (r_fds r) 0 := f]> (set_world w r)) (free_fd (r_fds r) 0)
  | None => open_failed r w res
  end.

Lemma open_or_run (err : cstr -> R Z) msg fname flags r :
  (forall r, err fname r = ash_msg_and_raise_error (msg ++ fname) r) ->
  let '(w, o) := try_open (r_world r) fname flags in opened r w o (open_or (err fname) fname flags r).
Proof.
  intros Herr. unfold try_open, open_or, open, bind, get, modify, ret.
  destruct (h_open (r_world r) fname flags) as [w [f|e]]; simpl; [done|].
  rewrite Herr. by eexists _, _.
Qed.

Lemma openredirect_run type fd fname r :
  let '(w, o) := ref_open (r_Cflag r) (r_world r) type fname in opened r w o (openredirect (XFILE type fd fname) r).
Proof.
  assert (Hc : forall flags, let '(w, o) := try_open (r_world r) fname flags in
    opened r w o (open_or (ecreate fname) fname flags r)) by (intros; by apply (open_or_run ecreate (lit "can't create "))).
  destruct type; cbn [ref_open openredirect]; try apply Hc.
  2: by apply (open_or_run eopen (lit "can't open ")).
  rewrite (bind_run _ _ r r (r_Cflag r)) by done. destruct (r_Cflag r); [|apply Hc].
  unfold open_noclobber. rewrite (bind_run _ _ r r (r_world r)) by done.
  destruct (h_stat (r_world r) fname) as [[]|]; [by eexists _, _|..|apply Hc].
  specialize (Hc O_WRONLY). destruct (try_open (r_world r) fname O_WRONLY) as [w [f|]]; cbn [opened] in Hc.
  - rewrite (bind_run _ _ _ _ _ Hc). set (n := free_fd (r_fds r) 0).
    unfold bind, get. simpl. rewrite lookup_insert_eq. simpl.
    destruct (h_fstat w f) as [[]|]; [|done..].
    eexists _, _. split; [reflexivity|]. split_and!; try done. simpl. apply delete_insert_id.
    apply free_fd_fresh.
  - destruct Hc as (r' & msg & E & Hr). exists r', msg. split; [by apply bind_raise|done].
Qed.

(** The file opened as the very descriptor. *)
Lemma redirect_exact r0 r used k fd f t :
  0 <= fd < 10 -> redirected None r0 r used (S k) -> agrees r0 r t -> r_fds r !! fd = None ->
  ends r0 used k fd true (add_squirrel_closed true fd (set_fds <[fd := f]> r)) (<[fd := f]> t) (r_world r) true.
Proof.
  intros Hfd Hrd Ht Hnone. pose proof Hrd as [Hl Hs _ _ _ _ _]. unfold add_squirrel_closed.
  rewrite (bind_run _ _ (set_fds <[fd := f]> r) (set_fds <[fd := f]> r) (r_list r)) by done.
  rewrite Hl. cbn [table head].
  assert (Ht' : forall r', r_fds r' = <[fd := f]> (r_fds r) -> agrees r0 r' (<[fd := f]> t)).
  { intros r' E. apply (agrees_set r0 r r' t fd (Some f) Hfd Ht). intros x Hx. rewrite E.
    destruct (Z.eqb_spec x fd) as [->|]; [apply lookup_insert_eq|by apply lookup_insert_ne]. }
  destruct (sq_scan_run false fd used k 0 r0 r Hs Hfd) as [[-> Hnin]|[[j ->] Hin]].
  - rewrite (set_slot_run _ _ _ _ (set_fds <[fd := f]> r) Hl).
    set (r1 := set_list (<[length used := mk_sq fd CLOSED]> (used ++ repeat empty_slot (S k)) :: r_list r0) r).
    assert (Hrd1 : redirected None r0 r1 (used ++ [mk_sq fd CLOSED]) k).
    { apply (add_slot None r0 r r1 used k fd CLOSED); try done. by left. }
    assert (Hin : fd ∈ map orig_fd (used ++ [mk_sq fd CLOSED])) by (rewrite map_app; set_solver).
    left. exists (set_fds <[fd := f]> r1), (used ++ [mk_sq fd CLOSED]), k. split_and!; try done.
    + apply (redirected_set None r0 r1 _ _ k fd); try done. intros x Hx. by apply lookup_insert_ne.
    + by apply Ht'.
    + rewrite map_app. set_solver.
    + rewrite map_app. set_solver.
  - left. exists (set_fds <[fd := f]> r), used, (S k). split_and!; try done; [lia| | |set_solver].
    + apply (redirected_set None r0 r _ _ _ fd); try done. intros x Hx. by apply lookup_insert_ne.
    + by apply Ht'.
Qed.

(** ** One redirection, and a list of them *)

Definition changes (x : xredir) : bool := match x with XDUP fd n => negb (fd =? n) | _ => true end.

Lemma redirect_one_run r0 r used k x t :
  pf_ok r0 -> target_ok x -> redirected None r0 r used (S k) -> agrees r0 r t ->
  let '(t', w', ok) := ref_one (r_Cflag r0) t (r_world r) x in
  ends r0 used k (redir_fd x) (changes x) (redirect_one true x r) t' w' ok.
Proof.
  intros Hpf [Hfd Hx] Hrd Ht. rewrite <- (rd_C _ _ _ _ _ Hrd).
  destruct x as [type fd fname|fd n|fd]; cbn [redir_fd] in *.
  - pose proof (openredirect_run type fd fname r) as Ho. cbn [ref_one redirect_one redir_fd changes].
    destruct (ref_open (r_Cflag r) (r_world r) type fname) as [w [f|]]; cbn [opened] in Ho.
    + rewrite (bind_run _ _ _ _ _ Ho). set (n := free_fd (r_fds r) 0).
      destruct (free_fd_fresh (r_fds r) 0) as [Hn0 Hfresh]. fold n in Hn0, Hfresh.
      assert (Hrdw : redirected None r0 (set_world w r) used (S k)) by (by destruct Hrd).
      destruct (Z.eqb_spec fd n) as [->|Hne].
      * by apply (redirect_exact r0 (set_world w r) used k n f t).
      * by apply (redirect_new r0 (set_world w r) used k fd n f t).
    + destruct Ho as (r' & msg & E & Ef & El & Ep & EC & Ew).
      left. exists r', used, (S k). split_and!; [lia|exists msg; by apply bind_raise| | |done|done|set_solver|done].
      * destruct Hrd as [? Hs ? ? Hsame ? ?]. split; try congruence.
        -- eapply Forall_impl; [exact Hs|]. intros s. apply slot_ok_mono. intros. by rewrite Ef.
        -- intros. rewrite Ef. by apply Hsame.
      * eapply agrees_fds; [|exact Ht]. intros. by rewrite Ef.
  - cbn [redirect_one changes]. destruct (Z.eqb_spec fd n) as [->|Hne].
    + cbn [ref_one]. rewrite Z.eqb_refl. left. exists r, used, (S k). split_and!; try done; [lia|set_solver].
    + by apply redirect_dup.
  - left. exists (set_status 2 r), used, (S k). split_and!; try done; [lia|by eexists|by destruct Hrd|set_solver].
Qed.

(** Some redirection changes a descriptor that is closed in [r0]. *)
Definition changes_closed (r0 : rstate F W) (l : list xredir) : Prop :=
  Exists (fun x => changes x = true /\ r_fds r0 !! redir_fd x = None) l.

Lemma redirect_list_run r0 l r used k t :
  pf_ok r0 -> Forall target_ok l -> redirected None r0 r used k -> (length l <= k)%nat -> agrees r0 r t ->
  let '(t', w', ok) := ref_list (r_Cflag r0) t (r_world r) l in
  (exists r' used' k', (if ok then redirect l true r = Ok r' tt else exists msg, redirect l true r = Raise r' (EXERROR msg)) /\
    redirected None r0 r' used' k' /\ agrees r0 r' t' /\ r_world r' = w' /\
    map orig_fd used ⊆ map orig_fd used' /\ map orig_fd used' ⊆ map redir_fd l ++ map orig_fd used /\
    (ok = true -> Forall (fun x => changes x = true -> redir_fd x ∈ map orig_fd used') l)) \/
  changes_closed r0 l /\ stuck (redirect l true r).
Proof.
  intros Hpf Hl. revert r used k t. induction Hl as [|x l Hx Hl IH]; intros r used k t Hrd Hk Ht; cbn [ref_list].
  - left. exists r, used, k. by split_and!.
  - destruct k as [|k]; [simpl in Hk; lia|].
    pose proof (redirect_one_run r0 r used k x t Hpf Hx Hrd Ht) as H1.
    unfold redirect. cbn [for_each]. destruct (ref_one (r_Cflag r0) t (r_world r) x) as [[t1 w1] [|]].
    + destruct H1 as [(r1 & used1 & k1 & Hk1 & E1 & Hrd1 & Ht1 & <- & Hs1 & Hs1' & Hin1)|(Hch & Hcl & Hst)].
      2: { destruct (ref_list _ _ _ _) as [[? ?] ?]. right. split; [by left|by apply stuck_bind]. }
      specialize (IH r1 used1 k1 t1 Hrd1 ltac:(simpl in Hk; lia) Ht1).
      destruct (ref_list (r_Cflag r0) t1 (r_world r1) l) as [[t2 w2] ok].
      destruct IH as [(r2 & used2 & k2 & E2 & Hrd2 & Ht2 & Hw2 & Hs2 & Hs2' & Hin2)|[Hcl Hst]].
      2: { right. split; [by right|]. by rewrite (bind_run _ _ _ _ _ E1). }
      left. exists r2, used2, k2. rewrite (bind_run _ _ _ _ _ E1). split_and!; try done; simpl.
      * by transitivity (map orig_fd used1).
      * intros y Hy%Hs2'. apply elem_of_app in Hy as [Hy|Hy%Hs1']; [right; apply elem_of_app; by left|].
        apply elem_of_cons in Hy as [->|Hy]; [by left|right; apply elem_of_app; by right].
      * intros Hok. constructor; [|by apply Hin2]. intros Hc. apply Hs2, Hin1. done.
    + destruct H1 as [(r1 & used1 & k1 & Hk1 & [msg E1] & Hrd1 & Ht1 & Hw1 & Hs1 & Hs1' & _)|(Hch & Hcl & Hst)].
      2: { right. split; [by left|by apply stuck_bind]. }
      left. exists r1, used1, k1. split_and!; try done; [exists msg; by apply bind_raise|]. simpl.
      intros y Hy%Hs1'. apply elem_of_cons in Hy as [->|Hy]; [by left|right; apply elem_of_app; by right].
Qed.

(** The start: a table of empty slots for as many redirections. *)
Lemma pushredir_run l (r : rstate F W) : l <> [] ->
  pushredir l r = Ok (set_list (repeat empty_slot (length l) :: r_list r) r) (length (r_list r)).
Proof. by destruct l. Qed.

Lemma redirected_start (r : rstate F W) k : pf_ok r ->
  redirected None r (set_list (repeat empty_slot k :: r_list r) r) [] k /\
  agrees r (set_list (repeat empty_slot k :: r_list r) r) (visible [] r).
Proof.
  intros Hpf. split; [split; try done; constructor|]. intros fd. destruct (Z.ltb_spec fd 10); [|done].
  rewrite lookup_visible. unfold hidden. simpl. rewrite andb_false_r, orb_false_r.
  destruct (Z.ltb_spec 0 fd); [|done]. cbn [andb]. destruct (existsb (Z.eqb fd) (r_pf r)) eqn:E; [|done].
  apply existsb_exists in E as (x & Hin%list_elem_of_In & E%Z.eqb_eq). subst x.
  by apply pf_small in Hin.
Qed.

(** ** Undoing *)

Lemma popslot_run r0 r s : slot_ok r0 r s ->
  exists r1, popslot false s r = Ok r1 tt /\ r_list r1 = r_list r /\ r_pf r1 = r_pf r /\
    r_Cflag r1 = r_Cflag r /\ r_world r1 = r_world r /\ (forall fd, r_fds r1 !! fd =
      if fd =? orig_fd s then r_fds r0 !! fd else if (10 <=? fd) && (fd =? moved_to s) then None else r_fds r !! fd).
Proof.
  intros (Hfd & [[Em H0]|(Hm & Hm0 & E & [f Hf])]); unfold popslot.
  - rewrite Em, (Z.eqb_refl CLOSED). eexists. split; [reflexivity|]. split_and!; try done. intros fd. simpl.
    destruct (Z.eqb_spec fd (orig_fd s)) as [->|Hne]; [by rewrite lookup_delete_eq|].
    rewrite lookup_delete_ne by done. destruct (Z.leb_spec 10 fd); [|done].
    by rewrite (proj2 (Z.eqb_neq fd CLOSED)) by (unfold CLOSED; lia).
  - rewrite (proj2 (Z.eqb_neq _ CLOSED)), (proj2 (Z.eqb_neq _ EMPTY)) by (unfold CLOSED, EMPTY; lia).
    rewrite (bind_run _ _ r (set_fds <[orig_fd s := f]> r) tt).
    2: { unfold bind. rewrite (dup2_or_raise_run _ _ r f) by (congruence || lia). done. }
    eexists. split; [reflexivity|]. split_and!; try done. intros fd. simpl.
    destruct (Z.eqb_spec fd (orig_fd s)) as [->|Hne].
    + rewrite lookup_delete_ne by lia. by rewrite lookup_insert_eq.
    + destruct (Z.eqb_spec fd (moved_to s)) as [->|Hne'].
      * by rewrite lookup_delete_eq, (proj2 (Z.leb_le _ _)) by done.
      * rewrite andb_false_r, lookup_delete_ne by done. by rewrite lookup_insert_ne.
Qed.

Lemma popslots_run r0 used k : forall r,
  Forall (slot_ok r0 r) used -> NoDup (map orig_fd used) -> NoDup (List.filter (Z.leb 10) (map moved_to used)) ->
  exists r', for_each (popslot false) (used ++ repeat empty_slot k) r = Ok r' tt /\
    r_list r' = r_list r /\ r_pf r' = r_pf r /\ r_Cflag r' = r_Cflag r /\ r_world r' = r_world r /\
    (forall fd, r_fds r' !! fd =
      if bool_decide (fd ∈ map orig_fd used) then r_fds r0 !! fd
      else if bool_decide (10 <= fd /\ fd ∈ map moved_to used) then None else r_fds r !! fd).
Proof.
  induction used as [|s used IH]; intros r Hs Ho Hm.
  - exists r. split_and!; try done.
    + induction k as [|k IHk]; [done|]. cbn [app repeat for_each]. unfold popslot at 1. simpl. apply IHk.
    + intros fd. rewrite !bool_decide_eq_false_2; [done|..]; simpl; [intros [_ Hin]|intros Hin]; by apply not_elem_of_nil in Hin.
  - apply Forall_cons_1 in Hs as [Hs1 Hs]. cbn [map] in Ho. apply NoDup_cons in Ho as [Hnin Ho].
    destruct (popslot_run r0 r s Hs1) as (r1 & E1 & El & Ep & EC & Ew & Ef).
    assert (Hm' : NoDup (List.filter (Z.leb 10) (map moved_to used)) /\ (10 <= moved_to s -> moved_to s ∉ map moved_to used)).
    { cbn [map List.filter] in Hm. destruct (Z.leb_spec 10 (moved_to s)); [|split; [done|lia]].
      apply NoDup_cons in Hm as [Hm1 Hm2]. split; [done|]. intros _ Hin. apply Hm1, list_elem_of_In, filter_In.
      split; [by apply list_elem_of_In|by apply Z.leb_le]. }
    destruct (IH r1) as (r2 & E2 & El2 & Ep2 & EC2 & Ew2 & Ef2); [|done|apply Hm'|].
    { rewrite Forall_forall in Hs |- *. intros s' Hin.
      destruct (Hs s' Hin) as (Hfd & [Hc|(H1 & H2 & H3 & H4)]); split; auto. right. split_and!; [done|done| |done].
      rewrite Ef, (proj2 (Z.eqb_neq _ _)) by (destruct Hs1; lia).
      rewrite (proj2 (Z.eqb_neq (moved_to s') (moved_to s))), andb_false_r; [done|].
      intros E. apply (proj2 Hm'); [lia|]. rewrite <- E. apply list_elem_of_fmap. by exists s'. }
    exists r2. split; [cbn [app for_each]; by rewrite (bind_run _ _ _ _ _ E1)|].
    split_and!; try congruence. intros fd. rewrite Ef2, Ef. cbn [map]. destruct Hs1 as [Hfd _].
    destruct (Z.eqb_spec fd (orig_fd s)) as [->|Hne].
    + rewrite (bool_decide_eq_true_2 (orig_fd s ∈ orig_fd s :: _)) by (by left).
      rewrite !bool_decide_eq_false_2; [done|by intros [? _]; lia|done].
    + rewrite (bool_decide_ext (fd ∈ orig_fd s :: _) (fd ∈ map orig_fd used)) by (rewrite elem_of_cons; tauto).
      case_bool_decide; [done|]. destruct (Z.leb_spec 10 fd); cbn [andb].
      2: { rewrite !bool_decide_eq_false_2; [done|by intros [? _]; lia|by intros [? _]; lia]. }
      destruct (Z.eqb_spec fd (moved_to s)) as [->|Hne'].
      * rewrite (bool_decide_eq_true_2 (_ /\ moved_to s ∈ moved_to s :: _)) by (split; [done|by left]). by case_bool_decide.
      * by rewrite (bool_decide_ext (_ /\ fd ∈ moved_to s :: _) (10 <= fd /\ fd ∈ map moved_to used)) by (rewrite elem_of_cons; tauto).
Qed.

(** [popredir] gives back what the slots remember, whatever became of the
    descriptors 0 to 9 in between. *)
Lemma popredir_run r0 r1 used k (r : rstate F W) : redirected None r0 r1 used k -> r_list r = r_list r1 ->
  (forall fd, 10 <= fd -> r_fds r !! fd = r_fds r1 !! fd) ->
  exists r', popredir false r = Ok r' tt /\ r_list r' = r_list r0 /\ r_pf r' = r_pf r /\ r_world r' = r_world r /\
    (forall fd, r_fds r' !! fd = if bool_decide (10 <= fd \/ fd ∈ map orig_fd used) then r_fds r0 !! fd else r_fds r !! fd).
Proof.
  intros [Hl Hs Ho Hm Hsame _ _] El Efds. unfold popredir. rewrite (bind_run _ _ r r (r_list r)) by done. rewrite El, Hl.
  assert (Hs' : Forall (slot_ok r0 r) used).
  { eapply Forall_impl; [exact Hs|]. intros s. apply slot_ok_mono. intros x Hx _. by apply Efds. }
  destruct (popslots_run r0 used k r Hs' Ho Hm) as (r' & E & El' & Ep & EC & Ew & Ef).
  rewrite (bind_run _ _ _ _ _ E). eexists. split; [reflexivity|]. simpl. rewrite El', El, Hl. split_and!; try done.
  intros fd. rewrite Ef. case_bool_decide as H1; [by rewrite bool_decide_eq_true_2 by (by right)|].
  destruct (decide (10 <= fd)) as [Hge|Hlt].
  - rewrite (bool_decide_eq_true_2 (10 <= fd \/ _)) by (by left). case_bool_decide as H2.
    + symmetry. by apply (moved_open r0 r used fd Hs'), H2.
    + rewrite Efds by done. apply Hsame; [done|done|]. right. tauto.
  - rewrite !bool_decide_eq_false_2; [done| |]; tauto.
Qed.

(** Redirecting on a fresh table, as [evaltree] and [evalcommand] do. *)
Lemma push_redirect_run l (r : rstate F W) : pf_ok r -> Forall target_ok l -> l <> [] ->
  let '(t, w, ok) := ref_list (r_Cflag r) (visible [] r) (r_world r) l in
  (exists r1 used k, (pushredir l ;; redirectsafe l true) r = Ok r1 (if ok then 0 else 1) /\
    redirected None r r1 used k /\ agrees r r1 t /\ r_world r1 = w /\ map orig_fd used ⊆ map redir_fd l /\
    (ok = true -> Forall (fun x => changes x = true -> redir_fd x ∈ map orig_fd used) l)) \/
  changes_closed r l /\ stuck ((pushredir l ;; redirectsafe l true) r).
Proof.
  intros Hpf Hl Hne. destruct (redirected_start r (length l) Hpf) as [Hrd Ht].
  pose proof (redirect_list_run r l _ [] (length l) _ Hpf Hl Hrd ltac:(lia) Ht) as Hrun. simpl in Hrun.
  rewrite (bind_run _ _ _ _ _ (pushredir_run l r Hne)).
  destruct (ref_list (r_Cflag r) (visible [] r) (r_world r) l) as [[t w] ok].
  destruct Hrun as [(r1 & used & k & E & Hrd1 & Ht1 & Hw & _ & Hs & Hin)|[Hcl [Hne' Hst]]].
  - left. exists r1, used, k. split_and!; try done; [|by rewrite app_nil_r in Hs].
    unfold redirectsafe. destruct ok; [by rewrite E|]. destruct E as [msg E]. by rewrite E.
  - right. split; [done|]. split; [done|]. unfold redirectsafe.
    destruct Hst as [[r' E]|[E Hr]]; rewrite E; [left; by exists r'|by right].
Qed.

Lemma empty_slots_hide fd k : 10 <= fd -> existsb (Z.eqb fd) (map moved_to (repeat empty_slot k)) = false.
Proof.
  intros Hfd. induction k as [|k IH]; [done|]. simpl. by rewrite (proj2 (Z.eqb_neq fd EMPTY)) by (unfold EMPTY; lia).
Qed.

Lemma agrees_visible r r1 used k t : pf_ok r -> redirected None r r1 used k -> agrees r r1 t ->
  t = visible (map moved_to (default [] (head (r_list r1)))) r1.
Proof.
  intros Hpf Hrd Ht. apply map_eq. intros fd. rewrite lookup_visible, (rd_pf _ _ _ _ _ Hrd), (rd_list _ _ _ _ _ Hrd). simpl.
  destruct (Z.lt_decidable fd 0) as [Hneg|Hpos].
  - rewrite Ht. unfold hidden. rewrite (proj2 (Z.ltb_ge 0 fd)), (proj2 (Z.leb_gt 10 fd)), (proj2 (Z.ltb_lt fd 10)) by lia. done.
  - rewrite (agrees_source r r1 used k t fd ltac:(lia) Hpf Hrd Ht).
    assert (hidden (r_pf r) (map moved_to (used ++ repeat empty_slot k)) fd = hidden (r_pf r) (map moved_to used) fd) as ->; [|done].
    unfold hidden. f_equal. destruct (Z.leb_spec 10 fd); [|done]. cbn [andb].
    by rewrite map_app, existsb_app, empty_slots_hide, orb_false_r.
Qed.

(** ** The theorems *)

(** C8. Redirections of the descriptors 0 to 9, done on the shell's table with its
    saved copies and its input files in between, change the table scripts see as
    the reference does: one after the other, [N>&M] taking what M is at that
    moment, up to the first that fails (a file that cannot be opened, a source
    that is closed or the shell's own).  The host picks descriptors that are free
    ([HostLaws]).  No [errno] is assumed for the page's [dup] of a closed
    descriptor: unless it is EBADF, and if a redirected descriptor was closed, the
    process may also die at the call (or try it again forever, for EBUSY and
    EINTR). *)
Theorem redirect_refines l (r : rstate F W) : pf_ok r -> Forall target_ok l -> l <> [] ->
  (exists r1 st, (pushredir l ;; redirectsafe l true) r = Ok r1 st /\
    ref_list (r_Cflag r) (visible [] r) (r_world r) l =
      (visible (map moved_to (default [] (head (r_list r1)))) r1, r_world r1, st =? 0)) \/
  changes_closed r l /\ stuck ((pushredir l ;; redirectsafe l true) r).
Proof.
  intros Hpf Hl Hne. pose proof (push_redirect_run l r Hpf Hl Hne) as Hrun.
  destruct (ref_list (r_Cflag r) (visible [] r) (r_world r) l) as [[t w] ok].
  destruct Hrun as [(r1 & used & k & E & Hrd & Ht & <- & _)|Hst]; [left|by right].
  exists r1, (if ok then 0 else 1). split; [done|]. f_equal; [f_equal|by destruct ok]. by eapply agrees_visible.
Qed.

(** C9. Redirections are undone exactly, whether all of them succeeded or one failed
    half-way, and whatever a command did to the descriptors 0 to 9 in between:
    [popredir] gives back the redirected ones, leaves the others, closes every
    saved copy and drops the table.  If nothing happened in between, all
    descriptors are as before.  The host picks free descriptors; if a redirected
    descriptor was closed and the page's [dup] of it does not leave EBADF in
    [errno], the redirecting itself may end the process. *)
Theorem redirect_undone l (r : rstate F W) : pf_ok r -> Forall target_ok l -> l <> [] ->
  (exists r1 st targets, (pushredir l ;; redirectsafe l true) r = Ok r1 st /\
    targets ⊆ map redir_fd l /\
    (st = 0 -> Forall (fun x => changes x = true -> redir_fd x ∈ targets) l) /\
    forall r2 : rstate F W, r_list r2 = r_list r1 -> (forall fd, 10 <= fd -> r_fds r2 !! fd = r_fds r1 !! fd) ->
      exists r3, popredir false r2 = Ok r3 tt /\ r_list r3 = r_list r /\ r_pf r3 = r_pf r2 /\
        (forall fd, r_fds r3 !! fd =
          if bool_decide (10 <= fd \/ fd ∈ targets) then r_fds r !! fd else r_fds r2 !! fd) /\
        (r_fds r2 = r_fds r1 -> r_fds r3 = r_fds r)) \/
  changes_closed r l /\ stuck ((pushredir l ;; redirectsafe l true) r).
Proof.
  intros Hpf Hl Hne. pose proof (push_redirect_run l r Hpf Hl Hne) as Hrun.
  destruct (ref_list (r_Cflag r) (visible [] r) (r_world r) l) as [[t w] ok].
  destruct Hrun as [(r1 & used & k & E & Hrd & Ht & Hw & Hsub & Hch)|Hst]; [left|by right].
  exists r1, (if ok then 0 else 1), (map orig_fd used). split_and!; [done|done|by destruct ok; auto|].
  intros r2 El Efds. destruct (popredir_run r r1 used k r2 Hrd El Efds) as (r3 & E3 & El3 & Ep3 & _ & Ef3).
  exists r3. split_and!; try done. intros E12. apply map_eq. intros fd. rewrite Ef3.
  case_bool_decide as Hfd; [done|]. rewrite E12. apply (rd_same _ _ _ _ _ Hrd); [done|tauto|left; lia].
Qed.

End Correct.

(** ** An example host: regular files in a map, descriptors chosen as POSIX does *)

Definition example_open (w : gmap cstr unit) (p : cstr) (fl : open_flags) : gmap cstr unit * (cstr + Z) :=
  match fl with
  | O_RDONLY | O_WRONLY => (w, if w !! p then inl p else inr 44)
  | O_WRONLY_CREAT_EXCL => if w !! p then (w, inr 20) else (<[p := tt]> w, inl p)
  | _ => (<[p := tt]> w, inl p)
  end.

#[export] Instance example_host : Host cstr (gmap cstr unit) := {|
  free_fd := lowest_free;
  h_open := example_open;
  h_stat w p := (fun _ => true) <$> w !! p;
  h_fstat w f := Some true;
  dup_errno := EBADF;
|}.

#[export] Instance example_host_laws : HostLaws cstr (gmap cstr unit).
Proof. split. intros. apply lowest_free_fresh. Qed.

(** A terminal on 0, 1 and 2, a script read from 10; ">log 2>&1 1>&-". *)
Definition example_r : rstate cstr (gmap cstr unit) :=
  mk_r {[0 := lit "tty"; 1 := lit "tty"; 2 := lit "tty"; 10 := lit "script"]} ∅ [] [10; 0] 2 false 0 [].
Definition example_l : list xredir := [XFILE NTO 1 (lit "log"); XDUP 2 1; XDUP 1 (-1)].

Lemma example_pf_ok : pf_ok example_r.
Proof.
  unfold pf_ok. apply Forall_cons. split; [right; right; split; [lia|by eexists]|].
  apply Forall_cons. split; [right; by left|apply Forall_nil_2].
Qed.

Lemma example_targets_ok : Forall target_ok example_l.
Proof. repeat constructor; simpl; lia. Qed.

Lemma redirect_refines_witness : exists r1 st,
  (pushredir example_l ;; redirectsafe example_l true) example_r = Ok r1 st /\
  ref_list false (visible [] example_r) ∅ example_l =
    (visible (map moved_to (default [] (head (r_list r1)))) r1, r_world r1, st =? 0).
Proof.
  destruct (redirect_refines example_l example_r example_pf_ok example_targets_ok ltac:(discriminate)) as [H|[_ [Hne _]]];
    [exact H|by destruct Hne].
Defined.

Lemma redirect_undone_witness : exists r1 st targets,
  (pushredir example_l ;; redirectsafe example_l true) example_r = Ok r1 st /\
  targets ⊆ map redir_fd example_l /\
  (st = 0 -> Forall (fun x => changes x = true -> redir_fd x ∈ targets) example_l) /\
  forall r2 : rstate cstr (gmap cstr unit), r_list r2 = r_list r1 -> (forall fd, 10 <= fd -> r_fds r2 !! fd = r_fds r1 !! fd) ->
    exists r3, popredir false r2 = Ok r3 tt /\ r_list r3 = r_list example_r /\ r_pf r3 = r_pf r2 /\
      (forall fd, r_fds r3 !! fd =
        if bool_decide (10 <= fd \/ fd ∈ targets) then r_fds example_r !! fd else r_fds r2 !! fd) /\
      (r_fds r2 = r_fds r1 -> r_fds r3 = r_fds example_r).
Proof.
  destruct (redirect_undone example_l example_r example_pf_ok example_targets_ok ltac:(discriminate)) as [H|[_ [Hne _]]];
    [exact H|by destruct Hne].
Defined.

(** The saved copies 11 and 12 are out of sight; the log is on 2 only. *)
Lemma redirect_example : exists r1,
  (pushredir example_l ;; redirectsafe example_l true) example_r = Ok r1 0 /\
  map_to_list (r_fds r1) ≡ₚ [(0, lit "tty"); (2, lit "log"); (10, lit "script"); (11, lit "tty"); (12, lit "tty")].
Proof. eexists. split; [by vm_compute|]. by_eval. Qed.

(** Why the theorems stop at 9: a redirection of a descriptor that holds a saved
    copy, or that an input file is read from, moves that away but leaves no slot
    for the redirected descriptor itself, so it stays open. *)
Definition leak_r (pf : Z) : rstate cstr (gmap cstr unit) :=
  mk_r (<[pf := lit "script"]> {[0 := lit "tty"; 1 := lit "tty"; 2 := lit "tty"]}) ∅ [] [pf; 0] 2 false 0 [].

Example saved_descriptor_leaks : exists r1 r2,
  (pushredir [XFILE NTO 1 (lit "f"); XFILE NTO 11 (lit "g")] ;;
   redirectsafe [XFILE NTO 1 (lit "f"); XFILE NTO 11 (lit "g")] true) (leak_r 10) = Ok r1 0 /\
  popredir false r1 = Ok r2 tt /\ r_fds (leak_r 10) !! 11 = None /\ r_fds r2 !! 11 = Some (lit "g").
Proof. eexists _, _. split_and!; by vm_compute. Qed.

Example script_descriptor_leaks : exists r1 r2,
  (pushredir [XFILE NTO 10 (lit "g")] ;; redirectsafe [XFILE NTO 10 (lit "g")] true) (leak_r 10) = Ok r1 0 /\
  popredir false r1 = Ok r2 tt /\ visible [] (leak_r 10) !! 10 = None /\ visible [] r2 !! 10 = Some (lit "g").
Proof. eexists _, _. split_and!; by vm_compute. Qed.

(** A host that leaves errno alone when [dup] fails: the shell dies at the first
    redirection of a closed descriptor. *)
Definition stale_host : Host cstr (gmap cstr unit) := {|
  free_fd := lowest_free;
  h_open := example_open;
  h_stat w p := (fun _ => true) <$> w !! p;
  h_fstat w f := Some true;
  dup_errno := 44;
|}.

Example closed_descriptor_kills : exists r1,
  @redirectsafe _ _ stale_host [XFILE NTO 5 (lit "f")] true
    (set_list [[mk_sq EMPTY EMPTY]] example_r) = Raise r1 DIED.
Proof. eexists. by vm_compute. Qed.
