(* ===== verification/AshStack.v ===== *)
(** * shell/ash.c: the memory stack

    Parse trees, words and texts under construction live on a stack of blocks
    ([stalloc] and the rest of "Memory allocation").  [stackblock] is the free
    space at its top; a text is built there, moved to a larger block when it does
    not fit, and becomes an object by [grabstackstr].  Marks undo allocations.  A
    command substitution, run in the shell's own process, works on a stack of its
    own ([osd_evalbackcmd_inproc]).

    The heap is a map from block numbers to the contents of [space]; the 4 bytes of
    [prev] in front are not shown: [g_stack] lists the blocks from [g_stackp] on
    along [prev].  A block that malloc or realloc returns is new, with arbitrary
    contents where nothing was stored.  Reading or writing outside a block, or in a
    freed one, is [wild].  Pointers, lengths and sums have 32 bits. *)

From Stdlib Require Import Ascii String ZArith Lia.
From stdpp Require Import base gmap list strings.
From S2P Require Import Prelude Clib AshBase.

Local Open Scope Z_scope.
Local Open Scope ash_scope.

Definition SHELL_SIZE : Z := 7.
Definition SHELL_ALIGN (nbytes : Z) : Z := Z.land (wrapU 32 (nbytes + SHELL_SIZE)) (Z.lnot SHELL_SIZE).
Definition MINSIZE : Z := SHELL_ALIGN 504.

(** [sizeof(struct stack_block) - MINSIZE] *)
Definition HEADER : Z := 4.

(** A block and an offset into its [space]. *)
Abbreviation ptr := (nat * Z)%type.

Definition padd (p : ptr) (n : Z) : ptr := (p.1, p.2 + n).
Definition pdiff (p q : ptr) : Z := p.2 - q.2.

Record mstack := mk_ms {
  ms_mem : gmap nat cstr;
  ms_next : nat;            (* the next block malloc returns *)
  g_stack : list nat;
  g_stacknxt : ptr;
  sstrend : ptr;
  g_stacknleft : Z;
}.

(** [stackbase] *)
Definition stackbase : nat := 0.

Record stackmark := mk_mark { m_stackp : nat; m_stacknxt : ptr; m_stacknleft : Z }.

Section Stack.
(** Whether the libc has this much memory left, and what new memory holds. *)
Context (enough : mstack -> Z -> bool) (garbage : nat -> ascii).

Abbreviation S := (M mstack).

Definition new_space (id : nat) (n : Z) : cstr := replicate (Z.to_nat n) (garbage id).

Definition INIT_G_memstack : mstack :=
  mk_ms {[stackbase := replicate (Z.to_nat MINSIZE) NUL]} 1 [stackbase] (stackbase, 0) (stackbase, MINSIZE) MINSIZE.

Definition set_mem (m : gmap nat cstr) (s : mstack) : mstack :=
  mk_ms m (ms_next s) (g_stack s) (g_stacknxt s) (sstrend s) (g_stacknleft s).
Definition set_stack (l : list nat) (nxt strend : ptr) (left : Z) (s : mstack) : mstack :=
  mk_ms (ms_mem s) (ms_next s) l nxt strend left.
Definition set_nxt (nxt : ptr) (left : Z) (s : mstack) : mstack :=
  mk_ms (ms_mem s) (ms_next s) (g_stack s) nxt (sstrend s) left.

(** ** Memory *)

Definition in_block (b : cstr) (off : Z) (n : nat) : bool :=
  (0 <=? off) && (off + Z.of_nat n <=? Z.of_nat (length b)).

Definition load (p : ptr) (n : nat) : S cstr :=
  let! m := get ms_mem in
  let! b := deref (m !! p.1) in
  if in_block b p.2 n then ret (take n (drop (Z.to_nat p.2) b)) else wild.

Definition put_at (b : cstr) (off : nat) (t : cstr) : cstr := take off b ++ t ++ drop (off + length t) b.

Definition store (p : ptr) (t : cstr) : S unit :=
  let! m := get ms_mem in
  let! b := deref (m !! p.1) in
  if in_block b p.2 (length t) then modify (set_mem (<[p.1 := put_at b (Z.to_nat p.2) t]> m)) else wild.

Definition memcpy (dst src : ptr) (n : Z) : S unit := let! t := load src (Z.to_nat n) in store dst t.

(** [xmalloc], [xrealloc]: they end the process when there is no memory. *)
Definition ckmalloc (len : Z) : S nat :=
  let! s := get (fun s => s) in
  if enough s len then
    let id := ms_next s in
    modify (fun s => mk_ms (<[id := new_space id (len - HEADER)]> (ms_mem s)) (Datatypes.S id) (g_stack s) (g_stacknxt s)
                       (sstrend s) (g_stacknleft s)) ;;
    ret id
  else raise DIED.

Definition free (id : nat) : S unit := modify (fun s => set_mem (delete id (ms_mem s)) s).

Definition ckrealloc (id : nat) (len : Z) : S nat :=
  let! m := get ms_mem in
  let! b := deref (m !! id) in
  let! sp := ckmalloc len in
  let n := Z.to_nat (len - HEADER) in
  modify (fun s => set_mem (<[sp := take n (b ++ new_space sp (len - HEADER))]> (delete id (ms_mem s))) s) ;;
  ret sp.

Definition out_of_memory {A} : S A := raise (EXERROR (lit "out of memory")).

(** [g_stackp]; there always is a block. *)
Definition g_stackp : S nat := let! l := get g_stack in deref (head l).

(** ** The stack *)

Definition stackblock : S ptr := get g_stacknxt.
Definition stackblocksize : S Z := get g_stacknleft.

Definition stalloc (nbytes : Z) : S ptr :=
  let aligned := SHELL_ALIGN nbytes in
  let! nleft := get g_stacknleft in
  (if nleft <? aligned then
     let blocksize := if aligned <? MINSIZE then MINSIZE else aligned in
     let len := wrapU 32 (HEADER + blocksize) in
     if len <? blocksize then out_of_memory
     else
       let! sp := ckmalloc len in
       modify (fun s => set_stack (sp :: g_stack s) (sp, 0) (sp, blocksize) blocksize s)
   else ret tt) ;;
  let! p := get g_stacknxt in
  modify (fun s => set_nxt (padd (g_stacknxt s) aligned) (wrapU 32 (g_stacknleft s - aligned)) s) ;;
  ret p.

Definition stunalloc (p : ptr) : S unit :=
  modify (fun s => set_nxt p (wrapU 32 (g_stacknleft s + pdiff (g_stacknxt s) p)) s).

(** [memcpy(stalloc(len), p, len)], as in [sstrdup]. *)
Definition stdup (t : cstr) : S ptr :=
  let! p := stalloc (Z.of_nat (length t)) in
  store p t ;; ret p.

Definition sstrdup (s : cstr) : S ptr := stdup (s ++ [NUL]).

Definition pushstackmark (len : Z) : S stackmark :=
  let! sp := g_stackp in
  let! mark := get (fun s => mk_mark sp (g_stacknxt s) (g_stacknleft s)) in
  stalloc len ;; ret mark.

(** At the start of a block other than [stackbase]? *)
Definition at_block_start : S bool :=
  let! sp := g_stackp in
  get (fun s => bool_decide (g_stacknxt s = (sp, 0)) && negb (bool_decide (sp = stackbase))).

Definition setstackmark : S stackmark := let! b := at_block_start in pushstackmark (b2z b).

(** [while (g_stackp != mark->stackp)]; past the last block [prev] is NULL. *)
Fixpoint free_to (l : list nat) (sp : nat) (mem : gmap nat cstr) : option (list nat * gmap nat cstr) :=
  match l with
  | [] => None
  | b :: l' => if bool_decide (b = sp) then Some (l, mem) else free_to l' sp (delete b mem)
  end.

Definition popstackmark (mark : stackmark) : S unit :=
  let! s := get (fun s => s) in
  match free_to (g_stack s) (m_stackp mark) (ms_mem s) with
  | None => wild
  | Some (l, mem) =>
      modify (set_mem mem) ;;
      modify (set_stack l (m_stacknxt mark) (padd (m_stacknxt mark) (m_stacknleft mark)) (m_stacknleft mark))
  end.

Definition growstackblock (min : Z) : S unit :=
  let! nleft := get g_stacknleft in
  let newlen := wrapU 32 (nleft * 2) in
  if newlen <? nleft then out_of_memory
  else
    let min := SHELL_ALIGN (Z.lor min 128) in
    let newlen := if newlen <? min then wrapU 32 (newlen + min) else newlen in
    let! start := at_block_start in
    if start : bool then
      let! sp := g_stackp in
      let! sp := ckrealloc sp (wrapU 32 (newlen + HEADER)) in
      modify (fun s => set_stack (sp :: tail (g_stack s)) (sp, 0) (sp, newlen) newlen s)
    else
      let! oldspace := get g_stacknxt in
      let! p := stalloc newlen in
      memcpy p oldspace nleft ;;
      modify (fun s => set_nxt p (wrapU 32 (g_stacknleft s + newlen)) s).

(** ** Building a text *)

Definition growstackstr : S ptr :=
  let! len := stackblocksize in
  growstackblock 0 ;;
  let! p := stackblock in ret (padd p len).

Definition growstackto (len : Z) : S ptr :=
  let! n := stackblocksize in
  (if n <? len then growstackblock len else ret tt) ;; stackblock.

Definition makestrspace (newlen : Z) (p : ptr) : S ptr :=
  let! nxt := get g_stacknxt in
  let len := pdiff p nxt in
  let! q := growstackto (wrapU 32 (len + newlen)) in ret (padd q len).

Definition stnputs (s : cstr) (p : ptr) : S ptr :=
  let! p := makestrspace (Z.of_nat (length s)) p in
  store p s ;; ret (padd p (Z.of_nat (length s))).

Definition stack_putstr (s : cstr) (p : ptr) : S ptr := stnputs s p.

Definition room (p : ptr) : S ptr :=
  let! e := get sstrend in if bool_decide (p = e) then growstackstr else ret p.

Definition STPUTC (c : ascii) (p : ptr) : S ptr := let! p := room p in store p [c] ;; ret (padd p 1).
Definition STACKSTRNUL (p : ptr) : S ptr := let! p := room p in store p [NUL] ;; ret p.
Definition USTPUTC (c : ascii) (p : ptr) : S ptr := store p [c] ;; ret (padd p 1).

Definition CHECKSTRSPACE (n : Z) (p : ptr) : S ptr :=
  let! e := get sstrend in if pdiff e p <? n then makestrspace n p else ret p.

Definition grabstackstr (p : ptr) : S ptr := let! q := stackblock in stalloc (pdiff p q).

(** ** A stack for a command substitution *)

Record saved := mk_saved { sv_stack : list nat; sv_stacknxt : ptr; sv_strend : ptr; sv_stacknleft : Z }.

(** [osd_evalbackcmd_inproc] before and after the nested tree. *)
Definition enter_arena : S saved :=
  let! sv := get (fun s => mk_saved (g_stack s) (g_stacknxt s) (sstrend s) (g_stacknleft s)) in
  let! nb := ckmalloc (HEADER + MINSIZE) in
  modify (set_stack [nb] (nb, 0) (nb, MINSIZE) MINSIZE) ;;
  ret sv.

Definition leave_arena (sv : saved) : S unit :=
  modify (fun s => set_mem (foldl (fun m b => delete b m) (ms_mem s) (g_stack s)) s) ;;
  modify (set_stack (sv_stack sv) (sv_stacknxt sv) (sv_strend sv) (sv_stacknleft sv)).
End Stack.
