(* ===== verification/AshStackSpec.v ===== *)
(** * shell/ash.c: a client of the memory stack

    [client] holds objects, marks and command substitutions, and knows what each
    should contain; [step] runs AshStack's operations for it: it builds texts,
    makes objects of them, takes marks and goes back to them, and runs command
    substitutions on stacks of their own.  [legal] is the LIFO discipline that the
    comments of ash.c ask for.  Below: what it means for the memory to hold what
    the client thinks it does ([held], [inv]). *)

From Stdlib Require Import Ascii String ZArith Lia.
From stdpp Require Import base gmap list strings.
From S2P Require Import Prelude Clib AshBase AshStack.

Local Open Scope Z_scope.
Local Open Scope ash_scope.

(** ** The client *)

(** What it holds, newest first: objects and their contents, and marks and
    command substitutions with the text that was under construction. *)
Inductive item :=
  | IObj (q : ptr) (t : cstr)
  | IMark (mk : stackmark) (p : ptr) (t : cstr)
  | INest (mk : stackmark) (sv : saved) (p : ptr) (t : cstr).

Record client := mk_client { c_stack : mstack; c_p : ptr; c_text : cstr; c_items : list item }.

Inductive op :=
  | OStart               (* STARTSTACKSTR *)
  | OPut (c : ascii)     (* STPUTC *)
  | OPuts (u : cstr)     (* stack_putstr *)
  | OSure (u : cstr)     (* CHECKSTRSPACE, then USTPUTC for each *)
  | OTerm                (* STACKSTRNUL, keeping the NUL *)
  | OUnput (n : nat)     (* STADJUST(-n) *)
  | OGrab                (* grabstackstr *)
  | OAlloc (u : cstr)    (* sstrdup *)
  | OUngrab              (* ungrabstackstr of the last object *)
  | OMark                (* setstackmark *)
  | OReserve (n : Z)     (* pushstackmark, to go on with the text afterwards *)
  | OPop                 (* popstackmark *)
  | ONest                (* expbackq and osd_evalbackcmd_inproc before the tree *)
  | OReturn              (* and after it *)
  | ODrop.               (* the last object or mark is not needed any more *)

(** [CHECKSTRSPACE] once, then [USTPUTC] for each byte. *)
Fixpoint USTPUTS (u : cstr) (p : ptr) : M mstack ptr :=
  match u with [] => ret p | c :: u => let! p := USTPUTC c p in USTPUTS u p end.

(** LIFO use, and texts of less than 2 GB. *)
Definition legal (o : op) (c : client) : bool :=
  let len := Z.of_nat (length (c_text c)) in
  match o with
  | OPuts u | OSure u => len + Z.of_nat (length u) <? 2 ^ 31
  | OUnput n => (n <=? length (c_text c))%nat
  | OGrab => negb (bool_decide (c_text c = []))
  | OAlloc u => negb (bool_decide (u = [])) && (Z.of_nat (length u) <? 2 ^ 31)
  | OUngrab => match c_items c with IObj q _ :: _ => bool_decide (head (g_stack (c_stack c)) = Some q.1) | _ => false end
  | OReserve n => (0 <? n) && (len <=? n) && (n <=? g_stacknleft (c_stack c))
  | OPop => match c_items c with IMark _ _ _ :: _ => true | _ => false end
  | OReturn => match c_items c with INest _ _ _ _ :: _ => true | _ => false end
  | ODrop => match c_items c with IObj _ _ :: _ | IMark _ _ _ :: _ => true | _ => false end
  | OStart | OPut _ | OTerm | OMark | ONest => true
  end.

(** An exception leaves no text under construction; what is held stays. *)
Definition on {A} (c : client) (m : M mstack A) (k : A -> mstack -> client) : res client unit :=
  match m (c_stack c) with
  | Ok s x => Ok (k x s) tt
  | Raise s e => Raise (mk_client s (g_stacknxt s) [] (c_items c)) e
  | Wild => Wild
  end.

Definition init_client : client := mk_client INIT_G_memstack (stackbase, 0) [] [].

Section Client.
Context (enough : mstack -> Z -> bool) (garbage : nat -> ascii).

Definition step (o : op) (c : client) : res client unit :=
  let t := c_text c in
  let p := c_p c in
  let l := c_items c in
  match o with
  | OStart => on c stackblock (fun q s => mk_client s q [] l)
  | OPut ch => on c (STPUTC enough garbage ch p) (fun q s => mk_client s q (t ++ [ch]) l)
  | OPuts u => on c (stack_putstr enough garbage u p) (fun q s => mk_client s q (t ++ u) l)
  | OSure u => on c (let! q := CHECKSTRSPACE enough garbage (Z.of_nat (length u)) p in USTPUTS u q) (fun q s => mk_client s q (t ++ u) l)
  | OTerm => on c (let! q := STACKSTRNUL enough garbage p in ret (padd q 1)) (fun q s => mk_client s q (t ++ [NUL]) l)
  | OUnput n => on c (ret (padd p (- Z.of_nat n))) (fun q s => mk_client s q (take (length t - n) t) l)
  | OGrab => on c (grabstackstr enough garbage p) (fun q s => mk_client s (g_stacknxt s) [] (IObj q t :: l))
  | OAlloc u => on c (stdup enough garbage u) (fun q s => mk_client s (g_stacknxt s) [] (IObj q u :: l))
  | OUngrab =>
      match l with
      | IObj q u :: l => on c (stunalloc q) (fun _ s => mk_client s (padd q (Z.of_nat (length u))) u l)
      | _ => Wild
      end
  | OMark => on c (setstackmark enough garbage)
               (fun mk s => mk_client s (g_stacknxt s) [] (IMark mk (g_stacknxt (c_stack c)) [] :: l))
  | OReserve n => on c (pushstackmark enough garbage n) (fun mk s => mk_client s (g_stacknxt s) [] (IMark mk p t :: l))
  | OPop => match l with IMark mk q u :: l => on c (popstackmark mk) (fun _ s => mk_client s q u l) | _ => Wild end
  | ONest => on c (let! q := stackblock in
                   let! mk := pushstackmark enough garbage (pdiff p q) in
                   let! sv := enter_arena enough garbage in ret (mk, sv))
               (fun x s => mk_client s (g_stacknxt s) [] (INest x.1 x.2 p t :: l))
  | OReturn =>
      match l with INest mk sv q u :: l => on c (leave_arena sv ;; popstackmark mk) (fun _ s => mk_client s q u l) | _ => Wild end
  | ODrop => Ok (mk_client (c_stack c) p t (tail l)) tt
  end.

(** The clients that legal operations lead to, exceptions included. *)
Inductive reach : client -> Prop :=
  | reach_init : reach init_client
  | reach_ok c o c' : reach c -> legal o c = true -> step o c = Ok c' tt -> reach c'
  | reach_raise c o c' e : reach c -> legal o c = true -> step o c = Raise c' e -> e <> DIED -> reach c'.

(** A sequence of legal operations that all end normally. *)
Fixpoint run (l : list op) (c : client) : option client :=
  match l with
  | [] => Some c
  | o :: l => if legal o c then match step o c with Ok c' _ => run l c' | _ => None end else None
  end.
End Client.

(** ** Arenas *)

(** A stack: its top block, the blocks below, and where its free space starts. *)
Record arena := mk_ar { a_top : nat; a_below : list nat; a_off : nat }.

Definition chain (a : arena) : list nat := a_top a :: a_below a.

Definition block (mem : gmap nat cstr) (i : nat) (b : cstr) : Prop :=
  mem !! i = Some b /\ (8 | Z.of_nat (length b)) /\ Z.of_nat (length b) < 2 ^ 32.

Record arena_ok (mem : gmap nat cstr) (a : arena) : Prop := mk_arok {
  ok_blocks : Forall (fun i => exists b, block mem i b) (chain a);
  ok_nodup : NoDup (chain a);
  ok_align : (8 | Z.of_nat (a_off a));
  ok_off : exists b, mem !! a_top a = Some b /\ (a_off a <= length b)%nat;
}.

(** The globals describe this stack. *)
Definition is_arena (s : mstack) (a : arena) : Prop := exists b,
  ms_mem s !! a_top a = Some b /\
  g_stack s = chain a /\ g_stacknxt s = (a_top a, Z.of_nat (a_off a)) /\ sstrend s = (a_top a, Z.of_nat (length b)) /\
  g_stacknleft s = Z.of_nat (length b) - Z.of_nat (a_off a).

Definition fresh_ok (s : mstack) : Prop := forall i, is_Some (ms_mem s !! i) -> (i < ms_next s)%nat.

Record good (s : mstack) (a : arena) : Prop := mk_good {
  g_arena : is_arena s a;
  g_ok : arena_ok (ms_mem s) a;
  g_fresh : fresh_ok s;
}.

(** Below the free space. *)
Definition live (mem : gmap nat cstr) (a : arena) (p : ptr) (n : nat) : Prop :=
  0 <= p.2 /\
  (p.1 ∈ a_below a /\ (exists b, mem !! p.1 = Some b /\ p.2 + Z.of_nat n <= Z.of_nat (length b)) \/
   p.1 = a_top a /\ p.2 + Z.of_nat n <= Z.of_nat (a_off a)).

Definition bytes (mem : gmap nat cstr) (p : ptr) (t : cstr) : Prop :=
  exists b, mem !! p.1 = Some b /\ take (length t) (drop (Z.to_nat p.2) b) = t.

(** An object is where it should be and has its contents (an empty one may be
    anywhere). *)
Definition obj_ok (mem : gmap nat cstr) (a : arena) (o : ptr * cstr) : Prop :=
  o.2 <> [] -> live mem a o.1 (length o.2) /\ bytes mem o.1 o.2.

(** The text under construction stands at the start of the free space. *)
Definition building (mem : gmap nat cstr) (a : arena) (t : cstr) : Prop :=
  exists b, mem !! a_top a = Some b /\ (a_off a + length t <= length b)%nat /\ take (length t) (drop (a_off a) b) = t.

Definition start (a : arena) : ptr := (a_top a, Z.of_nat (a_off a)).

Definition cur (a : arena) (t : cstr) : ptr := padd (start a) (Z.of_nat (length t)).

(** [t] is under construction and [p] its end. *)
Definition text (s : mstack) (a : arena) (t : cstr) (p : ptr) : Prop := building (ms_mem s) a t /\ p = cur a t.

(** The text goes on as [u]. *)
Definition goes_on (u : cstr) : ptr -> mstack -> arena -> Prop := fun p s a => text s a u p.

Definition advance (n : nat) (a : arena) : arena := mk_ar (a_top a) (a_below a) (a_off a + n).

Definition taken (n : Z) (a : arena) : arena := advance (Z.to_nat (SHELL_ALIGN n)) a.

Definition new_arena (id : nat) (a : arena) (n : nat) : arena := mk_ar id (chain a) n.

(** What [stalloc] takes of the free space of [s1]. *)
Definition take_space (s1 : mstack) (n : Z) : mstack :=
  set_nxt (padd (g_stacknxt s1) (SHELL_ALIGN n)) (g_stacknleft s1 - SHELL_ALIGN n) s1.

(** A new block on top, all of it free. *)
Definition with_block (s : mstack) (nb : cstr) : mstack :=
  mk_ms (<[ms_next s := nb]> (ms_mem s)) (S (ms_next s)) (ms_next s :: g_stack s) (ms_next s, 0)
    (ms_next s, Z.of_nat (length nb)) (Z.of_nat (length nb)).

(** ** Growing *)

(** [a] is [a0] with more on it, and the block where [a0] ends will not be moved. *)
Definition ext (a0 a : arena) : Prop := exists pre,
  chain a = pre ++ chain a0 /\ (pre = [] -> (a_off a0 <= a_off a)%nat /\ (a_top a = stackbase \/ a_off a <> 0%nat)).

(** [mem'] has what [mem] has below [a]'s free space. *)
Definition agree (mem mem' : gmap nat cstr) (a : arena) : Prop :=
  Forall (fun i => mem' !! i = mem !! i) (a_below a) /\
  exists b b', mem !! a_top a = Some b /\ mem' !! a_top a = Some b' /\ length b' = length b /\
    take (a_off a) b' = take (a_off a) b.

Record later (s : mstack) (a : arena) (s' : mstack) (a' : arena) : Prop := mk_later {
  l_good : good s' a';
  l_next : (ms_next s <= ms_next s')%nat;
  l_chain : forall i, i ∈ chain a' -> i ∈ chain a \/ (ms_next s <= i)%nat;
  l_same : forall i, (i < ms_next s)%nat -> i ∉ chain a -> ms_mem s' !! i = ms_mem s !! i;
  l_live : forall o, obj_ok (ms_mem s) a o -> obj_ok (ms_mem s') a' o;
  l_ext : forall a0, ext a0 a -> ext a0 a' /\ agree (ms_mem s) (ms_mem s') a0;
}.

(** [q] is an object [t], allocated where [a0]'s free space began. *)
Definition made (s : mstack) (a : arena) (t : cstr) (q : ptr) (s' : mstack) (a' : arena) : Prop := exists s1 a0,
  later s a s1 a0 /\ ms_mem s1 = ms_mem s' /\ ext a0 a' /\ q = start a0 /\ live (ms_mem s') a' q (length t) /\ bytes (ms_mem s') q t.

(** ** Going back *)

Definition mark_of (a : arena) (len : nat) : stackmark := mk_mark (a_top a) (start a) (Z.of_nat len - Z.of_nat (a_off a)).

(** [mk] remembers where [a]'s free space begins. *)
Definition marks (mem : gmap nat cstr) (a : arena) (mk : stackmark) : Prop := exists b, mem !! a_top a = Some b /\ mk = mark_of a (length b).

Definition saves (mem : gmap nat cstr) (a : arena) (sv : saved) : Prop := exists b, mem !! a_top a = Some b /\
  sv = mk_saved (chain a) (start a) (a_top a, Z.of_nat (length b)) (Z.of_nat (length b) - Z.of_nat (a_off a)).

Definition delete_all (l : list nat) (mem : gmap nat cstr) : gmap nat cstr := foldl (fun m b => delete b m) mem l.

(** [s'] has [a0] for its stack and kept all of it. *)
Record back (s : mstack) (a a0 : arena) (s' : mstack) : Prop := mk_back {
  b_good : good s' a0;
  b_keep : Forall (fun i => ms_mem s' !! i = ms_mem s !! i) (chain a0);
  b_next : ms_next s' = ms_next s;
  b_same : forall i, i ∉ chain a -> ms_mem s' !! i = ms_mem s !! i;
}.

(** ** What is held *)

Inductive held (mem : gmap nat cstr) : nat -> arena -> list item -> Prop :=
  | h_nil lo a : held mem lo a []
  | h_obj lo a a0 t l : ext a0 a -> arena_ok mem a0 -> t <> [] -> obj_ok mem a (start a0, t) -> held mem lo a0 l ->
      held mem lo a (IObj (start a0) t :: l)
  | h_mark lo a a0 mk t l : ext (taken (Z.of_nat (length t)) a0) a -> arena_ok mem a0 -> building mem a0 t -> marks mem a0 mk ->
      held mem lo a0 l -> held mem lo a (IMark mk (cur a0 t) t :: l)
  | h_nest lo lo1 a a0 mk sv t l : arena_ok mem a0 -> building mem a0 t -> marks mem a0 mk ->
      saves mem (taken (Z.of_nat (length t)) a0) sv -> Forall (fun i => lo1 <= i < lo)%nat (chain a0) -> held mem lo1 a0 l ->
      held mem lo a (INest mk sv (cur a0 t) t :: l).

(** [lo] is below the blocks of the current stack. *)
Definition above (lo : nat) (a : arena) : Prop := Forall (fun i => lo <= i)%nat (chain a).

Definition inv (c : client) : Prop := exists lo a,
  good (c_stack c) a /\ text (c_stack c) a (c_text c) (c_p c) /\ above lo a /\ held (ms_mem (c_stack c)) lo a (c_items c).

(** ** Computations that keep the stack good *)

Section Runs.
Context (enough : mstack -> Z -> bool).

(** Errors: libc has no more memory, or there would be more than 4 GB. *)
Definition starved : Prop := exists s n, enough s n = false.
Definition why (s : mstack) (e : exn) : Prop :=
  e = DIED /\ starved \/ e = EXERROR (lit "out of memory") /\ 2 ^ 31 <= g_stacknleft s.

(** [m] touches no bad memory; it ends, with the stack [later] than it was, in
    [Q], or with an error. *)
Definition runs {A} (s : mstack) (a : arena) (Q : A -> mstack -> arena -> Prop) (m : M mstack A) : Prop :=
  match m s with
  | Ok s' x => exists a', later s a s' a' /\ Q x s' a'
  | Raise s' e => why s' e /\ exists a', later s a s' a'
  | Wild => False
  end.

Definition fine (r : res client unit) : Prop :=
  match r with Ok c _ => inv c | Raise c e => why (c_stack c) e /\ (e = DIED \/ inv c) | Wild => False end.

End Runs.
