(* ===== verification/AshStackCorrect.v ===== *)
(** * shell/ash.c: the memory stack is safe

    As long as a client uses the stack in LIFO order, every access is inside the
    memory it was given, whatever exceptions occur on the way, and the objects and
    texts it holds keep their contents ([stack_safe]). *)

From Stdlib Require Import Ascii String ZArith Lia.
From stdpp Require Import base gmap list strings.
From S2P Require Import Prelude Clib AshBase AshStack AshStackSpec.

Local Open Scope Z_scope.
Local Open Scope ash_scope.

Lemma agree_refl mem a : arena_ok mem a -> agree mem mem a.
Proof.
  intros [_ _ _ (b & Hb & _)]. split; [by apply Forall_true|]. by exists b, b.
Qed.

Lemma agree_trans m1 m2 m3 a : agree m1 m2 a -> agree m2 m3 a -> agree m1 m3 a.
Proof.
  intros [H1 (b1 & b2 & E1 & E2 & L1 & T1)] [H2 (b2' & b3 & E2' & E3 & L2 & T2)]. simplify_eq. split.
  - rewrite Forall_forall in *. intros i Hi. rewrite H2, H1; done.
  - exists b1, b3. split_and!; congruence.
Qed.

Lemma later_trans s1 a1 s2 a2 s3 a3 : later s1 a1 s2 a2 -> later s2 a2 s3 a3 -> later s1 a1 s3 a3.
Proof.
  intros [G1 N1 C1 S1 L1 E1] [G2 N2 C2 S2 L2 E2]. constructor; [done|lia| | |auto|].
  - intros i Hi. destruct (C2 i Hi) as [H|H]; [auto|right; lia].
  - intros i Hi Hc. rewrite S2, S1; [done..|lia|]. intros H. destruct (C1 i H); [done|lia].
  - intros a0 H0. destruct (E1 a0 H0) as [H1 A1]. destruct (E2 a0 H1) as [H2 A2]. split; [done|]. by eapply agree_trans.
Qed.

(** Changing only the free space. *)
Lemma good_block s a : good s a -> exists b, ms_mem s !! a_top a = Some b /\ (a_off a <= length b)%nat /\
  (8 | Z.of_nat (length b)) /\ Z.of_nat (length b) < 2 ^ 32.
Proof.
  intros [_ [Hb _ _ (b & Hm & Ho)] _]. exists b. apply Forall_cons in Hb as [(b' & Hb' & H8 & H32) _]. by simplify_eq.
Qed.

Lemma in_block_true b off n : 0 <= off -> off + Z.of_nat n <= Z.of_nat (length b) -> in_block b off n = true.
Proof. intros H1 H2. unfold in_block. apply andb_true_iff. split; apply Z.leb_le; lia. Qed.

Lemma put_at_length b off t : (off + length t <= length b)%nat -> length (put_at b off t) = length b.
Proof. intros H. unfold put_at. rewrite !length_app, length_take, length_drop. lia. Qed.

Lemma put_at_before b off t n : (off <= length b)%nat -> (n <= off)%nat -> take n (put_at b off t) = take n b.
Proof.
  intros H1 H2. unfold put_at. rewrite take_app_le by (rewrite length_take; lia). rewrite take_take. f_equal. lia.
Qed.

Lemma put_at_at b off t : (off <= length b)%nat -> take (length t) (drop off (put_at b off t)) = t.
Proof.
  intros H. unfold put_at. rewrite drop_app_length' by (rewrite length_take; lia). apply take_app_length.
Qed.

Lemma take_drop_take {A} (l : list A) k n m : (k + n <= m)%nat -> take n (drop k (take m l)) = take n (drop k l).
Proof. intros H. rewrite !take_drop_commute, take_take. do 2 f_equal. lia. Qed.

Lemma obj_agree mem mem' a o : agree mem mem' a -> obj_ok mem a o -> obj_ok mem' a o.
Proof.
  intros [Hb (b & b' & E & E' & Hl & Ht)] Ho Hne. destruct (Ho Hne) as [[H0 Hlive] (c & Ec & Hc)]. rewrite Forall_forall in Hb.
  destruct Hlive as [[Hin (d & Ed & Hd)]|[Htop Hoff]].
  - split; [split; [done|left; split; [done|]]|]; (exists d || exists c); rewrite Hb by done; [done|].
    simplify_eq. by split.
  - rewrite Htop in *. simplify_eq. split; [split; [done|by right]|]. exists b'. rewrite Htop. split; [done|].
    rewrite <- (take_drop_take b' _ _ (a_off a)), Ht, take_drop_take by lia. done.
Qed.

Lemma agree_ext mem mem' a a0 : arena_ok mem a -> agree mem mem' a -> ext a0 a -> agree mem mem' a0.
Proof.
  intros Hok [Hb (b & b' & E & E' & Hl & Ht)] (pre & Hch & Hpre). destruct pre as [|x pre]; unfold chain in Hch; cbn [app] in Hch; injection Hch as Htop Hbel.
  - destruct (Hpre eq_refl) as [Ho _]. rewrite Htop, Hbel in *. split; [done|]. exists b, b'. split_and!; try done.
    rewrite <- (Nat.min_l (a_off a0) (a_off a)) by done. rewrite <- !take_take. by rewrite Ht.
  - rewrite Hbel in Hb. apply Forall_app in Hb as [_ Hb]. apply Forall_cons in Hb as [Ht0 Hb0]. split; [done|].
    destruct Hok as [Hbl _ _ _]. unfold chain in Hbl at 1. rewrite Hbel in Hbl. apply Forall_cons in Hbl as [_ Hbl].
    apply Forall_app in Hbl as [_ Hbl]. apply Forall_cons in Hbl as [(c & Hc & _) _].
    exists c, c. by rewrite Ht0.
Qed.

(** Blocks that keep their place and length stay well-formed. *)
Lemma arena_ok_keep mem mem' a :
  arena_ok mem a -> (forall i b, i ∈ chain a -> mem !! i = Some b -> exists b', mem' !! i = Some b' /\ length b' = length b) ->
  arena_ok mem' a.
Proof.
  intros [Hb Hn Ha (b & E & Ho)] Hk. constructor; [|done|done|].
  - rewrite Forall_forall in *. intros i Hi. destruct (Hb i Hi) as (c & Hc & H8 & H32). destruct (Hk i c Hi Hc) as (c' & Hc' & Hl).
    exists c'. unfold block. by rewrite Hl.
  - destruct (Hk (a_top a) b ltac:(left) E) as (b' & E' & Hl). exists b'. split; [done|lia].
Qed.

(** Writing to the free space. *)
Lemma later_write s a b' b mem' :
  good s a -> ms_mem s !! a_top a = Some b -> mem' = <[a_top a := b']> (ms_mem s) -> length b' = length b ->
  take (a_off a) b' = take (a_off a) b -> later s a (set_mem mem' s) a.
Proof.
  intros Hg E -> Hl Ht. pose proof Hg as [Har Hok Hf].
  assert (agree (ms_mem s) (<[a_top a := b']> (ms_mem s)) a) as Hag.
  { split; [|exists b, b'; by rewrite lookup_insert_eq]. destruct Hok as [_ Hn _ _]. apply NoDup_cons in Hn as [Hn _].
    apply Forall_forall. intros i Hi. rewrite lookup_insert_ne; [done|]. by intros <-. }
  constructor; simpl; try done; try lia.
  - constructor; simpl.
    + destruct Har as (c & Ec & Hs & Hnx & He & Hlf). simplify_eq. exists b'. simpl. rewrite lookup_insert_eq, Hl. by split_and!.
    + eapply arena_ok_keep; [done|]. intros i c Hi Hc. destruct (decide (i = a_top a)) as [->|Hne].
      * simplify_eq. exists b'. by rewrite lookup_insert_eq.
      * exists c. by rewrite lookup_insert_ne by done.
    + intros i. simpl. destruct (decide (i = a_top a)) as [->|Hne].
      * intros _. apply Hf. by rewrite E.
      * rewrite lookup_insert_ne by done. apply Hf.
  - auto.
  - intros i _ Hi. rewrite lookup_insert_ne; [done|]. intros <-. apply Hi. left.
  - intros o. by apply obj_agree.
  - intros a0 H0. split; [done|]. by eapply agree_ext.
Qed.

(** Moving the start of the free space up. *)
Lemma later_advance s a b n :
  good s a -> ms_mem s !! a_top a = Some b -> (8 | Z.of_nat n) -> (a_off a + n <= length b)%nat ->
  later s a (set_nxt (padd (g_stacknxt s) (Z.of_nat n)) (g_stacknleft s - Z.of_nat n) s) (advance n a).
Proof.
  intros Hg E H8 Hn. pose proof Hg as [(c & Ec & Hs & Hnx & He & Hlf) Hok Hf]. simplify_eq.
  constructor; simpl; try done; try lia.
  - constructor; simpl.
    + exists b. simpl. split_and!; try done; [|lia]. unfold padd. rewrite Hnx. simpl. f_equal. lia.
    + destruct Hok as [H1 H2 H3 H4]. constructor; try done; simpl; [|exists b; by split].
      rewrite Nat2Z.inj_add. by apply Z.divide_add_r.
    + done.
  - auto.
  - intros [p t] Ho Hne. destruct (Ho Hne) as [[H0 Hl] Hb]. split; [|done]. split; [done|]. destruct Hl as [Hl|[Ht Hoff]]; [by left|right]. simpl in *. split; [done|lia].
  - intros a0 H0. split; [|by eapply agree_ext; [| |done]; [|apply agree_refl]].
    destruct H0 as (pre & Hch & Hpre). exists pre. split; [done|]. intros Hp. destruct (Hpre Hp) as [Ho Hpin]. simpl. split; [lia|].
    destruct Hpin as [?|?]; [by left|right; lia].
Qed.

(** A new block on top. *)
Lemma later_block s a b nb n :
  good s a -> ms_mem s !! a_top a = Some b -> (8 | Z.of_nat (length nb)) -> Z.of_nat (length nb) < 2 ^ 32 ->
  (8 | Z.of_nat n) -> (n <= length nb)%nat ->
  later s a
    (mk_ms (<[ms_next s := nb]> (ms_mem s)) (S (ms_next s)) (ms_next s :: g_stack s) (ms_next s, Z.of_nat n)
       (ms_next s, Z.of_nat (length nb)) (Z.of_nat (length nb) - Z.of_nat n))
    (new_arena (ms_next s) a n).
Proof.
  intros Hg E H8 H32 Hn Hle. pose proof Hg as [(c & Ec & Hs & Hnx & He & Hlf) Hok Hf]. simplify_eq.
  set (id := ms_next s). set (mem' := <[id := nb]> (ms_mem s)).
  assert (forall i, is_Some (ms_mem s !! i) -> mem' !! i = ms_mem s !! i) as Hsame.
  { intros i Hi. unfold mem'. rewrite lookup_insert_ne; [done|]. intros <-. pose proof (Hf _ Hi). unfold id in *. lia. }
  assert (forall i, i ∈ chain a -> is_Some (ms_mem s !! i)) as Hin.
  { intros i Hi. destruct Hok as [Hb _ _ _]. rewrite Forall_forall in Hb. destruct (Hb i Hi) as (d & Hd & _). by exists d. }
  assert (agree (ms_mem s) mem' a) as Hag.
  { split; [|exists b, b; rewrite Hsame by (by rewrite E); done]. apply Forall_forall. intros i Hi. apply Hsame, Hin. by right. }
  constructor; simpl; fold id mem'; try lia.
  - constructor; simpl; fold id mem'.
    + exists nb. simpl. rewrite Hs. fold id mem'. unfold mem' at 1. rewrite lookup_insert_eq. by split_and!.
    + destruct Hok as [H1 H2 H3 H4]. constructor; simpl.
      * constructor; [exists nb; unfold block, mem'; by rewrite lookup_insert_eq|].
        rewrite Forall_forall in *. intros i Hi. destruct (H1 i Hi) as (d & Hd & Hd'). exists d.
        unfold block. rewrite Hsame by (by rewrite Hd). by split.
      * apply NoDup_cons. split; [|done]. intros Hi. pose proof (Hf _ (Hin _ Hi)). simpl in *. unfold id in *. lia.
      * done.
      * exists nb. unfold mem'. by rewrite lookup_insert_eq.
    + intros i. simpl. fold id. unfold mem'. destruct (decide (i = id)) as [->|Hne]; [intros _; apply Nat.lt_succ_diag_r|].
      rewrite lookup_insert_ne by done. intros Hi. apply Hf in Hi. unfold id. simpl. lia.
  - intros i Hi. apply elem_of_cons in Hi as [->|Hi]; [by right; unfold id|by left].
  - intros i Hi _. unfold mem'. rewrite lookup_insert_ne; [done|unfold id in *; lia].
  - intros [p t] Hobj Hne. destruct (Hobj Hne) as [[H0 Hl] (d & Ed & Hd)]. split; [split; [done|left]|exists d; by rewrite Hsame by (by rewrite Ed)]. simpl in *.
    destruct Hl as [[Hi (e & Ee & He')]|[Ht Ho]].
    + split; [by right|]. exists e. by rewrite Hsame by (by rewrite Ee).
    + rewrite Ht in *. split; [left|]. exists b. rewrite Hsame by (by rewrite E). split; [done|].
      destruct Hok as [_ _ _ (b' & Eb & Ho')]. simplify_eq. lia.
  - intros a0 H0. split; [|by eapply agree_ext]. destruct H0 as (pre & Hch & Hpre). exists (id :: pre). split; [|done].
    change (id :: chain a = id :: pre ++ chain a0). by rewrite Hch.
Qed.

(** A block without objects moves. *)
Lemma later_move s a b nb :
  good s a -> ms_mem s !! a_top a = Some b -> a_off a = 0%nat -> a_top a <> stackbase ->
  (8 | Z.of_nat (length nb)) -> Z.of_nat (length nb) < 2 ^ 32 ->
  later s a
    (mk_ms (<[ms_next s := nb]> (delete (a_top a) (ms_mem s))) (S (ms_next s)) (ms_next s :: tail (g_stack s)) (ms_next s, 0)
       (ms_next s, Z.of_nat (length nb)) (Z.of_nat (length nb)))
    (mk_ar (ms_next s) (a_below a) 0).
Proof.
  intros Hg E H0 Hbase H8 H32. pose proof Hg as [(c & Ec & Hs & Hnx & He & Hlf) Hok Hf]. simplify_eq.
  set (id := ms_next s). set (mem' := <[id := nb]> (delete (a_top a) (ms_mem s))).
  assert (forall i, is_Some (ms_mem s !! i) -> i <> a_top a -> mem' !! i = ms_mem s !! i) as Hsame.
  { intros i Hi Hne. unfold mem'. rewrite lookup_insert_ne, lookup_delete_ne; [done|by intros <-|].
    intros <-. pose proof (Hf _ Hi). unfold id in *. lia. }
  destruct Hok as [H1 H2 H3 H4]. apply NoDup_cons in H2 as [Hnin H2]. unfold chain in H1. apply Forall_cons in H1 as [_ H1].
  assert (forall i, i ∈ a_below a -> is_Some (ms_mem s !! i) /\ i <> a_top a) as Hin.
  { intros i Hi. rewrite Forall_forall in H1. destruct (H1 i Hi) as (d & Hd & _). split; [by exists d|]. intros Heq. by rewrite Heq in Hi. }
  assert (forall i, i ∈ a_below a -> mem' !! i = ms_mem s !! i) as Hbel by (intros i Hi; by apply Hsame; apply Hin).
  constructor; simpl; fold id mem'; try lia.
  - constructor; simpl; fold id mem'.
    + exists nb. simpl. rewrite Hs. fold id mem'. unfold mem' at 1. rewrite lookup_insert_eq. split_and!; try done. simpl. lia.
    + constructor; simpl.
      * constructor; [exists nb; unfold block, mem'; by rewrite lookup_insert_eq|].
        rewrite Forall_forall in *. intros i Hi. destruct (H1 i Hi) as (d & Hd & Hd'). exists d.
        unfold block. rewrite Hbel by done. by split.
      * apply NoDup_cons. split; [|done]. intros Hi. destruct (Hin _ Hi) as [Hi' _]. pose proof (Hf _ Hi'). simpl in *. unfold id in *. lia.
      * by exists 0.
      * exists nb. unfold mem'. rewrite lookup_insert_eq. split; [done|lia].
    + intros i. simpl. fold id. unfold mem'. destruct (decide (i = id)) as [->|Hne]; [intros _; apply Nat.lt_succ_diag_r|].
      rewrite lookup_insert_ne by done. intros [d Hd]. apply lookup_delete_Some in Hd as [_ Hd].
      assert (is_Some (ms_mem s !! i)) as Hi by eauto. apply Hf in Hi. unfold id. lia.
  - intros i Hi. apply elem_of_cons in Hi as [->|Hi]; [by right; unfold id|left]. by right.
  - intros i Hi Hc. unfold mem'. rewrite lookup_insert_ne, lookup_delete_ne; [done| |unfold id in *; lia].
    intros <-. apply Hc. left.
  - intros [p t] Hobj Hne. destruct (Hobj Hne) as [[Hp Hl] (d & Ed & Hd)]. simpl in *.
    destruct Hl as [[Hi (e & Ee & He')]|[Ht Ho]].
    + split; [split; [done|left]|exists d; by rewrite Hbel]. split; [done|]. exists e. by rewrite Hbel.
    + exfalso. destruct t; [done|]. simpl in Ho. lia.
  - intros a0 (pre & Hch & Hpre). destruct pre as [|x pre].
    { destruct (Hpre eq_refl) as [_ [?|?]]; done. }
    unfold chain in Hch. cbn [app] in Hch. injection Hch as _ Hbe. split.
    + exists (id :: pre). split; [|done]. unfold chain. cbn [a_top a_below app]. by rewrite Hbe.
    + rewrite Hbe in Hbel, H1. apply Forall_app in H1 as [_ H1]. unfold chain in H1. apply Forall_cons in H1 as [(d & Hd & _) _].
      split; [apply Forall_forall; intros i Hi; apply Hbel, elem_of_app; right; by right|].
      exists d, d. rewrite Hbel by (apply elem_of_app; right; left). done.
Qed.

Lemma SHELL_ALIGN_8 n : 0 <= n <= 2 ^ 32 - 8 -> SHELL_ALIGN n = 8 * ((n + 7) / 8).
Proof.
  intros Hn. unfold SHELL_ALIGN, SHELL_SIZE. rewrite wrapU_id by (unfold is_u; lia).
  change (Z.lnot 7) with (Z.lnot (Z.ones 3)). rewrite <- Z.ldiff_land, Z.ldiff_ones_r, Z.shiftr_div_pow2, Z.shiftl_mul_pow2 by lia.
  change (2 ^ 3) with 8. lia.
Qed.

Lemma SHELL_ALIGN_bounds n : 0 <= n <= 2 ^ 32 - 8 -> n <= SHELL_ALIGN n < n + 8 /\ (8 | SHELL_ALIGN n) /\ SHELL_ALIGN n <= 2 ^ 32 - 8.
Proof.
  intros Hn. rewrite SHELL_ALIGN_8 by done. pose proof (Z.div_mod (n + 7) 8 ltac:(lia)). pose proof (Z.mod_pos_bound (n + 7) 8 ltac:(lia)).
  split; [lia|]. split; [by apply Z.divide_factor_l|lia].
Qed.

(** Rounding stays within a multiple of 8. *)
Lemma SHELL_ALIGN_fits n m : 0 <= n <= m -> m < 2 ^ 32 -> (8 | m) -> SHELL_ALIGN n <= m.
Proof.
  intros Hn Hm [k ->]. rewrite SHELL_ALIGN_8 by lia. pose proof (Z.div_lt_upper_bound (n + 7) 8 (k + 1) ltac:(lia) ltac:(lia)). lia.
Qed.

Section Ops.
Context (enough : mstack -> Z -> bool) (garbage : nat -> ascii).

Abbreviation stalloc := (AshStack.stalloc enough garbage).
Abbreviation new_space := (AshStack.new_space garbage).
Abbreviation step := (AshStackSpec.step enough garbage).
Abbreviation reach := (AshStackSpec.reach enough garbage).
Abbreviation starved := (AshStackSpec.starved enough).
Abbreviation why := (AshStackSpec.why enough).
Abbreviation runs := (AshStackSpec.runs enough).
Abbreviation fine := (AshStackSpec.fine enough).

Lemma new_space_length id n : 0 <= n -> Z.of_nat (length (new_space id n)) = n.
Proof. intros Hn. unfold AshStack.new_space. rewrite length_replicate. lia. Qed.

Lemma later_with_block s a nb :
  good s a -> (8 | Z.of_nat (length nb)) -> Z.of_nat (length nb) < 2 ^ 32 -> later s a (with_block s nb) (new_arena (ms_next s) a 0).
Proof.
  intros Hg H8 H32. destruct (good_block _ _ Hg) as (b & E & _).
  pose proof (later_block s a b nb 0 Hg E H8 H32 ltac:(by exists 0) ltac:(lia)) as H. by rewrite Z.sub_0_r in H.
Qed.

Lemma stalloc_here s a b n : good s a -> ms_mem s !! a_top a = Some b -> 0 <= n <= Z.of_nat (length b) - Z.of_nat (a_off a) ->
  stalloc n s = Ok (take_space s n) (start a) /\ Z.of_nat (a_off a) + SHELL_ALIGN n <= Z.of_nat (length b).
Proof.
  intros Hg E Hn. destruct (good_block _ _ Hg) as (b' & E' & Ho & H8 & H32). rewrite E in E'. injection E' as <-.
  destruct Hg as [(c & Ec & Hs & Hnx & He & Hlf) [_ _ Ha _] _]. rewrite E in Ec. injection Ec as <-.
  assert (SHELL_ALIGN n <= Z.of_nat (length b) - Z.of_nat (a_off a)) as Hfit
    by (apply SHELL_ALIGN_fits; [lia|lia|by apply Z.divide_sub_r]).
  destruct H8 as [k Hk]. pose proof (SHELL_ALIGN_bounds n ltac:(lia)) as (Hal & _ & _). split; [|lia].
  unfold AshStack.stalloc. rewrite bind_get, Hlf. destruct (Z.ltb_spec (Z.of_nat (length b) - Z.of_nat (a_off a)) (SHELL_ALIGN n)); [lia|].
  unfold take_space, start. rewrite <- Hnx, Hlf. unfold bind, get, modify, ret. rewrite Hlf.
  rewrite wrapU_id by (unfold is_u; lia). done.
Qed.

Lemma stalloc_new s a b n : good s a -> ms_mem s !! a_top a = Some b -> 0 <= n <= 2 ^ 32 - 8 ->
  Z.of_nat (length b) - Z.of_nat (a_off a) < SHELL_ALIGN n ->
  (stalloc n s = Raise s DIED /\ starved) \/
  exists nb, (8 | Z.of_nat (length nb)) /\ Z.of_nat (length nb) < 2 ^ 32 /\ SHELL_ALIGN n <= Z.of_nat (length nb) /\
    stalloc n s = Ok (take_space (with_block s nb) n) (ms_next s, 0).
Proof.
  intros Hg E Hn Hl. destruct Hg as [(c & Ec & Hs & Hnx & He & Hlf) _ _]. rewrite E in Ec. injection Ec as <-.
  pose proof (SHELL_ALIGN_bounds n ltac:(lia)) as (Hal & H8 & H32).
  unfold AshStack.stalloc. rewrite bind_get, Hlf. destruct (Z.ltb_spec (Z.of_nat (length b) - Z.of_nat (a_off a)) (SHELL_ALIGN n)); [|lia].
  set (bs := if SHELL_ALIGN n <? MINSIZE then MINSIZE else SHELL_ALIGN n).
  assert (SHELL_ALIGN n <= bs /\ (8 | bs) /\ bs <= 2 ^ 32 - 8) as (Hb1 & Hb2 & Hb3).
  { unfold bs. destruct (Z.ltb_spec (SHELL_ALIGN n) MINSIZE); [|by split_and!]. change MINSIZE with 504 in *. split_and!; [lia| |lia].
    by exists 63. }
  clearbody bs. cbv zeta. unfold HEADER. rewrite (wrapU_id 32 (4 + bs)) by (unfold is_u; lia).
  destruct (Z.ltb_spec (4 + bs) bs); [lia|]. unfold AshStack.ckmalloc.
  unfold bind, get, modify, ret, raise, HEADER. destruct (enough s (4 + bs)) eqn:Hen; [right|left; split; [done|by exists s, (4 + bs)]].
  exists (new_space (ms_next s) (4 + bs - 4)). unfold with_block, take_space, set_nxt. rewrite new_space_length by lia.
  replace (4 + bs - 4) with bs by lia. split_and!; [done|lia|done|]. cbn. rewrite wrapU_id by (unfold is_u; lia). done.
Qed.

(** ** Computations that keep the stack good *)

Lemma later_refl s a : good s a -> later s a s a.
Proof. intros Hg. constructor; auto. intros a0 H0. split; [done|]. destruct Hg. eapply agree_ext; [done|by apply agree_refl|done]. Qed.

Lemma runs_done {A} s a (Q : A -> mstack -> arena -> Prop) x : good s a -> Q x s a -> runs s a Q (ret x).
Proof. intros Hg HQ. exists a. split; [by apply later_refl|done]. Qed.

Lemma runs_raise {A} s a (Q : A -> mstack -> arena -> Prop) m e : good s a -> m s = Raise s e -> why s e -> runs s a Q m.
Proof. intros Hg E Hw. unfold AshStackSpec.runs. rewrite E. split; [done|]. exists a. by apply later_refl. Qed.

Lemma runs_ok {A} s a (Q : A -> mstack -> arena -> Prop) m s' x a' : m s = Ok s' x -> later s a s' a' -> Q x s' a' -> runs s a Q m.
Proof. intros E Hl HQ. unfold AshStackSpec.runs. rewrite E. by exists a'. Qed.

Lemma runs_seq {A B} s a (Q : A -> mstack -> arena -> Prop) (R : B -> mstack -> arena -> Prop) m k :
  runs s a Q m -> (forall x s' a', later s a s' a' -> Q x s' a' -> runs s' a' R (k x)) -> runs s a R (bind m k).
Proof.
  unfold AshStackSpec.runs. intros Hm Hk. unfold bind. destruct (m s) as [s' x|s' e|]; [|done..].
  destruct Hm as (a' & Hl & HQ). specialize (Hk x s' a' Hl HQ). destruct (k x s') as [s2 y|s2 e|]; [| |done].
  - destruct Hk as (a2 & Hl2 & HR). exists a2. split; [by eapply later_trans|done].
  - destruct Hk as [Hw (a2 & Hl2)]. split; [done|]. exists a2. by eapply later_trans.
Qed.

(** A first step that changes nothing. *)
Lemma runs_first {A B} s a (R : B -> mstack -> arena -> Prop) (m : M mstack A) k x :
  m s = Ok s x -> runs s a R (k x) -> runs s a R (bind m k).
Proof. unfold AshStackSpec.runs. intros E. by rewrite (bind_run _ _ _ _ _ E). Qed.

Lemma runs_weaken {A} s a (Q R : A -> mstack -> arena -> Prop) m :
  runs s a Q m -> (forall x s' a', later s a s' a' -> Q x s' a' -> R x s' a') -> runs s a R m.
Proof. unfold AshStackSpec.runs. intros Hm H. destruct (m s); [|done..]. destruct Hm as (a' & Hl & HQ). exists a'. auto. Qed.

(** ** The text under construction *)

Lemma building_nil s a : good s a -> building (ms_mem s) a [].
Proof. intros Hg. destruct (good_block _ _ Hg) as (b & E & Ho & _). exists b. split_and!; [done|simpl; lia|done]. Qed.

Lemma building_app b o t u :
  (o + length t + length u <= length b)%nat -> take (length t) (drop o b) = t ->
  take (length (t ++ u)) (drop o (put_at b (o + length t) u)) = t ++ u.
Proof.
  intros Hl Ht. unfold put_at. rewrite drop_app_le by (rewrite length_take; lia). rewrite length_app.
  assert (drop o (take (o + length t) b) = t) as -> by (rewrite <- take_drop_commute, Ht; done).
  rewrite (app_assoc t u). rewrite <- length_app. apply take_app_length.
Qed.

Lemma load_run s i off n b : ms_mem s !! i = Some b -> 0 <= off -> off + Z.of_nat n <= Z.of_nat (length b) ->
  load (i, off) n s = Ok s (take n (drop (Z.to_nat off) b)).
Proof. intros E H1 H2. unfold load, bind, get, deref, ret. cbn [fst snd]. rewrite E, in_block_true by lia. done. Qed.

Lemma store_run s i off t b : ms_mem s !! i = Some b -> 0 <= off -> off + Z.of_nat (length t) <= Z.of_nat (length b) ->
  store (i, off) t s = Ok (set_mem (<[i := put_at b (Z.to_nat off) t]> (ms_mem s)) s) tt.
Proof. intros E H1 H2. unfold store, bind, get, deref, ret. cbn [fst snd]. rewrite E, in_block_true by lia. done. Qed.

(** Writing at the end of the text. *)
Lemma runs_store s a t u : good s a -> building (ms_mem s) a t -> Z.of_nat (length t + length u) <= g_stacknleft s ->
  runs s a (fun _ s' a' => a' = a /\ g_stacknleft s' = g_stacknleft s /\ building (ms_mem s') a (t ++ u)) (store (cur a t) u).
Proof.
  intros Hg (b & E & Hl & Ht) Hu. pose proof Hg as [(c & Ec & Hs & Hnx & He & Hlf) _ _]. rewrite E in Ec. injection Ec as <-.
  assert (Z.to_nat (Z.of_nat (a_off a) + Z.of_nat (length t)) = a_off a + length t)%nat as Hn by lia.
  eapply (runs_ok _ _ _ _ (set_mem (<[a_top a := put_at b (a_off a + length t) u]> (ms_mem s)) s) tt a).
  - unfold cur, padd, start. cbn [fst snd]. rewrite (store_run _ _ _ _ b), Hn by (done || lia). done.
  - eapply later_write; [done..|apply put_at_length; lia|apply put_at_before; lia].
  - split_and!; [done..|]. exists (put_at b (a_off a + length t) u). simpl. rewrite lookup_insert_eq, put_at_length, length_app by lia.
    split_and!; [done|lia|]. rewrite <- length_app. apply building_app; [lia|done].
Qed.

(** The size [growstackblock] adds at least. *)
Lemma min_bounds min : 0 <= min < 2 ^ 31 ->
  min <= SHELL_ALIGN (Z.lor min 128) <= 2 ^ 31 /\ 128 <= SHELL_ALIGN (Z.lor min 128) /\ (8 | SHELL_ALIGN (Z.lor min 128)).
Proof.
  intros Hm. pose proof (lor_ge min 128 ltac:(lia) ltac:(lia)) as H1. pose proof (lor_ge 128 min ltac:(lia) ltac:(lia)) as H2.
  rewrite Z.lor_comm in H2.
  assert (Z.lor min 128 < 2 ^ 31) as H3.
  { apply Z.log2_lt_pow2; [lia|]. rewrite Z.log2_lor by lia. apply Z.max_lub_lt; [|done].
    destruct (Z.eq_dec min 0) as [->|]; [done|]. apply Z.log2_lt_pow2; lia. }
  pose proof (SHELL_ALIGN_bounds (Z.lor min 128) ltac:(lia)) as (H4 & H5 & _).
  pose proof (SHELL_ALIGN_fits (Z.lor min 128) (2 ^ 31) ltac:(lia) ltac:(lia) ltac:(by exists (2 ^ 28))). split_and!; [lia..|done].
Qed.

Lemma SHELL_ALIGN_id n : 0 <= n < 2 ^ 32 -> (8 | n) -> SHELL_ALIGN n = n.
Proof. intros Hn [k ->]. rewrite SHELL_ALIGN_8, Z.div_add_l by lia. change (7 / 8) with 0. lia. Qed.

Lemma at_block_start_run s a : good s a ->
  at_block_start s = Ok s (bool_decide (a_off a = 0%nat) && negb (bool_decide (a_top a = stackbase))).
Proof.
  intros [(b & _ & Hs & Hnx & _) _ _]. unfold at_block_start, g_stackp, bind, get, deref. rewrite Hs. unfold chain, ret. simpl.
  rewrite Hnx. do 2 f_equal. apply bool_decide_ext. split; [intros [= H]; lia|by intros ->].
Qed.

Lemma g_stackp_run s a : good s a -> g_stackp s = Ok s (a_top a).
Proof. intros [(b & _ & Hs & _) _ _]. unfold g_stackp, bind, get. by rewrite Hs. Qed.

(** A larger block takes the text over. *)
Lemma building_moved (mem : gmap nat cstr) a t nb rest id below :
  building mem a t -> (forall b, mem !! a_top a = Some b -> take (length rest) nb = rest /\ rest = drop (a_off a) b) ->
  building (<[id := nb]> mem) (mk_ar id below 0) t.
Proof.
  intros (b & E & Hl & Ht) H. destruct (H b E) as [Hr Hd]. exists nb. simpl. rewrite lookup_insert_eq, drop_0.
  assert (length t <= length rest)%nat by (rewrite Hd, length_drop; lia).
  split_and!; [done| |].
  - rewrite <- Hr in H0 at 1. rewrite length_take in H0. lia.
  - rewrite <- Ht at 2. rewrite <- Hd, <- Hr at 1. rewrite take_take. f_equal. lia.
Qed.

(** [newlen] as [growstackblock] computes it. *)
Lemma newlen_bounds nl min : 0 <= nl < 2 ^ 31 -> (8 | nl) -> 0 <= min < 2 ^ 31 ->
  let m := SHELL_ALIGN (Z.lor min 128) in
  let n := if nl * 2 <? m then wrapU 32 (nl * 2 + m) else nl * 2 in
  nl < n < 2 ^ 32 /\ min <= n /\ (8 | n).
Proof.
  intros Hn [k ->] Hm m n. destruct (min_bounds min Hm) as ([H1 H2] & H3 & [j Hj]). fold m in H1, H2, H3, Hj. subst n.
  destruct (Z.ltb_spec (k * 8 * 2) m); [rewrite wrapU_id by (unfold is_u; lia)|]; (split_and!; [lia..|]).
  - exists (k * 2 + j). lia.
  - exists (k * 2). lia.
Qed.

Lemma growstackblock_here s a t n (b : cstr) :
  good s a -> building (ms_mem s) a t -> ms_mem s !! a_top a = Some b -> a_off a = 0%nat -> a_top a <> stackbase ->
  Z.of_nat (length b) < n < 2 ^ 32 -> (8 | n) ->
  runs s a (fun _ s' a' => building (ms_mem s') a' t /\ n <= g_stacknleft s')
    (let! sp := g_stackp in
     let! sp := ckrealloc enough garbage sp (wrapU 32 (n + HEADER)) in
     modify (fun s => set_stack (sp :: tail (g_stack s)) (sp, 0) (sp, n) n s)).
Proof.
  intros Hg Hb E H0 Hbase Hn H8. apply (runs_first _ _ _ _ _ _ (g_stackp_run _ _ Hg)). unfold ckrealloc.
  assert (n <= 2 ^ 32 - 8) by (destruct H8; lia).
  unfold HEADER. rewrite wrapU_id by (unfold is_u; lia). replace (n + 4 - 4) with n by lia.
  destruct (enough s (n + 4)) eqn:He.
  2: { eapply runs_raise; [done| |left; split; [done|by exists s, (n + 4)]].
       unfold bind, get, deref, ret. rewrite E. unfold ckmalloc, bind, get. rewrite He. done. }
  set (id := ms_next s). set (nb := take (Z.to_nat n) (b ++ new_space id n)).
  assert (Z.of_nat (length nb) = n) as Hlen.
  { unfold nb. rewrite length_take, length_app. pose proof (new_space_length id n). lia. }
  assert (id <> a_top a) as Hne.
  { destruct Hg as [_ _ Hf]. intros Heq. assert (is_Some (ms_mem s !! a_top a)) as Hi by (by exists b). pose proof (Hf _ Hi). unfold id in *. lia. }
  eapply runs_ok; [|apply (later_move s a b nb); try done; rewrite Hlen; first [done | lia]|].
  - unfold bind, get, modify, deref, ret. rewrite E. unfold ckmalloc, bind, get, modify, ret. rewrite He. cbn.
    unfold set_stack. cbn. f_equal. fold id. replace (n + 4 - HEADER) with n by (unfold HEADER; lia). fold nb.
    rewrite Hlen. f_equal. rewrite delete_insert_ne by done. by rewrite insert_insert_eq.
  - cbn. split; [|lia]. fold id. destruct Hb as (c & Ec & Hl & Ht). rewrite E in Ec. injection Ec as <-.
    exists nb. cbn. rewrite lookup_insert_eq, drop_0. rewrite H0, drop_0 in *. split_and!; [done|lia|].
    unfold nb. rewrite take_take, Nat.min_l by lia. rewrite take_app_le by lia. done.
Qed.

Lemma growstackblock_there s a t n (b : cstr) :
  good s a -> building (ms_mem s) a t -> ms_mem s !! a_top a = Some b ->
  Z.of_nat (length b) - Z.of_nat (a_off a) < n < 2 ^ 32 -> (8 | n) ->
  runs s a (fun _ s' a' => building (ms_mem s') a' t /\ n <= g_stacknleft s')
    (let! oldspace := get g_stacknxt in
     let! p := stalloc n in
     memcpy p oldspace (Z.of_nat (length b) - Z.of_nat (a_off a)) ;;
     modify (fun s => set_nxt p (wrapU 32 (g_stacknleft s + n)) s)).
Proof.
  intros Hg Hb E Hn H8. destruct (good_block _ _ Hg) as (b' & E' & Ho & _). rewrite E in E'. injection E' as <-.
  assert (n <= 2 ^ 32 - 8) by (destruct H8; lia).
  assert (g_stacknxt s = start a) as Hnx by (by destruct Hg as [(? & _ & _ & ? & _) _ _]).
  apply (runs_first _ _ _ _ _ (start a)); [by rewrite <- Hnx|].
  assert (SHELL_ALIGN n = n) as Hal by (apply SHELL_ALIGN_id; [lia|done]).
  destruct (stalloc_new s a b n Hg E ltac:(lia) ltac:(lia)) as [[He Hst]|(nb & Hb8 & Hb32 & Hle & Hst)].
  { eapply runs_raise; [done|by apply bind_raise|by left]. }
  rewrite Hal in Hle. set (id := ms_next s). set (rest := drop (a_off a) b).
  assert (length rest = length b - a_off a)%nat as Hlr by (unfold rest; by rewrite length_drop).
  assert (id <> a_top a) as Hne.
  { destruct Hg as [_ _ Hf]. intros Heq. assert (is_Some (ms_mem s !! a_top a)) as Hi by (by exists b). pose proof (Hf _ Hi). unfold id in *. lia. }
  pose proof (later_with_block s a nb Hg Hb8 Hb32) as Hl1. fold id in Hl1.
  set (mem' := <[id := put_at nb 0 rest]> (ms_mem (with_block s nb))).
  assert (later (with_block s nb) (new_arena id a 0) (set_mem mem' (with_block s nb)) (new_arena id a 0)) as Hl2.
  { apply (later_write _ _ (put_at nb 0 rest) nb); [by destruct Hl1| |done|apply put_at_length; lia|done]. cbn. fold id. by rewrite lookup_insert_eq. }
  eapply runs_ok; [|by eapply later_trans|].
  - rewrite (bind_run _ _ _ _ _ Hst). fold id. unfold memcpy, take_space. rewrite Hal.
    set (s1 := set_nxt _ _ (with_block s nb)).
    assert (ms_mem s1 !! a_top a = Some b) as E1 by (cbn; fold id; by rewrite lookup_insert_ne).
    assert (ms_mem s1 !! id = Some nb) as E2 by (cbn; fold id; by rewrite lookup_insert_eq).
    rewrite (bind_run _ _ s1 (set_mem mem' s1) tt).
    + unfold modify. cbn. unfold set_nxt, set_mem, with_block. cbn. fold id. do 2 f_equal.
      rewrite wrapU_id by (unfold is_u; lia). lia.
    + rewrite (bind_run _ _ _ _ _ (load_run _ _ (Z.of_nat (a_off a)) (Z.to_nat (Z.of_nat (length b) - Z.of_nat (a_off a))) _ E1 ltac:(lia) ltac:(lia))).
      rewrite Nat2Z.id, take_ge by (rewrite length_drop; lia). fold rest.
      rewrite (store_run _ _ _ _ nb) by (done || lia). done.
  - cbn. split; [|lia]. unfold mem'. cbn. fold id. rewrite insert_insert_eq. eapply building_moved; [done|].
    intros c Hc. rewrite E in Hc. injection Hc as <-. split; [|done]. apply (put_at_at nb 0). lia.
Qed.

Lemma runs_growstackblock s a t min : good s a -> building (ms_mem s) a t -> 0 <= min < 2 ^ 31 ->
  runs s a (fun _ s' a' => building (ms_mem s') a' t /\ g_stacknleft s < g_stacknleft s' /\ min <= g_stacknleft s')
    (growstackblock enough garbage min).
Proof.
  intros Hg Hb Hm. destruct (good_block _ _ Hg) as (b & E & Ho & H8 & H32).
  assert (g_stacknleft s = Z.of_nat (length b) - Z.of_nat (a_off a)) as Hlf
    by (destruct Hg as [(c & Ec & _ & _ & _ & Hlf) _ _]; rewrite E in Ec; by injection Ec as <-).
  assert (8 | g_stacknleft s) as Hl8 by (rewrite Hlf; apply Z.divide_sub_r; [done|by destruct Hg as [_ [_ _ Ha _] _]]).
  assert (0 <= g_stacknleft s < 2 ^ 32) as Hlb by lia.
  unfold growstackblock. apply (runs_first _ _ _ _ _ (g_stacknleft s)); [done|]. cbv zeta.
  destruct (Z.lt_ge_cases (g_stacknleft s) (2 ^ 31)) as [Hsmall|Hbig].
  - rewrite (wrapU_id 32 (g_stacknleft s * 2)) by (unfold is_u; lia).
    destruct (Z.ltb_spec (g_stacknleft s * 2) (g_stacknleft s)); [lia|].
    pose proof (newlen_bounds (g_stacknleft s) min ltac:(lia) Hl8 Hm) as Hnl. cbv zeta in Hnl.
    set (n := if g_stacknleft s * 2 <? SHELL_ALIGN (Z.lor min 128) then _ else _) in *. clearbody n.
    destruct Hnl as ((Hn1 & Hn2) & Hn3 & Hn4).
    apply (runs_first _ _ _ _ _ _ (at_block_start_run _ _ Hg)).
    destruct (bool_decide_reflect (a_off a = 0%nat)) as [H0|H0], (bool_decide_reflect (a_top a = stackbase)) as [Hs|Hs]; cbn [andb negb].
    2: { eapply runs_weaken; [eapply growstackblock_here; try done; lia|]. cbn. intros _ s' a' _ [Hb' Hl']. split_and!; [done|lia..]. }
    all: eapply runs_weaken; [rewrite Hlf; eapply growstackblock_there; try done; lia|]; cbn; intros _ s' a' _ [Hb' Hl']; split_and!; [done|lia..].
  - assert (wrapU 32 (g_stacknleft s * 2) = g_stacknleft s * 2 - 2 ^ 32) as ->.
    { unfold wrapU. symmetry. apply Z.mod_unique with 1; [left; lia|lia]. }
    destruct (Z.ltb_spec (g_stacknleft s * 2 - 2 ^ 32) (g_stacknleft s)); [|lia]. eapply runs_raise; [done..|by right].
Qed.

(** ** Building a text *)

Lemma g_stacknxt_run s a : good s a -> g_stacknxt s = start a.
Proof. by intros [(b & _ & _ & Hnx & _) _ _]. Qed.

(** The end of the free space. *)
Lemma sstrend_run s a t : good s a ->
  sstrend s = padd (start a) (g_stacknleft s) /\ (building (ms_mem s) a t -> Z.of_nat (length t) <= g_stacknleft s).
Proof.
  intros [(b & E & _ & _ & He & Hlf) _ _]. rewrite He, Hlf. unfold padd, start. cbn [fst snd]. split; [f_equal; lia|].
  intros (c & Ec & Hl & _). rewrite E in Ec. injection Ec as <-. lia.
Qed.

Lemma runs_text {A} s a t (Q : A -> mstack -> arena -> Prop) (m : unit -> M mstack A) min :
  good s a -> building (ms_mem s) a t -> 0 <= min < 2 ^ 31 ->
  (forall s' a', later s a s' a' -> building (ms_mem s') a' t -> g_stacknleft s < g_stacknleft s' -> min <= g_stacknleft s' ->
     runs s' a' Q (m tt)) ->
  runs s a Q (bind (growstackblock enough garbage min) m).
Proof.
  intros Hg Hb Hm Hk. eapply runs_seq; [by apply (runs_growstackblock s a t)|]. intros [] s' a' Hl (H1 & H2 & H3). by apply Hk.
Qed.

Lemma runs_stackblock s a (k : Z) (Q : ptr -> mstack -> arena -> Prop) : good s a -> Q (padd (start a) k) s a ->
  runs s a Q (let! p := stackblock in ret (padd p k)).
Proof. intros Hg HQ. apply (runs_first _ _ _ _ _ (start a)); [|by apply runs_done]. unfold stackblock, get. by rewrite (g_stacknxt_run s a). Qed.

Lemma runs_makestrspace s a t p n : good s a -> text s a t p -> 0 <= n -> Z.of_nat (length t) + n < 2 ^ 31 ->
  runs s a (fun q s' a' => text s' a' t q /\ Z.of_nat (length t) + n <= g_stacknleft s') (makestrspace enough garbage n p).
Proof.
  intros Hg [Hb ->] H0 Hn. unfold makestrspace. apply (runs_first _ _ _ _ _ (start a)); [unfold get; by rewrite (g_stacknxt_run s a)|].
  assert (pdiff (cur a t) (start a) = Z.of_nat (length t)) as Hp by (unfold pdiff, cur, padd; cbn; lia).
  cbv zeta. rewrite Hp, wrapU_id by (unfold is_u; lia). set (len := Z.of_nat (length t)) in *.
  apply (runs_seq _ _ (fun q s' a' => building (ms_mem s') a' t /\ q = start a' /\ len + n <= g_stacknleft s')).
  - unfold growstackto. apply (runs_first _ _ _ _ _ (g_stacknleft s)); [done|].
    destruct (Z.ltb_spec (g_stacknleft s) (len + n)).
    + eapply (runs_text _ _ t); [done..|lia|]. intros s' a' [Hg' _ _ _ _ _] Hb' _ Hn'.
      eapply runs_ok; [unfold stackblock, get; by rewrite (g_stacknxt_run s' a')|by apply later_refl|done].
    + apply (runs_first _ _ _ _ _ tt); [done|].
      eapply runs_ok; [unfold stackblock, get; by rewrite (g_stacknxt_run s a)|by apply later_refl|done].
  - intros q s' a' [Hg' _ _ _ _ _] (Hb' & -> & Hl'). by apply runs_done.
Qed.

Lemma runs_put s a t u p : good s a -> text s a t p -> Z.of_nat (length t + length u) <= g_stacknleft s ->
  runs s a (fun q s' a' => text s' a' (t ++ u) q /\ g_stacknleft s' = g_stacknleft s)
    (let! _ := store p u in ret (padd p (Z.of_nat (length u)))).
Proof.
  intros Hg [Hb ->] Hl. eapply runs_seq; [by apply runs_store|]. intros [] s' a' [Hg' _ _ _ _ _] (-> & Hlf & Hb'). apply runs_done; [done|].
  split; [|done]. split; [done|]. unfold cur, padd. cbn. rewrite length_app, Nat2Z.inj_add. f_equal. lia.
Qed.

Lemma runs_stnputs s a t u p : good s a -> text s a t p -> Z.of_nat (length t) + Z.of_nat (length u) < 2 ^ 31 ->
  runs s a (goes_on (t ++ u)) (stnputs enough garbage u p).
Proof.
  intros Hg Ht Hu. unfold stnputs. eapply runs_seq; [apply (runs_makestrspace _ _ t); [done..|lia|done]|].
  intros q s' a' [Hg' _ _ _ _ _] (Ht' & Hl'). eapply runs_weaken; [eapply runs_put; [done..|lia]|]. by intros ? ? ? ? [H _].
Qed.

Lemma runs_room s a t p : good s a -> text s a t p ->
  runs s a (fun q s' a' => text s' a' t q /\ Z.of_nat (length t) < g_stacknleft s') (room enough garbage p).
Proof.
  intros Hg [Hb ->]. destruct (sstrend_run s a t Hg) as [He Hle]. specialize (Hle Hb).
  unfold room. apply (runs_first _ _ _ _ _ (sstrend s)); [done|]. rewrite He. destruct (bool_decide_reflect (cur a t = padd (start a) (g_stacknleft s))) as [Heq|Hne].
  - assert (g_stacknleft s = Z.of_nat (length t)) as Hlf by (unfold cur, padd in Heq; injection Heq; lia).
    unfold growstackstr. apply (runs_first _ _ _ _ _ (g_stacknleft s)); [done|].
    eapply (runs_text _ _ t); [done..|lia|]. intros s' a' [Hg' _ _ _ _ _] Hb' Hgt _. rewrite Hlf in *. by apply runs_stackblock.
  - apply runs_done; [done|]. split; [done|]. assert (Z.of_nat (length t) <> g_stacknleft s); [|lia].
    intros H. apply Hne. unfold cur. by rewrite H.
Qed.

Lemma runs_STPUTC s a t c p : good s a -> text s a t p -> runs s a (goes_on (t ++ [c])) (STPUTC enough garbage c p).
Proof.
  intros Hg Ht. unfold STPUTC. eapply runs_seq; [by apply (runs_room _ _ t)|]. intros q s' a' [Hg' _ _ _ _ _] [Ht' Hl'].
  eapply runs_weaken; [apply (runs_put s' a' t [c]); [done..|cbn [length]; lia]|]. by intros ? ? ? ? [H _].
Qed.

Lemma runs_STACKSTRNUL s a t p : good s a -> text s a t p ->
  runs s a (fun q s' a' => building (ms_mem s') a' (t ++ [NUL]) /\ q = cur a' t) (STACKSTRNUL enough garbage p).
Proof.
  intros Hg Ht. unfold STACKSTRNUL. eapply runs_seq; [by apply (runs_room _ _ t)|]. intros q s' a' [Hg' _ _ _ _ _] [[Hb' ->] Hl'].
  eapply runs_seq; [eapply (runs_store s' a' t [NUL]); [done..|cbn [length]; lia]|]. intros [] s2 a2 [Hg2 _ _ _ _ _] (-> & _ & Hb2).
  by apply runs_done.
Qed.

Lemma runs_CHECKSTRSPACE s a t n p : good s a -> text s a t p -> 0 <= n -> Z.of_nat (length t) + n < 2 ^ 31 ->
  runs s a (fun q s' a' => text s' a' t q /\ Z.of_nat (length t) + n <= g_stacknleft s') (CHECKSTRSPACE enough garbage n p).
Proof.
  intros Hg Ht H0 Hn. unfold CHECKSTRSPACE. apply (runs_first _ _ _ _ _ (sstrend s)); [done|].
  destruct (sstrend_run s a t Hg) as [He _]. destruct (Z.ltb_spec (pdiff (sstrend s) p) n) as [Hlt|Hge]; [by apply (runs_makestrspace _ _ t)|].
  apply runs_done; [done|]. split; [done|]. destruct Ht as [_ ->]. rewrite He in Hge. unfold pdiff, cur, padd in Hge. cbn in Hge. lia.
Qed.

Lemma runs_USTPUTS s a t u p : good s a -> text s a t p -> Z.of_nat (length t) + Z.of_nat (length u) <= g_stacknleft s ->
  runs s a (goes_on (t ++ u)) (USTPUTS u p).
Proof.
  revert s a t p. induction u as [|c u IH]; intros s a t p Hg Ht Hl; cbn [USTPUTS].
  - apply runs_done; [done|]. by rewrite app_nil_r.
  - cbn [length] in Hl. eapply runs_seq; [eapply (runs_put s a t [c]); [done..|cbn [length]; lia]|].
    intros q s' a' [Hg' _ _ _ _ _] [Ht' Hlf]. rewrite (app_assoc t [c] u : t ++ c :: u = _). apply IH; [done..|].
    rewrite length_app. cbn [length]. lia.
Qed.

(** ** Objects *)

Lemma SHELL_ALIGN_nat n : 0 <= n <= 2 ^ 32 - 8 -> Z.of_nat (Z.to_nat (SHELL_ALIGN n)) = SHELL_ALIGN n.
Proof. intros Hn. pose proof (SHELL_ALIGN_bounds n Hn). lia. Qed.

(** Taking space that is there. *)
Lemma later_take s a b n : good s a -> ms_mem s !! a_top a = Some b -> 0 <= n <= 2 ^ 32 - 8 ->
  Z.of_nat (a_off a) + SHELL_ALIGN n <= Z.of_nat (length b) -> later s a (take_space s n) (taken n a).
Proof.
  intros Hg E Hn Hl. pose proof (SHELL_ALIGN_nat n Hn) as Hnat. pose proof (SHELL_ALIGN_bounds n Hn) as (_ & H8 & _).
  unfold take_space. rewrite <- Hnat. apply (later_advance s a b); [done..|by rewrite Hnat|lia].
Qed.

Lemma ext_taken n a : 0 <= n <= 2 ^ 32 - 8 -> 0 < n \/ a_top a = stackbase \/ a_off a <> 0%nat -> ext a (taken n a).
Proof.
  intros Hn H. pose proof (SHELL_ALIGN_nat n Hn). pose proof (SHELL_ALIGN_bounds n Hn) as (H1 & _ & _).
  exists []. split; [done|]. intros _. cbn. split; [lia|]. destruct H as [H|[H|H]]; [right; lia|by left|right; lia].
Qed.

Lemma building_bytes (mem : gmap nat cstr) a t : building mem a t -> bytes mem (start a) t.
Proof. intros (b & E & _ & Ht). exists b. cbn. by rewrite Nat2Z.id. Qed.

(** The text under construction becomes an object. *)
Lemma made_here s a s1 a0 t : later s a s1 a0 -> building (ms_mem s1) a0 t -> t <> [] -> Z.of_nat (length t) <= 2 ^ 32 - 8 ->
  later s1 a0 (take_space s1 (Z.of_nat (length t))) (taken (Z.of_nat (length t)) a0) ->
  made s a t (start a0) (take_space s1 (Z.of_nat (length t))) (taken (Z.of_nat (length t)) a0).
Proof.
  intros Hl Hb Hne Hlt H. exists s1, a0. split_and!; [done..| |done| |by apply building_bytes].
  - apply ext_taken; [lia|left]. destruct t; [done|cbn; lia].
  - split; [cbn; lia|right]. cbn. pose proof (SHELL_ALIGN_bounds (Z.of_nat (length t)) ltac:(lia)). split; [done|lia].
Qed.

Lemma good_left s a b : good s a -> ms_mem s !! a_top a = Some b -> g_stacknleft s = Z.of_nat (length b) - Z.of_nat (a_off a).
Proof. intros [(c & Ec & _ & _ & _ & Hlf) _ _] E. rewrite E in Ec. by injection Ec as <-. Qed.

Lemma left_max s a : good s a -> g_stacknleft s <= 2 ^ 32 - 8.
Proof. intros Hg. destruct (good_block _ _ Hg) as (b & E & Ho & [k Hk] & H32). rewrite (good_left _ _ _ Hg E). lia. Qed.

Lemma runs_grabstackstr s a t p : good s a -> text s a t p -> t <> [] ->
  runs s a (made s a t) (grabstackstr enough garbage p).
Proof.
  intros Hg [Hb ->] Hne. destruct (good_block _ _ Hg) as (b & E & _). pose proof (good_left _ _ _ Hg E) as Hlf.
  pose proof (left_max _ _ Hg). destruct (sstrend_run s a t Hg) as [_ Hle]. specialize (Hle Hb).
  unfold grabstackstr. apply (runs_first _ _ _ _ _ (start a)); [unfold stackblock, get; by rewrite (g_stacknxt_run s a)|].
  assert (pdiff (cur a t) (start a) = Z.of_nat (length t)) as -> by (unfold pdiff, cur, padd; cbn; lia).
  destruct (stalloc_here s a b (Z.of_nat (length t)) Hg E ltac:(lia)) as [Hst Hfit].
  assert (later s a (take_space s (Z.of_nat (length t))) (taken (Z.of_nat (length t)) a)) as Hl by (apply (later_take _ _ b); [done..|lia|done]).
  eapply runs_ok; [exact Hst|exact Hl|]. apply made_here; [by apply later_refl|done|done|lia|done].
Qed.

(** [store] commutes with taking the space it writes to. *)
Lemma runs_stdup s a t : good s a -> t <> [] -> Z.of_nat (length t) <= 2 ^ 32 - 8 ->
  runs s a (made s a t) (stdup enough garbage t).
Proof.
  intros Hg Hne Hlt. unfold stdup. set (n := Z.of_nat (length t)) in *.
  assert (forall s1 a1 b, later s a s1 a1 -> ms_mem s1 !! a_top a1 = Some b -> Z.of_nat (a_off a1) + SHELL_ALIGN n <= Z.of_nat (length b) ->
    stalloc n s = Ok (take_space s1 n) (start a1) -> runs s a (made s a t) (let! p := stalloc n in store p t ;; ret p)) as Hrun.
  { intros s1 a1 b Hl E Hfit Hst. pose proof Hl as [Hg1 _ _ _ _ _]. pose proof (SHELL_ALIGN_bounds n ltac:(lia)) as (Hn & _ & _).
    set (b' := put_at b (a_off a1) t). set (s2 := set_mem (<[a_top a1 := b']> (ms_mem s1)) s1).
    assert (length b' = length b) as Hlen by (apply put_at_length; lia).
    assert (ms_mem s2 !! a_top a1 = Some b') as E2 by (cbn; by rewrite lookup_insert_eq).
    assert (later s1 a1 s2 a1) as Hl2 by (apply (later_write _ _ b' b); [done..|apply put_at_before; lia]).
    assert (building (ms_mem s2) a1 t) as Hb2.
    { exists b'. split_and!; [done|lia|]. apply put_at_at. lia. }
    assert (later s2 a1 (take_space s2 n) (taken n a1)) as Hl3 by (apply (later_take _ _ b'); [by destruct Hl2|done|lia|lia]).
    eapply runs_ok; [|eapply later_trans; [exact Hl|eapply later_trans; [exact Hl2|exact Hl3]]|].
    - rewrite (bind_run _ _ _ _ _ Hst). erewrite bind_run; [reflexivity|]. unfold start.
      rewrite (store_run _ _ _ _ b) by (done || lia). rewrite Nat2Z.id. done.
    - apply made_here; [by eapply later_trans|done|done|lia|done]. }
  destruct (good_block _ _ Hg) as (b & E & Ho & _).
  destruct (Z.le_gt_cases (SHELL_ALIGN n) (Z.of_nat (length b) - Z.of_nat (a_off a))) as [Hle|Hgt].
  - pose proof (SHELL_ALIGN_bounds n ltac:(lia)). destruct (stalloc_here s a b n Hg E ltac:(lia)) as [Hst Hfit].
    apply (Hrun s a b); [by apply later_refl|done..].
  - destruct (stalloc_new s a b n Hg E ltac:(lia) Hgt) as [[He Hst]|(nb & H8 & H32 & Hle & Hst)].
    + eapply runs_raise; [done|by apply bind_raise|by left].
    + apply (Hrun (with_block s nb) (new_arena (ms_next s) a 0) nb); [by apply later_with_block| |done|done].
      cbn. by rewrite lookup_insert_eq.
Qed.

(** ** Marks *)

(** Where the stack goes on after [stalloc]. *)
Lemma runs_stalloc s a n : good s a -> 0 <= n <= 2 ^ 32 - 8 ->
  runs s a (fun _ s' a' => agree (ms_mem s) (ms_mem s') a /\
      (0 < n \/ a_top a = stackbase \/ a_off a <> 0%nat -> ext a a') /\
      (n <= g_stacknleft s -> a' = taken n a /\ s' = take_space s n)) (stalloc n).
Proof.
  intros Hg Hn. destruct (good_block _ _ Hg) as (b & E & Ho & _). pose proof (good_left _ _ _ Hg E) as Hlf.
  destruct (Z.le_gt_cases (SHELL_ALIGN n) (Z.of_nat (length b) - Z.of_nat (a_off a))) as [Hle|Hgt].
  - pose proof (SHELL_ALIGN_bounds n ltac:(lia)). destruct (stalloc_here s a b n Hg E ltac:(lia)) as [Hst Hfit].
    eapply runs_ok; [exact Hst|by apply (later_take _ _ b)|]. split_and!; [by apply agree_refl; destruct Hg|by apply ext_taken|done].
  - destruct (stalloc_new s a b n Hg E ltac:(lia) Hgt) as [[He Hst]|(nb & H8 & H32 & Hle & Hst)]; [eapply runs_raise; [done..|by left]|].
    pose proof (later_with_block s a nb Hg H8 H32) as Hl.
    assert (forall i, is_Some (ms_mem s !! i) -> ms_mem (with_block s nb) !! i = ms_mem s !! i) as Hsame.
    { intros i Hi. cbn. rewrite lookup_insert_ne; [done|]. intros <-. destruct Hg as [_ _ Hf]. pose proof (Hf _ Hi). lia. }
    eapply runs_ok; [exact Hst|eapply later_trans; [exact Hl|]|].
    + apply (later_take _ _ nb); [by destruct Hl|cbn; by rewrite lookup_insert_eq|done|cbn; lia].
    + split_and!.
      * change (agree (ms_mem s) (ms_mem (with_block s nb)) a). destruct Hg as [_ [Hbl _ _ _] _]. unfold chain in Hbl.
        apply Forall_cons in Hbl as [_ Hbl]. split.
        -- rewrite Forall_forall in *. intros i Hi. destruct (Hbl i Hi) as (c & Hc & _). apply Hsame. by exists c.
        -- exists b, b. rewrite Hsame by (by exists b). done.
      * intros _. exists [ms_next s]. done.
      * intros Hfit. exfalso. destruct (good_block _ _ Hg) as (b' & E' & _ & H8' & H32'). rewrite E in E'. injection E' as <-.
        assert (SHELL_ALIGN n <= Z.of_nat (length b) - Z.of_nat (a_off a)); [|lia].
        apply SHELL_ALIGN_fits; [lia|lia|]. apply Z.divide_sub_r; [done|]. by destruct Hg as [_ [_ _ Ha _] _].
Qed.

Lemma runs_pushstackmark s a n : good s a -> 0 <= n <= 2 ^ 32 - 8 ->
  runs s a (fun mk s' a' => marks (ms_mem s) a mk /\ agree (ms_mem s) (ms_mem s') a /\
      (0 < n \/ a_top a = stackbase \/ a_off a <> 0%nat -> ext a a') /\
      (n <= g_stacknleft s -> a' = taken n a /\ s' = take_space s n)) (pushstackmark enough garbage n).
Proof.
  intros Hg Hn. destruct (good_block _ _ Hg) as (b & E & Ho & _). pose proof (good_left _ _ _ Hg E) as Hlf.
  unfold pushstackmark. apply (runs_first _ _ _ _ _ _ (g_stackp_run _ _ Hg)).
  apply (runs_first _ _ _ _ _ (mark_of a (length b))); [unfold get, mark_of; by rewrite (g_stacknxt_run s a), Hlf|].
  eapply runs_seq; [by apply runs_stalloc|]. intros _ s' a' [Hg' _ _ _ _ _] H. apply runs_done; [done|]. split; [by exists b|done].
Qed.

Lemma runs_setstackmark s a : good s a ->
  runs s a (fun mk s' a' => marks (ms_mem s) a mk /\ agree (ms_mem s) (ms_mem s') a /\ ext a a') (setstackmark enough garbage).
Proof.
  intros Hg. unfold setstackmark. apply (runs_first _ _ _ _ _ _ (at_block_start_run _ _ Hg)).
  eapply runs_weaken; [apply runs_pushstackmark; [done|]|].
  - destruct (_ && _); cbn; lia.
  - cbn. intros mk s' a' _ (Hm & Ha & Hx & _). split_and!; [done..|]. apply Hx.
    destruct (bool_decide_reflect (a_off a = 0%nat)), (bool_decide_reflect (a_top a = stackbase)); auto; by left.
Qed.

(** ** Going back *)

Lemma delete_all_ne l mem i : i ∉ l -> delete_all l mem !! i = mem !! i.
Proof.
  revert mem. induction l as [|b l IH]; intros mem Hi; [done|]. apply not_elem_of_cons in Hi as [Hb Hi]. cbn. unfold delete_all in IH.
  rewrite IH by done. by rewrite lookup_delete_ne.
Qed.

Lemma delete_all_some l mem i : is_Some (delete_all l mem !! i) -> is_Some (mem !! i).
Proof.
  revert mem. induction l as [|b l IH]; intros mem Hi; [done|]. cbn in Hi. apply IH in Hi as [c Hc]. apply lookup_delete_Some in Hc as [_ Hc].
  by exists c.
Qed.

Lemma free_to_run pre top below mem : NoDup (pre ++ top :: below) ->
  free_to (pre ++ top :: below) top mem = Some (top :: below, delete_all pre mem).
Proof.
  revert mem. induction pre as [|b pre IH]; intros mem Hn; cbn [app free_to].
  - by rewrite bool_decide_true.
  - cbn [app] in Hn. apply NoDup_cons in Hn as [Hb Hn]. rewrite bool_decide_false, IH by (done || (intros ->; apply Hb, elem_of_app; right; left)). done.
Qed.

(** Freeing blocks that are not of the stack [a0] that the globals go back to. *)
Lemma back_to s a a0 l b :
  fresh_ok s -> arena_ok (ms_mem s) a0 -> ms_mem s !! a_top a0 = Some b -> (forall i, i ∈ l -> i ∈ chain a /\ i ∉ chain a0) ->
  back s a a0 (mk_ms (delete_all l (ms_mem s)) (ms_next s) (chain a0) (start a0) (a_top a0, Z.of_nat (length b)) (Z.of_nat (length b) - Z.of_nat (a_off a0))).
Proof.
  intros Hf Hok E Hl.
  assert (forall i, i ∈ chain a0 -> delete_all l (ms_mem s) !! i = ms_mem s !! i) as Hsame.
  { intros i Hi. apply delete_all_ne. intros Hi'. by apply Hl in Hi' as [_ ?]. }
  constructor; cbn [ms_mem ms_next]; [|..|done|].
  - constructor; [..|].
    + exists b. cbn. rewrite Hsame by left. by split_and!.
    + eapply arena_ok_keep; [exact Hok|]. intros i c Hi Hc. exists c. cbn. by rewrite Hsame.
    + intros i Hi. apply Hf. by eapply delete_all_some.
  - by apply Forall_forall.
  - intros i Hi. apply delete_all_ne. intros Hi'. by apply Hl in Hi' as [? _].
Qed.

Lemma popstackmark_run s a a0 mk pre : good s a -> chain a = pre ++ chain a0 -> arena_ok (ms_mem s) a0 -> marks (ms_mem s) a0 mk ->
  exists s', popstackmark mk s = Ok s' tt /\ back s a a0 s'.
Proof.
  intros Hg Hch Hok (b & E & ->). pose proof Hg as [(c & _ & Hs & _) [_ Hn _ _] Hf]. rewrite Hch in Hn.
  eexists. split; [|apply (back_to s a a0 pre b); [done..|]].
  - unfold popstackmark. rewrite bind_get, Hs, Hch. unfold chain at 1. rewrite free_to_run by done.
    unfold mark_of, padd, start. cbn. unfold bind, modify, set_mem, set_stack, chain, start. cbn. do 3 f_equal. lia.
  - intros i Hi. rewrite Hch. split; [apply elem_of_app; by left|]. apply NoDup_app in Hn as (_ & Hn & _). by apply Hn.
Qed.

Lemma leave_arena_run s a a1 sv : good s a -> arena_ok (ms_mem s) a1 -> saves (ms_mem s) a1 sv -> (forall i, i ∈ chain a -> i ∉ chain a1) ->
  exists s', leave_arena sv s = Ok s' tt /\ back s a a1 s'.
Proof.
  intros Hg Hok (b & E & ->) Hd. pose proof Hg as [(c & _ & Hs & _) _ Hf].
  eexists. split; [|apply (back_to s a a1 (chain a) b); [done..|]].
  - unfold leave_arena. rewrite bind_modify, Hs. done.
  - intros i Hi. split; [done|by apply Hd].
Qed.

(** A fresh stack of one block. *)
Lemma enter_arena_run s a : good s a ->
  enter_arena enough garbage s = Raise s DIED /\ starved \/
  exists s' sv id, enter_arena enough garbage s = Ok s' sv /\ saves (ms_mem s) a sv /\ good s' (mk_ar id [] 0) /\
    id = ms_next s /\ forall i, (i < id)%nat -> ms_mem s' !! i = ms_mem s !! i.
Proof.
  intros Hg. pose proof Hg as [(b & E & Hs & Hnx & He & Hlf) Hok Hf]. unfold enter_arena. rewrite bind_get, Hs, Hnx, He, Hlf. unfold ckmalloc.
  destruct (enough s (HEADER + MINSIZE)) eqn:Hen.
  2: { left. split; [|by exists s, (HEADER + MINSIZE)]. unfold bind, get. by rewrite Hen. }
  right. set (id := ms_next s). set (nb := new_space id MINSIZE).
  exists (mk_ms (<[id := nb]> (ms_mem s)) (S id) [id] (id, 0) (id, MINSIZE) MINSIZE). do 2 eexists.
  assert (Z.of_nat (length nb) = MINSIZE) as Hlen by (by apply new_space_length).
  split_and!; [|exists b; split; [exact E|reflexivity]| |reflexivity|].
  - unfold bind, get, modify, ret. rewrite Hen. unfold set_stack. cbn. done.
  - constructor; [exists nb|constructor|].
    + cbn. rewrite lookup_insert_eq, Hlen. by split_and!.
    + constructor; [|by constructor]. exists nb. unfold block. cbn. rewrite lookup_insert_eq, Hlen. split_and!; [done|by exists 63|done].
    + by apply NoDup_singleton.
    + by exists 0.
    + exists nb. cbn. rewrite lookup_insert_eq. split; [done|lia].
    + intros i. cbn. destruct (decide (i = id)) as [->|Hne]; [intros _; apply Nat.lt_succ_diag_r|]. rewrite lookup_insert_ne by done.
      intros Hi. apply Hf in Hi. fold id in Hi. lia.
  - intros i Hi. cbn. rewrite lookup_insert_ne; [done|lia].
Qed.

(** ** A client *)

(** ** What is held stays *)

Lemma building_taken mem a t : arena_ok mem a -> building mem a t ->
  Z.of_nat (length t) <= 2 ^ 32 - 8 /\ arena_ok mem (taken (Z.of_nat (length t)) a) /\
  (a_off a + length t <= a_off (taken (Z.of_nat (length t)) a))%nat.
Proof.
  intros [Hb Hn Ha (b & E & Ho)] (c & Ec & Hl & _). rewrite E in Ec. injection Ec as <-. pose proof Hb as Hb'. unfold chain in Hb'.
  apply Forall_cons in Hb' as [(c & Ec & [k Hk] & H32) _]. rewrite E in Ec. injection Ec as <-.
  assert (Z.of_nat (length t) <= 2 ^ 32 - 8) as Hlt by lia. pose proof (SHELL_ALIGN_bounds (Z.of_nat (length t)) ltac:(lia)) as (H1 & H2 & _).
  pose proof (SHELL_ALIGN_nat (Z.of_nat (length t)) ltac:(lia)) as Hnat.
  assert (SHELL_ALIGN (Z.of_nat (length t)) <= Z.of_nat (length b) - Z.of_nat (a_off a)) as Hfit.
  { apply SHELL_ALIGN_fits; [lia|lia|]. apply Z.divide_sub_r; [by exists k|done]. }
  split_and!; [done| |cbn; lia]. constructor; [done|done| |].
  - cbn. rewrite Nat2Z.inj_add, Hnat. by apply Z.divide_add_r.
  - exists b. cbn. split; [done|lia].
Qed.

Lemma agree_taken mem mem' n a : agree mem mem' (taken n a) -> agree mem mem' a.
Proof.
  intros [H (b & b' & E & E' & Hl & Ht)]. split; [done|]. exists b, b'. split_and!; [done..|]. cbn in Ht.
  apply (f_equal (take (a_off a))) in Ht. rewrite !take_take, !Nat.min_l in Ht by lia. done.
Qed.

Lemma building_agree mem mem' a t : arena_ok mem a -> building mem a t -> agree mem mem' (taken (Z.of_nat (length t)) a) -> building mem' a t.
Proof.
  intros Hok Hb [_ (b & b' & E & E' & Hl & Ht)]. destruct (building_taken _ _ _ Hok Hb) as (_ & _ & Hoff). destruct Hb as (c & Ec & Hlen & Hc).
  cbn in E, E', Hoff, Ht. rewrite E in Ec. injection Ec as <-. exists b'. split_and!; [done|lia|].
  rewrite <- (take_drop_take b' _ _ (a_off a + Z.to_nat (SHELL_ALIGN (Z.of_nat (length t))))), Ht, take_drop_take by lia. done.
Qed.

Lemma marks_agree mem mem' a mk : agree mem mem' a -> marks mem a mk -> marks mem' a mk.
Proof. intros [_ (b & b' & E & E' & Hl & _)] (c & Ec & ->). rewrite E in Ec. injection Ec as <-. exists b'. by rewrite Hl. Qed.

Lemma arena_ok_agree mem mem' a : agree mem mem' a -> arena_ok mem a -> arena_ok mem' a.
Proof.
  intros [H (b & b' & E & E' & Hl & _)] Hok. eapply arena_ok_keep; [done|]. intros i c Hi Hc. apply elem_of_cons in Hi as [->|Hi].
  - rewrite E in Hc. injection Hc as <-. by exists b'.
  - rewrite Forall_forall in H. exists c. by rewrite H.
Qed.

Lemma agree_all mem mem' a : arena_ok mem a -> Forall (fun i => mem' !! i = mem !! i) (chain a) -> agree mem mem' a.
Proof. intros [_ _ _ (b & E & _)] H. apply Forall_cons in H as [H1 H2]. split; [done|]. exists b, b. by rewrite H1. Qed.

Lemma saves_same (mem mem' : gmap nat cstr) a sv : mem' !! a_top a = mem !! a_top a -> saves mem a sv -> saves mem' a sv.
Proof. intros H (b & E & ->). exists b. by rewrite H. Qed.

(** Memory that agrees with the stack, and is the same below [lo]. *)
Lemma held_agree mem mem' lo a l : held mem lo a l -> arena_ok mem a -> agree mem mem' a ->
  (forall i, (i < lo)%nat -> mem' !! i = mem !! i) -> held mem' lo a l.
Proof.
  induction 1 as [|lo a a0 t l Hx Hok Hne Hobj Hl IH|lo a a0 mk t l Hx Hok Hb Hm Hl IH|lo lo1 a a0 mk sv t l Hok Hb Hm Hs Hr Hl IH]; intros Ha Hag Hlo.
  - constructor.
  - pose proof (agree_ext _ _ _ _ Ha Hag Hx) as Hag0. constructor; [done|by eapply arena_ok_agree|done|by eapply obj_agree|by apply IH].
  - pose proof (agree_ext _ _ _ _ Ha Hag Hx) as Hag1. pose proof (agree_taken _ _ _ _ Hag1) as Hag0.
    constructor; [done|by eapply arena_ok_agree|by eapply building_agree|by eapply marks_agree|by apply IH].
  - assert (Forall (fun i => mem' !! i = mem !! i) (chain a0)) as Hsame by (eapply Forall_impl; [exact Hr|]; cbn; intros i [_ Hi]; by apply Hlo).
    destruct (building_taken _ _ _ Hok Hb) as (_ & Hok1 & _).
    pose proof (agree_all _ _ _ Hok Hsame) as Hag0. pose proof (agree_all _ _ (taken (Z.of_nat (length t)) a0) Hok1 Hsame) as Hag1.
    econstructor; [by eapply arena_ok_agree|by eapply building_agree|by eapply marks_agree| |done|].
    + eapply saves_same; [|done]. by apply Forall_cons in Hsame as [? _].
    + apply IH; [done..|]. intros i Hi. apply Hlo. apply Forall_cons in Hr as [Hr _]. lia.
Qed.

Lemma above_next s a lo i : good s a -> above lo a -> (i < lo)%nat -> (i < ms_next s)%nat /\ i ∉ chain a.
Proof.
  intros [(b & E & _) _ Hf] Hab Hi. split.
  - assert (is_Some (ms_mem s !! a_top a)) as Hs by (by exists b). apply Hf in Hs. apply Forall_cons in Hab as [? _]. lia.
  - intros H. unfold above in Hab. rewrite Forall_forall in Hab. apply Hab in H. lia.
Qed.

Lemma above_later s a s' a' lo : good s a -> later s a s' a' -> above lo a -> above lo a'.
Proof.
  intros Hg [_ _ Hc _ _ _] Hab. apply Forall_forall. intros i Hi. destruct (Hc i Hi) as [H|H].
  - unfold above in Hab. rewrite Forall_forall in Hab. by apply Hab.
  - destruct (decide (lo <= i)%nat) as [|Hn]; [done|]. destruct (above_next s a lo i Hg Hab ltac:(lia)). lia.
Qed.

Lemma above_ext a0 a lo : ext a0 a -> above lo a -> above lo a0.
Proof. intros (pre & Hch & _) Hab. unfold above in *. rewrite Hch in Hab. by apply Forall_app in Hab as [_ ?]. Qed.

(** The client goes on. *)
Lemma held_later s a s' a' lo l : good s a -> above lo a -> later s a s' a' -> held (ms_mem s) lo a l -> held (ms_mem s') lo a' l.
Proof.
  intros Hg Hab Hl. pose proof Hl as [Hg' _ _ Hsame Hlive Hext]. assert (forall i, (i < lo)%nat -> ms_mem s' !! i = ms_mem s !! i) as Hlo.
  { intros i Hi. destruct (above_next s a lo i Hg Hab Hi). by apply Hsame. }
  destruct 1 as [|lo a a0 t l Hx Hok Hne Hobj Hh|lo a a0 mk t l Hx Hok Hb Hm Hh|lo lo1 a a0 mk sv t l Hok Hb Hm Hs Hr Hh].
  - constructor.
  - destruct (Hext a0 Hx) as [Hx' Hag0]. constructor; [done|by eapply arena_ok_agree|done|by apply Hlive|by eapply held_agree].
  - destruct (Hext _ Hx) as [Hx' Hag1]. pose proof (agree_taken _ _ _ _ Hag1) as Hag0.
    constructor; [done|by eapply arena_ok_agree|by eapply building_agree|by eapply marks_agree|by eapply held_agree].
  - assert (Forall (fun i => ms_mem s' !! i = ms_mem s !! i) (chain a0)) as Hsm by (eapply Forall_impl; [exact Hr|]; cbn; intros i [_ Hi]; by apply Hlo).
    pose proof (h_nest (ms_mem s) lo lo1 a a0 mk sv t l Hok Hb Hm Hs Hr Hh) as Hall.
    destruct (building_taken _ _ _ Hok Hb) as (_ & Hok1 & _).
    pose proof (agree_all _ _ _ Hok Hsm) as Hag0. pose proof (agree_all _ _ (taken (Z.of_nat (length t)) a0) Hok1 Hsm) as Hag1.
    econstructor; [by eapply arena_ok_agree|by eapply building_agree|by eapply marks_agree| |done|].
    + eapply saves_same; [|done]. by apply Forall_cons in Hsm as [? _].
    + eapply held_agree; [done..|]. intros i Hi. apply Hlo. apply Forall_cons in Hr as [Hr _]. lia.
Qed.

Lemma ext_trans a0 a1 a2 : ext a0 a1 -> ext a1 a2 -> ext a0 a2.
Proof.
  intros (p1 & H1 & E1) (p2 & H2 & E2). exists (p2 ++ p1). split; [by rewrite H2, H1, app_assoc|]. intros Hn.
  apply app_nil in Hn as [-> ->]. destruct (E1 eq_refl) as [Ho _], (E2 eq_refl) as [Ho2 Hp2]. split; [lia|done].
Qed.

Lemma obj_ext mem a0 a o : arena_ok mem a0 -> ext a0 a -> obj_ok mem a0 o -> obj_ok mem a o.
Proof.
  intros [_ _ _ (b & E & Hb)] (pre & Hch & Hpre) Ho Hne. destruct (Ho Hne) as [[H0 Hl] Hby]. split; [|done]. split; [done|].
  destruct pre as [|x pre]; unfold chain in Hch; cbn [app] in Hch; injection Hch as Ht Hbel.
  - destruct (Hpre eq_refl) as [Hoff _]. rewrite Ht, Hbel. destruct Hl as [Hl|[Hl Hlo]]; [by left|right]. split; [done|lia].
  - left. rewrite Hbel. destruct Hl as [[Hin Hl]|[Hl Hlo]].
    + split; [apply elem_of_app; right; by right|done].
    + split; [apply elem_of_app; right; rewrite Hl; left|]. exists b. rewrite Hl. split; [done|lia].
Qed.

(** Older things are still there when a mark is dropped. *)
Lemma held_ext mem lo a0 a l : arena_ok mem a0 -> ext a0 a -> held mem lo a0 l -> held mem lo a l.
Proof.
  intros Hok0 Hx0. destruct 1 as [|lo a' a1 t l Hx Hok Hne Hobj Hh|lo a' a1 mk t l Hx Hok Hb Hm Hh|lo lo1 a' a1 mk sv t l Hok Hb Hm Hs Hr Hh].
  - constructor.
  - constructor; [by eapply ext_trans|done|done|by apply (obj_ext _ a')|done].
  - constructor; [by eapply ext_trans|done..].
  - by econstructor.
Qed.

(** Objects can be read. *)
Lemma held_reads s lo a l q t : held (ms_mem s) lo a l -> arena_ok (ms_mem s) a -> IObj q t ∈ l -> load q (length t) s = Ok s t.
Proof.
  intros Hh. remember (ms_mem s) as mem eqn:Hmem. revert Hmem.
  induction Hh as [|lo a a0 u l Hx Hok Hne Hobj Hl IH|lo a a0 mk u l Hx Hok Hb Hm Hl IH|lo lo1 a a0 mk sv u l Hok Hb Hm Hs Hr Hl IH]; intros Hmem Ha Hin.
  - by apply elem_of_nil in Hin.
  - apply elem_of_cons in Hin as [[= -> ->]|Hin]; [|by apply IH]. destruct (Hobj Hne) as [[H0 Hlive] (b & E & Hb)]. cbn [fst snd] in *.
    assert (start a0 = ((start a0).1, (start a0).2)) as -> by done. rewrite (load_run _ _ _ _ b); [by rewrite Hb|by rewrite <- Hmem|done|].
    destruct Hlive as [[_ (c & Ec & Hc)]|[Ht Hc]].
    + rewrite E in Ec. injection Ec as <-. done.
    + destruct Ha as [_ _ _ (c & Ec & Hoff)]. rewrite Ht, Ec in E. injection E as <-. lia.
  - apply elem_of_cons in Hin as [[=]|Hin]. by apply IH.
  - apply elem_of_cons in Hin as [[=]|Hin]. by apply IH.
Qed.

(** ** Every legal operation is safe *)

Lemma text_nil s a : good s a -> text s a [] (g_stacknxt s).
Proof.
  intros Hg. split; [by eapply building_nil|]. rewrite (g_stacknxt_run s a Hg). unfold cur, padd, start. cbn. by rewrite Z.add_0_r.
Qed.

(** Operations that leave older things alone. *)
Lemma fine_on {A} c (m : M mstack A) k lo a (Q : A -> mstack -> arena -> Prop) :
  good (c_stack c) a -> above lo a -> held (ms_mem (c_stack c)) lo a (c_items c) -> runs (c_stack c) a Q m ->
  (forall x s' a', later (c_stack c) a s' a' -> Q x s' a' -> good s' a' -> above lo a' -> held (ms_mem s') lo a' (c_items c) -> inv (k x s')) ->
  fine (on c m k).
Proof.
  intros Hg Hab Hh Hr Hk. unfold on, AshStackSpec.fine, AshStackSpec.runs in *. destruct (m (c_stack c)) as [s' x|s' e|]; [| |done].
  - destruct Hr as (a' & Hl & HQ). apply (Hk x s' a'); [done|done|by destruct Hl|by apply (above_later (c_stack c) a s')|by apply (held_later (c_stack c) a s' a')].
  - destruct Hr as [Hw (a' & Hl)]. split; [done|right]. pose proof Hl as [Hg' _ _ _ _ _]. exists lo, a'.
    refine (conj _ (conj _ (conj _ _))); [done|by apply text_nil|by apply (above_later (c_stack c) a s')|by apply (held_later (c_stack c) a s' a')].
Qed.

Lemma inv_text c lo a (u : cstr) q s' : good s' a -> text s' a u q -> above lo a -> held (ms_mem s') lo a (c_items c) ->
  inv (mk_client s' q u (c_items c)).
Proof. intros. by exists lo, a. Qed.

(** Building the text. *)
Lemma fine_goes_on c lo a (m : M mstack ptr) u :
  good (c_stack c) a -> above lo a -> held (ms_mem (c_stack c)) lo a (c_items c) -> runs (c_stack c) a (goes_on u) m ->
  fine (on c m (fun q s => mk_client s q u (c_items c))).
Proof. intros Hg Hab Hh Hr. eapply fine_on; [done..|]. intros q s' a' _ Ht Hg' Hab' Hh'. by eapply inv_text. Qed.

(** Making an object. *)
Lemma fine_made c lo a (m : M mstack ptr) u :
  good (c_stack c) a -> above lo a -> held (ms_mem (c_stack c)) lo a (c_items c) -> u <> [] -> runs (c_stack c) a (made (c_stack c) a u) m ->
  fine (on c m (fun q s => mk_client s (g_stacknxt s) [] (IObj q u :: c_items c))).
Proof.
  intros Hg Hab Hh Hne Hr. eapply fine_on; [done..|]. intros q s' a' _ (s1 & a0 & Hl & Hm & Hx & -> & Hlive & Hby) Hg' Hab' _.
  exists lo, a'. refine (conj _ (conj _ (conj _ _))); [done|by apply text_nil|done|]. change (held (ms_mem s') lo a' (IObj (start a0) u :: c_items c)). rewrite <- Hm. constructor.
  - done.
  - by destruct Hl as [[_ ? _] _ _ _ _ _].
  - done.
  - intros _. rewrite Hm. by split.
  - by apply (held_later (c_stack c) a s1 a0).
Qed.

Lemma taken_0 a : taken 0 a = a.
Proof. destruct a as [t b o]. unfold taken, advance. cbn [a_top a_below a_off]. f_equal. change (SHELL_ALIGN 0) with 0. lia. Qed.

(** A mark keeps the text. *)
Lemma fine_mark c lo a (m : M mstack stackmark) q u :
  good (c_stack c) a -> above lo a -> held (ms_mem (c_stack c)) lo a (c_items c) -> text (c_stack c) a u q ->
  runs (c_stack c) a (fun mk s' a' => marks (ms_mem (c_stack c)) a mk /\ agree (ms_mem (c_stack c)) (ms_mem s') a /\
    ext (taken (Z.of_nat (length u)) a) a' /\ building (ms_mem s') a u) m ->
  fine (on c m (fun mk s => mk_client s (g_stacknxt s) [] (IMark mk q u :: c_items c))).
Proof.
  intros Hg Hab Hh [_ ->] Hr. eapply fine_on; [done..|]. intros mk s' a' Hl (Hm & Hag & Hx & Hb) Hg' Hab' _.
  pose proof Hg as [_ Hok _].
  exists lo, a'. refine (conj _ (conj _ (conj _ _))); [done|by apply text_nil|done|]. constructor; [done|by eapply arena_ok_agree|done|by eapply marks_agree|].
  eapply held_agree; [done..|]. intros i Hi. destruct (above_next _ _ _ _ Hg Hab Hi). destruct Hl as [_ _ _ Hs _ _]. by apply Hs.
Qed.

Lemma ext_taken_ext n a0 a : ext (taken n a0) a -> ext a0 a.
Proof. intros (pre & Hch & Hpre). exists pre. split; [done|]. intros Hp. destruct (Hpre Hp) as [Ho ?]. cbn in Ho. split; [lia|done]. Qed.

(** Going back to the stack [a0]. *)
Lemma inv_back s a a0 s' lo lo1 l t : back s a a0 s' -> arena_ok (ms_mem s) a0 -> building (ms_mem s) a0 t ->
  held (ms_mem s) lo a0 l -> above lo a0 -> above lo1 a -> (lo <= lo1)%nat -> inv (mk_client s' (cur a0 t) t l).
Proof.
  intros [Hg Hk _ Hs] Hok (b & E & Hl & Ht) Hh Hab Hab1 Hle. exists lo, a0. refine (conj _ (conj _ (conj _ _))); [done| |done|].
  - split; [|done]. exists b. apply Forall_cons in Hk as [Hk _]. cbn [c_stack]. by rewrite Hk.
  - eapply held_agree; [done|done|by apply agree_all|]. intros i Hi. apply Hs. intros Hin. unfold above in Hab1. rewrite Forall_forall in Hab1.
    apply Hab1 in Hin. lia.
Qed.

Lemma fine_ungrab c lo a q u l :
  good (c_stack c) a -> above lo a -> held (ms_mem (c_stack c)) lo a (IObj q u :: l) -> head (g_stack (c_stack c)) = Some q.1 ->
  fine (on c (stunalloc q) (fun _ s => mk_client s (padd q (Z.of_nat (length u))) u l)).
Proof.
  intros Hg Hab Hh Htop. pose proof Hg as [(b & E & Hs & Hnx & He & Hlf) Hok Hf]. rewrite Hs in Htop. injection Htop as Htop.
  inversion Hh as [|lo' a' a0 t' l' Hx Hok0 Hne Hobj Hh0| |]; subst; cbn [fst start] in Htop.
  assert (chain a = chain a0) as Hch.
  { destruct Hx as (pre & Hch & _). destruct pre as [|x pre]; [done|]. destruct Hok as [_ Hn _ _]. rewrite Hch in Hn.
    unfold chain in Hch at 1. injection Hch as Hx1 _. apply NoDup_cons in Hn as [Hn _]. exfalso. apply Hn, elem_of_app. right.
    rewrite <- Hx1, Htop. left. }
  assert (Hbel := f_equal tail Hch). cbn in Hbel.
  assert (a_off a0 <= a_off a)%nat as Hoff.
  { destruct Hx as (pre & Hch' & Hpre). rewrite <- Hch in Hch'. destruct pre as [|x pre]; [by destruct (Hpre eq_refl)|].
    apply (f_equal length) in Hch'. cbn in Hch'. rewrite length_app in Hch'. cbn in Hch'. lia. }
  pose proof (good_block _ _ Hg) as (b' & E' & Ho & _ & H32). rewrite E in E'. injection E' as <-.
  unfold on, stunalloc, modify, AshStackSpec.fine. exists lo, a0. refine (conj _ (conj _ (conj _ Hh0))).
  - constructor; [|exact Hok0|exact Hf]. exists b. rewrite <- Htop. cbn. refine (conj E (conj _ (conj _ (conj He _)))); [by rewrite Hs, Hch|by unfold start; rewrite Htop|].
    rewrite Hnx, Hlf. unfold pdiff, start. cbn. rewrite wrapU_id by (unfold is_u; lia). lia.
  - split; [|done]. destruct (Hobj Hne) as [[_ Hlive] (c' & Ec & Hc)]. cbn [fst snd start] in Hlive, Ec, Hc. rewrite Nat2Z.id in Hc.
    exists c'. cbn. split_and!; [done| |done]. rewrite <- Htop, E in Ec. injection Ec as <-.
    destruct Hlive as [[_ (d & Ed & Hd)]|[_ Hd]]; [|lia]. rewrite <- Htop, E in Ed. injection Ed as <-. lia.
  - unfold above. by rewrite <- Hch.
Qed.

Lemma fine_nest c lo a :
  good (c_stack c) a -> text (c_stack c) a (c_text c) (c_p c) -> above lo a -> held (ms_mem (c_stack c)) lo a (c_items c) ->
  fine (step ONest c).
Proof.
  destruct c as [s p t l]. cbn [c_stack c_text c_p c_items]. intros Hg [Hb ->] Hab Hh. cbn [AshStackSpec.step c_stack c_text c_p c_items].
  pose proof Hg as [_ Hok Hf]. destruct (building_taken _ _ _ Hok Hb) as (Hlt & Hok1 & _). destruct (sstrend_run s a t Hg) as [_ Hle]. specialize (Hle Hb).
  assert (pdiff (cur a t) (start a) = Z.of_nat (length t)) as Hp by (unfold pdiff, cur, padd; cbn; lia).
  pose proof (runs_pushstackmark s a (Z.of_nat (length t)) Hg ltac:(lia)) as Hr. unfold on. cbn [c_stack c_items].
  rewrite (bind_run _ _ s s (start a)) by (unfold stackblock, get; by rewrite (g_stacknxt_run s a Hg)). rewrite Hp. unfold AshStackSpec.runs in Hr. unfold bind at 1.
  destruct (pushstackmark enough garbage (Z.of_nat (length t)) s) as [s1 mk|s1 e|]; [| |done].
  2: { destruct Hr as [Hw (a' & Hl)]. split; [done|right]. pose proof Hl as [Hg' _ _ _ _ _]. exists lo, a'.
       refine (conj Hg' (conj (text_nil _ _ Hg') (conj (above_later s a s1 a' lo Hg Hl Hab) (held_later s a s1 a' lo l Hg Hab Hl Hh)))). }
  destruct Hr as (a1 & Hl & Hm & _ & _ & Hhere). destruct (Hhere Hle) as [-> ->]. destruct Hl as [Hg1 _ _ _ _ _].
  set (s1 := take_space s (Z.of_nat (length t))) in *. set (a1 := taken (Z.of_nat (length t)) a) in *.
  destruct (enter_arena_run s1 a1 Hg1) as [[He Hst]|(s2 & sv & id & He & Hsv & Hg2 & Hid & Hsame)]; rewrite ?(bind_run _ _ _ _ _ He), ?(bind_raise _ _ _ _ _ He).
  { split; [by left|by left]. }
  assert (forall i, i ∈ chain a -> (i < id)%nat) as Hin.
  { intros i Hi. rewrite Hid. apply Hf. destruct Hok as [Hbl _ _ _]. rewrite Forall_forall in Hbl. destruct (Hbl i Hi) as (c & Hc & _). by exists c. }
  assert (Forall (fun i => ms_mem s2 !! i = ms_mem s !! i) (chain a)) as Hsm by (apply Forall_forall; intros i Hi; by apply Hsame, Hin).
  pose proof (agree_all _ _ _ Hok Hsm) as Hag. pose proof (agree_all _ _ a1 Hok1 Hsm) as Hag1.
  exists id, (mk_ar id [] 0). refine (conj Hg2 (conj (text_nil _ _ Hg2) (conj _ _))); [by constructor|]. cbn.
  apply h_nest with lo; [by eapply arena_ok_agree|by eapply building_agree|by eapply marks_agree| | |].
  - eapply saves_same; [|exact Hsv]. by apply Forall_cons in Hsm as [? _].
  - apply Forall_forall. intros i Hi. unfold above in Hab. rewrite Forall_forall in Hab. split; [by apply Hab|by apply Hin].
  - eapply held_agree; [done..|]. intros i Hi. destruct (above_next s a lo i Hg Hab Hi) as [Hn _]. apply Hsame. by rewrite Hid.
Qed.

Lemma ext_taken_mono m n a : 0 <= m <= n -> 0 < n -> n <= 2 ^ 32 - 8 -> ext (taken m a) (taken n a).
Proof.
  intros Hm Hn Hlt. exists []. split; [done|]. intros _. pose proof (SHELL_ALIGN_nat n ltac:(lia)) as Hnat.
  assert (SHELL_ALIGN m <= SHELL_ALIGN n).
  { rewrite !SHELL_ALIGN_8 by lia. pose proof (Z.div_le_mono (m + 7) (n + 7) 8). lia. }
  pose proof (SHELL_ALIGN_bounds n ltac:(lia)) as (H1 & _ & _). unfold taken, advance. cbn [a_top a_off]. split; [lia|right; lia].
Qed.

Lemma fine_return s lo lo1 a a0 mk sv p t u l :
  good s a -> above lo a -> arena_ok (ms_mem s) a0 -> building (ms_mem s) a0 u -> marks (ms_mem s) a0 mk ->
  saves (ms_mem s) (taken (Z.of_nat (length u)) a0) sv -> Forall (fun i => lo1 <= i < lo)%nat (chain a0) -> held (ms_mem s) lo1 a0 l ->
  fine (on (mk_client s p t (INest mk sv (cur a0 u) u :: l)) (leave_arena sv ;; popstackmark mk) (fun _ s => mk_client s (cur a0 u) u l)).
Proof.
  intros Hg Hab Hok Hb Hm Hsv Hr Hh. destruct (building_taken _ _ _ Hok Hb) as (_ & Hok1 & _). rewrite Forall_forall in Hr.
  assert (forall i, i ∈ chain a -> i ∉ chain a0) as Hd.
  { intros i Hi Hi'. unfold above in Hab. rewrite Forall_forall in Hab. apply Hab in Hi. apply Hr in Hi'. lia. }
  destruct (leave_arena_run s a _ sv Hg Hok1 Hsv Hd) as (s1 & Hleave & [Hg1 Hk1 _ Hs1]). change (chain (taken _ a0)) with (chain a0) in Hk1.
  pose proof (agree_all _ _ _ Hok Hk1) as Hag. pose proof (agree_all _ _ (taken (Z.of_nat (length u)) a0) Hok1 Hk1) as Hag1.
  destruct (popstackmark_run s1 (taken (Z.of_nat (length u)) a0) a0 mk [] Hg1) as (s2 & Hpop & Hback);
    [done|by eapply arena_ok_agree|by eapply marks_agree|].
  unfold on. cbn [c_stack]. rewrite (bind_run _ _ _ _ _ Hleave), Hpop. cbn.
  assert (above lo1 a0) as Hab1 by (apply Forall_forall; intros i Hi; by apply Hr).
  apply (inv_back s1 (taken (Z.of_nat (length u)) a0) a0 s2 lo1 lo1 l u); [done|by eapply arena_ok_agree|by eapply building_agree| |done|done|done].
  eapply held_agree; [done..|]. intros i Hi. apply Hs1. intros Hin. unfold above in Hab. rewrite Forall_forall in Hab. apply Hab in Hin.
  assert (lo1 <= a_top a0 < lo)%nat by (apply Hr; left). lia.
Qed.

Lemma fine_build o c : inv c -> legal o c = true ->
  match o with OStart | OPut _ | OPuts _ | OSure _ | OTerm | OUnput _ => True | _ => False end -> fine (step o c).
Proof.
  destruct c as [s p t l]. intros (lo & a & Hg & Ht & Hab & Hh) Hlegal Ho. cbn [c_stack c_text c_p c_items] in *.
  destruct o; try done; cbn [legal AshStackSpec.step c_stack c_text c_p c_items] in *;
    (eapply (fine_goes_on (mk_client s p t l)); [exact Hg|exact Hab|exact Hh|cbn [c_stack]]).
  - eapply runs_ok; [reflexivity|by apply later_refl|by apply text_nil].
  - by apply runs_STPUTC.
  - apply runs_stnputs; [done..|by apply Z.ltb_lt].
  - apply Z.ltb_lt in Hlegal.
    eapply runs_seq; [apply (runs_CHECKSTRSPACE _ _ t); [done..|lia|done]|]. cbn. intros q s' a' [Hg' _ _ _ _ _] [Ht' Hl']. by apply runs_USTPUTS.
  - eapply runs_seq; [by apply (runs_STACKSTRNUL _ _ t)|]. intros q s' a' [Hg' _ _ _ _ _] [Hb' ->]. apply runs_done; [done|]. split; [done|].
    unfold cur, padd. cbn. rewrite length_app. cbn. f_equal. lia.
  - apply Nat.leb_le in Hlegal. apply runs_done; [done|]. destruct Ht as [(b & E & Hl & Hb) ->]. split.
    + exists b. rewrite length_take. split_and!; [done|lia|]. apply (f_equal (take (length t - n))) in Hb. rewrite take_take in Hb.
      rewrite <- Hb. by f_equal.
    + unfold cur, padd, start. cbn. rewrite length_take. f_equal. lia.
Qed.

(** [setstackmark]; [pushstackmark] with at least the text. *)
Lemma fine_marks o c : inv c -> legal o c = true -> match o with OMark | OReserve _ => True | _ => False end -> fine (step o c).
Proof.
  destruct c as [s p t l]. intros (lo & a & Hg & Ht & Hab & Hh) Hlegal Ho. cbn [c_stack c_text c_p c_items] in *.
  destruct o as [| | | | | | | | | |n| | | |]; try done; cbn [legal AshStackSpec.step c_stack c_text c_p c_items] in *.
  - eapply (fine_mark (mk_client s p t l) lo a _ _ []); [exact Hg|exact Hab|exact Hh|by apply text_nil|].
    eapply runs_weaken; [by apply runs_setstackmark|]. cbn [c_stack]. intros mk s' a' [Hg' _ _ _ _ _] (Hm & Hag & Hx).
    change (Z.of_nat (length (A:=ascii) [])) with 0. rewrite taken_0. split_and!; [done..|]. pose proof Hg as [_ Hok _].
    eapply building_agree; [exact Hok|by apply building_nil|]. change (Z.of_nat (length (A:=ascii) [])) with 0. by rewrite taken_0.
  - apply andb_true_iff in Hlegal as [Hlegal Hn2]. apply andb_true_iff in Hlegal as [Hn0 Hn1]. apply Z.ltb_lt in Hn0. apply Z.leb_le in Hn1, Hn2.
    pose proof (left_max s a Hg). eapply (fine_mark (mk_client s p t l) lo a _ _ t); [exact Hg|exact Hab|exact Hh|done|].
    eapply runs_weaken; [apply runs_pushstackmark; [done|lia]|]. cbn [c_stack]. intros mk s' a' _ (Hm & Hag & Hx & Hhere).
    destruct (Hhere Hn2) as [-> ->]. destruct Ht as [Hb _]. split_and!; [done..| |done]. apply ext_taken_mono; lia.
Qed.

Lemma fine_step o c : inv c -> legal o c = true -> fine (step o c).
Proof.
  intros Hi Hlegal.
  destruct o as [|ch|u|u| |n| |u| | |n| | | |]; try (apply fine_build; [exact Hi|exact Hlegal|exact I]); try (apply fine_marks; [exact Hi|exact Hlegal|exact I]);
    destruct c as [s p t l]; destruct Hi as (lo & a & Hg & Ht & Hab & Hh); cbn [legal AshStackSpec.step c_stack c_text c_p c_items] in *.
  - apply negb_true_iff, bool_decide_eq_false in Hlegal.
    eapply (fine_made (mk_client s p t l)); [exact Hg|exact Hab|exact Hh|done|]. by apply runs_grabstackstr.
  - apply andb_true_iff in Hlegal as [Hu Hlt]. apply negb_true_iff, bool_decide_eq_false in Hu. apply Z.ltb_lt in Hlt.
    eapply (fine_made (mk_client s p t l)); [exact Hg|exact Hab|exact Hh|done|]. apply runs_stdup; [done..|lia].
  - destruct l as [|[q u| |] l]; try done. apply bool_decide_eq_true in Hlegal. by apply (fine_ungrab (mk_client s p t (IObj q u :: l)) lo a).
  - destruct l as [|[|mk q u|] l]; try done.
    inversion Hh as [| |lo' a' a0 mk' t' l' Hx Hok0 Hb0 Hm0 Hh0|]; subst. apply ext_taken_ext in Hx as Hx0. pose proof Hx0 as (pre & Hch & _).
    destruct (popstackmark_run s a a0 mk pre Hg Hch Hok0 Hm0) as (s' & Hpop & Hback). unfold on. cbn [c_stack]. rewrite Hpop. cbn.
    by apply (inv_back s a a0 s' lo lo l u); [..|by eapply above_ext| |].
  - by apply (fine_nest (mk_client s p t l) lo a).
  - destruct l as [|[| |mk sv q u] l]; try done.
    inversion Hh as [| | |lo' lo1 a' a0 mk' sv' t' l' Hok0 Hb0 Hm0 Hs0 Hr0 Hh0]; subst. by apply (fine_return _ lo lo1 a a0).
  - unfold AshStackSpec.fine. destruct l as [|[q u|mk q u|] l]; try done; cbn [tail].
    + inversion Hh as [|lo' a' a0 t' l' Hx Hok0 Hne Hobj Hh0| |]; subst. exists lo, a. refine (conj Hg (conj Ht (conj Hab _))).
      by apply (held_ext _ _ a0).
    + inversion Hh as [| |lo' a' a0 mk' t' l' Hx Hok0 Hb0 Hm0 Hh0|]; subst. exists lo, a. refine (conj Hg (conj Ht (conj Hab _))).
      apply (held_ext _ _ a0); [done|by eapply ext_taken_ext|done].
Qed.

Lemma init_client_inv : inv init_client.
Proof.
  set (b := replicate 504 NUL). assert (ms_mem INIT_G_memstack !! stackbase = Some b) as E by done.
  assert (good INIT_G_memstack (mk_ar stackbase [] 0)) as Hg.
  { constructor.
    - exists b. by split_and!.
    - constructor; [|by apply NoDup_singleton|by exists 0|].
      + constructor; [|constructor]. exists b. split_and!; [done|by exists 63|done].
      + exists b. split; [done|cbn; lia].
    - intros i [c Hc]. cbn in Hc. apply lookup_singleton_Some in Hc as [<- _]. cbn. unfold stackbase. lia. }
  exists 0%nat, (mk_ar stackbase [] 0). refine (conj Hg (conj _ (conj _ _))); [|by constructor; [lia|]|constructor].
  by apply (text_nil _ _ Hg).
Qed.

Lemma reach_inv c : reach c -> inv c.
Proof.
  induction 1 as [|c o c' _ IH Hl Hs|c o c' e _ IH Hl Hs He].
  - apply init_client_inv.
  - pose proof (fine_step o c IH Hl) as H. by rewrite Hs in H.
  - pose proof (fine_step o c IH Hl) as H. rewrite Hs in H. by destruct H as [_ [?|?]].
Qed.

Lemma run_reach l c c' : reach c -> AshStackSpec.run enough garbage l c = Some c' -> reach c'.
Proof.
  revert c. induction l as [|o l IH]; cbn [AshStackSpec.run]; intros c Hc; [by intros [= <-]|].
  destruct (legal o c) eqn:Hl; [|done]. destruct (step o c) as [c1 []| |] eqn:Hs; [|done..]. apply IH. by eapply reach_ok.
Qed.

(** C11. Whatever legal operations, and exceptions, a client of the memory stack
    went through: each object it holds can be read and contains what was put there,
    also those of the shells outside of a command substitution; so does the text
    under construction, which ends where the client's pointer is; and the next legal
    operation stays inside the memory it was given, and ends normally unless libc has
    no more memory or the free space has 2 GB already. *)
Theorem stack_safe (c : client) : reach c ->
  (forall q t, IObj q t ∈ c_items c -> load q (length t) (c_stack c) = Ok (c_stack c) t) /\
  load (g_stacknxt (c_stack c)) (length (c_text c)) (c_stack c) = Ok (c_stack c) (c_text c) /\
  c_p c = padd (g_stacknxt (c_stack c)) (Z.of_nat (length (c_text c))) /\
  forall o, legal o c = true -> match step o c with Ok _ _ => True | Raise c' e => why (c_stack c') e | Wild => False end.
Proof.
  intros Hr. apply reach_inv in Hr as Hi. pose proof Hi as (lo & a & Hg & [(b & E & Hl & Hb) Hp] & _ & Hh).
  rewrite (g_stacknxt_run _ _ Hg). split_and!; [|unfold start|done|].
  - intros q t. eapply held_reads; [done|by destruct Hg].
  - rewrite (load_run _ _ _ _ b) by (done || lia). by rewrite Nat2Z.id, Hb.
  - intros o Ho. pose proof (fine_step o c Hi Ho) as Hf. destruct (step o c); [done| |done]. by destruct Hf.
Qed.
End Ops.

(** A text that moves twice, an object before it, and a command substitution. *)
Definition demo_ops : list op :=
  [OAlloc (lit "keep"); OMark; OPuts (repeat "a"%char 600); OGrab; OPuts (lit "x="); ONest; OAlloc (lit "inner"); OMark;
   OPuts (repeat "b"%char 700); OGrab; ODrop; OPop; ODrop; OReturn; OPut "y"%char].

Definition demo_client : client := default init_client (run (fun _ _ => true) (fun _ => "?"%char) demo_ops init_client).

Lemma stack_safe_witness :
  reach (fun _ _ => true) (fun _ => "?"%char) demo_client /\ c_text demo_client = lit "x=y" /\
  load (g_stacknxt (c_stack demo_client)) 3 (c_stack demo_client) = Ok (c_stack demo_client) (lit "x=y").
Proof.
  assert (reach (fun _ _ => true) (fun _ => "?"%char) demo_client) as Hr.
  { apply (run_reach _ _ demo_ops init_client); [constructor|]. vm_compute. reflexivity. }
  split; [exact Hr|]. assert (c_text demo_client = lit "x=y") as Ht by (vm_compute; reflexivity). split; [exact Ht|].
  pose proof (stack_safe _ _ _ Hr) as (_ & H & _). rewrite Ht in H. exact H.
Defined.
