(* ===== verification/AshShell.v ===== *)
(** * shell/ash.c: the shell's state

    One record holds the global variables of all parts: variables (AshVar), the
    parser and its inputs (AshInput), descriptors and redirections (AshRedir), the
    expander's view (an instance of [Shell], AshExpand), and what the evaluator
    adds: the flags of break, continue and return, positional parameters, the
    command table, traps.  Computations of a part are run in the shell by
    [on_vars], [on_parser], [on_redir]; [exitstatus] and [lineno], which several
    parts share, are kept with the variables and handed to the others.

    Then the helpers of the evaluator: options of builtins, PATH search, and the
    command table.  What is not ash's is [Class Os]: files, directories, applets
    and the page's programs. *)

From Stdlib Require Import Ascii String ZArith Lia.
From stdpp Require Import base gmap list strings.
From S2P Require Import Prelude Clib LibbbStr ShMath WasiCompat AshInput AshLex AshParse AshBase AshVar AshExpand AshFrame AshRedir.

Local Open Scope Z_scope.
Local Open Scope ash_scope.

(** ** The world outside *)

Class Os (F W : Type) := {
  os_host :: Host F W;
  os_reads : W -> F -> list cstr;                  (* what reading a file from its start delivers *)
  os_unlink : W -> cstr -> W;
  os_fnmatch : cstr -> cstr -> bool;
  os_readdir : W -> cstr -> option (list cstr);
  os_lstat : W -> cstr -> bool;
  os_isdir : W -> cstr -> bool;
  os_getcwd : W -> option cstr;
  os_chdir : W -> cstr -> option W;                (* None: it fails *)
  os_write : W -> F -> cstr -> W;
  os_read1 : W -> F -> W * option ascii;           (* the next character *)
  os_ready : W -> F -> bool;                       (* poll, before the time given with "read -t" is over *)
  os_applet : cstr -> option Z;                    (* find_applet_by_name *)
  os_run_applet : Z -> list cstr -> list cstr -> gmap Z F -> W -> W * Z;
  os_spawn : cstr -> list cstr -> list cstr -> gmap Z F -> W -> W * (Z + Z);  (* a status or errno *)
}.

(** ** The state *)

Definition SKIPBREAK : Z := 1.
Definition SKIPCONT : Z := 2.
Definition SKIPFUNC : Z := 4.
Definition SKIPFUNCDEF : Z := 8.

Record ctl := mk_ctl { evalskip : Z; skipcount : Z; loopnest : Z; funcline : Z }.

(** A builtin, by the function that implements it; the digit in front of its
    name in [builtintab] gives the three flags. *)
Inductive builtin_fn :=
  | B_dot | B_true | B_false | B_break | B_eval | B_exec | B_exit | B_export | B_local | B_return
  | B_set | B_shift | B_trap | B_unset | B_command | B_null
  | B_cd | B_pwd | B_umask | B_read | B_hash | B_type | B_let
  | B_main        (* echo, printf, test: the applet's main function *)
  | B_other.      (* help, history, times, ulimit, wait *)

#[export] Instance builtin_fn_eq_dec : EqDecision builtin_fn.
Proof. solve_decision. Defined.

Record builtincmd := mk_builtin { b_flags : Z; b_name : cstr; b_fn : builtin_fn }.

Definition IS_BUILTIN_SPECIAL (b : builtincmd) : bool := Z.testbit (b_flags b) 0.
Definition IS_BUILTIN_REGULAR (b : builtincmd) : bool := Z.testbit (b_flags b) 1.
Definition IS_BUILTIN_ASSIGN (b : builtincmd) : bool := Z.testbit (b_flags b) 2.

(** A function: its name, line and body. *)
Record funcnode := mk_func { fn_text : cstr; fn_linno : Z; fn_body : node }.

Inductive cmdentry :=
  | CMDUNKNOWN
  | CMDNORMAL (index : Z)
  | CMDFUNCTION (func : funcnode)
  | CMDBUILTIN (cmd : builtincmd).

Record tblentry := mk_tbl { tb_cmd : cmdentry; tb_rehash : bool }.

(** The actions by signal number (0 is EXIT, NSIG is ERR). *)
Record traps := mk_traps {
  t_trap : gmap Z cstr;
  t_may_have : bool;          (* may_have_traps *)
  t_in_ERR : bool;            (* in_trap_ERR *)
  t_pending : Z;              (* pending_sig *)
  t_gotsig : list Z;          (* the signals whose gotsig[] is set *)
}.

Record shell (F W : Type) := mk_shell {
  sh_vars : shvars;  (* variables, options, exitstatus, lineno, funcname *)
  sh_in : pstate;  (* the parser, with the stack of input files *)
  sh_r : rstate F W;  (* descriptors, redirlist and the world outside *)
  sh_ctl : ctl;
  sh_savestatus : Z;
  sh_back_exitstatus : Z;
  sh_params : list cstr;  (* shellparam.p *)
  sh_cmds : gmap cstr tblentry;  (* cmdtable *)
  sh_builtinloc : Z;
  sh_traps : traps;
  sh_ifs : list ifsregion;  (* the regions left to split *)
  sh_depth : Z;  (* nesting of command substitutions *)
  sh_pipeseq : Z;  (* pipeline files made so far *)
  sh_commandname : cstr;
  sh_curdir : option cstr;  (* None: nullstr *)
  sh_physdir : option cstr;
  sh_arg0 : cstr;
  sh_rootpid : Z;
}.
Arguments mk_shell {F W}.
Arguments sh_vars {F W}.
Arguments sh_in {F W}.
Arguments sh_r {F W}.
Arguments sh_ctl {F W}.
Arguments sh_savestatus {F W}.
Arguments sh_back_exitstatus {F W}.
Arguments sh_params {F W}.
Arguments sh_cmds {F W}.
Arguments sh_builtinloc {F W}.
Arguments sh_traps {F W}.
Arguments sh_ifs {F W}.
Arguments sh_depth {F W}.
Arguments sh_pipeseq {F W}.
Arguments sh_commandname {F W}.
Arguments sh_curdir {F W}.
Arguments sh_physdir {F W}.
Arguments sh_arg0 {F W}.
Arguments sh_rootpid {F W}.

Section Setters.
Context {F W : Type}.
Definition set_vars (v : shvars) (s : shell F W) : shell F W :=
    mk_shell v (sh_in s) (sh_r s) (sh_ctl s) (sh_savestatus s) (sh_back_exitstatus s) (sh_params s) (sh_cmds
    s) (sh_builtinloc s) (sh_traps s) (sh_ifs s) (sh_depth s) (sh_pipeseq s) (sh_commandname s) (sh_curdir s)
    (sh_physdir s) (sh_arg0 s) (sh_rootpid s).
Definition set_in (v : pstate) (s : shell F W) : shell F W :=
    mk_shell (sh_vars s) v (sh_r s) (sh_ctl s) (sh_savestatus s) (sh_back_exitstatus s) (sh_params s) (sh_cmds
    s) (sh_builtinloc s) (sh_traps s) (sh_ifs s) (sh_depth s) (sh_pipeseq s) (sh_commandname s) (sh_curdir s)
    (sh_physdir s) (sh_arg0 s) (sh_rootpid s).
Definition set_r (v : rstate F W) (s : shell F W) : shell F W :=
    mk_shell (sh_vars s) (sh_in s) v (sh_ctl s) (sh_savestatus s) (sh_back_exitstatus s) (sh_params s)
    (sh_cmds s) (sh_builtinloc s) (sh_traps s) (sh_ifs s) (sh_depth s) (sh_pipeseq s) (sh_commandname s)
    (sh_curdir s) (sh_physdir s) (sh_arg0 s) (sh_rootpid s).
Definition set_ctl (v : ctl) (s : shell F W) : shell F W :=
    mk_shell (sh_vars s) (sh_in s) (sh_r s) v (sh_savestatus s) (sh_back_exitstatus s) (sh_params s) (sh_cmds
    s) (sh_builtinloc s) (sh_traps s) (sh_ifs s) (sh_depth s) (sh_pipeseq s) (sh_commandname s) (sh_curdir s)
    (sh_physdir s) (sh_arg0 s) (sh_rootpid s).
Definition set_savestatus (v : Z) (s : shell F W) : shell F W :=
    mk_shell (sh_vars s) (sh_in s) (sh_r s) (sh_ctl s) v (sh_back_exitstatus s) (sh_params s) (sh_cmds s)
    (sh_builtinloc s) (sh_traps s) (sh_ifs s) (sh_depth s) (sh_pipeseq s) (sh_commandname s) (sh_curdir s)
    (sh_physdir s) (sh_arg0 s) (sh_rootpid s).
Definition set_back_exitstatus (v : Z) (s : shell F W) : shell F W :=
    mk_shell (sh_vars s) (sh_in s) (sh_r s) (sh_ctl s) (sh_savestatus s) v (sh_params s) (sh_cmds s)
    (sh_builtinloc s) (sh_traps s) (sh_ifs s) (sh_depth s) (sh_pipeseq s) (sh_commandname s) (sh_curdir s)
    (sh_physdir s) (sh_arg0 s) (sh_rootpid s).
Definition set_params (v : list cstr) (s : shell F W) : shell F W :=
    mk_shell (sh_vars s) (sh_in s) (sh_r s) (sh_ctl s) (sh_savestatus s) (sh_back_exitstatus s) v (sh_cmds s)
    (sh_builtinloc s) (sh_traps s) (sh_ifs s) (sh_depth s) (sh_pipeseq s) (sh_commandname s) (sh_curdir s)
    (sh_physdir s) (sh_arg0 s) (sh_rootpid s).
Definition set_cmds (v : gmap cstr tblentry) (s : shell F W) : shell F W :=
    mk_shell (sh_vars s) (sh_in s) (sh_r s) (sh_ctl s) (sh_savestatus s) (sh_back_exitstatus s) (sh_params s)
    v (sh_builtinloc s) (sh_traps s) (sh_ifs s) (sh_depth s) (sh_pipeseq s) (sh_commandname s) (sh_curdir s)
    (sh_physdir s) (sh_arg0 s) (sh_rootpid s).
Definition set_builtinloc (v : Z) (s : shell F W) : shell F W :=
    mk_shell (sh_vars s) (sh_in s) (sh_r s) (sh_ctl s) (sh_savestatus s) (sh_back_exitstatus s) (sh_params s)
    (sh_cmds s) v (sh_traps s) (sh_ifs s) (sh_depth s) (sh_pipeseq s) (sh_commandname s) (sh_curdir s)
    (sh_physdir s) (sh_arg0 s) (sh_rootpid s).
Definition set_traps (v : traps) (s : shell F W) : shell F W :=
    mk_shell (sh_vars s) (sh_in s) (sh_r s) (sh_ctl s) (sh_savestatus s) (sh_back_exitstatus s) (sh_params s)
    (sh_cmds s) (sh_builtinloc s) v (sh_ifs s) (sh_depth s) (sh_pipeseq s) (sh_commandname s) (sh_curdir s)
    (sh_physdir s) (sh_arg0 s) (sh_rootpid s).
Definition set_ifs (v : list ifsregion) (s : shell F W) : shell F W :=
    mk_shell (sh_vars s) (sh_in s) (sh_r s) (sh_ctl s) (sh_savestatus s) (sh_back_exitstatus s) (sh_params s)
    (sh_cmds s) (sh_builtinloc s) (sh_traps s) v (sh_depth s) (sh_pipeseq s) (sh_commandname s) (sh_curdir s)
    (sh_physdir s) (sh_arg0 s) (sh_rootpid s).
Definition set_depth (v : Z) (s : shell F W) : shell F W :=
    mk_shell (sh_vars s) (sh_in s) (sh_r s) (sh_ctl s) (sh_savestatus s) (sh_back_exitstatus s) (sh_params s)
    (sh_cmds s) (sh_builtinloc s) (sh_traps s) (sh_ifs s) v (sh_pipeseq s) (sh_commandname s) (sh_curdir s)
    (sh_physdir s) (sh_arg0 s) (sh_rootpid s).
Definition set_pipeseq (v : Z) (s : shell F W) : shell F W :=
    mk_shell (sh_vars s) (sh_in s) (sh_r s) (sh_ctl s) (sh_savestatus s) (sh_back_exitstatus s) (sh_params s)
    (sh_cmds s) (sh_builtinloc s) (sh_traps s) (sh_ifs s) (sh_depth s) v (sh_commandname s) (sh_curdir s)
    (sh_physdir s) (sh_arg0 s) (sh_rootpid s).
Definition set_commandname (v : cstr) (s : shell F W) : shell F W :=
    mk_shell (sh_vars s) (sh_in s) (sh_r s) (sh_ctl s) (sh_savestatus s) (sh_back_exitstatus s) (sh_params s)
    (sh_cmds s) (sh_builtinloc s) (sh_traps s) (sh_ifs s) (sh_depth s) (sh_pipeseq s) v (sh_curdir s)
    (sh_physdir s) (sh_arg0 s) (sh_rootpid s).
Definition set_curdir (v : option cstr) (s : shell F W) : shell F W :=
    mk_shell (sh_vars s) (sh_in s) (sh_r s) (sh_ctl s) (sh_savestatus s) (sh_back_exitstatus s) (sh_params s)
    (sh_cmds s) (sh_builtinloc s) (sh_traps s) (sh_ifs s) (sh_depth s) (sh_pipeseq s) (sh_commandname s) v
    (sh_physdir s) (sh_arg0 s) (sh_rootpid s).
Definition set_physdir (v : option cstr) (s : shell F W) : shell F W :=
    mk_shell (sh_vars s) (sh_in s) (sh_r s) (sh_ctl s) (sh_savestatus s) (sh_back_exitstatus s) (sh_params s)
    (sh_cmds s) (sh_builtinloc s) (sh_traps s) (sh_ifs s) (sh_depth s) (sh_pipeseq s) (sh_commandname s)
    (sh_curdir s) v (sh_arg0 s) (sh_rootpid s).
End Setters.


(** ** PATH *)

(** [legal_pathopt(opt, term, 1)] *)
Definition legal_pathopt (opt : cstr) : option cstr :=
  let r := match is_prefixed_with opt (lit "builtin") with
           | Some r => Some r
           | None => is_prefixed_with opt (lit "func")
           end in
  (fun r => if hd0 r ≟ "%"%char then tl r else r) <$> r.

(** The next candidate, the rest of the path, [pathopt]. *)
Definition padvance (path : option cstr) (name : cstr) : option (cstr * option cstr * option cstr) :=
  match path with
  | None => None
  | Some path =>
      let '(lpathopt, start, term) :=
        match (if hd0 path ≟ "%"%char then legal_pathopt (tl path) else None) with
        | Some p => (Some (tl path), p, lit ":")
        | None => (None, path, lit "%:")
        end in
      let len := strcspn start term in
      let p := drop len start in
      let '(lpathopt, len, p) :=
        if hd0 p ≟ "%"%char then
          let extra := (length p - length (strchrnul p ":"))%nat in
          match legal_pathopt (tl p) with
          | Some _ => (Some (tl p), len, drop extra p)
          | None => (lpathopt, (len + extra)%nat, drop extra p)
          end
        else (lpathopt, len, p) in
      let rest := if hd0 p ≟ ":"%char then Some (tl p) else None in
      let fullname := match len with O => name | _ => take len start ++ "/"%char :: name end in
      Some (fullname, rest, lpathopt)
  end.

Section Shell.
Context {F W : Type} `{Os F W}.

Abbreviation sh := (shell F W).
Abbreviation S := (M (shell F W)).

Definition s_exit (s : sh) : Z := s_exitstatus (sh_vars s).
Definition set_exit (st : Z) (s : sh) : sh := set_vars (AshVar.set_exitstatus st (sh_vars s)) s.
Definition mod_ctl (f : ctl -> ctl) (s : sh) : sh := set_ctl (f (sh_ctl s)) s.
Definition mod_traps (f : traps -> traps) (s : sh) : sh := set_traps (f (sh_traps s)) s.
Definition mod_cmds (f : gmap cstr tblentry -> gmap cstr tblentry) (s : sh) : sh := set_cmds (f (sh_cmds s)) s.

Definition set_evalskip v c := mk_ctl v (skipcount c) (loopnest c) (funcline c).
Definition set_skipcount v c := mk_ctl (evalskip c) v (loopnest c) (funcline c).
Definition set_loopnest v c := mk_ctl (evalskip c) (skipcount c) v (funcline c).
Definition set_funcline v c := mk_ctl (evalskip c) (skipcount c) (loopnest c) v.

Definition set_trap v t := mk_traps v (t_may_have t) (t_in_ERR t) (t_pending t) (t_gotsig t).
Definition set_may_have v t := mk_traps (t_trap t) v (t_in_ERR t) (t_pending t) (t_gotsig t).
Definition set_in_ERR v t := mk_traps (t_trap t) (t_may_have t) v (t_pending t) (t_gotsig t).
Definition set_pending v t := mk_traps (t_trap t) (t_may_have t) (t_in_ERR t) v (t_gotsig t).
Definition set_gotsig v t := mk_traps (t_trap t) (t_may_have t) (t_in_ERR t) (t_pending t) v.

(** [errlinno = lineno = n] *)
Definition set_v_lineno (n : Z) (v : shvars) : shvars :=
  mk_shvars (s_tab v) (s_vars v) (s_texts v) (s_next v) (s_frames v) (s_optlist v) (s_exitstatus v) n
    (s_funcname v) (s_paths v).
Definition set_v_funcname (f : option cstr) (v : shvars) : shvars :=
  mk_shvars (s_tab v) (s_vars v) (s_texts v) (s_next v) (s_frames v) (s_optlist v) (s_exitstatus v) (s_lineno v)
    f (s_paths v).
Definition set_lineno (n : Z) (s : sh) : sh := set_vars (set_v_lineno n (sh_vars s)) s.
Definition set_linenos (n : Z) (s : sh) : sh := set_lineno n (set_in (set_errlinno n (sh_in s)) s).
Definition set_funcname (f : option cstr) (s : sh) : sh := set_vars (set_v_funcname f (sh_vars s)) s.

(** Options by their place in [optlist]. *)
Definition opt (i : nat) (s : sh) : bool := negb (nth i (s_optlist (sh_vars s)) 0 =? 0).
Definition eflag : sh -> bool := opt 0.
Definition iflag : sh -> bool := opt 3.
Definition nflag : sh -> bool := opt 5.
Definition Cflag : sh -> bool := opt 10.
Definition Eflag : sh -> bool := opt 14.
Definition set_opt (i : nat) (v : Z) (s : sh) : sh :=
  set_vars (AshVar.set_optlist (<[i := v]> (s_optlist (sh_vars s))) (sh_vars s)) s.

(** ** The command table and PATH *)

(** [clearcmdentry]; [bltin] is [builtinloc]. *)
Definition hashed (bltin : Z) (e : tblentry) : bool :=
  match tb_cmd e with
  | CMDNORMAL _ => true
  | CMDBUILTIN b => negb (IS_BUILTIN_REGULAR b) && (0 <? bltin)
  | _ => false
  end.

Definition clearcmdentry : S unit :=
  modify (fun s => mod_cmds (filter (fun '(_, e) => hashed (sh_builtinloc s) e = false)) s).

(** [hashcd], after cd *)
Definition hashcd : S unit :=
  modify (fun s => mod_cmds (fmap (fun e => if hashed (sh_builtinloc s) e then mk_tbl (tb_cmd e) true else e)) s).

(** The place of "%builtin" in a PATH, or -1. *)
Fixpoint builtin_place (fuel : nat) (new : cstr) (idx : Z) : Z :=
  match fuel with
  | O => -1
  | Datatypes.S f =>
      if (hd0 new ≟ "%"%char) && bool_decide (is_Some (is_prefixed_with (tl new) (lit "builtin"))) then idx
      else match strchr new ":" with
           | None => -1
           | Some new => builtin_place f (tl new) (idx + 1)
           end
  end.

Definition changepath (newval : cstr) : S unit :=
  modify (set_builtinloc (builtin_place (Datatypes.S (length newval)) newval 0)) ;; clearcmdentry.

(** ** Running a part's computation *)

(** Assignments to PATH call [changepath]. *)
Definition on_vars {A} (m : Sh A) : S A := fun s =>
  let paths v := rev (take (length (s_paths v) - length (s_paths (sh_vars s))) (s_paths v)) in
  match m (sh_vars s) with
  | Ok v a => (for_each changepath (paths v) ;; ret a) (set_vars v s)
  | Raise v e => (for_each changepath (paths v) ;; raise e) (set_vars v s)
  | Wild => Wild
  end.

Definition ash_msg_and_raise_error {A} (msg : cstr) : S A := on_vars (AshVar.ash_msg_and_raise_error msg).

(** The parser sees [exitstatus] and [lineno]. *)
Definition in_of (s : sh) : pstate :=
  let p := sh_in s in
  mk_ps (p_file p) (p_prev p) (p_checkkwd p) (p_tokpushback p) (p_quoteflag p) (p_lasttoken p) (p_heredoclist p)
    (p_wordtext p) (p_backquotelist p) (p_redirnode p) (p_heredoc p) (p_docs p) (p_ndocs p) (p_doprompt p)
    (p_needprompt p) (p_prompt p) (p_trap_depth p) (s_lineno (sh_vars s)) (p_errlinno p) (s_exit s).

Definition on_parser {A} (m : P A) : S A := fun s =>
  match m (in_of s) with
  | POk p a => Ok (set_exit (p_exitstatus p) (set_in p s)) a
  | PErr p msg => Raise (set_exit (p_exitstatus p) (set_in p s)) (EXERROR msg)
  | PFuel | PWild => Wild
  end.

Definition set_trap_depth (f : Z -> Z) (s : sh) : sh :=
  let p := sh_in s in
  set_in (mk_ps (p_file p) (p_prev p) (p_checkkwd p) (p_tokpushback p) (p_quoteflag p) (p_lasttoken p)
    (p_heredoclist p) (p_wordtext p) (p_backquotelist p) (p_redirnode p) (p_heredoc p) (p_docs p) (p_ndocs p)
    (p_doprompt p) (p_needprompt p) (p_prompt p) (f (p_trap_depth p)) (p_lineno p) (p_errlinno p) (p_exitstatus p)) s.

(** The descriptors of the input files. *)
Definition f_set_fd n f := mk_pf (f_linno f) n (f_left_in_line f) (f_left_in_buffer f) (f_next f) (f_buf f)
  (f_strpush f) (f_unget f) (f_lastc f) (f_reads f).
Definition pf_fds (s : sh) : list Z := f_fd (p_file (sh_in s)) :: map f_fd (p_prev (sh_in s)).
Definition set_pf_fds (l : list Z) (s : sh) : sh :=
  match l with
  | [] => s
  | fd :: l =>
      let p := sh_in s in
      set_in (set_file (f_set_fd fd (p_file p)) (set_prev (zip_with f_set_fd l (p_prev p)) p)) s
  end.

Definition r_of (s : sh) : rstate F W :=
  let r := sh_r s in
  mk_r (r_fds r) (r_world r) (r_list r) (pf_fds s) (r_preverrout r) (Cflag s) (s_exit s) (r_stdio r).
Definition put_r (r : rstate F W) (s : sh) : sh := set_pf_fds (r_pf r) (set_exit (r_exitstatus r) (set_r r s)).

Definition on_redir {A} (m : M (rstate F W) A) : S A := fun s =>
  match m (r_of s) with
  | Ok r a => Ok (put_r r s) a
  | Raise r e => Raise (put_r r s) e
  | Wild => Wild
  end.

Definition world (s : sh) : W := r_world (sh_r s).
Definition fds (s : sh) : gmap Z F := r_fds (sh_r s).
Definition put_world (w : W) (s : sh) : sh := set_r (set_world w (sh_r s)) s.

(** [popfile] closes the file's descriptor; [basepf] stays. *)
Definition popfile : S unit :=
  let! p := get sh_in in
  match p_prev p with
  | [] => ret tt
  | _ => (if 0 <=? f_fd (p_file p) then on_redir (close (f_fd (p_file p))) else ret tt) ;; on_parser AshInput.popfile
  end.

Fixpoint unwind_n (n : nat) : S unit :=
  match n with
  | O => ret tt
  | Datatypes.S n => popfile ;; unwind_n n
  end.

(** [unwindfiles(stop)], [stop] given by the number of files below it. *)
Definition unwindfiles (stop : nat) : S unit :=
  let! p := get sh_in in unwind_n (length (p_prev p) - stop).

Definition files_below : S nat := get (fun s => length (p_prev (sh_in s))).

(** ** The expander's view *)

Definition sh_lookupvar (s : sh) (name : cstr) : option cstr :=
  match AshVar.lookupvar name (sh_vars s) with Ok _ v => v | _ => None end.

Definition sh_setvar (s : sh) (name val : cstr) : option sh :=
  match on_vars (AshVar.setvar0 name val) s with Ok s _ => Some s | _ => None end.

#[export] Instance shell_vars_store : VarStore sh := {| ShMath.lookupvar := sh_lookupvar; ShMath.setvar := sh_setvar |}.

#[export] Instance shell_shell : Shell sh := {|
  AshExpand.ifsvar s := sh_lookupvar s (lit "IFS");
  AshExpand.optlist s := s_optlist (sh_vars s);
  AshExpand.exitstatus := s_exit;
  AshExpand.set_exitstatus := set_exit;
  AshExpand.set_back_exitstatus := set_back_exitstatus;
  AshExpand.rootpid := sh_rootpid;
  AshExpand.backgndpid _ := 0;
  AshExpand.shellparam := sh_params;
  AshExpand.arg0 := sh_arg0;
  AshExpand.arith_depth s := Datatypes.S (size (s_vars (sh_vars s)));
|}.

(** A word starts with an empty stack string, but with the regions the word
    before left behind ([ifsfree] clears them, unless an error ended it). *)
Definition on_expander {A} (m : M (xstate sh) A) : S A := fun s =>
  match m (mk_x (set_ifs [] s) [] [] (sh_ifs s)) with
  | Ok x a => Ok (set_ifs (x_ifs x) (x_sh x)) a
  | Raise x e => Raise (set_ifs (x_ifs x) (x_sh x)) e
  | Wild => Wild
  end.

Definition getpwnam (name : cstr) : option cstr := Ids.pw_dir <$> Ids.getpwnam (Some name).

(** ** Numbers and options of builtins *)

Definition is_number (p : cstr) : bool := negb (bool_decide (p = [])) && forallb isdigit p.

Definition atoi (p : cstr) : Z := wrapS 32 (fold_left (fun n c => 10 * n + (uc c - 48)) p 0).

Definition number (p : cstr) : S Z :=
  if is_number p then ret (atoi p) else ash_msg_and_raise_error (lit "Illegal number: " ++ p).

(** [nextopt]: the state is [argptr] and [optptr]. *)
Inductive nextres :=
  | OptEnd (argptr : list cstr)
  | Opt (c : ascii) (optionarg : option cstr) (argptr : list cstr) (optptr : cstr)
  | OptErr (msg : cstr).

(** Does the option take an argument?  [None]: there is no such option. *)
Fixpoint opt_known (optstring : cstr) (c : ascii) : option bool :=
  match optstring with
  | [] => None
  | o :: r =>
      match r with
      | ":"%char :: r' => if o ≟ c then Some true else opt_known r' c
      | _ => if o ≟ c then Some false else opt_known r c
      end
  end.

Definition opt_char (optstring : cstr) (argptr : list cstr) (p : cstr) : nextres :=
  match p with
  | [] => OptEnd argptr
  | c :: p =>
      match opt_known optstring c with
      | None => OptErr (lit "illegal option -" ++ [c])
      | Some false => Opt c None argptr p
      | Some true =>
          match p, argptr with
          | _ :: _, _ => Opt c (Some p) argptr []
          | [], a :: argptr => Opt c (Some a) argptr []
          | [], [] => OptErr (lit "no arg for -" ++ c :: lit " option")
          end
      end
  end.

Definition nextopt (optstring : cstr) (argptr : list cstr) (optptr : cstr) : nextres :=
  match optptr with
  | _ :: _ => opt_char optstring argptr optptr
  | [] =>
      match argptr with
      | ("-"%char :: p) :: rest =>
          if bool_decide (p = []) then OptEnd argptr
          else if LONE_DASH p then OptEnd rest
          else opt_char optstring rest p
      | _ => OptEnd argptr
      end
  end.

(** All options, the last given first; what is left are the operands. *)
Fixpoint all_opts (fuel : nat) (optstring : cstr) (argptr : list cstr) (optptr : cstr)
  (acc : list (ascii * option cstr)) : S (list (ascii * option cstr) * list cstr) :=
  match fuel with
  | O => wild
  | Datatypes.S f =>
      match nextopt optstring argptr optptr with
      | OptEnd argptr => ret (acc, argptr)
      | OptErr msg => ash_msg_and_raise_error msg
      | Opt c a argptr optptr => all_opts f optstring argptr optptr ((c, a) :: acc)
      end
  end.

Definition getopts (optstring : cstr) (args : list cstr) : S (list (ascii * option cstr) * list cstr) :=
  all_opts (Datatypes.S (length (concat args) + length args)) optstring args [] [].

(** Assignments touch the variables and, through PATH, the command table. *)
Lemma on_vars_keeps {A B} (g : sh -> B) (m : Sh A) :
  (forall v s, g (set_vars v s) = g s) -> (forall v s, g (set_builtinloc v s) = g s) ->
  (forall f s, g (mod_cmds f s) = g s) -> keeps g (on_vars m).
Proof.
  intros Hv Hb Hc s s' a. unfold on_vars. cbv zeta. destruct (m (sh_vars s)) as [v b|v e|]; [| |done].
  - intros E. apply bind_ok in E as (s1 & [] & E & [= <- _]). rewrite <- (Hv v s). revert E.
    apply keeps_for_each. intros p. apply keeps_bind; [by apply keeps_modify|intros _; by apply keeps_modify].
  - unfold bind. by destruct (for_each _ _ _).
Qed.
End Shell.
