(* ===== verification/AshBuiltin.v ===== *)
(** * shell/ash.c: builtins

    The builtins that do not call the evaluator: cd and pwd, umask, let, the lists
    that export, readonly, set and trap print, and read (with
    shell_common.c's [shell_builtin_read]); libbb's table of signal names.  What
    they print goes to descriptor 1 at once instead of at the flush that follows
    each builtin.

    Of read, the prompt, the terminal's modes (-s, -n) and the clock are left out:
    whether input comes before the time of -t is over is the system's
    ([os_ready]).  As configured: no fractions in -t, and -d is accepted but
    ignored. *)

From Stdlib Require Import Ascii String ZArith Lia.
From stdpp Require Import base gmap list strings.
From S2P Require Import Prelude Clib LibbbStr LibbbNum Modes ShMath WasiCompat AshInput AshLex AshParse AshBase AshVar AshExpand AshRedir AshShell.

Local Open Scope Z_scope.
Local Open Scope ash_scope.

(** ** Signal names (libbb/u_signal_names.c) *)

Definition tolower (c : ascii) : ascii := if isupper c then chr (uc c + 32) else c.

(** [strcasecmp(p, q) == 0] *)
Definition same_case (p q : cstr) : bool := bool_decide (map tolower p = map tolower q).

(** [signals]: the names at their numbers, as the libc's headers place them. *)
Section Signals.
Context (signals : list cstr).

Definition NSIG : Z := 65.

Fixpoint signal_named (name : cstr) (l : list cstr) (i : Z) : Z :=
  match l with
  | [] => -1
  | s :: l => if same_case name s then i else signal_named name l (i + 1)
  end.

Definition get_signum (name : cstr) : Z :=
  let i := st_val (bb_strtoul name 10) in
  if i <? NSIG then i
  else signal_named (if same_case (take 3 name) (lit "SIG") then drop 3 name else name) signals 0.

Definition get_signame (number : Z) : cstr :=
  match (if 0 <=? number then nth (Z.to_nat number) signals [] else []) with
  | [] => fmt_d number
  | s => s
  end.
End Signals.

(** ** Quoting *)

(** [single_quote]: the text in '...', runs of ' in "...". *)
Definition DQUOTE : ascii := chr 34.

Fixpoint leading (c : ascii) (s : cstr) : nat :=
  match s with a :: s => if a ≟ c then Datatypes.S (leading c s) else O | [] => O end.

Fixpoint single_quote_loop (fuel : nat) (s : cstr) : cstr :=
  match fuel with
  | O => []
  | Datatypes.S f =>
      let rest := strchrnul s "'" in
      let text := "'"%char :: take (length s - length rest) s ++ ["'"%char] in
      match rest with
      | [] => text
      | _ =>
          let len := leading "'" rest in
          let text := text ++ DQUOTE :: take len rest ++ [DQUOTE] in
          match drop len rest with
          | [] => text
          | s => text ++ single_quote_loop f s
          end
      end
  end.

Definition single_quote (s : cstr) : cstr := single_quote_loop (Datatypes.S (length s)) s.

(** ** The current directory's name *)

(** The pieces [strtok_r(p, "/", ...)] returns; [cur]: the one being read. *)
Fixpoint tokens (cur p : cstr) : list cstr :=
  match p with
  | [] => match cur with [] => [] | _ => [cur] end
  | c :: p =>
      if c ≟ "/"%char then match cur with [] => tokens [] p | _ => cur :: tokens [] p end
      else tokens (cur ++ [c]) p
  end.

Definition last_char (s : cstr) : ascii := List.last s NUL.

(** "..": take off the last component; the first [lim] characters stay. *)
Fixpoint drop_component (fuel : nat) (new : cstr) (lim : nat) : cstr :=
  match fuel with
  | O => new
  | Datatypes.S f =>
      if (lim <? length new)%nat then
        let new := removelast new in
        if last_char new ≟ "/"%char then new else drop_component f new lim
      else new
  end.

Fixpoint updatepwd_loop (l : list cstr) (new : cstr) (lim : nat) : cstr :=
  match l with
  | [] => new
  | p :: l =>
      updatepwd_loop l
        (if bool_decide (p = lit "..") then drop_component (length new) new lim
         else if bool_decide (p = lit ".") then new
         else new ++ p ++ ["/"%char]) lim
  end.

(** [updatepwd]: [None] if the current directory is not known. *)
Definition updatepwd (curdir : option cstr) (dir : cstr) : option cstr :=
  let start :=
    if hd0 dir ≟ "/"%char then
      if (at0 dir 1 ≟ "/"%char) && negb (at0 dir 2 ≟ "/"%char) then Some (lit "//", 2%nat, drop 2 dir)
      else Some (lit "/", 1%nat, tl dir)
    else
      match curdir with
      | None => None
      | Some cur =>
          let new := if last_char cur ≟ "/"%char then cur else cur ++ ["/"%char] in
          Some (new, if (1 <? length new)%nat && (at0 new 1 ≟ "/"%char) then 2%nat else 1%nat, dir)
      end in
  match start with
  | None => None
  | Some (new, lim, path) =>
      let new := updatepwd_loop (tokens [] path) new lim in
      Some (if (lim <? length new)%nat then removelast new else new)
  end.

(** ** Masks *)

(** [%04o] of a mask *)
Definition fmt_04o (z : Z) : cstr :=
  map (fun i => chr (48 + Z.land (Z.shiftr z i) 7)) [9; 6; 3; 0].

(** The text of "umask -S". *)
Definition umask_symbolic (mask : Z) : cstr :=
  let rwx who i :=
    who :: "="%char ::
    (if Z.testbit mask (i + 2) then [] else lit "r") ++
    (if Z.testbit mask (i + 1) then [] else lit "w") ++
    (if Z.testbit mask i then [] else lit "x") in
  rwx "u"%char 6 ++ ","%char :: rwx "g"%char 3 ++ ","%char :: rwx "o"%char 0.

(** The mask for the operand of umask; [None]: an illegal mode. *)
Definition umask_set (mask : Z) (modestr : cstr) : option Z :=
  let numeric := isdigit (hd0 modestr) in
  let mask := if numeric then mask else Z.lxor mask 511 in
  match bb_parse_mode (Ids.umask 0) modestr mask with
  | Some m => if 511 <? m then None else Some (if numeric then m else Z.lxor m 511)
  | None => None
  end.

(** ** Splitting the line of read *)

Record read_opts := mk_read { r_raw : bool; r_ifs : cstr }.

(** The loop's variables: the buffer up to [bufpos], the names left, [startword],
    [backslash]. *)
Record rd := mk_rd { rd_buf : cstr; rd_names : list cstr; rd_start : Z; rd_bs : bool }.

(** What one character leads to. *)
Inductive rd_step :=
  | RGo (s : rd)
  | RAssign (s : rd) (name val : cstr)
  | RBreak (s : rd).

Definition rd_put (s : rd) (c : ascii) : rd := mk_rd (rd_buf s ++ [c]) (rd_names s) (rd_start s) (rd_bs s).
Definition set_start (v : Z) (s : rd) : rd := mk_rd (rd_buf s) (rd_names s) v (rd_bs s).
Definition set_bs (v : bool) (s : rd) : rd := mk_rd (rd_buf s) (rd_names s) (rd_start s) v.

Definition read_char (o : read_opts) (s : rd) (c : ascii) : rd_step :=
  if negb (r_raw o) && rd_bs s then
    let s := set_bs false s in
    if negb (c ≟ NL) then RGo (rd_put s c) else RGo s
  else if negb (r_raw o) && (c ≟ "\"%char) then RGo (set_bs true s)
  else if c ≟ NL then RBreak s
  else if c ≟ NUL then RGo s
  else
    match rd_names s with
    | [] => RGo (rd_put s c)
    | name :: names =>
        let is_ifs := strchr_hit (r_ifs o) c in
        let word (s : rd) : rd_step :=
          let s := set_start 0 s in
          if negb (bool_decide (names = [])) && is_ifs
          then RAssign (mk_rd [] names (if isspace c then 2 else 1) (rd_bs s)) name (cstr_at (rd_buf s))
          else RGo (rd_put s c) in
        if negb (rd_start s =? 0) && is_ifs then
          if isspace c then RGo s
          else if rd_start s - 1 =? 1 then RGo (set_start 1 s)
          else word (set_start (rd_start s - 1) s)
        else word s
    end.

(** Take off white space of IFS from the end. *)
Fixpoint drop_ifs_space (ifs : cstr) (rev_buf : cstr) : cstr :=
  match rev_buf with
  | c :: r => if isspace c && strchr_hit ifs c then drop_ifs_space ifs r else rev_buf
  | [] => []
  end.

(** The value of the last variable. *)
Definition last_value (ifs buf : cstr) : cstr :=
  let buf := rev (drop_ifs_space ifs (rev buf)) in
  match rev buf with
  | c :: r =>
      if strchr_hit ifs c then
        let bufpos := length (drop_ifs_space ifs r) in
        if (bufpos <=? strcspn (cstr_at buf) ifs)%nat then take bufpos buf else buf
      else buf
  | [] => []
  end.

(** ** In the shell *)

Section Builtins.
Context {F W : Type} `{Os F W}.

Abbreviation sh := (shell F W).
Abbreviation S := (M (shell F W)).

(** [out1fmt], [out1str] *)
Definition out1 (t : cstr) : S unit :=
  let! s := get (fun s => s) in
  match fds s !! 1 with
  | Some f => modify (put_world (os_write (world s) f t))
  | None => ret tt
  end.

Definition bltinlookup (name : cstr) : S (option cstr) := on_vars (AshVar.lookupvar name).
Definition setvar (name val : cstr) (flags : Z) : S unit := on_vars (AshVar.setvar name (Some val) flags ;; ret tt).

(** *** cd and pwd *)

(** Was -P the last of the options? *)
Definition cdopt (opts : list (ascii * option cstr)) : bool :=
  snd (fold_left (fun '(j, fl) '(i, _) => if i ≟ j then (j, fl) else (i, negb fl)) opts ("L"%char, false)).

(** The argument of [setpwd]: NULL, [curdir] itself, or another text. *)
Inductive pwdval := PwdNull | PwdCurdir | PwdText (dir : cstr).

Definition setpwd (val : pwdval) (setold : bool) : S unit :=
  let! oldcur := get sh_curdir in
  (if setold then setvar (lit "OLDPWD") (default [] oldcur) VEXPORT else ret tt) ;;
  let! w := get world in
  let '(dir, physdir) := match val with
                         | PwdNull => (os_getcwd w, os_getcwd w)
                         | PwdCurdir => (oldcur, os_getcwd w)
                         | PwdText d => (Some d, None)
                         end in
  modify (set_curdir dir) ;; modify (set_physdir physdir) ;;
  setvar (lit "PWD") (default [] dir) VEXPORT.

(** [docd]: did it succeed? *)
Definition docd (dest : cstr) (physical : bool) : S bool :=
  let! s := get (fun s => s) in
  let dir := if physical then None else updatepwd (sh_curdir s) dest in
  match os_chdir (world s) (default dest dir) with
  | None => ret false
  | Some w =>
      modify (put_world w) ;;
      setpwd (match dir with Some d => PwdText d | None => PwdNull end) true ;;
      hashcd ;; ret true
  end.

(** The first directory of CDPATH that has [dest], and whether its name is printed. *)
Fixpoint cdpath_loop (fuel : nat) (w : W) (path : option cstr) (dest : cstr) : option (cstr * bool) :=
  match fuel with
  | O => None
  | Datatypes.S f =>
      match padvance path dest with
      | None => None
      | Some (p, rest, _) =>
          let c := hd0 (default [] path) in
          if os_isdir w p then Some (p, negb (c ≟ NUL) && negb (c ≟ ":"%char)) else cdpath_loop f w rest dest
      end
  end.

(** "/...", ".", "..", "./..." and "../..." are not looked for in CDPATH. *)
Definition no_cdpath (dest : cstr) : bool :=
  let ends i := (at0 dest i ≟ NUL) || (at0 dest i ≟ "/"%char) in
  (hd0 dest ≟ "/"%char) ||
  ((hd0 dest ≟ "."%char) && (ends 1%nat || ((at0 dest 1 ≟ "."%char) && ends 2%nat))).

Definition cdcmd (args : list cstr) : S Z :=
  let! o := getopts (lit "LP") args in
  let physical := cdopt (rev (fst o)) in
  let! dest_print := (match snd o with
                      | [] => let! d := bltinlookup (lit "HOME") in ret (default [] d, false)
                      | d :: _ =>
                          if LONE_DASH d then let! d := bltinlookup (lit "OLDPWD") in ret (default [] d, true)
                          else ret (d, false)
                      end) in
  let '(dest, print) := dest_print in
  let no_cdpath' := no_cdpath dest in
  let dest := match dest with [] => lit "." | _ => dest end in
  let! p_print := (if no_cdpath' then ret (dest, print)
                   else
                     let! path := bltinlookup (lit "CDPATH") in
                     let! w := get world in
                     ret (match cdpath_loop (Datatypes.S (length (default [] path)) + 1) w path dest with
                          | Some (p, pr) => (p, print || pr)
                          | None => (dest, print)
                          end)) in
  let '(p, print) := p_print in
  let! ok := docd p physical in
  if ok : bool then
    (if print : bool then let! d := get sh_curdir in out1 (default [] d ++ [NL]) else ret tt) ;; ret 0
  else ash_msg_and_raise_error (lit "can't cd to " ++ dest).

Definition pwdcmd (args : list cstr) : S Z :=
  let! o := getopts (lit "LP") args in
  let! dir := get sh_curdir in
  let! dir := (if cdopt (rev (fst o)) then
                 let! p := get sh_physdir in
                 (match p with None => setpwd PwdCurdir false | Some _ => ret tt end) ;; get sh_physdir
               else ret dir) in
  out1 (default [] dir ++ [NL]) ;; ret 0.

(** *** umask and let *)

Definition umaskcmd (args : list cstr) : S Z :=
  let! o := getopts (lit "S") args in
  let mask := Ids.umask 0 in
  match snd o with
  | [] => out1 ((match fst o with [] => fmt_04o mask | _ => umask_symbolic mask end) ++ [NL]) ;; ret 0
  | modestr :: _ =>
      match umask_set mask modestr with
      | Some m => let _ := Ids.umask m in ret 0
      | None => ash_msg_and_raise_error (lit "illegal mode: " ++ modestr)
      end
  end.

Fixpoint let_loop (l : list cstr) (i : Z) : S Z :=
  match l with
  | [] => ret (b2z (i =? 0))
  | a :: l => let! i := on_expander (AshExpand.ash_arith a) in let_loop l i
  end.

Definition letcmd (args : list cstr) : S Z :=
  match args with
  | [] => ash_msg_and_raise_error (lit "expression expected")
  | _ => let_loop args 0
  end.

(** *** Lists *)

(** [qsort] with [vpcmp]; the names differ, so that there is one result. *)
Fixpoint insert_var (x : cstr) (l : list cstr) : list cstr :=
  match l with
  | [] => [x]
  | y :: l' => if varcmp x y <=? 0 then x :: l else y :: insert_var x l'
  end.

Definition sort_vars (l : list cstr) : list cstr := foldr insert_var [] l.

(** A line of [showvars]. *)
Definition var_line (sep_prefix e : cstr) : cstr :=
  let p := endofname e in
  let '(p, q) := if hd0 p ≟ "="%char then (tl p, single_quote (tl p)) else (p, []) in
  sep_prefix ++ (match sep_prefix with [] => [] | _ => lit " " end) ++ take (length e - length p) e ++ q ++ [NL].

Definition showvars (sep_prefix : cstr) (on off : Z) : S Z :=
  let! l := on_vars (listvars on off []) in
  for_each (fun e => out1 (var_line sep_prefix e)) (sort_vars l) ;; ret 0.

(** "trap" without operands. *)
Definition show_traps (signals : list cstr) : S Z :=
  let! t := get (fun s => t_trap (sh_traps s)) in
  for_each (fun signo =>
    match t !! signo with
    | Some tr =>
        out1 (lit "trap -- " ++ single_quote tr ++ lit " " ++
              (if signo =? NSIG then lit "ERR" else get_signame signals signo) ++ [NL])
    | None => ret tt
    end) (seqZ 0 (NSIG + 1)) ;; ret 0.

(** *** read *)

(** The next character of a descriptor. *)
Definition read1 (fd : Z) : S (option ascii) :=
  let! s := get (fun s => s) in
  match fds s !! fd with
  | Some f => let '(w, c) := os_read1 (world s) f in modify (put_world w) ;; ret c
  | None => ret None
  end.

(** [poll]; a closed descriptor is ready, to fail. *)
Definition ready (fd : Z) : S bool :=
  get (fun s => match fds s !! fd with Some f => os_ready (world s) f | None => true end).

(** The loop's end: the variables and [retval], or ([None]) the time was over. *)
Fixpoint read_loop (fuel : nat) (fd : Z) (timed : bool) (o : read_opts) (nchars : Z) (s : rd) : S (option (rd * Z)) :=
  match fuel with
  | O => wild
  | Datatypes.S f =>
      let next (s : rd) : S (option (rd * Z)) :=
        let nchars := wrapS 32 (nchars - 1) in
        if nchars =? 0 then ret (Some (s, 0)) else read_loop f fd timed o nchars s in
      let! r := (if timed then ready fd else ret true) in
      if negb r then ret None
      else
        let! c := read1 fd in
        match c with
        | None => ret (Some (s, 1))
        | Some c =>
            match read_char o s c with
            | RBreak s => ret (Some (s, 0))
            | RGo s => next s
            | RAssign s name val => on_vars (setvar0 name val) ;; next s
            end
        end
  end.

Definition read_assign (o : read_opts) (s : rd) : S unit :=
  match rd_names s with
  | [] => on_vars (setvar0 (lit "REPLY") (cstr_at (rd_buf s)))
  | name :: names =>
      on_vars (setvar0 name (cstr_at (last_value (r_ifs o) (rd_buf s)))) ;;
      for_each (fun n => on_vars (setvar0 n [])) names
  end.

(** A number of an option: 0 without it, [None] for an error. *)
Definition read_num (opt : option cstr) : option Z :=
  match opt with
  | None => Some 0
  | Some p => let r := bb_strtoul p 10 in if bool_decide (st_err r = E_OK) then Some (st_val r) else None
  end.

Definition shell_builtin_read (k : nat) (names : list cstr) (raw : bool) (opt_n opt_t opt_u : option cstr) : S Z :=
  if existsb (fun n => negb (hd0 (endofname n) ≟ NUL)) names then ret 1
  else
    match read_num opt_n with
    | None => ash_msg_and_raise_error (lit "invalid count")
    | Some n =>
        let nchars := wrapS 32 n in
        if nchars <? 0 then ash_msg_and_raise_error (lit "invalid count")
        else
          match read_num opt_t with
          | None => ash_msg_and_raise_error (lit "invalid timeout")
          | Some end_ms =>
              match read_num opt_u with
              | None => ash_msg_and_raise_error (lit "invalid file descriptor")
              | Some u =>
                  let fd := wrapS 32 u in
                  if fd <? 0 then ash_msg_and_raise_error (lit "invalid file descriptor")
                  else if bool_decide (is_Some opt_t) && (end_ms =? 0) then
                    let! r := ready fd in ret (if r : bool then 0 else 1)
                  else
                    let! ifs := bltinlookup (lit "IFS") in
                    let o := mk_read raw (default defifs ifs) in
                    let! r := read_loop k fd (bool_decide (is_Some opt_t)) o nchars (mk_rd [] names 1 false) in
                    match r with
                    | None => ret 1
                    | Some (s, retval) => read_assign o s ;; ret retval
                    end
              end
          end
    end.

Definition readcmd (k : nat) (args : list cstr) : S Z :=
  let! o := getopts (lit "p:u:rt:n:sd:") args in
  let opt c := match List.find (fun '(x, _) => x ≟ c) (fst o) with Some (_, a) => a | None => None end in
  shell_builtin_read k (snd o) (existsb (fun '(x, _) => x ≟ "r"%char) (fst o))
    (opt "n"%char) (opt "t"%char) (opt "u"%char).

End Builtins.
