(* ===== verification/AshEval.v ===== *)
(** * shell/ash.c: evaluation of parse trees

    [evaltree] and what it calls in circles: loops and case, pipelines and command
    substitutions run in the shell's own process, functions, [eval] and ".", and
    simple commands with their assignments, redirections and builtins.  All take
    the evaluator one level down as an argument; [evaltree n] allows [n] levels
    and loops of [n] turns.  A longjmp is an exception value; [catch] is a setjmp.

    [Wild] also stands for a run cut short by [n].  As configured and built: no
    job control, no aliases, no bash extensions; [fork] and [pipe] fail (the
    layer's [Procs]).  The builtins of [B_other] and the list that "hash" prints
    are an argument, [other_builtin]; the trace of "set -x" and write errors on
    stdout are not modelled. *)

From Stdlib Require Import Ascii String ZArith Lia.
From stdpp Require Import base gmap list strings.
From S2P Require Import Prelude Clib LibbbStr LibbbNum ShMath WasiCompat AshInput AshLex AshParse AshBase AshVar AshExpand AshRedir AshShell AshBuiltin.

Local Open Scope Z_scope.
Local Open Scope ash_scope.

Definition EV_EXIT : Z := 1.
Definition EV_TESTED : Z := 2.

(** ** Tables *)

Definition builtintab : list builtincmd :=
  map (fun '(fl, name, fn) => mk_builtin fl (lit name) fn)
  [(3, ".", B_dot); (3, ":", B_true); (2, "[", B_main); (3, "break", B_break); (2, "cd", B_cd);
   (0, "chdir", B_cd); (2, "command", B_command); (3, "continue", B_break); (2, "echo", B_main);
   (3, "eval", B_eval); (3, "exec", B_exec); (3, "exit", B_exit); (7, "export", B_export); (2, "false", B_false);
   (2, "hash", B_hash); (0, "help", B_other); (0, "history", B_other); (0, "let", B_let); (7, "local", B_local);
   (2, "printf", B_main); (2, "pwd", B_pwd); (2, "read", B_read); (7, "readonly", B_export); (3, "return", B_return);
   (3, "set", B_set); (3, "shift", B_shift); (2, "test", B_main); (3, "times", B_other); (3, "trap", B_trap);
   (2, "true", B_true); (2, "type", B_type); (2, "ulimit", B_other); (2, "umask", B_umask); (3, "unset", B_unset);
   (2, "wait", B_other)]%string.

Definition null_bltin : builtincmd := mk_builtin 2 [] B_null.

Definition find_builtin (name : cstr) : option builtincmd :=
  List.find (fun b => bool_decide (b_name b = name)) builtintab.

(** The long names of [optletters_optnames]. *)
Definition optnames : list cstr :=
  map lit ["errexit"; "noglob"; "ignoreeof"; ""; "monitor"; "noexec"; ""; ""; "xtrace"; "verbose"; "noclobber";
           "allexport"; "notify"; "nounset"; "errtrace"; "vi"]%string.

Definition DO_ERR : Z := 0x01.
Definition DO_ABS : Z := 0x02.
Definition DO_NOFUNC : Z := 0x04.
Definition DO_ALTPATH : Z := 0x08.
Definition DO_REGBLTIN : Z := 0x10.

Definition SIGINT : Z := 2.
Definition NTRAP_ERR : Z := NSIG.

(** ** Errors of the system *)

Definition ENOENT : Z := 44.
Definition ENOTDIR : Z := 54.
(** Set by [execve], which fails always. *)
Definition E_NOSYS : Z := 52.

(** [path] in [find_command]: the pointer [pathval()] or another text. *)
Inductive pathsel := PATHVAL | ALTPATH (path : cstr).

(** [BB_PATH_ROOT_PATH] without "PATH=/sbin:/usr/sbin:" *)
Definition bb_default_path : cstr := lit "/bin:/usr/bin".

Section Eval.
Context {F W : Type} `{Os F W}.

Abbreviation sh := (shell F W).
Abbreviation Sm := (M (shell F W)).

(** The names of signals, by number. *)
Context (signals : list cstr).
Context (other_builtin : builtincmd -> list cstr -> Sm Z).
(** APPLET_IS_NOEXEC *)
Context (noexec_applet : Z -> bool).

Definition pathval : Sm cstr := let! s := get (fun s => s) in ret (default [] (sh_lookupvar s (lit "PATH"))).

Definition catch {A} (m : Sm A) (h : exn -> Sm A) : Sm A := fun s =>
  match m s with
  | Raise s DIED => Raise s DIED
  | Raise s e => h e s
  | r => r
  end.

(** The longjmp was to here: its exception, or a result. *)
Definition setjmp {A} (m : Sm A) : Sm (A + exn) := catch (let! a := m in ret (inl a)) (fun e => ret (inr e)).

Definition get_ctl {A} (f : ctl -> A) : Sm A := get (fun s => f (sh_ctl s)).
Definition upd_ctl (f : ctl -> ctl) : Sm unit := modify (mod_ctl f).
Definition upd_traps (f : traps -> traps) : Sm unit := modify (mod_traps f).
Definition get_trap (n : Z) : Sm (option cstr) := get (fun s => t_trap (sh_traps s) !! n).

(** ** Command table *)

Definition cmdlookup (name : cstr) : Sm (option tblentry) := get (fun s => sh_cmds s !! name).
Definition delete_cmd_entry (name : cstr) : Sm unit := modify (mod_cmds (delete name)).
Definition addcmdentry (name : cstr) (e : cmdentry) : Sm unit := modify (mod_cmds <[name := mk_tbl e false]>).

Definition defun (linno : Z) (text : cstr) (body : node) : Sm unit :=
  addcmdentry text (CMDFUNCTION (mk_func text linno body)).

Definition unsetfunc (name : cstr) : Sm unit :=
  let! e := cmdlookup name in
  match tb_cmd <$> e with Some (CMDFUNCTION _) => delete_cmd_entry name | _ => ret tt end.

(** ** Input files *)

Definition setinputfile (fname : cstr) : Sm unit :=
  let! r := on_redir (open fname O_RDONLY) in
  match r with
  | inr _ => modify (set_exit 127) ;; ash_msg_and_raise_error (lit "can't open '" ++ fname ++ lit "'")
  | inl fd =>
      let! fd := (if fd <? 10 then on_redir (savefd fd) else ret fd) in
      let! s := get (fun s => s) in
      let reads := match fds s !! fd with Some f => os_reads (world s) f | None => [] end in
      on_parser (setinputfd fd reads true)
  end.

(** ** The evaluator one level down *)

Section Procs.
Context (evaltree : node -> Z -> Sm Z) (k : nat).

(** *** Strings and files of commands *)

Fixpoint eval_cmds (fuel : nat) (flags status : Z) : Sm Z :=
  match fuel with
  | O => wild
  | S f =>
      let! n := on_parser (parsecmd k false) in
      match n with
      | NODE_EOF => ret status
      | _ =>
          let! p := get sh_in in
          let parser_eof := p_tokpushback p && bool_decide (p_lasttoken p = TEOF) in
          let! i := evaltree n (Z.land flags (Z.lnot (if parser_eof then 0 else EV_EXIT))) in
          let status := match n with Null => status | _ => i end in
          let! skip := get_ctl evalskip in
          if skip =? 0 then eval_cmds f flags status else ret status
      end
  end.

Definition evalstring (s : cstr) (flags : Z) : Sm Z :=
  on_parser (setinputstring s) ;;
  let! st := catch (eval_cmds k flags 0) (fun e => popfile ;; raise e) in
  popfile ;; ret st.

(** [cmdloop(0)] *)
Fixpoint cmdloop_n (fuel : nat) (status : Z) : Sm Z :=
  match fuel with
  | O => wild
  | S f =>
      let! n := on_parser (parsecmd k false) in
      match n with
      | NODE_EOF => ret status
      | _ =>
          let! i := evaltree n 0 in
          let status := match n with Null => status | _ => i end in
          let! skip := get_ctl evalskip in
          if skip =? 0 then cmdloop_n f status
          else
            upd_ctl (fun c => set_evalskip (Z.land (evalskip c) (Z.lnot (Z.lor SKIPFUNC SKIPFUNCDEF))) c) ;;
            ret status
      end
  end.
Definition cmdloop : Sm Z := cmdloop_n k 0.

Definition readcmdfile (name : cstr) : Sm unit := setinputfile name ;; cmdloop ;; popfile.

(** *** Finding commands *)

(** The entry in the table is used. *)
Definition find_success (name : cstr) : Sm cmdentry :=
  let! e := cmdlookup name in
  let! e := deref e in
  addcmdentry name (tb_cmd e) ;; ret (tb_cmd e).

Definition builtin_success (updatetbl : bool) (name : cstr) (b : builtincmd) : Sm cmdentry :=
  if updatetbl then addcmdentry name (CMDBUILTIN b) ;; find_success name else ret (CMDBUILTIN b).

(** The loop over PATH; [prev]: where the entry under rehash was found. *)
Fixpoint path_loop (fuel : nat) (name : cstr) (act : Z) (updatetbl : bool) (bcmd : option builtincmd) (prev : Z)
  (path : option cstr) (idx : Z) : Sm (option cmdentry) :=
  match fuel with
  | O => ret None
  | S f =>
      match padvance path name with
      | None => ret None
      | Some (fullname, path, lpathopt) =>
          let idx := idx + 1 in
          let next := path_loop f name act updatetbl bcmd prev path idx in
          let found (m : Sm cmdentry) := let! e := m in ret (Some e) in
          let try_file :=
            if (hd0 fullname ≟ "/"%char) && (idx <=? prev) then
              if idx <? prev then next else found (find_success name)
            else
              let! w := get world in
              match h_stat w fullname with
              | Some true =>
                  match lpathopt with
                  | Some _ =>
                      readcmdfile fullname ;;
                      let! e := cmdlookup name in
                      match tb_cmd <$> e with
                      | Some (CMDFUNCTION _) => found (find_success name)
                      | _ => ash_msg_and_raise_error (name ++ lit " not defined in " ++ fullname)
                      end
                  | None =>
                      if updatetbl then addcmdentry name (CMDNORMAL idx) ;; found (find_success name)
                      else ret (Some (CMDNORMAL idx))
                  end
              | _ => next
              end in
          match lpathopt with
          | Some o =>
              if hd0 o ≟ "b"%char then
                match bcmd with Some b => found (builtin_success updatetbl name b) | None => next end
              else if has act DO_NOFUNC then next else try_file
          | None => try_file
          end
      end
  end.

Definition find_command (name : cstr) (act : Z) (path : pathsel) : Sm cmdentry :=
  if strchr name "/" then
    let! w := get world in
    match (if has act DO_ABS then h_stat w name else Some true) with
    | None => ret CMDUNKNOWN
    | Some _ => ret (CMDNORMAL (-1))
    end
  else
    let! pathtext := match path with PATHVAL => pathval | ALTPATH p => ret p end in
    let updatetbl := match path with PATHVAL => true | ALTPATH _ => false end in
    let act := if updatetbl then act else Z.lor act DO_ALTPATH in
    let! cmdp := cmdlookup name in
    let bit := match tb_cmd <$> cmdp with
               | Some (CMDFUNCTION _) => DO_NOFUNC
               | Some (CMDBUILTIN b) => if IS_BUILTIN_REGULAR b then 0 else DO_REGBLTIN
               | Some _ => Z.lor DO_ALTPATH DO_REGBLTIN
               | None => 0
               end in
    if has (Z.land act bit) DO_REGBLTIN then ret CMDUNKNOWN
    else
      let passed := has act bit in      (* the entry may not be used *)
      let updatetbl := updatetbl && negb passed in
      let cmdp := if passed then None else cmdp in
      match cmdp with
      | Some (mk_tbl _ false) => find_success name
      | _ =>
          let! s := get (fun s => s) in
          let bcmd := find_builtin name in
          let search :=
            if has act DO_REGBLTIN then ret CMDUNKNOWN
            else
              match os_applet name with
              | Some no => ret (CMDNORMAL (-2 - no))
              | None =>
                  let prev := match tb_cmd <$> cmdp with
                              | Some (CMDBUILTIN _) => sh_builtinloc s
                              | Some (CMDNORMAL index) => index
                              | _ => -1
                              end in
                  let! r := path_loop (S (S (length pathtext))) name act updatetbl bcmd prev (Some pathtext) (-1) in
                  match r with
                  | Some e => ret e
                  | None =>
                      (if updatetbl && bool_decide (is_Some cmdp) then delete_cmd_entry name else ret tt) ;;
                      ret CMDUNKNOWN
                  end
              end in
          match bcmd with
          | Some b =>
              if IS_BUILTIN_REGULAR b || has act DO_ALTPATH || (sh_builtinloc s <=? 0)
              then builtin_success updatetbl name b else search
          | None => search
          end
      end.

(** *** Command substitution *)

Definition EXP_REDIR : Z := 0x8.

(** [$(n)] in the shell's own process: stdout goes to a temporary file, the
    evaluator's and the expander's variables are saved, every exception ends the
    substitution only.  The buffers the caller reads, and the status. *)
Definition osd_evalbackcmd_inproc (n : node) : Sm (option (list cstr) * Z) :=
  let! s0 := get (fun s => s) in
  let tmppath := lit "/tmp/.osdbq" ++ fmt_d (sh_depth s0) in
  let! saved1 := on_redir (dupfd 1 10) in
  let! tmp := on_redir (open tmppath O_RDWR_CREAT_TRUNC) in
  match tmp with
  | inr _ =>
      (if 0 <=? saved1 then on_redir (close saved1) else ret tt) ;;
      ash_msg_and_raise_error (lit "can't capture backquote output")
  | inl tmpfd =>
      if saved1 <? 0 then
        on_redir (close tmpfd) ;; ash_msg_and_raise_error (lit "can't capture backquote output")
      else
        modify (set_depth (sh_depth s0 + 1)) ;;
        on_redir (dup2 tmpfd 1 ;; modify (add_stdio 1)) ;;
        let! s := get (fun s => s) in
        upd_ctl (fun _ => mk_ctl 0 0 0 0) ;;
        modify (set_opt 0 0) ;;
        modify (set_ifs []) ;;
        catch (evaltree n 0 ;; ret tt) (fun e =>
          match e with
          | EXEXIT => let! st := get sh_savestatus in if 0 <=? st then modify (set_exit st) else ret tt
          | _ => modify (set_exit 2)
          end) ;;
        let! osd_bq_status := get s_exit in
        upd_ctl (fun _ => sh_ctl s) ;;
        modify (set_exit (s_exit s)) ;;
        modify (set_savestatus (sh_savestatus s)) ;;
        modify (set_opt 0 (nth 0 (s_optlist (sh_vars s)) 0)) ;;
        on_redir (dup2 saved1 1 ;; close saved1 ;; modify (add_stdio 1)) ;;
        let! s := get (fun s => s) in
        modify (put_world (os_unlink (world s) tmppath)) ;;
        modify (set_depth (sh_depth s - 1)) ;;
        let! s := get (fun s => s) in
        let reads := match fds s !! tmpfd with Some f => os_reads (world s) f | None => [] end in
        on_redir (close tmpfd) ;;        (* the caller's, after reading *)
        ret (Some reads, osd_bq_status)
  end.

Definition expandarg (a : arg) (flag : Z) : Sm (list cstr) :=
  on_expander (AshExpand.expandarg osd_evalbackcmd_inproc getpwnam os_fnmatch
    (fun s => os_readdir (world s)) (fun s => os_lstat (world s)) a flag).

Definition casematch (pattern : arg) (val : cstr) : Sm bool :=
  on_expander (AshExpand.casematch osd_evalbackcmd_inproc getpwnam os_fnmatch pattern val).

Fixpoint expandargs (l : list arg) (flag : Z) : Sm (list cstr) :=
  match l with
  | [] => ret []
  | a :: l => let! w := expandarg a flag in let! ws := expandargs l flag in ret (w ++ ws)
  end.

(** *** Redirections *)

(** [fixredir(redir, text, 1)] *)
Definition fixredir (text : cstr) : Sm Z :=
  let r := bb_strtoul text 10 in
  let fd := wrapS 32 (st_val r) in
  if bool_decide (st_err r = E_OK) && (0 <=? fd) then ret fd
  else if LONE_DASH text then ret (-1)
  else on_parser (AshInput.raise_error_syntax (lit "bad fd number")).

Definition expredir_one (r : redir) : Sm xredir :=
  match r with
  | NFILE type fd fname =>
      let! fname := deref fname in
      let! l := expandarg fname (Z.lor EXP_TILDE EXP_REDIR) in
      let! text := deref (head l) in
      ret (XFILE type fd text)
  | NDUP _ fd dupfd None => ret (XDUP fd dupfd)
  | NDUP _ fd _ (Some vname) =>
      let! l := expandarg vname (Z.lor EXP_TILDE EXP_REDIR) in
      match l with
      | [] => ash_msg_and_raise_error (lit "redir error")
      | text :: _ => let! dupfd := fixredir text in ret (XDUP fd dupfd)
      end
  | NHERE_AT fd _ => ret (XHERE fd)
  end.

Fixpoint expredir (l : list redir) : Sm (list xredir) :=
  match l with
  | [] => ret []
  | r :: l => let! x := expredir_one r in let! xs := expredir l in ret (x :: xs)
  end.

Definition redir_pop (l : list redir) (drop : bool) : Sm unit :=
  match l with [] => ret tt | _ => on_redir (popredir drop) end.

(** *** Traps *)

Definition run_trap (p : cstr) : Sm unit :=
  modify (set_trap_depth (fun d => d + 1)) ;;
  evalstring p 0 ;;
  modify (set_trap_depth (fun d => d - 1)).

Fixpoint trap_loop (sigs : list Z) (status : Z) : Sm unit :=
  match sigs with
  | [] => ret tt
  | sig :: sigs =>
      let! t := get sh_traps in
      if negb (bool_decide (sig ∈ t_gotsig t)) then trap_loop sigs status
      else
        let! skip := get_ctl evalskip in
        if negb (skip =? 0) then upd_traps (set_pending sig)
        else
          let p := t_trap t !! sig in
          match p with
          | None =>
              (if sig =? SIGINT then ret tt
               else upd_traps (fun t => set_gotsig (filter (fun g => g <> sig) (t_gotsig t)) t)) ;;
              trap_loop sigs status
          | Some p =>
              upd_traps (fun t => set_gotsig (filter (fun g => g <> sig) (t_gotsig t)) t) ;;
              run_trap p ;;
              let! skip := get_ctl evalskip in
              (if skip =? SKIPFUNC then ret tt else modify (set_exit status)) ;;
              trap_loop sigs status
          end
  end.

Definition dotrap : Sm unit :=
  let! s := get (fun s => s) in
  if t_pending (sh_traps s) =? 0 then ret tt
  else
    let last_status := sh_savestatus s in
    let status := if last_status <? 0 then s_exit s else last_status in
    modify (set_savestatus status) ;;
    upd_traps (set_pending 0) ;;
    trap_loop (seqZ 1 (NSIG - 1)) status ;;
    modify (set_savestatus last_status).

(** *** Loops *)

Definition skiploop : Sm Z :=
  let! c := get sh_ctl in
  let skip := evalskip c in
  if (skip =? SKIPBREAK) || (skip =? SKIPCONT) then
    upd_ctl (set_skipcount (skipcount c - 1)) ;;
    if skipcount c - 1 <=? 0 then upd_ctl (set_evalskip 0) ;; ret skip
    else ret SKIPBREAK
  else ret skip.

(** [do ... while (!(skip & ~SKIPCONT))]; [until]: NUNTIL. *)
Fixpoint evalloop_n (fuel : nat) (until : bool) (ch1 ch2 : node) (flags status : Z) : Sm Z :=
  match fuel with
  | O => wild
  | S f =>
      let again (skip status : Z) : Sm Z :=
        if Z.land skip (Z.lnot SKIPCONT) =? 0 then evalloop_n f until ch1 ch2 flags status else ret status in
      let! i := evaltree ch1 EV_TESTED in
      let! skip := skiploop in
      let status := if skip =? SKIPFUNC then i else status in
      if negb (skip =? 0) then again skip status
      else if (if until then i =? 0 else negb (i =? 0)) then ret status
      else
        let! status := evaltree ch2 flags in
        let! skip := skiploop in
        again skip status
  end.

Definition enter_loop : Sm unit := upd_ctl (fun c => set_loopnest (loopnest c + 1) c).
Definition leave_loop : Sm unit := upd_ctl (fun c => set_loopnest (loopnest c - 1) c).

Definition evalloop (until : bool) (ch1 ch2 : node) (flags : Z) : Sm Z :=
  enter_loop ;;
  let! status := evalloop_n k until ch1 ch2 (Z.land flags EV_TESTED) 0 in
  leave_loop ;; ret status.

Fixpoint evalfor_words (l : list cstr) (var : cstr) (body : node) (flags status : Z) : Sm Z :=
  match l with
  | [] => ret status
  | w :: l =>
      on_vars (setvar0 var w) ;;
      let! status := evaltree body flags in
      let! skip := skiploop in
      if Z.land skip (Z.lnot SKIPCONT) =? 0 then evalfor_words l var body flags status else ret status
  end.

Definition evalfor (linno : Z) (args : list arg) (body : node) (var : cstr) (flags : Z) : Sm Z :=
  modify (set_linenos linno) ;;
  let! words := expandargs args (Z.lor EXP_FULL EXP_TILDE) in
  enter_loop ;;
  let! status := evalfor_words words var body (Z.land flags EV_TESTED) 0 in
  leave_loop ;; ret status.

Fixpoint match_any (pats : list arg) (val : cstr) : Sm bool :=
  match pats with
  | [] => ret false
  | p :: pats => let! b := casematch p val in if b : bool then ret true else match_any pats val
  end.

Fixpoint evalcases (cases : list nclist) (val : cstr) (flags : Z) : Sm Z :=
  match cases with
  | [] => ret 0
  | NCLIST pats body :: cases =>
      let! skip := get_ctl evalskip in
      if negb (skip =? 0) then ret 0
      else
        let! b := match_any pats val in
        if b : bool then
          let! skip := get_ctl evalskip in
          match body with
          | Null => ret 0
          | _ => if skip =? 0 then evaltree body flags else ret 0
          end
        else evalcases cases val flags
  end.

Definition evalcase (linno : Z) (expr : arg) (cases : list nclist) (flags : Z) : Sm Z :=
  modify (set_linenos linno) ;;
  let! l := expandarg expr EXP_TILDE in
  let! val := deref (head l) in
  evalcases cases val flags.

(** *** Subshells and pipelines *)

(** The layer's [fork] fails. *)
Definition forkshell {A} : Sm A :=
  if fst Procs.fork <? 0 then ash_msg_and_raise_error (lit "can't fork") else wild.

Definition evalsubshell (backgnd : bool) (linno : Z) (n : node) (redirect : list redir) (flags : Z) : Sm Z :=
  modify (set_linenos linno) ;;
  let! l := expredir redirect in
  let! t := get sh_traps in
  if negb backgnd && has flags EV_EXIT && negb (t_may_have t) then
    on_redir (AshRedir.redirect l false) ;; evaltree n flags
  else forkshell.

Definition goodname (p : cstr) : bool := bool_decide (endofname p = []).

Definition prehash (n : node) : Sm unit :=
  match n with
  | NCMD _ _ (NARG text _ :: _) _ =>
      if goodname text then find_command text 0 PATHVAL ;; ret tt else ret tt
  | _ => ret tt
  end.

Definition dup_over (saved fd : Z) : M (rstate F W) unit :=
  if 0 <=? saved then dup2 saved fd ;; close saved else ret tt.

(** The stages one after the other, the output of each kept in a file for the
    next; [prevfd]: the output of the stage before, or -1. *)
Fixpoint evalstages (l : list node) (prevfd : Z) (flags status : Z) : Sm Z :=
  match l with
  | [] => ret status
  | n :: l =>
      prehash n ;;
      let! out := (match l with
                   | [] => ret (-1, [])
                   | _ =>
                       let! seq := get sh_pipeseq in
                       let seq := wrapU 32 (seq + 1) in
                       modify (set_pipeseq seq) ;;
                       let osd_tmp := lit "/tmp/.osdp" ++ fmt_u seq in
                       let! r := on_redir (open osd_tmp O_WRONLY_CREAT_TRUNC) in
                       match r with
                       | inl fd => ret (fd, osd_tmp)
                       | inr _ =>
                           (if 0 <=? prevfd then on_redir (close prevfd) else ret tt) ;;
                           ash_msg_and_raise_error (lit "can't create pipe")
                       end
                   end) in
      let '(outfd, osd_tmp) := out in
      let! saved := on_redir (
        let! save0 := dupfd 0 10 in
        let! save1 := dupfd 1 10 in
        dup_over prevfd 0 ;;
        dup_over outfd 1 ;;
        modify (add_stdio 0) ;; modify (add_stdio 1) ;;
        ret (save0, save1)) in
      evaltree n flags ;;
      let! status := get s_exit in
      on_redir (dup_over (fst saved) 0 ;; dup_over (snd saved) 1) ;;
      let! prevfd := (match l with
                      | [] => ret (-1)
                      | _ =>
                          let! r := on_redir (open osd_tmp O_RDONLY) in
                          modify (fun s => put_world (os_unlink (world s) osd_tmp) s) ;;
                          ret (match r with inl fd => fd | inr _ => -1 end)
                      end) in
      evalstages l prevfd flags status
  end.

Definition evalpipe (cmdlist : list node) (flags : Z) : Sm Z :=
  evalstages cmdlist (-1) (Z.land flags (Z.lnot EV_EXIT)) 0.

(** *** Functions *)

(** The exception that ended the function, if one did. *)
Definition evalfun (func : funcnode) (args : list cstr) (flags : Z) : Sm (option exn) :=
  let! s := get (fun s => s) in
  let savetrap := if Eflag s then None else t_trap (sh_traps s) !! NTRAP_ERR in
  (if Eflag s then ret tt else upd_traps (fun t => set_trap (delete NTRAP_ERR (t_trap t)) t)) ;;
  let! e := setjmp (
    modify (set_funcname (Some (fn_text func))) ;;
    upd_ctl (set_funcline (fn_linno func)) ;;
    modify (set_params args) ;;
    evaltree (fn_body func) (Z.land flags EV_TESTED)) in
  modify (set_funcname (s_funcname (sh_vars s))) ;;
  (match savetrap with
   | Some p => upd_traps (fun t => match t_trap t !! NTRAP_ERR with
                                   | None => set_trap (<[NTRAP_ERR := p]> (t_trap t)) t
                                   | Some _ => t
                                   end)
   | None => ret tt
   end) ;;
  upd_ctl (set_funcline (funcline (sh_ctl s))) ;;
  modify (set_lineno (s_lineno (sh_vars s))) ;;
  modify (set_params (sh_params s)) ;;
  upd_ctl (fun c => set_evalskip (Z.land (evalskip c) (Z.lnot (Z.lor SKIPFUNC SKIPFUNCDEF))) c) ;;
  ret (match e with inl _ => None | inr e => Some e end).

(** *** Running what is not a builtin *)

Definition environ (lp : list cstr) : Sm (list cstr) := on_vars (listvars VEXPORT VUNSET lp).

Definition run_applet (no : Z) (argv env : list cstr) : Sm Z :=
  let! s := get (fun s => s) in
  let '(w, st) := os_run_applet no argv env (fds s) (world s) in
  modify (put_world w) ;; ret st.

(** [osd_spawn]: a status, or [errno]. *)
Definition osd_spawn (path : cstr) (argv env : list cstr) : Sm (Z + Z) :=
  let! s := get (fun s => s) in
  let '(w, r) := os_spawn path argv env (fds s) (world s) in
  modify (put_world w) ;; ret r.

Definition spawn_status (e : Z) : Z := if (e =? ENOENT) || (e =? ENOTDIR) then 127 else 126.

Fixpoint spawn_loop (fuel : nat) (name : cstr) (argv env : list cstr) (path : option cstr) (idx e : Z) : Sm Z :=
  match fuel with
  | O => ret (spawn_status e)
  | S f =>
      match padvance path name with
      | None => ret (spawn_status e)
      | Some (cmdname, path, pathopt) =>
          let idx := idx - 1 in
          if (idx <? 0) && bool_decide (pathopt = None) then
            let! r := osd_spawn cmdname argv env in
            match r with
            | inl st => ret st
            | inr err =>
                spawn_loop f name argv env path idx
                  (if (err =? ENOENT) || (err =? ENOTDIR) then e else err)
            end
          else spawn_loop f name argv env path idx e
      end
  end.

Definition osd_spawn_command (argv : list cstr) (path : cstr) (idx : Z) (env : list cstr) : Sm Z :=
  let! name := deref (head argv) in
  if strchr name "/" then
    let! r := osd_spawn name argv env in
    ret (match r with inl st => st | inr e => spawn_status e end)
  else spawn_loop (S (S (length path))) name argv env (Some path) idx ENOENT.

(** [tryexec] of a file: the page runs it and the process ends, or [errno] is that
    of the [execve] that follows. *)
Definition tryexec (cmd : cstr) (argv env : list cstr) : Sm Z :=
  let! r := osd_spawn cmd argv env in
  match r with
  | inl st => modify (set_exit st) ;; raise DIED
  | inr _ => ret E_NOSYS
  end.

Fixpoint exec_loop (fuel : nat) (name : cstr) (argv env : list cstr) (path : option cstr) (idx e : Z) : Sm Z :=
  match fuel with
  | O => ret e
  | S f =>
      match padvance path name with
      | None => ret e
      | Some (cmdname, path, pathopt) =>
          let idx := idx - 1 in
          if (idx <? 0) && bool_decide (pathopt = None) then
            let! err := tryexec cmdname argv env in
            exec_loop f name argv env path idx (if (err =? ENOENT) || (err =? ENOTDIR) then e else err)
          else exec_loop f name argv env path idx e
      end
  end.

(** [shellexec] does not return.  An applet that is run without exec (NOEXEC)
    ends the process too. *)
Definition ELOOP : Z := 32.
Definition ENAMETOOLONG : Z := 37.

Definition shellexec {A} (prog : cstr) (argv : list cstr) (path : cstr) (idx : Z) : Sm A :=
  let! env := environ [] in
  let! name := deref (head argv) in
  let try_PATH := exec_loop (S (S (length path))) name argv env (Some path) idx ENOENT in
  let! e := (match (if strchr prog "/" then None else os_applet prog) with
             | Some no =>
                 (if noexec_applet no then
                    on_redir (popredir true) ;;
                    let! st := run_applet no argv env in
                    modify (set_exit st) ;; raise DIED
                  else ret tt) ;;
                 tryexec prog argv env ;; try_PATH
             | None => if strchr prog "/" then tryexec prog argv env else try_PATH
             end) in
  modify (set_exit (if (e =? ELOOP) || (e =? ENAMETOOLONG) || (e =? ENOENT) || (e =? ENOTDIR) then 127 else 126)) ;;
  raise EXEND.

(** *** Builtins *)

Definition breakcmd (argv : list cstr) : Sm Z :=
  let! n := match argv with _ :: a :: _ => number a | _ => ret 1 end in
  (if n <=? 0 then ash_msg_and_raise_error (lit "Illegal number: " ++ default [] (argv !! 1%nat)) else ret tt) ;;
  let! c := get sh_ctl in
  let n := if loopnest c <? n then loopnest c else n in
  (if 0 <? n then
     upd_ctl (fun c => set_skipcount n (set_evalskip (if hd0 (default [] (head argv)) ≟ "c"%char then SKIPCONT else SKIPBREAK) c))
   else ret tt) ;;
  ret 0.

Definition returncmd (argv : list cstr) : Sm Z :=
  match argv with
  | _ :: a :: _ => let! status := number a in upd_ctl (set_evalskip SKIPFUNC) ;; ret status
  | _ => let! status := get s_exit in upd_ctl (set_evalskip SKIPFUNCDEF) ;; ret status
  end.

Definition exitcmd (argv : list cstr) : Sm Z :=
  match argv with
  | _ :: a :: _ => let! st := number a in modify (set_savestatus st)
  | _ => ret tt
  end ;;
  raise EXEXIT.

(** The operands joined by blanks. *)
Fixpoint join_sp (l : list cstr) : cstr :=
  match l with [] => [] | [a] => a | a :: l => a ++ SP :: join_sp l end.

Definition evalcmd (argv : list cstr) (flags : Z) : Sm Z :=
  match argv with
  | _ :: a :: l => evalstring (join_sp (a :: l)) (Z.land flags EV_TESTED)
  | _ => ret 0
  end.

Definition shiftcmd (argv : list cstr) : Sm Z :=
  let! n := match argv with _ :: a :: _ => number a | _ => ret 1 end in
  let! p := get sh_params in
  if n <? 0 then wild       (* a number atoi cannot represent *)
  else if Z.of_nat (length p) <? n then ret 1 else modify (set_params (drop (Z.to_nat n) p)) ;; ret 0.

Fixpoint find_dot_loop (fuel : nat) (basename : cstr) (path : option cstr) : Sm cstr :=
  match fuel with
  | O => wild
  | S f =>
      match padvance path basename with
      | None => ash_msg_and_raise_error (basename ++ lit ": not found")
      | Some (fullname, path, pathopt) =>
          let! w := get world in
          if (match pathopt with None => true | Some o => hd0 o ≟ "f"%char end) &&
             bool_decide (h_stat w fullname = Some true)
          then ret fullname else find_dot_loop f basename path
      end
  end.

Definition find_dot_file (basename : cstr) : Sm cstr :=
  if strchr basename "/" then ret basename
  else let! path := pathval in find_dot_loop (S (S (length path))) basename (Some path).

Definition dotcmd (args : list cstr) : Sm Z :=
  let! o := getopts [] args in
  match snd o with
  | [] => ret 2
  | file :: args =>
      let! fullname := find_dot_file file in
      let! s := get (fun s => s) in
      (match args with [] => ret tt | _ => modify (set_params args) end) ;;
      setinputfile fullname ;;
      modify (set_commandname fullname) ;;
      let! status := cmdloop in
      popfile ;;
      (match args with [] => ret tt | _ => modify (set_params (sh_params s)) end) ;;
      ret status
  end.

Definition unsetcmd (args : list cstr) : Sm Z :=
  let! o := getopts (lit "vf") args in
  let flag := fst <$> head (fst o) in
  for_each (fun a => if bool_decide (flag = Some "f"%char) then unsetfunc a else on_vars (unsetvar a)) (snd o) ;;
  ret 0.

(** [export] and [readonly] *)
Definition exportcmd (argv : list cstr) : Sm Z :=
  let! o := getopts (lit "np") (tail argv) in
  match snd o with
  | [] =>
      let name := default [] (head argv) in
      showvars name (if hd0 name ≟ "r"%char then VREADONLY else VEXPORT) 0
  | names =>
      let readonly := hd0 (default [] (head argv)) ≟ "r"%char in
      on_vars (AshVar.exportcmd readonly (existsb (fun '(c, _) => c ≟ "n"%char) (fst o)) names) ;; ret 0
  end.

(** *** set *)

Definition setoption (flag : ascii) (val : Z) : Sm unit :=
  match List.find (fun i => (nth i optletters NUL ≟ flag) && negb (bool_decide (nth i optnames [] = []))) (seq 0 16) with
  | Some i => modify (set_opt i val)
  | None => ash_msg_and_raise_error (lit "illegal option " ++ (if val =? 0 then "+"%char else "-"%char) :: [flag])
  end.

(** [plus_minus_o] with a name: true for an unknown one. *)
Definition plus_minus_o (name : cstr) (val : Z) : Sm bool :=
  match List.find (fun i => bool_decide (nth i optnames [] = name)) (seq 0 16) with
  | Some i => modify (set_opt i val) ;; ret false
  | None => ret true
  end.

(** The letters of one word; the operands of "o" come from [argptr].  [None]: an
    error was printed. *)
Fixpoint option_letters (p : cstr) (val : Z) (argptr : list cstr) : Sm (option (list cstr)) :=
  match p with
  | [] => ret (Some argptr)
  | c :: p =>
      if c ≟ "o"%char then
        match argptr with
        | [] => option_letters p val []
        | name :: rest =>
            let! bad := plus_minus_o name val in
            if bad : bool then ret None else option_letters p val rest
        end
      else setoption c val ;; option_letters p val argptr
  end.

(** [options(NULL)]: what is left of [argptr]. *)
Fixpoint options (fuel : nat) (argptr : list cstr) : Sm (option (list cstr)) :=
  match fuel with
  | O => wild
  | S f =>
      match argptr with
      | (c :: p) :: rest =>
          if negb ((c ≟ "-"%char) || (c ≟ "+"%char)) then ret (Some argptr)
          else if (c ≟ "-"%char) && (bool_decide (p = []) || LONE_DASH p) then
            (match p with
             | [] => modify (fun s => set_opt 8 0 (set_opt 9 0 s))
             | _ => match rest with [] => modify (set_params []) | _ => ret tt end
             end) ;;
            ret (Some rest)
          else
            let! r := option_letters p (if c ≟ "-"%char then 1 else 0) rest in
            match r with
            | Some rest => options f rest
            | None => ret None
            end
      | _ => ret (Some argptr)
      end
  end.

(** [optschanged] turns vi mode off again. *)
Definition setcmd (argv : list cstr) : Sm Z :=
  match argv with
  | _ :: ((_ :: _) as args) =>
      let! r := options (S (length argv)) args in
      match r with
      | None => ret 1
      | Some rest =>
          modify (set_opt 15 0) ;;
          (match rest with [] => ret tt | _ => modify (set_params rest) end) ;; ret 0
      end
  | _ => showvars [] 0 VUNSET
  end.

(** *** trap *)

Fixpoint trap_set (sigs : list cstr) (action : option cstr) (exitcode : Z) : Sm Z :=
  match sigs with
  | [] => ret exitcode
  | a :: sigs =>
      let signo := if bool_decide (a = lit "ERR") then NTRAP_ERR else get_signum signals a in
      if signo <? 0 then trap_set sigs action 1
      else
        let action := match action with Some x => if LONE_DASH x then None else Some x | None => None end in
        upd_traps (fun t =>
          let t := match action with Some (_ :: _) => set_may_have true t | _ => t end in
          set_trap (match action with Some x => <[signo := x]> (t_trap t) | None => delete signo (t_trap t) end) t) ;;
        trap_set sigs action exitcode
  end.

Definition trapcmd (argv : list cstr) : Sm Z :=
  let! o := getopts [] (tail argv) in
  match snd o with
  | [] => show_traps signals
  | a :: _ :: _ =>
      if is_number a then trap_set (snd o) None 0 else trap_set (tail (snd o)) (Some a) 0
  | ap => trap_set ap None 0
  end.

(** *** exec *)

Definition execcmd (args : list cstr) : Sm Z :=
  let! o := getopts (lit "a:") args in
  match snd o with
  | [] => ret 0
  | prog :: rest =>
      modify (set_opt 3 0) ;; modify (set_opt 4 0) ;; modify (set_opt 15 0) ;;
      let! path := pathval in
      let argv0 := match fst o with (_, Some a) :: _ => a | _ => prog end in
      shellexec prog (argv0 :: rest) path 0
  end.

(** *** hash, type and "command -v" *)

Fixpoint hash_names (names : list cstr) (c : Z) : Sm Z :=
  match names with
  | [] => ret c
  | name :: names =>
      let! s := get (fun s => s) in
      (match sh_cmds s !! name with
       | Some e => if hashed (sh_builtinloc s) e then delete_cmd_entry name else ret tt
       | None => ret tt
       end) ;;
      let! e := find_command name DO_ERR PATHVAL in
      hash_names names (match e with CMDUNKNOWN => 1 | _ => c end)
  end.

Definition hashcmd (b : builtincmd) (argv : list cstr) : Sm Z :=
  match nextopt (lit "r") (tail argv) [] with
  | Opt _ _ _ _ => clearcmdentry ;; ret 0
  | OptErr msg => ash_msg_and_raise_error msg
  | OptEnd [] => other_builtin b argv
  | OptEnd names => hash_names names 0
  end.

(** The candidate at index [j] of the path. *)
Fixpoint padvance_n (j : nat) (path : option cstr) (name : cstr) (last : cstr) : cstr :=
  match padvance path name with
  | None => last
  | Some (fullname, path, _) => match j with O => fullname | S j => padvance_n j path name fullname end
  end.

Definition describe_command (command : cstr) (path : pathsel) (verbose : bool) : Sm Z :=
  (if verbose then out1 command else ret tt) ;;
  match findkwd command with
  | Some _ => out1 (if verbose then lit " is a shell keyword" else command) ;; out1 [NL] ;; ret 0
  | None =>
      let! e := find_command command DO_ABS path in
      let! pathtext := match path with PATHVAL => pathval | ALTPATH p => ret p end in
      match e with
      | CMDNORMAL j =>
          let p := if j <? 0 then command else padvance_n (Z.to_nat j) (Some pathtext) command [] in
          out1 (if verbose then lit " is " ++ p else p) ;; out1 [NL] ;; ret 0
      | CMDFUNCTION _ => out1 (if verbose then lit " is a function" else command) ;; out1 [NL] ;; ret 0
      | CMDBUILTIN b =>
          out1 (if verbose then lit " is a " ++ (if IS_BUILTIN_SPECIAL b then lit "special " else []) ++ lit "shell builtin"
                else command) ;; out1 [NL] ;; ret 0
      | CMDUNKNOWN => (if verbose then out1 (lit ": not found" ++ [NL]) else ret tt) ;; ret 127
      end
  end.

Fixpoint describe_all (l : list cstr) (verbose : bool) (err : Z) : Sm Z :=
  match l with
  | [] => ret err
  | c :: l => let! st := describe_command c PATHVAL verbose in describe_all l verbose (Z.lor err st)
  end.

Definition typecmd (args : list cstr) : Sm Z :=
  match args with
  | (("-"%char :: _) as _a) :: l => describe_all l false 0
  | l => describe_all l true 0
  end.

(** "command" with -v or -V, or without a command. *)
Definition commandcmd (args : list cstr) : Sm Z :=
  let! o := getopts (lit "pvV") args in
  let given c := existsb (fun '(x, _) => x ≟ c) (fst o) in
  match snd o with
  | [] => ret 0
  | cmd :: _ =>
      describe_command cmd (if given "p"%char then ALTPATH bb_default_path else PATHVAL) (given "V"%char)
  end.

Definition run_builtin (b : builtincmd) (argv : list cstr) (flags : Z) : Sm Z :=
  match b_fn b with
  | B_dot => dotcmd (tail argv)
  | B_true => ret 0
  | B_false => ret 1
  | B_null => get sh_back_exitstatus
  | B_break => breakcmd argv
  | B_eval => evalcmd argv flags
  | B_exec => execcmd (tail argv)
  | B_exit => exitcmd argv
  | B_export => exportcmd argv
  | B_local => on_vars (localcmd (tail argv)) ;; ret 0
  | B_return => returncmd argv
  | B_set => setcmd argv
  | B_shift => shiftcmd argv
  | B_trap => trapcmd argv
  | B_unset => unsetcmd (tail argv)
  | B_main =>
      let! no := deref (os_applet (b_name b)) in run_applet no argv []
  | B_cd => cdcmd (tail argv)
  | B_pwd => pwdcmd (tail argv)
  | B_umask => umaskcmd (tail argv)
  | B_let => letcmd (tail argv)
  | B_read => readcmd k (tail argv)
  | B_hash => hashcmd b argv
  | B_type => typecmd (tail argv)
  | B_command => commandcmd (tail argv)
  | B_other => other_builtin b argv
  end.

(** The exception that ended the builtin, if one did. *)
Definition evalbltin (b : builtincmd) (argv : list cstr) (flags : Z) : Sm (option exn) :=
  let! savecmdname := get sh_commandname in
  let! r := setjmp (
    modify (set_commandname (default [] (head argv))) ;;
    let! status := run_builtin b argv flags in
    modify (set_exit status)) in
  on_redir (modify (add_stdio 1)) ;;
  modify (set_commandname savecmdname) ;;
  ret (match r with inl _ => None | inr e => Some e end).

(** *** Simple commands *)

(** Expand arguments until there is a field; the arguments not yet expanded. *)
Fixpoint fill_arglist (argp : list arg) : Sm (list cstr * list arg) :=
  match argp with
  | [] => ret ([], [])
  | a :: argp =>
      let! l := expandarg a (Z.lor EXP_FULL EXP_TILDE) in
      match l with [] => fill_arglist argp | _ => ret (l, argp) end
  end.

(** The word behind index [i], expanding further arguments for it. *)
Definition next_word (l : list cstr) (i : nat) (argp : list arg) : Sm (bool * list cstr * list arg) :=
  if (S i <? length l)%nat then ret (true, l, argp)
  else let! r := fill_arglist argp in
       ret (negb (bool_decide (fst r = [])), l ++ fst r, snd r).

(** The letters of one option word of "command": [None] for other letters than p. *)
Fixpoint command_letters (cp : cstr) (alt : bool) : option bool :=
  match cp with
  | [] => Some alt
  | c :: cp => if c ≟ "p"%char then command_letters cp true else None
  end.

(** [parse_command_args]: the index of the word behind "command" and its options,
    if the builtin itself need not be run; the words, the arguments left, whether
    -p was given. *)
Fixpoint parse_command_args (fuel : nat) (l : list cstr) (i : nat) (argp : list arg) (alt : bool)
  : Sm (option nat * list cstr * list arg * bool) :=
  match fuel with
  | O => wild
  | S f =>
      let! r := next_word l i argp in
      let '(more, l, argp) := r in
      if negb more then ret (None, l, argp, alt)
      else
        let i := S i in
        match nth i l [] with
        | "-"%char :: c :: cp =>
            if (c ≟ "-"%char) && bool_decide (cp = []) then
              let! r := next_word l i argp in
              let '(more, l, argp) := r in
              ret (if more : bool then Some (S i) else None, l, argp, alt)
            else
              match command_letters (c :: cp) alt with
              | None => ret (None, l, argp, alt || (c ≟ "p"%char))
              | Some alt => parse_command_args f l i argp alt
              end
        | _ => ret (Some i, l, argp, alt)
        end
  end.

(** What the loop that looks past "command" finds out. *)
Record found_cmd := mk_found {
  fc_entry : cmdentry;
  fc_words : list cstr;
  fc_argp : list arg;
  fc_pseudovar : bool;
  fc_spclbltin : Z;
  fc_vlocal : bool;
  fc_exec : bool;
  fc_cmd_flag : Z;
  fc_altpath : bool;
}.

Fixpoint find_loop (fuel : nat) (fc : found_cmd) : Sm found_cmd :=
  match fuel with
  | O => wild
  | S f =>
      let! e := find_command (default [] (head (fc_words fc))) (Z.lor (fc_cmd_flag fc) DO_REGBLTIN) PATHVAL in
      match e with
      | CMDBUILTIN b =>
          let first := fc_spclbltin fc <? 0 in
          let fc := mk_found e (fc_words fc) (fc_argp fc) (IS_BUILTIN_ASSIGN b)
            (if first then b2z (IS_BUILTIN_SPECIAL b) else fc_spclbltin fc)
            (if first then negb (IS_BUILTIN_SPECIAL b) else true)
            (bool_decide (b_fn b = B_exec)) (fc_cmd_flag fc) (fc_altpath fc) in
          if bool_decide (b_fn b = B_command) then
            let! r := parse_command_args k (fc_words fc) 0 (fc_argp fc) (fc_altpath fc) in
            let '(o, l, argp, alt) := r in
            match o with
            | None => ret (mk_found e l argp (fc_pseudovar fc) (fc_spclbltin fc) (fc_vlocal fc) (fc_exec fc) 0 alt)
            | Some i =>
                find_loop f (mk_found e (drop i l) argp (fc_pseudovar fc) (fc_spclbltin fc) (fc_vlocal fc) (fc_exec fc)
                  DO_NOFUNC alt)
            end
          else ret fc
      | _ => ret (mk_found e (fc_words fc) (fc_argp fc) (fc_pseudovar fc) (fc_spclbltin fc) true (fc_exec fc)
                    (fc_cmd_flag fc) (fc_altpath fc))
      end
  end.

Definition isassignment (p : cstr) : bool :=
  let q := endofname p in negb (length q =? length p)%nat && (hd0 q ≟ "="%char).

(** The remaining arguments; assignments of "export" and the like are not split. *)
Fixpoint rest_args (l : list arg) (pseudovar : bool) : Sm (list cstr) :=
  match l with
  | [] => ret []
  | (NARG text _ as a) :: l =>
      let! w := expandarg a (if pseudovar && isassignment text then EXP_VARTILDE else Z.lor EXP_FULL EXP_TILDE) in
      let! ws := rest_args l pseudovar in ret (w ++ ws)
  end.

Definition find_words (args : list arg) : Sm found_cmd :=
  let! r := fill_arglist args in
  match fst r with
  | [] => ret (mk_found (CMDBUILTIN null_bltin) [] [] false (-1) false false 0 false)
  | l =>
      let! fc := find_loop k (mk_found CMDUNKNOWN l (snd r) false (-1) false false 0 false) in
      let! ws := rest_args (fc_argp fc) (fc_pseudovar fc) in
      ret (mk_found (fc_entry fc) (fc_words fc ++ ws) [] (fc_pseudovar fc) (fc_spclbltin fc) (fc_vlocal fc)
             (fc_exec fc) (fc_cmd_flag fc) (fc_altpath fc))
  end.

(** The assignments in front; their texts. *)
Fixpoint assignments (l : list arg) (vlocal : bool) (vflags : Z) : Sm (list cstr) :=
  match l with
  | [] => ret []
  | a :: l =>
      let! w := expandarg a EXP_VARTILDE in
      let! text := deref (head w) in
      on_vars (assign_word vlocal vflags text) ;;
      let! ws := assignments l vlocal vflags in ret (w ++ ws)
  end.

(** [bail]: a special builtin's redirection error ends the shell. *)
Definition bail (spclbltin status : Z) : Sm Z :=
  modify (set_exit status) ;;
  (if 0 <? spclbltin then raise (EXERROR []) else ret tt) ;; ret status.

(** The switch over the kind of command; it ends with the exit status. *)
Definition execute (e : cmdentry) (fc : found_cmd) (varlist : list cstr) (flags : Z) : Sm Z :=
  let argv := fc_words fc in
  let reraise (o : option exn) := match o with Some e => raise e | None => get s_exit end in
  match e with
  | CMDUNKNOWN => bail (fc_spclbltin fc) 127
  | CMDNORMAL index =>
      let! env := environ varlist in
      let applet_no := - index - 2 in
      let! st := (if 0 <=? applet_no then run_applet applet_no argv env
                  else
                    let! path := (if fc_altpath fc then ret bb_default_path else pathval) in
                    osd_spawn_command argv path index env) in
      modify (set_exit st) ;; get s_exit
  | CMDBUILTIN b =>
      let! r := evalbltin b argv flags in
      match r with
      | Some (EXERROR _) => if fc_spclbltin fc <=? 0 then get s_exit else reraise r
      | _ => reraise r
      end
  | CMDFUNCTION func => let! r := evalfun func (tail argv) flags in reraise r
  end.

Definition evalcommand (linno : Z) (assign args : list arg) (redirect : list redir) (flags : Z) : Sm Z :=
  modify (set_linenos linno) ;;
  let! file_stop := files_below in
  modify (set_back_exitstatus 0) ;;
  let! fc := find_words args in
  let vflags := if fc_exec fc && (1 <? length (fc_words fc))%nat then VEXPORT else 0 in
  let! localvar_stop := get (fun s => length (s_frames (sh_vars s))) in
  (if fc_vlocal fc then on_vars pushlocalvars else ret tt) ;;
  let! s := get (fun s => s) in
  let lastarg := if iflag s && (funcline (sh_ctl s) =? 0) then last (fc_words fc) else None in
  let! redirs := expredir redirect in
  let! redir_stop := on_redir (pushredir redirs) in
  modify (fun s => set_r (set_preverrout 2 (sh_r s)) s) ;;
  let! status := on_redir (redirectsafe redirs true) in
  let! status :=
    (if negb (status =? 0) then bail (fc_spclbltin fc) status
     else
       let! varlist := assignments assign (fc_vlocal fc) vflags in
       let regular := match fc_entry fc with CMDBUILTIN b => IS_BUILTIN_REGULAR b | _ => false end in
       let! e := (if regular then ret (fc_entry fc)
                  else find_command (default [] (head (fc_words fc))) (Z.lor (fc_cmd_flag fc) DO_ERR)
                         (if fc_altpath fc then ALTPATH bb_default_path else PATHVAL)) in
       execute e fc varlist flags) in
  redir_pop redirect (fc_exec fc) ;;
  on_redir (unwindredir redir_stop) ;;
  unwindfiles file_stop ;;
  on_vars (unwindlocalvars localvar_stop) ;;
  (match lastarg with Some a => on_vars (setvar0 (lit "_") a) | None => ret tt end) ;;
  ret status.

(** *** Trees *)

(** The ERR trap: [savestatus] keeps the status meanwhile. *)
Definition err_trap (p : cstr) : Sm unit :=
  upd_traps (set_in_ERR true) ;;
  modify (set_trap_depth (fun d => d + 1)) ;;
  let! r := setjmp (let! s := get (fun s => s) in modify (set_savestatus (s_exit s)) ;; evalstring p 0) in
  modify (set_trap_depth (fun d => d - 1)) ;;
  upd_traps (set_in_ERR false) ;;
  (match r with
   | inr (EXERROR _) | inl _ => ret tt
   | inr e => raise e
   end) ;;
  let! s := get (fun s => s) in modify (set_exit (sh_savestatus s)).

(** The end of [evaltree], from the label [out]. *)
Definition tree_out (checkexit : bool) (status flags : Z) : Sm Z :=
  dotrap ;;
  (if checkexit && negb (status =? 0) then
     let! s := get (fun s => s) in
     (match t_trap (sh_traps s) !! NTRAP_ERR with
      | Some p => if t_in_ERR (sh_traps s) then ret tt else err_trap p
      | None => ret tt
      end) ;;
     let! s := get (fun s => s) in
     if eflag s then raise EXEND else ret tt
   else ret tt) ;;
  if has flags EV_EXIT then raise EXEND else get s_exit.

(** The switch over the node types: the status, and whether it was not yet
    stored ([break] instead of [setstatus]). *)
Definition tree_node (n : node) (flags : Z) : Sm Z :=
  let setstatus (m : Sm Z) : Sm Z := let! st := m in modify (set_exit st) ;; ret st in
  let andor (is_or : Z) (ch1 ch2 : node) : Sm Z :=
    let! status := evaltree ch1 (Z.land (Z.lor flags (Z.shiftr is_or 1 - 1)) EV_TESTED) in
    let! skip := get_ctl evalskip in
    if (b2z (status =? 0) =? is_or) || negb (skip =? 0) then ret status
    else setstatus (evaltree ch2 flags) in
  match n with
  | Null | NODE_EOF => ret 0
  | NNOT com => setstatus (let! st := evaltree com EV_TESTED in ret (b2z (st =? 0)))
  | NREDIR linno n redirect =>
      setstatus (
        modify (set_linenos linno) ;;
        let! l := expredir redirect in
        on_redir (pushredir l) ;;
        let! status := on_redir (redirectsafe l true) in
        let! status := (if status =? 0 then evaltree n (Z.land flags EV_TESTED) else ret status) in
        redir_pop redirect false ;; ret status)
  | NCMD linno assign args redirect => setstatus (evalcommand linno assign args redirect flags)
  | NFOR linno args body var => setstatus (evalfor linno args body var flags)
  | NWHILE ch1 ch2 => setstatus (evalloop false ch1 ch2 flags)
  | NUNTIL ch1 ch2 => setstatus (evalloop true ch1 ch2 flags)
  | NSUBSHELL linno n redirect => setstatus (evalsubshell false linno n redirect flags)
  | NBACKGND linno n redirect => setstatus (evalsubshell true linno n redirect flags)
  | NPIPE _ cmdlist => setstatus (evalpipe cmdlist flags)
  | NCASE linno expr cases => setstatus (evalcase linno expr cases flags)
  | NAND ch1 ch2 => andor 0 ch1 ch2
  | NOR ch1 ch2 => andor 1 ch1 ch2
  | NSEMI ch1 ch2 => andor 2 ch1 ch2
  | NIF test ifpart elsepart =>
      let! status := evaltree test EV_TESTED in
      let! skip := get_ctl evalskip in
      if negb (skip =? 0) then ret status
      else if status =? 0 then setstatus (evaltree ifpart flags)
      else match elsepart with
           | Null => setstatus (ret 0)
           | _ => setstatus (evaltree elsepart flags)
           end
  | NDEFUN linno text body => setstatus (defun linno text body ;; ret 0)
  end.

(** The nodes whose failing status may end the shell under "set -e". *)
Definition checked (n : node) (flags : Z) : bool :=
  match n with
  | NCMD _ _ _ _ | NSUBSHELL _ _ _ | NBACKGND _ _ _ | NPIPE _ _ => negb (has flags EV_TESTED)
  | _ => false
  end.

Definition is_null (n : node) : bool := match n with Null => true | _ => false end.

Definition evaltree_body (n : node) (flags : Z) : Sm Z :=
  let! nflag := get nflag in
  if nflag || is_null n then tree_out false 0 flags
  else
    dotrap ;;
    let! status := tree_node n flags in
    tree_out (checked n flags) status flags.

End Procs.


(** [n] levels of nesting, loops of [n] turns. *)
Fixpoint evaltree (n : nat) : node -> Z -> Sm Z :=
  match n with
  | O => fun _ _ => wild
  | S m => fun t flags => evaltree_body (evaltree m) (S m) t flags
  end.

End Eval.
