(* ===== verification/AshDemo.v ===== *)
(** * shell/ash.c: scripts run in the model

    A small operating system (files with contents, open files with offsets, the
    applets echo and cat) to run whole scripts in: parsed, expanded and evaluated.
    The examples show behaviour the shell means to have, and faults. *)

From Stdlib Require Import Ascii String ZArith Lia.
From stdpp Require Import base gmap list strings.
From S2P Require Import Prelude Clib LibbbStr ShMath WasiCompat AshInput AshLex AshParse AshBase AshVar AshExpand AshRedir AshShell AshBuiltin AshEval.

Local Open Scope Z_scope.

(** ** The operating system *)

Record demo_os := mk_os {
  d_names : gmap cstr nat;               (* the file of each name *)
  d_files : gmap nat cstr;               (* contents *)
  d_open : gmap nat (nat * nat);         (* open files: the file and the offset *)
  d_cwd : cstr;
}.

Definition set_files f w := mk_os (d_names w) f (d_open w) (d_cwd w).
Definition set_open f w := mk_os (d_names w) (d_files w) f (d_cwd w).
Definition set_names f w := mk_os f (d_files w) (d_open w) (d_cwd w).

Definition fresh_nat {A} (m : gmap nat A) : nat := S (list_max (map fst (map_to_list m))).

Definition demo_open (w : demo_os) (p : cstr) (fl : open_flags) : demo_os * (nat + Z) :=
  let opened (w : demo_os) (i off : nat) :=
    let o := fresh_nat (d_open w) in (set_open (<[o := (i, off)]> (d_open w)) w, inl o) in
  match d_names w !! p with
  | Some i =>
      match fl with
      | O_WRONLY_CREAT_EXCL => (w, inr 20)
      | O_WRONLY_CREAT_TRUNC | O_RDWR_CREAT_TRUNC => opened (set_files (<[i := []]> (d_files w)) w) i 0%nat
      | O_WRONLY_CREAT_APPEND => opened w i (length (default [] (d_files w !! i)))
      | _ => opened w i 0%nat
      end
  | None =>
      match fl with
      | O_RDONLY | O_WRONLY => (w, inr ENOENT)
      | _ => let i := fresh_nat (d_files w) in
             opened (set_names (<[p := i]> (d_names w)) (set_files (<[i := []]> (d_files w)) w)) i 0%nat
      end
  end.

Definition demo_write (w : demo_os) (o : nat) (t : cstr) : demo_os :=
  match d_open w !! o with
  | Some (i, off) =>
      let c := default [] (d_files w !! i) in
      set_open (<[o := (i, (off + length t)%nat)]> (d_open w))
        (set_files (<[i := take off c ++ t ++ drop (off + length t) c]> (d_files w)) w)
  | None => w
  end.

(** What is left of the file, or its next character. *)
Definition demo_read (w : demo_os) (o : nat) (n : nat) : demo_os * cstr :=
  match d_open w !! o with
  | Some (i, off) =>
      let c := take n (drop off (default [] (d_files w !! i))) in
      (set_open (<[o := (i, (off + length c)%nat)]> (d_open w)) w, c)
  | None => (w, [])
  end.

Definition demo_applet (name : cstr) : option Z :=
  if bool_decide (name = lit "echo") then Some 0 else if bool_decide (name = lit "cat") then Some 1 else None.

Definition demo_run (no : Z) (argv env : list cstr) (t : gmap Z nat) (w : demo_os) : demo_os * Z :=
  match t !! 1 with
  | None => (w, 1)
  | Some out =>
      if no =? 0 then (demo_write w out (join_sp (tail argv) ++ [NL]), 0)
      else match t !! 0 with
           | Some i => let '(w, c) := demo_read w i (length (default [] (d_files w !! fst (default (0, 0)%nat (d_open w !! i))))) in
                       (demo_write w out c, 0)
           | None => (w, 1)
           end
  end.

Definition demo_dirs : list cstr := map lit ["/"; "/bin"; "/home"; "/home/user"]%string.

#[export] Instance demo_host : Host nat demo_os := {|
  free_fd := lowest_free;
  h_open := demo_open;
  h_stat w p := (fun _ => true) <$> d_names w !! p;
  h_fstat w f := Some true;
  dup_errno := EBADF;
|}.

#[export] Instance demo_os_inst : Os nat demo_os := {|
  os_reads w f := match d_open w !! f with
                  | Some (i, _) => match d_files w !! i with Some ((_ :: _) as c) => [c] | _ => [] end
                  | None => []
                  end;
  os_unlink w p := set_names (delete p (d_names w)) w;
  os_fnmatch p s := bool_decide (p = s \/ p = lit "*");
  os_readdir w d := None;
  os_lstat w p := bool_decide (is_Some (d_names w !! p));
  os_isdir w p := bool_decide (p ∈ demo_dirs);
  os_getcwd w := if bool_decide (d_cwd w ∈ demo_dirs) then Some (d_cwd w) else None;
  os_chdir w p := if bool_decide (p ∈ demo_dirs) then Some (mk_os (d_names w) (d_files w) (d_open w) p) else None;
  os_write := demo_write;
  os_read1 w f := let '(w, c) := demo_read w f 1 in (w, head c);
  os_ready w f := true;
  os_applet := demo_applet;
  os_run_applet := demo_run;
  os_spawn p argv env t w := (w, inr ENOENT);
|}.

(** A terminal (file 0) open on 0, 1 and 2. *)
Definition demo_world : demo_os := mk_os {[lit "/dev/tty" := 0%nat]} {[0%nat := []]} {[0%nat := (0, 0)%nat]} (lit "/").

Definition demo_vars : shvars :=
  match init_vars true [] [lit "PATH=/bin"] 1 zero_state with Ok v _ => v | _ => zero_state end.

Definition shell_in (t : gmap Z nat) (w : demo_os) : shell nat demo_os :=
  mk_shell demo_vars pstate_zero (mk_r t w [] [0] 2 false 0 [])
    (mk_ctl 0 0 0 0) (-1) 0 [] ∅ (-1) (mk_traps ∅ false false 0 []) [] 0 0 [] (Some (lit "/")) None (lit "ash") 42.

Definition demo_shell : shell nat demo_os := shell_in {[0 := 0%nat; 1 := 0%nat; 2 := 0%nat]} demo_world.

Definition demo_signals : list cstr := map lit ["EXIT"; "HUP"; "INT"; "QUIT"]%string.

Definition demo_eval (n : nat) : node -> Z -> M (shell nat demo_os) Z :=
  evaltree demo_signals (fun b argv => ret 0) (fun _ => false) n.

(** How a script ended, and what the terminal shows. *)
Inductive outcome := Exit (status : Z) | Exception (e : exn) | Cut.

Definition demo (script : string) : outcome * string :=
  let n := 60%nat in
  let tty (s : shell nat demo_os) := string_of_list_ascii (default [] (d_files (world s) !! 0%nat)) in
  match evalstring (demo_eval n) n (lit script) 0 demo_shell with
  | Ok s st => (Exit st, tty s)
  | Raise s e => (Exception e, tty s)
  | Wild => (Cut, EmptyString)
  end.

(** ** What scripts do *)

Local Open Scope string_scope.

Example pipeline_demo : demo "x=1; for i in a b; do echo $i$x; done | cat" =
  (Exit 0, "a1
b1
").
Proof. vm_compute. reflexivity. Qed.

Example substitution_demo : demo "x=$(echo $((6*7)) | cat); case $x in 42) echo 'yes' $x;; esac" =
  (Exit 0, "yes 42
").
Proof. vm_compute. reflexivity. Qed.

Example function_demo : demo "f() { for i in $*; do if false; then :; fi; return 3; done; }; f a b; echo $? $i" =
  (Exit 0, "3 a
").
Proof. vm_compute. reflexivity. Qed.

Example trap_demo : demo "trap 'echo bye' EXIT; set -- a b c; shift; echo $# $1" =
  (Exit 0, "2 b
").
Proof. vm_compute. reflexivity. Qed.

(** ** Faults

    An exception that ends a command substitution leaves the substitution's
    redirections in [redirlist]: the next command undoes them, onto a stdout that
    is the shell's again, and stdout is the deleted capture file from then on. *)
Example substitution_exit_loses_stdout : demo "x=$(exit 3 >/dev/tty); echo hi" = (Exit 0, EmptyString).
Proof. vm_compute. reflexivity. Qed.

(** The local variables of a function it ends stay. *)
Example substitution_exit_keeps_locals : demo "f() { local x=2; exit 3; }; x=1; echo $(f); echo $x" =
  (Exit 0, "
2
").
Proof. vm_compute. reflexivity. Qed.

(** A pipeline's stage that ends by an exception leaves 0 and 1 as the stage had
    them. *)
Example pipeline_error_loses_stdout : demo "command eval 'echo ${y?err} | cat'; echo lost" = (Exit 0, EmptyString).
Proof. vm_compute. reflexivity. Qed.

(** An error out of a loop that "command" catches leaves [loopnest] behind: a later
    break, outside of any loop, ends the script. *)
Example loopnest_left : demo "readonly a=1; command eval 'for i in 1; do a=2; done'; break; echo hi" =
  (Exit 0, EmptyString).
Proof. vm_compute. reflexivity. Qed.

(** "return" without operand in the condition of a loop: the status is the loop's,
    not that of the last command. *)
Example return_in_condition : demo "f() { false; while return; do :; done; }; f; echo $?" =
  (Exit 0, "0
").
Proof. vm_compute. reflexivity. Qed.

(** An error in a word leaves the regions of its expansions to the next word. *)
Example regions_left : demo "x=abc; command eval 'echo $x$((1/0))'; for i in 'c d'; do echo [$i]; done" =
  (Exit 0, "[c]
[d]
").
Proof. vm_compute. reflexivity. Qed.

(** Here documents, subshells and background commands need what the layer does
    not have. *)
Example no_here_documents : demo "cat <<E
hi
E
echo $?" = (Exit 0, "1
").
Proof. vm_compute. reflexivity. Qed.

Example no_subshells : exists out, demo "(echo hi); echo $?" = (Exception (EXERROR (lit "can't fork")), out).
Proof. eexists. vm_compute. reflexivity. Qed.

(** The file a substitution was reading when an exception ended it stays the
    shell's input: the rest of the script is lost, that of the file is run. *)
Example input_left : demo "echo 'exit 1
echo leaked' >/f; for i in $(. /f); do :; done
echo end" = (Exit 0, "leaked
").
Proof. vm_compute. reflexivity. Qed.

(** read: an escaped character at the start of a word does not end the skipping of
    delimiters, and escaped blanks at the end are taken off. *)
Example read_escapes : demo "echo '\a b' >/f; read x y </f; echo [$x][$y]; echo 'a\ ' >/f; read x </f; echo [$x]" =
  (Exit 0, "[ab][]
[a]
").
Proof. vm_compute. reflexivity. Qed.

(** cd changes the directory before it finds that OLDPWD cannot be set: the shell
    goes on with the old name. *)
Example cd_half_done : demo "readonly OLDPWD=/; command eval 'cd /home'; pwd; pwd -P" = (Exit 0, "/
/home
").
Proof. vm_compute. reflexivity. Qed.

(** umask is accepted and has no effect. *)
Example umask_ignored : demo "umask 077; umask; umask -S" = (Exit 0, "0022
u=rwx,g=rx,o=rx
").
Proof. vm_compute. reflexivity. Qed.

Example builtins_demo : demo "cd /home/user; cd ..; pwd; cd -; x='it is'; export x; export -p; IFS=:; echo 'a:b:c' >/f; read y z </f; echo $y+$z; type cd" =
  (Exit 0, "/home
/home/user
export OLDPWD='/home'
export PATH='/bin'
export PWD='/home/user'
export x='it is'
a+b c
cd is a shell builtin
").
Proof. vm_compute. reflexivity. Qed.
