(* ===== verification/AshBuiltinCorrect.v ===== *)
(** * shell/ash.c: what the builtins compute

    Reference definitions of what read splits a line into ([read_fields]), of the
    canonical name of a directory (LibbbStr's [canon]) and of the word a quoted
    text spells ([quote_word]), and the proofs that AshBuiltin's loops compute
    them. *)

From Stdlib Require Import Ascii String ZArith Lia.
From stdpp Require Import base gmap list strings.
From S2P Require Import Prelude Clib LibbbStr LibbbNum Modes ShMath WasiCompat AshInput AshLex AshParse AshParseSpec AshBase AshVar AshExpand AshExpandSpec AshExpandIfs AshExpandCorrect AshRedir AshShell AshBuiltin AshEval AshDemo.

Local Open Scope Z_scope.
Local Open Scope ash_scope.

(** ** Splitting a line *)

Section Fields.
Context (ifs : cstr).

(** White space of IFS. *)
Definition white (c : ascii) : bool := isspace c && in_ifs ifs c.

Fixpoint skip_white (l : cstr) : cstr :=
  match l with c :: l' => if white c then skip_white l' else l | [] => [] end.

(** A field ends before the next character of IFS. *)
Fixpoint first_field (l : cstr) : cstr :=
  match l with c :: l => if in_ifs ifs c then [] else c :: first_field l | [] => [] end.
Fixpoint behind_field (l : cstr) : cstr :=
  match l with c :: l' => if in_ifs ifs c then l else behind_field l' | [] => [] end.

(** One delimiter: white space with at most one other character of IFS in it. *)
Definition skip_delim (l : cstr) : cstr :=
  match skip_white l with
  | c :: l' => if in_ifs ifs c then skip_white l' else c :: l'
  | [] => []
  end.

(** The last variable gets the rest without white space at its end; a delimiter at
    the end is left out if there is no other. *)
Definition rest_field (l : cstr) : cstr :=
  let t := rev (skip_white (rev l)) in
  if bool_decide (skip_delim (behind_field t) = []) then first_field t else t.

Fixpoint read_fields (names : list cstr) (l : cstr) : list (cstr * cstr) :=
  match names with
  | [] => []
  | [n] => [(n, rest_field l)]
  | n :: names => (n, first_field l) :: read_fields names (skip_delim (behind_field l))
  end.
End Fields.

(** What "read names" assigns for a line. *)
Definition read_line (ifs : cstr) (names : list cstr) (l : cstr) : list (cstr * cstr) :=
  match names with
  | [] => [(lit "REPLY", l)]
  | _ => read_fields ifs names (skip_white ifs l)
  end.

Definition NUL_free (l : cstr) : Prop := NUL ∉ l.

Section FieldLemmas.
Context (ifs : cstr).

Lemma strchr_hit_ifs c : c <> NUL -> strchr_hit ifs c = in_ifs ifs c.
Proof. intros Hc. unfold strchr_hit. by destruct (Ascii.eqb_spec c NUL). Qed.

Lemma drop_ifs_space_white l : NUL ∉ l -> drop_ifs_space ifs l = skip_white ifs l.
Proof.
  induction l as [|c l IH]; [done|]. rewrite not_elem_of_cons. intros [Hc Hl]. simpl.
  rewrite strchr_hit_ifs by done. unfold white. destruct (isspace c && in_ifs ifs c); auto.
Qed.

Lemma skip_white_suffix l : exists w, l = w ++ skip_white ifs l /\ forallb (white ifs) w = true.
Proof.
  induction l as [|c l (w & E & Hw)]; [by exists []|]. simpl. destruct (white ifs c) eqn:Hc; [|by exists []].
  exists (c :: w). simpl. by rewrite Hc, Hw, <- E.
Qed.

Lemma fields_app l : l = first_field ifs l ++ behind_field ifs l.
Proof. induction l as [|c l IH]; [done|]. simpl. destruct (in_ifs ifs c); [done|]. simpl. by rewrite <- IH. Qed.

Lemma first_field_clean l : forallb (fun c => negb (in_ifs ifs c)) (first_field ifs l) = true.
Proof. induction l as [|c l IH]; [done|]. simpl. destruct (in_ifs ifs c) eqn:Hc; [done|]. simpl. by rewrite Hc. Qed.

Lemma first_field_split w r :
  forallb (fun c => negb (in_ifs ifs c)) w = true ->
  first_field ifs (w ++ r) = w ++ first_field ifs r /\ behind_field ifs (w ++ r) = behind_field ifs r.
Proof.
  induction w as [|c w IH]; [done|]. simpl. intros [Hc Hw]%andb_true_iff. apply negb_true_iff in Hc.
  rewrite Hc. destruct (IH Hw) as [-> ->]. done.
Qed.

(** Characters that skipping does not lose. *)
Definition count (p : ascii -> bool) (l : cstr) : nat := length (List.filter p l).

Lemma count_app p a b : count p (a ++ b) = (count p a + count p b)%nat.
Proof. unfold count. by rewrite List.filter_app, length_app. Qed.

Lemma count_skip_white p l : (forall c, white ifs c = true -> p c = false) -> count p (skip_white ifs l) = count p l.
Proof.
  intros Hp. destruct (skip_white_suffix l) as (w & E & Hw). rewrite E at 2. rewrite count_app.
  enough (count p w = 0%nat) by lia. clear E. induction w as [|c w IH]; [done|].
  simpl in Hw. apply andb_true_iff in Hw as [Hc Hw]. unfold count in *. simpl. rewrite Hp by done. auto.
Qed.

(** All characters outside IFS stay, and all but one of those that are not white
    space of IFS. *)
Lemma count_skip_delim_out l : count (fun c => negb (in_ifs ifs c)) (skip_delim ifs l) = count (fun c => negb (in_ifs ifs c)) l.
Proof.
  assert (forall c, white ifs c = true -> negb (in_ifs ifs c) = false) as Hp
    by (intros c [_ ->]%andb_true_iff; done).
  rewrite <- (count_skip_white _ l Hp). unfold skip_delim.
  destruct (skip_white ifs l) as [|c r]; [done|]. destruct (in_ifs ifs c) eqn:Hc; [|done].
  rewrite (count_skip_white _ r Hp). unfold count. simpl. by rewrite Hc.
Qed.

Lemma count_skip_delim_nonwhite l :
  (count (fun c => negb (white ifs c)) l <= 1 + count (fun c => negb (white ifs c)) (skip_delim ifs l))%nat.
Proof.
  assert (forall c, white ifs c = true -> negb (white ifs c) = false) as Hp by (intros c ->; done).
  rewrite <- (count_skip_white _ l Hp). unfold skip_delim.
  destruct (skip_white ifs l) as [|c r]; [simpl; lia|]. destruct (in_ifs ifs c) eqn:Hc; [|lia].
  rewrite (count_skip_white _ r Hp). unfold count. simpl. case_match; simpl; lia.
Qed.

Lemma skip_white_head l : match skip_white ifs l with c :: _ => white ifs c = false | [] => True end.
Proof. induction l as [|c l IH]; [done|]. simpl. by destruct (white ifs c) eqn:Hc. Qed.

Lemma strcspn_first t : strcspn t ifs = length (first_field ifs t).
Proof. induction t as [|c t IH]; [done|]. simpl. unfold in_ifs in *. destruct (existsb _ ifs); simpl; auto. Qed.

Lemma first_field_all t : behind_field ifs t = [] -> first_field ifs t = t.
Proof. intros E. rewrite (fields_app t) at 2. by rewrite E, app_nil_r. Qed.

Lemma suffix_last {A} (a b l : list A) c : a ++ b = l ++ [c] -> b <> [] -> exists b', b = b' ++ [c].
Proof.
  intros E Hb. destruct b as [|x b _] using rev_ind; [done|]. rewrite app_assoc in E.
  apply app_inj_tail in E as [_ ->]. by exists b.
Qed.

Lemma first_dirty l : forallb (fun c => negb (in_ifs ifs c)) l = false ->
  exists a x b, l = a ++ x :: b /\ in_ifs ifs x = true /\ forallb (fun c => negb (in_ifs ifs c)) a = true.
Proof.
  induction l as [|x l IH]; [done|]. simpl. destruct (in_ifs ifs x) eqn:Hx; [by exists [], x, l|].
  intros (a & y & b & -> & ? & ?)%IH. exists (x :: a), y, b. simpl. by rewrite Hx.
Qed.

Lemma white_in c : white ifs c = true -> in_ifs ifs c = true.
Proof. by intros [_ ?]%andb_true_iff. Qed.

Lemma forallb_rev_white w : forallb (white ifs) w = true -> forallb (white ifs) (rev w) = true.
Proof. rewrite !forallb_forall. intros Hw x Hx. apply Hw. by apply in_rev. Qed.

(** The text ends with one delimiter: is there another one? *)
Lemma one_delimiter l w c :
  in_ifs ifs c = true -> white ifs c = false -> forallb (white ifs) w = true ->
  forallb (fun c => negb (in_ifs ifs c)) l = true ->
  first_field ifs (l ++ w ++ [c]) = l /\ skip_delim ifs (behind_field ifs (l ++ w ++ [c])) = [].
Proof.
  intros Hc Hcw Hw Hl. destruct (first_field_split _ (w ++ [c]) Hl) as [-> ->].
  assert (first_field ifs (w ++ [c]) = [] /\ behind_field ifs (w ++ [c]) = w ++ [c]) as [-> ->].
  { destruct w as [|d w]; simpl in *; [by rewrite Hc|]. apply andb_true_iff in Hw as [Hd _]. by rewrite (white_in d Hd). }
  rewrite app_nil_r. split; [done|]. clear -Hc Hcw Hw. unfold skip_delim.
  induction w as [|x w IH]; simpl in *; [by rewrite Hcw, Hc|]. apply andb_true_iff in Hw as [-> Hw]. by apply IH.
Qed.

Lemma two_delimiters l e w c :
  white ifs c = false -> white ifs e = false -> forallb (fun c => negb (in_ifs ifs c)) (l ++ [e]) = false ->
  (length (first_field ifs ((l ++ [e]) ++ w ++ [c])) < length (l ++ [e]))%nat /\
  skip_delim ifs (behind_field ifs ((l ++ [e]) ++ w ++ [c])) <> [].
Proof.
  intros Hc He Hd. apply first_dirty in Hd as (a & x & b & E & Hx & Ha). rewrite E, <- app_assoc.
  destruct (first_field_split _ ((x :: b) ++ w ++ [c]) Ha) as [-> ->]. cbn [app first_field behind_field]. rewrite Hx, app_nil_r.
  split; [rewrite length_app; simpl; lia|]. intros Hnil.
  pose proof (count_skip_delim_nonwhite ((x :: b) ++ w ++ [c])) as Hcnt. cbn [app] in Hcnt. rewrite Hnil in Hcnt.
  destruct (suffix_last a (x :: b) l e (eq_sym E)) as [b' Eb]; [done|].
  change (x :: b ++ w ++ [c]) with ((x :: b) ++ w ++ [c]) in Hcnt. rewrite Eb, !count_app in Hcnt.
  assert (count (fun c => negb (white ifs c)) [c] = 1%nat /\ count (fun c => negb (white ifs c)) [e] = 1%nat) as [H1 H2]
    by (unfold count; simpl; by rewrite Hc, He).
  rewrite H1, H2 in Hcnt. change (count (fun c => negb (white ifs c)) []) with 0%nat in Hcnt. lia.
Qed.

Lemma no_delimiter l c :
  in_ifs ifs c = false -> skip_delim ifs (behind_field ifs (l ++ [c])) = [] -> first_field ifs (l ++ [c]) = l ++ [c].
Proof.
  intros Hc Hnil. apply first_field_all. destruct (behind_field ifs (l ++ [c])) as [|d v] eqn:Eb; [done|]. exfalso.
  pose proof (fields_app (l ++ [c])) as Hf. rewrite Eb in Hf.
  destruct (suffix_last _ (d :: v) l c (eq_sym Hf)) as [v' Ev]; [done|].
  pose proof (count_skip_delim_out (d :: v)) as Hcnt. rewrite Hnil, Ev, count_app in Hcnt.
  unfold count in Hcnt. simpl in Hcnt. rewrite Hc in Hcnt. simpl in Hcnt. lia.
Qed.

Lemma NUL_rev (l : cstr) : NUL ∉ l <-> NUL ∉ rev l.
Proof. by rewrite !list_elem_of_In, <- in_rev. Qed.

(** The value of the last variable is the reference's. *)
Lemma last_value_rest buf : NUL ∉ buf -> last_value ifs buf = rest_field ifs buf.
Proof.
  intros Hn. unfold last_value, rest_field. apply NUL_rev in Hn. rewrite drop_ifs_space_white by done.
  pose proof (skip_white_head (rev buf)) as Hhd. destruct (skip_white_suffix (rev buf)) as (w0 & E0 & _).
  rewrite E0, not_elem_of_app in Hn. destruct Hn as [_ Hn].
  rewrite rev_involutive. destruct (skip_white ifs (rev buf)) as [|c r]; [done|].
  apply not_elem_of_cons in Hn as [Hc Hr]. rewrite strchr_hit_ifs by done. cbn [rev].
  destruct (in_ifs ifs c) eqn:Ec.
  - rewrite drop_ifs_space_white by done. pose proof (skip_white_head r) as Hr2.
    destruct (skip_white_suffix r) as (w & E & Hw%forallb_rev_white).
    rewrite cstr_at_whole by (rewrite not_elem_of_app, <- NUL_rev, list_elem_of_singleton; auto).
    rewrite strcspn_first. set (rr := skip_white ifs r) in *. clearbody rr. subst r.
    rewrite rev_app_distr, <- app_assoc, <- (length_rev rr).
    destruct (forallb (fun c => negb (in_ifs ifs c)) (rev rr)) eqn:Hclean.
    + destruct (one_delimiter (rev rr) (rev w) c) as [-> ->]; [done..|].
      by rewrite Nat.leb_refl, take_app_length, bool_decide_true.
    + destruct rr as [|e u]; [done|]. cbn [rev] in *.
      destruct (two_delimiters (rev u) e (rev w) c) as [Hlt Hne]; [done..|].
      rewrite bool_decide_false by done. by apply Nat.leb_gt in Hlt as ->.
  - destruct (bool_decide _) eqn:Hb; [|done]. apply bool_decide_eq_true in Hb.
    symmetry. by apply no_delimiter.
Qed.
Lemma skip_delim_white c l : white ifs c = true -> skip_delim ifs (c :: l) = skip_delim ifs l.
Proof. intros Hc. unfold skip_delim. simpl. by rewrite Hc. Qed.

Lemma skip_delim_other c l : white ifs c = false -> in_ifs ifs c = true -> skip_delim ifs (c :: l) = skip_white ifs l.
Proof. intros Hw Hc. unfold skip_delim. simpl. by rewrite Hw, Hc. Qed.

Lemma skip_delim_out c l : in_ifs ifs c = false -> skip_delim ifs (c :: l) = c :: l.
Proof.
  intros Hc. assert (white ifs c = false) as Hw by (unfold white; by rewrite Hc, andb_false_r).
  unfold skip_delim. simpl. by rewrite Hw, Hc.
Qed.

Lemma read_fields_nil names : read_fields ifs names [] = map (fun n => (n, [])) names.
Proof. induction names as [|n [|n' names] IH]; [done|done|]. cbn [read_fields map]. f_equal. apply IH. Qed.

Lemma rest_field_clean l : forallb (fun c => negb (in_ifs ifs c)) l = true -> rest_field ifs l = l.
Proof.
  intros Hl. unfold rest_field. assert (skip_white ifs (rev l) = rev l) as ->.
  { destruct (rev l) as [|c r] eqn:E; [done|]. simpl. assert (In c l) as Hin by (rewrite in_rev, E; by left).
    apply (proj1 (forallb_forall _ _) Hl) in Hin. unfold white. apply negb_true_iff in Hin as ->. by rewrite andb_false_r. }
  rewrite rev_involutive. case_bool_decide; [|done]. pose proof (first_field_split l [] Hl) as [E _].
  rewrite app_nil_r in E. rewrite E. apply app_nil_r.
Qed.
End FieldLemmas.

(** ** The loop over the characters of a line *)

Fixpoint rd_run (o : read_opts) (s : rd) (l : cstr) : list (cstr * cstr) * rd :=
  match l with
  | [] => ([], s)
  | c :: l =>
      match read_char o s c with
      | RGo s => rd_run o s l
      | RAssign s n v => let '(a, s') := rd_run o s l in ((n, v) :: a, s')
      | RBreak s => ([], s)
      end
  end.

(** The assignments behind the loop. *)
Definition rd_final (o : read_opts) (s : rd) : list (cstr * cstr) :=
  match rd_names s with
  | [] => [(lit "REPLY", cstr_at (rd_buf s))]
  | n :: names => (n, cstr_at (last_value (r_ifs o) (rd_buf s))) :: map (fun n => (n, [])) names
  end.

(** A character of a line that is not special. *)
Definition plain_char (raw : bool) (c : ascii) : Prop := c <> NL /\ c <> NUL /\ (raw = true \/ c <> "\"%char).

Section Machine.
Context (o : read_opts).

Abbreviation ifs := (r_ifs o).
Abbreviation clean l := (forallb (fun c => negb (in_ifs ifs c)) l = true).

Lemma plain_NUL l : Forall (plain_char (r_raw o)) l -> NUL ∉ l.
Proof. intros Hl Hin. rewrite Forall_forall in Hl. by destruct (Hl _ Hin) as (_ & ? & _). Qed.

Lemma read_char_plain buf names start c : plain_char (r_raw o) c ->
  read_char o (mk_rd buf names start false) c =
  match names with
  | [] => RGo (mk_rd (buf ++ [c]) names start false)
  | n :: ns =>
      let word start :=
        if negb (bool_decide (ns = [])) && in_ifs ifs c then RAssign (mk_rd [] ns (if isspace c then 2 else 1) false) n (cstr_at buf)
        else RGo (mk_rd (buf ++ [c]) names 0 false) in
      if negb (start =? 0) && in_ifs ifs c then
        if isspace c then RGo (mk_rd buf names start false)
        else if start - 1 =? 1 then RGo (mk_rd buf names 1 false) else word (start - 1)
      else word start
  end.
Proof.
  intros (Hnl & Hnul & Hbs). unfold read_char. cbn [rd_bs rd_names rd_start rd_buf]. rewrite andb_false_r.
  assert (negb (r_raw o) && (c ≟ "\"%char) = false) as ->.
  { destruct Hbs as [->|Hb]; [done|]. apply Ascii.eqb_neq in Hb as ->. by rewrite andb_false_r. }
  rewrite strchr_hit_ifs by done. apply Ascii.eqb_neq in Hnl as ->. apply Ascii.eqb_neq in Hnul as ->.
  destruct names; reflexivity.
Qed.

(** What is still to be assigned. *)
Definition to_assign (buf : cstr) (names : list cstr) (start : Z) (l : cstr) : list (cstr * cstr) :=
  match names with
  | [] => [(lit "REPLY", buf ++ l)]
  | _ => read_fields ifs names
           (if start =? 0 then buf ++ l else if start =? 1 then skip_white ifs l else skip_delim ifs l)
  end.

(** Between fields nothing is buffered; a field that is not the last has no
    character of IFS. *)
Definition rd_ok (buf : cstr) (names : list cstr) (start : Z) : Prop :=
  NUL ∉ buf /\
  match names with
  | [] => True
  | n :: ns => start = 0 /\ (ns = [] \/ clean buf) \/ buf = [] /\ (start = 1 \/ start = 2)
  end.

Lemma rd_final_ok buf names start : rd_ok buf names start ->
  rd_final o (mk_rd buf names start false) = to_assign buf names start [].
Proof.
  intros [Hn Hs]. unfold rd_final, to_assign. cbn [rd_names rd_buf].
  destruct names as [|n ns]; [by rewrite cstr_at_whole, app_nil_r|].
  assert (NUL ∉ last_value ifs buf -> cstr_at (last_value ifs buf) = last_value ifs buf) as Hc by (intros; by apply cstr_at_whole).
  destruct Hs as [[-> [->|Hcl]]|[-> Hst]].
  - rewrite app_nil_r. cbn [Z.eqb read_fields map].
    rewrite Hc; rewrite last_value_rest by done; [done|]. unfold rest_field.
    destruct (skip_white_suffix ifs (rev buf)) as (w & E & _).
    assert (NUL ∉ rev (skip_white ifs (rev buf))) as Ht.
    { rewrite <- NUL_rev. apply NUL_rev in Hn. rewrite E, not_elem_of_app in Hn. tauto. }
    case_bool_decide; [|done]. rewrite (fields_app ifs (rev _)), not_elem_of_app in Ht. tauto.
  - rewrite app_nil_r. cbn [Z.eqb]. rewrite last_value_rest, rest_field_clean, cstr_at_whole by done.
    destruct ns as [|n' ns]; cbn [read_fields]; [by rewrite rest_field_clean|].
    destruct (first_field_split ifs buf [] Hcl) as [Hf Hb]. rewrite app_nil_r in Hf, Hb.
    rewrite Hf, Hb. cbn [first_field behind_field]. rewrite app_nil_r. f_equal. symmetry. apply (read_fields_nil ifs (n' :: ns)).
  - destruct Hst as [->| ->]; symmetry; apply (read_fields_nil ifs (n :: ns)).
Qed.

Lemma to_assign_delim buf n n' ns c l : clean buf -> in_ifs ifs c = true ->
  read_fields ifs (n :: n' :: ns) (buf ++ c :: l) =
  (n, buf) :: to_assign [] (n' :: ns) (if isspace c then 2 else 1) l.
Proof.
  intros Hb Hc. unfold to_assign. cbn [read_fields]. destruct (first_field_split ifs buf (c :: l) Hb) as [-> ->].
  cbn [first_field behind_field]. rewrite Hc, app_nil_r. f_equal. f_equal.
  destruct (isspace c) eqn:Es; cbn [Z.eqb].
  - rewrite skip_delim_white; [done|]. unfold white. by rewrite Es, Hc.
  - rewrite skip_delim_other; [done| |done]. unfold white. by rewrite Es.
Qed.
(** All assignments for a line. *)
Definition assigns (s : rd) (l : cstr) : list (cstr * cstr) :=
  fst (rd_run o s l) ++ rd_final o (snd (rd_run o s l)).

Lemma assigns_cons s c l : assigns s (c :: l) =
  match read_char o s c with
  | RGo s => assigns s l
  | RAssign s n v => (n, v) :: assigns s l
  | RBreak s => rd_final o s
  end.
Proof. unfold assigns. cbn [rd_run]. destruct (read_char o s c) as [s'|s' n v|s']; [done| |done]. by destruct (rd_run o s' l). Qed.

Lemma assigns_spec l buf names start : rd_ok buf names start -> Forall (plain_char (r_raw o)) l ->
  assigns (mk_rd buf names start false) l = to_assign buf names start l.
Proof.
  intros Hok Hl. revert buf names start Hok. induction Hl as [|c l Hc Hl IH]; intros buf names start Hok; [by apply rd_final_ok|].
  rewrite assigns_cons, read_char_plain by done. destruct Hc as (_ & Hnul & _). destruct Hok as [Hbuf Hok].
  assert (NUL ∉ buf ++ [c]) as Hbuf' by (rewrite not_elem_of_app, list_elem_of_singleton; auto).
  destruct names as [|n ns].
  { rewrite IH by (by split). unfold to_assign. by rewrite <- app_assoc. }
  (* a word starts or goes on *)
  assert (ns = [] \/ clean buf ->
            match (if negb (bool_decide (ns = [])) && in_ifs ifs c
                   then RAssign (mk_rd [] ns (if isspace c then 2 else 1) false) n (cstr_at buf)
                   else RGo (mk_rd (buf ++ [c]) (n :: ns) 0 false)) with
            | RGo s => assigns s l
            | RAssign s n v => (n, v) :: assigns s l
            | RBreak s => rd_final o s
            end = read_fields ifs (n :: ns) (buf ++ c :: l)) as Hword.
  { intros Hcl. destruct ns as [|n' ns].
    - rewrite bool_decide_true by done. cbn [negb andb].
      rewrite IH; [unfold to_assign; cbn [Z.eqb]; by rewrite <- app_assoc|]. split; [done|]. left. auto.
    - rewrite bool_decide_false by done. destruct Hcl as [?|Hcl]; [done|]. destruct (in_ifs ifs c) eqn:Ec; cbn [negb andb].
      + rewrite IH by (split; [by apply not_elem_of_nil|right; split; [done|destruct (isspace c); auto]]).
        by rewrite to_assign_delim, cstr_at_whole.
      + rewrite IH; [unfold to_assign; cbn [Z.eqb]; by rewrite <- app_assoc|]. split; [done|]. left. split; [done|]. right.
        rewrite forallb_app, Hcl. simpl. by rewrite Ec. }
  cbv zeta. destruct Hok as [[-> Hcl]|[-> Hst]]; [by apply Hword|]. cbn [app] in Hword.
  destruct (white ifs c) eqn:Hw; [|destruct (in_ifs ifs c) eqn:Ec].
  - unfold white in Hw. apply andb_true_iff in Hw as [Es Ec]. rewrite Ec, Es.
    destruct Hst as [->| ->]; cbn [Z.eqb negb andb]; rewrite IH by (split; [done|right; auto]);
      unfold to_assign, white; cbn [Z.eqb]; [simpl|rewrite skip_delim_white by (unfold white; by rewrite Es, Ec)]; [|done].
    unfold white. by rewrite Es, Ec.
  - assert (isspace c = false) as Es by (unfold white in Hw; rewrite Ec, andb_true_r in Hw; done). rewrite Es in *.
    destruct Hst as [->| ->].
    + etransitivity; [apply Hword; by right|]. unfold to_assign. cbn [Z.eqb]. simpl skip_white. by rewrite Hw.
    + change (2 - 1 =? 1) with true. cbn [Z.eqb negb andb]. rewrite IH by (split; [done|right; auto]). unfold to_assign. cbn [Z.eqb]. by rewrite skip_delim_other.
  - rewrite (andb_false_r (negb (start =? 0))). etransitivity; [apply Hword; by right|].
    destruct Hst as [->| ->]; unfold to_assign; cbn [Z.eqb]; [simpl skip_white; by rewrite Hw|by rewrite skip_delim_out].
Qed.
End Machine.

(** ** read, in the shell *)

Definition rmap {S A} (f : S -> S) (r : res S A) : res S A :=
  match r with Ok s a => Ok (f s) a | Raise s e => Raise (f s) e | Wild => Wild end.

Section Read.
Context {F W : Type} `{Os F W}.

Abbreviation sh := (shell F W).

(** Variables and what is outside do not see each other. *)
Lemma changepaths_put_world w l (s : sh) :
  for_each changepath l (put_world w s) = rmap (put_world w) (for_each changepath l s).
Proof.
  revert s. induction l as [|v l IH]; intros s; [done|]. cbn [for_each].
  assert (forall s : sh, exists s', changepath v s = Ok s' tt /\ changepath v (put_world w s) = Ok (put_world w s') tt) as Hc
    by (intros; eexists; split; reflexivity).
  destruct (Hc s) as (s' & E1 & E2). rewrite (bind_run _ _ _ _ _ E1), (bind_run _ _ _ _ _ E2). apply IH.
Qed.

Lemma on_vars_put_world {A} w (m : Sh A) (s : sh) : on_vars m (put_world w s) = rmap (put_world w) (on_vars m s).
Proof.
  unfold on_vars. change (sh_vars (put_world w s)) with (sh_vars s). cbv zeta.
  destruct (m (sh_vars s)) as [v a|v e|]; [| |done]; unfold bind;
    change (set_vars v (put_world w s)) with (put_world w (set_vars v s)); rewrite changepaths_put_world;
    by destruct (for_each changepath _ (set_vars v s)).
Qed.

Lemma on_vars_r {A} (m : Sh A) (s s' : sh) a : on_vars m s = Ok s' a -> sh_r s' = sh_r s.
Proof. by apply (on_vars_keeps sh_r). Qed.

Definition assign (p : cstr * cstr) : M sh unit := on_vars (setvar0 p.1 p.2).

Lemma assigns_put_world w l (s : sh) : for_each assign l (put_world w s) = rmap (put_world w) (for_each assign l s).
Proof.
  revert s. induction l as [|p l IH]; intros s; [done|]. cbn [for_each]. unfold bind, assign.
  rewrite on_vars_put_world. destruct (on_vars (setvar0 p.1 p.2) s); [apply IH|done..].
Qed.

(** The descriptor's file delivers these characters. *)
Inductive delivers (f : F) : W -> cstr -> W -> Prop :=
  | deliver_none w : delivers f w [] w
  | deliver_one w w1 w2 c l : os_read1 w f = (w1, Some c) -> delivers f w1 l w2 -> delivers f w (c :: l) w2.

(** The outcome [r] is that of assigning [l]; with all of them made, the input is
    [w'] and the value [a]. *)
Definition as_assigned {A} (l : list (cstr * cstr)) (s : sh) (w' : W) (a : A) (r : res sh A) : Prop :=
  match for_each assign l s with
  | Ok s' _ => r = Ok (put_world w' s') a
  | Raise s' e => exists w, r = Raise (put_world w s') e
  | Wild => r = Wild
  end.

Lemma as_assigned_put_world {A} w l (s : sh) w' (a : A) r :
  as_assigned l (put_world w s) w' a r -> as_assigned l s w' a r.
Proof.
  unfold as_assigned. rewrite assigns_put_world. destruct (for_each assign l s) as [s' []|s' e|]; simpl; [|intros [w1 ->]; by exists w1|done].
  by intros ->.
Qed.

Lemma read1_run fd f (s : sh) w1 c : fds s !! fd = Some f -> os_read1 (world s) f = (w1, c) ->
  read1 fd s = Ok (put_world w1 s) c.
Proof. intros Hf Hc. unfold read1. rewrite bind_get, Hf, Hc. done. Qed.

Lemma put_world_same (s : sh) : put_world (world s) s = s.
Proof. destruct s as [? ? r]. by destruct r. Qed.

Lemma read_char_break o s c s' : read_char o s c = RBreak s' -> c = NL.
Proof.
  unfold read_char. repeat case_match; intros E; try discriminate. by apply Ascii.eqb_eq.
Qed.

Lemma wrapS_dec n : - 2 ^ 31 < n <= 0 -> wrapS 32 (n - 1) = n - 1.
Proof. intros Hn. apply wrapS_id; [lia|]. unfold is_s. lia. Qed.

Lemma read_assign_final o s :
  forall st : sh, read_assign o s st = for_each assign (rd_final o s) st.
Proof.
  intros st. unfold read_assign, rd_final. destruct (rd_names s) as [|n names]; cbn [for_each].
  { symmetry. apply bind_ret_tt_end. }
  unfold bind at 1 2, assign at 1. cbn [fst snd]. destruct (on_vars _ st) as [s1 []| |]; [|done..].
  revert s1. clear. induction names as [|m names IH]; intros s1; [done|]. cbn [for_each map]. unfold bind, assign at 1.
  cbn [fst snd]. destruct (on_vars _ s1); [apply IH|done..].
Qed.

Lemma as_assigned_now {A} l (s : sh) w' (a : A) : as_assigned l s w' a ((for_each assign l ;; ret a) (put_world w' s)).
Proof.
  unfold as_assigned, bind. rewrite assigns_put_world. destruct (for_each assign l s); simpl; [done|by exists w'|done].
Qed.

(** The loop assigns what [assigns] lists, and [read_assign] the rest. *)
Lemma read_loop_assigns o fd f l eof k n s (st : sh) w1 w' :
  fds st !! fd = Some f -> delivers f (world st) l w1 -> os_read1 w1 f = (w', if eof : bool then None else Some NL) ->
  Forall (fun c => c <> NL) l -> (length l < k)%nat -> n <= 0 -> Z.of_nat (length l) - n < 2 ^ 31 ->
  rd_bs (snd (rd_run o s l)) = false ->
  as_assigned (assigns o s l) st w' (b2z eof)
    ((let! r := read_loop k fd false o n s in
      match r with None => ret 1 | Some (s, retval) => read_assign o s ;; ret retval end) st).
Proof.
  intros Hf Hd Hlast Hl. revert k n s st Hf Hd. induction Hl as [|c l Hc Hl IH]; intros k n s st Hf Hd Hk Hn Hlen Hbs;
    (destruct k as [|k]; [simpl in Hk; lia|]); cbn [read_loop rd_run] in *.
  - inversion Hd; subst.
    assert (forall a : Z, as_assigned (rd_final o s) st w' a ((read_assign o s ;; ret a) (put_world w' st))) as Hend.
    { intros a. unfold bind. rewrite read_assign_final. apply as_assigned_now. }
    unfold assigns. cbn [rd_run fst snd app]. cbn [snd] in Hbs. unfold bind at 1 2 3. cbn [ret negb].
    rewrite (read1_run _ _ _ _ _ Hf Hlast). destruct eof; [apply (Hend 1)|]. unfold read_char. rewrite Hbs, andb_false_r.
    change (NL ≟ "\"%char) with false. rewrite andb_false_r. rewrite Ascii.eqb_refl. apply (Hend 0).
  - inversion Hd as [|? w2 ? ? ? Hr Hd']; subst. simpl length in *.
    unfold bind at 1 2 3. cbn [ret negb]. rewrite (read1_run _ _ _ _ _ Hf Hr), assigns_cons, wrapS_dec by lia.
    assert (forall s1 (st1 : sh), sh_r st1 = sh_r st -> rd_bs (snd (rd_run o s1 l)) = false ->
              as_assigned (assigns o s1 l) st1 w' (b2z eof)
                ((let! r := read_loop k fd false o (n - 1) s1 in
                  match r with None => ret 1 | Some (s, retval) => read_assign o s ;; ret retval end) (put_world w2 st1))) as Hgo.
    { intros s1 st1 Er Hbs1. eapply as_assigned_put_world, IH; try done; try lia. unfold fds in *. simpl. by rewrite Er. }
    assert (n - 1 =? 0 = false) as Hz by (apply Z.eqb_neq; lia).
    destruct (read_char o s c) as [s1|s1 m v|s1] eqn:Ec; [| |by apply read_char_break in Ec].
    + rewrite Hz. by apply (Hgo s1 st).
    + assert (rd_bs (snd (rd_run o s1 l)) = false) as Hbs1 by (by destruct (rd_run o s1 l)).
      unfold as_assigned. cbn [for_each]. unfold bind, assign at 1. cbn [fst snd]. rewrite on_vars_put_world.
      destruct (on_vars (setvar0 m v) st) as [st1 u|st1 e|] eqn:Ev; cbn [rmap]; [|by exists w2|done].
      rewrite Hz. apply (Hgo s1 st1); [by apply on_vars_r in Ev|done].
Qed.

(** No backslash was read last. *)
Lemma rd_run_bs o l s : Forall (plain_char (r_raw o)) l -> rd_bs s = false -> rd_bs (snd (rd_run o s l)) = false.
Proof.
  intros Hl. revert s. induction Hl as [|c l Hc Hl IH]; intros s Hs; [done|]. cbn [rd_run].
  destruct s as [buf names start bs]. cbn in Hs. subst bs. rewrite read_char_plain by done.
  destruct names as [|n ns]; [by apply IH|]. cbv zeta.
  repeat case_match; simplify_eq; auto; match goal with E : rd_run o ?s l = _ |- _ => specialize (IH s eq_refl); by rewrite E in IH end.
Qed.

End Read.

(** "a : b  c d " with IFS=" :" is read into x, y and z. *)
Definition read_demo : shell nat demo_os :=
  let s := shell_in {[0 := 1%nat]} (mk_os ∅ {[1%nat := lit " a : b  c d " ++ [NL]]} {[1%nat := (1, 0)%nat]} (lit "/")) in
  match assign (lit "IFS", lit " :") s with Ok s _ => s | _ => s end.

Definition read_demo_value (n : string) (r : res (shell nat demo_os) Z) : option cstr :=
  match r with Ok s _ => sh_lookupvar s (lit n) | _ => None end.


(** ** umask *)

(** Both ways of printing a mask read back as the mask, under the mask the layer
    answers. *)
Theorem umask_reads_back m : 0 <= m < 512 ->
  umask_set (Ids.umask 0) (umask_symbolic m) = Some m /\ umask_set (Ids.umask 0) (fmt_04o m) = Some m.
Proof.
  intros Hm.
  assert (forallb (fun m => bool_decide (umask_set (Ids.umask 0) (umask_symbolic m) = Some m /\
            umask_set (Ids.umask 0) (fmt_04o m) = Some m)) (seqZ 0 512) = true) as Hall by (vm_compute; reflexivity).
  eapply bool_decide_eq_true, (proj1 (forallb_forall _ _) Hall). apply list_elem_of_In, elem_of_seqZ. lia.
Qed.

Lemma umask_reads_back_witness :
  umask_set (Ids.umask 0) (umask_symbolic 22) = Some 22 /\ umask_set (Ids.umask 0) (fmt_04o 22) = Some 22.
Proof. apply (umask_reads_back 22). lia. Defined.
