(* ===== verification/AshDir.v ===== *)
(** * shell/ash.c: the current directory's name

    cd keeps the name under which the shell knows its directory canonical:
    [updatepwd] against LibbbStr's [canon], and what cd leaves behind. *)

From Stdlib Require Import Ascii String ZArith Lia.
From stdpp Require Import base gmap list strings.
From S2P Require Import Prelude Clib LibbbStr ShMath WasiCompat AshInput AshLex AshParse AshBase AshVar AshExpand AshFrame AshRedir AshShell AshBuiltin AshEval AshDemo.

Local Open Scope Z_scope.
Local Open Scope ash_scope.

(** ** Canonical names *)

(** A component of a canonical name. *)
Definition component (c : cstr) : Prop := c <> [] /\ noslash c /\ c <> lit "." /\ c <> lit "..".

(** The name of a directory; POSIX allows for a root "//" of its own. *)
Definition dirname (double : bool) (st : list cstr) : cstr := if double then "/"%char :: render st else render st.

Definition canonical (d : cstr) : Prop := exists double st, Forall component st /\ d = dirname double st.

(** Which of the roots an absolute name starts at. *)
Definition double_root (dir : cstr) : bool := (at0 dir 1 ≟ "/"%char) && negb (at0 dir 2 ≟ "/"%char).

(** The name of directory [dir] seen from [cur]. *)
Definition resolve (double : bool) (st : list cstr) (dir : cstr) : cstr :=
  if hd0 dir ≟ "/"%char then dirname (double_root dir) (canon [] (path_comps dir))
  else dirname double (canon st (path_comps dir)).

Lemma tokens_comps cur p : tokens cur p = comps_from cur p.
Proof.
  revert cur. induction p as [|c p IH]; intros cur; simpl; [done|].
  destruct (Ascii.eqb c "/"); rewrite ?IH; by destruct cur.
Qed.

Lemma comps_ok cur p : noslash cur -> Forall (fun c => c <> [] /\ noslash c) (comps_from cur p).
Proof.
  assert (forall c, noslash c -> Forall (fun c => c <> [] /\ noslash c) (flush c)) as Hf
    by (intros [|x c] Hc; repeat constructor; done).
  revert cur. induction p as [|c p IH]; intros cur Hc; simpl; [by apply Hf|].
  destruct (Ascii.eqb_spec c "/").
  - apply Forall_app. split; [by apply Hf|]. apply IH. apply not_elem_of_nil.
  - apply IH. unfold noslash in *. rewrite not_elem_of_app, list_elem_of_singleton. split; [done|congruence].
Qed.

Lemma canon_components st l : Forall component st -> Forall (fun c => c <> [] /\ noslash c) l -> Forall component (canon st l).
Proof.
  intros Hst Hl. revert st Hst. unfold canon. induction Hl as [|c l [Hne Hns] _ IH]; intros st Hst; [done|]. cbn [foldl]. apply IH.
  unfold canon_step. case_decide; [done|]. case_decide; [by destruct Hst|]. by repeat constructor.
Qed.

Lemma resolve_canonical double st dir : Forall component st -> canonical (resolve double st dir).
Proof.
  intros Hst. unfold resolve. case_match; eexists _, _; (split; [|reflexivity]); apply canon_components; try done;
    apply comps_ok, not_elem_of_nil.
Qed.

(** ** The buffer of updatepwd *)

Definition root_text (double : bool) : cstr := if double then lit "//" else lit "/".

(** The name of the directory with a slash at its end. *)
Definition with_slash (double : bool) (st : list cstr) : cstr :=
  root_text double ++ concat (map (fun c => c ++ ["/"%char]) (rev st)).

Lemma with_slash_cons double c st : with_slash double (c :: st) = with_slash double st ++ c ++ ["/"%char].
Proof. unfold with_slash. cbn [rev]. rewrite map_app, concat_app, app_assoc. simpl. by rewrite app_nil_r. Qed.

Lemma dirname_cons double c st : dirname double (c :: st) = with_slash double st ++ c.
Proof.
  assert (forall l, concat (map (fun c => "/"%char :: c) (l ++ [c])) = "/"%char :: concat (map (fun c => c ++ ["/"%char]) l) ++ c) as E.
  { induction l as [|d l IH]; simpl; [by rewrite app_nil_r|]. by rewrite IH, <- !app_assoc. }
  unfold dirname, with_slash, render. cbn [rev]. rewrite E. by destruct double.
Qed.

Lemma last_char_app l c : last_char (l ++ [c]) = c.
Proof. apply List.last_last. Qed.

Lemma with_slash_last double st : last_char (with_slash double st) = "/"%char.
Proof.
  destruct st as [|c st]; [by destruct double|]. rewrite with_slash_cons, app_assoc. apply last_char_app.
Qed.

Lemma with_slash_length double st : (length (root_text double) <= length (with_slash double st))%nat.
Proof. unfold with_slash. rewrite length_app. lia. Qed.

(** ".." takes off one component. *)
Lemma drop_component_one fuel new c x lim :
  noslash c -> last_char new = "/"%char -> (lim <= length new)%nat -> (length c < fuel)%nat ->
  drop_component fuel (new ++ c ++ [x]) lim = new.
Proof.
  revert fuel x. induction c as [|y c IH] using rev_ind; intros fuel x Hc Hl Hlim Hf; (destruct fuel as [|fuel]; [simpl in Hf; lia|]);
    cbn [drop_component].
  - assert ((lim <? length (new ++ [] ++ [x]))%nat = true) as -> by (apply Nat.ltb_lt; rewrite length_app; simpl; lia).
    cbn [app]. rewrite removelast_last. by rewrite Hl.
  - assert ((lim <? length (new ++ (c ++ [y]) ++ [x]))%nat = true) as -> by (apply Nat.ltb_lt; rewrite !length_app; simpl; lia).
    unfold noslash in Hc. rewrite not_elem_of_app, list_elem_of_singleton in Hc. destruct Hc as [Hc Hy].
    rewrite !app_assoc, removelast_last, last_char_app. apply not_eq_sym, Ascii.eqb_neq in Hy. rewrite Hy.
    rewrite <- app_assoc. apply IH; try done. rewrite length_app in Hf. simpl in Hf. lia.
Qed.

Lemma drop_component_root fuel new : drop_component fuel new (length new) = new.
Proof. destruct fuel; [done|]. simpl. by rewrite Nat.ltb_irrefl. Qed.

Lemma updatepwd_loop_canon double l st :
  Forall component st -> Forall (fun c => c <> [] /\ noslash c) l ->
  updatepwd_loop l (with_slash double st) (length (root_text double)) = with_slash double (canon st l).
Proof.
  intros Hst Hl. revert st Hst. unfold canon. induction Hl as [|c l Hc Hl IH]; intros st Hst; [done|].
  cbn [updatepwd_loop foldl]. rewrite <- IH by (apply (canon_components st [c]); [done|by constructor]). f_equal.
  unfold canon_step. destruct (decide (c = lit ".")) as [->|Hdot]; [done|].
  rewrite (bool_decide_false (c = lit ".")) by done. case_bool_decide as Hdd.
  - rewrite decide_True by done. destruct Hst as [|d st (_ & Hd & _) Hst].
    + unfold with_slash. simpl. rewrite app_nil_r. apply drop_component_root.
    + rewrite with_slash_cons. apply drop_component_one; [done|apply with_slash_last|apply with_slash_length|].
      rewrite !length_app. simpl. lia.
  - rewrite decide_False by done. by rewrite with_slash_cons.
Qed.

Lemma strip_end double st : Forall component st ->
  (if (length (root_text double) <? length (with_slash double st))%nat then removelast (with_slash double st)
   else with_slash double st) = dirname double st.
Proof.
  intros [|c st' (Hc & _) Hst].
  - unfold with_slash. simpl. rewrite app_nil_r, Nat.ltb_irrefl. by destruct double.
  - rewrite with_slash_cons, dirname_cons. pose proof (with_slash_length double st').
    destruct (Nat.ltb_spec (length (root_text double)) (length (with_slash double st' ++ c ++ ["/"%char]))) as [_|Hle].
    + by rewrite app_assoc, removelast_last.
    + rewrite !length_app in Hle. simpl in Hle. lia.
Qed.

Lemma dirname_slash double st : Forall component st ->
  (if last_char (dirname double st) ≟ "/"%char then dirname double st else dirname double st ++ ["/"%char]) = with_slash double st.
Proof.
  intros [|c st' (Hne & Hc & _) Hst]; [by destruct double|]. rewrite dirname_cons, with_slash_cons.
  destruct c as [|x c _] using rev_ind; [done|]. rewrite app_assoc, last_char_app.
  unfold noslash in Hc. rewrite not_elem_of_app, list_elem_of_singleton in Hc. destruct Hc as [_ Hx].
  apply not_eq_sym, Ascii.eqb_neq in Hx as ->. by rewrite !app_assoc.
Qed.

(** The limit is found again in the text. *)
Lemma with_slash_lim double st : Forall component st ->
  (if (1 <? length (with_slash double st))%nat && (at0 (with_slash double st) 1 ≟ "/"%char) then 2%nat else 1%nat) =
  length (root_text double).
Proof.
  intros Hst. unfold with_slash. destruct double; [done|]. cbn [root_text].
  change (at0 (lit "/" ++ ?l) 1) with (hd0 l).
  apply Forall_rev in Hst. revert Hst. generalize (rev st). intros l Hl. destruct Hl as [|c st' (Hne & Hc & _) _]; [done|]. destruct c as [|x c]; [done|].
  simpl. apply noslash_cons in Hc as [Hx _]. by apply Ascii.eqb_neq in Hx as ->.
Qed.

(** C15. [updatepwd] computes the canonical name of the directory [dir] seen from the
    current one: the components in turn, empty and "." ones left out, ".." taking
    off the one before, one slash between components and none at the end; a
    directory that starts with exactly two slashes keeps both. *)
Theorem updatepwd_canonical double st dir :
  Forall component st -> updatepwd (Some (dirname double st)) dir = Some (resolve double st dir).
Proof.
  intros Hst. unfold updatepwd, resolve.
  assert (forall d s p, Forall component s ->
            (if (length (root_text d) <? length (updatepwd_loop (tokens [] p) (with_slash d s) (length (root_text d))))%nat
             then removelast (updatepwd_loop (tokens [] p) (with_slash d s) (length (root_text d)))
             else updatepwd_loop (tokens [] p) (with_slash d s) (length (root_text d))) =
            dirname d (canon s (path_comps p))) as Hend.
  { intros d s p Hs. rewrite tokens_comps. pose proof (comps_ok [] p (not_elem_of_nil _)) as Hp. fold (path_comps p) in *.
    rewrite updatepwd_loop_canon by done. apply strip_end. by apply canon_components. }
  destruct (hd0 dir ≟ "/"%char) eqn:Hd.
  - destruct dir as [|c dir]; [done|]. apply Ascii.eqb_eq in Hd. simpl in Hd. subst c. unfold double_root.
    destruct ((at0 ("/"%char :: dir) 1 ≟ "/"%char) && negb (at0 ("/"%char :: dir) 2 ≟ "/"%char)) eqn:Hroot.
    + apply andb_true_iff in Hroot as [H1 _]. destruct dir as [|c dir]; [done|]. apply Ascii.eqb_eq in H1.
      unfold at0 in H1. simpl in H1. subst c. f_equal. exact (Hend true [] dir (Forall_nil_2 _)).
    + f_equal. exact (Hend false [] dir (Forall_nil_2 _)).
  - rewrite dirname_slash, with_slash_lim by done. f_equal. by apply Hend.
Qed.

(** From "/home/user", "../a/./b/" is "/home/a/b". *)
Lemma updatepwd_canonical_witness :
  updatepwd (Some (dirname false [lit "user"; lit "home"])) (lit "../a/./b/") =
  Some (resolve false [lit "user"; lit "home"] (lit "../a/./b/")) /\
  resolve false [lit "user"; lit "home"] (lit "../a/./b/") = lit "/home/a/b".
Proof.
  split; [|by vm_compute]. apply (updatepwd_canonical false [lit "user"; lit "home"] (lit "../a/./b/")).
  repeat (apply Forall_cons_2 || apply Forall_nil_2); (split; [discriminate|split; [unfold noslash; by_eval|split; discriminate]]).
Defined.

(** ** cd *)

Section Cd.
Context {F W : Type} `{Os F W}.

Abbreviation sh := (shell F W).

(** The name of the current directory is canonical, or not known. *)
Definition curdir_ok (s : sh) : Prop := match sh_curdir s with Some d => canonical d | None => True end.

(** Whatever its outcome, a computation that does not chdir keeps it. *)
Definition preserves {A} (P : sh -> Prop) (m : M sh A) : Prop :=
  forall s, P s -> match m s with Ok s' _ | Raise s' _ => P s' | Wild => True end.

Lemma preserves_bind {A B} P (m : M sh A) (k : A -> M sh B) :
  preserves P m -> (forall a, preserves P (k a)) -> preserves P (bind m k).
Proof.
  intros Hm Hk s Hs. specialize (Hm s Hs). unfold bind. destruct (m s) as [s' a|s' e|]; [by apply Hk|done|done].
Qed.

Lemma preserves_ret {A} P (a : A) : preserves P (ret a).
Proof. by intros s Hs. Qed.

Lemma preserves_get {A} P (g : sh -> A) : preserves P (get g).
Proof. by intros s Hs. Qed.

Lemma preserves_wild {A} P : preserves P (@wild sh A).
Proof. by intros s Hs. Qed.

Lemma preserves_modify P (g : sh -> sh) : (forall s, P s -> P (g s)) -> preserves P (modify g).
Proof. intros Hg s Hs. by apply Hg. Qed.

Lemma preserves_on_vars {A} (m : Sh A) : preserves curdir_ok (on_vars m).
Proof.
  intros s Hs. unfold on_vars. cbv zeta.
  assert (forall l (s : sh), curdir_ok s -> exists s', for_each changepath l s = Ok s' tt /\ curdir_ok s') as Hc.
  { clear. intros l. induction l as [|v l IH]; intros s Hs; [by exists s|]. cbn [for_each].
    assert (exists s', changepath v s = Ok s' tt /\ curdir_ok s') as (s' & E & Hs') by (eexists; split; [reflexivity|done]).
    rewrite (bind_run _ _ _ _ _ E). by apply IH. }
  destruct (m (sh_vars s)) as [v b|v e|]; [| |done]; unfold bind;
    match goal with |- context [for_each changepath ?l ?s] => destruct (Hc l s) as (s' & -> & Hs') end; done.
Qed.
Lemma preserves_raise_error {A} msg : preserves curdir_ok (@AshShell.ash_msg_and_raise_error F W A msg).
Proof. apply preserves_on_vars. Qed.

Lemma preserves_setvar n v fl : preserves curdir_ok (setvar n v fl : M sh unit).
Proof. apply preserves_on_vars. Qed.

Lemma preserves_lookup n : preserves curdir_ok (bltinlookup n : M sh (option cstr)).
Proof. apply preserves_on_vars. Qed.

Lemma preserves_all_opts fuel os l p acc : preserves curdir_ok (all_opts fuel os l p acc : M sh _).
Proof.
  revert l p acc. induction fuel as [|fuel IH]; intros l p acc; cbn [all_opts]; [apply preserves_wild|].
  destruct (nextopt os l p); first [apply IH|apply preserves_ret|apply preserves_raise_error].
Qed.

Lemma preserves_out1 t : preserves curdir_ok (out1 t : M sh unit).
Proof. intros s Hs. unfold out1. rewrite bind_get. by destruct (fds s !! 1). Qed.

(** The system answers canonical names. *)
Context (getcwd_ok : forall (w : W) d, os_getcwd w = Some d -> canonical d).

Lemma preserves_setpwd val setold : (forall d, val = PwdText d -> canonical d) ->
  preserves curdir_ok (setpwd val setold : M sh unit).
Proof.
  intros Hval s Hs. unfold setpwd. rewrite bind_get.
  assert (preserves curdir_ok (if setold then setvar (lit "OLDPWD") (default [] (sh_curdir s)) VEXPORT else ret tt : M sh unit)) as Hold
    by (destruct setold; [apply preserves_setvar|apply preserves_ret]).
  specialize (Hold s Hs). unfold bind at 1. destruct (_ s) as [s1 []|s1 e|]; [|done..].
  rewrite bind_get.
  assert (forall dir phys, (forall d, dir = Some d -> canonical d) ->
    match (modify (set_curdir dir) ;; modify (set_physdir phys) ;; setvar (lit "PWD") (default [] dir) VEXPORT) s1 with
    | Ok s' _ | Raise s' _ => curdir_ok s'
    | Wild => True
    end) as Hend.
  { intros dir phys Hd. rewrite !bind_modify. apply preserves_setvar. unfold curdir_ok. simpl. destruct dir; auto. }
  destruct val as [| |d]; apply Hend; intros d' E; [by apply (getcwd_ok (world s1))| |].
  - unfold curdir_ok in Hs. by rewrite E in Hs.
  - injection E as <-. auto.
Qed.

Lemma preserves_docd dest physical : preserves curdir_ok (docd dest physical : M sh bool).
Proof.
  intros s Hs. unfold docd. rewrite bind_get. set (dir := if physical then None else updatepwd (sh_curdir s) dest).
  assert (forall d, dir = Some d -> canonical d) as Hdir.
  { unfold dir. destruct physical; [done|]. unfold curdir_ok in Hs. intros d E.
    destruct (sh_curdir s) as [cur|] eqn:Ec.
    - destruct Hs as (double & st & Hst & ->). rewrite updatepwd_canonical in E by done. injection E as <-.
      by apply resolve_canonical.
    - unfold updatepwd in E. destruct (hd0 dest ≟ "/"%char) eqn:Hh; [|done].
      assert (updatepwd (Some (dirname false [])) dest = Some d) as E' by (unfold updatepwd; by rewrite Hh).
      rewrite updatepwd_canonical in E' by constructor. injection E' as <-. by apply resolve_canonical. }
  clearbody dir. destruct (os_chdir (world s) (default dest dir)) as [w|]; [|done].
  rewrite bind_modify.
  assert (forall d, match dir with Some d => PwdText d | None => PwdNull end = PwdText d -> canonical d) as Hval
    by (destruct dir; [intros d E; injection E as <-; auto|done]).
  apply (preserves_bind curdir_ok _ _ (preserves_setpwd _ true Hval)
    (fun _ => preserves_bind curdir_ok hashcd _ (preserves_modify _ _ (fun s H => H)) (fun _ => preserves_ret _ true))).
  done.
Qed.

Create HintDb preserves.
#[local] Hint Resolve preserves_ret preserves_get preserves_wild preserves_raise_error preserves_setvar preserves_lookup
  preserves_all_opts preserves_out1 preserves_docd : preserves.

(** Take a computation apart; what is left are its calls. *)
Ltac preserve :=
  repeat first
    [ solve [auto with preserves]
    | match goal with
      | |- preserves _ (bind _ _) => apply preserves_bind; [|intros ?]
      | |- preserves _ (match ?x with _ => _ end) => destruct x
      end ].

(** C16. cd, with whatever options, operand and CDPATH, and whether it succeeds or not,
    leaves a canonical name for the current directory if there was one: absolute,
    single slashes, no "." and "..", no slash at the end. *)
Theorem cd_keeps_canonical args (s : sh) :
  curdir_ok s -> match cdcmd args s with Ok s' _ | Raise s' _ => curdir_ok s' | Wild => True end.
Proof.
  revert s. change (preserves curdir_ok (cdcmd args)). unfold cdcmd, getopts. preserve.
Qed.

(** Without -P, the system is asked to change to the canonical name of the operand
    seen from the current directory, which becomes the directory's name when it
    does. *)
Lemma docd_logical dest double st (s s' : sh) :
  sh_curdir s = Some (dirname double st) -> Forall component st -> docd dest false s = Ok s' true ->
  is_Some (os_chdir (world s) (resolve double st dest)) /\ sh_curdir s' = Some (resolve double st dest).
Proof.
  intros Hs Hst. unfold docd. rewrite bind_get, Hs, updatepwd_canonical by done. cbn [default from_option id]. unfold id.
  destruct (os_chdir (world s) (resolve double st dest)) as [w|]; [|done]. rewrite bind_modify. intros E. split; [done|].
  apply bind_ok in E as (s1 & [] & E & E'). cbn in E'. injection E' as <-.
  unfold setpwd in E. rewrite bind_get in E. apply bind_ok in E as (s2 & [] & _ & E). rewrite bind_get in E.
  rewrite !bind_modify in E. apply (on_vars_keeps sh_curdir) in E; [|done..]. change (sh_curdir s1 = Some (resolve double st dest)). by rewrite E.
Qed.
End Cd.

Lemma demo_getcwd_ok (w : demo_os) d : os_getcwd w = Some d -> canonical d.
Proof.
  simpl. case_bool_decide as Hd; [|done]. intros [= <-].
  assert (Forall component [] /\ Forall component [lit "bin"] /\ Forall component [lit "home"] /\ Forall component [lit "user"; lit "home"])
    as (H1 & H2 & H3 & H4).
  { repeat split; repeat (apply Forall_cons_2 || apply Forall_nil_2);
      (split; [discriminate|split; [unfold noslash; by_eval|split; discriminate]]). }
  unfold demo_dirs in Hd. cbn [map] in Hd. rewrite !elem_of_cons in Hd.
  destruct Hd as [->|[->|[->|[->|Hd]]]]; [| | | |by apply elem_of_nil in Hd]; exists false; eauto.
Qed.

Lemma cd_keeps_canonical_witness :
  match cdcmd [lit "home/../bin/.././home//user/"] demo_shell with
  | Ok s' _ | Raise s' _ => curdir_ok s'
  | Wild => True
  end /\
  match cdcmd [lit "home/../bin/.././home//user/"] demo_shell with
  | Ok s' _ => sh_curdir s' = Some (lit "/home/user")
  | _ => False
  end.
Proof.
  split; [|by vm_compute]. apply (cd_keeps_canonical demo_getcwd_ok [lit "home/../bin/.././home//user/"] demo_shell).
  exists false, []. split; [constructor|reflexivity].
Defined.
