(* ===== verification/AshQuote.v ===== *)
(** * shell/ash.c: quoted text reads back

    What [single_quote] writes (in the lists of export, readonly, set and trap) is
    read by the tokenizer as one word, which the expander turns back into the text
    that was quoted. *)

From Stdlib Require Import Ascii String ZArith Lia.
From stdpp Require Import base gmap list strings.
From S2P Require Import Prelude Clib LibbbStr ShMath AshInput AshLex AshParse AshParseSpec AshLexRun AshParseCorrect AshBase AshExpand AshExpandSpec AshExpandIfs AshExpandCorrect AshRedir AshShell AshBuiltin.

Local Open Scope Z_scope.
Local Open Scope ash_scope.

(** The parts: runs without ' in '...', runs of ' in double quotes. *)
Fixpoint quote_word (fuel : nat) (s : cstr) : word :=
  match fuel with
  | O => []
  | Datatypes.S f =>
      let rest := strchrnul s "'" in
      WSq (take (length s - length rest) s) ::
      match rest with
      | [] => []
      | _ =>
          let len := leading "'" rest in
          WDq (repeat (DChar "'"%char) len) ::
          match drop len rest with [] => [] | s => quote_word f s end
      end
  end.

Lemma strchrnul_split s c : exists t, s = t ++ strchrnul s c /\ c ∉ t /\ (strchrnul s c = [] \/ hd0 (strchrnul s c) = c).
Proof.
  induction s as [|x s (t & E & Ht & Hr)]; [by exists []; split; [|split; [apply not_elem_of_nil|left]]|].
  simpl. destruct (Ascii.eqb_spec x c) as [->|Hx].
  - exists []. split; [done|]. split; [apply not_elem_of_nil|by right].
  - exists (x :: t). simpl. rewrite <- E. split; [done|]. split; [|done]. rewrite not_elem_of_cons. split; congruence.
Qed.

Lemma strchrnul_take s c t : s = t ++ strchrnul s c -> take (length s - length (strchrnul s c)) s = t.
Proof.
  intros E. rewrite E at 1 3. rewrite length_app, Nat.add_sub. apply take_app_length.
Qed.

Lemma leading_run c s : take (leading c s) s = repeat c (leading c s).
Proof. induction s as [|x s IH]; [done|]. simpl. destruct (Ascii.eqb_spec x c) as [->|]; [|done]. simpl. by rewrite IH. Qed.

Lemma leading_pos c s : s <> [] -> hd0 s = c -> (1 <= leading c s)%nat.
Proof. destruct s as [|x s]; [done|]. simpl. intros _ ->. rewrite Ascii.eqb_refl. lia. Qed.

Lemma concat_repeat_one {A} (a : A) n : concat (repeat [a] n) = repeat a n.
Proof. induction n as [|n IH]; [done|]. simpl. by rewrite IH. Qed.

Lemma map_repeat {A B} (f : A -> B) a n : map f (repeat a n) = repeat (f a) n.
Proof. induction n as [|n IH]; [done|]. simpl. by rewrite IH. Qed.

(** The word's source is the quoted text. *)
Lemma quote_word_src list_of fuel s : wsrc list_of (quote_word fuel s) = single_quote_loop fuel s.
Proof.
  revert s. unfold wsrc. induction fuel as [|f IH]; intros s; [done|]. cbn [quote_word single_quote_loop].
  destruct (strchrnul s "'") as [|x r] eqn:Er; [simpl; by rewrite app_nil_r|]. cbn [map concat psrc].
  rewrite leading_run, map_repeat. change (dsrc list_of (DChar "'"%char)) with ["'"%char].
  rewrite concat_repeat_one. destruct (drop _ _) as [|y s'] eqn:Ed; cbn [map concat].
  - by rewrite app_nil_r.
  - rewrite IH. by rewrite <- !app_assoc.
Qed.

Lemma drop_not_in (c : ascii) n (s : cstr) : c ∉ s -> c ∉ drop n s.
Proof. intros Hc Hin. apply Hc. rewrite <- (take_drop n s). apply elem_of_app. by right. Qed.

(** Properties of the text are properties of its parts. *)
Lemma quote_word_parts (P : wpart -> Prop) fuel s :
  (forall t, t ⊆ s -> "'"%char ∉ t -> P (WSq t)) -> (forall n, P (WDq (repeat (DChar "'"%char) n))) ->
  Forall P (quote_word fuel s).
Proof.
  revert s. induction fuel as [|f IH]; intros s Hs Hd; [constructor|]. cbn [quote_word].
  destruct (strchrnul_split s "'") as (t & E & Ht & _). pose proof (strchrnul_take s "'" t E) as Etake.
  assert (t ⊆ s) as Hsub by (rewrite E; intros x; rewrite elem_of_app; tauto).
  destruct (strchrnul s "'") as [|x r] eqn:Er; rewrite Etake; constructor; auto.
  constructor; [done|]. destruct (drop _ _) as [|y s'] eqn:Ed; [done|]. apply IH; [|done].
  intros u Hu. apply Hs. intros z Hz. rewrite E. apply elem_of_app. right. rewrite <- (take_drop (leading "'" (x :: r))).
  apply elem_of_app. right. rewrite Ed. by apply Hu.
Qed.

(** ** Expansion *)

Definition is_char (e : xel) : bool := match e with XC _ _ => true | XMark => false end.

Lemma active_meta_quoted l f : forallb is_char l = true -> active_meta true (l ++ XMark :: f) = active_meta false f.
Proof. induction l as [|[|b c] l IH]; [done|done|]. simpl. auto. Qed.

Lemma field_text_xc (g : ascii -> xel) s : (forall c, exists b, g c = XC b c) -> field_text (map g s) = s /\ forallb is_char (map g s) = true.
Proof.
  intros Hg. unfold field_text. induction s as [|c s [IH1 IH2]]; [done|]. simpl. destruct (Hg c) as [b ->]. simpl. by rewrite IH1.
Qed.

Section Ref.
Context {St : Type} `{Shell St}.
Context (bqcmd : node -> M St (option (list cstr) * Z)) (comp : tree -> node).

(** Elements of whole quotes: their text, and no active pattern characters. *)
Definition in_quotes (l : list xel) (t : cstr) : Prop :=
field_text l = t /\ forall f, active_meta false (l ++ f) = active_meta false f.

Lemma in_quotes_app l1 l2 t1 t2 : in_quotes l1 t1 -> in_quotes l2 t2 -> in_quotes (l1 ++ l2) (t1 ++ t2).
Proof.
intros [<- H1] [<- H2]. split; [apply field_text_app|]. intros f. by rewrite <- app_assoc, H1, H2.
Qed.

Lemma in_quotes_marks l t : field_text l = t -> forallb is_char l = true -> in_quotes (XMark :: l ++ [XMark]) t.
Proof.
intros <- Hl. split; [|intros f; simpl; rewrite <- app_assoc; by apply (active_meta_quoted l f)].
change (XMark :: l ++ [XMark]) with ([XMark] ++ l ++ [XMark]). rewrite !field_text_app. simpl. by rewrite app_nil_r.
Qed.

(** Segments that are not split, and what they are together. *)
Definition quoted_segs (segs : list seg) (t : cstr) : Prop :=
Forall (fun g => splittable g = false) segs /\ in_quotes (concat (map els segs)) t /\ concat (map els segs) <> [].

Lemma ref_concat_app (l1 l2 : list (M St (list seg))) st :
ref_concat (l1 ++ l2) st = (let! a := ref_concat l1 in let! b := ref_concat l2 in ret (a ++ b)) st.
Proof.
revert st. induction l1 as [|m l1 IH]; intros st; cbn [app ref_concat].
- unfold bind, ret. by destruct (ref_concat l2 st).
- unfold bind. destruct (m st) as [s a|s e|]; [|done..]. rewrite IH. unfold bind, ret.
  destruct (ref_concat l1 s) as [s1 b|s1 e|]; [|done..]. destruct (ref_concat l2 s1); [by rewrite app_assoc|done..].
Qed.

Lemma ref_sq s st : exists segs, ref_part bqcmd comp (WSq s) st = Ok st segs /\ quoted_segs segs s.
Proof.
eexists. split; [reflexivity|]. split; [by repeat constructor|]. cbn [map concat els]. rewrite app_nil_r. split; [|done].
destruct (field_text_xc (xc_in SQSYNTAX) s) as [E1 E2]; [intros c; by eexists|]. by apply in_quotes_marks.
Qed.

Lemma ref_dq n st : exists segs, ref_part bqcmd comp (WDq (repeat (DChar "'"%char) n)) st = Ok st segs /\ quoted_segs segs (repeat "'"%char n).
Proof.
exists (mark :: repeat (mk_seg false [XC false "'"%char]) n ++ [mark]). split.
- cbn [ref_part]. rewrite map_repeat.
  assert (forall n, ref_concat (repeat (ref_dpart bqcmd comp (DChar "'"%char)) n) st = Ok st (repeat (mk_seg false [XC false "'"%char]) n)) as E.
  { clear. induction n as [|n IH]; [done|]. cbn [repeat ref_concat]. rewrite (bind_run _ _ _ st [mk_seg false [XC false "'"%char]] eq_refl).
    by rewrite (bind_run _ _ _ _ _ IH). }
  by rewrite (bind_run _ _ _ _ _ (E n)).
- split; [|split; [|done]].
  + constructor; [done|]. apply Forall_app. split; [|by repeat constructor]. by apply Forall_replicate_eq || (induction n; by constructor).
  + cbn [map concat els mark]. rewrite map_app, concat_app. cbn [map concat els mark app]. rewrite map_repeat. cbn [els].
    rewrite concat_repeat_one. apply in_quotes_marks; clear; induction n as [|n IH]; simpl; [done| |done|done].
    unfold field_text in *. simpl. by rewrite IH.
Qed.

Lemma ref_quote_word fuel s st : (length s < fuel)%nat ->
exists segs, ref_word bqcmd comp (quote_word fuel s) st = Ok st segs /\ quoted_segs segs s.
Proof.
revert s. induction fuel as [|f IH]; intros s Hf; [lia|]. cbn [quote_word]. unfold ref_word.
destruct (strchrnul_split s "'") as (t & E & Ht & Hr). pose proof (strchrnul_take s "'" t E) as Etake.
destruct (ref_sq t st) as (a & Ea & Ha).
assert (forall l b u, ref_concat (map (ref_part bqcmd comp) l) st = Ok st b ->
  (l = [] /\ b = [] /\ u = [] \/ quoted_segs b u) ->
  exists segs, ref_concat (map (ref_part bqcmd comp) (WSq t :: l)) st = Ok st segs /\ quoted_segs segs (t ++ u)) as Hcons.
{ intros l b u Eb Hb. exists (a ++ b). cbn [map ref_concat]. rewrite (bind_run _ _ _ _ _ Ea), (bind_run _ _ _ _ _ Eb). split; [done|].
  destruct Hb as [(-> & -> & ->)|(Hb1 & Hb2 & _)]; [by rewrite !app_nil_r|]. destruct Ha as (Ha1 & Ha2 & Ha3).
  split; [by apply Forall_app|]. rewrite map_app, concat_app. split; [by apply in_quotes_app|]. intros [? _]%app_nil. done. }
destruct (strchrnul s "'") as [|x r] eqn:Er.
- rewrite Etake. destruct (Hcons [] [] []) as (segs & E1 & E2); [done|by left|]. exists segs.
  rewrite E, app_nil_r in *. by split.
- destruct Hr as [?|Hx]; [done|]. rewrite Etake. set (n := leading "'" (x :: r)).
  assert (1 <= n)%nat as Hn by (by apply leading_pos).
  assert (s = t ++ repeat "'"%char n ++ drop n (x :: r)) as Es by (unfold n; by rewrite <- leading_run, take_drop).
  destruct (ref_dq n st) as (c & Ec & Hc).
  destruct (drop n (x :: r)) as [|y s'] eqn:Ed.
  + rewrite app_nil_r in Es. rewrite Es. apply (Hcons _ (c ++ [])); [|right; by rewrite app_nil_r].
    cbn [map ref_concat]. by rewrite (bind_run _ _ _ _ _ Ec).
  + destruct (IH (y :: s')) as (d & Ed' & Hd).
    { rewrite Es, !length_app, repeat_length in Hf. simpl in *. lia. }
    rewrite Es. apply (Hcons _ (c ++ d)).
    * cbn [map ref_concat]. unfold ref_word in Ed'. by rewrite (bind_run _ _ _ _ _ Ec), (bind_run _ _ _ _ _ Ed').
    * right. destruct Hc as (Hc1 & Hc2 & Hc3), Hd as (Hd1 & Hd2 & _). split; [by apply Forall_app|].
      rewrite map_app, concat_app. split; [by apply in_quotes_app|]. intros [? _]%app_nil. done.
Qed.

Lemma split_quoted ifs segs cur : Forall (fun g => splittable g = false) segs ->
  split_segs ifs segs cur = if bool_decide (cur ++ concat (map els segs) = []) then [] else [cur ++ concat (map els segs)].
Proof.
intros Hs. revert cur. induction Hs as [|g segs Hg Hs IH]; intros cur; cbn [split_segs map concat]; [by rewrite app_nil_r|].
by rewrite Hg, IH, app_assoc.
Qed.

Lemma ref_words_quoted fnmatch readdir lstat fuel s st : (length s < fuel)%nat ->
  ref_words bqcmd comp fnmatch readdir lstat (quote_word fuel s) st = Ok st [s].
Proof.
intros Hf. destruct (ref_quote_word fuel s st Hf) as (segs & E & Hs & [Ht Hm] & Hne). unfold ref_words.
rewrite (bind_run _ _ _ _ _ E), bind_get. unfold fields. rewrite split_quoted by done. cbn [app].
rewrite bool_decide_false by done. cbn [mapM]. unfold field_words at 1.
specialize (Hm []). rewrite app_nil_r in Hm. rewrite Hm. cbn [active_meta negb]. rewrite orb_true_r.
cbn. by rewrite Ht.
Qed.
End Ref.

(** ** The round trip *)

Definition quoted_text (s : cstr) : cstr := wtext (quote_word (Datatypes.S (length s)) s).

Lemma quote_word_bq comp fuel s : wbq comp (quote_word fuel s) = [].
Proof.
  pose proof (quote_word_parts (fun p => pbq comp p = []) fuel s) as Hq.
  assert (Forall (fun p => pbq comp p = []) (quote_word fuel s)) as Hall.
  { apply Hq; [done|]. intros n. cbn [pbq]. induction n as [|n IH]; [done|exact IH]. }
  unfold wbq. clear Hq. induction Hall as [|p l Hp Hl IH]; [done|]. cbn [map concat]. by rewrite Hp, IH.
Qed.

Lemma quote_word_wf wft fuel s : NL ∉ s -> forallb (wf_part wft) (quote_word fuel s) = true.
Proof.
  intros Hs. assert (Forall (fun p => wf_part wft p = true) (quote_word fuel s)) as Hall.
  { apply quote_word_parts.
    - intros t Ht Hq. cbn [wf_part]. unfold no_nl. rewrite !bool_decide_true by auto. done.
    - intros n. cbn [wf_part]. induction n as [|n IH]; [done|exact IH]. }
  induction Hall as [|p l Hp Hl IH]; [done|]. cbn [forallb]. by rewrite Hp, IH.
Qed.

Lemma quote_word_nul fuel s : NUL ∉ s -> nul_free (quote_word fuel s) = true.
Proof.
  intros Hs. assert (Forall (fun p => nul_free_part p = true) (quote_word fuel s)) as Hall.
  { apply quote_word_parts.
    - intros t Ht _. cbn [nul_free_part]. apply bool_decide_eq_true. auto.
    - intros n. cbn [nul_free_part]. induction n as [|n IH]; [done|exact IH]. }
  unfold nul_free. induction Hall as [|p l Hp Hl IH]; [done|]. cbn [forallb]. by rewrite Hp, IH.
Qed.

(** C13. [single_quote] is inverted by reading, for texts without newlines and
    NULs: behind a blank, in any state of the input that [lexes] allows and if what
    follows starts with a blank, the tokenizer reads its output as one quoted word,
    and expanding this word (with splitting and file name matching, in a shell whose
    variables hold no NULs, no region to split being recorded before) gives exactly the text that was quoted and changes
    nothing. *)
Theorem quoted_reads_back (s : cstr) : NUL ∉ s -> NL ∉ s ->
  (forall e r, hd0 r = SP -> lexes e (SP :: single_quote s ++ r) (IWord (quoted_text s) [] true) r) /\
  (forall St (HS : Shell St) bqcmd getpwnam fnmatch readdir lstat (x : xstate St),
     (forall (st : St) n v, lookupvar st n = Some v -> NUL ∉ v) -> x_ifs x = [] ->
     proj (expandarg bqcmd getpwnam fnmatch readdir lstat (NARG (quoted_text s) []) (Z.lor EXP_FULL EXP_TILDE) x) =
     Ok (x_sh x) [s]).
Proof.
  intros Hnul Hnl. set (w := quote_word (Datatypes.S (length s)) s).
  pose proof (quote_word_wf wf (Datatypes.S (length s)) s Hnl) as Hwf. fold w in Hwf.
  assert (exists t l, w = WSq t :: l) as (t0 & l0 & Ew) by (by eexists _, _).
  split.
  - intros e r Hr. pose proof (lexes_wword 0 e w r) as Hl. cbn [word_lexeme l_src l_item] in Hl.
    assert (wsrc (fun t => lst (print 0 t)) w = single_quote s) as Es by apply quote_word_src.
    rewrite Es, (quote_word_bq (compile 0) _ s : wbq _ w = []) in Hl.
    assert (quoted w = true) as Hq by (by rewrite Ew). rewrite Hq in Hl. apply Hl; [| |done].
    + unfold wf_word. by rewrite Hwf, Ew.
    + apply quote_word_parts; [done|]. intros n. cbn. induction n as [|n IH]; by constructor.
  - intros St HS bqcmd getpwnam fnmatch readdir lstat x Hvals Hifs.
    pose proof (expandarg_words bqcmd getpwnam fnmatch Hvals (compile 0) (compile_not_null 0) readdir lstat wf w x) as He.
    unfold warg in He. rewrite (quote_word_bq (compile 0) _ s : wbq _ w = []) in He.
    unfold quoted_text. fold w. rewrite He; [|done| | |done].
    + apply ref_words_quoted. lia.
    + by apply quote_word_nul.
    + by rewrite Ew.
Qed.

Lemma quoted_reads_back_witness :
  let s := lit "it's a `$x' *"  in
  single_quote s = lit "'it'" ++ [DQUOTE; "'"%char; DQUOTE] ++ lit "'s a `$x'" ++ [DQUOTE; "'"%char; DQUOTE] ++ lit "' *'" /\
  (forall e r, hd0 r = SP -> lexes e (SP :: single_quote s ++ r) (IWord (quoted_text s) [] true) r) /\
  proj (expandarg example_ls (fun _ => None) (fun p s => true) (fun _ _ => None) (fun _ _ => false)
    (NARG (quoted_text s) []) (Z.lor EXP_FULL EXP_TILDE) example_x) = Ok (x_sh example_x) [s].
Proof.
  cbv zeta. split; [by vm_compute|].
  destruct (quoted_reads_back (lit "it's a `$x' *")) as [H1 H2]; [by_eval|by_eval|].
  split; [exact H1|]. apply (H2 map_shell map_shell_shell); [apply map_shell_vals|reflexivity].
Defined.
