(* ===== verification/AshEvalFrame.v ===== *)
(** * shell/ash.c: what parts of the evaluator leave alone

    Break, continue and return are flags in global variables; expansions,
    redirections and assignments keep them ([keeps sh_ctl]), and so do the
    commands of a substitution although they run in the shell's own process. *)

From Stdlib Require Import Ascii String ZArith Lia.
From stdpp Require Import base gmap list strings.
From S2P Require Import Prelude Clib LibbbStr LibbbNum ShMath WasiCompat AshInput AshLex AshParse AshBase AshVar AshExpand AshFrame AshRedir AshShell AshEval.

Local Open Scope Z_scope.
Local Open Scope ash_scope.

Section Frame.
Context {F W : Type} `{Os F W}.
Context (signals : list cstr).
Context (other_builtin : builtincmd -> list cstr -> M (shell F W) Z).
Context (noexec_applet : Z -> bool).

Abbreviation Sm := (M (shell F W)).

(** ** Running a part keeps what is not the part's *)

Lemma on_vars_ctl {A} (m : Sh A) : keeps sh_ctl (on_vars (F := F) (W := W) m).
Proof. by apply on_vars_keeps. Qed.

Lemma on_parser_ctl {A} (m : P A) : keeps sh_ctl (on_parser (F := F) (W := W) m).
Proof. intros s s' a. unfold on_parser. destruct (m (in_of s)); try done. by intros [= <- _]. Qed.

Lemma set_pf_fds_frame (l : list Z) (s : shell F W) :
  sh_ctl (set_pf_fds l s) = sh_ctl s /\ sh_vars (set_pf_fds l s) = sh_vars s /\
  sh_savestatus (set_pf_fds l s) = sh_savestatus s.
Proof. by destruct l. Qed.

Lemma on_redir_ctl {A} (m : M (rstate F W) A) : keeps sh_ctl (on_redir m).
Proof.
  intros s s' a. unfold on_redir. destruct (m (r_of s)); try done. intros [= <- _].
  unfold put_r. by rewrite (proj1 (set_pf_fds_frame _ _)).
Qed.

(** What a substitution saves. *)
Definition saved (s : shell F W) : ctl * Z * Z * list Z :=
  (sh_ctl s, s_exit s, sh_savestatus s, s_optlist (sh_vars s)).

Lemma on_redir_saved {A} (m : M (rstate F W) A) : keeps r_exitstatus m -> keeps saved (on_redir m).
Proof.
  intros Hm s s' a. unfold on_redir. destruct (m (r_of s)) as [r b| |] eqn:Hr; try done. intros [= <- _].
  apply Hm in Hr. unfold put_r, saved, s_exit. destruct (set_pf_fds_frame (r_pf r) (set_exit (r_exitstatus r) (set_r r s))) as (-> & -> & ->).
  cbn. by rewrite Hr.
Qed.

Lemma on_expander_ctl {A} (m : M (xstate (shell F W)) A) :
  keeps (fun x => sh_ctl (x_sh x)) m -> keeps sh_ctl (on_expander m).
Proof.
  intros Hm s s' a. unfold on_expander. destruct (m _) as [x b| |] eqn:Hr; try done. intros [= <- _].
  by apply Hm in Hr.
Qed.

(** ** Descriptors *)

Lemma dup2_exit from to : keeps r_exitstatus (dup2 (F := F) (W := W) from to).
Proof. unfold dup2. keep. Qed.
Lemma close_exit fd : keeps r_exitstatus (close (F := F) (W := W) fd).
Proof. unfold close. keep. Qed.

Lemma dupfd_exit fd n : keeps r_exitstatus (dupfd (F := F) (W := W) fd n).
Proof. unfold dupfd. keep. Qed.
Lemma open_exit fname fl : keeps r_exitstatus (open (F := F) (W := W) fname fl).
Proof. unfold open. keep. Qed.
#[local] Hint Resolve dup2_exit close_exit dupfd_exit open_exit : keeps.

(** Computations that end normally. *)
Definition total {S A} (m : M S A) : Prop := forall s, exists s' a, m s = Ok s' a.

Lemma total_bind {S A B} (m : M S A) (k : A -> M S B) : total m -> (forall a, total (k a)) -> total (bind m k).
Proof. intros Hm Hk s. destruct (Hm s) as (s1 & a & H1). rewrite (bind_run _ _ _ _ _ H1). apply Hk. Qed.
Lemma total_get {S A} (f : S -> A) : total (get f).
Proof. intros s. eexists _, _. reflexivity. Qed.
Lemma total_ret {S A} (a : A) : total (@ret S A a).
Proof. intros s. eexists _, _. reflexivity. Qed.
Lemma total_modify {S} (f : S -> S) : total (modify f).
Proof. intros s. eexists _, _. reflexivity. Qed.
#[local] Hint Resolve total_get total_ret total_modify : keeps.

Lemma total_on_redir {A} (m : M (rstate F W) A) : total m -> total (on_redir m).
Proof. intros Hm s. unfold on_redir. destruct (Hm (r_of s)) as (r & a & ->). eexists _, _. reflexivity. Qed.

Lemma total_dup2 a b : total (dup2 (F := F) (W := W) a b).
Proof. unfold dup2. apply total_bind; [auto with keeps|]. intros t. destruct (t !! a); [apply total_bind|]; auto with keeps. Qed.
Lemma total_dupfd a b : total (dupfd (F := F) (W := W) a b).
Proof. unfold dupfd. apply total_bind; [auto with keeps|]. intros t. destruct (t !! a); [apply total_bind|]; auto with keeps. Qed.
Lemma total_close a : total (close (F := F) (W := W) a).
Proof. apply total_modify. Qed.

(** [fd] becomes stdout. *)
Definition to_stdout (fd : Z) : M (rstate F W) unit := dup2 fd 1 ;; modify (add_stdio 1).
Lemma total_to_stdout fd : total (to_stdout fd).
Proof. apply total_bind; [apply total_dup2|]. intros _. apply total_modify. Qed.
Lemma to_stdout_exit fd : keeps r_exitstatus (to_stdout fd).
Proof. unfold to_stdout. keep. Qed.

(** stdout from a saved descriptor again. *)
Definition back (fd : Z) : M (rstate F W) unit := dup2 fd 1 ;; close fd ;; modify (add_stdio 1).
Lemma total_back fd : total (back fd).
Proof.
  apply total_bind; [apply total_dup2|]. intros _. apply total_bind; [apply total_close|]. intros _. apply total_modify.
Qed.
Lemma back_exit fd : keeps r_exitstatus (back fd).
Proof. unfold back. keep. Qed.

Lemma total_open a b : total (open (F := F) (W := W) a b).
Proof.
  unfold open. intros r. unfold bind, get, modify. destruct (h_open _ _ _) as [w [f|e]]; eexists _, _; reflexivity.
Qed.

(** ** Substitutions *)

#[local] Hint Resolve on_vars_ctl on_parser_ctl on_redir_ctl : keeps.

Section Procs.
Context (ev : node -> Z -> Sm Z).

(** What a substitution does between the redirection of stdout and its end. *)
Definition bq_run (n : node) : Sm unit :=
  catch (ev n 0 ;; ret tt) (fun e =>
    match e with
    | EXEXIT => let! st := get sh_savestatus in if 0 <=? st then modify (set_exit st) else ret tt
    | _ => modify (set_exit 2)
    end).

(** Only the end of the process is an exception of its. *)
Lemma bq_run_raise n s s' e : bq_run n s = Raise s' e -> e = DIED.
Proof.
  unfold bq_run, catch, bind, ret. destruct (ev n 0 s) as [|s1 e1|]; [done| |done].
  destruct e1; try done; [|by intros [= _ <-]].
  unfold get. by destruct (0 <=? _).
Qed.

Lemma error_raises {A} msg (s : shell F W) :
  exists s', @AshShell.ash_msg_and_raise_error F W A msg s = Raise s' (EXERROR msg).
Proof.
  unfold AshShell.ash_msg_and_raise_error, on_vars. cbn.
  rewrite Nat.sub_diag. by eexists.
Qed.

(** [set_opt 0] on what is left of the options. *)
Lemma saved_end l' (s s' : shell F W) :
  saved s' = (sh_ctl s, s_exit s, sh_savestatus s, <[0%nat := nth 0 (s_optlist (sh_vars s)) 0]> l') ->
  sh_ctl s' = sh_ctl s /\ s_exit s' = s_exit s /\ sh_savestatus s' = sh_savestatus s /\
  (s_optlist (sh_vars s') <> [] -> eflag s' = eflag s).
Proof.
  unfold saved. intros [= -> -> -> El']. repeat split; try done. unfold eflag, opt. rewrite El'. by destruct l'.
Qed.

(** The evaluator's flags, [exitstatus], [savestatus] and "set -e" are as before
    when a substitution has ended, whatever its commands did and whichever way
    they ended; what was captured can be read.  It fails only without a file to
    capture into (and if a command ends the process). *)
Lemma bq_spec n (s : shell F W) :
  match osd_evalbackcmd_inproc ev n s with
  | Ok s' (r, _) =>
      is_Some r /\ sh_ctl s' = sh_ctl s /\ s_exit s' = s_exit s /\ sh_savestatus s' = sh_savestatus s /\
      (s_optlist (sh_vars s') <> [] -> eflag s' = eflag s)
  | Raise s' e => e = DIED \/ e = EXERROR (lit "can't capture backquote output")
  | Wild => True
  end.
Proof.
  unfold osd_evalbackcmd_inproc. rewrite bind_get. cbv zeta.
  destruct (total_on_redir _ (total_dupfd 1 10) s) as (s1 & saved1 & H1). rewrite (bind_run _ _ _ _ _ H1).
  match goal with |- context [on_redir (open ?p ?f)] =>
    destruct (total_on_redir _ (total_open p f) s1) as (s2 & tmp & H2); rewrite (bind_run _ _ _ _ _ H2)
  end.
  assert (K : saved s2 = saved s).
  { rewrite (on_redir_saved _ (open_exit _ _) _ _ _ H2). by rewrite (on_redir_saved _ (dupfd_exit _ _) _ _ _ H1). }
  clear H1 H2. destruct tmp as [tmpfd|e].
  2: { destruct (total_on_redir _ (total_close saved1) s2) as (s3 & [] & H3).
    destruct (0 <=? saved1); [rewrite (bind_run _ _ _ _ _ H3)|rewrite (bind_run _ _ _ s2 tt eq_refl)].
    all: edestruct (error_raises (A := option (list cstr) * Z)) as (s4 & H4); rewrite H4; auto. }
  destruct (saved1 <? 0).
  { destruct (total_on_redir _ (total_close tmpfd) s2) as (s3 & [] & H3). rewrite (bind_run _ _ _ _ _ H3).
    edestruct (error_raises (A := option (list cstr) * Z)) as (s4 & H4); rewrite H4; auto. }
  rewrite bind_modify.
  set (sd := set_depth _ s2). assert (Kd : saved sd = saved s) by (rewrite <- K; done). clearbody sd.
  destruct (total_on_redir _ (total_to_stdout tmpfd) sd) as (s3 & [] & H3). rewrite (bind_run _ _ _ _ _ H3).
  apply (on_redir_saved _ (to_stdout_exit _)) in H3. rewrite Kd in H3. clear sd Kd K.
  rewrite bind_get.
  unfold upd_ctl. do 3 rewrite bind_modify.
  set (s4 := set_ifs [] _). clearbody s4. fold (bq_run n).
  destruct (bq_run n s4) as [s5 []|s5 e|] eqn:Hrun.
  2: { rewrite (bind_raise _ _ _ _ _ Hrun). left. by apply bq_run_raise in Hrun. }
  2: { unfold bind at 1. by rewrite Hrun. }
  rewrite (bind_run _ _ _ _ _ Hrun), bind_get. do 4 rewrite bind_modify.
  set (s6 := set_opt 0 _ _).
  destruct (total_on_redir _ (total_back saved1) s6) as (s7 & [] & H7). rewrite (bind_run _ _ _ _ _ H7).
  apply (on_redir_saved _ (back_exit _)) in H7.
  rewrite bind_get. do 2 rewrite bind_modify. rewrite bind_get. set (s8 := set_depth _ _).
  destruct (total_on_redir _ (total_close tmpfd) s8) as (s9 & [] & H9). rewrite (bind_run _ _ _ _ _ H9).
  apply (on_redir_saved _ (close_exit _)) in H9. cbn [ret]. split; [done|].
  apply (saved_end (s_optlist (sh_vars s5))). rewrite H9. change (saved s8) with (saved s7). rewrite H7.
  unfold saved in H3. injection H3 as <- <- <- <-. reflexivity.
Qed.
(** ** Expansions *)

Lemma bq_keeps n : keeps sh_ctl (osd_evalbackcmd_inproc ev n).
Proof. intros s s' [r st] Hr. pose proof (bq_spec n s) as Hs. rewrite Hr in Hs. apply Hs. Qed.

#[export] Instance ctl_unseen : Unseen sh_ctl (osd_evalbackcmd_inproc ev).
Proof.
  split; [|done|done|exact bq_keeps]. intros s n v s'. cbn. unfold sh_setvar.
  destruct (on_vars (setvar0 n v) s) as [s1 []| |] eqn:Hr; try done. intros [= <-]. by apply on_vars_ctl in Hr.
Qed.

Lemma expandarg_ctl a fl : keeps sh_ctl (expandarg ev a fl).
Proof. apply on_expander_ctl, keeps_expandarg, _. Qed.

Lemma casematch_ctl p v : keeps sh_ctl (casematch ev p v).
Proof. apply on_expander_ctl, keeps_casematch, _. Qed.
#[local] Hint Resolve expandarg_ctl casematch_ctl : keeps.

Lemma expandargs_ctl l fl : keeps sh_ctl (expandargs ev l fl).
Proof. induction l as [|a l IH]; cbn [expandargs]; keep. Qed.

Lemma match_any_ctl l v : keeps sh_ctl (match_any ev l v).
Proof. induction l as [|a l IH]; cbn [match_any]; keep. Qed.

Lemma fixredir_ctl text : keeps sh_ctl (fixredir (F := F) (W := W) text).
Proof. unfold fixredir. cbv zeta. keep. Qed.
#[local] Hint Resolve fixredir_ctl : keeps.

Lemma raise_error_ctl {A} msg : keeps sh_ctl (@AshShell.ash_msg_and_raise_error F W A msg).
Proof. apply on_vars_ctl. Qed.
#[local] Hint Resolve raise_error_ctl : keeps.

Lemma expredir_one_ctl r : keeps sh_ctl (expredir_one ev r).
Proof. unfold expredir_one. keep. Qed.
#[local] Hint Resolve expredir_one_ctl : keeps.

Lemma expredir_ctl l : keeps sh_ctl (expredir ev l).
Proof. induction l as [|r l IH]; cbn [expredir]; keep. Qed.

(** C10. A command substitution runs its commands in the shell's own process: whatever
    they are and whichever way they end (an exit, an error, a break out of a loop
    that is not theirs), break, continue and return, [exitstatus], [savestatus] and
    "set -e" are afterwards as they were, and the captured text can be read; it
    fails only if there is no file to capture into or the process dies.  Hence no
    word, however it nests substitutions in parameters, arithmetic and quotes,
    breaks a loop or returns from a function of the shell that expands it. *)
Theorem substitution_isolated n a flag (s : shell F W) :
  match osd_evalbackcmd_inproc ev n s with
  | Ok s' (r, _) =>
      is_Some r /\ sh_ctl s' = sh_ctl s /\ s_exit s' = s_exit s /\ sh_savestatus s' = sh_savestatus s /\
      (s_optlist (sh_vars s') <> [] -> eflag s' = eflag s)
  | Raise s' e => e = DIED \/ e = EXERROR (lit "can't capture backquote output")
  | Wild => True
  end /\
  match expandarg ev a flag s with Ok s' _ => sh_ctl s' = sh_ctl s | _ => True end.
Proof.
  split; [apply bq_spec|]. destruct (expandarg ev a flag s) as [s' l| |] eqn:Hr; [|done|done].
  by apply expandarg_ctl in Hr.
Qed.

End Procs.
End Frame.
