(* ===== verification/AshEvalCtl.v ===== *)
(** * shell/ash.c: break, continue and return as values

    The evaluator hands break, continue and return on in global variables
    ([evalskip], [skipcount]) that every construct has to look at.  Here is the
    same evaluator with signals as values, each construct passing on or catching
    the signal of its parts; and the proof that the two agree on every tree. *)

From Stdlib Require Import Ascii String ZArith Lia.
From stdpp Require Import base gmap list strings.
From S2P Require Import Prelude Clib LibbbStr LibbbNum ShMath WasiCompat AshInput AshLex AshParse AshBase AshVar AshExpand AshFrame AshRedir AshShell AshEval AshEvalFrame AshDemo.

Local Open Scope Z_scope.
Local Open Scope ash_scope.

(** ** Signals *)

(** Break or continue of [n] loops; return, with its value of [evalskip]. *)
Inductive signal := SNone | SBreak (n : Z) | SCont (n : Z) | SRet (kind : Z).

Definition sig_of (c : ctl) : signal :=
  if evalskip c =? 0 then SNone
  else if evalskip c =? SKIPBREAK then SBreak (skipcount c)
  else if evalskip c =? SKIPCONT then SCont (skipcount c)
  else SRet (evalskip c).

(** The variables that stand for a signal. *)
Definition enc (g : signal) (c : ctl) : ctl :=
  match g with
  | SNone => set_evalskip 0 c
  | SBreak n => set_evalskip SKIPBREAK (set_skipcount n c)
  | SCont n => set_evalskip SKIPCONT (set_skipcount n c)
  | SRet kind => set_evalskip kind c
  end.

(** What a loop does with the signal of its body: the loop ends, with a signal
    for the loop around it, or ([None]) goes on. *)
Definition caught (g : signal) : option signal :=
  match g with
  | SNone => None
  | SBreak n => Some (if n <=? 1 then SNone else SBreak (n - 1))
  | SCont n => if n <=? 1 then None else Some (SCont (n - 1))
  | SRet kind => Some (SRet kind)
  end.

Section Ctl.
Context {F W : Type} `{Os F W}.
Context (signals : list cstr).
Context (other_builtin : builtincmd -> list cstr -> M (shell F W) Z).
Context (noexec_applet : Z -> bool).

Abbreviation Sm := (M (shell F W)).
Abbreviation code := (evaltree signals other_builtin noexec_applet).

(** Run a piece of the code under a signal, and read off the signal it leaves. *)
Definition with_signal {A} (g : signal) (m : Sm A) : Sm (A * signal) :=
  upd_ctl (enc g) ;;
  let! a := m in
  let! c := get sh_ctl in
  upd_ctl (set_evalskip 0) ;;
  ret (a, sig_of c).

(** The loop variable's leftover when a signal is used up. *)
Definition use_up (g : signal) : Sm unit :=
  match g with
  | SBreak n | SCont n => if n <=? 1 then upd_ctl (set_skipcount (n - 1)) else ret tt
  | _ => ret tt
  end.

Section Sem.
Context (ev : node -> Z -> Sm Z).                 (* the code, one level down *)
Context (sem : node -> Z -> Sm (Z * signal)) (k : nat).

Definition sem_set (m : Sm (Z * signal)) : Sm (Z * signal) :=
  let! r := m in modify (set_exit (fst r)) ;; ret r.

Fixpoint sem_loop (fuel : nat) (until : bool) (ch1 ch2 : node) (flags status : Z) : Sm (Z * signal) :=
  match fuel with
  | O => wild
  | S f =>
      let next (g : signal) (status : Z) : Sm (Z * signal) :=
        use_up g ;;
        match caught g with
        | Some g => ret (status, g)
        | None => sem_loop f until ch1 ch2 flags status
        end in
      let! r := sem ch1 EV_TESTED in
      match r with
      | (i, SNone) =>
          if (if until then i =? 0 else negb (i =? 0)) then ret (status, SNone)
          else let! r := sem ch2 flags in next (snd r) (fst r)
      | (i, SRet kind) => next (SRet kind) (if kind =? SKIPFUNC then i else status)
      | (_, g) => next g status
      end
  end.

Fixpoint sem_words (l : list cstr) (var : cstr) (body : node) (flags status : Z) : Sm (Z * signal) :=
  match l with
  | [] => ret (status, SNone)
  | w :: l =>
      on_vars (setvar0 var w) ;;
      let! r := sem body flags in
      use_up (snd r) ;;
      match caught (snd r) with
      | Some g => ret (fst r, g)
      | None => sem_words l var body flags (fst r)
      end
  end.

Definition sem_in_loop (m : Sm (Z * signal)) : Sm (Z * signal) :=
  enter_loop ;; let! r := m in leave_loop ;; ret r.

(** The case parts: patterns may run commands, but leave no signal behind. *)
Fixpoint sem_cases (cases : list nclist) (val : cstr) (flags : Z) : Sm (Z * signal) :=
  match cases with
  | [] => ret (0, SNone)
  | NCLIST pats body :: cases =>
      let! b := match_any ev pats val in
      if b : bool then match body with Null => ret (0, SNone) | _ => sem body flags end
      else sem_cases cases val flags
  end.

(** [is_or]: 0 for &&, 1 for ||, 2 for ";". *)
Definition sem_andor (is_or : Z) (ch1 ch2 : node) (flags : Z) : Sm (Z * signal) :=
  let! r := sem ch1 (Z.land (Z.lor flags (Z.shiftr is_or 1 - 1)) EV_TESTED) in
  match r with
  | (status, SNone) => if b2z (status =? 0) =? is_or then ret r else sem_set (sem ch2 flags)
  | _ => ret r
  end.

Definition sem_node (n : node) (flags : Z) : Sm (Z * signal) :=
  match n with
  | NNOT com => sem_set (let! r := sem com EV_TESTED in ret (b2z (fst r =? 0), snd r))
  | NREDIR linno n redirect =>
      sem_set (
        modify (set_linenos linno) ;;
        let! l := expredir ev redirect in
        on_redir (pushredir l) ;;
        let! status := on_redir (redirectsafe l true) in
        let! r := (if status =? 0 then sem n (Z.land flags EV_TESTED) else ret (status, SNone)) in
        with_signal (snd r) (redir_pop redirect false ;; ret (fst r)))
  | NFOR linno args body var =>
      sem_set (
        modify (set_linenos linno) ;;
        let! words := expandargs ev args (Z.lor EXP_FULL EXP_TILDE) in
        sem_in_loop (sem_words words var body (Z.land flags EV_TESTED) 0))
  | NWHILE ch1 ch2 => sem_set (sem_in_loop (sem_loop k false ch1 ch2 (Z.land flags EV_TESTED) 0))
  | NUNTIL ch1 ch2 => sem_set (sem_in_loop (sem_loop k true ch1 ch2 (Z.land flags EV_TESTED) 0))
  | NCASE linno expr cases =>
      sem_set (
        modify (set_linenos linno) ;;
        let! l := expandarg ev expr EXP_TILDE in
        let! val := deref (head l) in
        sem_cases cases val flags)
  | NAND ch1 ch2 => sem_andor 0 ch1 ch2 flags
  | NOR ch1 ch2 => sem_andor 1 ch1 ch2 flags
  | NSEMI ch1 ch2 => sem_andor 2 ch1 ch2 flags
  | NIF test ifpart elsepart =>
      let! r := sem test EV_TESTED in
      match r with
      | (status, SNone) =>
          if status =? 0 then sem_set (sem ifpart flags)
          else match elsepart with
               | Null => sem_set (ret (0, SNone))
               | _ => sem_set (sem elsepart flags)
               end
      | _ => ret r
      end
  | _ => with_signal SNone (tree_node signals other_builtin noexec_applet ev k n flags)
  end.

(** A signal left by a trap's action in front of the command does not keep the
    command from being run. *)
Definition sem_body (n : node) (flags : Z) : Sm (Z * signal) :=
  let! nflag := get nflag in
  if nflag || is_null n then with_signal SNone (tree_out ev k false 0 flags)
  else
    let! r0 := with_signal SNone (dotrap ev k) in
    match snd r0 with
    | SNone =>
        let! r := sem_node n flags in
        with_signal (snd r) (tree_out ev k (checked n flags) (fst r) flags)
    | g =>
        with_signal g (let! status := tree_node signals other_builtin noexec_applet ev k n flags in
                       tree_out ev k (checked n flags) status flags)
    end.

End Sem.

Fixpoint structured (n : nat) : node -> Z -> Sm (Z * signal) :=
  match n with
  | O => fun _ _ => wild
  | S m => fun t flags => sem_body (code m) (structured m) (S m) t flags
  end.

(** A result with its signal, as the code leaves it. *)
Definition inject {A} (r : res (shell F W) (A * signal)) : res (shell F W) A :=
  match r with
  | Ok s (a, g) => Ok (mod_ctl (enc g) s) a
  | Raise s e => Raise s e
  | Wild => Wild
  end.

(** ** The two agree *)

(** What [inject] and the signals' encoding rest on: the state of the structured
    evaluator has no signal in it. *)
Definition clear (s : shell F W) : Prop := evalskip (sh_ctl s) = 0.

Definition wf_signal (g : signal) : Prop := match g with SRet kind => ~ In kind [0; 1; 2] | _ => True end.

Definition quiet {A} (r : res (shell F W) (A * signal)) : Prop :=
  match r with Ok s (_, g) => clear s /\ wf_signal g | _ => True end.

(** [c], run under the signal [g], does what [m] does. *)
Definition agree {A} (g : signal) (c : Sm A) (m : Sm (A * signal)) : Prop :=
  forall s, clear s -> c (mod_ctl (enc g) s) = inject (m s) /\ quiet (m s).

Lemma mod_ctl_eq f h (s : shell F W) : f (sh_ctl s) = h (sh_ctl s) -> mod_ctl f s = mod_ctl h s.
Proof. unfold mod_ctl. by intros ->. Qed.

Lemma mod_ctl_none (s : shell F W) : clear s -> mod_ctl (enc SNone) s = s.
Proof. destruct s as [? ? ? []]. unfold clear, mod_ctl, set_ctl, set_evalskip. simpl. by intros ->. Qed.

Lemma enc_sig_of c : enc (sig_of c) (set_evalskip 0 c) = c.
Proof.
  destruct c as [e n l f]. unfold sig_of, set_evalskip. simpl.
  destruct (Z.eqb_spec e 0) as [->|]; [done|]. destruct (Z.eqb_spec e SKIPBREAK) as [->|]; [done|].
  by destruct (Z.eqb_spec e SKIPCONT) as [->|].
Qed.

Lemma wf_sig_of c : wf_signal (sig_of c).
Proof.
  unfold sig_of. destruct (Z.eqb_spec (evalskip c) 0); [done|]. destruct (Z.eqb_spec (evalskip c) SKIPBREAK); [done|].
  destruct (Z.eqb_spec (evalskip c) SKIPCONT); [done|]. unfold SKIPBREAK, SKIPCONT in *. simpl. lia.
Qed.

Lemma agree_with_signal {A} g (c : Sm A) : agree g c (with_signal g c).
Proof.
  intros s _. unfold with_signal, upd_ctl. rewrite bind_modify. unfold bind, get, modify, ret.
  destruct (c (mod_ctl (enc g) s)) as [s1 a| |]; cbn [inject quiet]; [|done|done]. split; [|split; [done|apply wf_sig_of]].
  unfold mod_ctl, set_ctl. simpl. rewrite enc_sig_of. by destruct s1.
Qed.

Lemma agree_ret {A} g (a : A) : wf_signal g -> agree g (ret a) (ret (a, g)).
Proof. by intros Hg s Hs. Qed.

Lemma agree_wild {A} g : agree g (@wild _ A) wild.
Proof. by intros s Hs. Qed.

Lemma agree_bind {A B} g (c : Sm A) m (k : A -> Sm B) k' :
  agree g c m -> (forall a g', wf_signal g' -> agree g' (k a) (k' (a, g'))) -> agree g (bind c k) (bind m k').
Proof.
  intros Hc Hk s Hs. destruct (Hc s Hs) as (E & Q). unfold bind. rewrite E.
  destruct (m s) as [s1 [a g1]|s1 e|]; cbn [inject]; [|done|done]. destruct Q as (Q1 & Q2). by apply Hk.
Qed.

(** A step that neither sees nor leaves a signal. *)
Lemma agree_step {A B} (p : Sm A) (c : A -> Sm B) m :
  keeps sh_ctl p -> (forall a, agree SNone (c a) (m a)) -> agree SNone (bind p c) (bind p m).
Proof.
  intros Hp Hc s Hs. rewrite (mod_ctl_none s Hs). unfold bind. destruct (p s) as [s1 a| |] eqn:Hr; [|done|done].
  assert (C : clear s1) by (unfold clear; by rewrite (Hp _ _ _ Hr)).
  rewrite <- (mod_ctl_none s1 C) at 1. by apply Hc.
Qed.

(** A step that does not look at the signal. *)
Definition blind {A} (p : Sm A) : Prop := forall g s,
  match p s with
  | Ok s' a => p (mod_ctl (enc g) s) = Ok (mod_ctl (enc g) s') a /\ evalskip (sh_ctl s') = evalskip (sh_ctl s)
  | _ => False
  end.

Lemma agree_blind {A B} g (p : Sm A) (c : A -> Sm B) m :
  blind p -> (forall a, agree g (c a) (m a)) -> agree g (bind p c) (bind p m).
Proof.
  intros Hp Hc s Hs. specialize (Hp g s). unfold bind. destruct (p s) as [s1 a| |]; [|done|done].
  destruct Hp as (-> & E). apply Hc. unfold clear. by rewrite E.
Qed.

Lemma blind_set_exit v : blind (modify (set_exit (F := F) (W := W) v)).
Proof. intros g s. done. Qed.
Lemma blind_enter : blind (enter_loop (F := F) (W := W)).
Proof. intros g s. split; [|done]. by destruct g. Qed.
Lemma blind_leave : blind (leave_loop (F := F) (W := W)).
Proof. intros g s. split; [|done]. by destruct g. Qed.

Lemma enter_keeps_clear (s : shell F W) : clear s -> clear (mod_ctl (fun c => set_loopnest (loopnest c + 1) c) s).
Proof. done. Qed.

Lemma land_skip kind : ~ In kind [0; 1; 2] -> (Z.land kind (Z.lnot SKIPCONT) =? 0) = false.
Proof.
  intros Hk. apply Z.eqb_neq. rewrite <- Z.ldiff_land. intros E. apply Hk.
  assert (D : kind = Z.land kind 2).
  { apply Z.bits_inj'. intros i Hi. rewrite Z.land_spec. pose proof (f_equal (fun z => Z.testbit z i) E) as B.
    cbv beta in B. rewrite Z.ldiff_spec, Z.bits_0 in B. unfold SKIPCONT in B. destruct (Z.testbit kind i), (Z.testbit 2 i); done. }
  assert (B : Z.land kind 2 = 0 \/ Z.land kind 2 = 2).
  { assert (B : Z.land kind 2 = if Z.testbit kind 1 then 2 else 0).
    { apply Z.bits_inj'. intros i Hi. rewrite Z.land_spec. change 2 with (2 ^ 1) at 1. rewrite Z.pow2_bits_eqb by lia.
      destruct (Z.eqb_spec 1 i) as [<-|Hn]; [by destruct (Z.testbit kind 1)|]. rewrite andb_false_r.
      destruct (Z.testbit kind 1); [|by rewrite Z.bits_0].
      change 2 with (2 ^ 1). rewrite Z.pow2_bits_eqb by lia. symmetry. by apply Z.eqb_neq. }
    rewrite B. destruct (Z.testbit kind 1); auto. }
  rewrite D. destruct B as [-> | ->]; simpl; auto.
Qed.

(** What [skiploop] returns, and the signal that is left. *)
Definition skip_val (g : signal) : Z :=
  match g with SNone => 0 | SBreak _ => SKIPBREAK | SCont n => if n <=? 1 then SKIPCONT else SKIPBREAK | SRet kind => kind end.

Definition left_over (g : signal) : signal := default SNone (caught g).

Definition used_up (g : signal) (s : shell F W) : shell F W :=
  match g with
  | SBreak n | SCont n => if n <=? 1 then mod_ctl (set_skipcount (n - 1)) s else s
  | _ => s
  end.

Lemma skiploop_run g s : wf_signal g -> clear s ->
  skiploop (mod_ctl (enc g) s) = Ok (mod_ctl (enc (left_over g)) (used_up g s)) (skip_val g).
Proof.
  intros Hg Hs. unfold skiploop, left_over. rewrite bind_get. destruct g as [|n|n|kind]; cbn [caught used_up skip_val default].
  - by rewrite (mod_ctl_none s Hs), Hs.
  - assert (E : (n - 1 <=? 0) = (n <=? 1)) by (destruct (Z.leb_spec (n - 1) 0), (Z.leb_spec n 1); lia || done).
    unfold upd_ctl, bind, modify, ret. cbn -[Z.leb Z.sub]. rewrite E. by destruct (n <=? 1).
  - assert (E : (n - 1 <=? 0) = (n <=? 1)) by (destruct (Z.leb_spec (n - 1) 0), (Z.leb_spec n 1); lia || done).
    unfold upd_ctl, bind, modify, ret. cbn -[Z.leb Z.sub]. rewrite E. by destruct (n <=? 1).
  - cbn. destruct (Z.eqb_spec kind SKIPBREAK) as [->|]; [by destruct Hg; simpl; auto|].
    destruct (Z.eqb_spec kind SKIPCONT) as [->|]; [by destruct Hg; simpl; auto|]. done.
Qed.

Lemma use_up_run g s : use_up g s = Ok (used_up g s) tt.
Proof. destruct g as [|n|n|kind]; try done; simpl; by destruct (n <=? 1). Qed.

Lemma clear_used_up g s : clear s -> clear (used_up g s).
Proof. intros Hs. destruct g as [|n|n|kind]; try done; simpl; by destruct (n <=? 1). Qed.

Lemma wf_left_over g : wf_signal g -> wf_signal (left_over g).
Proof. unfold left_over. destruct g as [|n|n|kind]; simpl; try done; by destruct (n <=? 1). Qed.

Lemma agree_skiploop {A} g (k : Z -> Sm A) m :
  wf_signal g -> agree (left_over g) (k (skip_val g)) m -> agree g (bind skiploop k) (bind (use_up g) (fun _ => m)).
Proof.
  intros Hg Hk s Hs. rewrite (bind_run _ _ _ _ _ (skiploop_run g s Hg Hs)), (bind_run _ _ _ _ _ (use_up_run g s)).
  apply Hk. by apply clear_used_up.
Qed.

Lemma agree_no_skip {A} (k : Z -> Sm A) m : agree SNone (k 0) m -> agree SNone (bind skiploop k) m.
Proof. intros Hk. exact (agree_skiploop SNone k m I Hk). Qed.

Lemma agree_skip_at {A} g (k1 k2 : Z -> Sm A) m :
  wf_signal g -> agree g (bind skiploop k2) m -> k1 (skip_val g) = k2 (skip_val g) -> agree g (bind skiploop k1) m.
Proof.
  intros Hg Hk E s Hs. destruct (Hk s Hs) as (H1 & Q). split; [|done]. rewrite <- H1.
  by rewrite !(bind_run _ _ _ _ _ (skiploop_run g s Hg Hs)), E.
Qed.

(** Whether the loop goes on. *)
Lemma skip_again g : wf_signal g ->
  (Z.land (skip_val g) (Z.lnot SKIPCONT) =? 0) = match caught g with None => true | Some _ => false end.
Proof.
  destruct g as [|n|n|kind]; intros Hg; cbn [skip_val caught]; [done|done|by destruct (n <=? 1)|by apply land_skip].
Qed.

(** The end of a turn. *)
Lemma agree_turn g (again : Sm Z) m status :
  wf_signal g -> agree SNone again m ->
  agree g (let! skip := skiploop in if Z.land skip (Z.lnot SKIPCONT) =? 0 then again else ret status)
    (use_up g ;; match caught g with Some g' => ret (status, g') | None => m end).
Proof.
  intros Hg Hm. apply agree_skiploop; [done|]. rewrite (skip_again g Hg). pose proof (wf_left_over g Hg) as Hl.
  unfold left_over in *. destruct (caught g) as [g'|]; [by apply agree_ret|done].
Qed.

(** *** The constructs, given their parts *)

Section Parts.
Context (ev : node -> Z -> Sm Z) (sem : node -> Z -> Sm (Z * signal)) (k : nat).
Context (part : forall t flags, agree SNone (ev t flags) (sem t flags)).

Lemma agree_next g fuel until ch1 ch2 flags status :
  (forall status, agree SNone (evalloop_n ev fuel until ch1 ch2 flags status) (sem_loop sem fuel until ch1 ch2 flags status)) ->
  wf_signal g ->
  agree g (let! skip := skiploop in
           if Z.land skip (Z.lnot SKIPCONT) =? 0 then evalloop_n ev fuel until ch1 ch2 flags status else ret status)
    (use_up g ;; match caught g with Some g' => ret (status, g') | None => sem_loop sem fuel until ch1 ch2 flags status end).
Proof. intros IH Hg. by apply agree_turn. Qed.

Lemma agree_loop fuel until ch1 ch2 flags status :
  agree SNone (evalloop_n ev fuel until ch1 ch2 flags status) (sem_loop sem fuel until ch1 ch2 flags status).
Proof.
  revert status. induction fuel as [|f IH]; intros status; [apply agree_wild|]. cbn [evalloop_n sem_loop]. cbv zeta.
  apply agree_bind; [apply part|]. intros i g Hg.
  assert (Hnext : forall st, agree g (let! skip := skiploop in
      if Z.land skip (Z.lnot SKIPCONT) =? 0 then evalloop_n ev f until ch1 ch2 flags st else ret st)
    (use_up g ;; match caught g with Some g' => ret (st, g') | None => sem_loop sem f until ch1 ch2 flags st end))
    by (intros st; by apply agree_next).
  destruct g as [|n|n|kind]; cbv beta iota.
  - apply agree_no_skip. cbn -[Z.land bind]. destruct (if until then _ else _); [by apply agree_ret|].
    apply agree_bind; [apply part|]. intros st g Hg'. by apply agree_next.
  - refine (agree_skip_at _ _ _ _ Hg (Hnext _) _). done.
  - refine (agree_skip_at _ _ _ _ Hg (Hnext _) _). simpl. by destruct (n <=? 1).
  - refine (agree_skip_at _ _ _ _ Hg (Hnext _) _). simpl in *. by destruct (Z.eqb_spec kind 0) as [->|]; [destruct Hg; auto|].
Qed.

Lemma agree_words l var body flags status :
  agree SNone (evalfor_words ev l var body flags status) (sem_words sem l var body flags status).
Proof.
  revert status. induction l as [|w l IH]; intros status; [by apply agree_ret|]. cbn [evalfor_words sem_words].
  apply agree_step; [apply on_vars_ctl|]. intros _. apply agree_bind; [apply part|]. intros st g Hg. by apply agree_turn.
Qed.

Lemma agree_in_loop c m : agree SNone c m ->
  agree SNone (enter_loop ;; let! status := c in leave_loop ;; ret status) (sem_in_loop m).
Proof.
  intros Hc. apply agree_blind; [apply blind_enter|]. intros _. apply agree_bind; [done|]. intros st g Hg.
  apply agree_blind; [apply blind_leave|]. intros _. by apply agree_ret.
Qed.

Lemma agree_set g c m : agree g c m -> agree g (let! st := c in modify (set_exit st) ;; ret st) (sem_set m).
Proof.
  intros Hc. apply agree_bind; [done|]. intros st g' Hg. apply agree_blind; [apply blind_set_exit|]. intros _.
  by apply agree_ret.
Qed.

(** Where the code looks at [evalskip] and no signal is there. *)
Lemma agree_look {A} g (h : Z -> Sm A) m :
  agree g (h (evalskip (enc g (mk_ctl 0 0 0 0)))) m -> agree g (bind (get_ctl evalskip) h) m.
Proof. intros Hk s Hs. destruct (Hk s Hs) as (H1 & Q). split; [|done]. rewrite <- H1. by destruct g. Qed.

Lemma agree_cases cases val flags :
  agree SNone (evalcases ev cases val flags) (sem_cases ev sem cases val flags).
Proof.
  induction cases as [|[pats body] cases IH]; [by apply agree_ret|]. cbn [evalcases sem_cases].
  apply agree_look. cbn -[bind]. apply agree_step; [apply match_any_ctl|]. intros [|]; [|done].
  apply agree_look. destruct body; try (by apply agree_ret); apply part.
Qed.

Lemma skip_of_signal g : wf_signal g ->
  (evalskip (enc g (mk_ctl 0 0 0 0)) =? 0) = match g with SNone => true | _ => false end.
Proof. destruct g as [|n|n|kind]; intros Hg; [done..|]. apply Z.eqb_neq. intros E. apply Hg. simpl in *. auto. Qed.

Lemma agree_andor is_or ch1 ch2 flags :
  agree SNone
    (let! status := ev ch1 (Z.land (Z.lor flags (Z.shiftr is_or 1 - 1)) EV_TESTED) in
     let! skip := get_ctl evalskip in
     if (b2z (status =? 0) =? is_or) || negb (skip =? 0) then ret status
     else let! st := ev ch2 flags in modify (set_exit st) ;; ret st)
    (sem_andor sem is_or ch1 ch2 flags).
Proof.
  apply agree_bind; [apply part|]. intros st g Hg. apply agree_look. rewrite (skip_of_signal g Hg).
  destruct g; cbn -[bind]; rewrite ?orb_true_r; try (by apply agree_ret). rewrite orb_false_r.
  destruct (_ =? is_or); [by apply agree_ret|]. apply agree_set, part.
Qed.

Lemma agree_node n flags :
  agree SNone (tree_node signals other_builtin noexec_applet ev k n flags)
    (sem_node ev sem k n flags).
Proof.
  destruct n; cbn [tree_node sem_node]; cbv zeta; try apply agree_with_signal; try apply agree_andor.
  all: try (apply agree_set).
  - (* NREDIR *)
    apply agree_step; [by intros s s' a [= <- _]|]. intros _. apply agree_step; [apply expredir_ctl|]. intros l.
    apply agree_step; [apply on_redir_ctl|]. intros _. apply agree_step; [apply on_redir_ctl|]. intros st.
    apply agree_bind; [destruct (st =? 0); [apply part|by apply agree_ret]|]. intros r g Hg. apply agree_with_signal.
  - (* NIF *)
    apply agree_bind; [apply part|]. intros st g Hg. apply agree_look. rewrite (skip_of_signal g Hg).
    destruct g; cbn [negb]; try (by apply agree_ret). destruct (st =? 0); [apply agree_set, part|].
    destruct n3; apply agree_set; try apply part. by apply agree_ret.
  - apply agree_in_loop, agree_loop.
  - apply agree_in_loop, agree_loop.
  - (* NFOR *)
    apply agree_step; [by intros s s' a [= <- _]|]. intros _. apply agree_step; [apply expandargs_ctl|]. intros words.
    apply agree_in_loop, agree_words.
  - (* NCASE *)
    apply agree_step; [by intros s s' a [= <- _]|]. intros _. apply agree_step; [apply expandarg_ctl|]. intros l.
    apply agree_step; [apply keeps_deref|]. intros val. apply agree_cases.
  - (* NNOT *)
    apply agree_bind; [apply part|]. intros st g Hg. by apply agree_ret.
Qed.

Lemma agree_body n flags :
  agree SNone (evaltree_body signals other_builtin noexec_applet ev k n flags) (sem_body ev sem k n flags).
Proof.
  unfold evaltree_body, sem_body. apply agree_step; [apply keeps_get|]. intros nflag.
  destruct (nflag || is_null n); [apply agree_with_signal|].
  apply agree_bind; [apply agree_with_signal|]. intros [] g Hg. cbn [snd].
  destruct g; try apply agree_with_signal.
  apply agree_bind; [apply agree_node|]. intros st g Hg'. cbn [fst snd]. apply agree_with_signal.
Qed.
End Parts.

Lemma structured_agree n t flags : agree SNone (code n t flags) (structured n t flags).
Proof.
  revert t flags. induction n as [|m IH]; intros t flags; [apply agree_wild|]. by apply agree_body.
Qed.

(** C7. Every tree does exactly what the evaluator with signals as values does: the
    same state, status and exception, and afterwards [evalskip] and [skipcount]
    stand for the signal it returned.  In particular each loop catches the break
    or continue of as many levels as it should, and nothing is run between a
    signal and what catches it. *)
Theorem structured_control n t flags s : evalskip (sh_ctl s) = 0 ->
  evaltree signals other_builtin noexec_applet n t flags s = inject (structured n t flags s).
Proof.
  intros Hs. rewrite <- (proj1 (structured_agree n t flags s Hs)). by rewrite (mod_ctl_none s Hs).
Qed.
End Ctl.

(** A loop left by a break of two levels, inside a loop. *)
Definition break_tree : node :=
  let word t := NARG (lit t) [] in
  let cmd l := NCMD 1 [] (map word l) [] in
  NFOR 1 [word "1"; word "2"]%string
    (NWHILE (cmd ["true"]%string) (NSEMI (cmd ["break"; "2"]%string) (cmd ["echo"; "never"]%string))) (lit "i").

Lemma structured_control_witness :
  demo_eval 20 break_tree 0 demo_shell =
    inject (structured demo_signals (fun _ _ => ret 0) (fun _ => false) 20 break_tree 0 demo_shell) /\
  match demo_eval 20 break_tree 0 demo_shell with Ok s' st => st = 0 /\ sh_ctl s' = mk_ctl 0 0 0 0 | _ => False end.
Proof.
  split; [|by vm_compute].
  by apply (structured_control demo_signals (fun _ _ => ret 0) (fun _ => false) 20 break_tree 0 demo_shell).
Defined.
